(* ===== verification/_CoqProject ===== *)
-Q . S2P
Prelude.v
Ordering.v
Text.v
Float64.v
External.v
Retry.v
JobTypes.v
JobStore.v
JobDedup.v
JobFlows.v
JobCore.v
JobQueries.v
JobAdmin.v
JobAdd.v
JobInvariant.v
JobPreserve.v
JobHandlers.v
JobSubmit.v
JobSnapshot.v
JobSystem.v
JobClaim.v
JobReports.v
JobLeases.v
JobFamily.v
JobLimits.v
JobViews.v
Backend.v
BackendMemory.v
LocalQueue.v
LocalRules.v
LocalRace.v
Worker.v
WorkerRules.v
WorkerMemory.v
Sums.v
Distributed.v
DistributedRules.v
Storage.v
PriorityQueue.v
DeadLetter.v
RateLimit.v
Boost.v
LaneTypes.v
LaneQueue.v
LaneInvariant.v
LaneRules.v
LaneSchedule.v
LaneStorage.v
LaneDrain.v
LaneExamples.v
FloatOrder.v
Metrics.v
Alerts.v
Manager.v
ManagerRules.v
LuaDates.v
RedisKeys.v
RedisReplies.v
RedisDependencies.v
RedisReplyRules.v
RedisCalls.v
RedisLua.v
RedisLeases.v
RedisLeaseRules.v
RedisFinish.v
RedisReports.v
RedisMoves.v
RedisRecords.v
RedisRemovals.v
RedisQueries.v
RedisClient.v
RedisAdds.v
RedisFlows.v
RedisGuards.v
RedisKept.v
RedisKeptAdds.v
RedisSurvival.v
RedisReportRules.v
RedisAddRules.v
RedisDemo.v
