(* ===== verification/Prelude.v ===== *)
(** * a3s-lane: verification development

    The crate [a3s-lane] has two engines.  The job runtime ([src/job/])
    keeps durable jobs with leases, retries, delays, repeats, deduplication and
    parent-child flows behind the trait [JobQueueBackend]; workers claim jobs
    from a backend, renew their leases while a processor runs and report.  The
    lane queue ([src/queue.rs]) executes in-process commands in prioritised
    lanes with bounded concurrency, rate limits, deadline boosts, retries and
    graceful shutdown, under a manager that builds it, owns its scheduler and
    drains it.  Around them stand components: retry policies, rate limiters,
    priority boosting, the dead letter queue, a stable priority queue, command
    storage, partitioning with a worker pool, metrics, alerts, telemetry.

    ** Files and the code they model

    - [Prelude] (this file), [Ordering], [Text], [Float64], [FloatOrder],
      [External], [Sums]: records with updates, machine integers, results;
      comparators and stable sorting; number printing and parsing; IEEE doubles
      and their order; durations, the class [Ext] of third-party code and the
      error type of [src/error.rs]; sums over lists.
    - [Retry] ([src/retry.rs]), [JobTypes] ([src/job/types.rs]): the data model
      and its validation.
    - [JobStore] to [JobAdd], [JobSnapshot]: the in-memory queue of
      [src/job/memory.rs].  The state behind its mutex is [QueueState]; every
      method is a function on it that takes the clock reading, and each
      [_locked] helper is a function of the same name.  [JobStore] has the
      orders, the state, the event log and the guards, [JobDedup] deduplication and repeat
      ownership, [JobFlows] the dependency index and retention, [JobCore] the
      life cycle of a job, [JobQueries] the reads, [JobAdmin] the maintenance
      operations, [JobAdd] the submissions.
    - [JobSystem]: one constructor of [JobOp] per public operation, [exec],
      runs and [reachable] states.
    - [JobInvariant], [JobPreserve], [JobHandlers], [JobSubmit]: the
      well-formedness invariant and its preservation, handler by handler.
    - [JobClaim], [JobReports], [JobLeases], [JobFamily], [JobViews],
      [JobLimits]: the properties of the job queue.
    - [Backend] ([src/job/backend.rs]): the trait as a class, required methods
      and methods with default bodies, and the lease laws a worker relies on.
      [BackendMemory]: the in-memory queue as an instance, with the laws.
    - [LocalQueue] ([src/job/local.rs]): the queue that writes a snapshot to a
      file after every operation, one call at a time, the file system reduced
      to paths, contents and faults of writes; [LocalRules]: its properties.
      [LocalRace]: the same code split at every await, calls that overlap, on a
      volume of files and names, with faults and crashes inside writes.
    - [Worker] ([src/job/worker.rs]): configuration, router, the table of
      active leases, and the atomic regions of a run, interleaved;
      [WorkerRules]: properties over any backend with the lease laws;
      [WorkerMemory]: the worker on the in-memory queue.
    - [PriorityQueue], [DeadLetter], [RateLimit], [Boost], [LaneTypes],
      [Storage], [Distributed], [Metrics], [Alerts]: the files of the same
      subject under [src/] ([LaneTypes] is [config.rs] and [event.rs],
      [Distributed] is [partition.rs] and [distributed.rs], [Metrics] is
      [metrics.rs] and [telemetry.rs]).
    - [LaneQueue]: [Lane], [QueueLifecycle] and [CommandQueue] of
      [src/queue.rs].  The code between two lock acquisitions is one function;
      submissions under way, spawned tasks and retry timers are part of the
      state, so an interleaving is a list of [Action]s.  The check for idleness
      is a chain of regions ([check_step]); [is_idle] is its answer when
      nothing happens in between.
    - [LaneInvariant]: accounting of channels, permits and slots, preserved by
      every action.  [LaneRules], [LaneSchedule],
      [LaneDrain]: the properties; [LaneStorage]: the queue with its storage;
      [LaneExamples]: a concrete run.
    - [Manager] ([src/manager.rs], [src/monitor.rs]): the builder, the handle
      of the scheduler and the calls of [drain] on top of [LaneQueue], and the
      monitor; [ManagerRules]: their properties and a concrete run.
    - [DistributedRules]: properties of the worker pool.  [Metrics] has its
      properties as well, over the interface [MetricsBackend].
    - The Redis queue ([src/job/redis.rs]).  [RedisKeys]: keys, scores, waiting
      times; [LuaDates]: dates in the scripts; [RedisReplies] and
      [RedisDependencies]: the decoders of replies, where indexing can panic;
      [RedisReplyRules]: their properties.  [RedisCalls]: one definition per
      script call, its keys and arguments as data.
      [RedisLua]: Lua values, the Redis commands as a class with laws, and the
      monad of scripts.
    - The scripts themselves, with the methods that send them: [RedisLeases]
      (claim, renew, delay, release), [RedisFinish] (what the scripts that end a
      job share), [RedisReports] (complete, fail), [RedisMoves] (recover,
      promote, reschedule, retry, priorities), [RedisRecords] (data, progress,
      logs, counts, pauses), [RedisRemovals] (remove, clean, drain, take
      children from a parent, obliterate), [RedisQueries] (pages of jobs, orphaned records,
      what the children of a parent came to), [RedisAdds] (one job, several, a
      repeat series), [RedisFlows] (a parent with children, children of an
      active parent).  [RedisClient]: the methods that send several commands, as
      trees of regions among which other clients act (repeat series, orphaned
      records in rounds, the claim that waits).
    - Their properties, over any Redis with the laws: [RedisLeaseRules] (rules of
      [keeps] for the monad, claims), [RedisGuards] (the interface [Guards]
      between a property of the state and the scripts, and the shared
      functions), [RedisKept] and [RedisKeptAdds] (every script keeps what has
      guards), [RedisSurvival], [RedisReportRules] and [RedisAddRules] (what
      follows).  [RedisDemo]: a small Redis and a small [cjson] that satisfy the
      laws.

    ** What the theorems show

    - Job queue, state: every reachable state is well formed
      ([JobClaim.reachable_wf]); leases are exclusive, needed for every report
      and consumed by it ([leases_are_exclusive], [lease_holder_only],
      [report_once]), and survive every operation but a short list that
      [leases_survive] names: a report with the token, the failure of one of the
      job's own children, recovery of expired leases, a forced obliteration, and
      a repeat that draws the job's id.
    - Job queue, behaviour: claim order, failure and backoff, promotion,
      stalled recovery, completion of flow parents, ownership of duplicates,
      repeat series, retention, event log, listings and log pages, and the
      round trip through a snapshot.
    - File-backed queue: as long as no call takes its snapshot while another is
      between snapshot and rename, an acknowledged operation is on disk and a
      crash leaves a state the queue has had ([acknowledged_is_durable],
      [crash_consistent]); without that, the last writer wins, and the code does
      not ensure it ([stale_snapshot_wins]); calls one after the other are
      atomic ([serial_calls_refine]); reopening revokes leases.
    - Worker: a run whose lease is lost reports nothing; what a run reports;
      [run_until_idle] drains.
    - Lane queue: every command is owned, answered or lost exactly once in all
      interleavings; concurrency bound; choice of the scheduler; outcome of an
      attempt; an idle queue has finished; shutdown is final; without panics,
      lanes that are registered, have room and are neither throttled nor boosted
      can drain (with a measure of the steps); a panicking
      command leaks its slot; composed operations refine the lane-level steps;
      the storage has every command that is not answered yet.
    - Manager: the builder configures what was asked for, one scheduler runs at
      most; a drain that returns has seen a moment with nothing under way, and
      under the same conditions on the lanes a drain of a manager that was shut
      down while its scheduler runs can come to its end; the statistics tell an
      idle queue and the monitor warns as it should.
    - Components: sliding windows are exact, token buckets conserve tokens,
      boosts pick the tightest threshold, the priority queue is stable across
      the rebase of its counters, dead letters keep the newest, backoff delays;
      a pool accounts for every command and its shutdown can block; round
      robin is even; counters count and histograms have the order statistics;
      alerts follow their thresholds; OpenTelemetry gauges accumulate.
    - Redis queue: an accepted submission is stored and listed, or answers with
      a job stored before ([redis_add_job_stores]); a claim gives a lease, and a
      lease survives every call, wherever a script stops, unless the call reports
      with its token or obliterates the queue by force, and the expiry of every
      key but its own lock ([redis_leases_survive]), also among the commands of
      the methods that send several ([redis_leases_survive_errands]); a report
      is accepted once, whatever follows; a
      failed attempt with retries left comes back, a stalled job waits again,
      and a parent whose child stalls out can be lost
      ([recovery_strands_parents]); the renewal of one lease cannot work; reading
      a repeat series repairs it, and may forget one submitted meanwhile
      ([reading_repairs], [reading_forgets_series]); a claim that finds nothing
      leaves the marker of the next delayed job, so that waiting for it is a busy
      loop; no reply makes the client panic, and what the scripts render is read
      back; scores order the waiting jobs up to a priority; days follow the
      calendar, and dates the scripts write are read back.

    ** Representation

    Unsigned integers are [Z] with the wrap-around or saturation written where
    the code has it; [usize] counters that only count list elements are [nat].
    A [HashMap] is a [gmap]; where the code iterates one, the order is
    [hash_iter] of [Ext], any permutation.  Dates are nanoseconds, and the
    date arithmetic of [chrono] (which can fail), [serde_json] values and the
    [cron] parser are fields of [Ext]; [ExtLaws] states what the theorems use
    of them.  JSON texts are classes of their own ([SnapshotCodec],
    [StorageCodec], [FileContents]) with round-trip laws.  [demo_ext] is the
    instance the witnesses run on.

    Concurrency: a component whose code awaits has its calls under way in its
    state and one step per region between two awaits, so that a list of steps
    is an interleaving ([LaneQueue], [Manager], [Worker], [Distributed],
    [LocalRace]).

    Fuel: [collect_removable_unprocessed_children] recurses with the number of
    jobs plus one as fuel, enough because every level marks a job
    ([JobLimits.removable_children_spec]); [run_until_idle] has the bound of
    the code; [powi_loop] has 32 rounds for a 32-bit exponent;
    [fraction_digits] nine for nanoseconds; [claim_all] one more than the
    length of the queue.  The Redis script that removes the children of a
    parent calls itself; how deep Lua lets it is [lua_stack] of [LuaLibs].  The loops of the script
    that obliterates a queue have [fuel], and
    [RedisAddRules.redis_obliterate_empties] gives how much is enough, from what
    [SCAN] promises; the rounds of [RedisClient] that follow a cursor have fuel
    that makes no difference once it exceeds what is left to visit
    ([orphan_rounds_end], [repeat_pages_end]), and a waiting claim has one token
    for each round.

    ** Not modelled

    - Connection handling in [src/job/redis.rs]; its only pipeline, of two
      settings, runs as one region.
    - Event subscription streams, OpenTelemetry instruments and serde
      encodings: third-party code with no state of this crate. *)
From stdpp Require Export gmap strings list fin_maps.

#[global] Set Default Goal Selector "!".
#[global] Set Warnings "-clear-no-such-hyp".
Open Scope Z_scope.

(** ** Record update

    [r <| field := v |>] is the record [r] with one field replaced and
    [r <| field ::= f |>] the record with one field transformed: the Rust
    assignment [r.field = v] on a value.  A record takes part by declaring its
    eta-expansion as an instance of [Eta]. *)
Class Eta (R : Type) := eta : R → R.

Class Updater {R E : Type} (proj : R → E) := upd : (E → E) → R → R.
Arguments upd {R E} proj {_} f r.

Ltac solve_updater :=
  lazymatch goal with
  | |- @Updater ?R ?E ?proj =>
    exact (fun (f : E → E) (r : R) => ltac:(
      let b := eval hnf in (@eta R _ r) in
      lazymatch b with
      | context C[proj r] => let t := context C[f (proj r)] in exact t
      end))
  end.
#[export] Hint Extern 1 (Updater _) => solve_updater : typeclass_instances.

Declare Scope lane_scope.
Delimit Scope lane_scope with lane.
Notation "x <| p := v |>" := (upd p (λ _, v) x)
  (at level 1, left associativity, p at level 13, v at level 200,
   format "x  <|  p  :=  v  |>") : lane_scope.
Notation "x <| p ::= f |>" := (upd p f x)
  (at level 1, left associativity, p at level 13, f at level 200,
   format "x  <|  p  ::=  f  |>") : lane_scope.
Open Scope lane_scope.

(** ** Machine-width integers

    Unsigned integers are values of [Z]; the operations of the code that depend
    on the width are written out. *)
Definition U8_MAX : Z := 2 ^ 8 - 1.
Definition U32_MAX : Z := 2 ^ 32 - 1.
Definition U64_MAX : Z := 2 ^ 64 - 1.
Definition I32_MIN : Z := - 2 ^ 31.
Definition I64_MIN : Z := - 2 ^ 63.
Definition I64_MAX : Z := 2 ^ 63 - 1.

(** [uN::saturating_add], [uN::saturating_sub]. *)
Definition sat_add (max a b : Z) : Z := Z.min max (a + b).
Definition sat_sub (a b : Z) : Z := Z.max 0 (a - b).

(** [x as i32] on a [u32]: two's complement reinterpretation. *)
Definition as_i32 (x : Z) : Z :=
  let y := x `mod` 2 ^ 32 in if y <? 2 ^ 31 then y else y - 2 ^ 32.

Lemma sat_add_bound max a b : sat_add max a b ≤ max.
Proof. unfold sat_add. lia. Qed.

Lemma sat_add_le max a b : a ≤ max → 0 ≤ b → a ≤ sat_add max a b.
Proof. unfold sat_add. lia. Qed.

Lemma sat_add_exact max a b : a + b ≤ max → sat_add max a b = a + b.
Proof. unfold sat_add. lia. Qed.

Lemma sat_sub_nonneg a b : 0 ≤ sat_sub a b.
Proof. unfold sat_sub. lia. Qed.

Lemma as_i32_small x : 0 ≤ x < 2 ^ 31 → as_i32 x = x.
Proof.
  intros H. unfold as_i32. rewrite Z.mod_small by lia.
  destruct (Z.ltb_spec x (2 ^ 31)); lia.
Qed.

(** ** Results

    [Result<T>] of [src/error.rs], generic in the error here. *)
Inductive outcome (E A : Type) : Type :=
| Ok (a : A)
| Err (e : E).
Arguments Ok {E A} a.
Arguments Err {E A} e.

Definition is_ok {E A} (r : outcome E A) : bool :=
  match r with Ok _ => true | Err _ => false end.

(** The [?] operator in a function without mutable state. *)
Definition try_bind {E A B} (r : outcome E A) (k : A → outcome E B) : outcome E B :=
  match r with Ok a => k a | Err e => Err e end.
Notation "'let?' x ':=' r 'in' k" := (try_bind r (λ x, k))
  (at level 10, x name, r at level 100, k at level 200) : lane_scope.

(** The [?] operator on the way to a result paired with the state reached so
    far: an early return keeps the mutations made before it. *)
Notation "'let!' x ':=' r 'or' s 'in' k" :=
  (match r with Ok x => k | Err e => (s, Err e) end)
  (at level 10, x name, r at level 100, s at level 100, k at level 200) : lane_scope.

(** ** Option helpers *)
Definition unwrap_or {A} (o : option A) (d : A) : A :=
  match o with Some a => a | None => d end.

Definition is_none {A} (o : option A) : bool :=
  match o with None => true | Some _ => false end.
Definition is_some {A} (o : option A) : bool :=
  match o with None => false | Some _ => true end.

Lemma is_some_true {A} (o : option A) : is_some o = true ↔ is_Some o.
Proof. destruct o; simpl; split; eauto; try done; by intros [? ?]. Qed.

Lemma is_none_true {A} (o : option A) : is_none o = true ↔ o = None.
Proof. by destruct o. Qed.

(** ** Loops

    A loop over a list keeps what each of its iterations keeps. *)
Lemma foldl_keeps {A B} (P : A → Prop) (f : A → B → A) l a :
  (∀ a b, P a → P (f a b)) → P a → P (foldl f a l).
Proof. intros Hf. revert a. induction l as [|b l IH]; simpl; auto. Qed.

Lemma foldl_keeps_forall {A B} (P : A → Prop) (Q : B → Prop) (f : A → B → A) l a :
  (∀ a b, P a → Q b → P (f a b)) → Forall Q l → P a → P (foldl f a l).
Proof.
  intros Hf Hl. revert a. induction Hl as [|b l Hb Hl IH]; simpl; auto.
Qed.

(** ** Collecting a map from its entries *)

(** [collect] into a [HashMap]: a later entry replaces an earlier one. *)
Definition collect_map {A} (l : list (string * A)) : gmap string A :=
  foldl (λ m e, <[ e.1 := e.2 ]> m) ∅ l.

Lemma collect_map_fmap {A B} (g : A → B) (l : list (string * A)) :
  collect_map (prod_map id g <$> l) = g <$> collect_map l.
Proof.
  unfold collect_map. rewrite <- (fmap_empty g). generalize (∅ : gmap string A).
  induction l as [|[k a] l IH]; intros m; [done|]. rewrite fmap_cons. cbn [foldl prod_map fst snd id].
  by rewrite <- fmap_insert, IH.
Qed.

Lemma collect_map_lookup {A} (l : list (string * A)) (m0 : gmap string A) k a :
  NoDup (l.*1) → (foldl (λ m e, <[ e.1 := e.2 ]> m) m0 l) !! k = Some a ↔
  (k, a) ∈ l ∨ (¬ (k ∈ l.*1) ∧ m0 !! k = Some a).
Proof.
  revert m0. induction l as [|[k' a'] l IH]; intros m0 Hnd; cbn [foldl].
  { rewrite fmap_nil. set_solver. }
  rewrite fmap_cons in *. apply NoDup_cons in Hnd as [Hk' Hnd]. rewrite IH by done. cbn [fst snd] in *.
  rewrite lookup_insert_Some, !elem_of_cons.
  assert ((k, a) ∈ l → k ∈ l.*1) by (intros; apply list_elem_of_fmap; by exists (k, a)).
  naive_solver.
Qed.

Lemma collect_map_perm {A} (l : list (string * A)) (m : gmap string A) :
  l ≡ₚ map_to_list m → collect_map l = m.
Proof.
  intros Hp. assert (NoDup l.*1) as Hnd by (rewrite Hp; apply NoDup_fst_map_to_list).
  apply map_eq. intros k. apply option_eq. intros a. unfold collect_map.
  rewrite collect_map_lookup by done. rewrite Hp, elem_of_map_to_list, lookup_empty. naive_solver.
Qed.

Lemma collect_map_nil {A} : collect_map ([] : list (string * A)) = ∅.
Proof. done. Qed.

(** ** Automation *)

(** Case analysis on every [match]/[if] discriminee in the goal or in a
    hypothesis, innermost first, recording the equation. *)
Ltac case_step :=
  match goal with
  | |- context [match ?x with _ => _ end] =>
      lazymatch x with context [match _ with _ => _ end] => fail | _ => idtac end;
      let E := fresh "E" in destruct x eqn:E
  end.
Ltac cases := repeat (case_step; simpl in *; simplify_eq).

(** Turn boolean tests of the code into propositions. *)
Ltac bools :=
  repeat match goal with
  | H : (_ && _) = true |- _ => apply andb_true_iff in H as [? ?]
  | H : (_ || _) = false |- _ => apply orb_false_iff in H as [? ?]
  | H : negb _ = true |- _ => apply negb_true_iff in H
  | H : negb _ = false |- _ => apply negb_false_iff in H
  | H : bool_decide _ = true |- _ => apply bool_decide_eq_true in H
  | H : bool_decide _ = false |- _ => apply bool_decide_eq_false in H
  | H : (_ <=? _) = true |- _ => apply Z.leb_le in H
  | H : (_ <=? _) = false |- _ => apply Z.leb_gt in H
  | H : (_ <? _) = true |- _ => apply Z.ltb_lt in H
  | H : (_ <? _) = false |- _ => apply Z.ltb_ge in H
  | H : (_ =? _) = true |- _ => apply Z.eqb_eq in H
  | H : (_ =? _) = false |- _ => apply Z.eqb_neq in H
  | H : String.eqb _ _ = true |- _ => apply String.eqb_eq in H
  | H : String.eqb _ _ = false |- _ => apply String.eqb_neq in H
  end.
