(* ===== verification/Ordering.v ===== *)
(** * Comparators, stable sorting and selection

    Rust's [Ordering] values and the three ways the code uses them:
    [a.cmp(b).then_with(..)] chains, [sort_by] and [Iterator::min_by].  A
    comparator is a function into [comparison]; [LawfulCmp] states what a chain
    of lawful comparators keeps.  The main results are that sorting with a
    comparator that separates the elements does not depend on the order of the
    input, and neither does the minimum. *)
From Stdlib Require Import Sorted.
From S2P Require Import Prelude.

(** ** Comparators *)
Definition then_with (a b : comparison) : comparison :=
  match a with Eq => b | _ => a end.

Definition cmp_on {A B} (c : B → B → comparison) (f : A → B) : A → A → comparison :=
  λ x y, c (f x) (f y).

Definition cmp_then {A} (c d : A → A → comparison) : A → A → comparison :=
  λ x y, then_with (c x y) (d x y).

(** [ordering.reverse()]. *)
Definition cmp_reverse {A} (c : A → A → comparison) : A → A → comparison :=
  λ x y, CompOpp (c x y).

(** [Ord] on [Option]: [None] is below every [Some]. *)
Definition option_cmp {A} (c : A → A → comparison) (x y : option A) : comparison :=
  match x, y with
  | None, None => Eq
  | None, Some _ => Lt
  | Some _, None => Gt
  | Some a, Some b => c a b
  end.

Class LawfulCmp {A} (c : A → A → comparison) : Prop := {
  cmp_opp : ∀ x y, c y x = CompOpp (c x y);
  cmp_eq_l : ∀ x y z, c x y = Eq → c x z = c y z;
  cmp_lt_trans : ∀ x y z, c x y = Lt → c y z = Lt → c x z = Lt;
}.

Arguments cmp_opp {A} c {_} x y.
Arguments cmp_eq_l {A} c {_} x y z _.
Arguments cmp_lt_trans {A} c {_} x y z _ _.

(** [c] separates elements: it answers [Eq] only on equal ones. *)
Class SeparatingCmp {A} (c : A → A → comparison) : Prop :=
  cmp_separates : ∀ x y, c x y = Eq → x = y.

Section cmp_facts.
Context {A} (c : A → A → comparison) `{!LawfulCmp c}.

Lemma cmp_refl x : c x x = Eq.
Proof. pose proof (cmp_opp c x x) as H. by destruct (c x x). Qed.

Lemma cmp_eq_r x y z : c x y = Eq → c z x = c z y.
Proof. intros H. rewrite (cmp_opp c x z), (cmp_opp c y z). by rewrite (cmp_eq_l c x y z H). Qed.

(** The relation the sort uses: [x] may stand before [y]. *)
Definition cmp_le (x y : A) : Prop := c x y ≠ Gt.

#[export] Instance cmp_le_dec : RelDecision cmp_le.
Proof. intros x y. unfold cmp_le. destruct (c x y); [left|left|right]; done || intros H; by apply H. Defined.

#[export] Instance cmp_le_trans : Transitive cmp_le.
Proof.
  intros x y z. unfold cmp_le. destruct (c x y) eqn:E1; [| |done].
  - by rewrite (cmp_eq_l c x y z E1).
  - destruct (c y z) eqn:E2; [| |done].
    + intros _ _. rewrite <- (cmp_eq_r y z x E2). congruence.
    + intros _ _. rewrite (cmp_lt_trans c x y z E1 E2). done.
Qed.

Lemma cmp_le_total x y : cmp_le x y ∨ cmp_le y x.
Proof. unfold cmp_le. rewrite (cmp_opp c x y). destruct (c x y); simpl; auto. Qed.

Lemma cmp_le_antisymm x y : cmp_le x y → cmp_le y x → c x y = Eq.
Proof. unfold cmp_le. rewrite (cmp_opp c x y). by destruct (c x y). Qed.
End cmp_facts.

#[export] Instance lawful_on {A B} (c : B → B → comparison) (f : A → B) :
  LawfulCmp c → LawfulCmp (cmp_on c f).
Proof.
  intros [H1 H2 H3]. split; unfold cmp_on; eauto.
Qed.

#[export] Instance lawful_then {A} (c d : A → A → comparison) :
  LawfulCmp c → LawfulCmp d → LawfulCmp (cmp_then c d).
Proof.
  intros Hc Hd. unfold cmp_then, then_with. split.
  - intros x y. rewrite (cmp_opp c x y), (cmp_opp d x y). by destruct (c x y).
  - intros x y z H. destruct (c x y) eqn:E; try done.
    by rewrite (cmp_eq_l c x y z E), (cmp_eq_l d x y z H).
  - intros x y z H1 H2.
    destruct (c x y) eqn:E1, (c y z) eqn:E2; try done.
    + rewrite (cmp_eq_l c x y z E1), E2. by eapply (cmp_lt_trans d).
    + by rewrite (cmp_eq_l c x y z E1), E2.
    + by rewrite <- (cmp_eq_r c y z x E2), E1.
    + by rewrite (cmp_lt_trans c x y z E1 E2).
Qed.

#[export] Instance lawful_reverse {A} (c : A → A → comparison) :
  LawfulCmp c → LawfulCmp (cmp_reverse c).
Proof.
  intros Hc. unfold cmp_reverse. split.
  - intros x y. by rewrite (cmp_opp c x y).
  - intros x y z H. f_equal. apply (cmp_eq_l c). by destruct (c x y).
  - intros x y z H1 H2.
    assert (c z x = Lt) as Hzx.
    { eapply (cmp_lt_trans c); [rewrite (cmp_opp c y z) | rewrite (cmp_opp c x y)];
        [by rewrite H2 | by rewrite H1]. }
    rewrite (cmp_opp c z x), Hzx. done.
Qed.

#[export] Instance lawful_option {A} (c : A → A → comparison) :
  LawfulCmp c → LawfulCmp (option_cmp c).
Proof.
  intros Hc. split.
  - intros [x|] [y|]; simpl; try done. apply (cmp_opp c).
  - intros [x|] [y|] [z|]; simpl; try done. apply (cmp_eq_l c).
  - intros [x|] [y|] [z|]; simpl; try done. apply (cmp_lt_trans c).
Qed.

#[export] Instance lawful_Z : LawfulCmp Z.compare.
Proof.
  split.
  - intros x y. apply Z.compare_antisym.
  - intros x y z ->%Z.compare_eq. done.
  - intros x y z. rewrite !Z.compare_lt_iff. lia.
Qed.

#[export] Instance separating_Z : SeparatingCmp Z.compare.
Proof. intros x y. apply Z.compare_eq. Qed.

Lemma ascii_compare_N a b : Ascii.compare a b = N.compare (Ascii.N_of_ascii a) (Ascii.N_of_ascii b).
Proof. done. Qed.

#[export] Instance lawful_ascii : LawfulCmp Ascii.compare.
Proof.
  split; intros *; rewrite !ascii_compare_N.
  - apply N.compare_antisym.
  - by intros ->%N.compare_eq.
  - rewrite !N.compare_lt_iff. lia.
Qed.

#[export] Instance separating_string : SeparatingCmp String.compare.
Proof. intros x y. apply String.compare_eq_iff. Qed.

#[export] Instance lawful_string : LawfulCmp String.compare.
Proof.
  split.
  - intros x y. apply String.compare_antisym.
  - by intros x y z ->%String.compare_eq_iff.
  - intros x. induction x as [|a x IH]; intros [|b y] [|d z]; simpl; try done.
    destruct (Ascii.compare a b) eqn:E1, (Ascii.compare b d) eqn:E2; try done; intros H1 H2.
    + rewrite (cmp_eq_l Ascii.compare a b d E1), E2. by eapply IH.
    + by rewrite (cmp_eq_l Ascii.compare a b d E1), E2.
    + by rewrite <- (cmp_eq_r Ascii.compare b d a E2), E1.
    + by rewrite (cmp_lt_trans Ascii.compare a b d E1 E2).
Qed.

(** ** Stable sorting: [slice::sort_by] *)
Section sort.
Context {A : Type} (c : A → A → comparison).

Fixpoint insert_by (x : A) (l : list A) : list A :=
  match l with
  | [] => [x]
  | y :: l' => match c x y with Gt => y :: insert_by x l' | _ => x :: l end
  end.

Definition sort_by (l : list A) : list A := foldr insert_by [] l.

Lemma insert_by_perm x l : insert_by x l ≡ₚ x :: l.
Proof.
  induction l as [|y l IH]; simpl; [done|].
  destruct (c x y); [done|done|]. rewrite IH. apply Permutation_swap.
Qed.

Lemma sort_by_perm l : sort_by l ≡ₚ l.
Proof.
  induction l as [|x l IH]; simpl; [done|]. by rewrite insert_by_perm, IH.
Qed.

Lemma sort_by_length l : length (sort_by l) = length l.
Proof. by rewrite sort_by_perm. Qed.

Lemma elem_of_sort_by x l : x ∈ sort_by l ↔ x ∈ l.
Proof. by rewrite sort_by_perm. Qed.

Context `{!LawfulCmp c}.

Lemma insert_by_sorted x l :
  StronglySorted (cmp_le c) l → StronglySorted (cmp_le c) (insert_by x l).
Proof.
  induction 1 as [|y l Hl IH Hy]; simpl; [repeat constructor|].
  assert (c x y ≠ Gt → StronglySorted (cmp_le c) (x :: y :: l)) as Hin.
  { intros Hle. constructor; [by constructor|]. constructor; [done|].
    eapply Forall_impl; [exact Hy|]. intros z Hz. by eapply cmp_le_trans. }
  destruct (c x y) eqn:E; [by apply Hin|by apply Hin|].
  constructor; [done|]. rewrite insert_by_perm. constructor; [|done].
  unfold cmp_le. rewrite (cmp_opp c x y), E. done.
Qed.

Lemma sort_by_sorted l : StronglySorted (cmp_le c) (sort_by l).
Proof. induction l; simpl; [constructor | by apply insert_by_sorted]. Qed.

(** Two sorted permutations of a list whose elements [c] separates are the
    same list. *)
Lemma sorted_perm_unique l l' :
  (∀ x y, x ∈ l → y ∈ l → c x y = Eq → x = y) →
  StronglySorted (cmp_le c) l → StronglySorted (cmp_le c) l' → l ≡ₚ l' → l = l'.
Proof.
  intros Hsep Hl. revert l'. induction Hl as [|x l Hl IH Hx]; intros l' Hl' Hp.
  { by apply Permutation_nil_l in Hp. }
  destruct Hl' as [|y l' Hl' Hy]; [by apply Permutation_nil_r in Hp|].
  assert (x = y) as ->.
  { assert (x ∈ y :: l') as Hxin by (rewrite <- Hp; left).
    assert (y ∈ x :: l) as Hyin by (rewrite Hp; left).
    apply elem_of_cons in Hxin as [->|Hxin]; [done|].
    apply elem_of_cons in Hyin as [->|Hyin]; [done|].
    rewrite Forall_forall in Hx, Hy.
    apply Hsep; [left|right; done|]. apply cmp_le_antisymm; [done|by apply Hx|by apply Hy]. }
  f_equal. apply IH; [|done|by eapply Permutation_cons_inv].
  intros a b Ha Hb. apply Hsep; by right.
Qed.

Lemma sort_by_perm_unique l l' :
  (∀ x y, x ∈ l → y ∈ l → c x y = Eq → x = y) → l ≡ₚ l' → sort_by l = sort_by l'.
Proof.
  intros Hsep Hp. apply sorted_perm_unique; try apply sort_by_sorted.
  - intros x y. rewrite !elem_of_sort_by. apply Hsep.
  - by rewrite !sort_by_perm.
Qed.

(** Sorting a sorted list changes nothing. *)
Lemma sort_by_id l : StronglySorted (cmp_le c) l → sort_by l = l.
Proof.
  induction 1 as [|x l Hl IH Hx]; [done|]. simpl. rewrite IH.
  destruct Hx as [|y l Hxy Hx]; [done|]. simpl.
  unfold cmp_le in Hxy. by destruct (c x y).
Qed.
End sort.

(** ** Selection: [Iterator::min_by] keeps the first of equal minima *)
Section min_by.
Context {A : Type} (c : A → A → comparison).

Fixpoint min_from (best : A) (l : list A) : A :=
  match l with
  | [] => best
  | y :: l' => min_from (match c best y with Gt => y | _ => best end) l'
  end.

Definition min_by (l : list A) : option A :=
  match l with [] => None | x :: l' => Some (min_from x l') end.

Lemma min_from_elem b l : min_from b l = b ∨ min_from b l ∈ l.
Proof.
  revert b. induction l as [|y l IH]; intros b; simpl; [by left|].
  destruct (c b y).
  - destruct (IH b) as [->|?]; [by left|right; by right].
  - destruct (IH b) as [->|?]; [by left|right; by right].
  - destruct (IH y) as [->|?]; right; [left|by right].
Qed.

Lemma min_by_elem l x : min_by l = Some x → x ∈ l.
Proof.
  destruct l as [|a l]; simpl; [done|]. intros [= <-].
  destruct (min_from_elem a l) as [->|?]; [left|by right].
Qed.

Lemma min_by_None l : min_by l = None ↔ l = [].
Proof. by destruct l. Qed.

Context `{!LawfulCmp c}.

Lemma min_from_le b l : cmp_le c (min_from b l) b ∧ ∀ x, x ∈ l → cmp_le c (min_from b l) x.
Proof.
  revert b. induction l as [|y l IH]; intros b; simpl.
  { split; [|by intros x ?%not_elem_of_nil]. unfold cmp_le. by rewrite (cmp_refl c). }
  set (m := match c b y with Gt => y | _ => b end).
  destruct (IH m) as [Hm Hl].
  assert (cmp_le c m b ∧ cmp_le c m y) as [Hmb Hmy].
  { unfold m, cmp_le. destruct (c b y) eqn:E; rewrite ?(cmp_refl c), ?E; try done.
    by rewrite (cmp_opp c b y), E. }
  split; [by eapply cmp_le_trans|].
  intros x [->|Hx]%elem_of_cons; [by eapply cmp_le_trans|by apply Hl].
Qed.

Lemma min_by_le l x y : min_by l = Some x → y ∈ l → cmp_le c x y.
Proof.
  destruct l as [|a l]; simpl; [done|]. intros [= <-].
  destruct (min_from_le a l) as [H1 H2].
  intros [->|Hy]%elem_of_cons; auto.
Qed.

(** The minimum of a list whose elements [c] separates does not depend on
    the order of the list. *)
Lemma min_by_perm l l' :
  (∀ x y, x ∈ l → y ∈ l → c x y = Eq → x = y) → l ≡ₚ l' → min_by l = min_by l'.
Proof.
  intros Hsep Hp.
  destruct (min_by l) as [x|] eqn:E1, (min_by l') as [y|] eqn:E2; [| | |done].
  - f_equal. pose proof (min_by_elem _ _ E1) as Hx. pose proof (min_by_elem _ _ E2) as Hy.
    assert (y ∈ l) by by rewrite Hp. assert (x ∈ l') by by rewrite <- Hp.
    apply Hsep; [done..|].
    apply cmp_le_antisymm; [done|by eapply min_by_le|by eapply min_by_le].
  - apply min_by_None in E2 as ->. apply Permutation_length in Hp. by destruct l.
  - apply min_by_None in E1 as ->. apply Permutation_length in Hp. by destruct l'.
Qed.
End min_by.
