(* ===== verification/Text.v ===== *)
(** * Strings as the code uses them

    A Rust string is a byte string.  The operations here are the ones the job
    runtime relies on: decimal printing and [str::parse] for [u64] and [i64],
    [split_once], [starts_with], [trim] (Unicode white space in UTF-8) and the
    round trip of printed numbers. *)
From Stdlib Require Import Ascii.
From stdpp Require Export pretty.
From S2P Require Import Prelude.

(** ** Decimal numbers *)

(** [n.to_string()] for an unsigned integer. *)
Definition show_nat (n : Z) : string := pretty (Z.to_N n).

Definition digit_value (a : Ascii.ascii) : option Z :=
  let n := Z.of_N (Ascii.N_of_ascii a) in
  if (48 <=? n) && (n <=? 57) then Some (n - 48) else None.

Fixpoint parse_digits (acc : Z) (s : string) : option Z :=
  match s with
  | EmptyString => Some acc
  | String a s' =>
      match digit_value a with
      | Some d => parse_digits (10 * acc + d) s'
      | None => None
      end
  end.

(** At least one digit, nothing else, and a value within the type. *)
Definition parse_magnitude (s : string) : option Z :=
  match s with EmptyString => None | _ => parse_digits 0 s end.

Definition parse_u64 (s : string) : option Z :=
  let digits := match s with String "+"%char s' => s' | _ => s end in
  match parse_magnitude digits with
  | Some n => if n <=? U64_MAX then Some n else None
  | None => None
  end.

Definition parse_i64 (s : string) : option Z :=
  match s with
  | String "-"%char s' =>
      match parse_magnitude s' with
      | Some n => if I64_MIN <=? - n then Some (- n) else None
      | None => None
      end
  | _ =>
      let digits := match s with String "+"%char s' => s' | _ => s end in
      match parse_magnitude digits with
      | Some n => if n <=? I64_MAX then Some n else None
      | None => None
      end
  end.

(** [s.split_once(c)] on a one-byte pattern. *)
Fixpoint split_once (c : Ascii.ascii) (s : string) : option (string * string) :=
  match s with
  | EmptyString => None
  | String a s' =>
      if Ascii.eqb a c then Some (EmptyString, s')
      else match split_once c s' with
           | Some (l, r) => Some (String a l, r)
           | None => None
           end
  end.

Definition starts_with (p s : string) : bool := String.prefix p s.

(** ** [str::trim]

    The code points with the Unicode property White_Space, as UTF-8. *)
Definition white_space : list string :=
  let b := λ l : list N, String.string_of_list_ascii (Ascii.ascii_of_N <$> l) in
  (b <$> [[9]; [10]; [11]; [12]; [13]; [32]; [194; 133]; [194; 160]; [225; 154; 128];
    [226; 128; 168]; [226; 128; 169]; [226; 128; 175]; [226; 129; 159]; [227; 128; 128]]%N)
  ++ ((λ k : nat, b [226; 128; 128 + N.of_nat k]%N) <$> seq 0 11).

Fixpoint strip_prefix (p s : string) : option string :=
  match p, s with
  | EmptyString, _ => Some s
  | String a p', String b s' => if Ascii.eqb a b then strip_prefix p' s' else None
  | String _ _, EmptyString => None
  end.

Fixpoint first_some {A B} (f : A → option B) (l : list A) : option B :=
  match l with
  | [] => None
  | x :: l' => match f x with Some y => Some y | None => first_some f l' end
  end.

(** Removes leading white space; every step drops at least one byte, so the
    length of the string is enough fuel. *)
Fixpoint trim_start_fuel (n : nat) (ws : list string) (s : string) : string :=
  match n with
  | O => s
  | S n' =>
      match first_some (λ p, strip_prefix p s) ws with
      | Some s' => trim_start_fuel n' ws s'
      | None => s
      end
  end.

Fixpoint string_rev_app (s acc : string) : string :=
  match s with
  | EmptyString => acc
  | String a s' => string_rev_app s' (String a acc)
  end.
Definition string_rev (s : string) : string := string_rev_app s EmptyString.

Definition trim_start (s : string) : string :=
  trim_start_fuel (String.length s) white_space s.
Definition trim_end (s : string) : string :=
  string_rev (trim_start_fuel (String.length s) (string_rev <$> white_space) (string_rev s)).
Definition trim (s : string) : string := trim_end (trim_start s).

Definition is_blank (s : string) : bool := String.eqb (trim s) EmptyString.

(** ** Round trip of printed numbers *)
Lemma digit_value_char n : (n < 10)%N → digit_value (pretty_N_char n) = Some (Z.of_N n).
Proof.
  intros H.
  assert (n = 0 ∨ n = 1 ∨ n = 2 ∨ n = 3 ∨ n = 4 ∨ n = 5 ∨ n = 6 ∨ n = 7 ∨ n = 8 ∨ n = 9)%N
    as Hn by lia.
  repeat destruct Hn as [->|Hn]; subst; reflexivity.
Qed.

Lemma parse_digits_go x s : parse_digits 0 (pretty_N_go x s) = parse_digits (Z.of_N x) s.
Proof.
  revert s. induction (N.lt_wf_0 x) as [x _ IH]; intros s.
  destruct (decide (x = 0)%N) as [->|Hx]; [by rewrite pretty_N_go_0|].
  rewrite pretty_N_go_step by lia.
  rewrite IH by (apply N.div_lt; lia). simpl.
  rewrite digit_value_char by (apply N.mod_lt; lia).
  rewrite N2Z.inj_div, N2Z.inj_mod. f_equal.
  symmetry. apply Z.div_mod. lia.
Qed.

Lemma pretty_N_go_nonempty x s : s ≠ EmptyString → pretty_N_go x s ≠ EmptyString.
Proof.
  revert s. induction (N.lt_wf_0 x) as [x _ IH]; intros s Hs.
  destruct (decide (x = 0)%N) as [->|Hx]; [by rewrite pretty_N_go_0|].
  rewrite pretty_N_go_step by lia. apply IH; [apply N.div_lt; lia|done].
Qed.

Lemma show_nat_nonempty n : show_nat n ≠ EmptyString.
Proof.
  unfold show_nat, pretty, pretty_N. case_decide; [done|].
  rewrite pretty_N_go_step by lia. by apply pretty_N_go_nonempty.
Qed.

Lemma parse_magnitude_show n : 0 ≤ n → parse_magnitude (show_nat n) = Some n.
Proof.
  intros Hn. unfold parse_magnitude.
  pose proof (show_nat_nonempty n) as Hne.
  destruct (show_nat n) eqn:E; [done|]. rewrite <- E.
  unfold show_nat, pretty, pretty_N. case_decide as Hz.
  - replace n with 0 by lia. reflexivity.
  - rewrite parse_digits_go. simpl. by rewrite Z2N.id.
Qed.

(** The bytes of a printed number are digits. *)
Fixpoint string_forall (P : Ascii.ascii → bool) (s : string) : bool :=
  match s with EmptyString => true | String a s' => P a && string_forall P s' end.

Definition is_digit (a : Ascii.ascii) : bool := is_some (digit_value a).

Lemma pretty_N_go_digits x s :
  string_forall is_digit s = true → string_forall is_digit (pretty_N_go x s) = true.
Proof.
  revert s. induction (N.lt_wf_0 x) as [x _ IH]; intros s Hs.
  destruct (decide (x = 0)%N) as [->|Hx]; [by rewrite pretty_N_go_0|].
  rewrite pretty_N_go_step by lia. apply IH; [apply N.div_lt; lia|].
  simpl. unfold is_digit. by rewrite digit_value_char by (apply N.mod_lt; lia).
Qed.

Lemma show_nat_digits n : string_forall is_digit (show_nat n) = true.
Proof.
  unfold show_nat, pretty, pretty_N. case_decide; [done|]. by apply pretty_N_go_digits.
Qed.

Lemma digits_first s a s' :
  string_forall is_digit s = true → s = String a s' → a ≠ "+"%char ∧ a ≠ "-"%char.
Proof.
  intros H ->. simpl in H. bools.
  split; intros ->; done.
Qed.

Lemma parse_u64_show n : 0 ≤ n ≤ U64_MAX → parse_u64 (show_nat n) = Some n.
Proof.
  intros Hn. unfold parse_u64.
  assert (match show_nat n with String "+"%char s' => s' | _ => show_nat n end = show_nat n) as ->.
  { pose proof (show_nat_digits n) as Hd. destruct (show_nat n) as [|a s] eqn:E; [done|].
    destruct (digits_first _ a s Hd eq_refl) as [Ha _].
    destruct a as [[] [] [] [] [] [] [] []]; done. }
  rewrite parse_magnitude_show by lia.
  by destruct (Z.leb_spec n U64_MAX); [|lia].
Qed.

Lemma parse_i64_show n : 0 ≤ n ≤ I64_MAX → parse_i64 (show_nat n) = Some n.
Proof.
  intros Hn. pose proof (show_nat_digits n) as Hd. pose proof (parse_magnitude_show n) as Hp.
  unfold parse_i64. destruct (show_nat n) as [|a s] eqn:E; [by apply show_nat_nonempty in E|].
  destruct (digits_first _ a s Hd eq_refl) as [Ha Hb].
  specialize (Hp ltac:(lia)).
  assert (match parse_magnitude (String a s) with
          | Some n => if n <=? I64_MAX then Some n else None | None => None end = Some n).
  { rewrite Hp. by destruct (Z.leb_spec n I64_MAX); [|lia]. }
  destruct a as [[] [] [] [] [] [] [] []]; done.
Qed.

Lemma split_once_digits s r :
  string_forall is_digit s = true → split_once "-"%char (s +:+ String "-"%char r) = Some (s, r).
Proof.
  induction s as [|a s IH]; simpl; [done|]. intros H. bools.
  destruct (Ascii.eqb_spec a "-"%char) as [->|_]; [done|]. by rewrite IH.
Qed.
