(* ===== verification/Float64.v ===== *)
(** * Double-precision arithmetic

    [f64] as the executable IEEE 754 specification of the standard library
    ([SpecFloat] with 53 bits of precision), the casts between integers and
    floats that Rust's [as] performs, and [f64::powi] as the repeated squaring
    the compiler's runtime does. *)
From Stdlib Require Export SpecFloat.
From S2P Require Import Prelude.

Abbreviation f64 := spec_float (only parsing).

Definition prec : Z := 53.
Definition emax : Z := 1024.

Definition f64_mul : f64 → f64 → f64 := SFmul prec emax.
Definition f64_div : f64 → f64 → f64 := SFdiv prec emax.
Definition f64_add : f64 → f64 → f64 := SFadd prec emax.
Definition f64_le (x y : f64) : bool := SFleb x y.
Definition f64_lt (x y : f64) : bool := SFltb x y.

(** [n as f64] for an integer [n]: rounded to nearest, ties to even. *)
Definition f64_of_Z (n : Z) : f64 := binary_normalize prec emax n 0 false.

(** Truncation towards zero of the magnitude of a finite float. *)
Definition trunc_magnitude (m : positive) (e : Z) : Z :=
  if 0 <=? e then Zpos m * 2 ^ e else Zpos m / 2 ^ (- e).

(** [x as u64]: truncating and saturating; NaN becomes [0]. *)
Definition f64_to_u64 (x : f64) : Z :=
  match x with
  | S754_nan => 0
  | S754_zero _ => 0
  | S754_infinity true => 0
  | S754_infinity false => U64_MAX
  | S754_finite true _ _ => 0
  | S754_finite false m e => Z.min U64_MAX (trunc_magnitude m e)
  end.

Definition f64_zero : f64 := S754_zero false.
Definition f64_one : f64 := f64_of_Z 1.
Definition f64_two : f64 := f64_of_Z 2.

(** The loop of [powi]: [r] accumulates, [a] is squared, [b] loses its lowest
    bit (division truncates towards zero). *)
Fixpoint powi_loop (fuel : nat) (r a : f64) (b : Z) : f64 :=
  match fuel with
  | O => r
  | S fuel' =>
      let r' := if Z.odd b then f64_mul r a else r in
      let b' := Z.quot b 2 in
      if b' =? 0 then r' else powi_loop fuel' r' (f64_mul a a) b'
  end.

(** [x.powi(n)] for [n : i32]; 32 rounds empty a 32-bit exponent. *)
Definition f64_powi (x : f64) (n : Z) : f64 :=
  let r := powi_loop 32 f64_one x n in
  if n <? 0 then f64_div f64_one r else r.

Lemma f64_to_u64_range x : 0 ≤ f64_to_u64 x ≤ U64_MAX.
Proof.
  unfold f64_to_u64, U64_MAX. destruct x as [[]|[]| |[] m e]; try lia.
  assert (0 ≤ trunc_magnitude m e).
  { unfold trunc_magnitude. destruct (Z.leb_spec 0 e).
    - apply Z.mul_nonneg_nonneg; [lia|]. apply Z.pow_nonneg. lia.
    - apply Z.div_pos; [lia|]. apply Z.pow_pos_nonneg; lia. }
  lia.
Qed.

(** ** Powers of two *)

(** The floats the loop for base two goes through: positive and not zero. *)
Definition f64_positive (x : f64) : bool :=
  match x with S754_finite false _ _ => true | S754_infinity false => true | _ => false end.

Lemma mul_infinity r : f64_positive r = true → f64_mul r (S754_infinity false) = S754_infinity false.
Proof. by destruct r as [[]|[]| |[]]. Qed.

(** Once the base has overflowed, every further set bit makes the result
    infinite. *)
Lemma powi_loop_infinity fuel r b :
  f64_positive r = true → 0 < b < 2 ^ Z.of_nat fuel →
  powi_loop fuel r (S754_infinity false) b = S754_infinity false.
Proof.
  revert r b. induction fuel as [|fuel IH]; intros r b Hr Hb; [simpl in Hb; lia|].
  cbn [powi_loop]. change (f64_mul (S754_infinity false) (S754_infinity false)) with (S754_infinity false).
  rewrite mul_infinity by done.
  rewrite Nat2Z.inj_succ, Z.pow_succ_r in Hb by lia.
  rewrite Z.quot_div_nonneg by lia.
  assert (b `div` 2 < 2 ^ Z.of_nat fuel) by (apply Z.div_lt_upper_bound; lia).
  destruct (Z.eqb_spec (b `div` 2) 0) as [H0|H0].
  - assert (b = 1) as -> by (pose proof (Z.div_mod b 2); pose proof (Z.mod_pos_bound b 2); lia). done.
  - assert (0 < b `div` 2) by (pose proof (Z.div_pos b 2); lia).
    destruct (Z.odd b); apply IH; done.
Qed.

(** [2.0.powi(k)] for a small exponent, by computation. *)
Definition pow2_small_ok (k : nat) : bool :=
  match f64_powi f64_two (Z.of_nat k) with
  | S754_finite false m e => (0 <=? e + 52) && (trunc_magnitude m e =? 2 ^ Z.of_nat k)
  | _ => false
  end.

Lemma pow2_small_all : forallb pow2_small_ok (seq 0 1024) = true.
Proof. vm_compute. reflexivity. Qed.

Definition pow2f (j : Z) : f64 := S754_finite false 4503599627370496 (j - 52).

Lemma shr_fexp_pow2 (n : positive) (e s : Z) :
  s = fexp prec emax (Zdigits2 (Zpos n) + e) - e →
  shr_fexp prec emax (Zpos n) e loc_Exact =
  shr (Build_shr_record (Zpos n) false false) e s.
Proof. intros ->. done. Qed.

Lemma pow2f_mul i j :
  0 ≤ i → 0 ≤ j → i + j ≤ 1023 → f64_mul (pow2f i) (pow2f j) = pow2f (i + j).
Proof.
  intros Hi Hj Hij. unfold f64_mul, pow2f. unfold SFmul. simpl xorb.
  unfold binary_round_aux.
  change (Z.pos (4503599627370496 * 4503599627370496)) with (Zpos 20282409603651670423947251286016).
  rewrite (shr_fexp_pow2 _ _ 52).
  2:{ unfold fexp, emin, SpecFloat.emin, prec, emax. simpl Zdigits2. lia. }
  cbn -[Z.sub Z.add Z.leb].
  rewrite (shr_fexp_pow2 4503599627370496 _ 0).
  2:{ unfold fexp, SpecFloat.emin, prec, emax. simpl Zdigits2. lia. }
  cbn -[Z.sub Z.add Z.leb].
  destruct (Z.leb_spec (i - 52 + (j - 52) + 52) (emax - prec)) as [_|H].
  - f_equal. lia.
  - unfold emax, prec in H. lia.
Qed.

Lemma pow2f_square_inf : f64_mul (pow2f 512) (pow2f 512) = S754_infinity false.
Proof. reflexivity. Qed.

(** The loop with base [2^(2^i)] on an exponent that reaches [1024] overflows. *)
Lemma powi_loop_overflow i fuel j b :
  (i ≤ 9)%nat → 0 ≤ j < 2 ^ Z.of_nat i → 2 ^ (10 - Z.of_nat i) ≤ b < 2 ^ Z.of_nat fuel →
  powi_loop fuel (pow2f j) (pow2f (2 ^ Z.of_nat i)) b = S754_infinity false.
Proof.
  intros Hi. remember (9 - i)%nat as d eqn:Hd. revert i Hi Hd fuel j b.
  induction d as [|d IH]; intros i Hi Hd fuel j b Hj Hb.
  all: destruct fuel as [|fuel];
    [simpl in Hb; pose proof (Z.pow_pos_nonneg 2 (10 - Z.of_nat i)); lia|].
  all: rewrite Nat2Z.inj_succ, Z.pow_succ_r in Hb by lia.
  all: assert (b `div` 2 < 2 ^ Z.of_nat fuel) by (apply Z.div_lt_upper_bound; lia).
  all: assert (2 ^ Z.of_nat i ≤ 2 ^ 9) by (apply Z.pow_le_mono_r; lia).
  all: replace (10 - Z.of_nat i) with (Z.succ (9 - Z.of_nat i)) in Hb by lia.
  all: rewrite Z.pow_succ_r in Hb by lia.
  all: assert (2 ^ (9 - Z.of_nat i) ≤ b `div` 2) by (apply Z.div_le_lower_bound; lia).
  all: assert (0 < 2 ^ (9 - Z.of_nat i)) by (apply Z.pow_pos_nonneg; lia).
  all: cbn [powi_loop]; rewrite Z.quot_div_nonneg by lia.
  all: destruct (Z.eqb_spec (b `div` 2) 0) as [|_]; [lia|].
  - assert (i = 9%nat) as -> by lia. change (2 ^ Z.of_nat 9) with 512 in *.
    rewrite pow2f_square_inf. apply powi_loop_infinity; [|lia].
    destruct (Z.odd b); [rewrite pow2f_mul by lia|]; done.
  - assert (0 < 2 ^ Z.of_nat i ≤ 2 ^ 8).
    { split; [apply Z.pow_pos_nonneg; lia|apply Z.pow_le_mono_r; lia]. }
    rewrite (pow2f_mul (2 ^ Z.of_nat i) (2 ^ Z.of_nat i)) by lia.
    assert (2 ^ Z.of_nat i + 2 ^ Z.of_nat i = 2 ^ Z.of_nat (S i)) as Hdbl.
    { rewrite Nat2Z.inj_succ, Z.pow_succ_r; lia. }
    rewrite Hdbl.
    replace (9 - Z.of_nat i) with (10 - Z.of_nat (S i)) in * by lia.
    destruct (Z.odd b).
    + rewrite pow2f_mul by lia. apply IH; lia.
    + apply IH; lia.
Qed.

Lemma powi_two_overflow k : 1024 ≤ k < 2 ^ 31 → f64_powi f64_two k = S754_infinity false.
Proof.
  intros Hk. unfold f64_powi. destruct (Z.ltb_spec k 0); [lia|].
  change f64_one with (pow2f 0). change f64_two with (pow2f (2 ^ Z.of_nat 0)).
  apply powi_loop_overflow; simpl; lia.
Qed.

(** Base one stays one, whatever the exponent. *)
Lemma powi_loop_one fuel b : powi_loop fuel f64_one f64_one b = f64_one.
Proof.
  revert b. induction fuel as [|fuel IH]; intros b; cbn [powi_loop]; [done|].
  change (f64_mul f64_one f64_one) with f64_one.
  destruct (Z.odd b), (Z.quot b 2 =? 0); done || apply IH.
Qed.

Lemma powi_one n : f64_powi f64_one n = f64_one.
Proof. unfold f64_powi. rewrite powi_loop_one. by destruct (n <? 0). Qed.

(** ** Integers below [2^53] are exact *)

Definition normal (m : positive) (e : Z) : Prop :=
  Zdigits2 (Zpos m) = 53 ∧ -1074 ≤ e ≤ 971.

Lemma round_exact s m e :
  normal m e → binary_round_aux prec emax s (Zpos m) e loc_Exact = S754_finite s m e.
Proof.
  intros [Hd He]. unfold binary_round_aux.
  assert (fexp prec emax (Zdigits2 (Zpos m) + e) - e = 0) as H0.
  { rewrite Hd. unfold fexp, SpecFloat.emin, prec, emax. lia. }
  rewrite (shr_fexp_pow2 m e 0) by done. cbn -[Z.leb Z.sub Z.add Zdigits2].
  rewrite (shr_fexp_pow2 m e 0) by done. cbn -[Z.leb Z.sub Z.add].
  unfold emax, prec. destruct (Z.leb_spec e (1024 - 53)); [done|lia].
Qed.

Definition shift_pos (d p : positive) : positive := Pos.iter xO p d.

Lemma digits2_shift d p : digits2_pos (shift_pos d p) = (digits2_pos p + d)%positive.
Proof.
  unfold shift_pos. induction d as [|d IH] using Pos.peano_ind; simpl; [lia|].
  rewrite Pos.iter_succ. simpl. rewrite IH. lia.
Qed.

Lemma shift_pos_value d p : Zpos (shift_pos d p) = Zpos p * 2 ^ Zpos d.
Proof.
  unfold shift_pos. induction d as [|d IH] using Pos.peano_ind; simpl; [lia|].
  rewrite Pos.iter_succ. rewrite Pos2Z.inj_succ, Z.pow_succ_r by lia.
  rewrite Pos2Z.inj_xO, IH. lia.
Qed.

Lemma digits2_bound p : 2 ^ (Zpos (digits2_pos p) - 1) ≤ Zpos p < 2 ^ Zpos (digits2_pos p).
Proof.
  induction p as [p IH|p IH|]; simpl digits2_pos; [..|simpl; lia].
  all: rewrite Pos2Z.inj_succ, Z.pow_succ_r by lia.
  all: replace (Z.succ (Z.pos (digits2_pos p)) - 1) with (Z.succ (Z.pos (digits2_pos p) - 1)) by lia.
  all: rewrite Z.pow_succ_r by lia; lia.
Qed.

(** An integer below [2^53] is its own float, with a 53-bit mantissa. *)
Lemma f64_of_Z_exact p :
  Zpos p < 2 ^ 53 →
  ∃ m e, f64_of_Z (Zpos p) = S754_finite false m e ∧ normal m e ∧ -52 ≤ e ≤ 0 ∧
         Zpos m = Zpos p * 2 ^ (- e).
Proof.
  intros Hp. pose proof (digits2_bound p) as Hb.
  assert (Zpos (digits2_pos p) ≤ 53) as Hd.
  { apply Z.le_ngt. intros H. assert (2 ^ 53 ≤ 2 ^ (Zpos (digits2_pos p) - 1)); [|lia].
    apply Z.pow_le_mono_r; lia. }
  unfold f64_of_Z, binary_normalize, binary_round, shl_align.
  assert (fexp prec emax (Zpos (digits2_pos p) + 0) - 0 = Zpos (digits2_pos p) - 53) as ->.
  { unfold fexp, SpecFloat.emin, prec, emax. lia. }
  destruct (Zpos (digits2_pos p) - 53) as [|q|q] eqn:E; [|lia|].
  - exists p, 0. rewrite round_exact; [|split; simpl; lia].
    split; [done|]. split; [split; simpl; lia|]. split; [lia|simpl; lia].
  - assert (fexp prec emax (Zpos (digits2_pos p) + 0) = Zneg q) as ->.
    { unfold fexp, SpecFloat.emin, prec, emax. lia. }
    assert (normal (shift_pos q p) (Zneg q)) as Hn.
    { split; [|lia]. simpl. rewrite digits2_shift. lia. }
    exists (shift_pos q p), (Zneg q). rewrite round_exact by done.
    split; [done|]. split; [done|]. split; [lia|]. apply shift_pos_value.
Qed.

Lemma shr_pow2 (k : nat) (m : positive) e :
  shr (Build_shr_record (Zpos m * 2 ^ Z.of_nat k) false false) e (Z.of_nat k) =
  (Build_shr_record (Zpos m) false false, e + Z.of_nat k).
Proof.
  destruct k as [|k]; [simpl; repeat f_equal; lia|].
  change (Z.of_nat (S k)) with (Zpos (Pos.of_succ_nat k)). unfold shr.
  assert (∀ n, SpecFloat.iter_pos shr_1 n (Build_shr_record (Zpos m * 2 ^ Zpos n) false false)
               = Build_shr_record (Zpos m) false false) as H.
  { assert (∀ n x, SpecFloat.iter_pos shr_1 n x = Pos.iter shr_1 x n) as Hit.
    { intros n x. revert x. induction n as [n IH|n IH|]; intros x; simpl; [..|done].
      - rewrite !IH. by rewrite !Pos.iter_swap.
      - by rewrite !IH. }
    intros n. rewrite Hit. clear Hit.
    induction n as [|n IH] using Pos.peano_ind.
    - rewrite Z.pow_1_r, Z.mul_comm. done.
    - rewrite Pos2Z.inj_succ, Z.pow_succ_r by lia.
      rewrite Pos.iter_succ_r.
      replace (Zpos m * (2 * 2 ^ Zpos n)) with (2 * (Zpos m * 2 ^ Zpos n)) by lia.
      assert (∀ z, 0 < z → shr_1 (Build_shr_record (2 * z) false false) =
                           Build_shr_record z false false) as Hs by (intros [|z|z]; done).
      rewrite Hs; [done|]. apply Z.mul_pos_pos; [lia|]. apply Z.pow_pos_nonneg; lia. }
  by rewrite H.
Qed.

(** Multiplying by one keeps a normal float. *)
Lemma f64_mul_one m e :
  normal m e → f64_mul (S754_finite false m e) f64_one = S754_finite false m e.
Proof.
  intros [Hd He]. change f64_one with (S754_finite false 4503599627370496 (-52)).
  unfold f64_mul, SFmul. simpl xorb. unfold binary_round_aux.
  assert (Zpos (m * 4503599627370496) = Zpos m * 2 ^ Z.of_nat 52) as Hm by lia.
  assert (m * 4503599627370496 = shift_pos 52 m)%positive as Hs.
  { apply Pos2Z.inj. rewrite shift_pos_value. lia. }
  assert (Zdigits2 (Zpos (m * 4503599627370496)) = 105) as Hdig.
  { rewrite Hs. change (Zdigits2 (Zpos (shift_pos 52 m))) with (Zpos (digits2_pos (shift_pos 52 m))).
    rewrite digits2_shift. simpl in Hd. lia. }
  rewrite (shr_fexp_pow2 _ _ (Z.of_nat 52)).
  2:{ rewrite Hdig. unfold fexp, SpecFloat.emin, prec, emax. lia. }
  rewrite Hm, shr_pow2. cbn [shr_m shr_r shr_s loc_of_shr_record round_nearest_even].
  change (Z.of_nat 52) with 52.
  replace (e + -52 + 52) with e by lia.
  rewrite (shr_fexp_pow2 m e 0).
  2:{ rewrite Hd. unfold fexp, SpecFloat.emin, prec, emax. lia. }
  cbn -[Z.leb Z.sub Z.add]. unfold emax, prec.
  destruct (Z.leb_spec e (1024 - 53)); [done|lia].
Qed.

Lemma f64_int_times_one n :
  0 ≤ n < 2 ^ 53 → f64_to_u64 (f64_mul (f64_of_Z n) f64_one) = n.
Proof.
  intros Hn. destruct n as [|p|p]; [done| |lia].
  destruct (f64_of_Z_exact p) as (m & e & -> & Hnorm & He & Hm); [lia|].
  rewrite f64_mul_one by done. simpl. unfold trunc_magnitude.
  assert ((if 0 <=? e then Zpos m * 2 ^ e else Zpos m / 2 ^ (- e)) = Zpos p) as ->.
  { destruct (Z.leb_spec 0 e).
    - assert (e = 0) as -> by lia. simpl in Hm. lia.
    - rewrite Hm. apply Z.div_mul. assert (0 < 2 ^ (- e)) by (apply Z.pow_pos_nonneg; lia). lia. }
  unfold U64_MAX. lia.
Qed.
