(* ===== verification/External.v ===== *)
(** * Durations, the code outside the repository, and errors

    [std::time::Duration] as a count of nanoseconds, and the class [Ext] of
    what the job runtime takes from third-party crates and from the process:
    [serde_json::Value], [chrono]'s date arithmetic, the [cron] crate and the
    iteration order of a [HashMap].  [ExtLaws] states the documented behaviour
    the theorems rely on; every theorem holds for all instances of the two.
    The end of the file has the error type of the library, [src/error.rs]. *)
From S2P Require Import Prelude Text.
Local Open Scope Z_scope.


(** ** [std::time::Duration] *)
Abbreviation Duration := Z (only parsing).
Definition nanos_per_milli : Z := 1000000.
Definition nanos_per_sec : Z := 1000000000.
Definition from_nanos (n : Z) : Duration := n.
Definition from_millis (ms : Z) : Duration := ms * nanos_per_milli.
Definition from_secs (s : Z) : Duration := s * nanos_per_sec.
Definition as_millis (d : Duration) : Z := d `div` nanos_per_milli.
Definition is_zero_duration (d : Duration) : bool := d =? 0.

(** ** Third-party code *)

(** A [DateTime<Utc>] denotes an instant: nanoseconds since the Unix epoch. *)
Abbreviation DateTime := Z (only parsing).

Class Ext := {
  (** [serde_json::Value] and the constructors the runtime calls. *)
  Value : Type;
  VNull : Value;
  VString : string → Value;
  VNumber : Z → Value;
  (** [chrono::Duration::from_std] fails on durations that do not fit. *)
  chrono_from_std : Duration → option Z;
  (** [DateTime::checked_add_signed], [checked_sub_signed]. *)
  checked_add_signed : DateTime → Z → option DateTime;
  checked_sub_signed : DateTime → Z → option DateTime;
  (** [DateTime::timestamp_millis]. *)
  timestamp_millis : DateTime → Z;
  (** The [cron] crate: [Schedule::from_str] and [schedule.after(t).next()];
      a parse error carries its display text. *)
  CronSchedule : Type;
  cron_from_str : string → outcome string CronSchedule;
  cron_next_after : CronSchedule → DateTime → option DateTime;
  (** The order in which a [HashMap] with string keys is iterated. *)
  hash_iter : ∀ {V : Type}, gmap string V → list (string * V);
}.

Class ExtLaws (X : Ext) : Prop := {
  hash_iter_perm : ∀ V (m : gmap string V), hash_iter m ≡ₚ map_to_list m;
  from_std_value : ∀ d δ, chrono_from_std d = Some δ → δ = d;
  checked_add_value : ∀ t δ t', checked_add_signed t δ = Some t' → t' = t + δ;
  checked_sub_value : ∀ t δ t', checked_sub_signed t δ = Some t' → t' = t - δ;
  cron_next_later : ∀ s t t', cron_next_after s t = Some t' → t < t';
}.

Section dates.
Context {X : Ext}.

(** [HashMap::values]. *)
Definition hash_values {V} (m : gmap string V) : list V := (hash_iter m).*2.

(** [add_duration] and [subtract_duration]: out of range keeps the date. *)
Definition add_duration (at_ : DateTime) (d : Duration) : DateTime :=
  match chrono_from_std d with
  | Some delta => unwrap_or (checked_add_signed at_ delta) at_
  | None => at_
  end.

Definition subtract_duration (at_ : DateTime) (d : Duration) : DateTime :=
  match chrono_from_std d with
  | Some delta => unwrap_or (checked_sub_signed at_ delta) at_
  | None => at_
  end.

Context `{!ExtLaws X}.

Lemma add_duration_cases t d : add_duration t d = t + d ∨ add_duration t d = t.
Proof.
  unfold add_duration. destruct (chrono_from_std d) as [δ|] eqn:E; [|by right].
  apply from_std_value in E as ->.
  destruct (checked_add_signed t d) as [t'|] eqn:E2; simpl; [|by right].
  left. by apply checked_add_value in E2.
Qed.

Lemma add_duration_le t d : 0 ≤ d → t ≤ add_duration t d ≤ t + d.
Proof. intros. destruct (add_duration_cases t d) as [->| ->]; lia. Qed.

Lemma subtract_duration_cases t d :
  subtract_duration t d = t - d ∨ subtract_duration t d = t.
Proof.
  unfold subtract_duration. destruct (chrono_from_std d) as [δ|] eqn:E; [|by right].
  apply from_std_value in E as ->.
  destruct (checked_sub_signed t d) as [t'|] eqn:E2; simpl; [|by right].
  left. by apply checked_sub_value in E2.
Qed.

Lemma hash_values_perm {V} (m : gmap string V) : hash_values m ≡ₚ (map_to_list m).*2.
Proof. unfold hash_values. by rewrite hash_iter_perm. Qed.

Lemma elem_of_hash_values {V} (m : gmap string V) v :
  v ∈ hash_values m ↔ ∃ k, m !! k = Some v.
Proof.
  rewrite hash_values_perm, list_elem_of_fmap. split.
  - intros ([k v'] & -> & H%elem_of_map_to_list). eauto.
  - intros [k H]. exists (k, v). by rewrite elem_of_map_to_list.
Qed.

Lemma length_hash_values {V} (m : gmap string V) : length (hash_values m) = size m.
Proof. rewrite hash_values_perm, length_fmap. by rewrite length_map_to_list. Qed.

(** Filtering the values of a map. *)
Lemma elem_of_filter_values {V} (P : V → bool) (m : gmap string V) v :
  v ∈ List.filter P (hash_values m) ↔ (∃ k, m !! k = Some v) ∧ P v = true.
Proof. by rewrite list_elem_of_In, List.filter_In, <- list_elem_of_In, elem_of_hash_values. Qed.
End dates.

(** ** A concrete instance

    Texts stand for JSON values, dates and durations are unbounded, no cron
    expression parses and maps are iterated in key order: the instance the
    witnesses run on. *)
Definition demo_ext : Ext := {|
  Value := string;
  VNull := "null";
  VString := λ s, s;
  VNumber := λ n, pretty.pretty n;
  chrono_from_std := λ d, Some d;
  checked_add_signed := λ t δ, Some (t + δ);
  checked_sub_signed := λ t δ, Some (t - δ);
  timestamp_millis := λ t, t `div` nanos_per_milli;
  CronSchedule := Empty_set;
  cron_from_str := λ _, Err "unsupported";
  cron_next_after := λ s _, match s with end;
  hash_iter := λ V m, map_to_list m;
|}.

#[export] Instance demo_ext_laws : ExtLaws demo_ext.
Proof. split; simpl; try naive_solver. intros s. destruct s. Qed.

(** * Errors of the library

    The error type, the text it displays and the classification the job worker
    uses.  [Result] is [outcome LaneError]. *)

Inductive LaneError : Type :=
| LaneNotFound (s : string)
| QueueError (s : string)
| ConfigError (s : string)
| CommandError (s : string)
| JobNotFound (s : string)
| JobStateConflict (s : string)
| JobLeaseConflict (s : string)
| UnrecoverableJob (s : string)
| Timeout_ (d : Duration)
| ShutdownInProgress
| Other (s : string).

Abbreviation Result := (outcome LaneError).

(** [fmt::Debug] of [Duration]: the fraction is printed digit by digit until
    nothing is left of it. *)
Fixpoint fraction_digits (fuel : nat) (fractional divisor : Z) : string :=
  match fuel with
  | O => EmptyString
  | S fuel' =>
      if fractional <=? 0 then EmptyString
      else show_nat (fractional `div` divisor)
           +:+ fraction_digits fuel' (fractional `mod` divisor) (divisor `div` 10)
  end.

Definition fmt_decimal (integer_part fractional_part divisor : Z) (unit : string) : string :=
  let digits := fraction_digits 9 fractional_part divisor in
  show_nat integer_part
  +:+ (if String.eqb digits EmptyString then EmptyString else "." +:+ digits) +:+ unit.

Definition show_duration (d : Duration) : string :=
  let secs := d `div` nanos_per_sec in
  let nanos := d `mod` nanos_per_sec in
  if 0 <? secs then fmt_decimal secs nanos (nanos_per_sec `div` 10) "s"
  else if 1000000 <=? nanos then fmt_decimal (nanos `div` 1000000) (nanos `mod` 1000000) 100000 "ms"
  else if 1000 <=? nanos then fmt_decimal (nanos `div` 1000) (nanos `mod` 1000) 100 "µs"
  else fmt_decimal nanos 0 1 "ns".

(** [LaneError::to_string]. *)
Definition error_to_string (e : LaneError) : string :=
  match e with
  | LaneNotFound s => "Lane not found: " +:+ s
  | QueueError s => "Queue error: " +:+ s
  | ConfigError s => "Configuration error: " +:+ s
  | CommandError s => "Command execution error: " +:+ s
  | JobNotFound s => "Job not found: " +:+ s
  | JobStateConflict s => "Job state conflict: " +:+ s
  | JobLeaseConflict s => "Job lease conflict: " +:+ s
  | UnrecoverableJob s => s
  | Timeout_ d => "Command timed out after " +:+ show_duration d
  | ShutdownInProgress => "Queue is shutting down, not accepting new commands"
  | Other s => s
  end.

Definition unrecoverable_job (message : string) : LaneError := UnrecoverableJob message.

Definition is_unrecoverable_job (e : LaneError) : bool :=
  match e with UnrecoverableJob _ => true | _ => false end.

Example show_duration_seconds : show_duration (from_secs 5) = "5s".
Proof. reflexivity. Qed.
Example show_duration_fraction : show_duration (from_millis 2050) = "2.05s".
Proof. reflexivity. Qed.
Example show_duration_micros : show_duration 1500 = "1.5µs".
Proof. reflexivity. Qed.
