(* ===== verification/Retry.v ===== *)
(** * Retry policies ([src/retry.rs])

    The backoff policy shared by lane commands and durable jobs.  The delay is
    computed in double precision as the code does; the theorems give its value
    for the two kinds of policy the constructors build. *)
From S2P Require Import Prelude Float64 External.

Record RetryPolicy := {
  max_retries : Z;          (* u32 *)
  initial_delay : Duration;
  max_delay : Duration;
  multiplier : f64;
}.

Definition exponential (retries : Z) : RetryPolicy := {|
  max_retries := retries;
  initial_delay := from_millis 100;
  max_delay := from_secs 30;
  multiplier := f64_of_Z 2;
|}.

Definition fixed (retries : Z) (delay : Duration) : RetryPolicy := {|
  max_retries := retries;
  initial_delay := delay;
  max_delay := delay;
  multiplier := f64_of_Z 1;
|}.

Definition none : RetryPolicy := {|
  max_retries := 0;
  initial_delay := from_secs 0;
  max_delay := from_secs 0;
  multiplier := f64_of_Z 1;
|}.

Definition delay_for_attempt (p : RetryPolicy) (attempt : Z) : Duration :=
  if (attempt =? 0) || (max_retries p =? 0) then from_secs 0
  else
    let delay_ms := f64_mul (f64_of_Z (as_millis (initial_delay p)))
                            (f64_powi (multiplier p) (as_i32 (attempt - 1))) in
    let delay := from_millis (f64_to_u64 delay_ms) in
    Z.min delay (max_delay p).

Definition should_retry (p : RetryPolicy) (attempt : Z) : bool := attempt <? max_retries p.

(** ** General facts *)

Lemma delay_for_attempt_nonneg p a : 0 ≤ max_delay p → 0 ≤ delay_for_attempt p a.
Proof.
  intros H. unfold delay_for_attempt, from_millis, nanos_per_milli. destruct (_ || _); [unfold from_secs; lia|].
  match goal with |- context [f64_to_u64 ?x] => pose proof (f64_to_u64_range x) end. lia.
Qed.

Lemma delay_for_attempt_bound p a : 0 ≤ max_delay p → delay_for_attempt p a ≤ max_delay p.
Proof. intros H. unfold delay_for_attempt. destruct (_ || _); [unfold from_secs; lia|]. lia. Qed.

(** The first attempts of an exponential policy, by computation. *)
Definition exponential_ok (k : nat) : bool :=
  delay_for_attempt (exponential 1) (Z.of_nat k + 1) =?
  Z.min (from_millis (100 * 2 ^ Z.of_nat k)) (from_secs 30).

Lemma exponential_small : forallb exponential_ok (seq 0 1024) = true.
Proof. vm_compute. reflexivity. Qed.

Lemma delay_independent_of_retries n a :
  0 < n → delay_for_attempt (exponential n) a = delay_for_attempt (exponential 1) a.
Proof.
  intros Hn. unfold delay_for_attempt. simpl max_retries.
  destruct (Z.eqb_spec n 0); [lia|]. change (1 =? 0) with false. rewrite !orb_false_r. reflexivity.
Qed.

(** Exponential backoff doubles from 100 ms and is capped at 30 s, for
    every attempt number whose predecessor fits an [i32] exponent. *)
Theorem exponential_backoff (n a : Z) :
  0 < n → 1 ≤ a ≤ 2 ^ 31 →
  delay_for_attempt (exponential n) a = Z.min (from_millis (100 * 2 ^ (a - 1))) (from_secs 30).
Proof.
  intros Hn Ha. rewrite delay_independent_of_retries by done.
  destruct (decide (a ≤ 1024)) as [Hs|Hs].
  - pose proof exponential_small as H. rewrite forallb_forall in H.
    specialize (H (Z.to_nat (a - 1))). unfold exponential_ok in H.
    rewrite Z2Nat.id in H by lia. replace (a - 1 + 1) with a in H by lia.
    apply Z.eqb_eq, H. apply List.in_seq. lia.
  - unfold delay_for_attempt. simpl max_retries.
    destruct (Z.eqb_spec a 0); [lia|]. simpl orb.
    rewrite as_i32_small by lia. simpl multiplier. change (f64_of_Z 2) with f64_two.
    rewrite powi_two_overflow by lia.
    change (f64_to_u64 (f64_mul _ (S754_infinity false))) with U64_MAX.
    assert (2 ^ 10 ≤ 2 ^ (a - 1)) by (apply Z.pow_le_mono_r; lia).
    change (2 ^ 10) with 1024 in *. simpl max_delay.
    unfold from_millis, from_secs, nanos_per_milli, nanos_per_sec, U64_MAX. lia.
Qed.

(** A fixed policy waits the configured delay, to the millisecond. *)
Theorem fixed_backoff (n d a : Z) :
  0 < n → 1 ≤ a → 0 ≤ d → as_millis d < 2 ^ 53 →
  delay_for_attempt (fixed n d) a = from_millis (as_millis d).
Proof.
  intros Hn Ha Hd Hm. unfold delay_for_attempt. simpl.
  destruct (Z.eqb_spec a 0); [lia|]. destruct (Z.eqb_spec n 0); [lia|]. simpl orb.
  change (f64_of_Z 1) with f64_one. rewrite powi_one, f64_int_times_one.
  - apply Z.min_l. unfold from_millis, as_millis, nanos_per_milli.
    pose proof (Z.mul_div_le d 1000000). lia.
  - split; [|done]. apply Z.div_pos; unfold nanos_per_milli; lia.
Qed.

(** ** Witnesses *)
Lemma exponential_backoff_witness :
  delay_for_attempt (exponential 3) 4 = Z.min (from_millis (100 * 2 ^ (4 - 1))) (from_secs 30).
Proof. apply (exponential_backoff 3 4); lia. Defined.

Lemma fixed_backoff_witness : delay_for_attempt (fixed 5 (from_millis 250)) 2 = from_millis 250.
Proof.
  pose proof (fixed_backoff 5 (from_millis 250) 2 ltac:(lia) ltac:(lia)) as H.
  unfold from_millis, as_millis, nanos_per_milli in *. apply H; [lia|]. vm_compute. reflexivity.
Defined.
