(* ===== verification/JobTypes.v ===== *)
(** * Data model of the job runtime ([src/job/types.rs])

    Jobs, their options and the records built from them, option validation and
    the constructor [Job::new]. *)
From S2P Require Import Prelude Text External Retry.
Local Open Scope Z_scope.

(** ** Identifiers, priorities *)
Abbreviation JobId := string (only parsing).
Abbreviation QueueName := string (only parsing).
Abbreviation JobPriority := Z (only parsing).

Definition DEFAULT_JOB_PRIORITY : Z := 1000.
Definition MAX_JOB_PRIORITY : Z := 2 ^ 21.
Definition DEFAULT_JOB_EVENT_RETENTION : Z := 10000.

Definition validate_job_priority (priority : Z) : Result unit :=
  if MAX_JOB_PRIORITY <? priority
  then Err (ConfigError ("priority must be between 0 and " +:+ show_nat MAX_JOB_PRIORITY))
  else Ok tt.

(** ** Lifecycle states *)
Inductive JobState : Type :=
| Waiting | Delayed | Active | WaitingChildren | Completed | Failed.

#[export] Instance JobState_eq_dec : EqDecision JobState.
Proof. solve_decision. Defined.

Definition JobState_ALL : list JobState :=
  [Waiting; Delayed; Active; WaitingChildren; Completed; Failed].
Definition JobState_PENDING : list JobState := [Waiting; Delayed; WaitingChildren].

Definition is_terminal (s : JobState) : bool :=
  match s with Completed | Failed => true | _ => false end.

(** [{:?}] of a state. *)
Definition debug_state (s : JobState) : string :=
  match s with
  | Waiting => "Waiting" | Delayed => "Delayed" | Active => "Active"
  | WaitingChildren => "WaitingChildren" | Completed => "Completed" | Failed => "Failed"
  end.

Definition state_eqb (a b : JobState) : bool := bool_decide (a = b).

(** ** Options *)
Inductive RepeatSchedule : Type :=
| Every (interval : Duration)
| Cron (expression : string).

Record RepeatOptions := {
  rep_schedule : RepeatSchedule;
  rep_limit : option Z;            (* u32 *)
  rep_end_at : option DateTime;
  rep_key : option string;
}.

Record DeduplicationOptions := {
  dd_id : string;
  dd_ttl : option Duration;
  dd_replace : bool;
  dd_keep_last_if_active : bool;
  dd_extend : bool;
}.

Record JobRetention := {
  ret_age : option Duration;
  ret_count : option nat;          (* usize *)
  ret_limit : option nat;          (* usize *)
}.

Record JobOptions := mkJobOptions {
  opt_job_id : option JobId;
  opt_priority : JobPriority;
  opt_lifo : bool;
  opt_delay : option Duration;
  opt_retry_policy : RetryPolicy;
  opt_timeout : option Duration;
  opt_remove_on_complete : bool;
  opt_completion_retention : option JobRetention;
  opt_remove_on_fail : bool;
  opt_failure_retention : option JobRetention;
  opt_max_stalled_count : Z;       (* u32 *)
  opt_repeat : option RepeatOptions;
  opt_deduplication : option DeduplicationOptions;
  opt_ignore_dependency_on_failure : bool;
  opt_remove_dependency_on_failure : bool;
  opt_continue_parent_on_failure : bool;
  opt_fail_parent_on_failure : bool;
}.

#[export] Instance eta_JobOptions : Eta JobOptions := λ o,
  mkJobOptions (opt_job_id o) (opt_priority o) (opt_lifo o) (opt_delay o) (opt_retry_policy o)
    (opt_timeout o) (opt_remove_on_complete o) (opt_completion_retention o)
    (opt_remove_on_fail o) (opt_failure_retention o) (opt_max_stalled_count o) (opt_repeat o)
    (opt_deduplication o) (opt_ignore_dependency_on_failure o)
    (opt_remove_dependency_on_failure o) (opt_continue_parent_on_failure o)
    (opt_fail_parent_on_failure o).

(** [JobOptions::default]. *)
Definition default_options : JobOptions := {|
  opt_job_id := None;
  opt_priority := DEFAULT_JOB_PRIORITY;
  opt_lifo := false;
  opt_delay := None;
  opt_retry_policy := Retry.none;
  opt_timeout := None;
  opt_remove_on_complete := false;
  opt_completion_retention := None;
  opt_remove_on_fail := false;
  opt_failure_retention := None;
  opt_max_stalled_count := 1;
  opt_repeat := None;
  opt_deduplication := None;
  opt_ignore_dependency_on_failure := false;
  opt_remove_dependency_on_failure := false;
  opt_continue_parent_on_failure := false;
  opt_fail_parent_on_failure := false;
|}.

(** *** Retention *)
Definition removes_current (r : JobRetention) : bool :=
  match ret_count r with Some O => true | _ => false end.

Definition validate_retention (r : JobRetention) (field : string) : Result unit :=
  if is_none (ret_age r) && is_none (ret_count r)
  then Err (ConfigError (field +:+ " must specify an age or count"))
  else if match ret_age r with Some age => is_zero_duration age | None => false end
  then Err (ConfigError (field +:+ " age must be greater than zero"))
  else if match ret_limit r with Some O => true | _ => false end
  then Err (ConfigError (field +:+ " limit must be greater than zero"))
  else Ok tt.

(** The [filter] on an option: keep the value when the test holds. *)
Definition opt_filter {A} (p : A → bool) (o : option A) : option A :=
  match o with Some a => if p a then Some a else None | None => None end.

Definition removes_completed_immediately (o : JobOptions) : bool :=
  opt_remove_on_complete o ||
  match opt_completion_retention o with Some r => removes_current r | None => false end.

Definition completed_retention (o : JobOptions) : option JobRetention :=
  if opt_remove_on_complete o then None
  else opt_filter (λ r, negb (removes_current r)) (opt_completion_retention o).

Definition removes_failed_immediately (o : JobOptions) : bool :=
  opt_remove_on_fail o ||
  match opt_failure_retention o with Some r => removes_current r | None => false end.

Definition failed_retention (o : JobOptions) : option JobRetention :=
  if opt_remove_on_fail o then None
  else opt_filter (λ r, negb (removes_current r)) (opt_failure_retention o).

(** *** Deduplication *)
Definition validate_deduplication (d : DeduplicationOptions) : Result unit :=
  if is_blank (dd_id d)
  then Err (ConfigError "deduplication id must not be empty")
  else if match dd_ttl d with Some ttl => is_zero_duration ttl | None => false end
  then Err (ConfigError "deduplication ttl must be greater than zero")
  else Ok tt.

(** *** Job ids *)
Fixpoint all_ascii_digits (s : string) : bool :=
  match s with EmptyString => true | String a s' => is_digit a && all_ascii_digits s' end.

(** ['1'..='9']. *)
Definition is_nonzero_digit (a : Ascii.ascii) : bool :=
  match digit_value a with Some d => 1 <=? d | None => false end.

Definition is_bullmq_integer_job_id (s : string) : bool :=
  match s with
  | EmptyString => false
  | String a s' =>
      if Ascii.eqb a (Ascii.ascii_of_N 45)
      then match s' with
           | EmptyString => false
           | String b s'' => is_nonzero_digit b && all_ascii_digits s''
           end
      else is_nonzero_digit a && all_ascii_digits s'
  end.

Definition validate_job_id (job_id : string) : Result unit :=
  if is_blank job_id then Err (ConfigError "job id must not be empty")
  else if String.eqb job_id "0" || starts_with "0:" job_id
  then Err (ConfigError "job id cannot be `0` or start with `0:`")
  else if is_bullmq_integer_job_id job_id
  then Err (ConfigError "custom job id cannot be an integer")
  else Ok tt.

(** ** Jobs *)
Section job.
Context {X : Ext}.

Record JobLogEntry := { log_timestamp : DateTime; log_line : string }.

Record Job := mkJob {
  job_id : JobId;
  job_queue : QueueName;
  job_name : string;
  job_payload : Value;
  job_options : JobOptions;
  job_priority : JobPriority;
  job_state : JobState;
  job_attempts_made : Z;                    (* u32 *)
  job_stalled_count : Z;                    (* u32 *)
  job_created_at : DateTime;
  job_scheduled_at : DateTime;
  job_enqueued_seq : Z;                     (* u64 *)
  job_processed_at : option DateTime;
  job_finished_at : option DateTime;
  job_worker_id : option string;
  job_lock_token : option string;
  job_lease_expires_at : option DateTime;
  job_deferred_failure : option string;
  job_failed_reason : option string;
  job_stacktrace : list string;
  job_return_value : option Value;
  job_progress : option Value;
  job_logs : list JobLogEntry;
  job_parent_id : option JobId;
  job_child_ids : list JobId;
  job_repeat_key : option string;
  job_repeat_count : Z;                     (* u32 *)
  job_deduplication_expires_at : option DateTime;
}.

#[export] Instance eta_Job : Eta Job := λ j,
  mkJob (job_id j) (job_queue j) (job_name j) (job_payload j) (job_options j)
    (job_priority j) (job_state j) (job_attempts_made j) (job_stalled_count j)
    (job_created_at j) (job_scheduled_at j) (job_enqueued_seq j) (job_processed_at j)
    (job_finished_at j) (job_worker_id j) (job_lock_token j) (job_lease_expires_at j)
    (job_deferred_failure j) (job_failed_reason j) (job_stacktrace j) (job_return_value j)
    (job_progress j) (job_logs j) (job_parent_id j) (job_child_ids j) (job_repeat_key j)
    (job_repeat_count j) (job_deduplication_expires_at j).

Record JobSpec := { spec_name : string; spec_payload : Value; spec_options : JobOptions }.

Record JobFlow := mkJobFlow { flow_parent : Job; flow_children : list Job }.

#[export] Instance eta_JobFlow : Eta JobFlow := λ f, mkJobFlow (flow_parent f) (flow_children f).

Record JobEvent := {
  ev_id : string;
  ev_event : string;
  ev_timestamp : DateTime;
  ev_job_id : option JobId;
  ev_prev : option JobState;
  ev_fields : gmap string Value;
}.

(** ** Repeat options *)
Definition parse_cron_expression (expression : string) : Result CronSchedule :=
  let expression := trim expression in
  if String.eqb expression EmptyString
  then Err (ConfigError "repeat cron expression must not be empty")
  else match cron_from_str expression with
       | Ok s => Ok s
       | Err error =>
           Err (ConfigError ("invalid repeat cron expression `" +:+ expression +:+ "`: " +:+ error))
       end.

Definition validate_repeat (r : RepeatOptions) : Result unit :=
  let? _ := match rep_schedule r with
            | Every interval =>
                if is_zero_duration interval
                then Err (ConfigError "repeat interval must be greater than zero")
                else Ok tt
            | Cron expression => let? _ := parse_cron_expression expression in Ok tt
            end in
  if match rep_limit r with Some l => l =? 0 | None => false end
  then Err (ConfigError "repeat limit must be greater than zero")
  else Ok tt.

Definition next_scheduled_at (r : RepeatOptions) (after : DateTime) : Result (option DateTime) :=
  match rep_schedule r with
  | Every interval => Ok (Some (add_duration after interval))
  | Cron expression =>
      let? schedule := parse_cron_expression expression in
      Ok (cron_next_after schedule after)
  end.

(** ** Validation of job options *)
Definition validate_opt {A} (o : option A) (v : A → Result unit) : Result unit :=
  match o with Some a => v a | None => Ok tt end.

Definition flow_failure_policies (o : JobOptions) : nat :=
  length (List.filter (λ enabled : bool, enabled)
    [opt_ignore_dependency_on_failure o; opt_remove_dependency_on_failure o;
     opt_continue_parent_on_failure o; opt_fail_parent_on_failure o]).

Definition validate_options (o : JobOptions) : Result unit :=
  let? _ := validate_opt (opt_job_id o) validate_job_id in
  let? _ := validate_job_priority (opt_priority o) in
  let? _ := validate_opt (opt_repeat o) validate_repeat in
  let? _ := validate_opt (opt_deduplication o) validate_deduplication in
  let? _ := validate_opt (opt_completion_retention o) (λ r, validate_retention r "completion retention") in
  let? _ := validate_opt (opt_failure_retention o) (λ r, validate_retention r "failure retention") in
  if (1 <? flow_failure_policies o)%nat
  then Err (ConfigError "flow child failure policies are mutually exclusive")
  else Ok tt.

Definition deduplication_expiration (o : JobOptions) (now : DateTime) : option DateTime :=
  match opt_filter (λ d, negb (dd_keep_last_if_active d)) (opt_deduplication o) with
  | Some d => match dd_ttl d with Some ttl => Some (add_duration now ttl) | None => None end
  | None => None
  end.

(** ** [Job::new]

    [uuid] is the value [Uuid::new_v4] returns when the caller assigns no id. *)
Definition Job_new (queue name : string) (payload : Value) (options : JobOptions)
    (now : DateTime) (uuid : string) : Job :=
  let scheduled_at := match opt_delay options with
                      | Some delay => add_duration now delay
                      | None => now
                      end in
  {| job_id := unwrap_or (opt_job_id options) uuid;
     job_queue := queue;
     job_name := name;
     job_payload := payload;
     job_options := options;
     job_priority := opt_priority options;
     job_state := if now <? scheduled_at then Delayed else Waiting;
     job_attempts_made := 0;
     job_stalled_count := 0;
     job_created_at := now;
     job_scheduled_at := scheduled_at;
     job_enqueued_seq := 0;
     job_processed_at := None;
     job_finished_at := None;
     job_worker_id := None;
     job_lock_token := None;
     job_lease_expires_at := None;
     job_deferred_failure := None;
     job_failed_reason := None;
     job_stacktrace := [];
     job_return_value := None;
     job_progress := None;
     job_logs := [];
     job_parent_id := None;
     job_child_ids := [];
     job_repeat_key := match opt_repeat options with
                       | Some r => Some (unwrap_or (rep_key r) (queue +:+ ":" +:+ name))
                       | None => None
                       end;
     job_repeat_count := 0;
     job_deduplication_expires_at := deduplication_expiration options now |}.
End job.

(** ** Facts about validation *)
Section validation.
Context {X : Ext}.

Lemma try_bind_ok {E A B} (r : outcome E A) (k : A → outcome E B) b :
  try_bind r k = Ok b → ∃ a, r = Ok a ∧ k a = Ok b.
Proof. destruct r; simpl; [eauto|done]. Qed.

Lemma validate_job_priority_ok p : validate_job_priority p = Ok tt ↔ p ≤ MAX_JOB_PRIORITY.
Proof.
  unfold validate_job_priority. destruct (Z.ltb_spec MAX_JOB_PRIORITY p); split; done || lia.
Qed.

(** What the runtime may assume of options that passed [validate]. *)
Lemma validate_options_ok o :
  validate_options o = Ok tt →
  opt_priority o ≤ MAX_JOB_PRIORITY ∧ (flow_failure_policies o ≤ 1)%nat ∧
  (∀ i, opt_job_id o = Some i → validate_job_id i = Ok tt) ∧
  (∀ r, opt_repeat o = Some r → validate_repeat r = Ok tt) ∧
  (∀ d, opt_deduplication o = Some d → validate_deduplication d = Ok tt).
Proof.
  unfold validate_options. intros H.
  repeat (apply try_bind_ok in H as ([] & ? & H)).
  destruct (1 <? _)%nat eqn:E; [done|]. apply Nat.ltb_ge in E.
  split; [by apply validate_job_priority_ok|]. split; [done|].
  unfold validate_opt in *. repeat split; intros; by simplify_option_eq.
Qed.
End validation.
