(* ===== verification/JobStore.v ===== *)
(** * Orders on jobs and the state of the in-memory queue ([src/job/memory.rs])

    First the orders, then the state, its event log and its guards.

    The comparators that decide which job is claimed next and in which order
    jobs are listed, and the proofs that they are total orders which separate
    jobs with different ids: neither the claim nor a listing depends on the
    iteration order of the job map. *)
From S2P Require Import Prelude Ordering Text External Retry JobTypes.
Local Open Scope Z_scope.

Section order.
Context {X : Ext}.

Definition compare_waiting_order (a b : Job) : comparison :=
  match job_enqueued_seq a =? 0, job_enqueued_seq b =? 0 with
  | true, true => String.compare (job_id a) (job_id b)
  | true, false => Lt
  | false, true => Gt
  | false, false =>
      match opt_lifo (job_options a), opt_lifo (job_options b) with
      | true, true => job_enqueued_seq b ?= job_enqueued_seq a
      | true, false => Lt
      | false, true => Gt
      | false, false => job_enqueued_seq a ?= job_enqueued_seq b
      end
  end.

Definition compare_claim_order : Job → Job → comparison :=
  cmp_then (cmp_on Z.compare job_priority)
    (cmp_then compare_waiting_order
       (cmp_then (cmp_on Z.compare job_scheduled_at)
          (cmp_then (cmp_on Z.compare job_created_at) (cmp_on String.compare job_id)))).

Definition state_rank (s : JobState) : Z :=
  match s with
  | Waiting => 0 | Delayed => 1 | Active => 2
  | WaitingChildren => 3 | Completed => 4 | Failed => 5
  end.

Definition compare_list_order : Job → Job → comparison :=
  cmp_then (cmp_on Z.compare (λ j, state_rank (job_state j)))
    (cmp_then (cmp_on Z.compare job_priority)
       (cmp_then (cmp_on Z.compare job_scheduled_at)
          (cmp_then (cmp_on Z.compare job_created_at) (cmp_on String.compare job_id)))).

(** The order in which due delayed jobs are promoted. *)
Definition compare_due_order : Job → Job → comparison :=
  cmp_then (cmp_on Z.compare job_scheduled_at)
    (cmp_then (cmp_on Z.compare job_created_at) (cmp_on String.compare job_id)).

(** The order in which stalled jobs are recovered. *)
Definition compare_stalled_order : Job → Job → comparison :=
  cmp_then (cmp_on (option_cmp Z.compare) job_lease_expires_at)
    (cmp_then (cmp_on (option_cmp Z.compare) job_processed_at) (cmp_on String.compare job_id)).

Definition job_reference_time (j : Job) : DateTime :=
  match job_finished_at j with
  | Some t => t
  | None => unwrap_or (job_processed_at j) (job_scheduled_at j)
  end.

(** The order in which [clean] removes jobs. *)
Definition compare_clean_order : Job → Job → comparison :=
  cmp_then (cmp_on Z.compare job_reference_time) (cmp_on String.compare job_id).

(** The order on [(id, finished_at)] pairs retention uses: newest first. *)
Definition compare_finished_order : string * Z → string * Z → comparison :=
  cmp_then (cmp_reverse (cmp_on Z.compare snd)) (cmp_reverse (cmp_on String.compare fst)).

(** ** The waiting order as a lexicographic key *)
Definition waiting_key (j : Job) : Z * Z * Z * string :=
  if job_enqueued_seq j =? 0 then (0, 0, 0, job_id j)
  else if opt_lifo (job_options j) then (1, 0, - job_enqueued_seq j, EmptyString)
  else (1, 1, job_enqueued_seq j, EmptyString).

Definition key_cmp : Z * Z * Z * string → Z * Z * Z * string → comparison :=
  cmp_then (cmp_on Z.compare (λ k, k.1.1.1))
    (cmp_then (cmp_on Z.compare (λ k, k.1.1.2))
       (cmp_then (cmp_on Z.compare (λ k, k.1.2)) (cmp_on String.compare (λ k, k.2)))).

Lemma compare_waiting_order_key a b :
  compare_waiting_order a b = key_cmp (waiting_key a) (waiting_key b).
Proof.
  unfold compare_waiting_order, waiting_key, key_cmp, cmp_then, cmp_on.
  destruct (job_enqueued_seq a =? 0), (job_enqueued_seq b =? 0); simpl; try done.
  all: destruct (opt_lifo (job_options a)), (opt_lifo (job_options b)); simpl; try done.
  - rewrite Z.compare_opp. by destruct (job_enqueued_seq b ?= job_enqueued_seq a).
  - by destruct (job_enqueued_seq a ?= job_enqueued_seq b).
Qed.

#[export] Instance lawful_key : LawfulCmp key_cmp.
Proof. unfold key_cmp. apply _. Qed.

#[export] Instance lawful_waiting : LawfulCmp compare_waiting_order.
Proof.
  assert (LawfulCmp (cmp_on key_cmp waiting_key)) as [H1 H2 H3] by apply _.
  split; intros *; rewrite !compare_waiting_order_key; [apply H1|apply H2|apply H3].
Qed.

#[export] Instance lawful_claim : LawfulCmp compare_claim_order.
Proof. unfold compare_claim_order. apply _. Qed.
#[export] Instance lawful_list : LawfulCmp compare_list_order.
Proof. unfold compare_list_order. apply _. Qed.
#[export] Instance lawful_due : LawfulCmp compare_due_order.
Proof. unfold compare_due_order. apply _. Qed.
#[export] Instance lawful_stalled : LawfulCmp compare_stalled_order.
Proof. unfold compare_stalled_order. apply _. Qed.
#[export] Instance lawful_clean : LawfulCmp compare_clean_order.
Proof. unfold compare_clean_order. apply _. Qed.
#[export] Instance lawful_finished : LawfulCmp compare_finished_order.
Proof. unfold compare_finished_order. apply _. Qed.

(** A chain that ends with the id separates jobs by id. *)
Lemma cmp_then_eq {A} (c d : A → A → comparison) x y : cmp_then c d x y = Eq → d x y = Eq.
Proof. unfold cmp_then, then_with. by destruct (c x y). Qed.

Lemma cmp_on_id a b : cmp_on String.compare job_id a b = Eq → job_id a = job_id b.
Proof. apply separating_string. Qed.

Lemma claim_eq_id a b : compare_claim_order a b = Eq → job_id a = job_id b.
Proof. intros H. by do 4 apply cmp_then_eq in H; apply cmp_on_id. Qed.
Lemma list_eq_id a b : compare_list_order a b = Eq → job_id a = job_id b.
Proof. intros H. by do 4 apply cmp_then_eq in H; apply cmp_on_id. Qed.
Lemma due_eq_id a b : compare_due_order a b = Eq → job_id a = job_id b.
Proof. intros H. by do 2 apply cmp_then_eq in H; apply cmp_on_id. Qed.
Lemma stalled_eq_id a b : compare_stalled_order a b = Eq → job_id a = job_id b.
Proof. intros H. by do 2 apply cmp_then_eq in H; apply cmp_on_id. Qed.
Lemma clean_eq_id a b : compare_clean_order a b = Eq → job_id a = job_id b.
Proof. intros H. by apply cmp_then_eq in H; apply cmp_on_id. Qed.
End order.

(** * The state of the in-memory queue and its event log

    [InMemoryJobQueueState] of [src/job/memory.rs], the event log with its
    retention and stream ids, the sequence counters and the guards every
    handler starts with.  The second half proves the event-log invariant and
    the frame facts (what an operation on events leaves alone). *)

Section store.
Context {X : Ext}.

(** ** State *)
Record FlowIndex := mkFlowIndex {
  fi_processed : gmap string Value;
  fi_ignored : gmap string string;
  fi_failed : gset string;
}.
#[export] Instance eta_FlowIndex : Eta FlowIndex := λ i,
  mkFlowIndex (fi_processed i) (fi_ignored i) (fi_failed i).

Definition empty_index : FlowIndex := mkFlowIndex ∅ ∅ ∅.

Definition index_is_empty (i : FlowIndex) : bool :=
  bool_decide (size (fi_processed i) = O) && bool_decide (size (fi_ignored i) = O)
  && bool_decide (fi_failed i = ∅).

Record QueueState := mkQueueState {
  paused : bool;
  sequence : Z;                                   (* u64 *)
  event_sequence : Z;                             (* u64 *)
  events : list JobEvent;
  jobs : gmap string Job;
  flow_dependencies : gmap string FlowIndex;
  deduplication_next : gmap string Job;
  deduplication_next_flows : gmap string JobFlow;
  released_deduplication_owners : gset (string * string);
}.
#[export] Instance eta_QueueState : Eta QueueState := λ s,
  mkQueueState (paused s) (sequence s) (event_sequence s) (events s) (jobs s)
    (flow_dependencies s) (deduplication_next s) (deduplication_next_flows s)
    (released_deduplication_owners s).

Definition empty_state : QueueState := mkQueueState false 0 0 [] ∅ ∅ ∅ ∅ ∅.

(** [HashMap::insert] under the job's id, [get_mut] followed by assignments. *)
Definition put_job (s : QueueState) (id : string) (j : Job) : QueueState :=
  s <| jobs := <[id := j]> (jobs s) |>.

(** ** Waiting sequence *)
Definition next_waiting_sequence (s : QueueState) : QueueState * Z :=
  let n := sat_add U64_MAX (sequence s) 1 in (s <| sequence := n |>, n).

Definition assign_waiting_order (s : QueueState) (j : Job) : QueueState * Job :=
  if state_eqb (job_state j) Waiting
  then let '(s, n) := next_waiting_sequence s in (s, j <| job_enqueued_seq := n |>)
  else (s, j).

(** ** Events *)
Definition trim_events_locked (s : QueueState) (max_len : Z) : QueueState * Z :=
  let len := Z.of_nat (length (events s)) in
  if len <=? max_len then (s, 0)
  else let remove_count := len - max_len in
       (s <| events ::= drop (Z.to_nat remove_count) |>, remove_count).

Definition emit_event_locked (s : QueueState) (event : string) (job : option Job)
    (prev : option JobState) (timestamp : DateTime) (fields : gmap string Value) : QueueState :=
  let seq := sat_add U64_MAX (event_sequence s) 1 in
  let e := {| ev_id := show_nat seq +:+ "-0"; ev_event := event; ev_timestamp := timestamp;
              ev_job_id := job_id <$> job; ev_prev := prev; ev_fields := fields |} in
  let s := s <| event_sequence := seq |> <| events ::= λ l, l ++ [e] |> in
  (trim_events_locked s DEFAULT_JOB_EVENT_RETENTION).1.

Definition job_event_for_state (st : JobState) : string :=
  match st with
  | Waiting => "waiting" | Delayed => "delayed" | Active => "active"
  | WaitingChildren => "waiting-children" | Completed => "completed" | Failed => "failed"
  end.

Definition emit_job_created_events_locked (s : QueueState) (j : Job) (now : DateTime) : QueueState :=
  let s := emit_event_locked s "added" (Some j) None now {[ "name" := VString (job_name j) ]} in
  emit_event_locked s (job_event_for_state (job_state j)) (Some j) None now ∅.

Definition emit_retries_exhausted_event_locked (s : QueueState) (j : Job) (now : DateTime) : QueueState :=
  emit_event_locked s "retries-exhausted" (Some j) None now
    {[ "attemptsMade" := VNumber (job_attempts_made j) ]}.

Definition emit_removed_event_locked (s : QueueState) (j : Job) (now : DateTime) : QueueState :=
  emit_event_locked s "removed" (Some j) (Some (job_state j)) now ∅.

Definition emit_duplicated_event_locked (s : QueueState) (j : Job) (now : DateTime) : QueueState :=
  emit_event_locked s "duplicated" (Some j) None now ∅.

Definition emit_cleaned_event_locked (s : QueueState) (count : nat) (now : DateTime) : QueueState :=
  emit_event_locked s "cleaned" None None now {[ "count" := VNumber (Z.of_nat count) ]}.

Definition emit_deduplication_events_locked (s : QueueState) (event_job : Job)
    (deduplication_id deduplicated_job_id : string) (now : DateTime) : QueueState :=
  let s := emit_event_locked s "debounced" (Some event_job) None now
             {[ "debounceId" := VString deduplication_id ]} in
  emit_event_locked s "deduplicated" (Some event_job) None now
    (<[ "deduplicationId" := VString deduplication_id ]>
       {[ "deduplicatedJobId" := VString deduplicated_job_id ]}).

Definition job_deduplication_id (j : Job) : option string :=
  dd_id <$> opt_deduplication (job_options j).

Definition emit_deduplicated_events_locked (s : QueueState) (owner candidate : Job) (now : DateTime) : QueueState :=
  match job_deduplication_id candidate with
  | None => s
  | Some d => emit_deduplication_events_locked s owner d (job_id candidate) now
  end.

Definition emit_replaced_deduplicated_owner_events_locked (s : QueueState)
    (replacement removed_owner : Job) (now : DateTime) : QueueState :=
  match job_deduplication_id replacement with
  | None => s
  | Some d => emit_deduplication_events_locked s replacement d (job_id removed_owner) now
  end.

Definition blocks_drained (j : Job) : bool :=
  match job_state j with Waiting | Active => true | _ => false end.

Definition emit_drained_event_if_needed_locked (s : QueueState) (now : DateTime) : QueueState :=
  if forallb (λ j, negb (blocks_drained j)) (hash_values (jobs s))
  then emit_event_locked s "drained" None None now ∅ else s.

(** ** Reading the event log *)
Definition parse_stream_id (id : string) : option (Z * Z) :=
  match split_once (Ascii.ascii_of_N 45) id with
  | None => None
  | Some (millis, seq) =>
      match parse_i64 millis with
      | None => None
      | Some m => match parse_u64 seq with None => None | Some n => Some (m, n) end
      end
  end.

(** [a <= b] on pairs. *)
Definition stream_id_le (a b : Z * Z) : bool :=
  (a.1 <? b.1) || ((a.1 =? b.1) && (a.2 <=? b.2)).

Definition event_in_range (e : JobEvent) (start end_ : string) : bool :=
  match parse_stream_id (ev_id e) with
  | None => false
  | Some event_id =>
      let after_start :=
        if String.eqb start "-" then true
        else match parse_stream_id start with
             | Some start_id => stream_id_le start_id event_id
             | None => true
             end in
      let before_end :=
        if String.eqb end_ "+" then true
        else match parse_stream_id end_ with
             | Some end_id => stream_id_le event_id end_id
             | None => true
             end in
      after_start && before_end
  end.

Definition read_events (s : QueueState) (start end_ : string) (limit : nat) : list JobEvent :=
  match limit with
  | O => []
  | _ => take limit (List.filter (λ e, event_in_range e start end_) (events s))
  end.

Definition trim_events (s : QueueState) (max_len : Z) : QueueState * Result Z :=
  let '(s, n) := trim_events_locked s max_len in (s, Ok n).

(** ** Guards *)
Definition job_not_found {A} (id : string) : Result A := Err (JobNotFound id).

Definition require_active (j : Job) (action : string) : Result unit :=
  if state_eqb (job_state j) Active then Ok tt
  else Err (JobStateConflict ("cannot " +:+ action +:+ " job " +:+ job_id j
                              +:+ " from state " +:+ debug_state (job_state j))).

Definition require_lock_token (j : Job) (lock_token : string) : Result unit :=
  match job_lock_token j with
  | Some t => if String.eqb t lock_token then Ok tt
              else Err (JobLeaseConflict ("lock token does not own job " +:+ job_id j))
  | None => Err (JobLeaseConflict ("lock token does not own job " +:+ job_id j))
  end.

Definition require_removable (j : Job) : Result unit :=
  if state_eqb (job_state j) Active && is_some (job_lock_token j)
  then Err (JobLeaseConflict ("cannot remove active leased job " +:+ job_id j))
  else Ok tt.

(** [job.worker_id = None; job.lock_token = None; job.lease_expires_at = None;]
    and the failure fields every release resets with them. *)
Definition clear_lease (j : Job) : Job :=
  j <| job_worker_id := None |> <| job_lock_token := None |> <| job_lease_expires_at := None |>
    <| job_deferred_failure := None |>.

(** *** Guards as propositions *)
Definition owned_by (j : Job) (token : string) : Prop :=
  job_state j = Active ∧ job_lock_token j = Some token.

Lemma require_active_ok j a : require_active j a = Ok tt ↔ job_state j = Active.
Proof. unfold require_active, state_eqb. case_bool_decide; by split. Qed.

Lemma require_lock_token_ok j t : require_lock_token j t = Ok tt ↔ job_lock_token j = Some t.
Proof.
  unfold require_lock_token. destruct (job_lock_token j) as [u|]; [|done].
  destruct (String.eqb_spec u t) as [->|]; split; congruence.
Qed.

Lemma require_removable_ok j :
  require_removable j = Ok tt ↔ ¬ (job_state j = Active ∧ is_Some (job_lock_token j)).
Proof.
  unfold require_removable, state_eqb. rewrite <- is_some_true.
  case_bool_decide; destruct (is_some _); simpl; naive_solver.
Qed.

Lemma outcome_unit_cases {E} (r : outcome E unit) : r = Ok tt ∨ ∃ e, r = Err e.
Proof. destruct r as [[]|e]; eauto. Qed.
End store.
