(* ===== verification/JobDedup.v ===== *)
(** * Deduplication and repeat ownership ([src/job/memory.rs])

    Which job owns a deduplication id or a repeat key, what a duplicate
    submission does to the owner, and the candidates parked until the owner
    finishes. *)
From S2P Require Import Prelude Ordering Text External Retry JobTypes JobStore.
Local Open Scope Z_scope.

Section dedup.
Context {X : Ext}.

(** ** Owners *)
Definition active_deduplication_id (j : Job) (now : DateTime) : option string :=
  if match job_deduplication_expires_at j with Some t => t <=? now | None => false end
  then None
  else if is_terminal (job_state j) && is_none (job_deduplication_expires_at j)
  then None
  else job_deduplication_id j.

Definition deduplication_owner_released (released : gset (string * string)) (d id : string) : bool :=
  bool_decide ((d, id) ∈ released).

Definition owns_deduplication_id (released : gset (string * string)) (d : string) (now : DateTime)
    (j : Job) : bool :=
  bool_decide (active_deduplication_id j now = Some d)
  && negb (deduplication_owner_released released d (job_id j)).

Definition find_active_deduplication_id (m : gmap string Job) (released : gset (string * string))
    (d : string) (now : DateTime) : option Job :=
  List.find (owns_deduplication_id released d now) (hash_values m).

Definition find_active_deduplicated_job (m : gmap string Job) (released : gset (string * string))
    (candidate : Job) (now : DateTime) : option Job :=
  match active_deduplication_id candidate now with
  | None => None
  | Some d => find_active_deduplication_id m released d now
  end.

Definition find_active_deduplication_id_except (m : gmap string Job)
    (released : gset (string * string)) (d excluded : string) (now : DateTime) : option Job :=
  List.find (λ j, negb (String.eqb (job_id j) excluded) && owns_deduplication_id released d now j)
    (hash_values m).

Definition active_repeat_key (j : Job) : option string :=
  if is_terminal (job_state j) then None else job_repeat_key j.

Definition find_active_repeat_key (m : gmap string Job) (key : string) : option Job :=
  List.find (λ j, bool_decide (active_repeat_key j = Some key)) (hash_values m).

Definition find_active_repeat_job (m : gmap string Job) (candidate : Job) : option Job :=
  match active_repeat_key candidate with
  | None => None
  | Some key => find_active_repeat_key m key
  end.

Definition find_active_repeat_key_except (m : gmap string Job) (key excluded : string) : option Job :=
  List.find (λ j, negb (String.eqb (job_id j) excluded) && bool_decide (active_repeat_key j = Some key))
    (hash_values m).

Definition is_delayed_repeat_owner (m : gmap string Job) (j : Job) : bool :=
  state_eqb (job_state j) Delayed &&
  match job_repeat_key j with
  | None => false
  | Some key => match find_active_repeat_key m key with
                | Some owner => String.eqb (job_id owner) (job_id j)
                | None => false
                end
  end.

Definition is_repeat_scheduler_job (j : Job) : bool :=
  is_some (active_repeat_key j) && is_some (opt_repeat (job_options j)).

(** ** What a duplicate does *)
Definition dedup_test (j : Job) (p : DeduplicationOptions → bool) : bool :=
  match opt_deduplication (job_options j) with Some d => p d | None => false end.

Definition deduplication_replaces_delayed_owner (candidate existing : Job) : bool :=
  dedup_test candidate dd_replace
  && state_eqb (job_state existing) Delayed
  && is_none (job_repeat_key candidate)
  && is_none (job_parent_id existing)
  && bool_decide (job_child_ids existing = [])
  && is_none (job_repeat_key existing).

Definition deduplication_stores_next_if_active (candidate existing : Job) : bool :=
  dedup_test candidate dd_keep_last_if_active
  && state_eqb (job_state existing) Active
  && bool_decide (job_child_ids candidate = [])
  && bool_decide (job_repeat_key candidate = job_repeat_key existing).

Definition deduplication_duplicate_emits_events (candidate existing : Job) : bool :=
  match opt_deduplication (job_options candidate) with
  | None => false
  | Some d => negb (dd_replace d) || deduplication_stores_next_if_active candidate existing
  end.

Definition deduplication_stores_next_flow_if_active (candidate : JobFlow) (existing : Job) : bool :=
  dedup_test (flow_parent candidate) dd_keep_last_if_active
  && state_eqb (job_state existing) Active
  && is_none (job_parent_id (flow_parent candidate))
  && is_none (job_repeat_key (flow_parent candidate))
  && is_none (job_repeat_key existing).

Definition flow_child_deduplication_requires_next (candidate existing : Job) : bool :=
  dedup_test candidate dd_keep_last_if_active && state_eqb (job_state existing) Active.

Definition deduplication_extends_ttl (candidate : Job) : bool :=
  dedup_test candidate (λ d, dd_extend d && is_some (dd_ttl d) && negb (dd_keep_last_if_active d)).

Definition preserve_replacement_deduplication_expiration (candidate existing : Job) : Job :=
  if dedup_test candidate (λ d, is_some (dd_ttl d))
  then candidate <| job_deduplication_expires_at := job_deduplication_expires_at existing |>
  else candidate.

(** ** State updates *)
Definition forget_released_deduplication_owner_locked (s : QueueState) (j : Job) : QueueState :=
  match job_deduplication_id j with
  | Some d => s <| released_deduplication_owners ::= λ r, r ∖ {[ (d, job_id j) ]} |>
  | None => s
  end.

Definition remove_job_record_locked (s : QueueState) (id : string) : QueueState * option Job :=
  match jobs s !! id with
  | None => (s, None)
  | Some removed =>
      let s := s <| jobs ::= delete id |> <| flow_dependencies ::= delete id |> in
      (forget_released_deduplication_owner_locked s removed, Some removed)
  end.

Definition clear_owner_expiration (s : QueueState) (id : string) : QueueState :=
  match jobs s !! id with
  | Some owner => put_job s id (owner <| job_deduplication_expires_at := None |>)
  | None => s
  end.

Definition store_deduplicated_next_locked (s : QueueState) (candidate existing : Job) : QueueState * bool :=
  if negb (deduplication_stores_next_if_active candidate existing) then (s, false)
  else match job_deduplication_id candidate with
       | None => (s, false)
       | Some d =>
           let s := s <| deduplication_next ::= <[ d := candidate ]> |>
                      <| deduplication_next_flows ::= delete d |> in
           (clear_owner_expiration s (job_id existing), true)
       end.

Definition store_deduplicated_next_flow_locked (s : QueueState) (candidate : JobFlow) (existing : Job)
    : QueueState * bool :=
  if negb (deduplication_stores_next_flow_if_active candidate existing) then (s, false)
  else match job_deduplication_id (flow_parent candidate) with
       | None => (s, false)
       | Some d =>
           let s := s <| deduplication_next_flows ::= <[ d := candidate ]> |>
                      <| deduplication_next ::= delete d |> in
           (clear_owner_expiration s (job_id existing), true)
       end.

Definition extend_deduplication_expiration_locked (s : QueueState) (candidate : Job)
    (existing_id : string) (now : DateTime) : QueueState * bool :=
  if negb (deduplication_extends_ttl candidate) then (s, false)
  else match jobs s !! existing_id with
       | None => (s, false)
       | Some existing =>
           (put_job s existing_id
              (existing <| job_deduplication_expires_at :=
                             deduplication_expiration (job_options candidate) now |>), true)
       end.

(** ** Parked candidates *)
Definition state_after_dependencies (scheduled_at now : DateTime) : JobState :=
  if now <? scheduled_at then Delayed else Waiting.

Definition prepare_deduplicated_next_job (j : Job) (now : DateTime) : Job :=
  let scheduled_at := match opt_delay (job_options j) with
                      | Some delay => add_duration now delay
                      | None => now
                      end in
  clear_lease (j <| job_created_at := now |>
    <| job_scheduled_at := scheduled_at |>
    <| job_state := state_after_dependencies scheduled_at now |>
    <| job_attempts_made := 0 |> <| job_stalled_count := 0 |>
    <| job_processed_at := None |> <| job_finished_at := None |>
    <| job_failed_reason := None |> <| job_return_value := None |>
    <| job_progress := None |> <| job_logs := [] |>
    <| job_deduplication_expires_at := deduplication_expiration (job_options j) now |>).

Definition as_flow_parent (parent : Job) (children : list Job) : Job :=
  let parent := parent <| job_child_ids := job_id <$> children |> in
  match children with [] => parent | _ => parent <| job_state := WaitingChildren |> end.

Definition as_flow_child (parent_id : string) (child : Job) : Job :=
  child <| job_parent_id := Some parent_id |> <| job_child_ids := [] |>.

Definition prepare_deduplicated_next_flow (f : JobFlow) (now : DateTime) : JobFlow :=
  let parent := as_flow_parent (prepare_deduplicated_next_job (flow_parent f) now) (flow_children f) in
  mkJobFlow parent
    ((λ c, as_flow_child (job_id parent) (prepare_deduplicated_next_job c now)) <$> flow_children f).

(** [None]: the candidate must not be enqueued; [Some None]: enqueue it as it
    is; [Some (Some n)]: enqueue it as occurrence [n] of the series. *)
Definition repeat_keep_last_next_count (owner candidate : Job) : option (option Z) :=
  match job_repeat_key owner with
  | None => Some None
  | Some owner_key =>
      if negb (bool_decide (job_repeat_key candidate = Some owner_key)) then None
      else
        let next_count := sat_add U32_MAX (job_repeat_count owner) 1 in
        if match opt_repeat (job_options owner) with
           | Some r => match rep_limit r with Some limit => limit <=? next_count | None => false end
           | None => false
           end
        then None
        else Some (Some next_count)
  end.

(** Occurrence [n] of the repeat series [key]. *)
Definition as_occurrence (j : Job) (key : option string) (n : Z) : Job :=
  j <| job_repeat_key := key |> <| job_repeat_count := n |>.

Definition add_child_id (parent : Job) (child_id : string) : Job :=
  if existsb (String.eqb child_id) (job_child_ids parent) then parent
  else parent <| job_child_ids ::= λ l, l ++ [child_id] |>.

(** Insert a job that is not in the map yet: order, record, events. *)
Definition insert_new_job (s : QueueState) (j : Job) (now : DateTime) : QueueState * Job :=
  let s := forget_released_deduplication_owner_locked s j in
  let '(s, j) := assign_waiting_order s j in
  let s := put_job s (job_id j) j in
  (emit_job_created_events_locked s j now, j).

Definition enqueue_deduplicated_next_locked (s : QueueState) (owner : Job) (now : DateTime)
    : QueueState * option Job :=
  match job_deduplication_id owner with
  | None => (s, None)
  | Some d =>
      match deduplication_next s !! d with
      | None => (s, None)
      | Some next =>
          let s := s <| deduplication_next ::= delete d |> in
          match repeat_keep_last_next_count owner next with
          | None => (s, None)
          | Some repeat_next_count =>
              let next := prepare_deduplicated_next_job next now in
              let next := match repeat_next_count with
                          | Some n => as_occurrence next (job_repeat_key owner) n
                          | None => next
                          end in
              if is_some (jobs s !! job_id next) then (s, None)
              else
                let s := match job_parent_id next with
                         | None => s
                         | Some parent_id =>
                             match jobs s !! parent_id with
                             | None => s
                             | Some parent => put_job s parent_id (add_child_id parent (job_id next))
                             end
                         end in
                let '(s, next) := insert_new_job s next now in
                (s, Some next)
          end
      end
  end.

Definition enqueue_deduplicated_next_flow_locked (s : QueueState) (owner : Job) (now : DateTime)
    : QueueState * option JobFlow :=
  match job_deduplication_id owner with
  | None => (s, None)
  | Some d =>
      match deduplication_next_flows s !! d with
      | None => (s, None)
      | Some flow =>
          let s := s <| deduplication_next_flows ::= delete d |> in
          if is_some (jobs s !! job_id (flow_parent flow))
             || existsb (λ c, is_some (jobs s !! job_id c)) (flow_children flow)
          then (s, None)
          else
            let flow := prepare_deduplicated_next_flow flow now in
            let '(s, parent) := insert_new_job s (flow_parent flow) now in
            let '(s, children) :=
              foldl (λ '(s, acc) c, let '(s, c) := insert_new_job s c now in (s, acc ++ [c]))
                (s, []) (flow_children flow) in
            (s, Some (mkJobFlow parent children))
      end
  end.

(** ** Repeat series *)
Definition next_repeat_job (j : Job) (now : DateTime) (uuid : string) : Result (option Job) :=
  match opt_repeat (job_options j) with
  | None => Ok None
  | Some r =>
      let next_count := sat_add U32_MAX (job_repeat_count j) 1 in
      if match rep_limit r with Some limit => limit <=? next_count | None => false end
      then Ok None
      else
        let? scheduled := next_scheduled_at r now in
        match scheduled with
        | None => Ok None
        | Some scheduled_at =>
            if match rep_end_at r with Some end_at => end_at <? scheduled_at | None => false end
            then Ok None
            else
              let next := Job_new (job_queue j) (job_name j) (job_payload j)
                            ((job_options j) <| opt_job_id := None |>) now uuid in
              Ok (Some (next <| job_scheduled_at := scheduled_at |>
                             <| job_state := state_after_dependencies scheduled_at now |>
                             <| job_repeat_key := job_repeat_key j |>
                             <| job_repeat_count := next_count |>))
        end
  end.
End dedup.
