(* ===== verification/JobFlows.v ===== *)
(** * Parent-child flows ([src/job/memory.rs])

    The per-parent dependency index, the dependency counts, retention of
    finished jobs, and the handlers that move a parent when one of its children
    finishes: release, failure, deferred failure, continuation and the
    restoration of a dependency after a retry. *)
From S2P Require Import Prelude Ordering Text External Retry JobTypes JobStore.
From S2P Require Import JobDedup.
Local Open Scope Z_scope.

Section flows.
Context {X : Ext}.

(** ** The dependency index *)
Definition flow_dependency_index_contains (index : option FlowIndex) (child_id : string) : bool :=
  match index with
  | Some i => is_some (fi_processed i !! child_id) || is_some (fi_ignored i !! child_id)
              || bool_decide (child_id ∈ fi_failed i)
  | None => false
  end.

Definition has_child_dependency_side_index_locked (s : QueueState) (parent_id child_id : string) : bool :=
  flow_dependency_index_contains (flow_dependencies s !! parent_id) child_id.

(** [entry(parent_id).or_default()] followed by a mutation. *)
Definition update_index (s : QueueState) (parent_id : string) (f : FlowIndex → FlowIndex) : QueueState :=
  s <| flow_dependencies ::= λ m, <[ parent_id := f (unwrap_or (m !! parent_id) empty_index) ]> m |>.

Definition record_completed_child_dependency_locked (s : QueueState) (parent_id child_id : string)
    (value : Value) : QueueState :=
  update_index s parent_id (λ i, i <| fi_ignored ::= delete child_id |>
    <| fi_failed ::= λ f, f ∖ {[ child_id ]} |> <| fi_processed ::= <[ child_id := value ]> |>).

Definition record_ignored_child_dependency_locked (s : QueueState) (parent_id child_id : string)
    (failed_reason : string) : QueueState :=
  update_index s parent_id (λ i, i <| fi_processed ::= delete child_id |>
    <| fi_failed ::= λ f, f ∖ {[ child_id ]} |> <| fi_ignored ::= <[ child_id := failed_reason ]> |>).

Definition record_failed_child_dependency_locked (s : QueueState) (parent_id child_id : string)
    : QueueState :=
  update_index s parent_id (λ i, i <| fi_processed ::= delete child_id |>
    <| fi_ignored ::= delete child_id |> <| fi_failed ::= λ f, f ∪ {[ child_id ]} |>).

(** The three removals are joined by [||]: the first that finds the child
    ends the chain. *)
Definition clear_index (i : FlowIndex) (child_id : string) : FlowIndex * bool :=
  if is_some (fi_processed i !! child_id) then (i <| fi_processed ::= delete child_id |>, true)
  else if is_some (fi_ignored i !! child_id) then (i <| fi_ignored ::= delete child_id |>, true)
  else (i <| fi_failed ::= λ f, f ∖ {[ child_id ]} |>, bool_decide (child_id ∈ fi_failed i)).

Definition clear_child_dependency_side_index_locked (s : QueueState) (parent_id child_id : string)
    : QueueState * bool :=
  match flow_dependencies s !! parent_id with
  | None => (s, false)
  | Some index =>
      let '(index, removed) := clear_index index child_id in
      if index_is_empty index
      then (s <| flow_dependencies ::= delete parent_id |>, removed)
      else (s <| flow_dependencies ::= <[ parent_id := index ]> |>, removed)
  end.

(** ** Failure policies of a child *)
Definition child_failure_ignored (child : Job) : bool :=
  opt_ignore_dependency_on_failure (job_options child) || opt_continue_parent_on_failure (job_options child).

Definition child_failure_releases_dependency (child : Job) : bool :=
  opt_ignore_dependency_on_failure (job_options child)
  || opt_remove_dependency_on_failure (job_options child)
  || opt_continue_parent_on_failure (job_options child).

Definition record_terminal_child_dependency_locked (s : QueueState) (parent_id : string) (child : Job)
    : QueueState :=
  match jobs s !! parent_id with
  | None => s
  | Some parent =>
      if negb (existsb (λ c, String.eqb c (job_id child)) (job_child_ids parent)) then s
      else match job_state child with
           | Completed =>
               record_completed_child_dependency_locked s parent_id (job_id child)
                 (unwrap_or (job_return_value child) VNull)
           | Failed =>
               if child_failure_ignored child
               then record_ignored_child_dependency_locked s parent_id (job_id child)
                      (unwrap_or (job_failed_reason child) EmptyString)
               else if opt_fail_parent_on_failure (job_options child)
               then record_failed_child_dependency_locked s parent_id (job_id child)
               else if opt_remove_dependency_on_failure (job_options child)
               then (clear_child_dependency_side_index_locked s parent_id (job_id child)).1
               else s
           | _ => s
           end
  end.

(** ** Dependency counts *)
Record JobFlowDependencyCounts := mkCounts {
  dc_processed : nat; dc_unprocessed : nat; dc_failed : nat; dc_ignored : nat; dc_missing : nat;
}.
#[export] Instance eta_counts : Eta JobFlowDependencyCounts := λ c,
  mkCounts (dc_processed c) (dc_unprocessed c) (dc_failed c) (dc_ignored c) (dc_missing c).

(** The bucket a child that is not indexed falls into; a failed child whose
    dependency was removed is in none. *)
Definition count_child (m : gmap string Job) (c : JobFlowDependencyCounts) (child_id : string)
    : JobFlowDependencyCounts :=
  match m !! child_id with
  | None => c <| dc_missing ::= S |>
  | Some child =>
      match job_state child with
      | Completed => c <| dc_processed ::= S |>
      | Failed =>
          if child_failure_ignored child then c <| dc_ignored ::= S |>
          else if opt_remove_dependency_on_failure (job_options child) then c
          else c <| dc_failed ::= S |>
      | _ => c <| dc_unprocessed ::= S |>
      end
  end.

Definition flow_dependency_counts (parent : Job) (m : gmap string Job) (index : option FlowIndex)
    : JobFlowDependencyCounts :=
  let i := unwrap_or index empty_index in
  let counts := mkCounts (size (fi_processed i)) 0 (size (fi_failed i)) (size (fi_ignored i)) 0 in
  foldl (λ c child_id, if flow_dependency_index_contains index child_id then c else count_child m c child_id)
    counts (job_child_ids parent).

Definition ensure_flow_dependencies_are_resolved (j : Job) (m : gmap string Job)
    (index : option FlowIndex) (action : string) : Result unit :=
  let counts := flow_dependency_counts j m index in
  if (0 <? dc_unprocessed counts)%nat
  then Err (JobStateConflict ("cannot " +:+ action +:+ " job " +:+ job_id j +:+ "; it has "
              +:+ show_nat (Z.of_nat (dc_unprocessed counts)) +:+ " pending flow dependencies"))
  else if (0 <? dc_failed counts)%nat
  then Err (JobStateConflict ("cannot " +:+ action +:+ " job " +:+ job_id j +:+ "; it has "
              +:+ show_nat (Z.of_nat (dc_failed counts)) +:+ " failed flow dependencies"))
  else Ok tt.

Definition ensure_flow_dependencies_have_not_failed (j : Job) (m : gmap string Job)
    (index : option FlowIndex) (action : string) : Result unit :=
  let counts := flow_dependency_counts j m index in
  if (0 <? dc_failed counts)%nat
  then Err (JobStateConflict ("cannot " +:+ action +:+ " job " +:+ job_id j +:+ "; it has "
              +:+ show_nat (Z.of_nat (dc_failed counts)) +:+ " failed flow dependencies"))
  else Ok tt.

(** ** Retention of finished jobs *)
Definition finished_entries (s : QueueState) (st : JobState) : list (string * DateTime) :=
  omap (λ j, if state_eqb (job_state j) st
             then match job_finished_at j with Some t => Some (job_id j, t) | None => None end
             else None)
    (hash_values (jobs s)).

Definition remove_job_records (s : QueueState) (ids : list string) : QueueState :=
  foldl (λ s id, (remove_job_record_locked s id).1) s ids.

Definition apply_age_retention (s : QueueState) (st : JobState) (r : JobRetention) (now : DateTime)
    : QueueState :=
  match ret_age r with
  | None => s
  | Some age =>
      let cutoff := subtract_duration now age in
      let limit := unwrap_or (ret_limit r) 1000%nat in
      let expired := List.filter (λ e, e.2 <=? cutoff) (finished_entries s st) in
      remove_job_records s (take limit (sort_by compare_finished_order expired)).*1
  end.

Definition apply_count_retention (s : QueueState) (st : JobState) (r : JobRetention) : QueueState :=
  match ret_count r with
  | None => s
  | Some count =>
      remove_job_records s (drop count (sort_by compare_finished_order (finished_entries s st))).*1
  end.

Definition apply_finished_retention_locked (s : QueueState) (st : JobState) (r : JobRetention)
    (now : DateTime) : QueueState :=
  apply_count_retention (apply_age_retention s st r now) st r.

(** ** Moving a parent *)

(** [(state == Waiting).then(|| next_waiting_sequence(..))]. *)
Definition waiting_sequence_if (s : QueueState) (st : JobState) : QueueState * option Z :=
  if state_eqb st Waiting
  then let '(s, n) := next_waiting_sequence s in (s, Some n)
  else (s, None).

(** The parent leaves its dependencies: it becomes claimable (or delayed) with
    a clean lease, and gets a place in the waiting order. *)
Definition resume_parent (parent : Job) (st : JobState) (deferred : option string) (seq : option Z) : Job :=
  let parent := clear_lease (parent <| job_state := st |> <| job_processed_at := None |>
                               <| job_finished_at := None |> <| job_failed_reason := None |>) in
  let parent := parent <| job_deferred_failure := deferred |> in
  match seq with Some n => parent <| job_enqueued_seq := n |> | None => parent end.

Definition defer_parent_failure_after_child_failure_locked (s : QueueState) (parent_id child_id : string)
    (now : DateTime) : QueueState * option Job :=
  match jobs s !! parent_id with
  | None => (s, None)
  | Some parent =>
      if is_terminal (job_state parent) then (s, Some parent)
      else
        let parent_state := state_after_dependencies (job_scheduled_at parent) now in
        let previous_state := job_state parent in
        let '(s, seq) := waiting_sequence_if s parent_state in
        let parent := resume_parent parent parent_state
                        (Some ("child job " +:+ child_id +:+ " failed")) seq in
        let s := put_job s parent_id parent in
        (emit_event_locked s (job_event_for_state (job_state parent)) (Some parent)
           (Some previous_state) now ∅, Some parent)
  end.

Definition continue_parent_after_child_failure_locked (s : QueueState) (parent_id : string)
    (now : DateTime) : QueueState * option Job :=
  match jobs s !! parent_id with
  | None => (s, None)
  | Some parent =>
      if negb (state_eqb (job_state parent) WaitingChildren) then (s, Some parent)
      else
        let parent_state := state_after_dependencies (job_scheduled_at parent) now in
        let '(s, seq) := waiting_sequence_if s parent_state in
        let parent := resume_parent parent parent_state None seq in
        let s := put_job s parent_id parent in
        (emit_event_locked s (job_event_for_state (job_state parent)) (Some parent)
           (Some WaitingChildren) now ∅, Some parent)
  end.

Definition failed_reason_field (reason : option string) : gmap string Value :=
  match reason with Some r => {[ "failedReason" := VString r ]} | None => ∅ end.

Definition fail_parent (parent : Job) (reason : string) (now : DateTime) : Job :=
  clear_lease (parent <| job_state := Failed |> <| job_finished_at := Some now |>)
    <| job_failed_reason := Some reason |>.

Definition fail_waiting_parent_locked (s : QueueState) (parent_id reason : string) (now : DateTime)
    : QueueState * option Job :=
  match jobs s !! parent_id with
  | None => (s, None)
  | Some parent =>
      if is_terminal (job_state parent) then (s, Some parent)
      else
        let failed := fail_parent parent reason now in
        let s := put_job s parent_id failed in
        let s := if removes_failed_immediately (job_options failed)
                 then (remove_job_record_locked s parent_id).1
                 else match failed_retention (job_options failed) with
                      | Some r => apply_finished_retention_locked s Failed r now
                      | None => s
                      end in
        (emit_event_locked s "failed" (Some failed) (Some WaitingChildren) now
           (failed_reason_field (job_failed_reason failed)), Some failed)
  end.

Definition child_failed_message (child_id : string) (reason : option string) : string :=
  "child job " +:+ child_id +:+ " failed: " +:+ unwrap_or reason "unknown error".

(** What the scan over the children of a waiting parent found. *)
Inductive child_scan : Type :=
| ChildPending
| ChildrenDone (deferred : option string) (failure : option (string * option string)).

(** One child in the scan; a child that still runs ends it. *)
Fixpoint scan_children (m : gmap string Job) (ids : list string) (deferred : option string)
    (failure : option (string * option string)) : child_scan :=
  match ids with
  | [] => ChildrenDone deferred failure
  | id :: ids =>
      match m !! id with
      | None => scan_children m ids deferred failure
      | Some child =>
          match job_state child with
          | Completed => scan_children m ids deferred failure
          | Failed =>
              if opt_fail_parent_on_failure (job_options child)
              then scan_children m ids (Some (job_id child)) failure
              else if child_failure_releases_dependency child
              then scan_children m ids deferred failure
              else scan_children m ids deferred (Some (job_id child, job_failed_reason child))
          | _ => ChildPending
          end
      end
  end.

Definition release_parent_if_ready_locked (s : QueueState) (parent_id : string) (now : DateTime)
    : QueueState * option Job :=
  match jobs s !! parent_id with
  | None => (s, None)
  | Some parent =>
      if negb (state_eqb (job_state parent) WaitingChildren) then (s, Some parent)
      else match scan_children (jobs s) (job_child_ids parent) None None with
           | ChildPending => (s, Some parent)
           | ChildrenDone (Some child_id) _ =>
               defer_parent_failure_after_child_failure_locked s parent_id child_id now
           | ChildrenDone None (Some (child_id, reason)) =>
               fail_waiting_parent_locked s parent_id (child_failed_message child_id reason) now
           | ChildrenDone None None =>
               let parent_state := state_after_dependencies (job_scheduled_at parent) now in
               let '(s, seq) := waiting_sequence_if s parent_state in
               let parent := resume_parent parent parent_state None seq in
               let s := put_job s parent_id parent in
               (emit_event_locked s (job_event_for_state (job_state parent)) (Some parent)
                  (Some WaitingChildren) now ∅, Some parent)
           end
  end.

Definition restore_parent_dependency_after_child_retry_locked (s : QueueState)
    (parent_id child_id : string) (now : DateTime) : QueueState * option Job :=
  match jobs s !! parent_id with
  | None => (s, None)
  | Some parent =>
      if is_terminal (job_state parent) || state_eqb (job_state parent) Active then (s, Some parent)
      else if negb (existsb (λ id, String.eqb id child_id) (job_child_ids parent)) then (s, Some parent)
      else
        let previous_state := job_state parent in
        let s := (clear_child_dependency_side_index_locked s parent_id child_id).1 in
        let parent := clear_lease (parent <| job_state := WaitingChildren |>
                                     <| job_processed_at := None |> <| job_finished_at := None |>
                                     <| job_failed_reason := None |>) in
        let s := put_job s parent_id parent in
        let s := if state_eqb previous_state WaitingChildren then s
                 else emit_event_locked s "waiting-children" (Some parent) (Some previous_state) now ∅ in
        (s, Some parent)
  end.

Definition validate_existing_flow_child_parent_locked (s : QueueState) (parent_id child_id : string)
    : Result unit :=
  match jobs s !! child_id with
  | None => Ok tt
  | Some child =>
      match job_parent_id child with
      | None => Ok tt
      | Some existing_parent_id =>
          if negb (String.eqb existing_parent_id parent_id) && is_some (jobs s !! existing_parent_id)
          then Err (JobStateConflict ("flow child id `" +:+ child_id
                      +:+ "` already belongs to parent `" +:+ existing_parent_id +:+ "`"))
          else Ok tt
      end
  end.

Definition flow_for_existing_owner_locked (s : QueueState) (owner : Job) : JobFlow :=
  mkJobFlow owner (omap (λ child_id, jobs s !! child_id) (job_child_ids owner)).
End flows.
