(* ===== verification/JobCore.v ===== *)
(** * The job lifecycle ([src/job/memory.rs])

    One definition per handler that moves a job through its states: claim,
    complete, fail, lease renewal, delay and release of an active job,
    promotion, rescheduling, retry, priority changes, stalled recovery, pause
    and resume.  A handler takes the state, its arguments, the clock reading
    and the ids it draws, and returns the state it leaves with its result. *)
From S2P Require Import Prelude Ordering Text External Retry JobTypes JobStore.
From S2P Require Import JobDedup JobFlows.
Local Open Scope Z_scope.

Section core.
Context {X : Ext}.

(** ** Promotion of due jobs *)
Definition promote_one (now : DateTime) (acc : QueueState * nat) (due_job : Job) : QueueState * nat :=
  let '(s, promoted) := acc in
  let '(s, enqueued_seq) := next_waiting_sequence s in
  match jobs s !! job_id due_job with
  | None => (s, promoted)
  | Some job =>
      let job := job <| job_state := Waiting |> <| job_enqueued_seq := enqueued_seq |> in
      let s := put_job s (job_id due_job) job in
      (emit_event_locked s "waiting" (Some job) (Some Delayed) now ∅, S promoted)
  end.

Definition due_jobs (s : QueueState) (now : DateTime) : list Job :=
  sort_by compare_due_order
    (List.filter (λ j, state_eqb (job_state j) Delayed && (job_scheduled_at j <=? now))
       (hash_values (jobs s))).

Definition promote_due_locked (s : QueueState) (now : DateTime) : QueueState * nat :=
  foldl (promote_one now) (s, O) (due_jobs s now).

Definition promote_due_jobs (s : QueueState) (now : DateTime) : QueueState * Result nat :=
  let '(s, n) := promote_due_locked s now in (s, Ok n).

(** ** Claim *)
Definition claimed_job (j : Job) (worker_id token : string) (lease_for : Duration) (now : DateTime) : Job :=
  j <| job_state := Active |> <| job_attempts_made := sat_add U32_MAX (job_attempts_made j) 1 |>
    <| job_processed_at := Some now |> <| job_worker_id := Some worker_id |>
    <| job_lock_token := Some token |>
    <| job_lease_expires_at := Some (add_duration now lease_for) |>
    <| job_failed_reason := None |>.

Definition select_next (s : QueueState) : option Job :=
  min_by compare_claim_order
    (List.filter (λ j, state_eqb (job_state j) Waiting) (hash_values (jobs s))).

Definition claim_next (s : QueueState) (worker_id : string) (lease_for : Duration) (now : DateTime)
    (uuid : string) : QueueState * Result (option Job) :=
  if paused s then (s, Ok None)
  else
    let s := (promote_due_locked s now).1 in
    match select_next s with
    | None => (s, Ok None)
    | Some selected =>
        match jobs s !! job_id selected with
        | None => (s, Ok None)
        | Some job =>
            let claimed := claimed_job job worker_id uuid lease_for now in
            let s := put_job s (job_id selected) claimed in
            (emit_event_locked s "active" (Some claimed) (Some Waiting) now ∅, Ok (Some claimed))
        end
    end.

(** ** Completion *)
Definition completed_job (j : Job) (value : Value) (now : DateTime) : Job :=
  (clear_lease (j <| job_state := Completed |> <| job_finished_at := Some now |>))
    <| job_return_value := Some value |>.

(** What a finished job does to the state: dependency index of the parent,
    removal or retention. *)
Definition record_finished (s : QueueState) (finished : Job) : QueueState :=
  match job_parent_id finished with
  | Some parent_id => record_terminal_child_dependency_locked s parent_id finished
  | None => s
  end.

Definition retain_finished (s : QueueState) (id : string) (remove : bool)
    (retention : option JobRetention) (st : JobState) (now : DateTime) : QueueState :=
  if remove then (remove_job_record_locked s id).1
  else match retention with
       | Some r => apply_finished_retention_locked s st r now
       | None => s
       end.

(** Both candidates parked under the deduplication id of a finished owner:
    the flow is tried only when no job was enqueued. *)
Definition enqueue_parked (s : QueueState) (owner : Job) (now : DateTime) : QueueState * bool :=
  match enqueue_deduplicated_next_locked s owner now with
  | (s, Some _) => (s, true)
  | (s, None) =>
      match enqueue_deduplicated_next_flow_locked s owner now with
      | (s, Some _) => (s, true)
      | (s, None) => (s, false)
      end
  end.

Definition enqueue_next_repeat (s : QueueState) (completed : Job) (now : DateTime) (uuid : string)
    : QueueState * Result unit :=
  let! next := next_repeat_job completed now uuid or s in
  match next with
  | Some next_job => ((insert_new_job s next_job now).1, Ok tt)
  | None => (s, Ok tt)
  end.

Definition return_value_field (v : option Value) : gmap string Value :=
  match v with Some v => {[ "returnvalue" := v ]} | None => ∅ end.

Definition complete_job (s : QueueState) (id lock_token : string) (value : Value) (now : DateTime)
    (uuid : string) : QueueState * Result Job :=
  match jobs s !! id with
  | None => (s, job_not_found id)
  | Some job =>
      let! _ := require_active job "complete" or s in
      let! _ := require_lock_token job lock_token or s in
      let! _ := ensure_flow_dependencies_are_resolved job (jobs s) (flow_dependencies s !! id) "complete"
                or s in
      let completed := completed_job job value now in
      let s := put_job s id completed in
      let s := record_finished s completed in
      let s := retain_finished s id (removes_completed_immediately (job_options completed))
                 (completed_retention (job_options completed)) Completed now in
      let '(s, enqueued) := enqueue_parked s completed now in
      let '(s, r) := if enqueued then (s, Ok tt) else enqueue_next_repeat s completed now uuid in
      let! _ := r or s in
      let s := match job_parent_id completed with
               | Some parent_id => (release_parent_if_ready_locked s parent_id now).1
               | None => s
               end in
      let s := emit_event_locked s "completed" (Some completed) (Some Active) now
                 (return_value_field (job_return_value completed)) in
      (emit_drained_event_if_needed_locked s now, Ok completed)
  end.

(** ** Failure *)
Definition should_retry (j : Job) : bool :=
  let max := max_retries (opt_retry_policy (job_options j)) in
  (0 <? max) && (job_attempts_made j <=? max).

Definition retries_exhausted (j : Job) : bool :=
  state_eqb (job_state j) Failed
  && (max_retries (opt_retry_policy (job_options j)) <? job_attempts_made j).

(** The failed attempt: back to [Delayed] with the policy's delay, or [Failed]. *)
Definition failed_attempt (j : Job) (error : string) (now : DateTime) (allow_retry : bool) : Job :=
  let j := (clear_lease j) <| job_failed_reason := Some error |> in
  if allow_retry && should_retry j
  then let delay := delay_for_attempt (opt_retry_policy (job_options j)) (job_attempts_made j) in
       j <| job_state := Delayed |> <| job_scheduled_at := add_duration now delay |>
         <| job_finished_at := None |>
  else j <| job_state := Failed |> <| job_finished_at := Some now |>.

(** The four policies of a failed child towards its parent. *)
Definition propagate_child_failure (s : QueueState) (parent_id : string) (failed : Job) (now : DateTime)
    : QueueState :=
  if opt_fail_parent_on_failure (job_options failed)
  then (defer_parent_failure_after_child_failure_locked s parent_id (job_id failed) now).1
  else if opt_continue_parent_on_failure (job_options failed)
  then (continue_parent_after_child_failure_locked s parent_id now).1
  else if child_failure_releases_dependency failed
  then (release_parent_if_ready_locked s parent_id now).1
  else (fail_waiting_parent_locked s parent_id
          (child_failed_message (job_id failed) (job_failed_reason failed)) now).1.

Definition settle_failed (s : QueueState) (id : string) (failed : Job) (now : DateTime) : QueueState :=
  let s := record_finished s failed in
  let s := retain_finished s id (removes_failed_immediately (job_options failed))
             (failed_retention (job_options failed)) Failed now in
  let s := (enqueue_parked s failed now).1 in
  match job_parent_id failed with
  | Some parent_id => propagate_child_failure s parent_id failed now
  | None => s
  end.

Definition fail_active_job (s : QueueState) (id lock_token error : string) (now : DateTime)
    (allow_retry : bool) : QueueState * Result Job :=
  match jobs s !! id with
  | None => (s, job_not_found id)
  | Some job =>
      let! _ := require_active job "fail" or s in
      let! _ := require_lock_token job lock_token or s in
      let failed := failed_attempt job error now allow_retry in
      let s := put_job s id failed in
      let s := if state_eqb (job_state failed) Failed then settle_failed s id failed now else s in
      let s := emit_event_locked s (job_event_for_state (job_state failed)) (Some failed) (Some Active) now
                 (failed_reason_field (job_failed_reason failed)) in
      let s := if retries_exhausted failed then emit_retries_exhausted_event_locked s failed now else s in
      let s := if state_eqb (job_state failed) Failed
               then emit_drained_event_if_needed_locked s now else s in
      (s, Ok failed)
  end.

Definition fail_job (s : QueueState) (id lock_token error : string) (now : DateTime)
    : QueueState * Result Job :=
  fail_active_job s id lock_token error now true.

Definition fail_job_discarding_retry (s : QueueState) (id lock_token error : string) (now : DateTime)
    : QueueState * Result Job :=
  fail_active_job s id lock_token error now false.

(** ** Leases *)
Definition renew (s : QueueState) (id lock_token : string) (lease_for : Duration) (now : DateTime)
    : QueueState * Result Job :=
  match jobs s !! id with
  | None => (s, job_not_found id)
  | Some job =>
      let! _ := require_active job "renew lease" or s in
      let! _ := require_lock_token job lock_token or s in
      let job := job <| job_lease_expires_at := Some (add_duration now lease_for) |> in
      (put_job s id job, Ok job)
  end.

Definition delay_field (at_ : DateTime) : gmap string Value :=
  {[ "delay" := VNumber (timestamp_millis at_) ]}.

Definition delayed_active_job (j : Job) (delay : Duration) (now : DateTime) : Job :=
  (clear_lease (j <| job_state := Delayed |> <| job_options ::= λ o, o <| opt_delay := Some delay |> |>
                  <| job_scheduled_at := add_duration now delay |> <| job_processed_at := None |>))
    <| job_failed_reason := None |>.

Definition delay_active (s : QueueState) (id lock_token : string) (delay : Duration) (now : DateTime)
    : QueueState * Result Job :=
  match jobs s !! id with
  | None => (s, job_not_found id)
  | Some job =>
      let! _ := require_active job "delay active" or s in
      let! _ := require_lock_token job lock_token or s in
      let job := delayed_active_job job delay now in
      let s := put_job s id job in
      (emit_event_locked s "delayed" (Some job) (Some Active) now (delay_field (job_scheduled_at job)),
       Ok job)
  end.

Definition released_job (j : Job) (now : DateTime) : Job :=
  (clear_lease (j <| job_state := Waiting |> <| job_scheduled_at := now |> <| job_processed_at := None |>))
    <| job_failed_reason := None |> <| job_enqueued_seq := 0 |>.

Definition release_active (s : QueueState) (id lock_token : string) (now : DateTime)
    : QueueState * Result Job :=
  match jobs s !! id with
  | None => (s, job_not_found id)
  | Some job =>
      let! _ := require_active job "release active" or s in
      let! _ := require_lock_token job lock_token or s in
      let job := released_job job now in
      let s := put_job s id job in
      (emit_event_locked s "waiting" (Some job) (Some Active) now ∅, Ok job)
  end.

(** ** Manual moves *)
Definition state_conflict {A} (action : string) (j : Job) : Result A :=
  Err (JobStateConflict ("cannot " +:+ action +:+ " job " +:+ job_id j +:+ " from state "
                         +:+ debug_state (job_state j))).

Definition promote (s : QueueState) (id : string) (now : DateTime) : QueueState * Result Job :=
  match jobs s !! id with
  | None => (s, job_not_found id)
  | Some current =>
      if negb (state_eqb (job_state current) Delayed) then (s, state_conflict "promote" current)
      else
        let '(s, enqueued_seq) := next_waiting_sequence s in
        let job := current <| job_state := Waiting |> <| job_scheduled_at := now |>
                     <| job_enqueued_seq := enqueued_seq |> in
        let s := put_job s id job in
        (emit_event_locked s "waiting" (Some job) (Some Delayed) now ∅, Ok job)
  end.

Definition reschedule (s : QueueState) (id : string) (delay : Duration) (now : DateTime)
    : QueueState * Result Job :=
  if is_zero_duration delay then (s, Err (ConfigError "job delay must be greater than zero"))
  else match jobs s !! id with
       | None => (s, job_not_found id)
       | Some job =>
           if negb (state_eqb (job_state job) Delayed) then (s, state_conflict "reschedule" job)
           else
             let job := job <| job_options ::= λ o, o <| opt_delay := Some delay |> |>
                            <| job_scheduled_at := add_duration now delay |> in
             let s := put_job s id job in
             (emit_event_locked s "delayed" (Some job) None now (delay_field (job_scheduled_at job)),
              Ok job)
       end.

Definition retried_job (j : Job) (now : DateTime) (enqueued_seq : Z) : Job :=
  (clear_lease (j <| job_state := Waiting |> <| job_scheduled_at := now |>
                  <| job_deduplication_expires_at := deduplication_expiration (job_options j) now |>
                  <| job_processed_at := None |> <| job_finished_at := None |>))
    <| job_failed_reason := None |> <| job_return_value := None |> <| job_enqueued_seq := enqueued_seq |>.

(** The retry is refused while another job owns the deduplication id or the
    repeat key of the finished job. *)
Definition retry_conflict (s : QueueState) (id : string) (current : Job) (now : DateTime) : Result unit :=
  let? _ := match job_deduplication_id current with
            | Some d =>
                match find_active_deduplication_id_except (jobs s) (released_deduplication_owners s) d id now with
                | Some existing =>
                    Err (JobStateConflict ("cannot retry job " +:+ id +:+ "; deduplication id `" +:+ d
                           +:+ "` is active on job " +:+ job_id existing))
                | None => Ok tt
                end
            | None => Ok tt
            end in
  match job_repeat_key current with
  | Some key =>
      match find_active_repeat_key_except (jobs s) key id with
      | Some existing =>
          Err (JobStateConflict ("cannot retry job " +:+ id +:+ "; repeat key `" +:+ key
                 +:+ "` is active on job " +:+ job_id existing))
      | None => Ok tt
      end
  | None => Ok tt
  end.

Definition retry (s : QueueState) (id : string) (now : DateTime) : QueueState * Result Job :=
  match jobs s !! id with
  | None => (s, job_not_found id)
  | Some current =>
      if negb (is_terminal (job_state current)) then (s, state_conflict "retry" current)
      else
        let previous_state := job_state current in
        let! _ := retry_conflict s id current now or s in
        let s := match job_deduplication_id current with
                 | Some d => s <| released_deduplication_owners ::= λ r, r ∖ {[ (d, id) ]} |>
                 | None => s
                 end in
        let '(s, enqueued_seq) := next_waiting_sequence s in
        let job := retried_job current now enqueued_seq in
        let s := put_job s id job in
        let s := emit_event_locked s "waiting" (Some job) (Some previous_state) now ∅ in
        let s := match job_parent_id current with
                 | Some parent_id =>
                     (restore_parent_dependency_after_child_retry_locked s parent_id id now).1
                 | None => s
                 end in
        (s, Ok job)
  end.

Definition prioritised (j : Job) (priority : JobPriority) (lifo : option bool) (seq : option Z) : Job :=
  let j := j <| job_priority := priority |> <| job_options ::= λ o, o <| opt_priority := priority |> |> in
  let j := match seq with Some n => j <| job_enqueued_seq := n |> | None => j end in
  match lifo with
  | Some b => j <| job_options ::= λ o, o <| opt_lifo := b |> |>
  | None => j
  end.

Definition set_priority_order (s : QueueState) (id : string) (priority : JobPriority)
    (lifo : option bool) : QueueState * Result Job :=
  let! _ := validate_job_priority priority or s in
  match jobs s !! id with
  | None => (s, job_not_found id)
  | Some job =>
      let '(s, seq) := waiting_sequence_if s (job_state job) in
      let job := prioritised job priority lifo seq in
      (put_job s id job, Ok job)
  end.

Definition set_priority (s : QueueState) (id : string) (priority : JobPriority) :=
  set_priority_order s id priority None.
Definition set_priority_with_lifo (s : QueueState) (id : string) (priority : JobPriority) (lifo : bool) :=
  set_priority_order s id priority (Some lifo).

(** ** Stalled recovery *)
Record Recovery := mkRecovery {
  rc_recovered : nat;
  rc_remove_ids : list string;
  rc_deferred : list (string * string);
  rc_continuing : list string;
  rc_releasing : list string;
  rc_failed_children : list (string * string * option string);
  rc_terminal : list Job;
  rc_events : list Job;
}.
#[export] Instance eta_Recovery : Eta Recovery := λ r,
  mkRecovery (rc_recovered r) (rc_remove_ids r) (rc_deferred r) (rc_continuing r) (rc_releasing r)
    (rc_failed_children r) (rc_terminal r) (rc_events r).

Definition empty_recovery : Recovery := mkRecovery 0 [] [] [] [] [] [] [].

Definition stalled_reason : string := "job stalled after worker lease expired".

Definition is_stalled (now : DateTime) (j : Job) : bool :=
  state_eqb (job_state j) Active &&
  match job_lease_expires_at j with Some t => t <=? now | None => false end.

Definition stalled_jobs (s : QueueState) (now : DateTime) : list Job :=
  sort_by compare_stalled_order (List.filter (is_stalled now) (hash_values (jobs s))).

Definition stall (j : Job) : Job :=
  (clear_lease (j <| job_stalled_count := sat_add U32_MAX (job_stalled_count j) 1 |>))
    <| job_failed_reason := Some stalled_reason |>.

Definition stalls_out (j : Job) : bool :=
  (opt_max_stalled_count (job_options j) <? job_stalled_count j) && negb (is_repeat_scheduler_job j).

Definition stalled_out (j : Job) (now : DateTime) : Job :=
  j <| job_state := Failed |> <| job_finished_at := Some now |>.
Definition requeued (j : Job) : Job := j <| job_state := Waiting |> <| job_processed_at := None |>.
Definition sequenced (j : Job) (n : Z) : Job := j <| job_enqueued_seq := n |>.

(** The lists a job that stalled out is filed in. *)
Definition file_failed (r : Recovery) (failed : Job) : Recovery :=
  let r := match job_parent_id failed with
           | None => r
           | Some parent_id =>
               if opt_fail_parent_on_failure (job_options failed)
               then r <| rc_deferred ::= λ l, l ++ [(parent_id, job_id failed)] |>
               else if opt_continue_parent_on_failure (job_options failed)
               then r <| rc_continuing ::= λ l, l ++ [parent_id] |>
               else if child_failure_releases_dependency failed
               then r <| rc_releasing ::= λ l, l ++ [parent_id] |>
               else r <| rc_failed_children ::= λ l, l ++ [(parent_id, job_id failed, job_failed_reason failed)] |>
           end in
  let r := r <| rc_terminal ::= λ l, l ++ [failed] |> <| rc_events ::= λ l, l ++ [failed] |> in
  if removes_failed_immediately (job_options failed)
  then r <| rc_remove_ids ::= λ l, l ++ [job_id failed] |> else r.

Definition recover_one (now : DateTime) (acc : QueueState * Recovery) (stalled_job : Job)
    : QueueState * Recovery :=
  let '(s, r) := acc in
  let id := job_id stalled_job in
  let '(s, r) :=
    match jobs s !! id with
    | None => (s, r)
    | Some job =>
        let job := stall job in
        if stalls_out job
        then let failed := stalled_out job now in
             (put_job s id failed, file_failed r failed)
        else let job := requeued job in
             let '(s, n) := next_waiting_sequence (put_job s id job) in
             let job := sequenced job n in
             (put_job s id job, r <| rc_events ::= λ l, l ++ [job] |>)
    end in
  (s, r <| rc_recovered ::= S |>).

Definition settle_stalled (now : DateTime) (s : QueueState) (failed : Job) : QueueState :=
  let s := record_finished s failed in
  let s := (enqueue_parked s failed now).1 in
  match failed_retention (job_options failed) with
  | Some r => apply_finished_retention_locked s Failed r now
  | None => s
  end.

Definition emit_stalled_events (now : DateTime) (s : QueueState) (j : Job) : QueueState :=
  let fields := failed_reason_field (job_failed_reason j) in
  let s := emit_event_locked s "stalled" (Some j) (Some Active) now fields in
  emit_event_locked s (job_event_for_state (job_state j)) (Some j) (Some Active) now fields.

Definition recover_stalled_jobs (s : QueueState) (now : DateTime) : QueueState * Result nat :=
  let '(s, r) := foldl (recover_one now) (s, empty_recovery) (stalled_jobs s now) in
  let s := remove_job_records s (rc_remove_ids r) in
  let s := foldl (settle_stalled now) s (rc_terminal r) in
  let s := foldl (λ s '(p, c), (defer_parent_failure_after_child_failure_locked s p c now).1)
             s (rc_deferred r) in
  let s := foldl (λ s p, (continue_parent_after_child_failure_locked s p now).1) s (rc_continuing r) in
  let s := foldl (λ s p, (release_parent_if_ready_locked s p now).1) s (rc_releasing r) in
  let s := foldl (λ s '(p, c, reason),
                    (fail_waiting_parent_locked s p (child_failed_message c reason) now).1)
             s (rc_failed_children r) in
  let s := foldl (emit_stalled_events now) s (rc_events r) in
  (s, Ok (rc_recovered r)).

(** ** Pause *)
Definition pause (s : QueueState) (now : DateTime) : QueueState * Result unit :=
  (emit_event_locked (s <| paused := true |>) "paused" None None now ∅, Ok tt).
Definition resume (s : QueueState) (now : DateTime) : QueueState * Result unit :=
  (emit_event_locked (s <| paused := false |>) "resumed" None None now ∅, Ok tt).
Definition is_paused (s : QueueState) : bool := paused s.
End core.
