(* ===== verification/JobQueries.v ===== *)
(** * Read operations of the in-memory queue ([src/job/memory.rs])

    Listing with pagination, counts, log pages, finished results, repeat
    entries and the dependency buckets of a flow parent.  Nothing here changes
    the state. *)
From S2P Require Import Prelude Ordering Text External Retry JobTypes JobStore.
From S2P Require Import JobDedup JobFlows.
Local Open Scope Z_scope.

(** Iteration of a [BTreeMap]/[BTreeSet] with string keys: ascending keys. *)
Definition btree_iter {V} (m : gmap string V) : list (string * V) :=
  sort_by (cmp_on String.compare fst) (map_to_list m).
Definition btree_set_iter (s : gset string) : list string := sort_by String.compare (elements s).

(** [if !v.contains(&x) { v.push(x) }] over a list. *)
Definition unique {A} `{EqDecision A} (l : list A) : list A :=
  foldl (λ acc x, if bool_decide (x ∈ acc) then acc else acc ++ [x]) [] l.

(** A window [offset .. offset + limit] of a list. *)
Definition page_of {A} (offset limit : nat) (l : list A) : list A := take limit (drop offset l).

Section queries.
Context {X : Ext}.

(** ** Listing *)
Record JobListOptions := {
  lo_state : option JobState;
  lo_states : list JobState;
  lo_offset : nat;
  lo_limit : nat;
  lo_ascending : bool;
}.

Definition selected_states (o : JobListOptions) : list JobState :=
  match lo_states o with
  | [] => match lo_state o with Some st => [st] | None => JobState_ALL end
  | states => unique states
  end.

Record JobListPage := {
  lp_jobs : list Job;
  lp_total : nat;
  lp_offset : nat;
  lp_limit : nat;
}.

Definition listed (s : QueueState) (o : JobListOptions) : list Job :=
  let jobs := sort_by compare_list_order
                (List.filter (λ j, bool_decide (job_state j ∈ selected_states o)) (hash_values (jobs s))) in
  if lo_ascending o then jobs else reverse jobs.

Definition list_jobs (s : QueueState) (o : JobListOptions) : JobListPage :=
  let jobs := listed s o in
  let total := length jobs in
  let start := Nat.min (lo_offset o) total in
  let end_ := Nat.min (start + lo_limit o) total in
  {| lp_jobs := match lo_limit o with O => [] | _ => take (end_ - start) (drop start jobs) end;
     lp_total := total; lp_offset := lo_offset o; lp_limit := lo_limit o |}.

(** ** Counts *)
Definition count_jobs (p : Job → bool) (s : QueueState) : nat :=
  length (List.filter p (hash_values (jobs s))).

Definition unique_states (states : list JobState) : list JobState :=
  unique match states with [] => JobState_ALL | _ => states end.

Definition counts_by_state (s : QueueState) (states : list JobState) : list (JobState * nat) :=
  (λ st, (st, count_jobs (λ j, state_eqb (job_state j) st) s)) <$> unique_states states.

Definition unique_priorities (priorities : list JobPriority) : list JobPriority := unique priorities.

Definition counts_per_priority (s : QueueState) (priorities : list JobPriority) : list (JobPriority * nat) :=
  (λ p, (p, count_jobs (λ j, state_eqb (job_state j) Waiting && (job_priority j =? p)) s))
    <$> unique_priorities priorities.

Record JobQueueStats := mkStats {
  st_total : nat; st_waiting : nat; st_delayed : nat; st_active : nat;
  st_waiting_children : nat; st_completed : nat; st_failed : nat; st_paused : bool;
}.
#[export] Instance eta_stats : Eta JobQueueStats := λ t,
  mkStats (st_total t) (st_waiting t) (st_delayed t) (st_active t) (st_waiting_children t)
    (st_completed t) (st_failed t) (st_paused t).

Definition count_in_stats (t : JobQueueStats) (j : Job) : JobQueueStats :=
  match job_state j with
  | Waiting => t <| st_waiting ::= S |>
  | Delayed => t <| st_delayed ::= S |>
  | Active => t <| st_active ::= S |>
  | WaitingChildren => t <| st_waiting_children ::= S |>
  | Completed => t <| st_completed ::= S |>
  | Failed => t <| st_failed ::= S |>
  end.

Definition stats (s : QueueState) : JobQueueStats :=
  foldl count_in_stats (mkStats (size (jobs s)) 0 0 0 0 0 0 (paused s)) (hash_values (jobs s)).

(** ** Single jobs *)
Definition get_job (s : QueueState) (id : string) : option Job := jobs s !! id.
Definition get_state (s : QueueState) (id : string) : option JobState := job_state <$> jobs s !! id.

Inductive JobFinishedResult :=
| NotFinished
| FinishedCompleted (return_value : option Value)
| FinishedFailed (failed_reason : option string).

Definition job_finished_result (j : Job) : JobFinishedResult :=
  match job_state j with
  | Completed => FinishedCompleted (job_return_value j)
  | Failed => FinishedFailed (job_failed_reason j)
  | _ => NotFinished
  end.

Definition get_finished_result (s : QueueState) (id : string) : option JobFinishedResult :=
  job_finished_result <$> jobs s !! id.

(** ** Logs *)
Definition ISIZE_MAX : Z := I64_MAX.
Definition isize_sat (x : Z) : Z := Z.max I64_MIN (Z.min I64_MAX x).

Definition normalize_redis_index (index : Z) (len : nat) : nat :=
  if 0 <=? index then Z.to_nat index
  else let normalized := Z.of_nat len + index in
       if normalized <? 0 then O else Z.to_nat normalized.

Definition redis_range {A} (items : list A) (start end_ : Z) : list A :=
  let len := length items in
  match len with
  | O => []
  | _ =>
      let start := normalize_redis_index start len in
      let end_ := normalize_redis_index end_ len in
      if (end_ <? start)%nat || (len <=? start)%nat then []
      else let end_ := Nat.min end_ (len - 1) in
           take (end_ + 1 - start) (drop start items)
  end.

Definition log_page (logs : list JobLogEntry) (start end_ : Z) (ascending : bool) : list JobLogEntry * nat :=
  let count := length logs in
  let selected :=
    if ascending then redis_range logs start end_
    else let reverse_start := isize_sat (- isize_sat (end_ + 1)) in
         let reverse_end := isize_sat (- isize_sat (start + 1)) in
         reverse (redis_range logs reverse_start reverse_end) in
  (selected, count).

Definition get_logs (s : QueueState) (id : string) (start end_ : Z) (ascending : bool)
    : list JobLogEntry * nat :=
  match jobs s !! id with
  | Some job => log_page (job_logs job) start end_ ascending
  | None => ([], O)
  end.

(** ** Deduplication and repeat owners *)
Definition get_deduplication_job_id (s : QueueState) (d : string) (now : DateTime) : option string :=
  if String.eqb d EmptyString then None
  else job_id <$> find_active_deduplication_id (jobs s) (released_deduplication_owners s) d now.

Record JobRepeatEntry := {
  re_key : string; re_job_id : string; re_name : string; re_state : JobState;
  re_scheduled_at : DateTime; re_repeat_count : Z; re_options : RepeatOptions;
}.

Definition repeat_entry (j : Job) : option JobRepeatEntry :=
  match active_repeat_key j with
  | None => None
  | Some key =>
      match opt_repeat (job_options j) with
      | None => None
      | Some options =>
          Some {| re_key := key; re_job_id := job_id j; re_name := job_name j;
                  re_state := job_state j; re_scheduled_at := job_scheduled_at j;
                  re_repeat_count := job_repeat_count j; re_options := options |}
      end
  end.

Definition compare_repeat_key : JobRepeatEntry → JobRepeatEntry → comparison :=
  cmp_then (cmp_on String.compare re_key) (cmp_on String.compare re_job_id).

Definition list_repeats (s : QueueState) : list JobRepeatEntry :=
  sort_by compare_repeat_key (omap repeat_entry (hash_values (jobs s))).

Definition get_repeat (s : QueueState) (key : string) : option JobRepeatEntry :=
  List.find (λ e, String.eqb (re_key e) key) (list_repeats s).

Definition count_repeats (s : QueueState) : nat := length (list_repeats s).

Definition compare_repeat_schedule : JobRepeatEntry → JobRepeatEntry → comparison :=
  cmp_then (cmp_on Z.compare re_scheduled_at) compare_repeat_key.

(** Entries of the page with the total, offset and limit of the request. *)
Definition page_repeat_entries (repeats : list JobRepeatEntry) (offset limit : nat) (ascending : bool)
    : list JobRepeatEntry * nat * nat * nat :=
  let repeats := sort_by (if ascending then compare_repeat_schedule
                          else cmp_reverse compare_repeat_schedule) repeats in
  (take limit (drop offset repeats), length repeats, offset, limit).

Definition list_repeats_page (s : QueueState) (offset limit : nat) (ascending : bool) :=
  page_repeat_entries (list_repeats s) offset limit ascending.

(** ** Flow dependencies of a parent *)
Record JobFlowDependencies := mkDependencies {
  fd_parent : Job;
  fd_children : list Job;
  fd_pending : list string;
  fd_missing : list string;
}.
#[export] Instance eta_dependencies : Eta JobFlowDependencies := λ d,
  mkDependencies (fd_parent d) (fd_children d) (fd_pending d) (fd_missing d).

Definition add_dependency (m : gmap string Job) (d : JobFlowDependencies) (child_id : string)
    : JobFlowDependencies :=
  match m !! child_id with
  | Some child =>
      (if is_terminal (job_state child) then d else d <| fd_pending ::= λ l, l ++ [job_id child] |>)
        <| fd_children ::= λ l, l ++ [child] |>
  | None => d <| fd_missing ::= λ l, l ++ [child_id] |>
  end.

Definition get_flow_dependencies (s : QueueState) (parent_id : string) : option JobFlowDependencies :=
  match jobs s !! parent_id with
  | None => None
  | Some parent =>
      Some (foldl (add_dependency (jobs s)) (mkDependencies parent [] [] []) (job_child_ids parent))
  end.

Definition get_flow_dependency_counts (s : QueueState) (parent_id : string) : option JobFlowDependencyCounts :=
  match jobs s !! parent_id with
  | None => None
  | Some parent => Some (flow_dependency_counts parent (jobs s) (flow_dependencies s !! parent_id))
  end.

Inductive JobFlowDependencyKind := KProcessed | KUnprocessed | KIgnored | KFailed.

(** [JobFlowDependencyCountOptions::selected] on the four flags. *)
Definition selected_kinds (processed unprocessed ignored failed : bool) : list JobFlowDependencyKind :=
  let kinds := (if processed then [KProcessed] else []) ++ (if unprocessed then [KUnprocessed] else [])
               ++ (if ignored then [KIgnored] else []) ++ (if failed then [KFailed] else []) in
  match kinds with [] => [KProcessed; KUnprocessed; KIgnored; KFailed] | _ => kinds end.

Definition dependency_count (c : JobFlowDependencyCounts) (k : JobFlowDependencyKind) : nat :=
  match k with
  | KProcessed => dc_processed c
  | KUnprocessed => dc_unprocessed c
  | KIgnored => dc_ignored c
  | KFailed => dc_failed c
  end.

Definition flow_dependency_selected_counts (parent : Job) (m : gmap string Job)
    (index : option FlowIndex) (kinds : list JobFlowDependencyKind) : list (JobFlowDependencyKind * nat) :=
  let counts := flow_dependency_counts parent m index in
  (λ k, (k, dependency_count counts k)) <$> kinds.

(** *** Dependency buckets *)
Record JobFlowDependencyValues := mkValues {
  dv_processed : gmap string Value;
  dv_unprocessed : list string;
  dv_failed : list string;
  dv_ignored : gmap string string;
}.
#[export] Instance eta_values : Eta JobFlowDependencyValues := λ v,
  mkValues (dv_processed v) (dv_unprocessed v) (dv_failed v) (dv_ignored v).

(** The value a child contributes while it is retained but not indexed. *)
Definition add_retained_value (m : gmap string Job) (v : JobFlowDependencyValues) (child_id : string)
    : JobFlowDependencyValues :=
  match m !! child_id with
  | None => v
  | Some child =>
      if state_eqb (job_state child) Completed
      then match job_return_value child with
           | Some value => v <| dv_processed ::= <[ job_id child := value ]> |>
           | None => v
           end
      else if negb (is_terminal (job_state child))
      then v <| dv_unprocessed ::= λ l, l ++ [job_id child] |>
      else if child_failure_ignored child
      then v <| dv_ignored ::= <[ job_id child := unwrap_or (job_failed_reason child) EmptyString ]> |>
      else if opt_remove_dependency_on_failure (job_options child) then v
      else v <| dv_failed ::= λ l, l ++ [job_id child] |>
  end.

Definition add_value (m : gmap string Job) (index : FlowIndex)
    (acc : JobFlowDependencyValues * gset string) (child_id : string)
    : JobFlowDependencyValues * gset string :=
  let '(v, seen) := acc in
  match fi_processed index !! child_id with
  | Some value => (v <| dv_processed ::= <[ child_id := value ]> |>, seen ∪ {[ child_id ]})
  | None =>
      match fi_ignored index !! child_id with
      | Some reason => (v <| dv_ignored ::= <[ child_id := reason ]> |>, seen ∪ {[ child_id ]})
      | None =>
          if bool_decide (child_id ∈ fi_failed index)
          then (v <| dv_failed ::= λ l, l ++ [child_id] |>, seen ∪ {[ child_id ]})
          else (add_retained_value m v child_id, seen)
      end
  end.

(** Index entries of children the parent no longer lists. *)
Definition unseen {A} (key : A → string) (seen : gset string) (l : list A) : list A * gset string :=
  foldl (λ '(acc, seen) a, if bool_decide (key a ∈ seen) then (acc, seen)
                           else (acc ++ [a], seen ∪ {[ key a ]})) ([], seen) l.

Definition flow_dependency_values (parent : Job) (m : gmap string Job) (index : option FlowIndex)
    : JobFlowDependencyValues :=
  let i := unwrap_or index empty_index in
  let '(v, seen) := foldl (add_value m i) (mkValues ∅ [] [] ∅, ∅) (job_child_ids parent) in
  let '(processed, seen) := unseen fst seen (btree_iter (fi_processed i)) in
  let '(ignored, seen) := unseen fst seen (btree_iter (fi_ignored i)) in
  let '(failed, seen) := unseen id seen (btree_set_iter (fi_failed i)) in
  let v := v <| dv_processed ::= λ p, foldl (λ p e, <[ e.1 := e.2 ]> p) p processed |> in
  let v := v <| dv_ignored ::= λ p, foldl (λ p e, <[ e.1 := e.2 ]> p) p ignored |> in
  v <| dv_failed ::= λ l, l ++ failed |>.

Definition get_flow_dependency_values (s : QueueState) (parent_id : string) : option JobFlowDependencyValues :=
  match jobs s !! parent_id with
  | None => None
  | Some parent => Some (flow_dependency_values parent (jobs s) (flow_dependencies s !! parent_id))
  end.

Definition flow_children_values (parent : Job) (m : gmap string Job) (index : option FlowIndex)
    : gmap string Value :=
  foldl (λ values child_id,
           if flow_dependency_index_contains index child_id then values
           else match m !! child_id with
                | None => values
                | Some child =>
                    if state_eqb (job_state child) Completed
                    then match job_return_value child with
                         | Some value => <[ job_id child := value ]> values
                         | None => values
                         end
                    else values
                end)
    match index with Some i => fi_processed i | None => ∅ end (job_child_ids parent).

Definition flow_ignored_children_failures (parent : Job) (m : gmap string Job) (index : option FlowIndex)
    : gmap string string :=
  foldl (λ failures child_id,
           if flow_dependency_index_contains index child_id then failures
           else match m !! child_id with
                | None => failures
                | Some child =>
                    if state_eqb (job_state child) Failed && child_failure_ignored child
                    then <[ job_id child := unwrap_or (job_failed_reason child) EmptyString ]> failures
                    else failures
                end)
    match index with Some i => fi_ignored i | None => ∅ end (job_child_ids parent).

(** *** Cursor pages *)
Inductive JobFlowDependencyPageItem :=
| ItemProcessed (child_id : string) (value : Value)
| ItemUnprocessed (child_id : string)
| ItemIgnored (child_id failed_reason : string)
| ItemFailed (child_id : string).

Definition indexed_flow_dependency_page_item (index : option FlowIndex) (child_id : string)
    (kind : JobFlowDependencyKind) : option JobFlowDependencyPageItem :=
  match index with
  | None => None
  | Some i =>
      match kind with
      | KProcessed => ItemProcessed child_id <$> fi_processed i !! child_id
      | KIgnored => ItemIgnored child_id <$> fi_ignored i !! child_id
      | KFailed => if bool_decide (child_id ∈ fi_failed i) then Some (ItemFailed child_id) else None
      | KUnprocessed => None
      end
  end.

Definition retained_flow_dependency_page_item (child : Job) (kind : JobFlowDependencyKind)
    : option JobFlowDependencyPageItem :=
  match kind with
  | KProcessed => if state_eqb (job_state child) Completed
                  then ItemProcessed (job_id child) <$> job_return_value child else None
  | KUnprocessed => if is_terminal (job_state child) then None else Some (ItemUnprocessed (job_id child))
  | KIgnored => if state_eqb (job_state child) Failed && child_failure_ignored child
                then Some (ItemIgnored (job_id child) (unwrap_or (job_failed_reason child) EmptyString))
                else None
  | KFailed => if state_eqb (job_state child) Failed && negb (child_failure_ignored child)
                  && negb (opt_remove_dependency_on_failure (job_options child))
               then Some (ItemFailed (job_id child)) else None
  end.

Definition listed_page_items (parent : Job) (m : gmap string Job) (index : option FlowIndex)
    (kind : JobFlowDependencyKind) : list JobFlowDependencyPageItem * gset string :=
  foldl (λ '(bucket, seen) child_id,
           match indexed_flow_dependency_page_item index child_id kind with
           | Some item => (bucket ++ [item], seen ∪ {[ child_id ]})
           | None =>
               if flow_dependency_index_contains index child_id then (bucket, seen)
               else match m !! child_id with
                    | None => (bucket, seen)
                    | Some child =>
                        match retained_flow_dependency_page_item child kind with
                        | Some item => (bucket ++ [item], seen)
                        | None => (bucket, seen)
                        end
                    end
           end)
    ([], ∅) (job_child_ids parent).

Definition flow_dependency_page_items (parent : Job) (m : gmap string Job) (index : option FlowIndex)
    (kind : JobFlowDependencyKind) : list JobFlowDependencyPageItem :=
  let '(bucket, seen) := listed_page_items parent m index kind in
  let i := unwrap_or index empty_index in
  bucket ++
  match kind with
  | KProcessed => (λ e, ItemProcessed e.1 e.2) <$> (unseen fst seen (btree_iter (fi_processed i))).1
  | KIgnored => (λ e, ItemIgnored e.1 e.2) <$> (unseen fst seen (btree_iter (fi_ignored i))).1
  | KFailed => ItemFailed <$> (unseen id seen (btree_set_iter (fi_failed i))).1
  | KUnprocessed => []
  end.

Record JobFlowDependencyPage := {
  pg_kind : JobFlowDependencyKind;
  pg_items : list JobFlowDependencyPageItem;
  pg_next_cursor : nat;
  pg_count : nat;
}.

(** A page of [bucket] from [cursor]: the items, and the next cursor with [0]
    for the end of the scan. *)
Definition cursor_page {A} (bucket : list A) (cursor count : nat) : list A * nat :=
  let count := Nat.max count 1 in
  let start := Nat.min cursor (length bucket) in
  let end_ := Nat.min (start + count) (length bucket) in
  (take (end_ - start) (drop start bucket), if (end_ <? length bucket)%nat then end_ else O).

Definition flow_dependency_page (parent : Job) (m : gmap string Job) (index : option FlowIndex)
    (kind : JobFlowDependencyKind) (cursor count : nat) : JobFlowDependencyPage :=
  let '(items, next) := cursor_page (flow_dependency_page_items parent m index kind) cursor count in
  {| pg_kind := kind; pg_items := items; pg_next_cursor := next; pg_count := Nat.max count 1 |}.

Definition get_flow_dependency_page (s : QueueState) (parent_id : string) (kind : JobFlowDependencyKind)
    (cursor count : nat) : option JobFlowDependencyPage :=
  match jobs s !! parent_id with
  | None => None
  | Some parent =>
      Some (flow_dependency_page parent (jobs s) (flow_dependencies s !! parent_id) kind cursor count)
  end.

(** [JobFlowDependencyPagesOptions::selected] on the four optional cursors. *)
Definition selected_pages (processed unprocessed ignored failed : option (nat * nat))
    : list (JobFlowDependencyKind * (nat * nat)) :=
  omap (λ '(kind, c), match c with Some c => Some (kind, c) | None => None end)
    [(KProcessed, processed); (KUnprocessed, unprocessed); (KIgnored, ignored); (KFailed, failed)].

Definition flow_dependency_pages (parent : Job) (m : gmap string Job) (index : option FlowIndex)
    (pages : list (JobFlowDependencyKind * (nat * nat))) : list JobFlowDependencyPage :=
  (λ '(kind, (cursor, count)), flow_dependency_page parent m index kind cursor count) <$> pages.
End queries.
