(* ===== verification/JobAdmin.v ===== *)
(** * Administrative operations of the in-memory queue ([src/job/memory.rs])

    Removal of jobs (one, a state, the whole queue, the unprocessed children of
    a parent), repeat series and deduplication keys, and the updates of a job's
    payload, progress, diagnostics and logs. *)
From S2P Require Import Prelude Ordering Text External Retry JobTypes JobStore.
From S2P Require Import JobDedup JobFlows JobQueries.
Local Open Scope Z_scope.

Section admin.
Context {X : Ext}.

(** ** Removal *)
Definition release_parent_of (s : QueueState) (j : Job) (now : DateTime) : QueueState :=
  match job_parent_id j with
  | Some parent_id => (release_parent_if_ready_locked s parent_id now).1
  | None => s
  end.

Definition remove (s : QueueState) (id : string) (now : DateTime) : QueueState * Result (option Job) :=
  let! _ := match jobs s !! id with Some job => require_removable job | None => Ok tt end or s in
  match remove_job_record_locked s id with
  | (s, Some removed) =>
      (emit_removed_event_locked (release_parent_of s removed now) removed now, Ok (Some removed))
  | (s, None) => (s, Ok None)
  end.

Definition remove_repeat (s : QueueState) (repeat_key : string) (now : DateTime)
    : QueueState * Result (option Job) :=
  match find_active_repeat_key (jobs s) repeat_key with
  | None => (s, Ok None)
  | Some owner =>
      let id := job_id owner in
      let! _ := match jobs s !! id with Some job => require_removable job | None => Ok tt end or s in
      match remove_job_record_locked s id with
      | (s, Some removed) =>
          (emit_removed_event_locked (release_parent_of s removed now) removed now, Ok (Some removed))
      | (s, None) => (s, Ok None)
      end
  end.

Definition remove_deduplication_key (s : QueueState) (d : string) (now : DateTime)
    : QueueState * Result bool :=
  if String.eqb d EmptyString then (s, Ok false)
  else match find_active_deduplication_id (jobs s) (released_deduplication_owners s) d now with
       | None => (s, Ok false)
       | Some owner =>
           (s <| released_deduplication_owners ::= λ r, r ∪ {[ (d, job_id owner) ]} |>
              <| deduplication_next ::= delete d |> <| deduplication_next_flows ::= delete d |>, Ok true)
       end.

(** Parents are released one after the other, in the order of the jobs;
    [clock i] is the clock reading for the [i]-th of them. *)
Definition release_parents_of (s : QueueState) (l : list Job) (clock : nat → DateTime) : QueueState :=
  foldl (λ s '(now, parent_id), (release_parent_if_ready_locked s parent_id now).1) s
    (imap (λ i parent_id, (clock i, parent_id)) (omap job_parent_id l)).

Definition cleanable (st : JobState) (cutoff : DateTime) (j : Job) : bool :=
  state_eqb (job_state j) st && (job_reference_time j <=? cutoff)
  && (negb (state_eqb st Active) || is_none (job_lock_token j)).

Definition clean_selection (s : QueueState) (st : JobState) (cutoff : DateTime) (limit : nat) : list Job :=
  take limit (sort_by compare_clean_order (List.filter (cleanable st cutoff) (hash_values (jobs s)))).

Definition clean (s : QueueState) (st : JobState) (grace : Duration) (limit : nat) (now : DateTime)
    : QueueState * Result (list Job) :=
  match limit with
  | O => (s, Ok [])
  | _ =>
      let selection := clean_selection s st (subtract_duration now grace) limit in
      let s := remove_job_records s (job_id <$> selection) in
      let s := release_parents_of s selection (λ _, now) in
      (emit_cleaned_event_locked s (length selection) now, Ok selection)
  end.

Definition drainable (m : gmap string Job) (include_delayed : bool) (j : Job) : bool :=
  state_eqb (job_state j) Waiting
  || (include_delayed && state_eqb (job_state j) Delayed && negb (is_delayed_repeat_owner m j)).

Definition drain (s : QueueState) (include_delayed : bool) (clock : nat → DateTime)
    : QueueState * Result (list Job) :=
  let selection := sort_by compare_list_order
                     (List.filter (drainable (jobs s) include_delayed) (hash_values (jobs s))) in
  let s := remove_job_records s (job_id <$> selection) in
  (release_parents_of s selection clock, Ok selection).

Definition obliterate (s : QueueState) (force : bool) : QueueState * Result nat :=
  let s := s <| paused := true |> in
  if existsb (λ j, state_eqb (job_state j) Active) (hash_values (jobs s)) && negb force
  then (s, Err (JobStateConflict "cannot obliterate queue with active jobs"))
  else
    let removed := size (jobs s) in
    (s <| jobs := ∅ |> <| flow_dependencies := ∅ |> <| deduplication_next := ∅ |>
       <| deduplication_next_flows := ∅ |> <| released_deduplication_owners := ∅ |>
       <| paused := false |>, Ok removed).

(** ** Children of a flow parent *)

(** The walk over the descendants that have not been processed; [fuel] bounds
    its depth, and every level marks one more id as seen. *)
Fixpoint collect_removable_unprocessed_children (fuel : nat) (m : gmap string Job)
    (child_ids : list string) (out : list string) (seen : gset string) : list string * gset string :=
  match fuel with
  | O => (out, seen)
  | S fuel =>
      foldl (λ '(out, seen) child_id,
               if bool_decide (child_id ∈ seen) then (out, seen)
               else
                 let seen := seen ∪ {[ child_id ]} in
                 match m !! child_id with
                 | None => (out, seen)
                 | Some child =>
                     if state_eqb (job_state child) Active || is_terminal (job_state child) then (out, seen)
                     else
                       let '(out, seen) := collect_removable_unprocessed_children fuel m
                                             (job_child_ids child) out seen in
                       (out ++ [job_id child], seen)
                 end)
        (out, seen) child_ids
  end.

Definition removable_children (m : gmap string Job) (child_ids : list string) : list string :=
  (collect_removable_unprocessed_children (S (size m)) m child_ids [] ∅).1.

Definition remove_with_event (now : DateTime) (acc : QueueState * list Job) (id : string)
    : QueueState * list Job :=
  let '(s, removed) := acc in
  match remove_job_record_locked s id with
  | (s, Some job) => (emit_removed_event_locked s job now, removed ++ [job])
  | (s, None) => (s, removed)
  end.

Definition remove_unprocessed_children (s : QueueState) (parent_id : string) (now : DateTime)
    : QueueState * Result (option (list Job)) :=
  match jobs s !! parent_id with
  | None => (s, Ok None)
  | Some parent =>
      let ids := removable_children (jobs s) (job_child_ids parent) in
      let '(s, removed) := foldl (remove_with_event now) (s, []) ids in
      ((release_parent_if_ready_locked s parent_id now).1, Ok (Some removed))
  end.

Definition remove_child_dependency (s : QueueState) (child_id : string) (now : DateTime)
    : QueueState * Result bool :=
  match jobs s !! child_id with
  | None => (s, job_not_found child_id)
  | Some child =>
      match job_parent_id child with
      | None => (s, Ok false)
      | Some parent_id =>
          match jobs s !! parent_id with
          | None => (s, job_not_found parent_id)
          | Some parent =>
              let lists := existsb (λ id, String.eqb id child_id) (job_child_ids parent) in
              let indexes := has_child_dependency_side_index_locked s parent_id child_id in
              if negb lists && negb indexes then (s, Ok false)
              else
                let s := put_job s parent_id
                           (parent <| job_child_ids ::= List.filter (λ id, negb (String.eqb id child_id)) |>) in
                let s := (clear_child_dependency_side_index_locked s parent_id child_id).1 in
                let s := match jobs s !! child_id with
                         | Some child => put_job s child_id (child <| job_parent_id := None |>)
                         | None => s
                         end in
                ((release_parent_if_ready_locked s parent_id now).1, Ok true)
          end
      end
  end.

(** ** Updates of one job *)
Definition update_job (s : QueueState) (id : string) (f : Job → Job) : QueueState * Result Job :=
  match jobs s !! id with
  | None => (s, job_not_found id)
  | Some job => (put_job s id (f job), Ok (f job))
  end.

Definition set_data (s : QueueState) (id : string) (payload : Value) : QueueState * Result Job :=
  update_job s id (λ j, j <| job_payload := payload |>).

Definition set_progress (s : QueueState) (id : string) (progress : Value) (now : DateTime)
    : QueueState * Result Job :=
  let '(s, r) := update_job s id (λ j, j <| job_progress := Some progress |>) in
  let! job := r or s in
  (emit_event_locked s "progress" (Some job) None now {[ "data" := progress ]}, Ok job).

Definition save_stacktrace (s : QueueState) (id : string) (stacktrace : list string)
    (failed_reason : string) : QueueState * Result Job :=
  update_job s id (λ j, j <| job_stacktrace := stacktrace |> <| job_failed_reason := Some failed_reason |>).

(** [drain(0..len - keep)] when the log is longer than [keep]. *)
Definition keep_last {A} (keep : nat) (l : list A) : list A :=
  if (keep <? length l)%nat then drop (length l - keep) l else l.

Definition append_log (keep : nat) (e : JobLogEntry) (l : list JobLogEntry) : list JobLogEntry :=
  let l := l ++ [e] in if (0 <? keep)%nat then keep_last keep l else l.

Definition log (s : QueueState) (id line : string) (keep : nat) (now : DateTime)
    : QueueState * Result Job :=
  update_job s id (λ j, j <| job_logs ::= append_log keep {| log_timestamp := now; log_line := line |} |>).

Definition clear_logs (s : QueueState) (id : string) (keep : nat)
    : QueueState * Result (list JobLogEntry * nat) :=
  match jobs s !! id with
  | None => (s, Ok ([], O))
  | Some job =>
      let job := job <| job_logs ::= match keep with O => λ _, [] | _ => keep_last keep end |> in
      (put_job s id job, Ok (log_page (job_logs job) 0 (-1) true))
  end.
End admin.
