(* ===== verification/JobAdd.v ===== *)
(** * Adding jobs, flows and repeat series ([src/job/memory.rs])

    The submission handlers.  Every job they create is [Job::new] of a
    specification; the uuid a specification would draw travels with it. *)
From S2P Require Import Prelude Ordering Text External Retry JobTypes JobStore.
From S2P Require Import JobDedup JobFlows.
Local Open Scope Z_scope.

(** A specification with the uuid [Job::new] draws for it. *)
Section add.
Context {X : Ext}.

Definition NewSpec : Type := JobSpec * string.

Definition job_of_spec (queue : string) (now : DateTime) (spec : NewSpec) : Job :=
  Job_new queue (spec_name spec.1) (spec_payload spec.1) (spec_options spec.1) now spec.2.

(** ** Validation *)
Definition validate_job_options_at (o : JobOptions) (now : DateTime) : Result unit :=
  let? _ := validate_options o in
  if match opt_repeat o with
     | Some r => match rep_end_at r with Some end_at => end_at <? now | None => false end
     | None => false
     end
  then Err (ConfigError "repeat end_at must not be earlier than the add timestamp")
  else Ok tt.

(** A loop that only validates: the first error is returned. *)
Fixpoint for_all_ok {A} (check : A → Result unit) (l : list A) : Result unit :=
  match l with
  | [] => Ok tt
  | a :: l => let? _ := check a in for_all_ok check l
  end.

Definition validate_specs (specs : list NewSpec) (now : DateTime) : Result unit :=
  for_all_ok (λ spec : NewSpec, validate_job_options_at (spec_options spec.1) now) specs.

Fixpoint unique_ids (seen : gset string) (ids : list string) : Result unit :=
  match ids with
  | [] => Ok tt
  | id :: ids =>
      if bool_decide (id ∈ seen)
      then Err (ConfigError ("flow contains duplicate job id `" +:+ id +:+ "`"))
      else unique_ids (seen ∪ {[ id ]}) ids
  end.

Definition validate_flow_job_ids (parent : Job) (children : list Job) : Result unit :=
  unique_ids ∅ (job_id parent :: (job_id <$> children)).

Definition validate_flow_child_jobs (parent_id : string) (children : list Job) : Result unit :=
  unique_ids {[ parent_id ]} (job_id <$> children).

(** ** One job *)

(** A job whose deduplication id is free: the owner of its repeat key stays. *)
Definition add_unowned (s : QueueState) (j : Job) (now : DateTime) : QueueState * Job :=
  match find_active_repeat_job (jobs s) j with
  | Some existing => (s, existing)
  | None => insert_new_job s j now
  end.

(** The body [add_at] and [add_many_at] share for one constructed job. *)
Definition add_one (s : QueueState) (j : Job) (now : DateTime) : QueueState * Job :=
  match jobs s !! job_id j with
  | Some existing => (s, existing)
  | None =>
      match find_active_deduplicated_job (jobs s) (released_deduplication_owners s) j now with
      | None => add_unowned s j now
      | Some existing =>
          if deduplication_replaces_delayed_owner j existing
          then
            let j := preserve_replacement_deduplication_expiration j existing in
            match remove_job_record_locked s (job_id existing) with
            | (s, Some removed) =>
                let s := emit_removed_event_locked s removed now in
                add_unowned (emit_replaced_deduplicated_owner_events_locked s j removed now) j now
            | (s, None) => add_unowned s j now
            end
          else
            let s := (store_deduplicated_next_locked s j existing).1 in
            let s := (extend_deduplication_expiration_locked s j (job_id existing) now).1 in
            let s := if deduplication_duplicate_emits_events j existing
                     then emit_deduplicated_events_locked s existing j now else s in
            (s, unwrap_or (jobs s !! job_id existing) existing)
      end
  end.

Definition add_at (queue : string) (s : QueueState) (spec : NewSpec) (now : DateTime)
    : QueueState * Result Job :=
  let! _ := validate_job_options_at (spec_options spec.1) now or s in
  let '(s, j) := add_one s (job_of_spec queue now spec) now in
  (s, Ok j).

Definition add_many_at (queue : string) (s : QueueState) (specs : list NewSpec) (now : DateTime)
    : QueueState * Result (list Job) :=
  let! _ := validate_specs specs now or s in
  let '(s, added) :=
    foldl (λ '(s, acc) j, let '(s, j) := add_one s j now in (s, acc ++ [j]))
      (s, []) (job_of_spec queue now <$> specs) in
  (s, Ok added).

(** ** Children of a flow *)

(** What the handlers learn about the children before they store anything:
    children that exist already, children whose deduplication id is owned by
    a job, candidates parked until an active owner finishes. *)
Record ChildScan := mkChildScan {
  cs_parent : Job;
  cs_deduplicated : gmap string Job;
  cs_next : gmap string Job;
  cs_next_by_id : gmap string string;
  cs_ids : gset string;
}.
#[export] Instance eta_ChildScan : Eta ChildScan := λ c,
  mkChildScan (cs_parent c) (cs_deduplicated c) (cs_next c) (cs_next_by_id c) (cs_ids c).

Definition initial_scan (parent : Job) (ids : gset string) : ChildScan := mkChildScan parent ∅ ∅ ∅ ids.

Definition without_child (parent : Job) (id : string) : Job :=
  parent <| job_child_ids ::= List.filter (λ c, negb (String.eqb c id)) |>.

(** A candidate parked under [d]; an earlier child of the same submission
    parked there is forgotten.  [fresh] is true in [add_flow_at], where the
    parent does not exist yet and drops the forgotten child. *)
Definition park_child (fresh : bool) (c : ChildScan) (d : string) (child existing : Job) : ChildScan :=
  let c := match cs_next_by_id c !! d with
           | Some previous =>
               let c := c <| cs_next ::= delete previous |> in
               if fresh then c <| cs_parent ::= λ p, without_child p previous |> else c
           | None => c
           end in
  let c := c <| cs_next_by_id ::= <[ d := job_id child ]> |> <| cs_next ::= <[ job_id child := existing ]> |> in
  if fresh then c else c <| cs_deduplicated ::= <[ job_id child := existing ]> |>.

Definition classify_child (fresh : bool) (duplicated : gset string) (now : DateTime)
    (s : QueueState) (c : ChildScan) (child : Job) : QueueState * Result ChildScan :=
  if bool_decide (job_id child ∈ duplicated) then (s, Ok c)
  else match active_deduplication_id child now with
       | None => (s, Ok c)
       | Some d =>
           match find_active_deduplication_id (jobs s) (released_deduplication_owners s) d now with
           | Some existing =>
               if flow_child_deduplication_requires_next child existing
               then match store_deduplicated_next_locked s child existing with
                    | (s, true) => (s, Ok (park_child fresh c d child existing))
                    | (s, false) =>
                        (s, Err (ConfigError ("flow child deduplication id `" +:+ d
                                   +:+ "` is already active on job " +:+ job_id existing)))
                    end
               else
                 let s := (extend_deduplication_expiration_locked s child (job_id existing) now).1 in
                 (s, Ok (c <| cs_deduplicated ::= <[ job_id child := existing ]> |>))
           | None =>
               if bool_decide (d ∈ cs_ids c)
               then (s, Err (ConfigError ("flow deduplication id `" +:+ d +:+ "` already active")))
               else (s, Ok (c <| cs_ids ::= λ i, i ∪ {[ d ]} |>))
           end
       end.

Fixpoint classify_children (fresh : bool) (duplicated : gset string) (now : DateTime)
    (s : QueueState) (c : ChildScan) (children : list Job) : QueueState * Result ChildScan :=
  match children with
  | [] => (s, Ok c)
  | child :: children =>
      let '(s, r) := classify_child fresh duplicated now s c child in
      let! c := r or s in
      classify_children fresh duplicated now s c children
  end.

(** Repeat keys must be free in the queue and distinct within the flow. *)
Fixpoint check_repeat_keys (m : gmap string Job) (seen : gset string) (l : list Job) : Result unit :=
  match l with
  | [] => Ok tt
  | j :: l =>
      match active_repeat_key j with
      | None => check_repeat_keys m seen l
      | Some key =>
          if is_some (find_active_repeat_key m key) || bool_decide (key ∈ seen)
          then Err (ConfigError ("flow repeat key `" +:+ key +:+ "` already active"))
          else check_repeat_keys m (seen ∪ {[ key ]}) l
      end
  end.

Definition is_new_child (duplicated : gset string) (c : ChildScan) (child : Job) : bool :=
  negb (bool_decide (job_id child ∈ duplicated))
  && is_none (cs_deduplicated c !! job_id child) && is_none (cs_next c !! job_id child).

(** Store one child: a deduplicated child only leaves events, an existing job
    is adopted, a new one is inserted. *)
Definition store_child (owner_of : string → option Job) (duplicated : gset string)
    (parent_id : string) (now : DateTime) (acc : QueueState * list Job) (child : Job)
    : QueueState * list Job :=
  let '(s, stored) := acc in
  match owner_of (job_id child) with
  | Some existing => (emit_deduplicated_events_locked s existing child now, stored)
  | None =>
      if bool_decide (job_id child ∈ duplicated)
      then match jobs s !! job_id child with
           | None => (s, stored)
           | Some existing =>
               let existing := existing <| job_parent_id := Some parent_id |> in
               let s := put_job s (job_id child) existing in
               let s := record_terminal_child_dependency_locked s parent_id existing in
               (emit_duplicated_event_locked s existing now, stored ++ [existing])
           end
      else let '(s, child) := insert_new_job s child now in (s, stored ++ [child])
  end.

(** ** Children of a parent that is already stored *)

(** [add_flow_for_existing_parent_locked] and [add_flow_children_at] first
    sort out the children that exist. *)
Fixpoint existing_children (s : QueueState) (parent_id : string) (listed : list string)
    (duplicated : gset string) (children : list Job) : Result (gset string) :=
  match children with
  | [] => Ok duplicated
  | child :: children =>
      let already := Err (ConfigError ("flow child id `" +:+ job_id child +:+ "` already exists")) in
      match jobs s !! job_id child with
      | Some existing =>
          let? _ := validate_existing_flow_child_parent_locked s parent_id (job_id child) in
          if bool_decide (job_id child ∈ listed)
             && negb (bool_decide (job_parent_id existing = Some parent_id))
          then already
          else existing_children s parent_id listed (duplicated ∪ {[ job_id child ]}) children
      | None =>
          if bool_decide (job_id child ∈ listed) then already
          else existing_children s parent_id listed duplicated children
      end
  end.

(** The child ids the parent gains: all but those deduplicated on an owner
    that was not active. *)
Definition add_child_ids (parent : Job) (c : ChildScan) (children : list Job) : Job :=
  foldl (λ parent child,
           if is_some (cs_deduplicated c !! job_id child) && is_none (cs_next c !! job_id child)
           then parent
           else if existsb (λ id, String.eqb id (job_id child)) (job_child_ids parent) then parent
           else parent <| job_child_ids ::= λ l, l ++ [job_id child] |>)
    parent children.

Definition add_flow_for_existing_parent_locked (s : QueueState) (existing_parent : Job)
    (children : list Job) (now : DateTime) : QueueState * Result JobFlow :=
  let parent_id := job_id existing_parent in
  let s := emit_duplicated_event_locked s existing_parent now in
  let! duplicated := existing_children s parent_id (job_child_ids existing_parent) ∅ children or s in
  let '(s, r) := classify_children false duplicated now s (initial_scan existing_parent ∅) children in
  let! c := r or s in
  let! _ := check_repeat_keys (jobs s) ∅ (List.filter (is_new_child duplicated c) children) or s in
  let s := match jobs s !! parent_id with
           | Some parent => put_job s parent_id (add_child_ids parent c children)
           | None => s
           end in
  let '(s, stored) := foldl (store_child (λ id, cs_deduplicated c !! id) duplicated parent_id now)
                        (s, []) children in
  let s := if bool_decide (size (cs_next c) = O)
           then (release_parent_if_ready_locked s parent_id now).1 else s in
  (s, Ok (mkJobFlow (unwrap_or (jobs s !! parent_id) existing_parent) stored)).

(** ** A new flow *)
Definition flow_parent_job (queue : string) (now : DateTime) (parent : NewSpec) (children : list Job) : Job :=
  let p := job_of_spec queue now parent in
  p <| job_state := match children with
                    | [] => state_after_dependencies (job_scheduled_at p) now
                    | _ => WaitingChildren
                    end |>
    <| job_child_ids := job_id <$> children |>.

(** The specification's job as a child of [parent_id]. *)
Definition flow_child_job (queue : string) (now : DateTime) (parent_id : string) (spec : NewSpec) : Job :=
  (job_of_spec queue now spec) <| job_parent_id := Some parent_id |>.

Fixpoint duplicated_flow_children (s : QueueState) (parent_id : string) (children : list Job)
    (duplicated : gset string) : Result (gset string) :=
  match children with
  | [] => Ok duplicated
  | child :: children =>
      if is_some (jobs s !! job_id child)
      then let? _ := validate_existing_flow_child_parent_locked s parent_id (job_id child) in
           duplicated_flow_children s parent_id children (duplicated ∪ {[ job_id child ]})
      else duplicated_flow_children s parent_id children duplicated
  end.

Definition add_new_flow (s : QueueState) (parent : Job) (children : list Job) (now : DateTime)
    : QueueState * Result JobFlow :=
  let! duplicated := duplicated_flow_children s (job_id parent) children ∅ or s in
  let ids := match active_deduplication_id parent now with Some d => {[ d ]} | None => ∅ end in
  let '(s, r) := classify_children true duplicated now s (initial_scan parent ids) children in
  let! c := r or s in
  let parent := (cs_parent c) <| job_child_ids ::= List.filter (λ id, is_none (cs_deduplicated c !! id)) |> in
  let parent := match job_child_ids parent with
                | [] => parent <| job_state := state_after_dependencies (job_scheduled_at parent) now |>
                | _ => parent
                end in
  let! _ := check_repeat_keys (jobs s) ∅ (parent :: List.filter (is_new_child duplicated c) children) or s in
  let '(s, parent) := insert_new_job s parent now in
  let owner_of id := match cs_deduplicated c !! id with Some j => Some j | None => cs_next c !! id end in
  let '(s, stored) := foldl (store_child owner_of duplicated (job_id parent) now) (s, []) children in
  let s := if bool_decide (size (cs_next c) = O)
           then (release_parent_if_ready_locked s (job_id parent) now).1 else s in
  (s, Ok (mkJobFlow (unwrap_or (jobs s !! job_id parent) parent) stored)).

Definition add_flow_at (queue : string) (s : QueueState) (parent : NewSpec) (children : list NewSpec)
    (now : DateTime) : QueueState * Result JobFlow :=
  let! _ := validate_job_options_at (spec_options parent.1) now or s in
  let! _ := validate_specs children now or s in
  let child_jobs := flow_child_job queue now (job_id (job_of_spec queue now parent)) <$> children in
  let parent_job := flow_parent_job queue now parent child_jobs in
  let! _ := validate_flow_job_ids parent_job child_jobs or s in
  match jobs s !! job_id parent_job with
  | Some existing_parent => add_flow_for_existing_parent_locked s existing_parent child_jobs now
  | None =>
      match find_active_deduplicated_job (jobs s) (released_deduplication_owners s) parent_job now with
      | Some existing =>
          match store_deduplicated_next_flow_locked s (mkJobFlow parent_job child_jobs) existing with
          | (s, true) =>
              let s := emit_deduplicated_events_locked s existing parent_job now in
              (s, Ok (flow_for_existing_owner_locked s existing))
          | (s, false) =>
              let s := (extend_deduplication_expiration_locked s parent_job (job_id existing) now).1 in
              let s := emit_deduplicated_events_locked s existing parent_job now in
              (s, Ok (flow_for_existing_owner_locked s existing))
          end
      | None => add_new_flow s parent_job child_jobs now
      end
  end.

(** ** Children added by a running parent *)

(** The active parent goes back to waiting for its children. *)
Definition waiting_for_children (parent : Job) : Job :=
  (clear_lease (parent <| job_state := WaitingChildren |> <| job_processed_at := None |>
                  <| job_finished_at := None |>)) <| job_failed_reason := None |>.

Definition add_flow_children_at (queue : string) (s : QueueState) (parent_id lock_token : string)
    (children : list NewSpec) (now : DateTime) : QueueState * Result (list Job) :=
  match children with
  | [] => (s, Err (ConfigError "flow children cannot be empty"))
  | _ =>
      let! _ := validate_specs children now or s in
      let child_jobs := flow_child_job queue now parent_id <$> children in
      let! _ := validate_flow_child_jobs parent_id child_jobs or s in
      match jobs s !! parent_id with
      | None => (s, job_not_found parent_id)
      | Some parent =>
          let! _ := require_active parent "add flow children" or s in
          let! _ := require_lock_token parent lock_token or s in
          let! _ := ensure_flow_dependencies_have_not_failed parent (jobs s)
                      (flow_dependencies s !! parent_id) "add flow children" or s in
          let! duplicated := existing_children s parent_id (job_child_ids parent) ∅ child_jobs or s in
          let '(s, r) := classify_children false duplicated now s (initial_scan parent ∅) child_jobs in
          let! c := r or s in
          let! _ := check_repeat_keys (jobs s) ∅ (List.filter (is_new_child duplicated c) child_jobs) or s in
          match jobs s !! parent_id with
          | None => (s, job_not_found parent_id)
          | Some parent =>
              let parent := add_child_ids (waiting_for_children parent) c child_jobs in
              let s := put_job s parent_id parent in
              let '(s, stored) :=
                foldl (store_child (λ id, cs_deduplicated c !! id) duplicated parent_id now)
                  (s, []) child_jobs in
              let s := emit_event_locked s "waiting-children" (Some parent) (Some Active) now ∅ in
              let s := if bool_decide (size (cs_next c) = O)
                       then (release_parent_if_ready_locked s parent_id now).1 else s in
              (s, Ok stored)
          end
      end
  end.

(** ** Repeat series *)
Definition upsert_repeat (queue : string) (s : QueueState) (spec : NewSpec) (now : DateTime)
    : QueueState * Result Job :=
  let! _ := validate_job_options_at (spec_options spec.1) now or s in
  if is_none (opt_repeat (spec_options spec.1))
  then (s, Err (ConfigError "repeat options are required to upsert a repeat series"))
  else
    let j := job_of_spec queue now spec in
    match opt_filter (λ key, negb (String.eqb key EmptyString)) (job_repeat_key j) with
    | None => (s, Err (ConfigError "repeat key must not be empty"))
    | Some key =>
        let owner := find_active_repeat_key (jobs s) key in
        let owner_id := job_id <$> owner in
        let! _ := match owner with Some o => require_removable o | None => Ok tt end or s in
        let! _ := match owner with
                  | Some o =>
                      if is_some (job_parent_id o) || negb (bool_decide (job_child_ids o = []))
                      then Err (JobStateConflict ("cannot upsert repeat key `" +:+ key
                                  +:+ "`; current owner " +:+ job_id o +:+ " has flow dependencies"))
                      else Ok tt
                  | None => Ok tt
                  end or s in
        let! _ := match jobs s !! job_id j with
                  | Some existing =>
                      if bool_decide (owner_id = Some (job_id existing)) then Ok tt
                      else Err (ConfigError ("job id `" +:+ job_id j +:+ "` already exists"))
                  | None => Ok tt
                  end or s in
        let! _ := match job_deduplication_id j with
                  | None => Ok tt
                  | Some d =>
                      match find_active_deduplication_id (jobs s) (released_deduplication_owners s) d now with
                      | Some existing =>
                          if bool_decide (owner_id = Some (job_id existing)) then Ok tt
                          else Err (JobStateConflict ("cannot upsert repeat key `" +:+ key
                                      +:+ "`; deduplication id `" +:+ d +:+ "` is active on job "
                                      +:+ job_id existing))
                      | None => Ok tt
                      end
                  end or s in
        let s := match owner with Some o => (remove_job_record_locked s (job_id o)).1 | None => s end in
        let '(s, j) := insert_new_job s j now in
        (s, Ok j)
    end.
End add.
