(* ===== verification/JobInvariant.v ===== *)
(** * The invariant of the job runtime

    What holds of every reachable state of the in-memory queue: each job is
    stored under its own id and its fields agree with its lifecycle state, the
    waiting order is bounded by the sequence counter, parked candidates are
    filed under their deduplication id, the dependency index belongs to a live
    parent and the event log is a contiguous window of the event sequence.

    [inv s0 s] adds what an operation started in [s0] may do: no job becomes
    active (only a claim does that), and an active job keeps its lease (only a
    renewal extends it).  The
    lemmas here say that the primitive updates preserve [inv s0]; they are
    collected in the hint database [inv]. *)
From S2P Require Import Prelude Ordering Text External Retry JobTypes JobStore.
From S2P Require Import JobDedup JobFlows.
Local Open Scope Z_scope.

Create HintDb inv discriminated.
Create Rewrite HintDb frame.

Section invariant.
Context {X : Ext}.

(** ** Jobs *)
Definition lease_ok (j : Job) : Prop :=
  match job_state j with
  | Active => is_Some (job_worker_id j) ∧ is_Some (job_lease_expires_at j) ∧ is_Some (job_processed_at j)
  | _ => job_worker_id j = None ∧ job_lock_token j = None ∧ job_lease_expires_at j = None
  end.

Definition finish_ok (j : Job) : Prop :=
  match job_state j with
  | Completed => is_Some (job_finished_at j) ∧ is_Some (job_return_value j)
  | Failed => is_Some (job_finished_at j) ∧ is_Some (job_failed_reason j) ∧ job_return_value j = None
  | _ => job_finished_at j = None ∧ job_return_value j = None
  end.

Definition deferred_ok (j : Job) : Prop :=
  match job_state j with
  | Waiting | Delayed | Active => True
  | _ => job_deferred_failure j = None
  end.

Record job_ok (j : Job) : Prop := {
  ok_id : job_id j ≠ EmptyString;
  ok_priority : job_priority j = opt_priority (job_options j) ∧ job_priority j ≤ MAX_JOB_PRIORITY;
  ok_lease : lease_ok j;
  ok_finish : finish_ok j;
  ok_deferred : deferred_ok j;
}.

(** ** The dependency index *)
Record index_ok (i : FlowIndex) : Prop := {
  io_nonempty : index_is_empty i = false;
  io_processed_ignored : ∀ c, is_Some (fi_processed i !! c) → fi_ignored i !! c = None;
  io_processed_failed : ∀ c, is_Some (fi_processed i !! c) → c ∉ fi_failed i;
  io_ignored_failed : ∀ c, is_Some (fi_ignored i !! c) → c ∉ fi_failed i;
}.

(** ** The event log *)
Definition event_number (s : QueueState) (i : nat) : Z :=
  event_sequence s - Z.of_nat (length (events s)) + 1 + Z.of_nat i.

(** The newest [10000] events at most; below the saturation of the counter
    the ids are those of the last numbers drawn, without a gap. *)
Record events_ok (s : QueueState) : Prop := {
  eo_bound : Z.of_nat (length (events s)) ≤ DEFAULT_JOB_EVENT_RETENTION;
  eo_count : 0 ≤ event_sequence s ≤ U64_MAX;
  eo_number : event_sequence s < U64_MAX →
              Z.of_nat (length (events s)) ≤ event_sequence s ∧
              ∀ i e, events s !! i = Some e → ev_id e = show_nat (event_number s i) +:+ "-0";
}.

(** ** States *)
Definition parked_ok (j : Job) : Prop := job_ok j ∧ job_enqueued_seq j = 0.

Record wf (s : QueueState) : Prop := {
  wf_jobs : ∀ id j, jobs s !! id = Some j →
              job_id j = id ∧ job_ok j ∧ 0 ≤ job_enqueued_seq j ≤ sequence s;
  wf_seq : 0 ≤ sequence s ≤ U64_MAX;
  wf_next : ∀ d j, deduplication_next s !! d = Some j → job_deduplication_id j = Some d ∧ parked_ok j;
  wf_flows : ∀ d f, deduplication_next_flows s !! d = Some f →
               job_deduplication_id (flow_parent f) = Some d ∧ parked_ok (flow_parent f)
               ∧ Forall parked_ok (flow_children f);
  wf_index : ∀ p i, flow_dependencies s !! p = Some i → is_Some (jobs s !! p) ∧ index_ok i;
  wf_events : events_ok s;
}.

(** The lease of a job: what only a claim hands out and only its owner renews. *)
Definition lease_of (j : Job) : option string * option string * option DateTime * Z * option DateTime :=
  (job_worker_id j, job_lock_token j, job_lease_expires_at j, job_attempts_made j, job_processed_at j).

Definition active_from (s0 s : QueueState) : Prop :=
  ∀ id j, jobs s !! id = Some j → job_state j = Active →
    ∃ j0, jobs s0 !! id = Some j0 ∧ job_state j0 = Active ∧ lease_of j = lease_of j0.

Record inv (s0 s : QueueState) : Prop := {
  inv_wf : wf s;
  inv_active : active_from s0 s;
  inv_seq : sequence s0 ≤ sequence s;
  inv_events : event_sequence s0 ≤ event_sequence s;
}.

(** ** Jobs: basic facts *)
Lemma state_eqb_true a b : state_eqb a b = true ↔ a = b.
Proof. unfold state_eqb. by rewrite bool_decide_eq_true. Qed.
Lemma state_eqb_false a b : state_eqb a b = false ↔ a ≠ b.
Proof. unfold state_eqb. by rewrite bool_decide_eq_false. Qed.

Lemma inv_refl s : wf s → inv s s.
Proof. intros H. split; [done| |lia|lia]. intros id j Hj Ha. eauto. Qed.

Lemma inv_trans s0 s1 s2 : inv s0 s1 → inv s1 s2 → inv s0 s2.
Proof.
  intros [_ A1 S1 E1] [W2 A2 S2 E2]. split; [done| |lia|lia].
  intros id j Hj Ha. destruct (A2 id j Hj Ha) as (j1 & H1 & Ha1 & L1).
  destruct (A1 id j1 H1 Ha1) as (j0 & H0 & Ha0 & L0). exists j0. split_and!; congruence.
Qed.

Lemma inv_lookup s0 s id j : inv s0 s → jobs s !! id = Some j →
  job_id j = id ∧ job_ok j ∧ 0 ≤ job_enqueued_seq j ≤ sequence s.
Proof. intros [[H _ _ _ _] _]. apply H. Qed.

Lemma job_ok_idle j : job_ok j → job_state j ≠ Active → job_lock_token j = None.
Proof. intros [_ _ L _ _]. unfold lease_ok in L. destruct (job_state j); tauto. Qed.

Lemma job_ok_leased j : job_ok j → job_state j = Active →
  ∃ w e, job_worker_id j = Some w ∧ job_lease_expires_at j = Some e.
Proof.
  intros [_ _ L _ _] E. unfold lease_ok in L. rewrite E in L. destruct L as ([w ?] & [e ?] & _). eauto.
Qed.

(** ** Selections of jobs

    The handlers select jobs by a test, in an order of their own. *)
Section selections.
Context `{!ExtLaws X} (s : QueueState) (W : wf s).

Lemma wf_lookup id j : jobs s !! id = Some j → job_id j = id ∧ job_ok j ∧ 0 ≤ job_enqueued_seq j ≤ sequence s.
Proof. apply (wf_jobs s W). Qed.

Lemma elem_of_stored j : j ∈ hash_values (jobs s) ↔ jobs s !! job_id j = Some j.
Proof.
  rewrite elem_of_hash_values. split; [|eauto].
  intros [id H]. by destruct (wf_lookup _ _ H) as [-> _].
Qed.

Lemma stored_ids_NoDup : NoDup (job_id <$> hash_values (jobs s)).
Proof.
  rewrite hash_values_perm, <- list_fmap_compose.
  assert ((job_id ∘ snd) <$> map_to_list (jobs s) = (map_to_list (jobs s)).*1) as ->.
  { apply list_fmap_ext. intros i [id j] Hi. simpl. apply list_elem_of_lookup_2 in Hi.
    apply elem_of_map_to_list in Hi. by destruct (wf_lookup _ _ Hi). }
  apply NoDup_fst_map_to_list.
Qed.

Lemma elem_of_selection cmp (P : Job → bool) j :
  j ∈ sort_by cmp (List.filter P (hash_values (jobs s))) ↔ jobs s !! job_id j = Some j ∧ P j = true.
Proof.
  rewrite elem_of_sort_by, list_elem_of_In, List.filter_In, <- list_elem_of_In.
  by rewrite elem_of_stored.
Qed.

Lemma selection_ids_NoDup cmp (P : Job → bool) :
  NoDup (job_id <$> sort_by cmp (List.filter P (hash_values (jobs s)))).
Proof.
  rewrite sort_by_perm. pose proof stored_ids_NoDup as H.
  induction (hash_values (jobs s)) as [|j l IH]; simpl; [done|].
  apply NoDup_cons in H as [Hj Hl]. destruct (P j); [|by apply IH]. simpl.
  apply NoDup_cons. split; [|by apply IH].
  intros Hin. apply Hj. apply list_elem_of_fmap in Hin as (j' & -> & Hin).
  apply list_elem_of_fmap. exists j'. split; [done|].
  rewrite list_elem_of_In, List.filter_In in Hin. rewrite list_elem_of_In. tauto.
Qed.
End selections.

(** ** Events *)
Lemma trim_events_locked_spec s n : 0 ≤ n →
  events (trim_events_locked s n).1 = drop (length (events s) - Z.to_nat n) (events s) ∧
  (trim_events_locked s n).2 = Z.max 0 (Z.of_nat (length (events s)) - n).
Proof.
  intros Hn. unfold trim_events_locked. destruct (Z.leb_spec (Z.of_nat (length (events s))) n); simpl.
  - replace (length (events s) - Z.to_nat n)%nat with O by lia. split; [done|lia].
  - split; [f_equal; lia|lia].
Qed.

Lemma trim_frame s n : (trim_events_locked s n).1 = s <| events := events (trim_events_locked s n).1 |>.
Proof. unfold trim_events_locked. destruct (_ <=? _); by destruct s. Qed.

Lemma events_ok_trim s n : 0 ≤ n → events_ok s → events_ok (trim_events_locked s n).1.
Proof.
  intros Hn [B C N]. destruct (trim_events_locked_spec s n Hn) as [He _].
  rewrite trim_frame. rewrite He. split; simpl.
  - rewrite length_drop. lia.
  - done.
  - intros Hlt. destruct (N Hlt) as [Hlen Hid]. rewrite length_drop. split; [lia|].
    intros i e. rewrite lookup_drop. intros H. rewrite (Hid _ _ H). f_equal. f_equal.
    unfold event_number. simpl. rewrite length_drop. apply lookup_lt_Some in H. lia.
Qed.

(** The event log after one more event, before it is trimmed. *)
Definition push_event (s : QueueState) (e : JobEvent) : QueueState :=
  s <| event_sequence := sat_add U64_MAX (event_sequence s) 1 |> <| events ::= λ l, l ++ [e] |>.

Lemma emit_event_push s ev job prev t fields :
  ∃ e, ev_id e = show_nat (sat_add U64_MAX (event_sequence s) 1) +:+ "-0" ∧
    emit_event_locked s ev job prev t fields =
    (trim_events_locked (push_event s e) DEFAULT_JOB_EVENT_RETENTION).1.
Proof. eexists. split; [|reflexivity]. done. Qed.

Lemma emit_event_frame s ev job prev t fields :
  emit_event_locked s ev job prev t fields =
  s <| event_sequence := sat_add U64_MAX (event_sequence s) 1 |>
    <| events := events (emit_event_locked s ev job prev t fields) |>.
Proof.
  destruct (emit_event_push s ev job prev t fields) as (e & _ & ->).
  rewrite trim_frame. by destruct s.
Qed.

(** What emitting an event leaves alone, as rewriting rules. *)
Lemma emit_jobs s ev job prev t fields : jobs (emit_event_locked s ev job prev t fields) = jobs s.
Proof. by rewrite emit_event_frame. Qed.
Lemma emit_sequence s ev job prev t fields : sequence (emit_event_locked s ev job prev t fields) = sequence s.
Proof. by rewrite emit_event_frame. Qed.
Lemma emit_paused s ev job prev t fields : paused (emit_event_locked s ev job prev t fields) = paused s.
Proof. by rewrite emit_event_frame. Qed.
Lemma emit_flow_dependencies s ev job prev t fields :
  flow_dependencies (emit_event_locked s ev job prev t fields) = flow_dependencies s.
Proof. by rewrite emit_event_frame. Qed.
Lemma emit_next s ev job prev t fields :
  deduplication_next (emit_event_locked s ev job prev t fields) = deduplication_next s.
Proof. by rewrite emit_event_frame. Qed.
Lemma emit_next_flows s ev job prev t fields :
  deduplication_next_flows (emit_event_locked s ev job prev t fields) = deduplication_next_flows s.
Proof. by rewrite emit_event_frame. Qed.
Lemma emit_released s ev job prev t fields :
  released_deduplication_owners (emit_event_locked s ev job prev t fields) = released_deduplication_owners s.
Proof. by rewrite emit_event_frame. Qed.

Lemma emit_events_ok s ev job prev t fields :
  events_ok s → events_ok (emit_event_locked s ev job prev t fields).
Proof.
  intros [B C N]. destruct (emit_event_push s ev job prev t fields) as (e & He & ->).
  destruct (trim_events_locked_spec (push_event s e) DEFAULT_JOB_EVENT_RETENTION) as [Hev _]; [done|].
  rewrite trim_frame, Hev. split; simpl; unfold sat_add, U64_MAX, DEFAULT_JOB_EVENT_RETENTION in *.
  - rewrite length_drop, length_app. simpl. lia.
  - lia.
  - intros Hlt. destruct N as [Hlen Hid]; [lia|].
    rewrite length_drop, length_app. simpl. split; [lia|].
    intros i e' Hi. rewrite lookup_drop in Hi. pose proof (lookup_lt_Some _ _ _ Hi) as Hlt2.
    rewrite length_app in Hlt2. simpl in Hlt2. unfold event_number in *. simpl.
    rewrite length_drop, length_app. simpl.
    apply lookup_app_Some in Hi as [Hi|[Hge Hi]].
    + rewrite (Hid _ _ Hi). f_equal. f_equal. apply lookup_lt_Some in Hi. unfold sat_add, U64_MAX. lia.
    + assert (Hi' := lookup_lt_Some _ _ _ Hi). simpl in Hi'.
      match type of Hi with _ !! ?k = _ => assert (k = O) as Hk by lia; rewrite Hk in Hi end.
      simpl in Hi. simplify_eq.
      rewrite He. f_equal. f_equal. unfold sat_add, U64_MAX. lia.
Qed.

Lemma events_ok_frame s s' : events_ok s →
  events s' = events s → event_sequence s' = event_sequence s → events_ok s'.
Proof. intros [B C N] He Hs. split; unfold event_number in *; by rewrite ?He, ?Hs. Qed.

(** The fields of [inv] an update obviously leaves alone. *)
Ltac inv_split :=
  split; [split| | |]; unfold put_job, active_from; simpl; try done; try (by eapply events_ok_frame).

(** ** Primitive updates preserve the invariant *)
Section primitives.
Context (s0 : QueueState).
Implicit Types s : QueueState.

Lemma inv_emit s ev job prev t fields :
  inv s0 s → inv s0 (emit_event_locked s ev job prev t fields).
Proof.
  intros [[WJ WS WN WF WI WE] A S E]. pose proof (emit_events_ok s ev job prev t fields WE) as WE'.
  rewrite emit_event_frame in *. inv_split.
  unfold sat_add. destruct WE as [_ ? _]. unfold U64_MAX in *. lia.
Qed.

Lemma inv_emit_created s j now : inv s0 s → inv s0 (emit_job_created_events_locked s j now).
Proof. intros. by apply inv_emit, inv_emit. Qed.
Lemma inv_emit_exhausted s j now : inv s0 s → inv s0 (emit_retries_exhausted_event_locked s j now).
Proof. intros. by apply inv_emit. Qed.
Lemma inv_emit_removed s j now : inv s0 s → inv s0 (emit_removed_event_locked s j now).
Proof. intros. by apply inv_emit. Qed.
Lemma inv_emit_duplicated s j now : inv s0 s → inv s0 (emit_duplicated_event_locked s j now).
Proof. intros. by apply inv_emit. Qed.
Lemma inv_emit_cleaned s n now : inv s0 s → inv s0 (emit_cleaned_event_locked s n now).
Proof. intros. by apply inv_emit. Qed.
Lemma inv_emit_deduplicated s o c now : inv s0 s → inv s0 (emit_deduplicated_events_locked s o c now).
Proof.
  intros. unfold emit_deduplicated_events_locked. destruct (job_deduplication_id c); [|done].
  by apply inv_emit, inv_emit.
Qed.
Lemma inv_emit_replaced s o c now : inv s0 s → inv s0 (emit_replaced_deduplicated_owner_events_locked s o c now).
Proof.
  intros. unfold emit_replaced_deduplicated_owner_events_locked. destruct (job_deduplication_id o); [|done].
  by apply inv_emit, inv_emit.
Qed.
Lemma inv_emit_drained s now : inv s0 s → inv s0 (emit_drained_event_if_needed_locked s now).
Proof.
  intros. unfold emit_drained_event_if_needed_locked. destruct (forallb _ _); [by apply inv_emit|done].
Qed.

Lemma inv_trim s n : 0 ≤ n → inv s0 s → inv s0 (trim_events_locked s n).1.
Proof.
  intros Hn [[WJ WS WN WF WI WE] A S E]. pose proof (events_ok_trim s n Hn WE) as WE'.
  rewrite trim_frame in *. inv_split.
Qed.

Lemma inv_released s f : inv s0 s → inv s0 (s <| released_deduplication_owners ::= f |>).
Proof. intros [[WJ WS WN WF WI WE] A S E]. inv_split. Qed.

Lemma inv_paused s b : inv s0 s → inv s0 (s <| paused := b |>).
Proof. intros [[WJ WS WN WF WI WE] A S E]. inv_split. Qed.

Lemma next_waiting_bound s : inv s0 s →
  0 ≤ (next_waiting_sequence s).2 ≤ sequence (next_waiting_sequence s).1.
Proof. intros [[_ [? ?] _ _ _ _] _ _ _]. simpl. unfold sat_add, U64_MAX in *. lia. Qed.

Lemma inv_next_waiting s : inv s0 s → inv s0 (next_waiting_sequence s).1.
Proof.
  intros [[WJ WS WN WF WI WE] A S E]. unfold next_waiting_sequence, sat_add; simpl.
  assert (sequence s ≤ U64_MAX `min` (sequence s + 1)) by lia.
  inv_split; [|lia|lia].
  intros id j H'. destruct (WJ id j H') as (?&?&?). split_and!; auto; lia.
Qed.

Lemma wf_put s id j : wf s → job_ok j → job_id j = id →
  0 ≤ job_enqueued_seq j ≤ sequence s → wf (put_job s id j).
Proof.
  intros [WJ WS WN WF WI WE] Hok Hid Hseq.
  split; unfold put_job; simpl; try done; try (by eapply events_ok_frame).
  - intros id' j' [[<- <-]|[? ?]]%lookup_insert_Some; eauto.
  - intros p i Hi. destruct (WI p i Hi) as [? ?]. split; [|done].
    rewrite lookup_insert_is_Some. destruct (decide (id = p)); auto.
Qed.

Lemma inv_put s id j : inv s0 s → job_ok j → job_id j = id →
  0 ≤ job_enqueued_seq j ≤ sequence s →
  (job_state j = Active →
   ∃ j0, jobs s0 !! id = Some j0 ∧ job_state j0 = Active ∧ lease_of j = lease_of j0) →
  inv s0 (put_job s id j).
Proof.
  intros [W A S E] Hok Hid Hseq Hact. split; [by apply wf_put| |done|done].
  intros id' j'. unfold put_job. simpl. intros [[<- <-]|[? ?]]%lookup_insert_Some; eauto.
Qed.

Lemma inv_put_idle s id j : inv s0 s → job_ok j → job_id j = id →
  0 ≤ job_enqueued_seq j ≤ sequence s → job_state j ≠ Active → inv s0 (put_job s id j).
Proof. intros. by apply inv_put. Qed.

(** An update that leaves state and lease of a stored job alone. *)
Lemma inv_put_same s id j j' : inv s0 s → jobs s !! id = Some j → job_ok j' →
  job_id j' = job_id j → job_enqueued_seq j' = job_enqueued_seq j →
  job_state j' = job_state j → lease_of j' = lease_of j → inv s0 (put_job s id j').
Proof.
  intros HI Hj Hok Hid Hseq Hst Hl. destruct (inv_lookup _ _ _ _ HI Hj) as (Hid0 & _ & ?).
  apply inv_put; [done|done|congruence|lia|].
  intros Ha. rewrite Hst in Ha. destruct HI as [_ A _ _].
  destruct (A id j Hj Ha) as (j0 & ? & ? & ?). exists j0. split_and!; congruence.
Qed.

Lemma inv_delete s id :
  inv s0 s → inv s0 (s <| jobs ::= delete id |> <| flow_dependencies ::= delete id |>).
Proof.
  intros [[WJ WS WN WF WI WE] A S E].
  inv_split; [| |].
  - intros id' j' [? ?]%lookup_delete_Some. eauto.
  - intros p i [? Hi]%lookup_delete_Some. destruct (WI p i Hi). by rewrite lookup_delete_ne.
  - intros id' j' [? ?]%lookup_delete_Some. eauto.
Qed.

Lemma inv_forget s j : inv s0 s → inv s0 (forget_released_deduplication_owner_locked s j).
Proof.
  intros. unfold forget_released_deduplication_owner_locked.
  destruct (job_deduplication_id j); [by apply inv_released|done].
Qed.

Lemma inv_remove s id : inv s0 s → inv s0 (remove_job_record_locked s id).1.
Proof.
  intros. unfold remove_job_record_locked. destruct (jobs s !! id); simpl; [|done].
  by apply inv_forget, inv_delete.
Qed.

Lemma inv_remove_records s ids : inv s0 s → inv s0 (remove_job_records s ids).
Proof.
  unfold remove_job_records. revert s. induction ids as [|id ids IH]; simpl; [done|].
  intros s H. by apply IH, inv_remove.
Qed.

Lemma inv_set_next s d j : inv s0 s → job_deduplication_id j = Some d → parked_ok j →
  inv s0 (s <| deduplication_next ::= <[ d := j ]> |> <| deduplication_next_flows ::= delete d |>).
Proof.
  intros [[WJ WS WN WF WI WE] A S E] Hd Hp.
  inv_split; [|].
  - intros d' j' [[<- <-]|[? ?]]%lookup_insert_Some; eauto.
  - intros d' f [? ?]%lookup_delete_Some. eauto.
Qed.

Lemma inv_set_next_flow s d f : inv s0 s → job_deduplication_id (flow_parent f) = Some d →
  parked_ok (flow_parent f) → Forall parked_ok (flow_children f) →
  inv s0 (s <| deduplication_next_flows ::= <[ d := f ]> |> <| deduplication_next ::= delete d |>).
Proof.
  intros [[WJ WS WN WF WI WE] A S E] Hd Hp Hc.
  inv_split; [|].
  - intros d' j [? ?]%lookup_delete_Some. eauto.
  - intros d' j' [[<- <-]|[? ?]]%lookup_insert_Some; eauto.
Qed.

Lemma inv_drop_next s d : inv s0 s → inv s0 (s <| deduplication_next ::= delete d |>).
Proof.
  intros [[WJ WS WN WF WI WE] A S E]. inv_split.
  intros d' j [? ?]%lookup_delete_Some. eauto.
Qed.

Lemma inv_drop_next_flow s d : inv s0 s → inv s0 (s <| deduplication_next_flows ::= delete d |>).
Proof.
  intros [[WJ WS WN WF WI WE] A S E]. inv_split.
  intros d' j [? ?]%lookup_delete_Some. eauto.
Qed.

Lemma inv_set_index s p i : inv s0 s → is_Some (jobs s !! p) → index_ok i →
  inv s0 (s <| flow_dependencies ::= <[ p := i ]> |>).
Proof.
  intros [[WJ WS WN WF WI WE] A S E] Hp Hi. inv_split.
  intros p' i' [[<- <-]|[? ?]]%lookup_insert_Some; eauto.
Qed.

Lemma inv_drop_index s p : inv s0 s → inv s0 (s <| flow_dependencies ::= delete p |>).
Proof.
  intros [[WJ WS WN WF WI WE] A S E]. inv_split.
  intros p' i' [? ?]%lookup_delete_Some. eauto.
Qed.

(** Clearing everything but the event log and the counters. *)
Lemma inv_clear s : inv s0 s →
  inv s0 (s <| jobs := ∅ |> <| flow_dependencies := ∅ |> <| deduplication_next := ∅ |>
            <| deduplication_next_flows := ∅ |> <| released_deduplication_owners := ∅ |>).
Proof.
  intros [[WJ WS WN WF WI WE] A S E]. inv_split.
Qed.
End primitives.
End invariant.

#[export] Hint Rewrite @emit_jobs @emit_sequence @emit_paused @emit_flow_dependencies @emit_next
  @emit_next_flows @emit_released : frame.
#[export] Hint Resolve inv_emit inv_emit_created inv_emit_exhausted inv_emit_removed
  inv_emit_duplicated inv_emit_cleaned inv_emit_deduplicated inv_emit_replaced inv_emit_drained inv_trim inv_released inv_paused inv_next_waiting inv_forget
  inv_remove inv_remove_records inv_drop_next inv_drop_next_flow inv_drop_index inv_clear : inv.
