(* ===== verification/JobPreserve.v ===== *)
(** * Every handler preserves the invariant

    First the job records: each transition of a job keeps [job_ok].  Then the
    helpers and handlers of the runtime, one lemma each, all of the form
    [inv s0 s → inv s0 (handler s ..).1]. *)
From S2P Require Import Prelude Ordering Text External Retry JobTypes JobStore.
From S2P Require Import JobDedup JobFlows JobCore JobQueries JobAdmin JobAdd JobInvariant.
Local Open Scope Z_scope.

(** Turn tests on lifecycle states into (dis)equalities. *)
Ltac states :=
  bools;
  repeat match goal with
  | H : state_eqb _ _ = true |- _ => apply state_eqb_true in H
  | H : state_eqb _ _ = false |- _ => apply state_eqb_false in H
  end.

(** A transition of a record: unfold the clauses of [job_ok] and decide them. *)
Ltac job_tac :=
  match goal with H : job_ok _ |- job_ok _ => destruct H as [? [??] ? ? ?] end;
  split; unfold lease_ok, finish_ok, deferred_ok in *; simpl in *; try done;
  repeat match goal with E : job_state ?j = _, H : context [job_state ?j] |- _ =>
    lazymatch H with E => fail | _ => rewrite E in H end end;
  repeat match goal with E : job_state ?j = _ |- context [job_state ?j] => rewrite E end;
  simpl in *; naive_solver.

Section jobs.
Context {X : Ext}.
Implicit Types j : Job.

Lemma clear_lease_state j : job_state (clear_lease j) = job_state j.
Proof. done. Qed.

Lemma claimed_ok j w t l now : job_ok j → job_state j = Waiting → job_ok (claimed_job j w t l now).
Proof. intros H E. job_tac. Qed.

Lemma completed_ok j v now : job_ok j → job_ok (completed_job j v now).
Proof. intros H. job_tac. Qed.

Lemma failed_attempt_ok j e now b : job_ok j → job_state j = Active → job_ok (failed_attempt j e now b).
Proof. intros H E. unfold failed_attempt. destruct (b && _); simpl; job_tac. Qed.

Lemma failed_attempt_idle j e now b : job_state (failed_attempt j e now b) ≠ Active.
Proof. unfold failed_attempt. by destruct (b && _). Qed.

Lemma delayed_active_ok j d now : job_ok j → job_state j = Active → job_ok (delayed_active_job j d now).
Proof. intros H E. job_tac. Qed.

Lemma released_ok j now : job_ok j → job_state j = Active → job_ok (released_job j now).
Proof. intros H E. job_tac. Qed.

Lemma retried_ok j now n : job_ok j → is_terminal (job_state j) = true → job_ok (retried_job j now n).
Proof. intros H E. job_tac. Qed.

Lemma prioritised_ok j p l n : job_ok j → p ≤ MAX_JOB_PRIORITY → job_ok (prioritised j p l n).
Proof. intros H Hp. unfold prioritised. destruct n, l; simpl; job_tac. Qed.

Lemma resume_parent_ok j st d n : job_ok j → is_terminal (job_state j) = false →
  (st = Waiting ∨ st = Delayed) → job_ok (resume_parent j st d n).
Proof.
  intros H E Hst. unfold resume_parent.
  destruct n, Hst as [-> | ->], (job_state j) eqn:E'; simpl in *; try done; job_tac.
Qed.

Lemma fail_parent_ok j r now : job_ok j → is_terminal (job_state j) = false → job_ok (fail_parent j r now).
Proof. intros H E. destruct (job_state j) eqn:E'; try done; job_tac. Qed.

(** What [prepare_deduplicated_next_job] needs of a parked candidate. *)
Lemma state_after_dependencies_cases t now :
  state_after_dependencies t now = Waiting ∨ state_after_dependencies t now = Delayed.
Proof. unfold state_after_dependencies. destruct (_ <? _); auto. Qed.

Lemma prepare_next_ok j now : job_ok j → job_ok (prepare_deduplicated_next_job j now).
Proof.
  intros H. unfold prepare_deduplicated_next_job.
  match goal with |- context [state_after_dependencies ?t now] =>
    destruct (state_after_dependencies_cases t now) as [E|E]; rewrite E end; job_tac.
Qed.

Lemma prepare_next_id j now : job_id (prepare_deduplicated_next_job j now) = job_id j.
Proof. done. Qed.
Lemma prepare_next_seq j now :
  job_enqueued_seq (prepare_deduplicated_next_job j now) = job_enqueued_seq j.
Proof. done. Qed.

Lemma prepare_next_idle j now : job_state (prepare_deduplicated_next_job j now) ≠ Active.
Proof.
  simpl. match goal with |- context [state_after_dependencies ?t now] =>
    destruct (state_after_dependencies_cases t now) as [E|E]; rewrite E end; done.
Qed.

(** A freshly constructed job whose options were validated. *)
Lemma validate_job_id_nonempty i : validate_job_id i = Ok tt → i ≠ EmptyString.
Proof. intros H ->. done. Qed.

Lemma Job_new_ok queue name payload o now uuid :
  validate_options o = Ok tt → uuid ≠ EmptyString → job_ok (Job_new queue name payload o now uuid).
Proof.
  intros (Hp & _ & Hid & _)%validate_options_ok Hu. unfold Job_new.
  split; unfold lease_ok, finish_ok, deferred_ok; simpl.
  - destruct (opt_job_id o) as [i|] eqn:E; simpl; [|done]. by apply validate_job_id_nonempty, Hid.
  - done.
  - by destruct (_ <? _).
  - by destruct (_ <? _).
  - by destruct (_ <? _).
Qed.

Lemma Job_new_idle queue name payload o now uuid :
  job_state (Job_new queue name payload o now uuid) ≠ Active.
Proof. simpl. by destruct (_ <? _). Qed.

(** Updates that touch no field [job_ok] speaks of. *)
Lemma job_ok_transfer j j' : job_ok j → job_id j' = job_id j →
  job_priority j' = job_priority j → opt_priority (job_options j') = opt_priority (job_options j) →
  job_state j' = job_state j → job_worker_id j' = job_worker_id j →
  job_lock_token j' = job_lock_token j → job_lease_expires_at j' = job_lease_expires_at j →
  job_processed_at j' = job_processed_at j → job_finished_at j' = job_finished_at j →
  job_return_value j' = job_return_value j → job_failed_reason j' = job_failed_reason j →
  job_deferred_failure j' = job_deferred_failure j → job_ok j'.
Proof.
  intros [? [? ?] L F D] Hid Hp Ho Hs Hw Ht Hl Hpr Hf Hr Hfr Hdf.
  split; unfold lease_ok, finish_ok, deferred_ok in *;
    rewrite ?Hid, ?Hp, ?Ho, ?Hs, ?Hw, ?Ht, ?Hl, ?Hpr, ?Hf, ?Hr, ?Hfr, ?Hdf; done.
Qed.
End jobs.

(** ** Handlers

    [inv_auto] follows the control flow of a handler: it splits on every test,
    and asserts the invariant of every intermediate state from the lemma of the
    operation that produced it. *)
Ltac inv_on x :=
  lazymatch type of x with
  | prod QueueState _ =>
      let E := fresh "E" in let s' := fresh "s" in let r' := fresh "r" in
      destruct x as [s' r'] eqn:E;
      lazymatch goal with |- inv ?s0 _ =>
        let HI := fresh "HI" in
        assert (HI : inv s0 s');
        [ let E' := fresh "E" in
          pose proof (f_equal fst E) as E'; cbn [fst] in E'; rewrite <- E'; clear E E'; inv_auto
        | ]
      end
  | _ => let E := fresh "E" in destruct x eqn:E
  end
with inv_step :=
  lazymatch goal with
  | |- inv _ (fst (_, _)) => cbn [fst]
  | |- inv _ (fst (match ?x with _ => _ end)) => inv_on x
  | |- inv _ (match ?x with _ => _ end) => inv_on x
  end
with inv_auto := repeat inv_step; simplify_eq; eauto 4 with inv.

(** A stored job, with what the invariant says of it. *)
Ltac stored H j :=
  let Hid := fresh "Hid" in let Hok := fresh "Hok" in let Hsq := fresh "Hsq" in
  match goal with HI : inv _ ?s |- _ =>
    match type of H with jobs s !! _ = Some j =>
      destruct (inv_lookup _ _ _ _ HI H) as (Hid & Hok & Hsq) end end.

Section handlers.
Context {X : Ext} `{!ExtLaws X}.
Context (s0 : QueueState).
Implicit Types (s : QueueState) (j : Job).

(** *** Deduplication *)
Lemma inv_clear_owner s id : inv s0 s → inv s0 (clear_owner_expiration s id).
Proof.
  intros H. unfold clear_owner_expiration. destruct (jobs s !! id) as [j|] eqn:E; [|done].
  stored E j. eapply inv_put_same; eauto. by eapply job_ok_transfer.
Qed.
Hint Resolve inv_clear_owner : inv.

Lemma inv_store_next s c e : inv s0 s → parked_ok c → inv s0 (store_deduplicated_next_locked s c e).1.
Proof.
  intros H Hc. unfold store_deduplicated_next_locked. inv_auto.
  apply inv_clear_owner. by apply inv_set_next.
Qed.

Lemma inv_store_next_flow s f e : inv s0 s → parked_ok (flow_parent f) →
  Forall parked_ok (flow_children f) → inv s0 (store_deduplicated_next_flow_locked s f e).1.
Proof.
  intros H Hp Hc. unfold store_deduplicated_next_flow_locked. inv_auto.
  apply inv_clear_owner. by apply inv_set_next_flow.
Qed.

Lemma inv_extend s c id now : inv s0 s → inv s0 (extend_deduplication_expiration_locked s c id now).1.
Proof.
  intros H. unfold extend_deduplication_expiration_locked. inv_auto. stored E0 j.
  eapply inv_put_same; eauto. by eapply job_ok_transfer.
Qed.

Hint Resolve inv_extend : inv.

(** *** Inserting a job *)
Lemma inv_insert s j now : inv s0 s → job_ok j → job_state j ≠ Active →
  0 ≤ job_enqueued_seq j ≤ sequence s → inv s0 (insert_new_job s j now).1.
Proof.
  intros H Hok Hst Hsq. unfold insert_new_job, assign_waiting_order.
  set (s1 := forget_released_deduplication_owner_locked s j).
  assert (inv s0 s1) as H1 by (by apply inv_forget).
  assert (sequence s1 = sequence s) as Hs1.
  { unfold s1, forget_released_deduplication_owner_locked. by destruct (job_deduplication_id j). }
  clearbody s1. destruct (state_eqb (job_state j) Waiting) eqn:E.
  - pose proof (next_waiting_bound _ _ H1). pose proof (inv_next_waiting _ _ H1) as H2.
    destruct (next_waiting_sequence s1) as [s2 n] eqn:E2. cbn [fst snd] in *.
    apply inv_emit_created, inv_put_idle; try done. by eapply job_ok_transfer.
  - cbn [fst]. apply inv_emit_created, inv_put_idle; try done. by rewrite Hs1.
Qed.

Lemma inv_insert_parked s j now : inv s0 s → parked_ok j → job_state j ≠ Active →
  inv s0 (insert_new_job s j now).1.
Proof.
  intros H [Hok Hsq] Hst. apply inv_insert; try done. rewrite Hsq.
  destruct H as [[_ [??] _ _ _ _] _ _ _]. lia.
Qed.

Lemma add_child_id_ok j c : job_ok j → job_ok (add_child_id j c).
Proof. intros. unfold add_child_id. destruct (existsb _ _); [done|]. by eapply job_ok_transfer. Qed.

Lemma inv_enqueue_next s o now : inv s0 s → inv s0 (enqueue_deduplicated_next_locked s o now).1.
Proof.
  intros H. unfold enqueue_deduplicated_next_locked.
  destruct (job_deduplication_id o) as [d|]; [|done].
  destruct (deduplication_next s !! d) as [n|] eqn:En; [|done].
  destruct H as [W A S E] eqn:EH. destruct (wf_next _ W _ _ En) as [_ [Hok Hsq]]. clear EH.
  assert (inv s0 (s <| deduplication_next ::= delete d |>)) as H1 by (by apply inv_drop_next).
  generalize dependent (s <| deduplication_next ::= delete d |>). clear s W A S E En H. intros s H1.
  destruct (repeat_keep_last_next_count o n) as [rc|]; [|done].
  set (j := match rc with Some _ => _ | None => _ end).
  assert (job_ok j ∧ job_enqueued_seq j = 0 ∧ job_state j ≠ Active) as (Hj & Hj0 & Hja).
  { pose proof (prepare_next_ok n now Hok) as Hp. pose proof (prepare_next_idle n now) as Hi.
    pose proof (prepare_next_seq n now) as Hs. rewrite Hsq in Hs.
    unfold j. generalize dependent (prepare_deduplicated_next_job n now). intros n' Hp Hi Hs.
    destruct rc; [|done]. split; [by eapply job_ok_transfer|done]. }
  clearbody j. destruct (is_some (jobs s !! job_id j)); [done|].
  destruct (insert_new_job _ j now) as [s' j'] eqn:Es'. simpl.
  apply (f_equal fst) in Es'. simpl in Es'. subst s'. apply inv_insert_parked; [|done|done].
  destruct (job_parent_id j) as [p|]; [|done]. destruct (jobs s !! p) as [pj|] eqn:Ep; [|done].
  stored Ep pj. unfold add_child_id.
  destruct (existsb _ _); eapply inv_put_same; eauto. by eapply job_ok_transfer.
Qed.

Lemma inv_insert_all l now acc : inv s0 acc.1 → Forall (λ j, parked_ok j ∧ job_state j ≠ Active) l →
  inv s0 (foldl (λ '(s, acc) c, let '(s, c) := insert_new_job s c now in (s, acc ++ [c])) acc l).1.
Proof.
  revert acc. induction l as [|j l IH]; intros [s acc] H Hl; simpl in *; [done|].
  apply Forall_cons in Hl as [[? ?] ?]. apply IH; [|done].
  pose proof (inv_insert_parked s j now). destruct (insert_new_job s j now). simpl in *. auto.
Qed.

(** What a prepared candidate satisfies. *)
Definition fresh_ok j : Prop :=
  parked_ok j ∧ job_state j ≠ Active ∧ job_finished_at j = None ∧ job_return_value j = None
  ∧ job_deferred_failure j = None.

Lemma prepare_next_fresh j now : parked_ok j → fresh_ok (prepare_deduplicated_next_job j now).
Proof.
  intros [Hok Hsq]. split; [split; [by apply prepare_next_ok|exact Hsq]|].
  split; [apply prepare_next_idle|]. split_and!; reflexivity.
Qed.

Lemma as_flow_parent_fresh p l : fresh_ok p → parked_ok (as_flow_parent p l) ∧ job_state (as_flow_parent p l) ≠ Active.
Proof.
  intros ([Hok Hsq] & Hst & Hf & Hr & Hd). unfold as_flow_parent. destruct l as [|c l]; simpl.
  - split; [split; [by eapply job_ok_transfer|done]|done].
  - split; [split; [|done]|done]. destruct Hok as [? [??] L ? ?].
    split; unfold lease_ok, finish_ok, deferred_ok in *; simpl; try done.
    destruct (job_state p); tauto.
Qed.

Lemma as_flow_child_fresh pid c : fresh_ok c → parked_ok (as_flow_child pid c) ∧ job_state (as_flow_child pid c) ≠ Active.
Proof.
  intros ([Hok Hsq] & Hst & _). split; [split; [by eapply job_ok_transfer|done]|done].
Qed.

Lemma prepare_flow_parked f now : parked_ok (flow_parent f) → Forall parked_ok (flow_children f) →
  (parked_ok (flow_parent (prepare_deduplicated_next_flow f now)) ∧
   job_state (flow_parent (prepare_deduplicated_next_flow f now)) ≠ Active) ∧
  Forall (λ j, parked_ok j ∧ job_state j ≠ Active) (flow_children (prepare_deduplicated_next_flow f now)).
Proof.
  intros Hp Hc. split.
  - apply as_flow_parent_fresh, prepare_next_fresh, Hp.
  - cbn [flow_children prepare_deduplicated_next_flow]. apply Forall_fmap.
    eapply Forall_impl; [exact Hc|]. intros c Hcp. apply as_flow_child_fresh, prepare_next_fresh, Hcp.
Qed.

Lemma inv_enqueue_next_flow s o now : inv s0 s → inv s0 (enqueue_deduplicated_next_flow_locked s o now).1.
Proof.
  intros H. unfold enqueue_deduplicated_next_flow_locked.
  destruct (job_deduplication_id o) as [d|]; [|done].
  destruct (deduplication_next_flows s !! d) as [f|] eqn:Ef; [|done].
  destruct (wf_flows _ (inv_wf _ _ H) _ _ Ef) as (_ & Hp & Hc).
  destruct (prepare_flow_parked f now Hp Hc) as [[Hp' Hpa] Hc'].
  assert (inv s0 (s <| deduplication_next_flows ::= delete d |>)) as H1 by (by apply inv_drop_next_flow).
  generalize dependent (s <| deduplication_next_flows ::= delete d |>). clear s Ef H. intros s H1.
  destruct (_ || _); [done|]. cbn zeta. generalize dependent (prepare_deduplicated_next_flow f now).
  intros f' Hp' Hpa Hc'.
  pose proof (inv_insert_parked s (flow_parent f') now H1 Hp' Hpa) as H2.
  destruct (insert_new_job s (flow_parent f') now) as [s1 p1]. simpl in H2.
  pose proof (inv_insert_all (flow_children f') now (s1, []) H2 Hc') as H3.
  by destruct (foldl _ _ _).
Qed.

Lemma inv_enqueue_parked s o now : inv s0 s → inv s0 (enqueue_parked s o now).1.
Proof.
  intros H. unfold enqueue_parked. pose proof (inv_enqueue_next s o now H) as H1.
  destruct (enqueue_deduplicated_next_locked s o now) as [s1 [j|]]; simpl in *; [done|].
  pose proof (inv_enqueue_next_flow s1 o now H1) as H2.
  by destruct (enqueue_deduplicated_next_flow_locked s1 o now) as [s2 [f|]].
Qed.
Hint Resolve inv_enqueue_next inv_enqueue_next_flow inv_enqueue_parked : inv.

(** *** The dependency index *)
Lemma index_is_empty_spec i : index_is_empty i = true ↔
  fi_processed i = ∅ ∧ fi_ignored i = ∅ ∧ fi_failed i = ∅.
Proof.
  unfold index_is_empty. rewrite !andb_true_iff, !bool_decide_eq_true, !map_size_empty_iff. tauto.
Qed.

Lemma index_nonempty i c : is_Some (fi_processed i !! c) ∨ is_Some (fi_ignored i !! c) ∨ c ∈ fi_failed i →
  index_is_empty i = false.
Proof.
  intros H. apply not_true_is_false. intros (E1 & E2 & E3)%index_is_empty_spec.
  rewrite E1, E2, E3 in H. rewrite !lookup_empty in H.
  destruct H as [[? ?]|[[? ?]|?]]; [done|done|set_solver].
Qed.

Lemma inv_update_index s p f : inv s0 s → is_Some (jobs s !! p) →
  (∀ i, index_ok i ∨ i = empty_index → index_ok (f i)) → inv s0 (update_index s p f).
Proof.
  intros H Hp Hf. unfold update_index.
  apply (inv_set_index s0 s p (f (unwrap_or (flow_dependencies s !! p) empty_index))); [done|done|].
  apply Hf. destruct (flow_dependencies s !! p) as [i|] eqn:E; simpl; [left|by right].
  by destruct (wf_index _ (inv_wf _ _ H) _ _ E).
Qed.

(** Putting a child in one bucket and out of the two others. *)
Ltac bucket_tac c :=
  intros i Hi; split; simpl;
  [ apply (index_nonempty _ c); simpl; rewrite ?lookup_insert_eq;
    solve [by eauto | right; by eauto | right; right; set_solver]
  | .. ];
  intros c' Hc';
  destruct (decide (c = c')) as [<-|];
  rewrite ?lookup_insert_eq, ?lookup_delete_eq, ?lookup_insert_ne, ?lookup_delete_ne in * by done;
  try (by destruct Hc'); try set_solver;
  destruct Hi as [[_ H1 H2 H3]| ->]; simpl in *;
  rewrite ?lookup_empty in *; try (by destruct Hc'); try set_solver; eauto.

Lemma inv_record_completed s p c v : inv s0 s → is_Some (jobs s !! p) →
  inv s0 (record_completed_child_dependency_locked s p c v).
Proof. intros H Hp. apply inv_update_index; [done|done|]. bucket_tac c. Qed.

Lemma inv_record_ignored s p c r : inv s0 s → is_Some (jobs s !! p) →
  inv s0 (record_ignored_child_dependency_locked s p c r).
Proof. intros H Hp. apply inv_update_index; [done|done|]. bucket_tac c. Qed.

Lemma inv_record_failed s p c : inv s0 s → is_Some (jobs s !! p) →
  inv s0 (record_failed_child_dependency_locked s p c).
Proof. intros H Hp. apply inv_update_index; [done|done|]. bucket_tac c. Qed.
Hint Resolve inv_record_completed inv_record_ignored inv_record_failed : inv.

Lemma inv_clear_index s p c : inv s0 s → inv s0 (clear_child_dependency_side_index_locked s p c).1.
Proof.
  intros H. unfold clear_child_dependency_side_index_locked.
  destruct (flow_dependencies s !! p) as [i|] eqn:Ei; [|done].
  destruct (wf_index _ (inv_wf _ _ H) _ _ Ei) as [Hp [_ H1 H2 H3]].
  destruct (clear_index i c) as [i' r] eqn:Ec. destruct (index_is_empty i') eqn:Ee; simpl.
  { by apply inv_drop_index. }
  apply inv_set_index; [done|done|].
  unfold clear_index in Ec. split; [done|..];
    destruct (is_some (fi_processed i !! c)), (is_some (fi_ignored i !! c)); simplify_eq; simpl;
    intros c' Hc'; try (apply lookup_delete_is_Some in Hc' as [? Hc']);
    repeat match goal with |- delete _ _ !! _ = None => apply lookup_delete_None; right end;
    try (apply not_elem_of_difference; left); eauto.
Qed.
Hint Resolve inv_clear_index : inv.

Lemma inv_record_terminal s p j : inv s0 s → inv s0 (record_terminal_child_dependency_locked s p j).
Proof.
  intros H. unfold record_terminal_child_dependency_locked.
  destruct (jobs s !! p) as [pj|] eqn:Ep; [|done]. assert (is_Some (jobs s !! p)) by eauto. inv_auto.
Qed.

Lemma inv_record_finished s j : inv s0 s → inv s0 (record_finished s j).
Proof. intros H. unfold record_finished. destruct (job_parent_id j); [|done]. by apply inv_record_terminal. Qed.

Lemma inv_retention s st r now : inv s0 s → inv s0 (apply_finished_retention_locked s st r now).
Proof.
  intros H. unfold apply_finished_retention_locked, apply_count_retention.
  assert (inv s0 (apply_age_retention s st r now)) as H1 by (unfold apply_age_retention; inv_auto).
  destruct (ret_count r); eauto with inv.
Qed.

Lemma inv_retain s id b r st now : inv s0 s → inv s0 (retain_finished s id b r st now).
Proof.
  intros H. unfold retain_finished. destruct b; [by apply inv_remove|].
  destruct r; [by apply inv_retention|done].
Qed.
Hint Resolve inv_record_terminal inv_record_finished inv_retention inv_retain : inv.

(** *** Parents *)
Lemma waiting_sequence_if_spec s st : inv s0 s →
  inv s0 (waiting_sequence_if s st).1 ∧ jobs (waiting_sequence_if s st).1 = jobs s ∧
  sequence s ≤ sequence (waiting_sequence_if s st).1 ∧
  (∀ n, (waiting_sequence_if s st).2 = Some n → 0 ≤ n ≤ sequence (waiting_sequence_if s st).1).
Proof.
  intros H. unfold waiting_sequence_if. destruct (state_eqb st Waiting).
  - pose proof (next_waiting_bound _ _ H). pose proof (inv_next_waiting _ _ H).
    destruct H as [[_ [??] _ _ _ _] _ _ _].
    split_and!; try done; simpl in *.
    + unfold sat_add in *. lia.
    + intros n [= <-]. lia.
  - split_and!; simpl; try done; lia.
Qed.

(** The shared tail of the handlers that resume a parent: draw a sequence
    number if it becomes waiting, store it, report it. *)
Definition resume_in s (id : string) (parent : Job) (st : JobState) (deferred : option string)
    (prev : JobState) (now : DateTime) : QueueState :=
  let '(s, seq) := waiting_sequence_if s st in
  let parent := resume_parent parent st deferred seq in
  emit_event_locked (put_job s id parent) (job_event_for_state (job_state parent)) (Some parent)
    (Some prev) now ∅.

Lemma resume_parent_seq j st d n : job_enqueued_seq (resume_parent j st d n) = unwrap_or n (job_enqueued_seq j).
Proof. by destruct n. Qed.
Lemma resume_parent_id j st d n : job_id (resume_parent j st d n) = job_id j.
Proof. by destruct n. Qed.
Lemma resume_parent_state j st d n : job_state (resume_parent j st d n) = st.
Proof. by destruct n. Qed.

Lemma inv_resume s id parent t deferred prev now : inv s0 s → jobs s !! id = Some parent →
  is_terminal (job_state parent) = false →
  inv s0 (resume_in s id parent (state_after_dependencies t now) deferred prev now).
Proof.
  intros H Hp Ht. unfold resume_in. stored Hp parent.
  set (st := state_after_dependencies t now).
  assert (st = Waiting ∨ st = Delayed) as Hst by apply state_after_dependencies_cases.
  clearbody st. destruct (waiting_sequence_if_spec s st H) as (H1 & _ & Hle & Hn).
  destruct (waiting_sequence_if s st) as [s1 n]. simpl in *. apply inv_emit, inv_put_idle.
  - done.
  - by apply resume_parent_ok.
  - by rewrite resume_parent_id.
  - rewrite resume_parent_seq. destruct n as [n|]; simpl; [by apply Hn|lia].
  - rewrite resume_parent_state. by destruct Hst as [-> | ->].
Qed.

Lemma inv_defer_parent s p c now : inv s0 s →
  inv s0 (defer_parent_failure_after_child_failure_locked s p c now).1.
Proof.
  intros H. unfold defer_parent_failure_after_child_failure_locked.
  destruct (jobs s !! p) as [pj|] eqn:Ep; [|done].
  destruct (is_terminal (job_state pj)) eqn:Et; [done|].
  pose proof (inv_resume s p pj (job_scheduled_at pj)
    (Some ("child job " +:+ c +:+ " failed")) (job_state pj) now H Ep Et) as HR.
  unfold resume_in in HR. by destruct (waiting_sequence_if _ _).
Qed.

Lemma inv_continue_parent s p now : inv s0 s →
  inv s0 (continue_parent_after_child_failure_locked s p now).1.
Proof.
  intros H. unfold continue_parent_after_child_failure_locked.
  destruct (jobs s !! p) as [pj|] eqn:Ep; [|done].
  destruct (negb _) eqn:Et; [done|]. states.
  pose proof (inv_resume s p pj (job_scheduled_at pj) None WaitingChildren now H Ep) as HR.
  rewrite Et in HR. specialize (HR eq_refl).
  unfold resume_in in HR. by destruct (waiting_sequence_if _ _).
Qed.

Lemma inv_fail_parent s p r now : inv s0 s → inv s0 (fail_waiting_parent_locked s p r now).1.
Proof.
  intros H. unfold fail_waiting_parent_locked.
  destruct (jobs s !! p) as [pj|] eqn:Ep; [|done].
  destruct (is_terminal (job_state pj)) eqn:Et; [done|]. stored Ep pj.
  assert (inv s0 (put_job s p (fail_parent pj r now))) as H1.
  { apply inv_put_idle; [done|by apply fail_parent_ok|done|done|done]. }
  generalize dependent (put_job s p (fail_parent pj r now)). intros s1 H1. cbn zeta. cbn [fst].
  apply inv_emit. destruct (removes_failed_immediately _); [by apply inv_remove|].
  destruct (failed_retention _); [by apply inv_retention|done].
Qed.

Lemma inv_release_parent s p now : inv s0 s → inv s0 (release_parent_if_ready_locked s p now).1.
Proof.
  intros H. unfold release_parent_if_ready_locked.
  destruct (jobs s !! p) as [pj|] eqn:Ep; [|done].
  destruct (negb _) eqn:Et; [done|]. states.
  destruct (scan_children _ _ _ _) as [|[c|] [[c' r]|]]; [done| | | |].
  - by apply inv_defer_parent.
  - by apply inv_defer_parent.
  - by apply inv_fail_parent.
  - pose proof (inv_resume s p pj (job_scheduled_at pj) None WaitingChildren now H Ep) as HR.
    rewrite Et in HR. specialize (HR eq_refl).
    unfold resume_in in HR. by destruct (waiting_sequence_if _ _).
Qed.
Hint Resolve inv_defer_parent inv_continue_parent inv_fail_parent inv_release_parent : inv.

(** Going back to waiting for children. *)
Lemma waiting_for_children_ok j : job_ok j → is_terminal (job_state j) = false →
  job_ok (waiting_for_children j).
Proof. intros H E. destruct (job_state j) eqn:E'; try done; job_tac. Qed.

Lemma clear_index_jobs s p c : jobs (clear_child_dependency_side_index_locked s p c).1 = jobs s ∧
  sequence (clear_child_dependency_side_index_locked s p c).1 = sequence s.
Proof.
  unfold clear_child_dependency_side_index_locked. destruct (flow_dependencies s !! p); [|done].
  destruct (clear_index _ _). by destruct (index_is_empty _).
Qed.

Lemma inv_restore_parent s p c now : inv s0 s →
  inv s0 (restore_parent_dependency_after_child_retry_locked s p c now).1.
Proof.
  intros H. unfold restore_parent_dependency_after_child_retry_locked.
  destruct (jobs s !! p) as [pj|] eqn:Ep; [|done].
  destruct (_ || _) eqn:Et; [done|]. bools.
  destruct (negb _); [done|]. stored Ep pj.
  pose proof (inv_clear_index s p c H) as HC. destruct (clear_index_jobs s p c) as [Hj Hs].
  generalize dependent (clear_child_dependency_side_index_locked s p c).1. intros s1 HC Hj Hs.
  set (pj' := clear_lease _). assert (job_ok pj') by by apply (waiting_for_children_ok pj).
  assert (inv s0 (put_job s1 p pj')) as HP by (apply inv_put_idle; try done; by rewrite Hs).
  clearbody pj'. cbn zeta. destruct (state_eqb (job_state pj) WaitingChildren); cbn [fst]; eauto with inv.
Qed.
Hint Resolve inv_restore_parent : inv.
End handlers.

#[export] Hint Resolve inv_clear_owner inv_extend inv_enqueue_next inv_enqueue_next_flow
  inv_enqueue_parked inv_record_completed inv_record_ignored inv_record_failed inv_clear_index
  inv_record_terminal inv_record_finished inv_retention inv_retain inv_defer_parent inv_continue_parent
  inv_fail_parent inv_release_parent inv_restore_parent : inv.
