(* ===== verification/JobHandlers.v ===== *)
(** * Lifecycle, administrative and submission handlers preserve the invariant *)
From S2P Require Import Prelude Ordering Text External Retry JobTypes JobStore.
From S2P Require Import JobDedup JobFlows JobCore JobQueries JobAdmin JobAdd JobInvariant.
From S2P Require Import JobPreserve.
Local Open Scope Z_scope.

(** ** Promotion of due jobs, exactly *)
Section promotion.
Context {X : Ext} `{!ExtLaws X}.
Implicit Types (s : QueueState) (j : Job).

Definition promoted_job (j : Job) (n : Z) : Job := j <| job_state := Waiting |> <| job_enqueued_seq := n |>.

Lemma promoted_ok j n : job_ok j → job_state j = Delayed → job_ok (promoted_job j n).
Proof. intros H E. unfold promoted_job. job_tac. Qed.

(** One promotion of a job that is stored as selected. *)
Lemma promote_one_spec s0 s n now j : inv s0 s → jobs s !! job_id j = Some j → job_state j = Delayed →
  let s' := (promote_one now (s, n) j).1 in
  inv s0 s' ∧ jobs s' = <[ job_id j := promoted_job j (sat_add U64_MAX (sequence s) 1) ]> (jobs s) ∧
  sequence s' = sat_add U64_MAX (sequence s) 1 ∧ paused s' = paused s ∧
  (promote_one now (s, n) j).2 = S n.
Proof.
  intros H Hj Hst. unfold promote_one. simpl. rewrite Hj. simpl. stored Hj j.
  split; [|rewrite emit_event_frame; by split_and!].
  pose proof (inv_next_waiting s0 s H) as H1. pose proof (next_waiting_bound s0 s H) as Hb.
  simpl in *. apply inv_emit, inv_put_idle; [done|by apply promoted_ok|done|done|done].
Qed.

Lemma promote_all_spec s0 now l s n : inv s0 s →
  (∀ j, j ∈ l → jobs s !! job_id j = Some j ∧ job_state j = Delayed) → NoDup (job_id <$> l) →
  let s' := (foldl (promote_one now) (s, n) l).1 in
  inv s0 s' ∧ paused s' = paused s ∧
  (foldl (promote_one now) (s, n) l).2 = (n + length l)%nat ∧
  sequence s' = Z.min U64_MAX (sequence s + Z.of_nat (length l)) ∧
  (∀ id, id ∉ job_id <$> l → jobs s' !! id = jobs s !! id) ∧
  (∀ i j, l !! i = Some j →
     jobs s' !! job_id j = Some (promoted_job j (Z.min U64_MAX (sequence s + 1 + Z.of_nat i)))).
Proof.
  revert s n. induction l as [|j l IH]; intros s n H Hl Hnd; cbn [foldl].
  { destruct H as [[? [??] ? ? ? ?] ? ? ?]. simpl. split_and!; first [done|lia|by intros ??; rewrite lookup_nil]. }
  rewrite fmap_cons in *. apply NoDup_cons in Hnd as [Hnj Hnd]. cbn [length].
  destruct (Hl j) as [Hj Hst]; [set_solver|].
  pose proof (promote_one_spec s0 s n now j H Hj Hst) as (H1 & Hjobs & Hseq & Hp & Hcount).
  destruct (promote_one now (s, n) j) as [s1 n1]. cbn [fst snd] in *. subst n1.
  destruct (IH s1 (S n) H1) as (HI & Hp' & Hc' & Hs' & Hout & Hin); [|done|].
  { intros j' Hj'. rewrite Hjobs, lookup_insert_ne; [apply Hl; set_solver|].
    intros Heq. apply Hnj. rewrite Heq. by apply list_elem_of_fmap_2. }
  unfold sat_add in *. split_and!; [done|congruence|lia|lia|..].
  - intros id Hid. rewrite Hout, Hjobs, lookup_insert_ne; set_solver.
  - intros [|i] j' Hi; simpl in Hi.
    + simplify_eq. rewrite Hout, Hjobs, lookup_insert_eq by done.
      by replace (sequence s + 1 + Z.of_nat 0) with (sequence s + 1) by lia.
    + rewrite (Hin _ _ Hi). f_equal. f_equal. lia.
Qed.

Lemma elem_of_due_jobs s now j : wf s →
  j ∈ due_jobs s now ↔ jobs s !! job_id j = Some j ∧ job_state j = Delayed ∧ job_scheduled_at j ≤ now.
Proof.
  intros W. unfold due_jobs. rewrite elem_of_selection by done.
  rewrite andb_true_iff, state_eqb_true, Z.leb_le. done.
Qed.

(** The state after promotion: every due job is waiting, in due order behind
    the jobs that were waiting; nothing else changed. *)
Lemma promote_due_spec s0 s now : inv s0 s →
  let s' := (promote_due_locked s now).1 in
  inv s0 s' ∧ paused s' = paused s ∧
  (promote_due_locked s now).2 = length (due_jobs s now) ∧
  (∀ id j, jobs s !! id = Some j → ¬ (job_state j = Delayed ∧ job_scheduled_at j ≤ now) →
     jobs s' !! id = Some j) ∧
  (∀ i j, due_jobs s now !! i = Some j →
     jobs s' !! job_id j = Some (promoted_job j (Z.min U64_MAX (sequence s + 1 + Z.of_nat i)))) ∧
  (∀ id, jobs s !! id = None → jobs s' !! id = None).
Proof.
  intros H. pose proof (inv_wf _ _ H) as W. unfold promote_due_locked.
  destruct (promote_all_spec s0 now (due_jobs s now) s 0 H) as (HI & Hp & Hc & _ & Hout & Hin).
  { intros j (? & ? & _)%elem_of_due_jobs; done. }
  { by apply selection_ids_NoDup. }
  assert (∀ id, (∀ j, jobs s !! id = Some j → ¬ (job_state j = Delayed ∧ job_scheduled_at j ≤ now)) →
                id ∉ job_id <$> due_jobs s now) as Hnot.
  { intros id Hn (j & -> & (Hj & ?)%elem_of_due_jobs)%list_elem_of_fmap; [|done]. by eapply Hn. }
  split_and!; [done|done|done| |exact Hin|].
  - intros id j Hj Hn. rewrite Hout; [done|]. apply Hnot. intros j' Hj'. by simplify_eq.
  - intros id Hj. rewrite Hout; [done|]. apply Hnot. intros j' Hj'. by simplify_eq.
Qed.

Lemma inv_promote_due s0 s now : inv s0 s → inv s0 (promote_due_locked s now).1.
Proof. intros H. by destruct (promote_due_spec s0 s now H). Qed.
End promotion.
#[export] Hint Resolve inv_promote_due : inv.

(** ** Lifecycle *)
Section core.
Context {X : Ext} `{!ExtLaws X}.
Context (s0 : QueueState).
Implicit Types (s : QueueState) (j : Job).

Lemma inv_put_moved s id j j' : inv s0 s → jobs s !! id = Some j → job_ok j' → job_id j' = job_id j →
  job_enqueued_seq j' = job_enqueued_seq j → job_state j' ≠ Active → inv s0 (put_job s id j').
Proof. intros H Hj ? ? Hsq ?. stored Hj j. apply inv_put_idle; try done; congruence || lia. Qed.

Lemma next_repeat_ok j now uuid n : job_ok j → uuid ≠ EmptyString →
  next_repeat_job j now uuid = Ok (Some n) → job_ok n ∧ job_enqueued_seq n = 0 ∧ job_state n ≠ Active.
Proof.
  intros [Hid [Hp1 Hp2] _ _ _] Hu. unfold next_repeat_job.
  destruct (opt_repeat (job_options j)) as [r|]; [|done].
  destruct (match rep_limit r with Some _ => _ | None => _ end); [done|].
  intros ([t|] & _ & H)%try_bind_ok; [|done].
  destruct (match rep_end_at r with Some _ => _ | None => _ end); [done|]. simplify_eq.
  destruct (state_after_dependencies_cases t now) as [E|E]; rewrite E;
    (split; [split; unfold lease_ok, finish_ok, deferred_ok; simpl; try done|done]); lia.
Qed.

Lemma inv_next_repeat s j now uuid : inv s0 s → job_ok j → uuid ≠ EmptyString →
  inv s0 (enqueue_next_repeat s j now uuid).1.
Proof.
  intros H Hj Hu. unfold enqueue_next_repeat.
  destruct (next_repeat_job j now uuid) as [[n|]|] eqn:En; [|done..].
  destruct (next_repeat_ok _ _ _ _ Hj Hu En) as (? & Hsq & ?). simpl.
  apply inv_insert_parked; [done|by split|done].
Qed.

(** What follows the guards of a completion, from the state with the job completed. *)
Lemma complete_from s id t v now uuid j : uuid ≠ EmptyString → jobs s !! id = Some j → job_ok j →
  inv s0 (put_job s id (completed_job j v now)) →
  let r := complete_job s id t v now uuid in
  (r.1 = s ∧ is_ok r.2 = false) ∨
  (owned_by j t ∧ inv s0 r.1 ∧ (r.2 = Ok (completed_job j v now) ∨ is_ok r.2 = false)).
Proof.
  intros Hu Ej Hok H1 r. subst r. unfold complete_job, owned_by. rewrite Ej.
  pose proof (completed_ok j v now Hok) as Hc.
  destruct (require_active j "complete") as [[]|] eqn:Ha; [|by left]. apply require_active_ok in Ha.
  destruct (require_lock_token j t) as [[]|] eqn:Ht; [|by left]. apply require_lock_token_ok in Ht.
  destruct (ensure_flow_dependencies_are_resolved _ _ _ _); [right|by left].
  split; [done|]. clear Ha Ht.
  generalize dependent (completed_job j v now). intros c H1 Hc.
  generalize dependent (put_job s id c). intros s1 H1. cbn zeta.
  pose proof (inv_enqueue_parked s0 _ c now
    (inv_retain s0 _ id (removes_completed_immediately (job_options c)) (completed_retention (job_options c))
       Completed now (inv_record_finished s0 s1 c H1))) as H2.
  destruct (enqueue_parked _ c now) as [s2 b]. cbn [fst] in H2.
  assert (inv s0 (if b then (s2, Ok tt : Result unit) else enqueue_next_repeat s2 c now uuid).1) as H3.
  { destruct b; [done|]. by apply inv_next_repeat. }
  destruct (if b then _ else _) as [s3 [[]|e]]; cbn [fst snd] in *; [|split; [done|by right]].
  split; [|by left]. apply inv_emit_drained, inv_emit. destruct (job_parent_id c); eauto with inv.
Qed.

Lemma inv_complete s id t v now uuid : uuid ≠ EmptyString → inv s0 s →
  inv s0 (complete_job s id t v now uuid).1.
Proof.
  intros Hu H. destruct (jobs s !! id) as [j|] eqn:Ej; [|unfold complete_job; by rewrite Ej].
  stored Ej j. pose proof (completed_ok j v now Hok) as Hc.
  destruct (complete_from s id t v now uuid j) as [[-> _]|(_ & HI & _)]; try done. by eapply inv_put_moved.
Qed.

Lemma inv_propagate s p j now : inv s0 s → inv s0 (propagate_child_failure s p j now).
Proof. intros H. unfold propagate_child_failure. inv_auto. Qed.
Hint Resolve inv_propagate : inv.

Lemma inv_settle_failed s id j now : inv s0 s → inv s0 (settle_failed s id j now).
Proof. intros H. unfold settle_failed. destruct (job_parent_id j); eauto 6 with inv. Qed.

(** What follows the guards of a failure, from the state with the job failed. *)
Lemma fail_from s id t e now b j : jobs s !! id = Some j →
  inv s0 (put_job s id (failed_attempt j e now b)) →
  let r := fail_active_job s id t e now b in
  (r.1 = s ∧ is_ok r.2 = false) ∨
  (owned_by j t ∧ inv s0 r.1 ∧ r.2 = Ok (failed_attempt j e now b)).
Proof.
  intros Ej H1 r. subst r. unfold fail_active_job, owned_by. rewrite Ej.
  destruct (require_active j "fail") as [[]|] eqn:Ha; [|by left]. apply require_active_ok in Ha.
  destruct (require_lock_token j t) as [[]|] eqn:Ht; [|by left]. apply require_lock_token_ok in Ht.
  right. split; [done|]. clear Ha Ht.
  generalize dependent (failed_attempt j e now b). intros f H1.
  generalize dependent (put_job s id f). intros s1 H1. cbn zeta. cbn [fst snd]. split; [|done].
  assert (inv s0 (if state_eqb (job_state f) Failed then settle_failed s1 id f now else s1)) as H2.
  { destruct (state_eqb _ _); [by apply inv_settle_failed|done]. }
  generalize dependent (if state_eqb (job_state f) Failed then settle_failed s1 id f now else s1).
  intros s2 H2. destruct (retries_exhausted f), (state_eqb (job_state f) Failed); eauto with inv.
Qed.

Lemma inv_put_failed s id e now b j : inv s0 s → jobs s !! id = Some j → job_state j = Active →
  inv s0 (put_job s id (failed_attempt j e now b)).
Proof.
  intros H Ej Ha. stored Ej j. pose proof (failed_attempt_ok j e now b Hok Ha).
  eapply inv_put_moved; try done; [| |apply failed_attempt_idle];
    unfold failed_attempt; by destruct (b && _).
Qed.

Lemma inv_fail s id t e now b : inv s0 s → inv s0 (fail_active_job s id t e now b).1.
Proof.
  intros H. destruct (jobs s !! id) as [j|] eqn:Ej; [|unfold fail_active_job; by rewrite Ej].
  destruct (decide (job_state j = Active)) as [Ha|Hn].
  - by destruct (fail_from s id t e now b j Ej (inv_put_failed _ _ _ _ _ _ H Ej Ha)) as [[-> _]|(_ & HI & _)].
  - unfold fail_active_job. rewrite Ej. destruct (require_active j "fail") as [[]|] eqn:Ea; [|done].
    by apply require_active_ok in Ea.
Qed.

(** A guarded update of an active job by its owner. *)
Ltac owned j :=
  lazymatch goal with |- context [require_active j ?a] =>
    let Ha := fresh "Ha" in
    destruct (require_active j a) as [[]|] eqn:Ha; [|done]; apply require_active_ok in Ha end;
  lazymatch goal with |- context [require_lock_token j ?t] =>
    destruct (require_lock_token j t); [|done] end.

Definition renewed_job j (l : Duration) (now : DateTime) : Job :=
  j <| job_lease_expires_at := Some (add_duration now l) |>.

Lemma renew_cases s id t l now :
  ((renew s id t l now).1 = s ∧ ∃ e, (renew s id t l now).2 = Err e) ∨
  ∃ j, jobs s !! id = Some j ∧ owned_by j t ∧
    renew s id t l now = (put_job s id (renewed_job j l now), Ok (renewed_job j l now)).
Proof.
  unfold renew. destruct (jobs s !! id) as [j|] eqn:Ej; [|left; by eauto].
  destruct (require_active j "renew lease") as [[]|] eqn:Ea; [|left; by eauto].
  destruct (require_lock_token j t) as [[]|] eqn:Et; [|left; by eauto].
  apply require_active_ok in Ea. apply require_lock_token_ok in Et. right. by exists j.
Qed.

Lemma wf_renew s id t l now : wf s → wf (renew s id t l now).1.
Proof.
  intros W. destruct (renew_cases s id t l now) as [[-> _]|(j & Ej & [Ha _] & ->)]; [done|].
  destruct (wf_lookup s W _ _ Ej) as (Hid & Hok & Hsq). apply wf_put; try done.
  unfold renewed_job. job_tac.
Qed.

Lemma inv_delay_active s id t d now : inv s0 s → inv s0 (delay_active s id t d now).1.
Proof.
  intros H. unfold delay_active. destruct (jobs s !! id) as [j|] eqn:Ej; [|done]. owned j. stored Ej j.
  apply inv_emit. apply (inv_put_moved s id j); try done. by apply delayed_active_ok.
Qed.

Lemma inv_release_active s id t now : inv s0 s → inv s0 (release_active s id t now).1.
Proof.
  intros H. unfold release_active. destruct (jobs s !! id) as [j|] eqn:Ej; [|done]. owned j. stored Ej j.
  apply inv_emit, inv_put_idle; try done; [by apply released_ok|].
  simpl. destruct H as [[_ [??] _ _ _ _] _ _ _]. lia.
Qed.

(** Storing a job that drew a number from the sequence. *)
Lemma inv_put_sequenced s id j : inv s0 s → job_ok j → job_id j = id → job_state j ≠ Active →
  job_enqueued_seq j = (next_waiting_sequence s).2 → inv s0 (put_job (next_waiting_sequence s).1 id j).
Proof.
  intros H Hok Hid Hst Hsq. pose proof (inv_next_waiting s0 s H). pose proof (next_waiting_bound s0 s H).
  apply inv_put_idle; try done. by rewrite Hsq.
Qed.

Lemma inv_promote s id now : inv s0 s → inv s0 (promote s id now).1.
Proof.
  intros H. unfold promote. destruct (jobs s !! id) as [j|] eqn:Ej; [|done].
  destruct (negb _) eqn:E; [done|]. states. stored Ej j.
  rewrite (surjective_pairing (next_waiting_sequence s)). cbn zeta. cbn [fst].
  apply inv_emit, inv_put_sequenced; try done. job_tac.
Qed.

Lemma inv_reschedule s id d now : inv s0 s → inv s0 (reschedule s id d now).1.
Proof.
  intros H. unfold reschedule. destruct (is_zero_duration d); [done|].
  destruct (jobs s !! id) as [j|] eqn:Ej; [|done].
  destruct (negb _) eqn:E; [done|]. states. stored Ej j.
  apply inv_emit, (inv_put_same s0 s id j); try done. by eapply job_ok_transfer.
Qed.

Lemma inv_retry s id now : inv s0 s → inv s0 (retry s id now).1.
Proof.
  intros H. unfold retry. destruct (jobs s !! id) as [j|] eqn:Ej; [|done].
  destruct (negb _) eqn:E; [done|]. bools. stored Ej j.
  destruct (retry_conflict s id j now); [|done].
  set (s1 := match job_deduplication_id j with Some _ => _ | None => s end).
  assert (inv s0 s1) as H1 by (unfold s1; destruct (job_deduplication_id j); eauto with inv).
  clearbody s1. rewrite (surjective_pairing (next_waiting_sequence s1)). cbn zeta. cbn [fst].
  pose proof (retried_ok j now (next_waiting_sequence s1).2 Hok E) as Hr.
  assert (inv s0 (put_job (next_waiting_sequence s1).1 id (retried_job j now (next_waiting_sequence s1).2))).
  { by apply inv_put_sequenced. }
  generalize dependent (retried_job j now (next_waiting_sequence s1).2). intros r Hr H2.
  destruct (job_parent_id j); eauto with inv.
Qed.

Lemma prioritised_frame j p l n :
  job_id (prioritised j p l n) = job_id j ∧ job_state (prioritised j p l n) = job_state j ∧
  lease_of (prioritised j p l n) = lease_of j ∧
  job_enqueued_seq (prioritised j p l n) = unwrap_or n (job_enqueued_seq j).
Proof. by destruct n, l. Qed.

Lemma inv_set_priority s id p l : inv s0 s → inv s0 (set_priority_order s id p l).1.
Proof.
  intros H. unfold set_priority_order. destruct (validate_job_priority p) as [[]|] eqn:Ev; [|done].
  apply validate_job_priority_ok in Ev. destruct (jobs s !! id) as [j|] eqn:Ej; [|done]. stored Ej j.
  destruct (waiting_sequence_if_spec s0 s (job_state j) H) as (H1 & Hjobs & Hle & Hn).
  destruct (waiting_sequence_if s (job_state j)) as [s1 n]. cbn [fst snd] in *. cbn zeta.
  pose proof (prioritised_ok j p l n Hok Ev) as Hp.
  destruct (prioritised_frame j p l n) as (Hpid & Hpst & Hpl & Hps).
  generalize dependent (prioritised j p l n). intros j' Hp Hpid Hpst Hpl Hps.
  apply inv_put; [done|done|congruence| |].
  - rewrite Hps. destruct n as [n|]; simpl; [by apply Hn|lia].
  - intros Ha. rewrite Hpst in Ha. destruct (inv_active _ _ H _ _ Ej Ha) as (j0 & ? & ? & ?).
    exists j0. split_and!; congruence.
Qed.

(** *** Claim: the one handler that activates a job *)
Lemma elem_of_waiting s j : wf s →
  j ∈ List.filter (λ j, state_eqb (job_state j) Waiting) (hash_values (jobs s)) ↔
  jobs s !! job_id j = Some j ∧ job_state j = Waiting.
Proof.
  intros W. rewrite list_elem_of_In, List.filter_In, <- list_elem_of_In, elem_of_stored by done.
  by rewrite state_eqb_true.
Qed.

Lemma select_next_spec s j : wf s → select_next s = Some j →
  jobs s !! job_id j = Some j ∧ job_state j = Waiting ∧
  ∀ j', jobs s !! job_id j' = Some j' → job_state j' = Waiting → cmp_le compare_claim_order j j'.
Proof.
  intros W Hs. unfold select_next in Hs.
  pose proof (min_by_elem _ _ _ Hs) as Hin. apply elem_of_waiting in Hin as [? ?]; [|done].
  split_and!; [done|done|]. intros j' ? ?. apply (min_by_le _ _ _ _ Hs). by apply elem_of_waiting.
Qed.

Lemma wf_claim s w l now t : wf s → wf (claim_next s w l now t).1.
Proof.
  intros W. unfold claim_next. destruct (paused s); [done|].
  pose proof (inv_wf _ _ (inv_promote_due s s now (inv_refl s W))) as W1.
  destruct (promote_due_locked s now) as [s1 n]. cbn [fst] in *. cbn zeta.
  destruct (select_next s1) as [j|] eqn:Es; [|done].
  destruct (select_next_spec _ _ W1 Es) as (Hj & Hst & _). rewrite Hj.
  destruct (wf_lookup s1 W1 _ _ Hj) as (Hid & Hok & Hsq).
  apply (inv_wf (put_job s1 (job_id j) (claimed_job j w t l now))).
  apply inv_emit, inv_refl, wf_put; [done|by apply claimed_ok|done|done].
Qed.

(** *** Stalled recovery *)
Lemma stall_failed_ok j now : job_ok j → job_state j = Active →
  job_ok (stalled_out (stall j) now).
Proof. intros H E. unfold stall, stalled_out. job_tac. Qed.

Lemma stall_waiting_ok j : job_ok j → job_state j = Active →
  job_ok (requeued (stall j)).
Proof. intros H E. unfold stall, requeued. job_tac. Qed.

(** A record update that leaves everything but the sequence number alone. *)
Lemma inv_requeue s id j : inv s0 s → job_ok j → job_id j = id → 0 ≤ job_enqueued_seq j ≤ sequence s →
  job_state j ≠ Active →
  let '(s', n) := next_waiting_sequence (put_job s id j) in inv s0 (put_job s' id (sequenced j n)).
Proof.
  intros H Hok Hid Hsq Hst. assert (inv s0 (put_job s id j)) as H1 by by apply inv_put_idle.
  destruct (next_waiting_sequence (put_job s id j)) as [s' n] eqn:E.
  pose proof (inv_put_sequenced (put_job s id j) id (sequenced j n) H1) as HP.
  rewrite E in HP. apply HP; try done. unfold sequenced. by eapply job_ok_transfer.
Qed.

Lemma recover_one_spec s r now j : inv s0 s → jobs s !! job_id j = Some j → job_state j = Active →
  inv s0 (recover_one now (s, r) j).1 ∧
  (∀ id, id ≠ job_id j → jobs (recover_one now (s, r) j).1 !! id = jobs s !! id).
Proof.
  intros H Hj Ha. unfold recover_one. rewrite Hj. cbn zeta. stored Hj j.
  pose proof (stall_failed_ok j now Hok Ha) as Hf. pose proof (stall_waiting_ok j Hok Ha) as Hw.
  destruct (stalls_out (stall j)).
  - cbn [fst]. split; [by apply inv_put_idle|]. intros. by apply lookup_insert_ne.
  - pose proof (inv_requeue s (job_id j) (requeued (stall j)) H Hw eq_refl Hsq) as HR.
    unfold next_waiting_sequence in *. cbn [fst]. split; [by apply HR|].
    intros id Hne. unfold put_job. simpl. by rewrite !lookup_insert_ne.
Qed.

Lemma inv_recover_all now l s r : inv s0 s →
  (∀ j, j ∈ l → jobs s !! job_id j = Some j ∧ job_state j = Active) → NoDup (job_id <$> l) →
  inv s0 (foldl (recover_one now) (s, r) l).1.
Proof.
  revert s r. induction l as [|j l IH]; intros s r H Hl Hnd; cbn [foldl]; [done|].
  rewrite fmap_cons in Hnd. apply NoDup_cons in Hnd as [Hnj Hnd].
  destruct (Hl j) as [Hj Ha]; [set_solver|].
  destruct (recover_one_spec s r now j H Hj Ha) as [H1 Hout].
  destruct (recover_one now (s, r) j) as [s1 r1]. cbn [fst] in *. apply IH; [done| |done].
  intros j' Hj'. rewrite Hout; [apply Hl; set_solver|].
  intros Heq. apply Hnj. rewrite <- Heq. by apply list_elem_of_fmap_2.
Qed.

Lemma elem_of_stalled s now j : wf s →
  j ∈ stalled_jobs s now ↔ jobs s !! job_id j = Some j ∧ is_stalled now j = true.
Proof. intros W. unfold stalled_jobs. by rewrite elem_of_selection. Qed.

Lemma is_stalled_active now j : is_stalled now j = true → job_state j = Active.
Proof. unfold is_stalled. rewrite andb_true_iff, state_eqb_true. by intros [? _]. Qed.

Lemma inv_settle_stalled now s j : inv s0 s → inv s0 (settle_stalled now s j).
Proof. intros H. unfold settle_stalled. destruct (failed_retention _); eauto 6 with inv. Qed.

(** What recovery does after the stalled jobs were put back, for any state. *)
Lemma inv_recover_tail s now : inv s0 (foldl (recover_one now) (s, empty_recovery) (stalled_jobs s now)).1 →
  inv s0 (recover_stalled_jobs s now).1.
Proof.
  intros H1. unfold recover_stalled_jobs.
  destruct (foldl (recover_one now) _ _) as [s1 r]. cbn [fst] in *. cbn zeta.
  repeat match goal with |- inv s0 (foldl _ _ _) => apply foldl_keeps end.
  - intros a j Ha. by apply inv_emit, inv_emit.
  - intros a [[p c] m] Ha. by apply inv_fail_parent.
  - intros a p Ha. by apply inv_release_parent.
  - intros a p Ha. by apply inv_continue_parent.
  - intros a [p c] Ha. by apply inv_defer_parent.
  - intros a j Ha. by apply inv_settle_stalled.
  - by apply inv_remove_records.
Qed.

Lemma inv_recover_fold s now : inv s0 s →
  inv s0 (foldl (recover_one now) (s, empty_recovery) (stalled_jobs s now)).1.
Proof.
  intros H. pose proof (inv_wf _ _ H) as W. apply inv_recover_all; [done| |by apply selection_ids_NoDup].
  intros j [? ?%is_stalled_active]%elem_of_stalled; done.
Qed.

Lemma inv_recover_stalled s now : inv s0 s → inv s0 (recover_stalled_jobs s now).1.
Proof. intros H. by apply inv_recover_tail, inv_recover_fold. Qed.

Lemma inv_pause s now : inv s0 s → inv s0 (pause s now).1.
Proof. intros. by apply inv_emit, inv_paused. Qed.
Lemma inv_resume_queue s now : inv s0 s → inv s0 (resume s now).1.
Proof. intros. by apply inv_emit, inv_paused. Qed.
End core.

(** ** Administration *)
Section admin.
Context {X : Ext} `{!ExtLaws X}.
Context (s0 : QueueState).
Implicit Types (s : QueueState) (j : Job).

Lemma inv_release_parent_of s j now : inv s0 s → inv s0 (release_parent_of s j now).
Proof. intros. unfold release_parent_of. destruct (job_parent_id j); eauto with inv. Qed.
Hint Resolve inv_release_parent_of : inv.

Lemma inv_release_parents s l clock : inv s0 s → inv s0 (release_parents_of s l clock).
Proof. intros. unfold release_parents_of. apply foldl_keeps; [|done]. intros a [? p] ?. by apply inv_release_parent. Qed.
Hint Resolve inv_release_parents : inv.

(** The common end of the two removals. *)
Lemma inv_remove_and_release s id now : inv s0 s →
  inv s0 (match remove_job_record_locked s id with
          | (s, Some removed) =>
              (emit_removed_event_locked (release_parent_of s removed now) removed now,
               Ok (Some removed) : Result (option Job))
          | (s, None) => (s, Ok None)
          end).1.
Proof.
  intros H. pose proof (inv_remove s0 s id H) as H1.
  destruct (remove_job_record_locked s id) as [s1 [j|]]; cbn [fst] in *; eauto with inv.
Qed.

Lemma inv_remove_job s id now : inv s0 s → inv s0 (remove s id now).1.
Proof. intros H. unfold remove. destruct (_ : Result unit); [by apply inv_remove_and_release|done]. Qed.

Lemma inv_remove_repeat s k now : inv s0 s → inv s0 (remove_repeat s k now).1.
Proof.
  intros H. unfold remove_repeat. destruct (find_active_repeat_key _ _) as [o|]; [|done].
  cbn zeta. destruct (_ : Result unit); [by apply inv_remove_and_release|done].
Qed.

Lemma inv_remove_deduplication_key s d now : inv s0 s → inv s0 (remove_deduplication_key s d now).1.
Proof.
  intros H. unfold remove_deduplication_key. destruct (String.eqb d EmptyString); [done|].
  destruct (find_active_deduplication_id _ _ _ _); [|done]. cbn [fst].
  by apply inv_drop_next_flow, inv_drop_next, inv_released.
Qed.

Lemma inv_clean s st g n now : inv s0 s → inv s0 (clean s st g n now).1.
Proof. intros H. unfold clean. destruct n; [done|]. cbn zeta. cbn [fst]. eauto with inv. Qed.

Lemma inv_drain s b clock : inv s0 s → inv s0 (drain s b clock).1.
Proof. intros H. unfold drain. cbn zeta. cbn [fst]. eauto with inv. Qed.

Lemma inv_obliterate s b : inv s0 s → inv s0 (obliterate s b).1.
Proof.
  intros H. unfold obliterate. cbn zeta. destruct (_ && _); cbn [fst]; [by apply inv_paused|].
  by apply inv_paused, inv_clear, inv_paused.
Qed.

Lemma inv_remove_with_event now acc id : inv s0 acc.1 → inv s0 (remove_with_event now acc id).1.
Proof.
  destruct acc as [s l]. intros H. unfold remove_with_event. cbn [fst] in *.
  pose proof (inv_remove s0 s id H) as H1.
  destruct (remove_job_record_locked s id) as [s1 [j|]]; cbn [fst] in *; eauto with inv.
Qed.

Lemma inv_remove_children s p now : inv s0 s → inv s0 (remove_unprocessed_children s p now).1.
Proof.
  intros H. unfold remove_unprocessed_children. destruct (jobs s !! p) as [pj|]; [|done]. cbn zeta.
  assert (inv s0 (foldl (remove_with_event now) (s, []) (removable_children (jobs s) (job_child_ids pj))).1).
  { apply (foldl_keeps (λ acc, inv s0 acc.1)); [|done]. intros. by apply inv_remove_with_event. }
  destruct (foldl _ _ _) as [s1 l]. cbn [fst] in *. eauto with inv.
Qed.

Lemma inv_remove_child_dependency s c now : inv s0 s → inv s0 (remove_child_dependency s c now).1.
Proof.
  intros H. unfold remove_child_dependency. destruct (jobs s !! c) as [cj|]; [|done].
  destruct (job_parent_id cj) as [p|]; [|done]. destruct (jobs s !! p) as [pj|] eqn:Ep; [|done]. cbn zeta.
  destruct (_ && _); [done|]. cbn [fst]. apply inv_release_parent. stored Ep pj.
  set (s1 := put_job s p _).
  assert (inv s0 s1) as H1.
  { unfold s1. apply (inv_put_same s0 s p pj); try done. by eapply job_ok_transfer. }
  clearbody s1. pose proof (inv_clear_index s0 s1 p c H1) as H2.
  generalize dependent (clear_child_dependency_side_index_locked s1 p c).1. intros s2 H2.
  destruct (jobs s2 !! c) as [cj'|] eqn:Ec; [|done]. stored Ec cj'.
  apply (inv_put_same s0 s2 c cj'); try done. by eapply job_ok_transfer.
Qed.

(** Updates that keep what [job_ok] and the lease speak of. *)
Lemma inv_update_job s id f : inv s0 s →
  (∀ j, job_ok j → job_ok (f j) ∧ job_id (f j) = job_id j ∧ job_enqueued_seq (f j) = job_enqueued_seq j
        ∧ job_state (f j) = job_state j ∧ lease_of (f j) = lease_of j) →
  inv s0 (update_job s id f).1.
Proof.
  intros H Hf. unfold update_job. destruct (jobs s !! id) as [j|] eqn:Ej; [|done]. stored Ej j.
  destruct (Hf j Hok) as (? & ? & ? & ? & ?). by apply (inv_put_same s0 s id j).
Qed.

Lemma inv_set_data s id v : inv s0 s → inv s0 (set_data s id v).1.
Proof.
  intros H. apply inv_update_job; [done|]. intros j Hok.
  split_and!; try done. by eapply job_ok_transfer.
Qed.

Lemma inv_set_progress s id v now : inv s0 s → inv s0 (set_progress s id v now).1.
Proof.
  intros H. unfold set_progress.
  assert (inv s0 (update_job s id (λ j, j <| job_progress := Some v |>)).1) as H1.
  { apply inv_update_job; [done|]. intros j Hok. split_and!; try done. by eapply job_ok_transfer. }
  destruct (update_job _ _ _) as [s1 [j|]]; cbn [fst] in *; eauto with inv.
Qed.

Lemma inv_save_stacktrace s id l r : inv s0 s → inv s0 (save_stacktrace s id l r).1.
Proof.
  intros H. apply inv_update_job; [done|]. intros j Hok. split_and!; try done.
  destruct Hok as [? [??] ? Hf ?]. split; unfold lease_ok, finish_ok, deferred_ok in *; simpl; try done.
  destruct (job_state j); naive_solver.
Qed.

Lemma inv_log s id l k now : inv s0 s → inv s0 (log s id l k now).1.
Proof.
  intros H. apply inv_update_job; [done|]. intros j Hok.
  split_and!; try done. by eapply job_ok_transfer.
Qed.

Lemma inv_clear_logs s id k : inv s0 s → inv s0 (clear_logs s id k).1.
Proof.
  intros H. unfold clear_logs. destruct (jobs s !! id) as [j|] eqn:Ej; [|done]. stored Ej j.
  apply (inv_put_same s0 s id j); try done. by eapply job_ok_transfer.
Qed.
End admin.
