(* ===== verification/JobSubmit.v ===== *)
(** * Submission handlers preserve the invariant *)
From S2P Require Import Prelude Ordering Text External Retry JobTypes JobStore.
From S2P Require Import JobDedup JobFlows JobCore JobAdd JobInvariant JobPreserve JobHandlers.
Local Open Scope Z_scope.

Section submit.
Context {X : Ext} `{!ExtLaws X}.
Context (s0 : QueueState).
Implicit Types (s : QueueState) (j : Job).

(** ** Constructed jobs *)
Lemma job_of_spec_fresh queue now (spec : NewSpec) :
  validate_options (spec_options spec.1) = Ok tt → spec.2 ≠ EmptyString →
  fresh_ok (job_of_spec queue now spec).
Proof.
  intros Hv Hu. unfold job_of_spec. split; [split; [by apply Job_new_ok|done]|].
  split; [apply Job_new_idle|done].
Qed.

Lemma validate_at_ok o now : validate_job_options_at o now = Ok tt → validate_options o = Ok tt.
Proof. unfold validate_job_options_at. by intros ([] & ? & _)%try_bind_ok. Qed.

Lemma for_all_ok_spec {A} (check : A → Result unit) l :
  for_all_ok check l = Ok tt ↔ Forall (λ a, check a = Ok tt) l.
Proof.
  induction l as [|a l IH]; simpl; [by split|]. rewrite Forall_cons, <- IH.
  destruct (check a) as [[]|e]; simpl; naive_solver.
Qed.

Lemma specs_fresh queue now specs : validate_specs specs now = Ok tt →
  Forall (λ spec : NewSpec, spec.2 ≠ EmptyString) specs →
  Forall fresh_ok (job_of_spec queue now <$> specs).
Proof.
  unfold validate_specs. rewrite for_all_ok_spec, !Forall_forall. intros Hv Hu j Hj.
  apply list_elem_of_fmap in Hj as (spec & -> & Hin).
  apply job_of_spec_fresh; [eapply validate_at_ok|]; eauto.
Qed.

(** Changing only fields [fresh_ok] does not mention. *)
Lemma fresh_transfer j j' : fresh_ok j → job_id j' = job_id j →
  job_priority j' = job_priority j → job_options j' = job_options j →
  job_state j' = job_state j → job_worker_id j' = job_worker_id j →
  job_lock_token j' = job_lock_token j → job_lease_expires_at j' = job_lease_expires_at j →
  job_processed_at j' = job_processed_at j → job_finished_at j' = job_finished_at j →
  job_return_value j' = job_return_value j → job_failed_reason j' = job_failed_reason j →
  job_deferred_failure j' = job_deferred_failure j → job_enqueued_seq j' = job_enqueued_seq j →
  fresh_ok j'.
Proof.
  intros ([Hok Hsq] & Hst & Hf & Hr & Hd) ? ? Ho ? ? ? ? ? ? ? ? ? ?.
  split; [split; [eapply job_ok_transfer; eauto; by rewrite Ho|congruence]|].
  split_and!; congruence.
Qed.

(** A fresh job may be given any state but the terminal and active ones. *)
Lemma fresh_state j st : fresh_ok j → st ≠ Active → is_terminal st = false →
  fresh_ok (j <| job_state := st |>).
Proof.
  intros ([[? [??] L ? ?] Hsq] & Hst & Hf & Hr & Hd) Ha Ht.
  split; [split; [|done]|done].
  split; unfold lease_ok, finish_ok, deferred_ok in *; simpl; try done;
    destruct st; try done; destruct (job_state j); tauto.
Qed.

Lemma fresh_parked j : fresh_ok j → parked_ok j.
Proof. by intros [? _]. Qed.

Lemma inv_insert_fresh s j now : inv s0 s → fresh_ok j → inv s0 (insert_new_job s j now).1.
Proof. intros H (? & ? & _). by apply inv_insert_parked. Qed.

Lemma flow_child_fresh queue now pid (spec : NewSpec) :
  fresh_ok (job_of_spec queue now spec) → fresh_ok (flow_child_job queue now pid spec).
Proof.
  unfold flow_child_job. generalize (job_of_spec queue now spec). intros j H.
  by eapply fresh_transfer.
Qed.

Lemma flow_children_fresh queue now pid specs : Forall fresh_ok (job_of_spec queue now <$> specs) →
  Forall fresh_ok (flow_child_job queue now pid <$> specs).
Proof.
  rewrite !Forall_fmap. intros H. eapply Forall_impl; [done|]. intros spec. apply flow_child_fresh.
Qed.

Lemma state_after_fresh t now : state_after_dependencies t now ≠ Active ∧
  is_terminal (state_after_dependencies t now) = false.
Proof. by destruct (state_after_dependencies_cases t now) as [-> | ->]. Qed.

Lemma flow_parent_fresh queue now (spec : NewSpec) l :
  fresh_ok (job_of_spec queue now spec) → fresh_ok (flow_parent_job queue now spec l).
Proof.
  unfold flow_parent_job. generalize (job_of_spec queue now spec). intros j H. cbn zeta.
  set (st := match l with [] => _ | _ => _ end).
  assert (st ≠ Active ∧ is_terminal st = false) as [Ha Ht].
  { unfold st. destruct l; [apply state_after_fresh|done]. }
  clearbody st. pose proof (fresh_state j st H Ha Ht) as H'.
  generalize dependent (j <| job_state := st |>). intros j' H'. by eapply fresh_transfer.
Qed.

(** ** One job *)
Lemma preserve_expiration_fresh j e : fresh_ok j →
  fresh_ok (preserve_replacement_deduplication_expiration j e).
Proof.
  intros H. unfold preserve_replacement_deduplication_expiration.
  destruct (dedup_test _ _); [by eapply fresh_transfer|done].
Qed.

Lemma inv_add_unowned s j now : inv s0 s → fresh_ok j → inv s0 (add_unowned s j now).1.
Proof.
  intros. unfold add_unowned. destruct (find_active_repeat_job _ _); [done|]. by apply inv_insert_fresh.
Qed.

Lemma inv_add_one s j now : inv s0 s → fresh_ok j → inv s0 (add_one s j now).1.
Proof.
  intros H Hj. unfold add_one. destruct (jobs s !! job_id j); [done|].
  destruct (find_active_deduplicated_job _ _ _ _) as [e|]; [|by apply inv_add_unowned].
  destruct (deduplication_replaces_delayed_owner j e).
  - pose proof (preserve_expiration_fresh j e Hj) as Hj'.
    pose proof (inv_remove s0 s (job_id e) H) as H1.
    destruct (remove_job_record_locked s (job_id e)) as [s1 [r|]]; cbn [fst] in *;
      apply inv_add_unowned; eauto with inv.
  - cbn [fst].
    pose proof (inv_store_next s0 s j e H (fresh_parked _ Hj)) as H1.
    pose proof (inv_extend s0 _ j (job_id e) now H1) as H2.
    destruct (deduplication_duplicate_emits_events j e); eauto with inv.
Qed.

Lemma inv_add queue s spec now : inv s0 s → spec.2 ≠ EmptyString → inv s0 (add_at queue s spec now).1.
Proof.
  intros H Hu. unfold add_at. destruct (validate_job_options_at _ now) as [[]|] eqn:Ev; [|done].
  apply validate_at_ok in Ev. pose proof (inv_add_one s _ now H (job_of_spec_fresh queue now spec Ev Hu)).
  by destruct (add_one _ _ _).
Qed.

Lemma inv_add_many queue s specs now : inv s0 s →
  Forall (λ spec : NewSpec, spec.2 ≠ EmptyString) specs → inv s0 (add_many_at queue s specs now).1.
Proof.
  intros H Hu. unfold add_many_at. destruct (validate_specs specs now) as [[]|] eqn:Ev; [|done].
  pose proof (specs_fresh queue now specs Ev Hu) as Hf.
  assert (inv s0 (foldl (λ '(s, acc) j, let '(s, j) := add_one s j now in (s, acc ++ [j])) (s, [])
                    (job_of_spec queue now <$> specs)).1) as H1.
  { apply (foldl_keeps_forall (λ acc, inv s0 acc.1) fresh_ok); [|done|done].
    intros [s' acc] j H' Hj. pose proof (inv_add_one s' j now H' Hj) as HA. cbn beta iota.
    by destruct (add_one s' j now). }
  by destruct (foldl _ _ _).
Qed.

(** ** Flows *)
Lemma park_child_parent fresh c d child e : fresh_ok (cs_parent c) →
  fresh_ok (cs_parent (park_child fresh c d child e)).
Proof.
  intros H. unfold park_child, without_child.
  destruct (cs_next_by_id c !! d), fresh; simpl; try done. by eapply fresh_transfer.
Qed.

(** [P] of the scanned parent: nothing, or [fresh_ok] when the flow is new. *)
Lemma inv_classify fresh dup now l s c : inv s0 s → Forall fresh_ok l →
  inv s0 (classify_children fresh dup now s c l).1 ∧
  ∀ c', (classify_children fresh dup now s c l).2 = Ok c' →
        fresh_ok (cs_parent c) → fresh_ok (cs_parent c').
Proof.
  revert s c. induction l as [|j l IH]; intros s c H Hl; simpl.
  { split; [done|]. by intros ? [= <-]. }
  apply Forall_cons in Hl as [Hj Hl].
  assert (inv s0 (classify_child fresh dup now s c j).1 ∧
          ∀ c', (classify_child fresh dup now s c j).2 = Ok c' →
                fresh_ok (cs_parent c) → fresh_ok (cs_parent c')) as [H1 Hc].
  { unfold classify_child. destruct (bool_decide _); [by split; [|intros ? [= <-]]|].
    destruct (active_deduplication_id j now) as [d|]; [|by split; [|intros ? [= <-]]].
    destruct (find_active_deduplication_id _ _ d now) as [e|].
    - destruct (flow_child_deduplication_requires_next j e).
      + pose proof (inv_store_next s0 s j e H (fresh_parked _ Hj)) as HS.
        destruct (store_deduplicated_next_locked s j e) as [s1 []]; [|done].
        split; [done|]. intros c' [= <-]. apply park_child_parent.
      + split; [by apply inv_extend|]. by intros c' [= <-].
    - destruct (bool_decide _); [done|]. split; [done|]. by intros c' [= <-]. }
  destruct (classify_child fresh dup now s c j) as [s1 [c1|e]]; cbn [fst snd] in *; [|done].
  destruct (IH s1 c1 H1 Hl) as [HI HC]. split; [done|]. eauto.
Qed.

(** Scanning the children only touches expirations of stored jobs: any other
    field [fld] of every stored job stays. *)
Section fields.
Context {B : Type} (fld : Job → B).
Context (Hf : ∀ j x, fld (j <| job_deduplication_expires_at := x |>) = fld j).

Lemma put_expiration_field s e o x id : jobs s !! e = Some o →
  fld <$> jobs (put_job s e (o <| job_deduplication_expires_at := x |>)) !! id = fld <$> jobs s !! id.
Proof.
  intros Eo. unfold put_job. simpl. destruct (decide (e = id)) as [<-|].
  - rewrite lookup_insert_eq, Eo. simpl. f_equal. apply Hf.
  - by rewrite lookup_insert_ne.
Qed.

Lemma store_next_field s c e id :
  fld <$> jobs (store_deduplicated_next_locked s c e).1 !! id = fld <$> jobs s !! id.
Proof.
  unfold store_deduplicated_next_locked. destruct (negb _); [done|].
  destruct (job_deduplication_id c) as [d|]; [|done]. cbn [fst]. unfold clear_owner_expiration.
  match goal with |- context [jobs ?s1 !! job_id e] => set (s' := s1);
    change (jobs s) with (jobs s'); clearbody s' end.
  destruct (jobs s' !! job_id e) as [o|] eqn:Eo; [|done]. by apply put_expiration_field.
Qed.

Lemma extend_field s c e now id :
  fld <$> jobs (extend_deduplication_expiration_locked s c e now).1 !! id = fld <$> jobs s !! id.
Proof.
  unfold extend_deduplication_expiration_locked. destruct (negb _); [done|].
  destruct (jobs s !! e) as [o|] eqn:Eo; [|done]. by apply put_expiration_field.
Qed.
End fields.

Lemma store_next_sequence s c e : sequence (store_deduplicated_next_locked s c e).1 = sequence s.
Proof.
  unfold store_deduplicated_next_locked. destruct (negb _); [done|].
  destruct (job_deduplication_id c) as [d|]; [|done]. cbn [fst]. unfold clear_owner_expiration.
  by destruct (jobs _ !! job_id e).
Qed.

Lemma classify_field {F} (f : Job → F) (Hf : ∀ j v, f (j <| job_deduplication_expires_at := v |>) = f j)
    fresh dup now l s c id :
  f <$> jobs (classify_children fresh dup now s c l).1 !! id = f <$> jobs s !! id.
Proof.
  revert s c. induction l as [|j l IH]; intros s c; simpl; [done|].
  assert (f <$> jobs (classify_child fresh dup now s c j).1 !! id = f <$> jobs s !! id) as H1.
  { unfold classify_child. destruct (bool_decide _); [done|].
    destruct (active_deduplication_id j now) as [d|]; [|done].
    destruct (find_active_deduplication_id _ _ d now) as [e|]; [|by destruct (bool_decide _)].
    destruct (flow_child_deduplication_requires_next j e); [|by apply (extend_field f)].
    pose proof (store_next_field f Hf s j e id) as HS.
    by destruct (store_deduplicated_next_locked s j e) as [s1 []]. }
  destruct (classify_child fresh dup now s c j) as [s1 [c1|e]]; cbn [fst] in *; [|done].
  by rewrite IH.
Qed.

Lemma classify_states fresh dup now l s c id :
  job_state <$> jobs (classify_children fresh dup now s c l).1 !! id = job_state <$> jobs s !! id.
Proof. by apply (classify_field job_state). Qed.

Lemma classify_keeps_states fresh dup now l s c id j j' :
  jobs s !! id = Some j → jobs (classify_children fresh dup now s c l).1 !! id = Some j' →
  job_state j' = job_state j.
Proof.
  intros Hj Hj'. pose proof (classify_states fresh dup now l s c id) as H.
  rewrite Hj, Hj' in H. by simplify_eq/=.
Qed.

Lemma adopted_ok j p : job_ok j → job_ok (j <| job_parent_id := Some p |>).
Proof. intros. by eapply job_ok_transfer. Qed.

Lemma inv_store_child owner dup p now acc j : inv s0 acc.1 → fresh_ok j →
  inv s0 (store_child owner dup p now acc j).1.
Proof.
  destruct acc as [s l]. cbn [fst]. intros H Hj. unfold store_child.
  destruct (owner (job_id j)); [by apply inv_emit_deduplicated|].
  destruct (bool_decide _).
  - destruct (jobs s !! job_id j) as [e|] eqn:Ee; [|done]. cbn [fst]. stored Ee e.
    apply inv_emit_duplicated, inv_record_terminal.
    apply (inv_put_same s0 s (job_id j) e); try done. by apply adopted_ok.
  - pose proof (inv_insert_fresh s j now H Hj). by destruct (insert_new_job s j now).
Qed.

Lemma inv_store_children owner dup p now l s : inv s0 s → Forall fresh_ok l →
  inv s0 (foldl (store_child owner dup p now) (s, []) l).1.
Proof.
  intros H Hl. apply (foldl_keeps_forall (λ acc, inv s0 acc.1) fresh_ok); [|done|done].
  intros acc j Ha Hj. by apply inv_store_child.
Qed.

Lemma add_child_ids_frame c l j :
  ∃ ids, add_child_ids j c l = j <| job_child_ids := ids |>.
Proof.
  unfold add_child_ids. revert j. induction l as [|x l IH]; intros j; cbn [foldl].
  { exists (job_child_ids j). by destruct j. }
  destruct (is_some _ && _); [apply IH|]. destruct (existsb _ _); [apply IH|].
  destruct (IH (j <| job_child_ids ::= λ l, l ++ [job_id x] |>)) as [ids ->]. by exists ids.
Qed.

(** The end the three handlers share: release the parent unless a child is parked. *)
Lemma inv_finish_flow s p now (b : bool) : inv s0 s →
  inv s0 (if b then (release_parent_if_ready_locked s p now).1 else s).
Proof. intros. destruct b; [by apply inv_release_parent|done]. Qed.

Lemma inv_add_existing s p l now : inv s0 s → Forall fresh_ok l →
  inv s0 (add_flow_for_existing_parent_locked s p l now).1.
Proof.
  intros H Hl. unfold add_flow_for_existing_parent_locked. cbn zeta.
  pose proof (inv_emit_duplicated s0 s p now H) as H1.
  generalize dependent (emit_duplicated_event_locked s p now). clear s H. intros s H.
  destruct (existing_children s (job_id p) (job_child_ids p) ∅ l) as [dup|]; [|done].
  destruct (inv_classify false dup now l s (initial_scan p ∅) H Hl) as [H2 _].
  destruct (classify_children false dup now s _ l) as [s1 [c|]]; [|done]. cbn [fst] in H2.
  destruct (check_repeat_keys _ _ _); [|done].
  set (s2 := match jobs s1 !! job_id p with Some _ => _ | None => s1 end).
  assert (inv s0 s2) as H3.
  { unfold s2. destruct (jobs s1 !! job_id p) as [pj|] eqn:Ep; [|done]. stored Ep pj.
    destruct (add_child_ids_frame c l pj) as [ids ->].
    apply (inv_put_same s0 s1 _ pj); try done. by eapply job_ok_transfer. }
  clearbody s2.
  pose proof (inv_store_children (λ id, cs_deduplicated c !! id) dup (job_id p) now l s2 H3 Hl) as H4.
  destruct (foldl _ _ _) as [s3 st]. cbn [fst] in *. by apply inv_finish_flow.
Qed.

Lemma inv_add_new_flow s p l now : inv s0 s → fresh_ok p → Forall fresh_ok l →
  inv s0 (add_new_flow s p l now).1.
Proof.
  intros H Hp Hl. unfold add_new_flow. destruct (duplicated_flow_children _ _ _ _) as [dup|]; [|done].
  cbn zeta. set (ids := match active_deduplication_id p now with Some _ => _ | None => _ end). clearbody ids.
  destruct (inv_classify true dup now l s (initial_scan p ids) H Hl) as [H2 HC].
  destruct (classify_children true dup now s _ l) as [s1 [c|]]; [|done]. cbn [fst snd] in *.
  specialize (HC c eq_refl Hp).
  set (p1 := (cs_parent c) <| job_child_ids ::= _ |>).
  assert (fresh_ok p1) as Hp1 by (by eapply (fresh_transfer (cs_parent c))). clearbody p1.
  set (p2 := match job_child_ids p1 with [] => _ | _ => p1 end).
  assert (fresh_ok p2) as Hp2.
  { unfold p2. destruct (job_child_ids p1); [|done].
    destruct (state_after_fresh (job_scheduled_at p1) now). by apply fresh_state. }
  clearbody p2. destruct (check_repeat_keys _ _ _); [|done].
  pose proof (inv_insert_fresh s1 p2 now H2 Hp2) as H3.
  destruct (insert_new_job s1 p2 now) as [s2 p3]. cbn [fst] in H3.
  match goal with |- context [foldl (store_child ?o ?d ?q now) _ l] =>
    pose proof (inv_store_children o d q now l s2 H3 Hl) as H4 end.
  destruct (foldl _ _ _) as [s3 st]. cbn [fst] in *. by apply inv_finish_flow.
Qed.

Lemma inv_add_flow queue s p l now : inv s0 s → p.2 ≠ EmptyString →
  Forall (λ spec : NewSpec, spec.2 ≠ EmptyString) l → inv s0 (add_flow_at queue s p l now).1.
Proof.
  intros H Hu Hus. unfold add_flow_at.
  destruct (validate_job_options_at _ now) as [[]|] eqn:Ev; [|done]. apply validate_at_ok in Ev.
  destruct (validate_specs l now) as [[]|] eqn:Evs; [|done]. cbn zeta.
  set (cl := flow_child_job queue now _ <$> l).
  assert (Forall fresh_ok cl) as Hcl by by apply flow_children_fresh, specs_fresh.
  clearbody cl.
  pose proof (flow_parent_fresh queue now p cl (job_of_spec_fresh queue now p Ev Hu)) as Hp.
  generalize dependent (flow_parent_job queue now p cl). intros pj Hp.
  destruct (validate_flow_job_ids pj cl); [|done].
  destruct (jobs s !! job_id pj); [by apply inv_add_existing|].
  destruct (find_active_deduplicated_job _ _ _ _) as [e|]; [|by apply inv_add_new_flow].
  assert (Forall parked_ok cl) as Hpk by (eapply Forall_impl; [done|]; apply fresh_parked).
  pose proof (inv_store_next_flow s0 s (mkJobFlow pj cl) e H (fresh_parked _ Hp) Hpk) as H1.
  destruct (store_deduplicated_next_flow_locked s _ e) as [s1 []]; cbn [fst] in *.
  - by apply inv_emit_deduplicated.
  - apply inv_emit_deduplicated. by apply inv_extend.
Qed.

Lemma inv_add_children queue s pid t l now : inv s0 s →
  Forall (λ spec : NewSpec, spec.2 ≠ EmptyString) l → inv s0 (add_flow_children_at queue s pid t l now).1.
Proof.
  intros H Hus. unfold add_flow_children_at. destruct l as [|x l']; [done|].
  set (l := x :: l') in *. clearbody l.
  destruct (validate_specs l now) as [[]|] eqn:Evs; [|done]. cbn zeta.
  set (cl := flow_child_job queue now _ <$> l).
  assert (Forall fresh_ok cl) as Hcl by by apply flow_children_fresh, specs_fresh.
  clearbody cl. destruct (validate_flow_child_jobs pid cl); [|done].
  destruct (jobs s !! pid) as [pj|] eqn:Ep; [|done].
  destruct (require_active pj _) as [[]|] eqn:Ea; [|done]. apply require_active_ok in Ea.
  destruct (require_lock_token pj t); [|done].
  destruct (ensure_flow_dependencies_have_not_failed _ _ _ _); [|done].
  destruct (existing_children s pid (job_child_ids pj) ∅ cl) as [dup|]; [|done].
  destruct (inv_classify false dup now cl s (initial_scan pj ∅) H Hcl) as [H2 _].
  destruct (classify_children false dup now s _ cl) as [s1 [c|]] eqn:Ecl; [|done]. cbn [fst] in H2.
  destruct (check_repeat_keys _ _ _); [|done].
  destruct (jobs s1 !! pid) as [pj1|] eqn:Ep1; [|done]. stored Ep1 pj1.
  assert (job_state pj1 = Active) as Ea1.
  { rewrite <- Ea. apply (classify_keeps_states false dup now cl s (initial_scan pj ∅) pid); [done|].
    by rewrite Ecl. }
  assert (job_ok (add_child_ids (waiting_for_children pj1) c cl) ∧
          job_state (add_child_ids (waiting_for_children pj1) c cl) = WaitingChildren ∧
          job_id (add_child_ids (waiting_for_children pj1) c cl) = pid ∧
          job_enqueued_seq (add_child_ids (waiting_for_children pj1) c cl) = job_enqueued_seq pj1)
    as (Hok2 & Hst2 & Hid2 & Hsq2).
  { destruct (add_child_ids_frame c cl (waiting_for_children pj1)) as [ids ->].
    assert (job_ok (waiting_for_children pj1)) as HW by (apply waiting_for_children_ok; [done|by rewrite Ea1]).
    split; [|done]. generalize dependent (waiting_for_children pj1). intros w HW.
    by eapply job_ok_transfer. }
  generalize dependent (add_child_ids (waiting_for_children pj1) c cl). intros p2 Hok2 Hst2 Hid2 Hsq2.
  assert (inv s0 (put_job s1 pid p2)) as H3.
  { apply inv_put_idle; [done|done|done|by rewrite Hsq2|by rewrite Hst2]. }
  pose proof (inv_store_children (λ id, cs_deduplicated c !! id) dup pid now cl _ H3 Hcl) as H4.
  destruct (foldl _ _ _) as [s3 st]. cbn [fst] in *. by apply inv_finish_flow, inv_emit.
Qed.

(** ** Repeat series *)
Lemma inv_upsert queue s spec now : inv s0 s → spec.2 ≠ EmptyString →
  inv s0 (upsert_repeat queue s spec now).1.
Proof.
  intros H Hu. unfold upsert_repeat.
  destruct (validate_job_options_at _ now) as [[]|] eqn:Ev; [|done]. apply validate_at_ok in Ev.
  destruct (is_none _); [done|]. cbn zeta.
  pose proof (job_of_spec_fresh queue now spec Ev Hu) as Hj.
  generalize dependent (job_of_spec queue now spec). intros j Hj.
  destruct (opt_filter _ _) as [key|]; [|done].
  do 4 lazymatch goal with |- inv _ (fst (match ?r with Ok _ => _ | Err _ => _ end)) =>
         destruct r; [|done] end.
  set (s1 := match find_active_repeat_key _ _ with Some _ => _ | None => s end).
  assert (inv s0 s1) as H1.
  { unfold s1. destruct (find_active_repeat_key _ _); [by apply inv_remove|done]. }
  clearbody s1. pose proof (inv_insert_fresh s1 j now H1 Hj). by destruct (insert_new_job s1 j now).
Qed.
End submit.
