(* ===== verification/JobSnapshot.v ===== *)
(** * Snapshots of the in-memory queue ([src/job/memory.rs], [src/job/types.rs])

    [InMemoryJobQueue::snapshot] flattens the maps of the state into sorted
    lists and [from_snapshot] rebuilds the maps; only the waiting sequence is
    not stored but recomputed.  Restoring a snapshot of a well-formed state
    gives the state back, up to that counter. *)
From S2P Require Import Prelude Ordering Text External Retry JobTypes JobStore.
From S2P Require Import JobDedup JobFlows JobQueries JobInvariant.
Local Open Scope Z_scope.

Section snapshot.
Context {X : Ext}.

Record JobFlowDependencyIndex := {
  fx_parent_id : string;
  fx_processed : gmap string Value;
  fx_ignored : gmap string string;
  fx_failed : list string;
}.

Record JobQueueSnapshot := {
  sn_queue : string;
  sn_paused : bool;
  sn_events : list JobEvent;
  sn_event_sequence : Z;
  sn_jobs : list Job;
  sn_next_jobs : list Job;
  sn_next_flows : list JobFlow;
  sn_released : list (string * string);
  sn_indexes : list JobFlowDependencyIndex;
}.

(** The derived [Ord] of a pair of strings. *)
Definition compare_pair : string * string → string * string → comparison :=
  cmp_then (cmp_on String.compare fst) (cmp_on String.compare snd).

Definition sorted_released_deduplication_owners (r : gset (string * string)) : list (string * string) :=
  sort_by compare_pair (elements r).

Definition dependency_index (e : string * FlowIndex) : JobFlowDependencyIndex :=
  {| fx_parent_id := e.1; fx_processed := fi_processed e.2; fx_ignored := fi_ignored e.2;
     fx_failed := btree_set_iter (fi_failed e.2) |}.

Definition sorted_flow_dependency_indexes (m : gmap string FlowIndex) : list JobFlowDependencyIndex :=
  sort_by (cmp_on String.compare fx_parent_id)
    (dependency_index <$> List.filter (λ e, negb (index_is_empty e.2)) (hash_iter m)).

Definition snapshot (queue : string) (s : QueueState) : JobQueueSnapshot :=
  {| sn_queue := queue;
     sn_paused := paused s;
     sn_events := events s;
     sn_event_sequence := event_sequence s;
     sn_jobs := sort_by compare_list_order (hash_values (jobs s));
     sn_next_jobs := sort_by compare_list_order (hash_values (deduplication_next s));
     sn_next_flows := sort_by (cmp_on compare_list_order flow_parent) (hash_values (deduplication_next_flows s));
     sn_released := sorted_released_deduplication_owners (released_deduplication_owners s);
     sn_indexes := sorted_flow_dependency_indexes (flow_dependencies s) |}.

Definition flow_jobs (f : JobFlow) : list Job := flow_parent f :: flow_children f.

(** The largest sequence number stored in any job of the snapshot. *)
Definition restored_sequence (sn : JobQueueSnapshot) : Z :=
  foldl Z.max 0 (job_enqueued_seq <$> (sn_jobs sn ++ sn_next_jobs sn ++ mjoin (flow_jobs <$> sn_next_flows sn))).

Definition restored_index (x : JobFlowDependencyIndex) : option (string * FlowIndex) :=
  if String.eqb (fx_parent_id x) EmptyString then None
  else
    let i := mkFlowIndex (fx_processed x) (fx_ignored x) (list_to_set (fx_failed x)) in
    if index_is_empty i then None else Some (fx_parent_id x, i).

Definition by_deduplication_id {A} (parent : A → Job) (a : A) : option (string * A) :=
  match job_deduplication_id (parent a) with Some d => Some (d, a) | None => None end.

Definition from_snapshot (sn : JobQueueSnapshot) : QueueState :=
  {| paused := sn_paused sn;
     sequence := restored_sequence sn;
     event_sequence := sn_event_sequence sn;
     events := sn_events sn;
     jobs := collect_map ((λ j, (job_id j, j)) <$> sn_jobs sn);
     flow_dependencies := collect_map (omap restored_index (sn_indexes sn));
     deduplication_next := collect_map (omap (by_deduplication_id id) (sn_next_jobs sn));
     deduplication_next_flows := collect_map (omap (by_deduplication_id flow_parent) (sn_next_flows sn));
     released_deduplication_owners := list_to_set (sn_released sn) |}.

(** ** The serialized form

    Every field of a snapshot is serialized but [lock_token]
    ([#[serde(default, skip)]]), which comes back as [None]. *)
Definition erase_token (j : Job) : Job := j <| job_lock_token := None |>.

Definition erase_flow (f : JobFlow) : JobFlow :=
  mkJobFlow (erase_token (flow_parent f)) (erase_token <$> flow_children f).

Definition stored (sn : JobQueueSnapshot) : JobQueueSnapshot :=
  {| sn_queue := sn_queue sn; sn_paused := sn_paused sn; sn_events := sn_events sn;
     sn_event_sequence := sn_event_sequence sn;
     sn_jobs := erase_token <$> sn_jobs sn;
     sn_next_jobs := erase_token <$> sn_next_jobs sn;
     sn_next_flows := erase_flow <$> sn_next_flows sn;
     sn_released := sn_released sn; sn_indexes := sn_indexes sn |}.

(** The state without its lock tokens. *)
Definition forget_tokens (s : QueueState) : QueueState :=
  s <| jobs ::= fmap erase_token |> <| deduplication_next ::= fmap erase_token |>
    <| deduplication_next_flows ::= fmap erase_flow |>.

Lemma omap_by_id {A B} (parent : A → Job) (parent' : B → Job) (g : A → B) (l : list A) :
  (∀ a, job_deduplication_id (parent' (g a)) = job_deduplication_id (parent a)) →
  omap (by_deduplication_id parent') (g <$> l) = prod_map id g <$> omap (by_deduplication_id parent) l.
Proof.
  intros Hg. induction l as [|a l IH]; [done|]. rewrite fmap_cons. cbn [omap list_omap].
  assert (by_deduplication_id parent' (g a) = prod_map id g <$> by_deduplication_id parent a) as ->
    by (unfold by_deduplication_id; rewrite Hg; by destruct (job_deduplication_id (parent a))).
  destruct (by_deduplication_id parent a); [|exact IH]. cbn [fmap option_fmap option_map]. rewrite fmap_cons.
  f_equal. exact IH.
Qed.

Lemma erased_sequences (l : list Job) : job_enqueued_seq <$> (erase_token <$> l) = job_enqueued_seq <$> l.
Proof. by rewrite <- list_fmap_compose. Qed.

Lemma erased_flow_sequences (l : list JobFlow) :
  job_enqueued_seq <$> mjoin (flow_jobs <$> (erase_flow <$> l)) = job_enqueued_seq <$> mjoin (flow_jobs <$> l).
Proof.
  induction l as [|f l IH]; [done|]. rewrite !fmap_cons. cbn [mjoin list_join]. rewrite !fmap_app. f_equal; [|exact IH].
  unfold flow_jobs, erase_flow. rewrite !fmap_cons. cbn [flow_children flow_parent]. by rewrite erased_sequences.
Qed.

Lemma stored_sequence (sn : JobQueueSnapshot) : restored_sequence (stored sn) = restored_sequence sn.
Proof.
  unfold restored_sequence. f_equal. cbn [stored sn_jobs sn_next_jobs sn_next_flows].
  by rewrite !fmap_app, !erased_sequences, erased_flow_sequences.
Qed.

(** What is rebuilt from the serialized form. *)
Lemma from_stored (sn : JobQueueSnapshot) : from_snapshot (stored sn) = forget_tokens (from_snapshot sn).
Proof.
  unfold from_snapshot. rewrite stored_sequence. unfold forget_tokens, upd.
  cbn [stored sn_paused sn_events sn_event_sequence sn_jobs sn_next_jobs sn_next_flows sn_released sn_indexes
    paused sequence event_sequence events jobs flow_dependencies deduplication_next deduplication_next_flows
    released_deduplication_owners].
  rewrite <- !collect_map_fmap, (omap_by_id id id erase_token) by done.
  rewrite (omap_by_id flow_parent flow_parent erase_flow) by done. rewrite <- !list_fmap_compose. done.
Qed.

Context `{!ExtLaws X}.

(** Values whose key can be read off the value. *)
Lemma keyed_values {A} (key : A → string) (cmp : A → A → comparison) (m : gmap string A) :
  (∀ k a, m !! k = Some a → key a = k) →
  (λ a, (key a, a)) <$> sort_by cmp (hash_values m) ≡ₚ map_to_list m.
Proof.
  intros Hk. rewrite sort_by_perm, hash_values_perm, <- list_fmap_compose.
  rewrite <- (list_fmap_id (map_to_list m)) at 2. apply reflexive_eq, list_fmap_ext.
  intros i [k a] Hi. apply list_elem_of_lookup_2, elem_of_map_to_list in Hi.
  unfold compose. simpl. by rewrite (Hk _ _ Hi).
Qed.

Lemma omap_dedup_fmap {A} (parent : A → Job) (key : A → string) (l : list A) :
  (∀ a, a ∈ l → job_deduplication_id (parent a) = Some (key a)) →
  omap (by_deduplication_id parent) l = (λ a, (key a, a)) <$> l.
Proof.
  induction l as [|a l IH]; intros H; [done|]. cbn [omap list_omap fmap list_fmap].
  unfold by_deduplication_id at 1. rewrite (H a) by set_solver. f_equal. apply IH. set_solver.
Qed.

Lemma restore_parked {A} (parent : A → Job) (cmp : A → A → comparison) (m : gmap string A) :
  (∀ d a, m !! d = Some a → job_deduplication_id (parent a) = Some d) →
  collect_map (omap (by_deduplication_id parent) (sort_by cmp (hash_values m))) = m.
Proof.
  intros Hm. set (key a := unwrap_or (job_deduplication_id (parent a)) EmptyString).
  rewrite (omap_dedup_fmap parent key).
  - apply collect_map_perm, keyed_values. intros d a Ha. unfold key. by rewrite (Hm _ _ Ha).
  - intros a Ha. rewrite elem_of_sort_by, elem_of_hash_values in Ha. destruct Ha as [d Ha].
    unfold key. by rewrite (Hm _ _ Ha).
Qed.

Lemma restored_dependency_index e : e.1 ≠ EmptyString → index_is_empty e.2 = false →
  restored_index (dependency_index e) = Some e.
Proof.
  destruct e as [p i]. simpl. intros Hp Hi. unfold restored_index. simpl.
  destruct (String.eqb_spec p EmptyString) as [|_]; [done|].
  assert (list_to_set (btree_set_iter (fi_failed i)) = fi_failed i) as ->.
  { apply set_eq. intros c. unfold btree_set_iter.
    by rewrite elem_of_list_to_set, elem_of_sort_by, elem_of_elements. }
  destruct i as [pr ig fa]. simpl in *. by rewrite Hi.
Qed.

Lemma restore_indexes (m : gmap string FlowIndex) :
  (∀ p i, m !! p = Some i → p ≠ EmptyString ∧ index_is_empty i = false) →
  collect_map (omap restored_index (sorted_flow_dependency_indexes m)) = m.
Proof.
  intros Hm. apply collect_map_perm. unfold sorted_flow_dependency_indexes.
  rewrite sort_by_perm, <- hash_iter_perm.
  assert (∀ e, e ∈ hash_iter m → e.1 ≠ EmptyString ∧ index_is_empty e.2 = false) as Hall.
  { intros [p i]. rewrite hash_iter_perm, elem_of_map_to_list. apply Hm. }
  induction (hash_iter m) as [|e l IH]; [done|].
  destruct (Hall e) as [Hp Hi]; [set_solver|]. simpl. rewrite Hi. simpl.
  unfold mret, option_ret, omap in *. simpl. rewrite restored_dependency_index by done.
  constructor. apply IH. set_solver.
Qed.

Lemma foldl_max_le l a b : foldl Z.max a l ≤ b ↔ a ≤ b ∧ ∀ x, x ∈ l → x ≤ b.
Proof.
  revert a. induction l as [|x l IH]; intros a; simpl; [set_solver|].
  rewrite IH. setoid_rewrite elem_of_cons. split.
  - intros [? H]. split; [lia|]. intros y [->|?]; [lia|auto].
  - intros [? H]. split; [|auto]. specialize (H x). lia.
Qed.

Lemma foldl_max_ge l a : a ≤ foldl Z.max a l ∧ ∀ x, x ∈ l → x ≤ foldl Z.max a l.
Proof. by apply foldl_max_le. Qed.

(** Every job the snapshot holds has a sequence number within the counter. *)
Lemma restored_sequence_le queue s : wf s → 0 ≤ restored_sequence (snapshot queue s) ≤ sequence s.
Proof.
  intros W. unfold restored_sequence. split; [exact (proj1 (foldl_max_ge _ _))|]. apply foldl_max_le.
  split; [by apply (wf_seq s W)|]. intros n (j & -> & Hj)%list_elem_of_fmap.
  rewrite !elem_of_app in Hj. cbn [snapshot sn_jobs sn_next_jobs sn_next_flows] in Hj.
  destruct W as [WJ [? ?] WN WF _ _]. destruct Hj as [Hj|[Hj|Hj]].
  - rewrite elem_of_sort_by, elem_of_hash_values in Hj. destruct Hj as [id Hj].
    destruct (WJ _ _ Hj) as (_ & _ & ?). lia.
  - rewrite elem_of_sort_by, elem_of_hash_values in Hj. destruct Hj as [d Hj].
    destruct (WN _ _ Hj) as (_ & _ & ->). lia.
  - apply list_elem_of_join in Hj as (l & Hj & Hl).
    apply list_elem_of_fmap in Hl as (f & -> & Hf).
    rewrite elem_of_sort_by, elem_of_hash_values in Hf. destruct Hf as [d Hf].
    destruct (WF _ _ Hf) as (_ & [_ Hp] & Hc). apply elem_of_cons in Hj as [->|Hj]; [lia|].
    rewrite Forall_forall in Hc. destruct (Hc _ Hj) as [_ ->]. lia.
Qed.

Lemma jobs_le_restored queue s id j : wf s → jobs s !! id = Some j →
  job_enqueued_seq j ≤ restored_sequence (snapshot queue s).
Proof.
  intros W Hj. apply (proj2 (foldl_max_ge _ _)), list_elem_of_fmap. exists j. split; [done|].
  apply elem_of_app. left. cbn [snapshot sn_jobs].
  rewrite elem_of_sort_by, elem_of_hash_values. eauto.
Qed.

(** Everything but the counter survives a restart. *)
Lemma snapshot_roundtrip queue s : wf s →
  from_snapshot (snapshot queue s) = s <| sequence := restored_sequence (snapshot queue s) |>.
Proof.
  intros W. unfold from_snapshot.
  cbn [snapshot sn_paused sn_events sn_event_sequence sn_jobs sn_next_jobs sn_next_flows sn_released sn_indexes].
  destruct W as [WJ _ WN WF WI _].
  rewrite (restore_parked id _ (deduplication_next s)), (restore_parked flow_parent _ (deduplication_next_flows s)),
    restore_indexes.
  - rewrite (collect_map_perm _ (jobs s)) by (apply keyed_values; intros k a Ha; by destruct (WJ _ _ Ha)).
    assert (list_to_set (sorted_released_deduplication_owners (released_deduplication_owners s))
            = released_deduplication_owners s) as ->.
    { apply set_eq. intros c. unfold sorted_released_deduplication_owners.
      by rewrite elem_of_list_to_set, elem_of_sort_by, elem_of_elements. }
    by destruct s.
  - intros p i Hi. destruct (WI _ _ Hi) as [[j Hj] [? _ _ _]]. split; [|done].
    destruct (WJ _ _ Hj) as (<- & [? _ _ _ _] & _). done.
  - intros d f Hf. by destruct (WF _ _ Hf).
  - intros d j Hj. by destruct (WN _ _ Hj).
Qed.

Lemma wf_restart queue s : wf s → wf (from_snapshot (snapshot queue s)).
Proof.
  intros W. rewrite snapshot_roundtrip by done. pose proof (restored_sequence_le queue s W).
  pose proof (λ id j, jobs_le_restored queue s id j W) as HJ.
  generalize dependent (restored_sequence (snapshot queue s)). intros n Hn HJ.
  destruct W as [WJ [? ?] WN WF WI WE].
  split; simpl; try done; [|lia|by eapply events_ok_frame].
  intros id j Hj. destruct (WJ _ _ Hj) as (? & ? & ? & ?). specialize (HJ id j Hj). split_and!; done || lia.
Qed.

Lemma erased_ok j : job_ok j → job_ok (erase_token j).
Proof.
  intros [? ? L ? ?]. split; try done. unfold lease_ok in *. cbn. destruct (job_state j); tauto.
Qed.

Lemma wf_forget s : wf s → wf (forget_tokens s).
Proof.
  intros [WJ WS WN WF WI WE]. split; unfold forget_tokens; simpl; try done; [| | | |by destruct WE].
  - intros id j. rewrite lookup_fmap_Some. intros (j0 & <- & Hj). destruct (WJ _ _ Hj) as (? & ? & ?).
    split_and!; [done|by apply erased_ok|tauto..].
  - intros d j. rewrite lookup_fmap_Some. intros (j0 & <- & Hj). destruct (WN _ _ Hj) as (? & ? & ?).
    split; [done|]. split; [by apply erased_ok|done].
  - intros d f. rewrite lookup_fmap_Some. intros (f0 & <- & Hf). destruct (WF _ _ Hf) as (? & [? ?] & Hc).
    split; [done|]. split; [split; [by apply erased_ok|done]|]. simpl. apply Forall_fmap.
    eapply Forall_impl; [done|]. intros c [? ?]. split; [by apply erased_ok|done].
  - intros p i Hi. destruct (WI _ _ Hi) as [[j Hj] ?]. split; [|done]. rewrite lookup_fmap, Hj. by eexists.
Qed.

Lemma wf_reopen queue s : wf s → wf (from_snapshot (stored (snapshot queue s))).
Proof. intros W. rewrite from_stored. by apply wf_forget, wf_restart. Qed.
End snapshot.
