(* ===== verification/JobSystem.v ===== *)
(** * The job runtime as a transition system

    The operations of the backend trait as one inductive type, their execution
    on a state, and the states reachable from the empty queue by operations and
    by restarts from a snapshot or its serialized form. *)
From S2P Require Import Prelude Ordering Text External Retry JobTypes JobStore.
From S2P Require Import JobDedup JobFlows JobCore JobQueries JobAdmin JobAdd JobInvariant.
From S2P Require Import JobPreserve JobHandlers JobSubmit JobSnapshot.
Local Open Scope Z_scope.

Section system.
Context {X : Ext}.

(** One constructor per operation, with the clock reading and the uuids the
    operation draws. *)
Inductive JobOp : Type :=
| OpAdd (spec : NewSpec) (now : DateTime)
| OpAddMany (specs : list NewSpec) (now : DateTime)
| OpAddFlow (parent : NewSpec) (children : list NewSpec) (now : DateTime)
| OpAddFlowChildren (parent_id token : string) (children : list NewSpec) (now : DateTime)
| OpUpsertRepeat (spec : NewSpec) (now : DateTime)
| OpClaim (worker : string) (lease_for : Duration) (now : DateTime) (token : string)
| OpComplete (id token : string) (value : Value) (now : DateTime) (uuid : string)
| OpFail (id token error : string) (now : DateTime) (allow_retry : bool)
| OpRenew (id token : string) (lease_for : Duration) (now : DateTime)
| OpDelayActive (id token : string) (delay : Duration) (now : DateTime)
| OpReleaseActive (id token : string) (now : DateTime)
| OpPromote (id : string) (now : DateTime)
| OpReschedule (id : string) (delay : Duration) (now : DateTime)
| OpRetry (id : string) (now : DateTime)
| OpSetPriority (id : string) (priority : JobPriority) (lifo : option bool)
| OpPromoteDue (now : DateTime)
| OpRecoverStalled (now : DateTime)
| OpPause (now : DateTime)
| OpResume (now : DateTime)
| OpRemove (id : string) (now : DateTime)
| OpRemoveRepeat (key : string) (now : DateTime)
| OpRemoveDeduplicationKey (d : string) (now : DateTime)
| OpClean (st : JobState) (grace : Duration) (limit : nat) (now : DateTime)
| OpDrain (include_delayed : bool) (clock : nat → DateTime)
| OpObliterate (force : bool)
| OpRemoveUnprocessedChildren (parent_id : string) (now : DateTime)
| OpRemoveChildDependency (child_id : string) (now : DateTime)
| OpSetData (id : string) (payload : Value)
| OpSetProgress (id : string) (progress : Value) (now : DateTime)
| OpSaveStacktrace (id : string) (stacktrace : list string) (reason : string)
| OpLog (id line : string) (keep : nat) (now : DateTime)
| OpClearLogs (id : string) (keep : nat)
| OpTrimEvents (max_len : nat).

(** The state an operation leaves, whatever its result. *)
Definition exec (queue : string) (s : QueueState) (op : JobOp) : QueueState :=
  match op with
  | OpAdd spec now => (add_at queue s spec now).1
  | OpAddMany specs now => (add_many_at queue s specs now).1
  | OpAddFlow parent children now => (add_flow_at queue s parent children now).1
  | OpAddFlowChildren pid token children now => (add_flow_children_at queue s pid token children now).1
  | OpUpsertRepeat spec now => (upsert_repeat queue s spec now).1
  | OpClaim worker lease_for now token => (claim_next s worker lease_for now token).1
  | OpComplete id token value now uuid => (complete_job s id token value now uuid).1
  | OpFail id token error now b => (fail_active_job s id token error now b).1
  | OpRenew id token lease_for now => (renew s id token lease_for now).1
  | OpDelayActive id token delay now => (delay_active s id token delay now).1
  | OpReleaseActive id token now => (release_active s id token now).1
  | OpPromote id now => (promote s id now).1
  | OpReschedule id delay now => (reschedule s id delay now).1
  | OpRetry id now => (retry s id now).1
  | OpSetPriority id p lifo => (set_priority_order s id p lifo).1
  | OpPromoteDue now => (promote_due_jobs s now).1
  | OpRecoverStalled now => (recover_stalled_jobs s now).1
  | OpPause now => (pause s now).1
  | OpResume now => (resume s now).1
  | OpRemove id now => (remove s id now).1
  | OpRemoveRepeat key now => (remove_repeat s key now).1
  | OpRemoveDeduplicationKey d now => (remove_deduplication_key s d now).1
  | OpClean st grace limit now => (clean s st grace limit now).1
  | OpDrain b clock => (drain s b clock).1
  | OpObliterate force => (obliterate s force).1
  | OpRemoveUnprocessedChildren pid now => (remove_unprocessed_children s pid now).1
  | OpRemoveChildDependency id now => (remove_child_dependency s id now).1
  | OpSetData id payload => (set_data s id payload).1
  | OpSetProgress id progress now => (set_progress s id progress now).1
  | OpSaveStacktrace id st reason => (save_stacktrace s id st reason).1
  | OpLog id line keep now => (log s id line keep now).1
  | OpClearLogs id keep => (clear_logs s id keep).1
  | OpTrimEvents n => (trim_events s (Z.of_nat n)).1
  end.

(** A uuid is never the empty string. *)
Definition op_ok (op : JobOp) : Prop :=
  match op with
  | OpAdd spec _ | OpUpsertRepeat spec _ => spec.2 ≠ EmptyString
  | OpAddMany specs _ => Forall (λ spec : NewSpec, spec.2 ≠ EmptyString) specs
  | OpAddFlow parent children _ =>
      parent.2 ≠ EmptyString ∧ Forall (λ spec : NewSpec, spec.2 ≠ EmptyString) children
  | OpAddFlowChildren _ _ children _ => Forall (λ spec : NewSpec, spec.2 ≠ EmptyString) children
  | OpComplete _ _ _ _ uuid => uuid ≠ EmptyString
  | _ => True
  end.

(** Runs of the queue: operations, restarts from a snapshot in memory, and
    restarts from its serialized form, which has no lock tokens. *)
Inductive reachable (queue : string) : QueueState → Prop :=
| reach_new : reachable queue empty_state
| reach_op s op : reachable queue s → op_ok op → reachable queue (exec queue s op)
| reach_restart s : reachable queue s → reachable queue (from_snapshot (snapshot queue s))
| reach_reopen s : reachable queue s → reachable queue (from_snapshot (stored (snapshot queue s))).

(** The two operations that write a lease. *)
Definition grants_lease (op : JobOp) : bool :=
  match op with OpClaim _ _ _ _ | OpRenew _ _ _ _ => true | _ => false end.

(** Executing a list of operations, for concrete runs. *)
Definition run (queue : string) (ops : list JobOp) : QueueState := foldl (exec queue) empty_state ops.

Context `{!ExtLaws X}.

Lemma wf_empty : wf empty_state.
Proof. by split. Qed.

(** All handlers at once. *)
Lemma inv_exec s0 queue s op : inv s0 s → op_ok op → grants_lease op = false → inv s0 (exec queue s op).
Proof.
  intros H Hok Hc. destruct op; try done; cbn [exec op_ok] in *.
  - by apply inv_add.
  - by apply inv_add_many.
  - destruct Hok. by apply inv_add_flow.
  - by apply inv_add_children.
  - by apply inv_upsert.
  - by apply inv_complete.
  - by apply inv_fail.
  - by apply inv_delay_active.
  - by apply inv_release_active.
  - by apply inv_promote.
  - by apply inv_reschedule.
  - by apply inv_retry.
  - by apply inv_set_priority.
  - unfold promote_due_jobs. pose proof (inv_promote_due s0 s now H). by destruct (promote_due_locked s now).
  - by apply inv_recover_stalled.
  - by apply inv_pause.
  - by apply inv_resume_queue.
  - by apply inv_remove_job.
  - by apply inv_remove_repeat.
  - by apply inv_remove_deduplication_key.
  - by apply inv_clean.
  - by apply inv_drain.
  - by apply inv_obliterate.
  - by apply inv_remove_children.
  - by apply inv_remove_child_dependency.
  - by apply inv_set_data.
  - by apply inv_set_progress.
  - by apply inv_save_stacktrace.
  - by apply inv_log.
  - by apply inv_clear_logs.
  - unfold trim_events. assert (0 ≤ Z.of_nat max_len) as Hn by lia.
    pose proof (inv_trim s0 s _ Hn H). by destruct (trim_events_locked s _).
Qed.

Lemma wf_exec queue s op : wf s → op_ok op → wf (exec queue s op).
Proof.
  intros W Hok. destruct (grants_lease op) eqn:Hc.
  - destruct op; try done; [by apply wf_claim|by apply wf_renew].
  - by apply (inv_wf s), inv_exec; [apply inv_refl|..].
Qed.

Lemma reachable_wf_aux queue s : reachable queue s → wf s.
Proof.
  induction 1; [apply wf_empty|by apply wf_exec|by apply wf_restart|by apply wf_reopen].
Qed.

Lemma reachable_run queue ops : Forall op_ok ops → reachable queue (run queue ops).
Proof.
  intros H. unfold run. apply (foldl_keeps_forall (reachable queue) op_ok); [|done|constructor].
  intros. by constructor.
Qed.
End system.
