(* ===== verification/JobClaim.v ===== *)
(** * Claims and leases

    The invariant over all runs, the exclusivity of leases, what a claim
    returns, the order in which waiting jobs are claimed, and the rejection of
    callers that do not hold the lease. *)
From S2P Require Import Prelude Ordering Text External Retry JobTypes JobStore.
From S2P Require Import JobDedup JobFlows JobCore JobQueries JobAdmin JobAdd JobInvariant.
From S2P Require Import JobPreserve JobHandlers JobSubmit JobSnapshot JobSystem.
Local Open Scope Z_scope.

(** ** Concrete runs for the witnesses *)
Module Demo.
#[export] Existing Instance demo_ext.

Definition spec (id : string) (o : JobOptions) : @NewSpec demo_ext :=
  ({| spec_name := "task"; spec_payload := ("{}" : @Value demo_ext);
      spec_options := o <| opt_job_id := Some id |> |}, "uuid").

(** Two waiting jobs of different priority and one delayed until time 100. *)
Definition three_jobs : list JobOp := [
  OpAdd (spec "a" (default_options <| opt_priority := 5 |>)) 0;
  OpAdd (spec "b" (default_options <| opt_priority := 3 |>)) 1;
  OpAdd (spec "c" (default_options <| opt_delay := Some 100 |> <| opt_priority := 1 |>)) 2
].

Definition queue3 : QueueState := run "q" three_jobs.

Lemma queue3_ops : Forall op_ok three_jobs.
Proof. repeat constructor; done. Qed.

Lemma queue3_reachable : reachable "q" queue3.
Proof. apply reachable_run, queue3_ops. Qed.

(** The state after worker [w1] claimed a job with token [t1]. *)
Definition leased : QueueState := exec "q" queue3 (OpClaim "w1" 30 10 "t1").

Lemma leased_reachable : reachable "q" leased.
Proof. apply reach_op; [apply queue3_reachable|done]. Qed.
End Demo.

Section claim.
Context {X : Ext} `{!ExtLaws X}.
Implicit Types (s : QueueState) (j : Job).

(** A job a claim at time [now] may hand out. *)
Definition eligible (s : QueueState) (now : DateTime) (j : Job) : Prop :=
  jobs s !! job_id j = Some j ∧
  (job_state j = Waiting ∨ (job_state j = Delayed ∧ job_scheduled_at j ≤ now)).

(** What promotion makes of a stored job. *)
Lemma promoted_view s now j : wf s → eligible s now j →
  ∃ j1, jobs (promote_due_locked s now).1 !! job_id j = Some j1 ∧ job_state j1 = Waiting ∧
    job_id j1 = job_id j ∧ job_priority j1 = job_priority j ∧ job_options j1 = job_options j ∧
    (job_state j = Waiting → j1 = j).
Proof.
  intros W [Hj Hst]. destruct (promote_due_spec s s now (inv_refl s W)) as (_ & _ & _ & Hkeep & Hdue & _).
  destruct Hst as [Hst|[Hst Ht]].
  - exists j. rewrite (Hkeep _ _ Hj); [by split_and!|]. intros [? _]. congruence.
  - assert (j ∈ due_jobs s now) as Hin by by apply elem_of_due_jobs.
    apply list_elem_of_lookup in Hin as [i Hi]. eexists. split; [by apply Hdue|].
    split_and!; try done. intros. congruence.
Qed.

(** Nothing but the eligible jobs is waiting after promotion. *)
Lemma waiting_after_promotion s now id j1 : wf s →
  jobs (promote_due_locked s now).1 !! id = Some j1 → job_state j1 = Waiting →
  ∃ j, eligible s now j ∧ job_id j = id.
Proof.
  intros W Hj1 Hst. destruct (promote_due_spec s s now (inv_refl s W)) as (_ & _ & _ & Hkeep & Hdue & Hnone).
  destruct (jobs s !! id) as [j|] eqn:Ej; [|by rewrite Hnone in Hj1].
  destruct (wf_lookup s W _ _ Ej) as (Hid & _). exists j. split; [|done]. split; [by rewrite Hid|].
  destruct (decide (job_state j = Delayed ∧ job_scheduled_at j ≤ now)) as [Hd|Hd]; [by right|].
  left. rewrite (Hkeep _ _ Ej Hd) in Hj1. by simplify_eq.
Qed.

Lemma claim_cases s w l now t : wf s →
  let s1 := (promote_due_locked s now).1 in
  (paused s = true ∧ claim_next s w l now t = (s, Ok None)) ∨
  (paused s = false ∧ (∀ j, ¬ eligible s now j) ∧ claim_next s w l now t = (s1, Ok None)) ∨
  (paused s = false ∧ ∃ j1, jobs s1 !! job_id j1 = Some j1 ∧ job_state j1 = Waiting ∧
     (∀ j', jobs s1 !! job_id j' = Some j' → job_state j' = Waiting → cmp_le compare_claim_order j1 j') ∧
     claim_next s w l now t =
       (emit_event_locked (put_job s1 (job_id j1) (claimed_job j1 w t l now)) "active"
          (Some (claimed_job j1 w t l now)) (Some Waiting) now ∅,
        Ok (Some (claimed_job j1 w t l now)))).
Proof.
  intros W s1. unfold claim_next. destruct (paused s); [by left|right].
  pose proof (inv_wf _ _ (inv_promote_due s s now (inv_refl s W))) as W1. fold s1 in W1 |- *.
  destruct (select_next s1) as [j1|] eqn:Es; [right|left].
  - destruct (select_next_spec _ _ W1 Es) as (Hj & Hst & Hmin). split; [done|]. exists j1. by rewrite Hj.
  - split_and!; [done| |done]. intros j He.
    destruct (promoted_view s now j W He) as (j1 & Hj1 & Hst & Hid & _). apply min_by_None in Es.
    assert (j1 ∈ ([] : list Job)) as Hin; [|by apply not_elem_of_nil in Hin].
    rewrite <- Es. apply elem_of_waiting; [done|]. by rewrite Hid.
Qed.

(** ** The invariant *)

(** C1: in every state the queue reaches by backend operations and restarts
    from snapshots, each job is stored under its id, its lease, finish time,
    result and priority agree with its lifecycle state, the waiting order is
    within the counter, the parked candidates are filed under their
    deduplication id, dependency indexes belong to live parents and hold each
    child in one bucket, and the event log is a bounded, gapless window. *)
Theorem reachable_wf (queue : string) s : reachable queue s → wf s.
Proof. apply reachable_wf_aux. Qed.

(** ** Leases *)

(** Where an active job comes from. *)
Lemma active_origin (queue : string) s op id j' :
  wf s → op_ok op → jobs (exec queue s op) !! id = Some j' → job_state j' = Active →
  (∃ j, jobs s !! id = Some j ∧ job_state j = Active ∧ lease_of j' = lease_of j) ∨
  (∃ w l now t j, op = OpClaim w l now t ∧ eligible s now j ∧ job_id j = id ∧
     (claim_next s w l now t).2 = Ok (Some j') ∧ job_worker_id j' = Some w ∧ job_lock_token j' = Some t) ∨
  (∃ t l now j, op = OpRenew id t l now ∧ jobs s !! id = Some j ∧ owned_by j t ∧ j' = renewed_job j l now).
Proof.
  intros W Hok Hj' Ha. destruct (grants_lease op) eqn:Hg.
  - destruct op; try done; [rename worker into w, lease_for into l, token into t|
      rename id0 into rid, token into t, lease_for into l]; cbn [exec] in Hj'.
    + pose proof (inv_active _ _ (inv_promote_due s s now (inv_refl s W))) as HP.
      destruct (claim_cases s w l now t W)
        as [[_ E]|[(_ & _ & E)|(_ & j1 & Hj1 & Hst & _ & E)]]; rewrite E in Hj'; cbn [fst] in Hj'.
      * left. by eauto.
      * left. by apply HP.
      * rewrite emit_event_frame in Hj'. simpl in Hj'.
        apply lookup_insert_Some in Hj' as [[<- <-]|[_ Hj']]; [right; left|left; by apply HP].
        destruct (waiting_after_promotion s now _ _ W Hj1 Hst) as (j & He & Hid).
        exists w, l, now, t, j. by rewrite E.
    + destruct (renew_cases s rid t l now) as [[E _]|(j & Ej & Ho & E)]; rewrite E in Hj'; cbn [fst] in Hj'.
      * left. by eauto.
      * unfold put_job in Hj'. simpl in Hj'.
        apply lookup_insert_Some in Hj' as [[<- <-]|[_ Hj']]; [right; right; eauto 10|left; by eauto].
  - left. by apply (inv_active _ _ (inv_exec s queue s op (inv_refl s W) Hok Hg)).
Qed.

(** C2: a job is active in the state after an operation only if it was active
    before with the same worker, token, expiry, attempt count and start time,
    or the operation is a claim that returned it and it was claimable, or it
    is a renewal by the holder of its token.  No other operation grants,
    moves or extends a lease, so two workers never hold the same job. *)
Theorem leases_are_exclusive (queue : string) s op id j' :
  reachable queue s → op_ok op → jobs (exec queue s op) !! id = Some j' → job_state j' = Active →
  (∃ j, jobs s !! id = Some j ∧ job_state j = Active ∧ lease_of j' = lease_of j) ∨
  (∃ w l now t j, op = OpClaim w l now t ∧ eligible s now j ∧ job_id j = id ∧
     (claim_next s w l now t).2 = Ok (Some j') ∧ job_worker_id j' = Some w ∧ job_lock_token j' = Some t) ∨
  (∃ t l now j, op = OpRenew id t l now ∧ jobs s !! id = Some j ∧ owned_by j t ∧ j' = renewed_job j l now).
Proof. intros W%reachable_wf_aux. by apply active_origin. Qed.

(** ** What a claim returns *)

(** C3: on a paused queue a claim changes nothing and returns nothing;
    otherwise it returns nothing exactly when no job is waiting and no delayed
    job is due, and what it returns is one of these jobs, made active with the
    caller's worker id, the fresh token, the attempt counted and the lease
    running from now, whose priority is least among them and which is first
    in waiting order among the waiting jobs of its priority. *)
Theorem claim_next_spec (queue : string) s w l now t : reachable queue s →
  (paused s = true → claim_next s w l now t = (s, Ok None)) ∧
  (paused s = false → ∀ r, (claim_next s w l now t).2 = r →
     (r = Ok None ∧ ∀ j, ¬ eligible s now j) ∨
     (∃ j c, r = Ok (Some c) ∧ eligible s now j ∧ job_id c = job_id j ∧
        jobs (claim_next s w l now t).1 !! job_id j = Some c ∧
        job_state c = Active ∧ job_worker_id c = Some w ∧ job_lock_token c = Some t ∧
        job_attempts_made c = sat_add U32_MAX (job_attempts_made j) 1 ∧
        job_lease_expires_at c = Some (add_duration now l) ∧
        (∀ j', eligible s now j' → job_priority j ≤ job_priority j') ∧
        (job_state j = Waiting → ∀ j', jobs s !! job_id j' = Some j' → job_state j' = Waiting →
           job_priority j' = job_priority j → compare_waiting_order j j' ≠ Gt))).
Proof.
  intros W%reachable_wf_aux.
  destruct (claim_cases s w l now t W) as [[Hp E]|[(Hp & Hn & E)|(Hp & j1 & Hj1 & Hst & Hmin & E)]];
    rewrite E; (split; [intros; congruence|]); cbn [fst snd].
  - congruence.
  - intros _ r <-. by left.
  - intros _ r <-. right.
    destruct (waiting_after_promotion s now _ _ W Hj1 Hst) as (j & He & Hid).
    destruct (promoted_view s now j W He) as (j2 & Hj2 & _ & _ & Hprio & Hopt & Hsame).
    rewrite Hid in Hj2. rewrite Hj1 in Hj2. simplify_eq.
    assert (∀ j', eligible s now j' → job_priority j ≤ job_priority j') as Hpmin.
    { intros j' He'. destruct (promoted_view s now j' W He') as (j3 & Hj3 & Hst3 & Hid3 & Hp3 & _).
      rewrite <- Hprio, <- Hp3. assert (cmp_le compare_claim_order j2 j3) as Hle by (apply Hmin; by rewrite ?Hid3).
      unfold cmp_le, compare_claim_order, cmp_then, then_with, cmp_on in Hle.
      destruct (Z.compare_spec (job_priority j2) (job_priority j3)); [lia|lia|done]. }
    assert (job_attempts_made j2 = job_attempts_made j) as Hatt.
    { destruct (promote_due_spec s s now (inv_refl s W)) as (_ & _ & _ & Hkeep & Hdue & _).
      destruct He as [Hj [Hs|[Hs Ht]]].
      - by rewrite (Hsame Hs).
      - assert (j ∈ due_jobs s now) as [i Hi]%list_elem_of_lookup by by apply elem_of_due_jobs.
        specialize (Hdue i j Hi). rewrite Hid, Hj1 in Hdue. by simplify_eq. }
    exists j, (claimed_job j2 w t l now). split_and!; try done.
    + rewrite emit_event_frame. simpl. by rewrite Hid, lookup_insert_eq.
    + simpl. by rewrite Hatt.
    + intros Hs j' Hj' Hs' Hp'. rewrite (Hsame Hs) in *.
      assert (cmp_le compare_claim_order j j') as Hle.
      { apply Hmin; [|done]. destruct (promoted_view s now j' W) as (j3 & Hj3 & _ & _ & _ & _ & Hsame3).
        { split; [done|by left]. } by rewrite Hj3, (Hsame3 Hs'). }
      unfold cmp_le, compare_claim_order, cmp_then, then_with, cmp_on in Hle.
      rewrite Hp', Z.compare_refl in Hle. intros Hgt. by rewrite Hgt in Hle.
Qed.
(** ** Callers without the lease *)

(** Nothing changed and an error was returned. *)
Definition rejected {A} (s : QueueState) (r : QueueState * Result A) : Prop :=
  r.1 = s ∧ is_ok r.2 = false.

Lemma not_owned_cases j t a : ¬ owned_by j t →
  is_ok (require_active j a) = false ∨ is_ok (require_lock_token j t) = false.
Proof.
  intros Hn. destruct (require_active j a) as [[]|] eqn:Ea; [|by left].
  destruct (require_lock_token j t) as [[]|] eqn:Et; [|by right].
  apply require_active_ok in Ea. apply require_lock_token_ok in Et. by destruct Hn.
Qed.

Lemma guarded_rejected {A} s j t a (k : QueueState * Result A) : ¬ owned_by j t →
  let r := match require_active j a with
           | Ok _ => match require_lock_token j t with Ok _ => k | Err e => (s, Err e) end
           | Err e => (s, Err e)
           end in
  r.1 = s ∧ is_ok r.2 = false.
Proof.
  intros Hn. destruct (not_owned_cases j t a Hn);
    destruct (require_active j a), (require_lock_token j t); done.
Qed.

(** C4: complete, fail, renewal, delay, release and the addition of flow
    children by a caller whose token is not the one an active job is leased
    under are rejected without any change to the queue. *)
Theorem lease_holder_only (queue : string) s id t j : jobs s !! id = Some j → ¬ owned_by j t →
  (∀ v now uuid, rejected s (complete_job s id t v now uuid)) ∧
  (∀ e now, rejected s (fail_job s id t e now)) ∧
  (∀ e now, rejected s (fail_job_discarding_retry s id t e now)) ∧
  (∀ l now, rejected s (renew s id t l now)) ∧
  (∀ d now, rejected s (delay_active s id t d now)) ∧
  (∀ now, rejected s (release_active s id t now)) ∧
  (∀ specs now, rejected s (add_flow_children_at queue s id t specs now)).
Proof.
  intros Hj Hn. unfold rejected, complete_job, fail_job, fail_job_discarding_retry, fail_active_job, renew,
    delay_active, release_active, add_flow_children_at. rewrite Hj.
  split_and!; intros; try by apply guarded_rejected.
  destruct specs as [|x l]; [done|]. destruct (validate_specs _ _); [|done].
  destruct (validate_flow_child_jobs _ _); [|done]. by apply guarded_rejected.
Qed.

(** ** Submission order *)
Lemma emit_created_frame s j now :
  jobs (emit_job_created_events_locked s j now) = jobs s ∧
  sequence (emit_job_created_events_locked s j now) = sequence s ∧
  paused (emit_job_created_events_locked s j now) = paused s.
Proof. unfold emit_job_created_events_locked. by autorewrite with frame. Qed.

Lemma insert_new_job_spec s j now :
  let '(s', r) := insert_new_job s j now in
  jobs s' = <[ job_id j := r ]> (jobs s) ∧ job_id r = job_id j ∧ job_state r = job_state j ∧
  job_options r = job_options j ∧ job_priority r = job_priority j ∧
  (job_state j = Waiting → job_enqueued_seq r = sat_add U64_MAX (sequence s) 1) ∧
  (job_state j ≠ Waiting → r = j).
Proof.
  unfold insert_new_job, assign_waiting_order.
  set (s1 := forget_released_deduplication_owner_locked s j).
  assert (jobs s1 = jobs s ∧ sequence s1 = sequence s) as [Hj1 Hs1].
  { unfold s1, forget_released_deduplication_owner_locked. by destruct (job_deduplication_id j). }
  clearbody s1. rewrite <- Hj1, <- Hs1. clear s Hj1 Hs1.
  destruct (state_eqb (job_state j) Waiting) eqn:E; states; cbn -[emit_job_created_events_locked];
    rewrite (proj1 (emit_created_frame _ _ _)); (split; [reflexivity|]).
  - by rewrite E.
  - done.
Qed.

Lemma find_stored s P j : wf s → List.find P (hash_values (jobs s)) = Some j → jobs s !! job_id j = Some j.
Proof.
  intros W [Hin _]%List.find_some. rewrite <- list_elem_of_In in Hin. by apply elem_of_stored in Hin.
Qed.

Lemma find_repeat_stored s j e : wf s → find_active_repeat_job (jobs s) j = Some e →
  jobs s !! job_id e = Some e.
Proof.
  intros W. unfold find_active_repeat_job. destruct (active_repeat_key j); [|done]. by apply find_stored.
Qed.

Lemma find_dedup_stored s r j e now : wf s → find_active_deduplicated_job (jobs s) r j now = Some e →
  jobs s !! job_id e = Some e.
Proof.
  intros W. unfold find_active_deduplicated_job. destruct (active_deduplication_id j now); [|done].
  by apply find_stored.
Qed.

Lemma remove_record_spec s id :
  jobs (remove_job_record_locked s id).1 = delete id (jobs s) ∧
  sequence (remove_job_record_locked s id).1 = sequence s ∧
  paused (remove_job_record_locked s id).1 = paused s.
Proof.
  unfold remove_job_record_locked. destruct (jobs s !! id) as [j|] eqn:E; cbn [fst].
  - unfold forget_released_deduplication_owner_locked. by destruct (job_deduplication_id j).
  - by rewrite delete_id.
Qed.

Lemma emit_deduplication_frame s o d i now :
  jobs (emit_deduplication_events_locked s o d i now) = jobs s ∧
  sequence (emit_deduplication_events_locked s o d i now) = sequence s.
Proof. unfold emit_deduplication_events_locked. by autorewrite with frame. Qed.

Lemma emit_replaced_frame s o c now :
  jobs (emit_replaced_deduplicated_owner_events_locked s o c now) = jobs s ∧
  sequence (emit_replaced_deduplicated_owner_events_locked s o c now) = sequence s.
Proof.
  unfold emit_replaced_deduplicated_owner_events_locked.
  destruct (job_deduplication_id o); [apply emit_deduplication_frame|done].
Qed.

Lemma emit_removed_frame s j now :
  jobs (emit_removed_event_locked s j now) = jobs s ∧ sequence (emit_removed_event_locked s j now) = sequence s.
Proof. unfold emit_removed_event_locked. by autorewrite with frame. Qed.
(** [add_one] returns a stored job or inserts the candidate into a state with
    the same counter and no further jobs. *)
Lemma add_unowned_cases s s1 j now : wf s → (∀ id x, jobs s1 !! id = Some x → jobs s !! id = Some x) →
  is_Some (jobs s !! job_id (add_unowned s1 j now).2) ∨ add_unowned s1 j now = insert_new_job s1 j now.
Proof.
  intros W Hsub. unfold add_unowned. destruct (find_active_repeat_job (jobs s1) j) as [e|] eqn:E; [left|by right].
  unfold find_active_repeat_job in E. destruct (active_repeat_key j) as [k|]; [|done].
  apply List.find_some in E as [E _]. rewrite <- list_elem_of_In, elem_of_hash_values in E.
  destruct E as [id E]. pose proof (Hsub _ _ E) as E'. destruct (wf_lookup s W _ _ E') as (Hid & _).
  simpl. rewrite Hid. by eauto.
Qed.

(** The candidate as it is inserted: the expiration of a replaced owner may carry over. *)
Definition same_submission (j1 j : Job) : Prop :=
  job_id j1 = job_id j ∧ job_options j1 = job_options j ∧ job_state j1 = job_state j
  ∧ job_priority j1 = job_priority j.

Lemma add_one_cases s j now : wf s →
  is_Some (jobs s !! job_id (add_one s j now).2) ∨
  ∃ s1 j1, add_one s j now = insert_new_job s1 j1 now ∧
    (∀ id x, jobs s1 !! id = Some x → jobs s !! id = Some x) ∧ sequence s1 = sequence s ∧ same_submission j1 j.
Proof.
  intros W. unfold add_one. destruct (jobs s !! job_id j) as [e|] eqn:Ej.
  { left. simpl. destruct (wf_lookup s W _ _ Ej) as (-> & _). eauto. }
  assert (∀ s1 j1, (∀ id x, jobs s1 !! id = Some x → jobs s !! id = Some x) → sequence s1 = sequence s →
            same_submission j1 j →
            is_Some (jobs s !! job_id (add_unowned s1 j1 now).2) ∨
            ∃ s2 j2, add_unowned s1 j1 now = insert_new_job s2 j2 now ∧
              (∀ id x, jobs s2 !! id = Some x → jobs s !! id = Some x) ∧ sequence s2 = sequence s ∧
              same_submission j2 j) as Hun.
  { intros s1 j1 Hsub Hseq Hsame. destruct (add_unowned_cases s s1 j1 now W Hsub); [by left|].
    right. by exists s1, j1. }
  destruct (find_active_deduplicated_job _ _ j now) as [e|] eqn:Ed; [|by apply Hun].
  pose proof (find_dedup_stored _ _ _ _ _ W Ed) as He.
  destruct (deduplication_replaces_delayed_owner j e).
  - destruct (remove_record_spec s (job_id e)) as (Hj & Hs & _).
    assert (same_submission (preserve_replacement_deduplication_expiration j e) j) as Hsame.
    { unfold preserve_replacement_deduplication_expiration. by destruct (dedup_test _ _). }
    generalize dependent (preserve_replacement_deduplication_expiration j e). intros j1 Hsame.
    assert (∀ id x, delete (job_id e) (jobs s) !! id = Some x → jobs s !! id = Some x) as Hdel.
    { by intros id x [_ ?]%lookup_delete_Some. }
    destruct (remove_job_record_locked s (job_id e)) as [s1 [r|]]; cbn [fst] in *; apply Hun; try done.
    + rewrite (proj1 (emit_replaced_frame _ _ _ _)), (proj1 (emit_removed_frame _ _ _)). by rewrite Hj.
    + rewrite (proj2 (emit_replaced_frame _ _ _ _)). by rewrite (proj2 (emit_removed_frame _ _ _)).
    + by rewrite Hj.
  - left. cbn [snd].
    match goal with |- context [unwrap_or ?o e] => destruct o as [x|] eqn:Ex end; simpl; [|by eauto].
    assert (job_id <$> jobs s !! job_id e = Some (job_id x)) as Hx.
    { rewrite <- (store_next_field job_id (λ _ _, eq_refl) s j e).
      rewrite <- (extend_field job_id (λ _ _, eq_refl) _ j (job_id e) now).
      assert (∀ s2 b, jobs (if b : bool then emit_deduplicated_events_locked s2 e j now else s2) = jobs s2) as Hb.
      { intros s2 []; [|done]. unfold emit_deduplicated_events_locked.
        destruct (job_deduplication_id j); [apply emit_deduplication_frame|done]. }
      rewrite Hb in Ex. by rewrite Ex. }
    rewrite He in Hx. injection Hx as <-. by eauto.
Qed.

(** A job that [add] inserts as waiting is claimed after every waiting job
    of its priority that is not marked LIFO, and a LIFO job before every one
    that holds a place in the waiting order (until the 64-bit counter
    saturates): first in, first out within a priority. *)
Theorem submission_order (queue : string) s (spec : NewSpec) now s' j j0 :
  reachable queue s → sequence s < U64_MAX →
  add_at queue s spec now = (s', Ok j) → jobs s !! job_id j = None → job_state j = Waiting →
  jobs s !! job_id j0 = Some j0 → job_state j0 = Waiting →
  (opt_lifo (job_options j) = false → compare_waiting_order j0 j = Lt) ∧
  (opt_lifo (job_options j) = true → job_enqueued_seq j0 ≠ 0 → compare_waiting_order j j0 = Lt).
Proof.
  intros W%reachable_wf_aux Hseq Hadd Hnew Hst Hj0 Hst0. unfold add_at in Hadd.
  destruct (validate_job_options_at _ now); [|done].
  destruct (add_one_cases s (job_of_spec queue now spec) now W) as [[x Hx]|(s1 & j1 & E & Hsub & Hs1 & Hsame)];
    destruct (add_one s (job_of_spec queue now spec) now) as [s2 j2] eqn:Eadd; simplify_eq.
  { simpl in Hx. congruence. }
  pose proof (insert_new_job_spec s1 j1 now) as HI. rewrite <- E in HI.
  destruct HI as (_ & _ & Hstj & _ & _ & Hsq & _). rewrite Hstj in Hst. specialize (Hsq Hst).
  rewrite Hs1 in Hsq. unfold sat_add in Hsq.
  destruct (wf_lookup s W _ _ Hj0) as (_ & _ & ? & ?). destruct (wf_seq s W) as [? _].
  unfold compare_waiting_order. destruct (Z.eqb_spec (job_enqueued_seq j) 0); [lia|].
  split; intros Hl; rewrite Hl.
  - destruct (Z.eqb_spec (job_enqueued_seq j0) 0); [done|].
    destruct (opt_lifo (job_options j0)); [done|]. apply Z.compare_lt_iff. lia.
  - intros Hz. destruct (Z.eqb_spec (job_enqueued_seq j0) 0); [done|].
    destruct (opt_lifo (job_options j0)); [|done]. apply Z.compare_lt_iff. lia.
Qed.
End claim.

(** ** Witnesses *)
Import Demo.

Lemma reachable_wf_witness : wf leased.
Proof. exact (reachable_wf "q" leased leased_reachable). Defined.

Lemma claim_next_spec_witness :
  paused queue3 = false ∧
  match (claim_next queue3 "w1" 30 10 "t1").2 with
  | Ok (Some c) => job_id c = "b" ∧ jobs (claim_next queue3 "w1" 30 10 "t1").1 !! "b" = Some c
  | _ => False
  end.
Proof.
  split; [vm_compute; reflexivity|].
  destruct (claim_next_spec "q" queue3 "w1" 30 10 "t1" queue3_reachable) as [_ H].
  assert (match (claim_next queue3 "w1" 30 10 "t1").2 with Ok (Some c) => job_id c | _ => "" end = "b") as E
    by (vm_compute; reflexivity).
  destruct (H (ltac:(vm_compute; reflexivity)) _ eq_refl) as [[E' _]|(j & c & E' & _ & Hid & Hc & _)];
    rewrite E' in E |- *; [discriminate E|].
  split; [exact E|]. rewrite <- Hid, E in Hc. exact Hc.
Defined.

Lemma leases_are_exclusive_witness :
  ∃ j', jobs (exec "q" leased (OpPause 20)) !! "b" = Some j' ∧ job_state j' = Active ∧
    ((∃ j, jobs leased !! "b" = Some j ∧ job_state j = Active ∧ lease_of j' = lease_of j) ∨
     (∃ w l now t j, OpPause 20 = OpClaim w l now t ∧ eligible leased now j ∧ job_id j = "b" ∧
       (claim_next leased w l now t).2 = Ok (Some j') ∧ job_worker_id j' = Some w ∧ job_lock_token j' = Some t) ∨
     (∃ t l now j, OpPause 20 = OpRenew "b" t l now ∧ jobs leased !! "b" = Some j ∧ owned_by j t
       ∧ j' = renewed_job j l now)).
Proof.
  assert (job_state <$> jobs (exec "q" leased (OpPause 20)) !! "b" = Some Active) as H
    by (vm_compute; reflexivity).
  apply fmap_Some in H as (j' & Hj & Ha). symmetry in Ha. exists j'. split; [exact Hj|]. split; [exact Ha|].
  exact (leases_are_exclusive "q" leased (OpPause 20) "b" j' leased_reachable I Hj Ha).
Defined.

Lemma lease_holder_only_witness :
  ∃ j, jobs leased !! "b" = Some j ∧ rejected leased (complete_job leased "b" "stale" "null" 20 "u").
Proof.
  assert (job_lock_token <$> jobs leased !! "b" = Some (Some "t1")) as H by (vm_compute; reflexivity).
  apply fmap_Some in H as (j & Hj & Ht). exists j. split; [exact Hj|].
  assert (¬ owned_by j "stale") as Hn by (intros [_ E]; congruence).
  exact (proj1 (lease_holder_only "q" leased "b" "stale" j Hj Hn) "null" 20 "u").
Defined.

Lemma submission_order_witness :
  ∃ s' j j0, add_at "q" queue3 (spec "d" default_options) 5 = (s', Ok j) ∧ jobs queue3 !! "a" = Some j0 ∧
    compare_waiting_order j0 j = Lt.
Proof.
  destruct (add_at "q" queue3 (spec "d" default_options) 5) as [s' r] eqn:E.
  assert ((match r with Ok j => Some (job_id j, job_state j, opt_lifo (job_options j)) | Err _ => None end)
          = Some ("d", Waiting, false)) as Hr.
  { change r with (s', r).2. rewrite <- E. vm_compute. reflexivity. }
  destruct r as [j|]; [|discriminate Hr]. injection Hr as Hid Hst Hl.
  assert ((λ j, (job_id j, job_state j)) <$> jobs queue3 !! "a" = Some ("a", Waiting)) as H0
    by (vm_compute; reflexivity).
  apply fmap_Some in H0 as (j0 & Hj0 & [= Hid0 Hst0]).
  exists s', j, j0. split; [reflexivity|]. split; [exact Hj0|].
  refine (proj1 (submission_order "q" queue3 (spec "d" default_options) 5 s' j j0 queue3_reachable _ E _ Hst _ _) Hl).
  - vm_compute. reflexivity.
  - rewrite Hid. apply is_none_true. vm_compute. reflexivity.
  - rewrite <- Hid0. exact Hj0.
  - symmetry. exact Hst0.
Defined.
