(* ===== verification/JobReports.v ===== *)
(** * Reports of a worker, promotion and recovery

    What an accepted report does to the lease, what a failed attempt becomes,
    the promotion of due jobs and the recovery of jobs whose lease expired. *)
From Stdlib Require Import Sorted.
From S2P Require Import Prelude Ordering Text External Retry JobTypes JobStore JobDedup JobFlows JobCore JobQueries JobAdmin JobAdd JobInvariant JobPreserve JobHandlers JobSubmit JobSnapshot JobSystem JobClaim.
Local Open Scope Z_scope.

Section reports.
Context {X : Ext} `{!ExtLaws X}.
Implicit Types (s : QueueState) (j : Job).

(** ** Reports *)

(** The four ways the holder of a lease gives it up. *)
Inductive Report : Type :=
| RComplete (value : Value) (uuid : string)
| RFail (error : string) (allow_retry : bool)
| RDelay (delay : Duration)
| RRelease.

Definition report_ok (r : Report) : Prop :=
  match r with RComplete _ uuid => uuid ≠ EmptyString | _ => True end.

Definition report (s : QueueState) (id t : string) (r : Report) (now : DateTime) : QueueState * Result Job :=
  match r with
  | RComplete v uuid => complete_job s id t v now uuid
  | RFail e b => fail_active_job s id t e now b
  | RDelay d => delay_active s id t d now
  | RRelease => release_active s id t now
  end.

(** What the report makes of the leased job. *)
Definition reported (j : Job) (r : Report) (now : DateTime) : Job :=
  match r with
  | RComplete v _ => completed_job j v now
  | RFail e b => failed_attempt j e now b
  | RDelay d => delayed_active_job j d now
  | RRelease => released_job j now
  end.

Lemma reported_idle j r now : job_state (reported j r now) ≠ Active.
Proof. destruct r; [done|apply failed_attempt_idle|done|done]. Qed.

Lemma reported_id j r now : job_id (reported j r now) = job_id j.
Proof. destruct r; try done. unfold reported, failed_attempt. by destruct (_ && _). Qed.

(** An accepted report starts from the lease and keeps the invariant of the
    state in which the job is no longer active. *)
Lemma report_from s id t r now j : wf s → report_ok r → jobs s !! id = Some j → job_state j = Active →
  let p := report s id t r now in
  (p.1 = s ∧ is_ok p.2 = false) ∨
  (owned_by j t ∧ inv (put_job s id (reported j r now)) p.1
     ∧ (p.2 = Ok (reported j r now) ∨ is_ok p.2 = false)).
Proof.
  intros W Hr Ej Ha p. subst p. destruct (wf_lookup s W _ _ Ej) as (Hid & Hok & Hsq).
  assert (inv (put_job s id (reported j r now)) (put_job s id (reported j r now))) as HI.
  { apply inv_refl, wf_put; [done| |by rewrite reported_id|].
    - destruct r; [by apply completed_ok|by apply failed_attempt_ok|by apply delayed_active_ok|
        by apply released_ok].
    - destruct (wf_seq s W). destruct r; simpl; [done| |done|lia].
      unfold failed_attempt. by destruct (_ && _). }
  destruct r as [v u|e b|d|]; simpl in *.
  - destruct (complete_from _ s id t v now u j Hr Ej Hok HI) as [?|(?&?&?)]; eauto.
  - destruct (fail_from _ s id t e now b j Ej HI) as [?|(?&?&?)]; eauto.
  - unfold delay_active, owned_by. rewrite Ej.
    destruct (require_active j _) as [[]|]; [|by left].
    destruct (require_lock_token j t) as [[]|] eqn:Ht; [right|by left]. apply require_lock_token_ok in Ht.
    split; [done|]. split; [by apply inv_emit|by left].
  - unfold release_active, owned_by. rewrite Ej.
    destruct (require_active j _) as [[]|]; [|by left].
    destruct (require_lock_token j t) as [[]|] eqn:Ht; [right|by left]. apply require_lock_token_ok in Ht.
    split; [done|]. split; [by apply inv_emit|by left].
Qed.

Lemma report_not_owned s id t r now : (∀ j, jobs s !! id = Some j → ¬ owned_by j t) →
  rejected s (report s id t r now).
Proof.
  intros Hn. unfold rejected. destruct (jobs s !! id) as [j|] eqn:Ej; cycle 1.
  { destruct r; simpl; unfold complete_job, fail_active_job, delay_active, release_active; by rewrite Ej. }
  specialize (Hn j eq_refl).
  destruct r; simpl; unfold complete_job, fail_active_job, delay_active, release_active; rewrite Ej;
    by apply guarded_rejected.
Qed.

(** C5: a lease is reported once.  After an accepted completion, failure,
    delay or release no job is active under the id, and any further report
    with the same token is rejected without a change. *)
Theorem report_once (queue : string) s id t r now s' j' :
  reachable queue s → report_ok r → report s id t r now = (s', Ok j') →
  (∀ j, jobs s' !! id = Some j → job_state j ≠ Active) ∧
  (∀ r' now', rejected s' (report s' id t r' now')).
Proof.
  intros W%reachable_wf_aux Hr E.
  assert (∀ j, jobs s' !! id = Some j → job_state j ≠ Active) as Hidle.
  { destruct (jobs s !! id) as [j0|] eqn:Ej; cycle 1.
    { assert (rejected s (report s id t r now)) as [_ HE]
        by (apply report_not_owned; intros; congruence). by rewrite E in HE. }
    destruct (decide (job_state j0 = Active)) as [Ha|Hn]; cycle 1.
    { assert (rejected s (report s id t r now)) as [_ HE]; [|by rewrite E in HE].
      apply report_not_owned. intros j1 Hj1 [? _]. congruence. }
    pose proof (report_from s id t r now j0 W Hr Ej Ha) as HF. rewrite E in HF.
    destruct HF as [[_ ?]|(_ & HI & _)]; [done|]. simpl in HI.
    intros j Hj Hact. destruct (inv_active _ _ HI id j Hj Hact) as (j1 & Hj1 & Ha1 & _).
    simpl in Hj1. rewrite lookup_insert_eq in Hj1. injection Hj1 as <-.
    by apply (reported_idle j0 r now). }
  split; [done|]. intros r' now'. apply report_not_owned. intros j Hj [Ha _]. by eapply Hidle.
Qed.

(** C19: a failure reported by the holder of the lease ends the attempt.  While
    retries are allowed, configured and left, the job goes back to [Delayed]
    for the backoff of this attempt, no other job changes and the attempt
    count stays; otherwise it is [Failed] for good. *)
Theorem failed_attempt_outcome (queue : string) s id t e now b j :
  reachable queue s → jobs s !! id = Some j → owned_by j t →
  ∃ s' f, fail_active_job s id t e now b = (s', Ok f) ∧
    job_id f = id ∧ job_failed_reason f = Some e ∧ job_attempts_made f = job_attempts_made j ∧
    job_worker_id f = None ∧ job_lock_token f = None ∧ job_lease_expires_at f = None ∧
    (let p := opt_retry_policy (job_options j) in
     if b && (0 <? max_retries p) && (job_attempts_made j <=? max_retries p)
     then job_state f = Delayed ∧
          job_scheduled_at f = add_duration now (delay_for_attempt p (job_attempts_made j)) ∧
          jobs s' = <[ id := f ]> (jobs s)
     else job_state f = Failed ∧ job_finished_at f = Some now).
Proof.
  intros W%reachable_wf_aux Ej Hown. destruct (wf_lookup s W _ _ Ej) as (Hid & Hok & Hsq).
  assert (inv (put_job s id (failed_attempt j e now b)) (put_job s id (failed_attempt j e now b))) as HI.
  { apply inv_refl, wf_put; try done.
    - apply failed_attempt_ok; [done|apply Hown].
    - unfold failed_attempt. by destruct (_ && _).
    - unfold failed_attempt. by destruct (_ && _). }
  destruct (fail_from _ s id t e now b j Ej HI) as [[_ HE]|(_ & _ & HE)].
  { exfalso. unfold fail_active_job in HE. rewrite Ej in HE. destruct Hown as [Ha Ht].
    apply (require_active_ok j "fail") in Ha. apply require_lock_token_ok in Ht.
    by rewrite Ha, Ht in HE. }
  exists (fail_active_job s id t e now b).1, (failed_attempt j e now b).
  split; [rewrite <- HE; by destruct (fail_active_job s id t e now b)|].
  unfold failed_attempt, should_retry. cbn -[delay_for_attempt].
  rewrite andb_assoc. destruct (b && _ && _) eqn:Eb; cbn -[delay_for_attempt]; split_and!; try done.
  unfold fail_active_job. rewrite Ej. destruct Hown as [Ha Ht].
  apply (require_active_ok j "fail") in Ha. apply require_lock_token_ok in Ht. rewrite Ha, Ht.
  unfold failed_attempt, should_retry. cbn -[delay_for_attempt]. rewrite andb_assoc, Eb.
  unfold retries_exhausted. cbn -[delay_for_attempt emit_event_locked].
  change (state_eqb Delayed Failed) with false. cbn -[delay_for_attempt emit_event_locked]. by rewrite emit_jobs.
Qed.
End reports.

(** ** Witnesses *)
Import Demo.

Definition completion : @Report demo_ext := RComplete ("null" : @Value demo_ext) "u".

Lemma report_once_witness :
  ∃ s' j', report leased "b" "t1" completion 20 = (s', Ok j') ∧
    rejected s' (report s' "b" "t1" (RFail "late" true) 21).
Proof.
  assert (is_ok (report leased "b" "t1" completion 20).2 = true) as H by (vm_compute; reflexivity).
  destruct (report leased "b" "t1" completion 20) as [s' [j'|e]] eqn:E; [|discriminate H].
  exists s', j'. split; [reflexivity|].
  refine (proj2 (report_once "q" leased "b" "t1" completion 20 s' j' leased_reachable _ E) _ 21).
  discriminate.
Defined.

Lemma failed_attempt_outcome_witness :
  ∃ j f, jobs leased !! "b" = Some j ∧ (fail_active_job leased "b" "t1" "boom" 20 true).2 = Ok f ∧
    job_failed_reason f = Some "boom".
Proof.
  assert ((λ j, (job_state j, job_lock_token j)) <$> jobs leased !! "b" = Some (Active, Some "t1")) as H
    by (vm_compute; reflexivity).
  apply fmap_Some in H as (j & Hj & [= Ha Ht]).
  destruct (failed_attempt_outcome "q" leased "b" "t1" "boom" 20 true j leased_reachable Hj)
    as (s' & f & E & _ & Hr & _); [split; symmetry; assumption|].
  exists j, f. rewrite E. split; [exact Hj|]. split; [reflexivity|exact Hr].
Defined.

(** * Promotion of due jobs and recovery of stalled jobs

    The two operations a scheduler runs on its timer: delayed jobs that are
    due become waiting, jobs whose worker lost its lease are queued again or
    fail once their stall budget is spent. *)

Section timers.
Context {X : Ext} `{!ExtLaws X}.
Implicit Types (s : QueueState) (j : Job) (r : Recovery).

(** ** Promotion *)

(** Promotion moves exactly the delayed jobs that are due, in the order of
    their schedule, behind the jobs that are waiting already; it reports their
    number and leaves every other job alone. *)
Theorem promotion_is_exact (queue : string) s now : reachable queue s →
  let s' := (promote_due_jobs s now).1 in
  (promote_due_jobs s now).2 = Ok (length (due_jobs s now)) ∧
  StronglySorted (cmp_le compare_due_order) (due_jobs s now) ∧
  (∀ j, j ∈ due_jobs s now ↔ jobs s !! job_id j = Some j ∧ job_state j = Delayed ∧ job_scheduled_at j ≤ now) ∧
  (∀ i j, due_jobs s now !! i = Some j →
     jobs s' !! job_id j = Some (j <| job_state := Waiting |>
       <| job_enqueued_seq := Z.min U64_MAX (sequence s + 1 + Z.of_nat i) |>)) ∧
  (∀ id, id ∉ job_id <$> due_jobs s now → jobs s' !! id = jobs s !! id).
Proof.
  intros W%reachable_wf_aux s'. subst s'. unfold promote_due_jobs.
  pose proof (promote_due_spec s s now (inv_refl s W)) as (_ & _ & Hc & Hkeep & Hdue & Hnone).
  destruct (promote_due_locked s now) as [s' n]. cbn [fst snd] in *. subst n.
  split_and!; [done|apply sort_by_sorted; apply _|intros; by apply elem_of_due_jobs|exact Hdue|].
  intros id Hid. destruct (jobs s !! id) as [j|] eqn:Ej; [|by apply Hnone].
  rewrite (Hkeep id j Ej); [done|]. intros Hd. apply Hid.
  destruct (wf_lookup s W _ _ Ej) as [<- _]. apply list_elem_of_fmap_2. by apply elem_of_due_jobs.
Qed.

(** ** Recovery *)

(** What recovery makes of one stalled job, [n] its new place in the order. *)
Definition recovered (now : DateTime) (j : Job) (n : Z) : Job :=
  if stalls_out (stall j) then stalled_out (stall j) now else sequenced (requeued (stall j)) n.

Lemma recovered_idle now j n : job_state (recovered now j n) ≠ Active.
Proof. unfold recovered. by destruct (stalls_out _). Qed.

(** The bookkeeping lists of a recovery in which no job stalled out. *)
Definition only_events r : Prop :=
  rc_remove_ids r = [] ∧ rc_deferred r = [] ∧ rc_continuing r = [] ∧ rc_releasing r = [] ∧
  rc_failed_children r = [] ∧ rc_terminal r = [].

Lemma recover_one_exact now s r j : jobs s !! job_id j = Some j →
  let q := stalls_out (stall j) in
  let p := recover_one now (s, r) j in
  jobs p.1 = <[ job_id j := recovered now j (sat_add U64_MAX (sequence s) 1) ]> (jobs s) ∧
  sequence p.1 = (if q then sequence s else sat_add U64_MAX (sequence s) 1) ∧
  rc_recovered p.2 = S (rc_recovered r) ∧
  (q = false → only_events r → only_events p.2).
Proof.
  intros Hj q p. subst q p. unfold recover_one, recovered. rewrite Hj. cbn zeta.
  generalize dependent (stall j). intros k.
  destruct (stalls_out k) eqn:Eq; cbn [fst snd].
  - split_and!; try done. unfold file_failed. cbn zeta.
    destruct (job_parent_id (stalled_out k now)); [|by destruct (removes_failed_immediately _)].
    repeat (match goal with |- context [if ?b then _ else _] => destruct b end; try done).
  - split_and!; try done. unfold put_job. simpl. by rewrite insert_insert_eq.
Qed.

Lemma recover_all_exact now l s r : 0 ≤ sequence s ≤ U64_MAX →
  (∀ j, j ∈ l → jobs s !! job_id j = Some j) → NoDup (job_id <$> l) →
  let p := foldl (recover_one now) (s, r) l in
  rc_recovered p.2 = (rc_recovered r + length l)%nat ∧
  (∀ id, id ∉ job_id <$> l → jobs p.1 !! id = jobs s !! id) ∧
  (∀ j, j ∈ l → ∃ n, jobs p.1 !! job_id j = Some (recovered now j n)) ∧
  (Forall (λ j, stalls_out (stall j) = false) l → only_events r →
   only_events p.2 ∧ ∀ i j, l !! i = Some j →
     jobs p.1 !! job_id j = Some (recovered now j (Z.min U64_MAX (sequence s + 1 + Z.of_nat i)))).
Proof.
  revert s r. induction l as [|j l IH]; intros s r Hsq Hl Hnd; cbn [foldl].
  { cbn. split_and!; [lia|done|by intros j ?%not_elem_of_nil|]. intros _ ?. split; [done|].
    intros i j. by rewrite lookup_nil. }
  rewrite fmap_cons in *. apply NoDup_cons in Hnd as [Hnj Hnd].
  destruct (recover_one_exact now s r j) as (Hjobs & Hseq & Hc & Hq); [apply Hl; set_solver|].
  destruct (recover_one now (s, r) j) as [s1 r1]. cbn [fst snd length] in *.
  assert (∀ id, id ∈ job_id <$> l → id ≠ job_id j) as Hne by (intros id Hid ->; done).
  destruct (IH s1 r1) as (HC & Hout & Hin & Hev); [| |done|].
  { rewrite Hseq. unfold sat_add. destruct (stalls_out _); lia. }
  { intros j' Hj'. rewrite Hjobs, lookup_insert_ne; [apply Hl; set_solver|].
    symmetry. by apply Hne, list_elem_of_fmap_2. }
  split_and!; [lia|..].
  - intros id Hid. rewrite Hout, Hjobs, lookup_insert_ne; set_solver.
  - intros j' [->|Hj']%elem_of_cons; [|by apply Hin].
    eexists. rewrite Hout, Hjobs by done. by rewrite lookup_insert_eq.
  - intros [Hqj Hql]%Forall_cons He. destruct (Hev Hql (Hq Hqj He)) as [HE Hex]. split; [done|].
    rewrite Hqj in Hseq. intros [|i] j' Hi; simpl in Hi.
    + simplify_eq. rewrite Hout, Hjobs, lookup_insert_eq by done. f_equal. f_equal. unfold sat_add. lia.
    + rewrite (Hex _ _ Hi), Hseq. f_equal. f_equal. unfold sat_add. lia.
Qed.

(** The state before the bookkeeping lists are worked off. *)
Lemma recover_fold_exact s now : wf s →
  let p := foldl (recover_one now) (s, empty_recovery) (stalled_jobs s now) in
  rc_recovered p.2 = length (stalled_jobs s now) ∧
  (∀ id, id ∉ job_id <$> stalled_jobs s now → jobs p.1 !! id = jobs s !! id) ∧
  (∀ j, j ∈ stalled_jobs s now → ∃ n, jobs p.1 !! job_id j = Some (recovered now j n)) ∧
  (Forall (λ j, stalls_out (stall j) = false) (stalled_jobs s now) →
   only_events p.2 ∧ ∀ i j, stalled_jobs s now !! i = Some j →
     jobs p.1 !! job_id j = Some (recovered now j (Z.min U64_MAX (sequence s + 1 + Z.of_nat i)))).
Proof.
  intros W p. subst p.
  destruct (recover_all_exact now (stalled_jobs s now) s empty_recovery) as (?&?&?&H).
  - by apply wf_seq.
  - by intros j [? _]%elem_of_stalled.
  - by apply selection_ids_NoDup.
  - split_and!; try done. intros Hf. by apply H.
Qed.

Lemma emit_stalled_jobs now l s : jobs (foldl (emit_stalled_events now) s l) = jobs s.
Proof.
  revert s. induction l as [|j l IH]; intros s; simpl; [done|]. rewrite IH. unfold emit_stalled_events.
  by autorewrite with frame.
Qed.

(** C20: recovery returns the number of active jobs whose lease has expired, and
    afterwards no active job has an expired lease.  When none of them has
    spent its stall budget, each goes back to waiting without its lease, with
    the stall counted, in the order the leases expired, and no other job
    changes. *)
Theorem recovery_clears_stalled (queue : string) s now : reachable queue s →
  let s' := (recover_stalled_jobs s now).1 in
  (recover_stalled_jobs s now).2 = Ok (length (stalled_jobs s now)) ∧
  (∀ j, j ∈ stalled_jobs s now ↔ jobs s !! job_id j = Some j ∧ job_state j = Active ∧
     ∃ t, job_lease_expires_at j = Some t ∧ t ≤ now) ∧
  (∀ id j, jobs s' !! id = Some j → job_state j = Active →
     ∃ t, job_lease_expires_at j = Some t ∧ now < t) ∧
  ((∀ j, j ∈ stalled_jobs s now → is_repeat_scheduler_job j = true ∨
       job_stalled_count j < opt_max_stalled_count (job_options j)) →
   (∀ i j, stalled_jobs s now !! i = Some j → ∃ k, jobs s' !! job_id j = Some k ∧
      job_state k = Waiting ∧ job_lock_token k = None ∧ job_attempts_made k = job_attempts_made j ∧
      job_stalled_count k = sat_add U32_MAX (job_stalled_count j) 1 ∧
      job_enqueued_seq k = Z.min U64_MAX (sequence s + 1 + Z.of_nat i)) ∧
   (∀ id, id ∉ job_id <$> stalled_jobs s now → jobs s' !! id = jobs s !! id)).
Proof.
  intros W%reachable_wf_aux s'. subst s'.
  pose proof (recover_fold_exact s now W) as (Hc & Hout & Hin & Hex).
  pose proof (inv_wf _ _ (inv_recover_fold s s now (inv_refl s W))) as W1.
  pose proof (inv_active _ _ (inv_recover_tail _ s now (inv_refl _ W1))) as HA.
  assert (∀ j, j ∈ stalled_jobs s now ↔ jobs s !! job_id j = Some j ∧ job_state j = Active ∧
     ∃ t, job_lease_expires_at j = Some t ∧ t ≤ now) as Hel.
  { intros j. rewrite elem_of_stalled by done. unfold is_stalled. rewrite andb_true_iff, state_eqb_true.
    destruct (job_lease_expires_at j) as [t|]; [rewrite Z.leb_le|]; naive_solver. }
  unfold recover_stalled_jobs in *.
  destruct (foldl (recover_one now) _ _) as [s1 r] eqn:Ef. cbn [fst snd] in *.
  split_and!; [by rewrite Hc|done| |].
  - intros id j Hj Ha. destruct (HA id j Hj Ha) as (j1 & Hj1 & Ha1 & Hl). clear HA Hj.
    assert (job_lease_expires_at j = job_lease_expires_at j1) as -> by (unfold lease_of in Hl; congruence).
    destruct (decide (id ∈ job_id <$> stalled_jobs s now)) as [Hid|Hid].
    { apply list_elem_of_fmap in Hid as (j0 & -> & Hj0). destruct (Hin j0 Hj0) as [n Hn].
      rewrite Hn in Hj1. apply (inj Some) in Hj1. rewrite <- Hj1 in Ha1. by destruct (recovered_idle now j0 n). }
    rewrite Hout in Hj1 by done. destruct (wf_lookup s W _ _ Hj1) as (Hi & Hok & _).
    destruct (job_ok_leased j1 Hok Ha1) as (_ & t & _ & Ht). exists t. split; [done|].
    destruct (Z.lt_ge_cases now t) as [|Hle]; [done|]. destruct Hid. rewrite <- Hi.
    apply list_elem_of_fmap_2, Hel. rewrite Hi. eauto.
  - intros Hb. destruct Hex as [(E1 & E2 & E3 & E4 & E5 & E6) Hex].
    { apply Forall_forall. intros j Hj. unfold stalls_out. apply andb_false_iff.
      destruct (Hb j Hj) as [Hr|Hr]; [right|left].
      - by apply negb_false_iff.
      - apply Z.ltb_ge. cbn. unfold sat_add. lia. }
    rewrite E1, E2, E3, E4, E5, E6. cbn [foldl remove_job_records]. rewrite emit_stalled_jobs.
    split; [|done]. intros i j Hi. rewrite (Hex i j Hi). eexists. split; [done|].
    unfold recovered. assert (stalls_out (stall j) = false) as ->; [|done].
    apply list_elem_of_lookup_2 in Hi. unfold stalls_out. apply andb_false_iff.
    destruct (Hb j Hi) as [Hr|Hr]; [right; by apply negb_false_iff|left].
    apply Z.ltb_ge. cbn. unfold sat_add. lia.
Qed.
End timers.

(** ** Witnesses *)
Import Demo.

Lemma promotion_is_exact_witness :
  job_id <$> due_jobs queue3 200 = ["c"] ∧
  (promote_due_jobs queue3 200).2 = Ok (length (due_jobs queue3 200)).
Proof.
  split; [vm_compute; reflexivity|].
  exact (proj1 (promotion_is_exact "q" queue3 200 queue3_reachable)).
Defined.

Lemma recovery_clears_stalled_witness :
  job_id <$> stalled_jobs leased 100 = ["b"] ∧
  (recover_stalled_jobs leased 100).2 = Ok (length (stalled_jobs leased 100)).
Proof.
  split; [vm_compute; reflexivity|].
  exact (proj1 (recovery_clears_stalled "q" leased 100 leased_reachable)).
Defined.
