(* ===== verification/JobLeases.v ===== *)
(** * What leaves a lease alone

    The forward direction of the lease discipline: the operations that are not
    reports on a job, recovery or obliteration keep every active job with the
    lease its worker holds. *)
From S2P Require Import Prelude Ordering Text External Retry JobTypes JobStore.
From S2P Require Import JobDedup JobFlows JobCore JobQueries JobAdmin JobAdd JobInvariant.
From S2P Require Import JobPreserve JobHandlers JobSubmit JobSnapshot JobSystem JobClaim JobReports.
Local Open Scope Z_scope.

Section keeps.
Context {X : Ext} `{!ExtLaws X}.
Implicit Types (s : QueueState) (j : Job).

(** A worker holds the job: it is active under a token. *)
Definition held j : Prop := job_state j = Active ∧ is_Some (job_lock_token j).

Lemma inactive_not_held j : job_state j ≠ Active → ¬ held j.
Proof. by intros ? [? _]. Qed.
Hint Resolve inactive_not_held : core.

Lemma same_held j j' : job_state j' = job_state j → lease_of j' = lease_of j → held j → held j'.
Proof. unfold held, lease_of. intros -> [= _ -> _ _ _]. done. Qed.

(** Every job held in [s] is held in [s'] under the same lease. *)
Definition keeps_leases s s' : Prop :=
  ∀ id j, jobs s !! id = Some j → held j →
    ∃ j', jobs s' !! id = Some j' ∧ job_state j' = Active ∧ lease_of j' = lease_of j.

(** Nobody holds the job under [id], if any. *)
Definition idle_at s id : Prop := ∀ j, jobs s !! id = Some j → ¬ held j.

Lemma keeps_refl s : keeps_leases s s.
Proof. intros id j ? [? _]. eauto. Qed.

Lemma keeps_trans s1 s2 s3 : keeps_leases s1 s2 → keeps_leases s2 s3 → keeps_leases s1 s3.
Proof.
  intros H1 H2 id j Hj Ha. destruct (H1 id j Hj Ha) as (j2 & Hj2 & Ha2 & L2).
  destruct (H2 id j2 Hj2) as (j3 & ? & ? & ?); [apply (same_held j); destruct Ha; congruence || done|].
  exists j3. split_and!; [done|done|congruence].
Qed.

Lemma keeps_jobs s s1 s2 : keeps_leases s s1 → jobs s2 = jobs s1 → keeps_leases s s2.
Proof. intros H E id j. rewrite E. apply H. Qed.

(** ** Primitives: what keeps the leases of the state the operation began in *)
Section primitives.
Context (s0 : QueueState).

Lemma keeps_emit s ev job prev t fields :
  keeps_leases s0 s → keeps_leases s0 (emit_event_locked s ev job prev t fields).
Proof. intros. eapply keeps_jobs; [done|]. by autorewrite with frame. Qed.

Lemma keeps_emit_removed s j now : keeps_leases s0 s → keeps_leases s0 (emit_removed_event_locked s j now).
Proof. apply keeps_emit. Qed.
Lemma keeps_emit_cleaned s n now : keeps_leases s0 s → keeps_leases s0 (emit_cleaned_event_locked s n now).
Proof. apply keeps_emit. Qed.

Lemma keeps_put_idle s id j : idle_at s id → keeps_leases s0 s → keeps_leases s0 (put_job s id j).
Proof.
  intros Hi H. eapply keeps_trans; [done|]. intros id' j' Hj' Ha. exists j'. unfold put_job. simpl.
  rewrite lookup_insert_ne; [by split_and!; [|apply Ha|]|]. intros ->. by eapply Hi.
Qed.

Lemma keeps_put_same s id j j' : jobs s !! id = Some j → job_state j' = job_state j →
  lease_of j' = lease_of j → keeps_leases s0 s → keeps_leases s0 (put_job s id j').
Proof.
  intros Hj Hst Hl H. eapply keeps_trans; [done|]. intros id1 j1 Hj1 Ha. unfold put_job. simpl.
  destruct (decide (id1 = id)) as [->|]; [|rewrite lookup_insert_ne by done; destruct Ha; by eauto].
  rewrite lookup_insert_eq. rewrite Hj in Hj1. apply (inj Some) in Hj1 as <-. exists j'. rewrite Hst. by destruct Ha.
Qed.

Lemma remove_record_jobs s id : jobs (remove_job_record_locked s id).1 = delete id (jobs s).
Proof. apply remove_record_spec. Qed.

Lemma keeps_remove s id : idle_at s id → keeps_leases s0 s →
  keeps_leases s0 (remove_job_record_locked s id).1.
Proof.
  intros Hi H. eapply keeps_trans; [done|]. intros id' j' Hj' Ha. exists j'.
  rewrite remove_record_jobs, lookup_delete_ne; [by split_and!; [|apply Ha|]|]. intros ->. by eapply Hi.
Qed.

Lemma idle_remove s id id' : idle_at s id → idle_at (remove_job_record_locked s id').1 id.
Proof. intros Hi j. rewrite remove_record_jobs. intros [_ Hj]%lookup_delete_Some. by apply Hi. Qed.

Lemma keeps_remove_records s ids : Forall (idle_at s) ids → keeps_leases s0 s →
  keeps_leases s0 (remove_job_records s ids).
Proof.
  unfold remove_job_records. revert s. induction ids as [|id ids IH]; intros s Hf H; [done|].
  apply Forall_cons in Hf as [Hid Hf]. cbn [foldl]. apply IH; [|by apply keeps_remove].
  eapply Forall_impl; [done|]. intros id' ?. by apply idle_remove.
Qed.
End primitives.

(** ** Retention and parents *)
Lemma finished_entries_idle s st e : wf s → st ≠ Active → e ∈ finished_entries s st → idle_at s e.1.
Proof.
  intros W Hst He. unfold finished_entries in He. apply list_elem_of_omap in He as (j & Hj & He).
  apply elem_of_stored in Hj; [|done]. destruct (state_eqb (job_state j) st) eqn:Es; [|done].
  apply state_eqb_true in Es. destruct (job_finished_at j); [|done]. injection He as <-. simpl.
  intros j' Hj'. simplify_eq. intros [? _]. congruence.
Qed.

Lemma retained_idle s st l : wf s → st ≠ Active → (∀ e, e ∈ l → e ∈ finished_entries s st) →
  Forall (idle_at s) l.*1.
Proof.
  intros W Hst Hl. apply Forall_forall. intros id (e & -> & He)%list_elem_of_fmap.
  eapply finished_entries_idle; eauto.
Qed.

Lemma keeps_retention s0 s st r now : wf s → st ≠ Active → keeps_leases s0 s →
  keeps_leases s0 (apply_finished_retention_locked s st r now).
Proof.
  intros W Hst H. unfold apply_finished_retention_locked, apply_count_retention.
  assert (keeps_leases s0 (apply_age_retention s st r now) ∧ wf (apply_age_retention s st r now)) as [H1 W1].
  { unfold apply_age_retention. destruct (ret_age r) as [age|]; [|done]. split.
    - apply keeps_remove_records; [|done]. eapply retained_idle; [done..|].
      intros e He%subseteq_take. rewrite elem_of_sort_by, list_elem_of_In, List.filter_In in He.
      rewrite list_elem_of_In. tauto.
    - by apply (inv_wf s), inv_remove_records, inv_refl. }
  destruct (ret_count r) as [count|]; [|done]. apply keeps_remove_records; [|done].
  eapply retained_idle; [done..|]. intros e He%subseteq_drop. by rewrite elem_of_sort_by in He.
Qed.

(** The parent moves that start from a parent waiting for its children. *)
Lemma idle_of s id j : jobs s !! id = Some j → job_state j ≠ Active → idle_at s id.
Proof. intros Hj Hn j' Hj' [? _]. congruence. Qed.

Lemma waiting_sequence_if_jobs s st : jobs (waiting_sequence_if s st).1 = jobs s.
Proof. unfold waiting_sequence_if. by destruct (state_eqb _ _). Qed.

Lemma keeps_resume s0 s p parent t deferred prev ev now : jobs s !! p = Some parent →
  ¬ held parent → keeps_leases s0 s →
  keeps_leases s0
    (let st := state_after_dependencies t now in
     let '(s, seq) := waiting_sequence_if s st in
     emit_event_locked (put_job s p (resume_parent parent st deferred seq)) ev
       (Some (resume_parent parent st deferred seq)) (Some prev) now ∅).
Proof.
  intros Hp Hn H. cbn zeta. pose proof (waiting_sequence_if_jobs s (state_after_dependencies t now)) as Hj.
  destruct (waiting_sequence_if s _) as [s1 seq]. cbn [fst] in Hj.
  apply keeps_emit, keeps_put_idle; [|by eapply keeps_jobs].
  intros j. rewrite Hj, Hp. by intros [= <-].
Qed.

Lemma keeps_defer s0 s p c now : idle_at s p → keeps_leases s0 s →
  keeps_leases s0 (defer_parent_failure_after_child_failure_locked s p c now).1.
Proof.
  intros Hi H. unfold defer_parent_failure_after_child_failure_locked.
  destruct (jobs s !! p) as [parent|] eqn:Ep; [|done]. destruct (is_terminal _); [done|]. cbn zeta.
  pose proof (keeps_resume s0 s p parent (job_scheduled_at parent) (Some ("child job " +:+ c +:+ " failed"))
    (job_state parent) (job_event_for_state (state_after_dependencies (job_scheduled_at parent) now))
    now Ep (Hi _ Ep) H) as HK. cbn zeta in HK.
  destruct (waiting_sequence_if s _). cbn [fst]. by rewrite resume_parent_state.
Qed.

Lemma keeps_fail_parent s0 s p r now : wf s → idle_at s p → keeps_leases s0 s →
  keeps_leases s0 (fail_waiting_parent_locked s p r now).1.
Proof.
  intros W Hi H. unfold fail_waiting_parent_locked. destruct (jobs s !! p) as [parent|] eqn:Ep; [|done].
  destruct (is_terminal (job_state parent)) eqn:Et; [done|]. cbn zeta. cbn [fst].
  destruct (wf_lookup s W _ _ Ep) as (Hid & Hok & Hsq). apply keeps_emit.
  pose proof (fail_parent_ok parent r now Hok Et) as Hf.
  assert (keeps_leases s0 (put_job s p (fail_parent parent r now))) as H1 by by apply keeps_put_idle.
  assert (wf (put_job s p (fail_parent parent r now))) as W1 by by apply wf_put.
  assert (idle_at (put_job s p (fail_parent parent r now)) p) as Hi1.
  { intros j. unfold put_job. simpl. rewrite lookup_insert_eq. by intros [= <-] [? _]. }
  generalize dependent (fail_parent parent r now). intros f Hf H1 W1 Hi1.
  generalize dependent (put_job s p f). intros s1 H1 W1 Hi1.
  destruct (removes_failed_immediately _); [by apply keeps_remove|].
  destruct (failed_retention _); [|done]. by apply keeps_retention.
Qed.

Lemma keeps_release s0 s p now : wf s → keeps_leases s0 s →
  keeps_leases s0 (release_parent_if_ready_locked s p now).1.
Proof.
  intros W H. unfold release_parent_if_ready_locked. destruct (jobs s !! p) as [parent|] eqn:Ep; [|done].
  destruct (state_eqb (job_state parent) WaitingChildren) eqn:Es; [|done]. cbn [negb].
  apply state_eqb_true in Es. assert (job_state parent ≠ Active) as Hn by congruence.
  destruct (scan_children _ _ _ _) as [|[c|] [[c' reason]|]]; [done|..].
  - apply keeps_defer; [by eapply idle_of|done].
  - apply keeps_defer; [by eapply idle_of|done].
  - apply keeps_fail_parent; [done|by eapply idle_of|done].
  - pose proof (keeps_resume s0 s p parent (job_scheduled_at parent) None WaitingChildren
      (job_event_for_state (state_after_dependencies (job_scheduled_at parent) now)) now Ep
      (inactive_not_held parent Hn) H) as HK.
    cbn zeta in *. destruct (waiting_sequence_if s _). cbn [fst]. by rewrite resume_parent_state.
Qed.

Lemma keeps_release_of s0 s j now : wf s → keeps_leases s0 s → keeps_leases s0 (release_parent_of s j now).
Proof. intros W H. unfold release_parent_of. destruct (job_parent_id j); [by apply keeps_release|done]. Qed.

Lemma keeps_release_all s0 s l clock : wf s → keeps_leases s0 s →
  keeps_leases s0 (release_parents_of s l clock).
Proof.
  intros W H. unfold release_parents_of.
  apply (foldl_keeps (λ s, wf s ∧ keeps_leases s0 s)); [|done]. intros a [now p] [Wa Ha]. split.
  - by apply (inv_wf a), inv_release_parent, inv_refl.
  - by apply keeps_release.
Qed.

(** ** Handlers *)
Section handlers.
Context (s0 : QueueState).

Lemma keeps_claim s w l now t : wf s → keeps_leases s0 s → keeps_leases s0 (claim_next s w l now t).1.
Proof.
  intros W H. assert (keeps_leases s0 (promote_due_locked s now).1) as HP.
  { eapply keeps_trans; [done|]. intros id j Hj [Ha _]. exists j.
    destruct (promote_due_spec s s now (inv_refl s W)) as (_ & _ & _ & Hkeep & _).
    rewrite (Hkeep _ _ Hj); [done|]. intros [? _]. congruence. }
  destruct (claim_cases s w l now t W) as [[_ ->]|[(_ & _ & ->)|(_ & j1 & Hj & Hst & _ & ->)]]; [done..|].
  cbn [fst]. apply keeps_emit, keeps_put_idle; [|done]. apply (idle_of _ _ j1); congruence.
Qed.

Lemma keeps_promote_due s now : wf s → keeps_leases s0 s → keeps_leases s0 (promote_due_jobs s now).1.
Proof.
  intros W H. unfold promote_due_jobs.
  destruct (promote_due_spec s s now (inv_refl s W)) as (_ & _ & _ & Hkeep & _).
  destruct (promote_due_locked s now). eapply keeps_trans; [done|]. intros id j Hj [Ha _]. exists j. cbn [fst] in *.
  rewrite (Hkeep _ _ Hj); [done|]. intros [? _]. congruence.
Qed.

Lemma keeps_promote s id now : keeps_leases s0 s → keeps_leases s0 (promote s id now).1.
Proof.
  intros H. unfold promote. destruct (jobs s !! id) as [j|] eqn:Ej; [|done].
  destruct (state_eqb (job_state j) Delayed) eqn:E; [|done]. apply state_eqb_true in E. simpl.
  apply keeps_emit, keeps_put_idle; [|done]. apply (idle_of _ _ j); [done|congruence].
Qed.

Lemma keeps_reschedule s id d now : keeps_leases s0 s → keeps_leases s0 (reschedule s id d now).1.
Proof.
  intros H. unfold reschedule. destruct (is_zero_duration d); [done|].
  destruct (jobs s !! id) as [j|] eqn:Ej; [|done].
  destruct (state_eqb (job_state j) Delayed) eqn:E; [|done]. apply state_eqb_true in E. simpl.
  apply keeps_emit, keeps_put_idle; [|done]. apply (idle_of _ _ j); [done|congruence].
Qed.

Lemma keeps_restore s p c now : keeps_leases s0 s →
  keeps_leases s0 (restore_parent_dependency_after_child_retry_locked s p c now).1.
Proof.
  intros H. unfold restore_parent_dependency_after_child_retry_locked.
  destruct (jobs s !! p) as [parent|] eqn:Ep; [|done].
  destruct (is_terminal (job_state parent) || state_eqb (job_state parent) Active) eqn:E; [done|].
  apply orb_false_iff in E as [_ E%state_eqb_false]. destruct (negb _); [done|]. cbn zeta. cbn [fst].
  destruct (clear_index_jobs s p c) as [Hj _]. destruct (clear_child_dependency_side_index_locked s p c) as [s1 b].
  cbn [fst] in *. assert (idle_at s1 p) as Hi by (apply (idle_of _ _ parent); congruence).
  assert (keeps_leases s0 s1) as H1 by by eapply keeps_jobs.
  destruct (state_eqb (job_state parent) WaitingChildren); [|apply keeps_emit]; by apply keeps_put_idle.
Qed.

Lemma keeps_retry s id now : keeps_leases s0 s → keeps_leases s0 (retry s id now).1.
Proof.
  intros H. unfold retry. destruct (jobs s !! id) as [j|] eqn:Ej; [|done].
  destruct (is_terminal (job_state j)) eqn:E; [|done]. cbn [negb]. cbn zeta.
  destruct (retry_conflict s id j now); [|done].
  set (s1 := match job_deduplication_id j with Some _ => _ | None => s end).
  assert (jobs s1 = jobs s) as E1 by (unfold s1; by destruct (job_deduplication_id j)). clearbody s1.
  unfold next_waiting_sequence. cbn [fst snd].
  match goal with |- context [emit_event_locked (put_job ?s2 id ?k) ?a ?b ?c ?d ?e] =>
    assert (keeps_leases s0 (emit_event_locked (put_job s2 id k) a b c d e)) as H2;
      [|generalize dependent (emit_event_locked (put_job s2 id k) a b c d e)] end.
  { apply keeps_emit, keeps_put_idle; [|by eapply keeps_jobs].
    apply (idle_of _ _ j); [by rewrite <- Ej, <- E1|]. by destruct (job_state j). }
  intros s3 H3. destruct (job_parent_id j); [by apply keeps_restore|done].
Qed.

Lemma keeps_set_priority s id p l : keeps_leases s0 s → keeps_leases s0 (set_priority_order s id p l).1.
Proof.
  intros H. unfold set_priority_order. destruct (validate_job_priority p); [|done].
  destruct (jobs s !! id) as [j|] eqn:Ej; [|done].
  pose proof (waiting_sequence_if_jobs s (job_state j)) as Hj.
  destruct (waiting_sequence_if s _) as [s1 n]. cbn [fst] in *.
  destruct (prioritised_frame j p l n) as (_ & Hst & Hl & _).
  apply (keeps_put_same s0 s1 id j); [congruence|done|done|]. by eapply keeps_jobs.
Qed.

(** *** Administration *)
Lemma removable_idle s id j : jobs s !! id = Some j → is_ok (require_removable j) = true → idle_at s id.
Proof.
  intros Hj Hr k Hk [Ha [t Ht]]. rewrite Hj in Hk. apply (inj Some) in Hk as <-.
  unfold require_removable in Hr. by rewrite Ha, Ht in Hr.
Qed.

(** Removal of one record, release of its parent and the event. *)
Lemma keeps_remove_and_release s id now : wf s → idle_at s id → keeps_leases s0 s →
  keeps_leases s0
    match remove_job_record_locked s id with
    | (s, Some removed) => emit_removed_event_locked (release_parent_of s removed now) removed now
    | (s, None) => s
    end.
Proof.
  intros W Hi H. pose proof (keeps_remove s0 s id Hi H) as H1.
  pose proof (inv_wf _ _ (inv_remove s s id (inv_refl s W))) as W1.
  destruct (remove_job_record_locked s id) as [s1 [r|]]; cbn [fst] in *; [|done].
  by apply keeps_emit_removed, keeps_release_of.
Qed.

Lemma keeps_remove_op s id now : wf s → keeps_leases s0 s → keeps_leases s0 (remove s id now).1.
Proof.
  intros W H. unfold remove. destruct (jobs s !! id) as [j|] eqn:Ej.
  - destruct (wf_lookup s W _ _ Ej) as (_ & Hok & _).
    destruct (require_removable j) as [u|] eqn:Er; [|done].
    assert (idle_at s id) as Hi by (apply (removable_idle s id j); [done|by rewrite Er]).
    pose proof (keeps_remove_and_release s id now W Hi H).
    by destruct (remove_job_record_locked s id) as [s1 [r|]].
  - assert (idle_at s id) as Hi by (intros j; congruence).
    pose proof (keeps_remove_and_release s id now W Hi H).
    by destruct (remove_job_record_locked s id) as [s1 [r|]].
Qed.

Lemma keeps_remove_repeat s k now : wf s → keeps_leases s0 s → keeps_leases s0 (remove_repeat s k now).1.
Proof.
  intros W H. unfold remove_repeat. destruct (find_active_repeat_key (jobs s) k) as [o|] eqn:Eo; [|done].
  apply find_stored in Eo; [|done]. rewrite Eo. cbn zeta. destruct (wf_lookup s W _ _ Eo) as (_ & Hok & _).
  destruct (require_removable o) as [u|] eqn:Er; [|done].
  assert (idle_at s (job_id o)) as Hi by (apply (removable_idle s _ o); [done|by rewrite Er]).
  pose proof (keeps_remove_and_release s (job_id o) now W Hi H).
  by destruct (remove_job_record_locked s (job_id o)) as [s1 [r|]].
Qed.

(** Removing a selection of idle jobs and releasing their parents. *)
Lemma keeps_remove_selection s l clock : wf s →
  (∀ j, j ∈ l → jobs s !! job_id j = Some j ∧ ¬ held j) → keeps_leases s0 s →
  keeps_leases s0 (release_parents_of (remove_job_records s (job_id <$> l)) l clock).
Proof.
  intros W Hl H. apply keeps_release_all.
  - by apply (inv_wf s), inv_remove_records, inv_refl.
  - apply keeps_remove_records; [|done]. apply Forall_forall. intros id (j & -> & Hj)%list_elem_of_fmap.
    destruct (Hl j Hj) as [Hs Hn]. intros k Hk. congruence.
Qed.

Lemma keeps_clean s st g n now : wf s → keeps_leases s0 s → keeps_leases s0 (clean s st g n now).1.
Proof.
  intros W H. unfold clean. destruct n as [|n]; [done|]. cbn zeta. cbn [fst]. apply keeps_emit_cleaned.
  apply keeps_remove_selection; [done| |done]. intros j Hj. unfold clean_selection in Hj.
  apply subseteq_take in Hj. apply elem_of_selection in Hj as [Hj Hc]; [|done]. split; [done|].
  unfold cleanable in Hc. bools. intros [Ha [t Ht]]. rewrite Ht in *.
  match goal with H : state_eqb _ _ = true |- _ => apply state_eqb_true in H; rewrite <- H, Ha in * end. done.
Qed.

Lemma keeps_drain s b clock : wf s → keeps_leases s0 s → keeps_leases s0 (drain s b clock).1.
Proof.
  intros W H. unfold drain. cbn zeta. cbn [fst]. apply keeps_remove_selection; [done| |done].
  intros j Hj. apply elem_of_selection in Hj as [Hj Hd]; [|done]. split; [done|].
  unfold drainable in Hd. intros [Ha _]. rewrite Ha in Hd. by rewrite andb_false_r in Hd.
Qed.

(** Descendants collected for removal are neither active nor finished. *)
Definition unprocessed (m : gmap string Job) (id : string) : Prop :=
  ∃ j, m !! id = Some j ∧ job_state j ≠ Active.

Lemma collected_idle fuel m ids out seen : (∀ id j, m !! id = Some j → job_id j = id) →
  Forall (unprocessed m) out → Forall (unprocessed m) (collect_removable_unprocessed_children fuel m ids out seen).1.
Proof.
  intros Hm. revert ids out seen. induction fuel as [|fuel IH]; intros ids out seen H; simpl; [done|].
  apply (foldl_keeps (λ acc, Forall (unprocessed m) acc.1)); [|done]. intros [o sn] id Ho.
  destruct (bool_decide _); [done|]. destruct (m !! id) as [c|] eqn:Ec; [|done].
  destruct (state_eqb (job_state c) Active || _) eqn:E; [done|].
  apply orb_false_iff in E as [E%state_eqb_false _].
  pose proof (IH (job_child_ids c) o (sn ∪ {[id]}) Ho) as HI.
  destruct (collect_removable_unprocessed_children fuel m _ _ _) as [o1 s1]. cbn [fst] in *.
  apply Forall_app. split; [done|]. constructor; [|done]. exists c. by rewrite (Hm _ _ Ec).
Qed.

Lemma keeps_remove_children s p now : wf s → keeps_leases s0 s →
  keeps_leases s0 (remove_unprocessed_children s p now).1.
Proof.
  intros W H. unfold remove_unprocessed_children. destruct (jobs s !! p) as [parent|]; [|done]. cbn zeta.
  assert (Forall (idle_at s) (removable_children (jobs s) (job_child_ids parent))) as Hids.
  { eapply Forall_impl; [apply collected_idle; [|constructor]|].
    - intros id j Hj. by destruct (wf_lookup s W _ _ Hj).
    - intros id (j & Hj & Hn). by eapply idle_of. }
  assert (∀ l acc, Forall (idle_at acc.1) l → wf acc.1 → keeps_leases s0 acc.1 →
            let s' := (foldl (remove_with_event now) acc l).1 in wf s' ∧ keeps_leases s0 s') as HL.
  { intros l. induction l as [|id l IH]; intros [a r] Hf Wa Ha; [done|]. cbn [foldl]. cbn [fst] in *.
    apply Forall_cons in Hf as [Hid Hf].
    pose proof (keeps_remove s0 a id Hid Ha) as H1. pose proof (remove_record_jobs a id) as Hj.
    pose proof (inv_wf _ _ (inv_remove a a id (inv_refl a Wa))) as W1.
    apply IH; unfold remove_with_event; destruct (remove_job_record_locked a id) as [a1 [k|]]; cbn [fst] in *;
      first [done|by apply (inv_wf a1), inv_emit_removed, inv_refl|by apply keeps_emit_removed|idtac].
    all: eapply Forall_impl; [exact Hf|]; intros id' Hi k'; unfold emit_removed_event_locked;
      autorewrite with frame; rewrite Hj; intros [_ ?]%lookup_delete_Some; by apply Hi. }
  destruct (HL _ (s, []) Hids W H) as [W1 H1].
  destruct (foldl _ _ _) as [s1 r]. cbn [fst] in *. by apply keeps_release.
Qed.

Lemma keeps_clear_index s p c : keeps_leases s0 s →
  keeps_leases s0 (clear_child_dependency_side_index_locked s p c).1.
Proof. intros H. eapply keeps_jobs; [done|]. by destruct (clear_index_jobs s p c). Qed.

Lemma keeps_remove_child_dependency s c now : wf s → keeps_leases s0 s →
  keeps_leases s0 (remove_child_dependency s c now).1.
Proof.
  intros W H. pose proof (inv_wf _ _ (inv_remove_child_dependency s s c now (inv_refl s W))) as W1.
  unfold remove_child_dependency in *. destruct (jobs s !! c) as [child|] eqn:Ec; [|done].
  destruct (job_parent_id child) as [p|]; [|done]. destruct (jobs s !! p) as [parent|] eqn:Ep; [|done].
  destruct (negb _ && negb _); [done|]. cbn zeta in *. cbn [fst] in *. clear W1.
  destruct (wf_lookup s W _ _ Ep) as (Hid & Hok & Hsq).
  set (parent' := parent <| job_child_ids ::= _ |>).
  assert (job_ok parent') as Hok' by (unfold parent'; by eapply job_ok_transfer).
  assert (wf (put_job s p parent')) as W1 by by apply wf_put.
  assert (keeps_leases s0 (put_job s p parent')) as H1 by by apply (keeps_put_same s0 s p parent).
  clearbody parent'. generalize dependent (put_job s p parent'). intros s1 W1 H1.
  pose proof (inv_wf _ _ (inv_clear_index s1 s1 p c (inv_refl s1 W1))) as W2.
  pose proof (keeps_clear_index s1 p c H1) as H2.
  generalize dependent (clear_child_dependency_side_index_locked s1 p c).1. intros s2 W2 H2.
  apply keeps_release; destruct (jobs s2 !! c) as [k|] eqn:Ek; try done.
  - destruct (wf_lookup s2 W2 _ _ Ek) as (Hidk & Hokk & Hsqk). apply wf_put; try done. by eapply job_ok_transfer.
  - by apply (keeps_put_same s0 s2 c k).
Qed.

Lemma keeps_update s id f : (∀ j, job_state (f j) = job_state j ∧ lease_of (f j) = lease_of j) →
  keeps_leases s0 s → keeps_leases s0 (update_job s id f).1.
Proof.
  intros Hf H. unfold update_job. destruct (jobs s !! id) as [j|] eqn:Ej; [|done].
  destruct (Hf j). by apply (keeps_put_same s0 s id j).
Qed.

(** *** Submission *)

(** Updates of stored jobs that only touch the deduplication expiration. *)
Definition lease_state (j : Job) := (job_state j, lease_of j).

Lemma keeps_field s s1 : (∀ id, lease_state <$> jobs s1 !! id = lease_state <$> jobs s !! id) →
  keeps_leases s0 s → keeps_leases s0 s1.
Proof.
  intros Hf H. eapply keeps_trans; [done|]. intros id j Hj [Ha _]. specialize (Hf id). rewrite Hj in Hf.
  destruct (jobs s1 !! id) as [j1|]; [|done]. injection Hf as Hst Hl. exists j1. split_and!; [done|congruence|].
  unfold lease_of in *. congruence.
Qed.

Lemma keeps_store_next s c e : keeps_leases s0 s → keeps_leases s0 (store_deduplicated_next_locked s c e).1.
Proof. apply keeps_field. intros id. by apply (store_next_field lease_state). Qed.
Lemma keeps_extend s c e now : keeps_leases s0 s →
  keeps_leases s0 (extend_deduplication_expiration_locked s c e now).1.
Proof. apply keeps_field. intros id. by apply (extend_field lease_state). Qed.

Lemma keeps_emit_deduplicated s o c now : keeps_leases s0 s →
  keeps_leases s0 (emit_deduplicated_events_locked s o c now).
Proof.
  intros H. unfold emit_deduplicated_events_locked. destruct (job_deduplication_id c); [|done].
  by apply keeps_emit, keeps_emit.
Qed.

(** Insertion of a job under an id that holds no active job; no id becomes
    active by it. *)
Lemma keeps_insert s j now : idle_at s (job_id j) → keeps_leases s0 s → keeps_leases s0 (insert_new_job s j now).1.
Proof.
  intros Hi H. pose proof (insert_new_job_spec s j now) as HI. destruct (insert_new_job s j now) as [s1 r].
  destruct HI as [Hj _]. eapply keeps_trans; [done|]. intros id k Hk Ha. exists k. cbn [fst].
  rewrite Hj, lookup_insert_ne; [by split_and!; [|apply Ha|]|]. intros <-. by eapply Hi.
Qed.

Lemma idle_insert s j now id : idle_at s id → job_state j ≠ Active → idle_at (insert_new_job s j now).1 id.
Proof.
  intros Hi Hn k. pose proof (insert_new_job_spec s j now) as HI. destruct (insert_new_job s j now) as [s1 r].
  destruct HI as (Hj & _ & Hst & _). cbn [fst]. rewrite Hj.
  intros [[_ <-]|[_ Hk]]%lookup_insert_Some; [intros [? _]; congruence|by apply Hi].
Qed.

Lemma keeps_add_unowned s j now : idle_at s (job_id j) → keeps_leases s0 s →
  keeps_leases s0 (add_unowned s j now).1.
Proof. intros. unfold add_unowned. destruct (find_active_repeat_job _ _); [done|by apply keeps_insert]. Qed.

Lemma keeps_add_one s j now : wf s → keeps_leases s0 s → keeps_leases s0 (add_one s j now).1.
Proof.
  intros W H. unfold add_one. destruct (jobs s !! job_id j) as [x|] eqn:Ej; [done|].
  assert (idle_at s (job_id j)) as Hi by (intros k; congruence).
  destruct (find_active_deduplicated_job _ _ j now) as [e|] eqn:Ed; [|by apply keeps_add_unowned].
  pose proof (find_dedup_stored _ _ _ _ _ W Ed) as He.
  destruct (deduplication_replaces_delayed_owner j e) eqn:Er.
  - unfold deduplication_replaces_delayed_owner in Er. bools.
    assert (idle_at s (job_id e)) as Hie.
    { apply (idle_of s _ e He). intros Ha.
      match goal with H : state_eqb (job_state e) _ = true |- _ => apply state_eqb_true in H end. congruence. }
    assert (job_id (preserve_replacement_deduplication_expiration j e) = job_id j) as Hid.
    { unfold preserve_replacement_deduplication_expiration. by case_match. }
    generalize dependent (preserve_replacement_deduplication_expiration j e). intros j1 Hid.
    pose proof (keeps_remove s0 s _ Hie H) as Hk1. pose proof (idle_remove s _ (job_id e) Hi) as Hi1.
    destruct (remove_job_record_locked s (job_id e)) as [s1 [r|]]; cbn [fst] in *;
      apply keeps_add_unowned; rewrite ?Hid; try done.
    + intros k. rewrite (proj1 (emit_replaced_frame _ _ _ _)), (proj1 (emit_removed_frame _ _ _)). by apply Hi1.
    + eapply keeps_jobs; [done|].
      by rewrite (proj1 (emit_replaced_frame _ _ _ _)), (proj1 (emit_removed_frame _ _ _)).
  - cbn [fst]. pose proof (keeps_extend _ j (job_id e) now (keeps_store_next s j e H)) as H1.
    destruct (deduplication_duplicate_emits_events j e); [by apply keeps_emit_deduplicated|done].
Qed.

Lemma keeps_add queue s spec now : wf s → keeps_leases s0 s → keeps_leases s0 (add_at queue s spec now).1.
Proof.
  intros W H. unfold add_at. destruct (validate_job_options_at _ now) as [[]|]; [|done].
  pose proof (keeps_add_one s (job_of_spec queue now spec) now W H). by destruct (add_one _ _ _).
Qed.

Lemma keeps_add_many queue s specs now : wf s → Forall (λ spec : NewSpec, spec.2 ≠ EmptyString) specs →
  keeps_leases s0 s → keeps_leases s0 (add_many_at queue s specs now).1.
Proof.
  intros W Hu H. unfold add_many_at. destruct (validate_specs specs now) as [[]|] eqn:Ev; [|done].
  assert (wf (foldl (λ '(s, acc) j, let '(s, j) := add_one s j now in (s, acc ++ [j])) (s, [])
                (job_of_spec queue now <$> specs)).1 ∧
          keeps_leases s0 (foldl (λ '(s, acc) j, let '(s, j) := add_one s j now in (s, acc ++ [j])) (s, [])
                (job_of_spec queue now <$> specs)).1) as [_ HK].
  { apply (foldl_keeps_forall (λ acc, wf acc.1 ∧ keeps_leases s0 acc.1) fresh_ok); [|by apply specs_fresh|done].
    intros [s' acc] j [W' H'] Hj. pose proof (inv_wf _ _ (inv_add_one s' s' j now (inv_refl s' W') Hj)).
    pose proof (keeps_add_one s' j now W' H'). by destruct (add_one s' j now). }
  by destruct (foldl _ _ _).
Qed.

(** *** Flows *)
Lemma classify_keeps fresh dup now l s c : keeps_leases s0 s →
  keeps_leases s0 (classify_children fresh dup now s c l).1.
Proof.
  revert s c. induction l as [|j l IH]; intros s c H; simpl; [done|].
  assert (keeps_leases s0 (classify_child fresh dup now s c j).1) as H1.
  { unfold classify_child. destruct (bool_decide _); [done|].
    destruct (active_deduplication_id j now) as [d|]; [|done].
    destruct (find_active_deduplication_id _ _ d now) as [e|]; [|by destruct (bool_decide _)].
    destruct (flow_child_deduplication_requires_next j e); [|by apply keeps_extend].
    pose proof (keeps_store_next s j e H). by destruct (store_deduplicated_next_locked s j e) as [s1 []]. }
  destruct (classify_child fresh dup now s c j) as [s1 [c1|e]]; cbn [fst] in *; [by apply IH|done].
Qed.

Lemma classify_idle fresh dup now l s c id : idle_at s id →
  idle_at (classify_children fresh dup now s c l).1 id.
Proof.
  intros Hi j Hj. pose proof (classify_field lease_state (λ _ _, eq_refl) fresh dup now l s c id) as HC.
  rewrite Hj in HC. destruct (jobs s !! id) as [k|] eqn:Ek; [|done]. injection HC as Hst Hl.
  intros Hh. apply (Hi k Ek), (same_held j); [congruence|unfold lease_of in *; congruence|done].
Qed.

Lemma record_terminal_jobs s p j : jobs (record_terminal_child_dependency_locked s p j) = jobs s.
Proof.
  unfold record_terminal_child_dependency_locked. destruct (jobs s !! p); [|done].
  destruct (negb _); [done|]. destruct (job_state j); try done.
  repeat case_match; try done. apply clear_index_jobs.
Qed.

(** Children that are new to the queue find no active job under their id. *)
Definition new_idle (dup : gset string) s (l : list Job) : Prop :=
  Forall (λ j, job_id j ∉ dup → idle_at s (job_id j)) l.

Lemma keeps_store_children owner dup p now l acc : Forall fresh_ok l → new_idle dup acc.1 l →
  keeps_leases s0 acc.1 → keeps_leases s0 (foldl (store_child owner dup p now) acc l).1.
Proof.
  intros Hl. revert acc. induction Hl as [|j l Hj Hl IH]; intros [s st] Hi H; cbn [foldl]; [done|].
  apply Forall_cons in Hi as [Hij Hi]. cbn [fst] in *.
  assert (keeps_leases s0 (store_child owner dup p now (s, st) j).1 ∧
          ∀ id, idle_at s id → idle_at (store_child owner dup p now (s, st) j).1 id) as [H1 Hid].
  { unfold store_child. destruct (owner (job_id j)) as [o|].
    { split; [by apply keeps_emit_deduplicated|]. intros id Hi' k. cbn [fst].
      unfold emit_deduplicated_events_locked. destruct (job_deduplication_id j); [|apply Hi'].
      rewrite (proj1 (emit_deduplication_frame _ _ _ _ _)). apply Hi'. }
    destruct (bool_decide _) eqn:Ed; cbn [fst].
    - destruct (jobs s !! job_id j) as [e|] eqn:Ee; [|done]. cbn [fst].
      unfold emit_duplicated_event_locked. split.
      + apply keeps_emit. eapply keeps_jobs; [|apply record_terminal_jobs].
        by apply (keeps_put_same s0 s (job_id j) e).
      + intros id Hi' k. rewrite emit_jobs, record_terminal_jobs. unfold put_job. simpl.
        intros [[<- <-]|[_ Hk]]%lookup_insert_Some; [|by apply Hi']. by apply (Hi' e).
    - apply bool_decide_eq_false in Ed. pose proof (keeps_insert s j now (Hij Ed) H) as HK.
      assert (job_state j ≠ Active) as Hn by apply Hj.
      pose proof (λ id Hi', idle_insert s j now id Hi' Hn) as HI.
      by destruct (insert_new_job s j now). }
  destruct (store_child owner dup p now (s, st) j) as [s1 st1]. cbn [fst] in *. apply IH; [|done].
  eapply Forall_impl; [exact Hi|]. cbn. intros k Hk Hd. by apply Hid, Hk.
Qed.

Lemma new_idle_sub dup s l : (∀ j, j ∈ l → jobs s !! job_id j = None ∨ job_id j ∈ dup) → new_idle dup s l.
Proof.
  intros H. apply Forall_forall. intros j Hj Hd k. destruct (H j Hj) as [E|]; [congruence|done].
Qed.

Lemma existing_children_spec s p listed dup l r : existing_children s p listed dup l = Ok r →
  dup ⊆ r ∧ ∀ j, j ∈ l → jobs s !! job_id j = None ∨ job_id j ∈ r.
Proof.
  revert dup. induction l as [|j l IH]; intros dup; simpl.
  { intros [= ->]. split; [done|]. by intros j ?%not_elem_of_nil. }
  destruct (jobs s !! job_id j) as [e|] eqn:Ee.
  - intros ([] & _ & H)%try_bind_ok. destruct (_ && _); [done|]. apply IH in H as [Hs Hl].
    split; [set_solver|]. intros k [->|Hk]%elem_of_cons; [right; set_solver|by apply Hl].
  - destruct (bool_decide _); [done|]. intros H%IH. destruct H as [Hs Hl]. split; [done|].
    intros k [->|Hk]%elem_of_cons; [by left|by apply Hl].
Qed.

Lemma duplicated_children_spec s p dup l r : duplicated_flow_children s p l dup = Ok r →
  dup ⊆ r ∧ ∀ j, j ∈ l → jobs s !! job_id j = None ∨ job_id j ∈ r.
Proof.
  revert dup. induction l as [|j l IH]; intros dup; simpl.
  { intros [= ->]. split; [done|]. by intros j ?%not_elem_of_nil. }
  destruct (jobs s !! job_id j) as [e|] eqn:Ee; simpl.
  - intros ([] & _ & H)%try_bind_ok. apply IH in H as [Hs Hl].
    split; [set_solver|]. intros k [->|Hk]%elem_of_cons; [right; set_solver|by apply Hl].
  - intros H%IH. destruct H as [Hs Hl]. split; [done|].
    intros k [->|Hk]%elem_of_cons; [by left|by apply Hl].
Qed.

(** The parent a scan carries keeps its id. *)
Lemma classify_parent_id fresh dup now l s c c' : (classify_children fresh dup now s c l).2 = Ok c' →
  job_id (cs_parent c') = job_id (cs_parent c).
Proof.
  revert s c. induction l as [|j l IH]; intros s c; simpl; [by intros [= ->]|].
  destruct (classify_child fresh dup now s c j) as [s1 [c1|e]] eqn:E; [|done]. intros ->%IH.
  unfold classify_child, park_child, without_child in E. repeat case_match; by simplify_eq/=.
Qed.

Lemma keeps_store_next_flow s f e : keeps_leases s0 s →
  keeps_leases s0 (store_deduplicated_next_flow_locked s f e).1.
Proof.
  intros H. unfold store_deduplicated_next_flow_locked. destruct (negb _); [done|].
  destruct (job_deduplication_id _) as [d|]; [|done]. cbn [fst]. unfold clear_owner_expiration.
  set (s' := _ <| deduplication_next ::= _ |>).
  assert (keeps_leases s0 s') as H' by by eapply keeps_jobs.
  clearbody s'. destruct (jobs s' !! job_id e) as [o|] eqn:Eo; [|done].
  by apply (keeps_put_same s0 s' _ o).
Qed.

Lemma idle_classified fresh dup now l s c dup0 : new_idle dup0 s l →
  new_idle dup0 (classify_children fresh dup now s c l).1 l.
Proof. intros H. eapply Forall_impl; [exact H|]. cbn. intros j Hj Hd. by apply classify_idle, Hj. Qed.

Lemma keeps_add_existing s p l now : wf s → Forall fresh_ok l → keeps_leases s0 s →
  keeps_leases s0 (add_flow_for_existing_parent_locked s p l now).1.
Proof.
  intros W Hl H. unfold add_flow_for_existing_parent_locked. cbn zeta.
  assert (wf (emit_duplicated_event_locked s p now)) as W1 by by apply (inv_wf s), inv_emit_duplicated, inv_refl.
  assert (keeps_leases s0 (emit_duplicated_event_locked s p now)) as H1 by by apply keeps_emit.
  generalize dependent (emit_duplicated_event_locked s p now). clear s W H. intros s W H.
  destruct (existing_children s (job_id p) (job_child_ids p) ∅ l) as [dup|] eqn:Ed; [|done].
  destruct (existing_children_spec _ _ _ _ _ _ Ed) as [_ Hnew%new_idle_sub].
  destruct (inv_classify s false dup now l s (initial_scan p ∅) (inv_refl s W) Hl) as [HI _].
  pose proof (classify_keeps false dup now l s (initial_scan p ∅) H) as H2.
  pose proof (idle_classified false dup now l s (initial_scan p ∅) dup Hnew) as Hn2.
  destruct (classify_children false dup now s _ l) as [s1 [c|]]; [|done]. cbn [fst] in *.
  destruct (check_repeat_keys _ _ _); [|done].
  set (s2 := match jobs s1 !! job_id p with Some _ => _ | None => s1 end).
  assert (inv s s2 ∧ keeps_leases s0 s2 ∧ new_idle dup s2 l) as (HI3 & H3 & Hn3).
  { unfold s2. destruct (jobs s1 !! job_id p) as [pj|] eqn:Ep; [|done].
    destruct (inv_lookup _ _ _ _ HI Ep) as (Hid & Hok & _).
    destruct (add_child_ids_frame c l pj) as [ids ->]. split_and!.
    - apply (inv_put_same s s1 _ pj); try done. by eapply job_ok_transfer.
    - by apply (keeps_put_same s0 s1 _ pj).
    - eapply Forall_impl; [exact Hn2|]. cbn. intros j Hj Hd k. unfold put_job. simpl.
      intros [[Hpj <-]|[_ Hk]]%lookup_insert_Some; [|by apply (Hj Hd)].
      apply (Hj Hd pj). by rewrite <- Hpj. }
  clearbody s2.
  pose proof (inv_store_children s (λ id, cs_deduplicated c !! id) dup (job_id p) now l s2 HI3 Hl) as HI4.
  pose proof (keeps_store_children (λ id, cs_deduplicated c !! id) dup (job_id p) now l (s2, []) Hl Hn3 H3) as H4.
  destruct (foldl _ _ _) as [s3 st]. cbn [fst] in *.
  destruct (bool_decide _); [|done]. apply keeps_release; [by apply (inv_wf s)|done].
Qed.

Lemma keeps_add_new_flow s p l now : wf s → fresh_ok p → Forall fresh_ok l → idle_at s (job_id p) →
  keeps_leases s0 s → keeps_leases s0 (add_new_flow s p l now).1.
Proof.
  intros W Hp Hl Hip H. unfold add_new_flow.
  destruct (duplicated_flow_children _ _ _ _) as [dup|] eqn:Ed; [|done].
  destruct (duplicated_children_spec _ _ _ _ _ Ed) as [_ Hnew%new_idle_sub].
  cbn zeta. set (ids := match active_deduplication_id p now with Some _ => _ | None => _ end). clearbody ids.
  destruct (inv_classify s true dup now l s (initial_scan p ids) (inv_refl s W) Hl) as [HI HC].
  pose proof (classify_keeps true dup now l s (initial_scan p ids) H) as H2.
  pose proof (idle_classified true dup now l s (initial_scan p ids) dup Hnew) as Hn2.
  pose proof (λ id, classify_idle true dup now l s (initial_scan p ids) id) as Hid2.
  assert (∀ c', (classify_children true dup now s (initial_scan p ids) l).2 = Ok c' →
            job_id (cs_parent c') = job_id p) as Hcp by apply classify_parent_id.
  destruct (classify_children true dup now s _ l) as [s1 [c|]]; [|done]. cbn [fst snd] in *.
  specialize (HC c eq_refl Hp). specialize (Hcp c eq_refl).
  set (p1 := (cs_parent c) <| job_child_ids ::= _ |>).
  assert (fresh_ok p1) as Hp1 by (by eapply (fresh_transfer (cs_parent c))).
  assert (job_id p1 = job_id p) as Hpid1 by done. clearbody p1.
  set (p2 := match job_child_ids p1 with [] => _ | _ => p1 end).
  assert (fresh_ok p2 ∧ job_id p2 = job_id p) as [Hp2 Hpid2].
  { unfold p2. destruct (job_child_ids p1); [|done].
    destruct (state_after_fresh (job_scheduled_at p1) now). split; [by apply fresh_state|done]. }
  clearbody p2. destruct (check_repeat_keys _ _ _); [|done].
  pose proof (inv_insert_fresh s s1 p2 now HI Hp2) as HI3.
  assert (keeps_leases s0 (insert_new_job s1 p2 now).1) as H3.
  { apply keeps_insert; [rewrite Hpid2; by apply Hid2|done]. }
  assert (new_idle dup (insert_new_job s1 p2 now).1 l) as Hn3.
  { eapply Forall_impl; [exact Hn2|]. cbn. intros j Hj Hd. apply idle_insert; [by apply Hj|apply Hp2]. }
  destruct (insert_new_job s1 p2 now) as [s2 p3]. cbn [fst] in *.
  match goal with |- context [foldl (store_child ?o ?d ?q now) _ l] =>
    pose proof (inv_store_children s o d q now l s2 HI3 Hl) as HI4;
    pose proof (keeps_store_children o d q now l (s2, []) Hl Hn3 H3) as H4 end.
  destruct (foldl _ _ _) as [s3 st]. cbn [fst] in *.
  destruct (bool_decide _); [|done]. apply keeps_release; [by apply (inv_wf s)|done].
Qed.

Lemma keeps_add_flow queue s p l now : wf s → p.2 ≠ EmptyString →
  Forall (λ spec : NewSpec, spec.2 ≠ EmptyString) l →
  keeps_leases s0 s → keeps_leases s0 (add_flow_at queue s p l now).1.
Proof.
  intros W Hu Hus H. unfold add_flow_at.
  destruct (validate_job_options_at _ now) as [[]|] eqn:Ev; [|done]. apply validate_at_ok in Ev.
  destruct (validate_specs l now) as [[]|] eqn:Evs; [|done]. cbn zeta.
  set (cl := flow_child_job queue now _ <$> l).
  assert (Forall fresh_ok cl) as Hcl by by apply flow_children_fresh, specs_fresh.
  clearbody cl.
  pose proof (flow_parent_fresh queue now p cl (job_of_spec_fresh queue now p Ev Hu)) as Hp.
  generalize dependent (flow_parent_job queue now p cl). intros pj Hp.
  destruct (validate_flow_job_ids pj cl); [|done].
  destruct (jobs s !! job_id pj) eqn:Ej; [by apply keeps_add_existing|].
  destruct (find_active_deduplicated_job _ _ _ _) as [e|]; cycle 1.
  { apply keeps_add_new_flow; try done. intros k. congruence. }
  pose proof (keeps_store_next_flow s (mkJobFlow pj cl) e H) as H1.
  destruct (store_deduplicated_next_flow_locked s _ e) as [s1 []]; cbn [fst] in *.
  - by apply keeps_emit_deduplicated.
  - by apply keeps_emit_deduplicated, keeps_extend.
Qed.

Lemma keeps_upsert queue s spec now : wf s → keeps_leases s0 s →
  keeps_leases s0 (upsert_repeat queue s spec now).1.
Proof.
  intros W H. unfold upsert_repeat.
  destruct (validate_job_options_at _ now) as [[]|]; [|done]. destruct (is_none _); [done|]. cbn zeta.
  generalize (job_of_spec queue now spec). intros j.
  destruct (opt_filter _ _) as [key|]; [|done].
  destruct (find_active_repeat_key (jobs s) key) as [o|] eqn:Eo.
  - apply find_stored in Eo; [|done]. destruct (wf_lookup s W _ _ Eo) as (_ & Hok & _).
    destruct (require_removable o) as [u|] eqn:Er; [|done].
    assert (idle_at s (job_id o)) as Hi by (apply (removable_idle s _ o); [done|by rewrite Er]).
    destruct (is_some _ || _); [done|]. cbn [fmap option_fmap option_map].
    assert (keeps_leases s0 (remove_job_record_locked s (job_id o)).1) as H1 by by apply keeps_remove.
    destruct (jobs s !! job_id j) as [x|] eqn:Ex.
    + destruct (bool_decide _) eqn:Eb; [|done]. apply bool_decide_eq_true, (inj Some) in Eb.
      destruct (wf_lookup s W _ _ Ex) as (Hx & _).
      assert (idle_at (remove_job_record_locked s (job_id o)).1 (job_id j)) as Hi1.
      { intros k. rewrite remove_record_jobs. replace (job_id o) with (job_id j) by congruence.
        by rewrite lookup_delete_eq. }
      lazymatch goal with |- keeps_leases _ (fst (match ?r with Ok _ => _ | Err _ => _ end)) =>
         destruct r; [|done] end.
      pose proof (keeps_insert _ j now Hi1 H1). by destruct (insert_new_job _ j now).
    + assert (idle_at (remove_job_record_locked s (job_id o)).1 (job_id j)) as Hi1.
      { apply idle_remove. intros k. congruence. }
      lazymatch goal with |- keeps_leases _ (fst (match ?r with Ok _ => _ | Err _ => _ end)) =>
         destruct r; [|done] end.
      pose proof (keeps_insert _ j now Hi1 H1). by destruct (insert_new_job _ j now).
  - cbn [fmap option_fmap option_map]. destruct (jobs s !! job_id j) as [x|] eqn:Ex; [done|].
    lazymatch goal with |- keeps_leases _ (fst (match ?r with Ok _ => _ | Err _ => _ end)) =>
       destruct r; [|done] end.
    assert (idle_at s (job_id j)) as Hi by (intros k; congruence).
    pose proof (keeps_insert _ j now Hi H). by destruct (insert_new_job _ j now).
Qed.
End handlers.

(** ** All handlers at once *)

(** Everything but the reports of a lease holder, renewal, recovery of
    expired leases and obliteration. *)
Definition leaves_leases (op : JobOp) : bool :=
  match op with
  | OpComplete _ _ _ _ _ | OpFail _ _ _ _ _ | OpDelayActive _ _ _ _ | OpReleaseActive _ _ _
  | OpAddFlowChildren _ _ _ _ | OpRenew _ _ _ _ | OpRecoverStalled _ | OpObliterate _ => false
  | _ => true
  end.

Lemma keeps_exec queue s op : wf s → op_ok op → leaves_leases op = true → keeps_leases s (exec queue s op).
Proof.
  intros W Hok Hl. pose proof (keeps_refl s) as H. destruct op; try done; cbn [exec op_ok] in *.
  - by apply keeps_add.
  - by apply keeps_add_many.
  - destruct Hok. by apply keeps_add_flow.
  - by apply keeps_upsert.
  - by apply keeps_claim.
  - by apply keeps_promote.
  - by apply keeps_reschedule.
  - by apply keeps_retry.
  - by apply keeps_set_priority.
  - by apply keeps_promote_due.
  - unfold pause. cbn [fst]. by apply keeps_emit.
  - unfold resume. cbn [fst]. by apply keeps_emit.
  - by apply keeps_remove_op.
  - by apply keeps_remove_repeat.
  - eapply keeps_jobs; [done|]. unfold remove_deduplication_key. destruct (String.eqb _ _); [done|].
    by destruct (find_active_deduplication_id _ _ _ _).
  - by apply keeps_clean.
  - by apply keeps_drain.
  - by apply keeps_remove_children.
  - by apply keeps_remove_child_dependency.
  - by apply keeps_update.
  - unfold set_progress. pose proof (keeps_update s s id (λ j, j <| job_progress := Some progress |>)) as HU.
    destruct (update_job s id _) as [s1 [j|e]]; cbn [fst] in *; [apply keeps_emit|]; by apply HU.
  - by apply keeps_update.
  - by apply keeps_update.
  - unfold clear_logs. destruct (jobs s !! id) as [j|] eqn:Ej; [|done]. by apply (keeps_put_same s s id j).
  - eapply keeps_jobs; [done|]. unfold trim_events, trim_events_locked. by destruct (_ <=? _).
Qed.

(** ** Reports of other holders *)
Section one.
Context (id : string) (s0 : QueueState).

(** The lease of [s0] on the job [id] is in place. *)
Definition keeps_at s : Prop :=
  wf s ∧ ∀ j, jobs s0 !! id = Some j → held j →
    ∃ j', jobs s !! id = Some j' ∧ job_state j' = Active ∧ lease_of j' = lease_of j.

Lemma at_then s s' : keeps_at s → wf s' → keeps_leases s s' → keeps_at s'.
Proof.
  intros [_ H] W K. split; [done|]. intros j Hj Hh. destruct (H j Hj Hh) as (j1 & Hj1 & Ha & Hl).
  destruct (K id j1 Hj1) as (j2 & ? & ? & ?); [apply (same_held j); destruct Hh; congruence || done|].
  exists j2. split_and!; [done|done|congruence].
Qed.

Lemma at_same s s' : keeps_at s → wf s' → jobs s' !! id = jobs s !! id → keeps_at s'.
Proof. intros [_ H] W E. split; [done|]. rewrite E. exact H. Qed.

Lemma at_put s i j : keeps_at s → i ≠ id → wf (put_job s i j) → keeps_at (put_job s i j).
Proof. intros H Hne W. eapply at_same; [done|done|]. by apply lookup_insert_ne. Qed.

Lemma at_emit s ev o prev t fields : keeps_at s → keeps_at (emit_event_locked s ev o prev t fields).
Proof.
  intros H. eapply at_same; [done|apply (inv_wf s), inv_emit, inv_refl, H|]. by autorewrite with frame.
Qed.

Lemma at_drained s now : keeps_at s → keeps_at (emit_drained_event_if_needed_locked s now).
Proof. intros H. unfold emit_drained_event_if_needed_locked. case_match; [by apply at_emit|done]. Qed.

Lemma at_remove s i : keeps_at s → i ≠ id → keeps_at (remove_job_record_locked s i).1.
Proof.
  intros H Hne. eapply at_same; [done|apply (inv_wf s), inv_remove, inv_refl, H|].
  rewrite remove_record_jobs. by apply lookup_delete_ne.
Qed.

Lemma at_remove_records s ids : keeps_at s → Forall (λ i, i ≠ id) ids → keeps_at (remove_job_records s ids).
Proof.
  intros H Hids. unfold remove_job_records. apply (foldl_keeps_forall keeps_at (λ i, i ≠ id)); [|done|done].
  intros s' i ? ?. by apply at_remove.
Qed.

Lemma at_retention s st r now : keeps_at s → st ≠ Active → keeps_at (apply_finished_retention_locked s st r now).
Proof.
  intros H Hst. eapply at_then; [done|apply (inv_wf s), inv_retention, inv_refl, H|].
  apply keeps_retention; [apply H|done|apply keeps_refl].
Qed.

Lemma at_retain s i b r st now : keeps_at s → i ≠ id → st ≠ Active → keeps_at (retain_finished s i b r st now).
Proof.
  intros H Hne Hst. unfold retain_finished. destruct b; [by apply at_remove|].
  destruct r; [by apply at_retention|done].
Qed.

Lemma at_record_finished s j : keeps_at s → keeps_at (record_finished s j).
Proof.
  intros H. eapply at_same; [done|apply (inv_wf s), inv_record_finished, inv_refl, H|].
  unfold record_finished. destruct (job_parent_id j); [|done]. by rewrite record_terminal_jobs.
Qed.
End one.

(** *** Parked candidates *)
Lemma keeps_enqueue_after s o now : keeps_leases s (enqueue_deduplicated_next_locked s o now).1.
Proof.
  pose proof (keeps_refl s) as H. unfold enqueue_deduplicated_next_locked. destruct (job_deduplication_id o) as [d|]; [|done].
  destruct (deduplication_next s !! d) as [n|]; [|done].
  assert (keeps_leases s (s <| deduplication_next ::= delete d |>)) as H1 by done.
  generalize dependent (s <| deduplication_next ::= delete d |>). intros s1 H1.
  destruct (repeat_keep_last_next_count o n) as [rc|]; [|done]. cbn zeta.
  set (j := match rc with Some _ => _ | None => _ end). clearbody j.
  destruct (jobs s1 !! job_id j) as [k|] eqn:Ej; [done|]. cbn [is_some].
  set (s2 := match job_parent_id j with Some _ => _ | None => s1 end).
  assert (keeps_leases s s2 ∧ idle_at s2 (job_id j)) as [H2 Hi].
  { unfold s2. destruct (job_parent_id j) as [p|]; [|split; [done|intros k; congruence]].
    destruct (jobs s1 !! p) as [pj|] eqn:Ep; [|split; [done|intros k; congruence]]. split.
    - apply (keeps_put_same s s1 p pj); try done; unfold add_child_id; by destruct (existsb _ _).
    - intros k. unfold put_job. simpl. rewrite lookup_insert_ne by congruence. congruence. }
  clearbody s2. pose proof (keeps_insert s s2 j now Hi H2). by destruct (insert_new_job s2 j now).
Qed.

Lemma keeps_insert_all s l now acc : keeps_leases s acc.1 → Forall (λ j, job_state j ≠ Active) l →
  Forall (λ j, idle_at acc.1 (job_id j)) l →
  keeps_leases s (foldl (λ '(s, acc) c, let '(s, c) := insert_new_job s c now in (s, acc ++ [c])) acc l).1.
Proof.
  revert acc. induction l as [|j l IH]; intros [s1 acc] H Hst Hi; simpl in *; [done|].
  apply Forall_cons in Hst as [Hj Hst]. apply Forall_cons in Hi as [Hij Hi].
  pose proof (keeps_insert s s1 j now Hij H) as H1.
  assert (∀ i, idle_at s1 i → idle_at (insert_new_job s1 j now).1 i) as Hid by (intros; by apply idle_insert).
  destruct (insert_new_job s1 j now) as [s2 j2]. cbn [fst] in *. apply IH; [done|done|].
  eapply Forall_impl; [exact Hi|]. cbn. intros k Hk. by apply Hid.
Qed.

Lemma prepared_flow_ids f now :
  job_id (flow_parent (prepare_deduplicated_next_flow f now)) = job_id (flow_parent f) ∧
  job_id <$> flow_children (prepare_deduplicated_next_flow f now) = job_id <$> flow_children f.
Proof.
  unfold prepare_deduplicated_next_flow. cbn [flow_parent flow_children]. split.
  - unfold as_flow_parent. by case_match.
  - rewrite <- list_fmap_compose. by apply list_fmap_ext.
Qed.

Lemma keeps_enqueue_next_flow s o now : wf s → keeps_leases s (enqueue_deduplicated_next_flow_locked s o now).1.
Proof.
  intros W. pose proof (keeps_refl s) as H. unfold enqueue_deduplicated_next_flow_locked.
  destruct (job_deduplication_id o) as [d|]; [|done].
  destruct (deduplication_next_flows s !! d) as [f|] eqn:Ef; [|done].
  destruct (wf_flows _ W _ _ Ef) as (_ & Hp & Hc). destruct (prepare_flow_parked f now Hp Hc) as [[_ Hpa] Hc'].
  destruct (prepared_flow_ids f now) as [Ep Ec].
  assert (keeps_leases s (s <| deduplication_next_flows ::= delete d |>)) as H1 by done.
  generalize dependent (s <| deduplication_next_flows ::= delete d |>). intros s1 H1.
  destruct (_ || _) eqn:Eg; [done|]. apply orb_false_iff in Eg as [Eg1 Eg2]. cbn zeta.
  generalize dependent (prepare_deduplicated_next_flow f now). intros f' Hpa Hc' Ep Ec.
  assert (∀ i, i ∈ job_id <$> flow_children f' → idle_at s1 i) as Hic.
  { rewrite Ec. intros i (c & -> & Hin)%list_elem_of_fmap k Hk. exfalso.
    apply list_elem_of_In in Hin. assert (is_some (jobs s1 !! job_id c) = false) as E; [|by rewrite Hk in E].
    apply not_true_is_false. intros E. apply (eq_true_false_abs _ (proj2 (existsb_exists _ _) (ex_intro _ c (conj Hin E))) Eg2). }
  assert (idle_at s1 (job_id (flow_parent f'))) as Hip by (intros k; rewrite Ep; intros Hk; by rewrite Hk in Eg1).
  pose proof (keeps_insert s s1 (flow_parent f') now Hip H1) as H2.
  assert (∀ i, idle_at s1 i → idle_at (insert_new_job s1 (flow_parent f') now).1 i) as Hid by (intros; by apply idle_insert).
  destruct (insert_new_job s1 (flow_parent f') now) as [s2 p2]. cbn [fst] in *.
  pose proof (keeps_insert_all s (flow_children f') now (s2, []) H2) as H3.
  destruct (foldl _ _ _). cbn [fst] in *. apply H3.
  - eapply Forall_impl; [exact Hc'|]. by intros c [_ ?].
  - apply Forall_forall. intros c Hin. by apply Hid, Hic, list_elem_of_fmap_2.
Qed.

Lemma keeps_parked s o now : wf s → keeps_leases s (enqueue_parked s o now).1.
Proof.
  intros W. unfold enqueue_parked. pose proof (keeps_enqueue_after s o now) as H1.
  pose proof (inv_wf _ _ (inv_enqueue_next s s o now (inv_refl s W))) as W1.
  destruct (enqueue_deduplicated_next_locked s o now) as [s1 [j|]]; cbn [fst] in *; [done|].
  pose proof (keeps_trans _ _ _ H1 (keeps_enqueue_next_flow s1 o now W1)) as H2.
  by destruct (enqueue_deduplicated_next_flow_locked s1 o now) as [s2 [f|]].
Qed.

(** *** The handlers *)
Section handlers_at.
Context (id : string) (s0 : QueueState).
Abbreviation at_ := (keeps_at id s0).

Lemma at_parked s o now : at_ s → at_ (enqueue_parked s o now).1.
Proof.
  intros H. eapply at_then; [done|apply (inv_wf s), inv_enqueue_parked, inv_refl, H|]. apply keeps_parked, H.
Qed.

Lemma at_release_parent s p now : at_ s → at_ (release_parent_if_ready_locked s p now).1.
Proof.
  intros H. eapply at_then; [done|apply (inv_wf s), inv_release_parent, inv_refl, H|].
  apply keeps_release; [apply H|apply keeps_refl].
Qed.

Lemma at_continue_parent s p now : at_ s → at_ (continue_parent_after_child_failure_locked s p now).1.
Proof.
  intros H. eapply at_then; [done|apply (inv_wf s), inv_continue_parent, inv_refl, H|].
  unfold continue_parent_after_child_failure_locked. destruct (jobs s !! p) as [parent|] eqn:Ep; [|apply keeps_refl].
  destruct (state_eqb (job_state parent) WaitingChildren) eqn:Es; [|apply keeps_refl]. cbn [negb].
  apply state_eqb_true in Es. assert (job_state parent ≠ Active) as Hn by congruence.
  pose proof (keeps_resume s s p parent (job_scheduled_at parent) None WaitingChildren
    (job_event_for_state (state_after_dependencies (job_scheduled_at parent) now)) now Ep
    (inactive_not_held parent Hn) (keeps_refl s)) as HK.
  cbn zeta in *. destruct (waiting_sequence_if s _). cbn [fst]. by rewrite resume_parent_state.
Qed.

(** The two moves that take the lease of an active parent take no other. *)
Lemma at_defer_parent s p c now : at_ s → p ≠ id → at_ (defer_parent_failure_after_child_failure_locked s p c now).1.
Proof.
  intros H Hne. eapply at_same; [done|apply (inv_wf s), inv_defer_parent, inv_refl, H|].
  unfold defer_parent_failure_after_child_failure_locked. destruct (jobs s !! p) as [parent|]; [|done].
  destruct (is_terminal _); [done|]. cbn zeta.
  pose proof (waiting_sequence_if_jobs s (state_after_dependencies (job_scheduled_at parent) now)) as Hj.
  destruct (waiting_sequence_if s _) as [s1 n]. cbn [fst] in *. rewrite emit_jobs. unfold put_job. simpl.
  rewrite lookup_insert_ne by done. by rewrite Hj.
Qed.

Lemma at_fail_parent s p r now : at_ s → p ≠ id → at_ (fail_waiting_parent_locked s p r now).1.
Proof.
  intros H Hne. pose proof (inv_wf _ _ (inv_fail_parent s s p r now (inv_refl s (proj1 H)))) as W'.
  revert W'. unfold fail_waiting_parent_locked. destruct (jobs s !! p) as [parent|] eqn:Ep; [|done].
  destruct (is_terminal (job_state parent)) eqn:Et; [done|]. cbn zeta. cbn [fst].
  destruct (wf_lookup s (proj1 H) _ _ Ep) as (Hid & Hok & Hsq). intros W'. apply at_emit.
  pose proof (fail_parent_ok parent r now Hok Et) as Hf.
  assert (at_ (put_job s p (fail_parent parent r now))) as H1 by (pose proof (proj1 H); by apply at_put; [..|apply wf_put]).
  clear W'. generalize dependent (put_job s p (fail_parent parent r now)). intros s1 H1.
  destruct (removes_failed_immediately _); [by apply at_remove|].
  destruct (failed_retention _); [|done]. by apply at_retention.
Qed.

Lemma at_insert s j now : at_ s → job_id j ≠ id → wf (insert_new_job s j now).1 → at_ (insert_new_job s j now).1.
Proof.
  intros H Hne W. eapply at_same; [done|done|]. pose proof (insert_new_job_spec s j now) as HI.
  destruct (insert_new_job s j now) as [s1 r]. destruct HI as [Hj _]. cbn [fst]. rewrite Hj. by apply lookup_insert_ne.
Qed.

Lemma next_repeat_id j now uuid n : next_repeat_job j now uuid = Ok (Some n) → job_id n = uuid.
Proof.
  unfold next_repeat_job. destruct (opt_repeat (job_options j)) as [r|]; [|done].
  destruct (match rep_limit r with Some _ => _ | None => _ end); [done|].
  intros ([t|] & _ & H)%try_bind_ok; [|done].
  destruct (match rep_end_at r with Some _ => _ | None => _ end); [done|]. by simplify_eq.
Qed.

Lemma at_next_repeat s j now uuid : at_ s → job_ok j → uuid ≠ EmptyString → uuid ≠ id →
  at_ (enqueue_next_repeat s j now uuid).1.
Proof.
  intros H Hj Hu Hne. pose proof (inv_wf _ _ (inv_next_repeat s s j now uuid (inv_refl s (proj1 H)) Hj Hu)) as W.
  revert W. unfold enqueue_next_repeat. destruct (next_repeat_job j now uuid) as [[n|]|] eqn:En; [|done..].
  cbn [fst]. intros W. apply at_insert; [done| |done].
  apply next_repeat_id in En. congruence.
Qed.

(** A report on another job. *)
Lemma at_complete s i t v now uuid : at_ s → i ≠ id → uuid ≠ EmptyString → uuid ≠ id →
  at_ (complete_job s i t v now uuid).1.
Proof.
  intros H Hne Hu Hun. unfold complete_job. destruct (jobs s !! i) as [j|] eqn:Ej; [|done].
  destruct (require_active j _); [|done]. destruct (require_lock_token j t); [|done].
  destruct (ensure_flow_dependencies_are_resolved _ _ _ _); [|done]. cbn zeta.
  destruct (wf_lookup s (proj1 H) _ _ Ej) as (Hid & Hok & Hsq). pose proof (completed_ok j v now Hok) as Hc.
  assert (at_ (put_job s i (completed_job j v now))) as H1 by (pose proof (proj1 H); by apply at_put; [..|apply wf_put]).
  generalize dependent (completed_job j v now). intros c Hc H1.
  generalize dependent (put_job s i c). intros s1 H1.
  assert (at_ (retain_finished (record_finished s1 c) i (removes_completed_immediately (job_options c))
    (completed_retention (job_options c)) Completed now)) as H2
    by (by apply at_retain; [apply at_record_finished|..]).
  pose proof (at_parked _ c now H2) as H3. destruct (enqueue_parked _ c now) as [s2 b]. cbn [fst] in H3.
  assert (at_ (if b then (s2, Ok tt : Result unit) else enqueue_next_repeat s2 c now uuid).1) as H4.
  { destruct b; [done|]. by apply at_next_repeat. }
  destruct (if b then _ else _) as [s3 [[]|e]]; cbn [fst] in *; [|done].
  apply at_drained, at_emit. destruct (job_parent_id c); [by apply at_release_parent|done].
Qed.

(** A failure that would take the lease of its parent. *)
Definition takes_parent (k : Job) : bool :=
  bool_decide (job_parent_id k = Some id) &&
  (opt_fail_parent_on_failure (job_options k) ||
   negb (opt_continue_parent_on_failure (job_options k) || child_failure_releases_dependency k)).

Lemma at_propagate s k p now : at_ s → takes_parent k = false → job_parent_id k = Some p →
  at_ (propagate_child_failure s p k now).
Proof.
  intros H Ht Hp. unfold takes_parent in Ht. unfold propagate_child_failure.
  assert (opt_fail_parent_on_failure (job_options k) = true ∨
    (opt_continue_parent_on_failure (job_options k) || child_failure_releases_dependency k) = false → p ≠ id) as Hne.
  { intros Hk ->. rewrite Hp, bool_decide_eq_true_2 in Ht by done. destruct Hk as [Hk|Hk]; rewrite Hk in Ht; [done|].
    by destruct (opt_fail_parent_on_failure _). }
  destruct (opt_fail_parent_on_failure _); [apply at_defer_parent; auto|].
  destruct (opt_continue_parent_on_failure _); [by apply at_continue_parent|].
  destruct (child_failure_releases_dependency k); [by apply at_release_parent|]. apply at_fail_parent; auto.
Qed.

Lemma at_settle_failed s i k now : at_ s → i ≠ id → takes_parent k = false → at_ (settle_failed s i k now).
Proof.
  intros H Hne Ht. unfold settle_failed. cbn zeta.
  assert (at_ (enqueue_parked (retain_finished (record_finished s k) i (removes_failed_immediately (job_options k))
    (failed_retention (job_options k)) Failed now) k now).1) as H1
    by (by apply at_parked, at_retain; [apply at_record_finished|..]).
  destruct (job_parent_id k) eqn:Ep; [by apply at_propagate|done].
Qed.

Lemma failed_attempt_takes j e now b : takes_parent (failed_attempt j e now b) = takes_parent j.
Proof. unfold failed_attempt, takes_parent. by destruct (b && _). Qed.

Lemma at_fail s i t e now b : at_ s → i ≠ id →
  (∀ k, jobs s !! i = Some k → takes_parent k = false) → at_ (fail_active_job s i t e now b).1.
Proof.
  intros H Hne Hk. unfold fail_active_job. destruct (jobs s !! i) as [j|] eqn:Ej; [|done].
  destruct (require_active j _) as [[]|] eqn:Ha; [|done]. apply require_active_ok in Ha.
  destruct (require_lock_token j t); [|done]. cbn zeta.
  pose proof (inv_wf _ _ (inv_put_failed s s i e now b j (inv_refl s (proj1 H)) Ej Ha)) as W.
  pose proof (failed_attempt_takes j e now b) as Ht. rewrite (Hk j eq_refl) in Ht.
  assert (at_ (put_job s i (failed_attempt j e now b))) as H1 by (by apply at_put).
  generalize dependent (failed_attempt j e now b). intros f W Ht H1.
  generalize dependent (put_job s i f). intros s1 W H1. cbn [fst].
  assert (at_ (if state_eqb (job_state f) Failed then settle_failed s1 i f now else s1)) as H2.
  { destruct (state_eqb _ _); [by apply at_settle_failed|done]. }
  generalize dependent (if state_eqb (job_state f) Failed then settle_failed s1 i f now else s1). intros s2 H2.
  assert (at_ (emit_event_locked s2 (job_event_for_state (job_state f)) (Some f) (Some Active) now
    (failed_reason_field (job_failed_reason f)))) as H3 by by apply at_emit.
  destruct (retries_exhausted f), (state_eqb (job_state f) Failed); try apply at_drained; try apply at_emit; done.
Qed.

Lemma at_delay s i t d now : at_ s → i ≠ id → at_ (delay_active s i t d now).1.
Proof.
  intros H Hne. pose proof (inv_wf _ _ (inv_delay_active s s i t d now (inv_refl s (proj1 H)))) as W.
  eapply at_same; [done|done|]. unfold delay_active. destruct (jobs s !! i); [|done].
  destruct (require_active _ _); [|done]. destruct (require_lock_token _ _); [|done]. cbn [fst].
  rewrite emit_jobs. by apply lookup_insert_ne.
Qed.

Lemma at_release s i t now : at_ s → i ≠ id → at_ (release_active s i t now).1.
Proof.
  intros H Hne. pose proof (inv_wf _ _ (inv_release_active s s i t now (inv_refl s (proj1 H)))) as W.
  eapply at_same; [done|done|]. unfold release_active. destruct (jobs s !! i); [|done].
  destruct (require_active _ _); [|done]. destruct (require_lock_token _ _); [|done]. cbn [fst].
  rewrite emit_jobs. by apply lookup_insert_ne.
Qed.

(** Children added to another parent. *)
Lemma waiting_parent_ok j c l : job_ok j → is_terminal (job_state j) = false →
  let p := add_child_ids (waiting_for_children j) c l in
  job_ok p ∧ job_state p = WaitingChildren ∧ job_id p = job_id j ∧ job_enqueued_seq p = job_enqueued_seq j.
Proof.
  intros Hok Ht. cbn zeta. destruct (add_child_ids_frame c l (waiting_for_children j)) as [ids ->].
  pose proof (waiting_for_children_ok j Hok Ht) as HW.
  split; [|done]. generalize dependent (waiting_for_children j). intros w HW. by eapply job_ok_transfer.
Qed.

Lemma at_children_stored owner dup p now l s (b : bool) ev o prev fields : at_ s → Forall fresh_ok l → new_idle dup s l →
  let s' := emit_event_locked (foldl (store_child owner dup p now) (s, []) l).1 ev o prev now fields in
  at_ (if b then (release_parent_if_ready_locked s' p now).1 else s').
Proof.
  intros H Hl Hn. cbn zeta.
  assert (at_ (foldl (store_child owner dup p now) (s, []) l).1) as H1.
  { eapply at_then; [done|apply (inv_wf s), inv_store_children; [apply inv_refl, H|done]|].
    by apply keeps_store_children; [..|apply keeps_refl]. }
  destruct b; [apply at_release_parent|]; by apply at_emit.
Qed.

Lemma at_add_children queue s pid t l now : at_ s → pid ≠ id → Forall (λ spec : NewSpec, spec.2 ≠ EmptyString) l →
  at_ (add_flow_children_at queue s pid t l now).1.
Proof.
  intros H Hne Hus. unfold add_flow_children_at. destruct l as [|x l']; [done|]. set (l := x :: l') in *. clearbody l.
  destruct (validate_specs l now) as [[]|] eqn:Evs; [|done]. cbn zeta.
  set (cl := flow_child_job queue now _ <$> l).
  assert (Forall fresh_ok cl) as Hcl by by apply flow_children_fresh, specs_fresh.
  clearbody cl. destruct (validate_flow_child_jobs pid cl); [|done].
  destruct (jobs s !! pid) as [pj|] eqn:Ep; [|done].
  destruct (require_active pj _) as [[]|] eqn:Ea; [|done]. apply require_active_ok in Ea.
  destruct (require_lock_token pj t); [|done]. destruct (ensure_flow_dependencies_have_not_failed _ _ _ _); [|done].
  destruct (existing_children s pid (job_child_ids pj) ∅ cl) as [dup|] eqn:Ed; [|done].
  destruct (existing_children_spec _ _ _ _ _ _ Ed) as [_ Hnew%new_idle_sub].
  destruct (inv_classify s false dup now cl s (initial_scan pj ∅) (inv_refl s (proj1 H)) Hcl) as [HI _].
  pose proof (classify_keeps s false dup now cl s (initial_scan pj ∅) (keeps_refl s)) as H2.
  pose proof (idle_classified false dup now cl s (initial_scan pj ∅) dup Hnew) as Hn2.
  pose proof (λ j', classify_keeps_states false dup now cl s (initial_scan pj ∅) pid pj j' Ep) as Hst.
  destruct (classify_children false dup now s _ cl) as [s1 [c|]]; cbn [fst] in *; [|by eapply at_then; [| |exact H2]; [|apply (inv_wf s)]].
  assert (at_ s1) as H1 by (by eapply at_then; [| |exact H2]; [|apply (inv_wf s)]).
  destruct (check_repeat_keys _ _ _); [|done]. destruct (jobs s1 !! pid) as [pj1|] eqn:Ep1; [|done].
  destruct (wf_lookup s1 (proj1 H1) _ _ Ep1) as (Hid & Hok & Hsq). specialize (Hst pj1 eq_refl).
  destruct (waiting_parent_ok pj1 c cl Hok) as (Hok2 & Hst2 & Hid2 & Hsq2); [by rewrite Hst, Ea|].
  generalize dependent (add_child_ids (waiting_for_children pj1) c cl). intros p2 Hok2 Hst2 Hid2 Hsq2.
  assert (at_ (put_job s1 pid p2)) as H3.
  { apply at_put; [done|done|]. pose proof (proj1 H1). by apply wf_put; [..|congruence|rewrite Hsq2]. }
  assert (new_idle dup (put_job s1 pid p2) cl) as Hn3.
  { eapply Forall_impl; [exact Hn2|]. cbn. intros j Hj Hd k. unfold put_job. simpl.
    intros [[_ <-]|[_ Hk]]%lookup_insert_Some; [apply inactive_not_held; by rewrite Hst2|by apply (Hj Hd)]. }
  pose proof (at_children_stored (λ id, cs_deduplicated c !! id) dup pid now cl _ (bool_decide (size (cs_next c) = O))
    "waiting-children" (Some p2) (Some Active) ∅ H3 Hcl Hn3) as H4. cbn zeta in H4.
  destruct (foldl _ _ _) as [s3 st]. exact H4.
Qed.
End handlers_at.

(** *** Recovery *)
Section recovery_at.
Context (id : string) (s0 : QueueState).
Abbreviation at_ := (keeps_at id s0).

(** What recovery still has to do concerns neither the job nor its lease. *)
Definition tail_spares (r : Recovery) : Prop :=
  Forall (λ i, i ≠ id) (rc_remove_ids r) ∧ Forall (λ e, e.1 ≠ id) (rc_deferred r) ∧
  Forall (λ e, e.1.1 ≠ id) (rc_failed_children r).

Lemma file_failed_spares r k : job_id k ≠ id → takes_parent id k = false → tail_spares r → tail_spares (file_failed r k).
Proof.
  intros Hne Ht (Hr & Hd & Hf). unfold file_failed, tail_spares.
  set (r1 := match job_parent_id k with None => r | Some p => _ end).
  assert (rc_remove_ids r1 = rc_remove_ids r ∧ Forall (λ e, e.1 ≠ id) (rc_deferred r1) ∧
    Forall (λ e, e.1.1 ≠ id) (rc_failed_children r1)) as (E & Hd1 & Hf1).
  { unfold r1. destruct (job_parent_id k) as [p|] eqn:Ep; [|done].
    unfold takes_parent in Ht. rewrite Ep in Ht. destruct (opt_fail_parent_on_failure _).
    { split_and!; [done| |done]. apply Forall_app. split; [done|]. apply Forall_singleton. cbn. intros ->.
      by rewrite bool_decide_eq_true_2 in Ht. }
    destruct (opt_continue_parent_on_failure _); [done|]. destruct (child_failure_releases_dependency k); [done|].
    split_and!; [done|done|]. apply Forall_app. split; [done|]. apply Forall_singleton. cbn. intros ->.
    by rewrite bool_decide_eq_true_2 in Ht. }
  clearbody r1. destruct (removes_failed_immediately _); simpl; rewrite E; split_and!; try done.
  apply Forall_app. split; [done|]. by apply Forall_singleton.
Qed.

Definition spared (j : Job) : Prop := job_id j ≠ id ∧ takes_parent id j = false.

Lemma recover_one_spares s r now j : jobs s !! job_id j = Some j → spared j → tail_spares r →
  tail_spares (recover_one now (s, r) j).2.
Proof.
  intros Hj [Hne Ht] Hr. unfold recover_one. rewrite Hj. cbn zeta.
  assert (job_id (stalled_out (stall j) now) ≠ id) as Hne' by exact Hne.
  assert (takes_parent id (stalled_out (stall j) now) = false) as Ht' by exact Ht.
  pose proof (file_failed_spares r _ Hne' Ht' Hr) as Hf. clear Hne' Ht' Hne Ht.
  generalize dependent (file_failed r (stalled_out (stall j) now)). intros r' Hf.
  destruct (stalls_out (stall j)); [exact Hf|]. by destruct (next_waiting_sequence _).
Qed.

Lemma recover_all_spares now l s r : wf s →
  (∀ j, j ∈ l → jobs s !! job_id j = Some j ∧ job_state j = Active ∧ spared j) → NoDup (job_id <$> l) →
  tail_spares r → tail_spares (foldl (recover_one now) (s, r) l).2.
Proof.
  revert s r. induction l as [|j l IH]; intros s r W Hl Hnd Hr; cbn [foldl]; [done|].
  rewrite fmap_cons in Hnd. apply NoDup_cons in Hnd as [Hnj Hnd].
  destruct (Hl j) as (Hj & Ha & Hs); [set_solver|].
  destruct (recover_one_spec s s r now j (inv_refl s W) Hj Ha) as [H1 Hout].
  pose proof (recover_one_spares s r now j Hj Hs Hr) as Hr1.
  destruct (recover_one now (s, r) j) as [s1 r1]. cbn [fst snd] in *. apply IH; [by apply (inv_wf s)| |done|done].
  intros j' Hj'. destruct (Hl j') as (? & ? & ?); [set_solver|]. rewrite Hout; [done|].
  intros Heq. apply Hnj. rewrite <- Heq. by apply list_elem_of_fmap_2.
Qed.

Lemma at_settle_stalled now s k : at_ s → at_ (settle_stalled now s k).
Proof.
  intros H. unfold settle_stalled. cbn zeta.
  assert (at_ (enqueue_parked (record_finished s k) k now).1) as H1 by by apply at_parked, at_record_finished.
  destruct (failed_retention _); [|done]. by apply at_retention.
Qed.

Lemma at_settle_all now l s : at_ s → at_ (foldl (settle_stalled now) s l).
Proof. intros H. apply foldl_keeps; [|done]. intros a k ?. by apply at_settle_stalled. Qed.

Lemma at_defer_all now l s : at_ s → Forall (λ e, e.1 ≠ id) l →
  at_ (foldl (λ s '(p, c), (defer_parent_failure_after_child_failure_locked s p c now).1) s l).
Proof.
  intros H Hl. revert s H. induction Hl as [|[p c] l Hp _ IH]; intros s H; cbn [foldl]; [done|].
  by apply IH, at_defer_parent.
Qed.

Lemma at_continue_all now l s : at_ s → at_ (foldl (λ s p, (continue_parent_after_child_failure_locked s p now).1) s l).
Proof. intros H. apply foldl_keeps; [|done]. intros a p ?. by apply at_continue_parent. Qed.

Lemma at_release_all now l s : at_ s → at_ (foldl (λ s p, (release_parent_if_ready_locked s p now).1) s l).
Proof. intros H. apply foldl_keeps; [|done]. intros a p ?. by apply at_release_parent. Qed.

Lemma at_fail_all now l s : at_ s → Forall (λ e, e.1.1 ≠ id) l →
  at_ (foldl (λ s '(p, c, reason), (fail_waiting_parent_locked s p (child_failed_message c reason) now).1) s l).
Proof.
  intros H Hl. revert s H. induction Hl as [|[[p c] m] l Hp _ IH]; intros s H; cbn [foldl]; [done|].
  by apply IH, at_fail_parent.
Qed.

Lemma at_emit_all now l s : at_ s → at_ (foldl (emit_stalled_events now) s l).
Proof. intros H. apply foldl_keeps; [|done]. intros a k ?. by apply at_emit, at_emit. Qed.

Lemma at_recover s now : at_ s →
  (∀ j, j ∈ stalled_jobs s now → spared j) → at_ (recover_stalled_jobs s now).1.
Proof.
  intros H Hs. pose proof (proj1 H) as W.
  destruct (recover_fold_exact s now W) as (_ & Hout & _ & _).
  pose proof (inv_wf _ _ (inv_recover_fold s s now (inv_refl s W))) as W1.
  assert (tail_spares (foldl (recover_one now) (s, empty_recovery) (stalled_jobs s now)).2) as Hr.
  { apply recover_all_spares; [done| |by apply selection_ids_NoDup|done].
    intros j Hj. specialize (Hs j Hj). apply elem_of_stalled in Hj as [? ?%is_stalled_active]; done. }
  unfold recover_stalled_jobs. destruct (foldl (recover_one now) _ _) as [s1 r]. cbn [fst snd] in *. cbn zeta.
  assert (at_ s1) as H1.
  { eapply at_same; [done|done|]. apply Hout. intros (j & -> & Hj)%list_elem_of_fmap. by destruct (Hs j Hj). }
  destruct Hr as (Hrm & Hd & Hf). pose proof (at_remove_records id s0 s1 _ H1 Hrm) as H2.
  generalize dependent (remove_job_records s1 (rc_remove_ids r)). clear H1 Hrm W1 Hout. intros s2 H2.
  pose proof (at_settle_all now (rc_terminal r) s2 H2) as H3.
  pose proof (at_defer_all now _ _ H3 Hd) as H4. pose proof (at_continue_all now (rc_continuing r) _ H4) as H5.
  pose proof (at_release_all now (rc_releasing r) _ H5) as H6. pose proof (at_fail_all now _ _ H6 Hf) as H7.
  exact (at_emit_all now (rc_events r) _ H7).
Qed.
End recovery_at.

(** *** Any operation *)

(** The operations that leave the lease held on [id] under [t] in place.  A
    report or an addition of children counts when it is made on the job itself
    with its token; the failure of a child when its policy reaches the active
    parent; recovery when the lease has expired, or that of such a child. *)
Definition leaves_held s (id t : string) (op : JobOp) : bool :=
  match op with
  | OpComplete i t' _ _ uuid => negb (String.eqb i id && String.eqb t' t) && negb (String.eqb uuid id)
  | OpDelayActive i t' _ _ | OpReleaseActive i t' _ | OpAddFlowChildren i t' _ _ =>
      negb (String.eqb i id && String.eqb t' t)
  | OpFail i t' _ _ _ =>
      if String.eqb i id then negb (String.eqb t' t)
      else match jobs s !! i with Some k => negb (takes_parent id k) | None => true end
  | OpRecoverStalled now =>
      forallb (λ k, negb (String.eqb (job_id k) id) && negb (takes_parent id k)) (stalled_jobs s now)
  | OpObliterate force => negb force
  | _ => true
  end.


(** The job and the token of an operation that needs a lease. *)
Definition on_lease (op : JobOp) : option (string * string) :=
  match op with
  | OpComplete i t _ _ _ | OpFail i t _ _ _ | OpDelayActive i t _ _ | OpReleaseActive i t _
  | OpAddFlowChildren i t _ _ | OpRenew i t _ _ => Some (i, t)
  | _ => None
  end.

Lemma not_owner_exec queue s op i t : on_lease op = Some (i, t) →
  (∀ j, jobs s !! i = Some j → ¬ owned_by j t) → exec queue s op = s.
Proof.
  intros E H. destruct op; try done; cbn [on_lease] in E; injection E as -> ->; cbn [exec];
    unfold complete_job, fail_active_job, renew, delay_active, release_active, add_flow_children_at.
  all: try (destruct children as [|x l]; [done|]; destruct (validate_specs _ _); [|done]; cbn zeta;
            destruct (validate_flow_child_jobs _ _); [|done]).
  all: destruct (jobs s !! i) as [j|] eqn:Ej; [|done]; specialize (H j eq_refl).
  all: exact (proj1 (guarded_rejected s j t _ _ H)).
Qed.

Section held.
Context (queue id t : string).

Lemma at_refl s : wf s → keeps_at id s s.
Proof. intros W. split; [done|]. intros j Hj [Ha _]. by exists j. Qed.

(** An operation on the lease of another job or token. *)
Lemma other_lease s op i t' : wf s → (∀ j, jobs s !! id = Some j → owned_by j t) → on_lease op = Some (i, t') →
  negb (String.eqb i id && String.eqb t' t) = true → (i ≠ id → keeps_at id s (exec queue s op)) →
  keeps_at id s (exec queue s op).
Proof.
  intros W Ho E [Hi%String.eqb_neq|Ht%String.eqb_neq]%negb_true_iff%andb_false_iff Hne; [by apply Hne|].
  destruct (decide (i = id)) as [->|]; [|by apply Hne]. rewrite (not_owner_exec queue s op id t' E); [by apply at_refl|].
  intros j Hj [_ Hj']. destruct (Ho j Hj) as [_ Hj2]. congruence.
Qed.

Lemma renewed_elsewhere s i t' l now : wf s → i ≠ id → keeps_at id s (renew s i t' l now).1.
Proof.
  intros W Hne. eapply at_same; [by apply at_refl|by apply wf_renew|].
  unfold renew. destruct (jobs s !! i); [|done]. destruct (require_active _ _); [|done].
  destruct (require_lock_token _ _); [|done]. by apply lookup_insert_ne.
Qed.

Lemma at_exec s op : wf s → op_ok op → leaves_held s id t op = true →
  (∀ j, jobs s !! id = Some j → owned_by j t) → is_Some (jobs s !! id) →
  (∀ i t' l now, op = OpRenew i t' l now → negb (String.eqb i id && String.eqb t' t) = true) →
  keeps_at id s (exec queue s op).
Proof.
  intros W Hok Hl Ho [j0 Hj0] Hr. pose proof (at_refl s W) as H.
  destruct (leaves_leases op) eqn:Hg.
  { eapply at_then; [done|by apply wf_exec|by apply keeps_exec]. }
  destruct op; try done; cbn [leaves_held op_ok] in *.
  - apply (other_lease s _ parent_id token); [done..|]. intros. by apply at_add_children.
  - apply andb_true_iff in Hl as [Hl Hu%negb_true_iff%String.eqb_neq].
    apply (other_lease s _ id0 token); [done..|]. intros. by apply at_complete.
  - assert (negb (String.eqb id0 id && String.eqb token t) = true ∧
      (id0 ≠ id → ∀ k, jobs s !! id0 = Some k → takes_parent id k = false)) as [Hl' Hk].
    { destruct (String.eqb_spec id0 id) as [->|]; [by split|]. split; [done|]. intros _ k Hk. rewrite Hk in Hl.
      by apply negb_true_iff in Hl. }
    apply (other_lease s _ id0 token); [done..|]. intros. by apply at_fail; [..|apply Hk].
  - apply (other_lease s _ id0 token); [done|done|done|by eapply Hr|]. intros. by apply renewed_elsewhere.
  - apply (other_lease s _ id0 token); [done..|]. intros. by apply at_delay.
  - apply (other_lease s _ id0 token); [done..|]. intros. by apply at_release.
  - apply at_recover; [done|]. intros k Hk. rewrite forallb_forall in Hl. apply list_elem_of_In, Hl in Hk.
    apply andb_true_iff in Hk as [Hk1%negb_true_iff%String.eqb_neq Hk2%negb_true_iff]. by split.
  - apply negb_true_iff in Hl as ->. eapply at_same; [done|by apply wf_exec|]. cbn [exec].
    unfold obliterate. cbn zeta. simpl. rewrite andb_true_r.
    destruct (existsb _ _) eqn:Ex; [done|]. exfalso. rewrite <- not_true_iff_false in Ex. apply Ex.
    apply existsb_exists. exists j0. destruct (Ho j0 Hj0) as [Ha _]. split; [|by apply state_eqb_true].
    apply list_elem_of_In, elem_of_hash_values. by exists id.
Qed.

(** The job as its holder finds it after the operation: a renewal of the lease
    moves the expiry, nothing else changes it. *)
Definition after_op (op : JobOp) (j : Job) : Job :=
  match op with
  | OpRenew i t' lease_for now =>
      if String.eqb i id && String.eqb t' t then renewed_job j lease_for now else j
  | _ => j
  end.

(** C6: a worker keeps its lease until it gives it up or loses it in one of
    the named ways.  Through every operation of the queue, whoever calls it and
    whether it succeeds or not, the job stays active with its worker, token,
    expiry, attempt count and start time, a renewal by its holder moving the
    expiry alone; excepted are only ([leaves_held]) a report or an addition of
    children on this job under its token, the failure of one of its own
    children by a policy that ends or fails an active parent, recovery once the
    lease, or that of such a child, has expired, a forced obliteration, and a
    completion that draws the id of this very job for the next of its series. *)
Theorem leases_survive s op j : reachable queue s → op_ok op → leaves_held s id t op = true →
  jobs s !! id = Some j → owned_by j t →
  ∃ j', jobs (exec queue s op) !! id = Some j' ∧ owned_by j' t ∧ lease_of j' = lease_of (after_op op j).
Proof.
  intros W%reachable_wf_aux Hok Hl Hj Ho.
  assert (∀ k, jobs s !! id = Some k → owned_by k t) as Hall by (intros k Hk; congruence).
  assert ((∀ i t' l now, op = OpRenew i t' l now → negb (String.eqb i id && String.eqb t' t) = true) →
    ∃ j', jobs (exec queue s op) !! id = Some j' ∧ owned_by j' t ∧ lease_of j' = lease_of j) as Hgo.
  { intros Hr. destruct (at_exec s op W Hok Hl Hall (ex_intro _ j Hj) Hr) as [_ H]. destruct Ho as [Ha Ht].
    destruct (H j Hj) as (j' & Hj' & Ha' & He); [by split|]. exists j'. split; [done|]. split; [|done].
    split; [done|]. unfold lease_of in He. congruence. }
  destruct op; try (apply Hgo; intros; discriminate). cbn [after_op].
  destruct (String.eqb id0 id && String.eqb token t) eqn:E; [|apply Hgo; intros ? ? ? ? [= <- <- <- <-]; by rewrite E].
  apply andb_true_iff in E as [->%String.eqb_eq ->%String.eqb_eq]. destruct Ho as [Ha Ht].
  cbn [exec]. unfold renew. rewrite Hj, (proj2 (require_active_ok j _) Ha), (proj2 (require_lock_token_ok j t) Ht).
  cbn [fst]. eexists. split; [apply lookup_insert_eq|]. split; [by split|done].
Qed.
End held.
End keeps.

(** ** Witness *)
Import Demo.

(** Another holder fails its job: the lease on ["b"] stays. *)
Definition two_held : QueueState := exec "q" leased (OpClaim "w2" 30 40 "t2").

Lemma leases_survive_witness :
  ∃ j', jobs (exec "q" two_held (OpFail "a" "t2" "boom" 50 false)) !! "b" = Some j' ∧ owned_by j' "t1".
Proof.
  assert ((λ j, (job_state j, job_lock_token j)) <$> jobs two_held !! "b" = Some (Active, Some "t1")) as H
    by (vm_compute; reflexivity).
  apply fmap_Some in H as (j & Hj & Ha). injection Ha as Ha Ht.
  assert (reachable "q" two_held) as Hr by (apply reach_op; [exact leased_reachable|exact I]).
  destruct (leases_survive "q" "b" "t1" two_held (OpFail "a" "t2" "boom" 50 false) j Hr I) as (j' & Hj' & Ho & _).
  - vm_compute. reflexivity.
  - exact Hj.
  - split; [exact (eq_sym Ha)|exact (eq_sym Ht)].
  - exists j'. split; [exact Hj'|exact Ho].
Defined.

(** The failure that is excepted: a child added to an active parent fails, and
    the parent is failed under the worker that holds it. *)
Definition child_failed : QueueState :=
  run "q" [OpAdd (spec "p" default_options) 0; OpClaim "w1" 30 1 "t1";
           OpAddFlow (spec "p" default_options) [spec "k" default_options] 2; OpClaim "w2" 30 3 "t2";
           OpFail "k" "t2" "boom" 4 false].
Example failed_child_ends_active_parent :
  (λ j, (job_state j, job_lock_token j)) <$> jobs child_failed !! "p" = Some (Failed, None).
Proof. vm_compute. reflexivity. Qed.
