(* ===== verification/JobFamily.v ===== *)
(** * Parents and children

    When a parent may complete, and what becomes of a parent that waits for
    its children once they have finished. *)
From S2P Require Import Prelude Ordering Text External Retry JobTypes JobStore.
From S2P Require Import JobDedup JobFlows JobCore JobQueries JobAdmin JobAdd JobInvariant.
From S2P Require Import JobPreserve JobHandlers JobSubmit JobSnapshot JobSystem JobClaim.
Local Open Scope Z_scope.

Section family.
Context {X : Ext} `{!ExtLaws X}.
Implicit Types (s : QueueState) (j : Job) (m : gmap string Job).

(** ** Counting dependencies *)

(** A listed child whose outcome only its own record tells. *)
Definition retained_child m (index : option FlowIndex) (P : Job → bool) (id : string) : bool :=
  negb (flow_dependency_index_contains index id) &&
  match m !! id with Some c => P c | None => false end.

Definition child_pending (c : Job) : bool := negb (is_terminal (job_state c)).
Definition child_failing (c : Job) : bool :=
  state_eqb (job_state c) Failed && negb (child_failure_releases_dependency c).

Lemma count_child_spec m c id :
  let P f := match m !! id with Some k => f k | None => false end in
  dc_unprocessed (count_child m c id) = (dc_unprocessed c + Nat.b2n (P child_pending))%nat ∧
  dc_failed (count_child m c id) = (dc_failed c + Nat.b2n (P child_failing))%nat.
Proof.
  unfold count_child, child_pending, child_failing, child_failure_releases_dependency, child_failure_ignored.
  destruct (m !! id) as [k|]; [|simpl; lia]. destruct (job_state k); simpl; try lia.
  destruct (opt_ignore_dependency_on_failure _), (opt_continue_parent_on_failure _),
    (opt_remove_dependency_on_failure _); simpl; lia.
Qed.

Lemma filter_cons_length {A} (P : A → bool) a l :
  length (List.filter P (a :: l)) = (Nat.b2n (P a) + length (List.filter P l))%nat.
Proof. simpl. by destruct (P a). Qed.

Lemma counts_spec parent m index :
  dc_unprocessed (flow_dependency_counts parent m index) =
    length (List.filter (retained_child m index child_pending) (job_child_ids parent)) ∧
  dc_failed (flow_dependency_counts parent m index) =
    (size (fi_failed (unwrap_or index empty_index)) +
     length (List.filter (retained_child m index child_failing) (job_child_ids parent)))%nat.
Proof.
  unfold flow_dependency_counts. set (c0 := mkCounts _ _ _ _ _).
  assert (∀ l c,
    dc_unprocessed (foldl (λ c id, if flow_dependency_index_contains index id then c else count_child m c id) c l)
      = (dc_unprocessed c + length (List.filter (retained_child m index child_pending) l))%nat ∧
    dc_failed (foldl (λ c id, if flow_dependency_index_contains index id then c else count_child m c id) c l)
      = (dc_failed c + length (List.filter (retained_child m index child_failing) l))%nat) as H.
  { intros l. induction l as [|id l IH]; intros c; [simpl; lia|]. cbn [foldl]. rewrite !filter_cons_length.
    destruct (IH (if flow_dependency_index_contains index id then c else count_child m c id)) as [-> ->].
    destruct (count_child_spec m c id) as [Hu Hf].
    assert (∀ P, retained_child m index P id = negb (flow_dependency_index_contains index id) &&
              match m !! id with Some c => P c | None => false end) as HP by done.
    rewrite !HP. destruct (flow_dependency_index_contains index id); simpl; rewrite ?Hu, ?Hf; lia. }
  destruct (H (job_child_ids parent) c0) as [-> ->]. unfold c0. simpl. lia.
Qed.

Lemma filter_length_zero {A} (P : A → bool) l :
  length (List.filter P l) = O ↔ ∀ a, a ∈ l → P a = false.
Proof.
  induction l as [|a l IH]; simpl; [split; [by intros _ a ?%not_elem_of_nil|done]|].
  destruct (P a) eqn:E; simpl.
  - split; [done|]. intros H. specialize (H a ltac:(left)). congruence.
  - rewrite IH. split; [intros H b [->|Hb]%elem_of_cons; auto|]. intros H b Hb. apply H. by right.
Qed.

(** A child that keeps its parent from completing. *)
Definition blocking s (p : Job) (id : string) : Prop :=
  (∃ i, flow_dependencies s !! job_id p = Some i ∧ id ∈ fi_failed i) ∨
  (id ∈ job_child_ids p ∧ flow_dependency_index_contains (flow_dependencies s !! job_id p) id = false ∧
   ∃ c, jobs s !! id = Some c ∧ (child_pending c = true ∨ child_failing c = true)).

Lemma resolved_iff s p a :
  is_ok (ensure_flow_dependencies_are_resolved p (jobs s) (flow_dependencies s !! job_id p) a) = true ↔
  ∀ id, ¬ blocking s p id.
Proof.
  set (index := flow_dependencies s !! job_id p).
  assert (is_ok (ensure_flow_dependencies_are_resolved p (jobs s) index a) = true ↔
    length (List.filter (retained_child (jobs s) index child_pending) (job_child_ids p)) = O ∧
    size (fi_failed (unwrap_or index empty_index)) = O ∧
    length (List.filter (retained_child (jobs s) index child_failing) (job_child_ids p)) = O) as ->.
  { unfold ensure_flow_dependencies_are_resolved. destruct (counts_spec p (jobs s) index) as [-> ->].
    destruct (Nat.ltb_spec 0 (length (List.filter (retained_child (jobs s) index child_pending)
      (job_child_ids p)))); [split; [done|lia]|].
    match goal with |- context [(0 <? ?n)%nat] => destruct (Nat.ltb_spec 0 n) end; split; try done; lia. }
  rewrite !filter_length_zero, size_empty_iff. unfold blocking. fold index. split.
  - intros (Hp & Hf & Hc) id [(i & Hi & Hin)|(Hin & Hx & c & Ec & Hb)].
    + rewrite Hi in Hf. simpl in Hf. set_solver.
    + specialize (Hp id Hin). specialize (Hc id Hin). unfold retained_child in *.
      rewrite Hx, Ec in *. simpl in *. destruct Hb; congruence.
  - intros H. assert (∀ P, (∀ c, P c = true → child_pending c = true ∨ child_failing c = true) →
      ∀ id, id ∈ job_child_ids p → retained_child (jobs s) index P id = false) as HP.
    { intros P HPc id Hin. unfold retained_child.
      destruct (flow_dependency_index_contains index id) eqn:Ei; [done|].
      destruct (jobs s !! id) as [c|] eqn:Ec; [|done]. destruct (P c) eqn:Epc; [|done].
      destruct (H id). right. split_and!; [done|done|]. exists c. auto. }
    split_and!; [by apply HP; auto| |by apply HP; auto].
    cut (∀ id, id ∉ fi_failed (unwrap_or index empty_index)); [set_solver|].
    intros id Hid. destruct (H id). left. destruct index as [i|]; [by exists i|].
    simpl in Hid. set_solver.
Qed.

(** C21: the holder of the lease completes its job exactly when no child blocks
    it: no child that still runs, no child failure recorded against it, no
    retained child whose failure the parent must see.  A blocked completion
    changes nothing; an unblocked one of a job outside a repeat series returns
    the job completed with its value and without the lease. *)
Theorem completion_requires_children (queue : string) s id t v now uuid j :
  reachable queue s → jobs s !! id = Some j → owned_by j t →
  ((∃ c, blocking s j c) → rejected s (complete_job s id t v now uuid)) ∧
  ((∀ c, ¬ blocking s j c) → opt_repeat (job_options j) = None →
   ∃ s' c, complete_job s id t v now uuid = (s', Ok c) ∧
     job_id c = id ∧ job_state c = Completed ∧ job_return_value c = Some v ∧
     job_finished_at c = Some now ∧ job_lock_token c = None ∧
     job_attempts_made c = job_attempts_made j).
Proof.
  intros W%reachable_wf_aux Ej [Ha Ht]. destruct (wf_lookup s W _ _ Ej) as (Hid & _).
  apply (require_active_ok j "complete") in Ha. apply require_lock_token_ok in Ht.
  pose proof (resolved_iff s j "complete") as HR. rewrite Hid in HR.
  unfold rejected, complete_job. rewrite Ej, Ha, Ht. split.
  - intros [c Hc].
    destruct (ensure_flow_dependencies_are_resolved _ _ _ _) as [u|e]; [|done]. by destruct (proj1 HR eq_refl c).
  - intros Hn Hrep. apply HR in Hn.
    destruct (ensure_flow_dependencies_are_resolved _ _ _ _) as [u|e]; [|done]. cbn zeta.
    match goal with |- context [enqueue_parked ?s1 ?k now] => destruct (enqueue_parked s1 k now) as [s2 b] end.
    assert (∀ k, opt_repeat (job_options k) = None → enqueue_next_repeat s2 k now uuid = (s2, Ok tt)) as Hrk.
    { intros k Hk. unfold enqueue_next_repeat, next_repeat_job. by rewrite Hk. }
    rewrite Hrk by done. assert ((if b then (s2, Ok tt) else (s2, Ok tt)) = (s2, Ok tt : Result unit)) as ->
      by by destruct b.
    eexists _, _. split; [reflexivity|]. done.
Qed.

(** ** The scan over the children of a waiting parent *)
Lemma scan_pending m ids d f :
  scan_children m ids d f = ChildPending ↔ ∃ id c, id ∈ ids ∧ m !! id = Some c ∧ child_pending c = true.
Proof.
  revert d f. induction ids as [|id ids IH]; intros d f; simpl.
  { split; [done|]. by intros (id & c & ?%not_elem_of_nil & _). }
  assert ((∃ id' c, id' ∈ id :: ids ∧ m !! id' = Some c ∧ child_pending c = true) ↔
          (∃ c, m !! id = Some c ∧ child_pending c = true) ∨
          ∃ id' c, id' ∈ ids ∧ m !! id' = Some c ∧ child_pending c = true) as ->.
  { setoid_rewrite elem_of_cons. naive_solver. }
  unfold child_pending in *. destruct (m !! id) as [c|] eqn:Ec; [|rewrite IH; naive_solver].
  destruct (job_state c) eqn:Es; rewrite ?IH; try (split; [|done]; intros _; left; exists c; by rewrite Es).
  - split; [by right|]. intros [(c' & [= <-] & Hn)|]; [|done]. by rewrite Es in Hn.
  - repeat case_match; rewrite IH; (split; [by right|]); intros [(c' & [= <-] & Hn)|]; try done; by rewrite Es in Hn.
Qed.

(** A failed child that takes its parent down, at once or after it resumed. *)
Definition child_defers (c : Job) : bool :=
  state_eqb (job_state c) Failed && opt_fail_parent_on_failure (job_options c).
Definition child_fails_parent (c : Job) : bool :=
  negb (opt_fail_parent_on_failure (job_options c)) && child_failing c.

Lemma scan_done m ids d f d' f' : scan_children m ids d f = ChildrenDone d' f' →
  (d' = None ↔ d = None ∧ ∀ id c, id ∈ ids → m !! id = Some c → child_defers c = false) ∧
  (f' = None ↔ f = None ∧ ∀ id c, id ∈ ids → m !! id = Some c → child_fails_parent c = false).
Proof.
  revert d f. induction ids as [|id ids IH]; intros d f; simpl.
  { intros [= -> ->]. split; (split; [intros ->; split; [done|]|by intros [-> _]]);
      by intros id c ?%not_elem_of_nil. }
  assert (∀ P : Job → bool, (∀ id' c, id' ∈ id :: ids → m !! id' = Some c → P c = false) ↔
    (∀ c, m !! id = Some c → P c = false) ∧ (∀ id' c, id' ∈ ids → m !! id' = Some c → P c = false)) as HP.
  { intros P. setoid_rewrite elem_of_cons. naive_solver. }
  rewrite !HP. unfold child_defers, child_fails_parent, child_failing in *.
  destruct (m !! id) as [c|] eqn:Ec; [|intros [-> ->]%IH; naive_solver].
  assert (∀ P : Job → bool, (∀ c', Some c = Some c' → P c' = false) ↔ P c = false) as HS by naive_solver.
  rewrite !HS. destruct (job_state c) eqn:Es; try done.
  - intros [-> ->]%IH. simpl. rewrite andb_false_r. naive_solver.
  - simpl. destruct (opt_fail_parent_on_failure _), (child_failure_releases_dependency c);
      intros [-> ->]%IH; simpl; naive_solver.
Qed.

(** ** The moves of a parent *)
Lemma remove_records_sub s ids id k : jobs (remove_job_records s ids) !! id = Some k → jobs s !! id = Some k.
Proof.
  unfold remove_job_records. revert s. induction ids as [|i ids IH]; intros s; simpl; [done|].
  intros H%IH. rewrite (proj1 (remove_record_spec s i)) in H. by apply lookup_delete_Some in H as [_ H].
Qed.

Lemma retention_sub s st r now id k :
  jobs (apply_finished_retention_locked s st r now) !! id = Some k → jobs s !! id = Some k.
Proof.
  unfold apply_finished_retention_locked, apply_count_retention, apply_age_retention.
  destruct (ret_count r), (ret_age r); intros; repeat (try done; eapply remove_records_sub).
Qed.

Lemma failed_parent_state s p r now parent k : jobs s !! p = Some parent → is_terminal (job_state parent) = false →
  jobs (fail_waiting_parent_locked s p r now).1 !! p = Some k →
  job_state k = Failed ∧ job_failed_reason k = Some r.
Proof.
  intros Ep Et. unfold fail_waiting_parent_locked. rewrite Ep, Et. cbn zeta. cbn [fst]. rewrite emit_jobs.
  assert (job_state (fail_parent parent r now) = Failed ∧ job_failed_reason (fail_parent parent r now) = Some r)
    as Hf by done.
  generalize dependent (fail_parent parent r now). intros q Hf H.
  assert (jobs (put_job s p q) !! p = Some k) as Hk.
  { destruct (removes_failed_immediately _); [|destruct (failed_retention _); [by eapply retention_sub|done]].
    rewrite (proj1 (remove_record_spec _ _)) in H. by apply lookup_delete_Some in H as [_ H]. }
  unfold put_job in Hk. simpl in Hk. rewrite lookup_insert_eq in Hk. by injection Hk as <-.
Qed.

(** A parent that resumed: claimable or delayed, without a lease. *)
Definition resumed (parent k : Job) (now : DateTime) : Prop :=
  job_state k = state_after_dependencies (job_scheduled_at parent) now ∧ job_lock_token k = None ∧
  job_id k = job_id parent ∧ job_child_ids k = job_child_ids parent.

Lemma resume_parent_resumed parent d n now :
  let k := resume_parent parent (state_after_dependencies (job_scheduled_at parent) now) d n in
  resumed parent k now ∧ job_deferred_failure k = d.
Proof. unfold resumed, resume_parent. by destruct n. Qed.

Lemma resumed_lookup s p parent d ev prev now :
  let st := state_after_dependencies (job_scheduled_at parent) now in
  let q := waiting_sequence_if s st in
  let k := resume_parent parent st d q.2 in
  jobs (emit_event_locked (put_job q.1 p k) ev (Some k) prev now ∅) !! p = Some k.
Proof. cbn zeta. rewrite emit_jobs. unfold put_job. simpl. apply lookup_insert_eq. Qed.

(** A parent that waits for its children stays as it is while one of them
    still runs.  Once they have all finished it resumes, claimable or delayed
    by its own schedule; a child that fails its parent makes it resume with
    the failure it will report, and a child whose failure is neither ignored,
    removed nor continued fails the parent. *)
Theorem waiting_parent_moves (queue : string) s id now parent :
  reachable queue s → jobs s !! id = Some parent → job_state parent = WaitingChildren →
  let s' := (release_parent_if_ready_locked s id now).1 in
  let some (P : Job → bool) := ∃ c_id c, c_id ∈ job_child_ids parent ∧ jobs s !! c_id = Some c ∧ P c = true in
  (some child_pending → s' = s) ∧
  (¬ some child_pending → some child_defers →
     ∃ k r, jobs s' !! id = Some k ∧ resumed parent k now ∧ job_deferred_failure k = Some r) ∧
  (¬ some child_pending → ¬ some child_defers → some child_fails_parent →
     ∀ k, jobs s' !! id = Some k → job_state k = Failed) ∧
  (¬ some child_pending → ¬ some child_defers → ¬ some child_fails_parent →
     ∃ k, jobs s' !! id = Some k ∧ resumed parent k now ∧ job_deferred_failure k = None).
Proof.
  intros W%reachable_wf_aux Ep Est s' some. subst s'. unfold release_parent_if_ready_locked. rewrite Ep, Est. cbn [negb state_eqb].
  assert (∀ P, ¬ some P ↔ ∀ c_id c, c_id ∈ job_child_ids parent → jobs s !! c_id = Some c → P c = false) as Hsome.
  { intros P. unfold some. split.
    - intros H c_id c Hin Hc. destruct (P c) eqn:E; [|done]. destruct H. eauto.
    - intros H (c_id & c & Hin & Hc & E). by rewrite (H c_id c Hin Hc) in E. }
  change (negb (state_eqb WaitingChildren WaitingChildren)) with false. cbn match.
  destruct (scan_children (jobs s) (job_child_ids parent) None None) as [|d f] eqn:Esc.
  - apply scan_pending in Esc. split; [done|]. by split_and!; intros [].
  - assert (¬ some child_pending) as Hnp.
    { intros Hp. by apply (scan_pending _ _ None None) in Hp; rewrite Esc in Hp. }
    split; [done|]. apply scan_done in Esc as [Hd Hf]. rewrite <- Hsome in Hd, Hf.
    assert (is_terminal (job_state parent) = false) as Ht by by rewrite Est.
    destruct d as [c|]; [|destruct f as [[c r]|]].
    + split_and!; [|intros _ Hn; discriminate (proj2 Hd (conj eq_refl Hn))..].
      intros _ _. unfold defer_parent_failure_after_child_failure_locked. rewrite Ep, Ht. cbn zeta.
      rewrite (surjective_pairing (waiting_sequence_if s _)). cbn [fst].
      eexists _, _. split; [apply resumed_lookup|]. apply resume_parent_resumed.
    + split_and!; [intros _ H; by destruct (proj1 Hd eq_refl)| |].
      * intros _ _ _ k Hk. by apply (failed_parent_state s id _ now parent) in Hk as [? _].
      * intros _ _ Hn. discriminate (proj2 Hf (conj eq_refl Hn)).
    + split_and!; [intros _ H; by destruct (proj1 Hd eq_refl)|intros _ _ H; by destruct (proj1 Hf eq_refl)|].
      intros _ _ _. rewrite (surjective_pairing (waiting_sequence_if s _)). cbn [fst].
      eexists. split; [apply resumed_lookup|]. apply resume_parent_resumed.
Qed.
End family.

(** ** Witnesses *)
Module Flow.
Import Demo.

(** A flow of a parent with one child; the child is claimed first. *)
Definition flow_ops : list JobOp := [
  OpAddFlow (spec "p" default_options) [spec "c" default_options] 0;
  OpClaim "w1" 30 10 "t1"
].
Definition flow1 : QueueState := run "q" flow_ops.

Lemma flow1_reachable : reachable "q" flow1.
Proof. apply reachable_run. repeat constructor; done. Qed.
End Flow.
Import Demo Flow.

Lemma completion_requires_children_witness :
  ∃ j s' c, jobs flow1 !! "c" = Some j ∧ complete_job flow1 "c" "t1" "1" 20 "u" = (s', Ok c) ∧
    job_state c = Completed.
Proof.
  assert ((λ j, (job_state j, job_lock_token j, job_child_ids j, bool_decide (opt_repeat (job_options j) = None)))
            <$> jobs flow1 !! "c" = Some (Active, Some "t1", [], true)) as H by (vm_compute; reflexivity).
  apply fmap_Some in H as (j & Hj & [= Ha Ht Hc Hr]). symmetry in Hr. apply bool_decide_eq_true in Hr.
  destruct (completion_requires_children "q" flow1 "c" "t1" "1" 20 "u" j flow1_reachable Hj)
    as [_ H]; [by split|].
  destruct H as (s' & c & E & _ & Hs & _); [|exact Hr|].
  - assert (bool_decide (flow_dependencies flow1 = ∅) = true) as He by (vm_compute; reflexivity).
    apply bool_decide_eq_true in He. intros x [(i & Hi & _)|(Hin & _)].
    + rewrite He in Hi. discriminate Hi.
    + rewrite <- Hc in Hin. by apply not_elem_of_nil in Hin.
  - exists j, s', c. split; [exact Hj|]. split; [exact E|exact Hs].
Defined.

Lemma waiting_parent_moves_witness :
  ∃ parent, jobs flow1 !! "p" = Some parent ∧ (release_parent_if_ready_locked flow1 "p" 20).1 = flow1.
Proof.
  assert ((λ j, (job_state j, job_child_ids j)) <$> jobs flow1 !! "p" = Some (WaitingChildren, ["c"])) as H
    by (vm_compute; reflexivity).
  assert (job_state <$> jobs flow1 !! "c" = Some Active) as Hc by (vm_compute; reflexivity).
  apply fmap_Some in H as (p & Hp & [= Hs Hi]). apply fmap_Some in Hc as (c & Hc & Hcs).
  exists p. split; [exact Hp|].
  apply (proj1 (waiting_parent_moves "q" flow1 "p" 20 p flow1_reachable Hp (eq_sym Hs))).
  exists "c", c. rewrite <- Hi. unfold child_pending. rewrite <- Hcs. split; [by left|]. split; [exact Hc|done].
Defined.
