(* ===== verification/JobLimits.v ===== *)
(** * Retention, and the walk over unprocessed descendants

    How many finished jobs a queue keeps and which, and the set of jobs the
    removal of unprocessed children collects: the recursion of the code, its
    fuel, and its result as an inductive relation. *)
From Stdlib Require Import Sorted.
From S2P Require Import Prelude Ordering Text External Retry JobTypes JobStore.
From S2P Require Import JobDedup JobFlows JobCore JobQueries JobAdmin JobAdd JobInvariant.
From S2P Require Import JobPreserve JobHandlers JobSubmit JobSnapshot JobSystem JobClaim.
Local Open Scope Z_scope.

Section limits.
Context {X : Ext} `{!ExtLaws X}.
Implicit Types (s : QueueState) (j : Job) (m : gmap string Job).

(** ** Retention *)
Lemma removed_lookup s ids id :
  jobs (remove_job_records s ids) !! id = if decide (id ∈ ids) then None else jobs s !! id.
Proof.
  unfold remove_job_records. revert s. induction ids as [|i ids IH]; intros s; cbn [foldl].
  { by rewrite decide_False by apply not_elem_of_nil. }
  rewrite IH, (proj1 (remove_record_spec s i)). destruct (decide (id = i)) as [->|Hne].
  - rewrite (decide_True (P := i ∈ i :: ids)) by left. rewrite lookup_delete_eq. by destruct (decide _).
  - rewrite lookup_delete_ne by done.
    destruct (decide (id ∈ ids)); [rewrite decide_True by (by right)|rewrite decide_False by set_solver]; done.
Qed.

(** A stored job of a finished state, as retention sees it. *)
Definition finished_at (s : QueueState) (st : JobState) (id : string) (t : DateTime) : Prop :=
  ∃ j, jobs s !! id = Some j ∧ job_state j = st ∧ job_finished_at j = Some t.

Lemma elem_of_finished s st e : wf s → e ∈ finished_entries s st ↔ finished_at s st e.1 e.2.
Proof.
  intros W. unfold finished_entries, finished_at. rewrite list_elem_of_omap. split.
  - intros (j & Hj & He). apply elem_of_stored in Hj; [|done].
    destruct (state_eqb (job_state j) st) eqn:Es; [|done]. apply state_eqb_true in Es.
    destruct (job_finished_at j) as [t|] eqn:Et; [|done]. injection He as <-. simpl. eauto.
  - intros (j & Hj & Hs & Ht). exists j. destruct (wf_lookup s W _ _ Hj) as (Hid & _).
    split; [apply elem_of_stored; [done|by rewrite Hid]|].
    rewrite (proj2 (state_eqb_true _ _) Hs), Ht, Hid. by destruct e.
Qed.

Lemma finished_ids_NoDup s st : wf s → NoDup (finished_entries s st).*1.
Proof.
  intros W. pose proof (stored_ids_NoDup s W) as Hn. unfold finished_entries.
  induction (hash_values (jobs s)) as [|j l IH]; simpl; [constructor|].
  rewrite fmap_cons in Hn. apply NoDup_cons in Hn as [Hj Hn]. specialize (IH Hn).
  destruct (state_eqb (job_state j) st); [|done]. destruct (job_finished_at j); [|done].
  simpl. apply NoDup_cons. split; [|done]. intros (e & He & Hin)%list_elem_of_fmap.
  apply list_elem_of_omap in Hin as (k & Hk & Hke). apply Hj.
  destruct (state_eqb (job_state k) st); [|done]. destruct (job_finished_at k); [|done].
  injection Hke as <-. simpl in He. rewrite He. by apply list_elem_of_fmap_2.
Qed.

(** A finished state always carries its finish time. *)
Lemma finished_time s st id j : wf s → (st = Completed ∨ st = Failed) → jobs s !! id = Some j →
  job_state j = st → ∃ t, finished_at s st id t.
Proof.
  intros W Hst Hj Hs. destruct (wf_lookup s W _ _ Hj) as (_ & Hok & _). destruct Hok as [_ _ _ Hf _].
  unfold finish_ok in Hf. rewrite Hs in Hf. destruct Hst as [-> | ->].
  - destruct Hf as [[t Ht] _]. exists t, j. done.
  - destruct Hf as ([t Ht] & _). exists t, j. done.
Qed.

(** The jobs in state [st], by id. *)
Definition ids_in (s : QueueState) (st : JobState) : list string :=
  job_id <$> List.filter (λ j, state_eqb (job_state j) st) (hash_values (jobs s)).

Lemma elem_of_ids_in s st id : wf s → id ∈ ids_in s st ↔ ∃ j, jobs s !! id = Some j ∧ job_state j = st.
Proof.
  intros W. unfold ids_in. rewrite list_elem_of_fmap. split.
  - intros (j & -> & Hj). rewrite list_elem_of_In, List.filter_In, <- list_elem_of_In, elem_of_stored in Hj by done.
    destruct Hj as [Hj Hs%state_eqb_true]. eauto.
  - intros (j & Hj & Hs). destruct (wf_lookup s W _ _ Hj) as (Hid & _). exists j. split; [done|].
    rewrite list_elem_of_In, List.filter_In, <- list_elem_of_In, elem_of_stored by done.
    rewrite Hid. split; [done|]. by apply state_eqb_true.
Qed.

Lemma ids_in_NoDup s st : wf s → NoDup (ids_in s st).
Proof.
  intros W. unfold ids_in. pose proof (stored_ids_NoDup s W) as H.
  induction (hash_values (jobs s)) as [|j l IH]; simpl; [constructor|].
  rewrite fmap_cons in H. apply NoDup_cons in H as [Hj Hn]. specialize (IH Hn).
  destruct (state_eqb _ _); [|done]. rewrite fmap_cons. apply NoDup_cons. split; [|done].
  intros (k & Hk & Hin)%list_elem_of_fmap. apply Hj.
  rewrite list_elem_of_In, List.filter_In, <- list_elem_of_In in Hin. destruct Hin as [Hin _].
  rewrite Hk. by apply list_elem_of_fmap_2.
Qed.

Lemma sorted_split {A} (R : A → A → Prop) l n a b : StronglySorted R l →
  a ∈ take n l → b ∈ drop n l → R a b.
Proof.
  intros Hs. revert n. induction Hs as [|x l Hl IH Hx]; intros n.
  { rewrite take_nil. by intros ?%not_elem_of_nil. }
  destruct n as [|n]; simpl; [by intros ?%not_elem_of_nil|].
  intros [->|Ha]%elem_of_cons Hb; [|by eapply IH].
  rewrite Forall_forall in Hx. by eapply Hx, subseteq_drop.
Qed.

Lemma count_retention_spec s st r n : wf s → (st = Completed ∨ st = Failed) → ret_count r = Some n →
  let s' := apply_count_retention s st r in
  (length (ids_in s' st) ≤ n)%nat ∧
  (∀ id j, jobs s' !! id = Some j → jobs s !! id = Some j) ∧
  (∀ id j, jobs s !! id = Some j → jobs s' !! id = None → job_state j = st) ∧
  (∀ k tk d td, finished_at s' st k tk → finished_at s st d td → jobs s' !! d = None →
     td ≤ tk) ∧
  ((length (ids_in s st) ≤ n)%nat → jobs s' = jobs s).
Proof.
  intros W Hst Hr s'. subst s'. unfold apply_count_retention. rewrite Hr.
  set (L := sort_by compare_finished_order (finished_entries s st)).
  assert (L ≡ₚ finished_entries s st) as Hp by apply sort_by_perm.
  assert (StronglySorted (cmp_le compare_finished_order) L) as HL by (apply sort_by_sorted; apply _).
  assert (NoDup L.*1) as Hnd by (rewrite Hp; by apply finished_ids_NoDup).
  assert (wf (remove_job_records s (drop n L).*1)) as W' by by apply (inv_wf s), inv_remove_records, inv_refl.
  assert (∀ id j, jobs s !! id = Some j → job_state j = st → id ∉ (drop n L).*1 →
            ∃ t, (id, t) ∈ take n L ∧ job_finished_at j = Some t) as Hkeep.
  { intros id j Hj Hs Hn. destruct (finished_time s st id j W Hst Hj Hs) as [t Ht].
    assert ((id, t) ∈ L) as Hin by (rewrite Hp; by apply elem_of_finished).
    destruct Ht as (j' & Hj' & _ & Ht). simplify_eq. exists t. split; [|done].
    rewrite <- (take_drop n L) in Hin. apply elem_of_app in Hin as [|Hd]; [done|].
    destruct Hn. by apply (list_elem_of_fmap_2 fst _ (id, t)). }
  split_and!.
  - assert (ids_in (remove_job_records s (drop n L).*1) st ⊆+ (take n L).*1) as Hsub.
    { apply NoDup_submseteq; [by apply ids_in_NoDup|]. intros id (j & Hj & Hs)%elem_of_ids_in; [|done].
      rewrite removed_lookup in Hj. destruct (decide _) as [|Hn]; [done|].
      destruct (Hkeep id j Hj Hs Hn) as (t & Ht & _). by apply (list_elem_of_fmap_2 fst _ (id, t)). }
    apply submseteq_length in Hsub. rewrite length_fmap, length_take in Hsub. lia.
  - intros id j. rewrite removed_lookup. by destruct (decide _).
  - intros id j Hj. rewrite removed_lookup. destruct (decide _) as [Hin|]; [|congruence]. intros _.
    apply list_elem_of_fmap in Hin as (e & -> & He%subseteq_drop). rewrite Hp in He.
    apply elem_of_finished in He as (j' & Hj' & Hs & _); [|done]. congruence.
  - intros k tk d td (jk & Hk & Hks & Hkt) Hd Hnone. rewrite removed_lookup in Hk, Hnone.
    destruct (decide (k ∈ _)) as [|Hkn]; [done|]. destruct (Hkeep k jk Hk Hks Hkn) as (t & Ht & Hte).
    assert ((d, td) ∈ L) as Hdin by (rewrite Hp; by apply elem_of_finished).
    destruct (decide (d ∈ _)) as [Hdd|]; [|by destruct Hd as (jd & Hjd & _); congruence].
    assert ((d, td) ∈ drop n L) as Hdd'.
    { apply list_elem_of_fmap in Hdd as ([d' t'] & Hd' & Hin). simpl in Hd'. subst d'.
      assert (finished_at s st d t') as (j1 & Hj1 & _ & Ht1).
      { apply (elem_of_finished s st (d, t')); [done|]. rewrite <- Hp. by eapply subseteq_drop. }
      destruct Hd as (j2 & Hj2 & _ & Ht2). by simplify_eq. }
    pose proof (sorted_split _ L n _ _ HL Ht Hdd') as Hle. simplify_eq.
    unfold cmp_le, compare_finished_order, cmp_then, then_with, cmp_reverse, cmp_on in Hle. simpl in Hle.
    destruct (Z.compare_spec tk td); simpl in Hle; [lia|done|lia].
  - intros Hle. assert (length L ≤ n)%nat as HLn.
    { rewrite Hp. rewrite <- (length_fmap fst).
      assert ((finished_entries s st).*1 ⊆+ ids_in s st) as Hsub; [|apply submseteq_length in Hsub; lia].
      apply NoDup_submseteq; [by apply finished_ids_NoDup|]. intros id (e & -> & He)%list_elem_of_fmap.
      apply elem_of_finished in He as (j & Hj & Hs & _); [|done]. apply elem_of_ids_in; [done|]. eauto. }
    rewrite drop_ge by done. done.
Qed.

(** Count retention keeps at most the configured number of finished jobs.
    It removes jobs of that state only, never one that finished later than a
    job it keeps, nothing at all while the number is not exceeded, and leaves
    every job it keeps unchanged. *)
Theorem retention_keeps_newest (queue : string) s st r n now :
  reachable queue s → (st = Completed ∨ st = Failed) → ret_count r = Some n → ret_age r = None →
  let s' := apply_finished_retention_locked s st r now in
  (length (ids_in s' st) ≤ n)%nat ∧
  (∀ id j, jobs s' !! id = Some j → jobs s !! id = Some j) ∧
  (∀ id j, jobs s !! id = Some j → jobs s' !! id = None → job_state j = st) ∧
  (∀ k tk d td, finished_at s' st k tk → finished_at s st d td → jobs s' !! d = None → td ≤ tk) ∧
  ((length (ids_in s st) ≤ n)%nat → jobs s' = jobs s).
Proof.
  intros W%reachable_wf_aux Hst Hc Ha. unfold apply_finished_retention_locked, apply_age_retention.
  rewrite Ha. by apply count_retention_spec.
Qed.

(** ** Unprocessed descendants *)
Definition removable_child (c : Job) : Prop := job_state c ≠ Active ∧ is_terminal (job_state c) = false.
Definition removable_at m (id : string) : Prop := ∃ c, m !! id = Some c ∧ removable_child c.

(** The jobs under [ids] reached through jobs that are not processed. *)
Inductive descendant m (ids : list string) : string → Prop :=
| desc_child id : id ∈ ids → removable_at m id → descendant m ids id
| desc_step p c id : descendant m ids p → m !! p = Some c → id ∈ job_child_ids c → removable_at m id →
    descendant m ids id.

Lemma descendant_mono m ids ids' id : (∀ x, x ∈ ids → x ∈ ids') → descendant m ids id → descendant m ids' id.
Proof. intros Hs H. induction H; [apply desc_child; auto|by eapply desc_step]. Qed.

Lemma descendant_through m ids p c id : descendant m ids p → m !! p = Some c →
  descendant m (job_child_ids c) id → descendant m ids id.
Proof. intros Hp Hc H. induction H; [by eapply desc_step|by eapply desc_step]. Qed.

(** What a walk over [ids] from the ids [seen] to the ids [seen'] collects. *)
Record walked m (ids : list string) (seen seen' : gset string) (new : list string) : Prop := {
  wk_seen : seen ⊆ seen';
  wk_ids : ∀ id, id ∈ ids → id ∈ seen';
  wk_nodup : NoDup new;
  wk_fresh : ∀ id, id ∈ new → (id ∉ seen) ∧ (id ∈ seen');
  wk_sound : ∀ id, id ∈ new → removable_at m id ∧ descendant m ids id;
  wk_complete : ∀ id, id ∈ seen' → id ∉ seen → removable_at m id → id ∈ new;
  wk_children : ∀ id c x, id ∈ new → m !! id = Some c → x ∈ job_child_ids c → x ∈ seen';
}.

Lemma walked_nil m seen : walked m [] seen seen [].
Proof. split; try done; try (by intros ? ?%not_elem_of_nil); [constructor|by intros ??? ?%not_elem_of_nil]. Qed.

Lemma walked_seen m id seen : id ∈ seen → walked m [id] seen seen [].
Proof.
  intros H. destruct (walked_nil m seen). split; try done; try (by intros ? ?%not_elem_of_nil).
  by intros x ->%list_elem_of_singleton.
Qed.

Lemma walked_skip m id seen : ¬ removable_at m id → walked m [id] seen (seen ∪ {[ id ]}) [].
Proof.
  intros H. split; try (by intros ? ?%not_elem_of_nil); [set_solver|set_solver|constructor| |].
  - intros x Hx Hn Hr. assert (x = id) as -> by set_solver. done.
  - by intros ??? ?%not_elem_of_nil.
Qed.

Lemma walked_app m ids1 ids2 seen sn1 sn2 n1 n2 : walked m ids1 seen sn1 n1 → walked m ids2 sn1 sn2 n2 →
  walked m (ids1 ++ ids2) seen sn2 (n1 ++ n2).
Proof.
  intros [A1 A2 A3 A4 A5 A6 A7] [B1 B2 B3 B4 B5 B6 B7]. split.
  - set_solver.
  - intros id [H|H]%elem_of_app; [apply B1; auto|auto].
  - apply NoDup_app. split_and!; [done| |done]. intros x Hx Hx2. destruct (A4 x Hx), (B4 x Hx2). done.
  - intros id [H|H]%elem_of_app; [destruct (A4 id H); set_solver|destruct (B4 id H); set_solver].
  - intros id [H|H]%elem_of_app.
    + destruct (A5 id H) as [? Hd]. split; [done|]. eapply descendant_mono; [|exact Hd]. set_solver.
    + destruct (B5 id H) as [? Hd]. split; [done|]. eapply descendant_mono; [|exact Hd]. set_solver.
  - intros id H Hn Hr. apply elem_of_app. destruct (decide (id ∈ sn1)); [left|right]; auto.
  - intros id c x [H|H]%elem_of_app Hc Hx; [apply B1|]; eauto.
Qed.

Lemma walked_into m id c seen seen' new : m !! id = Some c → removable_child c → id ∉ seen →
  walked m (job_child_ids c) (seen ∪ {[ id ]}) seen' new → walked m [id] seen seen' (new ++ [id]).
Proof.
  intros Hc Hr Hn [B1 B2 B3 B4 B5 B6 B7].
  assert (removable_at m id) as Hra by (by exists c).
  assert (descendant m [id] id) as Hd by (apply desc_child; [by left|done]). split.
  - set_solver.
  - set_solver.
  - apply NoDup_app. split_and!; [done| |apply NoDup_singleton].
    intros x Hx ->%list_elem_of_singleton. destruct (B4 id Hx). set_solver.
  - intros x [H| ->%list_elem_of_singleton]%elem_of_app; [destruct (B4 x H)|]; set_solver.
  - intros x [H| ->%list_elem_of_singleton]%elem_of_app; [|done].
    destruct (B5 x H). split; [done|]. by eapply descendant_through.
  - intros x Hx Hns Hrx. apply elem_of_app. destruct (decide (x = id)) as [->|]; [right; by left|left].
    apply B6; set_solver.
  - intros x cx y [H| ->%list_elem_of_singleton]%elem_of_app Hcx Hy; [by eapply B7|]. simplify_eq. by apply B2.
Qed.

(** Enough fuel: more than the jobs not yet seen. *)
Lemma collect_walked m fuel ids out seen : (∀ id c, m !! id = Some c → job_id c = id) →
  (size (dom m ∖ seen) < fuel)%nat →
  ∃ new, (collect_removable_unprocessed_children fuel m ids out seen).1 = out ++ new ∧
    walked m ids seen (collect_removable_unprocessed_children fuel m ids out seen).2 new.
Proof.
  intros Hm. revert ids out seen. induction fuel as [|fuel IH]; intros ids out seen Hf; [lia|].
  cbn [collect_removable_unprocessed_children]. set (body := λ '(out, seen) child_id, _).
  revert out seen Hf. induction ids as [|id ids IHl]; intros out seen Hf; cbn [foldl].
  { exists []. rewrite app_nil_r. split; [done|apply walked_nil]. }
  assert (∃ new1, (body (out, seen) id).1 = out ++ new1 ∧ walked m [id] seen (body (out, seen) id).2 new1)
    as (n1 & E1 & W1).
  { unfold body. destruct (bool_decide (id ∈ seen)) eqn:Es.
    { exists []. rewrite app_nil_r. split; [done|]. apply walked_seen. by apply bool_decide_eq_true in Es. }
    apply bool_decide_eq_false in Es. destruct (m !! id) as [c|] eqn:Ec; cycle 1.
    { exists []. rewrite app_nil_r. split; [done|]. apply walked_skip. intros (c & Hc & _). congruence. }
    destruct (state_eqb (job_state c) Active || is_terminal (job_state c)) eqn:Er.
    { exists []. rewrite app_nil_r. split; [done|]. apply walked_skip. intros (c' & Hc & Ha & Ht). simplify_eq.
      apply orb_true_iff in Er as [E%state_eqb_true|E]; congruence. }
    apply orb_false_iff in Er as [Ea%state_eqb_false Et].
    assert (size (dom m ∖ (seen ∪ {[ id ]})) < fuel)%nat as Hf1.
    { assert (dom m ∖ seen = {[ id ]} ∪ dom m ∖ (seen ∪ {[ id ]})) as Hsplit.
      { apply set_eq. intros x. destruct (decide (x = id)) as [->|]; [|set_solver].
        assert (id ∈ dom m) by (by apply elem_of_dom_2 in Ec). set_solver. }
      rewrite Hsplit, size_union in Hf by set_solver. rewrite size_singleton in Hf. lia. }
    destruct (IH (job_child_ids c) out (seen ∪ {[ id ]}) Hf1) as (new & E & HW).
    destruct (collect_removable_unprocessed_children fuel m _ out _) as [o1 s1]. cbn [fst snd] in *.
    exists (new ++ [id]). rewrite E, (Hm _ _ Ec), app_assoc. split; [done|]. by eapply walked_into. }
  destruct (body (out, seen) id) as [o1 s1]. cbn [fst snd] in *.
  assert (size (dom m ∖ s1) < S fuel)%nat as Hf1.
  { eapply Nat.le_lt_trans; [|exact Hf]. apply subseteq_size. destruct W1. set_solver. }
  destruct (IHl o1 s1 Hf1) as (n2 & E2 & W2). exists (n1 ++ n2).
  split; [by rewrite E2, E1, app_assoc|]. exact (walked_app m [id] ids seen s1 _ n1 n2 W1 W2).
Qed.

(** The walk that collects the unprocessed children of a flow returns each
    job under the given ids that is reached through jobs neither active nor
    finished, once, whatever cycles the child lists contain; a depth of the
    number of jobs is enough for it. *)
Theorem removable_children_spec (queue : string) s ids : reachable queue s →
  NoDup (removable_children (jobs s) ids) ∧
  (∀ id, id ∈ removable_children (jobs s) ids ↔ descendant (jobs s) ids id).
Proof.
  intros W%reachable_wf_aux. unfold removable_children.
  destruct (collect_walked (jobs s) (S (size (jobs s))) ids [] ∅) as (new & E & [_ Hids Hnd _ Hs Hc Hk]).
  { intros id c Hc. by destruct (wf_lookup s W _ _ Hc). }
  { rewrite difference_empty_L, size_dom. lia. }
  rewrite E. simpl. split; [done|]. intros id. split; [by intros [_ ?]%Hs|].
  intros H. induction H as [id Hin Hr|p c id Hp IH Hpc Hin Hr]; (apply Hc; [|set_solver|done]); [by apply Hids|].
  by eapply Hk.
Qed.
End limits.

(** ** Witnesses *)
Import Demo.

(** A queue with two completed jobs. *)
Definition finish (id : string) (now : DateTime) : list JobOp :=
  [OpAdd (spec id default_options) now; OpClaim "w" 30 now "t"; OpComplete id "t" ("1" : @Value demo_ext) now "u"].
Definition finished2 : QueueState := run "q" (finish "x" 1 ++ finish "y" 2).

Lemma finished2_reachable : reachable "q" finished2.
Proof. apply reachable_run. repeat constructor; done. Qed.

Definition keep_one : JobRetention := {| ret_count := Some 1%nat; ret_age := None; ret_limit := None |}.

Lemma retention_keeps_newest_witness :
  ids_in finished2 Completed = ["y"; "x"] ∧
  (length (ids_in (apply_finished_retention_locked finished2 Completed keep_one 5) Completed) ≤ 1)%nat.
Proof.
  split; [vm_compute; reflexivity|].
  exact (proj1 (retention_keeps_newest "q" finished2 Completed keep_one 1 5 finished2_reachable
    (or_introl eq_refl) eq_refl eq_refl)).
Defined.

Lemma removable_children_spec_witness : NoDup (removable_children (jobs queue3) ["a"; "c"; "a"]).
Proof. exact (proj1 (removable_children_spec "q" queue3 ["a"; "c"; "a"] queue3_reachable)). Defined.
