(* ===== verification/JobViews.v ===== *)
(** * What the read operations show

    Listing and paging, the counts, the event log and its range reads, and what
    survives a restart; duplicates, repeat series and the log of a job. *)
From Stdlib Require Import Sorted Ascii.
From S2P Require Import Prelude Ordering Text External Retry JobTypes JobStore JobDedup JobFlows JobCore JobQueries JobAdmin JobAdd JobInvariant JobPreserve JobHandlers JobSubmit JobSnapshot JobSystem JobClaim.
Local Open Scope Z_scope.

Section views.
Context {X : Ext} `{!ExtLaws X}.
Implicit Types (s : QueueState) (j : Job).

(** ** Listing *)

(** The jobs a listing selects, in the iteration order of the map. *)
Definition selected_jobs s (o : JobListOptions) : list Job :=
  List.filter (λ j, bool_decide (job_state j ∈ selected_states o)) (hash_values (jobs s)).

Lemma selected_separated s o a b : wf s → a ∈ selected_jobs s o → b ∈ selected_jobs s o →
  compare_list_order a b = Eq → a = b.
Proof.
  intros W. unfold selected_jobs. rewrite !list_elem_of_In, !List.filter_In, <- !list_elem_of_In.
  rewrite !elem_of_stored by done. intros [Ha _] [Hb _] Hid%list_eq_id. rewrite Hid in Ha. congruence.
Qed.

Lemma take_drop_page {A} (l : list A) n k : take n (drop k l) = take (Nat.min (Nat.min k (length l) + n) (length l)
  - Nat.min k (length l)) (drop (Nat.min k (length l)) l).
Proof.
  destruct (decide (k ≤ length l)%nat) as [Hk|Hk].
  - rewrite (Nat.min_l k) by lia. destruct (decide (k + n ≤ length l)%nat).
    + rewrite Nat.min_l by lia. f_equal. lia.
    + rewrite Nat.min_r by lia. rewrite !take_ge; [done|rewrite length_drop; lia..].
  - rewrite (Nat.min_r k), !drop_ge by lia. by rewrite !take_nil.
Qed.

Lemma list_jobs_page s o : lp_jobs (list_jobs s o) = page_of (lo_offset o) (lo_limit o) (listed s o).
Proof.
  unfold list_jobs, page_of. cbn [lp_jobs]. destruct (lo_limit o) eqn:E; [done|].
  by rewrite <- take_drop_page.
Qed.

Lemma pages_cover {A} (l : list A) n k :
  mjoin ((λ i, page_of (i * n) n l) <$> seq 0 k) = take (k * n) l.
Proof.
  induction k as [|k IH]; [by rewrite take_0|].
  rewrite seq_S, fmap_app, join_app, IH. simpl. rewrite app_nil_r. unfold page_of.
  rewrite take_drop_commute. replace (n + k * n)%nat with (k * n + n)%nat by lia.
  transitivity (take (k * n) (take (k * n + n) l) ++ drop (k * n) (take (k * n + n) l)); [|apply take_drop].
  rewrite take_take. by rewrite Nat.min_l by lia.
Qed.

(** C24: a listing shows exactly the jobs in the requested states, sorted by
    state, priority, schedule, age and id (or in the opposite order), and it
    is the only such list: it does not depend on the iteration order of the
    map.  Successive pages cover it without gap or repetition. *)
Theorem listing_is_canonical (queue : string) s o : reachable queue s →
  (∀ j, j ∈ listed s o ↔ jobs s !! job_id j = Some j ∧ job_state j ∈ selected_states o) ∧
  NoDup (job_id <$> listed s o) ∧
  StronglySorted (cmp_le compare_list_order) (if lo_ascending o then listed s o else reverse (listed s o)) ∧
  (∀ l, l ≡ₚ selected_jobs s o → StronglySorted (cmp_le compare_list_order) l →
     listed s o = if lo_ascending o then l else reverse l) ∧
  (∀ n k, mjoin ((λ i, lp_jobs (list_jobs s {| lo_state := lo_state o; lo_states := lo_states o;
             lo_offset := i * n; lo_limit := n; lo_ascending := lo_ascending o |})) <$> seq 0 k)
          = take (k * n) (listed s o)) ∧
  lp_total (list_jobs s o) = length (selected_jobs s o).
Proof.
  intros W%reachable_wf_aux.
  set (sorted := sort_by compare_list_order (selected_jobs s o)).
  assert (listed s o = if lo_ascending o then sorted else reverse sorted) as El by done.
  assert (sorted ≡ₚ selected_jobs s o) as Hp by apply sort_by_perm.
  assert (StronglySorted (cmp_le compare_list_order) sorted) as Hs by (apply sort_by_sorted; apply _).
  assert (listed s o ≡ₚ sorted) as Hl by (rewrite El; destruct (lo_ascending o); [done|apply reverse_Permutation]).
  split_and!.
  - intros j. rewrite Hl. unfold sorted, selected_jobs. rewrite elem_of_selection by done.
    by rewrite bool_decide_eq_true.
  - rewrite Hl. by apply selection_ids_NoDup.
  - rewrite El. destruct (lo_ascending o); [done|]. by rewrite reverse_involutive.
  - intros l Hperm Hsl. rewrite El.
    assert (sorted = l) as ->; [|done]. apply (sorted_perm_unique compare_list_order); [|done|done|by rewrite Hp].
    intros a b. rewrite Hp. by apply selected_separated.
  - intros n k. rewrite <- pages_cover. f_equal. apply list_fmap_ext. intros i x _. by rewrite list_jobs_page.
  - unfold list_jobs. cbn [lp_total]. by rewrite Hl, Hp.
Qed.

(** ** Counts *)
Lemma stats_spec s : let t := stats s in let n st := count_jobs (λ j, state_eqb (job_state j) st) s in
  st_waiting t = n Waiting ∧ st_delayed t = n Delayed ∧ st_active t = n Active ∧
  st_waiting_children t = n WaitingChildren ∧ st_completed t = n Completed ∧ st_failed t = n Failed ∧
  st_total t = size (jobs s) ∧ st_paused t = paused s.
Proof.
  cbn zeta. unfold stats, count_jobs.
  set (t0 := mkStats (size (jobs s)) 0 0 0 0 0 0 (paused s)).
  assert (∀ l t, let r := foldl count_in_stats t l in
    let n st := length (List.filter (λ j, state_eqb (job_state j) st) l) in
    st_waiting r = (st_waiting t + n Waiting)%nat ∧ st_delayed r = (st_delayed t + n Delayed)%nat ∧
    st_active r = (st_active t + n Active)%nat ∧
    st_waiting_children r = (st_waiting_children t + n WaitingChildren)%nat ∧
    st_completed r = (st_completed t + n Completed)%nat ∧ st_failed r = (st_failed t + n Failed)%nat ∧
    st_total r = st_total t ∧ st_paused r = st_paused t) as H.
  { intros l. induction l as [|j l IH]; intros t; cbn zeta; [simpl; split_and!; lia || done|].
    cbn [foldl]. destruct (IH (count_in_stats t j)) as (H1 & H2 & H3 & H4 & H5 & H6 & H7 & H8).
    rewrite H1, H2, H3, H4, H5, H6, H7, H8. unfold count_in_stats. cbn [List.filter].
    destruct (job_state j); simpl; split_and!; lia || done. }
  destruct (H (hash_values (jobs s)) t0) as (-> & -> & -> & -> & -> & -> & -> & ->). by split_and!.
Qed.

(** The statistics count every job once: each field is the number of jobs
    in that state, they add up to the number of stored jobs, and the counts by
    state requested one at a time are the same numbers. *)
Theorem stats_partition (s : QueueState) :
  let t := stats s in
  st_total t = size (jobs s) ∧
  (st_waiting t + st_delayed t + st_active t + st_waiting_children t + st_completed t + st_failed t
     = st_total t)%nat ∧
  counts_by_state s [] = [(Waiting, st_waiting t); (Delayed, st_delayed t); (Active, st_active t);
    (WaitingChildren, st_waiting_children t); (Completed, st_completed t); (Failed, st_failed t)].
Proof.
  cbn zeta. destruct (stats_spec s) as (-> & -> & -> & -> & -> & -> & -> & _). split; [done|].
  split; [|done]. rewrite <- length_hash_values. unfold count_jobs.
  induction (hash_values (jobs s)) as [|j l IH]; [done|]. cbn [List.filter].
  destruct (job_state j); simpl; lia.
Qed.

(** ** The event log *)
Lemma event_number_parse n : 0 ≤ n ≤ I64_MAX → parse_stream_id (show_nat n +:+ "-0") = Some (n, 0).
Proof.
  intros Hn. unfold parse_stream_id. change (Ascii.ascii_of_N 45) with "-"%char.
  rewrite (split_once_digits (show_nat n) "0") by apply show_nat_digits.
  rewrite parse_i64_show by done. done.
Qed.

(** The numbers of the events a range lets through, from its two bounds: an id
    with a sequence part names a point behind the event of its first number;
    ["-"], ["+"] and ids that do not parse do not bound. *)
Definition first_number (start : string) : Z :=
  if String.eqb start "-" then 0
  else match parse_stream_id start with Some (m, q) => if q <=? 0 then m else m + 1 | None => 0 end.

Definition last_number (end_ : string) : Z :=
  if String.eqb end_ "+" then I64_MAX
  else match parse_stream_id end_ with Some (m, q) => if 0 <=? q then m else m - 1 | None => I64_MAX end.

Lemma numbered_in_range e k start end_ : 0 ≤ k ≤ I64_MAX → ev_id e = show_nat k +:+ "-0" →
  event_in_range e start end_ = (first_number start <=? k) && (k <=? last_number end_).
Proof.
  intros Hk He. unfold event_in_range, first_number, last_number. rewrite He, event_number_parse by done. f_equal.
  - destruct (String.eqb start "-"); [symmetry; apply Z.leb_le; lia|].
    destruct (parse_stream_id start) as [[m q]|]; [|symmetry; apply Z.leb_le; lia]. unfold stream_id_le. cbn [fst snd].
    destruct (Z.leb_spec q 0), (Z.ltb_spec m k), (Z.eqb_spec m k); simpl; symmetry; rewrite ?Z.leb_le, ?Z.leb_gt; lia.
  - destruct (String.eqb end_ "+"); [symmetry; apply Z.leb_le; lia|].
    destruct (parse_stream_id end_) as [[m q]|]; [|symmetry; apply Z.leb_le; lia]. unfold stream_id_le. cbn [fst snd].
    destruct (Z.leb_spec 0 q), (Z.ltb_spec k m), (Z.eqb_spec k m); simpl; symmetry; rewrite ?Z.leb_le, ?Z.leb_gt; lia.
Qed.

Lemma filter_numbered l k start end_ : 0 ≤ k → k + Z.of_nat (length l) - 1 ≤ I64_MAX →
  (∀ i e, l !! i = Some e → ev_id e = show_nat (k + Z.of_nat i) +:+ "-0") →
  List.filter (λ e, event_in_range e start end_) l =
  drop (Z.to_nat (first_number start - k)) (take (Z.to_nat (last_number end_ + 1 - k)) l).
Proof.
  revert k. induction l as [|e l IH]; intros k Hk Hlen Hid; simpl; [by rewrite take_nil, drop_nil|].
  simpl in Hlen. pose proof (Hid O e eq_refl) as He. rewrite Z.add_0_r in He.
  rewrite (IH (k + 1)) by (try lia; intros i e' Hi; rewrite (Hid (S i) e' Hi); f_equal; f_equal; lia).
  rewrite (numbered_in_range e k start end_) by (done || lia).
  destruct (Z.leb_spec k (last_number end_)); cycle 1.
  { rewrite andb_false_r. replace (Z.to_nat (last_number end_ + 1 - k)) with O by lia.
    replace (Z.to_nat (last_number end_ + 1 - (k + 1))) with O by lia. rewrite !take_0. by rewrite !drop_nil. }
  replace (Z.to_nat (last_number end_ + 1 - k)) with (S (Z.to_nat (last_number end_ + 1 - (k + 1)))) by lia.
  cbn [take]. rewrite andb_true_r. destruct (Z.leb_spec (first_number start) k).
  - replace (Z.to_nat (first_number start - k)) with O by lia.
    by replace (Z.to_nat (first_number start - (k + 1))) with O by lia.
  - by replace (Z.to_nat (first_number start - k)) with (S (Z.to_nat (first_number start - (k + 1)))) by lia.
Qed.

(** C23: the event log is a window of at most ten thousand events with
    consecutive stream ids that ends at the last event emitted, and a range
    read, whatever its two bounds and its limit, returns in order exactly the
    events between the bounds, the first ones up to the limit: a consumer that
    resumes after the last id it saw misses nothing the window still holds. *)
Theorem event_log_window (queue : string) s : reachable queue s → event_sequence s ≤ I64_MAX →
  Z.of_nat (length (events s)) ≤ DEFAULT_JOB_EVENT_RETENTION ∧
  (∀ i e, events s !! i = Some e → ev_id e = show_nat (event_number s i) +:+ "-0") ∧
  (∀ start end_ limit, let k := event_number s 0 in
     read_events s start end_ limit =
     take limit (drop (Z.to_nat (first_number start - k)) (take (Z.to_nat (last_number end_ + 1 - k)) (events s)))).
Proof.
  intros W%reachable_wf_aux Hmax. destruct (wf_events s W) as [B C N].
  destruct N as [Hlen Hid]; [unfold I64_MAX, U64_MAX in *; lia|]. split_and!; [done|done|].
  intros start end_ limit. cbn zeta. unfold read_events. destruct limit as [|limit]; [done|]. f_equal.
  apply filter_numbered; unfold event_number in *; try lia.
  intros i e Hi. rewrite (Hid i e Hi). f_equal. f_equal. lia.
Qed.

(** ** Restart *)

(** C22: a queue rebuilt from its snapshot has the same jobs, dependency indexes,
    parked candidates, released owners, event log and pause flag; its sequence
    counter is not ahead of the old one and covers every job, so jobs added
    after the restart still queue behind the ones waiting. *)
Theorem restart_preserves (queue : string) s : reachable queue s →
  let r := from_snapshot (snapshot queue s) in
  jobs r = jobs s ∧ flow_dependencies r = flow_dependencies s ∧
  deduplication_next r = deduplication_next s ∧ deduplication_next_flows r = deduplication_next_flows s ∧
  released_deduplication_owners r = released_deduplication_owners s ∧
  events r = events s ∧ event_sequence r = event_sequence s ∧ paused r = paused s ∧
  sequence r ≤ sequence s ∧ (∀ id j, jobs s !! id = Some j → job_enqueued_seq j ≤ sequence r).
Proof.
  intros W%reachable_wf_aux r. subst r. rewrite snapshot_roundtrip by done.
  pose proof (restored_sequence_le queue s W) as HL.
  pose proof (λ id j, jobs_le_restored queue s id j W) as HJ.
  generalize dependent (restored_sequence (snapshot queue s)). intros n HL HJ. simpl. split_and!; done || lia.
Qed.
End views.

(** ** Witnesses *)
Import Demo.

Definition all_jobs : JobListOptions :=
  {| lo_state := None; lo_states := []; lo_offset := 0; lo_limit := 10; lo_ascending := true |}.

Lemma listing_is_canonical_witness :
  job_id <$> listed leased all_jobs = ["a"; "c"; "b"] ∧ NoDup (job_id <$> listed leased all_jobs).
Proof.
  split; [vm_compute; reflexivity|].
  exact (proj1 (proj2 (listing_is_canonical "q" leased all_jobs leased_reachable))).
Defined.

(** Events 3 to 5, read by their ids. *)
Lemma event_log_window_witness :
  length (events leased) = 7%nat ∧ read_events leased "2-1" "5-0" 9 = take 9 (drop 2 (take 5 (events leased))).
Proof.
  split; [vm_compute; reflexivity|].
  assert (event_sequence leased ≤ I64_MAX) as H by (vm_compute; discriminate).
  assert (event_number leased 0 = 1) as E by (vm_compute; reflexivity).
  destruct (event_log_window "q" leased leased_reachable H) as (_ & _ & HR).
  specialize (HR "2-1" "5-0" 9%nat). cbn zeta in HR. rewrite E in HR. exact HR.
Defined.

Lemma restart_preserves_witness : jobs (from_snapshot (snapshot "q" leased)) = jobs leased.
Proof. exact (proj1 (restart_preserves "q" leased leased_reachable)). Defined.

Lemma stats_partition_witness :
  st_total (stats queue3) = 3%nat ∧ st_total (stats queue3) = size (jobs queue3).
Proof. split; [vm_compute; reflexivity|]. exact (proj1 (stats_partition queue3)). Defined.

(** * Duplicates, repeat series and logs

    What a submission under a taken id, deduplication id or repeat key does,
    when a repeat series goes on, and the log of a job with its pages. *)

Section rules.
Context {X : Ext} `{!ExtLaws X}.
Implicit Types (s : QueueState) (j : Job).

(** ** Duplicate submissions *)

(** A job up to the expiration of its deduplication id. *)
Definition up_to_expiration (j : Job) : Job := j <| job_deduplication_expires_at := None |>.

Lemma up_to_expiration_id j x : up_to_expiration (j <| job_deduplication_expires_at := x |>) = up_to_expiration j.
Proof. done. Qed.

Definition same_jobs s s' : Prop := ∀ id, up_to_expiration <$> jobs s' !! id = up_to_expiration <$> jobs s !! id.

Lemma deduplicated_add_jobs s j e now :
  let s1 := (store_deduplicated_next_locked s j e).1 in
  let s2 := (extend_deduplication_expiration_locked s1 j (job_id e) now).1 in
  same_jobs s (if deduplication_duplicate_emits_events j e then emit_deduplicated_events_locked s2 e j now else s2).
Proof.
  cbn zeta. intros id.
  match goal with |- context [if ?b then emit_deduplicated_events_locked ?s2 _ _ _ else _] =>
    assert (jobs (if b then emit_deduplicated_events_locked s2 e j now else s2) = jobs s2) as -> end.
  { destruct (deduplication_duplicate_emits_events j e); [|done]. unfold emit_deduplicated_events_locked.
    destruct (job_deduplication_id j); [apply emit_deduplication_frame|done]. }
  rewrite (extend_field up_to_expiration up_to_expiration_id).
  by rewrite (store_next_field up_to_expiration up_to_expiration_id).
Qed.

(** Adding a valid job whose id is taken returns the stored job and changes
    nothing.  A new id whose deduplication id is owned by a job that must not
    be replaced adds no job and touches no field of any job but a
    deduplication expiration; the owner is returned.  With neither an owner of
    the deduplication id nor of the repeat key the job is stored, and it is
    the only change to the jobs. *)
Theorem add_respects_ownership (queue : string) s (spec : NewSpec) now :
  reachable queue s → validate_job_options_at (spec_options spec.1) now = Ok tt →
  let j := job_of_spec queue now spec in
  let owner := find_active_deduplicated_job (jobs s) (released_deduplication_owners s) j now in
  (∀ e, jobs s !! job_id j = Some e → add_at queue s spec now = (s, Ok e)) ∧
  (∀ e, jobs s !! job_id j = None → owner = Some e → deduplication_replaces_delayed_owner j e = false →
     ∃ s' r, add_at queue s spec now = (s', Ok r) ∧ job_id r = job_id e ∧ same_jobs s s') ∧
  (jobs s !! job_id j = None → owner = None → find_active_repeat_job (jobs s) j = None →
     ∃ s' r, add_at queue s spec now = (s', Ok r) ∧ job_id r = job_id j ∧ job_state r = job_state j ∧
       jobs s' = <[ job_id j := r ]> (jobs s)).
Proof.
  intros W%reachable_wf_aux Hv j owner. subst j owner. unfold add_at. rewrite Hv.
  generalize (job_of_spec queue now spec). intros j. unfold add_one. split_and!.
  - intros e ->. done.
  - intros e -> Ho Hr. rewrite Ho, Hr. cbn zeta.
    pose proof (deduplicated_add_jobs s j e now) as HS. cbn zeta in HS.
    match type of HS with same_jobs s ?s3 => generalize dependent s3 end. intros s3 HS.
    exists s3, (unwrap_or (jobs s3 !! job_id e) e). split; [done|]. split; [|done].
    destruct (jobs s3 !! job_id e) as [r|] eqn:Er; [|done]. simpl.
    pose proof (HS (job_id e)) as H. rewrite Er, (find_dedup_stored _ _ _ _ _ W Ho) in H.
    exact (f_equal (from_option job_id EmptyString) H).
  - intros -> -> Hn. unfold add_unowned. rewrite Hn. pose proof (insert_new_job_spec s j now) as HI.
    destruct (insert_new_job s j now) as [s1 r]. destruct HI as (Hj & Hid & Hst & _).
    exists s1, r. split_and!; done.
Qed.

(** ** Repeat series *)

(** A repeating job that completes is followed by its next occurrence: the
    count grows by one and stays under the limit of the series, the schedule
    is within its end, the job waits for its schedule or is claimable when it
    is due, the series key is kept and the occurrence has an id of its own. *)
Theorem next_occurrence (j : Job) now uuid r n :
  opt_repeat (job_options j) = Some r → next_repeat_job j now uuid = Ok (Some n) →
  job_repeat_count n = sat_add U32_MAX (job_repeat_count j) 1 ∧
  (∀ limit, rep_limit r = Some limit → job_repeat_count n < limit) ∧
  (∀ end_at, rep_end_at r = Some end_at → job_scheduled_at n ≤ end_at) ∧
  next_scheduled_at r now = Ok (Some (job_scheduled_at n)) ∧
  job_state n = (if now <? job_scheduled_at n then Delayed else Waiting) ∧
  job_repeat_key n = job_repeat_key j ∧ job_id n = uuid ∧ job_name n = job_name j ∧
  job_payload n = job_payload j ∧ job_attempts_made n = 0.
Proof.
  intros Hr. unfold next_repeat_job. rewrite Hr.
  destruct (match rep_limit r with Some _ => _ | None => _ end) eqn:El; [done|].
  intros ([t|] & Ht & H)%try_bind_ok; [|done].
  destruct (match rep_end_at r with Some _ => _ | None => _ end) eqn:Ee; [done|].
  injection H as <-. simpl. split_and!; try done.
  - intros limit E. rewrite E in El. bools. lia.
  - intros end_at E. rewrite E in Ee. bools. lia.
Qed.

(** ** Logs *)
Lemma keep_last_length {A} n (l : list A) : (length (keep_last n l) ≤ Nat.max n 0)%nat ∨ length (keep_last n l) = length l.
Proof.
  unfold keep_last. destruct (Nat.ltb_spec n (length l)); [left; rewrite length_drop; lia|by right].
Qed.

(** The log after one more line: bounded, and its end is the new line. *)
Lemma append_log_spec keep (e : JobLogEntry) l :
  append_log keep e l = drop (if (0 <? keep)%nat then length l + 1 - keep else 0) (l ++ [e]).
Proof.
  unfold append_log, keep_last. destruct (Nat.ltb_spec 0 keep); [|done].
  rewrite length_app. simpl. destruct (Nat.ltb_spec keep (length l + 1)); [done|].
  by replace (length l + 1 - keep)%nat with O by lia.
Qed.

(** Logging a line appends it to the job's log and, with a positive bound,
    drops the oldest lines beyond it; no other job changes. *)
Theorem log_is_bounded (queue : string) s id line keep now j : reachable queue s → jobs s !! id = Some j →
  ∃ j', (log s id line keep now).2 = Ok j' ∧ jobs (log s id line keep now).1 = <[ id := j' ]> (jobs s) ∧
    last (job_logs j') = Some {| log_timestamp := now; log_line := line |} ∧
    (∃ k, job_logs j' = drop k (job_logs j) ++ [{| log_timestamp := now; log_line := line |}]) ∧
    ((0 < keep)%nat → (length (job_logs j') ≤ keep)%nat) ∧
    (keep = O ∨ (length (job_logs j) < keep)%nat → job_logs j' = job_logs j ++ [{| log_timestamp := now; log_line := line |}]).
Proof.
  intros W%reachable_wf_aux Hj. unfold log, update_job. rewrite Hj. eexists. split; [done|]. split; [done|].
  cbn [upd job_logs]. set (e := {| log_timestamp := now; log_line := line |}).
  change (job_logs (upd job_logs (append_log keep e) j)) with (append_log keep e (job_logs j)).
  rewrite append_log_spec. generalize (job_logs j). intros l.
  set (k := if (0 <? keep)%nat then _ else _).
  assert (k ≤ length l)%nat as Hk by (unfold k; destruct (Nat.ltb_spec 0 keep); lia).
  rewrite drop_app_le by done. split_and!.
  - by rewrite last_snoc.
  - by exists k.
  - intros Hp. rewrite length_app, length_drop. unfold k in *. simpl. destruct (Nat.ltb_spec 0 keep); lia.
  - intros Hs. assert (k = O) as ->; [|done]. unfold k. destruct (Nat.ltb_spec 0 keep); lia.
Qed.

(** *** Pages of a log *)
Lemma redis_range_window {A} (l : list A) a b : 0 ≤ a ≤ b →
  redis_range l a b = take (Z.to_nat (b - a + 1)) (drop (Z.to_nat a) l).
Proof.
  intros H. unfold redis_range. destruct (length l) as [|n] eqn:E.
  { apply nil_length_inv in E as ->. by rewrite drop_nil, take_nil. }
  unfold normalize_redis_index. destruct (Z.leb_spec 0 a); [|lia]. destruct (Z.leb_spec 0 b); [|lia].
  destruct (Nat.ltb_spec (Z.to_nat b) (Z.to_nat a)); [lia|]. cbn [orb].
  destruct (Nat.leb_spec (S n) (Z.to_nat a)); [rewrite drop_ge by lia; by rewrite take_nil|].
  destruct (Nat.le_gt_cases (Z.to_nat b) (S n - 1)).
  - rewrite Nat.min_l by done. f_equal. lia.
  - rewrite Nat.min_r by lia. rewrite !take_ge; [done|rewrite length_drop; lia..].
Qed.

Lemma isize_exact x : I64_MIN ≤ x ≤ I64_MAX → isize_sat x = x.
Proof. unfold isize_sat. lia. Qed.

(** A page of a job's log with non-negative bounds is the requested window
    of the log, oldest first or newest first, with the full count.  A newest
    first page that starts past the end does not come back empty: it shows
    the oldest line. *)
Theorem log_pages (l : list JobLogEntry) a b : 0 ≤ a ≤ b → b < ISIZE_MAX →
  log_page l a b true = (take (Z.to_nat (b - a + 1)) (drop (Z.to_nat a) l), length l) ∧
  (a < Z.of_nat (length l) ∧ Z.of_nat (length l) < ISIZE_MAX →
     log_page l a b false = (take (Z.to_nat (b - a + 1)) (drop (Z.to_nat a) (reverse l)), length l)) ∧
  (Z.of_nat (length l) ≤ a → log_page l a b false = (take 1 l, length l)).
Proof.
  intros H Hb. unfold log_page. split_and!; [by rewrite redis_range_window| |]; unfold ISIZE_MAX in *.
  - intros [Ha Hl]. rewrite !(isize_exact (_ + 1)), !(isize_exact (- _)) by (unfold I64_MIN, I64_MAX in *; lia).
    f_equal. unfold redis_range. destruct (length l) as [|n] eqn:E; [lia|].
    unfold normalize_redis_index. destruct (Z.leb_spec 0 (- (b + 1))), (Z.leb_spec 0 (- (a + 1))); try lia.
    set (lo := if Z.of_nat (S n) + - (b + 1) <? 0 then O else _).
    assert (lo = (S n - (Z.to_nat b + 1))%nat) as Hlo by (unfold lo; destruct (Z.ltb_spec (Z.of_nat (S n) + - (b + 1)) 0); lia).
    destruct (Z.ltb_spec (Z.of_nat (S n) + - (a + 1)) 0); [lia|].
    destruct (Nat.ltb_spec (Z.to_nat (Z.of_nat (S n) + - (a + 1))) lo); [lia|].
    destruct (Nat.leb_spec (S n) lo); [lia|]. cbn [orb]. rewrite Nat.min_l by lia.
    rewrite drop_reverse, take_reverse. f_equal. rewrite length_take, Hlo, E, take_drop_commute.
    f_equal; [lia|]. f_equal. lia.
  - intros Ha. rewrite !(isize_exact (_ + 1)), !(isize_exact (- _)) by (unfold I64_MIN, I64_MAX in *; lia).
    f_equal. unfold redis_range. destruct (length l) as [|n] eqn:E; [by apply nil_length_inv in E as ->|].
    unfold normalize_redis_index. destruct (Z.leb_spec 0 (- (b + 1))), (Z.leb_spec 0 (- (a + 1))); try lia.
    destruct (Z.ltb_spec (Z.of_nat (S n) + - (b + 1)) 0), (Z.ltb_spec (Z.of_nat (S n) + - (a + 1)) 0); try lia.
    by destruct l.
Qed.
End rules.

(** ** Witnesses *)
Import Demo.

Lemma add_respects_ownership_witness :
  ∃ e, jobs queue3 !! "a" = Some e ∧ add_at "q" queue3 (spec "a" default_options) 9 = (queue3, Ok e).
Proof.
  assert (is_some (jobs queue3 !! "a") = true) as H by (vm_compute; reflexivity).
  apply is_some_true in H as [e He]. exists e. split; [exact He|].
  exact (proj1 (add_respects_ownership "q" queue3 (spec "a" default_options) 9 queue3_reachable eq_refl) e He).
Defined.

(** A job that repeats every 50 time units, three times. *)
Definition repeating : RepeatOptions :=
  {| rep_schedule := Every 50; rep_limit := Some 3; rep_end_at := Some 1000; rep_key := Some "k" |}.
Definition repeat_job : @Job demo_ext := job_of_spec "q" 0 (spec "r" (default_options <| opt_repeat := Some repeating |>)).

Lemma next_occurrence_witness :
  ∃ n, next_repeat_job repeat_job 10 "fresh" = Ok (Some n) ∧ job_id n = "fresh" ∧ job_repeat_count n < 3.
Proof.
  assert (match next_repeat_job repeat_job 10 "fresh" with Ok (Some _) => true | _ => false end = true) as H
    by (vm_compute; reflexivity).
  destruct (next_repeat_job repeat_job 10 "fresh") as [[n|]|e] eqn:E; [|discriminate H|discriminate H].
  destruct (next_occurrence repeat_job 10 "fresh" repeating n eq_refl E) as (_ & Hl & _ & _ & _ & _ & Hid & _).
  exists n. split; [reflexivity|]. split; [exact Hid|]. exact (Hl 3 eq_refl).
Defined.

Lemma log_is_bounded_witness :
  ∃ j', (log queue3 "a" "hello" 2 9).2 = Ok j' ∧ (length (job_logs j') ≤ 2)%nat.
Proof.
  assert (is_some (jobs queue3 !! "a") = true) as H by (vm_compute; reflexivity).
  apply is_some_true in H as [j Hj].
  destruct (log_is_bounded "q" queue3 "a" "hello" 2 9 j queue3_reachable Hj) as (j' & E & _ & _ & _ & Hb & _).
  exists j'. split; [exact E|]. apply Hb. lia.
Defined.

Definition three_lines : list JobLogEntry :=
  (λ l, {| log_timestamp := 0; log_line := l |}) <$> ["one"; "two"; "three"].

Lemma log_pages_witness :
  log_page three_lines 0 1 false = (take 2 (reverse three_lines), 3%nat) ∧
  log_page three_lines 7 9 false = (take 1 three_lines, 3%nat).
Proof.
  split.
  - refine (proj1 (proj2 (log_pages three_lines 0 1 _ _)) _); [lia|unfold ISIZE_MAX, I64_MAX; lia|].
    simpl. unfold ISIZE_MAX, I64_MAX. lia.
  - refine (proj2 (proj2 (log_pages three_lines 7 9 _ _)) _); [lia|unfold ISIZE_MAX, I64_MAX; lia|].
    simpl. lia.
Defined.
