(* ===== verification/Backend.v ===== *)
(** * The contract of a job queue backend ([src/job/backend.rs])

    [JobQueueBackend] is the trait, generic in the state of the backend: one
    field per method that has no default body, and one per method that has one
    and that a backend may override; [with_defaults] fills those in with the
    bodies of the trait.  A method returns the state it leaves and its result;
    clock readings and uuids it draws are arguments, after the code's own.
    [perform] runs a call of the type [JobOp] through the trait, and
    [LeaseLaws] is what a backend promises about leases: the worker's theorems
    rest on these laws alone. *)
From S2P Require Import Prelude Ordering Text External Retry JobTypes JobStore.
From S2P Require Import JobFlows JobQueries JobAdd JobSystem JobLeases.
Local Open Scope Z_scope.

Section backend.
Context {X : Ext}.

(** A method that may change the state. *)
Definition Method (S A : Type) : Type := S → S * Result A.

Class JobQueueRequired (S : Type) := {
  add_job : NewSpec → DateTime → Method S Job;
  add_jobs : list NewSpec → DateTime → Method S (list Job);
  add_flow : NewSpec → list NewSpec → DateTime → Method S JobFlow;
  add_flow_children : string → string → list NewSpec → DateTime → Method S (list Job);
  get_flow_dependencies : S → string → Result (option JobFlowDependencies);
  get_flow_dependency_counts : S → string → Result (option JobFlowDependencyCounts);
  get_flow_dependency_selected_counts : S → string → list JobFlowDependencyKind →
    Result (option (list (JobFlowDependencyKind * nat)));
  get_flow_dependency_values : S → string → Result (option JobFlowDependencyValues);
  get_flow_dependency_page : S → string → JobFlowDependencyKind → nat → nat → Result (option JobFlowDependencyPage);
  get_flow_dependency_pages : S → string → list (JobFlowDependencyKind * (nat * nat)) →
    Result (option (list JobFlowDependencyPage));
  get_flow_children_values : S → string → Result (option (gmap string Value));
  get_flow_ignored_children_failures : S → string → Result (option (gmap string string));
  remove_unprocessed_children : string → DateTime → Method S (option (list Job));
  remove_child_dependency : string → DateTime → Method S bool;
  claim_next : string → Duration → DateTime → string → Method S (option Job);
  complete_job : string → string → Value → DateTime → string → Method S Job;
  fail_job : string → string → string → DateTime → Method S Job;
  fail_job_discarding_retry : string → string → string → DateTime → Method S Job;
  renew_lease : string → string → Duration → DateTime → Method S Job;
  delay_active_job : string → string → Duration → DateTime → Method S Job;
  release_active_job : string → string → DateTime → Method S Job;
  promote_job : string → DateTime → Method S Job;
  reschedule_job : string → Duration → DateTime → Method S Job;
  retry_job : string → DateTime → Method S Job;
  update_priority : string → JobPriority → Method S Job;
  remove_job : string → DateTime → Method S (option Job);
  remove_repeat : string → DateTime → Method S (option Job);
  remove_deduplication_key : string → DateTime → Method S bool;
  get_deduplication_job_id : S → string → DateTime → Result (option string);
  list_repeats : S → Result (list JobRepeatEntry);
  upsert_repeat : NewSpec → DateTime → Method S Job;
  clean_jobs : JobState → Duration → nat → DateTime → Method S (list Job);
  drain_jobs : bool → (nat → DateTime) → Method S (list Job);
  obliterate : bool → Method S nat;
  list_jobs : S → JobListOptions → Result JobListPage;
  get_job_counts : S → list JobState → Result (list (JobState * nat));
  get_counts_per_priority : S → list JobPriority → Result (list (JobPriority * nat));
  update_data : string → Value → Method S Job;
  update_progress : string → Value → DateTime → Method S Job;
  save_stacktrace : string → list string → string → Method S Job;
  add_log : string → string → nat → DateTime → Method S Job;
  get_job_logs : S → string → Z → Z → bool → Result (list JobLogEntry * nat);
  clear_job_logs : string → nat → Method S (list JobLogEntry * nat);
  promote_due_jobs : DateTime → Method S nat;
  recover_stalled_jobs : DateTime → Method S nat;
  pause : DateTime → Method S unit;
  resume : DateTime → Method S unit;
  is_paused : S → Result bool;
  get_job : S → string → Result (option Job);
  get_job_state : S → string → Result (option JobState);
  get_job_finished_result : S → string → Result (option JobFinishedResult);
  stats : S → Result JobQueueStats;
}.

(** [JobLeaseRenewal]. *)
Record JobLeaseRenewal := { rn_job_id : string; rn_lock_token : string }.

(** The methods with a body in the trait. *)
Class JobQueueBackend (S : Type) := {
  required :: JobQueueRequired S;
  claim_next_blocking : string → Duration → Duration → DateTime → string → Method S (option Job);
  renew_leases : list JobLeaseRenewal → Duration → DateTime → Method S (list string);
  update_priority_with_lifo : string → JobPriority → bool → Method S Job;
  get_repeat : S → string → Result (option JobRepeatEntry);
  count_repeats : S → Result nat;
  list_repeats_page : S → nat → nat → bool → Result (list JobRepeatEntry * nat * nat * nat);
  get_job_count : S → list JobState → Result nat;
  count_pending_jobs : S → Result nat;
  read_events : S → string → string → nat → Result (list JobEvent);
  trim_events : nat → Method S Z;
}.

(** ** Default bodies *)
Section defaults.
Context {S : Type} `{!JobQueueRequired S}.

Definition default_claim_next_blocking (worker_id : string) (lease_for _block_for : Duration)
    (now : DateTime) (uuid : string) : Method S (option Job) := claim_next worker_id lease_for now uuid.

Definition renew_one (lease_for : Duration) (now : DateTime) (acc : S * list string) (r : JobLeaseRenewal)
    : S * list string :=
  let '(s, failed) := acc in
  let '(s, result) := renew_lease (rn_job_id r) (rn_lock_token r) lease_for now s in
  (s, if is_ok result then failed else failed ++ [rn_job_id r]).

Definition default_renew_leases (renewals : list JobLeaseRenewal) (lease_for : Duration) (now : DateTime)
    : Method S (list string) := λ s,
  let '(s, failed) := foldl (renew_one lease_for now) (s, []) renewals in (s, Ok failed).

Definition default_update_priority_with_lifo (job_id : string) (priority : JobPriority) (_lifo : bool)
    : Method S Job := update_priority job_id priority.

Definition default_get_repeat (s : S) (repeat_key : string) : Result (option JobRepeatEntry) :=
  let? entries := list_repeats s in
  Ok (List.find (λ entry, String.eqb (re_key entry) repeat_key) entries).

Definition default_count_repeats (s : S) : Result nat :=
  let? entries := list_repeats s in Ok (length entries).

Definition default_list_repeats_page (s : S) (offset limit : nat) (ascending : bool)
    : Result (list JobRepeatEntry * nat * nat * nat) :=
  let? entries := list_repeats s in Ok (page_repeat_entries entries offset limit ascending).

Definition default_get_job_count (s : S) (states : list JobState) : Result nat :=
  let? counts := get_job_counts s states in Ok (sum_list (snd <$> counts)).

Definition default_count_pending_jobs (s : S) : Result nat := default_get_job_count s JobState_PENDING.

Definition default_read_events (_ : S) (_start _end : string) (_limit : nat) : Result (list JobEvent) := Ok [].

Definition default_trim_events (_max_len : nat) : Method S Z := λ s, (s, Ok 0).

Definition with_defaults : JobQueueBackend S := {|
  required := _;
  claim_next_blocking := default_claim_next_blocking;
  renew_leases := default_renew_leases;
  update_priority_with_lifo := default_update_priority_with_lifo;
  get_repeat := default_get_repeat;
  count_repeats := default_count_repeats;
  list_repeats_page := default_list_repeats_page;
  get_job_count := default_get_job_count;
  count_pending_jobs := default_count_pending_jobs;
  read_events := default_read_events;
  trim_events := default_trim_events;
|}.
End defaults.

(** ** Calls as data *)
(** The state a call leaves, and whether it was accepted. *)
Definition ack {S A} (p : S * Result A) : S * bool := (p.1, is_ok p.2).

Definition perform {S} `{!JobQueueBackend S} (s : S) (op : JobOp) : S * bool :=
  match op with
  | OpAdd spec now => ack (add_job spec now s)
  | OpAddMany specs now => ack (add_jobs specs now s)
  | OpAddFlow parent children now => ack (add_flow parent children now s)
  | OpAddFlowChildren pid token children now => ack (add_flow_children pid token children now s)
  | OpUpsertRepeat spec now => ack (upsert_repeat spec now s)
  | OpClaim worker lease_for now token => ack (claim_next worker lease_for now token s)
  | OpComplete id token value now uuid => ack (complete_job id token value now uuid s)
  | OpFail id token error now true => ack (fail_job id token error now s)
  | OpFail id token error now false => ack (fail_job_discarding_retry id token error now s)
  | OpRenew id token lease_for now => ack (renew_lease id token lease_for now s)
  | OpDelayActive id token delay now => ack (delay_active_job id token delay now s)
  | OpReleaseActive id token now => ack (release_active_job id token now s)
  | OpPromote id now => ack (promote_job id now s)
  | OpReschedule id delay now => ack (reschedule_job id delay now s)
  | OpRetry id now => ack (retry_job id now s)
  | OpSetPriority id p None => ack (update_priority id p s)
  | OpSetPriority id p (Some lifo) => ack (update_priority_with_lifo id p lifo s)
  | OpPromoteDue now => ack (promote_due_jobs now s)
  | OpRecoverStalled now => ack (recover_stalled_jobs now s)
  | OpPause now => ack (pause now s)
  | OpResume now => ack (resume now s)
  | OpRemove id now => ack (remove_job id now s)
  | OpRemoveRepeat key now => ack (remove_repeat key now s)
  | OpRemoveDeduplicationKey d now => ack (remove_deduplication_key d now s)
  | OpClean st grace limit now => ack (clean_jobs st grace limit now s)
  | OpDrain b clock => ack (drain_jobs b clock s)
  | OpObliterate force => ack (obliterate force s)
  | OpRemoveUnprocessedChildren pid now => ack (remove_unprocessed_children pid now s)
  | OpRemoveChildDependency id now => ack (remove_child_dependency id now s)
  | OpSetData id payload => ack (update_data id payload s)
  | OpSetProgress id progress now => ack (update_progress id progress now s)
  | OpSaveStacktrace id st reason => ack (save_stacktrace id st reason s)
  | OpLog id line keep now => ack (add_log id line keep now s)
  | OpClearLogs id keep => ack (clear_job_logs id keep s)
  | OpTrimEvents n => ack (trim_events n s)
  end.

Definition invoke {S} `{!JobQueueBackend S} (s : S) (op : JobOp) : S := (perform s op).1.

(** ** What a backend promises about leases *)

(** The token a claim draws. *)
Definition claims_token (op : JobOp) (token : string) : Prop :=
  match op with OpClaim _ _ _ t => t = token | _ => False end.

(** The calls that leave every lease in place: neither a report of a holder
    nor recovery nor obliteration. *)
Definition spares_leases (op : JobOp) : bool :=
  leaves_leases op || match op with OpRenew _ _ _ _ => true | _ => false end.

Class LeaseLaws (S : Type) `{!JobQueueBackend S} := {
  (** The states in which the promises hold. *)
  backend_ok : S → Prop;
  (** The token under which a job is leased. *)
  holder : S → string → option string;
  ok_invoke s op : backend_ok s → op_ok op → backend_ok (invoke s op);
  (** Only a claim that draws the token makes it a holder. *)
  holder_from s op id t : backend_ok s → op_ok op → holder (invoke s op) id = Some t →
    holder s id = Some t ∨ claims_token op t;
  (** Other callers leave leases alone. *)
  holder_stays s op id t : backend_ok s → op_ok op → spares_leases op = true → holder s id = Some t →
    holder (invoke s op) id = Some t;
  claim_grants s w l now t s' j : backend_ok s → claim_next w l now t s = (s', Ok (Some j)) →
    job_worker_id j = Some w ∧ job_lock_token j = Some t ∧ holder s' (job_id j) = Some t ∧
    holder s (job_id j) = None;
  (** A report is accepted from the holder alone, once. *)
  complete_consumes s id t v now uuid s' j : backend_ok s → uuid ≠ EmptyString →
    complete_job id t v now uuid s = (s', Ok j) →
    holder s id = Some t ∧ holder s' id = None ∧ job_id j = id ∧ job_state j = Completed;
  fail_consumes s id t e now s' j : backend_ok s → fail_job id t e now s = (s', Ok j) →
    holder s id = Some t ∧ holder s' id = None ∧ job_id j = id ∧ job_failed_reason j = Some e;
  discard_consumes s id t e now s' j : backend_ok s → fail_job_discarding_retry id t e now s = (s', Ok j) →
    holder s id = Some t ∧ holder s' id = None ∧ job_id j = id ∧ job_state j = Failed ∧
    job_failed_reason j = Some e;
  (** A blocking claim ends in a claim, a batch of renewals is renewals. *)
  blocking_claims s w l b now t : ∃ now', claim_next_blocking w l b now t s = claim_next w l now' t s;
  batch_renews s rs l now : ∃ ops, Forall (λ op, ∃ i t, op = OpRenew i t l now) ops ∧
    (renew_leases rs l now s).1 = foldl invoke s ops;
  renewal_needs_lease s id t l now s' j : backend_ok s → renew_lease id t l now s = (s', Ok j) →
    holder s id = Some t;
}.

(** The default batch is a sequence of renewals. *)
Lemma default_batch_renews {S} `{!JobQueueBackend S} (rs : list JobLeaseRenewal) l now (s : S) :
  ∃ ops, Forall (λ op, ∃ i t, op = OpRenew i t l now) ops ∧ (default_renew_leases rs l now s).1 = foldl invoke s ops.
Proof.
  exists ((λ r, OpRenew (rn_job_id r) (rn_lock_token r) l now) <$> rs). split.
  { apply Forall_fmap, Forall_true. unfold compose. eauto. }
  unfold default_renew_leases. generalize (@nil string). revert s. induction rs as [|r rs IH]; intros s failed; [done|].
  rewrite fmap_cons. cbn [foldl]. unfold renew_one at 2.
  change (invoke s (OpRenew (rn_job_id r) (rn_lock_token r) l now)) with
    (renew_lease (rn_job_id r) (rn_lock_token r) l now s).1.
  specialize (IH (renew_lease (rn_job_id r) (rn_lock_token r) l now s).1).
  destruct (renew_lease _ _ l now s) as [s1 q]. cbn [fst]. apply IH.
Qed.
End backend.
