(* ===== verification/BackendMemory.v ===== *)
(** * The in-memory queue as a backend ([src/job/memory.rs])

    The instance of the backend trait, its equality with the handlers the
    transition system executes, and the proof that it keeps the lease laws. *)
From S2P Require Import Prelude Ordering Text External Retry JobTypes JobStore.
From S2P Require Import JobDedup JobFlows JobCore JobQueries JobAdmin JobAdd JobInvariant.
From S2P Require Import JobPreserve JobHandlers JobSubmit JobSnapshot JobSystem JobClaim JobReports JobLeases Backend.
Local Open Scope Z_scope.

Section memory.
Context {X : Ext}.

(** The lookups of the queue answer [None] for an unknown parent. *)
Definition of_parent {A} (s : QueueState) (parent_id : string)
    (view : Job → gmap string Job → option FlowIndex → A) : Result (option A) :=
  Ok (match jobs s !! parent_id with
      | None => None
      | Some parent => Some (view parent (jobs s) (flow_dependencies s !! parent_id))
      end).

Definition memory_required (queue : string) : JobQueueRequired QueueState := {|
  Backend.add_job spec now s := add_at queue s spec now;
  Backend.add_jobs specs now s := add_many_at queue s specs now;
  Backend.add_flow parent children now s := add_flow_at queue s parent children now;
  Backend.add_flow_children pid token children now s := add_flow_children_at queue s pid token children now;
  Backend.get_flow_dependencies s pid := Ok (JobQueries.get_flow_dependencies s pid);
  Backend.get_flow_dependency_counts s pid := of_parent s pid flow_dependency_counts;
  Backend.get_flow_dependency_selected_counts s pid kinds :=
    of_parent s pid (λ p m i, flow_dependency_selected_counts p m i kinds);
  Backend.get_flow_dependency_values s pid := of_parent s pid flow_dependency_values;
  Backend.get_flow_dependency_page s pid kind cursor count :=
    of_parent s pid (λ p m i, flow_dependency_page p m i kind cursor count);
  Backend.get_flow_dependency_pages s pid pages := of_parent s pid (λ p m i, flow_dependency_pages p m i pages);
  Backend.get_flow_children_values s pid := of_parent s pid flow_children_values;
  Backend.get_flow_ignored_children_failures s pid := of_parent s pid flow_ignored_children_failures;
  Backend.remove_unprocessed_children pid now s := JobAdmin.remove_unprocessed_children s pid now;
  Backend.remove_child_dependency id now s := JobAdmin.remove_child_dependency s id now;
  Backend.claim_next w l now token s := JobCore.claim_next s w l now token;
  Backend.complete_job id token v now uuid s := JobCore.complete_job s id token v now uuid;
  Backend.fail_job id token e now s := JobCore.fail_job s id token e now;
  Backend.fail_job_discarding_retry id token e now s := JobCore.fail_job_discarding_retry s id token e now;
  Backend.renew_lease id token l now s := renew s id token l now;
  Backend.delay_active_job id token d now s := delay_active s id token d now;
  Backend.release_active_job id token now s := release_active s id token now;
  Backend.promote_job id now s := promote s id now;
  Backend.reschedule_job id d now s := reschedule s id d now;
  Backend.retry_job id now s := retry s id now;
  Backend.update_priority id p s := set_priority s id p;
  Backend.remove_job id now s := remove s id now;
  Backend.remove_repeat key now s := JobAdmin.remove_repeat s key now;
  Backend.remove_deduplication_key d now s := JobAdmin.remove_deduplication_key s d now;
  Backend.get_deduplication_job_id s d now := Ok (JobQueries.get_deduplication_job_id s d now);
  Backend.list_repeats s := Ok (JobQueries.list_repeats s);
  Backend.upsert_repeat spec now s := JobAdd.upsert_repeat queue s spec now;
  Backend.clean_jobs st grace limit now s := clean s st grace limit now;
  Backend.drain_jobs b clock s := drain s b clock;
  Backend.obliterate force s := JobAdmin.obliterate s force;
  Backend.list_jobs s o := Ok (JobQueries.list_jobs s o);
  Backend.get_job_counts s states := Ok (counts_by_state s states);
  Backend.get_counts_per_priority s ps := Ok (counts_per_priority s ps);
  Backend.update_data id v s := set_data s id v;
  Backend.update_progress id v now s := set_progress s id v now;
  Backend.save_stacktrace id st reason s := JobAdmin.save_stacktrace s id st reason;
  Backend.add_log id line keep now s := log s id line keep now;
  Backend.get_job_logs s id start end_ ascending := Ok (get_logs s id start end_ ascending);
  Backend.clear_job_logs id keep s := clear_logs s id keep;
  Backend.promote_due_jobs now s := JobCore.promote_due_jobs s now;
  Backend.recover_stalled_jobs now s := JobCore.recover_stalled_jobs s now;
  Backend.pause now s := JobCore.pause s now;
  Backend.resume now s := JobCore.resume s now;
  Backend.is_paused s := Ok (JobCore.is_paused s);
  Backend.get_job s id := Ok (JobQueries.get_job s id);
  Backend.get_job_state s id := Ok (get_state s id);
  Backend.get_job_finished_result s id := Ok (get_finished_result s id);
  Backend.stats s := Ok (JobQueries.stats s);
|}.

(** The methods the queue overrides, and the defaults for the others. *)
Definition memory_backend (queue : string) : JobQueueBackend QueueState :=
  let _ := memory_required queue in {|
  required := memory_required queue;
  Backend.claim_next_blocking := default_claim_next_blocking;
  Backend.renew_leases := default_renew_leases;
  Backend.update_priority_with_lifo id p lifo s := set_priority_with_lifo s id p lifo;
  Backend.get_repeat := default_get_repeat;
  Backend.count_repeats := default_count_repeats;
  Backend.list_repeats_page := default_list_repeats_page;
  Backend.get_job_count := default_get_job_count;
  Backend.count_pending_jobs := default_count_pending_jobs;
  Backend.read_events s start end_ limit := Ok (JobStore.read_events s start end_ limit);
  Backend.trim_events n s := JobStore.trim_events s (Z.of_nat n);
|}.

(** The trait executes the handlers of the transition system. *)
Lemma invoke_exec queue s op : @invoke X QueueState (memory_backend queue) s op = exec queue s op.
Proof. destruct op; try done; [by destruct allow_retry|by destruct lifo]. Qed.

(** ** The lease laws *)
Definition lease_holder (s : QueueState) (id : string) : option string :=
  match jobs s !! id with
  | Some j => if state_eqb (job_state j) Active then job_lock_token j else None
  | None => None
  end.

Lemma lease_holder_owned s id t : lease_holder s id = Some t ↔ ∃ j, jobs s !! id = Some j ∧ owned_by j t.
Proof.
  unfold lease_holder, owned_by, state_eqb. destruct (jobs s !! id) as [j|]; [|naive_solver].
  case_bool_decide; naive_solver.
Qed.

Lemma lease_holder_idle s id : (∀ j, jobs s !! id = Some j → job_state j ≠ Active) → lease_holder s id = None.
Proof.
  intros H. unfold lease_holder, state_eqb. destruct (jobs s !! id) as [j|] eqn:E; [|done].
  rewrite bool_decide_eq_false_2; auto.
Qed.

Lemma lease_token j j' : lease_of j' = lease_of j → job_lock_token j' = job_lock_token j.
Proof. unfold lease_of. congruence. Qed.

Context `{!ExtLaws X}.

Lemma keeps_holder s s' id t : keeps_leases s s' → lease_holder s id = Some t → lease_holder s' id = Some t.
Proof.
  rewrite !lease_holder_owned. intros K (j & Hj & Ha & Ht). destruct (K id j Hj) as (j' & Hj' & Ha' & Hl); [by split|].
  exists j'. split; [done|]. split; [done|]. by rewrite (lease_token _ _ Hl).
Qed.

Lemma renew_holder s id t l now i : lease_holder (renew s id t l now).1 i = lease_holder s i.
Proof.
  unfold renew. destruct (jobs s !! id) as [j|] eqn:Ej; [|done].
  destruct (require_active j _) as [[]|]; [|done]. destruct (require_lock_token j t) as [[]|]; [|done].
  unfold lease_holder. cbn [fst]. rewrite ?emit_event_frame. simpl.
  destruct (decide (i = id)) as [->|Hn]; [|by rewrite lookup_insert_ne].
  by rewrite lookup_insert_eq, Ej.
Qed.

(** An accepted report. *)
Lemma accepted_report s id t r now s' j' : wf s → report_ok r → report s id t r now = (s', Ok j') →
  lease_holder s id = Some t ∧ lease_holder s' id = None ∧
  ∃ j, job_id j = id ∧ j' = reported j r now.
Proof.
  intros W Hr E. destruct (decide (lease_holder s id = Some t)) as [H|H]; cycle 1.
  { assert (rejected s (report s id t r now)) as [_ HR]; [|by rewrite E in HR].
    apply report_not_owned. intros j Hj Ho. apply H, lease_holder_owned. eauto. }
  split; [done|]. apply lease_holder_owned in H as (j & Hj & Ha & Ht).
  pose proof (report_from s id t r now j W Hr Hj Ha) as [[_ HF]|(_ & HI & HF)]; rewrite E in *; [done|].
  destruct HF as [HF|?]; [|done]. cbn [fst snd] in *. injection HF as ->. split; [|].
  - apply lease_holder_idle. intros k Hk Hka. destruct (inv_active _ _ HI id k Hk Hka) as (k0 & Hk0 & Hka0 & _).
    simpl in Hk0. rewrite lookup_insert_eq in Hk0. injection Hk0 as <-. by apply (reported_idle j r now).
  - exists j. split; [|done]. by apply (wf_lookup s W).
Qed.

Lemma failed_reason j e now b : job_failed_reason (failed_attempt j e now b) = Some e.
Proof. unfold failed_attempt. by destruct (_ && _). Qed.

#[export] Instance memory_lease_laws queue : @LeaseLaws X QueueState (memory_backend queue).
Proof.
  refine {| backend_ok := wf : QueueState → Prop; holder := lease_holder |}.
  - intros s op W Hok. rewrite invoke_exec. by apply wf_exec.
  - intros s op id t W Hok. rewrite invoke_exec. intros (j & Hj & Ha & Ht)%lease_holder_owned.
    destruct (active_origin queue s op id j W Hok Hj Ha)
      as [(j0 & Hj0 & Ha0 & Hl)|[(w & l & now & t' & j0 & -> & _ & _ & _ & _ & Ht')|(t' & l & now & j0 & -> & Hj0 & Ho & ->)]].
    + left. apply lease_holder_owned. exists j0. split; [done|]. split; [done|]. by rewrite <- (lease_token _ _ Hl).
    + right. simpl. congruence.
    + left. apply lease_holder_owned. exists j0. split; [done|]. destruct Ho. by split.
  - intros s op id t W Hok Hs Hh. rewrite invoke_exec.
    destruct (leaves_leases op) eqn:Hl; [by apply (keeps_holder s); [apply keeps_exec|]|].
    destruct op; try done. cbn [exec]. by rewrite renew_holder.
  - intros s w l now t s' j W E. change (JobCore.claim_next s w l now t = (s', Ok (Some j))) in E.
    destruct (claim_cases s w l now t W) as [[_ E']|[(_ & _ & E')|(_ & j1 & Hj1 & Hst & _ & E')]];
      rewrite E' in E; [done|done|].
    injection E as <- <-.
    split_and!; try done.
    + apply lease_holder_owned. exists (claimed_job j1 w t l now). split; [|done].
      rewrite emit_event_frame. simpl. by rewrite lookup_insert_eq.
    + apply lease_holder_idle. intros k Hk Ha. change (job_id (claimed_job j1 w t l now)) with (job_id j1) in Hk.
      destruct (waiting_after_promotion s now _ _ W Hj1 Hst) as (j0 & [Hj0 He] & Hid). rewrite Hid in Hj0.
      rewrite Hj0 in Hk. injection Hk as <-. destruct He as [?|[? _]]; congruence.
  - intros s id t v now uuid s' j W Hu E.
    destruct (accepted_report s id t (RComplete v uuid) now s' j W Hu E) as (H1 & H2 & j0 & H3 & ->). done.
  - intros s id t e now s' j W E.
    destruct (accepted_report s id t (RFail e true) now s' j W I E) as (H1 & H2 & j0 & H3 & ->).
    split_and!; try done; [by rewrite reported_id|apply failed_reason].
  - intros s id t e now s' j W E.
    destruct (accepted_report s id t (RFail e false) now s' j W I E) as (H1 & H2 & j0 & H3 & ->).
    split_and!; try done; by rewrite reported_id.
  - intros s w l b now t. by exists now.
  - intros s rs l now. exact (@default_batch_renews X QueueState (memory_backend queue) rs l now s).
  - intros s id t l now s' j W E. change (renew s id t l now = (s', Ok j)) in E.
    destruct (renew_cases s id t l now) as [[_ [e Hr]]|(j0 & Hj0 & Ho & _)]; [by rewrite E in Hr|].
    apply lease_holder_owned. eauto.
Defined.
End memory.
