(* ===== verification/LocalQueue.v ===== *)
(** * The file-backed job queue ([src/job/local.rs])

    [LocalJobQueue] runs every operation on the in-memory queue and then writes
    the snapshot to a temporary file that it renames over the snapshot file.
    The state of the model is the queue in memory, the disk, and what the next
    writes meet ([Fault]); [serde_json] is the parameter [SnapshotCodec].

    The operating system is modelled by what [tokio::fs] documents: [write]
    replaces the content of a file and may fail half-way, [rename] replaces the
    target in one step.  This file is the queue as one caller at a time sees it;
    what is shared by concurrent callers is in [LocalRace]. *)
From S2P Require Import Prelude Ordering Text External Retry JobTypes JobStore.
From S2P Require Import JobDedup JobFlows JobCore JobQueries JobAdmin JobAdd JobInvariant.
From S2P Require Import JobPreserve JobHandlers JobSubmit JobSnapshot JobSystem JobClaim JobReports JobLeases Backend BackendMemory.
Local Open Scope Z_scope.

(** ** Paths *)

(** Directory, stem and extension of a file name. *)
Record Path := mkPath { path_parent : string; path_stem : string; path_extension : option string }.

#[export] Instance Path_eq_dec : EqDecision Path.
Proof. solve_decision. Defined.
#[export] Instance Path_countable : Countable Path.
Proof.
  refine (inj_countable' (λ p, (path_parent p, path_stem p, path_extension p))
    (λ '(d, n, e), mkPath d n e) _). by intros [].
Defined.

(** [path.with_extension(format!("{}tmp", ...))]. *)
Definition tmp_path (path : Path) : Path :=
  mkPath (path_parent path) (path_stem path)
    (Some (match path_extension path with Some extension => extension +:+ "." | None => EmptyString end +:+ "tmp")).

Lemma append_length a b : String.length (a +:+ b) = (String.length a + String.length b)%nat.
Proof. induction a as [|c a IH]; [done|]. simpl. by rewrite IH. Qed.

Lemma tmp_path_other path : path_extension path ≠ Some "tmp" → tmp_path path ≠ path.
Proof.
  destruct path as [d n [e|]]; unfold tmp_path; simpl; intros _ H; [|done].
  injection H as H. apply (f_equal String.length) in H. rewrite !append_length in H. simpl in H. lia.
Qed.

Section local.
Context {X : Ext}.

(** ** [serde_json] *)
Class SnapshotCodec := {
  Bytes : Type;
  to_vec_pretty : JobQueueSnapshot → outcome string Bytes;
  from_slice : Bytes → outcome string JobQueueSnapshot;
}.

(** A snapshot is read back in its serialized form, if its values are within
    what JSON and the parser represent ([storable]: finite numbers, bounded
    nesting). *)
Class CodecLaws (C : SnapshotCodec) := {
  storable : JobQueueSnapshot → Prop;
  from_to sn data : storable sn → to_vec_pretty sn = Ok data → from_slice data = Ok (stored sn);
}.

Context {C : SnapshotCodec}.

(** ** The disk *)
Abbreviation Disk := (gmap Path Bytes).

(** What a write of the snapshot meets. *)
Inductive Fault : Type :=
| NoFault
| MkdirFails (error : string)
| WriteFails (error : string) (partial : option Bytes)
| RenameFails (error : string).

Record LocalJobQueue := mkLocal {
  inner : QueueState;
  disk : Disk;
  faults : list Fault;
}.
#[export] Instance eta_LocalJobQueue : Eta LocalJobQueue := λ s, mkLocal (inner s) (disk s) (faults s).

Context (queue : string) (path : Path).

Definition next_fault (s : LocalJobQueue) : Fault * list Fault :=
  match faults s with [] => (NoFault, []) | f :: fs => (f, fs) end.

(** [persist_job_snapshot] and [persist] as they run when no other call of the
    queue takes a turn between their awaits.  [LocalRace] splits them at the
    awaits and interleaves them; [LocalRace.serial_calls_refine] shows that
    uninterrupted turns do what is defined here. *)
Definition persist_job_snapshot (fault : Fault) (snapshot : JobQueueSnapshot) (d : Disk) : Disk * Result unit :=
  match fault with
  | MkdirFails error => (d, Err (Other ("failed to create job snapshot directory: " +:+ error)))
  | _ =>
      match to_vec_pretty snapshot with
      | Err error => (d, Err (Other ("failed to encode job snapshot: " +:+ error)))
      | Ok data =>
          match fault with
          | WriteFails error partial =>
              (match partial with Some p => <[ tmp_path path := p ]> d | None => d end,
               Err (Other ("failed to write job snapshot: " +:+ error)))
          | RenameFails error =>
              (<[ tmp_path path := data ]> d, Err (Other ("failed to replace job snapshot: " +:+ error)))
          | _ => (<[ path := data ]> (delete (tmp_path path) d), Ok tt)
          end
      end
  end.

Definition persist (s : LocalJobQueue) : LocalJobQueue * Result unit :=
  let '(fault, rest) := next_fault s in
  let '(d, r) := persist_job_snapshot fault (snapshot queue (inner s)) (disk s) in
  (s <| disk := d |> <| faults := rest |>, r).

(** ** Opening *)
Definition load_job_snapshot (d : Disk) (read_error : option string) : Result (option JobQueueSnapshot) :=
  match read_error with
  | Some error => Err (Other ("failed to read job snapshot: " +:+ error))
  | None =>
      match d !! path with
      | None => Ok None
      | Some data =>
          match from_slice data with
          | Ok snapshot => Ok (Some snapshot)
          | Err error => Err (Other ("failed to decode job snapshot: " +:+ error))
          end
      end
  end.

Definition open (d : Disk) (read_error : option string) (fs : list Fault) : Result LocalJobQueue :=
  let? snapshot := load_job_snapshot d read_error in
  match snapshot with
  | Some snapshot =>
      if String.eqb (sn_queue snapshot) queue then Ok (mkLocal (from_snapshot snapshot) d fs)
      else Err (ConfigError ("snapshot queue '" +:+ sn_queue snapshot +:+ "' does not match requested queue '"
                             +:+ queue +:+ "'"))
  | None => Ok (mkLocal empty_state d fs)
  end.

(** ** Operations *)

(** [let result = self.inner.op().await?; self.persist().await?; Ok(result)]. *)
Definition durably {A} (op : QueueState → QueueState * Result A) : Method LocalJobQueue A := λ s,
  let '(i, r) := op (inner s) in
  let s := s <| inner := i |> in
  let! a := r or s in
  let '(s, p) := persist s in
  let! _ := p or s in
  (s, Ok a).

(** [promote_due_jobs], [recover_stalled_jobs]: written when something happened. *)
Definition durably_if_some (op : QueueState → QueueState * Result nat) : Method LocalJobQueue nat := λ s,
  let '(i, r) := op (inner s) in
  let s := s <| inner := i |> in
  let! n := r or s in
  if (0 <? n)%nat
  then let '(s, p) := persist s in
       let! _ := p or s in
       (s, Ok n)
  else (s, Ok n).

Definition local_obliterate (force : bool) : Method LocalJobQueue nat := λ s,
  let '(i, r) := JobAdmin.obliterate (inner s) force in
  let '(s, p) := persist (s <| inner := i |>) in
  let! _ := p or s in
  (s, r).

Definition local_required : JobQueueRequired LocalJobQueue := {|
  Backend.add_job spec now := durably (λ s, add_at queue s spec now);
  Backend.add_jobs specs now := durably (λ s, add_many_at queue s specs now);
  Backend.add_flow parent children now := durably (λ s, add_flow_at queue s parent children now);
  Backend.add_flow_children pid token children now :=
    durably (λ s, add_flow_children_at queue s pid token children now);
  Backend.get_flow_dependencies s pid := Ok (JobQueries.get_flow_dependencies (inner s) pid);
  Backend.get_flow_dependency_counts s pid := of_parent (inner s) pid flow_dependency_counts;
  Backend.get_flow_dependency_selected_counts s pid kinds :=
    of_parent (inner s) pid (λ p m i, flow_dependency_selected_counts p m i kinds);
  Backend.get_flow_dependency_values s pid := of_parent (inner s) pid flow_dependency_values;
  Backend.get_flow_dependency_page s pid kind cursor count :=
    of_parent (inner s) pid (λ p m i, flow_dependency_page p m i kind cursor count);
  Backend.get_flow_dependency_pages s pid pages :=
    of_parent (inner s) pid (λ p m i, flow_dependency_pages p m i pages);
  Backend.get_flow_children_values s pid := of_parent (inner s) pid flow_children_values;
  Backend.get_flow_ignored_children_failures s pid := of_parent (inner s) pid flow_ignored_children_failures;
  Backend.remove_unprocessed_children pid now := durably (λ s, JobAdmin.remove_unprocessed_children s pid now);
  Backend.remove_child_dependency id now := durably (λ s, JobAdmin.remove_child_dependency s id now);
  Backend.claim_next w l now token := durably (λ s, JobCore.claim_next s w l now token);
  Backend.complete_job id token v now uuid := durably (λ s, JobCore.complete_job s id token v now uuid);
  Backend.fail_job id token e now := durably (λ s, JobCore.fail_job s id token e now);
  Backend.fail_job_discarding_retry id token e now :=
    durably (λ s, JobCore.fail_job_discarding_retry s id token e now);
  Backend.renew_lease id token l now := durably (λ s, renew s id token l now);
  Backend.delay_active_job id token d now := durably (λ s, delay_active s id token d now);
  Backend.release_active_job id token now := durably (λ s, release_active s id token now);
  Backend.promote_job id now := durably (λ s, promote s id now);
  Backend.reschedule_job id d now := durably (λ s, reschedule s id d now);
  Backend.retry_job id now := durably (λ s, retry s id now);
  Backend.update_priority id p := durably (λ s, set_priority s id p);
  Backend.remove_job id now := durably (λ s, remove s id now);
  Backend.remove_repeat key now := durably (λ s, JobAdmin.remove_repeat s key now);
  Backend.remove_deduplication_key d now := durably (λ s, JobAdmin.remove_deduplication_key s d now);
  Backend.get_deduplication_job_id s d now := Ok (JobQueries.get_deduplication_job_id (inner s) d now);
  Backend.list_repeats s := Ok (JobQueries.list_repeats (inner s));
  Backend.upsert_repeat spec now := durably (λ s, JobAdd.upsert_repeat queue s spec now);
  Backend.clean_jobs st grace limit now := durably (λ s, clean s st grace limit now);
  Backend.drain_jobs b clock := durably (λ s, drain s b clock);
  Backend.obliterate force := local_obliterate force;
  Backend.list_jobs s o := Ok (JobQueries.list_jobs (inner s) o);
  Backend.get_job_counts s states := Ok (counts_by_state (inner s) states);
  Backend.get_counts_per_priority s ps := Ok (counts_per_priority (inner s) ps);
  Backend.update_data id v := durably (λ s, set_data s id v);
  Backend.update_progress id v now := durably (λ s, set_progress s id v now);
  Backend.save_stacktrace id st reason := durably (λ s, JobAdmin.save_stacktrace s id st reason);
  Backend.add_log id line keep now := durably (λ s, log s id line keep now);
  Backend.get_job_logs s id start end_ ascending := Ok (get_logs (inner s) id start end_ ascending);
  Backend.clear_job_logs id keep := durably (λ s, clear_logs s id keep);
  Backend.promote_due_jobs now := durably_if_some (λ s, JobCore.promote_due_jobs s now);
  Backend.recover_stalled_jobs now := durably_if_some (λ s, JobCore.recover_stalled_jobs s now);
  Backend.pause now := durably (λ s, JobCore.pause s now);
  Backend.resume now := durably (λ s, JobCore.resume s now);
  Backend.is_paused s := Ok (JobCore.is_paused (inner s));
  Backend.get_job s id := Ok (JobQueries.get_job (inner s) id);
  Backend.get_job_state s id := Ok (get_state (inner s) id);
  Backend.get_job_finished_result s id := Ok (get_finished_result (inner s) id);
  Backend.stats s := Ok (JobQueries.stats (inner s));
|}.

Definition local_backend : JobQueueBackend LocalJobQueue :=
  let _ := local_required in {|
  required := local_required;
  Backend.claim_next_blocking := default_claim_next_blocking;
  Backend.renew_leases := default_renew_leases;
  Backend.update_priority_with_lifo id p lifo := durably (λ s, set_priority_with_lifo s id p lifo);
  Backend.get_repeat := default_get_repeat;
  Backend.count_repeats := default_count_repeats;
  Backend.list_repeats_page := default_list_repeats_page;
  Backend.get_job_count := default_get_job_count;
  Backend.count_pending_jobs := default_count_pending_jobs;
  Backend.read_events s start end_ limit := Ok (JobStore.read_events (inner s) start end_ limit);
  Backend.trim_events n := durably (λ s, JobStore.trim_events s (Z.of_nat n));
|}.
End local.
