(* ===== verification/LocalRules.v ===== *)
(** * The file-backed queue, one call at a time

    The queue in memory runs the handlers of the in-memory queue, so the lease
    laws hold of it; what a call does to the file when no other overlaps it; a
    reopened queue has the jobs but none of the leases.  Durability and crashes
    are in [LocalRace], where calls interleave. *)
From S2P Require Import Prelude Ordering Text External Retry JobTypes JobStore.
From S2P Require Import JobDedup JobFlows JobCore JobQueries JobAdmin JobAdd JobInvariant.
From S2P Require Import JobPreserve JobHandlers JobSubmit JobSnapshot JobSystem JobClaim JobReports JobLeases.
From S2P Require Import Backend BackendMemory LocalQueue.
Local Open Scope Z_scope.

Section rules.
Context {X : Ext} `{!ExtLaws X} {C : SnapshotCodec} `{!CodecLaws C}.
Context (queue : string) (path : Path).
Local Instance backend : JobQueueBackend LocalJobQueue := local_backend queue path.
Local Instance memory : JobQueueBackend QueueState := memory_backend queue.
Local Instance memory_laws : LeaseLaws QueueState := memory_lease_laws queue.
Implicit Types (s : @LocalJobQueue X C) (i : QueueState).

(** ** Memory *)
Lemma persist_inner s : inner (persist queue path s).1 = inner s ∧ faults (persist queue path s).1 = (next_fault s).2.
Proof.
  unfold persist. destruct (next_fault s) as [f rest]. by destruct (persist_job_snapshot path f _ _).
Qed.

Lemma durably_inner {A} (op : QueueState → QueueState * Result A) s :
  inner (durably queue path op s).1 = (op (inner s)).1 ∧
  (is_ok (durably queue path op s).2 = true → (durably queue path op s).2 = (op (inner s)).2).
Proof.
  unfold durably. destruct (op (inner s)) as [i [a|e]]; [|done].
  pose proof (persist_inner (s <| inner := i |>)) as [H _].
  by destruct (persist queue path _) as [s1 [[]|e]].
Qed.

Lemma if_some_inner (op : QueueState → QueueState * Result nat) s :
  inner (durably_if_some queue path op s).1 = (op (inner s)).1.
Proof.
  unfold durably_if_some. destruct (op (inner s)) as [i [n|e]]; [|done].
  pose proof (persist_inner (s <| inner := i |>)) as [H _]. destruct (0 <? n)%nat; [|done].
  by destruct (persist queue path _) as [s1 [[]|e]].
Qed.

Lemma obliterate_inner force s : inner (local_obliterate queue path force s).1 = (JobAdmin.obliterate (inner s) force).1.
Proof.
  unfold local_obliterate. destruct (JobAdmin.obliterate (inner s) force) as [i r].
  pose proof (persist_inner (s <| inner := i |>)) as [H _].
  by destruct (persist queue path _) as [s1 [[]|e]].
Qed.

(** The queue in memory runs the handlers of the in-memory queue. *)
Lemma local_exec s op : inner (invoke s op) = exec queue (inner s) op.
Proof.
  destruct op; try apply durably_inner; try apply if_some_inner; try apply obliterate_inner.
  - by destruct allow_retry; apply durably_inner.
  - by destruct lifo; apply durably_inner.
Qed.

(** An accepted operation was accepted in memory. *)
Lemma durably_ok {A} (op : QueueState → QueueState * Result A) s s' a :
  durably queue path op s = (s', Ok a) → op (inner s) = (inner s', Ok a).
Proof.
  intros E. destruct (durably_inner op s) as [H1 H2]. rewrite E in *. cbn [fst snd] in *.
  rewrite (surjective_pairing (op (inner s))). by rewrite <- H1, <- H2.
Qed.

(** The lease laws hold of the file-backed queue as of the queue in memory. *)
#[export] Instance local_lease_laws : LeaseLaws LocalJobQueue.
Proof.
  refine {| backend_ok := λ s, wf (inner s); holder := λ s, lease_holder (inner s) |}.
  - intros s op W Hok. rewrite local_exec. by apply wf_exec.
  - intros s op id t W Hok. rewrite local_exec, <- invoke_exec. by apply (holder_from (LeaseLaws := memory_laws) (inner s)).
  - intros s op id t W Hok Hs. rewrite local_exec, <- invoke_exec. by apply (holder_stays (LeaseLaws := memory_laws) (inner s)).
  - intros s w l now t s' j W E.
    pose proof (durably_ok (λ i, JobCore.claim_next i w l now t) s s' _ E) as E'.
    by apply (claim_grants (LeaseLaws := memory_laws) (inner s) w l now t).
  - intros s id t v now uuid s' j W Hu E.
    pose proof (durably_ok (λ i, JobCore.complete_job i id t v now uuid) s s' _ E) as E'.
    by apply (complete_consumes (LeaseLaws := memory_laws) (inner s) id t v now uuid).
  - intros s id t e now s' j W E.
    pose proof (durably_ok (λ i, JobCore.fail_job i id t e now) s s' _ E) as E'.
    by apply (fail_consumes (LeaseLaws := memory_laws) (inner s) id t e now).
  - intros s id t e now s' j W E.
    pose proof (durably_ok (λ i, JobCore.fail_job_discarding_retry i id t e now) s s' _ E) as E'.
    by apply (discard_consumes (LeaseLaws := memory_laws) (inner s) id t e now).
  - intros s w l b now t. by exists now.
  - intros s rs l now. exact (@default_batch_renews X LocalJobQueue (local_backend queue path) rs l now s).
  - intros s id t l now s' j W E. pose proof (durably_ok (λ i, renew i id t l now) s s' _ E) as E'.
    by apply (renewal_needs_lease (LeaseLaws := memory_laws) (inner s) id t l now (inner s') j).
Defined.

(** ** Disk *)

(** The queue a process that opens the file finds. *)
Definition reopened (d : gmap Path Bytes) : Result QueueState :=
  let? s := open queue path d None [] in Ok (inner s).

(** The state as it comes back from its serialized form. *)
Definition restored i : QueueState := from_snapshot (stored (snapshot queue i)).

(** The file holds the state in memory. *)
Definition synced s : Prop := reopened (disk s) = Ok (restored (inner s)).

Lemma reopened_data d i data : storable (snapshot queue i) → to_vec_pretty (snapshot queue i) = Ok data →
  d !! path = Some data → reopened d = Ok (restored i).
Proof.
  intros Hst He Hd. unfold reopened, open, load_job_snapshot. rewrite Hd.
  rewrite (from_to _ _ Hst He). cbn. by rewrite String.eqb_refl.
Qed.

Lemma reopened_file d d' : d' !! path = d !! path → reopened d' = reopened d.
Proof.
  intros E. unfold reopened, open, load_job_snapshot. rewrite E.
  destruct (d !! path); [|done]. destruct (from_slice _) as [sn|]; [|done]. cbn.
  by destruct (String.eqb _ _).
Qed.

(** A write: the file has the new content exactly when it succeeded. *)
Lemma persist_spec s : tmp_path path ≠ path →
  let s' := (persist queue path s).1 in
  match (persist queue path s).2 with
  | Ok _ => ∃ data, to_vec_pretty (snapshot queue (inner s)) = Ok data ∧ disk s' !! path = Some data
  | Err _ => disk s' !! path = disk s !! path
  end.
Proof.
  intros Hp. unfold persist, persist_job_snapshot. destruct (next_fault s) as [f rest].
  destruct (to_vec_pretty (snapshot queue (inner s))) as [data|e] eqn:E; [|by destruct f].
  destruct f as [|e|e [p|]|e]; simpl; try by rewrite ?lookup_insert_ne.
  exists data. by rewrite lookup_insert_eq.
Qed.

(** Operations that write the file whenever they are acknowledged. *)
Definition always_writes (op : JobOp) : bool :=
  match op with OpPromoteDue _ | OpRecoverStalled _ => false | _ => true end.

(** After an acknowledged operation the file holds the snapshot of the memory. *)
Definition written s : Prop :=
  ∃ data, to_vec_pretty (snapshot queue (inner s)) = Ok data ∧ disk s !! path = Some data.

(** What an operation started in [s] does to the file: the new snapshot, or the
    old content; and the new snapshot if it was acknowledged after it wrote. *)
Definition writes_file (always : bool) s (p : LocalJobQueue * bool) : Prop :=
  (written p.1 ∨ disk p.1 !! path = disk s !! path) ∧ (always = true → p.2 = true → written p.1).

Lemma persist_writes s i : tmp_path path ≠ path →
  let p := persist queue path (s <| inner := i |>) in
  if is_ok p.2 then written p.1 else disk p.1 !! path = disk s !! path.
Proof.
  intros Hp. pose proof (persist_spec (s <| inner := i |>) Hp) as H.
  pose proof (persist_inner (s <| inner := i |>)) as [Hi _]. unfold written.
  destruct (persist queue path _) as [s1 [[]|e]]; cbn [fst snd is_ok] in *; [|done]. by rewrite Hi.
Qed.

Lemma durably_writes {A} (op : QueueState → QueueState * Result A) s b : tmp_path path ≠ path →
  writes_file b s (ack (durably queue path op s)).
Proof.
  intros Hp. unfold durably, writes_file. destruct (op (inner s)) as [i [a|e]]; [|split; [by right|done]].
  pose proof (persist_writes s i Hp) as H.
  destruct (persist queue path _) as [s1 [[]|e]]; cbn [ack fst snd is_ok] in *; split; auto; done.
Qed.

Lemma if_some_writes (op : QueueState → QueueState * Result nat) s : tmp_path path ≠ path →
  writes_file false s (ack (durably_if_some queue path op s)).
Proof.
  intros Hp. unfold durably_if_some, writes_file. destruct (op (inner s)) as [i [n|e]]; [|split; [by right|done]].
  pose proof (persist_writes s i Hp) as H. destruct (0 <? n)%nat; [|split; [by right|done]].
  destruct (persist queue path _) as [s1 [[]|e]]; cbn [ack fst snd is_ok] in *; split; auto; done.
Qed.

Lemma obliterate_writes force s b : tmp_path path ≠ path → writes_file b s (ack (local_obliterate queue path force s)).
Proof.
  intros Hp. unfold local_obliterate, writes_file. destruct (JobAdmin.obliterate (inner s) force) as [i r].
  pose proof (persist_writes s i Hp) as H.
  destruct (persist queue path _) as [s1 [[]|e]]; cbn [ack fst snd is_ok] in *; split; auto; done.
Qed.

Lemma file_after s op : tmp_path path ≠ path → writes_file (always_writes op) s (perform s op).
Proof.
  intros Hp. destruct op; try by apply durably_writes.
  - by destruct allow_retry; apply durably_writes.
  - by destruct lifo; apply durably_writes.
  - by apply if_some_writes.
  - by apply if_some_writes.
  - by apply obliterate_writes.
Qed.

(** A timer operation that found nothing to do changed nothing. *)
Lemma nothing_due i now : wf i → (JobCore.promote_due_jobs i now).2 = Ok O → (JobCore.promote_due_jobs i now).1 = i.
Proof.
  intros W. unfold JobCore.promote_due_jobs.
  destruct (promote_due_spec i i now (inv_refl i W)) as (_ & _ & Hc & _).
  unfold promote_due_locked in *. destruct (due_jobs i now) as [|j l]; [done|].
  destruct (foldl _ _ _) as [i' n]. cbn [fst snd] in *. by intros [= ->].
Qed.

Lemma nothing_stalled i now : wf i → (JobCore.recover_stalled_jobs i now).2 = Ok O →
  (JobCore.recover_stalled_jobs i now).1 = i.
Proof.
  intros W. destruct (recover_fold_exact i now W) as (Hc & _). unfold JobCore.recover_stalled_jobs.
  destruct (stalled_jobs i now) as [|j l]; [done|].
  destruct (foldl (recover_one now) _ _) as [i' r]. cbn [fst snd] in *. intros [= E]. rewrite Hc in E. done.
Qed.

Lemma written_synced s : storable (snapshot queue (inner s)) → written s → synced s.
Proof. intros Hst (data & He & Hd). unfold synced. by eapply reopened_data. Qed.

(** ** Restarts *)

Lemma open_reopened d fs s' : open queue path d None fs = Ok s' → reopened d = Ok (inner s') ∧ disk s' = d.
Proof.
  unfold reopened, open. destruct (load_job_snapshot path d None) as [[sn|]|e]; [| |done]; cbn.
  - destruct (String.eqb _ _); [|done]. by intros [= <-].
  - by intros [= <-].
Qed.

(** Opening a file revokes every lease.  The queue in memory comes back with
    every job as it was, but the lock tokens are not stored: a job that was
    being processed is still active and nobody holds it, so every renewal and
    every report of the worker that held it is rejected, and its lease expires
    when it would have. *)
Theorem reopening_revokes_leases s s' fs : wf (inner s) → synced s →
  open queue path (disk s) None fs = Ok s' →
  (∀ id, jobs (inner s') !! id = erase_token <$> jobs (inner s) !! id) ∧
  paused (inner s') = paused (inner s) ∧ events (inner s') = events (inner s) ∧
  (∀ id, holder s' id = None) ∧
  (∀ id t r now, rejected (inner s') (report (inner s') id t r now)) ∧
  (∀ id t l now, rejected (inner s') (renew (inner s') id t l now)).
Proof.
  intros W Hs Ho. destruct (open_reopened _ _ _ Ho) as [Hr _]. unfold synced in Hs. rewrite Hr in Hs.
  injection Hs as Hs. unfold restored in Hs. rewrite from_stored, snapshot_roundtrip in Hs by done.
  assert (∀ id, jobs (inner s') !! id = erase_token <$> jobs (inner s) !! id) as Hj
    by (intros; rewrite Hs; unfold forget_tokens; simpl; by rewrite lookup_fmap).
  assert (∀ id t j, jobs (inner s') !! id = Some j → ¬ owned_by j t) as Hno.
  { intros id t j. rewrite Hj. intros (k & _ & ->)%fmap_Some [_ Ht]. done. }
  split_and!; [done|by rewrite Hs..| | |].
  - intros id. change (lease_holder (inner s') id = None). unfold lease_holder. rewrite Hj.
    destruct (jobs (inner s) !! id); [|done]. simpl. by destruct (state_eqb _ _).
  - intros id t r now. apply report_not_owned. apply Hno.
  - intros id t l now. unfold rejected, renew. destruct (jobs (inner s') !! id) as [j|] eqn:Ej; [|done].
    apply guarded_rejected. by eapply Hno.
Qed.
End rules.

(** ** A concrete file *)
Module LocalDemo.
Import Demo.

(** A codec that keeps the serialized form as it is. *)
#[export] Instance demo_codec : @SnapshotCodec demo_ext := {| Bytes := JobQueueSnapshot; to_vec_pretty := λ sn, Ok sn; from_slice := λ sn, Ok (stored sn) |}.
#[export] Instance demo_codec_laws : CodecLaws demo_codec.
Proof. refine {| storable := λ _, True |}. by intros sn data _ [= <-]. Defined.

Definition file : Path := mkPath "/var/lib/lane" "jobs" (Some "json").
#[export] Instance demo_local : JobQueueBackend LocalJobQueue := local_backend "q" file.

(** Three jobs submitted to a new file, and one of them claimed. *)
Definition filled : @LocalJobQueue demo_ext demo_codec := foldl invoke (mkLocal empty_state ∅ []) three_jobs.
Definition claimed_on_disk : @LocalJobQueue demo_ext demo_codec := invoke filled (OpClaim "w1" 30 10 "t1").
Definition refused_submission : @JobOp demo_ext := OpAdd (spec "d" default_options) 20.
End LocalDemo.
Import LocalDemo Demo.

Lemma file_has_temporary : tmp_path file ≠ file.
Proof. by apply tmp_path_other. Qed.

Lemma claimed_reachable : reachable "q" (inner claimed_on_disk).
Proof.
  assert (∀ s op, reachable "q" (inner s) → op_ok op → reachable "q" (inner (invoke s op))) as step.
  { intros s op ? ?. pose proof (local_exec "q" file s op) as E. unfold backend in E.
    change (reachable "q" (inner (@invoke _ _ (local_backend "q" file) s op))). rewrite E. by apply reach_op. }
  apply step; [|done]. unfold filled.
  apply (foldl_keeps_forall (λ s, reachable "q" (inner s)) op_ok); [exact step|exact queue3_ops|constructor].
Qed.

Lemma claim_accepted : (perform filled (OpClaim "w1" 30 10 "t1")).2 = true.
Proof. vm_compute. reflexivity. Qed.

Lemma claimed_synced : synced "q" file claimed_on_disk.
Proof.
  apply written_synced; [done|].
  exact (proj2 (file_after "q" file filled (OpClaim "w1" 30 10 "t1") file_has_temporary) eq_refl claim_accepted).
Qed.

(** The worker that held job ["b"] finds its lease gone after a restart. *)
Lemma reopening_revokes_leases_witness :
  ∃ s', open "q" file (disk claimed_on_disk) None [] = Ok s' ∧
    job_state <$> jobs (inner s') !! "b" = Some Active ∧ holder s' "b" = None.
Proof.
  pose proof claimed_synced as Hs. unfold synced, reopened in Hs.
  destruct (open "q" file (disk claimed_on_disk) None []) as [s'|e] eqn:E; [|discriminate Hs].
  exists s'. split; [reflexivity|].
  destruct (reopening_revokes_leases "q" file claimed_on_disk s' [] (reachable_wf_aux "q" _ claimed_reachable)
    claimed_synced E) as (Hj & _ & _ & Hh & _).
  split; [|apply Hh]. rewrite Hj, <- option_fmap_compose. vm_compute. reflexivity.
Defined.
