(* ===== verification/LocalRace.v ===== *)
(** * Concurrent writers of the file-backed queue ([src/job/local.rs])

    [LocalJobQueue] is cloned and shared, and [persist] runs outside every lock:
    the in-memory queue is locked for the operation and again for the snapshot,
    the file system calls are not covered at all.  Here a call is split where
    the code awaits, and calls are interleaved; in [LocalQueue] a call runs
    alone.  The file system has names and inodes: a writer that opened the
    temporary file keeps writing to it after another writer renamed it.

    As long as no call takes its snapshot while another is between snapshot and
    rename ([exclusive]), acknowledged operations are durable and crashes leave
    a snapshot the queue had; without that, the last writer wins. *)
From S2P Require Import Prelude Ordering Text External Retry JobTypes JobStore.
From S2P Require Import JobDedup JobFlows JobCore JobQueries JobAdmin JobAdd JobInvariant.
From S2P Require Import JobPreserve JobHandlers JobSubmit JobSnapshot JobSystem JobClaim JobReports JobLeases.
From S2P Require Import Backend BackendMemory LocalQueue LocalRules.
Local Open Scope Z_scope.

(** ** The file system *)
Record Volume {B : Type} := mkVolume {
  names : gmap Path nat;
  files : gmap nat B;
  fresh : nat;
}.
Arguments Volume : clear implicits.
#[export] Instance eta_Volume {B} : Eta (Volume B) := λ v, mkVolume B (names v) (files v) (fresh v).

(** What a process that opens files finds. *)
Definition on_disk {B} (v : Volume B) : gmap Path B := omap (λ n, files v !! n) (names v).

(** Contents of files: [blank] is that of a new or truncated file, and
    [overlay old data] what [data] written from the start makes of [old], whose
    tail stays when [data] is shorter. *)
Class FileContents (B : Type) := {
  blank : B;
  overlay : B → B → B;
  overlay_blank data : overlay blank data = data;
}.

(** [File::create]: truncates the file of that name, or makes a new one. *)
Definition create {B} `{!FileContents B} (v : Volume B) (p : Path) : Volume B * nat :=
  match names v !! p with
  | Some n => (v <| files ::= <[ n := blank ]> |>, n)
  | None => (v <| names ::= <[ p := fresh v ]> |> <| files ::= <[ fresh v := blank ]> |> <| fresh ::= S |>, fresh v)
  end.

(** [write_all] on an open file. *)
Definition write_all {B} `{!FileContents B} (v : Volume B) (n : nat) (data : B) : Volume B :=
  v <| files ::= alter (λ old, overlay old data) n |>.

(** [fs::rename]; [false] if there is no file of the old name. *)
Definition rename {B} (v : Volume B) (old new : Path) : Volume B * bool :=
  match names v !! old with
  | Some n => (v <| names ::= λ m, <[ new := n ]> (delete old m) |>, true)
  | None => (v, false)
  end.

Section race.
Context {X : Ext} {C : SnapshotCodec} `{!FileContents Bytes}.
Context (queue : string) (path : Path).
Local Instance memory_instance : JobQueueBackend QueueState := memory_backend queue.

(** ** Calls *)

(** What is left of a call; [ok] is what it returns if nothing fails. *)
Inductive Caller : Type :=
| ToSnapshot (ok : bool)
| ToOpen (ok : bool) (data : Bytes)
| ToWrite (ok : bool) (inode : nat) (data : Bytes)
| ToRename (ok : bool)
| Returned (ok : bool).

Record Shared := mkShared {
  memory : QueueState;
  volume : Volume Bytes;
  callers : gmap nat Caller;
}.
#[export] Instance eta_Shared : Eta Shared := λ s, mkShared (memory s) (volume s) (callers s).

(** The operation under the lock of the in-memory queue: the new state, whether
    the call goes on to write, and what it returns then. *)
Definition operate (i : QueueState) (op : JobOp) : QueueState * bool * bool :=
  match op with
  | OpPromoteDue now =>
      let '(i, r) := JobCore.promote_due_jobs i now in
      (i, match r with Ok n => (0 <? n)%nat | Err _ => false end, is_ok r)
  | OpRecoverStalled now =>
      let '(i, r) := JobCore.recover_stalled_jobs i now in
      (i, match r with Ok n => (0 <? n)%nat | Err _ => false end, is_ok r)
  | OpObliterate force => let '(i, r) := JobAdmin.obliterate i force in (i, true, is_ok r)
  | _ => let '(i, ok) := perform i op in (i, ok, ok)
  end.

Definition start_call (s : Shared) (c : nat) (op : JobOp) : Shared :=
  let '(i, writes, ok) := operate (memory s) op in
  s <| memory := i |> <| callers ::= <[ c := if writes then ToSnapshot ok else Returned ok ]> |>.

(** The next region of a call: up to the next [await]. *)
Definition proceed (s : Shared) (c : nat) : Shared :=
  match callers s !! c with
  | Some (ToSnapshot ok) =>
      s <| callers ::= <[ c := match to_vec_pretty (snapshot queue (memory s)) with
                               | Ok data => ToOpen ok data
                               | Err _ => Returned false
                               end ]> |>
  | Some (ToOpen ok data) =>
      let '(v, n) := create (volume s) (tmp_path path) in
      s <| volume := v |> <| callers ::= <[ c := ToWrite ok n data ]> |>
  | Some (ToWrite ok n data) =>
      s <| volume := write_all (volume s) n data |> <| callers ::= <[ c := ToRename ok ]> |>
  | Some (ToRename ok) =>
      let '(v, renamed) := rename (volume s) (tmp_path path) path in
      s <| volume := v |> <| callers ::= <[ c := Returned (renamed && ok) ]> |>
  | _ => s
  end.

(** A file system call of the caller fails; a failed write may have written a part. *)
Definition meet_fault (s : Shared) (c : nat) (partial : option Bytes) : Shared :=
  match callers s !! c with
  | Some (ToOpen _ _ | ToRename _) => s <| callers ::= <[ c := Returned false ]> |>
  | Some (ToWrite _ n _) =>
      s <| volume := match partial with Some p => write_all (volume s) n p | None => volume s end |>
        <| callers ::= <[ c := Returned false ]> |>
  | _ => s
  end.

Inductive Turn : Type :=
| Start (c : nat) (op : JobOp)
| Proceed (c : nat)
| Breaks (c : nat) (partial : option Bytes).

Definition turn (s : Shared) (t : Turn) : Shared :=
  match t with
  | Start c op => match callers s !! c with None => start_call s c op | Some _ => s end
  | Proceed c => proceed s c
  | Breaks c partial => meet_fault s c partial
  end.

Definition interleave (s : Shared) (l : list Turn) : Shared := foldl turn s l.
End race.

(** ** Volumes *)

(** Every name has a file of its own. *)
Record vol_ok {B} (v : Volume B) : Prop := {
  vol_file p n : names v !! p = Some n → (n < fresh v)%nat ∧ is_Some (files v !! n);
  vol_inj p q n : names v !! p = Some n → names v !! q = Some n → p = q;
}.

Lemma on_disk_lookup {B} (v : Volume B) p : on_disk v !! p = n ← names v !! p; files v !! n.
Proof. unfold on_disk. rewrite lookup_omap. by destruct (names v !! p). Qed.

Lemma create_spec {B} `{!FileContents B} (v : Volume B) p : vol_ok v →
  let '(v', n) := create v p in
  vol_ok v' ∧ names v' !! p = Some n ∧ on_disk v' = <[ p := blank ]> (on_disk v).
Proof.
  intros [Hf Hi]. unfold create. destruct (names v !! p) as [n|] eqn:Ep.
  - split_and!.
    + split; [|exact Hi]. simpl. intros q m Hq. destruct (Hf _ _ Hq) as [? [b Hb]]. split; [done|].
      destruct (decide (m = n)) as [->|]; [rewrite lookup_insert_eq|rewrite lookup_insert_ne by done]; eauto.
    + done.
    + apply map_eq. intros q. destruct (decide (q = p)) as [->|Hne].
      * rewrite lookup_insert_eq, on_disk_lookup. simpl. rewrite Ep. simpl. apply lookup_insert_eq.
      * rewrite lookup_insert_ne, !on_disk_lookup by done. simpl. destruct (names v !! q) as [m|] eqn:Eq; [|done].
        simpl. apply lookup_insert_ne. intros ->. by apply Hne, (Hi q p m).
  - assert (∀ q m, names v !! q = Some m → m ≠ fresh v) as Hlt by (intros q m Hq; destruct (Hf _ _ Hq); lia).
    split_and!.
    + split; simpl.
      * intros q m [[<- <-]|[Hne Hq]]%lookup_insert_Some; [split; [lia|rewrite lookup_insert_eq; eauto]|].
        destruct (Hf _ _ Hq) as [? [b Hb]]. split; [lia|]. rewrite lookup_insert_ne by (by apply not_eq_sym, (Hlt q)). eauto.
      * intros q r m [[<- <-]|[Hq1 Hq]]%lookup_insert_Some [[<- E]|[Hr1 Hr]]%lookup_insert_Some; try done.
        -- by destruct (Hlt _ _ Hr).
        -- subst. by destruct (Hlt _ _ Hq).
        -- by apply (Hi q r m).
    + simpl. apply lookup_insert_eq.
    + apply map_eq. intros q. destruct (decide (q = p)) as [->|Hne].
      * rewrite lookup_insert_eq, on_disk_lookup. simpl. rewrite lookup_insert_eq. simpl. apply lookup_insert_eq.
      * rewrite lookup_insert_ne, !on_disk_lookup by done. simpl. rewrite lookup_insert_ne by done.
        destruct (names v !! q) as [m|] eqn:Eq; [|done]. simpl. apply lookup_insert_ne. by apply not_eq_sym, (Hlt q).
Qed.

Lemma write_all_spec {B} `{!FileContents B} (v : Volume B) p n data : vol_ok v → names v !! p = Some n →
  on_disk v !! p = Some blank →
  vol_ok (write_all v n data) ∧ files (write_all v n data) !! n = Some data ∧
  on_disk (write_all v n data) = <[ p := data ]> (on_disk v).
Proof.
  intros [Hf Hi] Hp Hb. rewrite on_disk_lookup, Hp in Hb. cbn in Hb.
  assert (files (write_all v n data) = <[ n := data ]> (files v)) as E.
  { apply map_eq. intros m. simpl. destruct (decide (m = n)) as [->|].
    - rewrite lookup_alter_eq, lookup_insert_eq, Hb. simpl. by rewrite overlay_blank.
    - by rewrite lookup_alter_ne, lookup_insert_ne. }
  split_and!; [|by rewrite E, lookup_insert_eq|].
  - split; [|exact Hi]. rewrite E. intros q m Hq. destruct (Hf _ _ Hq) as [? [x Hx]]. split; [done|].
    destruct (decide (m = n)) as [->|]; [rewrite lookup_insert_eq|rewrite lookup_insert_ne by done]; eauto.
  - apply map_eq. intros q. rewrite on_disk_lookup, E. change (names (write_all v n data)) with (names v).
    destruct (decide (q = p)) as [->|Hne].
    + rewrite lookup_insert_eq, Hp. simpl. apply lookup_insert_eq.
    + rewrite lookup_insert_ne, on_disk_lookup by done. destruct (names v !! q) as [m|] eqn:Eq; [|done].
      simpl. apply lookup_insert_ne. intros ->. by apply Hne, (Hi q p m).
Qed.

Lemma rename_spec {B} (v : Volume B) p q n : vol_ok v → names v !! p = Some n → p ≠ q →
  let '(v', ok) := rename v p q in
  ok = true ∧ vol_ok v' ∧ ∀ b, files v !! n = Some b → on_disk v' = <[ q := b ]> (delete p (on_disk v)).
Proof.
  intros [Hf Hi] Hp Hne. unfold rename. rewrite Hp. split; [done|]. split.
  - split; simpl.
    + intros r m [[_ <-]|[_ [_ Hr]%lookup_delete_Some]]%lookup_insert_Some; [by apply (Hf p)|by apply (Hf r)].
    + intros r s m [[<- <-]|[? [? Hr]%lookup_delete_Some]]%lookup_insert_Some
        [[<- E]|[? [? Hs]%lookup_delete_Some]]%lookup_insert_Some; simplify_eq; try done;
        [by destruct (Hi p s n)|by destruct (Hi p r m)|by apply (Hi r s m)].
  - intros b Hb. apply map_eq. intros r. rewrite on_disk_lookup. simpl. destruct (decide (r = q)) as [->|Hr].
    + by rewrite !lookup_insert_eq.
    + rewrite !lookup_insert_ne by done. destruct (decide (r = p)) as [->|Hr'].
      * by rewrite !lookup_delete_eq.
      * by rewrite !lookup_delete_ne, on_disk_lookup by done.
Qed.

Section rules.
Context {X : Ext} `{!ExtLaws X} {C : SnapshotCodec} `{!CodecLaws C} `{!FileContents Bytes}.
Context (queue : string) (path : Path).
Local Instance local_instance : JobQueueBackend LocalJobQueue := local_backend queue path.
Implicit Types (s : @Shared X C) (l : @LocalJobQueue X C).
Abbreviation run_turns := (interleave queue path).

(** The queue of [LocalQueue] that a call sees when it runs alone. *)
Definition alone s : LocalJobQueue := mkLocal (memory s) (on_disk (volume s)) [].

(** The call [c], in [s0], has come to its end in [s], and the queue is [l]. *)
Definition ended s0 s c l (ok : bool) : Prop :=
  alone s = l ∧ callers s = <[ c := Returned ok ]> (callers s0) ∧ vol_ok (volume s).

Definition four_turns (c : nat) : list Turn := replicate 4 (Proceed c).

Lemma returned_stays s c ok n : callers s !! c = Some (Returned ok) → run_turns s (replicate n (Proceed c)) = s.
Proof.
  intros Hc. induction n as [|n IH]; [done|]. cbn [replicate interleave foldl].
  assert (turn queue path s (Proceed c) = s) as -> by (cbn [turn]; unfold proceed; by rewrite Hc). exact IH.
Qed.

(** What the next region of a call at [k] does. *)
Definition region s c (k : Caller) : Shared :=
  match k with
  | ToSnapshot ok =>
      s <| callers ::= <[ c := match to_vec_pretty (snapshot queue (memory s)) with
                               | Ok data => ToOpen ok data
                               | Err _ => Returned false
                               end ]> |>
  | ToOpen ok data =>
      s <| volume := (create (volume s) (tmp_path path)).1 |>
        <| callers ::= <[ c := ToWrite ok (create (volume s) (tmp_path path)).2 data ]> |>
  | ToWrite ok n data => s <| volume := write_all (volume s) n data |> <| callers ::= <[ c := ToRename ok ]> |>
  | ToRename ok =>
      s <| volume := (rename (volume s) (tmp_path path) path).1 |>
        <| callers ::= <[ c := Returned ((rename (volume s) (tmp_path path) path).2 && ok) ]> |>
  | Returned _ => s
  end.

Lemma proceed_region s c k : callers s !! c = Some k → proceed queue path s c = region s c k.
Proof.
  intros Hc. unfold proceed. rewrite Hc. destruct k; cbn [region]; [done|by destruct (create _ _)|done|by destruct (rename _ _ _)|done].
Qed.

Lemma next_turn s c k n : callers s !! c = Some k →
  run_turns s (replicate (S n) (Proceed c)) = run_turns (region s c k) (replicate n (Proceed c)).
Proof. intros Hc. cbn [replicate interleave foldl turn]. by rewrite (proceed_region s c k Hc). Qed.

#[local] Arguments interleave : simpl never.

(** A call that writes, alone. *)
Lemma written_alone s c ok : tmp_path path ≠ path → vol_ok (volume s) → callers s !! c = Some (ToSnapshot ok) →
  let '(l, r) := persist queue path (alone s) in
  ended s (run_turns s (four_turns c)) c l (is_ok r && ok).
Proof.
  intros Hp W Hc. unfold four_turns. rewrite (next_turn s c _ 3 Hc).
  unfold persist, persist_job_snapshot. cbn [next_fault alone faults inner disk region].
  destruct (to_vec_pretty (snapshot queue (memory s))) as [data|e]; cycle 1.
  { rewrite (returned_stays _ c false) by (simpl; apply lookup_insert_eq). by split_and!. }
  pose proof (create_spec (volume s) (tmp_path path) W) as HC.
  rewrite (next_turn _ c (ToOpen ok data) 2) by (simpl; apply lookup_insert_eq). cbn [region volume].
  match goal with |- context [create ?v _] => change v with (volume s) end.
  destruct (create (volume s) (tmp_path path)) as [v n]. destruct HC as (W1 & Hn & E1).
  rewrite (next_turn _ c (ToWrite ok n data) 1) by (simpl; apply lookup_insert_eq). cbn [region volume].
  destruct (write_all_spec v (tmp_path path) n data W1 Hn) as (W2 & Hd & E2).
  { rewrite E1. apply lookup_insert_eq. }
  rewrite (next_turn _ c (ToRename ok) 0) by (simpl; apply lookup_insert_eq). cbn [region volume].
  match goal with |- context [rename ?v' _ _] => change v' with (write_all v n data) end.
  pose proof (rename_spec (write_all v n data) (tmp_path path) path n W2 Hn Hp) as HR.
  destruct (rename _ _ _) as [v' r]. destruct HR as (-> & W3 & E3).
  split_and!; [|simpl; by rewrite !insert_insert_eq|exact W3].
  unfold alone. simpl. f_equal. rewrite (E3 data Hd), E2, E1. f_equal.
  by rewrite insert_insert_eq, delete_insert_eq.
Qed.

Lemma ended_start s i c k s' l ok :
  ended (s <| memory := i |> <| callers ::= <[ c := k ]> |>) s' c l ok → ended s s' c l ok.
Proof. intros (? & Hc & ?). split_and!; [done| |done]. rewrite Hc. simpl. by rewrite insert_insert_eq. Qed.

(** A call that returns without a write. *)
Lemma returned_alone s i c ok : vol_ok (volume s) →
  let s1 := s <| memory := i |> <| callers ::= <[ c := Returned ok ]> |> in
  ended s (run_turns s1 (four_turns c)) c ((alone s) <| inner := i |>) ok.
Proof.
  intros W. unfold four_turns. cbn zeta. rewrite (returned_stays _ c ok) by (simpl; apply lookup_insert_eq).
  by split_and!.
Qed.

(** One that writes. *)
Lemma persisted_alone s i c ok : tmp_path path ≠ path → vol_ok (volume s) →
  let s1 := s <| memory := i |> <| callers ::= <[ c := ToSnapshot ok ]> |> in
  let '(l, r) := persist queue path ((alone s) <| inner := i |>) in
  ended s (run_turns s1 (four_turns c)) c l (is_ok r && ok).
Proof.
  intros Hp W s1. pose proof (written_alone s1 c ok Hp W) as H. change ((alone s) <| inner := i |>) with (alone s1).
  destruct (persist queue path (alone s1)) as [l r]. eapply ended_start, H. simpl. apply lookup_insert_eq.
Qed.

(** The three shapes of a call. *)
Lemma durably_alone {A} (op : QueueState → QueueState * Result A) s c (i : QueueState) (b : bool) :
  tmp_path path ≠ path → vol_ok (volume s) → ack (op (memory s)) = (i, b) →
  let s1 := s <| memory := i |> <| callers ::= <[ c := if b then ToSnapshot b else Returned b ]> |> in
  let '(l, ok) := ack (durably queue path op (alone s)) in ended s (run_turns s1 (four_turns c)) c l ok.
Proof.
  intros Hp W E. unfold durably. cbn [inner alone]. destruct (op (memory s)) as [i' r]. unfold ack in E. cbn in E.
  injection E as -> <-. destruct r as [a|e]; cbn [is_ok]; [|by apply returned_alone].
  pose proof (persisted_alone s i c true Hp W) as H.
  by destruct (persist queue path _) as [l [[]|e]].
Qed.

Lemma if_some_alone (op : QueueState → QueueState * Result nat) s c :
  tmp_path path ≠ path → vol_ok (volume s) →
  let '(i, r) := op (memory s) in
  let writes := match r with Ok n => (0 <? n)%nat | Err _ => false end in
  let s1 := s <| memory := i |> <| callers ::= <[ c := if writes then ToSnapshot (is_ok r) else Returned (is_ok r) ]> |> in
  let '(l, ok) := ack (durably_if_some queue path op (alone s)) in ended s (run_turns s1 (four_turns c)) c l ok.
Proof.
  intros Hp W. unfold durably_if_some. cbn [inner alone]. destruct (op (memory s)) as [i r].
  destruct r as [n|e]; [|by apply returned_alone]. destruct (0 <? n)%nat; [|by apply returned_alone]. cbn [is_ok].
  pose proof (persisted_alone s i c true Hp W) as H. by destruct (persist queue path _) as [l [[]|e]].
Qed.

Lemma obliterate_alone force s c : tmp_path path ≠ path → vol_ok (volume s) →
  let '(i, r) := JobAdmin.obliterate (memory s) force in
  let s1 := s <| memory := i |> <| callers ::= <[ c := ToSnapshot (is_ok r) ]> |> in
  let '(l, ok) := ack (local_obliterate queue path force (alone s)) in ended s (run_turns s1 (four_turns c)) c l ok.
Proof.
  intros Hp W. unfold local_obliterate. cbn [inner alone]. destruct (JobAdmin.obliterate (memory s) force) as [i r].
  pose proof (persisted_alone s i c (is_ok r) Hp W) as H. by destruct (persist queue path _) as [l [[]|e]].
Qed.

(** A call that runs alone is atomic. *)
Lemma serial_call s c op : tmp_path path ≠ path → vol_ok (volume s) → callers s !! c = None →
  let '(l, ok) := perform (alone s) op in ended s (run_turns s (Start c op :: four_turns c)) c l ok.
Proof.
  intros Hp W Hc. unfold interleave. cbn [foldl turn]. rewrite Hc. fold (run_turns).
  unfold start_call, operate.
  destruct op; try by (eapply durably_alone; [done|done|apply surjective_pairing]).
  - destruct allow_retry; by (eapply durably_alone; [done|done|apply surjective_pairing]).
  - destruct lifo; by (eapply durably_alone; [done|done|apply surjective_pairing]).
  - pose proof (if_some_alone (λ i, JobCore.promote_due_jobs i now) s c Hp W) as H. cbn beta in H.
    by destruct (JobCore.promote_due_jobs (memory s) now) as [i r].
  - pose proof (if_some_alone (λ i, JobCore.recover_stalled_jobs i now) s c Hp W) as H. cbn beta in H.
    by destruct (JobCore.recover_stalled_jobs (memory s) now) as [i r].
  - pose proof (obliterate_alone force s c Hp W) as H. by destruct (JobAdmin.obliterate (memory s) force) as [i r].
Qed.


(** Calls that run one after the other, numbered from [c]. *)
Fixpoint serial (c : nat) (ops : list JobOp) : list Turn :=
  match ops with
  | [] => []
  | op :: ops => Start c op :: four_turns c ++ serial (S c) ops
  end.

Fixpoint perform_all l (ops : list JobOp) : LocalJobQueue * list bool :=
  match ops with
  | [] => (l, [])
  | op :: ops => let '(l, ok) := perform l op in let '(l, oks) := perform_all l ops in (l, ok :: oks)
  end.

(** C17: calls that exclude each other are atomic.  Started on a file system
    where every name has a file of its own, calls that run one after the other
    through all their regions leave memory and disk as the atomic operations
    of [LocalQueue] do, and every call returns what the operation returns. *)
Theorem serial_calls_refine s c ops : tmp_path path ≠ path → vol_ok (volume s) →
  (∀ d, (c ≤ d)%nat → callers s !! d = None) →
  let s' := run_turns s (serial c ops) in
  let '(l, oks) := perform_all (alone s) ops in
  alone s' = l ∧ vol_ok (volume s') ∧
  ∀ k ok, oks !! k = Some ok → callers s' !! (c + k)%nat = Some (Returned ok).
Proof.
  intros Hp. cbn zeta. enough (∀ ops s c, vol_ok (volume s) → (∀ d, (c ≤ d)%nat → callers s !! d = None) →
    let s' := run_turns s (serial c ops) in
    let '(l, oks) := perform_all (alone s) ops in
    alone s' = l ∧ vol_ok (volume s') ∧ (∀ d, (d < c)%nat → callers s' !! d = callers s !! d) ∧
    ∀ k ok, oks !! k = Some ok → callers s' !! (c + k)%nat = Some (Returned ok)) as HG.
  { intros W Hc. specialize (HG ops s c W Hc). cbn zeta in HG.
    destruct (perform_all (alone s) ops) as [l oks]. destruct HG as (? & ? & _ & ?). by split_and!. }
  clear s c ops. intros ops. induction ops as [|op ops IH]; intros s c W Hc; [done|].
  cbn [serial perform_all]. rewrite app_comm_cons. unfold interleave. rewrite foldl_app.
  pose proof (serial_call s c op Hp W (Hc c (le_n c))) as H. destruct (perform (alone s) op) as [l ok].
  destruct H as (<- & Hk & W1). unfold interleave in Hk, W1. fold run_turns.
  set (s1 := foldl (turn queue path) s (Start c op :: four_turns c)) in *.
  specialize (IH s1 (S c) W1). cbn zeta in IH. 
  assert (∀ d, (S c ≤ d)%nat → callers s1 !! d = None) as Hc1.
  { intros d Hd. rewrite Hk, lookup_insert_ne by lia. apply Hc. lia. }
  specialize (IH Hc1).
  change (alone (run_turns s (Start c op :: four_turns c))) with (alone s1).
  destruct (perform_all (alone s1) ops) as [l' oks]. destruct IH as (E & W2 & Hlow & Hk2). split_and!; [done|done| |].
  - intros d Hd. etransitivity; [apply Hlow; lia|]. rewrite Hk, lookup_insert_ne by lia. done.
  - intros [|k] b; cbn [lookup list_lookup].
    + intros [= <-]. rewrite Nat.add_0_r. etransitivity; [apply Hlow; lia|]. rewrite Hk. apply lookup_insert_eq.
    + intros Hb. rewrite Nat.add_succ_r. by apply (Hk2 k b).
Qed.
End rules.

(** ** Calls that exclude each other from the file *)
Lemma write_all_ok {B} `{!FileContents B} (v : Volume B) n data : vol_ok v → vol_ok (write_all v n data).
Proof.
  intros [Hf Hi]. split; [|exact Hi]. intros p m Hp. destruct (Hf p m Hp) as [? [b Hb]]. split; [done|]. simpl.
  destruct (decide (m = n)) as [->|]; [rewrite lookup_alter_eq, Hb|rewrite lookup_alter_ne by done]; simpl; eauto.
Qed.

(** A write to the file of another name. *)
Lemma write_all_other {B} `{!FileContents B} (v : Volume B) n data p q :
  vol_ok v → names v !! p = Some n → p ≠ q → on_disk (write_all v n data) !! q = on_disk v !! q.
Proof.
  intros [_ Hi] Hp Hne. rewrite !on_disk_lookup. simpl. destruct (names v !! q) as [m|] eqn:Eq; [|done]. simpl.
  apply lookup_alter_ne. intros ->. by destruct (Hi p q m).
Qed.

Section exclusion.
Context {X : Ext} `{!ExtLaws X} {C : SnapshotCodec} `{!CodecLaws C} `{!FileContents Bytes}.
Context (queue : string) (path : Path).
Implicit Types (s : @Shared X C) (l : list (@Turn X C)).
Abbreviation run_turns := (interleave queue path).
Abbreviation tmp := (tmp_path path).

(** A call between its snapshot and its rename. *)
Definition in_flight (k : Caller) : bool := match k with ToOpen _ _ | ToWrite _ _ _ | ToRename _ => true | _ => false end.

(** No call takes its snapshot while another is in flight: what a lock around
    [persist] would ensure. *)
Definition may_turn s (t : @Turn X C) : bool :=
  match t with
  | Proceed c =>
      match callers s !! c with
      | Some (ToSnapshot _) => forallb (λ p, negb (in_flight p.2)) (map_to_list (callers s))
      | _ => true
      end
  | _ => true
  end.

Fixpoint exclusive s l : bool :=
  match l with [] => true | t :: l => may_turn s t && exclusive (turn queue path s t) l end.

Definition sane (t : @Turn X C) : Prop := match t with Start _ op => op_ok op | _ => True end.

Lemma operate_memory (i : QueueState) op : (operate queue i op).1.1 = exec queue i op.
Proof.
  rewrite <- (invoke_exec queue i op). unfold invoke. destruct op; cbn [operate];
    try (by destruct (perform _ _)); unfold ack; simpl.
  - by destruct (JobCore.promote_due_jobs _ _).
  - by destruct (JobCore.recover_stalled_jobs _ _).
  - by destruct (JobAdmin.obliterate _ _).
Qed.

(** A call that returns at once, with success, is a timer that found nothing. *)
Lemma operate_idle (i : QueueState) op : wf i → (operate queue i op).1.2 = false → (operate queue i op).2 = true →
  always_writes op = false ∧ exec queue i op = i.
Proof.
  intros W. pose proof (nothing_due i) as Hd. pose proof (nothing_stalled i) as Hs.
  destruct op; cbn [operate]; try (destruct (perform _ _) as [? []]; done).
  - specialize (Hd now W). cbn [exec]. destruct (JobCore.promote_due_jobs i now) as [i' [[|n]|e]]; try done. auto.
  - specialize (Hs now W). cbn [exec]. destruct (JobCore.recover_stalled_jobs i now) as [i' [[|n]|e]]; try done. auto.
  - by destruct (JobAdmin.obliterate _ _).
Qed.

(** *** One life of the process *)
Context (s0 : @Shared X C).
Abbreviation after l := (run_turns s0 l).

(** [data] is the snapshot of the memory after the turns [l]. *)
Definition moment l (data : Bytes) : Prop := to_vec_pretty (snapshot queue (memory (after l))) = Ok data.

(** Within [l], [c] was a timer that found nothing to do and changed nothing. *)
Definition idle l (c : nat) : Prop :=
  ∃ l1 op l2, l = l1 ++ Start c op :: l2 ∧ always_writes op = false ∧
    memory (after (l1 ++ [Start c op])) = memory (after l1).

(** Every call acknowledged within [l] had run its operation after [l1]. *)
Definition covers l l1 : Prop :=
  l1 `prefix_of` l ∧
  ∀ c, callers (after l) !! c = Some (Returned true) → is_Some (callers (after l1) !! c) ∨ idle l c.

(** What a call in flight has of [data]. *)
Definition carries (v : Volume Bytes) (k : Caller) (data : Bytes) : Prop :=
  match k with
  | ToOpen _ d => d = data
  | ToWrite _ n d => d = data ∧ names v !! tmp = Some n ∧ files v !! n = Some blank
  | ToRename _ => ∃ n, names v !! tmp = Some n ∧ files v !! n = Some data
  | _ => False
  end.

Definition flies l c (k : Caller) : Prop :=
  ∃ l1 data, covers l l1 ∧ is_Some (callers (after l1) !! c) ∧ moment l1 data ∧ carries (volume (after l)) k data.

Definition file_kept l (v : Volume Bytes) : Prop :=
  ∃ l1, covers l l1 ∧
    (l1 = [] ∧ on_disk v !! path = on_disk (volume s0) !! path ∨ ∃ data, moment l1 data ∧ on_disk v !! path = Some data).

Record kept l : Prop := {
  kp_vol : vol_ok (volume (after l));
  kp_wf : wf (memory (after l));
  kp_one c d k k' : callers (after l) !! c = Some k → callers (after l) !! d = Some k' →
    in_flight k = true → in_flight k' = true → c = d;
  kp_flight c k : callers (after l) !! c = Some k → in_flight k = true → flies l c k;
  kp_file : file_kept l (volume (after l));
}.

Lemma after_snoc l t : after (l ++ [t]) = turn queue path (after l) t.
Proof. unfold interleave. by rewrite foldl_app. Qed.

Lemma idle_snoc l t c : idle l c → idle (l ++ [t]) c.
Proof. intros (l1 & op & l2 & -> & ? & ?). exists l1, op, (l2 ++ [t]). by rewrite <- (assoc_L (++)). Qed.

Lemma covers_refl l : covers l l.
Proof. split; [done|]. intros c ->. left. eauto. Qed.

(** The turn [t] moves [c] to [k]. *)
Lemma covers_snoc l l1 t c k : covers l l1 → callers (after (l ++ [t])) = <[ c := k ]> (callers (after l)) →
  (k = Returned true → is_Some (callers (after l1) !! c) ∨ idle (l ++ [t]) c) → covers (l ++ [t]) l1.
Proof.
  intros [[l2 ->] Hc] E Hk. split; [exists (l2 ++ [t]); by rewrite <- (assoc_L (++))|]. rewrite E.
  intros d [[<- ?]|[Hne Hd]]%lookup_insert_Some; [by apply Hk|]. destruct (Hc d Hd); [by left|]. right. by apply idle_snoc.
Qed.

Lemma kept_same l t : kept l → turn queue path (after l) t = after l → kept (l ++ [t]).
Proof.
  intros [Hv Hw H1 Hf Hk] E. rewrite <- after_snoc in E.
  assert (∀ l1, covers l l1 → covers (l ++ [t]) l1) as Hcov.
  { intros l1 [[l2 ->] Hc]. split; [exists (l2 ++ [t]); by rewrite <- (assoc_L (++))|]. rewrite E.
    intros d Hd. destruct (Hc d Hd); [by left|]. right. by apply idle_snoc. }
  split; rewrite ?E; try done.
  - intros c k Hc Hin. destruct (Hf c k Hc Hin) as (l1 & data & ? & ? & ? & ?). exists l1, data. rewrite E. eauto 6.
  - destruct Hk as (l1 & ? & ?). exists l1. eauto.
Qed.

(** [c] moves, not in flight, and the disk stays. *)
Lemma kept_quiet l t c k : kept l → wf (memory (after (l ++ [t]))) →
  callers (after (l ++ [t])) = <[ c := k ]> (callers (after l)) → volume (after (l ++ [t])) = volume (after l) →
  in_flight k = false → (k = Returned true → idle (l ++ [t]) c) → kept (l ++ [t]).
Proof.
  intros [Hv Hw H1 Hf Hk] Hw' E Ev Hn Hi.
  assert (∀ l1, covers l l1 → covers (l ++ [t]) l1) as Hcov.
  { intros l1 H. eapply covers_snoc; [done|done|]. intros. right. by apply Hi. }
  split; rewrite ?E, ?Ev; try done.
  - intros d d' kd kd' [[-> ->]|[? ?]]%lookup_insert_Some [[<- ->]|[? ?]]%lookup_insert_Some ? ?; try congruence. by eapply H1.
  - intros d kd [[-> ->]|[? Hd]]%lookup_insert_Some ?; [congruence|].
    destruct (Hf d kd) as (l1 & data & ? & ? & ? & ?); [done..|]. exists l1, data. rewrite Ev. eauto 6.
  - destruct Hk as (l1 & ? & ?). exists l1. eauto.
Qed.

(** No call but [c] is in flight. *)
Definition only l c : Prop := ∀ d k, callers (after l) !! d = Some k → in_flight k = true → d = c.

Lemma kept_moves l t c k : kept l → only l c → callers (after (l ++ [t])) = <[ c := k ]> (callers (after l)) →
  vol_ok (volume (after (l ++ [t]))) → memory (after (l ++ [t])) = memory (after l) →
  (in_flight k = true → flies (l ++ [t]) c k) → file_kept (l ++ [t]) (volume (after (l ++ [t]))) → kept (l ++ [t]).
Proof.
  intros [Hv Hw H1 Hf Hk] Ho E Hv' Em Hfl Hfile. split; rewrite ?Em; try done.
  - rewrite E. intros d d' kd kd' [[-> ->]|[? ?]]%lookup_insert_Some [[<- ->]|[? ?]]%lookup_insert_Some ? ?; try done.
    + symmetry. by eapply Ho.
    + by eapply Ho.
    + by eapply H1.
  - rewrite E. intros d kd [[-> ->]|[Hne Hd]]%lookup_insert_Some Hin; [by apply Hfl|]. by destruct Hne; symmetry; eapply Ho.
Qed.

(** ... and the file stays: its moment is as good as before unless [c] succeeds. *)
Lemma file_stays l t c k : kept l → callers (after (l ++ [t])) = <[ c := k ]> (callers (after l)) → k ≠ Returned true →
  on_disk (volume (after (l ++ [t]))) !! path = on_disk (volume (after l)) !! path →
  file_kept (l ++ [t]) (volume (after (l ++ [t]))).
Proof.
  intros [_ _ _ _ (l1 & Hc & Hf)] E Hk Ev. exists l1. rewrite Ev. split; [|done]. by eapply covers_snoc.
Qed.

Lemma only_flying l c k : kept l → callers (after l) !! c = Some k → in_flight k = true → only l c.
Proof. intros K Hc Hin d kd Hd Hdin. by eapply (kp_one l K). Qed.

(** Starting a call. *)
Lemma kept_start l c op : kept l → op_ok op → kept (l ++ [Start c op]).
Proof.
  intros K Hok. destruct (callers (after l) !! c) as [k|] eqn:Ec.
  { apply kept_same; [done|]. cbn [turn]. by rewrite Ec. }
  pose proof (after_snoc l (Start c op)) as E. cbn [turn] in E. rewrite Ec in E. unfold start_call in E.
  pose proof (operate_memory (memory (after l)) op) as Em. pose proof (operate_idle _ op (kp_wf l K)) as Hi.
  destruct (operate queue _ op) as [[i writes] ok]. cbn [fst snd] in *.
  eapply (kept_quiet l _ c); [done|rewrite E; simpl; rewrite Em; by apply wf_exec, Hok; apply (kp_wf l K)
    |rewrite E; reflexivity|rewrite E; reflexivity|by destruct writes|].
  destruct writes; [done|]. intros [= ->]. destruct (Hi eq_refl eq_refl) as [Hw Hx].
  exists l, op, []. split_and!; [done|done|]. rewrite E. simpl. congruence.
Qed.

(** A call takes its snapshot, when no other is in flight. *)
Lemma kept_snapshot l c ok : kept l → callers (after l) !! c = Some (ToSnapshot ok) → 
  (∀ d k, callers (after l) !! d = Some k → in_flight k = false) → kept (l ++ [Proceed c]).
Proof.
  intros K Hc Hnone. pose proof (after_snoc l (Proceed c)) as E. cbn [turn] in E. unfold proceed in E. rewrite Hc in E.
  destruct (to_vec_pretty _) as [data|e] eqn:Ed.
  - assert (only l c) as Ho by (intros d k Hd Hin; by rewrite (Hnone d k Hd) in Hin).
    eapply kept_moves; [done|done|rewrite E; reflexivity|rewrite E; apply K|by rewrite E| |].
    + intros _. exists l, data. split_and!; [|by rewrite Hc|done|done].
      eapply covers_snoc; [apply covers_refl|rewrite E; reflexivity|done].
    + eapply file_stays; [done|rewrite E; reflexivity|done|by rewrite E].
  - eapply kept_quiet; [done|rewrite E; apply K|rewrite E; reflexivity|by rewrite E|done|done].
Qed.

Hypothesis apart : tmp ≠ path.

(** A call in flight goes on. *)
Lemma kept_create l c ok data : kept l → callers (after l) !! c = Some (ToOpen ok data) → kept (l ++ [Proceed c]).
Proof.
  intros K Hc. pose proof (after_snoc l (Proceed c)) as E. cbn [turn] in E. unfold proceed in E. rewrite Hc in E.
  pose proof (create_spec (volume (after l)) tmp (kp_vol l K)) as HC. destruct (create _ _) as [v n].
  destruct HC as (Hv & Hn & Ed).
  destruct (kp_flight l K c _ Hc eq_refl) as (l1 & d & Hcov & Hbeg & Hm & Hcar). cbn [carries] in Hcar. subst d.
  eapply kept_moves; [done|by eapply only_flying|rewrite E; reflexivity|by rewrite E|by rewrite E| |].
  - intros _. exists l1, data. split_and!; [by eapply covers_snoc; [|rewrite E; reflexivity|]|done|done|].
    rewrite E. simpl. split_and!; [done|done|]. 
    assert (on_disk v !! tmp = Some blank) as Hb by (rewrite Ed; apply lookup_insert_eq).
    rewrite on_disk_lookup, Hn in Hb. exact Hb.
  - eapply file_stays; [done|rewrite E; reflexivity|done|]. rewrite E. simpl. rewrite Ed. by apply lookup_insert_ne.
Qed.

Lemma kept_write l c ok n data : kept l → callers (after l) !! c = Some (ToWrite ok n data) → kept (l ++ [Proceed c]).
Proof.
  intros K Hc. pose proof (after_snoc l (Proceed c)) as E. cbn [turn] in E. unfold proceed in E. rewrite Hc in E.
  destruct (kp_flight l K c _ Hc eq_refl) as (l1 & d & Hcov & Hbeg & Hm & <- & Hn & Hb).
  destruct (write_all_spec (volume (after l)) tmp n data (kp_vol l K) Hn) as (Hv & Hd & Ed).
  { by rewrite on_disk_lookup, Hn. }
  eapply kept_moves; [done|by eapply only_flying|rewrite E; reflexivity|by rewrite E|by rewrite E| |].
  - intros _. exists l1, data. split_and!; [by eapply covers_snoc; [|rewrite E; reflexivity|]|done|done|].
    rewrite E. by exists n.
  - eapply file_stays; [done|rewrite E; reflexivity|done|]. rewrite E. simpl. rewrite Ed. by apply lookup_insert_ne.
Qed.

Lemma kept_rename l c ok : kept l → callers (after l) !! c = Some (ToRename ok) → kept (l ++ [Proceed c]).
Proof.
  intros K Hc. pose proof (after_snoc l (Proceed c)) as E. cbn [turn] in E. unfold proceed in E. rewrite Hc in E.
  destruct (kp_flight l K c _ Hc eq_refl) as (l1 & data & Hcov & Hbeg & Hm & n & Hn & Hb).
  pose proof (rename_spec (volume (after l)) tmp path n (kp_vol l K) Hn apart) as HR.
  destruct (rename _ _ _) as [v r]. destruct HR as (-> & Hv & Ed).
  eapply kept_moves; [done|by eapply only_flying|rewrite E; reflexivity|by rewrite E|by rewrite E|done|].
  exists l1. split; [eapply covers_snoc; [done|rewrite E; reflexivity|by left]|].
  right. exists data. split; [done|]. rewrite E. simpl. rewrite (Ed data Hb). apply lookup_insert_eq.
Qed.

Lemma kept_breaks l c partial : kept l → kept (l ++ [Breaks c partial]).
Proof.
  intros K. pose proof (after_snoc l (Breaks c partial)) as E. cbn [turn] in E. unfold meet_fault in E.
  destruct (callers (after l) !! c) as [k|] eqn:Hc; [|apply kept_same; [done|]; cbn [turn]; unfold meet_fault; by rewrite Hc].
  destruct k as [ok|ok data|ok n data|ok|ok]; try (apply kept_same; [done|]; cbn [turn]; unfold meet_fault; by rewrite Hc);
    try (eapply kept_quiet; [done|rewrite E; apply K|rewrite E; reflexivity|by rewrite E|done|done]).
  destruct (kp_flight l K c _ Hc eq_refl) as (l1 & d & Hcov & Hbeg & Hm & _ & Hn & Hb).
  eapply kept_moves; [done|by eapply only_flying|rewrite E; reflexivity| |by rewrite E|done|].
  - rewrite E. simpl. destruct partial; [apply write_all_ok|]; apply K.
  - eapply file_stays; [done|rewrite E; reflexivity|done|]. rewrite E. simpl. destruct partial; [|done].
    apply (write_all_other _ _ _ tmp); [apply K|done|exact apart].
Qed.

Lemma none_in_flight s c ok : may_turn s (Proceed c) = true → callers s !! c = Some (ToSnapshot ok) →
  ∀ d k, callers s !! d = Some k → in_flight k = false.
Proof.
  cbn [may_turn]. intros H Hc d k Hd. rewrite Hc in H. rewrite forallb_forall in H.
  apply negb_true_iff, (H (d, k)), list_elem_of_In, elem_of_map_to_list, Hd.
Qed.

Lemma kept_turn l t : kept l → sane t → may_turn (after l) t = true → kept (l ++ [t]).
Proof.
  intros K Hs Hx. destruct t as [c op|c|c partial]; [by apply kept_start| |by apply kept_breaks].
  destruct (callers (after l) !! c) as [[ok|ok data|ok n data|ok|ok]|] eqn:Hc;
    try (apply kept_same; [done|]; cbn [turn]; unfold proceed; by rewrite Hc).
  - eapply kept_snapshot; [done..|]. by eapply none_in_flight.
  - by eapply kept_create.
  - by eapply kept_write.
  - by eapply kept_rename.
Qed.

Lemma kept_run l : vol_ok (volume s0) → callers s0 = ∅ → wf (memory s0) → Forall sane l → exclusive s0 l = true → kept l.
Proof.
  intros Hv Hc W. assert (kept []) as K0.
  { assert (∀ c, callers (after []) !! c = None) as Hn by (intros c; change (callers s0 !! c = None); by rewrite Hc, lookup_empty).
    split; [done|done| | |].
    - intros c d k k' H. by rewrite Hn in H.
    - intros c k H. by rewrite Hn in H.
    - exists []. split; [apply covers_refl|by left]. }
  enough (∀ l2 l1, kept l1 → Forall sane l2 → exclusive (after l1) l2 = true → kept (l1 ++ l2)) as H
    by (intros; by apply (H l [])).
  clear l. induction l2 as [|t l2 IH]; intros l1 K Hs Hx; [by rewrite app_nil_r|].
  inversion Hs as [|? ? Ht Hs']; subst. cbn [exclusive] in Hx. apply andb_true_iff in Hx as [Hx Hx'].
  change (t :: l2) with ([t] ++ l2). rewrite (assoc_L (++)). apply IH; [|done|by rewrite after_snoc].
  by apply kept_turn.
Qed.

(** C7: an acknowledged operation is durable.  Calls are shared among tasks and
    interleave at every await, file system calls may fail, and the only
    assumption is that no call takes its snapshot while another is between its
    own snapshot and its rename.  Then, at every moment of the process, the file
    is the serialization of the memory as it was at some earlier moment [l1], or
    is the file the process started with, and every call acknowledged so far had
    run its operation by that moment; but for the timers that found nothing to
    do, which changed nothing. *)
Theorem acknowledged_is_durable l : vol_ok (volume s0) → callers s0 = ∅ → wf (memory s0) →
  Forall sane l → exclusive s0 l = true →
  ∃ l1, l1 `prefix_of` l ∧
    (l1 = [] ∧ on_disk (volume (after l)) !! path = on_disk (volume s0) !! path ∨
     ∃ data, to_vec_pretty (snapshot queue (memory (after l1))) = Ok data ∧
       on_disk (volume (after l)) !! path = Some data) ∧
    ∀ c, callers (after l) !! c = Some (Returned true) → is_Some (callers (after l1) !! c) ∨ idle l c.
Proof.
  intros Hv Hc W Hs Hx. destruct (kp_file l (kept_run l Hv Hc W Hs Hx)) as (l1 & [Hp Hcov] & Hf). by exists l1.
Qed.

(** What a crash leaves of the volume: all of it, with a write cut short. *)
Definition torn s (v : Volume Bytes) : Prop :=
  v = volume s ∨
  ∃ c ok n data partial, callers s !! c = Some (ToWrite ok n data) ∧ v = write_all (volume s) n partial.

(** The volume when the process dies in the next write of [c], if that is what it does next. *)
Definition cut_short s (c : nat) (partial : Bytes) : Volume Bytes :=
  match callers s !! c with Some (ToWrite _ n _) => write_all (volume s) n partial | _ => volume s end.

Lemma torn_cut_short s c partial : torn s (cut_short s c partial).
Proof. unfold cut_short, torn. destruct (callers s !! c) as [[]|] eqn:E; eauto 10. Qed.

(** A process that has just opened the file. *)
Record starting s : Prop := {
  st_vol : vol_ok (volume s);
  st_callers : callers s = ∅;
  st_reachable : reachable queue (memory s);
  st_opened : reopened queue path (on_disk (volume s)) = Ok (memory s);
}.

Lemma reachable_turn s t : sane t → reachable queue (memory s) → reachable queue (memory (turn queue path s t)).
Proof.
  destruct t as [c op|c|c partial]; cbn [turn]; intros Hs Hr.
  - destruct (callers s !! c); [done|]. unfold start_call. pose proof (operate_memory (memory s) op) as Em.
    destruct (operate _ _ _) as [[i w] ok]. cbn [fst snd] in Em. simpl. rewrite Em. by apply reach_op.
  - unfold proceed. destruct (callers s !! c) as [[]|]; try done.
    + by destruct (create _ _).
    + by destruct (rename _ _ _).
  - unfold meet_fault. by destruct (callers s !! c) as [[]|].
Qed.

Lemma reachable_after l : Forall sane l → reachable queue (memory s0) → reachable queue (memory (after l)).
Proof.
  intros Hs Hr. unfold interleave. apply (foldl_keeps_forall (λ s, reachable queue (memory s)) sane); [|done|done].
  intros s t ? ?. by apply reachable_turn.
Qed.

(** C16: no crash loses the queue.  Under the same assumption, and wherever
    the process dies, inside a write included, what is left of the volume holds
    at the path either the file the process started with or exactly the bytes of
    a snapshot of a state the queue had since; the next process starts from a
    reachable state under the same conditions, provided the parser reads that
    one snapshot back ([storable]). *)
Theorem crash_consistent l v : starting s0 → Forall sane l → exclusive s0 l = true → torn (after l) v →
  (on_disk v !! path = on_disk (volume s0) !! path ∧ starting (mkShared (memory s0) v ∅)) ∨
  ∃ l1 data, l1 `prefix_of` l ∧ to_vec_pretty (snapshot queue (memory (after l1))) = Ok data ∧
    on_disk v !! path = Some data ∧
    (storable (snapshot queue (memory (after l1))) → starting (mkShared (restored queue (memory (after l1))) v ∅)).
Proof.
  intros [Hv Hc Hr Ho] Hs Hx Ht. pose proof (kept_run l Hv Hc (reachable_wf_aux _ _ Hr) Hs Hx) as K.
  assert (vol_ok v ∧ on_disk v !! path = on_disk (volume (after l)) !! path) as [Hv' E].
  { destruct Ht as [->|(c & ok & n & data & partial & Hcl & ->)]; [split; [apply K|done]|].
    destruct (kp_flight l K c _ Hcl eq_refl) as (l1 & d & _ & _ & _ & _ & Hn & _).
    split; [apply write_all_ok, K|]. by apply (write_all_other _ _ _ tmp); [apply K|..]. }
  destruct (kp_file l K) as (l1 & [[l2 El] _] & [[-> Ef]|(data & Hm & Ef)]); rewrite <- E in Ef.
  - left. split; [done|]. split; simpl; [done|done|done|]. by rewrite (reopened_file queue path _ _ Ef).
  - right. exists l1, data. split_and!; [by exists l2|done|done|]. intros Hst. split; simpl; [done|done| |].
    + apply reach_reopen, reachable_after; [|done]. rewrite El in Hs. by apply Forall_app in Hs as [? _].
    + by eapply reopened_data.
Qed.
End exclusion.

(** ** Without exclusion *)
Section stale.
Context {X : Ext} `{!ExtLaws X} {C : SnapshotCodec} `{!FileContents Bytes}.
Context (queue : string) (path : Path).
Implicit Types (s : @Shared X C) (l : list (@Turn X C)).
Abbreviation run_turns := (interleave queue path).

Definition turn_of (t : @Turn X C) : nat := match t with Start c _ | Proceed c | Breaks c _ => c end.

Lemma vol_ok_turn s t : tmp_path path ≠ path → vol_ok (volume s) → vol_ok (volume (turn queue path s t)).
Proof.
  intros Hp Hv. destruct t as [c op|c|c partial]; cbn [turn].
  - destruct (callers s !! c); [done|]. unfold start_call. by destruct (operate _ _ _) as [[i w] ok].
  - unfold proceed. destruct (callers s !! c) as [[]|]; try done.
    + pose proof (create_spec (volume s) (tmp_path path) Hv) as H. destruct (create _ _) as [v n]. apply H.
    + by apply write_all_ok.
    + destruct (names (volume s) !! tmp_path path) as [n|] eqn:En.
      * pose proof (rename_spec (volume s) (tmp_path path) path n Hv En Hp) as H. destruct (rename _ _ _) as [v r]. apply H.
      * unfold rename. by rewrite En.
  - unfold meet_fault. destruct (callers s !! c) as [[]|]; try done. destruct partial; [by apply write_all_ok|done].
Qed.

Lemma other_turn s t c : turn_of t ≠ c → callers (turn queue path s t) !! c = callers s !! c.
Proof.
  destruct t as [d op|d|d partial]; cbn [turn turn_of]; intros Hne.
  - destruct (callers s !! d); [done|]. unfold start_call. destruct (operate _ _ _) as [[i w] ok].
    by apply lookup_insert_ne.
  - unfold proceed. destruct (callers s !! d) as [[]|]; try done; try (by apply lookup_insert_ne).
    + destruct (create _ _). by apply lookup_insert_ne.
    + destruct (rename _ _ _). by apply lookup_insert_ne.
  - unfold meet_fault. destruct (callers s !! d) as [[]|]; try done; by apply lookup_insert_ne.
Qed.

Lemma other_turns s l c : tmp_path path ≠ path → vol_ok (volume s) → Forall (λ t, turn_of t ≠ c) l →
  vol_ok (volume (run_turns s l)) ∧ callers (run_turns s l) !! c = callers s !! c.
Proof.
  intros Hp Hv H. revert s Hv. induction H as [|t l Ht _ IH]; intros s Hv; [done|].
  destruct (IH (turn queue path s t)) as [? E]; [by apply vol_ok_turn|]. split; [done|]. cbn [interleave foldl].
  etransitivity; [exact E|]. by apply other_turn.
Qed.

Lemma started_writes s c op : callers s !! c = None → (operate queue (memory s) op).1.2 = true →
  callers (run_turns s [Start c op]) !! c = Some (ToSnapshot (operate queue (memory s) op).2) ∧
  volume (run_turns s [Start c op]) = volume s.
Proof.
  intros Hc Hw. cbn [interleave foldl turn]. rewrite Hc. unfold start_call.
  destruct (operate queue (memory s) op) as [[i w] ok]. cbn [fst snd] in *. subst w. split; [apply lookup_insert_eq|done].
Qed.

(** A call that writes its snapshot without a pause. *)
Lemma writes_snapshot s c ok data : tmp_path path ≠ path → vol_ok (volume s) → callers s !! c = Some (ToOpen ok data) →
  let s' := run_turns s (replicate 3 (Proceed c)) in
  callers s' = <[ c := Returned ok ]> (callers s) ∧ on_disk (volume s') !! path = Some data ∧ memory s' = memory s.
Proof.
  intros Hp Hv Hc. cbn zeta. rewrite (next_turn queue path s c _ 2 Hc). cbn [region].
  pose proof (create_spec (volume s) (tmp_path path) Hv) as HC. destruct (create _ _) as [v n].
  destruct HC as (Hv1 & Hn & E1). cbn [fst snd].
  rewrite (next_turn queue path _ c (ToWrite ok n data) 1) by (simpl; apply lookup_insert_eq). cbn [region].
  destruct (write_all_spec v (tmp_path path) n data Hv1 Hn) as (Hv2 & Hd & E2); [rewrite E1; apply lookup_insert_eq|].
  rewrite (next_turn queue path _ c (ToRename ok) 0) by (simpl; apply lookup_insert_eq). cbn [region].
  pose proof (rename_spec (write_all v n data) (tmp_path path) path n Hv2 Hn Hp) as HR. simpl.
  destruct (rename _ _ _) as [v' r]. destruct HR as (-> & _ & E3). simpl. split_and!; [|rewrite (E3 data Hd); apply lookup_insert_eq|done].
  by rewrite !insert_insert_eq.
Qed.

(** C29: without exclusion, acknowledged operations are lost.  Let a call take
    its snapshot, then let the other calls take any turns, starting, writing and
    returning as they please, and let the call write its file: it is
    acknowledged, all that the others were told stays, and the file is the
    snapshot taken before all of it, for any operations and any queue. *)
Theorem stale_snapshot_wins s c ok data l : tmp_path path ≠ path → vol_ok (volume s) →
  callers s !! c = Some (ToSnapshot ok) → to_vec_pretty (snapshot queue (memory s)) = Ok data →
  Forall (λ t, turn_of t ≠ c) l →
  let s1 := run_turns s (Proceed c :: l) in
  let s2 := run_turns s1 (replicate 3 (Proceed c)) in
  callers s2 = <[ c := Returned ok ]> (callers s1) ∧ memory s2 = memory s1 ∧
  on_disk (volume s2) !! path = Some data.
Proof.
  intros Hp Hv Hc Hd Hl. cbn zeta.
  assert (callers (turn queue path s (Proceed c)) !! c = Some (ToOpen ok data)) as Hc1.
  { cbn [turn]. unfold proceed. rewrite Hc, Hd. apply lookup_insert_eq. }
  destruct (other_turns (turn queue path s (Proceed c)) l c Hp) as [Hv2 E]; [by apply vol_ok_turn|done|].
  rewrite Hc1 in E. destruct (writes_snapshot _ c ok data Hp Hv2 E) as (? & ? & ?). by split_and!.
Qed.
End stale.

(** ** Concrete races *)
Module RaceDemo.
Import Demo.

(** Bytes as numbered blocks: a snapshot takes one block and one per job, and
    the parser refuses a file that is cut short or goes on too long. *)
Definition blocks (sn : @JobQueueSnapshot demo_ext) : list (nat * @JobQueueSnapshot demo_ext) :=
  imap (λ k _, (k, sn)) (tt :: ((λ _, tt) <$> sn_jobs sn)).

#[export] Instance block_codec : @SnapshotCodec demo_ext := {|
  Bytes := list (nat * @JobQueueSnapshot demo_ext);
  to_vec_pretty := λ sn, Ok (blocks sn);
  from_slice := λ data,
    match data with
    | (O, sn) :: _ =>
        if (length data <? length (blocks sn))%nat then Err "EOF while parsing a value"
        else if (length (blocks sn) <? length data)%nat then Err "trailing characters" else Ok (stored sn)
    | _ => Err "EOF while parsing a value"
    end;
|}.
#[export] Instance block_codec_laws : CodecLaws block_codec.
Proof.
  refine {| storable := λ _, True |}. intros sn data _ [= <-]. cbn [from_slice block_codec].
  change (blocks sn) with ((O, sn) :: imap (λ k _, (S k, sn)) ((λ _, tt) <$> sn_jobs sn)). cbn iota.
  change ((O, sn) :: imap (λ k _, (S k, sn)) ((λ _, tt) <$> sn_jobs sn)) with (blocks sn).
  by rewrite Nat.ltb_irrefl.
Defined.
#[export] Instance block_contents : FileContents (@Bytes demo_ext block_codec).
Proof. by refine {| blank := []; overlay := λ old data, data ++ drop (length data) old |}; intros data; rewrite drop_nil, app_nil_r. Defined.

Definition file : Path := mkPath "/var/lib/lane" "jobs" (Some "json").
Definition new_queue : @Shared demo_ext block_codec := mkShared empty_state (mkVolume _ ∅ ∅ 0) ∅.
Definition add (id : string) (now : DateTime) : @JobOp demo_ext := OpAdd (spec id default_options) now.
Abbreviation race := (interleave "q" file).

(** Whether a process that opens the file finds the job; [None] if it cannot
    read the file. *)
Definition found (s : @Shared demo_ext block_codec) (id : string) : option bool :=
  match reopened "q" file (on_disk (volume s)) with Ok i => Some (is_some (jobs i !! id)) | Err _ => None end.
Definition returned (s : @Shared demo_ext block_codec) (c : nat) : option bool :=
  match callers s !! c with Some (Returned ok) => Some ok | _ => None end.

(** The snapshot of the first call is written after that of the second. *)
Definition late_writer : list (@Turn demo_ext block_codec) :=
  [Start 0 (add "a" 0); Proceed 0; Start 1 (add "b" 1); Proceed 1; Proceed 1; Proceed 1; Proceed 1;
   Proceed 0; Proceed 0; Proceed 0].
(** The second call truncates the temporary file that the first then renames. *)
Definition truncated_rename : list (@Turn demo_ext block_codec) :=
  [Start 0 (add "a" 0); Proceed 0; Proceed 0; Proceed 0; Start 1 (add "b" 1); Proceed 1; Proceed 1; Proceed 0].
(** Both have opened the temporary file when the longer snapshot is written,
    and the shorter one over it. *)
Definition two_writers : list (@Turn demo_ext block_codec) :=
  [Start 0 (add "a" 0); Proceed 0; Start 1 (add "b" 1); Proceed 1; Proceed 1; Proceed 0;
   Proceed 1; Proceed 0; Proceed 0].
End RaceDemo.
Import RaceDemo Demo.

(** Three interleavings in which both submissions are acknowledged and lost
    or unreadable: the file keeps only the first when its writer is the later
    one; a call renames a file that another has just truncated; a shorter
    snapshot is written over the longer one of a writer of the same file. *)
Example races_lose_data :
  (let s := race new_queue late_writer in
   returned s 0 = Some true ∧ returned s 1 = Some true ∧ found s "a" = Some true ∧ found s "b" = Some false) ∧
  (let s := race new_queue truncated_rename in returned s 0 = Some true ∧ found s "a" = None) ∧
  (let s := race new_queue two_writers in returned s 0 = Some true ∧ found s "a" = None).
Proof. split_and!; vm_compute; split_and!; reflexivity. Qed.

Lemma file_apart : tmp_path file ≠ file.
Proof. by apply tmp_path_other. Qed.

Lemma new_queue_starts : starting "q" file new_queue.
Proof. split; [by split; simpl; intros ??; rewrite lookup_empty|done|constructor|]. unfold reopened, open, load_job_snapshot. reflexivity. Qed.

(** The second call is started while the first is in flight, and writes after it. *)
Definition excluding : list (@Turn demo_ext block_codec) :=
  [Start 0 (add "a" 0); Proceed 0; Proceed 0; Start 1 (add "b" 1); Proceed 0; Proceed 0; Proceed 1; Proceed 1;
   Proceed 1; Proceed 1].

Lemma excluding_sane : Forall sane excluding.
Proof. repeat constructor; discriminate. Qed.

Lemma acknowledged_is_durable_witness :
  returned (race new_queue excluding) 1 = Some true ∧
  ∃ l1, l1 `prefix_of` excluding ∧
    ∀ c, callers (race new_queue excluding) !! c = Some (Returned true) →
      is_Some (callers (race new_queue l1) !! c) ∨ idle "q" file new_queue excluding c.
Proof.
  split; [vm_compute; reflexivity|].
  destruct (acknowledged_is_durable "q" file new_queue file_apart excluding) as (l1 & ? & _ & ?).
  - apply new_queue_starts.
  - reflexivity.
  - apply wf_empty.
  - apply excluding_sane.
  - vm_compute. reflexivity.
  - by exists l1.
Defined.

(** The process dies inside the write of the second call. *)
Lemma crash_consistent_witness :
  let s := race new_queue (take 8 excluding) in let v := cut_short s 1 [] in
  (on_disk v !! file = on_disk (volume new_queue) !! file ∧ starting "q" file (mkShared (memory new_queue) v ∅)) ∨
  ∃ l1 data, l1 `prefix_of` take 8 excluding ∧
    to_vec_pretty (snapshot "q" (memory (race new_queue l1))) = Ok data ∧ on_disk v !! file = Some data.
Proof.
  cbn zeta. destruct (crash_consistent "q" file new_queue file_apart (take 8 excluding)
    (cut_short (race new_queue (take 8 excluding)) 1 [])) as [H|(l1 & data & Hp & Hm & Hd & _)].
  - exact new_queue_starts.
  - apply Forall_take, excluding_sane.
  - vm_compute. reflexivity.
  - apply torn_cut_short.
  - left. exact H.
  - right. exists l1, data. split; [exact Hp|split; [exact Hm|exact Hd]].
Defined.

(** The late writer: what the second call was told is not in the file. *)
Lemma stale_snapshot_wins_witness :
  let s := race new_queue [Start 0 (add "a" 0)] in
  let l := [Start 1 (add "b" 1); Proceed 1; Proceed 1; Proceed 1; Proceed 1] in
  let s1 := race s (Proceed 0 :: l) in let s2 := race s1 (replicate 3 (Proceed 0)) in
  returned s1 1 = Some true ∧ found s2 "b" = Some false ∧ callers s2 = <[ 0%nat := Returned true ]> (callers s1) ∧
  on_disk (volume s2) !! file = Some (blocks (snapshot "q" (memory s))).
Proof.
  cbn zeta. split; [vm_compute; reflexivity|split; [vm_compute; reflexivity|]].
  destruct (started_writes "q" file new_queue 0 (add "a" 0)) as [Hc Hv]; [reflexivity|vm_compute; reflexivity|].
  assert ((operate "q" (memory new_queue) (add "a" 0)).2 = true) as E by (vm_compute; reflexivity). rewrite E in Hc.
  assert (vol_ok (volume (race new_queue [Start 0 (add "a" 0)]))) as Hok by (rewrite Hv; apply new_queue_starts).
  destruct (stale_snapshot_wins "q" file (race new_queue [Start 0 (add "a" 0)]) 0 true
    (blocks (snapshot "q" (memory (race new_queue [Start 0 (add "a" 0)]))))
    [Start 1 (add "b" 1); Proceed 1; Proceed 1; Proceed 1; Proceed 1] file_apart Hok Hc eq_refl) as (H1 & _ & H2).
  - repeat constructor; discriminate.
  - split; [exact H1|exact H2].
Defined.

Lemma serial_calls_refine_witness :
  let s := race new_queue (serial 0 [add "a" 0; add "b" 1]) in
  returned s 0 = Some true ∧ returned s 1 = Some true ∧ found s "b" = Some true ∧
  alone s = (@perform_all demo_ext block_codec "q" file (alone new_queue) [add "a" 0; add "b" 1]).1.
Proof.
  split; [vm_compute; reflexivity|split; [vm_compute; reflexivity|split; [vm_compute; reflexivity|]]].
  pose proof (serial_calls_refine "q" file new_queue 0 [add "a" 0; add "b" 1]) as H. cbn zeta in H.
  destruct (perform_all "q" file (alone new_queue) _) as [l oks].
  destruct H as (E & _).
  - by apply tmp_path_other.
  - by split; simpl; intros ??; rewrite lookup_empty.
  - intros d _. simpl. apply lookup_empty.
  - exact E.
Defined.
