(* ===== verification/Worker.v ===== *)
(** * The job worker ([src/job/worker.rs])

    [JobWorkerConfig], [JobProcessorRouter], [JobContext] and [JobWorker] over
    any backend.

    A processor is user code: a program of calls on its context that ends with
    a result, [Proc].  Several jobs may be in progress in one worker (its
    loops), each in a slot of the state; every region of code between two
    awaits is one function, and [wexec] runs one region, so that any
    interleaving of the loops, the lease renewers and other clients of the
    backend is a list of actions.  The flags a job shares with its lease
    renewer and with the worker's lease table ([Arc<AtomicBool>]) are fields of
    the slot, which the lease table refers to by the number of the slot.
    [run_once] and [run_until_idle] are compositions of the same functions. *)
From S2P Require Import Prelude Ordering Text External Retry JobTypes JobStore.
From S2P Require Import JobFlows JobQueries JobAdd JobSystem Backend.
Local Open Scope Z_scope.

Section worker.
Context {X : Ext}.

(** ** Configuration *)
Record JobWorkerConfig := mkWorkerConfig {
  wc_worker_id : string;
  wc_concurrency : nat;
  wc_lease_duration : Duration;
  wc_lease_renew_interval : Duration;
  wc_poll_interval : Duration;
  wc_blocking_claim_timeout : Duration;
  wc_stalled_check_interval : Duration;
  wc_recover_stalled : bool;
  wc_log_retention : nat;
}.
#[export] Instance eta_JobWorkerConfig : Eta JobWorkerConfig := λ c,
  mkWorkerConfig (wc_worker_id c) (wc_concurrency c) (wc_lease_duration c) (wc_lease_renew_interval c)
    (wc_poll_interval c) (wc_blocking_claim_timeout c) (wc_stalled_check_interval c)
    (wc_recover_stalled c) (wc_log_retention c).

Definition worker_config_new (worker_id : string) : JobWorkerConfig :=
  mkWorkerConfig worker_id 1 (from_secs 30) (from_secs 10) (from_millis 250) (from_secs 5) (from_secs 30)
    true 1000.

Definition with_concurrency (c : JobWorkerConfig) (n : nat) : JobWorkerConfig :=
  c <| wc_concurrency := Nat.max n 1 |>.
Definition with_lease_duration (c : JobWorkerConfig) (d : Duration) : JobWorkerConfig :=
  c <| wc_lease_duration := d |>.
Definition with_lease_renew_interval (c : JobWorkerConfig) (d : Duration) : JobWorkerConfig :=
  c <| wc_lease_renew_interval := d |>.
Definition with_recover_stalled (c : JobWorkerConfig) (b : bool) : JobWorkerConfig :=
  c <| wc_recover_stalled := b |>.
Definition with_log_retention (c : JobWorkerConfig) (keep : nat) : JobWorkerConfig :=
  c <| wc_log_retention := keep |>.

Definition lease_renewal_enabled (c : JobWorkerConfig) : bool :=
  negb (is_zero_duration (wc_lease_renew_interval c)) && (wc_lease_renew_interval c <? wc_lease_duration c).

(** ** Processors *)

(** The methods of [JobContext] that reach the backend. *)
Inductive ContextCall : Type :=
| UpdateData (payload : Value)
| UpdateProgress (progress : Value)
| AddLog (line : string)
| RenewLease.

Inductive Proc : Type :=
| Return (r : Result Value)
| Call (c : ContextCall) (k : Result Job → Proc)
| DiscardRetry (k : Proc)
| HasLostLease (k : bool → Proc).

(** What a processor can read from its context. *)
Record JobContext := { cx_job_id : string; cx_worker_id : string; cx_lock_token : string }.

Definition JobProcessor : Type := Job → JobContext → Proc.

Record JobProcessorRouter := mkRouter {
  processors : gmap string JobProcessor;
  default_processor : option JobProcessor;
}.
#[export] Instance eta_JobProcessorRouter : Eta JobProcessorRouter := λ r,
  mkRouter (processors r) (default_processor r).

Definition router_new : JobProcessorRouter := mkRouter ∅ None.
Definition register_processor (r : JobProcessorRouter) (name : string) (p : JobProcessor) : JobProcessorRouter :=
  r <| processors ::= <[ name := p ]> |>.
Definition register_default_processor (r : JobProcessorRouter) (p : JobProcessor) : JobProcessorRouter :=
  r <| default_processor := Some p |>.
Definition contains_processor (r : JobProcessorRouter) (name : string) : bool :=
  is_some (processors r !! name).

Definition route (r : JobProcessorRouter) : JobProcessor := λ job context,
  match match processors r !! job_name job with Some p => Some p | None => default_processor r end with
  | Some p => p job context
  | None => Return (Err (ConfigError ("no processor registered for job `" +:+ job_name job +:+ "`")))
  end.

(** ** Jobs in progress *)
Inductive JobRunOutcome : Type :=
| RunCompleted (j : Job)
| RunFailed (j : Job)
| NoJob.

Inductive LeaseRenewalMode : Type := PerJob | SharedWorker.

Inductive Stage : Type :=
| Running (p : Proc)                       (* inside the processor *)
| Finalizing (r : Result Value)            (* the lease was held after the processor *)
| Stopping (outcome : Result JobRunOutcome).

(** The locals of [process_claimed_with_mode]. *)
Record Task := mkTask {
  tk_job_id : string;
  tk_lock_token : string;
  tk_timeout : option Duration;
  tk_mode : LeaseRenewalMode;
  tk_lease_lost : bool;                    (* Arc<AtomicBool> *)
  tk_discard_retry : bool;                 (* Arc<AtomicBool> *)
  tk_renewer : bool;                       (* the spawned lease renewer is alive *)
  tk_stage : Stage;
}.
#[export] Instance eta_Task : Eta Task := λ t,
  mkTask (tk_job_id t) (tk_lock_token t) (tk_timeout t) (tk_mode t) (tk_lease_lost t) (tk_discard_retry t)
    (tk_renewer t) (tk_stage t).

Inductive Slot : Type :=
| Claimed (mode : LeaseRenewalMode) (job : Job)
| Working (t : Task)
| Finished (outcome : Result JobRunOutcome).

Record ActiveJobLease := { al_lock_token : string; al_lease_lost : nat }.

(** Where [lease_renewal_loop] is. *)
Inductive RenewalLoop : Type :=
| Sleeping
| Renewing (renewals : list JobLeaseRenewal)
| Marking (failed : list string)
| Exited.

Section backend.
Context {S : Type} `{!JobQueueBackend S}.

Record JobWorker := mkWorker {
  store : S;
  active_leases : gmap string ActiveJobLease;
  slots : gmap nat Slot;
  renewal_loop : RenewalLoop;
  is_shutdown : bool;
}.
#[export] Instance eta_JobWorker : Eta JobWorker := λ w,
  mkWorker (store w) (active_leases w) (slots w) (renewal_loop w) (is_shutdown w).

Definition worker_new (s : S) : JobWorker := mkWorker s ∅ ∅ Sleeping false.

Definition put_slot (w : JobWorker) (i : nat) (x : Slot) : JobWorker := w <| slots ::= <[ i := x ]> |>.
Definition put_task (w : JobWorker) (i : nat) (t : Task) : JobWorker := put_slot w i (Working t).
Definition finish (w : JobWorker) (i : nat) (r : Result JobRunOutcome) : JobWorker := put_slot w i (Finished r).

Context (cfg : JobWorkerConfig) (processor : JobProcessor).

(** *** [JobContext] *)
Definition lost_lease_error (t : Task) : LaneError :=
  JobLeaseConflict ("worker " +:+ wc_worker_id cfg +:+ " lost lease for job " +:+ tk_job_id t).

Definition ensure_lease (t : Task) : Result unit :=
  if tk_lease_lost t then Err (lost_lease_error t) else Ok tt.

(** Without the check of the flag: the call on the backend. *)
Definition backend_call (t : Task) (c : ContextCall) (now : DateTime) : Method S Job :=
  match c with
  | UpdateData payload => update_data (tk_job_id t) payload
  | UpdateProgress progress => update_progress (tk_job_id t) progress now
  | AddLog line => add_log (tk_job_id t) line (wc_log_retention cfg) now
  | RenewLease => renew_lease (tk_job_id t) (tk_lock_token t) (wc_lease_duration cfg) now
  end.

(** A failed renewal marks the lease as lost. *)
Definition loses_lease (c : ContextCall) (r : Result Job) : bool :=
  match c, r with RenewLease, Err _ => true | _, _ => false end.

Definition context_call (s : S) (t : Task) (c : ContextCall) (now : DateTime) : S * Task * Result Job :=
  match ensure_lease t with
  | Err e => (s, t, Err e)
  | Ok _ =>
      let '(s, r) := backend_call t c now s in
      (s, if loses_lease c r then t <| tk_lease_lost := true |> else t, r)
  end.

(** *** The lease table *)
Definition register_active_lease (w : JobWorker) (job_id token : string) (flag : nat) : JobWorker :=
  w <| active_leases ::= <[ job_id := {| al_lock_token := token; al_lease_lost := flag |} ]> |>.

Definition unregister_active_lease (w : JobWorker) (job_id : string) : JobWorker :=
  w <| active_leases ::= delete job_id |>.

Definition active_lease_renewals (w : JobWorker) : list JobLeaseRenewal :=
  (λ e, {| rn_job_id := e.1; rn_lock_token := al_lock_token e.2 |}) <$> hash_iter (active_leases w).

Definition set_lost (w : JobWorker) (i : nat) : JobWorker :=
  match slots w !! i with
  | Some (Working t) => put_task w i (t <| tk_lease_lost := true |>)
  | _ => w
  end.

Definition mark_lost_one (acc : JobWorker * nat) (job_id : string) : JobWorker * nat :=
  match active_leases acc.1 !! job_id with
  | Some lease => (set_lost acc.1 (al_lease_lost lease), Datatypes.S acc.2)
  | None => acc
  end.

Definition mark_lost_leases (w : JobWorker) (job_ids : list string) : JobWorker * nat :=
  foldl mark_lost_one (w, O) job_ids.

(** *** The regions of [process_claimed_with_mode] *)
Definition map_outcome (f : Job → JobRunOutcome) (r : Result Job) : Result JobRunOutcome :=
  let? j := r in Ok (f j).

(** From the entry to the start of the processor, or to the report of a
    deferred failure. *)
Definition begin_claimed (w : JobWorker) (i : nat) (mode : LeaseRenewalMode) (job : Job) (now : DateTime)
    : JobWorker :=
  match job_lock_token job with
  | None => finish w i (Err (JobLeaseConflict ("claimed job " +:+ job_id job +:+ " has no lock token")))
  | Some token =>
      match job_deferred_failure job with
      | Some deferred_failure =>
          let '(s, r) := fail_job_discarding_retry (job_id job) token deferred_failure now (store w) in
          finish (w <| store := s |>) i (map_outcome RunFailed r)
      | None =>
          let context := {| cx_job_id := job_id job; cx_worker_id := wc_worker_id cfg; cx_lock_token := token |} in
          let t := mkTask (job_id job) token (opt_timeout (job_options job)) mode false false
                     (match mode with PerJob => lease_renewal_enabled cfg | SharedWorker => false end)
                     (Running (processor job context)) in
          let w := match mode with
                   | PerJob => w
                   | SharedWorker => register_active_lease w (job_id job) token i
                   end in
          put_task w i t
      end
  end.

(** One call of the processor. *)
Definition proc_step (w : JobWorker) (i : nat) (t : Task) (p : Proc) (now : DateTime) : JobWorker :=
  match p with
  | Return _ => w
  | Call c k =>
      let '(s, t, r) := context_call (store w) t c now in
      put_task (w <| store := s |>) i (t <| tk_stage := Running (k r) |>)
  | DiscardRetry k => put_task w i (t <| tk_discard_retry := true |> <| tk_stage := Running k |>)
  | HasLostLease k => put_task w i (t <| tk_stage := Running (k (tk_lease_lost t)) |>)
  end.

(** [tokio::time::timeout] gives up on the processor. *)
Definition time_out (w : JobWorker) (i : nat) (t : Task) : JobWorker :=
  match tk_timeout t with
  | Some d => put_task w i (t <| tk_stage := Running (Return (Err (Timeout_ d))) |>)
  | None => w
  end.

(** One round of the job's own lease renewer. *)
Definition renew_tick (w : JobWorker) (i : nat) (t : Task) (now : DateTime) : JobWorker :=
  if tk_renewer t then
    let '(s, t, r) := context_call (store w) t RenewLease now in
    put_task (w <| store := s |>) i (if is_ok r then t else t <| tk_renewer := false |>)
  else w.

(** [if context.has_lost_lease()] after the processor. *)
Definition judge (w : JobWorker) (i : nat) (t : Task) (r : Result Value) : JobWorker :=
  put_task w i (t <| tk_stage :=
    if tk_lease_lost t
    then Stopping (Err (JobLeaseConflict ("worker " +:+ wc_worker_id cfg +:+ " lost lease for job "
                                          +:+ tk_job_id t +:+ " before finalizing")))
    else Finalizing r |>).

Definition discards_retry (t : Task) (error : LaneError) : bool :=
  tk_discard_retry t || is_unrecoverable_job error.

Definition final_report (t : Task) (r : Result Value) (now : DateTime) (uuid : string) (s : S)
    : S * Result JobRunOutcome :=
  match r with
  | Ok value =>
      let '(s, r) := complete_job (tk_job_id t) (tk_lock_token t) value now uuid s in
      (s, map_outcome RunCompleted r)
  | Err error =>
      let '(s, r) :=
        if discards_retry t error
        then fail_job_discarding_retry (tk_job_id t) (tk_lock_token t) (error_to_string error) now s
        else fail_job (tk_job_id t) (tk_lock_token t) (error_to_string error) now s in
      (s, map_outcome RunFailed r)
  end.

Definition finalize (w : JobWorker) (i : nat) (t : Task) (r : Result Value) (now : DateTime) (uuid : string)
    : JobWorker :=
  let '(s, outcome) := final_report t r now uuid (store w) in
  put_task (w <| store := s |>) i (t <| tk_stage := Stopping outcome |>).

(** [stop_lease_renewal], and the return. *)
Definition stop (w : JobWorker) (i : nat) (t : Task) (outcome : Result JobRunOutcome) : JobWorker :=
  let w := match tk_mode t with
           | PerJob => w
           | SharedWorker => unregister_active_lease w (tk_job_id t)
           end in
  finish w i outcome.

(** *** The lease renewal loop *)
Definition collect_renewals (w : JobWorker) : JobWorker :=
  match active_lease_renewals w with
  | [] => if is_shutdown w then w <| renewal_loop := Exited |> else w
  | renewals => w <| renewal_loop := Renewing renewals |>
  end.

Definition renew_batch (w : JobWorker) (renewals : list JobLeaseRenewal) (now : DateTime) : JobWorker :=
  let '(s, r) := renew_leases renewals (wc_lease_duration cfg) now (store w) in
  w <| store := s |> <| renewal_loop := Marking (match r with Ok failed => failed | Err _ => rn_job_id <$> renewals end) |>.

Definition mark_batch (w : JobWorker) (failed : list string) : JobWorker :=
  (mark_lost_leases w failed).1 <| renewal_loop := Sleeping |>.

(** ** Interleavings *)
Inductive WorkerAction : Type :=
| APromoteDue (now : DateTime)
| AClaim (i : nat) (mode : LeaseRenewalMode) (block_for : option Duration) (now : DateTime) (token : string)
| ABegin (i : nat) (now : DateTime)
| AProc (i : nat) (now : DateTime)
| ATimeout (i : nat)
| ARenewTick (i : nat) (now : DateTime)
| AJudge (i : nat)
| AFinalize (i : nat) (now : DateTime) (uuid : string)
| AStop (i : nat)
| ACollect
| ARenewBatch (now : DateTime)
| AMark
| ARecover (now : DateTime)
| ARequestShutdown
| AForeign (op : JobOp).

Definition claim (block_for : option Duration) (now : DateTime) (token : string) : Method S (option Job) :=
  match block_for with
  | None => claim_next (wc_worker_id cfg) (wc_lease_duration cfg) now token
  | Some b => claim_next_blocking (wc_worker_id cfg) (wc_lease_duration cfg) b now token
  end.

Definition claim_into (w : JobWorker) (i : nat) (mode : LeaseRenewalMode) (r : Result (option Job)) : JobWorker :=
  match r with
  | Ok (Some job) => put_slot w i (Claimed mode job)
  | _ => w
  end.

Definition wexec (w : JobWorker) (a : WorkerAction) : JobWorker :=
  match a with
  | APromoteDue now => w <| store := (promote_due_jobs now (store w)).1 |>
  | AClaim i mode block_for now token =>
      match slots w !! i with
      | None => let '(s, r) := claim block_for now token (store w) in claim_into (w <| store := s |>) i mode r
      | Some _ => w
      end
  | ABegin i now => match slots w !! i with Some (Claimed mode job) => begin_claimed w i mode job now | _ => w end
  | AProc i now =>
      match slots w !! i with
      | Some (Working t) => match tk_stage t with Running p => proc_step w i t p now | _ => w end
      | _ => w
      end
  | ATimeout i =>
      match slots w !! i with
      | Some (Working t) => match tk_stage t with Running _ => time_out w i t | _ => w end
      | _ => w
      end
  | ARenewTick i now => match slots w !! i with Some (Working t) => renew_tick w i t now | _ => w end
  | AJudge i =>
      match slots w !! i with
      | Some (Working t) => match tk_stage t with Running (Return r) => judge w i t r | _ => w end
      | _ => w
      end
  | AFinalize i now uuid =>
      match slots w !! i with
      | Some (Working t) => match tk_stage t with Finalizing r => finalize w i t r now uuid | _ => w end
      | _ => w
      end
  | AStop i =>
      match slots w !! i with
      | Some (Working t) => match tk_stage t with Stopping outcome => stop w i t outcome | _ => w end
      | _ => w
      end
  | ACollect => match renewal_loop w with Sleeping => collect_renewals w | _ => w end
  | ARenewBatch now => match renewal_loop w with Renewing renewals => renew_batch w renewals now | _ => w end
  | AMark => match renewal_loop w with Marking failed => mark_batch w failed | _ => w end
  | ARecover now => w <| store := (recover_stalled_jobs now (store w)).1 |>
  | ARequestShutdown => w <| is_shutdown := true |>
  | AForeign op => w <| store := invoke (store w) op |>
  end.

Definition wrun (w : JobWorker) (l : list WorkerAction) : JobWorker := foldl wexec w l.

(** ** One job after the other *)

(** What the processing of one job draws: clock readings, uuids, and the call
    at which its timeout strikes, if it does. *)
Record RunDraws := { rd_token : string; rd_clock : nat → DateTime; rd_uuid : string; rd_cut : option nat }.

Definition times_out (d : RunDraws) (t : Task) (n : nat) : bool :=
  match rd_cut d, tk_timeout t with Some c, Some _ => (c =? n)%nat | _, _ => false end.

(** The processor from its [n]-th call to its end. *)
Fixpoint drive (d : RunDraws) (i n : nat) (p : Proc) (w : JobWorker) : JobWorker :=
  match slots w !! i with
  | Some (Working t) =>
      if times_out d t n then time_out w i t
      else match p with
           | Return _ => w
           | Call c k =>
               let r := (context_call (store w) t c (rd_clock d n)).2 in
               drive d i (Datatypes.S n) (k r) (proc_step w i t p (rd_clock d n))
           | DiscardRetry k => drive d i (Datatypes.S n) k (proc_step w i t p (rd_clock d n))
           | HasLostLease k => drive d i (Datatypes.S n) (k (tk_lease_lost t)) (proc_step w i t p (rd_clock d n))
           end
  | _ => w
  end.

(** [process_with_timeout] on the job in slot [i]. *)
Definition process (d : RunDraws) (i : nat) (w : JobWorker) : JobWorker :=
  match slots w !! i with
  | Some (Working t) => match tk_stage t with Running p => drive d i O p w | _ => w end
  | _ => w
  end.

Definition process_claimed (w : JobWorker) (i : nat) (mode : LeaseRenewalMode) (job : Job) (d : RunDraws)
    : JobWorker * Result JobRunOutcome :=
  let w := process d i (begin_claimed w i mode job (rd_clock d O)) in
  let w := wrun w [AJudge i; AFinalize i (rd_clock d 1) (rd_uuid d); AStop i] in
  (w, match slots w !! i with Some (Finished outcome) => outcome | _ => Ok NoJob end).

Definition run_once (w : JobWorker) (i : nat) (now : DateTime) (d : RunDraws) : JobWorker * Result JobRunOutcome :=
  let '(s, r) := promote_due_jobs now (store w) in
  let w := w <| store := s |> in
  let! _ := r or w in
  let '(s, r) := claim_next (wc_worker_id cfg) (wc_lease_duration cfg) now (rd_token d) (store w) in
  let w := w <| store := s |> in
  let! claimed := r or w in
  match claimed with
  | None => (w, Ok NoJob)
  | Some job => process_claimed w i PerJob job d
  end.

(** [run_until_idle]: the [k]-th job uses slot [k] and the [k]-th draws. *)
Fixpoint run_until_idle (w : JobWorker) (max_jobs processed : nat) (draws : nat → DateTime * RunDraws)
    : JobWorker * Result nat :=
  match max_jobs with
  | O => (w, Ok processed)
  | Datatypes.S max_jobs =>
      match run_once w processed (draws processed).1 (draws processed).2 with
      | (w, Err e) => (w, Err e)
      | (w, Ok NoJob) => (w, Ok processed)
      | (w, Ok _) => run_until_idle w max_jobs (Datatypes.S processed) draws
      end
  end.
End backend.
End worker.
