(* ===== verification/WorkerRules.v ===== *)
(** * What the worker guarantees over a lawful backend

    Every region of the worker acts on the backend through calls of the trait;
    from the lease laws of the backend follow the properties of the worker, in
    any interleaving of its loops, renewers and other clients. *)
From S2P Require Import Prelude Ordering Text External Retry JobTypes JobStore.
From S2P Require Import JobFlows JobQueries JobAdd JobSystem JobLeases Backend Worker.
Local Open Scope Z_scope.

Section rules.
Context {X : Ext} {S : Type} `{!JobQueueBackend S, !LeaseLaws S}.
Context (cfg : JobWorkerConfig) (processor : JobProcessor).
Implicit Types (w : @JobWorker X S) (s : S).
Abbreviation step := (wexec cfg processor).

(** ** The worker acts through calls of the trait *)
Definition action_ok (a : WorkerAction) : Prop :=
  match a with
  | AFinalize _ _ uuid => uuid ≠ EmptyString
  | AForeign op => op_ok op
  | _ => True
  end.

(** The actions that draw a token. *)
Definition draws_token (a : WorkerAction) (token : string) : Prop :=
  match a with
  | AClaim _ _ _ _ t => t = token
  | AForeign op => claims_token op token
  | _ => False
  end.

(** [s'] results from [s] by calls that are in order and draw no token but those in [T]. *)
Definition calls (T : string → Prop) s s' : Prop :=
  ∃ ops, s' = foldl invoke s ops ∧ Forall (λ op, op_ok op ∧ ∀ t, claims_token op t → T t) ops.

Lemma calls_refl T s : calls T s s.
Proof. by exists []. Qed.

Lemma calls_one (T : string → Prop) s op : op_ok op → (∀ t, claims_token op t → T t) → calls T s (invoke s op).
Proof. intros. exists [op]. split; [done|]. by apply Forall_singleton. Qed.

Lemma calls_ok T s s' : backend_ok s → calls T s s' → backend_ok s'.
Proof.
  intros H (ops & -> & Ho). apply (foldl_keeps_forall backend_ok (λ op, op_ok op ∧ ∀ t, claims_token op t → T t));
    [|done|done]. intros s0 op Hs [Hop _]. by apply ok_invoke.
Qed.

Lemma calls_holder (T : string → Prop) s s' id t : backend_ok s → calls T s s' → ¬ T t →
  holder s id ≠ Some t → holder s' id ≠ Some t.
Proof.
  intros H (ops & -> & Ho) HT Hn.
  cut (backend_ok (foldl invoke s ops) ∧ holder (foldl invoke s ops) id ≠ Some t); [tauto|].
  apply (foldl_keeps_forall (λ s, backend_ok s ∧ holder s id ≠ Some t)
           (λ op, op_ok op ∧ ∀ t, claims_token op t → T t)); [|done|done].
  intros s0 op [Hs Hh] [Hop Hc]. split; [by apply ok_invoke|].
  intros [?|?]%holder_from; auto.
Qed.

Definition call_op (t : Task) (c : ContextCall) (now : DateTime) : JobOp :=
  match c with
  | UpdateData payload => OpSetData (tk_job_id t) payload
  | UpdateProgress progress => OpSetProgress (tk_job_id t) progress now
  | AddLog line => OpLog (tk_job_id t) line (wc_log_retention cfg) now
  | RenewLease => OpRenew (tk_job_id t) (tk_lock_token t) (wc_lease_duration cfg) now
  end.

Lemma backend_call_invoke s t c now : (backend_call cfg t c now s).1 = invoke s (call_op t c now).
Proof. by destruct c. Qed.

(** A call of the context: refused after the loss of the lease, and otherwise
    one call on the backend, after which the task is as before or has lost the
    lease. *)
Lemma context_call_cases s t c now :
  let p := context_call cfg s t c now in
  (tk_lease_lost t = true ∧ p = (s, t, Err (lost_lease_error cfg t))) ∨
  (tk_lease_lost t = false ∧ p.1.1 = invoke s (call_op t c now) ∧ p.2 = (backend_call cfg t c now s).2 ∧
     (p.1.2 = t ∨ p.1.2 = t <| tk_lease_lost := true |>)).
Proof.
  unfold context_call, ensure_lease. destruct (tk_lease_lost t); [by left|right]. cbn [fst snd].
  pose proof (backend_call_invoke s t c now) as E. destruct (backend_call cfg t c now s) as [s' r].
  cbn [fst snd] in *. split_and!; try done. by destruct (loses_lease c r); [right|left].
Qed.

Lemma context_call_calls T s t c now : calls T s (context_call cfg s t c now).1.1.
Proof.
  destruct (context_call_cases s t c now) as [[_ ->]|(_ & -> & _)]; [apply calls_refl|].
  apply calls_one; by destruct c.
Qed.

Lemma final_report_calls T s t r now uuid : uuid ≠ EmptyString → calls T s (final_report t r now uuid s).1.
Proof.
  intros Hu. unfold final_report. destruct r as [v|e].
  - pose proof (calls_one T s (OpComplete (tk_job_id t) (tk_lock_token t) v now uuid) Hu) as H. unfold invoke in H; simpl in H.
    destruct (complete_job _ _ _ _ _ s). by apply H.
  - destruct (discards_retry t e).
    + pose proof (calls_one T s (OpFail (tk_job_id t) (tk_lock_token t) (error_to_string e) now false) I) as H.
      unfold invoke in H; simpl in H. destruct (fail_job_discarding_retry _ _ _ _ s). by apply H.
    + pose proof (calls_one T s (OpFail (tk_job_id t) (tk_lock_token t) (error_to_string e) now true) I) as H.
      unfold invoke in H; simpl in H. destruct (fail_job _ _ _ _ s). by apply H.
Qed.

Lemma claim_calls (T : string → Prop) s b now t : T t → calls T s (claim cfg b now t s).1.
Proof.
  intros HT. unfold claim. destruct b as [b|].
  - destruct (blocking_claims s (wc_worker_id cfg) (wc_lease_duration cfg) b now t) as [now' ->].
    by apply (calls_one T s (OpClaim (wc_worker_id cfg) (wc_lease_duration cfg) now' t)); [|intros ? <-].
  - by apply (calls_one T s (OpClaim (wc_worker_id cfg) (wc_lease_duration cfg) now t)); [|intros ? <-].
Qed.

Lemma set_lost_store w i : store (set_lost w i) = store w.
Proof. unfold set_lost. by destruct (slots w !! i) as [[]|]. Qed.

Lemma mark_lost_store w ids : store (mark_lost_leases w ids).1 = store w.
Proof.
  apply (foldl_keeps (λ p : JobWorker * nat, store p.1 = store w)); [|done].
  intros [w1 n] id H. unfold mark_lost_one. cbn [fst]. destruct (active_leases w1 !! id); [|done].
  cbn [fst]. by rewrite set_lost_store.
Qed.

Lemma step_calls w a : action_ok a → calls (draws_token a) (store w) (store (step w a)).
Proof.
  intros Ha. destruct a; cbn [wexec action_ok draws_token] in *.
  - by apply (calls_one _ _ (OpPromoteDue now)).
  - destruct (slots w !! i); [apply calls_refl|].
    pose proof (claim_calls (λ t, token = t) (store w) block_for now token eq_refl) as H.
    destruct (claim cfg block_for now token (store w)) as [s r].
    unfold claim_into. by destruct r as [[]|].
  - destruct (slots w !! i) as [[mode job| |]|]; try apply calls_refl. unfold begin_claimed.
    destruct (job_lock_token job) as [t|]; [|apply calls_refl].
    destruct (job_deferred_failure job) as [e|]; [|destruct mode; apply calls_refl].
    pose proof (calls_one (λ _, False) (store w) (OpFail (job_id job) t e now false) I) as H. unfold invoke in H; simpl in H.
    destruct (fail_job_discarding_retry _ _ _ _ (store w)). by apply H.
  - destruct (slots w !! i) as [[|t|]|]; try apply calls_refl. destruct (tk_stage t) as [p| |]; try apply calls_refl.
    unfold proc_step. destruct p as [r|c k|k|k]; try apply calls_refl.
    pose proof (context_call_calls (λ _, False) (store w) t c now) as H.
    by destruct (context_call cfg (store w) t c now) as [[s t'] r].
  - destruct (slots w !! i) as [[|t|]|]; try apply calls_refl. destruct (tk_stage t); try apply calls_refl.
    unfold time_out. destruct (tk_timeout t); apply calls_refl.
  - destruct (slots w !! i) as [[|t|]|]; try apply calls_refl. unfold renew_tick.
    destruct (tk_renewer t); [|apply calls_refl].
    pose proof (context_call_calls (λ _, False) (store w) t RenewLease now) as H.
    by destruct (context_call cfg (store w) t RenewLease now) as [[s t'] r].
  - destruct (slots w !! i) as [[|t|]|]; try apply calls_refl. destruct (tk_stage t) as [[]| |]; apply calls_refl.
  - destruct (slots w !! i) as [[|t|]|]; try apply calls_refl. destruct (tk_stage t) as [|r|]; try apply calls_refl.
    unfold finalize. pose proof (final_report_calls (λ _, False) (store w) t r now uuid Ha) as H.
    by destruct (final_report t r now uuid (store w)).
  - destruct (slots w !! i) as [[|t|]|]; try apply calls_refl. destruct (tk_stage t); try apply calls_refl.
    unfold stop. destruct (tk_mode t); apply calls_refl.
  - destruct (renewal_loop w); try apply calls_refl. unfold collect_renewals.
    destruct (active_lease_renewals w); [destruct (is_shutdown w)|]; apply calls_refl.
  - destruct (renewal_loop w); try apply calls_refl. unfold renew_batch.
    destruct (batch_renews (store w) renewals (wc_lease_duration cfg) now) as (ops & Hops & E).
    destruct (renew_leases _ _ _ _) as [s r]. cbn [fst] in E. subst s. exists ops. split; [done|].
    eapply Forall_impl; [done|]. intros op (i & t & ->). by split.
  - destruct (renewal_loop w); try apply calls_refl. unfold mark_batch. simpl.
    rewrite mark_lost_store. apply calls_refl.
  - by apply (calls_one _ _ (OpRecoverStalled now)).
  - apply calls_refl.
  - by apply calls_one.
Qed.

Lemma wrun_ok w l : backend_ok (store w) → Forall action_ok l → backend_ok (store (wrun cfg processor w l)).
Proof.
  intros Hs Hl. apply (foldl_keeps_forall (λ w : JobWorker, backend_ok (store w)) action_ok); [|done|done].
  intros w0 a H Ha. by eapply calls_ok; [|apply step_calls].
Qed.

(** ** Slots *)
Definition acts_on (a : WorkerAction) : option nat :=
  match a with
  | AClaim i _ _ _ _ | ABegin i _ | AProc i _ | ATimeout i | ARenewTick i _ | AJudge i | AFinalize i _ _
  | AStop i => Some i
  | _ => None
  end.

Lemma lookup_put_slot w i j x : slots (put_slot w i x) !! j = if decide (i = j) then Some x else slots w !! j.
Proof. unfold put_slot. simpl. by rewrite lookup_insert. Qed.

Lemma put_slot_other w w0 i j x : slots w = slots w0 → Some i ≠ Some j → slots (put_slot w i x) !! j = slots w0 !! j.
Proof. intros E Hn. rewrite lookup_put_slot, decide_False by congruence. by rewrite E. Qed.

Lemma mark_slot w ids i :
  slots (mark_lost_leases w ids).1 !! i = slots w !! i ∨
  ∃ t, slots w !! i = Some (Working t) ∧
    slots (mark_lost_leases w ids).1 !! i = Some (Working (t <| tk_lease_lost := true |>)).
Proof.
  apply (foldl_keeps (λ p : JobWorker * nat, slots p.1 !! i = slots w !! i ∨
    ∃ t, slots w !! i = Some (Working t) ∧ slots p.1 !! i = Some (Working (t <| tk_lease_lost := true |>))));
    [|by left].
  intros [w1 n] id H. unfold mark_lost_one. cbn [fst] in *. destruct (active_leases w1 !! id) as [[tok k]|]; [|done].
  cbn [fst al_lease_lost]. unfold set_lost. destruct (slots w1 !! k) as [[|tk|]|] eqn:Ek; try done.
  unfold put_task. rewrite lookup_put_slot. destruct (decide (k = i)) as [->|]; [|done].
  right. rewrite Ek in H. destruct H as [H|(t & H & H')].
  - by exists tk.
  - exists t. split; [done|]. by injection H' as ->.
Qed.

(** An action on another slot. *)
Lemma step_other w a i : acts_on a ≠ Some i → a ≠ AMark → slots (step w a) !! i = slots w !! i.
Proof.
  intros Hn Hm. destruct a; cbn [wexec acts_on] in *; try done.
  - destruct (slots w !! i0) eqn:E; [done|]. destruct (claim _ _ _ _) as [s r].
    unfold claim_into. destruct r as [[job|]|]; [|done|done]. by apply put_slot_other.
  - destruct (slots w !! i0) as [[mode job| |]|]; try done. unfold begin_claimed, finish, put_task.
    destruct (job_lock_token job) as [t|]; [|by apply put_slot_other].
    destruct (job_deferred_failure job) as [e|]; [|destruct mode; by apply put_slot_other].
    destruct (fail_job_discarding_retry _ _ _ _ _). by apply put_slot_other.
  - destruct (slots w !! i0) as [[|t|]|]; try done. destruct (tk_stage t) as [p| |]; try done.
    unfold proc_step, put_task. destruct p as [r|c k|k|k]; [done| |by apply put_slot_other|by apply put_slot_other].
    destruct (context_call _ _ _ _ _) as [[s t'] r]. by apply put_slot_other.
  - destruct (slots w !! i0) as [[|t|]|]; try done. destruct (tk_stage t); try done.
    unfold time_out, put_task. destruct (tk_timeout t); [by apply put_slot_other|done].
  - destruct (slots w !! i0) as [[|t|]|]; try done. unfold renew_tick, put_task. destruct (tk_renewer t); [|done].
    destruct (context_call _ _ _ _ _) as [[s t'] r]. by apply put_slot_other.
  - destruct (slots w !! i0) as [[|t|]|]; try done. destruct (tk_stage t) as [[]| |]; try done.
    by apply put_slot_other.
  - destruct (slots w !! i0) as [[|t|]|]; try done. destruct (tk_stage t) as [|r|]; try done.
    unfold finalize, put_task. destruct (final_report t r now uuid (store w)). by apply put_slot_other.
  - destruct (slots w !! i0) as [[|t|]|]; try done. destruct (tk_stage t); try done.
    unfold stop, finish. destruct (tk_mode t); by apply put_slot_other.
  - destruct (renewal_loop w); try done. unfold collect_renewals.
    by destruct (active_lease_renewals w); [destruct (is_shutdown w)|].
  - destruct (renewal_loop w); try done. unfold renew_batch. by destruct (renew_leases _ _ _ _).
Qed.

(** ** A job whose lease is gone is never reported *)

(** The job in slot [i] cannot come to an accepted report any more. *)
Definition doomed w (i : nat) (id token : string) : Prop :=
  match slots w !! i with
  | Some (Working t) =>
      tk_job_id t = id ∧ tk_lock_token t = token ∧
      match tk_stage t with
      | Running _ => tk_lease_lost t = true ∨ holder (store w) id ≠ Some token
      | Finalizing _ => holder (store w) id ≠ Some token
      | Stopping outcome => is_ok outcome = false
      end
  | Some (Finished outcome) => is_ok outcome = false
  | _ => False
  end.

(** A report without the lease is refused. *)
Lemma report_refused s t r now uuid : backend_ok s → uuid ≠ EmptyString →
  holder s (tk_job_id t) ≠ Some (tk_lock_token t) → is_ok (final_report t r now uuid s).2 = false.
Proof.
  intros Hs Hu Hh. unfold final_report. destruct r as [v|e].
  - destruct (complete_job _ _ _ _ _ s) as [s' [j|]] eqn:E; [|done].
    by destruct Hh; eapply complete_consumes.
  - destruct (discards_retry t e).
    + destruct (fail_job_discarding_retry _ _ _ _ s) as [s' [j|]] eqn:E; [|done].
      by destruct Hh; eapply discard_consumes.
    + destruct (fail_job _ _ _ _ s) as [s' [j|]] eqn:E; [|done]. by destruct Hh; eapply fail_consumes.
Qed.

(** What the other actions leave of it. *)
Lemma doomed_frame w w' i id token : doomed w i id token →
  (slots w' !! i = slots w !! i ∨ ∃ t, slots w !! i = Some (Working t) ∧
     slots w' !! i = Some (Working (t <| tk_lease_lost := true |>))) →
  (holder (store w) id ≠ Some token → holder (store w') id ≠ Some token) → doomed w' i id token.
Proof.
  unfold doomed. intros H [->|(t & E & ->)] Hh.
  - destruct (slots w !! i) as [[|t|]|]; try done. destruct H as (H1 & H2 & H3). split_and!; [done..|].
    destruct (tk_stage t); [destruct H3; auto|auto|done].
  - rewrite E in H. destruct H as (H1 & H2 & H3). simpl. split_and!; [done..|].
    destruct (tk_stage t); [by left|auto|done].
Qed.

Lemma doomed_task w i t id token : tk_job_id t = id → tk_lock_token t = token →
  match tk_stage t with
  | Running _ => tk_lease_lost t = true ∨ holder (store w) id ≠ Some token
  | Finalizing _ => holder (store w) id ≠ Some token
  | Stopping outcome => is_ok outcome = false
  end → doomed (put_task w i t) i id token.
Proof. intros. unfold doomed, put_task. by rewrite lookup_put_slot, decide_True. Qed.

Lemma doomed_call w i t c now id token (f : Task → Result Job → Task) :
  backend_ok (store w) → doomed w i id token → slots w !! i = Some (Working t) →
  (∀ t r, tk_job_id (f t r) = tk_job_id t ∧ tk_lock_token (f t r) = tk_lock_token t ∧
     tk_lease_lost (f t r) = tk_lease_lost t) →
  (∀ t0 r, tk_stage t0 = tk_stage t →
     tk_stage (f t0 r) = tk_stage t0 ∨ ∃ p p', tk_stage t0 = Running p ∧ tk_stage (f t0 r) = Running p') →
  let q := context_call cfg (store w) t c now in
  doomed (put_task (w <| store := q.1.1 |>) i (f q.1.2 q.2)) i id token.
Proof.
  intros Hs H E Hf Hst. unfold doomed in H. rewrite E in H. destruct H as (H1 & H2 & H3).
  pose proof (context_call_calls (λ _, False) (store w) t c now) as HC.
  pose proof (calls_holder _ _ _ id token Hs HC (λ x, x)) as Hh.
  pose proof (context_call_cases (store w) t c now) as Hcases.
  destruct (context_call cfg (store w) t c now) as [[s1 t1] r1]. cbn [fst snd] in *.
  assert (t1 = t ∨ t1 = t <| tk_lease_lost := true |>) as Ht1
    by (destruct Hcases as [[_ [= -> -> ->]]|(_ & _ & _ & ?)]; auto).
  assert (tk_lease_lost t = true → tk_lease_lost t1 = true) as Hmono by by destruct Ht1 as [->| ->].
  assert (tk_stage t1 = tk_stage t) as Es by by destruct Ht1 as [->| ->].
  destruct (Hf t1 r1) as (Hi & Ht & Hl). apply doomed_task.
  - rewrite Hi. by destruct Ht1 as [->| ->].
  - rewrite Ht. by destruct Ht1 as [->| ->].
  - rewrite Hl. destruct (Hst t1 r1 Es) as [->|(p & p' & Ep & ->)]; rewrite Es in *.
    + destruct (tk_stage t); [destruct H3; auto|auto|done].
    + rewrite Ep in H3. destruct H3; auto.
Qed.

Lemma doomed_step w a i id token : backend_ok (store w) → action_ok a → ¬ draws_token a token →
  doomed w i id token → doomed (step w a) i id token.
Proof.
  intros Hs Ha Ht H. pose proof (calls_holder _ _ _ id token Hs (step_calls w a Ha) Ht) as Hh.
  destruct (decide (acts_on a = Some i)) as [Hi|Hi]; cycle 1.
  { apply (doomed_frame w); [done| |done]. assert (a = AMark ∨ a ≠ AMark) as [->|Hm] by (destruct a; (by left) || (by right)); [|left; by apply step_other].
    cbn [wexec]. destruct (renewal_loop w); try by left. apply mark_slot. }
  clear Hh. assert (doomed w i id token) as H' by done. unfold doomed in H'.
  destruct a; try done; cbn [acts_on wexec] in *; injection Hi as ->.
  - by destruct (slots w !! i).
  - by destruct (slots w !! i) as [[]|].
  - destruct (slots w !! i) as [[|t|]|] eqn:E; try done. destruct (tk_stage t) as [p| |] eqn:Es; try done.
    destruct H' as (H1 & H2 & H3). unfold proc_step. destruct p as [r|c k|k|k]; [done| |by apply doomed_task..].
    pose proof (doomed_call w i t c now id token (λ t r, t <| tk_stage := Running (k r) |>) Hs H E) as HD.
    destruct (context_call cfg (store w) t c now) as [[s1 t1] r1]. apply HD; [done|].
    intros t0 r e. right. rewrite e, Es. eauto.
  - destruct (slots w !! i) as [[|t|]|] eqn:E; try done. destruct (tk_stage t) as [p| |] eqn:Es; try done.
    destruct H' as (H1 & H2 & H3). unfold time_out. destruct (tk_timeout t); [by apply doomed_task|done].
  - destruct (slots w !! i) as [[|t|]|] eqn:E; try done. unfold renew_tick. destruct (tk_renewer t); [|done].
    pose proof (doomed_call w i t RenewLease now id token (λ t r, if is_ok r then t else t <| tk_renewer := false |>)
      Hs H E) as HD.
    destruct (context_call cfg (store w) t RenewLease now) as [[s1 t1] r1]. apply HD; intros t0 r; destruct (is_ok r); auto.
  - destruct (slots w !! i) as [[|t|]|] eqn:E; try done. destruct (tk_stage t) as [[r| | |]| |] eqn:Es; try done.
    destruct H' as (H1 & H2 & H3). unfold judge. apply doomed_task; [done..|].
    simpl. destruct (tk_lease_lost t); [done|]. by destruct H3.
  - destruct (slots w !! i) as [[|t|]|] eqn:E; try done. destruct (tk_stage t) as [|r|] eqn:Es; try done.
    destruct H' as (H1 & H2 & H3). unfold finalize. subst id token.
    pose proof (report_refused (store w) t r now uuid Hs Ha H3) as HR.
    destruct (final_report t r now uuid (store w)) as [s1 o]. by apply doomed_task.
  - destruct (slots w !! i) as [[|t|]|] eqn:E; try done. destruct (tk_stage t) as [| |o] eqn:Es; try done.
    destruct H' as (H1 & H2 & H3). unfold stop, finish, doomed. by rewrite lookup_put_slot, decide_True.
Qed.

Lemma doomed_run w l i id token : backend_ok (store w) → Forall action_ok l → Forall (λ a, ¬ draws_token a token) l →
  doomed w i id token → doomed (wrun cfg processor w l) i id token.
Proof.
  intros Hs Ha Ht H.
  cut (backend_ok (store (wrun cfg processor w l)) ∧ doomed (wrun cfg processor w l) i id token); [tauto|].
  apply (foldl_keeps_forall (λ w, backend_ok (store w) ∧ doomed w i id token) (λ a, action_ok a ∧ ¬ draws_token a token));
    [|by apply Forall_and|done].
  intros w0 a [Hs0 H0] [Ha0 Ht0]. split; [|by apply doomed_step].
  by eapply calls_ok; [|apply step_calls].
Qed.

(** C9: a worker that lost a job never reports it.  Once the backend leases a
    job in progress to nobody or under another token, or the job's lease was
    marked lost while its processor ran, its run ends in an error, whatever
    the loops of the worker, its lease renewers and the other clients of the
    backend do meanwhile and in whatever order; the token is not drawn again. *)
Theorem lost_lease_never_reported w i t l outcome :
  backend_ok (store w) → slots w !! i = Some (Working t) →
  match tk_stage t with
  | Running _ => tk_lease_lost t = true ∨ holder (store w) (tk_job_id t) ≠ Some (tk_lock_token t)
  | Finalizing _ => holder (store w) (tk_job_id t) ≠ Some (tk_lock_token t)
  | Stopping _ => False
  end →
  Forall action_ok l → Forall (λ a, ¬ draws_token a (tk_lock_token t)) l →
  slots (wrun cfg processor w l) !! i = Some (Finished outcome) → ∃ e, outcome = Err e.
Proof.
  intros Hs E Hst Ha Ht EF.
  assert (doomed w i (tk_job_id t) (tk_lock_token t)) as H.
  { unfold doomed. rewrite E. split_and!; [done..|]. by destruct (tk_stage t). }
  pose proof (doomed_run w l i _ _ Hs Ha Ht H) as HD. unfold doomed in HD. rewrite EF in HD.
  destruct outcome; [done|by eexists].
Qed.

(** ** One job from claim to report *)

Lemma call_op_quiet t c now : op_ok (call_op t c now) ∧ spares_leases (call_op t c now) = true ∧
  ∀ t', ¬ claims_token (call_op t c now) t'.
Proof. destruct c; (split_and!; [done|done|by intros t' []]). Qed.

(** The same job, under the same lease. *)
Definition same_task (t t' : Task) : Prop :=
  tk_job_id t' = tk_job_id t ∧ tk_lock_token t' = tk_lock_token t ∧ tk_mode t' = tk_mode t.

Definition leased_to s (t : Task) : Prop := backend_ok s ∧ holder s (tk_job_id t) = Some (tk_lock_token t).

Lemma leased_call s t c now : leased_to s t → leased_to (context_call cfg s t c now).1.1 t.
Proof.
  intros [Hs Hh]. destruct (call_op_quiet t c now) as (Hok & Hq & _).
  destruct (context_call_cases s t c now) as [[_ ->]|(_ & -> & _)]; [done|].
  split; [by apply ok_invoke|by apply holder_stays].
Qed.

(** One step of the processor. *)
Lemma proc_step_spec w i t p now : tk_stage t = Running p → (∀ r, p ≠ Return r) →
  let w' := proc_step cfg w i t p now in
  ∃ t' p', slots w' !! i = Some (Working t') ∧ tk_stage t' = Running p' ∧ same_task t t' ∧
    (leased_to (store w) t → leased_to (store w') t') ∧
    match p with
    | Return _ => False
    | Call c k => p' = k (context_call cfg (store w) t c now).2
    | DiscardRetry k => p' = k
    | HasLostLease k => p' = k (tk_lease_lost t)
    end.
Proof.
  intros Hst Hp. unfold proc_step. destruct p as [r|c k|k|k]; [by destruct (Hp r)| | |].
  - pose proof (leased_call (store w) t c now) as HL. pose proof (context_call_cases (store w) t c now) as Hc.
    destruct (context_call cfg (store w) t c now) as [[s1 t1] r1]. cbn [fst snd] in *.
    assert (same_task t t1) as (E1 & E2 & E3).
    { destruct Hc as [[_ [= _ -> _]]|(_ & _ & _ & [->| ->])]; done. }
    eexists _, _. unfold put_task. rewrite lookup_put_slot, decide_True by done.
    split_and!; try done. intros [Hs Hh]%HL. split; [done|]. simpl. by rewrite E1, E2.
  - eexists _, _. unfold put_task. rewrite lookup_put_slot, decide_True by done. by split_and!.
  - eexists _, _. unfold put_task. rewrite lookup_put_slot, decide_True by done. by split_and!.
Qed.

Definition proc_action (i : nat) (a : WorkerAction) : Prop := (∃ now, a = AProc i now) ∨ a = ATimeout i.

Lemma proc_step_action w i t p now : slots w !! i = Some (Working t) → tk_stage t = Running p →
  proc_step cfg w i t p now = step w (AProc i now).
Proof. intros E Es. cbn [wexec]. by rewrite E, Es. Qed.

(** From [w] to [w'], steps of the processor of the task [t] in slot [i] bring it
    to a result, with its lease kept. *)
Definition runs_out (i : nat) w (t : Task) w' : Prop :=
  ∃ t' r acts, slots w' !! i = Some (Working t') ∧ tk_stage t' = Running (Return r) ∧ same_task t t' ∧
    (leased_to (store w) t → leased_to (store w') t') ∧ Forall (proc_action i) acts ∧
    w' = wrun cfg processor w acts.

Lemma runs_out_now i w t r : slots w !! i = Some (Working t) → tk_stage t = Running (Return r) → runs_out i w t w.
Proof. intros. exists t, r, []. by split_and!. Qed.

Lemma runs_out_timeout d i n w t p : slots w !! i = Some (Working t) → tk_stage t = Running p →
  times_out d t n = true → runs_out i w t (time_out w i t).
Proof.
  intros E Es Ht. unfold times_out in Ht. destruct (rd_cut d); [|done].
  destruct (tk_timeout t) as [dt|] eqn:Et; [|done].
  assert (time_out w i t = put_task w i (t <| tk_stage := Running (Return (Err (Timeout_ dt))) |>)) as Eo
    by (unfold time_out; by rewrite Et).
  exists (t <| tk_stage := Running (Return (Err (Timeout_ dt))) |>), (Err (Timeout_ dt)), [ATimeout i].
  split_and!; [|done|done|by rewrite Eo|apply Forall_singleton; by right|cbn; by rewrite E, Es].
  rewrite Eo. unfold put_task. by rewrite lookup_put_slot, decide_True.
Qed.

Lemma runs_out_step i w t t1 p now w' : slots w !! i = Some (Working t) → tk_stage t = Running p →
  same_task t t1 →
  (leased_to (store w) t → leased_to (store (proc_step cfg w i t p now)) t1) →
  runs_out i (proc_step cfg w i t p now) t1 w' → runs_out i w t w'.
Proof.
  intros E Es (S1 & S2 & S3) HL (t' & r & acts & E' & Es' & (S1' & S2' & S3') & HL' & Ha & Ew).
  exists t', r, (AProc i now :: acts). split_and!; try done.
  - split_and!; congruence.
  - auto.
  - constructor; [left; by eexists|done].
  - rewrite Ew. cbn [wrun foldl]. by rewrite (proc_step_action w i t p).
Qed.

(** The processor runs to its end, or to its timeout, as a sequence of steps. *)
Lemma drive_spec d i p : ∀ n w t, slots w !! i = Some (Working t) → tk_stage t = Running p →
  runs_out i w t (drive cfg d i n p w).
Proof.
  induction p as [r|c k IH|k IH|k IH]; intros n w t E Es; cbn [drive]; rewrite E;
    (destruct (times_out d t n) eqn:Ht; [by eapply runs_out_timeout|]); [by eapply runs_out_now|..].
  all: edestruct (proc_step_spec w i t _ (rd_clock d n) Es) as (t1 & p1 & E1 & Es1 & HS & HL1 & ->); [done|].
  all: by eapply (runs_out_step i w t t1); [..|apply IH].
Qed.

(** What follows the processor. *)
Lemma conclude_spec w i t r now uuid : slots w !! i = Some (Working t) → tk_stage t = Running (Return r) →
  let w' := wrun cfg processor w [AJudge i; AFinalize i now uuid; AStop i] in
  if tk_lease_lost t
  then store w' = store w ∧ ∃ msg, slots w' !! i = Some (Finished (Err (JobLeaseConflict msg)))
  else store w' = (final_report t r now uuid (store w)).1 ∧
       slots w' !! i = Some (Finished (final_report t r now uuid (store w)).2).
Proof.
  intros E Es. cbn [wrun foldl].
  assert (step w (AJudge i) = judge cfg w i t r) as -> by (cbn [wexec]; by rewrite E, Es).
  assert (∀ t', slots (put_task w i t') !! i = Some (Working t')) as Hput
    by (intros; unfold put_task; by rewrite lookup_put_slot, decide_True).
  unfold judge. destruct (tk_lease_lost t); cbn [wexec]; rewrite !Hput; cbn [tk_stage upd].
  - rewrite Hput. unfold stop, finish. simpl. split; [by destruct (tk_mode t)|].
    eexists. by rewrite lookup_insert_eq.
  - unfold finalize.
    change (final_report (t <| tk_stage := Finalizing r |>) r now uuid) with (final_report t r now uuid). simpl.
    destruct (final_report t r now uuid (store w)) as [s o]. simpl.
    rewrite lookup_insert_eq. simpl. unfold stop, finish. simpl. split; [by destruct (tk_mode t)|].
    by rewrite lookup_insert_eq.
Qed.

(** The report of a job the worker holds. *)
Lemma final_report_spec s t r now uuid s' o : leased_to s t → uuid ≠ EmptyString →
  final_report t r now uuid s = (s', Ok o) →
  holder s' (tk_job_id t) = None ∧
  match r with
  | Ok _ => ∃ j, o = RunCompleted j ∧ job_id j = tk_job_id t ∧ job_state j = Completed
  | Err e => ∃ j, o = RunFailed j ∧ job_id j = tk_job_id t ∧ job_failed_reason j = Some (error_to_string e) ∧
      (discards_retry t e = true → job_state j = Failed)
  end.
Proof.
  intros [Hs Hh] Hu. unfold final_report. destruct r as [v|e].
  - destruct (complete_job _ _ _ _ _ s) as [s1 [j1|]] eqn:E; [|done]. intros [= <- <-].
    destruct (complete_consumes _ _ _ _ _ _ _ _ Hs Hu E) as (_ & H1 & H2 & H3). eauto 6.
  - destruct (discards_retry t e) eqn:Ed.
    + destruct (fail_job_discarding_retry _ _ _ _ s) as [s1 [j1|]] eqn:E; [|done]. intros [= <- <-].
      destruct (discard_consumes _ _ _ _ _ _ _ Hs E) as (_ & H1 & H2 & H3 & H4). split; [done|]. by exists j1.
    + destruct (fail_job _ _ _ _ s) as [s1 [j1|]] eqn:E; [|done]. intros [= <- <-].
      destruct (fail_consumes _ _ _ _ _ _ _ Hs E) as (_ & H1 & H2 & H3). split; [done|]. by exists j1.
Qed.

(** The claimed job in its slot. *)
Lemma begin_spec w i mode job now token : job_lock_token job = Some token → job_deferred_failure job = None →
  ∃ t p, slots (begin_claimed cfg processor w i mode job now) !! i = Some (Working t) ∧
    tk_stage t = Running p ∧ tk_job_id t = job_id job ∧ tk_lock_token t = token ∧ tk_mode t = mode ∧
    store (begin_claimed cfg processor w i mode job now) = store w.
Proof.
  intros Ht Hd. unfold begin_claimed. rewrite Ht, Hd. eexists _, _. unfold put_task.
  rewrite lookup_put_slot, decide_True by done. split_and!; try done. by destruct mode.
Qed.

(** A deferred failure is reported at once. *)
Lemma deferred_spec w i mode job d token reason : backend_ok (store w) → job_lock_token job = Some token →
  job_deferred_failure job = Some reason →
  let '(w', outcome) := process_claimed cfg processor w i mode job d in
  match outcome with
  | Ok (RunFailed f) => job_id f = job_id job ∧ job_state f = Failed ∧ job_failed_reason f = Some reason ∧
                        holder (store w') (job_id job) = None
  | Ok _ => False
  | Err _ => True
  end.
Proof.
  intros Hs Ht Hd. unfold process_claimed, begin_claimed. rewrite Ht, Hd.
  destruct (fail_job_discarding_retry _ _ _ _ (store w)) as [s r] eqn:E.
  assert (∀ x : Result JobRunOutcome, let w1 := finish (w <| store := s |>) i x in
    wrun cfg processor (process cfg d i w1) [AJudge i; AFinalize i (rd_clock d 1) (rd_uuid d); AStop i] = w1
    ∧ slots w1 !! i = Some (Finished x) ∧ store w1 = s) as Hw.
  { intros x w1. assert (slots w1 !! i = Some (Finished x)) as Ex by (unfold w1, finish; by rewrite lookup_put_slot, decide_True).
    unfold process. rewrite Ex. cbn [wrun foldl wexec]. by rewrite !Ex. }
  destruct (Hw (map_outcome RunFailed r)) as (-> & -> & ->). destruct r as [f|]; [|done]. simpl.
  destruct (discard_consumes _ _ _ _ _ _ _ Hs E) as (_ & H1 & H2 & H3 & H4). by split_and!.
Qed.

(** What one run does with the job it claims. *)
Lemma run_once_spec w i now d s1 n s2 job : backend_ok (store w) → rd_uuid d ≠ EmptyString →
  promote_due_jobs now (store w) = (s1, Ok n) →
  claim_next (wc_worker_id cfg) (wc_lease_duration cfg) now (rd_token d) s1 = (s2, Ok (Some job)) →
  let w1 := begin_claimed cfg processor (w <| store := s2 |>) i PerJob job (rd_clock d O) in
  let '(w', outcome) := run_once cfg processor w i now d in
  match job_deferred_failure job with
  | Some reason =>
      match outcome with
      | Ok (RunFailed f) => job_id f = job_id job ∧ job_state f = Failed ∧ job_failed_reason f = Some reason ∧
                            holder (store w') (job_id job) = None
      | Ok _ => False
      | Err _ => True
      end
  | None =>
      ∃ t result, slots (process cfg d i w1) !! i = Some (Working t) ∧ tk_stage t = Running (Return result) ∧
        holder (store (process cfg d i w1)) (job_id job) = Some (rd_token d) ∧
        if tk_lease_lost t
        then store w' = store (process cfg d i w1) ∧ ∃ msg, outcome = Err (JobLeaseConflict msg)
        else match outcome, result with
             | Ok (RunCompleted j), Ok _ => job_id j = job_id job ∧ job_state j = Completed ∧
                                            holder (store w') (job_id job) = None
             | Ok (RunFailed j), Err e => job_id j = job_id job ∧ job_failed_reason j = Some (error_to_string e) ∧
                 (discards_retry t e = true → job_state j = Failed) ∧ holder (store w') (job_id job) = None
             | Err _, _ => True
             | _, _ => False
             end
  end.
Proof.
  intros Hs Hu Ep Ec w1. unfold run_once. rewrite Ep. cbn [store]. cbn. rewrite Ec.
  assert (backend_ok s1) as Hs1.
  { pose proof (ok_invoke (store w) (OpPromoteDue now) Hs I) as H. unfold invoke in H; simpl in H. by rewrite Ep in H. }
  assert (backend_ok s2) as Hs2.
  { pose proof (ok_invoke s1 (OpClaim (wc_worker_id cfg) (wc_lease_duration cfg) now (rd_token d)) Hs1 I) as H.
    unfold invoke in H; simpl in H. by rewrite Ec in H. }
  destruct (claim_grants _ _ _ _ _ _ _ Hs1 Ec) as (_ & Ht & Hh & _).
  change (w <| store := s1 |> <| store := s2 |>) with (w <| store := s2 |>).
  destruct (job_deferred_failure job) as [reason|] eqn:Hd; [by apply (deferred_spec _ _ _ _ _ (rd_token d))|].
  unfold process_claimed. fold w1.
  destruct (begin_spec (w <| store := s2 |>) i PerJob job (rd_clock d O) _ Ht Hd) as (t0 & p & E0 & Es0 & Hi0 & Ht0 & _ & Ew0).
  fold w1 in E0, Ew0. destruct (drive_spec d i p 0 w1 t0 E0 Es0) as (t & r & _ & E & Es & (Hi & Htk & _) & HL & _ & _).
  replace (process cfg d i w1) with (drive cfg d i 0 p w1) by (unfold process; by rewrite E0, Es0).
  set (w2 := drive cfg d i 0 p w1) in *. assert (leased_to (store w2) t) as HL2.
  { apply HL. rewrite Ew0. split; [done|]. by rewrite Hi0, Ht0. }
  assert (tk_job_id t = job_id job ∧ tk_lock_token t = rd_token d) as [Hi' Ht'] by (split; congruence).
  exists t, r. split_and!; [done|done|rewrite <- Hi', <- Ht'; apply HL2|].
  pose proof (conclude_spec w2 i t r (rd_clock d 1) (rd_uuid d) E Es) as HC. cbn zeta in HC.
  destruct (tk_lease_lost t).
  - destruct HC as [-> [msg ->]]. by split; [|eexists].
  - destruct HC as [-> ->]. destruct (final_report t r _ _ (store w2)) as [s' [o|e]] eqn:Er; [|done]. cbn [fst snd].
    destruct (final_report_spec _ _ _ _ _ _ _ HL2 Hu Er) as [Hn Hr]. rewrite Hi' in Hn, Hr. destruct r as [v|e].
    + destruct Hr as (j & -> & H1 & H2). by split_and!.
    + destruct Hr as (j & -> & H1 & H2 & H3). by split_and!.
Qed.

(** C10: what one run of the worker does with the job it claims, when nothing
    interferes.  A job with a deferred failure is failed for good without its
    processor.  Otherwise the processor runs to a result while the worker
    keeps the lease; the lease is then reported once: a value completes the
    job, an error fails it with the text of the error, and for good if the
    processor discarded the retries or the error is unrecoverable.  If a
    renewal failed meanwhile, nothing is reported. *)
Theorem run_once_outcome w i now d s1 n s2 job : backend_ok (store w) → rd_uuid d ≠ EmptyString →
  promote_due_jobs now (store w) = (s1, Ok n) →
  claim_next (wc_worker_id cfg) (wc_lease_duration cfg) now (rd_token d) s1 = (s2, Ok (Some job)) →
  let w1 := begin_claimed cfg processor (w <| store := s2 |>) i PerJob job (rd_clock d O) in
  let '(w', outcome) := run_once cfg processor w i now d in
  match job_deferred_failure job with
  | Some reason =>
      match outcome with
      | Ok (RunFailed f) => job_id f = job_id job ∧ job_state f = Failed ∧ job_failed_reason f = Some reason ∧
                            holder (store w') (job_id job) = None
      | Ok _ => False
      | Err _ => True
      end
  | None =>
      ∃ t result, slots (process cfg d i w1) !! i = Some (Working t) ∧ tk_stage t = Running (Return result) ∧
        holder (store (process cfg d i w1)) (job_id job) = Some (rd_token d) ∧
        if tk_lease_lost t
        then store w' = store (process cfg d i w1) ∧ ∃ msg, outcome = Err (JobLeaseConflict msg)
        else match outcome, result with
             | Ok (RunCompleted j), Ok _ => job_id j = job_id job ∧ job_state j = Completed ∧
                                            holder (store w') (job_id job) = None
             | Ok (RunFailed j), Err e => job_id j = job_id job ∧ job_failed_reason j = Some (error_to_string e) ∧
                 (tk_discard_retry t || is_unrecoverable_job e = true → job_state j = Failed) ∧ holder (store w') (job_id job) = None
             | Err _, _ => True
             | _, _ => False
             end
  end.
Proof. apply run_once_spec. Qed.

(** ** A run of the worker is an interleaving *)
Lemma put_put w i x y : put_slot (put_slot w i x) i y = put_slot w i y.
Proof. unfold put_slot. destruct w. unfold upd. simpl. by rewrite insert_insert_eq. Qed.

(** The region that starts a claimed job, as an action. *)
Lemma begin_region w i mode job now :
  step (put_slot w i (Claimed mode job)) (ABegin i now) = begin_claimed cfg processor w i mode job now.
Proof.
  cbn [wexec]. rewrite lookup_put_slot, decide_True by done. unfold begin_claimed, finish, put_task.
  destruct (job_lock_token job) as [t|]; [|apply put_put].
  destruct (job_deferred_failure job) as [e|].
  - change (store (put_slot w i (Claimed mode job))) with (store w).
    destruct (fail_job_discarding_retry _ _ _ _ _) as [s r]. exact (put_put (w <| store := s |>) i (Claimed mode job) _).
  - destruct mode; [apply put_put|exact (put_put (register_active_lease w (job_id job) t i) i (Claimed SharedWorker job) _)].
Qed.

Lemma begin_slot w i mode job now : let w1 := begin_claimed cfg processor w i mode job now in
  (∃ t p, slots w1 !! i = Some (Working t) ∧ tk_stage t = Running p) ∨ ∃ x, slots w1 !! i = Some (Finished x).
Proof.
  unfold begin_claimed, finish, put_task.
  destruct (job_lock_token job) as [t|]; [destruct (job_deferred_failure job)|].
  1: destruct (fail_job_discarding_retry _ _ _ _ _).
  all: cbn zeta; rewrite lookup_put_slot, decide_True by done; eauto.
Qed.

Lemma process_regions d i w : (∃ t p, slots w !! i = Some (Working t) ∧ tk_stage t = Running p) ∨
    (∃ x, slots w !! i = Some (Finished x)) →
  ∃ acts, process cfg d i w = wrun cfg processor w acts ∧ Forall (proc_action i) acts.
Proof.
  unfold process. intros [(t & p & E & Es)|[x E]]; rewrite E; [|by exists []]. rewrite Es.
  destruct (drive_spec d i p 0 w t E Es) as (_ & _ & acts & _ & _ & _ & _ & Ha & Ew). by exists acts.
Qed.

Lemma run_once_regions w i now d : slots w !! i = None → rd_uuid d ≠ EmptyString →
  ∃ acts, (run_once cfg processor w i now d).1 = wrun cfg processor w acts ∧ Forall action_ok acts ∧
    Forall (λ a, a = APromoteDue now ∨ a = AClaim i PerJob None now (rd_token d) ∨ acts_on a = Some i) acts.
Proof.
  intros E Hu. unfold run_once. destruct (promote_due_jobs now (store w)) as [s1 r1] eqn:Ep.
  assert (step w (APromoteDue now) = w <| store := s1 |>) as Ew1 by (cbn [wexec]; by rewrite Ep).
  destruct r1 as [n|e]; [|exists [APromoteDue now]; cbn; rewrite Ep; split_and!; [done|by apply Forall_singleton..|];
    apply Forall_singleton; by left].
  change (store (w <| store := s1 |>)) with s1.
  destruct (claim_next _ _ now (rd_token d) s1) as [s2 r2] eqn:Ec.
  set (claimed := claim_into (w <| store := s2 |>) i PerJob r2).
  assert (wrun cfg processor w [APromoteDue now; AClaim i PerJob None now (rd_token d)] = claimed) as Ew2.
  { cbn [wrun foldl]. rewrite Ew1. cbn [wexec]. change (slots (w <| store := s1 |>)) with (slots w).
    change (store (w <| store := s1 |>)) with s1. rewrite E. unfold claim. by rewrite Ec. }
  assert (∀ l, Forall action_ok l → Forall (λ a, acts_on a = Some i) l →
    ∃ acts, wrun cfg processor claimed l = wrun cfg processor w acts ∧ Forall action_ok acts ∧
      Forall (λ a, a = APromoteDue now ∨ a = AClaim i PerJob None now (rd_token d) ∨ acts_on a = Some i) acts) as Hl.
  { intros l Hok Hi. exists ([APromoteDue now; AClaim i PerJob None now (rd_token d)] ++ l).
    unfold wrun in *. rewrite foldl_app, Ew2. split; [done|]. split; [by repeat constructor|].
    constructor; [by left|]. constructor; [by right; left|]. eapply Forall_impl; [done|]. by right; right. }
  destruct r2 as [[job|]|e]; [|by apply (Hl [])..].
  unfold process_claimed. cbn [fst]. change (w <| store := s1 |> <| store := s2 |>) with (w <| store := s2 |>).
  rewrite <- (begin_region (w <| store := s2 |>)). change (put_slot _ i _) with claimed.
  destruct (process_regions d i (step claimed (ABegin i (rd_clock d O)))) as (acts & Ew & Ha).
  { unfold claimed, claim_into. rewrite begin_region. apply begin_slot. }
  rewrite Ew.
  replace (wrun cfg processor (wrun cfg processor (step claimed (ABegin i (rd_clock d O))) acts) _)
    with (wrun cfg processor claimed (ABegin i (rd_clock d O) :: acts ++ [AJudge i; AFinalize i (rd_clock d 1) (rd_uuid d); AStop i])); cycle 1.
  { unfold wrun. cbn [foldl]. by rewrite foldl_app. }
  apply Hl.
  - constructor; [done|]. apply Forall_app. split; [|by repeat constructor].
    eapply Forall_impl; [done|]. by intros a [[? ->]| ->].
  - constructor; [done|]. apply Forall_app. split; [|by repeat constructor].
    eapply Forall_impl; [done|]. by intros a [[? ->]| ->].
Qed.

(** ** Running until the queue is idle *)
(** The slots from [k] on are free. *)
Definition free_from w (k : nat) : Prop := ∀ j, (k ≤ j)%nat → slots w !! j = None.

Lemma run_once_keeps w k now d : backend_ok (store w) → rd_uuid d ≠ EmptyString → free_from w k →
  backend_ok (store (run_once cfg processor w k now d).1) ∧
  free_from (run_once cfg processor w k now d).1 (Datatypes.S k).
Proof.
  intros Hs Hu Hf. destruct (run_once_regions w k now d) as (acts & -> & Hok & Ha); [by apply Hf|done|].
  apply (foldl_keeps_forall (λ w, backend_ok (store w) ∧ free_from w (Datatypes.S k))
    (λ a, action_ok a ∧ (a = APromoteDue now ∨ a = AClaim k PerJob None now (rd_token d) ∨ acts_on a = Some k)));
    [|by apply Forall_and|].
  - intros w0 a [Hs0 Hf0] [Hok0 Ha0]. split; [by eapply calls_ok; [|apply step_calls]|].
    intros j Hj. rewrite step_other; [by apply Hf0| |]; [|by destruct Ha0 as [->|[->|?]]; [| |intros ->]].
    destruct Ha0 as [->|[->| ->]]; simpl; [done|injection|injection]; lia.
  - split; [done|]. intros j Hj. apply Hf. lia.
Qed.

Lemma run_until_idle_spec max : ∀ w k draws w' n,
  backend_ok (store w) → (∀ i, rd_uuid (draws i).2 ≠ EmptyString) → free_from w k →
  run_until_idle cfg processor w max k draws = (w', Ok n) →
  (k ≤ n ≤ k + max)%nat ∧
  ((n < k + max)%nat → ∃ w0, backend_ok (store w0) ∧
     run_once cfg processor w0 n (draws n).1 (draws n).2 = (w', Ok NoJob)).
Proof.
  induction max as [|max IH]; intros w k draws w' n Hs Hu Hf; cbn [run_until_idle].
  { intros [= <- <-]. lia. }
  destruct (run_once_keeps w k (draws k).1 (draws k).2 Hs (Hu k) Hf) as [Hs1 Hf1].
  destruct (run_once cfg processor w k _ _) as [w1 [[j|j|]|e]] eqn:E; [| | |done].
  1,2: intros H%IH; [|done..]; destruct H as [H1 H2]; split; [lia|]; intros; apply H2; lia.
  intros [= <- <-]. split; [lia|]. intros _. by exists w.
Qed.
End rules.
