(* ===== verification/WorkerMemory.v ===== *)
(** * The worker on the in-memory queue

    When a run finds nothing to do, what [run_until_idle] leaves, and concrete
    runs of a worker. *)
From S2P Require Import Prelude Ordering Text External Retry JobTypes JobStore.
From S2P Require Import JobDedup JobFlows JobCore JobQueries JobAdmin JobAdd JobInvariant.
From S2P Require Import JobPreserve JobHandlers JobSubmit JobSnapshot JobSystem JobClaim JobReports JobLeases Backend.
From S2P Require Import BackendMemory Worker WorkerRules.
Local Open Scope Z_scope.

Section memory.
Context {X : Ext} `{!ExtLaws X}.
Context (queue : string) (cfg : JobWorkerConfig) (processor : JobProcessor).
Local Instance backend : JobQueueBackend QueueState := memory_backend queue.
Implicit Types (w : @JobWorker X QueueState).

(** Nothing can be claimed: the queue is paused, or no job waits and no delayed
    job is due. *)
Definition nothing_to_claim (s : QueueState) (now : DateTime) : Prop :=
  paused s = true ∨ ∀ j, ¬ eligible s now j.

Lemma unclaimed s wid l now t s' : wf s → JobCore.claim_next s wid l now t = (s', Ok None) → nothing_to_claim s' now.
Proof.
  intros W E. destruct (claim_cases s wid l now t W) as [[Hp E']|[(_ & Hn & E')|(_ & j & _ & _ & _ & E')]];
    rewrite E' in E; [| |done].
  - injection E as <-. by left.
  - injection E as <-. right. intros j [Hj Hst].
    destruct (promote_due_spec s s now (inv_refl s W)) as (HI & _ & _ & Hkeep & Hdue & Hnone).
    destruct Hst as [Hst|[Hst Ht]].
    + destruct (waiting_after_promotion s now _ j W Hj Hst) as (j0 & He & _). by apply (Hn j0).
    + destruct (jobs s !! job_id j) as [j0|] eqn:Ej; [|by rewrite Hnone in Hj].
      destruct (wf_lookup s W _ _ Ej) as (Hid & _).
      destruct (decide (job_state j0 = Delayed ∧ job_scheduled_at j0 ≤ now)) as [Hd|Hd].
      * apply (Hn j0). split; [by rewrite Hid|by right].
      * rewrite (Hkeep _ _ Ej Hd) in Hj. injection Hj as ->. by destruct Hd.
Qed.

Lemma run_once_idle w i now d w' : backend_ok (store w) → rd_uuid d ≠ EmptyString →
  run_once cfg processor w i now d = (w', Ok NoJob) → nothing_to_claim (store w') now.
Proof.
  intros Hs Hu E. pose proof (ok_invoke (store w) (OpPromoteDue now) Hs I) as Hs1. unfold invoke in Hs1; cbn [perform ack fst] in Hs1.
  pose proof (run_once_spec cfg processor w i now d) as HT. unfold run_once in *.
  destruct (promote_due_jobs now (store w)) as [s1 [n|e]] eqn:Ep; [|done]. cbn [fst] in Hs1.
  change (store (w <| store := s1 |>)) with s1 in *.
  destruct (claim_next _ _ now (rd_token d) s1) as [s2 [[job|]|e]] eqn:Ec; [| |done].
  - specialize (HT s1 n s2 job Hs Hu eq_refl Ec). rewrite E in HT. cbn beta iota zeta in HT.
    destruct (job_deferred_failure job); [done|]. destruct HT as (t & r & _ & _ & _ & HT).
    destruct (tk_lease_lost t); [by destruct HT as (_ & msg & ?)|by destruct r].
  - injection E as <-. exact (unclaimed s1 _ _ now (rd_token d) s2 Hs1 Ec).
Qed.

(** C18: [run_until_idle] ends; it processes at most [max_jobs] jobs, and when it
    processed fewer the queue it leaves is paused or has no job that could be
    claimed at the time of its last look. *)
Theorem run_until_idle_drains w max draws w' n :
  wf (store w) → (∀ i, rd_uuid (draws i).2 ≠ EmptyString) → slots w = ∅ →
  run_until_idle cfg processor w max 0 draws = (w', Ok n) →
  (n ≤ max)%nat ∧ ((n < max)%nat → nothing_to_claim (store w') (draws n).1).
Proof.
  intros Hs Hu He E. change (backend_ok (store w)) in Hs.
  destruct (run_until_idle_spec cfg processor max w 0 draws w' n Hs Hu) as [Hn Hl]; [|done|].
  { intros j _. by rewrite He, lookup_empty. }
  split; [lia|]. intros Hlt. destruct Hl as (w0 & Hs0 & E0); [lia|]. by apply (run_once_idle w0 n _ (draws n).2).
Qed.
End memory.

(** ** Concrete runs *)
Module WorkerDemo.
Import Demo.
#[export] Instance demo_backend : JobQueueBackend QueueState := memory_backend "q".

Definition demo_config : JobWorkerConfig := with_lease_duration (with_concurrency (worker_config_new "w1") 2) 30.

(** Stores a progress value and answers, or fails without retry for job ["b"]. *)
Definition demo_processor : @JobProcessor demo_ext := λ job _,
  Call (UpdateProgress ("half" : @Value demo_ext)) (λ _,
    if String.eqb (job_id job) "b" then DiscardRetry (Return (Err (CommandError "no")))
    else Return (Ok ("done" : @Value demo_ext))).

Definition demo_draws (n : nat) : DateTime * RunDraws :=
  (10 * Z.of_nat n, {| rd_token := "t" +:+ pretty.pretty n; rd_clock := λ k, 10 * Z.of_nat n + Z.of_nat k;
                       rd_uuid := "u"; rd_cut := None |}).

Definition demo_worker : @JobWorker demo_ext QueueState := worker_new queue3.

(** The worker while it processes job ["b"], and after the lease expired there. *)
Definition started : @JobWorker demo_ext QueueState :=
  wrun demo_config demo_processor demo_worker [AClaim 0 SharedWorker (Some 5) 10 "t1"; ABegin 0 11].
Definition expired : @JobWorker demo_ext QueueState :=
  wrun demo_config demo_processor started [ARecover 100].

(** Job and token of a slot whose processor runs under a lease not marked lost. *)
Definition in_progress (w : @JobWorker demo_ext QueueState) (i : nat) : option (string * string) :=
  match slots w !! i with
  | Some (Working t) =>
      match tk_stage t with
      | Running _ => if tk_lease_lost t then None else Some (tk_job_id t, tk_lock_token t)
      | _ => None
      end
  | _ => None
  end.

(** The same job claimed again by the worker, and the first run's end. *)
Definition takeover : list (@WorkerAction demo_ext) :=
  [AClaim 1 SharedWorker (Some 5) 101 "t2"; ABegin 1 102; AProc 0 103; AProc 0 104; AJudge 0; AFinalize 0 105 "u"; AStop 0].
End WorkerDemo.
Import Demo WorkerDemo.

Lemma in_progress_task w i id t : in_progress w i = Some (id, t) → ∃ k p,
  slots w !! i = Some (Working k) ∧ tk_stage k = Running p ∧ tk_job_id k = id ∧ tk_lock_token k = t.
Proof.
  unfold in_progress. destruct (slots w !! i) as [[|k|]|]; try done. destruct (tk_stage k) as [p| |] eqn:E; try done.
  destruct (tk_lease_lost k); [done|]. intros [= <- <-]. by exists k, p.
Qed.

(** The error a finished slot ended with. *)
Definition ended_with (w : @JobWorker demo_ext QueueState) (i : nat) : option string :=
  match slots w !! i with
  | Some (Finished (Err e)) => Some (error_to_string e)
  | _ => None
  end.

(** A run whose lease was taken over ends the renewals of its successor.
    The lease table is keyed by the job alone: when a worker claims a job again
    after its own lease on it expired, the end of the first run takes the entry
    of the second out of the table, and the batch renewal no longer covers a
    lease that the worker holds and works under. *)
Theorem stale_run_stops_renewals :
  let w := wrun demo_config demo_processor expired takeover in
  lease_holder (store w) "b" = Some "t2" ∧
  in_progress w 1 = Some ("b", "t2") ∧
  active_lease_renewals w = [].
Proof. split; [|split]; vm_compute; reflexivity. Qed.

Lemma run_until_idle_drains_witness :
  let r := run_until_idle demo_config demo_processor demo_worker 5 0 demo_draws in
  r.2 = Ok 2%nat ∧ nothing_to_claim (store r.1) 20.
Proof.
  assert ((run_until_idle demo_config demo_processor demo_worker 5 0 demo_draws).2 = Ok 2%nat) as E
    by (vm_compute; reflexivity).
  split; [exact E|].
  apply (run_until_idle_drains "q" demo_config demo_processor demo_worker 5 demo_draws
    (run_until_idle demo_config demo_processor demo_worker 5 0 demo_draws).1 2%nat).
  - apply (reachable_wf_aux "q"), queue3_reachable.
  - discriminate.
  - reflexivity.
  - rewrite <- E. apply surjective_pairing.
  - lia.
Defined.

Lemma expired_ok : backend_ok (store expired).
Proof.
  apply wrun_ok; [apply wrun_ok|repeat constructor]; [|repeat constructor].
  apply (reachable_wf_aux "q"), queue3_reachable.
Qed.

Lemma lost_lease_never_reported_witness :
  ended_with (wrun demo_config demo_processor expired takeover) 0 = Some "Job lease conflict: lock token does not own job b"
  ∧ ∀ o, slots (wrun demo_config demo_processor expired takeover) !! 0%nat = Some (Finished o) → ∃ e, o = Err e.
Proof.
  split; [vm_compute; reflexivity|]. intros o Ho.
  destruct (in_progress_task expired 0 "b" "t1" ltac:(vm_compute; reflexivity)) as (k & p & E & Es & Hid & Ht).
  apply (lost_lease_never_reported demo_config demo_processor expired 0 k takeover o).
  - exact expired_ok.
  - exact E.
  - rewrite Es, Hid, Ht. right. change (lease_holder (store expired) "b" ≠ Some "t1"). vm_compute. discriminate.
  - repeat constructor; discriminate.
  - rewrite Ht. unfold takeover. repeat apply List.Forall_cons; [discriminate|..|apply List.Forall_nil]; exact (λ H, H).
  - exact Ho.
Defined.

Abbreviation demo_run := (run_once demo_config demo_processor demo_worker 0 10 (demo_draws 1).2).

Lemma run_once_outcome_witness :
  is_ok demo_run.2 = true ∧ lease_holder (store demo_run.1) "b" = None.
Proof.
  assert (is_ok demo_run.2 = true) as Hok by (vm_compute; reflexivity). split; [exact Hok|].
  set (p := JobCore.promote_due_jobs queue3 10).
  assert (p.2 = Ok O) as Hp by (vm_compute; reflexivity).
  set (c := JobCore.claim_next p.1 "w1" 30 10 "t1").
  assert (match c.2 with Ok (Some j) => Some (job_id j, job_deferred_failure j) | _ => None end = Some ("b", None)) as Hc
    by (vm_compute; reflexivity).
  destruct c.2 as [[job|]|] eqn:Ec; try discriminate Hc. injection Hc as Hid Hd.
  assert (JobCore.promote_due_jobs queue3 10 = (p.1, Ok O)) as Ep by (rewrite <- Hp; apply surjective_pairing).
  assert (JobCore.claim_next p.1 "w1" 30 10 "t1" = (c.1, Ok (Some job))) as Ec' by (rewrite <- Ec; apply surjective_pairing).
  clearbody p c.
  pose proof (run_once_outcome demo_config demo_processor demo_worker 0 10 (demo_draws 1).2 p.1 0 c.1 job) as HT.
  cbv zeta in HT. rewrite Hd, Hid in HT. rewrite (surjective_pairing demo_run) in HT.
  destruct HT as (t & result & _ & _ & _ & HT); [|discriminate|exact Ep|exact Ec'|].
  { apply (reachable_wf_aux "q"), queue3_reachable. }
  destruct (tk_lease_lost t).
  - destruct HT as [_ [msg E]]. rewrite E in Hok. discriminate Hok.
  - destruct demo_run.2 as [[j|j|]|e]; [| | |discriminate Hok]; destruct result; try contradiction; apply HT.
Defined.
