(* ===== verification/Sums.v ===== *)
(** * Sums over lists

    Counting by [sum_list_with] over lists that are updated, extended or cut,
    and the tactic [totals] that rewrites such sums for [lia]. *)
From S2P Require Import Prelude.
Local Open Scope nat_scope.

(** ** Sums over lists *)
Abbreviation total := sum_list_with (only parsing).

Section total.
Context {A : Type} (f : A → nat).

Lemma total_insert l i x y : l !! i = Some x → total f (<[i := y]> l) + f x = total f l + f y.
Proof.
  revert i. induction l as [|a l IH]; intros [|i] H; simplify_eq/=; [lia|]. specialize (IH i H). lia.
Qed.

Lemma total_delete l i x : l !! i = Some x → total f (delete i l) + f x = total f l.
Proof.
  revert i. induction l as [|a l IH]; intros [|i] H; simplify_eq/=; [lia|]. specialize (IH i H). lia.
Qed.

Lemma total_snoc l x : total f (l ++ [x]) = total f l + f x.
Proof. rewrite sum_list_with_app. simpl. lia. Qed.

Lemma total_zero l : Forall (λ x, f x = 0) l → total f l = 0.
Proof. induction 1; simpl; lia. Qed.

Lemma total_zero_inv l : total f l = 0 → Forall (λ x, f x = 0) l.
Proof. induction l; simpl; intros H; constructor; [lia|]. apply IHl. lia. Qed.
End total.

Lemma total_witness {A} (f : A → nat) (l : list A) : total f l ≠ 0 → ∃ x, x ∈ l ∧ f x ≠ 0.
Proof.
  induction l as [|x l IH]; simpl; [lia|]. intros H. destruct (decide (f x = 0)) as [E|E].
  - destruct IH as (y & Hy & ?); [lia|]. exists y. split; [by right|done].
  - exists x. split; [by left|done].
Qed.

Lemma total_elem {A} (f : A → nat) (l : list A) x : x ∈ l → f x ≤ total f l.
Proof. induction 1; simpl; lia. Qed.

(** [1] for true: kept folded by the simplifiers. *)
Definition ind (b : bool) : nat := if b then 1 else 0.
#[global] Arguments ind : simpl never.

Lemma ind_le b : ind b ≤ 1.
Proof. destruct b; unfold ind; lia. Qed.

(** Computes on records and constructors but keeps the tests on channels. *)
Ltac reduce := cbn -[Nat.ltb Nat.leb Nat.eqb Z.of_nat].
Ltac reduce_all := cbn -[Nat.ltb Nat.leb Nat.eqb Z.of_nat] in *.

(** Rewrites every sum over an updated list, then closes by arithmetic. *)
Ltac totals :=
  repeat match goal with
  | |- context [total ?f (?l ++ [?x])] => rewrite (total_snoc f l x)
  | H : ?l !! ?i = Some ?x |- context [total ?f (<[?i := ?y]> ?l)] =>
      lazymatch goal with
      | _ : total f (<[i := y]> l) + _ = _ |- _ => fail
      | _ => pose proof (total_insert f l i x y H)
      end
  | H : ?l !! ?i = Some ?x |- context [total ?f (delete ?i ?l)] =>
      lazymatch goal with
      | _ : total f (delete i l) + _ = _ |- _ => fail
      | _ => pose proof (total_delete f l i x H)
      end
  end.
