(* ===== verification/Distributed.v ===== *)
(** * Partitioning and the distributed queue ([src/partition.rs], [src/distributed.rs])

    How commands are spread over partitions: the partitioners, the
    configuration and what a partitioner is made for a strategy.  [usize] is
    64 bits wide; the hash of [DefaultHasher] is a parameter. *)
From S2P Require Import Prelude Text External Sums.
Local Open Scope Z_scope.

Section partition.
(** [HashPartitioner::hash_string]: a [u64]. *)
Context (hash_string : string → Z).

Inductive Partitioner : Type :=
| RoundRobinPartitioner (counter : Z)        (* AtomicUsize *)
| HashPartitioner
| CustomPartitioner (func : string → Z).     (* returns a usize *)

Definition round_robin_new : Partitioner := RoundRobinPartitioner 0.

(** [a % b] on [usize]: panics for [b = 0]. *)
Definition checked_rem (a b : Z) : option Z := if b =? 0 then None else Some (a `mod` b).

(** [fetch_add(1)] wraps around. *)
Definition fetch_add_one (counter : Z) : Z := (counter + 1) `mod` 2 ^ 64.

(** [Partitioner::partition] on a command of the given type; [None] is the
    panic of a division by zero. *)
Definition partition (p : Partitioner) (command_type : string) (num_partitions : Z) : Partitioner * option Z :=
  match p with
  | RoundRobinPartitioner counter =>
      (RoundRobinPartitioner (fetch_add_one counter), checked_rem counter num_partitions)
  | HashPartitioner => (p, checked_rem (hash_string command_type) num_partitions)
  | CustomPartitioner func => (p, checked_rem (func command_type) num_partitions)
  end.

Inductive PartitionStrategy : Type := StrategyRoundRobin | StrategyHash | StrategyNone.

Record PartitionConfig := mkPartitionConfig { num_partitions : Z; strategy : PartitionStrategy }.

Definition partition_config_auto (num_cores : Z) : PartitionConfig := mkPartitionConfig num_cores StrategyRoundRobin.
Definition partition_config_hash (n : Z) : PartitionConfig := mkPartitionConfig n StrategyHash.
Definition partition_config_round_robin (n : Z) : PartitionConfig := mkPartitionConfig n StrategyRoundRobin.
Definition partition_config_none : PartitionConfig := mkPartitionConfig 1 StrategyNone.

Definition create_partitioner (c : PartitionConfig) : Partitioner :=
  match strategy c with
  | StrategyRoundRobin => round_robin_new
  | StrategyHash => HashPartitioner
  | StrategyNone => round_robin_new
  end.

(** The partitions of a sequence of commands. *)
Fixpoint partitions (p : Partitioner) (n : Z) (types : list string) : list (option Z) :=
  match types with
  | [] => []
  | t :: types => let '(p, i) := partition p t n in i :: partitions p n types
  end.

(** ** Range *)
Lemma checked_rem_range a n i : 0 < n → checked_rem a n = Some i → 0 ≤ i < n.
Proof.
  unfold checked_rem. destruct (Z.eqb_spec n 0); [done|]. intros Hn [= <-]. by apply Z.mod_pos_bound.
Qed.

Lemma partition_some p t n : 0 < n → ∃ i, (partition p t n).2 = Some i ∧ 0 ≤ i < n.
Proof.
  intros Hn. assert (∀ a, ∃ i, checked_rem a n = Some i ∧ 0 ≤ i < n) as H.
  { intros a. unfold checked_rem. destruct (Z.eqb_spec n 0); [lia|]. eexists. split; [done|]. by apply Z.mod_pos_bound. }
  destruct p; apply H.
Qed.

(** ** Round robin *)

(** How many of [m] consecutive numbers from [c] on have remainder [i]. *)
Lemma rem_step a n : 0 < n → (a + 1) `mod` n = if a `mod` n =? n - 1 then 0 else a `mod` n + 1.
Proof.
  intros Hn. pose proof (Z.mod_pos_bound a n Hn). pose proof (Z.div_mod a n ltac:(lia)).
  destruct (Z.eqb_spec (a `mod` n) (n - 1)).
  - symmetry. apply (Z.mod_unique _ _ (a `div` n + 1)); lia.
  - symmetry. apply (Z.mod_unique _ _ (a `div` n)); lia.
Qed.

Definition hits (i : Z) (l : list (option Z)) : Z :=
  Z.of_nat (length (filter (λ o, o = Some i) l)).

Lemma hits_cons i o l : hits i (o :: l) = (if decide (o = Some i) then 1 else 0) + hits i l.
Proof. unfold hits. rewrite filter_cons. destruct (decide _); simpl; lia. Qed.

(** [(c + m - 1 - i) / n - (c - 1 - i) / n], with floors, counts them. *)
Lemma round_robin_hits n i types : 0 < n → 0 ≤ i < n → ∀ c, 0 ≤ c →
  c + Z.of_nat (length types) ≤ 2 ^ 64 →
  hits i (partitions (RoundRobinPartitioner c) n types)
  = (c + Z.of_nat (length types) - 1 - i) `div` n - (c - 1 - i) `div` n.
Proof.
  intros Hn Hi. induction types as [|t types IH]; intros c Hc Hb.
  { change (0 = (c + 0 - 1 - i) `div` n - (c - 1 - i) `div` n). rewrite Z.add_0_r. lia. }
  rewrite length_cons in *. cbn [partitions partition]. rewrite hits_cons. unfold fetch_add_one, checked_rem.
  destruct (Z.eqb_spec n 0); [lia|].
  assert ((if decide (Some (c `mod` n) = Some i) then 1 else 0) = (c - i) `div` n - (c - 1 - i) `div` n) as Hone.
  { pose proof (Z.mod_pos_bound c n Hn). pose proof (Z.div_mod c n ltac:(lia)) as Hd.
    destruct (decide (Some (c `mod` n) = Some i)) as [[= E]|E].
    - rewrite <- (Z.div_unique (c - i) n (c `div` n) 0) by lia.
      rewrite <- (Z.div_unique (c - 1 - i) n (c `div` n - 1) (n - 1)) by lia. lia.
    - assert (c `mod` n ≠ i) by congruence. destruct (Z.lt_ge_cases (c `mod` n) i).
      + rewrite <- (Z.div_unique (c - i) n (c `div` n - 1) (c `mod` n - i + n)) by lia.
        rewrite <- (Z.div_unique (c - 1 - i) n (c `div` n - 1) (c `mod` n - i - 1 + n)) by lia. lia.
      + rewrite <- (Z.div_unique (c - i) n (c `div` n) (c `mod` n - i)) by lia.
        rewrite <- (Z.div_unique (c - 1 - i) n (c `div` n) (c `mod` n - i - 1)) by lia. lia. }
  rewrite Hone. destruct types as [|t' types'].
  { assert (∀ p, hits i (partitions p n []) = 0) as Hnil by done. rewrite Hnil. cbn [length]. replace (c + Z.of_nat 1 - 1 - i) with (c - i) by lia. lia. }
  rewrite length_cons in *. rewrite Z.mod_small by lia. rewrite IH by lia.
  replace (c + 1 - 1 - i) with (c - i) by lia.
  replace (c + Z.of_nat (S (S (length types'))) - 1 - i) with (c + 1 + Z.of_nat (S (length types')) - 1 - i) by lia. lia.
Qed.

(** A round-robin partitioner spreads commands evenly.  Every partition is
    in range, and of any number of commands each of the [n] partitions gets
    its share up to one, until the counter wraps around at 2^64. *)
Theorem round_robin_is_even n types i : 0 < n → 0 ≤ i < n → Z.of_nat (length types) ≤ 2 ^ 64 →
  let l := partitions round_robin_new n types in
  Forall (λ o, ∃ k, o = Some k ∧ 0 ≤ k < n) l ∧
  Z.of_nat (length types) `div` n ≤ hits i l ≤ Z.of_nat (length types) `div` n + 1.
Proof.
  intros Hn Hi Hb l. split.
  - subst l. generalize round_robin_new. induction types as [|t types IH]; intros p; [by constructor|].
    cbn [partitions]. destruct (partition_some p t n Hn) as (k & Hk & Hr).
    destruct (partition p t n) as [p' o]. cbn in Hk. constructor; [by exists k|]. apply IH.
    rewrite length_cons in Hb. lia.
  - subst l. unfold round_robin_new. rewrite (round_robin_hits n i) by lia.
    set (m := Z.of_nat (length types)) in *. assert ((0 - 1 - i) `div` n = -1) as -> by (symmetry; apply (Z.div_unique _ _ _ (n - 1 - i)); lia).
    pose proof (Z.div_mod m n ltac:(lia)) as Hm. pose proof (Z.mod_pos_bound m n Hn).
    destruct (Z.lt_ge_cases (m `mod` n) (i + 1)).
    + rewrite <- (Z.div_unique (0 + m - 1 - i) n (m `div` n - 1) (m `mod` n - 1 - i + n)) by lia. lia.
    + rewrite <- (Z.div_unique (0 + m - 1 - i) n (m `div` n) (m `mod` n - 1 - i)) by lia. lia.
Qed.

(** Commands of one type stay together under a partitioner without a counter. *)
Lemma hash_is_stable p t n : (∀ c, p ≠ RoundRobinPartitioner c) → partition p t n = (p, (partition p t n).2).
Proof. destruct p; [by intros H; destruct (H counter)|done..]. Qed.
End partition.

Lemma round_robin_is_even_witness :
  let l := partitions (λ _, 0) round_robin_new 3 ["a"; "b"; "c"; "d"; "e"; "f"; "g"] in
  l = [Some 0; Some 1; Some 2; Some 0; Some 1; Some 2; Some 0] ∧ 2 ≤ hits 0 l ≤ 3.
Proof.
  split; [reflexivity|].
  apply (round_robin_is_even (λ _, 0) 3 ["a"; "b"; "c"; "d"; "e"; "f"; "g"] 0); simpl; lia.
Defined.

(** With no partitions every partitioner panics. *)
Example no_partitions : (partition (λ _, 0) (create_partitioner (partition_config_round_robin 0)) "a" 0).2 = None.
Proof. reflexivity. Qed.

(** * The distributed queue

    [LocalDistributedQueue]: a bounded channel per partition and one for the
    results; [WorkerPool]: a task per partition that takes commands, executes
    them and reports.  A task is at one of a few places, and any interleaving
    of its steps with the calls of the coordinator is a list of [PoolAction]s.
    What was enqueued, dequeued and received is kept beside the state. *)
Local Open Scope nat_scope.

Section distributed.
Context {X : Ext}.

Record CommandEnvelope := mkEnvelope {
  env_id : string;
  env_command_type : string;
  env_lane_id : string;
  partition_id : nat;            (* usize *)
  env_payload : Value;
  env_retry_count : Z;           (* u32 *)
  env_created_at : DateTime;
}.

Record CommandResult := mkResult {
  command_id : string;
  cmd_result : outcome string Value;
  result_worker_id : string;
  duration_ms : Z;               (* u64 *)
}.

(** ** [LocalDistributedQueue] *)

(** [mpsc::channel(1000)], for every partition and for the results. *)
Definition CHANNEL_CAPACITY : nat := 1000.

Record LocalDistributedQueue := mkDistributed {
  ld_worker_id : string;
  partition_config : PartitionConfig;
  partitioner : Partitioner;
  channels : list (list CommandEnvelope);
  results : list CommandResult;
}.
#[export] Instance eta_LocalDistributedQueue : Eta LocalDistributedQueue := λ q,
  mkDistributed (ld_worker_id q) (partition_config q) (partitioner q) (channels q) (results q).

Definition distributed_new (c : PartitionConfig) (uuid : string) : LocalDistributedQueue :=
  mkDistributed ("local-" +:+ uuid) c (create_partitioner c) (replicate (Z.to_nat (num_partitions c)) []) [].

(** A call that sends on a channel returns, or waits for room. *)
Inductive Sending : Type :=
| Returns (r : Result unit)
| WaitsForRoom.

Definition has_room {A} (l : list A) : bool := (length l <? CHANNEL_CAPACITY).

Definition enqueue (q : LocalDistributedQueue) (e : CommandEnvelope) : LocalDistributedQueue * Sending :=
  match channels q !! partition_id e with
  | None => (q, Returns (Err (Other ("Invalid partition ID: " +:+ pretty.pretty (partition_id e)))))
  | Some l =>
      if has_room l then (q <| channels ::= <[ partition_id e := l ++ [e] ]> |>, Returns (Ok tt)) else (q, WaitsForRoom)
  end.

Definition dequeue (q : LocalDistributedQueue) (p : nat) : LocalDistributedQueue * Result (option CommandEnvelope) :=
  match channels q !! p with
  | None => (q, Err (Other ("Invalid partition ID: " +:+ pretty.pretty p)))
  | Some [] => (q, Ok None)
  | Some (e :: l) => (q <| channels ::= <[ p := l ]> |>, Ok (Some e))
  end.

Definition complete (q : LocalDistributedQueue) (r : CommandResult) : LocalDistributedQueue * Sending :=
  if has_room (results q) then (q <| results ::= λ l, l ++ [r] |>, Returns (Ok tt)) else (q, WaitsForRoom).

(** The coordinator takes a result from [result_receiver]. *)
Definition receive (q : LocalDistributedQueue) : LocalDistributedQueue * option CommandResult :=
  match results q with
  | [] => (q, None)
  | r :: l => (q <| results := l |>, Some r)
  end.

(** ** [WorkerPool] *)

(** Where the task of a worker is. *)
Inductive WorkerState : Type :=
| Polling
| Executing (e : CommandEnvelope)
| Reporting (r : CommandResult)      (* in [queue.complete(command_result).await] *)
| Exited
| Died (e : CommandEnvelope).        (* the executor panicked *)

Record WorkerPool := mkPool {
  distributed_queue : LocalDistributedQueue;
  workers : list (nat * WorkerState);          (* partition and task *)
  pool_shutdown : bool;
  enqueued : list CommandEnvelope;
  dequeued : list CommandEnvelope;
  received : list CommandResult;
}.
#[export] Instance eta_WorkerPool : Eta WorkerPool := λ w,
  mkPool (distributed_queue w) (workers w) (pool_shutdown w) (enqueued w) (dequeued w) (received w).

Definition pool_new (q : LocalDistributedQueue) : WorkerPool := mkPool q [] false [] [] [].

(** [start]: one task per partition. *)
Definition start_pool (w : WorkerPool) : WorkerPool :=
  w <| workers ::= λ ws, ws ++ ((λ p, (p, Polling)) <$> seq 0 (Z.to_nat (num_partitions (partition_config (distributed_queue w))))) |>.

Definition put_worker (w : WorkerPool) (k p : nat) (s : WorkerState) : WorkerPool :=
  w <| workers ::= <[ k := (p, s) ]> |>.

(** The head of the loop: the flag, then the channel. *)
Definition poll (w : WorkerPool) (k : nat) : WorkerPool :=
  match workers w !! k with
  | Some (p, Polling) =>
      if pool_shutdown w then put_worker w k p Exited
      else match dequeue (distributed_queue w) p with
           | (q, Ok (Some e)) =>
               put_worker (w <| distributed_queue := q |> <| dequeued ::= λ l, l ++ [e] |>) k p (Executing e)
           | _ => w                  (* sleeps *)
           end
  | _ => w
  end.

(** The executor returns, or panics. *)
Definition executed (w : WorkerPool) (k : nat) (r : outcome string Value) (ms : Z) : WorkerPool :=
  match workers w !! k with
  | Some (p, Executing e) =>
      put_worker w k p (Reporting (mkResult (env_id e) r (ld_worker_id (distributed_queue w)) ms))
  | _ => w
  end.

Definition executor_panics (w : WorkerPool) (k : nat) : WorkerPool :=
  match workers w !! k with Some (p, Executing e) => put_worker w k p (Died e) | _ => w end.

(** The report, when there is room for it. *)
Definition report_result (w : WorkerPool) (k : nat) : WorkerPool :=
  match workers w !! k with
  | Some (p, Reporting r) =>
      match complete (distributed_queue w) r with
      | (q, Returns _) => put_worker (w <| distributed_queue := q |>) k p Polling
      | (_, WaitsForRoom) => w
      end
  | _ => w
  end.

Inductive PoolAction : Type :=
| PEnqueue (e : CommandEnvelope)
| PStart
| PPoll (k : nat)
| PExecuted (k : nat) (r : outcome string Value) (ms : Z)
| PPanics (k : nat)
| PReport (k : nat)
| PReceive
| PShutdown.

Definition pexec (w : WorkerPool) (a : PoolAction) : WorkerPool :=
  match a with
  | PEnqueue e =>
      match enqueue (distributed_queue w) e with
      | (q, Returns (Ok _)) => w <| distributed_queue := q |> <| enqueued ::= λ l, l ++ [e] |>
      | _ => w
      end
  | PStart => start_pool w
  | PPoll k => poll w k
  | PExecuted k r ms => executed w k r ms
  | PPanics k => executor_panics w k
  | PReport k => report_result w k
  | PReceive =>
      match receive (distributed_queue w) with
      | (q, Some r) => w <| distributed_queue := q |> <| received ::= λ l, l ++ [r] |>
      | (_, None) => w
      end
  | PShutdown => w <| pool_shutdown := true |>
  end.

Definition prun (w : WorkerPool) (l : list PoolAction) : WorkerPool := foldl pexec w l.

(** [WorkerPool::shutdown] returns when every task has ended. *)
Definition task_ended (s : WorkerState) : bool := match s with Exited | Died _ => true | _ => false end.
Definition shutdown_returns (w : WorkerPool) : bool := forallb (λ x, task_ended x.2) (workers w).

Definition is_running (w : WorkerPool) : bool :=
  match workers w with [] => false | _ => negb (pool_shutdown w) end.
End distributed.
