(* ===== verification/DistributedRules.v ===== *)
(** * Properties of the distributed queue and its worker pool

    Accounting of the commands, order within a partition, bounds of the
    channels, and when a pool can be shut down. *)
From S2P Require Import Prelude Text External Distributed Sums.
Local Open Scope nat_scope.

Section rules.
Context {X : Ext}.
Implicit Types (w : WorkerPool) (q : LocalDistributedQueue) (e : CommandEnvelope) (id : string).

Inductive reachable (c : PartitionConfig) (uuid : string) : WorkerPool → Prop :=
| reach_new : reachable c uuid (pool_new (distributed_new c uuid))
| reach_step w a : reachable c uuid w → reachable c uuid (pexec w a).

(** ** Counting *)
Definition is_cmd id e : nat := ind (String.eqb (env_id e) id).
Definition is_result id (r : CommandResult) : nat := ind (String.eqb (command_id r) id).

(** The commands of that id in the channels, with the workers, and reported. *)
Definition waiting q id : nat := total (λ l, total (is_cmd id) l) (channels q).
Definition at_workers w id : nat :=
  total (λ x : nat * WorkerState, match x.2 with Executing e => is_cmd id e | Reporting r => is_result id r | _ => 0 end) (workers w).
Definition lost w id : nat :=
  total (λ x : nat * WorkerState, match x.2 with Died e => is_cmd id e | _ => 0 end) (workers w).
Definition reported w id : nat := total (is_result id) (results (distributed_queue w)) + total (is_result id) (received w).

(** The commands of one partition. *)
Definition for_partition (p : nat) (l : list CommandEnvelope) : list CommandEnvelope := filter (λ e, partition_id e = p) l.
#[local] Arguments for_partition : simpl never.

Record pool_ok w : Prop := {
  po_counts id : total (is_cmd id) (enqueued w) = waiting (distributed_queue w) id + at_workers w id + lost w id + reported w id;
  po_order p l : channels (distributed_queue w) !! p = Some l →
    for_partition p (enqueued w) = for_partition p (dequeued w) ++ l;
  po_channels p l : channels (distributed_queue w) !! p = Some l → length l ≤ CHANNEL_CAPACITY;
  po_results : length (results (distributed_queue w)) ≤ CHANNEL_CAPACITY;
}.

Lemma for_partition_snoc p l e :
  for_partition p (l ++ [e]) = for_partition p l ++ (if decide (partition_id e = p) then [e] else []).
Proof. unfold for_partition. rewrite filter_app, filter_cons, filter_nil. done. Qed.

Lemma has_room_spec {A} (l : list A) : has_room l = true ↔ length l < CHANNEL_CAPACITY.
Proof. apply Nat.ltb_lt. Qed.

Local Tactic Notation "counts" constr(H) :=
  let i := fresh "id" in intros i; pose proof (H i); unfold waiting, at_workers, lost, reported in *; reduce_all; totals; reduce_all.

Lemma pool_ok_enqueue w e : pool_ok w → pool_ok (pexec w (PEnqueue e)).
Proof.
  intros W. cbn [pexec]. unfold enqueue. destruct (channels (distributed_queue w) !! partition_id e) as [l|] eqn:El; [|done].
  destruct (has_room l) eqn:Er; [|done]. apply has_room_spec in Er. destruct W as [Hc Ho Hl Hr]. unfold upd. split; reduce; [|..|done].
  - counts Hc. rewrite total_snoc in *. lia.
  - intros p l' Hp. rewrite for_partition_snoc. destruct (decide (partition_id e = p)) as [<-|Hne].
    + rewrite list_lookup_insert_eq in Hp by (by eapply lookup_lt_Some). injection Hp as <-.
      by rewrite (Ho _ l El), (assoc_L (++)).
    + rewrite list_lookup_insert_ne in Hp by done. by rewrite (Ho _ _ Hp), (right_id_L [] (++)).
  - intros p l' Hp. destruct (decide (partition_id e = p)) as [<-|Hne].
    + rewrite list_lookup_insert_eq in Hp by (by eapply lookup_lt_Some). injection Hp as <-. rewrite length_app. simpl. lia.
    + rewrite list_lookup_insert_ne in Hp by done. by eapply Hl.
Qed.

Lemma pool_ok_poll w k : pool_ok w → (∀ p l, channels (distributed_queue w) !! p = Some l → Forall (λ e, partition_id e = p) l) →
  pool_ok (poll w k).
Proof.
  intros W Hown. unfold poll. destruct (workers w !! k) as [[p [| | | |]]|] eqn:Ek; try done.
  destruct (pool_shutdown w).
  { destruct W as [Hc Ho Hl Hr]. unfold put_worker, upd. split; reduce; try done. counts Hc. lia. }
  unfold dequeue. destruct (channels (distributed_queue w) !! p) as [[|e l]|] eqn:El; try done.
  pose proof (Hown _ _ El) as [He _]%Forall_cons.
  destruct W as [Hc Ho Hl Hr]. unfold put_worker, upd. split; reduce; [|..|done].
  - counts Hc. lia.
  - intros p' l' Hp. rewrite for_partition_snoc, He. destruct (decide (p = p')) as [<-|Hne].
    + rewrite list_lookup_insert_eq in Hp by (by eapply lookup_lt_Some). injection Hp as <-.
      rewrite (Ho _ _ El), <- (assoc_L (++)). done.
    + rewrite list_lookup_insert_ne in Hp by done. by rewrite (Ho _ _ Hp), (right_id_L [] (++)).
  - intros p' l' Hp. destruct (decide (p = p')) as [<-|Hne].
    + rewrite list_lookup_insert_eq in Hp by (by eapply lookup_lt_Some). injection Hp as <-.
      specialize (Hl _ _ El). simpl in Hl. lia.
    + rewrite list_lookup_insert_ne in Hp by done. by eapply Hl.
Qed.

(** Every channel holds commands of its partition only. *)
Definition sorted_out q : Prop := ∀ p l, channels q !! p = Some l → Forall (λ e, partition_id e = p) l.

Lemma sorted_out_update q p l l' : sorted_out q → channels q !! p = Some l → Forall (λ e, partition_id e = p) l' →
  sorted_out (q <| channels ::= <[ p := l' ]> |>).
Proof.
  intros Hs Hp Hl p' l1. unfold upd. reduce. intros H. destruct (decide (p = p')) as [<-|Hne].
  - rewrite list_lookup_insert_eq in H by (by eapply lookup_lt_Some). by injection H as <-.
  - rewrite list_lookup_insert_ne in H by done. by apply Hs.
Qed.

Lemma sorted_out_step w a : sorted_out (distributed_queue w) → sorted_out (distributed_queue (pexec w a)).
Proof.
  intros Hs. destruct a; cbn [pexec]; try done.
  - unfold enqueue. destruct (channels _ !! _) as [l|] eqn:El; [|done]. destruct (has_room l); [|done].
    apply (sorted_out_update _ _ l _ Hs El). apply Forall_app. split; [by apply Hs|by constructor].
  - unfold poll. destruct (workers w !! k) as [[p [| | | |]]|]; try done. destruct (pool_shutdown w); [done|].
    unfold dequeue. destruct (channels _ !! p) as [[|e l]|] eqn:El; try done.
    apply (sorted_out_update _ _ _ _ Hs El). by pose proof (Hs _ _ El) as [_ ?]%Forall_cons.
  - unfold executed. by destruct (workers w !! k) as [[p [| | | |]]|].
  - unfold executor_panics. by destruct (workers w !! k) as [[p [| | | |]]|].
  - unfold report_result, complete. destruct (workers w !! k) as [[p [| | | |]]|]; try done. by destruct (has_room _).
  - unfold receive. by destruct (results _).
Qed.

Lemma pool_ok_step w a : sorted_out (distributed_queue w) → pool_ok w → pool_ok (pexec w a).
Proof.
  intros Hs W. destruct a; [by apply pool_ok_enqueue| |by apply pool_ok_poll|..]; cbn [pexec].
  - destruct W as [Hc Ho Hl Hr]. unfold start_pool, upd. split; reduce; try done. intros id. pose proof (Hc id).
    unfold at_workers, lost, reported in *. reduce_all. rewrite !sum_list_with_app.
    assert (∀ (f : nat * WorkerState → nat) l, (∀ p, f (p, Polling) = 0) → total f ((λ p, (p, Polling)) <$> l) = 0) as Hz.
    { intros f l Hf. induction l as [|p l IH]; [done|]. rewrite fmap_cons. cbn [sum_list_with]. by rewrite Hf, IH. }
    rewrite !Hz by done. lia.
  - unfold executed. destruct (workers w !! k) as [[p [|e| | |]]|] eqn:Ek; try done.
    destruct W as [Hc Ho Hl Hr]. unfold put_worker, upd. split; reduce; try done. counts Hc.
    unfold is_cmd, is_result in *. reduce_all. lia.
  - unfold executor_panics. destruct (workers w !! k) as [[p [|e| | |]]|] eqn:Ek; try done.
    destruct W as [Hc Ho Hl Hr]. unfold put_worker, upd. split; reduce; try done. counts Hc. lia.
  - unfold report_result, complete. destruct (workers w !! k) as [[p [| |r0| |]]|] eqn:Ek; try done.
    destruct (has_room _) eqn:Er; [|done]. apply has_room_spec in Er.
    destruct W as [Hc Ho Hl Hr]. unfold put_worker, upd. split; reduce; try done; [|rewrite length_app; simpl; lia].
    counts Hc. rewrite ?total_snoc in *. lia.
  - unfold receive. destruct (results (distributed_queue w)) as [|r0 l] eqn:Er; [done|].
    destruct W as [Hc Ho Hl Hr]. rewrite Er in Hr. unfold upd. split; reduce; try done; [|simpl in Hr; lia].
    counts Hc. rewrite Er in *. reduce_all. rewrite ?total_snoc in *. lia.
  - destruct W as [Hc Ho Hl Hr]. by split.
Qed.

Lemma pool_reachable c uuid w : reachable c uuid w → sorted_out (distributed_queue w) ∧ pool_ok w.
Proof.
  induction 1 as [|w a _ [Hs W]]; [|split; [by apply sorted_out_step|by apply pool_ok_step]].
  assert (∀ p l, channels (distributed_new c uuid) !! p = Some l → l = []) as Hnil.
  { intros p l [-> _]%lookup_replicate. done. }
  split; [by intros p l ->%Hnil|]. split; simpl; try lia.
  - intros id. unfold waiting, at_workers, lost, reported, distributed_new. simpl. rewrite !Nat.add_0_r.
    induction (Z.to_nat (num_partitions c)); simpl; [done|]. done.
  - by intros p l ->%Hnil.
  - intros p l ->%Hnil. unfold CHANNEL_CAPACITY. simpl. lia.
Qed.

(** C30: the pool neither loses nor repeats a command.  At every moment the
    commands of an id that were accepted are as many as those that wait in a
    channel, are being executed or reported, were reported, or died with a
    panicking executor; within a partition they are taken in the order in
    which they were accepted; no channel exceeds its capacity. *)
Theorem pool_accounts_for_commands c uuid w : reachable c uuid w →
  (∀ id, total (is_cmd id) (enqueued w) = waiting (distributed_queue w) id + at_workers w id + lost w id + reported w id) ∧
  (∀ p l, channels (distributed_queue w) !! p = Some l →
     for_partition p (enqueued w) = for_partition p (dequeued w) ++ l ∧ length l ≤ CHANNEL_CAPACITY) ∧
  length (results (distributed_queue w)) ≤ CHANNEL_CAPACITY.
Proof.
  intros [_ [Hc Ho Hl Hr]]%pool_reachable. split_and!; [done| |done]. intros p l Hp. split; [by apply Ho|by eapply Hl].
Qed.

(** ** Shutdown *)

(** What a pool does to come to an end, with a coordinator that takes results. *)
Definition cooperative (a : PoolAction) : Prop :=
  match a with PPoll _ | PExecuted _ _ _ | PReport _ | PReceive => True | _ => False end.

(** Steps to the end of a task: result, room for it, report, look at the flag. *)
Definition steps_left (s : WorkerState) : nat :=
  match s with Executing _ => 4 | Reporting _ => 3 | Polling => 1 | Exited | Died _ => 0 end.
Definition work_left w : nat := total (λ x, steps_left x.2) (workers w).

Lemma running_worker w : shutdown_returns w = false → ∃ k p s, workers w !! k = Some (p, s) ∧ steps_left s ≠ 0.
Proof.
  unfold shutdown_returns. intros H. induction (workers w) as [|[p s] l IH]; [done|]. simpl in H.
  destruct (task_ended s) eqn:Es.
  - destruct (IH H) as (k & p' & s' & Hk & Hs). by exists (S k), p', s'.
  - exists 0, p, s. split; [done|]. by destruct s.
Qed.

Lemma put_worker_work w k p s s' : workers w !! k = Some (p, s) →
  work_left (put_worker w k p s') + steps_left s = work_left w + steps_left s'.
Proof. intros Hk. unfold work_left, put_worker, upd. reduce. totals. reduce_all. lia. Qed.

(** One worker is brought nearer to its end by at most two steps. *)
Lemma worker_advances w : pool_shutdown w = true → length (results (distributed_queue w)) ≤ CHANNEL_CAPACITY →
  shutdown_returns w = false →
  ∃ acts, Forall cooperative acts ∧ acts ≠ [] ∧ length acts + work_left (prun w acts) ≤ work_left w ∧
    pool_shutdown (prun w acts) = true ∧ length (results (distributed_queue (prun w acts))) ≤ CHANNEL_CAPACITY.
Proof.
  intros Hf Hr (k & p & s & Hk & Hs)%running_worker. destruct s as [|e|r| |e]; try done.
  - exists [PPoll k]. cbn [prun foldl pexec]. unfold poll. rewrite Hk, Hf.
    pose proof (put_worker_work w k p _ Exited Hk) as Hw. simpl in Hw.
    split_and!; [by repeat constructor|done| |done|done]. simpl. lia.
  - exists [PExecuted k (Err EmptyString) 0]. cbn [prun foldl pexec]. unfold executed. rewrite Hk.
    match goal with |- context [put_worker w k p ?s] => pose proof (put_worker_work w k p _ s Hk) as Hw end. simpl in Hw.
    split_and!; [by repeat constructor|done| |done|done]. simpl. lia.
  - assert (∀ w, workers w !! k = Some (p, Reporting r) → has_room (results (distributed_queue w)) = true →
      work_left (report_result w k) + 2 = work_left w ∧ pool_shutdown (report_result w k) = pool_shutdown w ∧
      length (results (distributed_queue (report_result w k))) ≤ CHANNEL_CAPACITY) as Hrep.
    { clear. intros w Hk Hroom. unfold report_result, complete. rewrite Hk, Hroom. split_and!; [|done|].
      - match goal with |- context [put_worker ?w1 k p Polling] => pose proof (put_worker_work w1 k p _ Polling Hk) as Hw end.
        simpl in Hw. unfold work_left in *. simpl in *. lia.
      - apply has_room_spec in Hroom. simpl. rewrite length_app. simpl. lia. }
    destruct (has_room (results (distributed_queue w))) eqn:Hroom.
    + exists [PReport k]. destruct (Hrep w Hk Hroom) as (H1 & H2 & H3). cbn [prun foldl pexec].
      split_and!; [by repeat constructor|done|simpl; lia|congruence|done].
    + exists [PReceive; PReport k]. cbn [prun foldl pexec]. unfold receive.
      destruct (results (distributed_queue w)) as [|r0 l] eqn:Er; [by unfold has_room in Hroom|].
      match goal with |- context [report_result ?w1 k] => destruct (Hrep w1 Hk) as (H1 & H2 & H3) end.
      { apply has_room_spec. simpl in *. lia. }
      split_and!; [by repeat constructor|done| |by rewrite H2|done].
      change (work_left w) with (work_left (w <| distributed_queue ::= λ q, q <| results := l |> |> <| received ::= λ l, l ++ [r0] |>)).
      unfold work_left in *. simpl in *. lia.
Qed.

(** A pool that is shut down comes to an end if its results are taken.
    From every reachable state with the flag set, the tasks can all end within
    a number of steps given by where they are, without another command. *)
Theorem pool_can_stop c uuid w : reachable c uuid w → pool_shutdown w = true →
  ∃ acts, Forall cooperative acts ∧ length acts ≤ work_left w ∧ shutdown_returns (prun w acts) = true.
Proof.
  intros [_ [_ _ _ Hr]]%pool_reachable Hf. remember (work_left w) as n eqn:En.
  revert w Hr Hf En. induction (lt_wf n) as [n _ IH]. intros w Hr Hf ->.
  destruct (shutdown_returns w) eqn:Es; [exists []; split_and!; [done|simpl; lia|done]|].
  destruct (worker_advances w Hf Hr Es) as (acts & Ha & Hne & Hw & Hf' & Hr').
  destruct (IH (work_left (prun w acts))) with (w := prun w acts) as (acts' & Ha' & Hl' & Hs); auto.
  { destruct acts; [done|]. simpl in Hw |- *. lia. }
  exists (acts ++ acts'). split_and!; [by apply Forall_app|rewrite length_app; lia|].
  unfold prun in *. by rewrite foldl_app.
Qed.

Lemma blocked_step w k p r a : workers w !! k = Some (p, Reporting r) →
  has_room (results (distributed_queue w)) = false → a ≠ PReceive →
  workers (pexec w a) !! k = Some (p, Reporting r) ∧ has_room (results (distributed_queue (pexec w a))) = false.
Proof.
  intros Hk Hroom Ha.
  assert (∀ k' p' s s', workers w !! k' = Some (p', s) → (∀ r, s ≠ Reporting r) → <[k' := (p', s')]> (workers w) !! k = Some (p, Reporting r)) as Hput.
  { intros k' p' s s' Hk' Hs. destruct (decide (k' = k)) as [->|Hne]; [|by rewrite list_lookup_insert_ne].
    rewrite Hk in Hk'. injection Hk' as <- <-. by destruct (Hs r). }
  destruct a; cbn [pexec]; try done.
  - unfold enqueue. destruct (channels _ !! _) as [l|]; [|done]. by destruct (has_room l).
  - split; [|done]. unfold start_pool. simpl. by apply lookup_app_l_Some.
  - unfold poll. destruct (workers w !! k0) as [[p' [| | | |]]|] eqn:E; try done.
    destruct (pool_shutdown w); [split; [by eapply Hput|done]|].
    unfold dequeue. destruct (channels _ !! p') as [[|e l]|]; try done. split; [by eapply Hput|done].
  - unfold executed. destruct (workers w !! k0) as [[p' [| | | |]]|] eqn:E; try done. split; [by eapply Hput|done].
  - unfold executor_panics. destruct (workers w !! k0) as [[p' [| | | |]]|] eqn:E; try done. split; [by eapply Hput|done].
  - unfold report_result, complete. destruct (workers w !! k0) as [[p' [| | | |]]|] eqn:E; try done. by rewrite Hroom.
Qed.

(** A pool whose results nobody takes cannot be shut down.  Once the
    channel of the results is full, a worker with a result waits for room; as
    long as no result is received, whatever else happens it stays there, and
    [WorkerPool::shutdown], which waits for every task, does not return. *)
Theorem full_results_block_shutdown w k p r acts : workers w !! k = Some (p, Reporting r) →
  has_room (results (distributed_queue w)) = false → Forall (λ a, a ≠ PReceive) acts →
  workers (prun w acts) !! k = Some (p, Reporting r) ∧ shutdown_returns (prun w acts) = false.
Proof.
  intros Hk Hroom Ha. assert (workers (prun w acts) !! k = Some (p, Reporting r)) as Hend.
  { revert w Hk Hroom. induction Ha as [|a acts Ha _ IH]; intros w Hk Hroom; [done|].
    destruct (blocked_step w k p r a Hk Hroom Ha). by apply IH. }
  split; [done|]. unfold shutdown_returns. apply not_true_iff_false. intros H. rewrite forallb_forall in H.
  specialize (H (p, Reporting r)). simpl in H. rewrite <- list_elem_of_In in H.
  specialize (H (list_elem_of_lookup_2 _ _ _ Hend)). done.
Qed.
End rules.

(** ** A concrete pool *)
Module PoolDemo.
#[export] Existing Instance demo_ext.

Definition two_partitions : PartitionConfig := partition_config_round_robin 2.
Definition envelope (id : string) (p : nat) : @CommandEnvelope demo_ext :=
  mkEnvelope id "demo" "query" p ("{}" : @Value demo_ext) 0 0%Z.

(** Two commands for partition 0, one for partition 1; the first is being
    executed and the pool is told to stop. *)
Definition busy : @WorkerPool demo_ext :=
  prun (pool_new (distributed_new two_partitions "w"))
    [PStart; PEnqueue (envelope "a" 0); PEnqueue (envelope "b" 0); PEnqueue (envelope "c" 1); PPoll 0; PShutdown].

(** The same pool with a full channel of results and a worker about to report. *)
Definition jammed : @WorkerPool demo_ext :=
  (prun busy [PExecuted 0 (Ok ("done" : @Value demo_ext)) 3%Z])
    <| distributed_queue ::= λ q, q <| results := replicate CHANNEL_CAPACITY (mkResult "x" (Err "e") "local-w" 1%Z) |> |>.
End PoolDemo.
Import PoolDemo.

Lemma busy_reachable : reachable two_partitions "w" busy.
Proof. unfold busy, prun. cbn [foldl]. repeat apply reach_step. constructor. Qed.

Lemma pool_accounts_for_commands_witness :
  env_id <$> for_partition 0 (enqueued busy) = ["a"; "b"] ∧
  for_partition 0 (enqueued busy) = for_partition 0 (dequeued busy) ++ [envelope "b" 0].
Proof.
  split; [vm_compute; reflexivity|].
  apply (pool_accounts_for_commands two_partitions "w" busy busy_reachable). reflexivity.
Defined.

Lemma pool_can_stop_witness :
  work_left busy = 5 ∧ ∃ acts, Forall cooperative acts ∧ length acts ≤ 5 ∧ shutdown_returns (prun busy acts) = true.
Proof.
  split; [vm_compute; reflexivity|].
  destruct (pool_can_stop two_partitions "w" busy busy_reachable eq_refl) as (acts & Ha & Hl & Hs).
  exists acts. split_and!; [exact Ha| |exact Hs]. exact Hl.
Defined.

Lemma full_results_block_shutdown_witness :
  pool_shutdown jammed = true ∧ shutdown_returns (prun jammed [PReport 0; PPoll 1; PReport 0]) = false.
Proof.
  split; [reflexivity|].
  apply (full_results_block_shutdown jammed 0 0 (mkResult "a" (Ok ("done" : @Value demo_ext)) "local-w" 3%Z)).
  - reflexivity.
  - reflexivity.
  - repeat apply List.Forall_cons; [discriminate..|apply List.Forall_nil].
Defined.
