(* ===== verification/Storage.v ===== *)
(** * Command storage ([src/storage.rs])

    The interface [Storage] a lane calls, and [LocalStorage], which keeps
    commands and dead letters in memory and rewrites a JSON file after every
    change.  [serde_json] is the parameter [StorageCodec]; what a write of a
    file meets comes with the state.  A call is one step: the lock on the cache
    is held while the file is written. *)
From S2P Require Import Prelude Text External.
Local Open Scope Z_scope.

Section storage.
Context {X : Ext}.

Record StoredCommand := mkStoredCommand {
  sc_id : string;
  sc_command_type : string;
  sc_lane_id : string;
  sc_payload : Value;
  sc_retry_count : Z;            (* u32 *)
  sc_created_at : DateTime;
  sc_last_attempt_at : option DateTime;
}.

Record StoredDeadLetter := mkStoredLetter {
  sl_command_id : string;
  sl_command_type : string;
  sl_lane_id : string;
  sl_error : string;
  sl_attempts : Z;               (* u32 *)
  sl_failed_at : DateTime;
}.

(** ** The trait *)
Class Storage (S : Type) := {
  save_command : StoredCommand → S → S * Result unit;
  load_commands : S → Result (list StoredCommand);
  remove_command : string → S → S * Result unit;
  save_dead_letter : StoredDeadLetter → S → S * Result unit;
  load_dead_letters : S → Result (list StoredDeadLetter);
  clear_dead_letters : S → S * Result unit;
  clear_all : S → S * Result unit;
}.

(** ** [serde_json] *)
Class StorageCodec := {
  JsonText : Type;
  commands_to_json : list StoredCommand → outcome string JsonText;
  commands_from_json : JsonText → outcome string (list StoredCommand);
  letters_to_json : list StoredDeadLetter → outcome string JsonText;
  letters_from_json : JsonText → outcome string (list StoredDeadLetter);
}.

(** Commands whose payload is [json_value] are read back as they were. *)
Class StorageCodecLaws (C : StorageCodec) := {
  json_value : Value → Prop;
  commands_from_to l t : Forall (λ c, json_value (sc_payload c)) l →
    commands_to_json l = Ok t → commands_from_json t = Ok l;
  letters_from_to l t : letters_to_json l = Ok t → letters_from_json t = Ok l;
}.

Context {C : StorageCodec}.

(** ** [LocalStorage] *)

(** What a write meets: a failure leaves some content, or no file. *)
Inductive WriteFault : Type :=
| WriteOk
| WriteBreaks (error : string) (left_behind : option JsonText).

Record LocalStorage := mkLocalStorage {
  commands : gmap string StoredCommand;
  dead_letters : list StoredDeadLetter;
  commands_file : option JsonText;
  dead_letters_file : option JsonText;
  write_faults : list WriteFault;
  undeletable : bool;            (* whether the file system refuses to delete the files *)
}.
#[export] Instance eta_LocalStorage : Eta LocalStorage := λ s,
  mkLocalStorage (commands s) (dead_letters s) (commands_file s) (dead_letters_file s) (write_faults s) (undeletable s).

Definition next_write (s : LocalStorage) : WriteFault * list WriteFault :=
  match write_faults s with [] => (WriteOk, []) | f :: fs => (f, fs) end.

(** [fs::write] over a file. *)
Definition write_file (fault : WriteFault) (json : JsonText) : option JsonText * option string :=
  match fault with WriteOk => (Some json, None) | WriteBreaks e found => (found, Some e) end.

Definition persist_commands (s : LocalStorage) : LocalStorage * Result unit :=
  match commands_to_json (hash_values (commands s)) with
  | Err e => (s, Err (Other ("Failed to serialize commands: " +:+ e)))
  | Ok json =>
      let '(fault, rest) := next_write s in
      let '(file, broken) := write_file fault json in
      (s <| commands_file := file |> <| write_faults := rest |>,
       match broken with None => Ok tt | Some e => Err (Other ("Failed to write commands file: " +:+ e)) end)
  end.

Definition persist_dead_letters (s : LocalStorage) : LocalStorage * Result unit :=
  match letters_to_json (dead_letters s) with
  | Err e => (s, Err (Other ("Failed to serialize dead letters: " +:+ e)))
  | Ok json =>
      let '(fault, rest) := next_write s in
      let '(file, broken) := write_file fault json in
      (s <| dead_letters_file := file |> <| write_faults := rest |>,
       match broken with None => Ok tt | Some e => Err (Other ("Failed to write dead letters file: " +:+ e)) end)
  end.

(** [load_from_disk]: what cannot be read or parsed counts as absent. *)
Definition load_commands_file (file : option JsonText) : gmap string StoredCommand :=
  match commands_from_json <$> file with
  | Some (Ok l) => collect_map ((λ c, (sc_id c, c)) <$> l)
  | _ => ∅
  end.

Definition load_letters_file (file : option JsonText) : list StoredDeadLetter :=
  match letters_from_json <$> file with Some (Ok l) => l | _ => [] end.

Definition load_from_disk (s : LocalStorage) : LocalStorage :=
  s <| commands := load_commands_file (commands_file s) |>
    <| dead_letters := load_letters_file (dead_letters_file s) |>.

(** [LocalStorage::new] over the files of an earlier process. *)
Definition local_storage_new (mkdir_error : option string) (s : LocalStorage) : Result LocalStorage :=
  match mkdir_error with
  | Some e => Err (Other ("Failed to create storage directory: " +:+ e))
  | None => Ok (load_from_disk (s <| commands := ∅ |> <| dead_letters := [] |>))
  end.

Definition empty_storage : LocalStorage := mkLocalStorage ∅ [] None None [] false.

Definition local_storage : Storage LocalStorage := {|
  save_command command s := persist_commands (s <| commands ::= <[ sc_id command := command ]> |>);
  load_commands s := Ok (hash_values (commands s));
  remove_command id s := persist_commands (s <| commands ::= delete id |>);
  save_dead_letter letter s := persist_dead_letters (s <| dead_letters ::= λ l, l ++ [letter] |>);
  load_dead_letters s := Ok (dead_letters s);
  clear_dead_letters s := persist_dead_letters (s <| dead_letters := [] |>);
  clear_all s :=
    let s := s <| commands := ∅ |> <| dead_letters := [] |> in
    (if undeletable s then s else s <| commands_file := None |> <| dead_letters_file := None |>, Ok tt);
|}.
#[export] Existing Instance local_storage.

(** The calls that change a storage. *)
Inductive StorageOp : Type :=
| OpSave (c : StoredCommand)
| OpRemoveCommand (id : string)
| OpSaveLetter (l : StoredDeadLetter)
| OpClearLetters
| OpClearAll.

Definition perform_storage {S} `{!Storage S} (s : S) (op : StorageOp) : S * Result unit :=
  match op with
  | OpSave c => save_command c s
  | OpRemoveCommand id => remove_command id s
  | OpSaveLetter l => save_dead_letter l s
  | OpClearLetters => clear_dead_letters s
  | OpClearAll => clear_all s
  end.

(** ** Durability *)
Context `{!ExtLaws X} `{!StorageCodecLaws C}.

(** Commands are filed under their id. *)
Definition keyed (s : LocalStorage) : Prop :=
  ∀ id c, commands s !! id = Some c → sc_id c = id ∧ json_value (sc_payload c).

(** The files hold what is in memory: a process that starts on them continues
    with the same commands and dead letters. *)
Definition on_file (s : LocalStorage) : Prop :=
  load_commands_file (commands_file s) = commands s ∧ load_letters_file (dead_letters_file s) = dead_letters s.

Lemma load_written (m : gmap string StoredCommand) t :
  (∀ id c, m !! id = Some c → sc_id c = id ∧ json_value (sc_payload c)) →
  commands_to_json (hash_values m) = Ok t → load_commands_file (Some t) = m.
Proof.
  intros Hk Ht. unfold load_commands_file. cbn [fmap option_fmap option_map].
  rewrite (commands_from_to _ _) with (2 := Ht).
  - apply collect_map_perm. rewrite hash_values_perm, <- list_fmap_compose.
    apply reflexive_eq. rewrite <- (list_fmap_id (map_to_list m)) at 2. apply list_fmap_ext.
    intros i [k c] Hi. apply list_elem_of_lookup_2, elem_of_map_to_list in Hi.
    cbn. by rewrite (proj1 (Hk _ _ Hi)).
  - apply Forall_forall. intros c (k & Hc)%elem_of_hash_values. by eapply Hk.
Qed.

Lemma persist_commands_spec s s' : keyed s → persist_commands s = (s', Ok tt) →
  load_commands_file (commands_file s') = commands s ∧ commands s' = commands s ∧
  dead_letters s' = dead_letters s ∧ dead_letters_file s' = dead_letters_file s.
Proof.
  intros Hk. unfold persist_commands. destruct (commands_to_json _) as [t|e] eqn:E; [|done].
  destruct (next_write s) as [[|e found] rest]; cbn; [|done]. intros [= <-]. split_and!; try done.
  by apply load_written.
Qed.

Lemma persist_letters_spec s s' : persist_dead_letters s = (s', Ok tt) →
  load_letters_file (dead_letters_file s') = dead_letters s ∧ dead_letters s' = dead_letters s ∧
  commands s' = commands s ∧ commands_file s' = commands_file s.
Proof.
  unfold persist_dead_letters. destruct (letters_to_json _) as [t|e] eqn:E; [|done].
  destruct (next_write s) as [[|e found] rest]; cbn; [|done]. intros [= <-]. split_and!; try done.
  unfold load_letters_file. cbn. by rewrite (letters_from_to _ _ E).
Qed.

Definition storage_op_ok (op : StorageOp) : Prop :=
  match op with OpSave c => json_value (sc_payload c) | _ => True end.

Lemma keyed_op s op : keyed s → storage_op_ok op → keyed (perform_storage s op).1.
Proof.
  intros Hk Hop. assert (∀ m, (∀ id c, m !! id = Some c → sc_id c = id ∧ json_value (sc_payload c)) →
    keyed (persist_commands (s <| commands := m |>)).1) as HP.
  { intros m Hm. unfold persist_commands. destruct (commands_to_json _); [|exact Hm].
    by destruct (next_write _) as [[|e found] rest]. }
  assert (∀ l, keyed (persist_dead_letters (s <| dead_letters := l |>)).1) as HL.
  { intros l. unfold persist_dead_letters. destruct (letters_to_json _); [|exact Hk].
    by destruct (next_write _) as [[|e found] rest]. }
  destruct op as [c|id|l| |].
  - apply HP. intros id c' [[<- <-]|[_ H]]%lookup_insert_Some; [done|by apply Hk].
  - apply HP. intros id' c' [_ H]%lookup_delete_Some. by apply Hk.
  - apply HL.
  - apply HL.
  - cbn. destruct (undeletable s); intros id c Hc; cbn in Hc; by rewrite lookup_empty in Hc.
Qed.

Lemma storage_durable s op s' : keyed s → storage_op_ok op → on_file s →
  perform_storage s op = (s', Ok tt) → (op = OpClearAll → undeletable s = false) → on_file s'.
Proof.
  intros Hk Hop [Hc Hl] E Hd. destruct op as [c|id|l| |]; cbn in E.
  - apply persist_commands_spec in E as (E1 & E2 & E3 & E4); [by split; [rewrite E1, E2|rewrite E3, E4]|].
    intros id c' H. simpl in H. apply lookup_insert_Some in H as [[<- <-]|[_ H]]; [done|by apply Hk].
  - apply persist_commands_spec in E as (E1 & E2 & E3 & E4); [by split; [rewrite E1, E2|rewrite E3, E4]|].
    intros id' c' H. simpl in H. apply lookup_delete_Some in H as [_ H]. by apply Hk.
  - apply persist_letters_spec in E as (E1 & E2 & E3 & E4). by split; [rewrite E3, E4|rewrite E1, E2].
  - apply persist_letters_spec in E as (E1 & E2 & E3 & E4). by split; [rewrite E3, E4|rewrite E1, E2].
  - rewrite Hd in E by done. injection E as <-. done.
Qed.

(** A storage call that returns without error is durable.  It leaves memory
    and files in agreement if they were before, and if [clear_all] could delete
    the files: a process that starts on them has the same commands and the same
    dead letters. *)
Theorem storage_is_durable s op s' : keyed s → storage_op_ok op → on_file s →
  perform_storage s op = (s', Ok tt) → (op = OpClearAll → undeletable s = false) →
  on_file s' ∧ local_storage_new None s' = Ok s'.
Proof.
  intros Hk Hop Hf E Hd. pose proof (storage_durable s op s' Hk Hop Hf E Hd) as Hs.
  split; [done|]. unfold local_storage_new, load_from_disk. destruct Hs as [E1 E2], s'. unfold upd. simpl in *. by rewrite E1, E2.
Qed.
End storage.
