(* ===== verification/PriorityQueue.v ===== *)
(** * The stable priority queue ([src/priority_queue.rs])

    [PriorityQueue<T>]: a binary heap of items keyed by priority and insertion
    sequence, with the rebase of the sequence numbers when the 64-bit counter
    is exhausted.  A [BinaryHeap] is a multiset from which [pop] takes a
    greatest element; it is modelled as the list of its elements.  The
    theorems refer to [ordered], the order in which the items will be claimed. *)
From Stdlib Require Import Sorted.
From S2P Require Import Prelude Ordering.
Local Open Scope Z_scope.

Section queue.
Context {T : Type}.

Record PriorityItem := mkItem {
  priority : Z;                  (* u8 *)
  item_sequence : Z;             (* u64 *)
  value : T;
}.
#[export] Instance eta_PriorityItem : Eta PriorityItem := λ i,
  mkItem (priority i) (item_sequence i) (value i).

Record PriorityQueue := mkQueue {
  entries : list PriorityItem;   (* BinaryHeap, in no particular order *)
  next_sequence : Z;             (* u64 *)
}.
#[export] Instance eta_PriorityQueue : Eta PriorityQueue := λ q, mkQueue (entries q) (next_sequence q).

(** [Ord::cmp]: both keys reversed, since the heap is a max-heap. *)
Definition item_cmp (a b : PriorityItem) : comparison :=
  then_with (priority b ?= priority a) (item_sequence b ?= item_sequence a).

(** [BinaryHeap::pop]: a greatest element and the others. *)
Fixpoint heap_take (best : PriorityItem) (l : list PriorityItem) : PriorityItem * list PriorityItem :=
  match l with
  | [] => (best, [])
  | x :: l =>
      match item_cmp best x with
      | Lt => let '(m, r) := heap_take x l in (m, best :: r)
      | _ => let '(m, r) := heap_take best l in (m, x :: r)
      end
  end.

Definition heap_pop (l : list PriorityItem) : option (PriorityItem * list PriorityItem) :=
  match l with [] => None | x :: l => Some (heap_take x l) end.

Definition new : PriorityQueue := mkQueue [] 0.
Definition len (q : PriorityQueue) : nat := length (entries q).
Definition is_empty (q : PriorityQueue) : bool := match entries q with [] => true | _ => false end.

Definition by_sequence : PriorityItem → PriorityItem → comparison := cmp_on Z.compare item_sequence.
Definition by_key : PriorityItem → PriorityItem → comparison :=
  cmp_then (cmp_on Z.compare priority) (cmp_on Z.compare item_sequence).

Definition ensure_sequence_capacity (q : PriorityQueue) : PriorityQueue :=
  if negb (next_sequence q =? U64_MAX) then q
  else
    let es := imap (λ i e, e <| item_sequence := Z.of_nat i + 1 |>) (sort_by by_sequence (entries q)) in
    mkQueue es (Z.of_nat (length es)).

Definition push (q : PriorityQueue) (p : Z) (v : T) : PriorityQueue * Z :=
  let q := ensure_sequence_capacity q in
  let sequence := next_sequence q + 1 in
  (mkQueue (mkItem p sequence v :: entries q) sequence, sequence).

Definition pop (q : PriorityQueue) : PriorityQueue * option PriorityItem :=
  match heap_pop (entries q) with
  | Some (i, es) => (q <| entries := es |>, Some i)
  | None => (q, None)
  end.

Definition restore (q : PriorityQueue) (i : PriorityItem) : PriorityQueue :=
  mkQueue (i :: entries q) (Z.max (next_sequence q) (item_sequence i)).

Definition ordered (q : PriorityQueue) : list PriorityItem := sort_by by_key (entries q).

Definition clear (q : PriorityQueue) : PriorityQueue := mkQueue [] 0.

(** ** Invariant *)

(** Sequence numbers are distinct and do not exceed the counter. *)
Record wf (q : PriorityQueue) : Prop := {
  wf_distinct : NoDup (item_sequence <$> entries q);
  wf_bound : Forall (λ i, 0 < item_sequence i ≤ next_sequence q) (entries q);
  wf_counter : 0 ≤ next_sequence q ≤ U64_MAX;
}.

(** What a host sees of an item: priority and value, not the number. *)
Definition view (i : PriorityItem) : Z * T := (priority i, value i).

#[export] Instance lawful_by_key : LawfulCmp by_key.
Proof. unfold by_key. apply _. Qed.
#[export] Instance lawful_by_sequence : LawfulCmp by_sequence.
Proof. unfold by_sequence. apply _. Qed.

Lemma item_cmp_by_key a b : item_cmp a b = by_key b a.
Proof. done. Qed.

(** ** The heap *)
Lemma heap_take_spec best l :
  (heap_take best l).1 :: (heap_take best l).2 ≡ₚ best :: l ∧
  Forall (cmp_le by_key (heap_take best l).1) (best :: l).
Proof.
  revert best. induction l as [|x l IH]; intros best; simpl.
  { split; [done|]. constructor; [|done]. unfold cmp_le. by rewrite cmp_refl by apply _. }
  rewrite item_cmp_by_key. destruct (by_key x best) eqn:E.
  - destruct (IH best) as [Hp Hf]. destruct (heap_take best l) as [m r]. cbn [fst snd] in *. split.
    + rewrite Permutation_swap, Hp. apply Permutation_swap.
    + apply Forall_cons in Hf as [Hb Hf]. repeat constructor; try done.
      eapply cmp_le_trans; [apply _|exact Hb|]. unfold cmp_le. by rewrite (cmp_opp by_key x best), E.
  - destruct (IH x) as [Hp Hf]. destruct (heap_take x l) as [m r]. cbn [fst snd] in *. split.
    + rewrite Permutation_swap, Hp. done.
    + apply Forall_cons in Hf as [Hb Hf]. repeat constructor; try done.
      eapply cmp_le_trans; [apply _|exact Hb|]. unfold cmp_le. by rewrite E.
  - destruct (IH best) as [Hp Hf]. destruct (heap_take best l) as [m r]. cbn [fst snd] in *. split.
    + rewrite Permutation_swap, Hp. apply Permutation_swap.
    + apply Forall_cons in Hf as [Hb Hf]. repeat constructor; try done.
      eapply cmp_le_trans; [apply _|exact Hb|]. unfold cmp_le. by rewrite (cmp_opp by_key x best), E.
Qed.

(** Distinct sequence numbers make the order strict. *)
Lemma by_key_separates l a b : NoDup (item_sequence <$> l) → a ∈ l → b ∈ l → by_key a b = Eq → a = b.
Proof.
  intros Hn Ha Hb. unfold by_key, cmp_then, then_with, cmp_on.
  destruct (Z.compare_spec (priority a) (priority b)); try done. intros Hs%Z.compare_eq.
  apply list_elem_of_lookup in Ha as [i Hi], Hb as [j Hj].
  assert (i = j) as ->; [|congruence].
  eapply (NoDup_lookup (item_sequence <$> l)); [done|by rewrite list_lookup_fmap, Hi|].
  rewrite list_lookup_fmap, Hj. simpl. by rewrite Hs.
Qed.

Lemma ordered_perm q : ordered q ≡ₚ entries q.
Proof. apply sort_by_perm. Qed.

Lemma ordered_unique q l : NoDup (item_sequence <$> entries q) → l ≡ₚ entries q →
  StronglySorted (cmp_le by_key) l → ordered q = l.
Proof.
  intros Hn Hp Hs. apply (sorted_perm_unique by_key); [|by apply sort_by_sorted; apply _|done|].
  - intros a b. rewrite ordered_perm. by apply by_key_separates.
  - by rewrite ordered_perm.
Qed.

(** [pop] takes the head of [ordered]. *)
Lemma pop_spec q : wf q →
  match ordered q with
  | [] => pop q = (q, None)
  | i :: rest => ∃ q', pop q = (q', Some i) ∧ ordered q' = rest ∧ next_sequence q' = next_sequence q ∧ wf q'
  end.
Proof.
  intros [Hn Hb Hc]. pose proof (ordered_perm q) as Hp.
  assert (StronglySorted (cmp_le by_key) (ordered q)) as Hs by (apply sort_by_sorted; apply _).
  unfold pop. destruct (entries q) as [|x l] eqn:E.
  { by rewrite (proj1 (Permutation_nil_r _) Hp). }
  destruct (heap_take_spec x l) as [Hperm Hmin]. simpl. destruct (heap_take x l) as [m r]. cbn [fst snd] in *.
  assert (ordered q = m :: sort_by by_key r) as ->.
  { apply ordered_unique; [by rewrite E|by rewrite E, sort_by_perm|].
    constructor; [apply sort_by_sorted; apply _|]. rewrite sort_by_perm, <- Hperm in *.
      by apply Forall_cons in Hmin as [_ ?]. }
  eexists. split; [done|]. split; [done|]. split; [done|]. rewrite <- Hperm in Hn, Hb.
  rewrite fmap_cons in Hn. apply NoDup_cons in Hn as [_ Hn]. by apply Forall_cons in Hb as [_ Hb].
Qed.

(** ** The rebase of the sequence numbers *)

(** Sorting commutes with a map that preserves the comparisons. *)
Lemma sort_by_fmap (c : PriorityItem → PriorityItem → comparison) (g : PriorityItem → PriorityItem) l :
  (∀ x y, x ∈ l → y ∈ l → c (g x) (g y) = c x y) → sort_by c (g <$> l) = g <$> sort_by c l.
Proof.
  intros Hc. induction l as [|x l IH]; [done|].
  change (insert_by c (g x) (sort_by c (g <$> l)) = g <$> insert_by c x (sort_by c l)).
  rewrite IH by (intros a b Ha Hb; apply Hc; by right).
  assert (∀ y, y ∈ sort_by c l → c (g x) (g y) = c x y) as Hx.
  { intros y Hy. apply Hc; [by left|]. right. by rewrite elem_of_sort_by in Hy. }
  clear IH Hc. induction (sort_by c l) as [|y s IHs]; [done|]. cbn.
  rewrite (Hx y) by (by left). destruct (c x y); [done|done|]. cbn. f_equal.
  apply IHs. intros z Hz. apply Hx. by right.
Qed.

(** The new number of an item: its rank among the sequence numbers. *)
Definition rank (l : list PriorityItem) (n : Z) : Z :=
  Z.of_nat (length (List.filter (λ i, item_sequence i <? n) l)) + 1.

Lemma rank_lt l n m : n < m → (∃ i, i ∈ l ∧ item_sequence i = n) → rank l n < rank l m.
Proof.
  intros Hlt (i & Hi & Hn). unfold rank. induction l as [|x l IH]; [by apply not_elem_of_nil in Hi|].
  assert (∀ l', (length (List.filter (λ i, (item_sequence i <? n)%Z) l') ≤
                 length (List.filter (λ i, (item_sequence i <? m)%Z) l'))%nat) as Hle.
  { intros l'. induction l' as [|y l' IHl]; simpl; [done|].
    destruct (Z.ltb_spec (item_sequence y) n), (Z.ltb_spec (item_sequence y) m); simpl; lia. }
  specialize (Hle l). simpl. apply elem_of_cons in Hi as [->|Hi].
  - destruct (Z.ltb_spec (item_sequence x) n), (Z.ltb_spec (item_sequence x) m); simpl; lia.
  - specialize (IH Hi). destruct (Z.ltb_spec (item_sequence x) n), (Z.ltb_spec (item_sequence x) m); simpl; lia.
Qed.

Lemma rank_compare l a b : a ∈ l → b ∈ l →
  (rank l (item_sequence a) ?= rank l (item_sequence b)) = (item_sequence a ?= item_sequence b).
Proof.
  intros Ha Hb. destruct (Z.compare_spec (item_sequence a) (item_sequence b)) as [->|Hlt|Hlt].
  - by apply Z.compare_eq_iff.
  - apply Z.compare_lt_iff, rank_lt; eauto.
  - apply Z.compare_gt_iff, rank_lt; eauto.
Qed.

(** In a list sorted by distinct numbers the rank is the position. *)
Lemma rank_position l i x : NoDup (item_sequence <$> l) → StronglySorted (cmp_le by_sequence) l →
  l !! i = Some x → rank l (item_sequence x) = Z.of_nat i + 1.
Proof.
  intros Hn Hs Hi. unfold rank. f_equal. f_equal. revert i Hi. induction Hs as [|y l Hs IH Hy]; intros i Hi; [done|].
  rewrite fmap_cons in Hn. apply NoDup_cons in Hn as [Hny Hn]. rewrite Forall_forall in Hy.
  destruct i as [|i]; simpl in *.
  - simplify_eq. destruct (Z.ltb_spec (item_sequence x) (item_sequence x)); [lia|].
    assert (∀ z, z ∈ l → item_sequence x ≤ item_sequence z) as Hle.
    { intros z Hz. specialize (Hy z Hz). unfold cmp_le, by_sequence, cmp_on in Hy.
      by destruct (Z.compare_spec (item_sequence x) (item_sequence z)); first [lia|done]. }
    clear -Hle. induction l as [|z l IH]; simpl; [done|].
    destruct (Z.ltb_spec (item_sequence z) (item_sequence x)).
    + specialize (Hle z ltac:(by left)). lia.
    + apply IH. intros w Hw. apply Hle. by right.
  - pose proof (list_elem_of_lookup_2 _ _ _ Hi) as Hx. specialize (Hy x Hx).
    assert (item_sequence y < item_sequence x) as Hlt.
    { unfold cmp_le, by_sequence, cmp_on in Hy.
      destruct (Z.compare_spec (item_sequence y) (item_sequence x)) as [E|E|E]; [|done..].
      destruct Hny. rewrite E. by apply list_elem_of_fmap_2. }
    destruct (Z.ltb_spec (item_sequence y) (item_sequence x)); [|lia]. simpl. f_equal. by apply IH.
Qed.

Definition renumber (l : list PriorityItem) (i : PriorityItem) : PriorityItem :=
  i <| item_sequence := rank l (item_sequence i) |>.

Lemma rebase_fmap l : NoDup (item_sequence <$> l) →
  imap (λ i e, e <| item_sequence := Z.of_nat i + 1 |>) (sort_by by_sequence l) =
  renumber (sort_by by_sequence l) <$> sort_by by_sequence l.
Proof.
  intros Hn. set (s := sort_by by_sequence l).
  assert (NoDup (item_sequence <$> s)) as Hns by (unfold s; by rewrite sort_by_perm).
  assert (StronglySorted (cmp_le by_sequence) s) as Hs by (apply sort_by_sorted; apply _).
  apply list_eq. intros i. rewrite list_lookup_imap, list_lookup_fmap.
  destruct (s !! i) as [x|] eqn:Ei; [|done]. simpl. f_equal. unfold renumber. by rewrite (rank_position s i).
Qed.

(** The rebase keeps the order of the items, restores the invariant and
    leaves room below the limit of the counter. *)
Lemma ensure_spec q : wf q → Z.of_nat (length (entries q)) < U64_MAX →
  wf (ensure_sequence_capacity q) ∧ next_sequence (ensure_sequence_capacity q) < U64_MAX ∧
  view <$> ordered (ensure_sequence_capacity q) = view <$> ordered q.
Proof.
  intros [Hn Hb Hc] Hlen. unfold ensure_sequence_capacity.
  destruct (Z.eqb_spec (next_sequence q) U64_MAX) as [|Hne]; simpl; [|split_and!; [done|lia|done]].
  rewrite rebase_fmap by done. set (s := sort_by by_sequence (entries q)).
  assert (s ≡ₚ entries q) as Hp by apply sort_by_perm.
  assert (NoDup (item_sequence <$> s)) as Hns by (by rewrite Hp).
  rewrite length_fmap. assert (length s = length (entries q)) as Hls by (by rewrite Hp).
  split_and!.
  - split; cbn [entries next_sequence].
    + rewrite <- list_fmap_compose.
      assert (item_sequence ∘ renumber s <$> s = (λ i, Z.of_nat i + 1) <$> seq 0 (length s)) as ->.
      { apply list_eq. intros i. rewrite !list_lookup_fmap. destruct (s !! i) as [x|] eqn:Ei.
        - rewrite lookup_seq_lt by (by eapply lookup_lt_Some). simpl. f_equal.
          apply (rank_position s i x); [done|apply sort_by_sorted; apply _|done].
        - rewrite lookup_seq_ge by (by apply lookup_ge_None). done. }
      apply NoDup_fmap_2; [intros a b; lia|apply NoDup_seq].
    + apply Forall_fmap, Forall_forall. intros x Hx. simpl. unfold rank. split; [lia|].
      enough (length (List.filter (λ i, (item_sequence i <? item_sequence x)%Z) s) < length s)%nat by lia.
      clear -Hx. induction s as [|y s IH]; [by apply not_elem_of_nil in Hx|]. simpl.
      apply elem_of_cons in Hx as [->|Hx].
      * rewrite Z.ltb_irrefl. pose proof (List.filter_length_le (λ i, item_sequence i <? item_sequence y) s). lia.
      * specialize (IH Hx). destruct (_ <? _); simpl; lia.
    + unfold U64_MAX in *. lia.
  - cbn [next_sequence]. lia.
  - unfold ordered. cbn [entries].
    rewrite (sort_by_fmap by_key (renumber s)).
    + rewrite <- list_fmap_compose. rewrite (sort_by_perm_unique by_key s (entries q)); [done| |done].
      intros a b. by apply by_key_separates.
    + intros a b Ha Hb'. unfold by_key, cmp_then, cmp_on. simpl. by rewrite rank_compare.
Qed.

(** ** Theorems *)

(** Where a new item goes in a list sorted by key: behind its priority. *)
Lemma insert_behind l p n v : StronglySorted (cmp_le by_key) l → Forall (λ i, item_sequence i < n) l →
  insert_by by_key (mkItem p n v) l =
  List.filter (λ i, priority i <=? p) l ++ mkItem p n v :: List.filter (λ i, p <? priority i) l.
Proof.
  intros Hs Hb. induction Hs as [|x l Hs IH Hx]; [done|]. apply Forall_cons in Hb as [Hxn Hb].
  cbn [insert_by List.filter]. unfold by_key at 1, cmp_then, then_with, cmp_on. cbn [priority item_sequence].
  rewrite Forall_forall in Hx.
  destruct (Z.compare_spec p (priority x)) as [E|E|E].
  - destruct (Z.compare_spec n (item_sequence x)); [lia|lia|].
    destruct (Z.leb_spec (priority x) p), (Z.ltb_spec p (priority x)); try lia. cbn [app]. f_equal. by apply IH.
  - destruct (Z.leb_spec (priority x) p), (Z.ltb_spec p (priority x)); try lia.
    assert (∀ y, y ∈ l → p < priority y) as Hall.
    { intros y Hy. specialize (Hx y Hy). unfold cmp_le, by_key, cmp_then, then_with, cmp_on in Hx.
      destruct (Z.compare_spec (priority x) (priority y)); [lia|lia|done]. }
    assert (List.filter (λ i, priority i <=? p) l = [] ∧ List.filter (λ i, p <? priority i) l = l) as [-> ->];
      [|done].
    clear -Hall. induction l as [|y l IH]; simpl; [done|].
    destruct IH as [-> ->]; [intros z Hz; apply Hall; by right|]. specialize (Hall y ltac:(by left)).
    destruct (Z.leb_spec (priority y) p), (Z.ltb_spec p (priority y)); try lia. done.
  - destruct (Z.leb_spec (priority x) p), (Z.ltb_spec p (priority x)); try lia. cbn [app]. f_equal. by apply IH.
Qed.

Lemma filter_view (P : Z → bool) (l : list PriorityItem) :
  view <$> List.filter (λ i, P (priority i)) l = List.filter (λ e, P e.1) (view <$> l).
Proof. induction l as [|x l IH]; [done|]. cbn. destruct (P (priority x)); cbn; by rewrite IH. Qed.

(** A value pushed with priority [p] is claimed after every pending value
    of priority [p] or less and before every other, whether or not the push
    had to rebase the exhausted sequence counter; the queue stays well formed
    and the counter never passes its limit. *)
Theorem push_is_stable (q : PriorityQueue) p v : wf q → Z.of_nat (length (entries q)) < U64_MAX →
  let q' := (push q p v).1 in
  wf q' ∧ (push q p v).2 = next_sequence q' ∧
  view <$> ordered q' =
    List.filter (λ e, e.1 <=? p) (view <$> ordered q) ++ (p, v) :: List.filter (λ e, p <? e.1) (view <$> ordered q).
Proof.
  intros W Hlen q'. subst q'. destruct (ensure_spec q W Hlen) as ([Hn Hb Hc] & Hlt & Hview).
  unfold push. cbn [fst snd next_sequence]. generalize dependent (ensure_sequence_capacity q). intros q1 Hn Hb Hc Hlt Hview.
  assert (∀ i, i ∈ entries q1 → item_sequence i < next_sequence q1 + 1) as Hnew.
  { intros i Hi. rewrite Forall_forall in Hb. specialize (Hb i Hi). lia. }
  split_and!; [|done|].
  - split; cbn [entries next_sequence].
    + rewrite fmap_cons. apply NoDup_cons. split; [|done]. cbn.
      intros (i & Hi & Hin)%list_elem_of_fmap. specialize (Hnew i Hin). lia.
    + constructor; [simpl; lia|]. eapply Forall_impl; [exact Hb|]. cbn. lia.
    + lia.
  - rewrite <- Hview. unfold ordered at 1. cbn [entries sort_by foldr].
    change (foldr (insert_by by_key) [] (entries q1)) with (ordered q1).
    rewrite insert_behind.
    + rewrite fmap_app, fmap_cons. f_equal; [apply (filter_view (λ x, x <=? p))|]. f_equal.
      apply (filter_view (λ x, p <? x)).
    + apply sort_by_sorted; apply _.
    + apply Forall_forall. intros i. rewrite ordered_perm. apply Hnew.
Qed.

(** [pop] claims the first item of [ordered] and leaves the others in
    their order, and an item that is restored right after goes back to its
    place. *)
Theorem pop_claims_first (q : PriorityQueue) : wf q →
  match ordered q with
  | [] => pop q = (q, None)
  | i :: rest =>
      ∃ q', pop q = (q', Some i) ∧ wf q' ∧ ordered q' = rest ∧ wf (restore q' i) ∧ ordered (restore q' i) = ordered q
  end.
Proof.
  intros W. pose proof (pop_spec q W) as HP. pose proof (ordered_perm q) as Hperm.
  assert (StronglySorted (cmp_le by_key) (ordered q)) as Hs by (apply sort_by_sorted; apply _).
  destruct (ordered q) as [|i rest] eqn:Eo; [done|]. destruct HP as (q' & Hp & Ho & Hns & W').
  exists q'. split; [done|]. split; [done|]. split; [done|].
  destruct W as [Hn Hb Hc]. rewrite <- Hperm in Hn, Hb. apply Forall_cons in Hb as [Hbi Hb].
  assert (entries q' ≡ₚ rest) as Hrest by (rewrite <- Ho; symmetry; apply ordered_perm).
  assert (wf (restore q' i)) as Wr.
  { split; unfold restore; cbn [entries next_sequence].
    - rewrite fmap_cons, Hrest. by rewrite fmap_cons in Hn.
    - rewrite Hns. constructor; [lia|]. rewrite Hrest. eapply Forall_impl; [exact Hb|]. cbn. lia.
    - rewrite Hns. lia. }
  split; [done|]. apply ordered_unique; [apply Wr| |done]. unfold restore. cbn [entries]. by rewrite Hrest.
Qed.

(** Claiming until the queue is empty. *)
Fixpoint claim_all (fuel : nat) (q : PriorityQueue) : list PriorityItem :=
  match fuel with
  | O => []
  | S fuel => match pop q with
              | (q', Some i) => i :: claim_all fuel q'
              | (_, None) => []
              end
  end.

(** Claiming until nothing is left takes one claim per pending value and
    yields them in the order [ordered] shows. *)
Theorem claim_all_ordered (q : PriorityQueue) : wf q → claim_all (S (len q)) q = ordered q.
Proof.
  unfold len. remember (length (entries q)) as n eqn:Hn. revert q Hn.
  induction n as [|n IH]; intros q Hn W; pose proof (pop_spec q W) as HP; pose proof (ordered_perm q) as Hperm;
    cbn [claim_all]; destruct (ordered q) as [|i rest] eqn:Eo.
  - by rewrite HP.
  - apply Permutation_length in Hperm. simpl in Hperm. lia.
  - by rewrite HP.
  - destruct HP as (q' & -> & Ho & _ & W'). f_equal. rewrite <- Ho. apply IH; [|done].
    apply Permutation_length in Hperm. pose proof (Permutation_length (ordered_perm q')) as H'.
    rewrite Ho in H'. simpl in Hperm. lia.
Qed.
End queue.

(** ** Witnesses *)
Definition demo : PriorityQueue := (push (push (push new 5 "a").1 1 "b").1 5 "c").1.

(** The same three values with an exhausted counter. *)
Definition exhausted : PriorityQueue := demo <| next_sequence := U64_MAX |>.

Lemma demo_wf : wf demo.
Proof.
  split; [|repeat constructor; simpl; unfold U64_MAX; lia|simpl; unfold U64_MAX; lia].
  change (NoDup [3; 2; 1]). repeat (apply NoDup_cons; split; [rewrite ?elem_of_cons, ?elem_of_nil; lia|]). apply NoDup_nil_2.
Qed.

Lemma exhausted_wf : wf exhausted.
Proof.
  destruct demo_wf as [Hn Hb Hc]. split; [exact Hn| |simpl; unfold U64_MAX; lia].
  eapply Forall_impl; [exact Hb|]. simpl. unfold U64_MAX. lia.
Qed.

Lemma push_is_stable_witness :
  view <$> ordered (push exhausted 5 "d").1 = [(1, "b"); (5, "a"); (5, "c"); (5, "d")].
Proof.
  rewrite (proj2 (proj2 (push_is_stable exhausted 5 "d" exhausted_wf eq_refl))). vm_compute. reflexivity.
Defined.

Lemma pop_claims_first_witness :
  ∃ i rest q', ordered demo = i :: rest ∧ value i = "b" ∧ pop demo = (q', Some i) ∧ ordered (restore q' i) = ordered demo.
Proof.
  pose proof (pop_claims_first demo demo_wf) as H.
  assert (value <$> ordered demo = ["b"; "a"; "c"]) as E by (vm_compute; reflexivity).
  destruct (ordered demo) as [|i rest]; [discriminate E|]. injection E as Ev _.
  destruct H as (q' & Hp & _ & _ & _ & Hr). exists i, rest, q'. split; [reflexivity|].
  split; [exact Ev|]. split; [exact Hp|exact Hr].
Defined.

Lemma claim_all_ordered_witness : value <$> claim_all 4 demo = ["b"; "a"; "c"].
Proof. change 4%nat with (S (len demo)). rewrite (claim_all_ordered demo demo_wf). vm_compute. reflexivity. Defined.

(** A claimed item does not keep its position across [clear]: the numbers
    start again, and a value submitted after the clear is claimed first. *)
Example restore_after_clear :
  let q := (push (push new 5 "x").1 5 "held").1 in
  let '(q1, _) := pop q in
  let '(q2, held) := pop q1 in
  match held with
  | Some i => value <$> ordered (restore (push (clear q2) 5 "later").1 i) = ["later"; "held"]
  | None => False
  end.
Proof. vm_compute. reflexivity. Qed.
