(* ===== verification/DeadLetter.v ===== *)
(** * The dead letter queue ([src/dlq.rs])

    A bounded queue of commands that failed for good: the newest letters are
    kept, the oldest goes first when it is full. *)
From S2P Require Import Prelude External.
Local Open Scope Z_scope.

Record DeadLetter := mkLetter {
  dl_command_id : string;
  dl_command_type : string;
  dl_lane_id : string;
  dl_error : string;
  dl_attempts : Z;               (* u32 *)
  dl_failed_at : DateTime;
}.

Record DeadLetterQueue := mkDlq {
  letters : list DeadLetter;     (* VecDeque *)
  max_size : nat;                (* usize *)
}.
#[export] Instance eta_DeadLetterQueue : Eta DeadLetterQueue := λ q, mkDlq (letters q) (max_size q).

Module Dlq.
Definition new (max_size : nat) : DeadLetterQueue := mkDlq [] max_size.

Definition pop_front (l : list DeadLetter) : list DeadLetter := tail l.

Definition push (q : DeadLetterQueue) (l : DeadLetter) : DeadLetterQueue :=
  let kept := if (max_size q <=? length (letters q))%nat then pop_front (letters q) else letters q in
  q <| letters := kept ++ [l] |>.

Definition pop (q : DeadLetterQueue) : DeadLetterQueue * option DeadLetter :=
  match letters q with
  | [] => (q, None)
  | l :: rest => (q <| letters := rest |>, Some l)
  end.

Definition list (q : DeadLetterQueue) : Datatypes.list DeadLetter := letters q.
Definition clear (q : DeadLetterQueue) : DeadLetterQueue := q <| letters := [] |>.
Definition len (q : DeadLetterQueue) : nat := length (letters q).
Definition is_empty (q : DeadLetterQueue) : bool := match letters q with [] => true | _ => false end.
End Dlq.
Import Dlq.

(** The last [n] elements of a list. *)
Definition last_n {A} (n : nat) (l : Datatypes.list A) : Datatypes.list A := drop (length l - n) l.

Lemma last_n_snoc {A} n (l : Datatypes.list A) x : last_n (S n) (l ++ [x]) = last_n n l ++ [x].
Proof. unfold last_n. rewrite length_app. simpl. rewrite drop_app_le by lia. f_equal. f_equal. lia. Qed.

Lemma push_last_n q x : (0 < max_size q)%nat → (len q ≤ max_size q)%nat →
  letters (push q x) = last_n (max_size q) (letters q ++ [x]).
Proof.
  intros Hm Hl. unfold push, len, last_n, pop_front in *. rewrite length_app, drop_app_le by (simpl; lia).
  destruct (Nat.leb_spec (max_size q) (length (letters q))); simpl.
  - replace (length (letters q) + 1 - max_size q)%nat with 1%nat by lia. by destruct (letters q).
  - by replace (length (letters q) + 1 - max_size q)%nat with O by lia.
Qed.

(** A dead letter queue of positive size shows the newest letters pushed
    into it, oldest first and never more than its size; [pop] returns the
    oldest of them. *)
Theorem keeps_newest (max : nat) (ls : Datatypes.list DeadLetter) : (0 < max)%nat →
  let q := foldl push (new max) ls in
  list q = last_n max ls ∧ (len q ≤ max)%nat ∧ (pop q).2 = head (last_n max ls).
Proof.
  intros Hm q.
  assert (letters q = last_n max ls ∧ max_size q = max) as [Hq Hmax].
  { subst q. induction ls as [|x ls IH] using rev_ind; [done|]. rewrite foldl_snoc.
    destruct IH as [IH Hms]. split; [|done]. rewrite push_last_n; rewrite ?Hms; [|done|].
    - rewrite IH. destruct max as [|n]; [lia|]. rewrite !last_n_snoc. f_equal. unfold last_n.
      rewrite length_drop, drop_drop. f_equal. lia.
    - unfold len. rewrite IH. unfold last_n. rewrite length_drop. lia. }
  assert (len q ≤ max)%nat as Hl by (unfold len; rewrite Hq; unfold last_n; rewrite length_drop; lia).
  split_and!; [done|done|]. rewrite <- Hq. unfold pop. by destruct (letters q).
Qed.

(** ** Witnesses *)
Definition letter (id : string) : DeadLetter := mkLetter id "task" "lane" "boom" 1 0.

Lemma keeps_newest_witness :
  dl_command_id <$> list (foldl push (new 2) [letter "a"; letter "b"; letter "c"]) = ["b"; "c"].
Proof.
  rewrite (proj1 (keeps_newest 2 [letter "a"; letter "b"; letter "c"] ltac:(lia))). reflexivity.
Defined.

(** A queue of size zero still holds the last letter pushed. *)
Example zero_size_keeps_one : len (push (push (new 0) (letter "a")) (letter "b")) = 1%nat.
Proof. reflexivity. Qed.
