(* ===== verification/RateLimit.v ===== *)
(** * Rate limiters ([src/ratelimit.rs])

    The token bucket, the sliding window and the limiter a lane holds.  An
    [Instant] is a number of nanoseconds; every operation takes the reading of
    the clock.  The two limiters keep their state behind a mutex and an atomic
    counter; a call is modelled as one step. *)
From Stdlib Require Import Sorting.Sorted.
From S2P Require Import Prelude Float64 External.
Local Open Scope Z_scope.

Abbreviation Instant := Z (only parsing).

(** ** [Duration] in floating-point seconds *)
Definition as_secs_f64 (d : Duration) : f64 :=
  f64_add (f64_of_Z (d `div` nanos_per_sec))
          (f64_div (f64_of_Z (d `mod` nanos_per_sec)) (f64_of_Z nanos_per_sec)).

(** [Instant::duration_since]: zero when the argument is later. *)
Definition duration_since (now earlier : Instant) : Duration := Z.max 0 (now - earlier).

(** ** Configuration *)
Record RateLimitConfig := mkRateLimit {
  max_commands : Z;              (* u64 *)
  window : Duration;
}.

Definition RateLimitConfig_new (max : Z) (w : Duration) : RateLimitConfig := mkRateLimit max w.
Definition per_second (max : Z) : RateLimitConfig := mkRateLimit max (from_secs 1).
Definition per_minute (max : Z) : RateLimitConfig := mkRateLimit max (from_secs 60).
Definition per_hour (max : Z) : RateLimitConfig := mkRateLimit max (from_secs 3600).
Definition unlimited : RateLimitConfig := mkRateLimit U64_MAX (from_secs 1).

(** ** Token bucket *)
Record TokenBucketLimiter := mkBucket {
  capacity : Z;                  (* u64 *)
  tokens : Z;                    (* AtomicU64 *)
  refill_rate : f64;
  last_refill : Instant;
}.
#[export] Instance eta_TokenBucketLimiter : Eta TokenBucketLimiter := λ b,
  mkBucket (capacity b) (tokens b) (refill_rate b) (last_refill b).

Definition token_bucket_new (c : RateLimitConfig) (now : Instant) : TokenBucketLimiter :=
  mkBucket (max_commands c) (max_commands c)
    (f64_div (f64_of_Z (max_commands c)) (as_secs_f64 (window c))) now.

(** The tokens the time since the last refill is worth. *)
Definition minted (b : TokenBucketLimiter) (now : Instant) : Z :=
  let elapsed := as_secs_f64 (duration_since now (last_refill b)) in
  if f64_lt f64_zero elapsed then f64_to_u64 (f64_mul elapsed (refill_rate b)) else 0.

(** [current + new_tokens] is an unchecked [u64] addition: it wraps. *)
Definition refill (b : TokenBucketLimiter) (now : Instant) : TokenBucketLimiter :=
  let new_tokens := minted b now in
  if 0 <? new_tokens
  then b <| tokens := Z.min ((tokens b + new_tokens) `mod` 2 ^ 64) (capacity b) |> <| last_refill := now |>
  else b.

Definition bucket_try_acquire (b : TokenBucketLimiter) (now : Instant) : TokenBucketLimiter * bool :=
  let b := refill b now in
  if tokens b =? 0 then (b, false) else (b <| tokens := tokens b - 1 |>, true).

(** ** Sliding window *)
Record SlidingWindowLimiter := mkSliding {
  sw_max_commands : Z;           (* u64 *)
  sw_window : Duration;
  timestamps : list Instant;
}.
#[export] Instance eta_SlidingWindowLimiter : Eta SlidingWindowLimiter := λ l,
  mkSliding (sw_max_commands l) (sw_window l) (timestamps l).

Definition sliding_window_new (c : RateLimitConfig) : SlidingWindowLimiter :=
  mkSliding (max_commands c) (window c) [].

Definition expire (l : SlidingWindowLimiter) (now : Instant) : SlidingWindowLimiter :=
  l <| timestamps ::= List.filter (λ ts, now - sw_window l <? ts) |>.

Definition push_timestamp (l : SlidingWindowLimiter) (now : Instant) : SlidingWindowLimiter :=
  l <| timestamps ::= λ ts, ts ++ [now] |>.

Definition window_try_acquire (l : SlidingWindowLimiter) (now : Instant) : SlidingWindowLimiter * bool :=
  let l := expire l now in
  if Z.of_nat (length (timestamps l)) <? sw_max_commands l
  then (push_timestamp l now, true)
  else (l, false).

Definition current_count (l : SlidingWindowLimiter) (now : Instant) : SlidingWindowLimiter * Z :=
  let l := expire l now in (l, Z.of_nat (length (timestamps l))).

Definition remaining (l : SlidingWindowLimiter) (now : Instant) : SlidingWindowLimiter * Z :=
  let '(l, count) := current_count l now in (l, sat_sub (sw_max_commands l) count).

(** ** The limiter of a lane *)
Inductive RateLimiter : Type :=
| TokenBucket (b : TokenBucketLimiter)
| SlidingWindow (l : SlidingWindowLimiter)
| Unlimited.

Definition try_acquire (r : RateLimiter) (now : Instant) : RateLimiter * bool :=
  match r with
  | TokenBucket b => let '(b, ok) := bucket_try_acquire b now in (TokenBucket b, ok)
  | SlidingWindow l => let '(l, ok) := window_try_acquire l now in (SlidingWindow l, ok)
  | Unlimited => (Unlimited, true)
  end.

(** Attempts at the given times, with the answers in order. *)
Fixpoint attempts {L} (acquire : L → Instant → L * bool) (l : L) (times : list Instant) : L * list bool :=
  match times with
  | [] => (l, [])
  | t :: times =>
      let '(l, ok) := acquire l t in
      let '(l, oks) := attempts acquire l times in (l, ok :: oks)
  end.

Definition granted (oks : list bool) : nat := length (List.filter id oks).

(** ** The token bucket *)
Record bucket_ok (b : TokenBucketLimiter) : Prop := {
  bk_capacity : 0 ≤ capacity b ≤ U64_MAX;
  bk_tokens : 0 ≤ tokens b ≤ capacity b;
}.

Lemma minted_range b now : 0 ≤ minted b now ≤ U64_MAX.
Proof.
  unfold minted. destruct (f64_lt _ _); [apply f64_to_u64_range|unfold U64_MAX; lia].
Qed.

(** Bounds of a refill; without an overflow of the addition it adds what was minted. *)
Lemma refill_spec b now : bucket_ok b →
  bucket_ok (refill b now) ∧ capacity (refill b now) = capacity b ∧
  tokens (refill b now) ≤ tokens b + minted b now ∧
  (tokens b + minted b now ≤ U64_MAX → tokens b ≤ tokens (refill b now)).
Proof.
  intros [Hc Ht]. pose proof (minted_range b now) as Hm. unfold refill.
  destruct (Z.ltb_spec 0 (minted b now)); [|split_and!; [by split|done|lia|lia]].
  pose proof (Z.mod_pos_bound (tokens b + minted b now) (2 ^ 64) ltac:(lia)) as Hmod.
  pose proof (Z.mod_le (tokens b + minted b now) (2 ^ 64) ltac:(lia) ltac:(lia)) as Hle.
  unfold upd; cbn -[Z.pow U64_MAX]. split_and!; [split|..]; cbn -[Z.pow U64_MAX]; [lia..|].
  intros Hs. rewrite Z.mod_small by (unfold U64_MAX in *; lia). lia.
Qed.

Lemma bucket_acquire_spec b now : bucket_ok b →
  let '(b', ok) := bucket_try_acquire b now in
  bucket_ok b' ∧ capacity b' = capacity b ∧ tokens b' + Z.b2z ok ≤ tokens b + minted b now.
Proof.
  intros H. unfold bucket_try_acquire. destruct (refill_spec b now H) as ([Hc Ht] & Hcap & Hle & _).
  destruct (Z.eqb_spec (tokens (refill b now)) 0); simpl.
  - split_and!; [by split|done|lia].
  - split_and!; [split; simpl; lia|done|lia].
Qed.

(** The tokens minted along a run. *)
Fixpoint minted_in (b : TokenBucketLimiter) (times : list Instant) : Z :=
  match times with
  | [] => 0
  | t :: times => minted b t + minted_in (bucket_try_acquire b t).1 times
  end.

(** The bucket never holds more than its capacity and never grants more
    than it held at the start and minted since: along any run of attempts,
    permissions granted plus tokens left are at most the initial tokens plus
    the minted ones. *)
Theorem bucket_conserves_tokens (b : TokenBucketLimiter) (times : list Instant) : bucket_ok b →
  let '(b', oks) := attempts bucket_try_acquire b times in
  0 ≤ tokens b' ≤ capacity b ∧
  Z.of_nat (granted oks) + tokens b' ≤ tokens b + minted_in b times.
Proof.
  revert b. induction times as [|t times IH]; intros b H; simpl.
  { destruct H as [? ?]. unfold granted. simpl. lia. }
  pose proof (bucket_acquire_spec b t H) as HA. destruct (bucket_try_acquire b t) as [b1 ok]. simpl.
  destruct HA as (H1 & Hcap & Hle). specialize (IH b1 H1).
  destruct (attempts bucket_try_acquire b1 times) as [b' oks]. destruct IH as [Hb Hg]. rewrite Hcap in Hb.
  split; [done|]. unfold granted in *. destruct ok; simpl in *; lia.
Qed.

(** A burst at one instant is granted exactly while tokens last: of [n]
    attempts made at the time of the last refill the first [tokens] succeed
    and the others are refused. *)
Theorem burst_is_capacity (b : TokenBucketLimiter) (n : nat) : bucket_ok b →
  attempts bucket_try_acquire b (replicate n (last_refill b)) =
  (b <| tokens := Z.max 0 (tokens b - Z.of_nat n) |>,
   replicate (Nat.min n (Z.to_nat (tokens b))) true ++ replicate (n - Z.to_nat (tokens b)) false).
Proof.
  revert b. induction n as [|n IH]; intros b H.
  { simpl. destruct H as [? ?]. destruct b as [c t r l]. simpl in *. f_equal. unfold upd. simpl. f_equal. lia. }
  assert (refill b (last_refill b) = b) as Hr.
  { unfold refill, minted, duration_since. rewrite Z.sub_diag. reflexivity. }
  cbn [replicate attempts]. unfold bucket_try_acquire at 1. rewrite Hr. destruct H as [Hc Ht].
  destruct (Z.eqb_spec (tokens b) 0) as [E|E].
  - rewrite IH by (by split). rewrite E. simpl. f_equal; [|by rewrite Nat.min_0_r, Nat.sub_0_r].
    destruct b as [c t r l]. simpl in *. unfold upd. simpl. f_equal. lia.
  - set (b1 := b <| tokens := tokens b - 1 |>).
    change (last_refill b) with (last_refill b1). rewrite IH by (split; simpl; lia).
    simpl tokens. f_equal.
    + destruct b as [c t r l]. simpl in *. unfold b1, upd. simpl. f_equal. lia.
    + replace (Z.to_nat (tokens b)) with (S (Z.to_nat (tokens b - 1))) by lia. done.
Qed.

(** ** The sliding window *)

(** The grants of a run: the times at which an attempt was answered yes. *)
Definition grants (times : list Instant) (oks : list bool) : list Instant :=
  fst <$> List.filter snd (zip times oks).

Definition in_window (w : Duration) (now ts : Instant) : bool := (now - w <? ts) && (ts <=? now).

Definition count_in (w : Duration) (now : Instant) (l : list Instant) : nat :=
  length (List.filter (in_window w now) l).

(** The limiter that forgets nothing: an attempt is granted when fewer than
    [max] of all the grants so far lie in the window that ends now. *)
Fixpoint full_history (max : Z) (w : Duration) (past : list Instant) (times : list Instant) : list bool :=
  match times with
  | [] => []
  | t :: times =>
      let ok := Z.of_nat (count_in w t past) <? max in
      ok :: full_history max w (if ok then past ++ [t] else past) times
  end.

(** The limiter's list is the part of the past that is still in the window. *)
Record window_tracks (l : SlidingWindowLimiter) (past : list Instant) (now : Instant) : Prop := {
  wt_list : timestamps l = List.filter (λ ts, now - sw_window l <? ts) past;
  wt_past : Forall (λ ts, ts ≤ now) past;
}.

Lemma filter_later (lo hi : Z) (l : list Instant) : lo ≤ hi →
  List.filter (λ ts, hi <? ts) (List.filter (λ ts, lo <? ts) l) = List.filter (λ ts, hi <? ts) l.
Proof.
  intros H. induction l as [|x l IH]; [done|]. simpl.
  destruct (Z.ltb_spec lo x); simpl; destruct (Z.ltb_spec hi x); [by rewrite IH|done|lia|done].
Qed.

Lemma count_in_tracked w now past : Forall (λ ts, ts ≤ now) past →
  count_in w now past = length (List.filter (λ ts, now - w <? ts) past).
Proof.
  unfold count_in, in_window. induction 1 as [|x l Hx _ IH]; [done|]. simpl.
  destruct (Z.leb_spec x now); [|lia]. rewrite andb_true_r.
  destruct (now - w <? x); simpl; by rewrite IH.
Qed.

Lemma expire_tracks l past last now : window_tracks l past last → last ≤ now →
  window_tracks (expire l now) past now.
Proof.
  intros [Hl Hp] Hle. split.
  - unfold upd. cbn. rewrite Hl. apply filter_later. lia.
  - eapply Forall_impl; [exact Hp|]. simpl. lia.
Qed.

Lemma tracks_grant l past now : 0 < sw_window l → window_tracks l past now →
  window_tracks (push_timestamp l now) (past ++ [now]) now.
Proof.
  intros Hw [Hl Hp]. split.
  - unfold push_timestamp, upd. cbn. rewrite Hl, List.filter_app. cbn. by destruct (Z.ltb_spec (now - sw_window l) now); [|lia].
  - apply Forall_app. split; [done|]. by constructor.
Qed.

Lemma count_in_later w t now past : t ≤ now → Forall (λ ts, ts ≤ t) past →
  (count_in w now past ≤ count_in w t past)%nat.
Proof.
  intros Ht. unfold count_in, in_window. induction 1 as [|x l Hx _ IH]; [done|]. simpl.
  destruct (Z.ltb_spec (now - w) x), (Z.leb_spec x now), (Z.ltb_spec (t - w) x), (Z.leb_spec x t); simpl; lia.
Qed.

Lemma count_in_app w now l k : count_in w now (l ++ k) = (count_in w now l + count_in w now k)%nat.
Proof. unfold count_in. by rewrite List.filter_app, length_app. Qed.

(** A grant that keeps the window ending now within the limit keeps every window within it. *)
Lemma grant_keeps_windows max w t past : Forall (λ ts, ts ≤ t) past →
  (∀ now, Z.of_nat (count_in w now past) ≤ max) → Z.of_nat (count_in w t past) < max →
  ∀ now, Z.of_nat (count_in w now (past ++ [t])) ≤ max.
Proof.
  intros Hp Hall Hlt now. rewrite count_in_app. specialize (Hall now).
  assert (count_in w now [t] ≤ 1)%nat by (unfold count_in; simpl; destruct (in_window _ _ _); simpl; lia).
  destruct (Z.le_gt_cases t now) as [Hle|Hgt].
  - pose proof (count_in_later w t now past Hle Hp). lia.
  - enough (count_in w now [t] = 0%nat) by lia.
    unfold count_in, in_window. simpl. destruct (Z.leb_spec t now); [lia|]. by rewrite andb_false_r.
Qed.

Lemma window_run l past last times : 0 < sw_window l → window_tracks l past last →
  StronglySorted Z.le (last :: times) →
  (∀ now, Z.of_nat (count_in (sw_window l) now past) ≤ sw_max_commands l) →
  let oks := (attempts window_try_acquire l times).2 in
  oks = full_history (sw_max_commands l) (sw_window l) past times ∧
  (∀ now, Z.of_nat (count_in (sw_window l) now (past ++ grants times oks)) ≤ sw_max_commands l).
Proof.
  revert l past last. induction times as [|t times IH]; intros l past last Hw Htr Hs Hall; simpl.
  { split; [done|]. intros now. unfold grants. simpl. by rewrite app_nil_r. }
  apply StronglySorted_inv in Hs as [Hs Hlast].
  assert (last ≤ t) as Hlt by (by inversion Hlast).
  pose proof (expire_tracks l past last t Htr Hlt) as He.
  assert (length (timestamps (expire l t)) = count_in (sw_window l) t past) as Hc.
  { rewrite count_in_tracked by apply He. by rewrite (wt_list _ _ _ He). }
  unfold window_try_acquire at 1 3. rewrite Hc. change (sw_max_commands (expire l t)) with (sw_max_commands l).
  destruct (Z.ltb_spec (Z.of_nat (count_in (sw_window l) t past)) (sw_max_commands l)) as [Hok|Hno].
  - pose proof (IH (push_timestamp (expire l t) t) _ t Hw (tracks_grant (expire l t) past t Hw He) Hs
      (grant_keeps_windows _ _ t past (wt_past _ _ _ He) Hall Hok)) as [IH1 IH2].
    destruct (attempts _ _ times) as [l' oks]. cbn [snd] in *. split; [by rewrite IH1|].
    intros now. unfold grants in *. cbn. specialize (IH2 now). by rewrite <-app_assoc in IH2.
  - pose proof (IH (expire l t) past t Hw He Hs Hall) as [IH1 IH2].
    destruct (attempts _ _ times) as [l' oks]. cbn [snd] in *. split; [by rewrite IH1|].
    intros now. apply (IH2 now).
Qed.

(** C25: the sliding window is exact.  Asked at times that never go back, a new
    limiter answers as the limiter that forgets nothing would (an attempt is
    granted precisely when fewer than [max_commands] grants lie in the window
    that ends at it), and no window of the configured length, wherever it
    ends, ever contains more than [max_commands] grants. *)
Theorem sliding_window_exact (c : RateLimitConfig) (times : list Instant) :
  0 < window c → 0 ≤ max_commands c → StronglySorted Z.le times →
  let oks := (attempts window_try_acquire (sliding_window_new c) times).2 in
  oks = full_history (max_commands c) (window c) [] times ∧
  ∀ now, Z.of_nat (count_in (window c) now (grants times oks)) ≤ max_commands c.
Proof.
  intros Hw Hm Hs. destruct times as [|t times].
  { split; [done|]. intros now. apply Hm. }
  apply (window_run (sliding_window_new c) [] t); [done|by split|..].
  - constructor; [done|]. apply StronglySorted_inv in Hs as [_ Hs]. by constructor.
  - intros now. apply Hm.
Qed.

(** ** Witnesses *)
Definition two_per_second : RateLimitConfig := per_second 2.

Lemma sliding_window_exact_witness :
  (attempts window_try_acquire (sliding_window_new two_per_second)
     [0; 300000000; 900000000; 1000000000; 1200000000; 1300000000]).2 =
    [true; true; false; true; false; true] ∧
  ∀ now, Z.of_nat (count_in 1000000000 now (grants
     [0; 300000000; 900000000; 1000000000; 1200000000; 1300000000]
     [true; true; false; true; false; true])) ≤ 2.
Proof.
  split; [vm_compute; reflexivity|].
  assert (StronglySorted Z.le [0; 300000000; 900000000; 1000000000; 1200000000; 1300000000]) as Hs.
  { repeat (constructor; [|repeat (constructor; [lia|]); constructor]). constructor. }
  exact (proj2 (sliding_window_exact two_per_second _ eq_refl ltac:(done) Hs)).
Defined.

Definition half_full : TokenBucketLimiter := mkBucket 4 2 (f64_of_Z 4) 0.

Lemma half_full_ok : bucket_ok half_full.
Proof. split; unfold U64_MAX; simpl; lia. Qed.

Definition burst_times : list Instant := [0; 0; 0; 500000000; 500000000; 500000000].

Lemma bucket_conserves_tokens_witness :
  (attempts bucket_try_acquire half_full burst_times).2 =
    [true; true; false; true; true; false] ∧
  minted_in half_full burst_times = 2 ∧
  let '(b', oks) := attempts bucket_try_acquire half_full burst_times in
  0 ≤ tokens b' ≤ capacity half_full ∧ Z.of_nat (granted oks) + tokens b' ≤
    tokens half_full + minted_in half_full burst_times.
Proof.
  split; [vm_compute; reflexivity|]. split; [vm_compute; reflexivity|].
  exact (bucket_conserves_tokens half_full burst_times half_full_ok).
Defined.

Lemma burst_is_capacity_witness :
  (attempts bucket_try_acquire half_full (replicate 3 (last_refill half_full))).2 = [true; true; false].
Proof. rewrite (burst_is_capacity half_full 3 half_full_ok). reflexivity. Defined.

(** The bucket of [RateLimitConfig::unlimited()] mints [u64::MAX] tokens a
    second.  Once one was taken and a second has passed the unchecked addition
    wraps: after two attempts half of the bucket is gone in a build without
    overflow checks (and the addition panics in one with them). *)
Example unlimited_bucket_wraps :
  let b := (bucket_try_acquire (token_bucket_new unlimited 0) 0).1 in
  tokens b = U64_MAX - 1 ∧ minted b 500000000 = 2 ^ 63 ∧
  tokens (refill b 500000000) = 2 ^ 63 - 2.
Proof. vm_compute. done. Qed.
