(* ===== verification/Boost.v ===== *)
(** * Deadline-based priority boosting ([src/boost.rs])

    [PriorityBoostConfig] with its builder and presets, and the three queries
    of [PriorityBooster], each given the reading of the clock.  [DateTime] plus
    a duration panics when the date leaves the calendar of [chrono]: the
    queries answer [None] there (and [Some] of what they return elsewhere). *)
From Stdlib Require Import Sorting.Sorted.
From S2P Require Import Prelude Ordering Float64 External RateLimit.
Local Open Scope Z_scope.

Record PriorityBoostConfig := mkBoost {
  enabled : bool;
  deadline : Duration;
  boost_intervals : list (Duration * Z);     (* u8 amounts *)
}.
#[export] Instance eta_PriorityBoostConfig : Eta PriorityBoostConfig := λ c,
  mkBoost (enabled c) (deadline c) (boost_intervals c).

Definition boost_new (d : Duration) : PriorityBoostConfig := mkBoost true d [].
Definition disabled : PriorityBoostConfig := mkBoost false 0 [].

(** [sort_by_key(Reverse(interval.0))]: stable, largest threshold first. *)
Definition largest_first : Duration * Z → Duration * Z → comparison :=
  cmp_reverse (cmp_on Z.compare fst).

Definition with_boost (c : PriorityBoostConfig) (time_before_deadline : Duration) (boost : Z)
    : PriorityBoostConfig :=
  c <| boost_intervals := sort_by largest_first (boost_intervals c ++ [(time_before_deadline, boost)]) |>.

(** Rounding [m / 2 ^ k] to the nearest integer, ties to even. *)
Definition round_half_even (m k : Z) : Z :=
  let q := Z.shiftr m k in
  let r := m - Z.shiftl q k in
  match r ?= Z.shiftl 1 (k - 1) with
  | Lt => q
  | Gt => q + 1
  | Eq => if Z.odd q then q + 1 else q
  end.

(** [Duration::from_secs_f64]: the nearest nanosecond, ties to even; a
    negative, infinite or overflowing argument panics. *)
Definition from_secs_f64 (x : f64) : option Duration :=
  match x with
  | S754_zero _ => Some 0
  | S754_finite false m e =>
      let nanos := if 0 <=? e then Zpos m * 2 ^ e * nanos_per_sec
                   else round_half_even (Zpos m * nanos_per_sec) (- e) in
      if nanos `div` nanos_per_sec <=? U64_MAX then Some nanos else None
  | _ => None
  end.

Definition percent (p : Z) : f64 := f64_div (f64_of_Z p) (f64_of_Z 100).

(** One line of a preset: the boost [b] at [p] percent of the deadline. *)
Definition with_percent (c : option PriorityBoostConfig) (d : Duration) (p b : Z)
    : option PriorityBoostConfig :=
  match c, from_secs_f64 (f64_mul (as_secs_f64 d) (percent p)) with
  | Some c, Some t => Some (with_boost c t b)
  | _, _ => None
  end.

Definition standard (d : Duration) : option PriorityBoostConfig :=
  with_percent (with_percent (with_percent (with_percent (Some (boost_new d)) d 75 1) d 50 2) d 25 3) d 10 4.

Definition aggressive (d : Duration) : option PriorityBoostConfig :=
  with_percent (with_percent (with_percent (with_percent (Some (boost_new d)) d 80 2) d 60 4) d 40 6) d 20 8.

(** ** [PriorityBooster] *)
Section booster.
Context {X : Ext}.

Definition deadline_at (c : PriorityBoostConfig) (created_at : DateTime) : option DateTime :=
  checked_add_signed created_at (unwrap_or (chrono_from_std (deadline c)) 0).

(** [num_milliseconds] truncates; the argument is positive where it is used. *)
Definition remaining_std (delta : Z) : Duration :=
  from_millis (Z.max (Z.quot delta nanos_per_milli) 0).

Definition applicable_boost (remaining : Duration) (intervals : list (Duration * Z)) : Z :=
  foldl (λ boost i, if remaining <=? i.1 then i.2 else boost) 0 intervals.

Definition calculate_priority (c : PriorityBoostConfig) (base_priority : Z) (created_at now : DateTime)
    : option Z :=
  if negb (enabled c) then Some base_priority
  else match deadline_at c created_at with
       | None => None
       | Some dl =>
           let time_remaining := dl - now in
           if time_remaining <=? 0 then Some 0
           else Some (sat_sub base_priority (applicable_boost (remaining_std time_remaining) (boost_intervals c)))
       end.

Definition is_past_deadline (c : PriorityBoostConfig) (created_at now : DateTime) : option bool :=
  if negb (enabled c) then Some false
  else (λ dl, dl <=? now) <$> deadline_at c created_at.

Definition time_remaining (c : PriorityBoostConfig) (created_at now : DateTime) : option (option Duration) :=
  if negb (enabled c) then Some None
  else (λ dl, Some (if dl - now <=? 0 then 0 else from_millis (Z.quot (dl - now) nanos_per_milli)))
         <$> deadline_at c created_at.

(** ** The applicable boost *)

(** A configuration as its users build it: [new] and a chain of [with_boost]. *)
Definition configured (d : Duration) (boosts : list (Duration * Z)) : PriorityBoostConfig :=
  foldl (λ c b, with_boost c b.1 b.2) (boost_new d) boosts.

#[local] Instance lawful_largest_first : LawfulCmp largest_first.
Proof. unfold largest_first. apply _. Qed.

Lemma configured_intervals d boosts :
  enabled (configured d boosts) = true ∧ deadline (configured d boosts) = d ∧
  boost_intervals (configured d boosts) ≡ₚ boosts ∧
  StronglySorted (cmp_le largest_first) (boost_intervals (configured d boosts)).
Proof.
  unfold configured. induction boosts as [|b boosts IH] using rev_ind; [by split_and!; try constructor|].
  rewrite foldl_snoc. destruct IH as (He & Hd & Hp & Hs).
  generalize dependent (foldl (λ c b, with_boost c b.1 b.2) (boost_new d) boosts). intros c He Hd Hp Hs.
  unfold with_boost, upd. cbn. split_and!; [done|done| |apply sort_by_sorted; apply _].
  rewrite sort_by_perm, Hp. by destruct b.
Qed.

(** In a list with the largest threshold first the last applicable interval
    is one with the least applicable threshold. *)
Lemma applicable_spec r acc l : StronglySorted (cmp_le largest_first) l →
  let chosen := foldl (λ boost i, if r <=? i.1 then i.2 else boost) acc l in
  (Forall (λ i, i.1 < r) l ∧ chosen = acc) ∨
  (∃ t b, (t, b) ∈ l ∧ r ≤ t ∧ Forall (λ i, r ≤ i.1 → t ≤ i.1) l ∧ chosen = b).
Proof.
  intros Hs. revert acc. induction Hs as [|[t b] l Hs IH Hx]; intros acc; simpl; [by left|].
  destruct (Z.leb_spec r t) as [Hle|Hgt].
  - right. destruct (IH b) as [[Hall ->]|(t' & b' & Hin & Hr & Hmin & ->)].
    + exists t, b. split_and!; [by left|done| |done]. constructor; [done|].
      eapply Forall_impl; [exact Hall|]. simpl. lia.
    + exists t', b'. split_and!; [by right|done| |done]. constructor; [|done]. simpl. intros _.
      rewrite Forall_forall in Hx. specialize (Hx _ Hin). unfold cmp_le, largest_first, cmp_reverse, cmp_on in Hx.
      simpl in Hx. destruct (Z.compare_spec t t'); simpl in Hx; [lia|done|lia].
  - destruct (IH acc) as [[Hall ->]|(t' & b' & Hin & Hr & Hmin & ->)].
    + left. split; [by constructor|done].
    + right. exists t', b'. split_and!; [by right|done| |done]. constructor; [simpl; lia|done].
Qed.

(** Less time left never selects a smaller boost when the amounts grow along the list. *)
Lemma applicable_mono r r' a a' l : r ≤ r' → a' ≤ a → Forall (λ i, a ≤ i.2) l →
  StronglySorted (λ i j, i.2 ≤ j.2) l →
  foldl (λ boost i, if r' <=? i.1 then i.2 else boost) a' l ≤
  foldl (λ boost i, if r <=? i.1 then i.2 else boost) a l.
Proof.
  intros Hr Ha Hb Hs. revert a a' Ha Hb. induction Hs as [|[t b] l Hs IH Hx]; intros a a' Ha Hb; simpl; [done|].
  apply Forall_cons in Hb as [Hb1 Hb]. simpl in *.
  destruct (Z.leb_spec r t), (Z.leb_spec r' t); try lia; apply IH; auto; lia.
Qed.

(** Past its deadline a command has the highest priority; before it, the
    boost is the one configured for the least threshold that the remaining
    time (in whole milliseconds) does not exceed, in whatever order the
    intervals were added, and there is none when the remaining time exceeds
    every threshold. *)
Theorem tightest_boost_applies (d : Duration) (boosts : list (Duration * Z)) base created now dl :
  deadline_at (configured d boosts) created = Some dl →
  (dl ≤ now → calculate_priority (configured d boosts) base created now = Some 0) ∧
  (now < dl →
    let r := remaining_std (dl - now) in
    (Forall (λ i, i.1 < r) boosts ∧ calculate_priority (configured d boosts) base created now = Some (sat_sub base 0)) ∨
    ∃ t b, (t, b) ∈ boosts ∧ r ≤ t ∧ Forall (λ i, r ≤ i.1 → t ≤ i.1) boosts ∧
      calculate_priority (configured d boosts) base created now = Some (sat_sub base b)).
Proof.
  intros Hdl. destruct (configured_intervals d boosts) as (He & _ & Hp & Hs).
  unfold calculate_priority. rewrite He, Hdl. simpl. split; intros H.
  { by destruct (Z.leb_spec (dl - now) 0); [|lia]. }
  destruct (Z.leb_spec (dl - now) 0); [lia|]. unfold applicable_boost.
  destruct (applicable_spec (remaining_std (dl - now)) 0 _ Hs) as [[Hall Hc]|(t & b & Hin & Hr & Hmin & Hc)];
    rewrite Hc.
  - left. by rewrite Hp in Hall.
  - right. exists t, b. rewrite Hp in Hin, Hmin. done.
Qed.

Lemma remaining_std_mono a b : a ≤ b → remaining_std a ≤ remaining_std b.
Proof.
  intros H. unfold remaining_std, from_millis, nanos_per_milli.
  pose proof (Z.quot_le_mono a b 1000000 ltac:(lia) H). lia.
Qed.

(** Waiting never lowers the urgency: when the amounts grow towards the
    deadline, the priority number computed later is not larger. *)
Theorem urgency_grows (c : PriorityBoostConfig) base created now now' p p' :
  0 ≤ base → Forall (λ i, 0 ≤ i.2) (boost_intervals c) →
  StronglySorted (λ i j, i.2 ≤ j.2) (boost_intervals c) → now ≤ now' →
  calculate_priority c base created now = Some p →
  calculate_priority c base created now' = Some p' → p' ≤ p ≤ base.
Proof.
  unfold calculate_priority. intros Hbase Hpos Hs Hle. destruct (enabled c); simpl; [|intros; simplify_eq; lia].
  destruct (deadline_at c created) as [dl|]; [|done].
  pose proof (remaining_std_mono (dl - now') (dl - now) ltac:(lia)) as Hr.
  pose proof (applicable_mono _ _ 0 0 _ Hr ltac:(lia) Hpos Hs) as Hm.
  assert (0 ≤ applicable_boost (remaining_std (dl - now)) (boost_intervals c)) as Hnn.
  { unfold applicable_boost. apply (foldl_keeps_forall (λ b, 0 ≤ b) (λ i, 0 ≤ i.2)); [|done|done].
    intros a b. destruct (_ <=? _); done. }
  unfold applicable_boost, sat_sub in *.
  destruct (Z.leb_spec (dl - now) 0), (Z.leb_spec (dl - now') 0); intros; simplify_eq; lia.
Qed.
End booster.

(** ** Witnesses *)
Definition minutes (n : Z) : Duration := from_secs (60 * n).

(** The presets of a ten-minute deadline. *)
Example standard_intervals :
  boost_intervals <$> standard (minutes 10) =
    Some [(from_secs 450, 1); (from_secs 300, 2); (from_secs 150, 3); (from_secs 60, 4)].
Proof. vm_compute. reflexivity. Qed.

Example aggressive_intervals :
  boost_intervals <$> aggressive (minutes 10) =
    Some [(from_secs 480, 2); (from_secs 360, 4); (from_secs 240, 6); (from_secs 120, 8)].
Proof. vm_compute. reflexivity. Qed.

#[local] Existing Instance demo_ext.

(** Intervals added out of order, and two that are both applicable. *)
Definition two_boosts : list (Duration * Z) := [(from_secs 60, 4); (from_secs 300, 2)].

Lemma tightest_boost_applies_witness :
  deadline_at (configured (minutes 10) two_boosts) 0 = Some (from_secs 600) ∧
  calculate_priority (configured (minutes 10) two_boosts) 5 0 (from_secs 600) = Some 0 ∧
  ((Forall (λ i, i.1 < from_secs 50) two_boosts ∧
    calculate_priority (configured (minutes 10) two_boosts) 5 0 (from_secs 550) = Some 5) ∨
   ∃ t b, (t, b) ∈ two_boosts ∧ from_secs 50 ≤ t ∧ Forall (λ i, from_secs 50 ≤ i.1 → t ≤ i.1) two_boosts ∧
     calculate_priority (configured (minutes 10) two_boosts) 5 0 (from_secs 550) = Some (sat_sub 5 b)) ∧
  calculate_priority (configured (minutes 10) two_boosts) 5 0 (from_secs 550) = Some 1.
Proof.
  assert (deadline_at (configured (minutes 10) two_boosts) 0 = Some (from_secs 600)) as Hd by reflexivity.
  pose proof (tightest_boost_applies (minutes 10) two_boosts 5 0 (from_secs 600) _ Hd) as [H1 _].
  pose proof (tightest_boost_applies (minutes 10) two_boosts 5 0 (from_secs 550) _ Hd) as [_ H2].
  split; [exact Hd|]. split; [apply H1; done|]. split; [exact (H2 eq_refl)|]. vm_compute. reflexivity.
Defined.

Definition standard_10min : PriorityBoostConfig := unwrap_or (standard (minutes 10)) disabled.

Lemma urgency_grows_witness :
  calculate_priority standard_10min 5 0 (from_secs 200) = Some 4 ∧
  calculate_priority standard_10min 5 0 (from_secs 545) = Some 1 ∧ 1 ≤ 4 ≤ 5.
Proof.
  assert (calculate_priority standard_10min 5 0 (from_secs 200) = Some 4) as H1 by (vm_compute; reflexivity).
  assert (calculate_priority standard_10min 5 0 (from_secs 545) = Some 1) as H2 by (vm_compute; reflexivity).
  split; [exact H1|]. split; [exact H2|].
  assert (boost_intervals standard_10min =
    [(from_secs 450, 1); (from_secs 300, 2); (from_secs 150, 3); (from_secs 60, 4)]) as Hi
    by (vm_compute; reflexivity).
  refine (urgency_grows standard_10min 5 0 (from_secs 200) (from_secs 545) 4 1 _ _ _ _ H1 H2).
  - lia.
  - rewrite Hi. repeat constructor; simpl; lia.
  - rewrite Hi. repeat (constructor; [|repeat (constructor; [simpl; lia|]); constructor]). constructor.
  - vm_compute. discriminate.
Defined.
