(* ===== verification/LaneTypes.v ===== *)
(** * Lane configuration and queue events ([src/config.rs], [src/event.rs])

    The configuration record with its builder, the encoding of its timeout,
    and the events a queue emits.  The event channel is a [broadcast] channel
    of tokio; what the queue sends on it is kept as the list of the events. *)
From S2P Require Import Prelude External Retry RateLimit Boost.
Local Open Scope Z_scope.

(** ** [LaneConfig] *)
Record LaneConfig := mkLaneConfig {
  min_concurrency : nat;         (* usize *)
  max_concurrency : nat;         (* usize *)
  default_timeout : option Duration;
  retry_policy : RetryPolicy;
  rate_limit : option RateLimitConfig;
  priority_boost : option PriorityBoostConfig;
  pressure_threshold : option nat;
}.
#[export] Instance eta_LaneConfig : Eta LaneConfig := λ c,
  mkLaneConfig (min_concurrency c) (max_concurrency c) (default_timeout c) (retry_policy c)
    (rate_limit c) (priority_boost c) (pressure_threshold c).

Definition lane_config_new (min max : nat) : LaneConfig :=
  mkLaneConfig min max None Retry.none None None None.
Definition lane_config_default : LaneConfig := lane_config_new 1 4.

Definition with_timeout (c : LaneConfig) (t : Duration) : LaneConfig := c <| default_timeout := Some t |>.
Definition with_retry_policy (c : LaneConfig) (p : RetryPolicy) : LaneConfig := c <| retry_policy := p |>.
Definition with_rate_limit (c : LaneConfig) (r : RateLimitConfig) : LaneConfig := c <| rate_limit := Some r |>.
Definition with_priority_boost (c : LaneConfig) (b : PriorityBoostConfig) : LaneConfig :=
  c <| priority_boost := Some b |>.
Definition with_pressure_threshold (c : LaneConfig) (n : nat) : LaneConfig := c <| pressure_threshold := Some n |>.

(** [duration_serde]: a timeout is stored in whole milliseconds, as a [u64]. *)
Definition serialize_timeout (d : option Duration) : option Z := (λ d, as_millis d `mod` 2 ^ 64) <$> d.
Definition deserialize_timeout (ms : option Z) : option Duration := from_millis <$> ms.

(** A timeout survives being stored and loaded up to the fraction of a
    millisecond the format has no room for: it is rounded down, never by a
    whole millisecond, and a second round changes nothing. *)
Theorem timeout_roundtrip (d : Duration) : 0 ≤ d → as_millis d ≤ U64_MAX →
  ∃ d', deserialize_timeout (serialize_timeout (Some d)) = Some d' ∧
    d' ≤ d < d' + from_millis 1 ∧
    deserialize_timeout (serialize_timeout (Some d')) = Some d'.
Proof.
  unfold as_millis, serialize_timeout, deserialize_timeout, from_millis, as_millis, nanos_per_milli, U64_MAX.
  intros Hd Hm. simpl. pose proof (Z.div_pos d 1000000 Hd ltac:(lia)) as Hp.
  rewrite (Z.mod_small (d `div` 1000000)) by lia. eexists. split; [done|].
  rewrite Z.div_mul by lia. rewrite Z.mod_small by lia.
  pose proof (Z.div_mod d 1000000 ltac:(lia)). pose proof (Z.mod_pos_bound d 1000000 ltac:(lia)).
  split; [lia|done].
Qed.

Lemma timeout_roundtrip_witness :
  deserialize_timeout (serialize_timeout (Some 1500700000)) = Some (from_millis 1500) ∧
  ∃ d', deserialize_timeout (serialize_timeout (Some 1500700000)) = Some d' ∧
    d' ≤ 1500700000 < d' + from_millis 1 ∧
    deserialize_timeout (serialize_timeout (Some d')) = Some d'.
Proof.
  split; [reflexivity|]. apply (timeout_roundtrip 1500700000); [lia|].
  vm_compute. discriminate.
Defined.

(** ** Events *)
Definition QUEUE_LANE_PRESSURE : string := "queue.lane.pressure".
Definition QUEUE_LANE_IDLE : string := "queue.lane.idle".
Definition QUEUE_COMMAND_SUBMITTED : string := "queue.command.submitted".
Definition QUEUE_COMMAND_STARTED : string := "queue.command.started".
Definition QUEUE_COMMAND_COMPLETED : string := "queue.command.completed".
Definition QUEUE_COMMAND_FAILED : string := "queue.command.failed".
Definition QUEUE_COMMAND_TIMEOUT : string := "queue.command.timeout".
Definition QUEUE_COMMAND_RETRY : string := "queue.command.retry".
Definition QUEUE_COMMAND_DEAD_LETTERED : string := "queue.command.dead_lettered".
Definition QUEUE_SHUTDOWN_STARTED : string := "queue.shutdown.started".
Definition QUEUE_SHUTDOWN_COMPLETE : string := "queue.shutdown.complete".

Section events.
Context {X : Ext}.

Inductive EventPayload : Type :=
| PayloadEmpty
| PayloadString (s : string)
| PayloadMap (m : gmap string Value).

Record LaneEvent := mkEvent {
  ev_key : string;
  ev_payload : EventPayload;
  ev_timestamp : DateTime;
}.

Definition event_empty (key : string) (now : DateTime) : LaneEvent := mkEvent key PayloadEmpty now.
Definition event_with_string (key message : string) (now : DateTime) : LaneEvent :=
  mkEvent key (PayloadString message) now.
Definition event_with_map (key : string) (m : list (string * Value)) (now : DateTime) : LaneEvent :=
  mkEvent key (PayloadMap (list_to_map (reverse m))) now.
End events.
