(* ===== verification/LaneQueue.v ===== *)
(** * The lane command queue ([src/queue.rs])

    [Lane], [QueueLifecycle] and [CommandQueue]: admission, the scheduler, the
    tasks that execute commands, retry timers and shutdown.

    A lane is an object behind an [Arc] with a lock of its own; the queue's map
    names objects by their lane id.  Every region of code between two lock
    acquisitions is one function on the state of the queue below, and the
    asynchronous parts (submissions under way, spawned tasks, retry timers) are
    part of that state, so that any interleaving is a sequence of calls.  The
    functions of the code that go through several regions ([submit],
    [schedule_next], the scheduler loop) are compositions of them.

    A result channel is a number; [delivered] records what was sent on the
    channels.  What a [Storage] is asked to do is recorded, its answers are
    ignored by the code.  The model has the [distributed] feature on. *)
From S2P Require Import Prelude Ordering Text External Retry DeadLetter RateLimit Boost LaneTypes.
Local Open Scope Z_scope.

Section queue.
Context {X : Ext}.

Abbreviation LaneId := string (only parsing).
Abbreviation Priority := Z (only parsing).

(** The clocks read by one step. *)
Record Clock := mkClock { instant : Instant; utc : DateTime }.

Record CommandWrapper := mkWrapper {
  w_id : string;
  w_result_tx : nat;
  w_timeout : option Duration;
  w_retry_policy : RetryPolicy;
  w_attempt : Z;                 (* u32 *)
  w_lane_id : LaneId;
  w_command_type : string;
  w_permit : bool;               (* Option<WorkPermit> *)
  w_enqueue_time : DateTime;
}.
#[export] Instance eta_CommandWrapper : Eta CommandWrapper := λ w,
  mkWrapper (w_id w) (w_result_tx w) (w_timeout w) (w_retry_policy w) (w_attempt w) (w_lane_id w)
    (w_command_type w) (w_permit w) (w_enqueue_time w).

(** [LaneState] and [Lane] in one record. *)
Record Lane := mkLane {
  lane_id : LaneId;
  config : LaneConfig;
  priority : Priority;
  pending : list CommandWrapper;
  active : nat;
  delayed_retries : nat;
  is_pressured : bool;
  has_storage : bool;
  rate_limiter : RateLimiter;
  booster : option PriorityBoostConfig;
}.
#[export] Instance eta_Lane : Eta Lane := λ l,
  mkLane (lane_id l) (config l) (priority l) (pending l) (active l) (delayed_retries l) (is_pressured l)
    (has_storage l) (rate_limiter l) (booster l).

(** [Lane::new] and [Lane::with_storage]. *)
Definition lane_new (id : LaneId) (c : LaneConfig) (p : Priority) (storage : bool) (now : Instant) : Lane :=
  mkLane id c p [] 0 0 false storage
    (match rate_limit c with Some r => TokenBucket (token_bucket_new r now) | None => Unlimited end)
    (priority_boost c).

Definition has_capacity (l : Lane) : bool := (active l <? max_concurrency (config l))%nat.
Definition has_pending (l : Lane) : bool := match pending l with [] => false | _ => true end.

(** [None]: the date arithmetic of the booster panics. *)
Definition effective_priority (l : Lane) (now : DateTime) : option Priority :=
  match booster l, pending l with
  | Some b, front :: _ => calculate_priority b (priority l) (w_enqueue_time front) now
  | _, _ => Some (priority l)
  end.

Definition new_wrapper (l : Lane) (id command_type : string) (permit : bool) (tx : nat) (now : DateTime)
    : CommandWrapper :=
  mkWrapper id tx (default_timeout (config l)) (retry_policy (config l)) 0 (lane_id l) command_type permit now.

Definition push_pending (l : Lane) (w : CommandWrapper) : Lane := l <| pending ::= λ ws, ws ++ [w] |>.

(** The two halves of [retry_command]: before the sleep and after it. *)
Definition retry_begins (l : Lane) : Lane := l <| delayed_retries ::= S |>.
Definition retry_fires (l : Lane) (w : CommandWrapper) : Lane :=
  push_pending (l <| delayed_retries ::= Nat.pred |>) w.

Definition try_dequeue (l : Lane) (now : Instant) : Lane * option CommandWrapper :=
  let '(limiter, permitted) := try_acquire (rate_limiter l) now in
  let l := l <| rate_limiter := limiter |> in
  if negb permitted then (l, None)
  else if has_capacity l && has_pending l
       then match pending l with
            | w :: ws => (l <| active ::= S |> <| pending := ws |>, Some w)
            | [] => (l <| active ::= S |>, None)
            end
       else (l, None).

Definition mark_completed (l : Lane) : Lane := l <| active ::= Nat.pred |>.

Record LaneStatus := mkStatus { st_pending : nat; st_active : nat; st_min : nat; st_max : nat }.
Definition status (l : Lane) : LaneStatus :=
  mkStatus (length (pending l) + delayed_retries l) (active l)
    (min_concurrency (config l)) (max_concurrency (config l)).

Definition lane_is_idle (l : Lane) : bool :=
  negb (has_pending l) && (active l =? 0)%nat && (delayed_retries l =? 0)%nat.

Definition check_pressure (l : Lane) : Lane * option string :=
  match pressure_threshold (config l) with
  | None => (l, None)
  | Some threshold =>
      let n := length (pending l) in
      if (threshold <=? n)%nat && negb (is_pressured l)
      then (l <| is_pressured := true |>, Some QUEUE_LANE_PRESSURE)
      else if (n =? 0)%nat && is_pressured l
           then (l <| is_pressured := false |>, Some QUEUE_LANE_IDLE)
           else (l, None)
  end.

(** ** The queue *)

(** A call of [submit] or [Lane::enqueue] under way. *)
Inductive Submission : Type :=
| HoldsPermit (id : LaneId) (command_type : string)   (* holds a permit, lane not looked up yet *)
| Placing (o : nat) (w : CommandWrapper).          (* about to lock the lane and push *)

(** A task spawned by the scheduler for an object. *)
Inductive Task : Type :=
| Running (o : nat) (w : CommandWrapper)           (* executing the command *)
| Finished (o : nat) (w : CommandWrapper)          (* result sent, [mark_completed] ahead *)
| Retrying (o : nat)                               (* wrapper given to a timer, [mark_completed] ahead *)
| Released (permit : bool).                        (* about to drop the wrapper *)

Inductive StorageCall : Type :=
| SaveCommand (id command_type : string) (lane : LaneId) (created_at : DateTime)
| RemoveCommand (id : string).

Record Timer := mkTimer { t_object : nat; t_wrapper : CommandWrapper; t_delay : Duration }.

Record CommandQueue := mkQueue {
  lanes : gmap LaneId nat;
  objects : list Lane;
  emitted : list LaneEvent;
  dlq : option DeadLetterQueue;
  is_shutting_down : bool;
  outstanding : Z;               (* AtomicUsize *)
  submissions : list Submission;
  tasks : list Task;
  timers : list Timer;
  delivered : list (nat * Result Value);
  storage_calls : list (nat * StorageCall);
  next_tx : nat;
  panicked : list (nat * nat);   (* object and channel of a command that panicked *)
}.
#[export] Instance eta_CommandQueue : Eta CommandQueue := λ q,
  mkQueue (lanes q) (objects q) (emitted q) (dlq q) (is_shutting_down q) (outstanding q) (submissions q)
    (tasks q) (timers q) (delivered q) (storage_calls q) (next_tx q) (panicked q).

(** [CommandQueue::new], [with_dlq]. *)
Definition queue_new (dlq_size : option nat) : CommandQueue :=
  mkQueue ∅ [] [] (Dlq.new <$> dlq_size) false 0 [] [] [] [] [] 0 [].

Definition emit (q : CommandQueue) (e : LaneEvent) : CommandQueue := q <| emitted ::= λ es, es ++ [e] |>.

Definition with_object (q : CommandQueue) (o : nat) (f : Lane → Lane) : CommandQueue :=
  match objects q !! o with
  | Some l => q <| objects ::= <[o := f l]> |>
  | None => q
  end.

(** Dropping a permit, if there is one. *)
Definition drop_permit (q : CommandQueue) (permit : bool) : CommandQueue :=
  if permit then q <| outstanding ::= λ n, n - 1 |> else q.

Definition store (q : CommandQueue) (o : nat) (storage : bool) (c : StorageCall) : CommandQueue :=
  if storage then q <| storage_calls ::= λ cs, cs ++ [(o, c)] |> else q.

Definition deliver (q : CommandQueue) (tx : nat) (r : Result Value) : CommandQueue :=
  q <| delivered ::= λ ds, ds ++ [(tx, r)] |>.

(** *** Lanes *)
Definition create_lane (q : CommandQueue) (l : Lane) : CommandQueue := q <| objects ::= λ ls, ls ++ [l] |>.

Definition register_lane (q : CommandQueue) (o : nat) : CommandQueue :=
  match objects q !! o with
  | Some l => q <| lanes ::= <[lane_id l := o]> |>
  | None => q
  end.

(** *** [submit] and [Lane::enqueue] *)
Definition admit_work (q : CommandQueue) (id : LaneId) (command_type : string) : CommandQueue * Result unit :=
  if is_shutting_down q then (q, Err ShutdownInProgress)
  else (q <| outstanding ::= λ n, n + 1 |> <| submissions ::= λ ss, ss ++ [HoldsPermit id command_type] |>, Ok tt).

(** The wrapper of a new command and its place among the submissions. *)
Definition wrap (q : CommandQueue) (o : nat) (l : Lane) (id command_type : string) (permit : bool)
    (now : DateTime) : CommandQueue * CommandWrapper :=
  let w := new_wrapper l id command_type permit (next_tx q) now in
  (store (q <| next_tx ::= S |>) o (has_storage l) (SaveCommand id command_type (lane_id l) now), w).

(** The lookup after admission; a failure drops the permit. *)
Definition locate (q : CommandQueue) (i : nat) (command_id : string) (now : DateTime)
    : CommandQueue * Result (option nat) :=
  match submissions q !! i with
  | Some (HoldsPermit id command_type) =>
      match lanes q !! id ≫= λ o, (o,.) <$> objects q !! o with
      | None => (drop_permit (q <| submissions ::= delete i |>) true, Err (LaneNotFound id))
      | Some (o, l) =>
          let '(q, w) := wrap q o l command_id command_type true now in
          (q <| submissions ::= <[i := Placing o w]> |>, Ok (Some (w_result_tx w)))
      end
  | _ => (q, Ok None)
  end.

(** [Lane::enqueue]: no permit. *)
Definition enqueue (q : CommandQueue) (o : nat) (command_id command_type : string) (now : DateTime)
    : CommandQueue * option nat :=
  match objects q !! o with
  | Some l =>
      let '(q, w) := wrap q o l command_id command_type false now in
      (q <| submissions ::= λ ss, ss ++ [Placing o w] |>, Some (w_result_tx w))
  | None => (q, None)
  end.

(** The push onto the lane; [submit] announces it. *)
Definition place (q : CommandQueue) (i : nat) (now : DateTime) : CommandQueue :=
  match submissions q !! i with
  | Some (Placing o w) =>
      let q := with_object (q <| submissions ::= delete i |>) o (λ l, push_pending l w) in
      if w_permit w
      then emit q (event_with_map QUEUE_COMMAND_SUBMITTED [("lane_id", VString (w_lane_id w))] now)
      else q
  | _ => q
  end.

(** [submit] without interference. *)
Definition submit (q : CommandQueue) (id : LaneId) (command_id command_type : string) (now : DateTime)
    : CommandQueue * Result nat :=
  let i := length (submissions q) in
  match admit_work q id command_type with
  | (q, Err e) => (q, Err e)
  | (q, Ok _) =>
      match locate q i command_id now with
      | (q, Ok (Some tx)) => (place q i now, Ok tx)
      | (q, Ok None) => (q, Err (LaneNotFound id))
      | (q, Err e) => (q, Err e)
      end
  end.

(** *** The scheduler *)

(** The pressure check of one entry of the lane map. *)
Definition pressure (q : CommandQueue) (id : LaneId) (o : nat) (now : DateTime) : CommandQueue :=
  match objects q !! o with
  | Some l =>
      let '(l, event_key) := check_pressure l in
      let q := q <| objects ::= <[o := l]> |> in
      match event_key with
      | Some key => emit q (event_with_map key [("lane_id", VString id)] now)
      | None => q
      end
  | None => q
  end.

(** The attempt to take a command from one lane; on success it is announced
    and its task spawned. *)
Definition dequeue (q : CommandQueue) (o : nat) (now : Clock) : CommandQueue * bool :=
  match objects q !! o with
  | Some l =>
      let '(l, taken) := try_dequeue l (instant now) in
      let q := q <| objects ::= <[o := l]> |> in
      match taken with
      | Some w =>
          (emit (q <| tasks ::= λ ts, ts ++ [Running o w] |>)
             (event_with_map QUEUE_COMMAND_STARTED
                [("lane_id", VString (w_lane_id w)); ("command_id", VString (w_id w));
                 ("command_type", VString (w_command_type w))] (utc now)), true)
      | None => (q, false)
      end
  | None => (q, false)
  end.

(** The loop over the sorted lanes; it stops at the first that yields a command. *)
Fixpoint dispatch_first (q : CommandQueue) (os : list nat) (now : Clock) : CommandQueue * bool :=
  match os with
  | [] => (q, false)
  | o :: os => let '(q, started) := dequeue q o now in if started then (q, true) else dispatch_first q os now
  end.

Definition priority_of (q : CommandQueue) (now : DateTime) (o : nat) : option (Priority * nat) :=
  l ← objects q !! o; p ← effective_priority l now; Some (p, o).

(** [sort_by_key(priority)]: stable. *)
Definition by_priority : Priority * nat → Priority * nat → comparison := cmp_on Z.compare fst.

Inductive Round : Type := RoundIdle | RoundStarted | RoundPanicked.

Definition schedule_next (q : CommandQueue) (now : Clock) : CommandQueue * Round :=
  let snapshot := hash_iter (lanes q) in
  let q := foldl (λ q e, pressure q e.1 e.2 (utc now)) q snapshot in
  match mapM (priority_of q (utc now)) snapshot.*2 with
  | None => (q, RoundPanicked)
  | Some lane_priorities =>
      let '(q, started) := dispatch_first q (sort_by by_priority lane_priorities).*2 now in
      (q, if started then RoundStarted else RoundIdle)
  end.

(** *** Tasks *)

(** What [execute] under the lane's timeout came to: [None] is the expiry. *)
Definition execution_result (w : CommandWrapper) (r : option (Result Value)) : option (Result Value) :=
  match r, w_timeout w with
  | Some r, _ => Some r
  | None, Some d => Some (Err (Timeout_ d))
  | None, None => None
  end.

Definition is_timeout (e : LaneError) : bool := match e with Timeout_ _ => true | _ => false end.

(** The branches of the spawned task on a result, up to [mark_completed]. *)
Definition task_succeeds (q : CommandQueue) (o : nat) (l : Lane) (w : CommandWrapper) (v : Value) (now : DateTime)
    : CommandQueue :=
  let q := store q o (has_storage l) (RemoveCommand (w_id w)) in
  let q := emit q (event_with_map QUEUE_COMMAND_COMPLETED
             [("lane_id", VString (w_lane_id w)); ("command_id", VString (w_id w))] now) in
  deliver q (w_result_tx w) (Ok v).

Definition task_retries (q : CommandQueue) (o : nat) (w : CommandWrapper) (now : DateTime) : CommandQueue :=
  let attempt := w_attempt w in
  let delay := delay_for_attempt (w_retry_policy w) (attempt + 1) in
  let q := with_object q o retry_begins in
  let q := q <| timers ::= λ ts, ts ++ [mkTimer o (w <| w_attempt := attempt + 1 |>) delay] |> in
  emit q (event_with_map QUEUE_COMMAND_RETRY
    [("lane_id", VString (w_lane_id w)); ("command_id", VString (w_id w)); ("attempt", VNumber (attempt + 1))] now).

Definition dead_letter (w : CommandWrapper) (e : LaneError) (now : DateTime) : DeadLetter :=
  mkLetter (w_id w) (w_command_type w) (w_lane_id w) (error_to_string e) (w_attempt w + 1) now.

Definition task_fails (q : CommandQueue) (o : nat) (l : Lane) (w : CommandWrapper) (e : LaneError) (now : DateTime)
    : CommandQueue :=
  let q := store q o (has_storage l) (RemoveCommand (w_id w)) in
  let q :=
    match dlq q with
    | Some d =>
        emit (q <| dlq := Some (Dlq.push d (dead_letter w e now)) |>)
          (event_with_map QUEUE_COMMAND_DEAD_LETTERED
             [("lane_id", VString (w_lane_id w)); ("command_id", VString (w_id w));
              ("command_type", VString (w_command_type w))] now)
    | None => q
    end in
  let q := emit q (event_with_map (if is_timeout e then QUEUE_COMMAND_TIMEOUT else QUEUE_COMMAND_FAILED)
             [("lane_id", VString (w_lane_id w)); ("command_id", VString (w_id w));
              ("error", VString (error_to_string e))] now) in
  deliver q (w_result_tx w) (Err e).

Definition finish (q : CommandQueue) (k : nat) (r : option (Result Value)) (now : DateTime) : CommandQueue :=
  match tasks q !! k with
  | Some (Running o w) =>
      match objects q !! o, execution_result w r with
      | Some l, Some (Ok v) => task_succeeds (q <| tasks ::= <[k := Finished o w]> |>) o l w v now
      | Some l, Some (Err e) =>
          if should_retry (w_retry_policy w) (w_attempt w)
          then task_retries (q <| tasks ::= <[k := Retrying o]> |>) o w now
          else task_fails (q <| tasks ::= <[k := Finished o w]> |>) o l w e now
      | _, _ => q
      end
  | _ => q
  end.

(** [mark_completed] at the end of each branch. *)
Definition complete (q : CommandQueue) (k : nat) : CommandQueue :=
  match tasks q !! k with
  | Some (Finished o w) => with_object (q <| tasks ::= <[k := Released (w_permit w)]> |>) o mark_completed
  | Some (Retrying o) => with_object (q <| tasks ::= delete k |>) o mark_completed
  | _ => q
  end.

(** The end of the task drops the wrapper. *)
Definition release (q : CommandQueue) (k : nat) : CommandQueue :=
  match tasks q !! k with
  | Some (Released permit) => drop_permit (q <| tasks ::= delete k |>) permit
  | _ => q
  end.

(** A panic in [execute] unwinds the task: the wrapper is dropped with its
    permit and its channel, and [mark_completed] is not reached. *)
Definition task_panics (q : CommandQueue) (k : nat) : CommandQueue :=
  match tasks q !! k with
  | Some (Running o w) =>
      drop_permit (q <| tasks ::= delete k |> <| panicked ::= λ ps, ps ++ [(o, w_result_tx w)] |>) (w_permit w)
  | _ => q
  end.

(** The task of [retry_command] after its sleep. *)
Definition fire (q : CommandQueue) (j : nat) : CommandQueue :=
  match timers q !! j with
  | Some t => with_object (q <| timers ::= delete j |>) (t_object t) (λ l, retry_fires l (t_wrapper t))
  | None => q
  end.

(** *** Shutdown *)
Definition shutdown (q : CommandQueue) (now : DateTime) : CommandQueue :=
  if is_shutting_down q then q
  else emit (q <| is_shutting_down := true |>) (event_empty QUEUE_SHUTDOWN_STARTED now).

Definition object_is_idle (q : CommandQueue) (o : nat) : bool :=
  match objects q !! o with Some l => lane_is_idle l | None => true end.

(** [is_idle] asks in turn for the outstanding work, for the map of lanes and
    for each lane, and awaits a lock before each of the last: what it still has
    to ask, and what a region of it answers in the state it runs in. *)
Inductive IdleCheck : Type :=
| CheckOutstanding
| CheckMap
| CheckLane (o : nat) (left_ : list nat).

Inductive Asked : Type :=
| AskNext (c : IdleCheck)
| Answer (idle : bool).

Definition next_lane (os : list nat) : Asked :=
  match os with [] => Answer true | o :: os => AskNext (CheckLane o os) end.

Definition check_step (q : CommandQueue) (c : IdleCheck) : Asked :=
  match c with
  | CheckOutstanding => if outstanding q =? 0 then AskNext CheckMap else Answer false
  | CheckMap => next_lane (hash_values (lanes q))
  | CheckLane o os => if object_is_idle q o then next_lane os else Answer false
  end.

(** The answer when nothing happens between the regions. *)
Definition is_idle (q : CommandQueue) : bool :=
  (outstanding q =? 0) && forallb (object_is_idle q) (hash_values (lanes q)).

(** The end of a round of the scheduler loop when the check is not
    interrupted: a queue that is shutting down and idle ends the loop with an
    announcement.  [Manager] has the regions of the check. *)
Definition announce_shutdown (q : CommandQueue) (now : DateTime) : CommandQueue :=
  emit q (event_empty QUEUE_SHUTDOWN_COMPLETE now).

Definition scheduler_exit (q : CommandQueue) (now : DateTime) : CommandQueue * bool :=
  if is_shutting_down q && is_idle q then (announce_shutdown q now, true) else (q, false).

(** One round of the loop of [spawn_scheduler]; the second component tells
    whether the loop ends there. *)
Definition scheduler_round (q : CommandQueue) (now : Clock) : CommandQueue * bool :=
  let '(q, round) := schedule_next q now in
  match round with
  | RoundPanicked => (q, true)
  | _ => scheduler_exit q (utc now)
  end.

Definition queue_status (q : CommandQueue) : gmap LaneId LaneStatus :=
  omap (λ o, status <$> objects q !! o) (lanes q).

(** ** Executions *)

(** What the environment can make happen next. *)
Inductive Action : Type :=
| ActCreate (id : LaneId) (c : LaneConfig) (p : Priority) (storage : bool) (now : Instant)
| ActRegister (o : nat)
| ActAdmit (id : LaneId) (command_type : string)
| ActLocate (i : nat) (command_id : string) (now : DateTime)
| ActEnqueue (o : nat) (command_id command_type : string) (now : DateTime)
| ActPlace (i : nat) (now : DateTime)
| ActPressure (id : LaneId) (o : nat) (now : DateTime)
| ActDequeue (o : nat) (now : Clock)
| ActFinish (k : nat) (r : option (Result Value)) (now : DateTime)
| ActComplete (k : nat)
| ActRelease (k : nat)
| ActPanic (k : nat)
| ActFire (j : nat)
| ActShutdown (now : DateTime)
| ActExit (now : DateTime)        (* the scheduler's check has answered that the queue is idle *)
| ActDlqPop
| ActDlqClear.

Definition exec (q : CommandQueue) (a : Action) : CommandQueue :=
  match a with
  | ActCreate id c p storage now => create_lane q (lane_new id c p storage now)
  | ActRegister o => register_lane q o
  | ActAdmit id ct => (admit_work q id ct).1
  | ActLocate i cid now => (locate q i cid now).1
  | ActEnqueue o cid ct now => (enqueue q o cid ct now).1
  | ActPlace i now => place q i now
  | ActPressure id o now => pressure q id o now
  | ActDequeue o now => (dequeue q o now).1
  | ActFinish k r now => finish q k r now
  | ActComplete k => complete q k
  | ActRelease k => release q k
  | ActPanic k => task_panics q k
  | ActFire j => fire q j
  | ActShutdown now => shutdown q now
  | ActExit now => if is_shutting_down q then announce_shutdown q now else q
  | ActDlqPop => q <| dlq ::= fmap (λ d, (Dlq.pop d).1) |>
  | ActDlqClear => q <| dlq ::= fmap Dlq.clear |>
  end.

(** Policies come from configurations whose retry count is a [u32]. *)
Definition action_ok (a : Action) : Prop :=
  match a with
  | ActCreate _ c _ _ _ => 0 ≤ max_retries (retry_policy c) ≤ U32_MAX
  | _ => True
  end.

Inductive reachable (dlq_size : option nat) : CommandQueue → Prop :=
| reachable_new : reachable dlq_size (queue_new dlq_size)
| reachable_exec q a : reachable dlq_size q → action_ok a → reachable dlq_size (exec q a).
End queue.
