(* ===== verification/LaneInvariant.v ===== *)
(** * Accounting of the lane queue, and its preservation

    Where the commands, permits and slots of a queue are, as sums over its
    lists, and the invariant of its reachable states: every result channel
    handed out is in exactly one place, the outstanding counter equals the
    permits held, and the counters of a lane equal the tasks and timers that
    justify them.  Then one lemma per operation that keeps it. *)
From S2P Require Import Prelude External Retry DeadLetter RateLimit Boost LaneTypes LaneQueue Sums.
Local Open Scope nat_scope.

Section accounting.
Context {X : Ext}.

Definition is_tx (tx : nat) (w : CommandWrapper) : nat := ind (w_result_tx w =? tx).

(** How often a channel occurs among the commands still owned by the queue. *)
Definition owned (q : CommandQueue) (tx : nat) : nat :=
  total (λ s, match s with Placing _ w => is_tx tx w | HoldsPermit _ _ => 0 end) (submissions q)
  + total (λ l, total (is_tx tx) (pending l)) (objects q)
  + total (λ t, match t with Running _ w => is_tx tx w | _ => 0 end) (tasks q)
  + total (λ t, is_tx tx (t_wrapper t)) (timers q).

(** How often a result was sent on it, and how often it was lost to a panic. *)
Definition answers (q : CommandQueue) (tx : nat) : nat := total (λ d, ind (d.1 =? tx)) (delivered q).
Definition losses (q : CommandQueue) (tx : nat) : nat := total (λ p, ind (p.2 =? tx)) (panicked q).

(** The permits held by submissions, waiting commands, tasks and timers. *)
Definition permit_of (w : CommandWrapper) : nat := ind (w_permit w).
Definition permits (q : CommandQueue) : nat :=
  total (λ s, match s with Placing _ w => permit_of w | HoldsPermit _ _ => 1 end) (submissions q)
  + total (λ l, total permit_of (pending l)) (objects q)
  + total (λ t, match t with
                | Running _ w | Finished _ w => permit_of w
                | Retrying _ => 0
                | Released permit => ind permit
                end) (tasks q)
  + total (λ t, permit_of (t_wrapper t)) (timers q).

(** The execution slots of an object that live tasks hold, and those that
    panicked commands never gave back. *)
Definition held_slots (q : CommandQueue) (o : nat) : nat :=
  total (λ t, match t with
              | Running o' _ | Finished o' _ | Retrying o' => ind (o' =? o)
              | Released _ => 0
              end) (tasks q).
Definition lost_slots (q : CommandQueue) (o : nat) : nat := total (λ p, ind (p.1 =? o)) (panicked q).

(** The retry timers that will push a command back to an object. *)
Definition sleeping (q : CommandQueue) (o : nat) : nat := total (λ t, ind (t_object t =? o)) (timers q).

(** ** The invariant *)
Definition policy_ok (p : RetryPolicy) : Prop := (0 ≤ max_retries p ≤ U32_MAX)%Z.

Definition wrapper_ok (w : CommandWrapper) : Prop :=
  policy_ok (w_retry_policy w) ∧ (0 ≤ w_attempt w ≤ max_retries (w_retry_policy w))%Z.

Record lane_ok (q : CommandQueue) (o : nat) (l : Lane) : Prop := {
  lo_active : active l = held_slots q o + lost_slots q o;
  lo_bound : active l ≤ max_concurrency (config l);
  lo_delayed : delayed_retries l = sleeping q o;
  lo_policy : policy_ok (retry_policy (config l));
  lo_pending : Forall wrapper_ok (pending l);
}.

Definition submission_ok (n : nat) (s : Submission) : Prop :=
  match s with Placing o w => o < n ∧ wrapper_ok w | HoldsPermit _ _ => True end.
Definition task_ok (n : nat) (t : Task) : Prop :=
  match t with Running o w => o < n ∧ wrapper_ok w | Finished o _ | Retrying o => o < n | Released _ => True end.

Record wf (q : CommandQueue) : Prop := {
  wf_channels : ∀ tx, owned q tx + answers q tx + losses q tx = ind (tx <? next_tx q);
  wf_outstanding : outstanding q = Z.of_nat (permits q);
  wf_lanes : ∀ o l, objects q !! o = Some l → lane_ok q o l;
  wf_names : ∀ id o, lanes q !! id = Some o → ∃ l, objects q !! o = Some l ∧ lane_id l = id;
  wf_submissions : Forall (submission_ok (length (objects q))) (submissions q);
  wf_tasks : Forall (task_ok (length (objects q))) (tasks q);
  wf_timers : Forall (λ t, t_object t < length (objects q) ∧ wrapper_ok (t_wrapper t)) (timers q);
  wf_panicked : Forall (λ p, p.1 < length (objects q)) (panicked q);
}.

Lemma wf_new n : wf (queue_new n).
Proof. split; try done; by constructor. Qed.
End accounting.

(** * The invariant of the lane queue is preserved

    One lemma per operation, and the invariant of the reachable states. *)

Section preserve.
Context {X : Ext}.
Implicit Types (q : CommandQueue) (l : Lane) (w : CommandWrapper).

(** ** Simplification of updated states *)
Lemma with_object_some q o f l : objects q !! o = Some l →
  with_object q o f = q <| objects ::= <[o := f l]> |>.
Proof. intros H. unfold with_object. by rewrite H. Qed.

Lemma lookup_updated (ls : list Lane) o l0 l1 o' l' :
  ls !! o = Some l0 → <[o := l1]> ls !! o' = Some l' →
  (o' = o ∧ l' = l1) ∨ (o' ≠ o ∧ ls !! o' = Some l').
Proof.
  intros H0 H. destruct (decide (o' = o)) as [->|Hne].
  - left. rewrite list_lookup_insert_eq in H by (by eapply lookup_lt_Some). by simplify_eq.
  - right. by rewrite list_lookup_insert_ne in H by done.
Qed.

Lemma names_updated q o l0 l1 : wf q → objects q !! o = Some l0 → lane_id l1 = lane_id l0 →
  ∀ id o', lanes q !! id = Some o' → ∃ l, <[o := l1]> (objects q) !! o' = Some l ∧ lane_id l = id.
Proof.
  intros W H0 Hid id o' Ho'. destruct (wf_names q W id o' Ho') as (l & Hl & Hn).
  destruct (decide (o' = o)) as [->|Hne].
  - exists l1. rewrite list_lookup_insert_eq by (by eapply lookup_lt_Some). simplify_eq. by split.
  - exists l. by rewrite list_lookup_insert_ne.
Qed.

Lemma held_delete_released q k p o : tasks q !! k = Some (Released p) →
  held_slots (q <| tasks ::= delete k |>) o = held_slots q o.
Proof. intros H. unfold held_slots, upd. reduce. totals. reduce_all. lia. Qed.

(** The invariant looks only at the lists and at the counter of permits. *)
Lemma wf_frame q es d b cs : wf q → wf (mkQueue (lanes q) (objects q) es d b (outstanding q) (submissions q)
  (tasks q) (timers q) (delivered q) cs (next_tx q) (panicked q)).
Proof. intros [? ? Hl ? ? ? ? ?]. split; try done. intros o l Ho. by destruct (Hl o l Ho). Qed.

Lemma wf_emit q e : wf q → wf (emit q e).
Proof. apply (wf_frame q (emitted q ++ [e])). Qed.

Lemma wf_emit_inv q e : wf (emit q e) → wf q.
Proof. intros W. apply (wf_frame (emit q e) (emitted q) (dlq q) (is_shutting_down q) (storage_calls q)) in W. by destruct q. Qed.

Lemma wf_store q o b c : wf q → wf (store q o b c).
Proof.
  unfold store. destruct b; [|done].
  apply (wf_frame q (emitted q) (dlq q) (is_shutting_down q) (storage_calls q ++ [(o, c)])).
Qed.

(** ** Lanes *)
Lemma wf_register q o : wf q → wf (register_lane q o).
Proof.
  intros W. unfold register_lane. destruct (objects q !! o) as [l|] eqn:Ho; [|done].
  destruct W as [Hc Hout Hl Hn Hs Ht Htm Hp]. split; try done.
  - intros o' l' Hl'. by destruct (Hl o' l' Hl').
  - intros id o'. unfold upd. reduce. rewrite lookup_insert_Some. intros [[<- <-]|[_ H]]; [by exists l|by apply Hn].
Qed.

(** What refers to an object refers to an existing one. *)
Lemma no_slots_beyond q o : wf q → length (objects q) ≤ o →
  held_slots q o = 0 ∧ lost_slots q o = 0 ∧ sleeping q o = 0.
Proof.
  intros W Hle. split_and!; apply total_zero.
  - eapply Forall_impl; [apply (wf_tasks q W)|]. intros [o' w|o' w|o'|p]; simpl; try done.
    all: intros H; assert (o' < length (objects q)) by tauto; destruct (Nat.eqb_spec o' o); [lia|done].
  - eapply Forall_impl; [apply (wf_panicked q W)|]. simpl. intros [o' t] H. simpl in *.
    destruct (Nat.eqb_spec o' o); [lia|done].
  - eapply Forall_impl; [apply (wf_timers q W)|]. simpl. intros t [H _].
    destruct (Nat.eqb_spec (t_object t) o); [lia|done].
Qed.

Lemma task_ok_mono n m t : n ≤ m → task_ok n t → task_ok m t.
Proof. destruct t; simpl; intros; try done; intuition lia. Qed.
Lemma submission_ok_mono n m s : n ≤ m → submission_ok n s → submission_ok m s.
Proof. destruct s; simpl; intros; try done; intuition lia. Qed.

Lemma wf_create q id c p storage now : wf q → policy_ok (retry_policy c) →
  wf (create_lane q (lane_new id c p storage now)).
Proof.
  intros W Hpol. pose proof (no_slots_beyond q (length (objects q)) W (le_n _)) as (Hh & Hlo & Hsl).
  pose proof W as [Hc Hout Hl Hn Hs Ht Htm Hp]. unfold create_lane, upd. split; reduce.
  - intros tx. specialize (Hc tx). unfold owned, answers, losses in *. reduce. totals. reduce. lia.
  - rewrite Hout. f_equal. unfold permits. reduce. totals. reduce. lia.
  - intros o l. rewrite lookup_app_Some. intros [Ho|[Hle Ho]].
    + by destruct (Hl o l Ho).
    + destruct (o - length (objects q)) eqn:E; simplify_eq/=. assert (o = length (objects q)) as -> by lia.
      split; reduce; try done. all: unfold held_slots, lost_slots, sleeping in *; reduce; lia.
  - intros id' o' Ho'. destruct (Hn id' o' Ho') as (l & Hlo' & ?). exists l. split; [|done].
    by apply lookup_app_l_Some.
  - eapply Forall_impl; [exact Hs|]. intros s. apply submission_ok_mono. rewrite length_app. lia.
  - eapply Forall_impl; [exact Ht|]. intros t. apply task_ok_mono. rewrite length_app. lia.
  - eapply Forall_impl; [exact Htm|]. simpl. intros t []. rewrite length_app. split; [lia|done].
  - eapply Forall_impl; [exact Hp|]. simpl. intros t. rewrite length_app. lia.
Qed.

(** ** Submissions *)
Lemma wf_admit q id ct : wf q → wf (admit_work q id ct).1.
Proof.
  intros W. unfold admit_work. destruct (is_shutting_down q); [done|]. destruct W as [Hc Hout Hl Hn Hs Ht Htm Hp].
  unfold upd. split; reduce; try done.
  - intros tx. specialize (Hc tx). unfold owned, answers, losses in *. reduce. totals. reduce_all. lia.
  - rewrite Hout. unfold permits. reduce. totals. reduce_all. lia.
  - intros o l Ho. by destruct (Hl o l Ho).
  - apply Forall_app. split; [done|]. by constructor.
Qed.

Lemma new_wrapper_ok l id ct permit tx now : policy_ok (retry_policy (config l)) →
  wrapper_ok (new_wrapper l id ct permit tx now).
Proof. intros H. split; [done|]. simpl. unfold policy_ok in H. lia. Qed.

(** A new channel is below the bound. *)
Lemma is_tx_new tx l id ct permit n now :
  is_tx tx (new_wrapper l id ct permit n now) = if decide (tx = n) then 1 else 0.
Proof. unfold is_tx, ind. reduce. destruct (Nat.eqb_spec n tx), (decide _); subst; done. Qed.

Lemma permit_new l id ct permit n now : permit_of (new_wrapper l id ct permit n now) = if permit then 1 else 0.
Proof. done. Qed.

Lemma fresh_channel q tx : ind (tx <? S (next_tx q)) = ind (tx <? next_tx q) + (if decide (tx = next_tx q) then 1 else 0).
Proof. unfold ind. destruct (Nat.ltb_spec tx (S (next_tx q))), (Nat.ltb_spec tx (next_tx q)), (decide _); simpl; lia. Qed.

Lemma wf_locate q i cid now : wf q → wf (locate q i cid now).1.
Proof.
  intros W. unfold locate. destruct (submissions q !! i) as [[id ct|]|] eqn:Hi; [|done..].
  destruct (lanes q !! id) as [o|] eqn:Hid; simpl.
  - destruct (wf_names q W id o Hid) as (l & Ho & Hln). rewrite Ho. simpl.
    apply (wf_store _ o (has_storage l) (SaveCommand cid ct (lane_id l) now)) in W.
    destruct W as [Hc Hout Hl Hn Hs Ht Htm Hp].
    assert (policy_ok (retry_policy (config l))) as Hpol.
    { apply (Hl o l). unfold store. by destruct (has_storage l). }
    assert (o < length (objects q)) as Hlt by (by eapply lookup_lt_Some).
    unfold store, upd in *. destruct (has_storage l); reduce_all; split; reduce; try done.
    all: try (intros o' l' Ho'; by destruct (Hl o' l' Ho')).
    all: try (apply Forall_insert; [done|split; [done|by apply new_wrapper_ok]]).
    all: try (intros tx; specialize (Hc tx); unfold owned, answers, losses in *; reduce_all; totals;
      reduce_all; rewrite ?is_tx_new in *; rewrite fresh_channel; destruct (decide _); lia).
    all: rewrite Hout; f_equal; unfold permits; reduce; totals; reduce_all; rewrite ?permit_new in *; lia.
  - destruct W as [Hc Hout Hl Hn Hs Ht Htm Hp]. unfold drop_permit, upd. split; reduce; try done.
    + intros tx. specialize (Hc tx). unfold owned, answers, losses in *. reduce_all. totals. reduce_all. lia.
    + rewrite Hout. unfold permits. reduce. totals. reduce_all. lia.
    + intros o' l' Ho'. by destruct (Hl o' l' Ho').
    + by apply Forall_delete.
Qed.
Lemma wf_enqueue q o cid ct now : wf q → wf (enqueue q o cid ct now).1.
Proof.
  intros W. unfold enqueue. destruct (objects q !! o) as [l|] eqn:Ho; [|done]. simpl.
  assert (o < length (objects q)) as Hlt by (by eapply lookup_lt_Some).
  assert (policy_ok (retry_policy (config l))) as Hpol by apply (wf_lanes q W o l Ho).
  apply (wf_store _ o (has_storage l) (SaveCommand cid ct (lane_id l) now)) in W.
  destruct W as [Hc Hout Hl Hn Hs Ht Htm Hp].
  unfold store, upd in *. destruct (has_storage l); reduce_all; split; reduce; try done.
  all: try (intros o' l' Ho'; by destruct (Hl o' l' Ho')).
  all: try (apply Forall_app; split; [done|]; constructor; [|done]; split; [done|by apply new_wrapper_ok]).
  all: try (intros tx; specialize (Hc tx); unfold owned, answers, losses in *; reduce_all; totals;
    reduce_all; rewrite ?is_tx_new in *; rewrite fresh_channel; destruct (decide _); lia).
  all: rewrite Hout; f_equal; unfold permits; reduce; totals; reduce_all; rewrite ?permit_new in *; lia.
Qed.

(** ** Updates of one lane *)
Lemma ind_same n : ind (n =? n) = 1.
Proof. by rewrite Nat.eqb_refl. Qed.
Lemma ind_other n m : m ≠ n → ind (n =? m) = 0.
Proof. intros H. by destruct (Nat.eqb_spec n m). Qed.

(** The conditions on lanes after object [o] became [l1]: the new one is
    checked, for the others nothing that concerns them changed. *)
Lemma lanes_updated q q' o l0 l1 :
  objects q !! o = Some l0 →
  (∀ o', o' ≠ o → held_slots q' o' = held_slots q o' ∧ lost_slots q' o' = lost_slots q o' ∧
                  sleeping q' o' = sleeping q o') →
  (∀ o l, objects q !! o = Some l → lane_ok q o l) → lane_ok q' o l1 →
  ∀ o' l, <[o := l1]> (objects q) !! o' = Some l → lane_ok q' o' l.
Proof.
  intros H0 Hsame Hl H1 o' l' Ho'.
  destruct (lookup_updated _ _ _ _ _ _ H0 Ho') as [[-> ->]|[Hne Hl']]; [done|].
  destruct (Hsame o' Hne) as (E1 & E2 & E3), (Hl o' l' Hl'). split; congruence.
Qed.

Lemma wf_place q i now : wf q → wf (place q i now).
Proof.
  intros W. unfold place. destruct (submissions q !! i) as [[|o w]|] eqn:Hi; [done| |done].
  enough (wf (with_object (q <| submissions ::= delete i |>) o (λ l, push_pending l w))) as W'.
  { destruct (w_permit w); [by apply wf_emit|done]. }
  pose proof (Forall_lookup_1 _ _ _ _ (wf_submissions q W) Hi) as [Hlt Hw].
  apply lookup_lt_is_Some in Hlt as [l Ho]. rewrite (with_object_some _ o _ l) by done.
  pose proof (names_updated q o l (push_pending l w) W Ho) as Hn'. specialize (Hn' eq_refl).
  destruct W as [Hc Hout Hl Hn Hs Ht Htm Hp]. unfold upd in *; reduce_all; split; reduce; rewrite ?length_insert; try done; try exact Hn'.
  - intros tx. specialize (Hc tx). unfold owned, answers, losses in *. reduce_all. totals. reduce_all.
    unfold push_pending, upd in *. reduce_all. rewrite total_snoc in *. lia.
  - rewrite Hout. f_equal. unfold permits. reduce. totals. reduce_all.
    unfold push_pending, upd in *. reduce_all. rewrite total_snoc in *. lia.
  - eapply (lanes_updated q _ o l (push_pending l w)); [done..|].
    destruct (Hl o l Ho). split; try done. apply Forall_app. split; [done|by constructor].
  - by apply Forall_delete.
Qed.

Lemma wf_pressure q id o now : wf q → wf (pressure q id o now).
Proof.
  intros W. unfold pressure. destruct (objects q !! o) as [l|] eqn:Ho; [|done].
  assert (∀ b, wf (q <| objects ::= <[o := l <| is_pressured := b |>]> |>)) as W'.
  { intros b. pose proof (names_updated q o l (l <| is_pressured := b |>) W Ho) as Hn'. specialize (Hn' eq_refl).
    destruct W as [Hc Hout Hl Hn Hs Ht Htm Hp]. unfold upd in *; reduce_all; split; reduce; rewrite ?length_insert; try done; try exact Hn'.
    - intros tx. specialize (Hc tx). unfold owned, answers, losses in *. reduce_all. totals. reduce_all. lia.
    - rewrite Hout. f_equal. unfold permits. reduce. totals. reduce_all. lia.
    - eapply (lanes_updated q _ o l); [done|done|done|]. by destruct (Hl o l Ho). }
  assert (l = l <| is_pressured := is_pressured l |>) as Hsame by (by destruct l).
  unfold check_pressure.
  destruct (pressure_threshold (config l)); [|rewrite Hsame; apply W'].
  destruct (_ && _); [apply wf_emit, W'|]. destruct (_ && _); [apply wf_emit, W'|]. rewrite Hsame at 1. apply W'.
Qed.

Lemma wf_limiter q o l r : wf q → objects q !! o = Some l →
  wf (q <| objects ::= <[o := l <| rate_limiter := r |>]> |>).
Proof.
  intros W Ho. pose proof (names_updated q o l (l <| rate_limiter := r |>) W Ho) as Hn'. specialize (Hn' eq_refl).
  destruct W as [Hc Hout Hl Hn Hs Ht Htm Hp]. unfold upd in *; reduce_all; split; reduce; rewrite ?length_insert; try done; try exact Hn'.
  - intros tx. specialize (Hc tx). unfold owned, answers, losses in *. reduce_all. totals. reduce_all. lia.
  - rewrite Hout. f_equal. unfold permits. reduce. totals. reduce_all. lia.
  - eapply (lanes_updated q _ o l); [done|done|done|]. by destruct (Hl o l Ho).
Qed.

(** The start of the front command of a lane with a free slot. *)
Lemma wf_start q o l w ws : wf q → objects q !! o = Some l → pending l = w :: ws → has_capacity l = true →
  wf (q <| objects ::= <[o := l <| active ::= S |> <| pending := ws |>]> |> <| tasks ::= λ ts, ts ++ [Running o w] |>).
Proof.
  intros W Ho Hp Hcap. pose proof (names_updated q o l (l <| active ::= S |> <| pending := ws |>) W Ho) as Hn'. specialize (Hn' eq_refl).
  apply Nat.ltb_lt in Hcap.
  assert (o < length (objects q)) as Hlt by (by eapply lookup_lt_Some).
  destruct W as [Hc Hout Hl Hn Hs Ht Htm Hpk].
  destruct (Hl o l Ho) as [Ha Hb Hd Hpol Hpend]. rewrite Hp in Hpend. apply Forall_cons in Hpend as [Hw Hws].
  unfold upd in *; reduce_all; split; reduce; rewrite ?length_insert; try done; try exact Hn'.
  - intros tx. specialize (Hc tx). unfold owned, answers, losses in *. reduce_all. totals. reduce_all.
    rewrite Hp in *. reduce_all. lia.
  - rewrite Hout. f_equal. unfold permits. reduce. totals. reduce_all. rewrite Hp in *. reduce_all. lia.
  - eapply (lanes_updated q _ o l); [done| |done|].
    + intros o' Hne. unfold held_slots. reduce. totals. reduce. rewrite (ind_other o o') by done.
      split_and!; [lia|done|done].
    + split; reduce; try done. unfold held_slots, lost_slots in *. reduce. totals. rewrite ind_same. lia.
  - apply Forall_app. split; [done|]. by apply Forall_singleton.
Qed.

Lemma wf_dequeue q o now : wf q → wf (dequeue q o now).1.
Proof.
  intros W. unfold dequeue. destruct (objects q !! o) as [l|] eqn:Ho; [|done].
  unfold try_dequeue. destruct (try_acquire _ _) as [r ok].
  pose proof (wf_limiter q o l r W Ho) as W'. destruct ok; simpl; [|done].
  change (has_capacity (l <| rate_limiter := r |>)) with (has_capacity l).
  change (has_pending (l <| rate_limiter := r |>)) with (has_pending l).
  destruct (has_capacity l) eqn:Hcap, (has_pending l) eqn:Hpe; simpl; try done.
  unfold has_pending in Hpe. destruct (pending l) as [|w ws] eqn:Hp; [done|]. simpl.
  apply wf_emit. set (l1 := l <| rate_limiter := r |>) in *.
  assert ((q <| objects ::= <[o := l1]> |>).(objects) !! o = Some l1) as Ho1.
  { unfold upd. reduce. by rewrite list_lookup_insert_eq by (by eapply lookup_lt_Some). }
  pose proof (wf_start _ o l1 w ws W' Ho1 Hp Hcap) as W2.
  unfold upd in *. reduce_all. by rewrite list_insert_insert_eq in W2.
Qed.

(** ** Tasks *)
Lemma task_running_ok q k o w : wf q → tasks q !! k = Some (Running o w) → o < length (objects q) ∧ wrapper_ok w.
Proof. intros W Hk. apply (Forall_lookup_1 _ _ _ _ (wf_tasks q W) Hk). Qed.

(** A result is sent: the command leaves the queue, its slot and permit stay with the task. *)
Lemma wf_deliver q k o w r : wf q → tasks q !! k = Some (Running o w) →
  wf (deliver (q <| tasks ::= <[k := Finished o w]> |>) (w_result_tx w) r).
Proof.
  intros W Hk. destruct (task_running_ok q k o w W Hk) as [Hlt Hw].
  destruct W as [Hc Hout Hl Hn Hs Ht Htm Hp]. unfold deliver, upd. split; reduce; try done.
  - intros tx. specialize (Hc tx). unfold owned, answers, losses in *. reduce_all. totals. reduce_all.
    unfold is_tx in *. lia.
  - rewrite Hout. f_equal. unfold permits. reduce. totals. reduce_all. lia.
  - intros o' l' Ho'. destruct (Hl o' l' Ho') as [Ha Hb Hd Hpol Hpe]. split; reduce; try done.
    unfold held_slots, lost_slots in *. reduce. totals. reduce_all. lia.
  - by apply Forall_insert.
Qed.

Lemma wf_task_succeeds q k o l w v now : wf q → tasks q !! k = Some (Running o w) →
  wf (task_succeeds (q <| tasks ::= <[k := Finished o w]> |>) o l w v now).
Proof.
  intros W Hk. pose proof (wf_deliver q k o w (Ok v) W Hk) as W'.
  unfold task_succeeds, store. destruct (has_storage l); exact (wf_frame _ _ _ _ _ W').
Qed.

Lemma wf_task_fails q k o l w e now : wf q → tasks q !! k = Some (Running o w) →
  wf (task_fails (q <| tasks ::= <[k := Finished o w]> |>) o l w e now).
Proof.
  intros W Hk. pose proof (wf_deliver q k o w (Err e) W Hk) as W'.
  unfold task_fails, store. destruct (has_storage l); reduce; destruct (dlq q); exact (wf_frame _ _ _ _ _ W').
Qed.

Lemma wf_task_retries q k o w now : wf q → tasks q !! k = Some (Running o w) →
  should_retry (w_retry_policy w) (w_attempt w) = true →
  wf (task_retries (q <| tasks ::= <[k := Retrying o]> |>) o w now).
Proof.
  intros W Hk Hr. destruct (task_running_ok q k o w W Hk) as [Hlt Hw].
  apply lookup_lt_is_Some in Hlt as [l Ho]. apply wf_emit.
  rewrite (with_object_some _ o _ l) by done.
  pose proof (names_updated q o l (retry_begins l) W Ho) as Hn'. specialize (Hn' eq_refl).
  destruct W as [Hc Hout Hl Hn Hs Ht Htm Hp]. unfold upd in *. split; reduce; rewrite ?length_insert; try done.
  - intros tx. specialize (Hc tx). unfold owned, answers, losses in *. reduce_all. totals. reduce_all.
    unfold retry_begins, upd, is_tx in *. reduce_all. lia.
  - rewrite Hout. f_equal. unfold permits. reduce. totals. reduce_all.
    unfold retry_begins, upd, permit_of in *. reduce_all. lia.
  - eapply (lanes_updated q _ o l); [done| |done|].
    + intros o' Hne. unfold held_slots, lost_slots, sleeping. reduce. totals. reduce_all.
      rewrite (ind_other o o') in * by done. split_and!; [lia|done|lia].
    + destruct (Hl o l Ho) as [Ha Hb Hd Hpol Hpe]. unfold retry_begins, upd.
      split; reduce; try done; unfold held_slots, lost_slots, sleeping in *; reduce; totals; reduce_all;
        rewrite ?ind_same in *; lia.
  - apply Forall_insert; [done|]. simpl. by eapply lookup_lt_Some.
  - apply Forall_app. split; [done|]. apply Forall_singleton. reduce. split; [by eapply lookup_lt_Some|].
    destruct Hw as [Hpol Hat]. unfold should_retry in Hr. apply Z.ltb_lt in Hr. split; reduce; [done|lia].
Qed.

Lemma wf_finish q k r now : wf q → wf (finish q k r now).
Proof.
  intros W. unfold finish. destruct (tasks q !! k) as [[o w|?|?|?]|] eqn:Hk; try done.
  destruct (objects q !! o) as [l|] eqn:Ho; [|done]. destruct (execution_result w r) as [[v|e]|]; [|..|done].
  - by apply wf_task_succeeds.
  - destruct (should_retry _ _) eqn:Hr; [by apply wf_task_retries|by apply wf_task_fails].
Qed.

Lemma wf_mark_completed q k t' o l : wf q → objects q !! o = Some l →
  (tasks q !! k = Some (Retrying o) ∧ t' = None) ∨
  (∃ w, tasks q !! k = Some (Finished o w) ∧ t' = Some (Released (w_permit w))) →
  wf (q <| tasks ::= λ ts, match t' with Some t => <[k := t]> ts | None => delete k ts end |>
        <| objects ::= <[o := mark_completed l]> |>).
Proof.
  intros W Ho Hk. pose proof (names_updated q o l (mark_completed l) W Ho) as Hn'. specialize (Hn' eq_refl).
  destruct W as [Hc Hout Hl Hn Hs Ht Htm Hp]. destruct (Hl o l Ho) as [Ha Hb Hd Hpol Hpe].
  destruct Hk as [[Hk ->]|(w & Hk & ->)]; unfold mark_completed, upd in *; split; reduce; rewrite ?length_insert;
    try done; try (by apply Forall_delete); try (by apply Forall_insert).
  all: try (intros tx; specialize (Hc tx); unfold owned, answers, losses in *; reduce_all; totals; reduce_all; lia).
  all: try (rewrite Hout; f_equal; unfold permits; reduce; totals; unfold permit_of in *; reduce_all; lia).
  all: eapply (lanes_updated q _ o l); [done| |done|].
  all: try (intros o' Hne; unfold held_slots, lost_slots, sleeping; reduce; totals; reduce_all;
      rewrite (ind_other o o') in * by done; split_and!; [lia|done|done]).
  all: split; reduce; try done; [|lia].
  all: unfold held_slots, lost_slots, sleeping in *; reduce; totals; reduce_all; rewrite ind_same in *; lia.
Qed.

Lemma wf_complete q k : wf q → wf (complete q k).
Proof.
  intros W. unfold complete. destruct (tasks q !! k) as [[?|o w|o|?]|] eqn:Hk; try done.
  all: pose proof (Forall_lookup_1 _ _ _ _ (wf_tasks q W) Hk) as Hlt; simpl in Hlt.
  all: apply lookup_lt_is_Some in Hlt as [l Ho]; rewrite (with_object_some _ o _ l) by done.
  - apply (wf_mark_completed q k (Some (Released (w_permit w))) o l W Ho). right. eauto.
  - apply (wf_mark_completed q k None o l W Ho). by left.
Qed.

Lemma wf_release q k : wf q → wf (release q k).
Proof.
  intros W. unfold release. destruct (tasks q !! k) as [[?|?|?|permit]|] eqn:Hk; try done.
  destruct W as [Hc Hout Hl Hn Hs Ht Htm Hp].
  unfold drop_permit, upd. destruct permit; split; reduce; try done; try (by apply Forall_delete).
  all: try (intros tx; specialize (Hc tx); unfold owned, answers, losses in *; reduce_all; totals; reduce_all; lia).
  all: try (rewrite Hout; unfold permits; reduce; totals; reduce_all; unfold ind in *; lia).
  all: intros o' l' Ho'; destruct (Hl o' l' Ho') as [Ha Hb Hd Hpol Hpe]; split; reduce; try done;
    unfold held_slots, lost_slots in *; reduce; totals; reduce_all; lia.
Qed.

Lemma wf_panics q k : wf q → wf (task_panics q k).
Proof.
  intros W. unfold task_panics. destruct (tasks q !! k) as [[o w|?|?|?]|] eqn:Hk; try done.
  destruct (task_running_ok q k o w W Hk) as [Hlt Hw].
  destruct W as [Hc Hout Hl Hn Hs Ht Htm Hp].
  unfold drop_permit, upd. destruct (w_permit w) eqn:Hpw; split; reduce; try done; try (by apply Forall_delete);
    try (by apply Forall_app; split; [|apply Forall_singleton]).
  all: try (intros tx; specialize (Hc tx); unfold owned, answers, losses in *; reduce_all; totals; reduce_all;
      unfold is_tx in *; lia).
  all: try (rewrite Hout; unfold permits; reduce; totals; unfold permit_of in *; reduce_all;
      rewrite Hpw in *; unfold ind in *; lia).
  all: intros o' l' Ho'; destruct (Hl o' l' Ho') as [Ha Hb Hd Hpol Hpe]; split; reduce; try done;
    unfold held_slots, lost_slots in *; reduce; totals; reduce_all; lia.
Qed.

Lemma wf_fire q j : wf q → wf (fire q j).
Proof.
  intros W. unfold fire. destruct (timers q !! j) as [t|] eqn:Hj; [|done].
  pose proof (Forall_lookup_1 _ _ _ _ (wf_timers q W) Hj) as [Hlt Hw].
  apply lookup_lt_is_Some in Hlt as [l Ho]. rewrite (with_object_some _ (t_object t) _ l) by done.
  pose proof (names_updated q (t_object t) l (retry_fires l (t_wrapper t)) W Ho) as Hn'. specialize (Hn' eq_refl).
  destruct W as [Hc Hout Hl Hn Hs Ht Htm Hp]. destruct (Hl _ l Ho) as [Ha Hb Hd Hpol Hpe].
  unfold upd in *. split; reduce; rewrite ?length_insert; try done.
  - intros tx. specialize (Hc tx). unfold owned, answers, losses in *. reduce_all. totals.
    unfold retry_fires, push_pending, upd in *. reduce_all. rewrite total_snoc in *. lia.
  - rewrite Hout. f_equal. unfold permits. reduce. totals.
    unfold retry_fires, push_pending, upd in *. reduce_all. rewrite total_snoc in *. lia.
  - eapply (lanes_updated q _ (t_object t) l); [done| |done|].
    + intros o' Hne. unfold held_slots, lost_slots, sleeping. reduce. totals. reduce_all.
      rewrite (ind_other (t_object t) o') in * by done. split_and!; [done|done|lia].
    + unfold retry_fires, push_pending, upd. split; reduce; try done.
      * unfold sleeping in *. reduce. totals. reduce_all. rewrite ind_same in *. lia.
      * apply Forall_app. split; [done|by apply Forall_singleton].
  - by apply Forall_delete.
Qed.

(** ** Reachable states *)
Lemma wf_action q a : wf q → action_ok a → wf (exec q a).
Proof.
  intros W Ha. destruct a; simpl in *; auto using wf_create, wf_register, wf_admit, wf_locate, wf_enqueue, wf_place,
    wf_pressure, wf_dequeue, wf_finish, wf_complete, wf_release, wf_panics, wf_fire.
  - unfold shutdown. destruct (is_shutting_down q) eqn:E; [done|].
    exact (wf_frame q _ _ _ _ W).
  - destruct (is_shutting_down q); [by apply wf_emit|done].
  - exact (wf_frame q _ _ _ _ W).
  - exact (wf_frame q _ _ _ _ W).
Qed.

Lemma wf_reachable n q : reachable n q → wf q.
Proof. induction 1; [apply wf_new|by apply wf_action]. Qed.
End preserve.
