(* ===== verification/LaneRules.v ===== *)
(** * Properties of the lane queue

    What the reachable states guarantee: bounded concurrency, one place for
    every command, shutdown that drains; and what the operations do: the
    outcome of an attempt, the choice of the scheduler, pressure events. *)
From S2P Require Import Prelude Ordering External Retry DeadLetter RateLimit Boost LaneTypes LaneQueue LaneInvariant Sums.
Local Open Scope nat_scope.

Section rules.
Context {X : Ext}.
Implicit Types (q : CommandQueue) (l : Lane) (w : CommandWrapper).

Definition run q (acts : list Action) : CommandQueue := foldl exec q acts.

Lemma queue_reachable_run n q acts : reachable n q → Forall action_ok acts → reachable n (run q acts).
Proof.
  intros H Ha. revert q H. induction Ha as [|a acts Ha _ IH]; intros q H; [done|]. apply IH. by constructor.
Qed.

(** The commands an object executes right now. *)
Definition running_on q (o : nat) : nat :=
  total (λ t, match t with Running o' _ => ind (o' =? o) | _ => 0 end) (tasks q).

Lemma running_held q o : running_on q o ≤ held_slots q o.
Proof.
  unfold running_on, held_slots. induction (tasks q) as [|[?|?|?|?] ts IH]; simpl; unfold ind in *; lia.
Qed.

(** C12: a lane never executes more commands at a time than its
    [max_concurrency], whatever the interleaving of submissions, scheduler
    rounds, completions, retries and panics, and whatever other tasks it has:
    its active counter is exactly the number of slots held by live tasks and
    lost to panicked commands. *)
Theorem lane_concurrency_bound n q o l : reachable n q → objects q !! o = Some l →
  running_on q o ≤ active l ≤ max_concurrency (config l) ∧ active l = held_slots q o + lost_slots q o.
Proof.
  intros H Ho. destruct (wf_lanes q (wf_reachable n q H) o l Ho) as [Ha Hb _ _ _].
  pose proof (running_held q o). lia.
Qed.

(** C11: no command is lost or answered twice: each result channel handed out
    belongs to exactly one command that the queue still owns (being submitted,
    pending, executing or waiting for a retry), or exactly one result was sent
    on it, or the command panicked; and nothing ever happens on a channel that
    was not handed out. *)
Theorem exactly_once n q tx : reachable n q →
  (tx < next_tx q → owned q tx + answers q tx + losses q tx = 1) ∧
  (next_tx q ≤ tx → owned q tx = 0 ∧ answers q tx = 0 ∧ losses q tx = 0).
Proof.
  intros H. pose proof (wf_channels q (wf_reachable n q H) tx) as Hc. unfold ind in Hc.
  destruct (Nat.ltb_spec tx (next_tx q)); lia.
Qed.

(** A command the queue owns. *)
Definition in_flight q w : Prop :=
  (∃ o, Placing o w ∈ submissions q) ∨ (∃ l, l ∈ objects q ∧ w ∈ pending l) ∨
  (∃ o, Running o w ∈ tasks q) ∨ (∃ t, t ∈ timers q ∧ t_wrapper t = w).

Lemma owned_in_flight q tx : owned q tx ≠ 0 → ∃ w, in_flight q w ∧ w_result_tx w = tx.
Proof.
  assert (∀ w, is_tx tx w ≠ 0 → w_result_tx w = tx) as Htx.
  { intros w. unfold is_tx, ind. by destruct (Nat.eqb_spec (w_result_tx w) tx). }
  unfold owned. intros H.
  destruct (decide (total (λ s, match s with Placing _ w => is_tx tx w | HoldsPermit _ _ => 0 end) (submissions q) = 0)) as [E1|E1].
  2:{ apply total_witness in E1 as ([|o w] & Hin & Hne); [done|]. exists w. split; [left; eauto|by apply Htx]. }
  destruct (decide (total (λ l, total (is_tx tx) (pending l)) (objects q) = 0)) as [E2|E2].
  2:{ apply total_witness in E2 as (l & Hin & Hne). apply total_witness in Hne as (w & Hw & Hne).
      exists w. split; [right; left; eauto|by apply Htx]. }
  destruct (decide (total (λ t, match t with Running _ w => is_tx tx w | _ => 0 end) (tasks q) = 0)) as [E3|E3].
  2:{ apply total_witness in E3 as ([o w| | |] & Hin & Hne); try done.
      exists w. split; [right; right; left; eauto|by apply Htx]. }
  destruct (decide (total (λ t, is_tx tx (t_wrapper t)) (timers q) = 0)) as [E4|E4]; [lia|].
  apply total_witness in E4 as (t & Hin & Hne). exists (t_wrapper t). split; [right; right; right; eauto|by apply Htx].
Qed.

Lemma in_flight_permit q w : in_flight q w → permit_of w ≤ permits q.
Proof.
  unfold permits. intros [[o H]|[(l & Hl & Hw)|[[o H]|(t & Ht & <-)]]].
  - pose proof (total_elem (λ s, match s with Placing _ w => permit_of w | HoldsPermit _ _ => 1 end) _ _ H). simpl in *. lia.
  - pose proof (total_elem (λ l, total permit_of (pending l)) _ _ Hl). pose proof (total_elem permit_of _ _ Hw).
    simpl in *. lia.
  - pose proof (total_elem (λ t, match t with
                | Running _ w | Finished _ w => permit_of w
                | Retrying _ => 0
                | Released permit => ind permit
                end) _ _ H). simpl in *. lia.
  - pose proof (total_elem (λ t, permit_of (t_wrapper t)) _ _ Ht). simpl in *. lia.
Qed.

Lemma idle_lane q id o : ∀ `{!ExtLaws X}, is_idle q = true → lanes q !! id = Some o →
  outstanding q = 0%Z ∧ object_is_idle q o = true.
Proof.
  intros HX Hi Hid. unfold is_idle in Hi. apply andb_true_iff in Hi as [Hz Hall]. apply Z.eqb_eq in Hz.
  split; [done|]. rewrite forallb_forall in Hall. apply Hall, list_elem_of_In, elem_of_hash_values. eauto.
Qed.

(** Once nothing is outstanding, nothing that was submitted is under way:
    every channel was answered or lost, unless its command was put on a lane
    object directly (without a permit). *)
Lemma nothing_outstanding `{!ExtLaws X} n q : reachable n q → outstanding q = 0%Z →
  (∀ id ct, HoldsPermit id ct ∉ submissions q) ∧
  (∀ w, in_flight q w → w_permit w = false) ∧
  (∀ tx, tx < next_tx q → answers q tx + losses q tx = 1 ∨ ∃ w, in_flight q w ∧ w_result_tx w = tx ∧ w_permit w = false).
Proof.
  intros H Hz. pose proof (wf_reachable n q H) as W.
  assert (permits q = 0) as Hp by (pose proof (wf_outstanding q W); lia).
  assert (∀ w, in_flight q w → w_permit w = false) as Hf.
  { intros w Hw. pose proof (in_flight_permit q w Hw). unfold permit_of, ind in *. destruct (w_permit w); [lia|done]. }
  split_and!; [|done|].
  - intros id ct Hin. unfold permits in Hp.
    pose proof (total_elem (λ s, match s with Placing _ w => permit_of w | HoldsPermit _ _ => 1 end) _ _ Hin).
    simpl in *. lia.
  - intros tx Htx. pose proof (wf_channels q W tx) as Hc. unfold ind in Hc.
    destruct (Nat.ltb_spec tx (next_tx q)); [|lia]. destruct (decide (owned q tx = 0)); [left; lia|].
    right. destruct (owned_in_flight q tx) as (w & ? & ?); [done|]. exists w. auto.
Qed.

(** The regions of [is_idle] run one after the other, up to [n] of them. *)
Fixpoint ask (n : nat) (q : CommandQueue) (a : Asked) : Asked :=
  match n, a with S n, AskNext c => ask n q (check_step q c) | _, _ => a end.

Lemma ask_lanes q os n : length os ≤ n → ask n q (next_lane os) = Answer (forallb (object_is_idle q) os).
Proof.
  revert n. induction os as [|o os IH]; intros [|n] Hn; simpl in *; try done; [lia|].
  destruct (object_is_idle q o); [|by destruct n]. apply IH. lia.
Qed.

(** When nothing happens in between, the check answers [is_idle]. *)
Lemma check_alone q n : length (hash_values (lanes q)) + 2 ≤ n → ask n q (AskNext CheckOutstanding) = Answer (is_idle q).
Proof.
  destruct n as [|[|n]]; intros Hn; [lia..|]. cbn [ask check_step]. unfold is_idle.
  destruct (outstanding q =? 0)%Z; [|done]. cbn [ask check_step]. apply ask_lanes. lia.
Qed.

(** An idle queue has nothing left to do: when [is_idle] answers yes, no
    submission is under way, every registered lane has no pending command, no
    task and no retry timer, and every channel was answered or lost, unless
    its command was put on a lane object directly (without a permit). *)
Theorem idle_means_done `{!ExtLaws X} n q : reachable n q → is_idle q = true →
  (∀ id ct, HoldsPermit id ct ∉ submissions q) ∧
  (∀ id o l, lanes q !! id = Some o → objects q !! o = Some l →
     pending l = [] ∧ held_slots q o = 0 ∧ sleeping q o = 0) ∧
  (∀ w, in_flight q w → w_permit w = false) ∧
  (∀ tx, tx < next_tx q → answers q tx + losses q tx = 1 ∨ ∃ w, in_flight q w ∧ w_result_tx w = tx).
Proof.
  intros H Hi. pose proof (wf_reachable n q H) as W.
  assert (outstanding q = 0%Z) as Hz by (unfold is_idle in Hi; by apply andb_true_iff in Hi as [Hz%Z.eqb_eq _]).
  destruct (nothing_outstanding n q H Hz) as (Hsub & Hf & Hch). split_and!; [done| |done|].
  - intros id o l Hid Ho. destruct (idle_lane q id o Hi Hid) as [_ Hl]. unfold object_is_idle in Hl. rewrite Ho in Hl.
    unfold lane_is_idle, has_pending in Hl. destruct (wf_lanes q W o l Ho) as [Ha _ Hd _ _].
    destruct (pending l); [|done]. simpl in Hl. apply andb_true_iff in Hl as [H1%Nat.eqb_eq H2%Nat.eqb_eq].
    split_and!; [done|lia|lia].
  - intros tx Htx. destruct (Hch tx Htx) as [?|(w & ? & ? & _)]; eauto.
Qed.

(** ** Shutdown *)

(** Admission needs the flag down; nothing lowers the flag again. *)
Lemma exec_keeps_shutdown q a : is_shutting_down q = true →
  is_shutting_down (exec q a) = true ∧ (outstanding (exec q a) ≤ outstanding q)%Z.
Proof.
  intros Hs. assert (∀ q1 : CommandQueue, is_shutting_down q1 = true ∧ (outstanding q1 ≤ outstanding q)%Z →
    ∀ o f, is_shutting_down (with_object q1 o f) = true ∧ (outstanding (with_object q1 o f) ≤ outstanding q)%Z) as Hw.
  { intros q1 H o f. unfold with_object. by destruct (objects q1 !! o). }
  destruct a; simpl; try done.
  - unfold register_lane. by destruct (objects q !! o).
  - unfold admit_work. by rewrite Hs.
  - unfold locate. destruct (submissions q !! i) as [[id ct|]|]; try done.
    destruct (lanes q !! id ≫= _) as [[o l]|]; simpl; [|split; [done|lia]].
    unfold store. by destruct (has_storage l).
  - unfold enqueue. destruct (objects q !! o) as [l|]; [|done]. simpl. unfold store. by destruct (has_storage l).
  - unfold place. destruct (submissions q !! i) as [[|o w]|]; try done.
    pose proof (Hw (q <| submissions ::= delete i |>) ltac:(by split) o (λ l, push_pending l w)).
    by destruct (w_permit w).
  - unfold pressure. destruct (objects q !! o) as [l|]; [|done]. destruct (check_pressure l) as [l' [k|]]; by simpl.
  - unfold dequeue. destruct (objects q !! o) as [l|]; [|done]. by destruct (try_dequeue l _) as [l' [w|]].
  - unfold finish. destruct (tasks q !! k) as [[o w|?|?|?]|]; try done.
    destruct (objects q !! o) as [l|]; [|done]. destruct (execution_result w r) as [[v|e]|]; [..|done].
    + unfold task_succeeds, store. by destruct (has_storage l).
    + destruct (should_retry _ _).
      * unfold task_retries. pose proof (Hw (q <| tasks ::= <[k := Retrying o]> |>) ltac:(by split) o retry_begins). done.
      * unfold task_fails, store. destruct (has_storage l); reduce; by destruct (dlq q).
  - unfold complete. destruct (tasks q !! k) as [[?|o w|o|?]|]; try done; by apply Hw.
  - unfold release. destruct (tasks q !! k) as [[?|?|?|[]]|]; try done. simpl. split; [done|lia].
  - unfold task_panics. destruct (tasks q !! k) as [[o w|?|?|?]|]; try done.
    destruct (w_permit w); simpl; split; try done; lia.
  - unfold fire. destruct (timers q !! j) as [t|]; [|done]. by apply Hw.
  - unfold shutdown. by rewrite Hs.
  - by rewrite Hs.
Qed.

Lemma run_keeps_shutdown q acts : is_shutting_down q = true →
  is_shutting_down (run q acts) = true ∧ (outstanding (run q acts) ≤ outstanding q)%Z.
Proof.
  revert q. induction acts as [|a acts IH]; intros q Hs; [done|]. destruct (exec_keeps_shutdown q a Hs) as [H1 H2].
  destruct (IH _ H1) as [H3 H4]. split; [done|]. change (run q (a :: acts)) with (run (exec q a) acts). lia.
Qed.

(** Shutdown is final: from the moment it was requested every [submit] is
    rejected with [ShutdownInProgress] and changes nothing, whatever happens in
    between, and the number of outstanding commands never grows, so a queue
    that has drained stays drained. *)
Theorem shutdown_is_final n q now acts : reachable n q → Forall action_ok acts →
  let q' := run (shutdown q now) acts in
  is_shutting_down q' = true ∧
  (∀ id cid ct now', submit q' id cid ct now' = (q', Err ShutdownInProgress)) ∧
  (0 ≤ outstanding q' ≤ outstanding q)%Z ∧
  (outstanding q = 0%Z → outstanding q' = 0%Z).
Proof.
  intros H Ha q'. assert (is_shutting_down (shutdown q now) = true) as Hs.
  { unfold shutdown. by destruct (is_shutting_down q) eqn:E. }
  assert (outstanding (shutdown q now) = outstanding q) as Hout.
  { unfold shutdown. by destruct (is_shutting_down q). }
  destruct (run_keeps_shutdown (shutdown q now) acts Hs) as [H1 H2]. fold q' in H1, H2.
  assert (reachable n q') as Hr.
  { apply queue_reachable_run; [|done]. exact (reachable_exec n q (ActShutdown now) H I). }
  pose proof (wf_outstanding q' (wf_reachable n q' Hr)).
  split_and!; [done| |lia|lia|lia]. intros id cid ct now'. unfold submit, admit_work. by rewrite H1.
Qed.

(** ** The outcome of an attempt *)
Lemma answers_deliver q tx r tx' : answers (deliver q tx r) tx' = answers q tx' + ind (tx =? tx').
Proof. unfold answers, deliver, upd. reduce. by rewrite total_snoc. Qed.

(** C14: what one execution of a command comes to.  A value is sent to the
    submitter.  An error or an expired timeout arms a retry timer with the
    next attempt number and the delay its policy prescribes while retries are
    left, and sends nothing; the error of the last attempt is sent, and only
    it is recorded in the dead letter queue (if there is one), with exactly
    [max_retries + 1] attempts.  The slot stays taken until the task is done. *)
Theorem attempt_outcome n q k o w r res now : reachable n q → tasks q !! k = Some (Running o w) →
  execution_result w r = Some res →
  let q' := finish q k r now in
  match res with
  | Ok v => delivered q' = delivered q ++ [(w_result_tx w, Ok v)] ∧ timers q' = timers q ∧ dlq q' = dlq q
  | Err e =>
      if (w_attempt w <? max_retries (w_retry_policy w))%Z
      then timers q' = timers q ++ [mkTimer o (w <| w_attempt := (w_attempt w + 1)%Z |>)
                                      (delay_for_attempt (w_retry_policy w) (w_attempt w + 1))] ∧
           delivered q' = delivered q ∧ dlq q' = dlq q
      else delivered q' = delivered q ++ [(w_result_tx w, Err e)] ∧ timers q' = timers q ∧
           dlq q' = (λ d, Dlq.push d (mkLetter (w_id w) (w_command_type w) (w_lane_id w) (error_to_string e)
                                        (max_retries (w_retry_policy w) + 1) now)) <$> dlq q
  end ∧ held_slots q' o = held_slots q o.
Proof.
  intros H Hk Hres q'. pose proof (wf_reachable n q H) as W. destruct (task_running_ok q k o w W Hk) as [Hlt [_ Hat]].
  apply lookup_lt_is_Some in Hlt as [l Ho]. subst q'. unfold finish. rewrite Hk, Ho, Hres.
  assert (∀ t, match t with Finished o' _ | Retrying o' => o' = o | _ => False end →
    total (λ t, match t with Running o' _ | Finished o' _ | Retrying o' => ind (o' =? o) | Released _ => 0 end)
      (<[k := t]> (tasks q)) = held_slots q o) as Hheld.
  { intros t Ht. unfold held_slots. totals. destruct t; try done; subst; simpl in *; lia. }
  destruct res as [v|e].
  - unfold task_succeeds, store. destruct (has_storage l); (split; [done|]); by apply (Hheld (Finished o w)).
  - unfold should_retry. destruct (Z.ltb_spec (w_attempt w) (max_retries (w_retry_policy w))).
    + unfold task_retries. rewrite (with_object_some _ o _ l) by done.
      split; [done|]. by apply (Hheld (Retrying o)).
    + replace (max_retries (w_retry_policy w)) with (w_attempt w) by lia.
      unfold task_fails, store. destruct (has_storage l); reduce; destruct (dlq q) eqn:Ed; reduce; rewrite ?Ed; (split; [done|]);
        by apply (Hheld (Finished o w)).
Qed.
End rules.
