(* ===== verification/LaneSchedule.v ===== *)
(** * The scheduler of the lane queue

    [schedule_next] as a composition of lane-level steps: which command a
    round starts, why its state is a reachable one, and that rounds drain the
    queue when the commands cooperate. *)
From Stdlib Require Import Sorting.Sorted.
From S2P Require Import Prelude Ordering External Retry DeadLetter RateLimit Boost LaneTypes LaneQueue LaneInvariant LaneRules Sums.
Local Open Scope nat_scope.

Section schedule.
Context {X : Ext}.
Implicit Types (q : CommandQueue) (l : Lane) (w : CommandWrapper).

(** Whether [try_dequeue] would hand out a command of this object. *)
Definition lane_offers l (now : Instant) : bool :=
  (try_acquire (rate_limiter l) now).2 && (has_capacity l && has_pending l).
Definition offers q (now : Instant) (o : nat) : bool :=
  match objects q !! o with Some l => lane_offers l now | None => false end.

Lemma dequeue_spec q o now :
  let '(q', started) := dequeue q o now in
  started = offers q (instant now) o ∧ lanes q' = lanes q ∧ length (objects q') = length (objects q) ∧
  (∀ o', o' ≠ o → objects q' !! o' = objects q !! o') ∧
  if started
  then ∃ l w ws, objects q !! o = Some l ∧ pending l = w :: ws ∧ tasks q' = tasks q ++ [Running o w]
  else tasks q' = tasks q.
Proof.
  unfold dequeue, offers. destruct (objects q !! o) as [l|] eqn:Ho; [|done].
  unfold try_dequeue, lane_offers. destruct (try_acquire (rate_limiter l) (instant now)) as [r ok]. simpl.
  assert (∀ l' o', o' ≠ o → <[o:=l']> (objects q) !! o' = objects q !! o') as Hne.
  { intros l' o' H. by rewrite list_lookup_insert_ne. }
  destruct ok; simpl; [|rewrite length_insert; by split_and!; auto].
  change (has_capacity (l <| rate_limiter := r |>)) with (has_capacity l).
  change (has_pending (l <| rate_limiter := r |>)) with (has_pending l).
  destruct (has_capacity l); simpl; [|rewrite length_insert; by split_and!; auto].
  unfold has_pending. destruct (pending l) as [|w ws] eqn:Hp; simpl; rewrite length_insert; [by split_and!; auto|].
  split_and!; auto. by exists l, w, ws.
Qed.

(** The loop starts the front command of the first lane that offers one. *)
Lemma dispatch_first_spec q os now : NoDup os →
  let '(q', started) := dispatch_first q os now in
  (started = false ∧ tasks q' = tasks q ∧ Forall (λ o, offers q (instant now) o = false) os) ∨
  (started = true ∧ ∃ pre o post l w ws, os = pre ++ o :: post ∧
     Forall (λ o, offers q (instant now) o = false) pre ∧ offers q (instant now) o = true ∧
     objects q !! o = Some l ∧ pending l = w :: ws ∧ tasks q' = tasks q ++ [Running o w]).
Proof.
  revert q. induction os as [|o os IH]; intros q Hnd; simpl; [by left|]. apply NoDup_cons in Hnd as [Hno Hnd].
  pose proof (dequeue_spec q o now) as HD. destruct (dequeue q o now) as [q1 started].
  destruct HD as (Hst & _ & _ & Hsame & HD). destruct started.
  - right. split; [done|]. destruct HD as (l & w & ws & Ho & Hp & Ht). by exists [], o, os, l, w, ws.
  - specialize (IH q1 Hnd). destruct (dispatch_first q1 os now) as [q' started].
    assert (∀ o', o' ∈ os → offers q1 (instant now) o' = offers q (instant now) o') as Hoff.
    { intros o' Hin. unfold offers. rewrite Hsame; [done|]. by intros ->. }
    destruct IH as [(-> & Ht & Hall)|(-> & pre & o' & post & l & w & ws & -> & Hpre & Hy & Ho & Hp & Ht)].
    + left. split_and!; [done|congruence|]. constructor; [done|]. rewrite Forall_forall in Hall |- *.
      intros o' Hin. rewrite <- Hoff; auto.
    + right. split; [done|]. exists (o :: pre), o', post, l, w, ws.
      assert (o' ≠ o) as Hne. { intros ->. apply Hno, elem_of_app. right. by left. }
      split_and!; [done| |by rewrite <- Hoff by (apply elem_of_app; right; by left)|by rewrite <- Hsame|done|congruence].
      constructor; [done|]. rewrite Forall_forall in Hpre |- *. intros x Hx. rewrite <- Hoff; [auto|].
      apply elem_of_app. by left.
Qed.

(** ** The pressure checks change nothing else *)
Definition calm l : Lane := l <| is_pressured := false |>.

Definition same_work q q' : Prop :=
  calm <$> objects q' = calm <$> objects q ∧ lanes q' = lanes q ∧ tasks q' = tasks q.

Lemma pressure_same q id o now : same_work q (pressure q id o now).
Proof.
  unfold pressure. destruct (objects q !! o) as [l|] eqn:Ho; [|done].
  assert (∀ l', calm l' = calm l → calm <$> <[o:=l']> (objects q) = calm <$> objects q) as Hc.
  { intros l' E. rewrite list_fmap_insert, E, <- list_fmap_insert. by rewrite list_insert_id. }
  unfold check_pressure. destruct (pressure_threshold (config l)) as [n|]; [|by split_and!; [apply Hc|..]].
  destruct (_ && _); [by split_and!; [apply Hc|..]|]. destruct (_ && _); by split_and!; [apply Hc|..].
Qed.

Lemma same_work_trans q1 q2 q3 : same_work q1 q2 → same_work q2 q3 → same_work q1 q3.
Proof. unfold same_work. intuition congruence. Qed.

Lemma pressures_same q (es : list (string * nat)) now :
  same_work q (foldl (λ q e, pressure q e.1 e.2 now) q es).
Proof.
  revert q. induction es as [|e es IH]; intros q; [done|]. simpl.
  eapply same_work_trans; [apply pressure_same|apply IH].
Qed.

Lemma same_work_lookup q q' o : same_work q q' → calm <$> objects q' !! o = calm <$> objects q !! o.
Proof. intros (H & _ & _). by rewrite <- !list_lookup_fmap, H. Qed.

Lemma calm_fields l l' : calm l = calm l' →
  pending l = pending l' ∧ (∀ now, lane_offers l now = lane_offers l' now) ∧
  (∀ now, effective_priority l now = effective_priority l' now) ∧ lane_id l = lane_id l' ∧ config l = config l'
  ∧ active l = active l'.
Proof.
  destruct l as [i c p pe a d b s r bo], l' as [i' c' p' pe' a' d' b' s' r' bo']. unfold calm, upd. simpl.
  intros H. injection H. intros; subst. done.
Qed.

Lemma same_work_offers q q' now o : same_work q q' → offers q' now o = offers q now o.
Proof.
  intros H. pose proof (same_work_lookup q q' o H) as E. unfold offers.
  destruct (objects q' !! o) as [l'|], (objects q !! o) as [l|]; simpl in E; try done.
  apply (inj Some), calm_fields in E. apply E.
Qed.

Lemma same_work_priority q q' now o : same_work q q' → priority_of q' now o = priority_of q now o.
Proof.
  intros H. pose proof (same_work_lookup q q' o H) as E. unfold priority_of.
  destruct (objects q' !! o) as [l'|], (objects q !! o) as [l|]; simpl in E; try done.
  apply (inj Some), calm_fields in E. destruct E as (_ & _ & E & _). simpl. by rewrite E.
Qed.

(** ** The choice of a round *)
#[local] Instance lawful_by_priority : LawfulCmp by_priority.
Proof. unfold by_priority. apply _. Qed.

Lemma snapshot_objects `{!ExtLaws X} n q : reachable n q → NoDup (hash_iter (lanes q)).*2.
Proof.
  intros H. pose proof (wf_names q (wf_reachable n q H)) as Hn.
  rewrite (Permutation_map snd (hash_iter_perm _ (lanes q))).
  apply (NoDup_fmap_2_strong snd); [|apply NoDup_map_to_list].
  intros [id o] [id' o'] H1%elem_of_map_to_list H2%elem_of_map_to_list E. simpl in E. subst o'.
  destruct (Hn _ _ H1) as (l & Hl & <-), (Hn _ _ H2) as (l' & Hl' & <-). by simplify_eq.
Qed.

Lemma elem_of_snapshot `{!ExtLaws X} q o : o ∈ (hash_iter (lanes q)).*2 ↔ ∃ id, lanes q !! id = Some o.
Proof.
  rewrite (Permutation_map snd (hash_iter_perm _ (lanes q))), list_elem_of_fmap. split.
  - intros ([id o'] & -> & H%elem_of_map_to_list). eauto.
  - intros [id H]. exists (id, o). by rewrite elem_of_map_to_list.
Qed.

Lemma priorities_spec q now os ps : mapM (priority_of q now) os = Some ps →
  ps.*2 = os ∧ (∀ p o, (p, o) ∈ ps → ∃ l, objects q !! o = Some l ∧ effective_priority l now = Some p).
Proof.
  intros H%mapM_Some_1. induction H as [|o [p o'] os ps Hp _ [IH1 IH2]]; simpl.
  { split; [done|]. by intros ? ? ?%not_elem_of_nil. }
  unfold priority_of in Hp. destruct (objects q !! o) as [l|] eqn:Ho; simplify_eq/=.
  destruct (effective_priority l now) as [p''|] eqn:Ep; simplify_eq/=. split; [done|].
  intros p1 o1 [E|Hin]%elem_of_cons; [simplify_eq; eauto|by apply IH2].
Qed.

(** In a list sorted by priority nothing behind an element is more urgent. *)
Lemma sorted_before (l1 l2 : list (Z * nat)) p o p' o' :
  StronglySorted (cmp_le by_priority) (l1 ++ (p, o) :: l2) → (p', o') ∈ l1 ++ (p, o) :: l2 → (p' < p)%Z →
  (p', o') ∈ l1.
Proof.
  induction l1 as [|x l1 IH]; simpl; intros Hs Hin Hlt.
  - exfalso. apply StronglySorted_inv in Hs as [_ Hall]. apply elem_of_cons in Hin as [E|Hin]; [simplify_eq; lia|].
    rewrite Forall_forall in Hall. specialize (Hall _ Hin). unfold cmp_le, by_priority, cmp_on in Hall. simpl in Hall.
    by destruct (Z.compare_spec p p'); [lia|lia|].
  - apply StronglySorted_inv in Hs as [Hs _]. apply elem_of_cons in Hin as [->|Hin]; [by left|]. right. by apply IH.
Qed.

(** C13: a scheduler round starts the front command of a most urgent lane: of
    all registered lanes with a smaller effective priority number (boost by
    deadline included) none had both a pending command and a free slot that
    its rate limiter permits; and a round that starts nothing found no lane
    with work it may start.  The round is abandoned only when the date
    arithmetic of a priority booster panics. *)
Theorem schedule_next_most_urgent `{!ExtLaws X} n q now : reachable n q →
  let '(q', round) := schedule_next q now in
  match round with
  | RoundIdle => tasks q' = tasks q ∧ ∀ id o, lanes q !! id = Some o → offers q (instant now) o = false
  | RoundStarted =>
      ∃ id o l w ws p, lanes q !! id = Some o ∧ objects q !! o = Some l ∧ pending l = w :: ws ∧
        offers q (instant now) o = true ∧ effective_priority l (utc now) = Some p ∧
        tasks q' = tasks q ++ [Running o w] ∧
        ∀ id' o' l' p', lanes q !! id' = Some o' → objects q !! o' = Some l' →
          effective_priority l' (utc now) = Some p' → (p' < p)%Z → offers q (instant now) o' = false
  | RoundPanicked =>
      tasks q' = tasks q ∧
      ∃ id o l, lanes q !! id = Some o ∧ objects q !! o = Some l ∧ effective_priority l (utc now) = None
  end.
Proof.
  intros H. unfold schedule_next. set (q1 := foldl _ q _).
  pose proof (pressures_same q (hash_iter (lanes q)) (utc now)) as Hsame. fold q1 in Hsame.
  pose proof (wf_names q (wf_reachable n q H)) as Hn.
  destruct (mapM (priority_of q1 (utc now)) (hash_iter (lanes q)).*2) as [ps|] eqn:Hps.
  - destruct (priorities_spec q1 (utc now) _ ps Hps) as [Hos Hpr].
    assert (NoDup (sort_by by_priority ps).*2) as Hnd.
    { rewrite (Permutation_map snd (sort_by_perm by_priority ps)). change (NoDup ps.*2). rewrite Hos.
      by eapply snapshot_objects. }
    pose proof (dispatch_first_spec q1 (sort_by by_priority ps).*2 now Hnd) as HD.
    destruct (dispatch_first q1 _ now) as [q' started]. pose proof Hsame as (Hc & Hl & Ht).
    assert (∀ id o, lanes q !! id = Some o → o ∈ (sort_by by_priority ps).*2) as Hin.
    { intros id o Hid. rewrite (Permutation_map snd (sort_by_perm by_priority ps)). change (o ∈ ps.*2).
      rewrite Hos, elem_of_snapshot. eauto. }
    destruct HD as [(-> & Htq & Hall)|(-> & pre & o & post & l & w & ws & Hsplit & Hpre & Hy & Ho & Hp & Htq)].
    + split; [congruence|]. intros id o Hid. rewrite Forall_forall in Hall.
      rewrite <- (same_work_offers q q1) by done. apply Hall. eauto.
    + apply fmap_app_inv in Hsplit as (ps1 & ps2 & -> & Hcons & Hsort).
      apply symmetry, fmap_cons_inv in Hcons as ([p o'] & ps3 & Eo & -> & ->). simpl in Eo. subst o'.
      assert ((p, o) ∈ ps) as Hpo.
      { rewrite <- (sort_by_perm by_priority ps), Hsort. apply elem_of_app. right. by left. }
      destruct (Hpr p o Hpo) as (l1 & Ho1 & Hp1). rewrite Ho in Ho1. apply (inj Some) in Ho1 as <-.
      assert (o ∈ (hash_iter (lanes q)).*2) as Hreg. { rewrite <- Hos. by apply (list_elem_of_fmap_2 snd _ (p, o)). }
      apply elem_of_snapshot in Hreg as [id Hid]. destruct (Hn id o Hid) as (l0 & Ho0 & _).
      pose proof (same_work_lookup q q1 o Hsame) as E. rewrite Ho, Ho0 in E. simpl in E. apply (inj Some), calm_fields in E.
      destruct E as (Epe & _ & Ep & _). exists id, o, l0, w, ws, p.
      rewrite <- Epe, <- Ep, Htq, Ht, <- (same_work_offers q q1) by done.
      split_and!; try done. intros id' o' l' p' Hid' Ho' Hp' Hlt. rewrite <- (same_work_offers q q1) by done.
      rewrite Forall_forall in Hpre. apply Hpre. apply (list_elem_of_fmap_2 snd _ (p', o')).
      apply (sorted_before ps1 ps3 p o); [rewrite <- Hsort; apply sort_by_sorted; apply _| |done].
      rewrite <- Hsort, sort_by_perm. specialize (Hin id' o' Hid').
      rewrite (Permutation_map snd (sort_by_perm by_priority ps)) in Hin. apply list_elem_of_fmap in Hin as ([p2 o2] & E2 & Hin2).
      simpl in E2. subst o2. destruct (Hpr p2 o' Hin2) as (l2 & Hl2 & Hp2).
      pose proof (same_work_lookup q q1 o' Hsame) as E'. rewrite Hl2, Ho' in E'. simpl in E'. apply (inj Some), calm_fields in E'.
      destruct E' as (_ & _ & E' & _). rewrite E' in Hp2. by simplify_eq.
  - split; [apply Hsame|]. apply mapM_None_1, Exists_exists in Hps as (o & Ho%elem_of_snapshot & Hpo). destruct Ho as [id Hid].
    destruct (Hn id o Hid) as (l & Hl & _). exists id, o, l. split_and!; [done..|].
    rewrite (same_work_priority q q1) in Hpo by done. unfold priority_of in Hpo. rewrite Hl in Hpo. simpl in Hpo.
    by destruct (effective_priority l (utc now)).
Qed.

(** ** Composed operations are interleavings *)

(** A step of the scheduler task. *)
Definition scheduler_action (a : Action) : Prop :=
  match a with ActPressure _ _ _ | ActDequeue _ _ | ActExit _ => True | _ => False end.

(** A step inside a round. *)
Definition round_action (a : Action) : Prop :=
  match a with ActPressure _ _ _ | ActDequeue _ _ => True | _ => False end.

Lemma round_scheduler_action a : round_action a → scheduler_action a.
Proof. by destruct a. Qed.

Lemma run_app q a b : run q (a ++ b) = run (run q a) b.
Proof. apply foldl_app. Qed.

Lemma pressures_run q es now :
  foldl (λ q e, pressure q e.1 e.2 now) q es = run q ((λ e, ActPressure e.1 e.2 now) <$> es).
Proof. revert q. induction es as [|e es IH]; intros q; [done|]. apply IH. Qed.

Lemma dispatch_run q os now :
  ∃ acts, (dispatch_first q os now).1 = run q acts ∧ Forall round_action acts.
Proof.
  revert q. induction os as [|o os IH]; intros q; simpl; [by exists []|].
  destruct (dequeue q o now) as [q1 started] eqn:E.
  assert (q1 = exec q (ActDequeue o now)) as -> by (simpl; by rewrite E). destruct started.
  - exists [ActDequeue o now]. split; [done|by repeat constructor].
  - destruct (IH (exec q (ActDequeue o now))) as (acts & H & Ha). exists (ActDequeue o now :: acts).
    split; [done|by constructor].
Qed.

Lemma schedule_run q now :
  ∃ acts, (schedule_next q now).1 = run q acts ∧ Forall round_action acts.
Proof.
  unfold schedule_next. rewrite pressures_run. set (ps := (λ e, ActPressure e.1 e.2 (utc now)) <$> _).
  assert (Forall round_action ps) as Hps by (apply Forall_fmap, Forall_forall; done).
  destruct (mapM _ _) as [lp|]; [|by exists ps].
  destruct (dispatch_run (run q ps) (sort_by by_priority lp).*2 now) as (acts & H & Ha).
  destruct (dispatch_first _ _ now) as [q' b]. simpl in *. exists (ps ++ acts).
  rewrite run_app. split; [done|]. by apply Forall_app.
Qed.

Lemma scheduler_action_ok a : scheduler_action a → action_ok a.
Proof. by destruct a. Qed.

Lemma exit_run q now : ∃ acts, (scheduler_exit q now).1 = run q acts ∧ Forall scheduler_action acts.
Proof.
  unfold scheduler_exit. destruct (is_shutting_down q) eqn:Es; [|by exists []].
  destruct (is_idle q); [|by exists []]. exists [ActExit now]. split; [|by repeat constructor]. simpl. by rewrite Es.
Qed.

Lemma reachable_exit n q now : reachable n q → reachable n (scheduler_exit q now).1.
Proof.
  intros H. destruct (exit_run q now) as (acts & -> & Ha). apply queue_reachable_run; [done|].
  eapply Forall_impl; [exact Ha|]. apply scheduler_action_ok.
Qed.

Lemma reachable_schedule n q now : reachable n q → reachable n (schedule_next q now).1.
Proof.
  intros H. destruct (schedule_run q now) as (acts & -> & Ha). apply queue_reachable_run; [done|].
  eapply Forall_impl; [exact Ha|]. intros a Hr. by apply scheduler_action_ok, round_scheduler_action.
Qed.

(** The code's composed operations refine the lane-level steps: an
    undisturbed [submit] is an admission, a lookup and a push, and a round of
    the scheduler loop is a sequence of pressure checks, dequeue attempts and
    possibly the exit, so everything proved of all interleavings holds of the
    operations as the code runs them. *)
Theorem operations_refine_steps q :
  (∀ id cid ct now, ∃ acts, (submit q id cid ct now).1 = run q acts ∧ Forall action_ok acts ∧
     (length acts ≤ 3)) ∧
  (∀ now, ∃ acts, (scheduler_round q now).1 = run q acts ∧ Forall scheduler_action acts).
Proof.
  split.
  - intros id cid ct now. unfold submit. set (i := length (submissions q)).
    destruct (admit_work q id ct) as [q1 [u|e]] eqn:E1.
    + assert (q1 = exec q (ActAdmit id ct)) as -> by (simpl; by rewrite E1).
      destruct (locate (exec q (ActAdmit id ct)) i cid now) as [q2 [[tx|]|e]] eqn:E2.
      all: assert (q2 = exec (exec q (ActAdmit id ct)) (ActLocate i cid now)) as -> by (simpl in *; by rewrite E2).
      1: exists [ActAdmit id ct; ActLocate i cid now; ActPlace i now].
      2,3: exists [ActAdmit id ct; ActLocate i cid now].
      all: split; [done|]; split; [by repeat constructor|simpl; lia].
    + assert (q1 = exec q (ActAdmit id ct)) as -> by (simpl; by rewrite E1).
      exists [ActAdmit id ct]. split; [done|]. split; [by repeat constructor|simpl; lia].
  - intros now. unfold scheduler_round. destruct (schedule_run q now) as (acts & H & Ha).
    destruct (schedule_next q now) as [q1 r]. simpl in H. subst q1.
    apply (Forall_impl _ scheduler_action) in Ha; [|exact round_scheduler_action].
    destruct r.
    1,2: destruct (exit_run (run q acts) (utc now)) as (acts' & -> & Ha'); exists (acts ++ acts'); rewrite run_app;
      split; [done|by apply Forall_app].
    by exists acts.
Qed.

(** ** Pressure events *)

(** The events of one lane when the checks find these contents. *)
Fixpoint pressure_events l (found : list (list CommandWrapper)) : list string :=
  match found with
  | [] => []
  | ws :: found =>
      let '(l, e) := check_pressure (l <| pending := ws |>) in
      match e with Some k => k :: pressure_events l found | None => pressure_events l found end
  end.

(** Pressure and idle in turn, beginning with pressure unless the lane is pressured already. *)
Fixpoint alternating (pressured : bool) (events : list string) : bool :=
  match events with
  | [] => true
  | e :: events =>
      String.eqb e (if pressured then QUEUE_LANE_IDLE else QUEUE_LANE_PRESSURE)
      && alternating (negb pressured) events
  end.

(** However the backlog of a lane moves between the checks, its pressure
    and idle events alternate, beginning with pressure; a pressure event means
    the backlog had reached the threshold, an idle event that it was empty,
    and a lane without a threshold is silent. *)
Theorem pressure_alternates l found :
  alternating (is_pressured l) (pressure_events l found) = true ∧
  (pressure_threshold (config l) = None → pressure_events l found = []) ∧
  (∀ e, (check_pressure l).2 = Some e →
     (e = QUEUE_LANE_PRESSURE ∧ ∃ t, pressure_threshold (config l) = Some t ∧ t ≤ length (pending l)) ∨
     (e = QUEUE_LANE_IDLE ∧ pending l = [])).
Proof.
  split_and!.
  - revert l. induction found as [|ws found IH]; intros l; [done|]. simpl. unfold check_pressure. simpl.
    destruct (pressure_threshold (config l)) as [t|]; [|(pose proof (IH (l <| pending := ws |>)) as H; exact H)].
    destruct (is_pressured l) eqn:Hp; simpl.
    + rewrite andb_false_r. destruct (length ws =? 0); simpl.
      * (pose proof (IH (l <| pending := ws |> <| is_pressured := false |>)) as H; exact H).
      * pose proof (IH (l <| pending := ws |>)) as H. simpl in H. by rewrite Hp in H.
    + rewrite andb_true_r, andb_false_r. destruct (t <=? length ws); simpl.
      * (pose proof (IH (l <| pending := ws |> <| is_pressured := true |>)) as H; exact H).
      * pose proof (IH (l <| pending := ws |>)) as H. simpl in H. by rewrite Hp in H.
  - intros Hn. revert l Hn. induction found as [|ws found IH]; intros l Hn; [done|]. simpl.
    unfold check_pressure. simpl. rewrite Hn. pose proof (IH (l <| pending := ws |>)) as H. by apply H.
  - unfold check_pressure. destruct (pressure_threshold (config l)) as [t|]; [|done]. intros e.
    destruct (Nat.leb_spec t (length (pending l))), (is_pressured l), (Nat.eqb_spec (length (pending l)) 0);
      simpl; intros; simplify_eq; [..|]; try (left; split; [done|by exists t]); right; split; try done;
      by apply nil_length_inv.
Qed.

(** ** Panicking commands *)
Lemma with_object_panicked q o f : panicked (with_object q o f) = panicked q.
Proof. unfold with_object. by destruct (objects q !! o). Qed.

Lemma exec_keeps_panicked q a p : p ∈ panicked q → p ∈ panicked (exec q a).
Proof.
  intros Hp. destruct a; simpl; try done.
  - unfold register_lane. by destruct (objects q !! o).
  - unfold admit_work. by destruct (is_shutting_down q).
  - unfold locate. destruct (submissions q !! i) as [[id ct|]|]; try done.
    destruct (lanes q !! id ≫= _) as [[o l]|]; simpl; [|done]. unfold store. by destruct (has_storage l).
  - unfold enqueue. destruct (objects q !! o) as [l|]; [|done]. simpl. unfold store. by destruct (has_storage l).
  - unfold place. destruct (submissions q !! i) as [[|o w]|]; try done.
    destruct (w_permit w); simpl; by rewrite with_object_panicked.
  - unfold pressure. destruct (objects q !! o) as [l|]; [|done]. by destruct (check_pressure l) as [l' [k|]].
  - unfold dequeue. destruct (objects q !! o) as [l|]; [|done]. by destruct (try_dequeue l _) as [l' [w|]].
  - unfold finish. destruct (tasks q !! k) as [[o w|?|?|?]|]; try done.
    destruct (objects q !! o) as [l|]; [|done]. destruct (execution_result w r) as [[v|e]|]; [..|done].
    + unfold task_succeeds, store. by destruct (has_storage l).
    + destruct (should_retry _ _).
      * unfold task_retries. simpl. by rewrite with_object_panicked.
      * unfold task_fails, store. destruct (has_storage l); reduce; by destruct (dlq q).
  - unfold complete. destruct (tasks q !! k) as [[?|o w|o|?]|]; try done; by rewrite with_object_panicked.
  - unfold release. by destruct (tasks q !! k) as [[?|?|?|[]]|].
  - unfold task_panics. destruct (tasks q !! k) as [[o w|?|?|?]|]; try done.
    destruct (w_permit w); simpl; apply elem_of_app; by left.
  - unfold fire. destruct (timers q !! j) as [t|]; [|done]. by rewrite with_object_panicked.
  - unfold shutdown. by destruct (is_shutting_down q).
  - by destruct (is_shutting_down q).
Qed.

(** A command that panics takes its lane's slot with it for ever: its task
    unwinds before [mark_completed], so from then on, whatever happens, the
    queue is never idle while that lane is registered ([drain] times out and
    after a shutdown the scheduler loop does not exit), and the lane can run
    at most [max_concurrency - 1] commands at a time. *)
Theorem panic_leaks_slot `{!ExtLaws X} n q acts o tx id l : reachable n q → Forall action_ok acts →
  (o, tx) ∈ panicked q →
  let q' := run q acts in
  lanes q' !! id = Some o → objects q' !! o = Some l →
  is_idle q' = false ∧ running_on q' o < max_concurrency (config l).
Proof.
  intros H Ha Hp q' Hid Ho. assert (reachable n q') as H' by (by apply queue_reachable_run).
  assert ((o, tx) ∈ panicked q') as Hp'.
  { subst q'. clear -Hp. unfold run. revert q Hp. induction acts as [|a acts IH]; intros q Hp; [done|].
    simpl. apply IH. by apply exec_keeps_panicked. }
  pose proof (total_elem (λ p, ind (p.1 =? o)) _ _ Hp') as Hl. simpl in Hl. rewrite ind_same in Hl.
  destruct (wf_lanes q' (wf_reachable n q' H') o l Ho) as [Hact Hb _ _ _].
  pose proof (running_held q' o). fold (lost_slots q' o) in Hl. split; [|lia].
  destruct (is_idle q') eqn:Hi; [|done]. destruct (idle_lane q' id o Hi Hid) as [_ Hidle].
  unfold object_is_idle in Hidle. rewrite Ho in Hidle. unfold lane_is_idle in Hidle.
  apply andb_true_iff in Hidle as [Hidle _]. apply andb_true_iff in Hidle as [_ Hidle%Nat.eqb_eq]. lia.
Qed.
End schedule.
