(* ===== verification/LaneStorage.v ===== *)
(** * What the lanes keep in the storage

    A lane with a storage saves a command when it is submitted and removes it
    when it is answered for good.  The calls a queue makes, performed by
    [LocalStorage], leave the commands that are not answered yet. *)
From S2P Require Import Prelude Ordering Text External Retry Storage DeadLetter RateLimit Boost LaneTypes LaneQueue.
From S2P Require Import Prelude LaneInvariant LaneRules LaneSchedule Sums.
Local Open Scope nat_scope.

Section stored.
Context {X : Ext}.
Implicit Types (q : CommandQueue) (l : Lane) (w : CommandWrapper) (σ : nat → bool).

(** ** Counting commands by id *)
Definition tag (b : bool) (id : string) (w : CommandWrapper) : nat := ind (b && String.eqb (w_id w) id).
#[global] Arguments tag : simpl never.

Lemma tag_true id w : tag true id w = ind (String.eqb (w_id w) id).
Proof. done. Qed.
Lemma tag_false id w : tag false id w = 0.
Proof. done. Qed.
Lemma tag_same b id w w' : w_id w' = w_id w → tag b id w' = tag b id w.
Proof. unfold tag. by intros ->. Qed.

(** The commands of that id owned by the queue in lanes with a storage, [σ]
    telling which objects have one. *)
Definition kept σ q (id : string) : nat :=
  total (λ s, match s with Placing o w => tag (σ o) id w | HoldsPermit _ _ => 0 end) (submissions q)
  + total (λ l, total (tag (has_storage l) id) (pending l)) (objects q)
  + total (λ t, match t with Running o w => tag (σ o) id w | _ => 0 end) (tasks q)
  + total (λ t, tag (σ (t_object t)) id (t_wrapper t)) (timers q).

Definition saves q (id : string) : nat :=
  total (λ c, match c.2 with SaveCommand i _ _ _ => ind (String.eqb i id) | _ => 0 end) (storage_calls q).
Definition removals q (id : string) : nat :=
  total (λ c, match c.2 with RemoveCommand i => ind (String.eqb i id) | _ => 0 end) (storage_calls q).

Definition storage_of σ q : Prop := ∀ o l, objects q !! o = Some l → has_storage l = σ o.

Definition balanced σ q : Prop := ∀ id, kept σ q id + removals q id = saves q id.

(** ** Objects keep their storage *)
Lemma storage_updated q o l l' : objects q !! o = Some l → has_storage l' = has_storage l →
  has_storage <$> <[o := l']> (objects q) = has_storage <$> objects q.
Proof. intros Ho E. rewrite list_fmap_insert, E, <- list_fmap_insert. by rewrite list_insert_id. Qed.

Lemma storage_with_object q o f : (∀ l, has_storage (f l) = has_storage l) →
  has_storage <$> objects (with_object q o f) = has_storage <$> objects q.
Proof.
  intros Hf. unfold with_object. destruct (objects q !! o) as [l|] eqn:Ho; [|done].
  by apply (storage_updated q o l).
Qed.

Lemma exec_storage q a : has_storage <$> objects q `prefix_of` has_storage <$> objects (exec q a).
Proof.
  assert (∀ q', has_storage <$> objects q' = has_storage <$> objects q →
    has_storage <$> objects q `prefix_of` has_storage <$> objects q') as Heq by (by intros q' ->).
  destruct a; cbn [exec]; try by apply Heq.
  - unfold create_lane, upd. reduce. rewrite fmap_app. by apply prefix_app_r.
  - apply Heq. unfold register_lane. by destruct (objects q !! o).
  - apply Heq. unfold admit_work. by destruct (is_shutting_down q).
  - apply Heq. unfold locate. destruct (submissions q !! i) as [[id ct|]|]; try done.
    destruct (lanes q !! id ≫= _) as [[o l]|]; simpl; [|done]. unfold store. by destruct (has_storage l).
  - apply Heq. unfold enqueue. destruct (objects q !! o) as [l|]; [|done]. simpl. unfold store. by destruct (has_storage l).
  - apply Heq. unfold place. destruct (submissions q !! i) as [[|o w]|]; try done.
    destruct (w_permit w); simpl; by rewrite storage_with_object.
  - apply Heq. unfold pressure. destruct (objects q !! o) as [l|] eqn:Ho; [|done].
    assert (has_storage (check_pressure l).1 = has_storage l) as Hs.
    { unfold check_pressure. destruct (pressure_threshold (config l)); [|done]. by repeat destruct (_ && _). }
    destruct (check_pressure l) as [l' [k|]]; by apply (storage_updated q o l).
  - apply Heq. unfold dequeue. destruct (objects q !! o) as [l|] eqn:Ho; [|done].
    assert (has_storage (try_dequeue l (instant now)).1 = has_storage l) as Hs.
    { unfold try_dequeue. destruct (try_acquire _ _) as [r []]; [|done]. simpl.
      destruct (_ && _); [|done]. by destruct (pending _). }
    destruct (try_dequeue l _) as [l' [w|]]; by apply (storage_updated q o l).
  - apply Heq. unfold finish. destruct (tasks q !! k) as [[o w|?|?|?]|]; try done.
    destruct (objects q !! o) as [l|]; [|done]. destruct (execution_result w r) as [[v|e]|]; [..|done].
    + unfold task_succeeds, store. by destruct (has_storage l).
    + destruct (should_retry _ _).
      * unfold task_retries. simpl. by rewrite storage_with_object.
      * unfold task_fails, store. destruct (has_storage l); reduce; by destruct (dlq q).
  - apply Heq. unfold complete. destruct (tasks q !! k) as [[?|o w|o|?]|]; try done; by rewrite storage_with_object.
  - apply Heq. unfold release. by destruct (tasks q !! k) as [[?|?|?|[]]|].
  - apply Heq. unfold task_panics. destruct (tasks q !! k) as [[o w|?|?|?]|]; try done. by destruct (w_permit w).
  - apply Heq. unfold fire. destruct (timers q !! j) as [t|]; [|done]. by rewrite storage_with_object.
  - apply Heq. unfold shutdown. by destruct (is_shutting_down q).
  - apply Heq. by destruct (is_shutting_down q).
Qed.

Lemma storage_of_before σ q a : storage_of σ (exec q a) → storage_of σ q.
Proof.
  intros Hσ o l Ho. pose proof (exec_storage q a) as [k Hk].
  assert ((has_storage <$> objects (exec q a)) !! o = Some (has_storage l)) as H.
  { rewrite Hk. apply lookup_app_l_Some. by rewrite list_lookup_fmap, Ho. }
  rewrite list_lookup_fmap in H. apply fmap_Some in H as (l' & Hl' & ->). by apply Hσ.
Qed.

(** ** The balance *)
Local Tactic Notation "balance" ident(id) :=
  intros id; match goal with H : balanced _ _ |- _ => specialize (H id) end;
  unfold kept, saves, removals in *; reduce_all; totals; reduce_all.

(** An object updated without touching its commands. *)
Lemma balanced_object σ q o l l' : balanced σ q → objects q !! o = Some l → has_storage l' = has_storage l →
  pending l' = pending l → balanced σ (q <| objects ::= <[o := l']> |>).
Proof. intros B Ho Hs Hp. unfold upd. balance id. rewrite Hs, Hp in *. lia. Qed.

Lemma balanced_emit σ q e : balanced σ q → balanced σ (emit q e).
Proof. done. Qed.

Lemma balanced_locate σ q i cid now : storage_of σ q → balanced σ q → balanced σ (locate q i cid now).1.
Proof.
  intros Hσ B. unfold locate. destruct (submissions q !! i) as [[id ct|]|] eqn:Hi; [|done..].
  destruct (lanes q !! id ≫= _) as [[o l]|] eqn:El; cbn [fst].
  - assert (objects q !! o = Some l) as Ho.
    { destruct (lanes q !! id) as [o'|]; simpl in El; [|done]. destruct (objects q !! o') eqn:E; simpl in El; by simplify_eq. }
    pose proof (Hσ o l Ho) as Hs.
    unfold wrap, store, upd. destruct (has_storage l) eqn:Es; balance id'; rewrite <- Hs, ?tag_true, ?tag_false in *; reduce_all; lia.
  - unfold drop_permit, upd. balance id'. lia.
Qed.

Lemma balanced_enqueue σ q o cid ct now : storage_of σ q → balanced σ q → balanced σ (enqueue q o cid ct now).1.
Proof.
  intros Hσ B. unfold enqueue. destruct (objects q !! o) as [l|] eqn:Ho; [|done]. pose proof (Hσ o l Ho) as Hs.
  cbn [fst wrap]. unfold store, upd. destruct (has_storage l) eqn:Es; balance id'; rewrite <- Hs, ?tag_true, ?tag_false in *; reduce_all; lia.
Qed.

Lemma balanced_place σ q i now : wf q → storage_of σ q → balanced σ q → balanced σ (place q i now).
Proof.
  intros W Hσ B. unfold place. destruct (submissions q !! i) as [[|o w]|] eqn:Hi; [done| |done].
  enough (balanced σ (with_object (q <| submissions ::= delete i |>) o (λ l, push_pending l w))) as B'
    by (by destruct (w_permit w)).
  pose proof (Forall_lookup_1 _ _ _ _ (wf_submissions q W) Hi) as [Hlt _].
  apply lookup_lt_is_Some in Hlt as [l Ho]. pose proof (Hσ o l Ho) as Hs.
  rewrite (with_object_some _ o _ l) by done. unfold upd. balance id.
  unfold push_pending, upd in *. reduce_all. rewrite total_snoc, Hs in *. lia.
Qed.

Lemma balanced_pressure σ q id o now : balanced σ q → balanced σ (pressure q id o now).
Proof.
  intros B. unfold pressure. destruct (objects q !! o) as [l|] eqn:Ho; [|done].
  assert (has_storage (check_pressure l).1 = has_storage l ∧ pending (check_pressure l).1 = pending l) as [Hs Hp].
  { unfold check_pressure. destruct (pressure_threshold (config l)); [|done]. by repeat destruct (_ && _). }
  destruct (check_pressure l) as [l' [k|]]; [apply balanced_emit|]; by apply (balanced_object σ q o l).
Qed.

Lemma balanced_dequeue σ q o now : storage_of σ q → balanced σ q → balanced σ (dequeue q o now).1.
Proof.
  intros Hσ B. unfold dequeue. destruct (objects q !! o) as [l|] eqn:Ho; [|done]. pose proof (Hσ o l Ho) as Hs.
  assert (let '(l', taken) := try_dequeue l (instant now) in has_storage l' = has_storage l ∧
    match taken with Some w => pending l = w :: pending l' | None => pending l' = pending l end) as HT.
  { unfold try_dequeue. destruct (try_acquire _ _) as [r []]; [|done]. cbn [negb]. unfold upd. reduce.
    destruct (_ && _) eqn:Ec; [|done]. by destruct (pending l). }
  destruct (try_dequeue l (instant now)) as [l' [w|]]; destruct HT as [Hs' Hp]; cbn [fst].
  - apply balanced_emit. unfold upd. balance id. rewrite Hs', Hp, Hs in *. reduce_all. lia.
  - by apply (balanced_object σ q o l).
Qed.

Lemma balanced_finish σ q k r now : storage_of σ q → balanced σ q → balanced σ (finish q k r now).
Proof.
  intros Hσ B. unfold finish. destruct (tasks q !! k) as [[o w|?|?|?]|] eqn:Hk; try done.
  destruct (objects q !! o) as [l|] eqn:Ho; [|done]. pose proof (Hσ o l Ho) as Hs.
  assert (∀ r', balanced σ (deliver (store (q <| tasks ::= <[k := Finished o w]> |>) o (has_storage l)
    (RemoveCommand (w_id w))) (w_result_tx w) r')) as HD.
  { intros r'. unfold store, deliver, upd. destruct (has_storage l) eqn:Es; balance id; rewrite <- Hs, ?tag_true, ?tag_false in *; reduce_all; lia. }
  destruct (execution_result w r) as [[v|e]|]; [exact (HD (Ok v))| |done].
  destruct (should_retry _ _).
  - unfold task_retries. apply balanced_emit. rewrite (with_object_some _ o _ l) by done.
    unfold upd. balance id. unfold retry_begins, upd in *. reduce_all.
    rewrite (tag_same (σ o) id w (mkWrapper _ _ _ _ _ _ _ _ _)) by done. lia.
  - specialize (HD (Err e)). unfold task_fails. reduce. unfold store in *. destruct (has_storage l); reduce; by destruct (dlq q).
Qed.

Lemma balanced_complete σ q k : balanced σ q → balanced σ (complete q k).
Proof.
  intros B. unfold complete. destruct (tasks q !! k) as [[?|o w|o|?]|] eqn:Hk; try done; unfold with_object; reduce;
    destruct (objects q !! o) as [l|] eqn:Ho; unfold mark_completed, upd; balance id; lia.
Qed.

Lemma balanced_fire σ q j : wf q → storage_of σ q → balanced σ q → balanced σ (fire q j).
Proof.
  intros W Hσ B. unfold fire. destruct (timers q !! j) as [t|] eqn:Hj; [|done].
  pose proof (Forall_lookup_1 _ _ _ _ (wf_timers q W) Hj) as [Hlt _].
  apply lookup_lt_is_Some in Hlt as [l Ho]. pose proof (Hσ _ l Ho) as Hs.
  rewrite (with_object_some _ (t_object t) _ l) by done. unfold upd. balance id.
  unfold retry_fires, push_pending, upd in *. reduce_all. rewrite total_snoc, Hs in *. lia.
Qed.

Lemma balanced_action σ q a : wf q → storage_of σ q → panicked (exec q a) = [] → balanced σ q → balanced σ (exec q a).
Proof.
  intros W Hσ Hp B. destruct a; cbn [exec] in *;
    auto using balanced_locate, balanced_enqueue, balanced_place, balanced_pressure, balanced_dequeue, balanced_finish,
      balanced_complete, balanced_fire.
  - unfold create_lane, upd. balance id'. lia.
  - unfold register_lane. by destruct (objects q !! o).
  - unfold admit_work. destruct (is_shutting_down q); [done|]. unfold upd. balance id'. lia.
  - unfold release. destruct (tasks q !! k) as [[?|?|?|permit]|] eqn:Hk; try done.
    unfold drop_permit, upd. destruct permit; balance id; lia.
  - unfold task_panics in *. destruct (tasks q !! k) as [[o w|?|?|?]|] eqn:Hk; try done. exfalso.
    destruct (w_permit w); unfold upd in Hp; reduce_all; by destruct (panicked q).
  - unfold shutdown. by destruct (is_shutting_down q).
  - by destruct (is_shutting_down q).
Qed.

Lemma storage_balanced n q : reachable n q → ∀ σ, storage_of σ q → panicked q = [] → balanced σ q.
Proof.
  induction 1 as [|q a Hr IH Ha]; intros σ Hσ Hp; [by intros id|].
  apply balanced_action; [by eapply wf_reachable|by eapply storage_of_before|done|]. apply IH.
  - by eapply storage_of_before.
  - destruct (panicked q) as [|p ps] eqn:E; [done|]. exfalso.
    assert (p ∈ panicked (exec q a)) as Hin by (apply exec_keeps_panicked; rewrite E; by left).
    rewrite Hp in Hin. by apply not_elem_of_nil in Hin.
Qed.
End stored.

(** ** The storage after the calls *)
Section files.
Context {X : Ext} `{!ExtLaws X} {C : StorageCodec} `{!StorageCodecLaws C}.
Context (empty_object : Value).
Implicit Types (q : CommandQueue) (w : CommandWrapper).

(** The call of the lane as an operation of the storage. *)
Definition storage_op (c : StorageCall) : StorageOp :=
  match c with
  | SaveCommand id command_type lane created_at =>
      OpSave (mkStoredCommand id command_type lane empty_object 0 created_at None)
  | RemoveCommand id => OpRemoveCommand id
  end.

(** The storage after some calls, and whether all of them succeeded. *)
Definition after_call (acc : LocalStorage * bool) (c : nat * StorageCall) : LocalStorage * bool :=
  let '(s, r) := perform_storage acc.1 (storage_op c.2) in (s, acc.2 && is_ok r).
Definition after_calls (s : LocalStorage) (l : list (nat * StorageCall)) : LocalStorage * bool := foldl after_call (s, true) l.

Lemma persist_commands_cache (s : LocalStorage) : commands (persist_commands s).1 = commands s.
Proof.
  unfold persist_commands. destruct (commands_to_json _); [|done]. destruct (next_write s) as [[|e found] rest]; done.
Qed.

Lemma after_call_commands s b c :
  commands (after_call (s, b) c).1 =
  match c.2 with
  | SaveCommand id ct lane t => <[ id := mkStoredCommand id ct lane empty_object 0 t None ]> (commands s)
  | RemoveCommand id => delete id (commands s)
  end.
Proof.
  unfold after_call. destruct c as [o [id ct lane t|id]]; cbn [fst snd storage_op perform_storage save_command remove_command local_storage];
    destruct (persist_commands _) as [s' r] eqn:E; 
    match type of E with persist_commands ?x = _ => pose proof (persist_commands_cache x) as H end; rewrite E in H; exact H.
Qed.

(** Calls that all succeed leave the files in agreement with the cache. *)
Lemma after_calls_on_file s l : json_value empty_object → keyed s → on_file s → (after_calls s l).2 = true →
  on_file (after_calls s l).1.
Proof.
  intros He. unfold after_calls. assert (∀ acc, keyed acc.1 ∧ (acc.2 = true → on_file acc.1) →
    (foldl after_call acc l).2 = true → on_file (foldl after_call acc l).1) as H.
  { induction l as [|c l IH]; intros acc [Hk Hf]; [done|]. apply IH.
    assert (storage_op_ok (storage_op c.2)) as Hop by (by destruct c.2).
    pose proof (keyed_op acc.1 (storage_op c.2) Hk Hop) as Hk'. unfold after_call.
    destruct (perform_storage acc.1 (storage_op c.2)) as [s' [[]|e]] eqn:E; cbn [fst snd is_ok] in *; [|by rewrite andb_false_r].
    split; [done|]. rewrite andb_true_r. intros Ha. apply (storage_durable acc.1 (storage_op c.2)); auto.
    by destruct c.2. }
  intros Hk Hf. by apply H.
Qed.

(** One action makes at most one call. *)
Lemma exec_calls q a : ∃ cs, storage_calls (exec q a) = storage_calls q ++ cs ∧ length cs ≤ 1.
Proof.
  assert (∀ q', storage_calls q' = storage_calls q → ∃ cs, storage_calls q' = storage_calls q ++ cs ∧ length cs ≤ 1) as Hsame
    by (intros q' ->; exists []; by rewrite app_nil_r; split; [|simpl; lia]).
  assert (∀ q' o b c, storage_calls q' = storage_calls q →
    ∃ cs, storage_calls (store q' o b c) = storage_calls q ++ cs ∧ length cs ≤ 1) as Hone.
  { intros q' o [] c E; [|by apply Hsame]. exists [(o, c)]. unfold store, upd. reduce. by rewrite E. }
  assert (∀ q' o f, storage_calls (with_object q' o f) = storage_calls q') as Hwith
    by (intros; unfold with_object; by destruct (objects q' !! o)).
  destruct a; cbn [exec]; try by apply Hsame.
  - apply Hsame. unfold register_lane. by destruct (objects q !! o).
  - apply Hsame. unfold admit_work. by destruct (is_shutting_down q).
  - unfold locate. destruct (submissions q !! i) as [[id ct|]|]; try by apply Hsame.
    destruct (lanes q !! id ≫= _) as [[o l]|]; simpl; [|by apply Hsame]. by apply Hone.
  - unfold enqueue. destruct (objects q !! o) as [l|]; [|by apply Hsame]. simpl. by apply Hone.
  - apply Hsame. unfold place. destruct (submissions q !! i) as [[|o w]|]; try done.
    destruct (w_permit w); simpl; by rewrite Hwith.
  - apply Hsame. unfold pressure. destruct (objects q !! o) as [l|]; [|done]. by destruct (check_pressure l) as [l' [k|]].
  - apply Hsame. unfold dequeue. destruct (objects q !! o) as [l|]; [|done]. by destruct (try_dequeue l _) as [l' [w|]].
  - unfold finish. destruct (tasks q !! k) as [[o w|?|?|?]|]; try by apply Hsame.
    destruct (objects q !! o) as [l|]; [|by apply Hsame]. destruct (execution_result w r) as [[v|e]|]; [| |by apply Hsame].
    + by apply (Hone (q <| tasks ::= <[k := Finished o w]> |>) o (has_storage l) (RemoveCommand (w_id w))).
    + destruct (should_retry _ _).
      * apply Hsame. unfold task_retries. simpl. by rewrite Hwith.
      * pose proof (Hone (q <| tasks ::= <[k := Finished o w]> |>) o (has_storage l) (RemoveCommand (w_id w)) eq_refl) as H.
        unfold task_fails. reduce. unfold store in *. destruct (has_storage l); reduce; by destruct (dlq q).
  - apply Hsame. unfold complete. destruct (tasks q !! k) as [[?|o w|o|?]|]; try done; by rewrite Hwith.
  - apply Hsame. unfold release. by destruct (tasks q !! k) as [[?|?|?|[]]|].
  - apply Hsame. unfold task_panics. destruct (tasks q !! k) as [[o w|?|?|?]|]; try done. by destruct (w_permit w).
  - apply Hsame. unfold fire. destruct (timers q !! j) as [t|]; [|done]. by rewrite Hwith.
  - apply Hsame. unfold shutdown. by destruct (is_shutting_down q).
  - apply Hsame. by destruct (is_shutting_down q).
Qed.

(** A command that the queue still owns, in a lane with a storage. *)
Definition unanswered q (id : string) : Prop := ∃ o l w, objects q !! o = Some l ∧ has_storage l = true ∧ w_id w = id ∧
  (Placing o w ∈ submissions q ∨ w ∈ pending l ∨ Running o w ∈ tasks q ∨ ∃ t, t ∈ timers q ∧ t_object t = o ∧ t_wrapper t = w).

Lemma tag_positive b id w : tag b id w ≠ 0 ↔ b = true ∧ w_id w = id.
Proof.
  unfold tag, ind. destruct b; cbn [andb]; [|naive_solver]. destruct (String.eqb_spec (w_id w) id); naive_solver.
Qed.

Lemma kept_unanswered σ q id : wf q → storage_of σ q → kept σ q id ≠ 0 ↔ unanswered q id.
Proof.
  intros W Hσ. unfold kept. split.
  - intros H. assert (∀ o w, o < length (objects q) → tag (σ o) id w ≠ 0 →
      (Placing o w ∈ submissions q ∨ Running o w ∈ tasks q ∨ ∃ t, t ∈ timers q ∧ t_object t = o ∧ t_wrapper t = w) →
      unanswered q id) as Hgo.
    { intros o w [l Ho]%lookup_lt_is_Some [Hs Hid]%tag_positive Hin. exists o, l, w. rewrite (Hσ o l Ho).
      split_and!; [done..|]. tauto. }
    destruct (decide (total (λ s, match s with Placing o w => tag (σ o) id w | HoldsPermit _ _ => 0 end) (submissions q) = 0)) as [E1|(s & Hs & Hn)%total_witness].
    2: { destruct s as [|o w]; [done|]. pose proof (proj1 (Forall_forall _ _) (wf_submissions q W) _ Hs) as [? _].
         apply (Hgo o w); auto. }
    destruct (decide (total (λ l, total (tag (has_storage l) id) (pending l)) (objects q) = 0)) as [E2|(l & Hl & Hn)%total_witness].
    2: { apply total_witness in Hn as (w & Hw & [Hst Hid]%tag_positive). apply list_elem_of_lookup in Hl as [o Ho].
         exists o, l, w. auto 10. }
    destruct (decide (total (λ t, match t with Running o w => tag (σ o) id w | _ => 0 end) (tasks q) = 0)) as [E3|(s & Hs & Hn)%total_witness].
    2: { destruct s as [o w| | |]; try done. pose proof (proj1 (Forall_forall _ _) (wf_tasks q W) _ Hs) as [? _].
         apply (Hgo o w); auto. }
    assert (total (λ t, tag (σ (t_object t)) id (t_wrapper t)) (timers q) ≠ 0) as (t & Ht & Hn)%total_witness by lia.
    pose proof (proj1 (Forall_forall _ _) (wf_timers q W) _ Ht) as [? _]. apply (Hgo (t_object t) (t_wrapper t)); eauto 10.
  - intros (o & l & w & Ho & Hst & Hid & Hin). pose proof (Hσ o l Ho) as Hs. rewrite Hst in Hs.
    assert (tag true id w ≠ 0) as Ht by (by apply tag_positive).
    destruct Hin as [Hin|[Hin|[Hin|(t & Hin & Hto & Htw)]]].
    + pose proof (total_elem (λ s, match s with Placing o w => tag (σ o) id w | HoldsPermit _ _ => 0 end) _ _ Hin) as H.
      cbn beta iota in H. rewrite <- Hs in H. lia.
    + pose proof (total_elem (tag (has_storage l) id) _ _ Hin) as H1.
      pose proof (total_elem (λ l, total (tag (has_storage l) id) (pending l)) _ _ (list_elem_of_lookup_2 _ _ _ Ho)) as H2.
      cbn beta in H2. rewrite Hst in *. lia.
    + pose proof (total_elem (λ t, match t with Running o w => tag (σ o) id w | _ => 0 end) _ _ Hin) as H.
      cbn beta iota in H. rewrite <- Hs in H. lia.
    + pose proof (total_elem (λ t, tag (σ (t_object t)) id (t_wrapper t)) _ _ Hin) as H.
      cbn beta in H. rewrite Hto, Htw, <- Hs in H. lia.
Qed.

Definition stores q (o : nat) : bool := match objects q !! o with Some l => has_storage l | None => false end.

Lemma stores_of q : storage_of (stores q) q.
Proof. intros o l Ho. unfold stores. by rewrite Ho. Qed.

Lemma kept_calls n q id : reachable n q → panicked q = [] → saves q id ≤ 1 →
  is_Some (commands (after_calls empty_storage (storage_calls q)).1 !! id) ↔ removals q id < saves q id.
Proof.
  intros Hr. revert id. induction Hr as [|q a Hr IH Ha]; intros id Hp Hone.
  { unfold saves, removals. simpl. rewrite lookup_empty. split; [by intros []|lia]. }
  assert (panicked q = []) as Hp0.
  { destruct (panicked q) as [|p ps] eqn:E; [done|]. exfalso.
    assert (p ∈ panicked (exec q a)) as Hin by (apply exec_keeps_panicked; rewrite E; by left).
    rewrite Hp in Hin. by apply not_elem_of_nil in Hin. }
  pose proof (storage_balanced n q Hr (stores q) (stores_of q) Hp0 id) as B0.
  pose proof (storage_balanced n (exec q a) (reachable_exec _ _ _ Hr Ha) (stores (exec q a)) (stores_of _) Hp id) as B1.
  destruct (exec_calls q a) as (cs & Ecs & Hlen).
  unfold after_calls in *. rewrite Ecs, foldl_app. set (acc := foldl after_call (empty_storage, true) (storage_calls q)) in *.
  unfold saves, removals in *. rewrite Ecs in *. rewrite !sum_list_with_app in *.
  destruct cs as [|[o c] [|]]; [|clear Hlen|simpl in Hlen; lia].
  { cbn [foldl sum_list_with] in *. rewrite !Nat.add_0_r in *. by apply IH. }
  cbn [foldl]. destruct acc as [s b]. rewrite after_call_commands. cbn [fst snd] in *.
  destruct c as [id' ct lane t|id']; cbn [sum_list_with snd] in *; rewrite !Nat.add_0_r in *;
    (destruct (String.eqb_spec id' id) as [->|Hne]; [change (ind true) with 1 in *|change (ind false) with 0 in *]).
  - rewrite lookup_insert_eq. split; [lia|by eexists].
  - rewrite lookup_insert_ne, !Nat.add_0_r in * by done. by apply IH.
  - rewrite lookup_delete_eq. split; [by intros []|lia].
  - rewrite lookup_delete_ne, !Nat.add_0_r in * by done. by apply IH.
Qed.

(** The storage holds the commands that are not answered yet.  In every
    reachable state of a queue without panics whose command ids are unique, a
    fresh [LocalStorage] that gets the calls of the lanes has a command of an
    id exactly if the queue still owns one in a lane with a storage: it is
    being submitted, waits, executes or sleeps before a retry.  If all calls
    succeeded, a process that starts on the files has just these. *)
Theorem storage_keeps_unanswered n q : reachable n q → panicked q = [] → (∀ id, saves q id ≤ 1) →
  json_value empty_object →
  let '(s, acknowledged) := after_calls empty_storage (storage_calls q) in
  (∀ id, is_Some (commands s !! id) ↔ unanswered q id) ∧
  (acknowledged = true → ∃ s', local_storage_new None s = Ok s' ∧ commands s' = commands s).
Proof.
  intros Hr Hp Hone He. destruct (after_calls empty_storage (storage_calls q)) as [s ok] eqn:E. split.
  - intros id. pose proof (kept_calls n q id Hr Hp (Hone id)) as H. rewrite E in H. cbn [fst] in H. rewrite H.
    rewrite <- (kept_unanswered (stores q) q id (wf_reachable n q Hr) (stores_of q)).
    pose proof (storage_balanced n q Hr (stores q) (stores_of q) Hp id). lia.
  - intros ->. pose proof (after_calls_on_file empty_storage (storage_calls q) He) as H. rewrite E in H. cbn [fst snd] in H.
    destruct H as [Hc _]; [intros id c Hc; simpl in Hc; by rewrite lookup_empty in Hc|done|done|].
    eexists. split; [done|]. exact Hc.
Qed.
End files.
