(* ===== verification/LaneDrain.v ===== *)
(** * A lane queue can always drain

    From every reachable state in which no command has panicked and whose
    lanes are registered, unthrottled and of positive concurrency, the
    scheduler and commands that succeed empty the queue: every step of a
    suitable continuation reduces a measure of the work left. *)
From S2P Require Import Prelude Ordering External Retry DeadLetter RateLimit Boost LaneTypes LaneQueue LaneInvariant LaneRules LaneSchedule Sums.
Local Open Scope nat_scope.

Section drain.
Context {X : Ext}.
Implicit Types (q : CommandQueue) (l : Lane) (w : CommandWrapper).

(** What the queue does by itself and what succeeding commands make it do:
    no new submissions, no failures. *)
Definition cooperative (a : Action) : Prop :=
  match a with
  | ActLocate _ _ _ | ActPlace _ _ | ActComplete _ | ActRelease _ | ActFire _ => True
  | ActFinish _ (Some (Ok _)) _ => True
  | _ => False
  end.

Inductive advances q : CommandQueue → Prop :=
| advances_round now : advances q (scheduler_round q now).1
| advances_action a : cooperative a → advances q (exec q a).

(** Steps left: submission, push, start, result, completion, release. *)
Definition work_left q : nat :=
  total (λ s, match s with HoldsPermit _ _ => 6 | Placing _ _ => 5 end) (submissions q)
  + total (λ l, 4 * length (pending l)) (objects q)
  + total (λ t, match t with Running _ _ => 3 | Finished _ _ => 2 | Retrying _ | Released _ => 1 end) (tasks q)
  + 5 * length (timers q).

(** The part of a lane no operation changes here, and the demand on it. *)
Definition fixed_part l : string * LaneConfig * RateLimiter * option PriorityBoostConfig :=
  (lane_id l, config l, rate_limiter l, booster l).

Definition serviced q : Prop :=
  panicked q = [] ∧
  ∀ o l, objects q !! o = Some l →
    lanes q !! lane_id l = Some o ∧ 1 ≤ max_concurrency (config l) ∧ rate_limiter l = Unlimited ∧ booster l = None.

Definition same_lanes q q' : Prop :=
  fixed_part <$> objects q' = fixed_part <$> objects q ∧ lanes q' = lanes q ∧ panicked q' = panicked q.

Lemma same_lanes_trans q1 q2 q3 : same_lanes q1 q2 → same_lanes q2 q3 → same_lanes q1 q3.
Proof. unfold same_lanes. intuition congruence. Qed.

Lemma serviced_same q q' : same_lanes q q' → serviced q → serviced q'.
Proof.
  intros (Hob & Hl & Hp) [Hn Hs]. split; [congruence|]. intros o l Ho. rewrite Hl.
  assert (fixed_part <$> objects q' !! o = fixed_part <$> objects q !! o) as E by (by rewrite <- !list_lookup_fmap, Hob).
  rewrite Ho in E. destruct (objects q !! o) as [l0|] eqn:Ho0; [|done]. simpl in E. apply (inj Some) in E.
  unfold fixed_part in E. injection E as E1 E2 E3 E4. rewrite E1, E2, E3, E4. by apply Hs.
Qed.

Lemma insert_fixed q o l l' : objects q !! o = Some l → fixed_part l' = fixed_part l →
  fixed_part <$> <[o := l']> (objects q) = fixed_part <$> objects q.
Proof. intros Ho E. rewrite list_fmap_insert, E, <- list_fmap_insert. by rewrite list_insert_id. Qed.

(** ** One lane-level step of the scheduler *)
Lemma pressure_work q id o now : work_left (pressure q id o now) = work_left q ∧ same_lanes q (pressure q id o now).
Proof.
  unfold pressure. destruct (objects q !! o) as [l|] eqn:Ho; [|done].
  assert (∀ l', pending l' = pending l → fixed_part l' = fixed_part l →
    work_left (q <| objects ::= <[o:=l']> |>) = work_left q ∧ same_lanes q (q <| objects ::= <[o:=l']> |>)) as H.
  { intros l' Hp Hf. split; [|by split_and!; [by apply (insert_fixed q o l)|..]].
    unfold work_left, upd. reduce. totals. reduce_all. rewrite Hp in *. lia. }
  unfold check_pressure. destruct (pressure_threshold (config l)) as [n|]; [|by apply H].
  destruct (_ && _); [by apply (H (l <| is_pressured := true |>))|].
  destruct (_ && _); [by apply (H (l <| is_pressured := false |>))|by apply H].
Qed.

Lemma pressures_work q es now :
  work_left (foldl (λ q e, pressure q e.1 e.2 now) q es) = work_left q ∧
  same_lanes q (foldl (λ q e, pressure q e.1 e.2 now) q es).
Proof.
  revert q. induction es as [|e es IH]; intros q; [done|]. simpl.
  destruct (pressure_work q e.1 e.2 now) as [H1 H2], (IH (pressure q e.1 e.2 now)) as [H3 H4].
  split; [lia|by eapply same_lanes_trans].
Qed.

Lemma dequeue_work q o now : serviced q →
  work_left (dequeue q o now).1 + ind (dequeue q o now).2 = work_left q ∧ same_lanes q (dequeue q o now).1.
Proof.
  intros [_ Hs]. unfold dequeue. destruct (objects q !! o) as [l|] eqn:Ho; [|done].
  destruct (Hs o l Ho) as (_ & _ & Hr & _). unfold try_dequeue. rewrite Hr. simpl.
  assert (l <| rate_limiter := Unlimited |> = l) as Hl by (destruct l; simpl in *; by subst). rewrite Hl.
  assert (q <| objects ::= <[o:=l]> |> = q) as Hq.
  { destruct q. unfold upd. reduce. by rewrite list_insert_id. }
  destruct (has_capacity l && has_pending l); [|cbn [fst snd]; rewrite Hq; unfold ind; split; [lia|done]].
  destruct (pending l) as [|w ws] eqn:Hp; simpl.
  - split; [|by split_and!; [by apply (insert_fixed q o l)|..]].
    unfold work_left, upd. reduce. totals. reduce_all. rewrite Hp in *. unfold ind. simpl in *. lia.
  - split; [|by split_and!; [by apply (insert_fixed q o l)|..]].
    unfold work_left, emit, upd. reduce. totals. reduce_all. rewrite Hp in *. unfold ind. simpl in *. lia.
Qed.

Lemma dispatch_work q os now : serviced q →
  work_left (dispatch_first q os now).1 + ind (dispatch_first q os now).2 = work_left q ∧
  same_lanes q (dispatch_first q os now).1.
Proof.
  revert q. induction os as [|o os IH]; intros q Hs; simpl; [unfold ind; split; [lia|done]|].
  pose proof (dequeue_work q o now Hs) as [H1 H2]. destruct (dequeue q o now) as [q1 b]. simpl in *.
  destruct b; [done|]. destruct (IH q1 (serviced_same q q1 H2 Hs)) as [H3 H4].
  change (ind false) with 0 in H1. split; [lia|by eapply same_lanes_trans].
Qed.

(** A round either leaves the work as it is or starts one command. *)
Lemma round_work q now : serviced q →
  let '(q', round) := schedule_next q now in
  same_lanes q q' ∧ work_left q' + match round with RoundStarted => 1 | _ => 0 end = work_left q.
Proof.
  intros Hs. unfold schedule_next.
  destruct (pressures_work q (hash_iter (lanes q)) (utc now)) as [H1 H2]. set (q1 := foldl _ q _) in *.
  destruct (mapM _ _) as [ps|]; [|split; [done|lia]].
  destruct (dispatch_work q1 (sort_by by_priority ps).*2 now (serviced_same q q1 H2 Hs)) as [H3 H4].
  destruct (dispatch_first _ _ _) as [q' b]. simpl in *.
  split; [by eapply same_lanes_trans|]. destruct b; unfold ind in *; lia.
Qed.

(** ** Progress *)
Lemma with_object_work q o l f : objects q !! o = Some l → fixed_part (f l) = fixed_part l →
  work_left (with_object q o f) + 4 * length (pending l) = work_left q + 4 * length (pending (f l)) ∧
  same_lanes q (with_object q o f).
Proof.
  intros Ho Hf. rewrite (with_object_some q o f l) by done.
  split; [|by split_and!; [by apply (insert_fixed q o l)|..]].
  unfold work_left, upd. reduce. totals. reduce_all. lia.
Qed.

Lemma object_of q o : o < length (objects q) → ∃ l, objects q !! o = Some l.
Proof. intros H. by apply lookup_lt_is_Some in H as [l ?]; eauto. Qed.

(** While a submission, a timer or a task exists, one of them can take a step. *)
Lemma submission_advances n q s ss : reachable n q → submissions q = s :: ss →
  ∃ a, cooperative a ∧ action_ok a ∧ work_left (exec q a) < work_left q ∧ same_lanes q (exec q a).
Proof.
  intros H E. pose proof (wf_reachable n q H) as W. assert (submissions q !! 0 = Some s) as H0 by (by rewrite E).
  destruct s as [id ct|o w].
  - exists (ActLocate 0 "" 0%Z). split; [done|]. split; [done|]. simpl. unfold locate. rewrite H0.
    destruct (lanes q !! id ≫= _) as [[o l]|]; simpl.
    + unfold store. destruct (has_storage l); (split; [|done]); unfold work_left, upd; reduce; totals; reduce_all; lia.
    + split; [|done]. unfold work_left, upd. reduce. totals. reduce_all. lia.
  - exists (ActPlace 0 0%Z). split; [done|]. split; [done|]. simpl. unfold place. rewrite H0.
    destruct (Forall_lookup_1 _ _ _ _ (wf_submissions q W) H0) as [Hlt _].
    destruct (object_of q o Hlt) as [l Ho]. set (q1 := q <| submissions ::= delete 0 |>).
    assert (work_left q1 + 5 = work_left q) as H1.
    { unfold q1, work_left, upd. reduce. totals. reduce_all. lia. }
    destruct (with_object_work q1 o l (λ l, push_pending l w)) as [H2 H3]; [done..|].
    assert (length (pending (push_pending l w)) = S (length (pending l))) as H4.
    { unfold push_pending, upd. simpl. rewrite length_app. simpl. lia. }
    destruct (w_permit w); (split; [|by eapply same_lanes_trans; [|exact H3]]).
    + change (work_left (with_object q1 o (λ l, push_pending l w)) < work_left q). lia.
    + lia.
Qed.

Lemma timer_advances n q t ts : reachable n q → timers q = t :: ts →
  ∃ a, cooperative a ∧ action_ok a ∧ work_left (exec q a) < work_left q ∧ same_lanes q (exec q a).
Proof.
  intros H E. pose proof (wf_reachable n q H) as W. assert (timers q !! 0 = Some t) as H0 by (by rewrite E).
  exists (ActFire 0). split; [done|]. split; [done|]. simpl. unfold fire. rewrite H0.
  destruct (Forall_lookup_1 _ _ _ _ (wf_timers q W) H0) as [Hlt _].
  destruct (object_of q (t_object t) Hlt) as [l Ho]. set (q1 := q <| timers ::= delete 0 |>).
  assert (work_left q1 + 5 = work_left q) as H1.
  { unfold q1, work_left, upd. reduce. rewrite E. simpl. lia. }
  destruct (with_object_work q1 (t_object t) l (λ l, retry_fires l (t_wrapper t))) as [H2 H3]; [done..|].
  assert (length (pending (retry_fires l (t_wrapper t))) = S (length (pending l))) as H4.
  { unfold retry_fires, push_pending, upd. simpl. rewrite length_app. simpl. lia. }
  split; [lia|by eapply same_lanes_trans; [|exact H3]].
Qed.

Lemma task_advances n q t ts : reachable n q → tasks q = t :: ts →
  ∃ a, cooperative a ∧ action_ok a ∧ work_left (exec q a) < work_left q ∧ same_lanes q (exec q a).
Proof.
  intros H E. pose proof (wf_reachable n q H) as W. assert (tasks q !! 0 = Some t) as H0 by (by rewrite E).
  pose proof (Forall_lookup_1 _ _ _ _ (wf_tasks q W) H0) as Hok.
  destruct t as [o w|o w|o|p]; simpl in Hok.
  - destruct Hok as [Hlt _]. destruct (object_of q o Hlt) as [l Ho].
    exists (ActFinish 0 (Some (Ok VNull)) 0%Z). split; [done|]. split; [done|]. simpl. unfold finish. rewrite H0, Ho. simpl.
    unfold task_succeeds, store. destruct (has_storage l); (split; [|done]); unfold work_left, upd; reduce;
      totals; reduce_all; lia.
  - destruct (object_of q o Hok) as [l Ho]. exists (ActComplete 0). split; [done|]. split; [done|]. simpl.
    unfold complete. rewrite H0. set (q1 := q <| tasks ::= <[0 := Released (w_permit w)]> |>).
    assert (work_left q1 + 1 = work_left q) as H1. { unfold q1, work_left, upd. reduce. totals. reduce_all. lia. }
    destruct (with_object_work q1 o l mark_completed) as [H2 H3]; [done..|].
    change (pending (mark_completed l)) with (pending l) in H2. split; [lia|by eapply same_lanes_trans; [|exact H3]].
  - destruct (object_of q o Hok) as [l Ho]. exists (ActComplete 0). split; [done|]. split; [done|]. simpl.
    unfold complete. rewrite H0. set (q1 := q <| tasks ::= delete 0 |>).
    assert (work_left q1 + 1 = work_left q) as H1. { unfold q1, work_left, upd. reduce. totals. reduce_all. lia. }
    destruct (with_object_work q1 o l mark_completed) as [H2 H3]; [done..|].
    change (pending (mark_completed l)) with (pending l) in H2. split; [lia|by eapply same_lanes_trans; [|exact H3]].
  - exists (ActRelease 0). split; [done|]. split; [done|]. simpl. unfold release. rewrite H0.
    destruct p; (split; [|done]); unfold work_left, drop_permit, upd; reduce; totals; reduce_all; lia.
Qed.

(** With nothing in progress, a lane with pending commands is started by a round. *)
Lemma round_advances `{!ExtLaws X} n q now o l w ws : reachable n q → serviced q → tasks q = [] →
  objects q !! o = Some l → pending l = w :: ws →
  same_lanes q (scheduler_round q now).1 ∧ work_left (scheduler_round q now).1 < work_left q.
Proof.
  intros H Hs Ht Ho Hp. pose proof Hs as [Hpan Hl]. destruct (Hl o l Ho) as (Hid & Hmax & Hr & Hb).
  destruct (wf_lanes q (wf_reachable n q H) o l Ho) as [Ha _ _ _ _].
  assert (offers q (instant now) o = true) as Hoff.
  { unfold offers, lane_offers. rewrite Ho, Hr. simpl. unfold has_capacity, has_pending. rewrite Hp.
    unfold held_slots, lost_slots in Ha. rewrite Ht, Hpan in Ha. simpl in Ha. rewrite Ha, andb_true_r.
    apply Nat.ltb_lt. lia. }
  pose proof (schedule_next_most_urgent n q now H) as HS. pose proof (round_work q now Hs) as HW.
  unfold scheduler_round. destruct (schedule_next q now) as [q' round]. destruct HW as [Hsame HW].
  destruct round.
  - destruct HS as [_ HS]. by rewrite (HS _ _ Hid) in Hoff.
  - unfold scheduler_exit. destruct (_ && _); simpl; (split; [exact Hsame|]).
    + change (work_left q' < work_left q). lia.
    + lia.
  - destruct HS as (_ & id' & o' & l' & _ & Ho' & He). destruct (Hl o' l' Ho') as (_ & _ & _ & Hb').
    unfold effective_priority in He. by rewrite Hb' in He.
Qed.

Lemma no_work q : work_left q = 0 →
  submissions q = [] ∧ tasks q = [] ∧ timers q = [] ∧ Forall (λ l, pending l = []) (objects q).
Proof.
  intros H. split_and!.
  - unfold work_left in H. by destruct (submissions q) as [|[]].
  - unfold work_left in H. destruct (tasks q) as [|t ts]; [done|]. cbn [sum_list_with] in H. destruct t; lia.
  - unfold work_left in H. destruct (timers q); cbn [length] in H; [done|lia].
  - assert (total (λ l, 4 * length (pending l)) (objects q) = 0) as H0 by (unfold work_left in H; lia).
    apply total_zero_inv in H0. eapply Forall_impl; [exact H0|]. intros l E. apply nil_length_inv.
    cbv beta in E. lia.
Qed.

Lemma can_advance `{!ExtLaws X} n q : reachable n q → serviced q → work_left q ≠ 0 →
  ∃ q', advances q q' ∧ reachable n q' ∧ serviced q' ∧ work_left q' < work_left q.
Proof.
  intros H Hs Hw.
  assert ((∃ a, cooperative a ∧ action_ok a ∧ work_left (exec q a) < work_left q ∧ same_lanes q (exec q a)) →
    ∃ q', advances q q' ∧ reachable n q' ∧ serviced q' ∧ work_left q' < work_left q) as Hact.
  { intros (a & Hc & Ha & Hlt & Hsame). exists (exec q a).
    split_and!; [by constructor|by constructor|by eapply serviced_same|done]. }
  destruct (submissions q) as [|s ss] eqn:E1; [|by apply Hact; eapply submission_advances].
  destruct (timers q) as [|t ts] eqn:E2; [|by apply Hact; eapply timer_advances].
  destruct (tasks q) as [|t ts] eqn:E3; [|by apply Hact; eapply task_advances].
  assert (total (λ l, 4 * length (pending l)) (objects q) ≠ 0) as Hpe.
  { unfold work_left in Hw. rewrite E1, E2, E3 in Hw. cbn [sum_list_with length] in Hw. lia. }
  apply total_witness in Hpe as (l & Hin & Hne). apply list_elem_of_lookup in Hin as [o Ho].
  destruct (pending l) as [|w ws] eqn:Hp; [by simpl in Hne|].
  set (now := mkClock 0 0). destruct (round_advances n q now o l w ws H Hs E3 Ho Hp) as [Hsame Hlt].
  exists (scheduler_round q now).1. split_and!; [constructor| |by eapply serviced_same|done].
  pose proof (reachable_schedule n q now H) as Hr. unfold scheduler_round in *.
  destruct (schedule_next q now) as [q' []]; simpl in *; try done; by apply reachable_exit.
Qed.

Lemma no_work_idle `{!ExtLaws X} n q : reachable n q → serviced q → work_left q = 0 →
  is_idle q = true ∧ ∀ tx, tx < next_tx q → answers q tx = 1.
Proof.
  intros H [Hpan _] Hw. pose proof (wf_reachable n q H) as W. destruct (no_work q Hw) as (Hs & Ht & Htm & Hp).
  assert (∀ f : CommandWrapper → nat, total (λ l, total f (pending l)) (objects q) = 0) as Hz.
  { intros f. apply total_zero. eapply Forall_impl; [exact Hp|]. intros l E. simpl in E. by rewrite E. }
  split.
  - unfold is_idle. rewrite (wf_outstanding q W). unfold permits. rewrite Hs, Ht, Htm, Hz. simpl.
    rewrite forallb_forall. intros o Hin%list_elem_of_In%elem_of_hash_values. destruct Hin as [id Hid].
    destruct (wf_names q W id o Hid) as (l & Ho & _). unfold object_is_idle. rewrite Ho.
    destruct (wf_lanes q W o l Ho) as [Ha _ Hd _ _]. unfold held_slots, lost_slots, sleeping in *.
    rewrite Ht, Hpan in Ha. rewrite Htm in Hd. simpl in *. unfold lane_is_idle, has_pending. rewrite Ha, Hd.
    rewrite Forall_forall in Hp. by rewrite (Hp l) by (by eapply list_elem_of_lookup_2).
  - intros tx Htx. pose proof (wf_channels q W tx) as Hc. unfold owned, losses in Hc.
    rewrite Hs, Ht, Htm, Hz, Hpan in Hc. unfold ind in Hc. destruct (Nat.ltb_spec tx (next_tx q)); simpl in *; lia.
Qed.

(** C15: lanes that can work do not get stuck.  From every reachable state in
    which no command has panicked and every lane is registered, has room for at
    least one command, no rate limit and no booster, rounds of the scheduler
    and steps of submissions, timers and succeeding commands lead to a state
    that [is_idle] recognises, in which every submitted command has been
    answered exactly once, in at most [work_left] steps. *)
Theorem queue_can_drain `{!ExtLaws X} n q : reachable n q → serviced q →
  ∃ k q', k ≤ work_left q ∧ nsteps advances k q q' ∧ is_idle q' = true ∧ ∀ tx, tx < next_tx q' → answers q' tx = 1.
Proof.
  remember (work_left q) as m eqn:Em. revert q Em. induction (lt_wf m) as [m _ IH]. intros q -> H Hs.
  destruct (decide (work_left q = 0)) as [E|E].
  - exists 0, q. split; [lia|]. split; [constructor|]. by apply (no_work_idle n).
  - destruct (can_advance n q H Hs E) as (q1 & Hadv & H1 & Hs1 & Hlt).
    destruct (IH _ Hlt q1 eq_refl H1 Hs1) as (k & q' & Hk & Hsteps & Hidle).
    exists (S k), q'. split; [lia|]. split; [by econstructor|done].
Qed.
End drain.
