(* ===== verification/LaneExamples.v ===== *)
(** * The lane queue on a concrete run

    Two lanes, three commands, a retry, a failure and a panic: the states the
    theorems of the lane queue are applied to. *)
From S2P Require Import Prelude Ordering External Retry Storage DeadLetter RateLimit Boost LaneTypes LaneQueue LaneInvariant LaneRules LaneSchedule LaneStorage LaneDrain Sums.
Local Open Scope nat_scope.

#[local] Existing Instance demo_ext.

Definition bulk_config : LaneConfig :=
  with_timeout (with_retry_policy (lane_config_new 1 1) (Retry.fixed 1 (from_millis 50))) (from_secs 2).
Definition at_ (t : Z) : Clock := mkClock t t.

Definition submits (id : string) (cid : string) (now : Z) : list Action :=
  [ActAdmit id "demo"; ActLocate 0 cid now; ActPlace 0 now].

(** Lane [bulk] of priority 5 has one slot and one retry, lane [fast] comes first. *)
Definition setup : list Action :=
  [ActCreate "bulk" bulk_config 5 true 0; ActRegister 0;
   ActCreate "fast" (lane_config_new 1 2) 0 false 0; ActRegister 1]
  ++ submits "bulk" "c1" 1 ++ submits "bulk" "c2" 2.

Definition loaded : CommandQueue := run (queue_new (Some 1)) setup.
Definition working : CommandQueue := exec loaded (ActDequeue 0 (at_ 3)).

Lemma setup_ok : Forall action_ok setup.
Proof. repeat constructor; vm_compute; discriminate. Qed.

Lemma loaded_reachable : reachable (Some 1) loaded.
Proof. apply queue_reachable_run; [constructor|apply setup_ok]. Qed.

Lemma working_reachable : reachable (Some 1) working.
Proof. apply reachable_exec; [apply loaded_reachable|done]. Qed.

(** The first attempt of [c1] fails, is retried and fails again. *)
Definition retried : CommandQueue :=
  run working [ActFinish 0 None 4; ActComplete 0; ActFire 0; ActDequeue 0 (at_ 60);
               ActFinish 0 (Some (Ok "done")) 61; ActComplete 0; ActRelease 0; ActDequeue 0 (at_ 62)].

Lemma retried_reachable : reachable (Some 1) retried.
Proof. apply queue_reachable_run; [apply working_reachable|]. by repeat constructor. Qed.

Example retried_order :
  delivered retried = [(1, Ok "done")] ∧ w_id <$> (objects retried ≫= pending) = [] ∧
  (λ t, match t with Running o w => Some (o, w_id w, w_attempt w) | _ => None end) <$> tasks retried =
    [Some (0, "c1", 1%Z)].
Proof. vm_compute. done. Qed.

Definition lane_of (q : CommandQueue) (o : nat) : Lane :=
  default (lane_new "" (lane_config_new 0 0) 0 false 0) (objects q !! o).

Lemma lane_concurrency_bound_witness :
  running_on working 0 = 1 ∧
  running_on working 0 ≤ active (lane_of working 0) ≤ max_concurrency (config (lane_of working 0)) ∧
  active (lane_of working 0) = held_slots working 0 + lost_slots working 0.
Proof.
  split; [vm_compute; reflexivity|].
  apply (lane_concurrency_bound (Some 1) working 0 (lane_of working 0) working_reachable). vm_compute. reflexivity.
Defined.

Lemma exactly_once_witness :
  owned retried 0 = 1 ∧ answers retried 1 = 1 ∧
  owned retried 1 + answers retried 1 + losses retried 1 = 1.
Proof.
  split; [vm_compute; reflexivity|]. split; [vm_compute; reflexivity|].
  apply (exactly_once (Some 1) retried 1 retried_reachable). vm_compute. lia.
Defined.

(** Everything is done: [c1] failed for good. *)
Definition finished : CommandQueue :=
  run retried [ActFinish 0 (Some (Err (CommandError "boom"))) 70; ActComplete 0; ActRelease 0].

Lemma finished_reachable : reachable (Some 1) finished.
Proof. apply queue_reachable_run; [apply retried_reachable|]. by repeat constructor. Qed.

Lemma idle_means_done_witness :
  is_idle finished = true ∧ delivered finished = [(1, Ok "done"); (0, Err (CommandError "boom"))] ∧
  (∀ w, in_flight finished w → w_permit w = false).
Proof.
  assert (is_idle finished = true) as Hi by (vm_compute; reflexivity).
  split; [exact Hi|]. split; [vm_compute; reflexivity|].
  exact (proj1 (proj2 (proj2 (idle_means_done (Some 1) finished finished_reachable Hi)))).
Defined.

Lemma shutdown_is_final_witness :
  submit (run (shutdown working 5) [ActPanic 0; ActDequeue 0 (at_ 6)]) "fast" "c9" "demo" 7 =
    (run (shutdown working 5) [ActPanic 0; ActDequeue 0 (at_ 6)], Err ShutdownInProgress).
Proof.
  apply (shutdown_is_final (Some 1) working 5 [ActPanic 0; ActDequeue 0 (at_ 6)] working_reachable).
  by repeat constructor.
Defined.

(** The wrapper of the task that executes. *)
Definition running_wrapper (q : CommandQueue) : CommandWrapper :=
  match tasks q with
  | Running _ w :: _ => w
  | _ => new_wrapper (lane_of q 0) "" "" false 0 0
  end.

Lemma attempt_outcome_witness :
  timers (finish working 0 None 4) =
    timers working ++ [mkTimer 0 ((running_wrapper working) <| w_attempt := 1%Z |>) (from_millis 50)] ∧
  dlq (finish retried 0 (Some (Err (CommandError "boom"))) 70) =
    Some (DeadLetter.mkDlq [DeadLetter.mkLetter "c1" "demo" "bulk" "Command execution error: boom" 2 70] 1).
Proof.
  split.
  - pose proof (attempt_outcome (Some 1) working 0 0 (running_wrapper working) None
      (Err (Timeout_ (from_secs 2))) 4 working_reachable) as H.
    assert (tasks working !! 0 = Some (Running 0 (running_wrapper working))) as H1 by (vm_compute; reflexivity).
    specialize (H H1 eq_refl). vm_compute in H |- *. apply H.
  - pose proof (attempt_outcome (Some 1) retried 0 0 (running_wrapper retried) (Some (Err (CommandError "boom")))
      (Err (CommandError "boom")) 70 retried_reachable) as H.
    assert (tasks retried !! 0 = Some (Running 0 (running_wrapper retried))) as H1 by (vm_compute; reflexivity).
    specialize (H H1 eq_refl). vm_compute in H |- *. apply H.
Defined.

(** A round prefers the lane with the smaller number once it has work. *)
Definition contended : CommandQueue := run loaded (submits "fast" "c3" 3).

Lemma contended_reachable : reachable (Some 1) contended.
Proof. apply queue_reachable_run; [apply loaded_reachable|]. by repeat constructor. Qed.

Lemma schedule_next_most_urgent_witness :
  (λ t, match t with Running o w => Some (o, w_id w) | _ => None end) <$> tasks (schedule_next contended (at_ 4)).1 =
    [Some (1, "c3")] ∧
  match (schedule_next contended (at_ 4)).2 with
  | RoundStarted =>
      ∃ id o l w ws p, lanes contended !! id = Some o ∧ objects contended !! o = Some l ∧ pending l = w :: ws ∧
        offers contended 4 o = true ∧ effective_priority l 4 = Some p ∧
        tasks (schedule_next contended (at_ 4)).1 = tasks contended ++ [Running o w] ∧
        ∀ id' o' l' p', lanes contended !! id' = Some o' → objects contended !! o' = Some l' →
          effective_priority l' 4 = Some p' → (p' < p)%Z → offers contended 4 o' = false
  | _ => False
  end.
Proof.
  split; [vm_compute; reflexivity|].
  assert ((schedule_next contended (at_ 4)).2 = RoundStarted) as Hr by (vm_compute; reflexivity).
  pose proof (schedule_next_most_urgent (Some 1) contended (at_ 4) contended_reachable) as H.
  destruct (schedule_next contended (at_ 4)) as [q' r]. simpl in Hr. subst r. exact H.
Defined.

Lemma panic_leaks_slot_witness :
  is_idle (run (exec working (ActPanic 0)) []) = false ∧
  running_on (run (exec working (ActPanic 0)) []) 0 < max_concurrency (config (lane_of (exec working (ActPanic 0)) 0)).
Proof.
  assert (reachable (Some 1) (exec working (ActPanic 0))) as Hr by (apply reachable_exec; [apply working_reachable|done]).
  assert ((0, 0) ∈ panicked (exec working (ActPanic 0))) as Hp by (vm_compute; left).
  apply (panic_leaks_slot (Some 1) (exec working (ActPanic 0)) [] 0 0 "bulk"
    (lane_of (exec working (ActPanic 0)) 0) Hr (Forall_nil_2 _) Hp); vm_compute; reflexivity.
Defined.

Lemma working_serviced : serviced working.
Proof.
  split; [vm_compute; reflexivity|]. intros o l Ho.
  assert (o < 2) as Hlt by (apply lookup_lt_Some in Ho; vm_compute in Ho; lia).
  destruct o as [|[|o]]; [| |lia]; vm_compute in Ho; injection Ho as <-; vm_compute; split_and!; (done || lia).
Qed.

Lemma queue_can_drain_witness :
  work_left working = 7 ∧
  ∃ k q', k ≤ work_left working ∧ nsteps advances k working q' ∧ is_idle q' = true ∧
    ∀ tx, tx < next_tx q' → answers q' tx = 1.
Proof.
  split; [vm_compute; reflexivity|]. exact (queue_can_drain (Some 1) working working_reachable working_serviced).
Defined.

(** Polling an empty lane takes a token of its rate limiter: a lane limited to
    one command per hour has none left for the first command that arrives. *)
Example empty_poll_takes_token :
  let limited := lane_new "l" (with_rate_limit (lane_config_new 1 1) (per_hour 1)) 0 false 0 in
  let w := new_wrapper limited "c" "demo" true 0 5 in
  (try_dequeue (push_pending limited w) 10).2 = Some w ∧
  (try_dequeue limited 5).2 = None ∧
  (try_dequeue (push_pending (try_dequeue limited 5).1 w) 10).2 = None.
Proof. vm_compute. done. Qed.

(** ** A storage *)

(** Texts that are what they encode. *)
Definition plain_codec : @StorageCodec demo_ext := {|
  JsonText := list (@StoredCommand demo_ext) + list StoredDeadLetter;
  commands_to_json := λ l, Ok (inl l);
  commands_from_json := λ t, match t with inl l => Ok l | inr _ => Err "invalid type" end;
  letters_to_json := λ l, Ok (inr l);
  letters_from_json := λ t, match t with inr l => Ok l | inl _ => Err "invalid type" end;
|}.
#[local] Existing Instance plain_codec.
#[local] Instance plain_codec_laws : StorageCodecLaws plain_codec.
Proof. refine {| json_value := λ _, True |}; [by intros l t _ [= <-]|by intros l t [= <-]]. Defined.

Definition command (id : string) : @StoredCommand demo_ext := mkStoredCommand id "demo" "bulk" ("{}" : @Value demo_ext) 0 5 None.
Definition one_stored : @LocalStorage demo_ext plain_codec := (save_command (command "a") empty_storage).1.

Lemma storage_is_durable_witness :
  let s := (save_command (command "b") one_stored).1 in
  (sc_lane_id <$> commands s !! "a") = Some "bulk" ∧ local_storage_new None s = Ok s.
Proof.
  split; [vm_compute; reflexivity|].
  apply (storage_is_durable one_stored (OpSave (command "b"))).
  - intros id c H. apply (lookup_insert_Some (∅ : gmap string (@StoredCommand demo_ext)) "a") in H as [[<- <-]|[_ H]].
    + by split.
    + discriminate H.
  - exact I.
  - apply (storage_durable empty_storage (OpSave (command "a"))); [by intros id c H|exact I|by split|reflexivity|discriminate].
  - reflexivity.
  - discriminate.
Defined.

(** A write that breaks off is reported to nobody (the lane ignores the error);
    the next process finds an empty storage and overwrites what was left. *)
Definition torn : @LocalStorage demo_ext plain_codec :=
  (save_command (command "b") (one_stored <| write_faults := [WriteBreaks "No space left on device" (Some (inr []))] |>)).1.

Example torn_file_is_forgotten :
  (match local_storage_new None torn with
   | Ok s => let s' := (save_command (command "c") s).1 in
       match local_storage_new None s' with Ok s'' => Some (sc_id <$> hash_values (commands s'')) | Err _ => None end
   | Err _ => None
   end) = Some ["c"].
Proof. vm_compute. reflexivity. Qed.

Lemma retried_ids cid : saves retried cid ≤ 1.
Proof.
  assert (omap (λ c : nat * StorageCall, match c.2 with SaveCommand i _ _ _ => Some i | _ => None end) (storage_calls retried)
    = ["c1"; "c2"]) as Hs by (vm_compute; reflexivity).
  unfold saves. enough (∀ l : list (nat * StorageCall),
    total (λ c, match c.2 with SaveCommand i _ _ _ => ind (String.eqb i cid) | _ => 0 end) l
    = total (λ i, ind (String.eqb i cid)) (omap (λ c, match c.2 with SaveCommand i _ _ _ => Some i | _ => None end) l)) as ->.
  - rewrite Hs. cbn [sum_list_with]. destruct (String.eqb_spec "c1" cid) as [E1|], (String.eqb_spec "c2" cid) as [E2|]; unfold ind; simpl; [congruence|lia..].
  - induction l as [|[o [i ct la ti|i]] l IH]; simpl; [done|by rewrite IH|done].
Qed.

Lemma storage_keeps_unanswered_witness :
  let r := after_calls ("{}" : @Value demo_ext) empty_storage (storage_calls retried) in
  r.2 = true ∧ sc_id <$> hash_values (commands r.1) = ["c1"] ∧ unanswered retried "c1".
Proof.
  split; [vm_compute; reflexivity|split; [vm_compute; reflexivity|]].
  pose proof (storage_keeps_unanswered ("{}" : @Value demo_ext) (Some 1) retried retried_reachable eq_refl retried_ids I) as H.
  assert (is_some (commands (after_calls ("{}" : @Value demo_ext) empty_storage (storage_calls retried)).1 !! "c1") = true) as Hc
    by (vm_compute; reflexivity).
  destruct (after_calls ("{}" : @Value demo_ext) empty_storage (storage_calls retried)) as [s ok].
  apply (proj1 H), is_some_true, Hc.
Defined.
