(* ===== verification/FloatOrder.v ===== *)
(** * The order of the doubles

    [partial_cmp] on [f64], [f64::min] and [f64::max], and what sorting a list
    of numbers without NaN gives: the element at a position is the order
    statistic of that rank. *)
From Stdlib Require Import Sorted.
From S2P Require Import Prelude Ordering Float64.
Local Open Scope Z_scope.

Definition is_nan (x : f64) : bool := match x with S754_nan => true | _ => false end.

Definition f64_MAX : f64 := S754_finite false 9007199254740991 971.
Definition f64_MIN : f64 := S754_finite true 9007199254740991 971.

(** [x.min(y)], [x.max(y)]: the other argument when one is NaN. *)
Definition f64_min (x y : f64) : f64 :=
  if is_nan x then y else if is_nan y then x else if f64_lt y x then y else x.
Definition f64_max (x y : f64) : f64 :=
  if is_nan x then y else if is_nan y then x else if f64_lt x y then y else x.

(** [a.partial_cmp(b).unwrap_or(Ordering::Equal)]. *)
Definition partial_cmp (x y : f64) : comparison := unwrap_or (SFcompare x y) Eq.

(** ** A total order that agrees with [partial_cmp] on numbers *)
Definition float_class (x : f64) : Z :=
  match x with
  | S754_nan => 3
  | S754_infinity s => if s then -2 else 2
  | S754_zero _ => 0
  | S754_finite s _ _ => if s then -1 else 1
  end.
Definition float_exponent (x : f64) : Z :=
  match x with S754_finite s _ e => if s then - e else e | _ => 0 end.
Definition float_mantissa (x : f64) : Z :=
  match x with S754_finite s m _ => if s then Zneg m else Zpos m | _ => 0 end.

Definition number_cmp : f64 → f64 → comparison :=
  cmp_then (cmp_on Z.compare float_class)
    (cmp_then (cmp_on Z.compare float_exponent) (cmp_on Z.compare float_mantissa)).

#[export] Instance lawful_number : LawfulCmp number_cmp := _.

Lemma compare_numbers x y : is_nan x = false → is_nan y = false → SFcompare x y = Some (number_cmp x y).
Proof.
  assert (∀ a b, (- a ?= - b) = CompOpp (a ?= b)) as Hopp by (intros a b; by rewrite Z.compare_opp, Z.compare_antisym).
  destruct x as [[]|[]| |[] m e], y as [[]|[]| |[] m' e']; try done; intros _ _;
    unfold number_cmp, cmp_then, cmp_on; simpl; rewrite ?Hopp; by destruct (e ?= e').
Qed.

Lemma partial_cmp_numbers x y : is_nan x = false → is_nan y = false → partial_cmp x y = number_cmp x y.
Proof. intros Hx Hy. unfold partial_cmp. by rewrite compare_numbers. Qed.

Lemma f64_lt_spec x y : is_nan x = false → is_nan y = false → f64_lt x y = true ↔ number_cmp x y = Lt.
Proof. intros Hx Hy. unfold f64_lt, SFltb. rewrite compare_numbers by done. by destruct (number_cmp x y). Qed.

Lemma f64_le_spec x y : is_nan x = false → is_nan y = false → f64_le x y = true ↔ cmp_le number_cmp x y.
Proof.
  intros Hx Hy. unfold f64_le, SFleb, cmp_le. rewrite compare_numbers by done. by destruct (number_cmp x y).
Qed.

Lemma f64_le_refl x : is_nan x = false → f64_le x x = true.
Proof. intros Hx. apply f64_le_spec; [done..|]. unfold cmp_le. by rewrite (cmp_refl number_cmp). Qed.

Lemma f64_le_trans x y z : f64_le x y = true → f64_le y z = true → f64_le x z = true.
Proof.
  destruct (is_nan x) eqn:Hx; [by destruct x|]. destruct (is_nan y) eqn:Hy; [by destruct y|].
  destruct (is_nan z) eqn:Hz; [destruct z; try done; by destruct y as [| | |[]]|].
  rewrite !f64_le_spec by done. apply cmp_le_trans, _.
Qed.

(** ** Minimum and maximum *)
Lemma f64_min_spec x y : is_nan x = false → is_nan y = false →
  is_nan (f64_min x y) = false ∧ f64_le (f64_min x y) x = true ∧ f64_le (f64_min x y) y = true ∧
  (f64_min x y = x ∨ f64_min x y = y).
Proof.
  intros Hx Hy. unfold f64_min. rewrite Hx, Hy. destruct (f64_lt y x) eqn:E.
  - apply f64_lt_spec in E; [|done..]. split_and!; [done| |by apply f64_le_refl|by right].
    apply f64_le_spec; [done..|]. unfold cmp_le. by rewrite E.
  - split_and!; [done|by apply f64_le_refl| |by left]. apply f64_le_spec; [done..|].
    unfold cmp_le. rewrite (cmp_opp number_cmp y x). intros H.
    assert (number_cmp y x = Lt) as H' by (by destruct (number_cmp y x)).
    apply f64_lt_spec in H'; [congruence|done..].
Qed.

Lemma f64_max_spec x y : is_nan x = false → is_nan y = false →
  is_nan (f64_max x y) = false ∧ f64_le x (f64_max x y) = true ∧ f64_le y (f64_max x y) = true ∧
  (f64_max x y = x ∨ f64_max x y = y).
Proof.
  intros Hx Hy. unfold f64_max. rewrite Hx, Hy. destruct (f64_lt x y) eqn:E.
  - apply f64_lt_spec in E; [|done..]. split_and!; [done| |by apply f64_le_refl|by right].
    apply f64_le_spec; [done..|]. unfold cmp_le. by rewrite E.
  - split_and!; [done|by apply f64_le_refl| |by left]. apply f64_le_spec; [done..|].
    unfold cmp_le. rewrite (cmp_opp number_cmp x y). intros H.
    assert (number_cmp x y = Lt) as H' by (by destruct (number_cmp x y)).
    apply f64_lt_spec in H'; [congruence|done..].
Qed.

Definition no_nan (l : list f64) : Prop := Forall (λ x, is_nan x = false) l.

Lemma running_min l a : is_nan a = false → no_nan l →
  is_nan (foldl f64_min a l) = false ∧ f64_le (foldl f64_min a l) a = true ∧
  Forall (λ x, f64_le (foldl f64_min a l) x = true) l ∧ (foldl f64_min a l = a ∨ foldl f64_min a l ∈ l).
Proof.
  intros Ha Hl. revert a Ha. induction Hl as [|x l Hx Hl IH]; intros a Ha; cbn [foldl].
  { split_and!; [done|by apply f64_le_refl|constructor|by left]. }
  destruct (f64_min_spec a x Ha Hx) as (Hn & Hma & Hmx & Hor).
  destruct (IH _ Hn) as (H1 & H2 & H3 & H4). split_and!; [done|by eapply f64_le_trans| |].
  - constructor; [by eapply f64_le_trans|done].
  - rewrite elem_of_cons. destruct H4 as [->|H4]; [|auto]. destruct Hor as [->| ->]; auto.
Qed.

Lemma running_max l a : is_nan a = false → no_nan l →
  is_nan (foldl f64_max a l) = false ∧ f64_le a (foldl f64_max a l) = true ∧
  Forall (λ x, f64_le x (foldl f64_max a l) = true) l ∧ (foldl f64_max a l = a ∨ foldl f64_max a l ∈ l).
Proof.
  intros Ha Hl. revert a Ha. induction Hl as [|x l Hx Hl IH]; intros a Ha; cbn [foldl].
  { split_and!; [done|by apply f64_le_refl|constructor|by left]. }
  destruct (f64_max_spec a x Ha Hx) as (Hn & Hma & Hmx & Hor).
  destruct (IH _ Hn) as (H1 & H2 & H3 & H4). split_and!; [done|by eapply f64_le_trans| |].
  - constructor; [by eapply f64_le_trans|done].
  - rewrite elem_of_cons. destruct H4 as [->|H4]; [|auto]. destruct Hor as [->| ->]; auto.
Qed.

(** ** Sorting numbers *)
Lemma insert_by_ext {A} (c d : A → A → comparison) x l :
  (∀ y, y ∈ l → c x y = d x y) → insert_by c x l = insert_by d x l.
Proof.
  induction l as [|y l IH]; intros H; simpl; [done|]. rewrite (H y) by left.
  rewrite IH by (intros z Hz; apply H; by right). done.
Qed.

Lemma sort_by_ext {A} (c d : A → A → comparison) l :
  (∀ x y, x ∈ l → y ∈ l → c x y = d x y) → sort_by c l = sort_by d l.
Proof.
  unfold sort_by. induction l as [|x l IH]; intros H; simpl; [done|].
  rewrite <- IH by (intros a b Ha Hb; apply H; by right).
  apply insert_by_ext. intros y Hy. change (y ∈ sort_by c l) in Hy. rewrite elem_of_sort_by in Hy.
  apply H; [left|by right].
Qed.

Lemma sort_numbers l : no_nan l → sort_by partial_cmp l = sort_by number_cmp l.
Proof.
  intros H. unfold no_nan in H. rewrite Forall_forall in H. apply sort_by_ext.
  intros x y Hx Hy. by apply partial_cmp_numbers; apply H.
Qed.

(** [x] is the element of [l] of rank [k], from 0: at most [k] elements are
    less and more than [k] are not greater. *)
Definition order_statistic (l : list f64) (k : nat) (x : f64) : Prop :=
  x ∈ l ∧ (length (List.filter (λ y, f64_lt y x) l) ≤ k < length (List.filter (λ y, f64_le y x) l))%nat.

Lemma filter_none {A} (P : A → bool) l : (∀ x, x ∈ l → P x = false) → List.filter P l = [].
Proof.
  induction l as [|x l IH]; intros H; simpl; [done|]. rewrite (H x) by left.
  apply IH. intros y Hy. apply H. by right.
Qed.

Lemma filter_every {A} (P : A → bool) l : (∀ x, x ∈ l → P x = true) → List.filter P l = l.
Proof.
  induction l as [|x l IH]; intros H; simpl; [done|]. rewrite (H x) by left. f_equal.
  apply IH. intros y Hy. apply H. by right.
Qed.

Lemma length_filter_perm {A} (P : A → bool) (l l' : list A) : l ≡ₚ l' →
  length (List.filter P l) = length (List.filter P l').
Proof.
  induction 1 as [|x l l' _ IH|x y l|l1 l2 l3 _ IH1 _ IH2]; simpl; [done|..].
  - destruct (P x); simpl; lia.
  - by destruct (P x), (P y).
  - lia.
Qed.

Lemma length_filter_le {A} (P : A → bool) (l : list A) : (length (List.filter P l) ≤ length l)%nat.
Proof. induction l as [|x l IH]; simpl; [lia|]. destruct (P x); simpl; lia. Qed.

Lemma sorted_lookup {A} (R : A → A → Prop) `{!Reflexive R} l i j x y : StronglySorted R l →
  l !! i = Some x → l !! j = Some y → (i ≤ j)%nat → R x y.
Proof.
  intros Hs. revert i j. induction Hs as [|a l Hs IH Ha]; intros [|i] [|j] Hi Hj Hle; simplify_eq/=; try done; [|lia|].
  - rewrite Forall_forall in Ha. by apply Ha, (list_elem_of_lookup_2 l j).
  - eapply IH; [done..|lia].
Qed.

Lemma sorted_order_statistic l k x : no_nan l → sort_by partial_cmp l !! k = Some x → order_statistic l k x.
Proof.
  intros Hl. rewrite sort_numbers by done. intros Hk.
  pose proof (sort_by_perm number_cmp l) as Hp. pose proof (sort_by_sorted number_cmp l) as Hs.
  set (s := sort_by number_cmp l) in *.
  assert (∀ y, y ∈ s → is_nan y = false) as Hn.
  { intros y Hy. unfold no_nan in Hl. rewrite Forall_forall in Hl. apply Hl. by rewrite <- Hp. }
  assert (x ∈ s) as Hx by (by eapply list_elem_of_lookup_2).
  assert (Reflexive (cmp_le number_cmp)) as Hrefl.
  { intros y. unfold cmp_le. by rewrite (cmp_refl number_cmp). }
  split; [by rewrite <- Hp|].
  rewrite <- (length_filter_perm (λ y, f64_lt y x) s l Hp), <- (length_filter_perm (λ y, f64_le y x) s l Hp).
  assert (k < length s)%nat as Hlt by (by eapply lookup_lt_Some). split.
  - rewrite <- (take_drop k s) at 1. rewrite List.filter_app, length_app.
    rewrite (filter_none _ (drop k s)).
    + pose proof (length_filter_le (λ y, f64_lt y x) (take k s)) as H. rewrite length_take in H. simpl. lia.
    + intros y Hy. apply list_elem_of_lookup in Hy as [i Hi]. rewrite lookup_drop in Hi.
      assert (y ∈ s) as Hys by (by eapply list_elem_of_lookup_2).
      apply not_true_iff_false. rewrite f64_lt_spec by auto. intros H.
      pose proof (sorted_lookup _ s k (k + i)%nat x y Hs Hk Hi ltac:(lia)) as Hle.
      unfold cmp_le in Hle. rewrite (cmp_opp number_cmp y x), H in Hle. by destruct Hle.
  - rewrite <- (take_drop (S k) s). rewrite List.filter_app, length_app.
    rewrite (filter_every _ (take (S k) s)).
    + rewrite length_take. lia.
    + intros y Hy. apply list_elem_of_lookup in Hy as [i Hi]. apply lookup_take_Some in Hi as [Hi Hik].
      assert (y ∈ s) as Hys by (by eapply list_elem_of_lookup_2).
      rewrite f64_le_spec by auto. apply (sorted_lookup _ s i k); [done..|lia].
Qed.
