(* ===== verification/Metrics.v ===== *)
(** * Metrics ([src/metrics.rs], [src/telemetry.rs])

    The interface [MetricsBackend], the in-memory backend [LocalMetrics] with
    its histograms, and [QueueMetrics], which names the metrics of a queue.
    The client is proved against the interface and its laws, which
    [LocalMetrics] satisfies; its properties end the file.

    A [u64] counter wraps around.  Histogram percentiles sort with
    [partial_cmp]; on a list with a NaN that is no order and the result of the
    sort is unspecified, so the theorems are about numbers.

    The second part is [OtelMetricsBackend], the backend that hands metrics to
    OpenTelemetry, and the process-wide recorder of lane metrics.  The
    instruments belong to the OpenTelemetry crates; what the code asks of them
    is kept as the list of the calls, and the value a reader of an up-down
    counter sees is the sum of its additions. *)
From S2P Require Import Prelude Ordering Text Float64 External FloatOrder.
Local Open Scope Z_scope.

Record HistogramPercentiles := mkPercentiles { p50 : f64; p90 : f64; p95 : f64; p99 : f64 }.

Record HistogramStats := mkHistogramStats {
  count : Z;                     (* u64 *)
  sum : f64;
  minimum : f64;
  maximum : f64;
  mean : f64;
  percentiles : HistogramPercentiles;
}.
#[export] Instance eta_HistogramStats : Eta HistogramStats := λ s,
  mkHistogramStats (count s) (sum s) (minimum s) (maximum s) (mean s) (percentiles s).

Definition histogram_stats_new : HistogramStats :=
  mkHistogramStats 0 f64_zero f64_MAX f64_MIN f64_zero (mkPercentiles f64_zero f64_zero f64_zero f64_zero).

Record MetricsSnapshot := mkSnapshot {
  counters : gmap string Z;
  gauges : gmap string f64;
  histograms : gmap string HistogramStats;
}.

(** ** The interface *)
Class MetricsBackend (B : Type) := {
  increment_counter : B → string → Z → B;
  set_gauge : B → string → f64 → B;
  record_histogram : B → string → f64 → B;
  get_counter : B → string → option Z;
  get_gauge : B → string → option f64;
  get_histogram_stats : B → string → option HistogramStats;
  reset : B → B;
  snapshot : B → MetricsSnapshot;
}.

(** What a backend that can be read promises of its counters and gauges. *)
Class ReadableBackend (B : Type) `{!MetricsBackend B} : Prop := {
  counter_incremented (b : B) n v n' : get_counter (increment_counter b n v) n' =
    if decide (n' = n) then Some ((unwrap_or (get_counter b n) 0 + v) `mod` 2 ^ 64) else get_counter b n';
  counter_gauge (b : B) n v n' : get_counter (set_gauge b n v) n' = get_counter b n';
  counter_histogram (b : B) n v n' : get_counter (record_histogram b n v) n' = get_counter b n';
  counter_reset (b : B) n : get_counter (reset b) n = None;
  gauge_set (b : B) n v n' : get_gauge (set_gauge b n v) n' = if decide (n' = n) then Some v else get_gauge b n';
  gauge_counter (b : B) n v n' : get_gauge (increment_counter b n v) n' = get_gauge b n';
  gauge_histogram (b : B) n v n' : get_gauge (record_histogram b n v) n' = get_gauge b n';
  counter_exported (b : B) n : counters (snapshot b) !! n = get_counter b n;
  gauge_exported (b : B) n : gauges (snapshot b) !! n = get_gauge b n;
}.

(** ** Histograms *)
Record HistogramData := mkHistogram { values : list f64; hd_stats : HistogramStats }.
#[export] Instance eta_HistogramData : Eta HistogramData := λ h, mkHistogram (values h) (hd_stats h).

Definition histogram_new : HistogramData := mkHistogram [] histogram_stats_new.

(** The literals of the code, as doubles. *)
Definition P50 : f64 := S754_finite false 4503599627370496 (-53).
Definition P90 : f64 := S754_finite false 8106479329266893 (-53).
Definition P95 : f64 := S754_finite false 8556839292003942 (-53).
Definition P99 : f64 := S754_finite false 8917127262193582 (-53).

(** The index [percentile] looks at, for a list that is not empty. *)
Definition rank (len : nat) (p : f64) : nat :=
  Nat.min (Z.to_nat (f64_to_u64 (f64_mul (f64_of_Z (Z.of_nat len)) p))) (len - 1).

Definition percentile (sorted : list f64) (len : nat) (p : f64) : f64 :=
  if (len =? 0)%nat then f64_zero else unwrap_or (sorted !! rank len p) f64_zero.

Definition update_percentiles (h : HistogramData) : HistogramData :=
  match values h with
  | [] => h
  | _ =>
      let sorted := sort_by partial_cmp (values h) in
      let len := length sorted in
      h <| hd_stats ::= λ s, s <| percentiles :=
        mkPercentiles (percentile sorted len P50) (percentile sorted len P90)
          (percentile sorted len P95) (percentile sorted len P99) |> |>
  end.

Definition record (h : HistogramData) (value : f64) : HistogramData :=
  let s := hd_stats h in
  let count' := (count s + 1) `mod` 2 ^ 64 in
  let sum' := f64_add (sum s) value in
  update_percentiles (mkHistogram (values h ++ [value])
    (mkHistogramStats count' sum' (f64_min (minimum s) value) (f64_max (maximum s) value)
       (f64_div sum' (f64_of_Z count')) (percentiles s))).

(** ** [LocalMetrics] *)
Record LocalMetrics := mkLocalMetrics {
  lm_counters : gmap string Z;
  lm_gauges : gmap string f64;
  lm_histograms : gmap string HistogramData;
}.
#[export] Instance eta_LocalMetrics : Eta LocalMetrics := λ m,
  mkLocalMetrics (lm_counters m) (lm_gauges m) (lm_histograms m).

Definition local_metrics_new : LocalMetrics := mkLocalMetrics ∅ ∅ ∅.

Definition local_metrics : MetricsBackend LocalMetrics := {|
  increment_counter m name value :=
    m <| lm_counters ::= λ c, <[ name := (unwrap_or (c !! name) 0 + value) `mod` 2 ^ 64 ]> c |>;
  set_gauge m name value := m <| lm_gauges ::= <[ name := value ]> |>;
  record_histogram m name value :=
    m <| lm_histograms ::= λ h, <[ name := record (unwrap_or (h !! name) histogram_new) value ]> h |>;
  get_counter m name := lm_counters m !! name;
  get_gauge m name := lm_gauges m !! name;
  get_histogram_stats m name := hd_stats <$> lm_histograms m !! name;
  reset m := mkLocalMetrics ∅ ∅ ∅;
  snapshot m := mkSnapshot (lm_counters m) (lm_gauges m) (hd_stats <$> lm_histograms m);
|}.
#[export] Existing Instance local_metrics.

#[export] Instance local_metrics_readable : ReadableBackend LocalMetrics.
Proof.
  split; intros b; simpl; try done.
  - intros n v n'. destruct (decide (n' = n)) as [->|]; [by rewrite lookup_insert_eq|by rewrite lookup_insert_ne].
  - intros n v n'. destruct (decide (n' = n)) as [->|]; [by rewrite lookup_insert_eq|by rewrite lookup_insert_ne].
Defined.

(** ** [QueueMetrics] *)
Definition COMMANDS_SUBMITTED : string := "lane.commands.submitted".
Definition COMMANDS_COMPLETED : string := "lane.commands.completed".
Definition COMMANDS_FAILED : string := "lane.commands.failed".
Definition COMMANDS_TIMEOUT : string := "lane.commands.timeout".
Definition COMMANDS_RETRIED : string := "lane.commands.retried".
Definition COMMANDS_DEAD_LETTERED : string := "lane.commands.dead_lettered".
Definition QUEUE_DEPTH : string := "lane.queue.depth".
Definition QUEUE_ACTIVE : string := "lane.queue.active".
Definition COMMAND_LATENCY : string := "lane.command.latency_ms".
Definition COMMAND_WAIT_TIME : string := "lane.command.wait_time_ms".

(** [format!("{}.{}", name, lane_id)]. *)
Definition lane_metric (name lane_id : string) : string := name +:+ "." +:+ lane_id.

Section queue_metrics.
Context {B : Type} `{!MetricsBackend B}.

(** A counter and its counter of the lane. *)
Definition count_on (b : B) (name lane_id : string) : B :=
  increment_counter (increment_counter b name 1) (lane_metric name lane_id) 1.
Definition observe_on (b : B) (name lane_id : string) (value : f64) : B :=
  record_histogram (record_histogram b name value) (lane_metric name lane_id) value.

Definition record_submit (b : B) (lane_id : string) : B := count_on b COMMANDS_SUBMITTED lane_id.
Definition record_complete (b : B) (lane_id : string) (latency_ms : f64) : B :=
  observe_on (count_on b COMMANDS_COMPLETED lane_id) COMMAND_LATENCY lane_id latency_ms.
Definition record_failure (b : B) (lane_id : string) : B := count_on b COMMANDS_FAILED lane_id.
Definition record_timeout (b : B) (lane_id : string) : B := count_on b COMMANDS_TIMEOUT lane_id.
Definition record_retry (b : B) (lane_id : string) : B := count_on b COMMANDS_RETRIED lane_id.
Definition record_dead_letter (b : B) (lane_id : string) : B := count_on b COMMANDS_DEAD_LETTERED lane_id.
Definition set_queue_depth (b : B) (lane_id : string) (depth : nat) : B :=
  set_gauge b (lane_metric QUEUE_DEPTH lane_id) (f64_of_Z (Z.of_nat depth)).
Definition set_active_commands (b : B) (lane_id : string) (active : nat) : B :=
  set_gauge b (lane_metric QUEUE_ACTIVE lane_id) (f64_of_Z (Z.of_nat active)).
Definition record_wait_time (b : B) (lane_id : string) (wait_time_ms : f64) : B :=
  observe_on b COMMAND_WAIT_TIME lane_id wait_time_ms.

Inductive MetricsCall : Type :=
| RecordSubmit (lane_id : string)
| RecordComplete (lane_id : string) (latency_ms : f64)
| RecordFailure (lane_id : string)
| RecordTimeout (lane_id : string)
| RecordRetry (lane_id : string)
| RecordDeadLetter (lane_id : string)
| SetQueueDepth (lane_id : string) (depth : nat)
| SetActiveCommands (lane_id : string) (active : nat)
| RecordWaitTime (lane_id : string) (wait_time_ms : f64).

Definition metrics_call (b : B) (c : MetricsCall) : B :=
  match c with
  | RecordSubmit l => record_submit b l
  | RecordComplete l t => record_complete b l t
  | RecordFailure l => record_failure b l
  | RecordTimeout l => record_timeout b l
  | RecordRetry l => record_retry b l
  | RecordDeadLetter l => record_dead_letter b l
  | SetQueueDepth l n => set_queue_depth b l n
  | SetActiveCommands l n => set_active_commands b l n
  | RecordWaitTime l t => record_wait_time b l t
  end.
End queue_metrics.

(** * What the metrics of a queue say

    Counters count: whatever is recorded, the counter of an outcome is the
    number of its calls and the counter of a lane the number of those on the
    lane, for every readable backend.  Histograms keep the extremes and the
    order statistics of the values recorded. *)

(** ** Counters *)
Definition outcome_of (c : MetricsCall) : option (string * string) :=
  match c with
  | RecordSubmit l => Some (COMMANDS_SUBMITTED, l)
  | RecordComplete l _ => Some (COMMANDS_COMPLETED, l)
  | RecordFailure l => Some (COMMANDS_FAILED, l)
  | RecordTimeout l => Some (COMMANDS_TIMEOUT, l)
  | RecordRetry l => Some (COMMANDS_RETRIED, l)
  | RecordDeadLetter l => Some (COMMANDS_DEAD_LETTERED, l)
  | _ => None
  end.

Definition counted_names : list string :=
  [COMMANDS_SUBMITTED; COMMANDS_COMPLETED; COMMANDS_FAILED; COMMANDS_TIMEOUT; COMMANDS_RETRIED; COMMANDS_DEAD_LETTERED].

(** The calls that count for an outcome, and on one lane. *)
Definition calls_of (name : string) (calls : list MetricsCall) : nat :=
  length (filter (λ c, fst <$> outcome_of c = Some name) calls).
Definition calls_on (name lane : string) (calls : list MetricsCall) : nat :=
  length (filter (λ c, outcome_of c = Some (name, lane)) calls).

(** A counter exists once something was counted. *)
Definition counted (n : nat) : option Z :=
  if (n =? 0)%nat then None else Some (Z.of_nat n `mod` 2 ^ 64).

Lemma counted_succ n : counted (S n) = Some ((unwrap_or (counted n) 0 + 1) `mod` 2 ^ 64).
Proof.
  unfold counted. simpl. f_equal. destruct (Nat.eqb_spec n 0) as [->|]; [done|]. simpl.
  rewrite Zplus_mod_idemp_l. f_equal. lia.
Qed.

Lemma append_same (s t t' : string) : s +:+ t = s +:+ t' → t = t'.
Proof. induction s as [|a s IH]; simpl; intros H; [done|]. injection H. apply IH. Qed.

(** The names of the counters never clash. *)
Lemma name_not_lane name name' lane : name ∈ counted_names → name' ∈ counted_names → name ≠ lane_metric name' lane.
Proof.
  unfold counted_names, lane_metric. rewrite !list_elem_of_In. simpl. intros H H'.
  destruct H as [<-|[<-|[<-|[<-|[<-|[<-|[]]]]]]], H' as [<-|[<-|[<-|[<-|[<-|[<-|[]]]]]]]; discriminate.
Qed.

Lemma lane_metric_inj name name' lane lane' : name ∈ counted_names → name' ∈ counted_names →
  lane_metric name lane = lane_metric name' lane' → name = name' ∧ lane = lane'.
Proof.
  intros H H' E. assert (name = name') as <-.
  { unfold counted_names in H, H'. rewrite !list_elem_of_In in *. unfold lane_metric in E. simpl in H, H'.
    destruct H as [<-|[<-|[<-|[<-|[<-|[<-|[]]]]]]], H' as [<-|[<-|[<-|[<-|[<-|[<-|[]]]]]]]; try done; discriminate E. }
  split; [done|]. unfold lane_metric in E. apply append_same in E. by apply append_same in E.
Qed.

Lemma outcome_name c name lane : outcome_of c = Some (name, lane) → name ∈ counted_names.
Proof.
  unfold counted_names. rewrite list_elem_of_In. destruct c; simpl; intros [= <- <-]; auto 10.
Qed.

Section counting.
Context {B : Type} `{!MetricsBackend B, !ReadableBackend B}.

(** A call touches the counter of its outcome and the one of its lane. *)
Lemma call_counter (b : B) c n : get_counter (metrics_call b c) n =
  match outcome_of c with
  | Some (name, lane) => get_counter (count_on b name lane) n
  | None => get_counter b n
  end.
Proof.
  destruct c; simpl; try done.
  - unfold record_complete, observe_on. by rewrite !counter_histogram.
  - unfold set_queue_depth. by rewrite counter_gauge.
  - unfold set_active_commands. by rewrite counter_gauge.
  - unfold record_wait_time, observe_on. by rewrite !counter_histogram.
Qed.

Lemma calls_of_snoc name calls c : calls_of name (calls ++ [c]) =
  (calls_of name calls + if decide (fst <$> outcome_of c = Some name) then 1 else 0)%nat.
Proof. unfold calls_of. rewrite filter_app, length_app, filter_cons, filter_nil. by destruct (decide _). Qed.

Lemma calls_on_snoc name lane calls c : calls_on name lane (calls ++ [c]) =
  (calls_on name lane calls + if decide (outcome_of c = Some (name, lane)) then 1 else 0)%nat.
Proof. unfold calls_on. rewrite filter_app, length_app, filter_cons, filter_nil. by destruct (decide _). Qed.

Lemma counters_after (b : B) calls name lane : name ∈ counted_names → (∀ n, get_counter b n = None) →
  get_counter (foldl metrics_call b calls) name = counted (calls_of name calls) ∧
  get_counter (foldl metrics_call b calls) (lane_metric name lane) = counted (calls_on name lane calls).
Proof.
  intros Hn Hb. induction calls as [|c calls [IH1 IH2]] using rev_ind; [by rewrite !Hb|].
  rewrite foldl_app. cbn [foldl]. rewrite !call_counter, calls_of_snoc, calls_on_snoc.
  destruct (outcome_of c) as [[name' lane']|] eqn:Ec; simpl.
  2:{ by rewrite !Nat.add_0_r. }
  apply outcome_name in Ec. unfold count_on. rewrite !counter_incremented. split.
  - rewrite (decide_False (P := name = lane_metric name' lane')) by (by apply name_not_lane).
    destruct (decide (name = name')) as [<-|Hne].
    + rewrite decide_True by done. rewrite Nat.add_1_r, counted_succ, IH1. done.
    + rewrite decide_False by congruence. by rewrite Nat.add_0_r.
  - rewrite (decide_False (P := lane_metric name lane = name')).
    2:{ intros E. by apply (name_not_lane name' name lane). }
    destruct (decide (lane_metric name lane = lane_metric name' lane')) as [E|Hne].
    + apply lane_metric_inj in E as [<- <-]; [|done..]. rewrite (decide_True (P := Some _ = Some _)) by done.
      rewrite (decide_False (P := lane_metric name lane = name)).
      2:{ intros E. symmetry in E. by apply (name_not_lane name name lane). }
      rewrite Nat.add_1_r, counted_succ, IH2. done.
    + rewrite decide_False by (intros [= <- <-]; by apply Hne). by rewrite Nat.add_0_r.
Qed.

(** The counters of a queue count: whatever calls are made after a reset,
    the counter of an outcome has the number of the calls that recorded it and
    the counter of a lane the number of those on that lane, both modulo
    [2^64], read directly or through a snapshot; gauges, latencies and other
    outcomes do not disturb it. *)
Theorem counters_count (b : B) calls name lane : name ∈ counted_names →
  let b' := foldl metrics_call (reset b) calls in
  get_counter b' name = counted (calls_of name calls) ∧
  get_counter b' (lane_metric name lane) = counted (calls_on name lane calls) ∧
  counters (snapshot b') !! name = counted (calls_of name calls) ∧
  counters (snapshot b') !! lane_metric name lane = counted (calls_on name lane calls).
Proof.
  intros Hn b'. rewrite !counter_exported.
  destruct (counters_after (reset b) calls name lane Hn) as [H1 H2]; [apply counter_reset|]. done.
Qed.
End counting.

Lemma counters_count_witness :
  let calls := [RecordSubmit "a"; RecordRetry "a"; RecordSubmit "b"; SetQueueDepth "a" 7; RecordSubmit "a"] in
  let b := foldl metrics_call (reset local_metrics_new) calls in
  calls_of COMMANDS_SUBMITTED calls = 3%nat ∧ get_counter b COMMANDS_SUBMITTED = Some 3 ∧
  get_counter b (lane_metric COMMANDS_SUBMITTED "a") = Some 2.
Proof.
  intros calls b. split; [reflexivity|].
  assert (COMMANDS_SUBMITTED ∈ counted_names) as H by left.
  destruct (counters_count local_metrics_new calls COMMANDS_SUBMITTED "a" H) as (H1 & H2 & _).
  exact (conj H1 H2).
Defined.

(** ** Histograms *)
Definition recorded (vs : list f64) : HistogramData := foldl record histogram_new vs.

Lemma record_fields h v : let h' := record h v in
  values h' = values h ++ [v] ∧ count (hd_stats h') = (count (hd_stats h) + 1) `mod` 2 ^ 64 ∧
  sum (hd_stats h') = f64_add (sum (hd_stats h)) v ∧
  minimum (hd_stats h') = f64_min (minimum (hd_stats h)) v ∧
  maximum (hd_stats h') = f64_max (maximum (hd_stats h)) v ∧
  mean (hd_stats h') = f64_div (sum (hd_stats h')) (f64_of_Z (count (hd_stats h'))) ∧
  percentiles (hd_stats h') =
    let sorted := sort_by partial_cmp (values h') in
    mkPercentiles (percentile sorted (length (values h')) P50) (percentile sorted (length (values h')) P90)
      (percentile sorted (length (values h')) P95) (percentile sorted (length (values h')) P99).
Proof.
  cbv zeta. unfold record, update_percentiles. cbn [values].
  destruct (values h ++ [v]) as [|a l] eqn:E; [by destruct (values h)|].
  cbn -[sort_by percentile length Z.modulo f64_add f64_div f64_of_Z f64_min f64_max]. split_and!; try done.
  by rewrite sort_by_length.
Qed.

Lemma recorded_fields vs : let s := hd_stats (recorded vs) in
  values (recorded vs) = vs ∧ count s = Z.of_nat (length vs) `mod` 2 ^ 64 ∧ sum s = foldl f64_add f64_zero vs ∧
  minimum s = foldl f64_min f64_MAX vs ∧ maximum s = foldl f64_max f64_MIN vs.
Proof.
  cbv zeta. induction vs as [|v vs (IH1 & IH2 & IH3 & IH4 & IH5)] using rev_ind; [done|].
  unfold recorded in *. rewrite !foldl_app. cbn [foldl].
  destruct (record_fields (foldl record histogram_new vs) v) as (H1 & H2 & H3 & H4 & H5 & _).
  rewrite H1, H2, H3, H4, H5, IH1, IH2, IH3, IH4, IH5, length_app. split_and!; try done.
  rewrite Zplus_mod_idemp_l. f_equal. simpl. lia.
Qed.

Lemma percentile_rank_lt len p : (0 < len → rank len p < len)%nat.
Proof. unfold rank. lia. Qed.

Lemma percentile_statistic vs p : vs ≠ [] → no_nan vs →
  order_statistic vs (rank (length vs) p) (percentile (sort_by partial_cmp vs) (length vs) p).
Proof.
  intros Hne Hn. assert (0 < length vs)%nat as Hpos by (destruct vs; simpl in *; [done|lia]).
  unfold percentile. destruct (Nat.eqb_spec (length vs) 0); [lia|].
  pose proof (percentile_rank_lt (length vs) p Hpos) as Hr. rewrite <- (sort_by_length partial_cmp vs) in Hr at 2.
  apply lookup_lt_is_Some in Hr as [x Hx]. rewrite Hx. by apply sorted_order_statistic.
Qed.

(** A histogram summarises what was recorded: after the numbers [vs] it
    has their count, their running sum and its quotient as the mean; its
    minimum and maximum bound all of them; and each percentile is the recorded
    value of rank [rank (length vs) p]: at most that many values are less and
    more than that many are not greater. *)
Theorem histogram_summarises vs : vs ≠ [] → no_nan vs →
  let s := hd_stats (recorded vs) in
  count s = Z.of_nat (length vs) `mod` 2 ^ 64 ∧
  sum s = foldl f64_add f64_zero vs ∧ mean s = f64_div (sum s) (f64_of_Z (count s)) ∧
  Forall (λ v, f64_le (minimum s) v = true ∧ f64_le v (maximum s) = true) vs ∧
  (minimum s = f64_MAX ∨ minimum s ∈ vs) ∧ (maximum s = f64_MIN ∨ maximum s ∈ vs) ∧
  order_statistic vs (rank (length vs) P50) (p50 (percentiles s)) ∧
  order_statistic vs (rank (length vs) P90) (p90 (percentiles s)) ∧
  order_statistic vs (rank (length vs) P95) (p95 (percentiles s)) ∧
  order_statistic vs (rank (length vs) P99) (p99 (percentiles s)).
Proof.
  intros Hne Hn. cbv zeta. pose proof (recorded_fields vs) as (Hv & Hc & Hs & Hmin & Hmax).
  destruct (running_min vs f64_MAX eq_refl Hn) as (_ & _ & Hlo & Hlo').
  destruct (running_max vs f64_MIN eq_refl Hn) as (_ & _ & Hhi & Hhi').
  rewrite Hmin, Hmax. split; [done|]. split; [done|].
  destruct (exists_last Hne) as (vs0 & v & ->). unfold recorded in *. rewrite foldl_app in *. cbn [foldl] in *.
  destruct (record_fields (foldl record histogram_new vs0) v) as (_ & _ & _ & _ & _ & Hm & Hp).
  rewrite Hp, Hv. split; [exact Hm|]. split.
  { apply Forall_forall. intros x Hx. rewrite Forall_forall in Hlo, Hhi. auto. }
  split; [done|]. split; [done|]. split_and!; by apply percentile_statistic.
Qed.

Lemma histogram_summarises_witness :
  let vs := f64_of_Z <$> [30; 10; 20] in
  let s := hd_stats (recorded vs) in
  count s = 3 ∧ order_statistic vs (rank 3 P50) (p50 (percentiles s)) ∧ p50 (percentiles s) = f64_of_Z 20.
Proof.
  intros vs s. assert (vs ≠ []) as H1 by discriminate.
  assert (no_nan vs) as H2 by (repeat constructor).
  destruct (histogram_summarises vs H1 H2) as (Hc & _ & _ & _ & _ & _ & Hp & _).
  split; [exact Hc|]. split; [exact Hp|]. vm_compute. reflexivity.
Defined.

(** The ranks of the percentiles of a hundred values. *)
Example hundred_ranks : (rank 100 P50, rank 100 P90, rank 100 P95, rank 100 P99) = (50, 90, 95, 99)%nat.
Proof. vm_compute. reflexivity. Qed.

(** * Telemetry *)

Definition I64_of_f64 (x : f64) : Z :=
  match x with
  | S754_nan | S754_zero _ => 0
  | S754_infinity s => if s then I64_MIN else I64_MAX
  | S754_finite s m e => if s then Z.max I64_MIN (- trunc_magnitude m e) else Z.min I64_MAX (trunc_magnitude m e)
  end.

Inductive InstrumentKind : Type := KCounter | KHistogram | KGauge.
#[export] Instance instrument_kind_eq_dec : EqDecision InstrumentKind.
Proof. solve_decision. Defined.

Inductive InstrumentCall : Type :=
| Init (kind : InstrumentKind) (name : string)
| CounterAdd (name : string) (value : Z)
| HistogramRecord (name : string) (value : f64)
| GaugeAdd (name : string) (delta : Z).

(** The tables hold the instruments created so far, by name. *)
Record OtelMetricsBackend := mkOtel {
  ot_counters : gset string;
  ot_histograms : gset string;
  ot_gauges : gset string;
  instrument_calls : list InstrumentCall;
}.
#[export] Instance eta_OtelMetricsBackend : Eta OtelMetricsBackend := λ b,
  mkOtel (ot_counters b) (ot_histograms b) (ot_gauges b) (instrument_calls b).

Definition otel_new : OtelMetricsBackend := mkOtel ∅ ∅ ∅ [].

Definition call (b : OtelMetricsBackend) (c : InstrumentCall) : OtelMetricsBackend :=
  b <| instrument_calls ::= λ l, l ++ [c] |>.

Definition get_or_create_counter (b : OtelMetricsBackend) (name : string) : OtelMetricsBackend :=
  if bool_decide (name ∈ ot_counters b) then b else (call b (Init KCounter name)) <| ot_counters ::= λ s, {[ name ]} ∪ s |>.
Definition get_or_create_histogram (b : OtelMetricsBackend) (name : string) : OtelMetricsBackend :=
  if bool_decide (name ∈ ot_histograms b) then b
  else (call b (Init KHistogram name)) <| ot_histograms ::= λ s, {[ name ]} ∪ s |>.
Definition get_or_create_gauge (b : OtelMetricsBackend) (name : string) : OtelMetricsBackend :=
  if bool_decide (name ∈ ot_gauges b) then b else (call b (Init KGauge name)) <| ot_gauges ::= λ s, {[ name ]} ∪ s |>.

(** Reads are not supported; [reset] does nothing. *)
Definition otel_metrics : MetricsBackend OtelMetricsBackend := {|
  increment_counter b name value := call (get_or_create_counter b name) (CounterAdd name value);
  set_gauge b name value := call (get_or_create_gauge b name) (GaugeAdd name (I64_of_f64 value));
  record_histogram b name value := call (get_or_create_histogram b name) (HistogramRecord name value);
  get_counter b name := None;
  get_gauge b name := None;
  get_histogram_stats b name := None;
  reset b := b;
  snapshot b := mkSnapshot ∅ ∅ ∅;
|}.
#[export] Existing Instance otel_metrics.

(** ** The lane metrics of the process *)

(** [METRICS] is a [OnceLock]: the first initialisation takes effect. *)
Record LaneTelemetry := mkTelemetry { initialized : bool; lane_calls : list InstrumentCall }.
#[export] Instance eta_LaneTelemetry : Eta LaneTelemetry := λ t, mkTelemetry (initialized t) (lane_calls t).

Definition lane_telemetry_new : LaneTelemetry := mkTelemetry false [].
Definition init_lane_metrics (t : LaneTelemetry) : LaneTelemetry :=
  t <| initialized := true |> <| lane_calls ::= λ l, l ++
    [Init KCounter "a3s_lane_commands_submitted_total"; Init KCounter "a3s_lane_commands_completed_total";
     Init KCounter "a3s_lane_commands_failed_total"; Init KHistogram "a3s_lane_command_duration_seconds"] |>.

Definition when_initialized (t : LaneTelemetry) (calls : list InstrumentCall) : LaneTelemetry :=
  if initialized t then t <| lane_calls ::= λ l, l ++ calls |> else t.
Definition telemetry_submit (t : LaneTelemetry) : LaneTelemetry :=
  when_initialized t [CounterAdd "a3s_lane_commands_submitted_total" 1].
Definition telemetry_complete (t : LaneTelemetry) (duration_secs : f64) : LaneTelemetry :=
  when_initialized t [CounterAdd "a3s_lane_commands_completed_total" 1;
                      HistogramRecord "a3s_lane_command_duration_seconds" duration_secs].
Definition telemetry_failure (t : LaneTelemetry) : LaneTelemetry :=
  when_initialized t [CounterAdd "a3s_lane_commands_failed_total" 1].

(** ** What is exported *)
Definition exported_gauge (b : OtelMetricsBackend) (name : string) : Z :=
  foldr (λ c n, match c with GaugeAdd m d => if String.eqb m name then d + n else n | _ => n end) 0 (instrument_calls b).

Definition created (b : OtelMetricsBackend) (kind : InstrumentKind) (name : string) : nat :=
  length (List.filter (λ c, match c with Init k m => bool_decide (k = kind) && String.eqb m name | _ => false end) (instrument_calls b)).

Definition known (b : OtelMetricsBackend) (kind : InstrumentKind) : gset string :=
  match kind with KCounter => ot_counters b | KHistogram => ot_histograms b | KGauge => ot_gauges b end.

Inductive BackendCall : Type :=
| CallCounter (name : string) (value : Z)
| CallGauge (name : string) (value : f64)
| CallHistogram (name : string) (value : f64)
| CallReset.

Definition perform (b : OtelMetricsBackend) (c : BackendCall) : OtelMetricsBackend :=
  match c with
  | CallCounter n v => increment_counter b n v
  | CallGauge n v => set_gauge b n v
  | CallHistogram n v => record_histogram b n v
  | CallReset => reset b
  end.

Lemma exported_call b c name : exported_gauge (call b c) name =
  exported_gauge b name + match c with GaugeAdd m d => if String.eqb m name then d else 0 | _ => 0 end.
Proof.
  unfold exported_gauge, call, upd. simpl. induction (instrument_calls b) as [|[] l IH]; simpl; try done.
  - destruct c; simpl; try lia. destruct (String.eqb _ _); lia.
  - destruct (String.eqb _ _); [|done]. rewrite IH. lia.
Qed.

Lemma created_call b c kind name : created (call b c) kind name =
  (created b kind name + match c with Init k m => if bool_decide (k = kind) && String.eqb m name then 1 else 0 | _ => 0 end)%nat.
Proof.
  unfold created, call, upd. simpl. rewrite List.filter_app, length_app. f_equal.
  destruct c; try done. simpl. by destruct (_ && _).
Qed.

(** The tables know exactly the instruments created, each created once. *)
Definition one_each b : Prop := ∀ kind name, created b kind name = if bool_decide (name ∈ known b kind) then 1%nat else 0%nat.

Lemma perform_one_each b c : one_each b → one_each (perform b c).
Proof.
  assert (∀ b c, (∀ k n, c ≠ Init k n) → one_each b → one_each (call b c)) as Hcall.
  { intros b0 c0 Hc H kind name. rewrite created_call. change (known (call b0 c0) kind) with (known b0 kind).
    rewrite (H kind name). destruct c0; [by destruct (Hc kind0 name0)|..]; lia. }
  assert (∀ b k n b', one_each b → n ∉ known b k → instrument_calls b' = instrument_calls (call b (Init k n)) →
    (∀ k', known b' k' = if decide (k' = k) then {[ n ]} ∪ known b k else known b k') → one_each b') as Hnew.
  { intros b0 k n b' H Hn Hc Hk kind name. unfold created. rewrite Hc. change (created (call b0 (Init k n)) kind name =
      if bool_decide (name ∈ known b' kind) then 1%nat else 0%nat).
    rewrite created_call, (H kind name), Hk. destruct (decide (kind = k)) as [->|Hne].
    - rewrite (bool_decide_true (k = k)) by done. cbn [andb]. destruct (String.eqb_spec n name) as [->|Hnn].
      + rewrite (bool_decide_false (name ∈ known b0 k)) by done. by rewrite bool_decide_true by set_solver.
      + case_bool_decide as H1; case_bool_decide as H2; set_solver.
    - rewrite (bool_decide_false (k = kind)) by congruence. apply Nat.add_0_r. }
  intros H. destruct c as [n v|n v|n v|]; simpl; [..|done]; (apply Hcall; [done|]);
    unfold get_or_create_counter, get_or_create_gauge, get_or_create_histogram.
  - case_bool_decide; [done|]. apply (Hnew b KCounter n); [done|done|done|by intros []].
  - case_bool_decide; [done|]. apply (Hnew b KGauge n); [done|done|done|by intros []].
  - case_bool_decide; [done|]. apply (Hnew b KHistogram n); [done|done|done|by intros []].
Qed.

Lemma exported_init b kind n b' name : instrument_calls b' = instrument_calls (call b (Init kind n)) →
  exported_gauge b' name = exported_gauge b name.
Proof.
  intros E. transitivity (exported_gauge (call b (Init kind n)) name); [unfold exported_gauge; by rewrite E|].
  rewrite exported_call. lia.
Qed.

Lemma perform_gauge b c name : exported_gauge (perform b c) name =
  exported_gauge b name + match c with CallGauge n v => if String.eqb n name then I64_of_f64 v else 0 | _ => 0 end.
Proof.
  destruct c as [n v|n v|n v|]; simpl; [..|lia]; rewrite exported_call.
  - unfold get_or_create_counter. case_bool_decide; [done|]. by rewrite (exported_init b KCounter n).
  - unfold get_or_create_gauge. case_bool_decide; [done|]. by rewrite (exported_init b KGauge n).
  - unfold get_or_create_histogram. case_bool_decide; [done|]. by rewrite (exported_init b KHistogram n).
Qed.

(** The values the gauge of that name was set to. *)
Definition settings (name : string) (calls : list BackendCall) : list f64 :=
  omap (λ c, match c with CallGauge n v => if String.eqb n name then Some v else None | _ => None end) calls.

Lemma exported_after b calls name : exported_gauge (foldl perform b calls) name =
  exported_gauge b name + foldr (λ v n, I64_of_f64 v + n) 0 (settings name calls).
Proof.
  revert b. induction calls as [|c calls IH]; intros b; [simpl; lia|]. cbn [foldl]. rewrite IH, perform_gauge.
  destruct c as [n v|n v|n v|].
  - change (settings name (CallCounter n v :: calls)) with (settings name calls). lia.
  - assert (settings name (CallGauge n v :: calls) = if String.eqb n name then v :: settings name calls else settings name calls) as ->.
    { unfold settings. simpl. by destruct (String.eqb n name). }
    destruct (String.eqb n name); simpl; lia.
  - change (settings name (CallHistogram n v :: calls)) with (settings name calls). lia.
  - change (settings name (CallReset :: calls)) with (settings name calls). lia.
Qed.

(** Gauges accumulate: [set_gauge] adds to an up-down counter, so what
    OpenTelemetry shows for a gauge is the sum of all the values it was set to
    since the backend was created, a reset included, and not the last one,
    which is what [set_gauge] promises; and every name has one instrument of
    its kind, created when it is first used. *)
Theorem gauges_accumulate calls name :
  let b := foldl perform otel_new calls in
  exported_gauge b name = foldr (λ v n, I64_of_f64 v + n) 0 (settings name calls) ∧
  (∀ kind n, created b kind n = if bool_decide (n ∈ known b kind) then 1%nat else 0%nat).
Proof.
  split; [by rewrite exported_after|]. apply (foldl_keeps one_each); [intros b c; apply perform_one_each|].
  intros kind n. rewrite bool_decide_false; [done|]. destruct kind; set_solver.
Qed.

(** A queue of depth 10 that shrinks to 4 is shown with depth 14. *)
Example shrinking_queue :
  exported_gauge (foldl perform otel_new [CallGauge "lane.queue.depth.q" (f64_of_Z 10); CallGauge "lane.queue.depth.q" (f64_of_Z 4)])
    "lane.queue.depth.q" = 14.
Proof. vm_compute. reflexivity. Qed.

(** The backend is not readable: an increment cannot be read back. *)
Lemma otel_not_readable : ¬ ReadableBackend OtelMetricsBackend.
Proof. intros H. pose proof (counter_incremented otel_new "x" 1 "x") as E. discriminate. Qed.
