(* ===== verification/Alerts.v ===== *)
(** * Alerts ([src/alerts.rs])

    [AlertManager]: thresholds for the depth of a queue and for latencies, and
    the callbacks that are told when one is reached.  A callback is a number;
    the calls made are the result of a check, in order.  The messages print
    doubles with two decimals, rounded to nearest, ties to even. *)
From S2P Require Import Prelude Ordering Text Float64 FloatOrder.
Local Open Scope Z_scope.

Inductive AlertLevel : Type := Info | Warning | Critical.
#[export] Instance alert_level_eq_dec : EqDecision AlertLevel.
Proof. solve_decision. Defined.

(** The derived order. *)
Definition level_rank (l : AlertLevel) : nat := match l with Info => 0 | Warning => 1 | Critical => 2 end.

Record Alert := mkAlert {
  level : AlertLevel;
  alert_lane_id : string;
  message : string;
  current_value : f64;
  threshold : f64;
}.

(** ** Printing with two decimals *)

(** [m * 2 ^ e * 100], rounded to nearest, ties to even. *)
Definition hundredths (m : positive) (e : Z) : Z :=
  if 0 <=? e then Zpos m * 100 * 2 ^ e
  else
    let d := 2 ^ (- e) in
    let q := (Zpos m * 100) `div` d in
    match 2 * ((Zpos m * 100) `mod` d) ?= d with
    | Lt => q
    | Gt => q + 1
    | Eq => if Z.even q then q else q + 1
    end.

Definition two_digits (n : Z) : string := if n <? 10 then "0" +:+ show_nat n else show_nat n.
Definition show_hundredths (s : bool) (n : Z) : string :=
  (if s then "-" else "") +:+ show_nat (n `div` 100) +:+ "." +:+ two_digits (n `mod` 100).

(** [format!("{:.2}", x)]. *)
Definition show_f64 (x : f64) : string :=
  match x with
  | S754_nan => "NaN"
  | S754_infinity s => if s then "-inf" else "inf"
  | S754_zero s => show_hundredths s 0
  | S754_finite s m e => show_hundredths s (hundredths m e)
  end.

(** ** Configuration *)
Record QueueDepthAlertConfig := mkDepthConfig {
  warning_threshold : Z;         (* usize *)
  critical_threshold : Z;        (* usize *)
  depth_enabled : bool;
}.
Definition depth_config_new (warning critical : Z) : QueueDepthAlertConfig := mkDepthConfig warning critical true.
Definition depth_config_disabled : QueueDepthAlertConfig := mkDepthConfig U64_MAX U64_MAX false.

Record LatencyAlertConfig := mkLatencyConfig {
  warning_threshold_ms : f64;
  critical_threshold_ms : f64;
  latency_enabled : bool;
}.
Definition latency_config_new (warning critical : f64) : LatencyAlertConfig := mkLatencyConfig warning critical true.
Definition latency_config_disabled : LatencyAlertConfig := mkLatencyConfig f64_MAX f64_MAX false.

Record AlertManager := mkAlertManager {
  queue_depth_config : QueueDepthAlertConfig;
  latency_config : LatencyAlertConfig;
  callbacks : list nat;
}.
#[export] Instance eta_AlertManager : Eta AlertManager := λ m,
  mkAlertManager (queue_depth_config m) (latency_config m) (callbacks m).

Definition alert_manager_new : AlertManager := mkAlertManager depth_config_disabled latency_config_disabled [].
Definition with_queue_depth_alerts (warning critical : Z) : AlertManager :=
  mkAlertManager (depth_config_new warning critical) latency_config_disabled [].
Definition with_latency_alerts (warning critical : f64) : AlertManager :=
  mkAlertManager depth_config_disabled (latency_config_new warning critical) [].
Definition set_queue_depth_config (m : AlertManager) (c : QueueDepthAlertConfig) : AlertManager :=
  m <| queue_depth_config := c |>.
Definition set_latency_config (m : AlertManager) (c : LatencyAlertConfig) : AlertManager := m <| latency_config := c |>.
Definition add_callback (m : AlertManager) (callback : nat) : AlertManager := m <| callbacks ::= λ l, l ++ [callback] |>.

(** A clone starts from the defaults, without callbacks. *)
Definition alert_manager_clone (m : AlertManager) : AlertManager := alert_manager_new.

(** ** Checks *)
Definition trigger_alert (m : AlertManager) (a : Alert) : list (nat * Alert) := (λ c, (c, a)) <$> callbacks m.

Definition depth_alert (c : QueueDepthAlertConfig) (lane_id : string) (depth : Z) : option Alert :=
  if critical_threshold c <=? depth
  then Some (mkAlert Critical lane_id
               ("Queue depth critical: " +:+ show_nat depth +:+ " (threshold: " +:+ show_nat (critical_threshold c) +:+ ")")
               (f64_of_Z depth) (f64_of_Z (critical_threshold c)))
  else if warning_threshold c <=? depth
  then Some (mkAlert Warning lane_id
               ("Queue depth warning: " +:+ show_nat depth +:+ " (threshold: " +:+ show_nat (warning_threshold c) +:+ ")")
               (f64_of_Z depth) (f64_of_Z (warning_threshold c)))
  else None.

Definition check_queue_depth (m : AlertManager) (lane_id : string) (depth : Z) : list (nat * Alert) :=
  let config := queue_depth_config m in
  if negb (depth_enabled config) then []
  else match depth_alert config lane_id depth with
       | Some a => trigger_alert m a
       | None => []
       end.

Definition latency_alert (c : LatencyAlertConfig) (lane_id : string) (latency_ms : f64) : option Alert :=
  if f64_le (critical_threshold_ms c) latency_ms
  then Some (mkAlert Critical lane_id
               ("Latency critical: " +:+ show_f64 latency_ms +:+ "ms (threshold: " +:+ show_f64 (critical_threshold_ms c) +:+ "ms)")
               latency_ms (critical_threshold_ms c))
  else if f64_le (warning_threshold_ms c) latency_ms
  then Some (mkAlert Warning lane_id
               ("Latency warning: " +:+ show_f64 latency_ms +:+ "ms (threshold: " +:+ show_f64 (warning_threshold_ms c) +:+ "ms)")
               latency_ms (warning_threshold_ms c))
  else None.

Definition check_latency (m : AlertManager) (lane_id : string) (latency_ms : f64) : list (nat * Alert) :=
  let config := latency_config m in
  if negb (latency_enabled config) then []
  else match latency_alert config lane_id latency_ms with
       | Some a => trigger_alert m a
       | None => []
       end.

(** ** What the callbacks are told *)

(** The severity of what one callback hears of a check: [0] for nothing. *)
Definition severity (calls : list (nat * Alert)) : nat :=
  match calls with [] => 0 | (_, a) :: _ => S (level_rank (level a)) end.

(** Every callback is called once, in the order they were added, with the same alert. *)
Lemma told_alike m a : (trigger_alert m a).*1 = callbacks m ∧ Forall (λ c, c.2 = a) (trigger_alert m a).
Proof.
  unfold trigger_alert. split; [|by apply Forall_fmap, Forall_forall].
  rewrite <- list_fmap_compose. apply list_fmap_id.
Qed.

(** Alerts follow the thresholds: a check calls nobody when alerts are
    disabled or the value is below both thresholds; otherwise every callback
    once, in the order of registration and all with the same alert, which is
    critical exactly when the critical threshold is reached and names the lane,
    the value and the threshold that was reached. *)
Theorem alerts_follow_thresholds m lane depth :
  let c := queue_depth_config m in
  let calls := check_queue_depth m lane depth in
  (depth_enabled c = false ∨ (depth < critical_threshold c ∧ depth < warning_threshold c) → calls = []) ∧
  (depth_enabled c = true → critical_threshold c ≤ depth ∨ warning_threshold c ≤ depth →
     calls.*1 = callbacks m ∧ ∃ a, Forall (λ x, x.2 = a) calls ∧ alert_lane_id a = lane ∧ current_value a = f64_of_Z depth ∧
       (level a = Critical ↔ critical_threshold c ≤ depth) ∧ (level a = Warning ↔ depth < critical_threshold c) ∧
       threshold a = f64_of_Z (match level a with Critical => critical_threshold c | _ => warning_threshold c end)).
Proof.
  cbv zeta. unfold check_queue_depth, depth_alert.
  destruct (depth_enabled (queue_depth_config m)); simpl; [|by split].
  destruct (Z.leb_spec (critical_threshold (queue_depth_config m)) depth),
    (Z.leb_spec (warning_threshold (queue_depth_config m)) depth); (split; [intros [?|[? ?]]; (done || lia)|]).
  all: intros _ Hor; try lia.
  all: match goal with |- context [trigger_alert ?n ?a] => destruct (told_alike n a) as [H1 H2] end.
  all: split; [done|]; eexists; split; [exact H2|]; simpl; split_and!; (done || (split; (done || lia))).
Qed.

(** Severity is monotone: a larger depth, and a larger latency, never
    causes a lesser alert, whatever the thresholds are, even a critical one
    below the warning one. *)
Theorem severity_monotone m lane depth depth' latency latency' : depth ≤ depth' → f64_le latency latency' = true →
  (severity (check_queue_depth m lane depth) ≤ severity (check_queue_depth m lane depth'))%nat ∧
  (severity (check_latency m lane latency) ≤ severity (check_latency m lane latency'))%nat.
Proof.
  intros Hd Hl. unfold check_queue_depth, check_latency, depth_alert, latency_alert.
  assert (∀ a a', (level_rank (level a) ≤ level_rank (level a'))%nat →
    (severity (trigger_alert m a) ≤ severity (trigger_alert m a'))%nat) as Ht.
  { intros a a' H. unfold trigger_alert, severity. destruct (callbacks m); simpl; lia. }
  split.
  - destruct (negb _); [done|].
    destruct (Z.leb_spec (critical_threshold (queue_depth_config m)) depth),
      (Z.leb_spec (critical_threshold (queue_depth_config m)) depth'); try lia; [by apply Ht|..].
    + destruct (_ <=? depth); [apply Ht; simpl; lia|simpl; lia].
    + destruct (Z.leb_spec (warning_threshold (queue_depth_config m)) depth),
        (Z.leb_spec (warning_threshold (queue_depth_config m)) depth'); try lia; [by apply Ht|simpl; lia].
  - destruct (negb _); [done|].
    destruct (f64_le (critical_threshold_ms (latency_config m)) latency) eqn:E1.
    { rewrite (f64_le_trans _ _ _ E1 Hl). by apply Ht. }
    destruct (f64_le (critical_threshold_ms (latency_config m)) latency').
    { destruct (f64_le (warning_threshold_ms _) latency); [apply Ht; simpl; lia|simpl; lia]. }
    destruct (f64_le (warning_threshold_ms (latency_config m)) latency) eqn:E2; [|simpl; lia].
    rewrite (f64_le_trans _ _ _ E2 Hl). by apply Ht.
Qed.

Module AlertDemo.
Definition watched : AlertManager := add_callback (add_callback (with_queue_depth_alerts 100 200) 1) 2.
End AlertDemo.
Import AlertDemo.

Example depth_message : message <$> (check_queue_depth watched "query" 150).*2 =
  ["Queue depth warning: 150 (threshold: 100)"; "Queue depth warning: 150 (threshold: 100)"].
Proof. vm_compute. reflexivity. Qed.

(** [0.125] is a tie and rounds to even; [2.675] lies below the tie. *)
Example two_decimals : (show_f64 (S754_finite false 4503599627370496 (-55)), show_f64 (f64_of_Z (-7)),
  show_f64 (S754_finite false 6023564501608038 (-51))) = ("0.12", "-7.00", "2.67").
Proof. vm_compute. reflexivity. Qed.

Lemma alerts_follow_thresholds_witness :
  critical_threshold (queue_depth_config watched) = 200 ∧ (check_queue_depth watched "query" 250).*1 = [1%nat; 2%nat].
Proof.
  split; [reflexivity|]. apply (alerts_follow_thresholds watched "query" 250); [reflexivity|left; simpl; lia].
Defined.

Lemma severity_monotone_witness :
  severity (check_queue_depth watched "query" 150) = 2%nat ∧
  (severity (check_queue_depth watched "query" 150) ≤ severity (check_queue_depth watched "query" 250))%nat.
Proof.
  split; [reflexivity|]. apply (severity_monotone watched "query" 150 250 f64_zero f64_zero); [lia|reflexivity].
Defined.
