(* ===== verification/Manager.v ===== *)
(** * The queue manager and the monitor ([src/manager.rs], [src/monitor.rs])

    [QueueManagerBuilder] collects the configuration of a queue and builds it;
    [QueueManager] owns the queue and the handle of its scheduler task;
    [QueueMonitor] reads totals and warns.  A scheduler is a task that runs the
    rounds of [LaneQueue] until the queue is shut down and idle, or until a
    round panics.  The lock of the handle, the calls of [drain] under way and
    the tasks are part of the state, and any interleaving is a list of
    [ManagerAction]s. *)
From S2P Require Import Prelude Ordering Text External Retry DeadLetter RateLimit Boost LaneTypes LaneQueue LaneRules LaneSchedule Metrics Alerts Sums.
Local Open Scope nat_scope.

(** ** Names and priorities of the default lanes ([src/queue.rs]) *)
Module priorities.
Definition SYSTEM : Z := 0.
Definition CONTROL : Z := 1.
Definition QUERY : Z := 2.
Definition SESSION : Z := 3.
Definition SKILL : Z := 4.
Definition PROMPT : Z := 5.
End priorities.

Module lane_ids.
Definition SYSTEM : string := "system".
Definition CONTROL : string := "control".
Definition QUERY : string := "query".
Definition SESSION : string := "session".
Definition SKILL : string := "skill".
Definition PROMPT : string := "prompt".
End lane_ids.

Section manager.
Context {X : Ext} {B : Type} `{!MetricsBackend B}.

(** ** Statistics *)
Record QueueStats := mkQueueStats {
  total_pending : nat;
  total_active : nat;
  dead_letter_count : nat;
  stat_lanes : gmap string LaneStatus;
}.

(** The loop over the values of the status map. *)
Definition sum_status (lane_status : gmap string LaneStatus) : nat * nat :=
  foldl (λ t st, (t.1 + st_pending st, t.2 + st_active st)) (0, 0) (hash_values lane_status).

Definition count_dead_letters (q : CommandQueue) : nat :=
  match dlq q with Some d => Dlq.len d | None => 0 end.

Definition queue_stats (q : CommandQueue) : QueueStats :=
  let lane_status := queue_status q in
  let '(total_pending, total_active) := sum_status lane_status in
  mkQueueStats total_pending total_active (count_dead_letters q) lane_status.

(** ** [QueueMonitor] *)
Record MonitorConfig := mkMonitorConfig {
  interval : Duration;
  pending_warning_threshold : nat;
  active_warning_threshold : nat;
}.
Definition monitor_config_default : MonitorConfig := mkMonitorConfig (from_secs 10) 100 50.

Inductive HealthWarning : Type :=
| AtCapacity (lane_id : string)
| HighPending (total threshold : nat)
| HighActive (total threshold : nat).

Definition lane_warning (e : string * LaneStatus) : list HealthWarning :=
  if st_max e.2 <=? st_active e.2 then [AtCapacity e.1] else [].

(** The warnings that one round logs, in order. *)
Definition check_health (config : MonitorConfig) (q : CommandQueue) : list HealthWarning :=
  let status := queue_status q in
  let '(total_pending, total_active) := sum_status status in
  mbind lane_warning (hash_iter status)
  ++ (if pending_warning_threshold config <? total_pending
      then [HighPending total_pending (pending_warning_threshold config)] else [])
  ++ (if active_warning_threshold config <? total_active
      then [HighActive total_active (active_warning_threshold config)] else []).

(** ** [QueueManager] *)
Inductive SchedulerTask : Type :=
| Looping
| Finished_
| Crashed (error : string).      (* the text of the [JoinError] *)

Definition is_finished (s : SchedulerTask) : bool := match s with Looping => false | _ => true end.

(** A call of [drain]. *)
Inductive DrainState : Type :=
| WaitingIdle (c : IdleCheck)    (* in [wait_for_idle], in the middle of a check *)
| WaitingLock                    (* about to lock the handle *)
| Joining                        (* awaits the scheduler, holding the lock *)
| Returned (r : Result unit).

Record Drain := mkDrain { dr_timeout : Duration; dr_state : DrainState }.

Record QueueManager := mkManager {
  queue : CommandQueue;
  scheduler_handle : option nat;
  handle_lock : option nat;      (* the [drain] that holds it across an await *)
  schedulers : list SchedulerTask;
  exit_checks : gmap nat IdleCheck;  (* the schedulers that are asking whether to end *)
  drains : list Drain;
  manager_metrics : option B;
  alerts : option AlertManager;
}.
#[export] Instance eta_QueueManager : Eta QueueManager := λ m,
  mkManager (queue m) (scheduler_handle m) (handle_lock m) (schedulers m) (exit_checks m) (drains m) (manager_metrics m) (alerts m).

Definition with_observability (q : CommandQueue) (metrics : option B) (a : option AlertManager) : QueueManager :=
  mkManager q None None [] ∅ [] metrics a.

Definition join_error (error : string) : LaneError := Other ("Queue scheduler task failed: " +:+ error).

(** A new task and its handle. *)
Definition spawn_scheduler (m : QueueManager) : QueueManager :=
  m <| scheduler_handle := Some (length (schedulers m)) |> <| schedulers ::= λ l, l ++ [Looping] |>.

(** [start], once it has the lock. *)
Definition start (m : QueueManager) : QueueManager * Result unit :=
  match scheduler_handle m ≫= λ h, schedulers m !! h with
  | None => (spawn_scheduler m, Ok tt)
  | Some task =>
      if negb (is_finished task) then (m, Ok tt)
      else
        let m := m <| scheduler_handle := None |> in
        match task with
        | Crashed error => (m, Err (join_error error))
        | _ => (spawn_scheduler m, Ok tt)
        end
  end.

Definition submit (m : QueueManager) (t : LaneTelemetry) (lane_id command_id command_type : string) (now : DateTime)
    : QueueManager * LaneTelemetry * Result nat :=
  let '(q, r) := LaneQueue.submit (queue m) lane_id command_id command_type now in
  (m <| queue := q |>, telemetry_submit t, r).

Definition stats (m : QueueManager) : Result QueueStats := Ok (queue_stats (queue m)).
Definition shutdown (m : QueueManager) (now : DateTime) : QueueManager :=
  m <| queue ::= λ q, LaneQueue.shutdown q now |>.
Definition is_shutting_down (m : QueueManager) : bool := LaneQueue.is_shutting_down (queue m).

(** *** [drain] *)
Definition put_drain (m : QueueManager) (k : nat) (s : DrainState) : QueueManager :=
  match drains m !! k with
  | Some d => m <| drains ::= <[k := mkDrain (dr_timeout d) s]> |>
  | None => m
  end.

Definition drain (m : QueueManager) (timeout : Duration) : QueueManager :=
  m <| drains ::= λ l, l ++ [mkDrain timeout (WaitingIdle CheckOutstanding)] |>.

(** The [drain] goes on as far as the next thing it waits for.  A check that
    answers no is made again after a change or ten milliseconds. *)
Definition drain_step (m : QueueManager) (k : nat) : QueueManager :=
  match drains m !! k with
  | Some (mkDrain _ (WaitingIdle c)) =>
      put_drain m k
        match check_step (queue m) c with
        | AskNext c => WaitingIdle c
        | Answer false => WaitingIdle CheckOutstanding
        | Answer true => if is_shutting_down m then WaitingLock else Returned (Ok tt)
        end
  | Some (mkDrain _ WaitingLock) =>
      match handle_lock m with
      | Some _ => m
      | None =>
          match scheduler_handle m with
          | None => put_drain m k (Returned (Ok tt))
          | Some _ => (put_drain m k Joining) <| handle_lock := Some k |>
          end
      end
  | Some (mkDrain _ Joining) =>
      match scheduler_handle m ≫= λ h, schedulers m !! h with
      | Some Finished_ => (put_drain m k (Returned (Ok tt))) <| scheduler_handle := None |> <| handle_lock := None |>
      | Some (Crashed error) =>
          (put_drain m k (Returned (Err (join_error error)))) <| scheduler_handle := None |> <| handle_lock := None |>
      | _ => m
      end
  | _ => m
  end.

(** The timeout drops the future, and with it the lock. *)
Definition drain_timeout (m : QueueManager) (k : nat) : QueueManager :=
  match drains m !! k with
  | Some (mkDrain t (Returned _)) => m
  | Some (mkDrain t Joining) => (put_drain m k (Returned (Err (Timeout_ t)))) <| handle_lock := None |>
  | Some (mkDrain t _) => put_drain m k (Returned (Err (Timeout_ t)))
  | None => m
  end.

(** *** The scheduler tasks *)

(** A task that runs its rounds performs a step of them. *)
Definition scheduler_step (m : QueueManager) (h : nat) (a : Action) : QueueManager :=
  match schedulers m !! h, exit_checks m !! h with
  | Some Looping, None => m <| queue ::= λ q, exec q a |>
  | _, _ => m
  end.

(** A region of the check at the end of a round. *)
Definition scheduler_asks (m : QueueManager) (h : nat) (c : IdleCheck) (now : DateTime) : QueueManager :=
  match check_step (queue m) c with
  | AskNext c => m <| exit_checks ::= <[h := c]> |>
  | Answer false => m <| exit_checks ::= delete h |>
  | Answer true =>
      m <| queue ::= λ q, announce_shutdown q now |> <| schedulers ::= <[h := Finished_]> |> <| exit_checks ::= delete h |>
  end.

(** [if self.is_shutting_down() && self.is_idle().await]: the flag is read with
    the first region of the check. *)
Definition scheduler_ends (m : QueueManager) (h : nat) (now : DateTime) : QueueManager :=
  match schedulers m !! h with
  | Some Looping =>
      match exit_checks m !! h with
      | None => if is_shutting_down m then scheduler_asks m h CheckOutstanding now else m
      | Some c => scheduler_asks m h c now
      end
  | _ => m
  end.

(** A round panics when the date arithmetic of a booster does. *)
Definition scheduler_panics (m : QueueManager) (h : nat) (error : string) (now : DateTime) : QueueManager :=
  match schedulers m !! h, exit_checks m !! h with
  | Some Looping, None =>
      match mapM (priority_of (queue m) now) (hash_iter (lanes (queue m))).*2 with
      | None => m <| schedulers ::= <[h := Crashed error]> |>
      | Some _ => m
      end
  | _, _ => m
  end.

Inductive ManagerAction : Type :=
| MQueue (a : Action)                                   (* submissions, tasks, timers, lanes, dead letters *)
| MScheduler (h : nat) (a : Action)                     (* a step of a round *)
| MSchedulerEnds (h : nat) (now : DateTime)             (* a region of its check for the end *)
| MSchedulerPanics (h : nat) (error : string) (now : DateTime)
| MStart
| MShutdown (now : DateTime)
| MDrain (timeout : Duration)
| MDrainStep (k : nat)
| MDrainTimeout (k : nat).

Definition mexec (m : QueueManager) (a : ManagerAction) : QueueManager :=
  match a with
  | MQueue a => m <| queue ::= λ q, exec q a |>
  | MScheduler h a => scheduler_step m h a
  | MSchedulerEnds h now => scheduler_ends m h now
  | MSchedulerPanics h error now => scheduler_panics m h error now
  | MStart => match handle_lock m with None => (start m).1 | Some _ => m end
  | MShutdown now => shutdown m now
  | MDrain timeout => drain m timeout
  | MDrainStep k => drain_step m k
  | MDrainTimeout k => drain_timeout m k
  end.

Definition mrun (m : QueueManager) (acts : list ManagerAction) : QueueManager := foldl mexec m acts.

(** Steps of a round are the scheduler's, the others are not. *)
Definition manager_action_ok (a : ManagerAction) : Prop :=
  match a with
  | MQueue a => action_ok a ∧ ¬ scheduler_action a
  | MScheduler _ a => round_action a
  | _ => True
  end.

(** ** [QueueManagerBuilder] *)
Record QueueManagerBuilder := mkBuilder {
  lane_configs : gmap string (LaneConfig * Z);
  storage : bool;
  dlq_size : option nat;
  b_metrics : option B;
  b_alerts : option AlertManager;
}.
#[export] Instance eta_QueueManagerBuilder : Eta QueueManagerBuilder := λ b,
  mkBuilder (lane_configs b) (storage b) (dlq_size b) (b_metrics b) (b_alerts b).

Definition builder_new : QueueManagerBuilder := mkBuilder ∅ false None None None.
Definition with_lane (b : QueueManagerBuilder) (id : string) (c : LaneConfig) (p : Z) : QueueManagerBuilder :=
  b <| lane_configs ::= <[ id := (c, p) ]> |>.
Definition with_storage (b : QueueManagerBuilder) : QueueManagerBuilder := b <| storage := true |>.
Definition with_dlq (b : QueueManagerBuilder) (size : nat) : QueueManagerBuilder := b <| dlq_size := Some size |>.
Definition with_metrics (b : QueueManagerBuilder) (metrics : B) : QueueManagerBuilder := b <| b_metrics := Some metrics |>.
Definition with_alerts (b : QueueManagerBuilder) (a : AlertManager) : QueueManagerBuilder := b <| b_alerts := Some a |>.

Definition with_default_lanes (b : QueueManagerBuilder) : QueueManagerBuilder :=
  let b := with_lane b lane_ids.SYSTEM (lane_config_new 1 5) priorities.SYSTEM in
  let b := with_lane b lane_ids.CONTROL (lane_config_new 1 3) priorities.CONTROL in
  let b := with_lane b lane_ids.QUERY (lane_config_new 1 10) priorities.QUERY in
  let b := with_lane b lane_ids.SESSION (lane_config_new 1 5) priorities.SESSION in
  let b := with_lane b lane_ids.SKILL (lane_config_new 1 3) priorities.SKILL in
  with_lane b lane_ids.PROMPT (lane_config_new 1 2) priorities.PROMPT.

(** One iteration of the loop of [build]; [clock] tells when the lane of an
    id is created. *)
Definition add_lane (storage : bool) (clock : string → Instant) (q : CommandQueue) (e : string * (LaneConfig * Z))
    : CommandQueue :=
  let '(id, (c, p)) := e in
  let o := length (objects q) in
  register_lane (create_lane q (lane_new id c p storage (clock id))) o.

Definition build (b : QueueManagerBuilder) (clock : string → Instant) : QueueManager :=
  let q := foldl (add_lane (storage b) clock) (queue_new (dlq_size b)) (hash_iter (lane_configs b)) in
  with_observability q (b_metrics b) (b_alerts b).

(** A manager is built once and then lives on. *)
Inductive managed (b : QueueManagerBuilder) : QueueManager → Prop :=
| managed_built clock : managed b (build b clock)
| managed_exec m a : managed b m → manager_action_ok a → managed b (mexec m a).
End manager.
