(* ===== verification/ManagerRules.v ===== *)
(** * What the manager promises

    A built queue has exactly the lanes that were configured; at most one
    scheduler runs, and it is the one the manager can wait for; a drain that
    returns without an error has seen a moment at which nothing submitted was
    undone, although its check for idleness is not atomic; and a drain of a
    manager that was shut down while its scheduler runs can come to its end when
    the lanes can work.  The end of the file runs a manager on a concrete
    configuration. *)
From S2P Require Import Prelude Ordering Text Float64 External Retry DeadLetter RateLimit Boost LaneTypes LaneQueue LaneInvariant LaneRules LaneSchedule LaneDrain FloatOrder Metrics Alerts Manager Sums.
Local Open Scope nat_scope.

Section rules.
Context {X : Ext} `{!ExtLaws X} {B : Type} `{!MetricsBackend B}.
Implicit Types (q : CommandQueue) (l : Lane) (m : @QueueManager X B) (b : @QueueManagerBuilder B).

(** ** Building *)
Definition built_lane (st : bool) (clock : string → Instant) (e : string * (LaneConfig * Z)) : Lane :=
  lane_new e.1 e.2.1 e.2.2 st (clock e.1).

Lemma add_lane_fields st clock q e : let q' := add_lane st clock q e in
  objects q' = objects q ++ [built_lane st clock e] ∧ lanes q' = <[ e.1 := length (objects q) ]> (lanes q) ∧
  outstanding q' = outstanding q ∧ LaneQueue.is_shutting_down q' = LaneQueue.is_shutting_down q ∧ dlq q' = dlq q.
Proof.
  destruct e as [id [c p]]. cbv zeta. unfold add_lane, register_lane. cbn [fst snd].
  assert (objects (create_lane q (lane_new id c p st (clock id))) !! length (objects q) = Some (lane_new id c p st (clock id))) as ->.
  { unfold create_lane, upd. simpl. by rewrite lookup_app_r, Nat.sub_diag by lia. }
  done.
Qed.

Lemma built_fields st clock es q : let q' := foldl (add_lane st clock) q es in
  objects q' = objects q ++ (built_lane st clock <$> es) ∧ outstanding q' = outstanding q ∧
  LaneQueue.is_shutting_down q' = LaneQueue.is_shutting_down q ∧ dlq q' = dlq q.
Proof.
  cbv zeta. revert q. induction es as [|e es IH]; intros q; cbn [foldl]; [by rewrite fmap_nil, app_nil_r|].
  destruct (IH (add_lane st clock q e)) as (H1 & H2 & H3 & H4).
  destruct (add_lane_fields st clock q e) as (E1 & _ & E3 & E4 & E5).
  rewrite H1, H2, H3, H4, E1, E3, E4, E5, fmap_cons, <- app_assoc. done.
Qed.

Lemma built_names st clock es q id o : NoDup es.*1 →
  lanes (foldl (add_lane st clock) q es) !! id = Some o ↔
  (∃ i e, es !! i = Some e ∧ e.1 = id ∧ o = (length (objects q) + i)) ∨ (¬ (id ∈ es.*1) ∧ lanes q !! id = Some o).
Proof.
  revert q. induction es as [|e es IH]; intros q Hnd; cbn [foldl].
  { rewrite fmap_nil. set_solver. }
  rewrite fmap_cons in *. apply NoDup_cons in Hnd as [He Hnd]. rewrite IH by done.
  destruct (add_lane_fields st clock q e) as (E1 & -> & _). rewrite E1, length_app. simpl. split.
  - intros [(i & e' & Hi & He' & ->)|[Hn Hl]].
    + left. exists (S i), e'. split; [done|]. split; [done|lia].
    + apply lookup_insert_Some in Hl as [[<- <-]|[Hne Hl]].
      * left. exists 0, e. split; [done|]. split; [done|lia].
      * right. split; [|done]. rewrite not_elem_of_cons. naive_solver.
  - intros [([|i] & e' & Hi & He' & ->)|[Hn Hl]].
    + simpl in Hi. injection Hi as <-. right. subst id. split; [done|]. rewrite lookup_insert_eq. f_equal. lia.
    + left. exists i, e'. split; [done|]. split; [done|lia].
    + apply not_elem_of_cons in Hn as [Hne Hn]. right. split; [done|]. by rewrite lookup_insert_ne by congruence.
Qed.

Definition builder_ok b : Prop := ∀ id e, lane_configs b !! id = Some e → policy_ok (retry_policy e.1).

Lemma builder_ok_lane b id c p : builder_ok b → policy_ok (retry_policy c) → builder_ok (with_lane b id c p).
Proof.
  intros Hb Hc id' e He. unfold with_lane, upd in He. simpl in He.
  apply lookup_insert_Some in He as [[<- <-]|[_ He]]; [done|by apply (Hb id')].
Qed.

Lemma builder_ok_dlq b n : builder_ok b → builder_ok (with_dlq b n).
Proof. done. Qed.

Lemma builder_ok_metrics b (metrics : B) : builder_ok b → builder_ok (with_metrics b metrics).
Proof. done. Qed.

Lemma builder_ok_defaults b : builder_ok b → builder_ok (with_default_lanes b).
Proof.
  intros Hb. unfold with_default_lanes. cbv zeta.
  repeat (apply builder_ok_lane; [|unfold policy_ok, U32_MAX; simpl; lia]). done.
Qed.

Lemma configured_once b : NoDup (hash_iter (lane_configs b)).*1.
Proof. rewrite hash_iter_perm. apply NoDup_fst_map_to_list. Qed.

Lemma elem_of_configs b id e : (id, e) ∈ hash_iter (lane_configs b) ↔ lane_configs b !! id = Some e.
Proof. by rewrite hash_iter_perm, elem_of_map_to_list. Qed.

Lemma built_lookup b clock id e : lane_configs b !! id = Some e →
  ∃ o, lanes (queue (build b clock)) !! id = Some o ∧
       objects (queue (build b clock)) !! o = Some (built_lane (storage b) clock (id, e)).
Proof.
  intros He. apply elem_of_configs, list_elem_of_lookup in He as [i Hi]. exists i. cbn [build with_observability queue].
  destruct (built_fields (storage b) clock (hash_iter (lane_configs b)) (queue_new (dlq_size b))) as (-> & _). split.
  - apply built_names; [apply configured_once|]. left. exists i, (id, e). done.
  - simpl. rewrite list_lookup_fmap, Hi. done.
Qed.

Lemma built_lane_known b clock id o : lanes (queue (build b clock)) !! id = Some o →
  ∃ e, lane_configs b !! id = Some e ∧ objects (queue (build b clock)) !! o = Some (built_lane (storage b) clock (id, e)).
Proof.
  intros Ho. assert (∃ e, lane_configs b !! id = Some e) as [e He].
  { cbn [build with_observability queue] in Ho. apply built_names in Ho; [|apply configured_once].
    destruct Ho as [(i & [id' e] & Hi & Hid & _)|[_ Ho]]; [|done]. simpl in Hid. subst id'.
    exists e. apply elem_of_configs. by eapply list_elem_of_lookup_2. }
  exists e. split; [done|]. destruct (built_lookup b clock id e He) as (o' & Ho' & Hl). congruence.
Qed.

(** The builder configures the queue: whatever the order in which the map
    of configurations is iterated, the queue has one lane for every id that was
    configured last, new, with that configuration, priority and storage, and
    none else; its status shows them idle, nothing is outstanding, it is not
    shutting down, it has the dead letter queue asked for, and no scheduler
    runs. *)
Theorem build_configures b clock :
  let m := build b clock in let q := queue m in
  queue_status q = (λ e, mkStatus 0 0 (min_concurrency e.1) (max_concurrency e.1)) <$> lane_configs b ∧
  (∀ id c p, lane_configs b !! id = Some (c, p) →
     ∃ o, lanes q !! id = Some o ∧ objects q !! o = Some (lane_new id c p (storage b) (clock id))) ∧
  is_idle q = true ∧ is_shutting_down m = false ∧ dlq q = Dlq.new <$> dlq_size b ∧
  schedulers m = [] ∧ manager_metrics m = b_metrics b ∧ alerts m = b_alerts b.
Proof.
  cbv zeta. split_and!; try done.
  - apply map_eq. intros id. unfold queue_status. rewrite lookup_omap, lookup_fmap.
    destruct (lanes (queue (build b clock)) !! id) as [o|] eqn:Ho; cbn [mbind option_bind].
    + destruct (built_lane_known b clock id o Ho) as (e & -> & ->). done.
    + destruct (lane_configs b !! id) as [e|] eqn:He; [|done].
      destruct (built_lookup b clock id e He) as (o & Ho' & _). congruence.
  - intros id c p He. destruct (built_lookup b clock id (c, p) He) as (o & Ho & Hl). eauto.
  - unfold is_idle. destruct (built_fields (storage b) clock (hash_iter (lane_configs b)) (queue_new (dlq_size b))) as (_ & Hout & _).
    cbn [build with_observability queue]. rewrite Hout. simpl. apply forallb_forall.
    intros o Hin%list_elem_of_In%elem_of_hash_values. destruct Hin as [id Hid].
    destruct (built_lane_known b clock id o Hid) as (e & _ & Hl). unfold object_is_idle.
    cbn [build with_observability queue] in Hl. by rewrite Hl.
  - unfold is_shutting_down. cbn [build with_observability queue].
    by destruct (built_fields (storage b) clock (hash_iter (lane_configs b)) (queue_new (dlq_size b))) as (_ & _ & -> & _).
  - cbn [build with_observability queue].
    by destruct (built_fields (storage b) clock (hash_iter (lane_configs b)) (queue_new (dlq_size b))) as (_ & _ & _ & ->).
Qed.

Lemma reachable_add_lane n st clock q e : reachable n q → policy_ok (retry_policy e.2.1) → reachable n (add_lane st clock q e).
Proof.
  intros H Hp. destruct e as [id [c p]]. apply (reachable_exec n _ (ActRegister (length (objects q)))); [|done].
  by apply (reachable_exec n q (ActCreate id c p st (clock id))).
Qed.

Lemma reachable_build b clock : builder_ok b → reachable (dlq_size b) (queue (build b clock)).
Proof.
  intros Hok. cbn [build with_observability queue].
  apply (foldl_keeps_forall (reachable (dlq_size b)) (λ e, policy_ok (retry_policy e.2.1))); [|..|constructor].
  - intros q e. apply reachable_add_lane.
  - apply Forall_forall. intros [id e] He%elem_of_configs. by apply (Hok id).
Qed.

(** ** The handle and its lock *)
Definition joins (d : Drain) : bool := match dr_state d with Joining => true | _ => false end.
Definition past_idle (d : Drain) : bool := match dr_state d with WaitingLock | Joining => true | _ => false end.

Record handles m : Prop := {
  h_looping : ∀ h, schedulers m !! h = Some Looping → scheduler_handle m = Some h;
  h_handle : ∀ h, scheduler_handle m = Some h → h < length (schedulers m);
  h_joining : ∀ k d, drains m !! k = Some d → joins d = true → handle_lock m = Some k;
  h_lock : ∀ k, handle_lock m = Some k → is_Some (scheduler_handle m);
  h_idled : ∀ k d, drains m !! k = Some d → past_idle d = true → is_shutting_down m = true;
  h_checks : ∀ h c, exit_checks m !! h = Some c →
    schedulers m !! h = Some Looping ∧ is_shutting_down m = true ∧ outstanding (queue m) = 0%Z;
  h_finished : ∀ h, schedulers m !! h = Some Finished_ → is_shutting_down m = true ∧ outstanding (queue m) = 0%Z;
}.

(** Steps of the queue leave the tasks, the handle and its lock alone; once
    it is shutting down with nothing outstanding, it stays so. *)
Lemma handles_queue m q : handles m → (is_shutting_down m = true → LaneQueue.is_shutting_down q = true ∧
  (outstanding (queue m) = 0%Z → outstanding q = 0%Z)) → handles (m <| queue := q |>).
Proof.
  intros [H1 H2 H3 H4 H5 H6 H7] Hq. split; try done.
  - intros k d Hd Hp. by apply Hq, (H5 k d).
  - intros h c Hc. destruct (H6 h c Hc) as (? & Hsd & H0). destruct (Hq Hsd). auto.
  - intros h Hh. destruct (H7 h Hh) as [Hsd H0]. destruct (Hq Hsd). auto.
Qed.

Lemma handles_exec n m a : handles m → reachable n (queue m) → action_ok a → handles (m <| queue ::= λ q, exec q a |>).
Proof.
  intros H Hr Ha. apply (handles_queue m (exec (queue m) a)); [done|]. intros Hs.
  destruct (exec_keeps_shutdown (queue m) a Hs) as [Hs' Hle]. split; [done|]. intros H0.
  pose proof (wf_outstanding _ (wf_reachable n _ (reachable_exec n _ a Hr Ha))). lia.
Qed.

(** A drain moves to a state that neither waits for the lock nor holds it. *)
Lemma handles_drain m k d s : handles m → drains m !! k = Some d → joins d = false →
  (past_idle (mkDrain (dr_timeout d) s) = true → is_shutting_down m = true) →
  joins (mkDrain (dr_timeout d) s) = false →
  handles (put_drain m k s).
Proof.
  intros [H1 H2 H3 H4 H5 H6 H7] Hd Hj Hs Hs'. unfold put_drain. rewrite Hd. split; try done.
  - intros k' d'. simpl. intros [(-> & <- & _)|[Hne Hd']]%list_lookup_insert_Some Hj'; [congruence|].
    by apply (H3 k' d').
  - intros k' d'. simpl. intros [(-> & <- & _)|[Hne Hd']]%list_lookup_insert_Some Hp; [by apply Hs|].
    by apply (H5 k' d').
Qed.

(** The drain that joins ends; the scheduler is taken when it has ended. *)
Lemma handles_joined m k t r : handles m → drains m !! k = Some (mkDrain t Joining) →
  handles ((put_drain m k (Returned r)) <| handle_lock := None |>) ∧
  ((∀ h, schedulers m !! h ≠ Some Looping) →
   handles ((put_drain m k (Returned r)) <| scheduler_handle := None |> <| handle_lock := None |>)).
Proof.
  intros [H1 H2 H3 H4 H5 H6 H7] Hd. pose proof (H3 k _ Hd eq_refl) as Hlock. unfold put_drain. rewrite Hd. simpl.
  assert (∀ k' d, <[k := mkDrain t (Returned r)]> (drains m) !! k' = Some d → joins d = false) as Hj.
  { intros k' d [(-> & <- & _)|[Hne Hd']]%list_lookup_insert_Some; [done|]. destruct (joins d) eqn:E; [|done].
    rewrite (H3 k' d Hd' E) in Hlock. congruence. }
  assert (∀ k' d, <[k := mkDrain t (Returned r)]> (drains m) !! k' = Some d → past_idle d = true →
    is_shutting_down m = true) as Hp.
  { intros k' d [(-> & <- & _)|[Hne Hd']]%list_lookup_insert_Some Hp; [done|by apply (H5 k' d)]. }
  split; [split|intros Hl; split]; simpl; try done.
  - intros k' d Hd' E. by rewrite (Hj k' d Hd') in E.
  - intros h Hh. by destruct (Hl h).
  - intros k' d Hd' E. by rewrite (Hj k' d Hd') in E.
Qed.

(** Only the task of the handle can be running; another one can be started
    once it has ended. *)
Lemma handles_spawn m : handles m → handle_lock m = None →
  (∀ h, scheduler_handle m = Some h → schedulers m !! h ≠ Some Looping) → handles (spawn_scheduler m).
Proof.
  intros [H1 H2 H3 H4 H5 H6 H7] Hlock Hno. unfold spawn_scheduler. split; simpl.
  - intros h [Hh|[Hlt Hh]]%lookup_app_Some; [by destruct (Hno h (H1 h Hh))|].
    apply list_lookup_singleton_Some in Hh as [Hh _]. f_equal. lia.
  - intros h [= <-]. rewrite length_app. simpl. lia.
  - done.
  - intros k Hk. congruence.
  - done.
  - intros h c Hc. destruct (H6 h c Hc) as (Hh & _). by destruct (Hno h (H1 h Hh)).
  - intros h [Hh|[Hlt Hh]]%lookup_app_Some; [by apply (H7 h)|]. by apply list_lookup_singleton_Some in Hh as [_ Hh].
Qed.

Lemma handles_start m : handles m → handle_lock m = None → handles (start m).1.
Proof.
  intros H Hlock. unfold start. destruct (scheduler_handle m ≫= _) as [task|] eqn:E.
  2:{ apply handles_spawn; [done..|]. intros h Hh. rewrite Hh in E. simpl in E. by rewrite E. }
  destruct (scheduler_handle m) as [h|] eqn:Hh; [|done]. simpl in E.
  assert (task ≠ Looping → handles (m <| scheduler_handle := None |>)) as Hnone.
  { intros Ht. destruct H as [H1 H2 H3 H4 H5 H6 H7]. split; simpl; try done.
    - intros h' Hh'. pose proof (H1 h' Hh'). congruence.
    - intros k Hk. congruence. }
  destruct task; simpl; [done|..]; [|by apply Hnone]. by apply (handles_spawn (m <| scheduler_handle := None |>)); [apply Hnone|..].
Qed.

Lemma handles_built b clock : handles (build b clock).
Proof. split; simpl; try done. Qed.

Lemma looping_none m h s : handles m → scheduler_handle m = Some h → schedulers m !! h = Some s → s ≠ Looping →
  ∀ h', schedulers m !! h' ≠ Some Looping.
Proof. intros H Hh Hs Hne h' Hh'. pose proof (h_looping m H h' Hh'). congruence. Qed.

(** A task that crashes had no check under way. *)
Lemma handles_crashed m h e : handles m → schedulers m !! h = Some Looping → exit_checks m !! h = None →
  handles (m <| schedulers ::= <[h := Crashed e]> |>).
Proof.
  intros [H1 H2 H3 H4 H5 H6 H7] Hh Hc. split; simpl; try done.
  - intros h' [(-> & Hs' & _)|[Hne Hh']]%list_lookup_insert_Some; [congruence|by apply H1].
  - intros h' Hh'. rewrite length_insert. by apply H2.
  - intros h' c Hc'. destruct (H6 h' c Hc'). split; [|done]. rewrite list_lookup_insert_ne by congruence. done.
  - intros h' [(-> & Hs' & _)|[Hne Hh']]%list_lookup_insert_Some; [done|by apply (H7 h')].
Qed.

(** A region of the check of a scheduler, in a queue that is shutting down. *)
Lemma handles_asks n m h c now : handles m → reachable n (queue m) → schedulers m !! h = Some Looping →
  is_shutting_down m = true → (c = CheckOutstanding ∨ outstanding (queue m) = 0%Z) →
  handles (scheduler_asks m h c now) ∧ reachable n (queue (scheduler_asks m h c now)).
Proof.
  intros H Hr Hh Hsd Hc. unfold scheduler_asks.
  assert (check_step (queue m) c ≠ Answer false → c ≠ CheckOutstanding ∨ outstanding (queue m) = 0%Z) as Hz.
  { destruct c; [|by left..]. cbn [check_step]. destruct (Z.eqb_spec (outstanding (queue m)) 0); [by right|done]. }
  assert (check_step (queue m) c ≠ Answer false → outstanding (queue m) = 0%Z) as H0.
  { intros Hn. destruct Hc as [->|]; [|done]. by destruct (Hz Hn). }
  destruct (check_step (queue m) c) as [c'|[]].
  - split; [|done]. destruct H as [H1 H2 H3 H4 H5 H6 H7]. split; simpl; try done.
    intros h' c1 [[<- <-]|[_ Hc1]]%lookup_insert_Some; [|by apply (H6 h' c1)]. by split_and!; [..|apply H0].
  - specialize (H0 ltac:(done)). pose proof (reachable_exec n _ (ActExit now) Hr I) as Hr'.
    pose proof (handles_exec n m (ActExit now) H Hr I) as H'. cbn [exec] in Hr', H'. unfold is_shutting_down in Hsd.
    unfold upd in H'. rewrite Hsd in Hr', H'. split; [|exact Hr'].
    destruct H' as [H1 H2 H3 H4 H5 H6 H7]. split; simpl in *; try done.
    + intros h' [(-> & Hs' & _)|[Hne Hh']]%list_lookup_insert_Some; [congruence|by apply H1].
    + intros h' Hh'. rewrite length_insert. by apply H2.
    + intros h' c1 [Hne Hc1]%lookup_delete_Some. destruct (H6 h' c1 Hc1). split; [|done].
      by rewrite list_lookup_insert_ne by done.
  - split; [|done]. destruct H as [H1 H2 H3 H4 H5 H6 H7]. split; simpl; try done.
    intros h' c1 [_ Hc1]%lookup_delete_Some. by apply (H6 h' c1).
Qed.

Lemma handles_ends n m h now : handles m → reachable n (queue m) →
  handles (scheduler_ends m h now) ∧ reachable n (queue (scheduler_ends m h now)).
Proof.
  intros H Hr. unfold scheduler_ends. destruct (schedulers m !! h) as [[| |]|] eqn:E; try done.
  destruct (exit_checks m !! h) as [c|] eqn:Ec.
  - destruct (h_checks m H h c Ec) as (_ & ? & ?). apply handles_asks; auto.
  - destruct (is_shutting_down m) eqn:Es; [|done]. apply handles_asks; auto.
Qed.

Lemma handles_drain_step m k : handles m → handles (drain_step m k).
Proof.
  intros H. unfold drain_step. destruct (drains m !! k) as [[t []]|] eqn:Hd; try done.
  - eapply handles_drain; [done|done|done|..].
    + destruct (check_step _ _) as [|[]]; [done| |done]. by destruct (is_shutting_down m).
    + destruct (check_step _ _) as [|[]]; [done| |done]. by destruct (is_shutting_down m).
  - destruct (handle_lock m) eqn:El; [done|]. destruct (scheduler_handle m) eqn:Eh; [|by eapply handles_drain].
    destruct H as [H1 H2 H3 H4 H5 H6 H7]. unfold put_drain. rewrite Hd. split; simpl; try done.
    + intros k' d [(-> & <- & _)|[Hne Hd']]%list_lookup_insert_Some Hj; [done|].
      pose proof (H3 k' d Hd' Hj). congruence.
    + intros k' d [(-> & <- & _)|[Hne Hd']]%list_lookup_insert_Some Hj; [exact (H5 k' _ Hd eq_refl)|by apply (H5 k' d)].
  - destruct (scheduler_handle m) as [h|] eqn:Eh; [|done]. simpl. destruct (schedulers m !! h) as [[| |e]|] eqn:Es; try done.
    + apply (handles_joined m k t); [done..|]. by eapply looping_none.
    + apply (handles_joined m k t); [done..|]. by eapply looping_none.
Qed.

Lemma handles_mexec n m a : handles m → reachable n (queue m) → manager_action_ok a → handles (mexec m a).
Proof.
  intros H Hr Ha. destruct a as [a|h a|h now|h e now| |now|t|k|k]; cbn [mexec].
  - destruct Ha as [Ha _]. by eapply handles_exec.
  - unfold scheduler_step. destruct (schedulers m !! h) as [[| |]|], (exit_checks m !! h); try done.
    eapply handles_exec; [done..|]. by apply scheduler_action_ok, round_scheduler_action.
  - by apply (handles_ends n).
  - unfold scheduler_panics. destruct (schedulers m !! h) as [[| |]|] eqn:E, (exit_checks m !! h) eqn:Ec; try done.
    destruct (mapM _ _); [done|]. by apply handles_crashed.
  - destruct (handle_lock m) eqn:El; [done|]. by apply handles_start.
  - by apply (handles_exec n m (ActShutdown now)).
  - unfold drain. destruct H as [H1 H2 H3 H4 H5 H6 H7]. split; simpl; try done.
    + intros k d [Hd|[_ Hd]]%lookup_app_Some Hj; [by apply (H3 k d)|].
      apply list_lookup_singleton_Some in Hd as [_ <-]. done.
    + intros k d [Hd|[_ Hd]]%lookup_app_Some Hj; [by apply (H5 k d)|].
      apply list_lookup_singleton_Some in Hd as [_ <-]. done.
  - by apply handles_drain_step.
  - unfold drain_timeout. destruct (drains m !! k) as [[t []]|] eqn:Hd; try done; try by eapply handles_drain.
    by apply (handles_joined m k t).
Qed.

Lemma put_drain_queue m k s : queue (put_drain m k s) = queue m.
Proof. unfold put_drain. by destruct (drains m !! k). Qed.

Lemma managed_step n m a : handles m → reachable n (queue m) → manager_action_ok a →
  handles (mexec m a) ∧ reachable n (queue (mexec m a)).
Proof.
  intros H Hr Ha. split; [by eapply handles_mexec|].
  destruct a as [a|h a|h now|h e now| |now|t|k|k]; cbn [mexec]; try done.
  - by apply (reachable_exec _ _ a Hr), Ha.
  - unfold scheduler_step. destruct (schedulers m !! h) as [[| |]|], (exit_checks m !! h); try done.
    by apply (reachable_exec _ _ a Hr), scheduler_action_ok, round_scheduler_action.
  - by apply handles_ends.
  - unfold scheduler_panics. destruct (schedulers m !! h) as [[| |]|], (exit_checks m !! h); try done. by destruct (mapM _ _).
  - destruct (handle_lock m); [done|]. unfold start. destruct (scheduler_handle m ≫= _) as [[| |]|]; done.
  - by apply (reachable_exec _ _ (ActShutdown now) Hr).
  - unfold drain_step. destruct (drains m !! k) as [[t []]|]; try done.
    + by rewrite put_drain_queue.
    + destruct (handle_lock m); [done|]. destruct (scheduler_handle m); simpl; by rewrite put_drain_queue.
    + destruct (scheduler_handle m ≫= _) as [[| |]|]; simpl; rewrite ?put_drain_queue; done.
  - unfold drain_timeout. destruct (drains m !! k) as [[t []]|]; simpl; rewrite ?put_drain_queue; done.
Qed.

Lemma managed_keeps b m : managed b m → builder_ok b → handles m ∧ reachable (dlq_size b) (queue m).
Proof.
  intros H Hb. induction H as [clock|m a H [IH1 IH2] Ha]; [split; [apply handles_built|by apply reachable_build]|].
  by apply managed_step.
Qed.

Lemma managed_run b m acts : managed b m → Forall manager_action_ok acts → managed b (mrun m acts).
Proof. intros H Ha. apply (foldl_keeps_forall (managed b) manager_action_ok); [|done..]. intros m' a. apply managed_exec. Qed.

(** C26: one scheduler: whatever the interleaving of starts, drains, timeouts,
    shutdowns and crashes, at most one scheduler task of the manager is
    running, it is the one of the handle, and [start] while it runs, or while
    a [drain] waits for it, starts no other. *)
Theorem one_scheduler b m h : managed b m → builder_ok b → schedulers m !! h = Some Looping →
  scheduler_handle m = Some h ∧ (∀ h', schedulers m !! h' = Some Looping → h' = h) ∧
  schedulers (mexec m MStart) = schedulers m.
Proof.
  intros H Hb Hh. destruct (managed_keeps b m H Hb) as [Hm _]. pose proof (h_looping m Hm h Hh) as Eh.
  split_and!; [done| |].
  - intros h' Hh'. pose proof (h_looping m Hm h' Hh'). congruence.
  - cbn [mexec]. destruct (handle_lock m); [done|]. unfold start. rewrite Eh. simpl. by rewrite Hh.
Qed.

Lemma put_drain_lookup m k d s : drains m !! k = Some d → drains (put_drain m k s) !! k = Some (mkDrain (dr_timeout d) s).
Proof.
  intros Hd. unfold put_drain. rewrite Hd. simpl. apply list_lookup_insert_eq. by eapply lookup_lt_Some.
Qed.

(** ** What a drain waits for *)

Lemma of_drain (a : ManagerAction) k : a = MDrainStep k ∨ a = MDrainTimeout k ∨ (a ≠ MDrainStep k ∧ a ≠ MDrainTimeout k).
Proof.
  destruct a as [| | | | | | |k'|k']; try (by right; right); destruct (decide (k' = k)) as [->|]; auto;
    right; right; split; congruence.
Qed.

(** Nothing that was submitted is under way: no admission is open, and every
    command accepted so far was answered or lost, but for commands put on a
    lane object directly. *)
Definition caught_up q : Prop :=
  outstanding q = 0%Z ∧ (∀ id ct, HoldsPermit id ct ∉ submissions q) ∧
  ∀ tx, tx < next_tx q → answers q tx + losses q tx = 1 ∨ ∃ w, in_flight q w ∧ w_result_tx w = tx ∧ w_permit w = false.

(** A step of another task leaves the drain where it is. *)
Lemma other_drain m a k d : drains m !! k = Some d → a ≠ MDrainStep k → a ≠ MDrainTimeout k →
  drains (mexec m a) !! k = Some d.
Proof.
  intros Hd Hs Ht. assert (∀ k' s, k' ≠ k → drains (put_drain m k' s) !! k = Some d) as Hput.
  { intros k' s Hne. unfold put_drain. destruct (drains m !! k'); [|done]. simpl. by rewrite list_lookup_insert_ne. }
  destruct a as [a|h a|h now|h e now| |now|t|k'|k']; cbn [mexec]; try done.
  - unfold scheduler_step. by destruct (schedulers m !! h) as [[| |]|], (exit_checks m !! h).
  - unfold scheduler_ends, scheduler_asks. destruct (schedulers m !! h) as [[| |]|]; try done.
    destruct (exit_checks m !! h) as [c|]; [by destruct (check_step _ c) as [|[]]|].
    destruct (is_shutting_down m); [|done]. by destruct (check_step _ _) as [|[]].
  - unfold scheduler_panics. destruct (schedulers m !! h) as [[| |]|], (exit_checks m !! h); try done. by destruct (mapM _ _).
  - destruct (handle_lock m); [done|]. unfold start. by destruct (scheduler_handle m ≫= _) as [[| |]|].
  - simpl. by apply lookup_app_l_Some.
  - assert (k' ≠ k) as Hne by congruence. unfold drain_step. destruct (drains m !! k') as [[t []]|]; try done.
    + by apply Hput.
    + destruct (handle_lock m); [done|]. destruct (scheduler_handle m); by apply Hput.
    + destruct (scheduler_handle m ≫= _) as [[| |]|]; try done; by apply (Hput k').
  - assert (k' ≠ k) as Hne by congruence. unfold drain_timeout. destruct (drains m !! k') as [[t []]|]; try done; by apply (Hput k').
Qed.

Section call.
Context (b : @QueueManagerBuilder B) (m0 : @QueueManager X B) (t : Duration).
Abbreviation k := (length (drains m0)).
Abbreviation after acts := (mrun (drain m0 t) acts).

(** At some moment since the call everything was caught up. *)
Definition was_caught_up (acts : list ManagerAction) : Prop :=
  ∃ acts1, acts1 `prefix_of` acts ∧ caught_up (queue (after acts1)).

(** What holds when the drain returns. *)
Definition ends_well m : Prop :=
  is_shutting_down m = true → scheduler_handle m = None ∧ (∀ h, schedulers m !! h ≠ Some Looping) ∧
    (∀ h, schedulers m !! h = Some Finished_ → outstanding (queue m) = 0%Z).

Definition has_ended_well (acts : list ManagerAction) : Prop :=
  ∃ acts1, acts1 `prefix_of` acts ∧ drains (after acts1) !! k = Some (mkDrain t (Returned (Ok tt))) ∧ ends_well (after acts1).

(** The history of a drain, by the state it is in. *)
Definition history (acts : list ManagerAction) (s : DrainState) : Prop :=
  match s with
  | WaitingIdle CheckOutstanding => True
  | WaitingIdle _ | WaitingLock | Joining => was_caught_up acts
  | Returned (Ok _) => was_caught_up acts ∧ has_ended_well acts
  | Returned (Err e) => e = Timeout_ t ∨ ∃ error, e = join_error error
  end.

Lemma history_snoc acts a s : history acts s → history (acts ++ [a]) s.
Proof.
  assert (was_caught_up acts → was_caught_up (acts ++ [a])) as Hw.
  { intros (l & Hp & ?). exists l. split; [by apply prefix_app_r|done]. }
  destruct s as [[]| | |[]]; simpl; try done. intros [? (l & Hp & ?)]. split; [auto|].
  exists l. split; [by apply prefix_app_r|done].
Qed.

Lemma later_snoc acts a : after (acts ++ [a]) = mexec (after acts) a.
Proof. unfold mrun. by rewrite foldl_app. Qed.

(** The drain returns without an error. *)
Lemma history_returns acts a : was_caught_up acts → drains (after (acts ++ [a])) !! k = Some (mkDrain t (Returned (Ok tt))) →
  ends_well (after (acts ++ [a])) → history (acts ++ [a]) (Returned (Ok tt)).
Proof.
  intros (l & Hp & ?) Hd He. split; [exists l; split; [by apply prefix_app_r|done]|]. by exists (acts ++ [a]).
Qed.

(** A region of the check, once the drain has seen the queue caught up. *)
Lemma history_asked acts asked : let m := after acts in
  let s' := match asked with
            | AskNext c => WaitingIdle c
            | Answer false => WaitingIdle CheckOutstanding
            | Answer true => if is_shutting_down m then WaitingLock else Returned (Ok tt)
            end in
  was_caught_up acts → is_Some (drains m !! k) → (∀ d, drains m !! k = Some d → dr_timeout d = t) →
  drain_step m k = put_drain m k s' → history (acts ++ [MDrainStep k]) s'.
Proof.
  intros m s' Hw [d Hd] Ht E. pose proof (later_snoc acts (MDrainStep k)) as Ea. cbn [mexec] in Ea. fold m in Ea.
  assert (was_caught_up (acts ++ [MDrainStep k])) as Hw'.
  { destruct Hw as (l & ? & ?). exists l. split; [by apply prefix_app_r|done]. }
  subst s'. destruct asked as [[]|[]]; try done. destruct (is_shutting_down m) eqn:Esd; [done|]. rewrite E in Ea.
  apply history_returns; [done| |].
  - rewrite Ea, (put_drain_lookup m k d _ Hd). by rewrite (Ht d Hd).
  - rewrite Ea. unfold ends_well, is_shutting_down in *. rewrite put_drain_queue. congruence.
Qed.

(** The drain has the lock and ends. *)
Lemma history_ended acts m' : handles m' → was_caught_up acts → after (acts ++ [MDrainStep k]) = m' →
  drains m' !! k = Some (mkDrain t (Returned (Ok tt))) → scheduler_handle m' = None →
  history (acts ++ [MDrainStep k]) (Returned (Ok tt)).
Proof.
  intros Hm Hw <- Hd Hn. apply history_returns; [done|done|]. intros _. split; [done|]. split.
  - intros h Hh. pose proof (h_looping _ Hm h Hh). congruence.
  - intros h Hh. by apply (h_finished _ Hm h).
Qed.

Lemma drain_history_step acts s : let m := after acts in
  handles m → reachable (dlq_size b) (queue m) → drains m !! k = Some (mkDrain t s) → history acts s →
  ∃ s', drains (drain_step m k) !! k = Some (mkDrain t s') ∧ history (acts ++ [MDrainStep k]) s'.
Proof.
  intros m Hm Hr Hd Hs. pose proof (later_snoc acts (MDrainStep k)) as E. cbn [mexec] in E. fold m in E.
  pose proof (handles_drain_step m k Hm) as Hm'.
  pose proof (λ s, put_drain_lookup m k _ s Hd) as Hput. cbn [dr_timeout] in Hput.
  assert (drain_step m k = m → ∃ s', drains (drain_step m k) !! k = Some (mkDrain t s') ∧ history (acts ++ [MDrainStep k]) s') as Hsame.
  { intros ->. exists s. split; [done|]. by apply history_snoc. }
  destruct s as [c| | |r].
  - assert (drain_step m k = put_drain m k match check_step (queue m) c with
      | AskNext c => WaitingIdle c | Answer false => WaitingIdle CheckOutstanding
      | Answer true => if is_shutting_down m then WaitingLock else Returned (Ok tt) end) as Est
      by (unfold drain_step; by rewrite Hd).
    eexists. split; [rewrite Est; apply Hput|]. assert (c = CheckOutstanding ∨ c ≠ CheckOutstanding) as [->|Hc] by (destruct c; auto).
    + cbn [check_step]. destruct (Z.eqb_spec (outstanding (queue m)) 0) as [H0|]; [|done]. exists acts.
      split; [by apply prefix_app_r|]. split; [done|]. by destruct (nothing_outstanding _ _ Hr H0) as (? & _ & ?).
    + apply history_asked; [by destruct c|by eexists| |exact Est]. intros d Hd'. fold m in Hd'. by simplify_eq.
  - unfold drain_step in *. rewrite Hd in *. destruct (handle_lock m); [by apply Hsame|].
    destruct (scheduler_handle m) as [h|] eqn:Eh.
    + exists Joining. split; [apply Hput|]. by apply (history_snoc _ _ WaitingLock).
    + exists (Returned (Ok tt)). split; [apply Hput|]. eapply history_ended; [exact Hm'|done|exact E|apply Hput|].
      unfold put_drain. by rewrite Hd.
  - unfold drain_step in *. rewrite Hd in *. destruct (scheduler_handle m ≫= _) as [[| |e]|]; try by apply Hsame.
    + exists (Returned (Ok tt)). split; [apply Hput|]. by eapply history_ended; [exact Hm'|done|exact E|apply Hput|].
    + exists (Returned (Err (join_error e))). split; [apply Hput|]. right. by eexists.
  - apply Hsame. unfold drain_step. by rewrite Hd.
Qed.

Lemma drain_history acts : handles (drain m0 t) → reachable (dlq_size b) (queue m0) → Forall manager_action_ok acts →
  handles (after acts) ∧ reachable (dlq_size b) (queue (after acts)) ∧
  ∃ s, drains (after acts) !! k = Some (mkDrain t s) ∧ history acts s.
Proof.
  intros Hm Hr. induction acts as [|a acts IH] using rev_ind; intros Ha.
  { split; [done|]. split; [done|]. exists (WaitingIdle CheckOutstanding). split; [|done]. cbn. apply list_lookup_middle. done. }
  apply Forall_app in Ha as [Ha Ha1]. rewrite Forall_singleton in Ha1.
  destruct (IH Ha) as (Hm1 & Hr1 & s & Hd & Hs). destruct (managed_step _ _ a Hm1 Hr1 Ha1) as [Hm2 Hr2].
  rewrite later_snoc. split; [done|]. split; [done|].
  destruct (of_drain a k) as [->|[->|[Hns Hnt]]]; [by eapply drain_history_step|..].
  - cbn [mexec]. unfold drain_timeout. rewrite Hd.
    destruct s as [c| | |r]; [| | |exists (Returned r); split; [done|by apply history_snoc]].
    all: exists (Returned (Err (Timeout_ t))); split; [exact (put_drain_lookup _ k _ _ Hd)|by left].
  - exists s. split; [by apply other_drain|by apply history_snoc].
Qed.
End call.

(** C27: a drain waits for the work it finds.  Whatever the other tasks do
    while it runs, submissions between two regions of its checks included: if
    it returns without an error, then at some moment since it was called nothing
    submitted was under way, so that every command accepted before the call was
    answered or lost; and when it returned, the queue was open, or it was
    shutting down and no scheduler was running or left to join, and if one had
    run to its end nothing was outstanding.  Its only errors are its timeout and
    the crash of the scheduler it joined. *)
Theorem drain_waits_for_work b m0 t acts r : managed b m0 → builder_ok b → Forall manager_action_ok acts →
  let k := length (drains m0) in let after acts := mrun (drain m0 t) acts in
  drains (after acts) !! k = Some (mkDrain t (Returned r)) →
  match r with
  | Ok _ =>
      (∃ acts1, acts1 `prefix_of` acts ∧ caught_up (queue (after acts1))) ∧
      (∃ acts2, acts2 `prefix_of` acts ∧ let m := after acts2 in
         drains m !! k = Some (mkDrain t (Returned (Ok tt))) ∧
         (is_shutting_down m = true → scheduler_handle m = None ∧ (∀ h, schedulers m !! h ≠ Some Looping) ∧
            (∀ h, schedulers m !! h = Some Finished_ → outstanding (queue m) = 0%Z)))
  | Err e => e = Timeout_ t ∨ ∃ error, e = join_error error
  end.
Proof.
  intros H Hb Ha k after Hd. destruct (managed_keeps b m0 H Hb) as [Hm Hr].
  assert (handles (drain m0 t)) as Hm' by (by apply (handles_mexec (dlq_size b) m0 (MDrain t))).
  destruct (drain_history b m0 t acts Hm' Hr Ha) as (_ & _ & s & Hd' & Hs).
  subst k after. rewrite Hd in Hd'. injection Hd' as <-. by destruct r.
Qed.

(** ** Draining *)

(** Work left in the queue is reduced by steps that are the scheduler's or
    the commands' own. *)
Lemma queue_progress n q : reachable n q → serviced q → work_left q ≠ 0 →
  ∃ acts, Forall (λ a, action_ok a ∧ (round_action a ∨ ¬ scheduler_action a)) acts ∧
    work_left (run q acts) < work_left q ∧ serviced (run q acts).
Proof.
  intros H Hs Hw. destruct (can_advance n q H Hs Hw) as (q' & Hadv & _ & Hs' & Hlt). inversion Hadv as [now E|a Ha E]; subst q'.
  - destruct (schedule_run q now) as (acts & Hrun & Hacts). exists acts. split.
    { eapply Forall_impl; [exact Hacts|]. intros a Hr. split; [|by left].
      by apply scheduler_action_ok, round_scheduler_action. }
    rewrite <- Hrun. unfold scheduler_round in Hs', Hlt. destruct (schedule_next q now) as [q1 round]. cbn [fst] in *.
    unfold scheduler_exit in *. destruct round; try destruct (_ && _); done.
  - exists [a]. split; [|done]. apply Forall_singleton. clear -Ha. destruct a; simpl in *; tauto.
Qed.

Lemma queue_settles n q : reachable n q → serviced q →
  ∃ acts, Forall (λ a, action_ok a ∧ (round_action a ∨ ¬ scheduler_action a)) acts ∧
    is_idle (run q acts) = true ∧ ∀ tx, tx < next_tx (run q acts) → answers (run q acts) tx = 1.
Proof.
  remember (work_left q) as w eqn:Ew. revert q Ew. induction (lt_wf w) as [w _ IH]. intros q -> H Hs.
  destruct (decide (work_left q = 0)) as [E|E].
  - exists []. split; [constructor|]. by apply (no_work_idle n).
  - destruct (queue_progress n q H Hs E) as (acts & Ha & Hlt & Hs').
    assert (reachable n (run q acts)) as Hr.
    { apply queue_reachable_run; [done|]. eapply Forall_impl; [exact Ha|]. by intros a []. }
    destruct (IH _ Hlt _ eq_refl Hr Hs') as (acts' & Ha' & Hi & Hall). exists (acts ++ acts').
    rewrite run_app. split; [by apply Forall_app|done].
Qed.

(** The same steps made by the manager, the rounds by scheduler [h]. *)
Definition by_manager (h : nat) (a : Action) : ManagerAction :=
  match a with ActPressure _ _ _ | ActDequeue _ _ => MScheduler h a | _ => MQueue a end.

Lemma manager_follows m h acts : schedulers m !! h = Some Looping → exit_checks m !! h = None →
  mrun m (by_manager h <$> acts) = m <| queue := run (queue m) acts |>.
Proof.
  revert m. induction acts as [|a acts IH]; intros m Hh He; [by destruct m|]. rewrite fmap_cons. cbn [mrun foldl].
  assert (mexec m (by_manager h a) = m <| queue := exec (queue m) a |>) as ->.
  { destruct a; cbn [by_manager mexec]; try done; unfold scheduler_step; by rewrite Hh, He. }
  change (foldl mexec ?m' ?l) with (mrun m' l). by rewrite IH.
Qed.

Lemma by_manager_ok h a : action_ok a ∧ (round_action a ∨ ¬ scheduler_action a) → manager_action_ok (by_manager h a).
Proof. destruct a; simpl; tauto. Qed.

Lemma run_shutting_down q acts : LaneQueue.is_shutting_down q = true → LaneQueue.is_shutting_down (run q acts) = true.
Proof. intros H. by apply run_keeps_shutdown. Qed.

(** A check that nothing interrupts comes to an answer, and to yes on an idle
    queue when it is made anew. *)
Lemma check_ends q c : ∃ n r, ask n q (check_step q c) = Answer r.
Proof.
  assert (∀ os, ∃ n r, ask n q (next_lane os) = Answer r) as Hos by (intros os; eexists _, _; by apply ask_lanes).
  destruct c as [| |o os]; cbn [check_step]; [|done|destruct (object_is_idle q o); [done|by exists 0, false]].
  destruct (outstanding q =? 0)%Z; [|by exists 0, false]. destruct (Hos (hash_values (lanes q))) as (n & r & Hn).
  by exists (S n), r.
Qed.

Lemma idle_answer q : is_idle q = true → ∃ n, ask n q (check_step q CheckOutstanding) = Answer true.
Proof.
  intros Hi. exists (S (length (hash_values (lanes q)))). rewrite <- Hi.
  by apply (check_alone q (S (S (length (hash_values (lanes q)))))); lia.
Qed.

Lemma drain_asks k t n r m c : drains m !! k = Some (mkDrain t (WaitingIdle c)) → is_shutting_down m = true →
  ask n (queue m) (check_step (queue m) c) = Answer r →
  ∃ j, mrun m (replicate j (MDrainStep k)) =
    m <| drains ::= <[k := mkDrain t (if r then WaitingLock else WaitingIdle CheckOutstanding)]> |>.
Proof.
  revert m c. induction n as [|n IH]; intros m c Hd Hsd Hask.
  all: assert (∀ yes, check_step (queue m) c = Answer yes → yes = r → ∃ j, mrun m (replicate j (MDrainStep k)) =
    m <| drains ::= <[k := mkDrain t (if r then WaitingLock else WaitingIdle CheckOutstanding)]> |>) as Hend.
  1,3: intros yes E <-; exists 1; cbn [mrun foldl replicate mexec]; unfold drain_step, put_drain; rewrite Hd, E;
    destruct yes; by rewrite ?Hsd.
  - cbn [ask] in Hask. by eapply Hend.
  - destruct (check_step (queue m) c) as [c'|b] eqn:E; cbn [ask] in Hask; [|eapply Hend; [done|congruence]].
    destruct (IH (m <| drains ::= <[k := mkDrain t (WaitingIdle c')]> |>) c') as [j Hj].
    + simpl. apply list_lookup_insert_eq. by eapply lookup_lt_Some.
    + done.
    + done.
    + exists (S j). cbn [replicate mrun foldl mexec]. unfold drain_step at 1, put_drain at 1. rewrite Hd, E. cbn [dr_timeout].
      change (foldl mexec ?m' ?l) with (mrun m' l). rewrite Hj. destruct m. unfold upd. simpl. by rewrite list_insert_insert_eq.
Qed.

Lemma drain_idle k t m c : drains m !! k = Some (mkDrain t (WaitingIdle c)) → is_shutting_down m = true →
  is_idle (queue m) = true →
  ∃ j, mrun m (replicate j (MDrainStep k)) = m <| drains ::= <[k := mkDrain t WaitingLock]> |>.
Proof.
  intros Hd Hsd Hi. destruct (check_ends (queue m) c) as (n & r & Hn). destruct (drain_asks k t n r m c Hd Hsd Hn) as [j Hj].
  destruct r; [by exists j|]. destruct (idle_answer (queue m) Hi) as [n' Hn'].
  destruct (drain_asks k t n' true (m <| drains ::= <[k := mkDrain t (WaitingIdle CheckOutstanding)]> |>) CheckOutstanding)
    as [j' Hj']; [|done|done|].
  - simpl. apply list_lookup_insert_eq. by eapply lookup_lt_Some.
  - exists (j + j'). rewrite replicate_add. unfold mrun in *. rewrite foldl_app, Hj, Hj'. destruct m. unfold upd. simpl.
    by rewrite list_insert_insert_eq.
Qed.

(** So does the check of a scheduler, which then ends. *)
Lemma scheduler_idle h now n m c : schedulers m !! h = Some Looping →
  scheduler_ends m h now = scheduler_asks m h c now → ask n (queue m) (check_step (queue m) c) = Answer true →
  ∃ j e, mrun m (replicate j (MSchedulerEnds h now)) =
    m <| queue ::= λ q, announce_shutdown q now |> <| schedulers ::= <[h := Finished_]> |> <| exit_checks := e |>.
Proof.
  revert m c. induction n as [|n IH]; intros m c Hh Hs Hask.
  all: assert (check_step (queue m) c = Answer true → ∃ j e, mrun m (replicate j (MSchedulerEnds h now)) =
    m <| queue ::= λ q, announce_shutdown q now |> <| schedulers ::= <[h := Finished_]> |> <| exit_checks := e |>) as Hend.
  1,3: intros E; exists 1; eexists; cbn [mrun foldl replicate mexec]; rewrite Hs; unfold scheduler_asks; by rewrite E.
  - by apply Hend.
  - destruct (check_step (queue m) c) as [c'|b] eqn:E; cbn [ask] in Hask; [|apply Hend; congruence].
    destruct (IH (m <| exit_checks ::= <[h := c']> |>) c') as (j & e & Hj).
    + done.
    + unfold scheduler_ends. simpl. by rewrite Hh, lookup_insert_eq.
    + done.
    + exists (S j), e. cbn [replicate mrun foldl mexec]. rewrite Hs. unfold scheduler_asks at 1. rewrite E.
      change (foldl mexec ?m' ?l) with (mrun m' l). rewrite Hj. by destruct m.
Qed.

(** The last steps: the drain and the scheduler find the queue idle, the
    scheduler ends, the drain takes the lock and joins it. *)
Lemma drain_ends m h k t c : schedulers m !! h = Some Looping → exit_checks m !! h = None →
  scheduler_handle m = Some h → handle_lock m = None → is_shutting_down m = true → is_idle (queue m) = true →
  drains m !! k = Some (mkDrain t (WaitingIdle c)) →
  ∃ acts, Forall manager_action_ok acts ∧ let m' := mrun m acts in
    drains m' !! k = Some (mkDrain t (Returned (Ok tt))) ∧ schedulers m' !! h = Some Finished_ ∧
    scheduler_handle m' = None ∧ queue m' = announce_shutdown (queue m) 0%Z.
Proof.
  intros Hh He Hhandle Hlock Hsd Hi Hd. destruct (drain_idle k t m c Hd Hsd Hi) as [j Hj].
  destruct (idle_answer (queue m) Hi) as [n Hn].
  destruct (scheduler_idle h 0%Z n (m <| drains ::= <[k := mkDrain t WaitingLock]> |>) CheckOutstanding) as (j' & e & Hj'); [done| |done|].
  { unfold scheduler_ends, is_shutting_down in *. simpl. by rewrite Hh, He, Hsd. }
  exists (replicate j (MDrainStep k) ++ replicate j' (MSchedulerEnds h 0%Z) ++ [MDrainStep k; MDrainStep k]). split.
  { repeat (apply Forall_app; split); try by apply Forall_replicate. by repeat constructor. }
  cbv zeta. unfold mrun in *. rewrite !foldl_app, Hj, Hj'.
  assert (k < length (drains m)) as Hk by (by eapply lookup_lt_Some).
  assert (h < length (schedulers m)) as Hlt by (by eapply lookup_lt_Some).
  cbn [foldl mexec]. unfold drain_step, put_drain. simpl. rewrite !list_lookup_insert_eq by done. simpl. rewrite Hlock, Hhandle. simpl.
  rewrite !list_lookup_insert_eq by (rewrite ?length_insert; done). simpl. rewrite Hhandle. simpl.
  rewrite !list_lookup_insert_eq by (rewrite ?length_insert; done). simpl.
  rewrite !list_lookup_insert_eq by (rewrite ?length_insert; done). done.
Qed.

(** C28: a drain can succeed.  Take a manager that was shut down, a call of
    [drain] anywhere in its checks for idleness, the lock of the handle free, a
    scheduler that is running and in its rounds, and lanes that can work: each
    registered, with room for one command, without rate limit and without
    booster, and no command has panicked.  Then there is a way to go on in which
    the drain returns without an error, every accepted command has been
    answered once, the scheduler has ended by itself and its handle is given up. *)
Theorem manager_drains b m h k t c : managed b m → builder_ok b → is_shutting_down m = true → serviced (queue m) →
  schedulers m !! h = Some Looping → exit_checks m !! h = None → handle_lock m = None →
  drains m !! k = Some (mkDrain t (WaitingIdle c)) →
  ∃ acts, Forall manager_action_ok acts ∧
    let m' := mrun m acts in
    drains m' !! k = Some (mkDrain t (Returned (Ok tt))) ∧ schedulers m' !! h = Some Finished_ ∧
    scheduler_handle m' = None ∧ ∀ tx, tx < next_tx (queue m') → answers (queue m') tx = 1.
Proof.
  intros H Hb Hsd Hs Hh He Hlock Hd. destruct (managed_keeps b m H Hb) as [Hm Hr].
  destruct (queue_settles _ _ Hr Hs) as (acts & Ha & Hi & Hall).
  set (m1 := m <| queue := run (queue m) acts |>).
  assert (is_shutting_down m1 = true) as Hsd' by (apply run_shutting_down; exact Hsd).
  destruct (drain_ends m1 h k t c) as (acts' & Ha' & H1 & H2 & H3 & H4);
    [exact Hh|exact He|exact (h_looping m Hm h Hh)|exact Hlock|exact Hsd'|exact Hi|exact Hd|].
  exists ((by_manager h <$> acts) ++ acts'). split.
  { apply Forall_app. split; [|done]. apply Forall_fmap. eapply Forall_impl; [exact Ha|]. intros a. apply by_manager_ok. }
  cbv zeta. unfold mrun. rewrite foldl_app. change (foldl mexec m ?l) with (mrun m l). rewrite (manager_follows m h acts Hh He).
  change (foldl mexec _ acts') with (mrun m1 acts'). split; [exact H1|]. split; [exact H2|]. split; [exact H3|]. rewrite H4. exact Hall.
Qed.

(** ** Totals *)
Lemma sum_status_total (s : gmap string LaneStatus) :
  sum_status s = (total st_pending (hash_values s), total st_active (hash_values s)).
Proof.
  unfold sum_status. assert (∀ sts a p, foldl (λ t st, (t.1 + st_pending st, t.2 + st_active st)) (a, p) sts =
    (a + total st_pending sts, p + total st_active sts)) as ->; [|done].
  induction sts as [|st sts IH]; intros a p; simpl; [f_equal; lia|]. rewrite IH. f_equal; lia.
Qed.

Lemma status_lookup n q id : reachable n q →
  queue_status q !! id = lanes q !! id ≫= λ o, status <$> objects q !! o.
Proof. intros _. unfold queue_status. by rewrite lookup_omap. Qed.

(** Statistics tell an idle queue: the queue is idle exactly when nothing
    submitted is outstanding and the totals of pending and active commands,
    retries that sleep included, are both zero; and the totals are sums over
    the lanes, whatever the order of the map. *)
Theorem stats_tell_idle n q : reachable n q →
  let s := queue_stats q in
  (is_idle q = true ↔ outstanding q = 0%Z ∧ total_pending s = 0 ∧ total_active s = 0) ∧
  total_pending s = total (λ e, st_pending e.2) (map_to_list (stat_lanes s)) ∧
  total_active s = total (λ e, st_active e.2) (map_to_list (stat_lanes s)).
Proof.
  intros H s. subst s. unfold queue_stats. rewrite sum_status_total. cbn [total_pending total_active stat_lanes].
  assert (∀ f : LaneStatus → nat, total f (hash_values (queue_status q)) = total (λ e, f e.2) (map_to_list (queue_status q))) as Hf.
  { intros f. unfold hash_values. assert (∀ l : list (string * LaneStatus), total f l.*2 = total (λ e, f e.2) l) as ->.
    { induction l as [|e l IH]; [done|]. rewrite fmap_cons. simpl. by rewrite IH. }
    by rewrite (hash_iter_perm LaneStatus). }
  split; [|split; apply Hf]. unfold is_idle. rewrite andb_true_iff, Z.eqb_eq, forallb_forall.
  assert (∀ id o l, lanes q !! id = Some o → objects q !! o = Some l → status l ∈ hash_values (queue_status q)) as Hin.
  { intros id o l Hid Ho. apply elem_of_hash_values. exists id. rewrite (status_lookup n) by done. rewrite Hid. simpl. by rewrite Ho. }
  split.
  - intros [H0 Hall]. split; [done|].
    assert (Forall (λ st, st_pending st = 0 ∧ st_active st = 0) (hash_values (queue_status q))) as Hz.
    { apply Forall_forall. intros st Hst. apply elem_of_hash_values in Hst as [id Hid]. rewrite (status_lookup n) in Hid by done.
      destruct (lanes q !! id) as [o|] eqn:Eo; [|done]. simpl in Hid. destruct (objects q !! o) as [l|] eqn:El; [|done].
      injection Hid as <-. specialize (Hall o). rewrite <- list_elem_of_In in Hall.
      assert (object_is_idle q o = true) as Hi by (apply Hall, elem_of_hash_values; eauto).
      unfold object_is_idle in Hi. rewrite El in Hi. unfold lane_is_idle, has_pending in Hi.
      destruct (pending l) as [|w ws] eqn:Ep; [|done]. apply andb_true_iff in Hi as [Hi Hdel]. apply andb_true_iff in Hi as [_ Hac].
      apply Nat.eqb_eq in Hdel, Hac. unfold status. rewrite Ep. simpl. lia. }
    split; apply total_zero; eapply Forall_impl; try exact Hz; by intros st [].
  - intros (H0 & Hp & Ha). split; [done|]. intros o Ho%list_elem_of_In%elem_of_hash_values. destruct Ho as [id Hid].
    destruct (wf_names q (wf_reachable n q H) id o Hid) as (l & Hl & _). pose proof (Hin id o l Hid Hl) as Hst.
    pose proof (total_elem st_pending _ _ Hst). pose proof (total_elem st_active _ _ Hst).
    unfold object_is_idle. rewrite Hl. unfold lane_is_idle, has_pending. unfold status in *. simpl in *.
    destruct (pending l); simpl in *; [|lia]. apply andb_true_iff. split; apply Nat.eqb_eq; lia.
Qed.

(** A health check warns of exactly what it should: of a lane when all of
    its slots are taken, and of the pending or active total when it is above
    its threshold. *)
Theorem health_check_warns n q config w : reachable n q →
  w ∈ check_health config q ↔
  match w with
  | AtCapacity id => ∃ o l, lanes q !! id = Some o ∧ objects q !! o = Some l ∧ active l = max_concurrency (LaneQueue.config l)
  | HighPending total threshold =>
      total = total_pending (queue_stats q) ∧ threshold = pending_warning_threshold config ∧ threshold < total
  | HighActive total threshold =>
      total = total_active (queue_stats q) ∧ threshold = active_warning_threshold config ∧ threshold < total
  end.
Proof.
  intros H. unfold check_health, queue_stats. rewrite sum_status_total. cbn [total_pending total_active].
  rewrite !elem_of_app.
  assert (w ∈ mbind lane_warning (hash_iter (queue_status q)) ↔
    ∃ id o l, w = AtCapacity id ∧ lanes q !! id = Some o ∧ objects q !! o = Some l ∧ max_concurrency (LaneQueue.config l) ≤ active l) as ->.
  { rewrite list_elem_of_bind. split.
    - intros ([id st] & Hw & Hst). rewrite hash_iter_perm, elem_of_map_to_list, (status_lookup n) in Hst by done.
      destruct (lanes q !! id) as [o|] eqn:Eo; [|done]. simpl in Hst. destruct (objects q !! o) as [l|] eqn:El; [|done].
      injection Hst as <-. unfold lane_warning in Hw. simpl in Hw. destruct (Nat.leb_spec (max_concurrency (LaneQueue.config l)) (active l)) as [Hle|]; [|set_solver].
      apply list_elem_of_singleton in Hw as ->. by exists id, o, l.
    - intros (id & o & l & -> & Hid & Hl & Hle). exists (id, status l). split.
      + unfold lane_warning. simpl. apply Nat.leb_le in Hle. rewrite Hle. by left.
      + rewrite hash_iter_perm, elem_of_map_to_list, (status_lookup n) by done. rewrite Hid. simpl. by rewrite Hl. }
  destruct (Nat.ltb_spec (pending_warning_threshold config) (total st_pending (hash_values (queue_status q)))),
    (Nat.ltb_spec (active_warning_threshold config) (total st_active (hash_values (queue_status q))));
    rewrite ?list_elem_of_singleton, ?elem_of_nil; destruct w as [id|p t|a t].
  all: try (split; [intros [(id' & o & l & [= <-] & Hid & Hl & Hle)|[?|?]]; try done; exists o, l;
    destruct (lane_concurrency_bound n q o l H Hl) as [[_ Hmax] _]; split_and!; try done; lia
    |intros (o & l & Hid & Hl & Hac); left; exists id, o, l; split_and!; try done; lia]).
  all: split; [intros [(? & ? & ? & ? & _)|[?|?]]; try done; simplify_eq; done|].
  all: intros (-> & -> & Hlt); try lia; auto.
Qed.
End rules.

(** * A manager on a concrete run

    The default lanes with a dead letter queue and metrics; one command is
    executing when the manager is shut down and drained. *)

#[local] Existing Instance demo_ext.

Definition desk : QueueManagerBuilder :=
  with_metrics (with_dlq (with_default_lanes builder_new) 10) local_metrics_new.

Lemma desk_ok : builder_ok desk.
Proof.
  unfold desk. apply builder_ok_metrics, builder_ok_dlq, builder_ok_defaults. intros id e He. discriminate He.
Qed.

Definition opened : QueueManager := build desk (λ _, 0%Z).
Definition lane_object (id : string) : nat := default 0 (lanes (queue opened) !! id).

(** A query is submitted and started; the manager is told to stop, and drained. *)
Definition told : QueueManager :=
  mrun opened [MStart; MQueue (ActAdmit "query" "demo"); MQueue (ActLocate 0 "c1" 1%Z); MQueue (ActPlace 0 2%Z);
    MScheduler 0 (ActDequeue (lane_object "query") (mkClock 3 3)); MShutdown 4%Z].
Definition stopping : QueueManager := drain told (from_secs 30).

Lemma opened_managed : managed desk opened.
Proof. constructor. Qed.

Lemma told_managed : managed desk told.
Proof.
  apply managed_run; [apply opened_managed|]. repeat (apply Forall_cons; split; [simpl; tauto|]). constructor.
Qed.

Lemma stopping_managed : managed desk stopping.
Proof. apply (managed_exec desk told (MDrain (from_secs 30)) told_managed I). Qed.

(** The command ends; the drain asks eight times (the count, the map and six
    lanes) and takes the lock; the scheduler asks as often and ends; the drain
    joins it. *)
Definition closing : list ManagerAction :=
  [MQueue (ActFinish 0 (Some (Ok "done")) 5%Z); MQueue (ActComplete 0); MQueue (ActRelease 0)]
  ++ replicate 9 (MDrainStep 0) ++ replicate 8 (MSchedulerEnds 0 6%Z) ++ [MDrainStep 0].

Lemma closing_ok : Forall manager_action_ok closing.
Proof. repeat (apply Forall_cons; split; [simpl; tauto|]). constructor. Qed.

Lemma one_scheduler_witness :
  scheduler_handle stopping = Some 0 ∧ schedulers (mexec stopping MStart) = [Looping].
Proof.
  assert (schedulers stopping !! 0 = Some Looping) as H by reflexivity.
  destruct (one_scheduler desk stopping 0 stopping_managed desk_ok H) as (H1 & _ & H3).
  split; [exact H1|]. rewrite H3. reflexivity.
Defined.

Lemma drain_waits_for_work_witness :
  drains (mrun stopping closing) !! 0 = Some (mkDrain (from_secs 30) (Returned (Ok tt))) ∧
  is_shutting_down (mrun stopping closing) = true ∧
  ∃ acts1, acts1 `prefix_of` closing ∧ caught_up (queue (mrun stopping acts1)).
Proof.
  assert (drains (mrun stopping closing) !! 0 = Some (mkDrain (from_secs 30) (Returned (Ok tt)))) as Hd by (vm_compute; reflexivity).
  split; [exact Hd|]. split; [vm_compute; reflexivity|].
  exact (proj1 (drain_waits_for_work desk told (from_secs 30) closing (Ok tt) told_managed desk_ok closing_ok Hd)).
Defined.

Lemma stopping_serviced : serviced (queue stopping).
Proof.
  split; [vm_compute; reflexivity|]. intros o l Ho. apply list_elem_of_lookup_2 in Ho as Hin.
  assert (Forall (λ l, 1 ≤ max_concurrency (config l) ∧ rate_limiter l = Unlimited ∧ booster l = None) (objects (queue stopping))) as Hf.
  { vm_compute. repeat constructor. }
  rewrite Forall_forall in Hf. split; [|by apply Hf].
  assert (o < 6) as Hlt by (apply lookup_lt_Some in Ho; exact Ho).
  do 6 (destruct o as [|o]; [vm_compute in Ho; injection Ho as <-; vm_compute; reflexivity|]). lia.
Qed.

Lemma manager_drains_witness :
  outstanding (queue stopping) = 1%Z ∧
  ∃ acts, Forall manager_action_ok acts ∧ drains (mrun stopping acts) !! 0 = Some (mkDrain (from_secs 30) (Returned (Ok tt))).
Proof.
  split; [vm_compute; reflexivity|].
  destruct (manager_drains desk stopping 0 0 (from_secs 30) CheckOutstanding stopping_managed desk_ok) as (acts & Ha & Hd & _);
    [reflexivity|exact stopping_serviced|reflexivity|reflexivity|reflexivity|reflexivity|].
  exists acts. split; [exact Ha|exact Hd].
Defined.

Lemma build_configures_witness :
  size (lane_configs desk) = 6 ∧
  queue_status (queue opened) !! "query" = Some (mkStatus 0 0 1 10) ∧ is_idle (queue opened) = true.
Proof.
  split; [vm_compute; reflexivity|].
  destruct (build_configures desk (λ _, 0%Z)) as (Hs & _ & Hi & _). split; [|exact Hi].
  unfold opened. rewrite Hs. vm_compute. reflexivity.
Defined.

Lemma desk_reachable : reachable (Some 10) (queue stopping).
Proof. exact (proj2 (managed_keeps desk stopping stopping_managed desk_ok)). Qed.

Lemma stats_tell_idle_witness :
  total_active (queue_stats (queue stopping)) = 1 ∧ is_idle (queue stopping) = false.
Proof.
  assert (total_active (queue_stats (queue stopping)) = 1) as H by (vm_compute; reflexivity). split; [exact H|].
  destruct (stats_tell_idle (Some 10) (queue stopping) desk_reachable) as [[Hi _] _].
  destruct (is_idle (queue stopping)); [|reflexivity]. destruct (Hi eq_refl) as (_ & _ & H0). congruence.
Defined.

Lemma health_check_warns_witness :
  active_warning_threshold (mkMonitorConfig 0 5 0) = 0 ∧
  HighActive 1 0 ∈ check_health (mkMonitorConfig 0 5 0) (queue stopping).
Proof.
  split; [reflexivity|].
  apply (health_check_warns (Some 10) (queue stopping) (mkMonitorConfig 0 5 0) (HighActive 1 0) desk_reachable).
  split; [vm_compute; reflexivity|]. split; [reflexivity|]. lia.
Defined.
