(* ===== verification/LuaDates.v ===== *)
(** * Dates in the scripts ([src/job/redis.rs])

    Lua has no dates: the scripts read the RFC 3339 text of a job's schedule
    with [iso_to_millis] and count days with [days_from_civil].  Their numbers
    are doubles; the dates here stay far below [2^53], where doubles are the
    integers, so the functions are given on [Z] with [math.floor] of a quotient
    as [Z.div].  The second half is the way back: [civil_from_days] and
    [millis_to_iso]. *)
From Stdlib Require Import Ascii.
From S2P Require Import Prelude Ordering Text.
Local Open Scope Z_scope.

Definition days_from_civil (year month day : Z) : Z :=
  let year := if month <=? 2 then year - 1 else year in
  let era := year `div` 400 in
  let yoe := year - era * 400 in
  let shifted_month := if 2 <? month then month - 3 else month + 9 in
  let doy := (153 * shifted_month + 2) `div` 5 + day - 1 in
  let doe := yoe * 365 + yoe `div` 4 - yoe `div` 100 + doy in
  era * 146097 + doe - 719468.

(** [string.sub(s, i, j)] for positive [i] and [j]. *)
Definition string_sub (s : string) (i j : nat) : string := String.substring (i - 1) (j - (i - 1)) s.

(** [tonumber] on the digits of a date; other texts are not numbers. *)
Definition tonumber_digits (s : string) : option Z := parse_magnitude s.

(** The digits a text starts with, as [string.match(s, "^(%d+)")] returns them. *)
Fixpoint leading_digits (s : string) : string :=
  match s with
  | String a s' => if is_digit a then String a (leading_digits s') else EmptyString
  | EmptyString => EmptyString
  end.

Definition fraction_millis (value : string) : Z :=
  if String.eqb (string_sub value 20 20) "."
  then
    let digits := leading_digits (String.substring 20 (String.length value) value) in
    if String.eqb digits EmptyString then 0
    else unwrap_or (tonumber_digits (string_sub (digits +:+ "000") 1 3)) 0
  else 0.

Definition iso_to_millis (value : string) : Z :=
  match tonumber_digits (string_sub value 1 4), tonumber_digits (string_sub value 6 7),
        tonumber_digits (string_sub value 9 10), tonumber_digits (string_sub value 12 13),
        tonumber_digits (string_sub value 15 16), tonumber_digits (string_sub value 18 19) with
  | Some year, Some month, Some day, Some hour, Some minute, Some second =>
      let millis := fraction_millis value in
      let days := days_from_civil year month day in
      (((days * 24 + hour) * 60 + minute) * 60 + second) * 1000 + millis
  | _, _, _, _, _, _ => 0
  end.

Example iso_epoch : iso_to_millis "1970-01-01T00:00:00+00:00" = 0.
Proof. vm_compute. reflexivity. Qed.
Example iso_fraction : iso_to_millis "2024-02-29T12:34:56.789123456+00:00" = 1709210096789.
Proof. vm_compute. reflexivity. Qed.
Example iso_short_fraction : iso_to_millis "2001-09-09T01:46:40.5Z" = 1000000000500.
Proof. vm_compute. reflexivity. Qed.

(** ** The calendar *)
Definition is_leap (y : Z) : bool := ((y `mod` 4 =? 0) && negb (y `mod` 100 =? 0)) || (y `mod` 400 =? 0).

Definition days_in_month (y m : Z) : Z :=
  match m with
  | 2 => if is_leap y then 29 else 28
  | 4 | 6 | 9 | 11 => 30
  | _ => 31
  end.

Record Date := mkDate { d_year : Z; d_month : Z; d_day : Z }.

Definition valid_date (d : Date) : Prop :=
  1 ≤ d_month d ≤ 12 ∧ 1 ≤ d_day d ≤ days_in_month (d_year d) (d_month d).

Definition tomorrow (d : Date) : Date :=
  if d_day d <? days_in_month (d_year d) (d_month d) then mkDate (d_year d) (d_month d) (d_day d + 1)
  else if d_month d <? 12 then mkDate (d_year d) (d_month d + 1) 1
  else mkDate (d_year d + 1) 1 1.

Definition date_days (d : Date) : Z := days_from_civil (d_year d) (d_month d) (d_day d).

(** The calendar repeats every 400 years. *)
Lemma days_from_civil_period y m d k : days_from_civil (y + 400 * k) m d = days_from_civil y m d + 146097 * k.
Proof.
  unfold days_from_civil.
  assert (∀ x, (x + 400 * k) `div` 400 = x `div` 400 + k) as Hdiv.
  { intros x. rewrite (Z.mul_comm 400). by rewrite Z.div_add. }
  destruct (m <=? 2); cbn zeta.
  - replace (y + 400 * k - 1) with (y - 1 + 400 * k) by lia. rewrite Hdiv.
    replace (y - 1 + 400 * k - ((y - 1) `div` 400 + k) * 400) with (y - 1 - (y - 1) `div` 400 * 400) by lia. lia.
  - rewrite Hdiv. replace (y + 400 * k - (y `div` 400 + k) * 400) with (y - y `div` 400 * 400) by lia. lia.
Qed.

Lemma days_in_month_period y m k : days_in_month (y + 400 * k) m = days_in_month y m.
Proof.
  unfold days_in_month, is_leap.
  assert (∀ n, (400 `mod` n = 0) → 0 < n → (y + 400 * k) `mod` n = y `mod` n) as Hmod.
  { intros n Hn ?. apply Z.mod_divide in Hn as [q Hq]; [|lia]. replace (400 * k) with (q * k * n) by (rewrite Hq; ring).
    by rewrite Z.mod_add by lia. }
  by rewrite !Hmod by done.
Qed.

(** Within a month the count follows the day, so only the ends of the months of
    400 years are checked. *)
Definition month_end (y m : Z) : Date := mkDate y m (days_in_month y m).
Definition one_day_later (d : Date) : bool := date_days (tomorrow d) =? date_days d + 1.

Definition all_months (years : nat) : list (Z * Z) :=
  y ← Z.of_nat <$> seq 0 years; m ← Z.of_nat <$> seq 1 12; [(y, m)].

Lemma cycle_checked : forallb (λ p, one_day_later (month_end p.1 p.2)) (all_months 400) = true.
Proof. vm_compute. reflexivity. Qed.

Lemma all_months_in y m years : 0 ≤ y < Z.of_nat years → 1 ≤ m ≤ 12 → In (y, m) (all_months years).
Proof.
  intros Hy Hm. apply list_elem_of_In. unfold all_months. rewrite list_elem_of_bind. exists y.
  split; [|apply list_elem_of_fmap; exists (Z.to_nat y); split; [lia|apply elem_of_seq; lia]].
  rewrite list_elem_of_bind. exists m.
  split; [|apply list_elem_of_fmap; exists (Z.to_nat m); split; [lia|apply elem_of_seq; lia]].
  by apply list_elem_of_singleton.
Qed.

Lemma month_end_ok y m : 1 ≤ m ≤ 12 → date_days (tomorrow (month_end y m)) = date_days (month_end y m) + 1.
Proof.
  intros Hm. assert (∃ y0 k, 0 ≤ y0 < 400 ∧ y = y0 + 400 * k) as (y0 & k & Hy0 & ->).
  { exists (y `mod` 400), (y `div` 400). pose proof (Z.div_mod y 400). pose proof (Z.mod_pos_bound y 400). lia. }
  pose proof cycle_checked as Hall. rewrite forallb_forall in Hall.
  specialize (Hall (y0, m) (all_months_in y0 m 400 Hy0 Hm)).
  apply Z.eqb_eq in Hall. unfold date_days, tomorrow, month_end in *. cbn [d_year d_month d_day fst snd] in *.
  rewrite days_in_month_period. rewrite Z.ltb_irrefl in *.
  destruct (m <? 12); cbn [d_year d_month d_day] in *; [rewrite !days_from_civil_period; lia|].
  replace (y0 + 400 * k + 1) with (y0 + 1 + 400 * k) by lia. rewrite !days_from_civil_period. lia.
Qed.

Lemma next_day y m d : days_from_civil y m (d + 1) = days_from_civil y m d + 1.
Proof. unfold days_from_civil. destruct (m <=? 2); cbn zeta; lia. Qed.

Lemma tomorrow_days d : valid_date d → date_days (tomorrow d) = date_days d + 1.
Proof.
  intros [Hm Hd].
  destruct (Z.ltb_spec (d_day d) (days_in_month (d_year d) (d_month d))) as [Hlt|Hge].
  - unfold tomorrow, date_days. destruct (Z.ltb_spec (d_day d) (days_in_month (d_year d) (d_month d))); [|lia].
    apply next_day.
  - replace d with (month_end (d_year d) (d_month d)); [by apply month_end_ok|].
    destruct d as [y m day]. unfold month_end. cbn in *. f_equal. lia.
Qed.

(** The scripts count days as the Gregorian calendar does: the first of
    January 1970 is day 0 and each valid date, leap years and century rules
    included, is the day before the next one, in every year. *)
Theorem days_follow_calendar d : valid_date d →
  date_days (mkDate 1970 1 1) = 0 ∧ date_days (tomorrow d) = date_days d + 1.
Proof. intros Hd. split; [reflexivity|by apply tomorrow_days]. Qed.

Lemma days_follow_calendar_witness :
  date_days (mkDate 1970 1 1) = 0 ∧ date_days (tomorrow (mkDate 2000 2 29)) = date_days (mkDate 2000 2 29) + 1.
Proof. apply (days_follow_calendar (mkDate 2000 2 29)). split; split; vm_compute; discriminate. Defined.

(** * Writing dates in the scripts

    The inverse of the functions above: from a count of days to a date
    ([civil_from_days]) and from milliseconds to an RFC 3339 text
    ([millis_to_iso]), which the scripts write for a job they reschedule and
    read back later. *)

Definition civil_from_days (days : Z) : Date :=
  let z := days + 719468 in
  let era := z `div` 146097 in
  let doe := z - era * 146097 in
  let yoe := (doe - doe `div` 1460 + doe `div` 36524 - doe `div` 146096) `div` 365 in
  let year := yoe + era * 400 in
  let doy := doe - (365 * yoe + yoe `div` 4 - yoe `div` 100) in
  let mp := (5 * doy + 2) `div` 153 in
  let day := doy - (153 * mp + 2) `div` 5 + 1 in
  let month := if 10 <=? mp then mp - 9 else mp + 3 in
  let year := if month <=? 2 then year + 1 else year in
  mkDate year month day.

(** [string.format] with ["%0wd"]. *)
Fixpoint zeros (n : nat) : string := match n with O => EmptyString | S n' => String "0"%char (zeros n') end.
Definition zero_fill (w : nat) (s : string) : string := zeros (w - String.length s) +:+ s.
Definition padded (w : nat) (n : Z) : string :=
  if n <? 0 then "-" +:+ zero_fill (w - 1) (show_nat (- n)) else zero_fill w (show_nat n).

Definition millis_to_iso (value : Z) : string :=
  let day_millis := 86400000 in
  let days := value `div` day_millis in
  let remainder := value - days * day_millis in
  let (days, remainder) := (if remainder <? 0 then (days - 1, remainder + day_millis) else (days, remainder)) : Z * Z in
  let hour := remainder `div` 3600000 in
  let remainder := remainder - hour * 3600000 in
  let minute := remainder `div` 60000 in
  let remainder := remainder - minute * 60000 in
  let second := remainder `div` 1000 in
  let millisecond := remainder - second * 1000 in
  let date := civil_from_days days in
  padded 4 (d_year date) +:+ "-" +:+ padded 2 (d_month date) +:+ "-" +:+ padded 2 (d_day date) +:+ "T" +:+
  padded 2 hour +:+ ":" +:+ padded 2 minute +:+ ":" +:+ padded 2 second +:+ "." +:+ padded 3 millisecond +:+ "+00:00".

Example iso_of_epoch : millis_to_iso 0 = "1970-01-01T00:00:00.000+00:00".
Proof. vm_compute. reflexivity. Qed.
Example iso_of_leap_day : millis_to_iso 1709210096789 = "2024-02-29T12:34:56.789+00:00".
Proof. vm_compute. reflexivity. Qed.

(** ** Dates *)

(** The year of a day within 400 years. *)
Definition year_of_day (doe : Z) : Z := (doe - doe `div` 1460 + doe `div` 36524 - doe `div` 146096) `div` 365.
(** The first day of a year that starts in March. *)
Definition first_of_year (yoe : Z) : Z := yoe * 365 + yoe `div` 4 - yoe `div` 100.

Lemma year_of_day_mono a b : 0 ≤ a → a ≤ b → year_of_day a ≤ year_of_day b.
Proof. intros Ha Hab. unfold year_of_day. apply Z.div_le_mono; [lia|]. Z.div_mod_to_equations. lia. Qed.

(** Both ends of each of the 400 years are in it. *)
Definition year_ends (yoe : Z) : bool :=
  (year_of_day (first_of_year yoe) =? yoe) &&
  (year_of_day (if yoe =? 399 then 146096 else first_of_year (yoe + 1) - 1) =? yoe).

Lemma years_checked : forallb year_ends (Z.of_nat <$> seq 0 400) = true.
Proof. vm_compute. reflexivity. Qed.

Lemma year_found yoe doy : 0 ≤ yoe < 400 → 0 ≤ doy →
  first_of_year yoe + doy ≤ (if yoe =? 399 then 146096 else first_of_year (yoe + 1) - 1) →
  year_of_day (first_of_year yoe + doy) = yoe.
Proof.
  intros Hy Hd Hle. pose proof years_checked as H. rewrite forallb_forall in H.
  specialize (H yoe). unfold year_ends in H.
  assert (In yoe (Z.of_nat <$> seq 0 400)) as Hin.
  { apply list_elem_of_In, list_elem_of_fmap. exists (Z.to_nat yoe). split; [lia|apply elem_of_seq; lia]. }
  apply H in Hin. apply andb_true_iff in Hin as [H1%Z.eqb_eq H2%Z.eqb_eq].
  assert (0 ≤ first_of_year yoe) by (unfold first_of_year; Z.div_mod_to_equations; lia).
  pose proof (year_of_day_mono (first_of_year yoe) (first_of_year yoe + doy)).
  pose proof (year_of_day_mono (first_of_year yoe + doy) _ ltac:(lia) Hle). lia.
Qed.

(** Months counted from March, and the days before them in a year. *)
Definition shifted_month (m : Z) : Z := if 2 <? m then m - 3 else m + 9.
Definition day_of_year (m d : Z) : Z := (153 * shifted_month m + 2) `div` 5 + d - 1.

Lemma is_leap_shift y k : is_leap (y + k * 400) = is_leap y.
Proof.
  unfold is_leap. assert (∀ n c, c * n = 400 → 0 < n → (y + k * 400) `mod` n = y `mod` n) as Hmod.
  { intros n c <- ?. replace (k * (c * n)) with (k * c * n) by ring. by rewrite Z.mod_add by lia. }
  by rewrite (Hmod 4 100), (Hmod 100 4), (Hmod 400 1).
Qed.

Ltac months m := assert (m = 1 ∨ m = 2 ∨ m = 3 ∨ m = 4 ∨ m = 5 ∨ m = 6 ∨ m = 7 ∨ m = 8 ∨ m = 9 ∨ m = 10 ∨ m = 11 ∨ m = 12)
  as [->|[->|[->|[->|[->|[->|[->|[->|[->|[->|[->| ->]]]]]]]]]]] by lia.

Lemma day_of_year_range y m d : 1 ≤ m ≤ 12 → 1 ≤ d ≤ days_in_month y m →
  0 ≤ day_of_year m d ≤ 365 ∧ (day_of_year m d = 365 → m = 2 ∧ is_leap y = true).
Proof. intros Hm Hd. unfold day_of_year, shifted_month. months m; cbn -[is_leap] in *;
  (split; [destruct (is_leap y); Z.div_mod_to_equations; lia | intros ?; destruct (is_leap y); first [by split | Z.div_mod_to_equations; lia]]).
Qed.

(** The month and the day are found again in the day of the year. *)
Lemma month_found y m d : 1 ≤ m ≤ 12 → 1 ≤ d ≤ days_in_month y m →
  let mp := (5 * day_of_year m d + 2) `div` 153 in
  mp = shifted_month m ∧ day_of_year m d - (153 * mp + 2) `div` 5 + 1 = d.
Proof.
  intros Hm Hd. cbn zeta. assert (d ≤ 31) by (months m; cbn -[is_leap] in *; destruct (is_leap y); lia).
  assert ((5 * day_of_year m d + 2) `div` 153 = shifted_month m) as ->.
  { unfold day_of_year, shifted_month. months m; cbn -[is_leap] in *; Z.div_mod_to_equations; try lia. all: destruct (is_leap y); lia. }
  split; [done|]. unfold day_of_year. lia.
Qed.

Lemma year_fits yoe doy : 0 ≤ yoe < 400 → 0 ≤ doy ≤ 365 → (doy = 365 → is_leap (yoe + 1) = true) →
  first_of_year yoe + doy ≤ (if yoe =? 399 then 146096 else first_of_year (yoe + 1) - 1).
Proof.
  intros Hy Hd Hleap. destruct (Z.eqb_spec yoe 399) as [->|Hne]; [change (first_of_year 399) with 145731; lia|].
  destruct (Z.eqb_spec doy 365) as [->|].
  - specialize (Hleap eq_refl). unfold is_leap in Hleap.
    apply orb_true_iff in Hleap as [[H4%Z.eqb_eq H100%negb_true_iff%Z.eqb_neq]%andb_true_iff|H400%Z.eqb_eq];
      unfold first_of_year; Z.div_mod_to_equations; lia.
  - unfold first_of_year. Z.div_mod_to_equations. lia.
Qed.

(** Every valid date is found again from its count of days. *)
Lemma civil_round_trip d : valid_date d → civil_from_days (date_days d) = d.
Proof.
  destruct d as [y m d]. intros [Hm Hd]. cbn in Hm, Hd.
  pose proof (day_of_year_range y m d Hm Hd) as [Hr Hleap]. pose proof (month_found y m d Hm Hd) as [Hmp Hday].
  set (y' := if m <=? 2 then y - 1 else y). set (era := y' `div` 400). set (yoe := y' - era * 400).
  assert (0 ≤ yoe < 400) as Hyoe by (unfold yoe, era; Z.div_mod_to_equations; lia).
  assert (day_of_year m d = 365 → is_leap (yoe + 1) = true) as Hleap'.
  { intros H. destruct (Hleap H) as [-> Hl]. rewrite <- Hl. unfold yoe, y'. change (2 <=? 2) with true. cbv iota.
    replace (y - 1 - era * 400 + 1) with (y + (- era) * 400) by lia. by rewrite is_leap_shift. }
  pose proof (year_fits yoe (day_of_year m d) Hyoe Hr Hleap') as Hfit.
  pose proof (year_found yoe (day_of_year m d) Hyoe (proj1 Hr) Hfit) as Hyear.
  assert (0 ≤ first_of_year yoe) by (unfold first_of_year; Z.div_mod_to_equations; lia).
  assert (first_of_year yoe + day_of_year m d ≤ 146096) as Hmax.
  { destruct (yoe =? 399) eqn:E; [lia|]. apply Z.eqb_neq in E. unfold first_of_year in *. Z.div_mod_to_equations. lia. }
  assert (date_days (mkDate y m d) = era * 146097 + (first_of_year yoe + day_of_year m d) - 719468) as ->.
  { unfold date_days, days_from_civil. cbn [d_year d_month d_day]. fold y'. fold era. fold yoe.
    unfold first_of_year, day_of_year, shifted_month. lia. }
  unfold civil_from_days.
  replace (era * 146097 + (first_of_year yoe + day_of_year m d) - 719468 + 719468)
    with ((first_of_year yoe + day_of_year m d) + era * 146097) by lia.
  rewrite Z.div_add by lia. rewrite (Z.div_small (first_of_year yoe + day_of_year m d)) by lia.
  replace (first_of_year yoe + day_of_year m d + era * 146097 - (0 + era) * 146097)
    with (first_of_year yoe + day_of_year m d) by lia.
  fold (year_of_day (first_of_year yoe + day_of_year m d)). rewrite Hyear.
  replace (first_of_year yoe + day_of_year m d - (365 * yoe + yoe `div` 4 - yoe `div` 100)) with (day_of_year m d)
    by (unfold first_of_year; lia).
  rewrite Hmp in *. rewrite Hday.
  assert ((if 10 <=? shifted_month m then shifted_month m - 9 else shifted_month m + 3) = m) as ->.
  { unfold shifted_month. destruct (Z.ltb_spec 2 m); destruct (Z.leb_spec 10 (if true then m - 3 else 0)); cbn in *;
      repeat case_match; lia. }
  f_equal. unfold yoe, y'. destruct (m <=? 2); lia.
Qed.

(** *** Every count of days is that of a date *)
Lemma days_in_month_range y m : 28 ≤ days_in_month y m ≤ 31.
Proof. unfold days_in_month. repeat case_match; lia. Qed.

Lemma valid_tomorrow d : valid_date d → valid_date (tomorrow d).
Proof.
  destruct d as [y m d]. intros [Hm Hd]. cbn in Hm, Hd. unfold tomorrow, valid_date. cbn [d_year d_month d_day].
  pose proof (days_in_month_range y (m + 1)). pose proof (days_in_month_range (y + 1) 1).
  destruct (Z.ltb_spec d (days_in_month y m)); cbn [d_year d_month d_day]; [lia|].
  destruct (Z.ltb_spec m 12); cbn [d_year d_month d_day]; lia.
Qed.

Definition epoch : Date := mkDate 1970 1 1.

Lemma date_of_day n : 0 ≤ n → ∃ d, valid_date d ∧ date_days d = n.
Proof.
  revert n. apply natlike_ind; [|intros n Hn (d & Hv & Hd)].
  - exists epoch. split; [split; vm_compute; split; discriminate|reflexivity].
  - exists (tomorrow d). split; [by apply valid_tomorrow|]. rewrite tomorrow_days by done. lia.
Qed.

Lemma civil_of_day n : 0 ≤ n → valid_date (civil_from_days n) ∧ date_days (civil_from_days n) = n.
Proof. intros (d & Hv & <-)%date_of_day. by rewrite civil_round_trip. Qed.

(** The first day of the year 10000. *)
Definition LAST_DAY : Z := 2932897.

Lemma year_range d : valid_date d → 0 ≤ date_days d < LAST_DAY → 1970 ≤ d_year d < 10000.
Proof.
  destruct d as [y m d]. intros [Hm Hd] Hr. cbn in *. unfold date_days, days_from_civil, LAST_DAY in Hr. cbn in Hr.
  pose proof (days_in_month_range y m). assert (1 ≤ d ≤ 31) as Hd' by lia. clear Hd H.
  destruct (Z.leb_spec m 2); [destruct (Z.ltb_spec 2 m); [lia|]|destruct (Z.ltb_spec 2 m); [|lia]]; Z.div_mod_to_equations; lia.
Qed.

(** ** Texts *)
Lemma pretty_go_length k x s : (x < 10 ^ N.of_nat k)%N → (String.length (pretty_N_go x s) ≤ k + String.length s)%nat.
Proof.
  revert x s. induction k as [|k IH]; intros x s Hx; (destruct (decide (x = 0)%N) as [->|Hne]; [rewrite pretty_N_go_0; lia|]).
  { simpl in Hx. lia. }
  rewrite pretty_N_go_step by lia. rewrite Nat2N.inj_succ, N.pow_succ_r' in Hx.
  specialize (IH (x `div` 10)%N (String (pretty_N_char (x `mod` 10)) s)). simpl in IH.
  etrans; [apply IH, N.Div0.div_lt_upper_bound; lia|lia].
Qed.

Lemma show_nat_length w n : 0 ≤ n < 10 ^ Z.of_nat (S w) → (String.length (show_nat n) ≤ S w)%nat.
Proof.
  intros Hn. unfold show_nat, pretty, pretty_N. case_decide; [simpl; lia|].
  pose proof (pretty_go_length (S w) (Z.to_N n) EmptyString) as H1. simpl String.length in H1.
  rewrite Nat.add_0_r in H1. apply H1. apply N2Z.inj_lt. rewrite Z2N.id, N2Z.inj_pow, nat_N_Z by lia. lia.
Qed.

Lemma length_app_string (s t : string) : String.length (s +:+ t) = (String.length s + String.length t)%nat.
Proof. induction s as [|a s IH]; [done|]. simpl. by rewrite IH. Qed.

Lemma zero_fill_length w s : (String.length s ≤ w)%nat → String.length (zero_fill w s) = w.
Proof.
  intros H. unfold zero_fill. rewrite length_app_string.
  assert (∀ k, String.length (zeros k) = k) as -> by (intros k; induction k; simpl; auto). lia.
Qed.

Lemma padded_parses w n : 0 ≤ n → parse_digits 0 (padded w n) = Some n.
Proof.
  intros Hn. unfold padded, zero_fill. destruct (Z.ltb_spec n 0); [lia|].
  assert (∀ k s, parse_digits 0 (zeros k +:+ s) = parse_digits 0 s) as Hz by (intros k s; induction k; [done|exact IHk]).
  rewrite Hz. pose proof (parse_magnitude_show n Hn) as H1. unfold parse_magnitude in H1. by destruct (show_nat n).
Qed.

Lemma padded_digits w n : 0 ≤ n → string_forall is_digit (padded w n) = true.
Proof.
  intros Hn. unfold padded, zero_fill. destruct (Z.ltb_spec n 0); [lia|].
  assert (∀ k s, string_forall is_digit (zeros k +:+ s) = string_forall is_digit s) as -> by (intros k s; induction k; [done|exact IHk]).
  apply show_nat_digits.
Qed.

(** A number of [w] digits is written with exactly [w] digits. *)
Inductive Digits : nat → Z → string → Prop :=
| digits_intro w n s : String.length s = w → parse_digits 0 s = Some n → string_forall is_digit s = true → Digits w n s.

Lemma padded_spec w n : 0 ≤ n < 10 ^ Z.of_nat (S w) → Digits (S w) n (padded (S w) n).
Proof.
  intros Hn. split; [|apply padded_parses; lia|apply padded_digits; lia].
  unfold padded. destruct (Z.ltb_spec n 0); [lia|]. by apply zero_fill_length, show_nat_length.
Qed.

Lemma iso_reads y mo d h mi s ms sy smo sd sh smi ss sms :
  Digits 4 y sy → Digits 2 mo smo → Digits 2 d sd → Digits 2 h sh → Digits 2 mi smi → Digits 2 s ss → Digits 3 ms sms →
  iso_to_millis (sy +:+ "-" +:+ smo +:+ "-" +:+ sd +:+ "T" +:+ sh +:+ ":" +:+ smi +:+ ":" +:+ ss +:+ "." +:+ sms +:+ "+00:00")
  = (((days_from_civil y mo d * 24 + h) * 60 + mi) * 60 + s) * 1000 + ms.
Proof.
  assert (∀ w n t, Digits w n t → String.length t = w ∧ parse_digits 0 t = Some n ∧ string_forall is_digit t = true) as Hinv
    by (by intros w n t [? ? ? ? ? ?]).
  intros (L1 & P1 & _)%Hinv (L2 & P2 & _)%Hinv (L3 & P3 & _)%Hinv (L4 & P4 & _)%Hinv (L5 & P5 & _)%Hinv (L6 & P6 & _)%Hinv
    (L7 & P7 & D7)%Hinv.
  repeat match goal with
  | H : String.length ?x = S _ |- _ => is_var x; destruct x; [discriminate H|]; simpl in H; injection H as H
  | H : String.length ?x = O |- _ => is_var x; destruct x; [|discriminate H]; clear H
  end.
  cbv [iso_to_millis tonumber_digits parse_magnitude string_sub String.append String.substring Nat.sub].
  rewrite P1, P2, P3, P4, P5, P6. f_equal.
  cbv [fraction_millis string_sub String.substring Nat.sub String.length]. change (String.eqb "." ".") with true. cbv iota.
  simpl in D7. bools. cbn [leading_digits].
  repeat match goal with H : is_digit _ = true |- _ => rewrite H; clear H end.
  change (is_digit "+"%char) with false. cbv [String.eqb String.append String.substring tonumber_digits parse_magnitude].
  by rewrite P7.
Qed.

(** The last millisecond of the year 9999. *)
Definition MAX_ISO : Z := 253402300799999.

(** The dates a script writes are the dates the scripts read: every
    count of milliseconds from 1970 to the end of the year 9999 is written as
    an RFC 3339 text that reads as the same count. *)
Theorem iso_round_trip t : 0 ≤ t ≤ MAX_ISO → iso_to_millis (millis_to_iso t) = t.
Proof.
  unfold MAX_ISO. intros Ht. unfold millis_to_iso. set (days := t `div` 86400000).
  assert (0 ≤ days < LAST_DAY) as Hdays by (unfold days, LAST_DAY; Z.div_mod_to_equations; lia).
  assert (0 ≤ t - days * 86400000 < 86400000) as Hr by (unfold days; Z.div_mod_to_equations; lia).
  destruct (Z.ltb_spec (t - days * 86400000) 0); [lia|]. cbv beta iota zeta.
  pose proof (civil_of_day days ltac:(lia)) as [Hv Hd]. pose proof (year_range (civil_from_days days) Hv ltac:(lia)) as Hy.
  unfold date_days in Hd. destruct (civil_from_days days) as [y m d]. destruct Hv as [Hm Hdm].
  cbn [d_year d_month d_day] in *. pose proof (days_in_month_range y m).
  set (r := t - days * 86400000) in *. set (hour := r `div` 3600000). set (r1 := r - hour * 3600000).
  set (minute := r1 `div` 60000). set (r2 := r1 - minute * 60000). set (second := r2 `div` 1000).
  assert (0 ≤ hour < 24) by (unfold hour; Z.div_mod_to_equations; lia).
  assert (0 ≤ r1 < 3600000) by (unfold r1, hour; Z.div_mod_to_equations; lia).
  assert (0 ≤ minute < 60) by (unfold minute; Z.div_mod_to_equations; lia).
  assert (0 ≤ r2 < 60000) by (unfold r2, minute; Z.div_mod_to_equations; lia).
  assert (0 ≤ second < 60) by (unfold second; Z.div_mod_to_equations; lia).
  assert (0 ≤ r2 - second * 1000 < 1000) by (unfold second; Z.div_mod_to_equations; lia).
  rewrite (iso_reads y m d hour minute second (r2 - second * 1000)) by (apply padded_spec; simpl; lia).
  rewrite Hd. unfold r2, r1, r. lia.
Qed.

Lemma iso_round_trip_witness : iso_to_millis (millis_to_iso 951827696789) = 951827696789.
Proof. apply iso_round_trip. unfold MAX_ISO. lia. Defined.
