(* ===== verification/RedisKeys.v ===== *)
(** * Keys, scores and waiting times of the Redis queue ([src/job/redis.rs])

    The names under which a Redis queue keeps its data, the score of a waiting
    job as the Lua scripts and [waiting_score] compute it (in doubles), and the
    time a blocked claim waits on the marker. *)
From Stdlib Require Import Ascii.
From S2P Require Import Prelude Ordering Text Float64 External JobTypes FloatOrder.
Local Open Scope Z_scope.

(** ** Names of states *)
Definition job_state_name (s : JobState) : string :=
  match s with
  | Waiting => "waiting"
  | Delayed => "delayed"
  | Active => "active"
  | WaitingChildren => "waiting_children"
  | Completed => "completed"
  | Failed => "failed"
  end.

Definition terminal_metrics_suffix (s : JobState) : Result string :=
  match s with
  | Completed => Ok "completed"
  | Failed => Ok "failed"
  | other => Err (ConfigError ("job metrics are only available for completed or failed jobs, got " +:+ job_state_name other))
  end.

(** ** Keys *)
Record RedisQueueName := mkQueueName { rq_namespace : string; rq_queue : string }.

Definition DEFAULT_NAMESPACE : string := "a3s:lane".

Definition queue_key_prefix (q : RedisQueueName) : string := rq_namespace q +:+ ":" +:+ rq_queue q +:+ ":".
Definition key (q : RedisQueueName) (suffix : string) : string := queue_key_prefix q +:+ suffix.

(** What is kept under a key of a queue. *)
Inductive RedisKey : Type :=
| JobsKey | MetaKey | SequenceKey | EventsKey | MarkerKey | ClaimRateLimitKey | StalledKey | RepeatSchedulersKey
| StateKey (s : JobState)
| MetricsKey (failed : bool)
| MetricsDataKey (failed : bool)
| LockKey (job_id : string)
| DependenciesKey (parent_id : string)
| ProcessedKey (parent_id : string)
| IgnoredKey (parent_id : string)
| UnsuccessfulKey (parent_id : string)
| LogsKey (job_id : string)
| DeduplicationKey (id : string)
| DeduplicationNextKey (id : string)
| RepeatOwnerKey (repeat_key : string)
| RepeatSchedulerMetaKey (repeat_key : string).

Definition suffix_of (k : RedisKey) : string :=
  match k with
  | JobsKey => "jobs"
  | MetaKey => "meta"
  | SequenceKey => "sequence"
  | EventsKey => "events"
  | MarkerKey => "marker"
  | ClaimRateLimitKey => "claim_rate_limit"
  | StalledKey => "stalled"
  | RepeatSchedulersKey => "repeat"
  | StateKey s => job_state_name s
  | MetricsKey failed => if failed then "metrics:failed" else "metrics:completed"
  | MetricsDataKey failed => if failed then "metrics:failed:data" else "metrics:completed:data"
  | LockKey id => "locks:" +:+ id
  | DependenciesKey id => "dependencies:" +:+ id
  | ProcessedKey id => ("dependencies:" +:+ id) +:+ ":processed"
  | IgnoredKey id => ("dependencies:" +:+ id) +:+ ":failed"
  | UnsuccessfulKey id => ("dependencies:" +:+ id) +:+ ":unsuccessful"
  | LogsKey id => "logs:" +:+ id
  | DeduplicationKey id => "deduplication:" +:+ id
  | DeduplicationNextKey id => "deduplication_next:" +:+ id
  | RepeatOwnerKey k => "repeat:" +:+ k
  | RepeatSchedulerMetaKey k => "repeat_meta:" +:+ k
  end.

Definition redis_key (q : RedisQueueName) (k : RedisKey) : string := key q (suffix_of k).

Definition metrics_key (q : RedisQueueName) (s : JobState) : Result string :=
  let? suffix := terminal_metrics_suffix s in Ok (key q ("metrics:" +:+ suffix)).
Definition metrics_data_key (q : RedisQueueName) (s : JobState) : Result string :=
  let? suffix := terminal_metrics_suffix s in Ok (key q ("metrics:" +:+ suffix +:+ ":data")).

Lemma append_cancel (s t t' : string) : s +:+ t = s +:+ t' → t = t'.
Proof. induction s as [|a s IH]; simpl; intros H; [done|]. injection H. apply IH. Qed.

Lemma append_assoc (s t u : string) : (s +:+ t) +:+ u = s +:+ (t +:+ u).
Proof. induction s as [|a s IH]; [done|]. exact (f_equal (String a) IH). Qed.

(** Keys of a flow whose parent has no colon in its id; the other keys put no
    condition on their ids. *)
Definition plain (id : string) : Prop := split_once ":"%char id = None.

Definition parent_of (k : RedisKey) : option string :=
  match k with
  | DependenciesKey id | ProcessedKey id | IgnoredKey id | UnsuccessfulKey id => Some id
  | _ => None
  end.

Definition plain_key (k : RedisKey) : Prop := match parent_of k with Some id => plain id | None => True end.

Lemma split_once_cons c a s : split_once c (String a s) =
  if Ascii.eqb a c then Some (EmptyString, s)
  else match split_once c s with Some (l, r) => Some (String a l, r) | None => None end.
Proof. done. Qed.

Lemma split_at_colon id rest : plain id → split_once ":"%char (id +:+ String ":"%char rest) = Some (id, rest).
Proof.
  unfold plain. induction id as [|a id IH]; [done|].
  change (String a id +:+ String ":"%char rest) with (String a (id +:+ String ":"%char rest)).
  rewrite !split_once_cons. destruct (Ascii.eqb a ":"%char); [done|].
  destruct (split_once ":"%char id) as [[]|]; [done|]. intros _. by rewrite IH.
Qed.

Lemma bucket_split id id' rest rest' : plain id → plain id' →
  id +:+ String ":"%char rest = id' +:+ String ":"%char rest' → id = id' ∧ rest = rest'.
Proof. intros H H' E. apply (f_equal (split_once ":"%char)) in E. rewrite !split_at_colon in E by done. by injection E. Qed.

Lemma bucket_not_plain id id' rest : plain id → plain id' → id ≠ id' +:+ String ":"%char rest.
Proof. intros H H' ->. unfold plain in H. by rewrite split_at_colon in H. Qed.

Ltac same_bucket :=
  match goal with
  | H : (_ +:+ _) +:+ _ = _ |- _ => rewrite append_assoc in H; same_bucket
  | H : _ = (_ +:+ _) +:+ _ |- _ => rewrite append_assoc in H; same_bucket
  | H : _ +:+ _ = _ +:+ _ |- _ => apply append_cancel in H; same_bucket
  | H : plain ?a, H' : plain ?b, E : ?a +:+ _ = ?b +:+ _ |- _ =>
      apply (bucket_split a b _ _ H H') in E as [? E']; solve [by subst | discriminate E']
  | H : plain ?a, H' : plain ?b, E : ?a = ?b +:+ _ |- _ => destruct (bucket_not_plain _ _ _ H H' E)
  | H : plain ?a, H' : plain ?b, E : ?b +:+ _ = ?a |- _ => destruct (bucket_not_plain _ _ _ H H' (eq_sym E))
  end.

Lemma suffixes_differ k k' : plain_key k → plain_key k' → suffix_of k = suffix_of k' → k = k'.
Proof.
  destruct k as [| | | | | | | |[]|[]|[]|?|?|?|?|?|?|?|?|?|?], k' as [| | | | | | | |[]|[]|[]|?|?|?|?|?|?|?|?|?|?];
    cbn [suffix_of job_state_name]; intros Hp Hp' H; try done; try discriminate H;
    try (by apply append_cancel in H as <-); unfold plain_key in Hp, Hp'; cbn [parent_of] in *; try same_bucket.
Qed.

(** The keys of a queue never clash: what is kept under one key is never
    found under another, whatever the ids of jobs, deduplications and repeats
    are, if no flow parent has a colon in its id. *)
Theorem keys_distinct q k k' : plain_key k → plain_key k' → redis_key q k = redis_key q k' → k = k'.
Proof. intros Hp Hp'. unfold redis_key, key. intros H%append_cancel. by apply suffixes_differ. Qed.

Lemma keys_distinct_witness :
  redis_key (mkQueueName DEFAULT_NAMESPACE "mail") (LockKey "7") = "a3s:lane:mail:locks:7" ∧
  LockKey "7" = LockKey "7".
Proof. split; [reflexivity|]. by apply (keys_distinct (mkQueueName DEFAULT_NAMESPACE "mail")). Defined.

(** With a colon they can: the ids waited for by [p:processed] are kept under
    the key of the values [p] has received. *)
Example flow_keys_clash q :
  redis_key q (DependenciesKey "p:processed") = redis_key q (ProcessedKey "p") ∧ validate_job_id "p:processed" = Ok tt.
Proof. done. Qed.

(** Two queues can clash: namespaces and names are joined without escaping, so
    the lock of a job named [jobs] is the table of jobs of another queue. *)
Example queues_clash :
  redis_key (mkQueueName "a3s:lane" "mail") (LockKey "jobs") = redis_key (mkQueueName "a3s:lane" "mail:locks") JobsKey ∧
  redis_key (mkQueueName "a3s" "lane:mail") JobsKey = redis_key (mkQueueName "a3s:lane" "mail") JobsKey.
Proof. done. Qed.

(** ** The score of a waiting job *)
Definition WAITING_SCORE_BUCKET : f64 := S754_finite false 8192000000000000 (-13).
Definition bucket : Z := 1000000000000.
Definition half_bucket : Z := 500000000000.

(** The position within the bucket of a priority. *)
Definition relative_score (sequence : Z) (lifo : bool) : Z :=
  let sequence_index := sequence `mod` half_bucket in
  if lifo then half_bucket - 1 - sequence_index else half_bucket + sequence_index.

Definition waiting_score (priority sequence : Z) (lifo : bool) : f64 :=
  f64_add (f64_mul (f64_of_Z priority) WAITING_SCORE_BUCKET) (f64_of_Z (relative_score sequence lifo)).

(** The scripts add in another order, on Lua's numbers. *)
Definition waiting_score_for (priority sequence : Z) (lifo : bool) : f64 :=
  let sequence_index := sequence `mod` half_bucket in
  if lifo then f64_add (f64_mul (f64_of_Z priority) WAITING_SCORE_BUCKET) (f64_of_Z (half_bucket - 1 - sequence_index))
  else f64_add (f64_add (f64_mul (f64_of_Z priority) WAITING_SCORE_BUCKET) (f64_of_Z half_bucket)) (f64_of_Z sequence_index).

Example bucket_is_10_12 : WAITING_SCORE_BUCKET = f64_of_Z bucket.
Proof. vm_compute. reflexivity. Qed.

(** The intended score, before rounding. *)
Definition exact_score (priority sequence : Z) (lifo : bool) : Z := priority * bucket + relative_score sequence lifo.

Lemma relative_range sequence lifo : 0 ≤ relative_score sequence lifo < bucket.
Proof.
  unfold relative_score, half_bucket, bucket. pose proof (Z.mod_pos_bound sequence 500000000000 ltac:(lia)).
  destruct lifo; lia.
Qed.

(** ** Sums and products of integers below [2^53] are exact *)
Lemma round_scaled m e (k : nat) m' : normal m e → Zpos m' = Zpos m * 2 ^ Z.of_nat k →
  binary_round_aux prec emax false (Zpos m') (e - Z.of_nat k) loc_Exact = S754_finite false m e.
Proof.
  intros [Hd He] Hm. unfold binary_round_aux.
  assert (Zdigits2 (Zpos m') = 53 + Z.of_nat k) as Hdig.
  { destruct k as [|k]; [assert (m' = m) as -> by lia; lia|].
    assert (m' = shift_pos (Pos.of_succ_nat k) m) as ->.
    { apply Pos2Z.inj. rewrite shift_pos_value, Hm. f_equal. }
    change (Zdigits2 (Zpos (shift_pos (Pos.of_succ_nat k) m))) with (Zpos (digits2_pos (shift_pos (Pos.of_succ_nat k) m))).
    rewrite digits2_shift. simpl in Hd. lia. }
  rewrite (shr_fexp_pow2 _ _ (Z.of_nat k)).
  2:{ rewrite Hdig. unfold fexp, SpecFloat.emin, prec, emax. lia. }
  rewrite Hm, shr_pow2. cbn [shr_m shr_r shr_s loc_of_shr_record round_nearest_even].
  replace (e - Z.of_nat k + Z.of_nat k) with e by lia.
  rewrite (shr_fexp_pow2 m e 0).
  2:{ rewrite Hd. unfold fexp, SpecFloat.emin, prec, emax. lia. }
  cbn -[Z.leb Z.sub Z.add]. unfold emax, prec.
  destruct (Z.leb_spec e (1024 - 53)); [done|lia].
Qed.

(** A positive integer below [2^53] in canonical form. *)
Record canonical (n : Z) (m : positive) (e : Z) : Prop := {
  c_float : f64_of_Z n = S754_finite false m e;
  c_normal : normal m e;
  c_exponent : -52 ≤ e ≤ 0;
  c_value : Zpos m = n * 2 ^ (- e);
}.

Lemma canonical_of n : 0 < n < 2 ^ 53 → ∃ m e, canonical n m e.
Proof.
  intros Hn. destruct n as [|p|p]; [lia| |lia].
  destruct (f64_of_Z_exact p) as (m & e & H1 & H2 & H3 & H4); [lia|]. by exists m, e.
Qed.

Lemma mantissa_range m e : normal m e → 2 ^ 52 ≤ Zpos m < 2 ^ 53.
Proof. intros [Hd _]. pose proof (digits2_bound m) as Hb. simpl in Hd. rewrite Hd in Hb. lia. Qed.

(** Equal values: the mantissa of the finer exponent is a multiple. *)
Lemma rescaled n m e m' e' : canonical n m e → e' ≤ 0 → Zpos m' = n * 2 ^ (- e') → e' ≤ e →
  Zpos m' = Zpos m * 2 ^ Z.of_nat (Z.to_nat (e - e')).
Proof.
  intros [_ _ He Hv] He' Hm Hle. rewrite Hm, Hv, Z2Nat.id by lia.
  rewrite <- Z.mul_assoc, <- Z.pow_add_r by lia. do 2 f_equal. lia.
Qed.

Lemma rounds_to n m e m' e' : canonical n m e → e' ≤ 0 → Zpos m' = n * 2 ^ (- e') → e' ≤ e →
  binary_round_aux prec emax false (Zpos m') e' loc_Exact = f64_of_Z n.
Proof.
  intros Hc He' Hm Hle. rewrite (c_float _ _ _ Hc).
  replace e' with (e - Z.of_nat (Z.to_nat (e - e'))) by (rewrite Z2Nat.id; lia).
  apply round_scaled; [apply (c_normal _ _ _ Hc)|]. by eapply rescaled.
Qed.

(** A product of two canonical forms is at most as fine as its own. *)
Lemma finer n m e m' e' : canonical n m e → e' ≤ 0 → Zpos m' = n * 2 ^ (- e') → 2 ^ 52 ≤ Zpos m' → e' ≤ e.
Proof.
  intros Hc He' Hm Hlow. destruct Hc as [_ Hn He Hv]. pose proof (mantissa_range m e Hn).
  apply Z.le_ngt. intros Hlt.
  assert (Zpos m = Zpos m' * 2 ^ (e' - e)) as E.
  { rewrite Hm, Hv, <- Z.mul_assoc, <- Z.pow_add_r by lia. do 2 f_equal. lia. }
  assert (2 ^ 1 ≤ 2 ^ (e' - e)) by (apply Z.pow_le_mono_r; lia). nia.
Qed.

Lemma f64_mul_exact a b : 0 ≤ a → 0 ≤ b → a < 2 ^ 53 → b < 2 ^ 53 → a * b < 2 ^ 53 →
  f64_mul (f64_of_Z a) (f64_of_Z b) = f64_of_Z (a * b).
Proof.
  intros Ha Hb Ha' Hb' Hab. destruct (decide (a = 0)) as [->|]; [destruct (decide (b = 0)) as [->|]; [done|]|].
  { destruct (canonical_of b) as (m & e & [-> _ _ _]); [lia|done]. }
  destruct (decide (b = 0)) as [->|].
  { rewrite Z.mul_0_r. destruct (canonical_of a) as (m & e & [-> _ _ _]); [lia|done]. }
  destruct (canonical_of a) as (m1 & e1 & H1); [lia|]. destruct (canonical_of b) as (m2 & e2 & H2); [lia|].
  destruct (canonical_of (a * b)) as (m & e & H); [nia|].
  rewrite (c_float _ _ _ H1), (c_float _ _ _ H2). unfold f64_mul, SFmul. simpl xorb.
  destruct H1 as [_ Hn1 He1 Hv1], H2 as [_ Hn2 He2 Hv2].
  assert (Zpos (m1 * m2) = a * b * 2 ^ (- (e1 + e2))) as Hm.
  { rewrite Pos2Z.inj_mul, Hv1, Hv2. replace (- (e1 + e2)) with (- e1 + - e2) by lia. rewrite Z.pow_add_r by lia. lia. }
  pose proof (mantissa_range _ _ Hn1). pose proof (mantissa_range _ _ Hn2).
  eapply rounds_to; [done|lia|done|]. eapply finer; [done|lia|done|]. rewrite Pos2Z.inj_mul. nia.
Qed.

Lemma shl_align_value m e e' : e' ≤ e → Zpos (shl_align m e e').1 = Zpos m * 2 ^ (e - e') ∧ (shl_align m e e').2 = e'.
Proof.
  intros H. unfold shl_align. destruct (e' - e) as [|p|p] eqn:E; simpl.
  - assert (e = e') as -> by lia. rewrite Z.sub_diag. split; [lia|done].
  - lia.
  - split; [|done]. change (Zpos (shift_pos p m) = Zpos m * 2 ^ (e - e')). rewrite shift_pos_value. do 2 f_equal. lia.
Qed.

Lemma f64_add_exact a b : 0 ≤ a → 0 ≤ b → a + b < 2 ^ 53 →
  f64_add (f64_of_Z a) (f64_of_Z b) = f64_of_Z (a + b).
Proof.
  intros Ha Hb Hab. destruct (decide (a = 0)) as [->|]; [destruct (decide (b = 0)) as [->|]; [done|]|].
  { rewrite Z.add_0_l. destruct (canonical_of b) as (m & e & [-> _ _ _]); [lia|done]. }
  destruct (decide (b = 0)) as [->|].
  { rewrite Z.add_0_r. destruct (canonical_of a) as (m & e & [-> _ _ _]); [lia|done]. }
  destruct (canonical_of a) as (m1 & e1 & H1); [lia|]. destruct (canonical_of b) as (m2 & e2 & H2); [lia|].
  destruct (canonical_of (a + b)) as (m & e & H); [lia|].
  rewrite (c_float _ _ _ H1), (c_float _ _ _ H2). unfold f64_add, SFadd. cbn [cond_Zopp].
  destruct H1 as [_ Hn1 He1 Hv1], H2 as [_ Hn2 He2 Hv2]. set (ez := Z.min e1 e2).
  destruct (shl_align_value m1 e1 ez) as [A1 _]; [lia|]. destruct (shl_align_value m2 e2 ez) as [A2 _]; [lia|].
  destruct (shl_align m1 e1 ez) as [x1 y1], (shl_align m2 e2 ez) as [x2 y2]. cbn [fst] in *.
  assert (Zpos (x1 + x2) = (a + b) * 2 ^ (- ez)) as Hs.
  { rewrite Pos2Z.inj_add, A1, A2, Hv1, Hv2, <- !Z.mul_assoc, <- !Z.pow_add_r by lia.
    replace (- e1 + (e1 - ez)) with (- ez) by lia. replace (- e2 + (e2 - ez)) with (- ez) by lia. lia. }
  pose proof (mantissa_range _ _ Hn1). pose proof (mantissa_range _ _ Hn2).
  assert (2 ^ 52 ≤ Zpos (x1 + x2)) as Hlow.
  { rewrite Pos2Z.inj_add, A1. assert (0 < 2 ^ (e1 - ez)) by (apply Z.pow_pos_nonneg; lia). nia. }
  assert (53 ≤ Zpos (digits2_pos (x1 + x2))) as Hdig.
  { pose proof (digits2_bound (x1 + x2)). apply Z.le_ngt. intros Hlt.
    assert (2 ^ Zpos (digits2_pos (x1 + x2)) ≤ 2 ^ 52) by (apply Z.pow_le_mono_r; lia). lia. }
  unfold binary_normalize. change (Zpos x1 + Zpos x2) with (Zpos (x1 + x2)). unfold binary_round.
  assert (shl_align (x1 + x2) ez (fexp prec emax (Zpos (digits2_pos (x1 + x2)) + ez)) = ((x1 + x2)%positive, ez)) as ->.
  { unfold shl_align. destruct (fexp prec emax (Zpos (digits2_pos (x1 + x2)) + ez) - ez) as [|q|q] eqn:E; [done|done|].
    unfold fexp, SpecFloat.emin, prec, emax in E. lia. }
  eapply rounds_to; [done|lia|done|]. eapply finer; [done|lia|done..].
Qed.

(** Integers below [2^53] are ordered as their floats. *)
Lemma f64_lt_exact a b : 0 ≤ a < 2 ^ 53 → 0 ≤ b < 2 ^ 53 → f64_lt (f64_of_Z a) (f64_of_Z b) = true ↔ a < b.
Proof.
  intros Ha Hb. destruct (decide (a = 0)) as [->|]; [destruct (decide (b = 0)) as [->|]; [done|]|].
  { destruct (canonical_of b) as (m & e & [-> _ _ _]); [lia|]. split; [lia|done]. }
  destruct (decide (b = 0)) as [->|].
  { destruct (canonical_of a) as (m & e & [-> _ _ _]); [lia|]. split; [done|lia]. }
  destruct (canonical_of a) as (m1 & e1 & [-> Hn1 He1 Hv1]); [lia|].
  destruct (canonical_of b) as (m2 & e2 & [-> Hn2 He2 Hv2]); [lia|].
  pose proof (mantissa_range _ _ Hn1). pose proof (mantissa_range _ _ Hn2).
  rewrite f64_lt_spec by done. unfold number_cmp, cmp_then, cmp_on. simpl.
  assert (∀ x y m m' e e', Zpos m = x * 2 ^ (- e) → Zpos m' = y * 2 ^ (- e') → 2 ^ 52 ≤ Zpos m' → Zpos m < 2 ^ 53 → e' ≤ 0 → e < e' → x < y) as Hlex.
  { intros x y m m' e e' Hm Hm' Hlo Hhi Hle Hlt.
    assert (2 ^ (- e) = 2 ^ (- e') * 2 ^ (e' - e)) as Ep by (rewrite <- Z.pow_add_r by lia; f_equal; lia).
    assert (2 ^ 1 ≤ 2 ^ (e' - e)) by (apply Z.pow_le_mono_r; lia).
    assert (0 < 2 ^ (- e')) by (apply Z.pow_pos_nonneg; lia). nia. }
  destruct (Z.compare_spec e1 e2) as [->|Hlt|Hlt]; simpl.
  - assert (0 < 2 ^ (- e2)) by (apply Z.pow_pos_nonneg; lia). rewrite Pos.compare_lt_iff.
    assert ((m1 < m2)%positive ↔ Z.pos m1 < Z.pos m2) as -> by lia. nia.
  - split; [|done]. intros _. by apply (Hlex a b m1 m2 e1 e2); try lia.
  - split; [done|]. intros Hab. assert (b < a) by (apply (Hlex b a m2 m1 e2 e1); lia). lia.
Qed.

(** ** The order of the waiting jobs *)
Definition MAX_EXACT_PRIORITY : Z := 9006.

Lemma waiting_score_exact priority sequence lifo : 0 ≤ priority ≤ MAX_EXACT_PRIORITY →
  waiting_score priority sequence lifo = f64_of_Z (exact_score priority sequence lifo) ∧
  waiting_score_for priority sequence lifo = f64_of_Z (exact_score priority sequence lifo) ∧
  0 ≤ exact_score priority sequence lifo < 2 ^ 53.
Proof.
  unfold MAX_EXACT_PRIORITY. intros Hp. pose proof (relative_range sequence lifo) as Hr.
  pose proof (Z.mod_pos_bound sequence half_bucket ltac:(done)) as Hm.
  unfold waiting_score, waiting_score_for, exact_score. rewrite bucket_is_10_12.
  unfold relative_score, bucket, half_bucket in *.
  split_and!; [| |lia|lia].
  - rewrite f64_mul_exact by lia. apply f64_add_exact; destruct lifo; lia.
  - rewrite f64_mul_exact by lia. destruct lifo; [apply f64_add_exact; lia|].
    rewrite f64_add_exact by lia. rewrite f64_add_exact by lia. f_equal. lia.
Qed.

(** C40: waiting jobs are served by priority, then last-in jobs newest first,
    then the others oldest first, as long as priorities are at most 9006 (the
    default is 1000) and no counter of a half bucket wraps: the scripts' scores
    are those of the reference function, exact integers, ordered in that way,
    and never equal for two sequence numbers. *)
Theorem waiting_order_exact p s lifo p' s' lifo' :
  0 ≤ p ≤ MAX_EXACT_PRIORITY → 0 ≤ p' ≤ MAX_EXACT_PRIORITY → 0 ≤ s < half_bucket → 0 ≤ s' < half_bucket →
  waiting_score_for p s lifo = waiting_score p s lifo ∧
  (f64_lt (waiting_score_for p s lifo) (waiting_score_for p' s' lifo') = true ↔
   p < p' ∨ p = p' ∧ match lifo, lifo' with
                     | true, false => True
                     | false, true => False
                     | true, true => s' < s
                     | false, false => s < s'
                     end).
Proof.
  intros Hp Hp' Hs Hs'. destruct (waiting_score_exact p s lifo Hp) as (-> & -> & H1).
  destruct (waiting_score_exact p' s' lifo' Hp') as (_ & -> & H2). split; [done|]. rewrite f64_lt_exact by done.
  unfold exact_score, relative_score, bucket. rewrite !Z.mod_small by done. unfold half_bucket in *.
  destruct lifo, lifo'; lia.
Qed.

Lemma waiting_order_exact_witness :
  f64_lt (waiting_score_for 1000 1 false) (waiting_score_for 1000 2 false) = true ∧
  f64_lt (waiting_score_for 1 99 false) (waiting_score_for 2 1 true) = true.
Proof.
  split; apply waiting_order_exact; unfold MAX_EXACT_PRIORITY, half_bucket; lia.
Defined.

Definition same_number (x y : f64) : bool :=
  match x, y with
  | S754_finite b m e, S754_finite b' m' e' => Bool.eqb b b' && Pos.eqb m m' && Z.eqb e e'
  | _, _ => false
  end.

Lemma same_number_eq x y : same_number x y = true → x = y.
Proof.
  destruct x, y; try done. simpl. rewrite !andb_true_iff, Bool.eqb_true_iff, Pos.eqb_eq, Z.eqb_eq.
  by intros [[-> ->] ->].
Qed.

(** Above that, order is lost: at priority 10000 the third, fourth and
    fifth jobs share a score, and at the largest priority a validated job may
    have, 255 consecutive ones do; Redis orders equal scores by the text of
    the ids, so first in first out does not hold. *)
Theorem high_priorities_collide :
  (∀ s, 3 ≤ s ≤ 5 → waiting_score_for 10000 s false = waiting_score_for 10000 3 false) ∧
  validate_job_priority MAX_JOB_PRIORITY = Ok tt ∧
  (∀ s, 129 ≤ s ≤ 383 → waiting_score_for MAX_JOB_PRIORITY s false = waiting_score_for MAX_JOB_PRIORITY 129 false).
Proof.
  assert (∀ p lo n, forallb (λ k, same_number (waiting_score_for p (lo + Z.of_nat k) false) (waiting_score_for p lo false)) (seq 0 n) = true →
    ∀ s, lo ≤ s < lo + Z.of_nat n → waiting_score_for p s false = waiting_score_for p lo false) as Hall.
  { intros p lo n H s Hs. rewrite forallb_forall in H. specialize (H (Z.to_nat (s - lo))).
    replace (lo + Z.of_nat (Z.to_nat (s - lo))) with s in H by lia. apply same_number_eq, H, in_seq. lia. }
  split_and!.
  - intros s Hs. apply (Hall 10000 3 3%nat); [vm_compute; reflexivity|lia].
  - reflexivity.
  - intros s Hs. apply (Hall MAX_JOB_PRIORITY 129 255%nat); [vm_compute; reflexivity|lia].
Qed.

(** ** Durations *)
Definition duration_millis (d : Duration) : Z := if as_millis d <=? U64_MAX then as_millis d else U64_MAX.
Definition lock_duration_millis (d : Duration) : Z := Z.max (duration_millis d) 1.

(** [JobRateLimit] ([src/job/types.rs]). *)
Record JobRateLimit := mkRateLimit { max_claims : Z; rate_window : Duration }.

Definition per_second (max_claims : Z) : JobRateLimit := mkRateLimit max_claims (from_secs 1).
Definition per_minute (max_claims : Z) : JobRateLimit := mkRateLimit max_claims (from_secs 60).

Definition validate_rate_limit (r : JobRateLimit) : Result unit :=
  if max_claims r =? 0 then Err (ConfigError "job claim rate limit max_claims must be greater than zero")
  else if is_zero_duration (rate_window r) then Err (ConfigError "job claim rate limit window must be greater than zero")
  else Ok tt.

Definition MAX_MARKER_BLOCK_TIMEOUT : Duration := from_secs 10.
Definition MIN_MARKER_BLOCK_TIMEOUT : Duration := from_millis 1.

(** [i64::saturating_sub]. *)
Definition saturating_sub_i64 (a b : Z) : Z := Z.max I64_MIN (Z.min I64_MAX (a - b)).

Section waiting.
Context {X : Ext}.

Definition millis (at_ : DateTime) : f64 := f64_of_Z (timestamp_millis at_).

Definition marker_block_timeout (block_until_millis : option Z) (remaining : Duration) (now : DateTime) : Duration :=
  if is_zero_duration remaining then 0
  else
    let timeout := Z.min remaining MAX_MARKER_BLOCK_TIMEOUT in
    let finish timeout :=
      if (timeout <? MIN_MARKER_BLOCK_TIMEOUT) && (MIN_MARKER_BLOCK_TIMEOUT <=? remaining)
      then MIN_MARKER_BLOCK_TIMEOUT else timeout in
    match block_until_millis with
    | None => finish timeout
    | Some until =>
        let delay_millis := saturating_sub_i64 until (timestamp_millis now) in
        if delay_millis <=? 0 then 0 else finish (Z.min timeout (from_millis delay_millis))
    end.

(** A worker that waits for a marker never waits longer than it may, never
    more than ten seconds at a time, and never beyond the time the next
    delayed job is due; it does not wait at all exactly when its time is up or
    that job is due, so it never spins on a wait of zero. *)
Theorem marker_wait_bounded until remaining now : 0 ≤ remaining →
  let wait := marker_block_timeout until remaining now in
  0 ≤ wait ≤ Z.min remaining (from_secs 10) ∧
  (∀ t, until = Some t → timestamp_millis now < t → wait ≤ from_millis (t - timestamp_millis now)) ∧
  (wait = 0 ↔ remaining = 0 ∨ ∃ t, until = Some t ∧ t ≤ timestamp_millis now).
Proof.
  intros Hr wait. subst wait. unfold marker_block_timeout, is_zero_duration, MAX_MARKER_BLOCK_TIMEOUT, MIN_MARKER_BLOCK_TIMEOUT,
    from_secs, from_millis, nanos_per_sec, nanos_per_milli, saturating_sub_i64, I64_MIN, I64_MAX.
  destruct (Z.eqb_spec remaining 0) as [->|Hne].
  { split_and!; [lia|lia|intros t _ ?; lia|]. split; [by left|done]. }
  destruct until as [t|].
  - destruct (Z.leb_spec (Z.max (- 2 ^ 63) (Z.min (2 ^ 63 - 1) (t - timestamp_millis now))) 0).
    + split_and!; [lia|lia|intros ? [= <-] ?; lia|]. split; [intros _; right; exists t; split; [done|lia]|done].
    + repeat case_match; bools; split_and!; try lia; try (intros ? [= <-] ?; lia);
        (split; [lia|intros [?|(? & [= <-] & ?)]; lia]).
  - repeat case_match; bools; split_and!; try lia; try (intros ? [=]);
      (split; [lia|intros [?|(? & [=] & ?)]; lia]).
Qed.
End waiting.

Lemma marker_wait_bounded_witness :
  @marker_block_timeout demo_ext (Some 1500) (from_secs 30) (from_millis 1000) = from_millis 500 ∧
  @marker_block_timeout demo_ext (Some 1500) (from_secs 30) (from_millis 1000) ≤ Z.min (from_secs 30) (from_secs 10).
Proof. split; [reflexivity|]. apply (@marker_wait_bounded demo_ext (Some 1500) (from_secs 30) (from_millis 1000)). done. Defined.
