(* ===== verification/RedisReplies.v ===== *)
(** * Replies of the Redis scripts ([src/job/redis.rs])

    The functions that turn the reply of a script into a job, a count, a page
    or an error.  Indexing a reply may panic in Rust: the decoders run in the
    monad [Reply], where an index out of bounds is [Panic]; the theorems show
    it is never reached, for any reply. *)
From Stdlib Require Import Ascii.
From S2P Require Import Prelude Ordering Text External JobTypes JobStore JobDedup JobQueries RedisKeys.
Local Open Scope Z_scope.

(** ** Stopping early *)
Inductive Stop : Type :=
| Raise (e : LaneError)
| Panic.

Abbreviation Reply := (outcome Stop).

Definition fail {A} (e : LaneError) : Reply A := Err (Raise e).
Definition other {A} (message : string) : Reply A := fail (Other message).

Definition lift {A} (r : Result A) : Reply A :=
  match r with Ok a => Ok a | Err e => fail e end.

(** [map_err] on the result of a parser that reports its error as text. *)
Definition parsed {A} (r : outcome string A) (message : string → string) : Reply A :=
  match r with Ok a => Ok a | Err error => other (message error) end.

(** [result[i]], [&result[start..]], [&result[start..end]]. *)
Definition index_at {A} (l : list A) (i : nat) : Reply A :=
  match l !! i with Some a => Ok a | None => Err Panic end.
Definition slice_from {A} (l : list A) (start : nat) : Reply (list A) :=
  if (start <=? length l)%nat then Ok (drop start l) else Err Panic.
Definition slice {A} (l : list A) (start end_ : nat) : Reply (list A) :=
  if ((start <=? end_) && (end_ <=? length l))%nat then Ok (take (end_ - start) (drop start l)) else Err Panic.

(** [iter().map(f).collect::<Result<Vec<_>>>()]. *)
Fixpoint try_map {E A B} (f : A → outcome E B) (l : list A) : outcome E (list B) :=
  match l with
  | [] => Ok []
  | a :: l' => let? b := f a in let? bs := try_map f l' in Ok (b :: bs)
  end.

(** [chunks_exact(2)]: an odd last element is left out. *)
Fixpoint chunks_of_two {A} (l : list A) : list (A * A) :=
  match l with
  | a :: b :: l' => (a, b) :: chunks_of_two l'
  | _ => []
  end.

(** [chunks(2)]: an odd last element is a chunk of its own. *)
Fixpoint chunks_up_to_two {A} (l : list A) : list (list A) :=
  match l with
  | [] => []
  | [a] => [[a]]
  | a :: b :: l' => [a; b] :: chunks_up_to_two l'
  end.

Definition is_even (n : nat) : bool := Nat.eqb (n mod 2) 0.

Definition show_len {A} (l : list A) : string := show_nat (Z.of_nat (length l)).

(** [result.get(i).unwrap_or(d)]. *)
Definition get_or (l : list string) (i : nat) (d : string) : string := unwrap_or (l !! i) d.

(** [str::parse] for unsigned integers, with the text of its error. *)
Fixpoint scan_digits (max acc : Z) (s : string) : outcome string Z :=
  match s with
  | EmptyString => Ok acc
  | String a s' =>
      match digit_value a with
      | None => Err "invalid digit found in string"
      | Some d => if max <? 10 * acc + d then Err "number too large to fit in target type"
                  else scan_digits max (10 * acc + d) s'
      end
  end.

Definition parse_unsigned (s : string) : outcome string Z :=
  match s with
  | EmptyString => Err "cannot parse integer from empty string"
  | String "+"%char EmptyString => Err "invalid digit found in string"
  | String "+"%char s' => scan_digits U64_MAX 0 s'
  | _ => scan_digits U64_MAX 0 s
  end.

Definition decode_usize_field (raw field owner_id : string) : Reply Z :=
  parsed (parse_unsigned raw)
    (λ error, "failed to decode Redis " +:+ field +:+ " count for " +:+ owner_id +:+ ": " +:+ error).

Definition decode_u64_field (raw field owner_id : string) : Reply Z :=
  parsed (parse_unsigned raw)
    (λ error, "failed to decode Redis " +:+ field +:+ " for " +:+ owner_id +:+ ": " +:+ error).

(** ** What [serde_json], [redis] and [chrono] provide *)
Section replies.
Context {X : Ext}.

Class RedisExt := {
  (** [serde_json]: parsing, the maps among the values, typed reading. *)
  json_from_str : string → outcome string Value;
  as_object : Value → option (gmap string Value);
  VObject : gmap string Value → Value;
  VArray : list Value → Value;
  job_from_value : Value → outcome string Job;
  log_from_str : string → outcome string JobLogEntry;
  json_of_job : Job → outcome string string;
  (** [redis::Value] and [redis::from_redis_value]. *)
  RedisValue : Type;
  is_nil : RedisValue → bool;
  as_array : RedisValue → option (list RedisValue);
  read_string : RedisValue → outcome string string;
  read_usize : RedisValue → outcome string Z;
  read_i64 : RedisValue → outcome string Z;
  (** [DateTime::from_timestamp_millis], [DateTime::to_rfc3339]. *)
  from_timestamp_millis : Z → option DateTime;
  to_rfc3339 : DateTime → string;
}.
Context {R : RedisExt}.

Definition redis_error (error : string) : LaneError := Other ("Redis job backend error: " +:+ error).

Definition encode_job (job : Job) : Result string :=
  match json_of_job job with
  | Ok s => Ok s
  | Err error => Err (Other ("failed to encode Redis job: " +:+ error))
  end.

(** ** Jobs *)

(** Lua writes an empty array as an empty object. *)
Definition normalize_lua_empty_array (value : Value) (field : string) : Value :=
  match as_object value with
  | None => value
  | Some object =>
      match object !! field with
      | Some v =>
          match as_object v with
          | Some m => if Nat.eqb (size m) 0 then VObject (<[ field := VArray [] ]> object) else value
          | None => value
          end
      | None => value
      end
  end.

Definition normalize_job (value : Value) : Value :=
  let value := normalize_lua_empty_array value "logs" in
  let value := normalize_lua_empty_array value "child_ids" in
  normalize_lua_empty_array value "stacktrace".

Definition decode_job (raw : string) : Reply Job :=
  let failed error := "failed to decode Redis job: " +:+ error in
  let? value := parsed (json_from_str raw) failed in
  parsed (job_from_value (normalize_job value)) failed.

(** The payload of a reply, its second element. *)
Definition payload_of (result : list string) (message : string) : Reply string :=
  match result !! 1%nat with Some raw => Ok raw | None => other message end.

Definition decode_add_job_result (result : list string) (job_id : string) : Reply Job :=
  match result with
  | status :: _ =>
      if bool_decide (status ∈ ["inserted"; "existing"; "deduplicated"; "repeat"])
      then let? raw := payload_of result ("Redis add job script returned no payload for " +:+ job_id) in
           decode_job raw
      else if String.eqb status "missing" then fail (JobNotFound job_id)
      else other ("unexpected Redis add job script status `" +:+ status +:+ "` for " +:+ job_id)
  | [] => other ("Redis add job script returned no status for " +:+ job_id)
  end.

Definition decode_upsert_repeat_result (result : list string) (repeat_key job_id : string) : Reply Job :=
  let cannot := "cannot upsert repeat key `" +:+ repeat_key +:+ "`; " in
  let owner := get_or result 1 "unknown" in
  match result with
  | status :: _ =>
      if String.eqb status "inserted"
      then let? raw := payload_of result ("Redis repeat upsert script returned no payload for " +:+ job_id) in
           decode_job raw
      else if String.eqb status "exists" then fail (ConfigError ("job id `" +:+ job_id +:+ "` already exists"))
      else if String.eqb status "active"
      then fail (JobLeaseConflict (cannot +:+ "current owner " +:+ owner +:+ " is active"))
      else if String.eqb status "flow"
      then fail (JobStateConflict (cannot +:+ "current owner " +:+ owner +:+ " has flow dependencies"))
      else if String.eqb status "deduplicated"
      then fail (JobStateConflict (cannot +:+ "deduplication id is active on job " +:+ owner))
      else if String.eqb status "config"
      then fail (ConfigError (get_or result 1 "invalid repeat upsert configuration"))
      else if String.eqb status "missing" then fail (JobNotFound job_id)
      else other ("unexpected Redis repeat upsert script status `" +:+ status +:+ "` for " +:+ job_id)
  | [] => other ("Redis repeat upsert script returned no status for " +:+ job_id)
  end.

Definition first_is (result : list string) (status : string) : bool :=
  match result with s :: _ => String.eqb s status | [] => false end.

Definition decode_add_jobs_result (result : list string) (expected_len : nat) : Reply (list Job) :=
  if first_is result "missing" then fail (JobNotFound (get_or result 1 "unknown"))
  else if negb (length result =? expected_len)%nat
  then other ("Redis add jobs script returned " +:+ show_len result +:+ " jobs, expected "
              +:+ show_nat (Z.of_nat expected_len))
  else try_map decode_job result.

Record RedisAddFlowResult := {
  existing_parent_id : option string;
  skipped_child_ids : gset string;
}.

Definition already_in_flow (result : list string) : LaneError :=
  JobStateConflict ("flow child id `" +:+ get_or result 1 "unknown" +:+ "` already belongs to parent `"
                    +:+ get_or result 2 "unknown" +:+ "`").

Definition deduplicated_in_flow (result : list string) : LaneError :=
  ConfigError ("flow deduplication id is already active for job `" +:+ get_or result 1 "unknown" +:+ "`").

Definition repeated_in_flow (result : list string) : LaneError :=
  ConfigError ("flow repeat key is already active for job `" +:+ get_or result 1 "unknown" +:+ "`").

Definition decode_add_flow_result (result : list string) : Reply RedisAddFlowResult :=
  match result with
  | status :: rest =>
      if String.eqb status "ok"
      then Ok {| existing_parent_id := None; skipped_child_ids := list_to_set rest |}
      else if String.eqb status "deduplicated_next" || String.eqb status "deduplicated_parent"
      then let? id := payload_of result ("Redis add flow script returned " +:+ status +:+ " without parent id") in
           Ok {| existing_parent_id := Some id; skipped_child_ids := ∅ |}
      else if String.eqb status "exists"
      then fail (ConfigError ("flow job id `" +:+ get_or result 1 "unknown" +:+ "` already exists"))
      else if String.eqb status "parent_conflict" then fail (already_in_flow result)
      else if String.eqb status "deduplicated" then fail (deduplicated_in_flow result)
      else if String.eqb status "repeat" then fail (repeated_in_flow result)
      else other ("unexpected Redis add flow script status `" +:+ status +:+ "`")
  | [] => other "Redis add flow script returned no status"
  end.

Definition decode_add_flow_children_result (result : list string) (parent_id : string) : Reply (gset string) :=
  let cannot := "cannot add flow children to job " +:+ parent_id +:+ "; " in
  match result with
  | status :: rest =>
      if String.eqb status "ok" then Ok (list_to_set rest)
      else if String.eqb status "empty" then fail (ConfigError "flow children cannot be empty")
      else if String.eqb status "missing" then fail (JobNotFound parent_id)
      else if String.eqb status "state"
      then fail (JobStateConflict (cannot +:+ "expected active state, found " +:+ get_or result 1 "unknown"))
      else if String.eqb status "lock_missing"
      then fail (JobLeaseConflict ("missing lock for job " +:+ parent_id))
      else if String.eqb status "lock_mismatch"
      then fail (JobLeaseConflict ("lock token mismatch for job " +:+ parent_id))
      else if String.eqb status "failed_dependencies"
      then fail (JobStateConflict (cannot +:+ "it has failed flow dependencies"))
      else if String.eqb status "exists"
      then fail (ConfigError ("flow child id `" +:+ get_or result 1 "unknown" +:+ "` already exists"))
      else if String.eqb status "parent_conflict" then fail (already_in_flow result)
      else if String.eqb status "deduplicated" then fail (deduplicated_in_flow result)
      else if String.eqb status "repeat" then fail (repeated_in_flow result)
      else other ("unexpected Redis add flow children script status `" +:+ status +:+ "`")
  | [] => other "Redis add flow children script returned no status"
  end.

Definition decode_priority_update_result (result : list string) (job_id : string) : Reply Job :=
  match result with
  | status :: _ =>
      if String.eqb status "ok"
      then let? raw := payload_of result ("Redis priority update script returned no payload for " +:+ job_id) in
           decode_job raw
      else if String.eqb status "missing" then fail (JobNotFound job_id)
      else other ("unexpected Redis priority update script status `" +:+ status +:+ "` for " +:+ job_id)
  | [] => other ("Redis priority update script returned no status for " +:+ job_id)
  end.

Definition decode_transition_result (result : list string) (job_id action : string) : Reply Job :=
  let cannot := "cannot " +:+ action +:+ " job " +:+ job_id in
  match result with
  | status :: _ =>
      if String.eqb status "ok"
      then let? raw := payload_of result ("Redis job " +:+ action +:+ " script returned no job payload") in
           decode_job raw
      else if String.eqb status "missing" then fail (JobNotFound job_id)
      else if String.eqb status "state"
      then fail (JobStateConflict (cannot +:+ " from state " +:+ get_or result 1 "unknown"))
      else if String.eqb status "pending_dependencies"
      then fail (JobStateConflict (cannot +:+ "; it has pending flow dependencies"))
      else if String.eqb status "failed_dependencies"
      then fail (JobStateConflict (cannot +:+ "; it has failed flow dependencies"))
      else if String.eqb status "lock_missing" then fail (JobLeaseConflict ("missing lock for job " +:+ job_id))
      else if String.eqb status "lock_mismatch"
      then fail (JobLeaseConflict ("lock token does not own job " +:+ job_id))
      else if String.eqb status "deduplicated"
      then fail (JobStateConflict (cannot +:+ "; deduplication id is active on job " +:+ get_or result 1 "unknown"))
      else if String.eqb status "repeat"
      then fail (JobStateConflict (cannot +:+ "; repeat key is active on job " +:+ get_or result 1 "unknown"))
      else other ("unexpected Redis job " +:+ action +:+ " script status `" +:+ status +:+ "`")
  | [] => other ("Redis job " +:+ action +:+ " script returned no status")
  end.

Definition decode_remove_job_result (result : list string) (job_id : string) : Reply (option Job) :=
  match result with
  | status :: _ =>
      if String.eqb status "ok"
      then let? raw := payload_of result ("Redis remove job script returned no payload for " +:+ job_id) in
           let? job := decode_job raw in Ok (Some job)
      else if String.eqb status "missing" then Ok None
      else if String.eqb status "active"
      then fail (JobLeaseConflict ("cannot remove active leased job " +:+ job_id))
      else other ("unexpected Redis remove job script status `" +:+ status +:+ "` for " +:+ job_id)
  | [] => other ("Redis remove job script returned no status for " +:+ job_id)
  end.

Definition decode_clean_jobs_result (result : list string) : Reply (list Job) :=
  if first_is result "bad_state" then other "Redis clean jobs script received an unknown state"
  else try_map decode_job result.

Definition decode_remove_unprocessed_children_result (result : list string) (parent_id : string)
    : Reply (option (list Job)) :=
  match result with
  | status :: rest =>
      if String.eqb status "missing" then Ok None
      else if String.eqb status "ok" then let? jobs := try_map decode_job rest in Ok (Some jobs)
      else other ("unexpected Redis remove unprocessed children script status `" +:+ status +:+ "` for " +:+ parent_id)
  | [] => other ("Redis remove unprocessed children script returned no status for " +:+ parent_id)
  end.

Definition decode_remove_child_dependency_result (result : list string) (child_id : string) : Reply bool :=
  match result with
  | status :: _ =>
      if String.eqb status "ok" then Ok true
      else if String.eqb status "no_relationship" then Ok false
      else if String.eqb status "missing_child" then fail (JobNotFound child_id)
      else if String.eqb status "missing_parent" then fail (JobNotFound (get_or result 1 "unknown parent"))
      else other ("unexpected Redis remove child dependency script status `" +:+ status +:+ "` for " +:+ child_id)
  | [] => other ("Redis remove child dependency script returned no status for " +:+ child_id)
  end.

Definition decode_job_state (state : string) : Reply (option JobState) :=
  if String.eqb state "waiting" then Ok (Some Waiting)
  else if String.eqb state "delayed" then Ok (Some Delayed)
  else if String.eqb state "active" then Ok (Some Active)
  else if String.eqb state "waiting_children" then Ok (Some WaitingChildren)
  else if String.eqb state "completed" then Ok (Some Completed)
  else if String.eqb state "failed" then Ok (Some Failed)
  else if String.eqb state "unknown" then Ok None
  else other ("unexpected Redis job state `" +:+ state +:+ "`").

Definition decode_job_finished_result (result : list string) (job_id : string)
    : Reply (option JobFinishedResult) :=
  match result with
  | status :: _ =>
      if String.eqb status "missing" then Ok None
      else if String.eqb status "not_finished" then Ok (Some NotFinished)
      else if String.eqb status "completed"
      then match result !! 1%nat with
           | None => Ok (Some (FinishedCompleted None))
           | Some raw =>
               let? value := parsed (json_from_str raw)
                 (λ error, "failed to decode Redis job completion value for " +:+ job_id +:+ ": " +:+ error) in
               Ok (Some (FinishedCompleted (Some value)))
           end
      else if String.eqb status "failed" then Ok (Some (FinishedFailed (result !! 1%nat)))
      else other ("unexpected Redis job finished script status `" +:+ status +:+ "` for " +:+ job_id)
  | [] => other ("Redis job finished script returned no status for " +:+ job_id)
  end.

(** ** Logs and events *)
Record JobLogPage := { lg_logs : list JobLogEntry; lg_count : Z }.

Definition decode_log_entries (raw_logs : list string) : Reply (list JobLogEntry) :=
  try_map (λ raw, parsed (log_from_str raw) (λ error, "failed to decode Redis job log entry: " +:+ error)) raw_logs.

Definition decode_clear_logs_result (result : list string) (job_id : string) : Reply JobLogPage :=
  match result with
  | [] => other ("Redis clear logs script returned no count for " +:+ job_id)
  | raw_count :: rest =>
      let? count := decode_usize_field raw_count "log" job_id in
      let? logs := decode_log_entries rest in
      if count <? Z.of_nat (length logs)
      then other ("Redis clear logs script returned " +:+ show_len logs +:+ " logs but count was "
                  +:+ show_nat count +:+ " for " +:+ job_id)
      else Ok {| lg_logs := logs; lg_count := count |}
  end.

(** An entry of a stream, and a reply to [XRANGE]. *)
Record StreamEntry := { se_id : string; se_map : gmap string RedisValue }.

Definition stream_string_field (map : gmap string RedisValue) (key : string) : option string :=
  match map !! key with
  | Some value => match read_string value with Ok s => Some s | Err _ => None end
  | None => None
  end.

Definition stream_field_value (value : RedisValue) : Value :=
  match read_string value with
  | Ok raw => match json_from_str raw with Ok v => v | Err _ => VString raw end
  | Err _ => match read_i64 value with Ok number => VNumber number | Err _ => VNull end
  end.

(** [now] is the time [Utc::now] gives for an id without a valid time. *)
Definition stream_id_timestamp (id : string) (now : DateTime) : DateTime :=
  let millis := match split_once "-"%char id with
                | Some (millis, _) => unwrap_or (parse_i64 millis) 0
                | None => 0
                end in
  unwrap_or (from_timestamp_millis millis) now.

Definition decode_event_prev_state (state : string) : Reply JobState :=
  if String.eqb state "waiting" then Ok Waiting
  else if String.eqb state "delayed" then Ok Delayed
  else if String.eqb state "active" then Ok Active
  else if String.eqb state "waiting_children" || String.eqb state "waiting-children" then Ok WaitingChildren
  else if String.eqb state "completed" then Ok Completed
  else if String.eqb state "failed" then Ok Failed
  else other ("unexpected Redis event prev state `" +:+ state +:+ "`").

Definition reserved_field (key : string) : bool := bool_decide (key ∈ ["event"; "jobId"; "prev"]).

Definition decode_event_entry (now : DateTime) (entry : StreamEntry) : Reply JobEvent :=
  match stream_string_field (se_map entry) "event" with
  | None => other ("Redis event stream entry " +:+ se_id entry +:+ " has no event")
  | Some event =>
      let timestamp := stream_id_timestamp (se_id entry) now in
      let job_id := stream_string_field (se_map entry) "jobId" in
      let? prev := match stream_string_field (se_map entry) "prev" with
                   | Some s => let? st := decode_event_prev_state s in Ok (Some st)
                   | None => Ok None
                   end in
      Ok {| ev_id := se_id entry; ev_event := event; ev_timestamp := timestamp; ev_job_id := job_id;
            ev_prev := prev;
            ev_fields := stream_field_value <$> filter (λ e, reserved_field e.1 = false) (se_map entry) |}
  end.

Definition decode_event_stream (now : DateTime) (reply : list StreamEntry) : Reply (list JobEvent) :=
  try_map (decode_event_entry now) reply.

(** ** Counts *)
Definition decode_stats_count (value : Z) (field : string) : Reply Z :=
  if value <? 0
  then other ("Redis stats script returned negative " +:+ field +:+ " count: -" +:+ show_nat (- value))
  else Ok value.

Definition add_count (total : Reply Z) (count : Z) : Reply Z :=
  let? total := total in
  if U64_MAX <? total + count then other "Redis stats script returned counts that overflow usize"
  else Ok (total + count).

Definition checked_total (counts : list Z) : Reply Z := foldl add_count (Ok 0) counts.

Definition decode_stats_result (result : list Z) : Reply JobQueueStats :=
  if negb (length result =? 7)%nat
  then other ("Redis stats script returned " +:+ show_len result +:+ " values, expected 7")
  else
    let? r0 := index_at result 0 in let? waiting := decode_stats_count r0 "waiting" in
    let? r1 := index_at result 1 in let? delayed := decode_stats_count r1 "delayed" in
    let? r2 := index_at result 2 in let? active := decode_stats_count r2 "active" in
    let? r3 := index_at result 3 in let? waiting_children := decode_stats_count r3 "waiting_children" in
    let? r4 := index_at result 4 in let? completed := decode_stats_count r4 "completed" in
    let? r5 := index_at result 5 in let? failed := decode_stats_count r5 "failed" in
    let? paused_flag := index_at result 6 in
    if paused_flag <? 0
    then other ("Redis stats script returned negative paused flag: -" +:+ show_nat (- paused_flag))
    else
      let? total := checked_total [waiting; delayed; active; waiting_children; completed; failed] in
      Ok (mkStats (Z.to_nat total) (Z.to_nat waiting) (Z.to_nat delayed) (Z.to_nat active)
            (Z.to_nat waiting_children) (Z.to_nat completed) (Z.to_nat failed) (negb (paused_flag =? 0))).

Definition decode_state_counts (states : list JobState) (result : list Z) : Reply (list (JobState * Z)) :=
  if negb (length result =? length states)%nat
  then other ("Redis job count script returned " +:+ show_len result +:+ " values, expected " +:+ show_len states)
  else try_map (λ '(state, count), let? n := decode_stats_count count (job_state_name state) in Ok (state, n))
         (zip states result).

Definition decode_priority_counts (priorities : list JobPriority) (result : list Z)
    : Reply (list (JobPriority * Z)) :=
  if negb (length result =? length priorities)%nat
  then other ("Redis priority count script returned " +:+ show_len result +:+ " values, expected "
              +:+ show_len priorities)
  else try_map (λ '(priority, count), let? n := decode_stats_count count "priority" in Ok (priority, n))
         (zip priorities result).

(** ** Replies of mixed types *)
Definition decode_redis_string (value : RedisValue) : Result string :=
  match read_string value with Ok s => Ok s | Err error => Err (redis_error error) end.

Record RedisListPage := { rl_jobs : list Job; rl_total : Z; rl_offset : Z; rl_limit : Z }.

Definition decode_list_jobs_result (result : list RedisValue) (offset limit : Z) : Reply RedisListPage :=
  match result with
  | [] => other "Redis list jobs script returned no values"
  | _ =>
      let? first := index_at result 0 in
      if match decode_redis_string first with Ok s => String.eqb s "bad_state" | Err _ => false end
      then other "Redis list jobs script received an unknown state"
      else
        let? total := match read_usize first with Ok n => Ok n | Err error => fail (redis_error error) end in
        let? rest := slice_from result 1 in
        let? jobs := try_map (λ value, let? raw := lift (decode_redis_string value) in decode_job raw) rest in
        if (0 <? limit) && (limit <? Z.of_nat (length jobs))
        then other ("Redis list jobs script returned " +:+ show_len jobs +:+ " jobs, expected at most " +:+ show_nat limit)
        else Ok {| rl_jobs := jobs; rl_total := total; rl_offset := offset; rl_limit := limit |}
  end.

Record JobMetricsMeta := { mm_count : Z; mm_previous_timestamp_millis : Z; mm_previous_count : Z }.
Record JobMetrics := { jm_meta : JobMetricsMeta; jm_data : list Z; jm_count : Z }.

Definition decode_optional_usize_value (value : RedisValue) (field : string) : Reply Z :=
  if is_nil value then Ok 0
  else parsed (read_usize value) (λ error, "failed to decode Redis " +:+ field +:+ ": " +:+ error).

Definition decode_optional_i64_value (value : RedisValue) (field : string) : Reply Z :=
  if is_nil value then Ok 0
  else parsed (read_i64 value) (λ error, "failed to decode Redis " +:+ field +:+ ": " +:+ error).

Definition decode_metrics_result (value : RedisValue) (state : JobState) : Reply JobMetrics :=
  let? _ := lift (terminal_metrics_suffix state) in
  match as_array value with
  | None => other "Redis metrics script returned a non-array payload"
  | Some items =>
      if negb (length items =? 3)%nat
      then other ("Redis metrics script returned " +:+ show_len items +:+ " values, expected 3")
      else
        let? item0 := index_at items 0 in
        match as_array item0 with
        | None => other "Redis metrics script returned non-array metadata"
        | Some meta_values =>
            if negb (length meta_values =? 3)%nat
            then other ("Redis metrics metadata returned " +:+ show_len meta_values +:+ " values, expected 3")
            else
              let? item1 := index_at items 1 in
              match as_array item1 with
              | None => other "Redis metrics script returned non-array data points"
              | Some data_values =>
                  let? m0 := index_at meta_values 0 in
                  let? count := decode_optional_usize_value m0 "metrics count" in
                  let? m1 := index_at meta_values 1 in
                  let? previous := decode_optional_i64_value m1 "metrics previous timestamp" in
                  let? m2 := index_at meta_values 2 in
                  let? previous_count := decode_optional_usize_value m2 "metrics previous count" in
                  let? data := try_map (λ v, decode_optional_usize_value v "metrics data point") data_values in
                  let? item2 := index_at items 2 in
                  let? points := match read_usize item2 with Ok n => Ok n | Err error => fail (redis_error error) end in
                  Ok {| jm_meta := {| mm_count := count; mm_previous_timestamp_millis := previous;
                                      mm_previous_count := previous_count |};
                        jm_data := data; jm_count := points |}
              end
        end
  end.
End replies.
