(* ===== verification/RedisDependencies.v ===== *)
(** * Replies about flow dependencies ([src/job/redis.rs], [src/job/types.rs])

    The dependency scripts answer with one flat list of strings: counts, pairs
    of an id and a text, and segments preceded by their length.  The decoders
    walk it by index, as the code does; their rules are in
    [RedisReplyRules]. *)
From S2P Require Import Prelude Ordering Text External JobTypes JobStore JobDedup JobFlows JobQueries RedisKeys RedisReplies.
Local Open Scope Z_scope.

(** [JobFlowDependencyKind::as_str], and its [Debug] text. *)
Definition kind_as_str (k : JobFlowDependencyKind) : string :=
  match k with
  | KProcessed => "processed"
  | KUnprocessed => "unprocessed"
  | KIgnored => "ignored"
  | KFailed => "failed"
  end.

Definition kind_debug (k : JobFlowDependencyKind) : string :=
  match k with
  | KProcessed => "Processed"
  | KUnprocessed => "Unprocessed"
  | KIgnored => "Ignored"
  | KFailed => "Failed"
  end.

Definition decode_flow_dependency_kind (raw parent_id : string) : Reply JobFlowDependencyKind :=
  if String.eqb raw "processed" then Ok KProcessed
  else if String.eqb raw "unprocessed" then Ok KUnprocessed
  else if String.eqb raw "ignored" then Ok KIgnored
  else if String.eqb raw "failed" then Ok KFailed
  else other ("unexpected Redis flow dependency kind `" +:+ raw +:+ "` for " +:+ parent_id).

(** The counts and the pages that were asked for, one per bucket. *)
Record Buckets (A : Type) := mkBuckets {
  bk_processed : option A; bk_unprocessed : option A; bk_ignored : option A; bk_failed : option A;
}.
Arguments mkBuckets {A}.
Arguments bk_processed {A}.
Arguments bk_unprocessed {A}.
Arguments bk_ignored {A}.
Arguments bk_failed {A}.

Definition no_buckets {A} : Buckets A := mkBuckets None None None None.

Definition get_bucket {A} (b : Buckets A) (kind : JobFlowDependencyKind) : option A :=
  match kind with
  | KProcessed => bk_processed b
  | KUnprocessed => bk_unprocessed b
  | KIgnored => bk_ignored b
  | KFailed => bk_failed b
  end.

Definition insert_bucket {A} (b : Buckets A) (kind : JobFlowDependencyKind) (a : A) : Buckets A :=
  match kind with
  | KProcessed => mkBuckets (Some a) (bk_unprocessed b) (bk_ignored b) (bk_failed b)
  | KUnprocessed => mkBuckets (bk_processed b) (Some a) (bk_ignored b) (bk_failed b)
  | KIgnored => mkBuckets (bk_processed b) (bk_unprocessed b) (Some a) (bk_failed b)
  | KFailed => mkBuckets (bk_processed b) (bk_unprocessed b) (bk_ignored b) (Some a)
  end.

Section dependencies.
Context {X : Ext} {R : RedisExt}.

(** ** Counts *)
Definition decode_flow_dependency_counts_result (result : list string) (parent_id : string)
    : Reply (option JobFlowDependencyCounts) :=
  match result with
  | status :: _ =>
      if String.eqb status "missing" then Ok None
      else if String.eqb status "ok"
      then
        if negb (length result =? 6)%nat
        then other ("Redis flow dependency count script returned " +:+ show_len result +:+ " fields for " +:+ parent_id)
        else
          let? r1 := index_at result 1 in let? processed := decode_usize_field r1 "processed" parent_id in
          let? r2 := index_at result 2 in let? unprocessed := decode_usize_field r2 "unprocessed" parent_id in
          let? r3 := index_at result 3 in let? failed := decode_usize_field r3 "failed" parent_id in
          let? r4 := index_at result 4 in let? ignored := decode_usize_field r4 "ignored" parent_id in
          let? r5 := index_at result 5 in let? missing := decode_usize_field r5 "missing" parent_id in
          Ok (Some (mkCounts (Z.to_nat processed) (Z.to_nat unprocessed) (Z.to_nat failed) (Z.to_nat ignored)
                      (Z.to_nat missing)))
      else other ("unexpected Redis flow dependency count script status `" +:+ status +:+ "` for " +:+ parent_id)
  | [] => other ("Redis flow dependency count script returned no status for " +:+ parent_id)
  end.

Definition insert_count (parent_id : string) (counts : Reply (Buckets Z)) (pair : string * string)
    : Reply (Buckets Z) :=
  let? counts := counts in
  let? kind := decode_flow_dependency_kind pair.1 parent_id in
  let? count := decode_usize_field pair.2 (kind_as_str kind) parent_id in
  Ok (insert_bucket counts kind count).

Definition decode_flow_dependency_selected_counts_result (result : list string) (parent_id : string)
    : Reply (option (Buckets Z)) :=
  match result with
  | status :: _ =>
      if String.eqb status "missing" then Ok None
      else if String.eqb status "ok"
      then
        let? payload := slice_from result 1 in
        if negb (is_even (length payload))
        then other ("Redis flow dependency selected count script returned an odd pair count for " +:+ parent_id)
        else let? counts := foldl (insert_count parent_id) (Ok no_buckets) (chunks_of_two payload) in
             Ok (Some counts)
      else if String.eqb status "invalid_kind"
      then other ("Redis flow dependency selected count script rejected kind `"
                  +:+ get_or result 1 "<missing kind>" +:+ "` for " +:+ parent_id)
      else other ("unexpected Redis flow dependency selected count script status `" +:+ status +:+ "` for " +:+ parent_id)
  | [] => other ("Redis flow dependency selected count script returned no status for " +:+ parent_id)
  end.

(** ** Maps of children *)
Definition insert_value (what parent_id : string) (values : Reply (gmap string Value)) (pair : string * string)
    : Reply (gmap string Value) :=
  let? values := values in
  let? value := parsed (json_from_str pair.2)
    (λ error, "failed to decode Redis " +:+ what +:+ " value for " +:+ pair.1 +:+ " on " +:+ parent_id +:+ ": " +:+ error) in
  Ok (<[ pair.1 := value ]> values).

Definition insert_failure (failures : gmap string string) (pair : string * string) : gmap string string :=
  <[ pair.1 := pair.2 ]> failures.

Definition decode_flow_children_values_result (result : list string) (parent_id : string)
    : Reply (option (gmap string Value)) :=
  match result with
  | status :: _ =>
      if String.eqb status "missing" then Ok None
      else if String.eqb status "ok"
      then
        if is_even (length result)
        then other ("Redis flow child values script returned an odd pair count for " +:+ parent_id)
        else
          let? payload := slice_from result 1 in
          let? values := foldl (insert_value "flow child" parent_id) (Ok ∅) (chunks_of_two payload) in
          Ok (Some values)
      else other ("unexpected Redis flow child values script status `" +:+ status +:+ "` for " +:+ parent_id)
  | [] => other ("Redis flow child values script returned no status for " +:+ parent_id)
  end.

Definition decode_flow_ignored_children_failures_result (result : list string) (parent_id : string)
    : Reply (option (gmap string string)) :=
  match result with
  | status :: _ =>
      if String.eqb status "missing" then Ok None
      else if String.eqb status "ok"
      then
        if is_even (length result)
        then other ("Redis flow ignored child failures script returned an odd pair count for " +:+ parent_id)
        else let? payload := slice_from result 1 in
             Ok (Some (foldl insert_failure ∅ (chunks_of_two payload)))
      else other ("unexpected Redis flow ignored child failures script status `" +:+ status +:+ "` for " +:+ parent_id)
  | [] => other ("Redis flow ignored child failures script returned no status for " +:+ parent_id)
  end.

(** ** Segments preceded by their length *)

(** [read_dependency_value_segment]: the segment and the index after it. *)
Definition read_dependency_value_segment (result : list string) (index : nat) (field parent_id : string)
    : Reply (list string * nat) :=
  match result !! index with
  | None => other ("Redis flow dependency values script returned no " +:+ field +:+ " length for " +:+ parent_id)
  | Some raw_len =>
      let? len := decode_usize_field raw_len field parent_id in
      let index := S index in
      if Z.of_nat (length result - index) <? len
      then other ("Redis flow dependency values script returned a truncated " +:+ field +:+ " payload for " +:+ parent_id)
      else
        let start := index in
        let index := (index + Z.to_nat len)%nat in
        let? segment := slice result start (start + Z.to_nat len) in
        Ok (segment, index)
  end.

Definition decode_flow_dependency_values_result (result : list string) (parent_id : string)
    : Reply (option JobFlowDependencyValues) :=
  match result with
  | status :: _ =>
      if String.eqb status "missing" then Ok None
      else if String.eqb status "ok"
      then
        let index := 1%nat in
        let? r1 := read_dependency_value_segment result index "processed" parent_id in
        let (processed_raw, index) := (r1.1, r1.2) in
        if negb (is_even (length processed_raw))
        then other ("Redis flow dependency values script returned an odd processed pair count for " +:+ parent_id)
        else
          let? processed := foldl (insert_value "processed dependency" parent_id) (Ok ∅) (chunks_of_two processed_raw) in
          let? r2 := read_dependency_value_segment result index "unprocessed" parent_id in
          let (unprocessed, index) := (r2.1, r2.2) in
          let? r3 := read_dependency_value_segment result index "ignored" parent_id in
          let (ignored_raw, index) := (r3.1, r3.2) in
          if negb (is_even (length ignored_raw))
          then other ("Redis flow dependency values script returned an odd ignored pair count for " +:+ parent_id)
          else
            let ignored := foldl insert_failure ∅ (chunks_of_two ignored_raw) in
            let? r4 := read_dependency_value_segment result index "failed" parent_id in
            let (failed, index) := (r4.1, r4.2) in
            if negb (index =? length result)%nat
            then other ("Redis flow dependency values script returned " +:+ show_nat (Z.of_nat (length result - index))
                        +:+ " trailing fields for " +:+ parent_id)
            else Ok (Some (mkValues processed unprocessed failed ignored))
      else other ("unexpected Redis flow dependency values script status `" +:+ status +:+ "` for " +:+ parent_id)
  | [] => other ("Redis flow dependency values script returned no status for " +:+ parent_id)
  end.

(** ** Pages *)
Definition decode_flow_dependency_page_items (kind : JobFlowDependencyKind) (payload : list string)
    (parent_id : string) : Reply (list JobFlowDependencyPageItem) :=
  match kind with
  | KProcessed =>
      if negb (is_even (length payload))
      then other ("Redis processed dependency page returned an odd pair count for " +:+ parent_id)
      else try_map (λ '(child_id, raw),
             let? value := parsed (json_from_str raw)
               (λ error, "failed to decode Redis processed dependency value for " +:+ child_id +:+ " on "
                         +:+ parent_id +:+ ": " +:+ error) in
             Ok (ItemProcessed child_id value)) (chunks_of_two payload)
  | KUnprocessed => Ok (ItemUnprocessed <$> payload)
  | KIgnored =>
      if negb (is_even (length payload))
      then other ("Redis ignored dependency page returned an odd pair count for " +:+ parent_id)
      else Ok ((λ '(child_id, failed_reason), ItemIgnored child_id failed_reason) <$> chunks_of_two payload)
  | KFailed => Ok (ItemFailed <$> payload)
  end.

(** A page as the code has it, with its [u64] cursor. *)
Record RedisPage := mkPage {
  rp_kind : JobFlowDependencyKind;
  rp_items : list JobFlowDependencyPageItem;
  rp_next_cursor : Z;
  rp_count : Z;
}.

Definition decode_flow_dependency_page_result (result : list string) (parent_id : string)
    (kind : JobFlowDependencyKind) (count : Z) : Reply (option RedisPage) :=
  match result with
  | status :: _ =>
      if String.eqb status "missing" then Ok None
      else if String.eqb status "ok"
      then
        if (length result <? 3)%nat
        then other ("Redis flow dependency page script returned " +:+ show_len result +:+ " fields for " +:+ parent_id)
        else
          let? returned_kind := index_at result 1 in
          if negb (String.eqb returned_kind (kind_as_str kind))
          then other ("Redis flow dependency page script returned `" +:+ returned_kind +:+ "` for requested `"
                      +:+ kind_as_str kind +:+ "` on " +:+ parent_id)
          else
            let? raw_cursor := index_at result 2 in
            let? next_cursor := decode_u64_field raw_cursor "dependency page cursor" parent_id in
            let? payload := slice_from result 3 in
            let? items := decode_flow_dependency_page_items kind payload parent_id in
            Ok (Some (mkPage kind items next_cursor count))
      else if String.eqb status "invalid_kind"
      then other ("Redis flow dependency page script rejected kind `" +:+ get_or result 1 "<missing kind>"
                  +:+ "` for " +:+ parent_id)
      else other ("unexpected Redis flow dependency page script status `" +:+ status +:+ "` for " +:+ parent_id)
  | [] => other ("Redis flow dependency page script returned no status for " +:+ parent_id)
  end.

(** One iteration of the loop over the requested pages. *)
Definition read_page (result : list string) (parent_id : string) (pages : Buckets RedisPage) (index : nat)
    : Reply (Buckets RedisPage * nat) :=
  if (length result - index <? 4)%nat
  then other ("Redis flow dependency pages script returned a truncated page header for " +:+ parent_id)
  else
    let? raw_kind := index_at result index in
    let? kind := decode_flow_dependency_kind raw_kind parent_id in
    let? raw_cursor := index_at result (index + 1) in
    let? next_cursor := decode_u64_field raw_cursor "dependency page cursor" parent_id in
    let? raw_count := index_at result (index + 2) in
    let? count := decode_usize_field raw_count "dependency page count" parent_id in
    let? raw_len := index_at result (index + 3) in
    let? payload_len := decode_usize_field raw_len "dependency page payload" parent_id in
    let index := (index + 4)%nat in
    if Z.of_nat (length result - index) <? payload_len
    then other ("Redis flow dependency pages script returned a truncated " +:+ kind_debug kind +:+ " payload for "
                +:+ parent_id)
    else
      let? payload := slice result index (index + Z.to_nat payload_len) in
      let? items := decode_flow_dependency_page_items kind payload parent_id in
      Ok (insert_bucket pages kind (mkPage kind items next_cursor count), (index + Z.to_nat payload_len)%nat).

Fixpoint read_pages (request_count : nat) (result : list string) (parent_id : string) (pages : Buckets RedisPage)
    (index : nat) : Reply (Buckets RedisPage * nat) :=
  match request_count with
  | O => Ok (pages, index)
  | S n => let? next := read_page result parent_id pages index in
           read_pages n result parent_id next.1 next.2
  end.

Definition decode_flow_dependency_pages_result (result : list string) (parent_id : string)
    : Reply (option (Buckets RedisPage)) :=
  match result with
  | status :: _ =>
      if String.eqb status "missing" then Ok None
      else if String.eqb status "ok"
      then
        match result !! 1%nat with
        | None => other ("Redis flow dependency pages script returned no request count for " +:+ parent_id)
        | Some raw =>
            let? request_count := decode_usize_field raw "dependency page request" parent_id in
            let? read := read_pages (Z.to_nat request_count) result parent_id no_buckets 2 in
            let (pages, index) := (read.1, read.2) in
            if negb (index =? length result)%nat
            then other ("Redis flow dependency pages script returned " +:+ show_nat (Z.of_nat (length result - index))
                        +:+ " trailing fields for " +:+ parent_id)
            else Ok (Some pages)
        end
      else if String.eqb status "invalid_kind"
      then other ("Redis flow dependency pages script rejected kind `" +:+ get_or result 1 "<missing kind>"
                  +:+ "` for " +:+ parent_id)
      else other ("unexpected Redis flow dependency pages script status `" +:+ status +:+ "` for " +:+ parent_id)
  | [] => other ("Redis flow dependency pages script returned no status for " +:+ parent_id)
  end.

(** ** The jobs of a flow *)
Definition add_child_payload (d : Reply JobFlowDependencies) (pair : list string) : Reply JobFlowDependencies :=
  let? d := d in
  let? child_id := index_at pair 0 in
  let? child_raw := index_at pair 1 in
  if String.eqb child_raw EmptyString then Ok (d <| fd_missing ::= λ l, l ++ [child_id] |>)
  else
    let? child := decode_job child_raw in
    Ok ((if is_terminal (job_state child) then d else d <| fd_pending ::= λ l, l ++ [job_id child] |>)
          <| fd_children ::= λ l, l ++ [child] |>).

Definition decode_flow_dependencies_result (result : list string) (parent_id : string)
    : Reply (option JobFlowDependencies) :=
  match result with
  | status :: _ =>
      if String.eqb status "missing" then Ok None
      else if String.eqb status "ok"
      then
        let? parent_raw := payload_of result ("Redis flow dependency script returned no parent payload for " +:+ parent_id) in
        let? parent := decode_job parent_raw in
        let child_pairs := drop 2 result in
        if negb (is_even (length child_pairs))
        then other ("Redis flow dependency script returned an odd child payload count for " +:+ parent_id)
        else
          let? d := foldl add_child_payload (Ok (mkDependencies parent [] [] [])) (chunks_up_to_two child_pairs) in
          Ok (Some d)
      else other ("unexpected Redis flow dependency script status `" +:+ status +:+ "` for " +:+ parent_id)
  | [] => other ("Redis flow dependency script returned no status for " +:+ parent_id)
  end.
End dependencies.
