(* ===== verification/RedisReplyRules.v ===== *)
(** * Rules of the reply decoders ([src/job/redis.rs])

    No reply makes a decoder panic; what the dependency scripts render is read
    back; the arrays Lua turns into objects are restored in the three fields
    the code names, and nowhere else; the counts of the queue are added
    without overflow. *)
From Stdlib Require Import Ascii.
From S2P Require Import Prelude Ordering Text External JobTypes JobStore JobDedup JobFlows JobQueries RedisKeys RedisReplies RedisDependencies.
Local Open Scope Z_scope.

(** ** No panics *)
Definition safe {A} (r : Reply A) : Prop := r ≠ Err Panic.

Create HintDb replies.

Lemma safe_ok {A} (a : A) : safe (Ok a).
Proof. done. Qed.
Lemma safe_fail {A} e : safe (fail (A := A) e).
Proof. done. Qed.
Lemma safe_other {A} m : safe (other (A := A) m).
Proof. done. Qed.
Lemma safe_lift {A} (r : Result A) : safe (lift r).
Proof. by destruct r. Qed.
Lemma safe_parsed {A} (r : outcome string A) m : safe (parsed r m).
Proof. by destruct r. Qed.
Lemma safe_bind {A B} (r : Reply A) (k : A → Reply B) : safe r → (∀ a, r = Ok a → safe (k a)) → safe (let? a := r in k a).
Proof. destruct r as [a|[]]; simpl; intros H Hk; [by apply Hk|done|done]. Qed.
Lemma safe_if {A} (b : bool) (r r' : Reply A) : (b = true → safe r) → (b = false → safe r') → safe (if b then r else r').
Proof. destruct b; auto. Qed.
Lemma safe_index {A} (l : list A) i : (i < length l)%nat → safe (index_at l i).
Proof. unfold index_at. intros [a ->]%lookup_lt_is_Some_2. done. Qed.
Lemma safe_slice_from {A} (l : list A) i : (i <= length l)%nat → safe (slice_from l i).
Proof. unfold slice_from. intros. by destruct (Nat.leb_spec i (length l)); [|lia]. Qed.
Lemma safe_slice {A} (l : list A) i j : (i <= j <= length l)%nat → safe (slice l i j).
Proof. unfold slice. intros. destruct (Nat.leb_spec i j), (Nat.leb_spec j (length l)); simpl; try done; lia. Qed.
Lemma safe_try_map {A B} (f : A → Reply B) l : (∀ a, safe (f a)) → safe (try_map f l).
Proof.
  intros Hf. induction l as [|a l IH]; [done|]. simpl. apply safe_bind; [done|]. intros b _.
  apply safe_bind; [done|]. done.
Qed.
Lemma safe_foldl {A B} (f : Reply A → B → Reply A) l a : (∀ a b, safe a → safe (f a b)) → safe a → safe (foldl f a l).
Proof. intros. by apply foldl_keeps. Qed.

#[export] Hint Resolve safe_ok safe_fail safe_other safe_lift safe_parsed safe_try_map : replies.

(** Follows the structure of a decoder; what is left are its indices. *)
Ltac decode_step :=
  match goal with
  | |- safe (if ?b then _ else _) => apply safe_if; intros ?
  | |- safe (try_bind _ _) => apply safe_bind; [|intros ? ?]
  | |- safe (match ?x with _ => _ end) => destruct x eqn:?
  | |- safe (index_at _ _) => apply safe_index
  | |- safe (slice_from _ _) => apply safe_slice_from
  | |- safe (slice _ _ _) => apply safe_slice
  | |- safe (foldl _ _ _) => apply safe_foldl; [intros ? ? ?|]
  | |- safe (try_map _ _) => apply safe_try_map; intros ?
  | |- safe _ => solve [auto with replies | assumption]
  end.
Ltac decode_safe := repeat decode_step.

(** ** Numbers *)
Lemma digit_range a d : digit_value a = Some d → 0 ≤ d ≤ 9.
Proof.
  unfold digit_value. destruct ((48 <=? _) && _) eqn:E; [|done]. intros [= <-].
  apply andb_true_iff in E as [?%Z.leb_le ?%Z.leb_le]. lia.
Qed.

Lemma parse_digits_grows s acc n : 0 ≤ acc → parse_digits acc s = Some n → acc ≤ n.
Proof.
  revert acc. induction s as [|a s IH]; intros acc Hacc; simpl; [intros [= ->]; lia|].
  destruct (digit_value a) as [d|] eqn:E; [|done]. apply digit_range in E. intros H%IH; lia.
Qed.

Lemma scan_digits_spec max s acc n : 0 ≤ acc ≤ max →
  scan_digits max acc s = Ok n ↔ parse_digits acc s = Some n ∧ n ≤ max.
Proof.
  revert acc. induction s as [|a s IH]; intros acc Hacc; simpl; [split; [intros [= <-]; split; [done|lia]|by intros [[= ->] _]]|].
  destruct (digit_value a) as [d|] eqn:E; [|naive_solver]. apply digit_range in E.
  destruct (Z.ltb_spec max (10 * acc + d)); [|apply IH; lia]. split; [done|].
  intros [H1%parse_digits_grows H2]; lia.
Qed.

(** The error texts aside, the scanner is [str::parse]. *)
Lemma parse_unsigned_u64 s n : parse_unsigned s = Ok n ↔ parse_u64 s = Some n.
Proof.
  assert (∀ s', s' ≠ EmptyString →
    scan_digits U64_MAX 0 s' = Ok n ↔
    match parse_magnitude s' with Some m => if m <=? U64_MAX then Some m else None | None => None end = Some n) as Hs.
  { intros s' Hne. rewrite scan_digits_spec by (unfold U64_MAX; lia).
    replace (parse_magnitude s') with (parse_digits 0 s') by (by destruct s').
    destruct (parse_digits 0 s') as [m|]; [|naive_solver].
    destruct (Z.leb_spec m U64_MAX); naive_solver lia. }
  unfold parse_unsigned, parse_u64. destruct s as [|[[] [] [] [] [] [] [] []] s]; try by apply Hs.
  - done.
  - destruct s as [|a s]; [done|]. by apply Hs.
Qed.

Lemma parse_unsigned_show n : 0 ≤ n ≤ U64_MAX → parse_unsigned (show_nat n) = Ok n.
Proof. intros. by apply parse_unsigned_u64, parse_u64_show. Qed.

Lemma decode_usize_show n field owner : 0 ≤ n ≤ U64_MAX → decode_usize_field (show_nat n) field owner = Ok n.
Proof. intros. unfold decode_usize_field. by rewrite parse_unsigned_show. Qed.

Lemma decode_u64_show n field owner : 0 ≤ n ≤ U64_MAX → decode_u64_field (show_nat n) field owner = Ok n.
Proof. intros. unfold decode_u64_field. by rewrite parse_unsigned_show. Qed.

(** ** Flat lists of pairs *)
Definition flatten_pairs {A} (l : list (A * A)) : list A := flat_map (λ p, [p.1; p.2]) l.

Lemma chunks_flatten {A} (l : list (A * A)) : chunks_of_two (flatten_pairs l) = l.
Proof. induction l as [|[a b] l IH]; simpl; [done|]. by rewrite IH. Qed.

Lemma length_flatten {A} (l : list (A * A)) : length (flatten_pairs l) = (2 * length l)%nat.
Proof. induction l as [|[a b] l IH]; simpl; [done|]. rewrite IH. lia. Qed.

Lemma even_chunks {A} (l : list A) : is_even (length l) = true → Forall (λ c, length c = 2%nat) (chunks_up_to_two l).
Proof.
  intros [k E]%Nat.eqb_eq%Nat.Div0.mod_divides. revert l E.
  induction k as [|k IH]; intros [|a [|b l]] E; simpl in *; try lia; constructor; [done|]. apply IH. lia.
Qed.

Lemma even_flatten {A} (l : list (A * A)) : is_even (length (flatten_pairs l)) = true.
Proof. rewrite length_flatten. unfold is_even. by rewrite Nat.mul_comm, Nat.Div0.mod_mul. Qed.

Lemma even_flatten_S {A} (l : list (A * A)) : is_even (S (length (flatten_pairs l))) = false.
Proof.
  rewrite length_flatten. unfold is_even. apply Nat.eqb_neq. intros H.
  apply Nat.Div0.mod_divides in H as [k Hk]. lia.
Qed.

Lemma slice_app {A} (l1 l2 l3 : list A) n : length l1 = n → slice (l1 ++ l2 ++ l3) n (n + length l2) = Ok l2.
Proof.
  intros <-. unfold slice. rewrite drop_app_length, !length_app.
  destruct (Nat.leb_spec (length l1) (length l1 + length l2)); [|lia].
  destruct (Nat.leb_spec (length l1 + length l2) (length l1 + (length l2 + length l3))); [|lia]. simpl.
  replace (length l1 + length l2 - length l1)%nat with (length l2) by lia. by rewrite take_app_length.
Qed.

Section rules.
Context {X : Ext} {R : RedisExt}.

Lemma safe_decode_job raw : safe (decode_job raw).
Proof. unfold decode_job. decode_safe. Qed.
Lemma safe_payload result m : safe (payload_of result m).
Proof. unfold payload_of. decode_safe. Qed.
Lemma safe_usize raw field owner : safe (decode_usize_field raw field owner).
Proof. apply safe_parsed. Qed.
Lemma safe_u64 raw field owner : safe (decode_u64_field raw field owner).
Proof. apply safe_parsed. Qed.
#[local] Hint Resolve safe_decode_job safe_payload safe_usize safe_u64 : replies.

Lemma safe_kind raw parent : safe (decode_flow_dependency_kind raw parent).
Proof. unfold decode_flow_dependency_kind. decode_safe. Qed.
Lemma safe_page_items kind payload parent : safe (decode_flow_dependency_page_items kind payload parent).
Proof. unfold decode_flow_dependency_page_items. decode_safe. Qed.
Lemma safe_stats_count v field : safe (decode_stats_count v field).
Proof. unfold decode_stats_count. decode_safe. Qed.
Lemma safe_total l : safe (checked_total l).
Proof. unfold checked_total, add_count. decode_safe. Qed.
Lemma safe_logs l : safe (decode_log_entries l).
Proof. unfold decode_log_entries. decode_safe. Qed.
#[local] Hint Resolve safe_kind safe_page_items safe_stats_count safe_total safe_logs : replies.

Lemma negb_eqb_false n m : negb (n =? m)%nat = false → n = m.
Proof. by intros H%negb_false_iff%Nat.eqb_eq. Qed.

Ltac lengths :=
  repeat match goal with
         | H : negb (_ =? _)%nat = false |- _ => apply negb_eqb_false in H
         | H : (_ <? _)%nat = false |- _ => apply Nat.ltb_ge in H
         | H : (_ <? _)%Z = false |- _ => apply Z.ltb_ge in H
         end; simpl in *; try lia.

Lemma safe_jobs_reply result id n :
  safe (decode_add_job_result result id) ∧ safe (decode_add_jobs_result result n) ∧
  safe (decode_priority_update_result result id) ∧ safe (decode_transition_result result id id) ∧
  safe (decode_remove_job_result result id) ∧ safe (decode_clean_jobs_result result).
Proof.
  unfold decode_add_job_result, decode_add_jobs_result, decode_priority_update_result, decode_transition_result,
    decode_remove_job_result, decode_clean_jobs_result. split_and!; decode_safe.
Qed.

Lemma safe_stats_reply result states priorities :
  safe (decode_stats_result result) ∧ safe (decode_state_counts states result) ∧
  safe (decode_priority_counts priorities result).
Proof.
  unfold decode_stats_result, decode_state_counts, decode_priority_counts. split_and!; decode_safe; lengths.
Qed.

Lemma safe_mixed_reply result value offset limit state :
  safe (decode_list_jobs_result result offset limit) ∧ safe (decode_metrics_result value state).
Proof.
  unfold decode_list_jobs_result, decode_metrics_result, decode_optional_usize_value, decode_optional_i64_value.
  split_and!; decode_safe; lengths.
Qed.

Lemma safe_insert_value what parent values pair : safe values → safe (insert_value what parent values pair).
Proof. intros. unfold insert_value. decode_safe. Qed.
Lemma safe_insert_count parent counts pair : safe counts → safe (insert_count parent counts pair).
Proof. intros. unfold insert_count. decode_safe. Qed.
(** A chunk of one string would panic: the guard on the parity excludes it. *)
Lemma safe_add_child d pair : length pair = 2%nat → safe d → safe (add_child_payload d pair).
Proof. intros. unfold add_child_payload. decode_safe; lia. Qed.
Lemma safe_add_children d pairs : is_even (length pairs) = true → safe d →
  safe (foldl add_child_payload d (chunks_up_to_two pairs)).
Proof.
  intros Hpairs%even_chunks. revert d. induction Hpairs; intros d Hd; simpl; [done|]. by apply IHHpairs, safe_add_child.
Qed.
#[local] Hint Resolve safe_insert_value safe_insert_count : replies.

Lemma safe_segment result index field parent : safe (read_dependency_value_segment result index field parent).
Proof.
  unfold read_dependency_value_segment. decode_safe.
  match goal with H : _ !! index = Some _ |- _ => apply lookup_lt_Some in H end. lengths.
Qed.
Lemma safe_read_page result parent pages index : safe (read_page result parent pages index).
Proof. unfold read_page. decode_safe; lengths. Qed.
#[local] Hint Resolve safe_segment safe_read_page : replies.
Lemma safe_read_pages n result parent pages index : safe (read_pages n result parent pages index).
Proof. revert pages index. induction n as [|n IH]; intros pages index; simpl; decode_safe. Qed.
#[local] Hint Resolve safe_read_pages : replies.

Lemma safe_dependency_counts result parent :
  safe (decode_flow_dependency_counts_result result parent) ∧
  safe (decode_flow_dependency_selected_counts_result result parent).
Proof.
  unfold decode_flow_dependency_counts_result, decode_flow_dependency_selected_counts_result.
  split; decode_safe; lengths.
Qed.

Lemma safe_dependency_maps result parent :
  safe (decode_flow_children_values_result result parent) ∧
  safe (decode_flow_ignored_children_failures_result result parent).
Proof.
  unfold decode_flow_children_values_result, decode_flow_ignored_children_failures_result.
  split; decode_safe; lengths.
Qed.

Lemma safe_dependency_values result parent :
  safe (decode_flow_dependency_values_result result parent) ∧ safe (decode_flow_dependencies_result result parent).
Proof.
  unfold decode_flow_dependency_values_result, decode_flow_dependencies_result.
  split; [decode_safe|]. destruct result as [|status rest]; [decode_safe|]. apply safe_if; intros _; [decode_safe|].
  apply safe_if; intros _; [|decode_safe]. apply safe_bind; [decode_safe|]. intros raw _.
  apply safe_bind; [decode_safe|]. intros job _. apply safe_if; intros Hparity; [decode_safe|]. apply negb_false_iff in Hparity.
  apply safe_bind; [|intros; decode_safe]. by apply safe_add_children.
Qed.

Lemma safe_dependency_pages result parent kind count :
  safe (decode_flow_dependency_page_result result parent kind count) ∧
  safe (decode_flow_dependency_pages_result result parent).
Proof.
  unfold decode_flow_dependency_page_result, decode_flow_dependency_pages_result. split; decode_safe; lengths.
Qed.

(** C39: no reply of a script makes the client panic: whatever strings,
    numbers or values Redis returns, truncated or not, the decoders that index
    into them return a result or an error. *)
Theorem replies_never_panic (result : list string) (counts : list Z) (values : list RedisValue) value
    parent kind n offset limit state states priorities :
  safe (decode_flow_dependency_values_result result parent) ∧
  safe (decode_flow_dependency_pages_result result parent) ∧
  safe (decode_flow_dependency_page_result result parent kind n) ∧
  safe (decode_flow_dependency_counts_result result parent) ∧
  safe (decode_flow_dependency_selected_counts_result result parent) ∧
  safe (decode_flow_children_values_result result parent) ∧
  safe (decode_flow_ignored_children_failures_result result parent) ∧
  safe (decode_flow_dependencies_result result parent) ∧
  safe (decode_list_jobs_result values offset limit) ∧
  safe (decode_metrics_result value state) ∧
  safe (decode_stats_result counts) ∧ safe (decode_state_counts states counts) ∧
  safe (decode_priority_counts priorities counts).
Proof.
  pose proof (safe_dependency_values result parent) as [? ?].
  pose proof (safe_dependency_pages result parent kind n) as [? ?].
  pose proof (safe_dependency_counts result parent) as [? ?].
  pose proof (safe_dependency_maps result parent) as [? ?].
  pose proof (safe_mixed_reply values value offset limit state) as [? ?].
  pose proof (safe_stats_reply counts states priorities) as (? & ? & ?). by split_and!.
Qed.

(** ** What the scripts render *)

(** A list preceded by its length, as [FLOW_DEPENDENCY_VALUES_SCRIPT] appends it. *)
Definition segment (l : list string) : list string := show_len l :: l.

Definition values_reply (processed : list (string * string)) (unprocessed : list string)
    (ignored : list (string * string)) (failed : list string) : list string :=
  "ok" :: segment (flatten_pairs processed) ++ segment unprocessed ++ segment (flatten_pairs ignored) ++ segment failed.

Lemma read_segment result index pre seg post field parent :
  result = pre ++ segment seg ++ post → index = length pre → Z.of_nat (length result) ≤ U64_MAX →
  read_dependency_value_segment result index field parent = Ok (seg, (index + S (length seg))%nat).
Proof.
  intros E -> Hlen. unfold read_dependency_value_segment.
  assert (result = (pre ++ [show_len seg]) ++ seg ++ post) as E' by (rewrite E; unfold segment; by rewrite <- (assoc_L (++))).
  assert (length result = length pre + S (length seg + length post))%nat as El by (rewrite E', !length_app; simpl; lia).
  assert (result !! length pre = Some (show_len seg)) as -> by (rewrite E; apply list_lookup_middle; done).
  unfold show_len. rewrite decode_usize_show by lia. cbn [try_bind]. rewrite El.
  destruct (Z.ltb_spec (Z.of_nat (length pre + S (length seg + length post) - S (length pre))) (Z.of_nat (length seg)));
    [lia|].
  rewrite Nat2Z.id, E', slice_app by (rewrite length_app; simpl; lia). cbn [try_bind]. do 2 f_equal. lia.
Qed.

Lemma insert_values what parent (text : Value → string) (l : list (string * Value)) m :
  Forall (λ e, json_from_str (text e.2) = Ok e.2) l →
  foldl (insert_value what parent) (Ok m) (prod_map id text <$> l) = Ok (foldl (λ m e, <[ e.1 := e.2 ]> m) m l).
Proof.
  intros H. revert m. induction H as [|[k v] l Hv H IH]; intros m; [done|].
  rewrite fmap_cons. cbn [foldl prod_map fst snd id] in *. unfold insert_value at 2. cbn [try_bind fst snd].
  rewrite Hv. cbn [parsed try_bind]. by rewrite IH.
Qed.

(** The dependency buckets a script renders are read back: the processed
    values, the ids still waited for, the ignored failures and the failed ids,
    whatever their numbers and texts, provided the values are written as JSON
    text that parses back. *)
Theorem dependency_values_round_trip (text : Value → string) processed unprocessed ignored failed parent :
  Forall (λ e, json_from_str (text e.2) = Ok e.2) processed →
  Z.of_nat (length (values_reply (prod_map id text <$> processed) unprocessed ignored failed)) ≤ U64_MAX →
  decode_flow_dependency_values_result (values_reply (prod_map id text <$> processed) unprocessed ignored failed) parent
  = Ok (Some (mkValues (collect_map processed) unprocessed failed (collect_map ignored))).
Proof.
  intros Htext Hlen. remember (values_reply _ _ _ _) as result eqn:E. unfold values_reply in E.
  set (p := flatten_pairs (prod_map id text <$> processed)) in *. set (g := flatten_pairs ignored) in *.
  assert (is_even (length p) = true ∧ is_even (length g) = true) as [Hpe Hge] by (split; apply even_flatten).
  assert (chunks_of_two p = (prod_map id text <$> processed) ∧ chunks_of_two g = ignored) as [Hpc Hgc]
    by (split; apply chunks_flatten).
  unfold decode_flow_dependency_values_result. destruct result as [|status rest]; [done|].
  assert (status = "ok") as -> by (by injection E).
  change (String.eqb "ok" "missing") with false. change (String.eqb "ok" "ok") with true. cbv iota.
  pose proof (read_segment ("ok" :: rest)) as Read.
  rewrite (Read 1%nat ["ok"] p (segment unprocessed ++ segment g ++ segment failed)) by done. cbn [try_bind fst snd].
  rewrite Hpe, Hpc, insert_values by done. cbn [try_bind negb].
  rewrite (Read _ ("ok" :: segment p) unprocessed (segment g ++ segment failed)) by done. cbn [try_bind fst snd].
  rewrite (Read _ ("ok" :: segment p ++ segment unprocessed) g (segment failed));
    [|rewrite E; cbn [app]; by rewrite <- ?(assoc_L (++))|simpl; rewrite length_app; simpl; lia|done]. cbn [try_bind fst snd].
  rewrite Hge, Hgc. cbn [negb].
  rewrite (Read _ ("ok" :: segment p ++ segment unprocessed ++ segment g) failed []);
    [|rewrite E, app_nil_r; cbn [app]; by rewrite <- ?(assoc_L (++))|simpl; rewrite length_app; simpl; rewrite length_app; simpl; lia|done].
  cbn [try_bind fst snd].
  assert (length ("ok" :: rest) = 1 + S (length p) + S (length unprocessed) + S (length g) + S (length failed))%nat as ->.
  { rewrite E. simpl. rewrite !length_app. simpl. rewrite !length_app. simpl. rewrite length_app. simpl. lia. }
  by rewrite Nat.eqb_refl.
Qed.

(** *** Pages *)
Definition item_kind (item : JobFlowDependencyPageItem) : JobFlowDependencyKind :=
  match item with
  | ItemProcessed _ _ => KProcessed
  | ItemUnprocessed _ => KUnprocessed
  | ItemIgnored _ _ => KIgnored
  | ItemFailed _ => KFailed
  end.

Definition item_entries (text : Value → string) (item : JobFlowDependencyPageItem) : list string :=
  match item with
  | ItemProcessed id v => [id; text v]
  | ItemUnprocessed id => [id]
  | ItemIgnored id reason => [id; reason]
  | ItemFailed id => [id]
  end.

Definition item_text_ok (text : Value → string) (item : JobFlowDependencyPageItem) : Prop :=
  match item with ItemProcessed _ v => json_from_str (text v) = Ok v | _ => True end.

(** [append_scan_page] of [FLOW_DEPENDENCY_PAGES_SCRIPT]. *)
Definition append_scan_page (text : Value → string) (p : RedisPage) : list string :=
  let entries := flat_map (item_entries text) (rp_items p) in
  kind_as_str (rp_kind p) :: show_nat (rp_next_cursor p) :: show_nat (rp_count p) :: segment entries.

Definition pages_reply (text : Value → string) (pages : list RedisPage) : list string :=
  "ok" :: show_len pages :: flat_map (append_scan_page text) pages.

Record page_ok (text : Value → string) (p : RedisPage) : Prop := {
  po_kind : Forall (λ item, item_kind item = rp_kind p) (rp_items p);
  po_text : Forall (item_text_ok text) (rp_items p);
  po_cursor : 0 ≤ rp_next_cursor p ≤ U64_MAX;
  po_count : 0 ≤ rp_count p ≤ U64_MAX;
}.

Lemma decode_kind k parent : decode_flow_dependency_kind (kind_as_str k) parent = Ok k.
Proof. by destruct k. Qed.

(** The pairs of the items of a kind with two texts per item. *)
Lemma entries_pairs text items kind : kind = KProcessed ∨ kind = KIgnored →
  Forall (λ item, item_kind item = kind) items →
  ∃ l, flat_map (item_entries text) items = flatten_pairs l ∧
       Forall2 (λ item e, item_entries text item = [e.1; e.2]) items l.
Proof.
  intros Hk. induction 1 as [|item items Hi _ (l & E & IH)]; [by exists []|]; simpl; rewrite E.
  destruct item as [id v|id|id reason|id]; simpl in Hi; try (destruct Hk; congruence);
    [exists ((id, text v) :: l)|exists ((id, reason) :: l)]; by split; [|constructor].
Qed.

Lemma decode_items text kind items parent :
  Forall (λ item, item_kind item = kind) items → Forall (item_text_ok text) items →
  decode_flow_dependency_page_items kind (flat_map (item_entries text) items) parent = Ok items.
Proof.
  intros Hk Ht. destruct kind; cbn [decode_flow_dependency_page_items].
  - destruct (entries_pairs text items KProcessed) as (l & -> & Hl); [by left|done|].
    rewrite even_flatten, chunks_flatten. cbn [negb]. clear -Hk Ht Hl.
    induction Hl as [|item [a b] items l He Hl IH]; [done|]. apply Forall_cons in Hk as [Hi Hk], Ht as [Hv Ht].
    destruct item; try discriminate Hi. injection He as <- <-. cbn in *. rewrite Hv. cbn. by rewrite IH.
  - f_equal. clear -Hk. induction Hk as [|item items Hi _ IH]; [done|]. destruct item; try discriminate Hi.
    cbn. by rewrite IH.
  - destruct (entries_pairs text items KIgnored) as (l & -> & Hl); [by right|done|].
    rewrite even_flatten, chunks_flatten. cbn [negb]. f_equal. clear -Hk Hl.
    induction Hl as [|item [a b] items l He Hl IH]; [done|]. apply Forall_cons in Hk as [Hi Hk].
    destruct item; try discriminate Hi. injection He as <- <-. cbn. by rewrite IH.
  - f_equal. clear -Hk. induction Hk as [|item items Hi _ IH]; [done|]. destruct item; try discriminate Hi.
    cbn. by rewrite IH.
Qed.

Lemma index_at_middle {A} (l pre post : list A) a i : l = pre ++ a :: post → i = length pre → index_at l i = Ok a.
Proof. intros -> ->. unfold index_at. by rewrite list_lookup_middle. Qed.

Lemma read_page_at text p result pre post index pages parent : page_ok text p →
  result = pre ++ append_scan_page text p ++ post → index = length pre → Z.of_nat (length result) ≤ U64_MAX →
  read_page result parent pages index
  = Ok (insert_bucket pages (rp_kind p) p, (index + length (append_scan_page text p))%nat).
Proof.
  intros [Hk Ht Hc Hn] E -> Hlen. unfold append_scan_page, segment in *. set (entries := flat_map _ _) in *.
  assert (length result = length pre + (4 + length entries + length post))%nat as El
    by (rewrite E, length_app; simpl; rewrite length_app; lia).
  unfold read_page. rewrite El. destruct (Nat.ltb_spec (length pre + (4 + length entries + length post) - length pre) 4); [lia|].
  cbn [app] in E. rewrite (index_at_middle result pre _ _ _ E eq_refl). cbn [try_bind]. rewrite decode_kind. cbn [try_bind].
  rewrite (index_at_middle result (pre ++ [kind_as_str (rp_kind p)]) (show_nat (rp_count p) :: show_len entries :: entries ++ post)
    (show_nat (rp_next_cursor p))) by (rewrite ?E, ?length_app, <- ?(assoc_L (++)); done). cbn [try_bind].
  rewrite decode_u64_show by done. cbn [try_bind].
  rewrite (index_at_middle result (pre ++ [kind_as_str (rp_kind p); show_nat (rp_next_cursor p)]) (show_len entries :: entries ++ post)
    (show_nat (rp_count p))) by (rewrite ?E, ?length_app, <- ?(assoc_L (++)); done). cbn [try_bind].
  rewrite decode_usize_show by done. cbn [try_bind].
  rewrite (index_at_middle result (pre ++ [kind_as_str (rp_kind p); show_nat (rp_next_cursor p); show_nat (rp_count p)]) (entries ++ post)
    (show_len entries)) by (rewrite ?E, ?length_app, <- ?(assoc_L (++)); done). cbn [try_bind].
  unfold show_len. rewrite decode_usize_show by lia. cbn [try_bind].
  destruct (Z.ltb_spec (Z.of_nat (length pre + (4 + length entries + length post) - (length pre + 4))) (Z.of_nat (length entries))); [lia|].
  rewrite Nat2Z.id.
  assert (result = (pre ++ [kind_as_str (rp_kind p); show_nat (rp_next_cursor p); show_nat (rp_count p); show_len entries]) ++ entries ++ post)
    as -> by (rewrite E, <- (assoc_L (++)); done).
  rewrite slice_app by (rewrite length_app; simpl; lia). cbn [try_bind]. unfold entries at 1. rewrite decode_items by done.
  cbn [try_bind]. do 2 f_equal; [f_equal; by destruct p|subst entries; simpl; lia].
Qed.

Lemma read_pages_at text result ps pre index pages parent : Forall (page_ok text) ps →
  result = pre ++ flat_map (append_scan_page text) ps → index = length pre → Z.of_nat (length result) ≤ U64_MAX →
  read_pages (length ps) result parent pages index
  = Ok (foldl (λ b p, insert_bucket b (rp_kind p) p) pages ps, length result).
Proof.
  intros Hps. revert pre index pages. induction Hps as [|p ps Hp _ IH]; intros pre index pages E -> Hlen.
  { cbn [flat_map] in E. rewrite app_nil_r in E. by subst. }
  cbn [flat_map length read_pages] in *. rewrite (read_page_at text p result pre _ _ pages parent Hp E) by done.
  cbn [try_bind fst snd foldl]. apply (IH (pre ++ append_scan_page text p)); [by rewrite <- (assoc_L (++))| |done].
  by rewrite length_app.
Qed.

(** The pages a script renders are read back, each in the bucket of its
    kind, for any number of requests, in any order, empty pages included. *)
Theorem dependency_pages_round_trip text ps parent : Forall (page_ok text) ps →
  Z.of_nat (length (pages_reply text ps)) ≤ U64_MAX →
  decode_flow_dependency_pages_result (pages_reply text ps) parent
  = Ok (Some (foldl (λ b p, insert_bucket b (rp_kind p) p) no_buckets ps)).
Proof.
  intros Hps Hlen. unfold decode_flow_dependency_pages_result. unfold pages_reply at 1.
  change (String.eqb "ok" "missing") with false. change (String.eqb "ok" "ok") with true. cbv iota.
  change (pages_reply text ps !! 1%nat) with (Some (show_len ps)). cbv iota. unfold show_len.
  assert (Z.of_nat (length ps) ≤ U64_MAX).
  { unfold pages_reply in Hlen. cbn [length] in Hlen.
    assert (length ps <= length (flat_map (append_scan_page text) ps))%nat; [|lia].
    clear. induction ps as [|p ps IH]; [done|]. cbn [flat_map length]. rewrite length_app. cbn [append_scan_page length]. lia. }
  rewrite decode_usize_show by lia. cbn [try_bind]. rewrite Nat2Z.id.
  rewrite (read_pages_at text (pages_reply text ps) ps ["ok"; show_len ps]) by done. cbn [try_bind fst snd].
  by rewrite Nat.eqb_refl.
Qed.

(** ** The counts of the queue *)
Lemma sum_grows l a : Forall (λ c, 0 ≤ c) l → a ≤ foldl Z.add a l.
Proof. intros Hl. revert a. induction Hl as [|c l Hc _ IH]; intros a; simpl; [lia|]. specialize (IH (a + c)). lia. Qed.

Lemma add_counts_ok l acc n : 0 ≤ acc ≤ U64_MAX → Forall (λ c, 0 ≤ c) l →
  foldl add_count (Ok acc) l = Ok n ↔ n = foldl Z.add acc l ∧ n ≤ U64_MAX.
Proof.
  intros Hacc Hl. revert acc Hacc. induction Hl as [|c l Hc Hl IH]; intros acc Hacc; [cbn; naive_solver lia|].
  cbn [foldl]. unfold add_count at 2. cbn [try_bind]. destruct (Z.ltb_spec U64_MAX (acc + c)) as [Hov|]; [|apply IH; lia].
  assert (∀ e : Stop, foldl add_count (Err e) l = Err e) as Hstop by (clear; intros e; by induction l).
  unfold other, fail. rewrite Hstop.
  split; [done|]. intros [-> Hle]. pose proof (sum_grows l (acc + c) Hl). lia.
Qed.

Lemma stats_count_bind {B} v field (k : Z → Reply B) b :
  (let? n := decode_stats_count v field in k n) = Ok b ↔ 0 ≤ v ∧ k v = Ok b.
Proof. unfold decode_stats_count. destruct (Z.ltb_spec v 0); simpl; naive_solver lia. Qed.

(** The statistics of the queue are exact or an error: a reply is accepted
    if and only if no count and no flag is negative and the total of the six
    states fits [usize]; the total is then their sum. *)
Theorem stats_exact w d a c k f p st :
  decode_stats_result [w; d; a; c; k; f; p] = Ok st ↔
  (0 ≤ w ∧ 0 ≤ d ∧ 0 ≤ a ∧ 0 ≤ c ∧ 0 ≤ k ∧ 0 ≤ f ∧ 0 ≤ p) ∧ w + d + a + c + k + f ≤ U64_MAX ∧
  st = mkStats (Z.to_nat (w + d + a + c + k + f)) (Z.to_nat w) (Z.to_nat d) (Z.to_nat a) (Z.to_nat c)
         (Z.to_nat k) (Z.to_nat f) (bool_decide (p ≠ 0)).
Proof.
  assert (negb (p =? 0) = bool_decide (p ≠ 0)) as Hp by (destruct (Z.eqb_spec p 0); by case_bool_decide).
  unfold decode_stats_result. cbn [length Nat.eqb negb]. unfold index_at. cbn [lookup list_lookup].
  repeat (cbn [try_bind]; rewrite stats_count_bind). cbn [try_bind]. rewrite Hp.
  destruct (Z.ltb_spec p 0); [naive_solver lia|].
  destruct (checked_total [w; d; a; c; k; f]) as [total|e] eqn:E; cbn [try_bind]; unfold checked_total in E.
  - split.
    + intros (? & ? & ? & ? & ? & ? & [= <-]).
      apply add_counts_ok in E as [-> ?]; [|unfold U64_MAX; lia|by repeat constructor]. cbn [foldl] in *. by rewrite Z.add_0_l in *.
    + intros ((? & ? & ? & ? & ? & ? & ?) & ? & ->).
      apply add_counts_ok in E as [-> ?]; [|unfold U64_MAX; lia|by repeat constructor]. cbn [foldl]. by rewrite Z.add_0_l.
  - split; [naive_solver|]. intros ((? & ? & ? & ? & ? & ? & ?) & Hle & ->). exfalso.
    assert (foldl add_count (Ok 0) [w; d; a; c; k; f] = Ok (w + d + a + c + k + f)); [|congruence].
    apply add_counts_ok; [unfold U64_MAX; lia|by repeat constructor|]. cbn [foldl]. by rewrite Z.add_0_l.
Qed.

(** Six counts Redis may return whose sum does not fit. *)
Example stats_overflow :
  decode_stats_result [I64_MAX; I64_MAX; I64_MAX; 0; 0; 0; 0] = other "Redis stats script returned counts that overflow usize".
Proof. done. Qed.

(** ** Jobs written by Lua *)

(** Objects are read as they are built, and an array is not an object. *)
Class JsonLaws : Prop := {
  as_object_of m : as_object (VObject m) = Some m;
  as_object_array l : as_object (VArray l) = None;
}.
Context {JL : JsonLaws}.

Definition array_fields : list string := ["logs"; "child_ids"; "stacktrace"].

(** The object without the empty objects Lua has put for empty arrays. *)
Definition with_array (m : gmap string Value) (field : string) : gmap string Value :=
  match m !! field with
  | Some v => match as_object v with Some o => if Nat.eqb (size o) 0 then <[ field := VArray [] ]> m else m | None => m end
  | None => m
  end.

Lemma normalize_restore m field : normalize_lua_empty_array (VObject m) field = VObject (with_array m field).
Proof.
  unfold normalize_lua_empty_array, with_array. rewrite as_object_of. destruct (m !! field) as [v|]; [|done].
  destruct (as_object v) as [o|]; [|done]. by destruct (Nat.eqb (size o) 0).
Qed.

Lemma restore_other m field k : k ≠ field → with_array m field !! k = m !! k.
Proof.
  intros Hk. unfold with_array. destruct (m !! field) as [v|]; [|done].
  destruct (as_object v) as [o|]; [|done]. destruct (Nat.eqb (size o) 0); [|done]. by rewrite lookup_insert_ne.
Qed.

Lemma restore_same m field : m !! field = Some (VObject ∅) → with_array m field !! field = Some (VArray []).
Proof. intros H. unfold with_array. rewrite H, as_object_of, map_size_empty. cbn. by rewrite lookup_insert_eq. Qed.

Lemma restore_keeps m field : (∀ v o, m !! field = Some v → as_object v = Some o → size o ≠ 0%nat) → with_array m field = m.
Proof.
  intros H. unfold with_array. destruct (m !! field) as [v|] eqn:E; [|done].
  destruct (as_object v) as [o|] eqn:Eo; [|done]. specialize (H v o eq_refl Eo). by destruct (Nat.eqb_spec (size o) 0).
Qed.

Lemma normalize_job_restore m : normalize_job (VObject m) = VObject (foldl with_array m array_fields).
Proof. unfold normalize_job. by rewrite !normalize_restore. Qed.

(** [m'] is [m] with some of the empty arrays turned into empty objects. *)
Definition recoded (m m' : gmap string Value) : Prop :=
  ∀ k, m' !! k = m !! k ∨ m !! k = Some (VArray []) ∧ m' !! k = Some (VObject ∅).

Lemma restored_field m m' k : recoded m m' → (∀ v o, m !! k = Some v → as_object v = Some o → size o ≠ 0%nat) →
  with_array m' k !! k = m !! k.
Proof.
  intros Hr Hm. destruct (Hr k) as [E|[E1 E2]].
  - rewrite restore_keeps by (rewrite E; done). done.
  - by rewrite restore_same, E1.
Qed.

Lemma restore_chain m fields k : NoDup fields → foldl with_array m fields !! k =
  if bool_decide (k ∈ fields) then with_array m k !! k else m !! k.
Proof.
  revert m. induction fields as [|f fields IH]; intros m Hnd; [done|].
  apply NoDup_cons in Hnd as [Hf Hnd]. cbn [foldl]. rewrite IH by done. destruct (decide (k = f)) as [->|Hk].
  - rewrite bool_decide_false, bool_decide_true by set_solver. done.
  - rewrite (bool_decide_ext (k ∈ f :: fields) (k ∈ fields)) by set_solver. case_bool_decide; [|by apply restore_other].
    assert (∀ m1 m2 : gmap string Value, m1 !! k = m2 !! k → with_array m1 k !! k = with_array m2 k !! k) as Hsame.
    { intros m1 m2 E. unfold with_array. rewrite E. destruct (m2 !! k) as [v|] eqn:E2; [|by rewrite E, E2].
      destruct (as_object v) as [o|]; [|by rewrite E, E2]. destruct (Nat.eqb (size o) 0); [by rewrite !lookup_insert_eq|by rewrite E, E2]. }
    apply Hsame. by apply restore_other.
Qed.

(** A job a script has re-encoded is the job that was written: where Lua
    has turned the empty arrays [logs], [child_ids] and [stacktrace] into
    objects, reading turns them back. *)
Theorem lua_arrays_restored m m' raw : recoded m m' →
  (∀ k, k ∉ array_fields → m' !! k = m !! k) →
  (∀ k v o, k ∈ array_fields → m !! k = Some v → as_object v = Some o → size o ≠ 0%nat) →
  json_from_str raw = Ok (VObject m') →
  decode_job raw = parsed (job_from_value (VObject m)) (λ error, "failed to decode Redis job: " +:+ error).
Proof.
  intros Hr Hother Harr Hraw. unfold decode_job. rewrite Hraw. cbn [parsed try_bind]. rewrite normalize_job_restore.
  do 3 f_equal. apply map_eq. intros k. rewrite restore_chain by (by repeat constructor; set_solver).
  case_bool_decide as Hk; [|by apply Hother]. apply restored_field; [done|]. intros v o. by apply Harr.
Qed.

(** The other empty arrays stay objects: a job whose payload is an empty
    array is read with an empty object for payload once a script has written
    it, as every claim does. *)
Theorem payload_arrays_lost m raw : json_from_str raw = Ok (VObject (<[ "payload" := VObject ∅ ]> m)) →
  ∃ m', decode_job raw = parsed (job_from_value (VObject m')) (λ error, "failed to decode Redis job: " +:+ error) ∧
        m' !! "payload" = Some (VObject ∅) ∧ VObject ∅ ≠ VArray [].
Proof.
  intros Hraw. eexists. unfold decode_job. rewrite Hraw. cbn [parsed try_bind]. rewrite normalize_job_restore.
  split_and!; [done| |].
  - rewrite restore_chain by (by repeat constructor; set_solver).
    rewrite bool_decide_false by set_solver. by rewrite lookup_insert_eq.
  - intros E. pose proof (as_object_of ∅) as H. rewrite E, as_object_array in H. done.
Qed.
End rules.

(** ** A concrete instance

    JSON values as trees, a table of the texts that are JSON, and a reader of
    jobs that insists, like [serde], on [logs] being an array. *)
Inductive Json : Type :=
| JNull
| JString (s : string)
| JNumber (n : Z)
| JArray (l : list Json)
| JObject (fields : list (string * Json)).

Definition json_ext : Ext := {|
  Value := Json;
  VNull := JNull;
  VString := JString;
  VNumber := JNumber;
  chrono_from_std := λ d, Some d;
  checked_add_signed := λ t δ, Some (t + δ);
  checked_sub_signed := λ t δ, Some (t - δ);
  timestamp_millis := λ t, t `div` nanos_per_milli;
  CronSchedule := Empty_set;
  cron_from_str := λ _, Err "unsupported";
  cron_next_after := λ s _, match s with end;
  hash_iter := λ V m, map_to_list m;
|}.

Definition json_object (j : Json) : option (gmap string Json) :=
  match j with JObject fields => Some (list_to_map fields) | _ => None end.

Definition read_job (j : Json) : outcome string (@Job json_ext) :=
  match json_object j with
  | Some m => match m !! "logs" with
              | Some (JArray _) => Ok (@Job_new json_ext "q" "mail" (unwrap_or (m !! "payload") JNull) default_options 0 "1")
              | _ => Err "invalid type: map, expected a sequence"
              end
  | None => Err "expected struct Job"
  end.

Definition json_redis (texts : list (string * Json)) : @RedisExt json_ext := {|
  json_from_str := λ s, Ok (unwrap_or ((list_to_map texts : gmap string Json) !! s) (JString s)) : outcome string (@Value json_ext);
  as_object := json_object : @Value json_ext → _;
  VObject := λ m, JObject (map_to_list m) : @Value json_ext;
  VArray := JArray : list (@Value json_ext) → @Value json_ext;
  job_from_value := read_job : @Value json_ext → _;
  log_from_str := λ s, Ok (@Build_JobLogEntry 0 s);
  json_of_job := λ j, Ok (job_id j);
  RedisValue := Json;
  is_nil := λ v, match v with JNull => true | _ => false end;
  as_array := λ v, match v with JArray l => Some l | _ => None end;
  read_string := λ v, match v with JString s => Ok s | _ => Err "not a string" end;
  read_usize := λ v, match v with JNumber n => if n <? 0 then Err "negative" else Ok n | _ => Err "not a number" end;
  read_i64 := λ v, match v with JNumber n => Ok n | _ => Err "not a number" end;
  from_timestamp_millis := λ n, Some (n * nanos_per_milli);
  to_rfc3339 := show_nat;
|}.

#[export] Instance json_laws texts : @JsonLaws json_ext (json_redis texts).
Proof.
  split; [|done]. intros m. change (Some (list_to_map (map_to_list m) : gmap string Json) = Some m).
  by rewrite list_to_map_to_list.
Qed.

Definition json_text (v : @Value json_ext) : string := match v with JString s => s | _ => "null" end.

Lemma dependency_values_round_trip_witness :
  @decode_flow_dependency_values_result json_ext (json_redis [])
    (values_reply [("a", "one")] ["b"] [("c", "boom")] []) "p"
  = Ok (Some (@mkValues json_ext (collect_map [("a", JString "one" : @Value json_ext)]) ["b"] [] (collect_map [("c", "boom")]))).
Proof.
  exact (@dependency_values_round_trip json_ext (json_redis []) json_text [("a", JString "one")] ["b"] [("c", "boom")] [] "p"
    ltac:(by repeat constructor) ltac:(vm_compute; discriminate)).
Defined.

Definition two_pages : list (@RedisPage json_ext) :=
  [mkPage KProcessed [@ItemProcessed json_ext "a" (JString "one")] 17 20; mkPage KFailed [] 0 5].

Lemma dependency_pages_round_trip_witness :
  @decode_flow_dependency_pages_result json_ext (json_redis []) (pages_reply json_text two_pages) "p"
  = Ok (Some (mkBuckets (Some (mkPage KProcessed [@ItemProcessed json_ext "a" (JString "one")] 17 20)) None None
                (Some (mkPage KFailed [] 0 5)))).
Proof.
  refine (@dependency_pages_round_trip json_ext (json_redis []) json_text two_pages "p" _ _).
  - repeat constructor; simpl; try done; unfold U64_MAX; lia.
  - vm_compute. discriminate.
Defined.

(** A job with an empty log and an empty payload, as a script rewrites it. *)
Definition written_job : gmap string Json := {[ "logs" := JArray []; "payload" := JNull ]}.
Definition rewritten_job : gmap string Json := {[ "logs" := JObject []; "payload" := JNull ]}.
Definition rewritten_text : list (string * Json) := [("raw", JObject (map_to_list rewritten_job))].

Lemma lua_arrays_restored_witness :
  @decode_job json_ext (json_redis rewritten_text) "raw" = Ok (@Job_new json_ext "q" "mail" JNull default_options 0 "1").
Proof.
  refine (eq_trans (@lua_arrays_restored json_ext (json_redis rewritten_text) _ written_job rewritten_job "raw" _ _ _ _) _).
  - intros k. destruct (decide (k = "logs")) as [->|Hk]; [right; split; reflexivity|left].
    unfold rewritten_job, written_job. by rewrite !lookup_insert_ne by done.
  - intros k Hk. unfold rewritten_job, written_job. rewrite !(lookup_insert_ne _ "logs") by set_solver. done.
  - intros k v o _ Hv Ho. unfold written_job in Hv. apply lookup_insert_Some in Hv as [[<- <-]|[_ Hv]]; [done|].
    apply lookup_singleton_Some in Hv as [<- <-]. done.
  - reflexivity.
  - reflexivity.
Defined.

Definition emptied_text : list (string * Json) :=
  [("raw", JObject (map_to_list (<[ "payload" := JObject [] ]> ({[ "logs" := JArray [] ]} : gmap string Json))))].

Lemma payload_arrays_lost_witness : ∃ m' : gmap string Json,
  @decode_job json_ext (json_redis emptied_text) "raw"
  = parsed (read_job (JObject (map_to_list m'))) (λ error, "failed to decode Redis job: " +:+ error) ∧
  m' !! "payload" = Some (JObject []) ∧ JObject [] ≠ JArray [].
Proof.
  exact (@payload_arrays_lost json_ext (json_redis emptied_text) _ ({[ "logs" := JArray [] ]} : gmap string Json) "raw" eq_refl).
Defined.
