(* ===== verification/RedisCalls.v ===== *)
(** * Calls of the Redis scripts ([src/job/redis.rs])

    Each method of the Redis queue sends an [EVAL] with the text of a script, a
    number of keys, and a flat list of arguments: Redis gives the first
    [numkeys] to the script as [KEYS] and the others as [ARGV].  The calls are
    given as data, with the keys as keys of the queue; the models of the
    scripts read the two tables by index, so a call with its keys swapped
    changes what the script does. *)
From S2P Require Import Prelude Ordering Text Float64 External JobTypes JobStore JobDedup JobFlows JobQueries Backend RedisKeys RedisReplies RedisDependencies.
Local Open Scope Z_scope.

Inductive Script : Type :=
| ClaimRateLimitTtl | IsMaxed | ActiveClaimRateLimitTtl | UpsertRepeat | AddJobs | FlowDependencies
| FlowDependencyCounts | FlowDependencySelectedCounts | FlowDependencyValues | FlowDependencyPage | FlowDependencyPages | FlowChildrenValues
| FlowIgnoredChildrenFailures | RemoveUnprocessedChildren | RemoveChildDependency | GetMetrics | RemoveOrphanedJobs | AddJob
| AddFlow | AddFlowChildren | RemoveJob | Claim | UpdatePriority | Fail
| Complete | RenewLease | RenewLeases | DelayActiveJob | ReleaseActiveJob | PromoteJob
| RescheduleJob | RetryJob | RemoveDeduplicationKey | GetDeduplicationJobId | CleanJobs | DrainJobs
| Obliterate | ListJobs | JobCounts | CountsPerPriority | UpdateData | UpdateProgress
| SaveStacktrace | AddLog | ClearLogs | PromoteDueJobs | RecoverStalled | GetJobState
| GetJobFinishedResult | Stats.

Inductive Arg : Type :=
| Key (k : RedisKey)
| Prefix (k : string → RedisKey)
| Text (s : string)
| Int (n : Z)
| Float (x : f64).

Record EvalCall := mkCall { script : Script; numkeys : nat; arguments : list Arg }.

Definition keys_of (c : EvalCall) : list Arg := take (numkeys c) (arguments c).
Definition argv_of (c : EvalCall) : list Arg := drop (numkeys c) (arguments c).

Definition DEFAULT_JOB_METRICS_RETENTION : Z := 10000.

Definition flag (b : bool) : string := if b then "1" else "0".

Section calls.
Context {X : Ext} {R : RedisExt}.
Variable q : RedisQueueName.

Definition job_deduplication_id (job : Job) : option string := dd_id <$> opt_deduplication (job_options job).

Definition job_deduplication_ttl_millis (job : Job) : option Z :=
  match opt_filter (λ d, negb (dd_keep_last_if_active d)) (opt_deduplication (job_options job)) with
  | Some d => lock_duration_millis <$> dd_ttl d
  | None => None
  end.

Definition job_repeat_key_of (job : Job) : option string := JobTypes.job_repeat_key job.

(** The arguments a new job contributes to the calls that add several. *)
Definition job_row (job : Job) : Result (list Arg) :=
  let? encoded := encode_job job in
  Ok [Text (job_id job); Text encoded; Text (job_state_name (job_state job)); Float (millis (job_scheduled_at job));
      Int (job_priority job); Text (unwrap_or (job_deduplication_id job) EmptyString);
      Text (unwrap_or (job_repeat_key_of job) EmptyString)].

Definition lifo_flag (lifo : option bool) : string :=
  match lifo with Some true => "1" | Some false => "0" | None => EmptyString end.

Definition get_claim_rate_limit_ttl_call (max_claims : option Z) : EvalCall :=
  mkCall ClaimRateLimitTtl 2
      [Key ClaimRateLimitKey; Key MetaKey; Int (unwrap_or max_claims 0)].

Definition is_maxed_call : EvalCall :=
  mkCall IsMaxed 2
      [Key MetaKey; Key (StateKey Active)].

Definition active_claim_rate_limit_ttl_call (rate_limit_max : Z) : EvalCall :=
  mkCall ActiveClaimRateLimitTtl 2
      [Key ClaimRateLimitKey; Key MetaKey; Int rate_limit_max].

Definition upsert_repeat_call (job : Job) (encoded : string) (repeat_key : string) : EvalCall :=
  mkCall UpsertRepeat 10
      [Key JobsKey; Key (StateKey Waiting); Key (StateKey Delayed); Key (StateKey WaitingChildren); Key SequenceKey;
       Key (StateKey Active); Key (StateKey Completed); Key (StateKey Failed); Key EventsKey; Key MarkerKey;
       Text (job_id job); Text encoded; Text (job_state_name (job_state job)); Float (millis (job_scheduled_at job));
       Int (job_priority job); Float WAITING_SCORE_BUCKET; Text (unwrap_or (job_deduplication_id job) EmptyString);
       Prefix DeduplicationKey; Text repeat_key; Prefix RepeatOwnerKey; Prefix DeduplicationNextKey;
       Prefix DependenciesKey; Prefix LogsKey; Prefix LockKey; Int DEFAULT_JOB_EVENT_RETENTION].

Definition add_many_at_call (created : list Job) : Result EvalCall :=
  let? rows := try_map job_row created in
  Ok (mkCall AddJobs 8
      ([Key JobsKey; Key (StateKey Waiting); Key (StateKey Delayed); Key (StateKey WaitingChildren); Key SequenceKey;
       Key (StateKey Active); Key EventsKey; Key MarkerKey; Int (Z.of_nat (length created))] ++
      concat rows ++
      [Float WAITING_SCORE_BUCKET; Prefix DeduplicationKey; Prefix RepeatOwnerKey; Prefix DeduplicationNextKey;
       Prefix LogsKey; Int DEFAULT_JOB_EVENT_RETENTION])).

Definition get_flow_dependencies_call (parent_id : string) : EvalCall :=
  mkCall FlowDependencies 1
      [Key JobsKey; Text parent_id].

Definition get_flow_dependency_counts_call (parent_id : string) : EvalCall :=
  mkCall FlowDependencyCounts 5
      [Key JobsKey; Key (DependenciesKey parent_id); Key (ProcessedKey parent_id); Key (IgnoredKey parent_id);
       Key (UnsuccessfulKey parent_id); Text parent_id].

Definition get_flow_dependency_selected_counts_call (parent_id : string) (kinds : list JobFlowDependencyKind) : EvalCall :=
  mkCall FlowDependencySelectedCounts 5
      ([Key JobsKey; Key (DependenciesKey parent_id); Key (ProcessedKey parent_id); Key (IgnoredKey parent_id);
       Key (UnsuccessfulKey parent_id); Text parent_id] ++
      ((λ kind, Text (kind_as_str kind)) <$> kinds)).

Definition get_flow_dependency_values_call (parent_id : string) : EvalCall :=
  mkCall FlowDependencyValues 5
      [Key JobsKey; Key (DependenciesKey parent_id); Key (ProcessedKey parent_id); Key (IgnoredKey parent_id);
       Key (UnsuccessfulKey parent_id); Text parent_id].

Definition get_flow_dependency_page_call (parent_id : string) (kind : JobFlowDependencyKind) (cursor : Z) (count : Z) : EvalCall :=
  mkCall FlowDependencyPage 5
      [Key JobsKey; Key (DependenciesKey parent_id); Key (ProcessedKey parent_id); Key (IgnoredKey parent_id);
       Key (UnsuccessfulKey parent_id); Text parent_id; Text (kind_as_str kind); Int cursor; Int count].

Definition get_flow_dependency_pages_call (parent_id : string) (pages : list (JobFlowDependencyKind * (Z * Z))) : EvalCall :=
  mkCall FlowDependencyPages 5
      ([Key JobsKey; Key (DependenciesKey parent_id); Key (ProcessedKey parent_id); Key (IgnoredKey parent_id);
       Key (UnsuccessfulKey parent_id); Text parent_id] ++
      flat_map (λ '(kind, (cursor, count)), [Text (kind_as_str kind); Int cursor; Int (Z.max count 1)]) pages).

Definition get_flow_children_values_call (parent_id : string) : EvalCall :=
  mkCall FlowChildrenValues 2
      [Key JobsKey; Key (ProcessedKey parent_id); Text parent_id].

Definition get_flow_ignored_children_failures_call (parent_id : string) : EvalCall :=
  mkCall FlowIgnoredChildrenFailures 2
      [Key JobsKey; Key (IgnoredKey parent_id); Text parent_id].

Definition remove_unprocessed_children_call (parent_id : string) (now : DateTime) : EvalCall :=
  mkCall RemoveUnprocessedChildren 11
      [Key JobsKey; Key (StateKey Waiting); Key (StateKey Delayed); Key (StateKey Active);
       Key (StateKey WaitingChildren); Key (StateKey Completed); Key (StateKey Failed); Key SequenceKey;
       Key (DependenciesKey parent_id); Key EventsKey; Key MarkerKey; Text parent_id; Text (to_rfc3339 now);
       Float (millis now); Float WAITING_SCORE_BUCKET; Prefix LockKey; Prefix DependenciesKey;
       Prefix DeduplicationKey; Prefix RepeatOwnerKey; Prefix LogsKey; Prefix DeduplicationNextKey;
       Int DEFAULT_JOB_EVENT_RETENTION].

Definition remove_child_dependency_call (child_id : string) (now : DateTime) : EvalCall :=
  mkCall RemoveChildDependency 9
      [Key JobsKey; Key (StateKey Waiting); Key (StateKey Delayed); Key (StateKey Active);
       Key (StateKey WaitingChildren); Key (StateKey Completed); Key (StateKey Failed); Key SequenceKey;
       Key MarkerKey; Text child_id; Text (to_rfc3339 now); Float (millis now); Float WAITING_SCORE_BUCKET;
       Prefix DependenciesKey; Prefix DeduplicationKey; Prefix RepeatOwnerKey; Prefix LogsKey;
       Prefix DeduplicationNextKey].

Definition get_metrics_call (start : Z) (end_ : Z) (failed : bool) : EvalCall :=
  mkCall GetMetrics 2
      [Key (MetricsKey failed); Key (MetricsDataKey failed); Int start; Int end_].

Definition remove_orphaned_jobs_call (cursor : Z) (scan_count : Z) (remaining : Z) : EvalCall :=
  mkCall RemoveOrphanedJobs 8
      [Key JobsKey; Key (StateKey Waiting); Key (StateKey Delayed); Key (StateKey Active);
       Key (StateKey WaitingChildren); Key (StateKey Completed); Key (StateKey Failed); Key StalledKey; Int cursor;
       Int scan_count; Int remaining; Prefix DependenciesKey; Prefix LogsKey; Prefix LockKey].

Definition add_new_job_call (job : Job) (encoded : string) : EvalCall :=
  mkCall AddJob 8
      [Key JobsKey; Key (StateKey Waiting); Key (StateKey Delayed); Key (StateKey WaitingChildren); Key SequenceKey;
       Key (StateKey Active); Key EventsKey; Key MarkerKey; Text (job_id job); Text encoded;
       Text (job_state_name (job_state job)); Float (millis (job_scheduled_at job)); Int (job_priority job);
       Float WAITING_SCORE_BUCKET; Text (unwrap_or (job_deduplication_id job) EmptyString); Prefix DeduplicationKey;
       Text (unwrap_or (job_repeat_key_of job) EmptyString); Prefix RepeatOwnerKey; Prefix DeduplicationNextKey;
       Prefix LogsKey; Int DEFAULT_JOB_EVENT_RETENTION].

Definition add_flow_jobs_call (parent : Job) (children : list Job) : Result EvalCall :=
  let? rows := try_map job_row (parent :: children) in
  Ok (mkCall AddFlow 8
      ([Key JobsKey; Key (StateKey Waiting); Key (StateKey Delayed); Key (StateKey WaitingChildren); Key SequenceKey;
       Key EventsKey; Key (StateKey Active); Key MarkerKey; Int (Z.of_nat (S (length children)))] ++
      concat rows ++
      [Float WAITING_SCORE_BUCKET; Prefix DependenciesKey; Prefix DeduplicationKey; Prefix RepeatOwnerKey;
       Prefix DeduplicationNextKey; Int DEFAULT_JOB_EVENT_RETENTION; Float (millis (job_created_at parent))])).

Definition add_flow_children_jobs_call (parent_id : string) (lock_token : string) (now : DateTime) (children : list Job) : Result EvalCall :=
  let? rows := try_map job_row children in
  Ok (mkCall AddFlowChildren 10
      ([Key JobsKey; Key (StateKey Waiting); Key (StateKey Delayed); Key (StateKey WaitingChildren);
       Key (StateKey Active); Key SequenceKey; Key EventsKey; Key StalledKey; Key MarkerKey; Key (LockKey parent_id);
       Text parent_id; Text lock_token; Int (Z.of_nat (length children))] ++
      concat rows ++
      [Float WAITING_SCORE_BUCKET; Prefix DependenciesKey; Prefix DeduplicationKey; Prefix RepeatOwnerKey;
       Prefix DeduplicationNextKey; Int DEFAULT_JOB_EVENT_RETENTION; Float (millis now)])).

Definition remove_job_call (job_id : string) (now : DateTime) : EvalCall :=
  mkCall RemoveJob 12
      [Key JobsKey; Key (LockKey job_id); Key (StateKey Waiting); Key (StateKey Delayed); Key (StateKey Active);
       Key (StateKey WaitingChildren); Key (StateKey Completed); Key (StateKey Failed); Key SequenceKey;
       Key MarkerKey; Key EventsKey; Key StalledKey; Text job_id; Text (to_rfc3339 now); Float (millis now);
       Float WAITING_SCORE_BUCKET; Prefix DependenciesKey; Prefix DeduplicationKey; Prefix RepeatOwnerKey;
       Prefix LogsKey; Prefix DeduplicationNextKey; Int DEFAULT_JOB_EVENT_RETENTION].

Definition claim_next_call (lease_expires_at : DateTime) (now : DateTime) (worker_id : string) (lock_token : string) (lease_for : Duration) (rate_limit_max : Z) (rate_limit_window_ms : Z) : EvalCall :=
  mkCall Claim 9
      [Key (StateKey Waiting); Key (StateKey Active); Key JobsKey; Key ClaimRateLimitKey; Key MetaKey;
       Key (StateKey Delayed); Key SequenceKey; Key EventsKey; Key MarkerKey; Float (millis lease_expires_at);
       Text (to_rfc3339 now); Text worker_id; Text (to_rfc3339 lease_expires_at); Text lock_token;
       Int (lock_duration_millis lease_for); Prefix LockKey; Int rate_limit_max; Int rate_limit_window_ms;
       Float (millis now); Float WAITING_SCORE_BUCKET; Int 1000; Int 1000; Int DEFAULT_JOB_EVENT_RETENTION;
       Prefix RepeatOwnerKey].

Definition update_priority_order_call (job_id : string) (priority : Z) (lifo : option bool) : EvalCall :=
  mkCall UpdatePriority 4
      [Key JobsKey; Key (StateKey Waiting); Key SequenceKey; Key MarkerKey; Text job_id; Int priority;
       Float WAITING_SCORE_BUCKET; Text (lifo_flag lifo)].

Definition fail_job_call (job_id : string) (lock_token : string) (now : DateTime) (error : string) (retrying : bool) (scheduled_at : DateTime) (remove_on_fail : bool) : EvalCall :=
  mkCall Fail 13
      [Key JobsKey; Key (StateKey Active); Key (StateKey Delayed); Key (StateKey Failed); Key (LockKey job_id);
       Key (StateKey WaitingChildren); Key (StateKey Waiting); Key SequenceKey; Key EventsKey; Key StalledKey;
       Key (MetricsKey true); Key (MetricsDataKey true); Key MarkerKey; Text job_id; Text lock_token;
       Text (to_rfc3339 now); Text error; Text (flag retrying); Text (to_rfc3339 scheduled_at);
       Float (millis scheduled_at); Int (timestamp_millis now); Text (flag remove_on_fail); Prefix DependenciesKey;
       Prefix DeduplicationKey; Prefix RepeatOwnerKey; Float WAITING_SCORE_BUCKET; Prefix DeduplicationNextKey;
       Prefix LogsKey; Int DEFAULT_JOB_EVENT_RETENTION; Int DEFAULT_JOB_METRICS_RETENTION].

Definition complete_job_call (job_id : string) (lock_token : string) (now : DateTime) (value : string) (remove_on_complete : bool) (next_repeat : option Job) (encoded : string) : EvalCall :=
  mkCall Complete 16
      [Key JobsKey; Key (StateKey Active); Key (StateKey Completed); Key (LockKey job_id); Key (StateKey Waiting);
       Key (StateKey WaitingChildren); Key SequenceKey; Key (StateKey Failed); Key (StateKey Delayed); Key EventsKey;
       Key StalledKey; Key (MetricsKey false); Key (MetricsDataKey false); Key (MetricsKey true);
       Key (MetricsDataKey true); Key MarkerKey; Text job_id; Text lock_token; Text (to_rfc3339 now); Text value;
       Int (timestamp_millis now); Text (flag remove_on_complete); Float WAITING_SCORE_BUCKET;
       Text (unwrap_or (JobTypes.job_id <$> next_repeat) EmptyString); Text encoded;
       Text (unwrap_or ((λ j, job_state_name (job_state j)) <$> next_repeat) EmptyString);
       Float (unwrap_or ((λ j, millis (job_scheduled_at j)) <$> next_repeat) f64_zero);
       Int (unwrap_or (job_priority <$> next_repeat) 0); Prefix DependenciesKey; Prefix DeduplicationKey;
       Prefix RepeatOwnerKey; Prefix DeduplicationNextKey; Prefix LogsKey; Int DEFAULT_JOB_EVENT_RETENTION;
       Int DEFAULT_JOB_METRICS_RETENTION].

Definition renew_lease_call (job_id : string) (lock_token : string) (lease_expires_at : DateTime) (lease_for : Duration) : EvalCall :=
  mkCall RenewLease 4
      [Key JobsKey; Key (StateKey Active); Key (LockKey job_id); Key StalledKey; Key MarkerKey; Text job_id;
       Text lock_token; Text (to_rfc3339 lease_expires_at); Float (millis lease_expires_at);
       Int (lock_duration_millis lease_for)].

Definition renew_leases_call (lease_expires_at : DateTime) (lease_for : Duration) (renewals : list JobLeaseRenewal) : EvalCall :=
  mkCall RenewLeases 3
      ([Key JobsKey; Key (StateKey Active); Key StalledKey; Prefix LockKey; Text (to_rfc3339 lease_expires_at);
       Float (millis lease_expires_at); Int (lock_duration_millis lease_for); Int (Z.of_nat (length renewals))] ++
      flat_map (λ r, [Text (rn_job_id r); Text (rn_lock_token r)]) renewals).

Definition delay_active_job_call (job_id : string) (lock_token : string) (scheduled_at : DateTime) (delay : string) : EvalCall :=
  mkCall DelayActiveJob 8
      [Key JobsKey; Key (StateKey Active); Key (StateKey Delayed); Key (LockKey job_id); Key EventsKey;
       Key StalledKey; Key (StateKey Waiting); Key MarkerKey; Text job_id; Text lock_token;
       Text (to_rfc3339 scheduled_at); Int (timestamp_millis scheduled_at); Text delay;
       Int DEFAULT_JOB_EVENT_RETENTION; Prefix RepeatOwnerKey].

Definition release_active_job_call (job_id : string) (lock_token : string) (now : DateTime) : EvalCall :=
  mkCall ReleaseActiveJob 8
      [Key JobsKey; Key (StateKey Active); Key (StateKey Waiting); Key SequenceKey; Key (LockKey job_id);
       Key EventsKey; Key StalledKey; Key MarkerKey; Text job_id; Text lock_token; Text (to_rfc3339 now);
       Float (millis now); Float WAITING_SCORE_BUCKET; Int DEFAULT_JOB_EVENT_RETENTION; Prefix RepeatOwnerKey].

Definition promote_job_call (job_id : string) (now : DateTime) : EvalCall :=
  mkCall PromoteJob 6
      [Key JobsKey; Key (StateKey Waiting); Key (StateKey Delayed); Key SequenceKey; Key EventsKey; Key MarkerKey;
       Text job_id; Text (to_rfc3339 now); Float WAITING_SCORE_BUCKET; Int DEFAULT_JOB_EVENT_RETENTION;
       Prefix RepeatOwnerKey; Float (millis now)].

Definition reschedule_job_call (job_id : string) (scheduled_at : DateTime) (delay : string) : EvalCall :=
  mkCall RescheduleJob 4
      [Key JobsKey; Key (StateKey Delayed); Key MarkerKey; Key EventsKey; Text job_id; Text (to_rfc3339 scheduled_at);
       Int (timestamp_millis scheduled_at); Text delay; Prefix RepeatOwnerKey; Int DEFAULT_JOB_EVENT_RETENTION].

Definition retry_job_call (job_id : string) (now : DateTime) (deduplication_expires_at : string) (deduplication_ttl_millis : string) : EvalCall :=
  mkCall RetryJob 9
      [Key JobsKey; Key (StateKey Completed); Key (StateKey Failed); Key (StateKey Waiting); Key SequenceKey;
       Key EventsKey; Key (StateKey WaitingChildren); Key (StateKey Delayed); Key MarkerKey; Text job_id;
       Text (to_rfc3339 now); Float WAITING_SCORE_BUCKET; Prefix DeduplicationKey; Prefix RepeatOwnerKey;
       Text deduplication_expires_at; Text deduplication_ttl_millis; Int DEFAULT_JOB_EVENT_RETENTION;
       Float (millis now); Prefix DependenciesKey].

Definition remove_deduplication_key_call (deduplication_id : string) : EvalCall :=
  mkCall RemoveDeduplicationKey 2
      [Key (DeduplicationKey deduplication_id); Key (DeduplicationNextKey deduplication_id)].

Definition get_deduplication_job_id_call (deduplication_id : string) : EvalCall :=
  mkCall GetDeduplicationJobId 3
      [Key JobsKey; Key (DeduplicationKey deduplication_id); Key (DeduplicationNextKey deduplication_id);
       Text deduplication_id].

Definition clean_jobs_call (state : JobState) (cutoff : DateTime) (limit : Z) (now : DateTime) : EvalCall :=
  mkCall CleanJobs 11
      [Key JobsKey; Key (StateKey Waiting); Key (StateKey Delayed); Key (StateKey Active);
       Key (StateKey WaitingChildren); Key (StateKey Completed); Key (StateKey Failed); Key SequenceKey;
       Key MarkerKey; Key EventsKey; Key StalledKey; Text (job_state_name state); Text (to_rfc3339 cutoff); Int limit;
       Prefix LockKey; Text (to_rfc3339 now); Float (millis now); Float WAITING_SCORE_BUCKET; Prefix DependenciesKey;
       Float (millis cutoff); Prefix DeduplicationKey; Prefix RepeatOwnerKey; Prefix LogsKey;
       Prefix DeduplicationNextKey; Int DEFAULT_JOB_EVENT_RETENTION].

Definition drain_jobs_call (include_delayed : bool) (now : DateTime) : EvalCall :=
  mkCall DrainJobs 9
      [Key JobsKey; Key (StateKey Waiting); Key (StateKey Delayed); Key (StateKey Active);
       Key (StateKey WaitingChildren); Key (StateKey Completed); Key (StateKey Failed); Key SequenceKey;
       Key MarkerKey; Text (flag include_delayed); Text (to_rfc3339 now); Float (millis now);
       Float WAITING_SCORE_BUCKET; Prefix LockKey; Prefix DependenciesKey; Prefix DeduplicationKey;
       Prefix RepeatOwnerKey; Prefix LogsKey; Prefix DeduplicationNextKey].

Definition obliterate_call (force : bool) : EvalCall :=
  mkCall Obliterate 3
      [Key MetaKey; Key (StateKey Active); Key JobsKey; Text (queue_key_prefix q); Text (flag force); Int 1000].

Definition list_jobs_call (offset : Z) (limit : Z) (ascending : bool) (states : list JobState) : EvalCall :=
  mkCall ListJobs 7
      ([Key JobsKey; Key (StateKey Waiting); Key (StateKey Delayed); Key (StateKey Active);
       Key (StateKey WaitingChildren); Key (StateKey Completed); Key (StateKey Failed); Int offset; Int limit;
       Text (flag ascending)] ++
      ((λ s, Text (job_state_name s)) <$> states)).

Definition get_job_counts_call (states : list JobState) : EvalCall :=
  mkCall JobCounts (length states) ((λ s, Key (StateKey s)) <$> states).

Definition get_counts_per_priority_call (priorities : list JobPriority) : EvalCall :=
  mkCall CountsPerPriority 1
      ([Key (StateKey Waiting); Float WAITING_SCORE_BUCKET] ++
      (Int <$> priorities)).

Definition update_data_call (job_id : string) (payload : string) : EvalCall :=
  mkCall UpdateData 1
      [Key JobsKey; Text job_id; Text payload].

Definition update_progress_call (job_id : string) (progress : string) : EvalCall :=
  mkCall UpdateProgress 2
      [Key JobsKey; Key EventsKey; Text job_id; Text progress; Int DEFAULT_JOB_EVENT_RETENTION].

Definition save_stacktrace_call (job_id : string) (stacktrace : string) (failed_reason : string) : EvalCall :=
  mkCall SaveStacktrace 1
      [Key JobsKey; Text job_id; Text stacktrace; Text failed_reason].

Definition add_log_call (job_id : string) (now : DateTime) (line : string) (keep : Z) (entry : string) : EvalCall :=
  mkCall AddLog 2
      [Key JobsKey; Key (LogsKey job_id); Text job_id; Text (to_rfc3339 now); Text line; Int keep; Text entry].

Definition clear_job_logs_call (job_id : string) (keep : Z) : EvalCall :=
  mkCall ClearLogs 2
      [Key JobsKey; Key (LogsKey job_id); Text job_id; Int keep].

Definition promote_due_jobs_call (now : DateTime) : EvalCall :=
  mkCall PromoteDueJobs 6
      [Key JobsKey; Key (StateKey Delayed); Key (StateKey Waiting); Key SequenceKey; Key EventsKey; Key MarkerKey;
       Float (millis now); Float WAITING_SCORE_BUCKET; Int 1000; Int DEFAULT_JOB_EVENT_RETENTION; Prefix RepeatOwnerKey].

Definition recover_stalled_jobs_call (now : DateTime) : EvalCall :=
  mkCall RecoverStalled 12
      [Key JobsKey; Key (StateKey Active); Key (StateKey Waiting); Key (StateKey Failed); Key SequenceKey;
       Key (StateKey WaitingChildren); Key (StateKey Delayed); Key StalledKey; Key (MetricsKey true);
       Key (MetricsDataKey true); Key MarkerKey; Key EventsKey; Int (timestamp_millis now); Text (to_rfc3339 now);
       Prefix LockKey; Float WAITING_SCORE_BUCKET; Int 1000; Prefix DependenciesKey; Prefix DeduplicationKey;
       Prefix RepeatOwnerKey; Prefix DeduplicationNextKey; Prefix LogsKey; Int DEFAULT_JOB_METRICS_RETENTION;
       Int DEFAULT_JOB_EVENT_RETENTION].

Definition get_job_state_call (job_id : string) : EvalCall :=
  mkCall GetJobState 6
      [Key (StateKey Completed); Key (StateKey Failed); Key (StateKey Delayed); Key (StateKey Active);
       Key (StateKey Waiting); Key (StateKey WaitingChildren); Text job_id].

Definition get_job_finished_result_call (job_id : string) : EvalCall :=
  mkCall GetJobFinishedResult 3
      [Key (StateKey Completed); Key (StateKey Failed); Key JobsKey; Text job_id].

Definition stats_call : EvalCall :=
  mkCall Stats 7
      [Key MetaKey; Key (StateKey Waiting); Key (StateKey Delayed); Key (StateKey Active);
       Key (StateKey WaitingChildren); Key (StateKey Completed); Key (StateKey Failed)].

End calls.

(** Renewing one lease passes five keys and announces four: the marker is
    the first argument of the script, where it reads the id of the job. *)
Lemma renew_call_shifts_arguments {X : Ext} {R : RedisExt} id token expires lease :
  let c := renew_lease_call id token expires lease in
  argv_of c !! 0%nat = Some (Key MarkerKey) ∧ argv_of c !! 1%nat = Some (Text id) ∧ argv_of c !! 2%nat = Some (Text token).
Proof. done. Qed.
