(* ===== verification/RedisLua.v ===== *)
(** * Lua, [cjson] and the Redis commands the scripts use

    Lua's values and the operations on them are given; what Lua calls, the
    [cjson] library, the C library's number formats and the Redis commands, is
    a parameter, with the documented behaviour the theorems rely on as laws.  A
    script runs in the monad [Script] on the state of Redis: an error stops it
    and keeps the writes made before, since Redis does not roll back. *)
From S2P Require Import Prelude Ordering Text Float64 External FloatOrder RedisKeys RedisCalls.
Local Open Scope Z_scope.

(** ** Values *)

(** [LNull] is [cjson.null]; a table has a list part and fields. *)
Inductive Lua : Type :=
| LNil
| LNull
| LBool (b : bool)
| LNumber (x : f64)
| LString (s : string)
| LTable (items : list Lua) (fields : list (string * Lua)).

Definition empty_table : Lua := LTable [] [].

Definition truthy (v : Lua) : bool :=
  match v with LNil => false | LBool b => b | _ => true end.
Definition not_null (v : Lua) : bool := match v with LNull => false | _ => true end.

(** [a or b]. *)
Definition lua_or (a b : Lua) : Lua := if truthy a then a else b.

Definition is_text (v : Lua) (s : string) : bool := match v with LString t => String.eqb t s | _ => false end.

Fixpoint assoc (k : string) (fields : list (string * Lua)) : Lua :=
  match fields with
  | [] => LNil
  | (k', v) :: fields' => if String.eqb k k' then v else assoc k fields'
  end.

Fixpoint assoc_set (k : string) (v : Lua) (fields : list (string * Lua)) : list (string * Lua) :=
  match fields with
  | [] => [(k, v)]
  | (k', v') :: fields' => if String.eqb k k' then (k, v) :: fields' else (k', v') :: assoc_set k v fields'
  end.

(** [t[k]] for a text [k]; the fields of a text are the functions of the string
    library, none of which the scripts look for. *)
Definition index (t : Lua) (k : string) : outcome string Lua :=
  match t with
  | LTable _ fields => Ok (assoc k fields)
  | LString _ => Ok LNil
  | _ => Err ("attempt to index a value with field '" +:+ k +:+ "'")
  end.

(** [t[k] = v] for a [v] that is not nil. *)
Definition set_index (t : Lua) (k : string) (v : Lua) : outcome string Lua :=
  match t with
  | LTable items fields => Ok (LTable items (assoc_set k v fields))
  | _ => Err ("attempt to index a value with field '" +:+ k +:+ "'")
  end.

(** [math.floor], as an integer and as a number. *)
Definition floor_Z (x : f64) : Z :=
  match x with
  | S754_finite s m e =>
      let signed := if s then - Zpos m else Zpos m in
      if 0 <=? e then signed * 2 ^ e else signed `div` 2 ^ (- e)
  | _ => 0
  end.

Definition f64_floor (x : f64) : f64 :=
  match x with
  | S754_finite _ _ e => if 0 <=? e then x else f64_of_Z (floor_Z x)
  | _ => x
  end.

Definition f64_sub : f64 → f64 → f64 := SFsub prec emax.
Definition f64_neg : f64 → f64 := SFopp.

(** [a == b]; tables are equal to themselves only, which the scripts never ask. *)
Definition lua_eq (a b : Lua) : bool :=
  match a, b with
  | LNil, LNil | LNull, LNull => true
  | LBool x, LBool y => Bool.eqb x y
  | LNumber x, LNumber y => SFeqb x y
  | LString x, LString y => String.eqb x y
  | _, _ => false
  end.

(** What Lua takes from its libraries: [cjson], [strtod], the format of a
    number, and the format the client gives to doubles; [lua_stack] is how deep
    a function may call itself before Lua stops with a stack overflow. *)
Class LuaLibs := {
  lua_stack : nat;
  cjson_decode : string → outcome string Lua;
  cjson_encode : Lua → outcome string string;
  lua_strtod : string → option f64;
  lua_text : f64 → string;
  float_text : f64 → string;
}.

(** Encoding a table gives a text that decodes to a table with the same texts
    under the same names; other values may change.  The digits of an integer
    that a double can hold are read as that integer. *)
Class LuaLaws (L : LuaLibs) : Prop := {
  cjson_texts t s : cjson_encode t = Ok s →
    ∃ t', cjson_decode s = Ok t' ∧ ∀ k x, index t k = Ok (LString x) → index t' k = Ok (LString x);
  strtod_digits n : 0 ≤ n < 2 ^ 53 → lua_strtod (show_nat n) = Some (f64_of_Z n);
}.

(** ** Commands

    The state [D] is that of a queue's keys while scripts run: each script is
    one step of the server.  A key that expires between two scripts is a step
    of its own, which no command here takes.  A command on several keys or
    members is the sequence of the commands on each; [LTRIM] keeps the entries
    from the first to [stop], [LKEEP] the [last] ones. *)
Inductive Command : Type :=
| HSET (key : string) (fields : list (string * Lua))
| HDEL (key field : string)
| HSETNX (key field value : string)
| HINCRBY (key field : string)
| SET (key value px : string)
| SETPLAIN (key value : string)
| SETNX (key value : string)
| SETKEEP (key value : string)
| PERSIST (key : string)
| DEL (key : string)
| INCR (key : string)
| PEXPIRE (key : string) (ms : Lua)
| ZADD (key : string) (score : Lua) (member : string)
| ZREM (key member : string)
| ZREMRANGEBYSCORE (key : string) (max : Lua)
| ZREMRANGEBYRANK (key : string) (stop : Lua)
| SADD (key member : string)
| SREM (key member : string)
| SPOP (key count : string)
| LPUSH (key : string) (values : list Lua)
| RPUSH (key value : string)
| LTRIM (key : string) (stop : Lua)
| LKEEP (key : string) (last : Lua)
| XADD (key retention : string) (fields : list string)
| XTRIM (key max_len : string).

Definition command_key (c : Command) : string :=
  match c with
  | HSET k _ | HDEL k _ | HSETNX k _ _ | HINCRBY k _ | SET k _ _ | SETPLAIN k _ | SETNX k _ | SETKEEP k _ | PERSIST k | DEL k | INCR k
  | PEXPIRE k _ | ZADD k _ _ | ZREM k _ | ZREMRANGEBYSCORE k _ | ZREMRANGEBYRANK k _ | SADD k _ | SREM k _
  | SPOP k _ | LPUSH k _ | RPUSH k _ | LTRIM k _ | LKEEP k _ | XADD k _ _ | XTRIM k _ => k
  end.

(** What a command may change: a field of a hash, a string, a member of a
    sorted set. *)
Inductive Place : Type :=
| PField (key field : string)
| PString (key : string)
| PMember (key member : string).

Definition place_key (p : Place) : string := match p with PField k _ | PString k | PMember k _ => k end.

Definition touches (c : Command) (p : Place) : Prop :=
  match c, p with
  | HSET k fs, PField k' f => k = k' ∧ f ∈ fs.*1
  | HDEL k f, PField k' f' | HSETNX k f _, PField k' f' | HINCRBY k f, PField k' f' => k = k' ∧ f = f'
  | ZADD k _ m, PMember k' m' | ZREM k m, PMember k' m' => k = k' ∧ m = m'
  | c, p => command_key c = place_key p
  end.

(** The commands that take members out of a sorted set and put none in. *)
Definition takes_out (c : Command) : Prop :=
  match c with ZREM _ _ | ZREMRANGEBYSCORE _ _ | ZREMRANGEBYRANK _ _ | DEL _ => True | _ => False end.

Class Redis (D : Type) := {
  exec : Command → D → D * outcome string Lua;
  hget : string → string → D → outcome string (option string);
  get : string → D → outcome string (option string);
  zscore : string → string → D → outcome string (option string);
  zcard : string → D → outcome string Z;
  (** [ZRANGE key 0 stop], and its first member with its score. *)
  zrange : string → Z → D → outcome string (list string);
  zfirst : string → D → outcome string (option (string * string));
  (** [ZRANGE key 0 -1], and the number of members with a score in a range. *)
  zall : string → D → outcome string (list string);
  zcount : string → Lua → Lua → D → outcome string Z;
  (** [ZRANGEBYSCORE key -inf max LIMIT 0 limit]. *)
  zrangebyscore : string → string → string → D → outcome string (list string);
  (** [ZREVRANGE key start -1] and [ZREVRANGEBYSCORE key max -inf LIMIT 0 limit]. *)
  zrevrange : string → Lua → D → outcome string (list string);
  zrevrangebyscore : string → Lua → Lua → D → outcome string (list string);
  scard : string → D → outcome string Z;
  hexists : string → string → D → outcome string bool;
  exists_key : string → D → outcome string bool;
  (** [ZRANGE key start stop], and what the other commands on whole keys read:
      [HSCAN] and [SSCAN] take a cursor and a count, and return the next cursor. *)
  zrange_between : string → Lua → Lua → D → outcome string (list string);
  smembers : string → D → outcome string (list string);
  sismember : string → string → D → outcome string bool;
  lpos : string → string → D → outcome string (option Z);
  hlen : string → D → outcome string Z;
  hgetall : string → D → outcome string (list (string * string));
  hscan : string → Lua → Lua → D → outcome string (string * list (string * string));
  sscan : string → Lua → Lua → D → outcome string (string * list string);
  key_type : string → D → outcome string string;
  (** [SCAN cursor MATCH pattern COUNT count]. *)
  scan : string → string → Lua → D → outcome string (string * list string);
  (** [LRANGE key start stop] and [LLEN]. *)
  lrange : string → Lua → Lua → D → outcome string (list string);
  llen : string → D → outcome string Z;
  (** [PTTL]: -1 without expiry, -2 without the key. *)
  pttl : string → D → outcome string Z;
}.

Class RedisLaws (D : Type) `{!Redis D} : Prop := {
  frame_field c k f d : ¬ touches c (PField k f) → hget k f (exec c d).1 = hget k f d;
  frame_string c k d : ¬ touches c (PString k) → get k (exec c d).1 = get k d;
  frame_member c k m d : ¬ touches c (PMember k m) → zscore k m (exec c d).1 = zscore k m d;
  hset_field k f s d d' r : exec (HSET k [(f, LString s)]) d = (d', Ok r) → hget k f d' = Ok (Some s);
  set_string k v px d d' r : exec (SET k v px) d = (d', Ok r) → get k d' = Ok (Some v);
  del_string k d d' r : exec (DEL k) d = (d', Ok r) → get k d' = Ok None;
  zadd_member k x m d d' r : exec (ZADD k x m) d = (d', Ok r) → ∃ s, zscore k m d' = Ok (Some s);
  zrem_member k m d d' r : exec (ZREM k m) d = (d', Ok r) → zscore k m d' = Ok None;
  zrem_absent k m d d' r : zscore k m d = Ok None → exec (ZREM k m) d = (d', Ok r) → r = LNumber (f64_of_Z 0);
  takes_out_member c k m d : takes_out c → zscore k m d = Ok None → zscore k m (exec c d).1 = Ok None;
  hsetnx_present k f v w d : hget k f d = Ok (Some v) →
    hget k f (exec (HSETNX k f w) d).1 = Ok (Some v) ∧
    ∀ d' r, exec (HSETNX k f w) d = (d', Ok r) → r = LNumber (f64_of_Z 0);
  hsetnx_result k f w d d' r : exec (HSETNX k f w) d = (d', Ok r) →
    (r = LNumber (f64_of_Z 0) ∧ hget k f d' = hget k f d) ∨ (r = LNumber (f64_of_Z 1) ∧ hget k f d' = Ok (Some w));
  hdel_field k f d d' r : exec (HDEL k f) d = (d', Ok r) → hget k f d' = Ok None;
  exists_string k v d : get k d = Ok (Some v) → exists_key k d = Ok true;
  hexists_field k f v d : hget k f d = Ok (Some v) → hexists k f d = Ok true;
  zcard_member k m s n d : zscore k m d = Ok (Some s) → zcard k d = Ok n → 0 < n;
  key_type_member k m s d : zscore k m d = Ok (Some s) → key_type k d = Ok "zset";
  setnx_absent k v d d' r : get k d = Ok None → exec (SETNX k v) d = (d', Ok r) → get k d' = Ok (Some v);
  setnx_present k v w d : get k d = Ok (Some w) → get k (exec (SETNX k v) d).1 = Ok (Some w);
  zfirst_some k m s d : zscore k m d = Ok (Some s) → zfirst k d ≠ Ok None;
  zrevrange_member k start m l d : zrevrange k start d = Ok l → m ∈ l → zscore k m d ≠ Ok None;
  zrevrangebyscore_member k max limit m l d : zrevrangebyscore k max limit d = Ok l → m ∈ l → zscore k m d ≠ Ok None;
  (** A command that is refused has no effect. *)
  refused c d d' e : exec c d = (d', Err e) → d' = d;
}.

(** ** Scripts *)
Section script.
Context {D : Type}.

Definition Script (A : Type) : Type := D → D * outcome string A.

Definition ret {A} (a : A) : Script A := λ d, (d, Ok a).
Definition raise {A} (e : string) : Script A := λ d, (d, Err e).
Definition bind {A B} (m : Script A) (k : A → Script B) : Script B :=
  λ d, match m d with (d', Ok a) => k a d' | (d', Err e) => (d', Err e) end.

(** A computation on values, and a read. *)
Definition value {A} (r : outcome string A) : Script A := λ d, (d, r).
Definition read {A} (f : D → outcome string A) : Script A := λ d, (d, f d).
Definition call `{!Redis D} (c : Command) : Script Lua := exec c.

(** [for _, a in ipairs(l)] with early exit. *)
Fixpoint for_each {A} (l : list A) (body : A → Script unit) : Script unit :=
  match l with
  | [] => ret tt
  | a :: l' => bind (body a) (λ _, for_each l' body)
  end.

(** How many times the body of a loop counts. *)
Fixpoint count_each {A} (l : list A) (body : A → Script bool) : Script Z :=
  match l with
  | [] => ret 0
  | a :: l' => bind (body a) (λ counted, bind (count_each l' body) (λ n, ret (if counted : bool then n + 1 else n)))
  end.

Fixpoint first_result {A B} (l : list A) (body : A → Script (option B)) : Script (option B) :=
  match l with
  | [] => ret None
  | a :: l' => bind (body a) (λ r, match r with Some b => ret (Some b) | None => first_result l' body end)
  end.

(** ** What a script keeps, even when it stops with an error *)
Definition keeps {A} (P : D → Prop) (m : Script A) : Prop := ∀ d, P d → P (m d).1.

Lemma keeps_ret {A} P (a : A) : keeps P (ret a).
Proof. by intros d. Qed.
Lemma keeps_raise {A} P e : keeps P (raise (A := A) e).
Proof. by intros d. Qed.
Lemma keeps_value {A} P (r : outcome string A) : keeps P (value r).
Proof. by intros d. Qed.
Lemma keeps_read {A} P (f : D → outcome string A) : keeps P (read f).
Proof. by intros d. Qed.

Lemma keeps_bind {A B} P (m : Script A) (k : A → Script B) : keeps P m → (∀ a, keeps P (k a)) → keeps P (bind m k).
Proof.
  intros Hm Hk d Hd. unfold bind. specialize (Hm d Hd). destruct (m d) as [d' [a|e]]; simpl in *; [by apply Hk|done].
Qed.

(** What is read is known where the kept property tells it. *)
Lemma keeps_bind_read {A B} P (f : D → outcome string A) (k : A → Script B) :
  (∀ a d, P d → f d = Ok a → keeps P (k a)) → keeps P (bind (read f) k).
Proof. intros Hk d Hd. unfold bind, read. destruct (f d) as [a|e] eqn:E; [by apply (Hk a d Hd E)|done]. Qed.

Lemma keeps_bind_value {A B} P (r : outcome string A) (k : A → Script B) :
  (∀ a, r = Ok a → keeps P (k a)) → keeps P (bind (value r) k).
Proof. intros Hk d Hd. unfold bind, value. destruct r as [a|e]; [by apply (Hk a eq_refl)|done]. Qed.

Lemma keeps_for_each {A} P (l : list A) body : (∀ a, keeps P (body a)) → keeps P (for_each l body).
Proof. intros H. induction l as [|a l IH]; simpl; [apply keeps_ret|]. by apply keeps_bind. Qed.

Lemma keeps_count_each {A} P (l : list A) body : (∀ a, keeps P (body a)) → keeps P (count_each l body).
Proof.
  intros H. induction l as [|a l IH]; simpl; [apply keeps_ret|]. apply keeps_bind; [done|]. intros b.
  apply keeps_bind; [done|]. intros n. apply keeps_ret.
Qed.

Lemma keeps_first_result {A B} P (l : list A) (body : A → Script (option B)) :
  (∀ a, keeps P (body a)) → keeps P (first_result l body).
Proof.
  intros H. induction l as [|a l IH]; simpl; [apply keeps_ret|]. apply keeps_bind; [done|].
  intros [b|]; [apply keeps_ret|done].
Qed.
End script.
Arguments Script : clear implicits.

Notation "'let*' x ':=' m 'in' k" := (bind m (λ x, k))
  (at level 10, x name, m at level 100, k at level 200) : lane_scope.
Notation "m ';;;' k" := (bind m (λ _, k)) (at level 60, right associativity) : lane_scope.
