(* ===== verification/RedisLeases.v ===== *)
(** * The lease scripts of the Redis queue ([src/job/redis.rs])

    The scripts that give, extend and return the lease of a job: [CLAIM_SCRIPT],
    [RENEW_LEASE_SCRIPT], [RENEW_LEASES_SCRIPT], [DELAY_ACTIVE_JOB_SCRIPT] and
    [RELEASE_ACTIVE_JOB_SCRIPT] with the local functions they share, and the
    methods that call them. *)
From S2P Require Import Prelude Ordering Text Float64 External JobTypes JobStore JobDedup JobQueries Backend FloatOrder LuaDates RedisKeys RedisReplies RedisCalls RedisLua.
Local Open Scope Z_scope.

(** [string.sub(s, 1, -1 - n)]. *)
Definition drop_last (n : nat) (s : string) : string := String.substring 0 (String.length s - n) s.

Section leases.
Context {L : LuaLibs} {D : Type} `{!Redis D}.

(** ** Lua's standard functions on the values of the scripts *)
Definition tonumber (v : Lua) : option f64 :=
  match v with LNumber x => Some x | LString s => lua_strtod s | _ => None end.

(** The text of a value that is concatenated or passed to a command. *)
Definition to_text (v : Lua) : outcome string string :=
  match v with
  | LString s => Ok s
  | LNumber x => Ok (lua_text x)
  | _ => Err "attempt to concatenate a value that is not a text"
  end.

Definition as_lua (o : option string) : Lua := match o with Some s => LString s | None => LBool false end.

Definition number (x : Z) : Lua := LNumber (f64_of_Z x).
Definition positive_number (x : f64) : bool := f64_lt f64_zero x.

Definition getf (t : Lua) (k : string) : Script D Lua := value (index t k).

Definition set_field (k : string) (v : Lua) (t : Lua) : Script D Lua := value (set_index t k v).

Fixpoint set_fields (l : list (string * Lua)) (t : Lua) : Script D Lua :=
  match l with
  | [] => ret t
  | (k, v) :: l' => let* t' := set_field k v t in set_fields l' t'
  end.

Definition decode (raw : string) : Script D Lua := value (cjson_decode raw).
Definition encode (v : Lua) : Script D string := value (cjson_encode v).
Definition when (b : bool) (m : Script D unit) : Script D unit := if b then m else ret tt.
Definition do_ (c : Command) : Script D unit := call c ;;; ret tt.

(** ** Functions shared by the scripts

    The bucket of the scores is an argument of the scripts; it is the constant
    [WAITING_SCORE_BUCKET] of the client here. *)

(** The options of a job, if it has any. *)
Definition options_of (job : Lua) : Script D (option Lua) :=
  let* options := getf job "options" in
  ret (if truthy options && not_null options then Some options else None).

Definition lifo_of (job : Lua) : Script D bool :=
  let* options := options_of job in
  match options with
  | Some o => let* lifo := getf o "lifo" in ret match lifo with LBool true => true | _ => false end
  | None => ret false
  end.

Definition sequence_of (reply : Lua) : f64 := match reply with LNumber x => x | _ => f64_zero end.

(** [waiting_score_for] on a sequence number and the bucket the client passes. *)
Definition waiting_score_lua (priority : f64) (sequence : Z) (job : Lua) : Script D f64 :=
  let* lifo := lifo_of job in
  let sequence_index := sequence `mod` half_bucket in
  ret (if lifo
       then f64_add (f64_mul priority WAITING_SCORE_BUCKET) (f64_of_Z (half_bucket - 1 - sequence_index))
       else f64_add (f64_add (f64_mul priority WAITING_SCORE_BUCKET) (f64_of_Z half_bucket)) (f64_of_Z sequence_index)).

Definition add_base_marker (marker_key : string) : Script D unit :=
  when (negb (String.eqb marker_key EmptyString)) (do_ (ZADD marker_key (number 0) "0")).

Definition enqueue_waiting_job (jobs_key waiting_key sequence_key : string) (job : Lua) (job_id : string)
    (priority : f64) (marker_key : string) : Script D string :=
  let* reply := call (INCR sequence_key) in
  let sequence := sequence_of reply in
  let* job := set_field "enqueued_seq" (LNumber sequence) job in
  let* score := waiting_score_lua priority (f64_to_u64 sequence) job in
  let* updated := encode job in
  do_ (HSET jobs_key [(job_id, LString updated)]) ;;;
  do_ (ZADD waiting_key (LNumber score) job_id) ;;;
  add_base_marker marker_key ;;;
  ret updated.

Definition push_back_waiting_job (jobs_key waiting_key : string) (job : Lua) (job_id : string) (priority : f64)
    (marker_key : string) : Script D string :=
  let* job := set_field "enqueued_seq" (number 0) job in
  let* updated := encode job in
  do_ (HSET jobs_key [(job_id, LString updated)]) ;;;
  do_ (ZADD waiting_key (LNumber (f64_mul priority WAITING_SCORE_BUCKET)) job_id) ;;;
  add_base_marker marker_key ;;;
  ret updated.

Definition refresh_delay_marker (marker_key delayed_key : string) : Script D unit :=
  when (negb (String.eqb marker_key EmptyString))
    (let* next := read (zfirst delayed_key) in
     match next with
     | Some (_, score) => do_ (ZADD marker_key (LString score) "1")
     | None => do_ (ZREM marker_key "1")
     end).

Definition add_base_marker_if_waiting (marker_key waiting_key : string) : Script D unit :=
  when (negb (String.eqb marker_key EmptyString))
    (let* n := read (zcard waiting_key) in when (0 <? n) (do_ (ZADD marker_key (number 0) "0"))).

(** *** The schedulers of repeated jobs *)
Definition repeat_key (job : Lua) : Script D (option string) :=
  let* key := getf job "repeat_key" in
  if negb (truthy key) || negb (not_null key) || is_text key EmptyString then ret None
  else let* text := value (to_text key) in ret (Some text).

Definition repeat_scheduler_key (repeat_prefix : string) : string := drop_last 1 repeat_prefix.
Definition repeat_scheduler_meta_key (repeat_prefix key : string) : string :=
  drop_last 7 repeat_prefix +:+ "repeat_meta:" +:+ key.

Definition set_optional (meta_key name : string) (v : Lua) : Script D unit :=
  when (truthy v && not_null v) (do_ (HSET meta_key [(name, v)])).

(** The interval in milliseconds, from a number or from seconds and nanoseconds. *)
Definition every_millis (interval : Lua) : Script D f64 :=
  match interval with
  | LNumber x => ret (f64_floor x)
  | _ =>
      let* secs := getf interval "secs" in
      let* seconds := getf interval "seconds" in
      let* nanos := getf interval "nanos" in
      let* subsec := getf interval "subsec_nanos" in
      let s := unwrap_or (tonumber (lua_or (lua_or secs seconds) (number 0))) f64_zero in
      let n := unwrap_or (tonumber (lua_or (lua_or nanos subsec) (number 0))) f64_zero in
      ret (f64_add (f64_mul s (f64_of_Z 1000)) (f64_floor (f64_div n (f64_of_Z 1000000))))
  end.

Definition sync_repeat_options (meta_key : string) (repeat_options : Lua) : Script D unit :=
  let* limit := getf repeat_options "limit" in
  set_optional meta_key "limit" limit ;;;
  let* end_at := getf repeat_options "end_at" in
  set_optional meta_key "endDate" end_at ;;;
  let* interval := getf repeat_options "interval" in
  when (truthy interval && not_null interval)
    (let* every := every_millis interval in
     when (positive_number every) (do_ (HSET meta_key [("every", LNumber every)]))) ;;;
  let* pattern := getf repeat_options "cron" in
  set_optional meta_key "pattern" pattern.

Definition write_repeat_scheduler (job : Lua) (job_id key repeat_prefix meta_key : string) (scheduled_millis : Lua)
    : Script D unit :=
  let* options := options_of job in
  let* repeat_options := match options with Some o => getf o "repeat" | None => ret LNil end in
  let has_options := truthy repeat_options && not_null repeat_options in
  let* encoded := if has_options then encode repeat_options else ret EmptyString in
  let* name := getf job "name" in
  let* state := getf job "state" in
  let* count := getf job "repeat_count" in
  do_ (ZADD (repeat_scheduler_key repeat_prefix) scheduled_millis key) ;;;
  do_ (DEL meta_key) ;;;
  do_ (HSET meta_key
         [("jid", LString job_id); ("name", lua_or name (LString EmptyString)); ("next", scheduled_millis);
          ("state", lua_or state (LString EmptyString)); ("count", lua_or count (number 0));
          ("opts", LString encoded); ("key", LString key)]) ;;;
  when has_options (sync_repeat_options meta_key repeat_options).

Definition sync_repeat_scheduler (job : Lua) (job_id repeat_prefix : string) (scheduled_millis : Lua) : Script D unit :=
  let* key := repeat_key job in
  match key with
  | None => ret tt
  | Some key =>
      if String.eqb repeat_prefix EmptyString then ret tt
      else
        let owner_key := repeat_prefix +:+ key in
        let meta_key := repeat_scheduler_meta_key repeat_prefix key in
        let* owner_id := read (get owner_key) in
        let* scheduler_owner_id := read (hget meta_key "jid") in
        if match owner_id, scheduler_owner_id with
           | Some o, _ => negb (String.eqb o job_id)
           | None, Some o => negb (String.eqb o job_id)
           | None, None => false
           end
        then ret tt
        else
          when (is_none owner_id) (do_ (SETNX owner_key job_id)) ;;;
          write_repeat_scheduler job job_id key repeat_prefix meta_key scheduled_millis
  end.

(** ** Claiming *)

(** [KEYS[i]] and [ARGV[i]]; the calls pass every index their script reads. *)
Definition at_ (l : list string) (i : nat) : string := nth (i - 1) l EmptyString.
Definition last_key (KEYS : list string) : string := unwrap_or (last KEYS) EmptyString.

Definition queue_is_paused_or_maxed (meta_key active_key : string) : Script D bool :=
  let* paused := read (hget meta_key "paused") in
  let* is_paused := match paused with
                    | Some flag => if String.eqb flag "0" then do_ (HDEL meta_key "paused") ;;; ret false else ret true
                    | None => ret false
                    end in
  if is_paused : bool then ret true
  else
    let* concurrency := read (hget meta_key "concurrency") in
    match lua_strtod (unwrap_or concurrency "0") with
    | Some max_concurrency =>
        if positive_number max_concurrency
        then let* active_count := read (zcard active_key) in ret (f64_le max_concurrency (f64_of_Z active_count))
        else ret false
    | None => ret false
    end.

Definition priority_of_job (job : Lua) : Script D f64 :=
  let* priority := getf job "priority" in
  ret (unwrap_or (tonumber (lua_or priority (LString "1000"))) (f64_of_Z 1000)).

(** [iso_to_millis(job["scheduled_at"])]. *)
Definition scheduled_millis_of (job : Lua) : Script D Lua :=
  let* scheduled_at := getf job "scheduled_at" in
  let* text := value (to_text scheduled_at) in
  ret (number (iso_to_millis text)).

Definition promote_due (KEYS ARGV : list string) (promotion_marker_key due_id : string) : Script D unit :=
  let* delayed_raw := read (hget (at_ KEYS 3) due_id) in
  do_ (ZREM (at_ KEYS 6) due_id) ;;;
  match delayed_raw with
  | None => ret tt
  | Some raw =>
      let* delayed_job := decode raw in
      let* state := getf delayed_job "state" in
      when (is_text state "delayed")
        (let* delayed_job := set_field "state" (LString "waiting") delayed_job in
         let* priority := priority_of_job delayed_job in
         enqueue_waiting_job (at_ KEYS 3) (at_ KEYS 1) (at_ KEYS 7) delayed_job due_id priority promotion_marker_key ;;;
         let* scheduled := scheduled_millis_of delayed_job in
         sync_repeat_scheduler delayed_job due_id (at_ ARGV 15) scheduled ;;;
         do_ (XADD (at_ KEYS 8) (at_ ARGV 14) ["event"; "waiting"; "jobId"; due_id; "prev"; "delayed"]))
  end.

(** The limit in force: a count, with the length of its window. *)
Definition positive_option (x : option f64) : bool := match x with Some x => positive_number x | None => false end.

Definition claim_rate_limit (KEYS ARGV : list string) : Script D (option f64 * option f64) :=
  let* limit :=
    if positive_option (lua_strtod (at_ ARGV 8)) then ret (lua_strtod (at_ ARGV 8), lua_strtod (at_ ARGV 9))
    else
      let* max := read (hget (at_ KEYS 5) "max") in
      let* duration := read (hget (at_ KEYS 5) "duration") in
      ret (lua_strtod (unwrap_or max "0"), lua_strtod (unwrap_or duration "0")) in
  ret (if positive_option limit.2 then limit else (Some f64_zero, limit.2)).

Definition rate_limited (KEYS : list string) (limit : option f64 * option f64) : Script D bool :=
  match limit.1 with
  | Some max =>
      if positive_number max
      then
        let* counter := read (get (at_ KEYS 4)) in
        match lua_strtod (unwrap_or counter "0") with
        | Some current_claims => ret (f64_le max current_claims)
        | None => raise "attempt to compare nil with number"
        end
      else ret false
  | None => ret false
  end.

Definition count_claim (KEYS : list string) (limit : option f64 * option f64) : Script D unit :=
  when (positive_option limit.1)
    (let* counter := call (INCR (at_ KEYS 4)) in
     when (match counter with LNumber x => match SFcompare x f64_one with Some Eq => true | _ => false end | _ => false end)
       (do_ (PEXPIRE (at_ KEYS 4) (match limit.2 with Some d => LNumber d | None => LNil end)))).

(** [(job["attempts_made"] or 0) + 1]. *)
Definition next_attempt (job : Lua) : Script D Lua :=
  let* attempts := getf job "attempts_made" in
  match tonumber (lua_or attempts (number 0)) with
  | Some n => ret (LNumber (f64_add n f64_one))
  | None => raise "attempt to perform arithmetic on field 'attempts_made'"
  end.

(** What a claim does with the first job that waits. *)
Definition take_job (KEYS ARGV : list string) (limit : option f64 * option f64) (id : string) (job : Lua) : Script D string :=
  do_ (SET (at_ ARGV 7 +:+ id) (at_ ARGV 5) (at_ ARGV 6)) ;;;
  count_claim KEYS limit ;;;
  let* attempts := next_attempt job in
  let* job := set_fields
    [("state", LString "active"); ("attempts_made", attempts); ("processed_at", LString (at_ ARGV 2));
     ("worker_id", LString (at_ ARGV 3)); ("lease_expires_at", LString (at_ ARGV 4)); ("failed_reason", LNull)] job in
  let* updated := encode job in
  do_ (ZREM (at_ KEYS 1) id) ;;;
  do_ (ZADD (at_ KEYS 2) (LString (at_ ARGV 1)) id) ;;;
  do_ (HSET (at_ KEYS 3) [(id, LString updated)]) ;;;
  let* scheduled := scheduled_millis_of job in
  sync_repeat_scheduler job id (at_ ARGV 15) scheduled ;;;
  do_ (XADD (at_ KEYS 8) (at_ ARGV 14) ["event"; "active"; "jobId"; id; "prev"; "waiting"]) ;;;
  do_ (ZADD (last_key KEYS) (number 0) "0") ;;;
  ret updated.

Definition try_candidate (KEYS ARGV : list string) (limit : option f64 * option f64) (id : string)
    : Script D (option string) :=
  let* raw := read (hget (at_ KEYS 3) id) in
  match raw with
  | None => do_ (ZREM (at_ KEYS 1) id) ;;; ret None
  | Some raw =>
      let* job := decode raw in
      let* state := getf job "state" in
      if is_text state "waiting"
      then let* updated := take_job KEYS ARGV limit id job in ret (Some updated)
      else do_ (ZREM (at_ KEYS 1) id) ;;; ret None
  end.

Definition CLAIM_SCRIPT (KEYS ARGV : list string) : Script D (option string) :=
  let* is_paused_or_maxed := queue_is_paused_or_maxed (at_ KEYS 5) (at_ KEYS 2) in
  let promotion_marker_key := if is_paused_or_maxed then EmptyString else last_key KEYS in
  let* due_ids := read (zrangebyscore (at_ KEYS 6) (at_ ARGV 10) (at_ ARGV 12)) in
  for_each due_ids (promote_due KEYS ARGV promotion_marker_key) ;;;
  refresh_delay_marker (last_key KEYS) (at_ KEYS 6) ;;;
  let* limit := claim_rate_limit KEYS ARGV in
  let* limited := rate_limited KEYS limit in
  if limited : bool then ret None
  else if is_paused_or_maxed : bool then ret None
  else
    let candidate_limit := f64_to_u64 (unwrap_or (lua_strtod (at_ ARGV 13)) f64_one) in
    let* ids := read (zrange (at_ KEYS 1) (candidate_limit - 1)) in
    first_result ids (try_candidate KEYS ARGV limit).

(** ** Renewing *)
Definition RENEW_LEASE_SCRIPT (KEYS ARGV : list string) : Script D (list string) :=
  let* raw := read (hget (at_ KEYS 1) (at_ ARGV 1)) in
  match raw with
  | None => ret ["missing"]
  | Some raw =>
      let* job := decode raw in
      let* state := getf job "state" in
      if negb (is_text state "active")
      then let* text := value (to_text (lua_or state (LString EmptyString))) in ret ["state"; text]
      else
        let* lock_token := read (get (at_ KEYS 3)) in
        match lock_token with
        | None => ret ["lock_missing"]
        | Some token =>
            if negb (String.eqb token (at_ ARGV 2)) then ret ["lock_mismatch"]
            else
              do_ (SET (at_ KEYS 3) (at_ ARGV 2) (at_ ARGV 5)) ;;;
              do_ (SREM (at_ KEYS 4) (at_ ARGV 1)) ;;;
              let* job := set_field "lease_expires_at" (LString (at_ ARGV 3)) job in
              let* updated := encode job in
              do_ (HSET (at_ KEYS 1) [(at_ ARGV 1, LString updated)]) ;;;
              do_ (ZADD (at_ KEYS 2) (LString (at_ ARGV 4)) (at_ ARGV 1)) ;;;
              ret ["ok"; updated]
        end
  end.

(** One job of [RENEW_LEASES_SCRIPT]: whether its lease was renewed. *)
Definition renew_one (KEYS ARGV : list string) (job_id token : string) : Script D bool :=
  let* raw := read (hget (at_ KEYS 1) job_id) in
  match raw with
  | None => ret false
  | Some raw =>
      let* job := decode raw in
      let* state := getf job "state" in
      if negb (is_text state "active") then ret false
      else
        let* score := read (zscore (at_ KEYS 2) job_id) in
        if is_none score then ret false
        else
          let lock_key := at_ ARGV 1 +:+ job_id in
          let* current_token := read (get lock_key) in
          if match current_token with Some t => String.eqb t token | None => false end
          then
            do_ (SET lock_key token (at_ ARGV 4)) ;;;
            do_ (SREM (at_ KEYS 3) job_id) ;;;
            let* job := set_field "lease_expires_at" (LString (at_ ARGV 2)) job in
            let* updated := encode job in
            do_ (HSET (at_ KEYS 1) [(job_id, LString updated)]) ;;;
            do_ (ZADD (at_ KEYS 2) (LString (at_ ARGV 3)) job_id) ;;;
            ret true
          else ret false
  end.

(** The loop over the pairs from [ARGV[6]] on; the ids that were not renewed. *)
Fixpoint renew_all (KEYS ARGV : list string) (pairs : list (string * string)) : Script D (list string) :=
  match pairs with
  | [] => ret []
  | (job_id, token) :: pairs' =>
      let* ok := renew_one KEYS ARGV job_id token in
      let* failed := renew_all KEYS ARGV pairs' in
      ret (if ok then failed else job_id :: failed)
  end.

Definition RENEW_LEASES_SCRIPT (KEYS ARGV : list string) : Script D (list string) :=
  let count := f64_to_u64 (unwrap_or (lua_strtod (at_ ARGV 5)) f64_zero) in
  renew_all KEYS ARGV (take (Z.to_nat count) (chunks_of_two (drop 5 ARGV))).

(** ** Giving back *)

(** The guards of the two scripts that end a lease: the job, or the reply that
    refuses. *)
Definition owned_job (jobs_key active_key lock_key stalled_key job_id token : string)
    : Script D (Lua + list string) :=
  let* raw := read (hget jobs_key job_id) in
  match raw with
  | None =>
      do_ (ZREM active_key job_id) ;;;
      do_ (DEL lock_key) ;;;
      do_ (SREM stalled_key job_id) ;;;
      ret (inr ["missing"])
  | Some raw =>
      let* job := decode raw in
      let* state := getf job "state" in
      if negb (is_text state "active")
      then
        do_ (ZREM active_key job_id) ;;;
        let* text := value (to_text (lua_or state (LString EmptyString))) in
        ret (inr ["state"; text])
      else
        let* lock_token := read (get lock_key) in
        match lock_token with
        | None => ret (inr ["lock_missing"])
        | Some t =>
            if negb (String.eqb t token) then ret (inr ["lock_mismatch"])
            else
              let* removed_from_active := call (ZREM active_key job_id) in
              if match removed_from_active with LNumber (S754_zero _) => true | _ => false end
              then ret (inr ["state"; "active_index_missing"])
              else
                do_ (DEL lock_key) ;;;
                do_ (SREM stalled_key job_id) ;;;
                ret (inl job)
        end
  end.

(** The fields a job loses with its lease. *)
Definition lease_fields : list (string * Lua) :=
  [("processed_at", LNull); ("worker_id", LNull); ("lock_token", LNull); ("lease_expires_at", LNull);
   ("deferred_failure", LNull); ("failed_reason", LNull)].

Definition delay_owned (KEYS ARGV : list string) (job : Lua) : Script D (list string) :=
  let* job := set_fields ([("state", LString "delayed"); ("scheduled_at", LString (at_ ARGV 3))] ++ lease_fields) job in
  let* options := options_of job in
  let* delay := decode (at_ ARGV 5) in
  let* options := set_field "delay" delay (match options with Some o => o | None => empty_table end) in
  let* job := set_field "options" options job in
  let* updated := encode job in
  do_ (HSET (at_ KEYS 1) [(at_ ARGV 1, LString updated)]) ;;;
  do_ (ZADD (at_ KEYS 3) (LString (at_ ARGV 4)) (at_ ARGV 1)) ;;;
  refresh_delay_marker (last_key KEYS) (at_ KEYS 3) ;;;
  add_base_marker_if_waiting (last_key KEYS) (at_ KEYS 7) ;;;
  sync_repeat_scheduler job (at_ ARGV 1) (at_ ARGV 7) (LString (at_ ARGV 4)) ;;;
  do_ (XADD (at_ KEYS 5) (at_ ARGV 6) ["event"; "delayed"; "jobId"; at_ ARGV 1; "delay"; at_ ARGV 4; "prev"; "active"]) ;;;
  ret ["ok"; updated].

Definition DELAY_ACTIVE_JOB_SCRIPT (KEYS ARGV : list string) : Script D (list string) :=
  let* owned := owned_job (at_ KEYS 1) (at_ KEYS 2) (at_ KEYS 4) (at_ KEYS 6) (at_ ARGV 1) (at_ ARGV 2) in
  match owned with
  | inr refusal => ret refusal
  | inl job => delay_owned KEYS ARGV job
  end.

Definition release_owned (KEYS ARGV : list string) (job : Lua) : Script D (list string) :=
  let* job := set_fields ([("state", LString "waiting"); ("scheduled_at", LString (at_ ARGV 3))] ++ lease_fields) job in
  let* priority := priority_of_job job in
  let* updated := push_back_waiting_job (at_ KEYS 1) (at_ KEYS 3) job (at_ ARGV 1) priority (last_key KEYS) in
  sync_repeat_scheduler job (at_ ARGV 1) (at_ ARGV 7) (LString (at_ ARGV 4)) ;;;
  do_ (XADD (at_ KEYS 6) (at_ ARGV 6) ["event"; "waiting"; "jobId"; at_ ARGV 1; "prev"; "active"]) ;;;
  ret ["ok"; updated].

Definition RELEASE_ACTIVE_JOB_SCRIPT (KEYS ARGV : list string) : Script D (list string) :=
  let* owned := owned_job (at_ KEYS 1) (at_ KEYS 2) (at_ KEYS 5) (at_ KEYS 7) (at_ ARGV 1) (at_ ARGV 2) in
  match owned with
  | inr refusal => ret refusal
  | inl job => release_owned KEYS ARGV job
  end.

(** ** Sending a call

    Redis gives a script the texts of its keys and of the other arguments. *)
Definition show_int (n : Z) : string := if n <? 0 then "-" +:+ show_nat (- n) else show_nat n.

Definition arg_text (q : RedisQueueName) (a : Arg) : string :=
  match a with
  | Key k => redis_key q k
  | Prefix k => redis_key q (k EmptyString)
  | Text s => s
  | Int n => show_int n
  | Float x => float_text x
  end.

Definition KEYS_of (q : RedisQueueName) (c : EvalCall) : list string := arg_text q <$> keys_of c.
Definition ARGV_of (q : RedisQueueName) (c : EvalCall) : list string := arg_text q <$> argv_of c.

Definition eval_call {A} (q : RedisQueueName) (text : list string → list string → Script D A) (c : EvalCall) : Script D A :=
  text (KEYS_of q c) (ARGV_of q c).
End leases.

(** ** The methods *)
Section methods.
Context {X : Ext} {R : RedisExt} {L : LuaLibs} {D : Type} `{!Redis D}.
Variable q : RedisQueueName.

(** A client sees an error of the script as an error of Redis. *)
Definition query {A B} (m : Script D A) (k : A → Reply B) : D → D * Reply B :=
  λ d, match m d with
       | (d', Ok a) => (d', k a)
       | (d', Err error) => (d', fail (redis_error error))
       end.

Definition with_token (token : string) (job : Job) : Job := job <| job_lock_token := Some token |>.

(** [rate_limit] is the limit of this client, [lock_token] the value of
    [Uuid::new_v4]. *)
Definition claim_next_with_conn (rate_limit : option JobRateLimit) (worker_id : string) (lease_for : Duration)
    (now : DateTime) (lock_token : string) : D → D * Reply (option Job) :=
  let lease_expires_at := add_duration now lease_for in
  let limit := match rate_limit with
               | Some l => (max_claims l, Z.max (duration_millis (rate_window l)) 1)
               | None => (0, 0)
               end in
  query (eval_call q CLAIM_SCRIPT (claim_next_call lease_expires_at now worker_id lock_token lease_for limit.1 limit.2))
    (λ raw, match raw with
            | None => Ok None
            | Some raw => let? job := decode_job raw in Ok (Some (with_token lock_token job))
            end).

Definition renew_lease (job_id lock_token : string) (lease_for : Duration) (now : DateTime) : D → D * Reply Job :=
  let lease_expires_at := add_duration now lease_for in
  query (eval_call q RENEW_LEASE_SCRIPT (renew_lease_call job_id lock_token lease_expires_at lease_for))
    (λ result, let? job := decode_transition_result result job_id "renew lease" in Ok (with_token lock_token job)).

Definition renew_leases (renewals : list JobLeaseRenewal) (lease_for : Duration) (now : DateTime)
    : D → D * Reply (list string) :=
  match renewals with
  | [] => λ d, (d, Ok [])
  | _ => query (eval_call q RENEW_LEASES_SCRIPT (renew_leases_call (add_duration now lease_for) lease_for renewals)) Ok
  end.

(** [delay_text] is the JSON text of the delay. *)
Definition delay_active_job (job_id lock_token : string) (delay : Duration) (delay_text : string) (now : DateTime)
    : D → D * Reply Job :=
  query (eval_call q DELAY_ACTIVE_JOB_SCRIPT (delay_active_job_call job_id lock_token (add_duration now delay) delay_text))
    (λ result, decode_transition_result result job_id "delay active").

Definition release_active_job (job_id lock_token : string) (now : DateTime) : D → D * Reply Job :=
  query (eval_call q RELEASE_ACTIVE_JOB_SCRIPT (release_active_job_call job_id lock_token now))
    (λ result, decode_transition_result result job_id "release active").
End methods.
