(* ===== verification/RedisLeaseRules.v ===== *)
(** * Leases held in Redis ([src/job/redis.rs])

    A lease is the token under the lock key of a job whose record says
    [active].  No script called with another token takes it away or changes
    the job, whether the script ends or stops halfway with an error; a claim
    gives a lease only on a job that was waiting; and the renewal of a single
    lease never finds its job. *)
From S2P Require Import Prelude Ordering Text Float64 External JobTypes JobStore JobDedup JobQueries Backend FloatOrder LuaDates RedisKeys RedisReplies RedisCalls RedisLua RedisLeases.
Local Open Scope Z_scope.

(** ** Keys the scripts build *)
Lemma drop_last_app s t n : String.length t = n → drop_last n (s +:+ t) = s.
Proof.
  intros <-. unfold drop_last.
  assert (String.length (s +:+ t) = String.length s + String.length t)%nat as -> by (induction s; simpl; auto).
  replace (String.length s + String.length t - String.length t)%nat with (String.length s) by lia.
  induction s as [|a s IH]; [by destruct t|]. exact (f_equal (String a) IH).
Qed.

Lemma append_empty s : s +:+ EmptyString = s.
Proof. induction s as [|a s IH]; [done|]. exact (f_equal (String a) IH). Qed.

Section keys.
Variable q : RedisQueueName.

Lemma owner_key_is key : redis_key q (RepeatOwnerKey EmptyString) +:+ key = redis_key q (RepeatOwnerKey key).
Proof. unfold redis_key, RedisKeys.key. cbn [suffix_of]. rewrite append_empty. apply append_assoc. Qed.

Lemma lock_key_is id : redis_key q (LockKey EmptyString) +:+ id = redis_key q (LockKey id).
Proof. unfold redis_key, RedisKeys.key. cbn [suffix_of]. rewrite append_empty. apply append_assoc. Qed.

Lemma scheduler_key_is : repeat_scheduler_key (redis_key q (RepeatOwnerKey EmptyString)) = redis_key q RepeatSchedulersKey.
Proof.
  unfold repeat_scheduler_key, redis_key, RedisKeys.key. cbn [suffix_of].
  change ("repeat:" +:+ EmptyString) with ("repeat" +:+ ":"). rewrite <- append_assoc. by apply drop_last_app.
Qed.

Lemma meta_key_is key : repeat_scheduler_meta_key (redis_key q (RepeatOwnerKey EmptyString)) key = redis_key q (RepeatSchedulerMetaKey key).
Proof.
  unfold repeat_scheduler_meta_key, redis_key, RedisKeys.key. cbn [suffix_of].
  change ("repeat:" +:+ EmptyString) with "repeat:". rewrite drop_last_app by done. done.
Qed.

Lemma prefix_not_empty : String.eqb (redis_key q (RepeatOwnerKey EmptyString)) EmptyString = false.
Proof.
  apply String.eqb_neq. unfold redis_key, RedisKeys.key, queue_key_prefix. cbn [suffix_of].
  destruct (rq_namespace q); done.
Qed.
End keys.

Create HintDb leases.
#[export] Hint Resolve keeps_ret keeps_raise keeps_value keeps_read : leases.

(** ** What the helper functions keep

    Keys no lease depends on: what a script does under them alone keeps every
    property [P] that commands on such keys keep. *)
Definition auxiliary (k : RedisKey) : Prop :=
  match k with
  | RepeatOwnerKey _ | RepeatSchedulersKey | RepeatSchedulerMetaKey _ | EventsKey | MarkerKey | ClaimRateLimitKey
  | SequenceKey | MetaKey | StalledKey => True
  | _ => False
  end.

Lemma keeps_do {D} `{!Redis D} (P : D → Prop) c : keeps P (call c) → keeps P (do_ c).
Proof. intros H. apply keeps_bind; [done|]. intros. apply keeps_ret. Qed.

Lemma keeps_when {D} (P : D → Prop) b (m : Script D unit) : (b = true → keeps P m) → keeps P (when b m).
Proof. destruct b; intros H; [by apply H|apply keeps_ret]. Qed.

(** Follows the structure of a script; what is left are its commands. *)
Ltac keep_step :=
  match goal with
  | |- keeps _ (bind (read _) _) => apply keeps_bind_read; intros ? ? ? ?
  | |- keeps _ (bind (value _) _) => apply keeps_bind_value; intros ? ?
  | |- keeps _ (bind _ _) => apply keeps_bind; [|intros ?]
  | |- keeps _ (when _ _) => apply keeps_when; intros ?
  | |- keeps _ (do_ _) => apply keeps_do
  | |- keeps _ (if ?b then _ else _) => destruct b eqn:?
  | |- keeps _ (match ?x with _ => _ end) => destruct x eqn:?
  | |- keeps _ _ => solve [auto with leases]
  end.
Ltac keep := repeat keep_step.

Section helpers.
Context {L : LuaLibs} {D : Type} `{!Redis D}.
Variables (q : RedisQueueName) (P : D → Prop).
Hypothesis keeps_auxiliary : ∀ c k, command_key c = redis_key q k → auxiliary k → keeps P (call c).

Ltac aux k := apply (keeps_auxiliary _ k); [reflexivity | exact I].

Lemma keeps_getf t k : keeps P (getf t k).
Proof. apply keeps_value. Qed.
Lemma keeps_set_field k v t : keeps P (set_field k v t).
Proof. apply keeps_value. Qed.
Lemma keeps_set_fields l t : keeps P (set_fields l t).
Proof. revert t. induction l as [|[k v] l IH]; intros t; simpl; [apply keeps_ret|]. apply keeps_bind; [apply keeps_set_field|done]. Qed.
Lemma keeps_decode s : keeps P (decode s).
Proof. apply keeps_value. Qed.
Lemma keeps_encode v : keeps P (encode v).
Proof. apply keeps_value. Qed.
#[local] Hint Resolve keeps_getf keeps_set_field keeps_set_fields keeps_decode keeps_encode : leases.

Lemma keeps_options job : keeps P (options_of job).
Proof. unfold options_of. keep. Qed.
#[local] Hint Resolve keeps_options : leases.
Lemma keeps_score p n job : keeps P (waiting_score_lua p n job).
Proof. unfold waiting_score_lua, lifo_of. keep. Qed.
Lemma keeps_priority job : keeps P (priority_of_job job).
Proof. unfold priority_of_job. keep. Qed.
Lemma keeps_scheduled job : keeps P (scheduled_millis_of job).
Proof. unfold scheduled_millis_of. keep. Qed.
Lemma keeps_next_attempt job : keeps P (next_attempt job).
Proof. unfold next_attempt. keep. Qed.
Lemma keeps_repeat_key job : keeps P (repeat_key job).
Proof. unfold repeat_key. keep. Qed.
Lemma keeps_every v : keeps P (every_millis v).
Proof. unfold every_millis. keep. Qed.
#[local] Hint Resolve keeps_score keeps_priority keeps_scheduled keeps_next_attempt keeps_repeat_key keeps_every : leases.

(** The marker is another key of the queue, or absent. *)
Definition marker_or_none (m : string) : Prop := m = EmptyString ∨ m = redis_key q MarkerKey.

Lemma keeps_base_marker m : marker_or_none m → keeps P (add_base_marker m).
Proof. intros [-> | ->]; unfold add_base_marker; [apply keeps_ret|]. keep. aux MarkerKey. Qed.

Lemma keeps_refresh_marker m d : marker_or_none m → keeps P (refresh_delay_marker m d).
Proof. intros [-> | ->]; unfold refresh_delay_marker; [apply keeps_ret|]. keep; aux MarkerKey. Qed.

Lemma keeps_marker_if_waiting m w : marker_or_none m → keeps P (add_base_marker_if_waiting m w).
Proof. intros [-> | ->]; unfold add_base_marker_if_waiting; [apply keeps_ret|]. keep. aux MarkerKey. Qed.

Lemma keeps_repeat_options key options : keeps P (sync_repeat_options (redis_key q (RepeatSchedulerMetaKey key)) options).
Proof. unfold sync_repeat_options, set_optional. keep; aux (RepeatSchedulerMetaKey key). Qed.
#[local] Hint Resolve keeps_repeat_options : leases.

Lemma keeps_sync job job_id scheduled : keeps P (sync_repeat_scheduler job job_id (redis_key q (RepeatOwnerKey EmptyString)) scheduled).
Proof.
  unfold sync_repeat_scheduler. apply keeps_bind; [auto with leases|]. intros [key|]; [|apply keeps_ret].
  rewrite prefix_not_empty. cbn zeta. rewrite owner_key_is, meta_key_is. unfold write_repeat_scheduler. rewrite scheduler_key_is.
  keep; [aux (RepeatOwnerKey key)|aux RepeatSchedulersKey|aux (RepeatSchedulerMetaKey key)..].
Qed.
#[local] Hint Resolve keeps_sync : leases.

(** *** The tables of the calls *)
Record claim_tables (KEYS ARGV : list string) : Prop := {
  ct_waiting : at_ KEYS 1 = redis_key q (StateKey Waiting);
  ct_active : at_ KEYS 2 = redis_key q (StateKey Active);
  ct_jobs : at_ KEYS 3 = redis_key q JobsKey;
  ct_limit : at_ KEYS 4 = redis_key q ClaimRateLimitKey;
  ct_meta : at_ KEYS 5 = redis_key q MetaKey;
  ct_delayed : at_ KEYS 6 = redis_key q (StateKey Delayed);
  ct_sequence : at_ KEYS 7 = redis_key q SequenceKey;
  ct_events : at_ KEYS 8 = redis_key q EventsKey;
  ct_marker : last_key KEYS = redis_key q MarkerKey;
  ct_locks : at_ ARGV 7 = redis_key q (LockKey EmptyString);
  ct_repeat : at_ ARGV 15 = redis_key q (RepeatOwnerKey EmptyString);
}.

Ltac tables H := rewrite ?(ct_waiting _ _ H), ?(ct_active _ _ H), ?(ct_jobs _ _ H), ?(ct_limit _ _ H), ?(ct_meta _ _ H),
  ?(ct_delayed _ _ H), ?(ct_sequence _ _ H), ?(ct_events _ _ H), ?(ct_marker _ _ H), ?(ct_locks _ _ H), ?(ct_repeat _ _ H).

Lemma keeps_paused_or_maxed k : keeps P (queue_is_paused_or_maxed (redis_key q MetaKey) k).
Proof. unfold queue_is_paused_or_maxed. keep. aux MetaKey. Qed.

Lemma keeps_limit KEYS ARGV : keeps P (claim_rate_limit KEYS ARGV).
Proof. unfold claim_rate_limit. keep. Qed.
Lemma keeps_limited KEYS limit : keeps P (rate_limited KEYS limit).
Proof. unfold rate_limited. keep. Qed.
Lemma keeps_count KEYS ARGV limit : claim_tables KEYS ARGV → keeps P (count_claim KEYS limit).
Proof. intros H. unfold count_claim. tables H. keep; aux ClaimRateLimitKey. Qed.
End helpers.

Ltac tables H := rewrite ?(ct_waiting _ _ _ H), ?(ct_active _ _ _ H), ?(ct_jobs _ _ _ H), ?(ct_limit _ _ _ H), ?(ct_meta _ _ _ H),
  ?(ct_delayed _ _ _ H), ?(ct_sequence _ _ _ H), ?(ct_events _ _ _ H), ?(ct_marker _ _ _ H), ?(ct_locks _ _ _ H), ?(ct_repeat _ _ _ H).

#[export] Hint Resolve keeps_getf keeps_set_field keeps_set_fields keeps_decode keeps_encode keeps_options keeps_score
  keeps_priority keeps_scheduled keeps_next_attempt keeps_repeat_key keeps_every keeps_limit keeps_limited : leases.

Section rules.
Context {L : LuaLibs} {D : Type} `{!Redis D, !RedisLaws D}.
Variables (q : RedisQueueName) (id token raw : string).

(** The lease of [id] under [token], with the record of the job. *)
Definition holds (d : D) : Prop :=
  get (redis_key q (LockKey id)) d = Ok (Some token) ∧ hget (redis_key q JobsKey) id d = Ok (Some raw).

(** The record says that the job is active. *)
Definition active_record (raw : string) : Prop :=
  ∃ job, cjson_decode raw = Ok job ∧ index job "state" = Ok (LString "active").

(** Commands that leave the lease alone. *)
Definition spares (c : Command) : Prop :=
  ¬ touches c (PString (redis_key q (LockKey id))) ∧ ¬ touches c (PField (redis_key q JobsKey) id).

Lemma touches_key c p : touches c p → command_key c = place_key p.
Proof. destruct c, p; simpl; naive_solver. Qed.

Definition other_key (k : RedisKey) : Prop := parent_of k = None ∧ k ≠ JobsKey ∧ k ≠ LockKey id.

Lemma key_inj k k' : parent_of k = None → parent_of k' = None → redis_key q k = redis_key q k' → k = k'.
Proof.
  intros H H'. unfold redis_key, RedisKeys.key. intros E%append_cancel.
  apply suffixes_differ in E; [done| |]; unfold plain_key; by rewrite ?H, ?H'.
Qed.

Lemma spares_other c k : command_key c = redis_key q k → other_key k → spares c.
Proof.
  intros Hc (Hp & Hj & Hl). split; intros Ht%touches_key; simpl in Ht; rewrite Hc in Ht; by apply key_inj in Ht.
Qed.

Lemma spares_hset id' v : id' ≠ id → spares (HSET (redis_key q JobsKey) [(id', v)]).
Proof.
  intros Hne. split; simpl; [|set_solver]. intros Ht%key_inj; done.
Qed.

Lemma spares_lock c id' : command_key c = redis_key q (LockKey id') → id' ≠ id → spares c.
Proof. intros Hc Hne. apply (spares_other c (LockKey id')); [done|]. split_and!; [done|done|]. by intros [= ->]. Qed.

Lemma keeps_call c : spares c → keeps holds (call c).
Proof. intros [Hs Hf] d [H1 H2]. split; [by rewrite frame_string|by rewrite frame_field]. Qed.

Lemma holds_auxiliary c k : command_key c = redis_key q k → auxiliary k → keeps holds (call c).
Proof. intros Hc Hk. apply keeps_call, (spares_other c k Hc). by destruct k. Qed.
End rules.

Section preservation.
Context {L : LuaLibs} {D : Type} `{!Redis D, !RedisLaws D}.
Variables (q : RedisQueueName) (id token raw : string).
Abbreviation P := (holds q id token raw).


Lemma holds_sync job job_id scheduled : keeps P (sync_repeat_scheduler job job_id (redis_key q (RepeatOwnerKey EmptyString)) scheduled).
Proof. apply keeps_sync, holds_auxiliary. Qed.
Lemma holds_paused k : keeps P (queue_is_paused_or_maxed (redis_key q MetaKey) k).
Proof. apply keeps_paused_or_maxed, holds_auxiliary. Qed.
Lemma holds_marker m w : marker_or_none q m →
  keeps P (add_base_marker m) ∧ keeps P (refresh_delay_marker m w) ∧ keeps P (add_base_marker_if_waiting m w).
Proof.
  intros Hm. pose proof (holds_auxiliary q id token raw) as Ha.
  split_and!; [by apply (keeps_base_marker q _ Ha)|by apply (keeps_refresh_marker q _ Ha)|by apply (keeps_marker_if_waiting q _ Ha)].
Qed.
#[local] Hint Resolve holds_sync holds_paused : leases.

Ltac other k := apply keeps_call, (spares_other q id _ k); [reflexivity | split_and!; [reflexivity | discriminate | discriminate]].

Lemma keeps_enqueue job job_id p m : job_id ≠ id → marker_or_none q m →
  keeps P (enqueue_waiting_job (redis_key q JobsKey) (redis_key q (StateKey Waiting)) (redis_key q SequenceKey) job job_id p m).
Proof.
  intros Hne Hm. unfold enqueue_waiting_job. keep; [other SequenceKey|by apply keeps_call, spares_hset|other (StateKey Waiting)|].
  by apply (holds_marker _ EmptyString).
Qed.

Lemma keeps_push_back job job_id p m : job_id ≠ id → marker_or_none q m →
  keeps P (push_back_waiting_job (redis_key q JobsKey) (redis_key q (StateKey Waiting)) job job_id p m).
Proof.
  intros Hne Hm. unfold push_back_waiting_job. keep; [by apply keeps_call, spares_hset|other (StateKey Waiting)|].
  by apply (holds_marker _ EmptyString).
Qed.

(** A record read from the job hash under [id] is the record held. *)
Lemma read_held d r : P d → hget (redis_key q JobsKey) id d = Ok r → r = Some raw.
Proof. intros [_ H]. rewrite H. by intros [= <-]. Qed.

Lemma is_text_eq v s : is_text v s = true → v = LString s.
Proof. destruct v; try done. simpl. by intros ->%String.eqb_eq. Qed.

Lemma state_active job state s : active_record raw → cjson_decode raw = Ok job → index job "state" = Ok state →
  is_text state s = true → s = "active".
Proof. intros (job' & Hj & Hs) Hd Hi Ht%is_text_eq. subst. rewrite Hj in Hd. injection Hd as <-. rewrite Hs in Hi. by injection Hi. Qed.

Lemma keeps_promotion KEYS ARGV m due_id : claim_tables q KEYS ARGV → active_record raw → marker_or_none q m →
  keeps P (promote_due KEYS ARGV m due_id).
Proof.
  intros H Ha Hm. unfold promote_due. tables H. apply keeps_bind_read. intros r d Hd Hr.
  apply keeps_bind; [apply keeps_do; other (StateKey Delayed)|]. intros _. destruct r as [r|]; [|apply keeps_ret].
  apply keeps_bind_value. intros job Hj. apply keeps_bind_value. intros state Hs. apply keeps_when. intros Ht.
  assert (due_id ≠ id).
  { intros ->. apply (read_held _ _ Hd) in Hr. injection Hr as ->. by pose proof (state_active _ _ _ Ha Hj Hs Ht). }
  keep; [by apply keeps_enqueue|other EventsKey].
Qed.

#[local] Hint Resolve keeps_limit keeps_limited keeps_paused_or_maxed : leases.

Lemma keeps_take KEYS ARGV limit job_id job : claim_tables q KEYS ARGV → job_id ≠ id → keeps P (take_job KEYS ARGV limit job_id job).
Proof.
  intros H Hne. unfold take_job. tables H. rewrite lock_key_is.
  apply keeps_bind; [apply keeps_do, keeps_call; by apply (spares_lock q id _ job_id)|]. intros _.
  apply keeps_bind; [apply (keeps_count q _ (holds_auxiliary q id token raw) KEYS ARGV); done|]. intros _.
  keep; [other (StateKey Waiting)|other (StateKey Active)|by apply keeps_call, spares_hset|other EventsKey|other MarkerKey].
Qed.

Lemma keeps_candidate KEYS ARGV limit job_id : claim_tables q KEYS ARGV → active_record raw →
  keeps P (try_candidate KEYS ARGV limit job_id).
Proof.
  intros H Ha. unfold try_candidate. tables H. apply keeps_bind_read. intros r d Hd Hr.
  destruct r as [r|]; [|keep; other (StateKey Waiting)].
  apply keeps_bind_value. intros job Hj. apply keeps_bind_value. intros state Hs.
  destruct (is_text state "waiting") eqn:Ht; [|keep; other (StateKey Waiting)].
  assert (job_id ≠ id).
  { intros ->. apply (read_held _ _ Hd) in Hr. injection Hr as ->. by pose proof (state_active _ _ _ Ha Hj Hs Ht). }
  apply keeps_bind; [by apply keeps_take|]. intros. apply keeps_ret.
Qed.

Lemma keeps_claim_script KEYS ARGV : claim_tables q KEYS ARGV → active_record raw → keeps P (CLAIM_SCRIPT KEYS ARGV).
Proof.
  intros H Ha. unfold CLAIM_SCRIPT. tables H. apply keeps_bind; [auto with leases|]. intros paused.
  apply keeps_bind_read. intros due d _ _.
  apply keeps_bind; [apply keeps_for_each; intros; apply keeps_promotion; [done..|]; destruct paused; [by left|by right]|]. intros _.
  apply keeps_bind; [apply holds_marker; by right|]. intros _.
  apply keeps_bind; [auto with leases|]. intros limit. apply keeps_bind; [auto with leases|]. intros limited.
  destruct limited; [apply keeps_ret|]. destruct paused; [apply keeps_ret|].
  apply keeps_bind_read. intros ids d' _ _. apply keeps_first_result. intros. by apply keeps_candidate.
Qed.

(** *** Renewing and giving back *)
Lemma keeps_renew_one KEYS ARGV job_id token' : at_ KEYS 1 = redis_key q JobsKey → at_ KEYS 2 = redis_key q (StateKey Active) →
  at_ KEYS 3 = redis_key q StalledKey → at_ ARGV 1 = redis_key q (LockKey EmptyString) →
  ¬ (job_id = id ∧ token' = token) → keeps P (renew_one KEYS ARGV job_id token').
Proof.
  intros K1 K2 K3 A1 Hne. unfold renew_one. rewrite K1, K2, K3, A1. cbn zeta. rewrite lock_key_is.
  apply keeps_bind_read. intros r d Hd _. destruct r as [r|]; [|apply keeps_ret].
  apply keeps_bind_value. intros job _. apply keeps_bind_value. intros state _.
  destruct (negb _); [apply keeps_ret|]. apply keeps_bind_read. intros score d' _ _.
  destruct (is_none score); [apply keeps_ret|]. apply keeps_bind_read. intros current d2 Hd2 Hc.
  destruct (decide (job_id = id)) as [->|Hid].
  - destruct Hd2 as [Hl _]. rewrite Hl in Hc. injection Hc as <-.
    destruct (String.eqb_spec token token') as [->|]; [by destruct Hne|apply keeps_ret].
  - keep; [apply keeps_call; by apply (spares_lock q id _ job_id)|other StalledKey|by apply keeps_call, spares_hset|other (StateKey Active)].
Qed.

Lemma keeps_renew_all KEYS ARGV pairs : at_ KEYS 1 = redis_key q JobsKey → at_ KEYS 2 = redis_key q (StateKey Active) →
  at_ KEYS 3 = redis_key q StalledKey → at_ ARGV 1 = redis_key q (LockKey EmptyString) →
  (id, token) ∉ pairs → keeps P (renew_all KEYS ARGV pairs).
Proof.
  intros K1 K2 K3 A1. induction pairs as [|[i t] pairs IH]; intros Hn; simpl; [apply keeps_ret|].
  rewrite not_elem_of_cons in Hn. destruct Hn as [Hi Hn].
  apply keeps_bind; [apply keeps_renew_one; try done; intros [-> ->]; by destruct Hi|]. intros ok.
  apply keeps_bind; [by apply IH|]. intros. apply keeps_ret.
Qed.

(** The guards refuse another token, and touch nothing of this lease. *)
Lemma keeps_owned job_id token' : active_record raw → ¬ (job_id = id ∧ token' = token) →
  keeps P (owned_job (redis_key q JobsKey) (redis_key q (StateKey Active)) (redis_key q (LockKey job_id)) (redis_key q StalledKey) job_id token').
Proof.
  intros Ha Hne. unfold owned_job. apply keeps_bind_read. intros r d Hd Hr. destruct (decide (job_id = id)) as [->|Hid].
  - apply (read_held _ _ Hd) in Hr as ->. destruct Ha as (job & Hj & Hs).
    apply keeps_bind_value. intros job' Hj'. rewrite Hj in Hj'. injection Hj' as <-.
    apply keeps_bind_value. intros state Hs'. rewrite Hs in Hs'. injection Hs' as <-. cbn [is_text String.eqb].
    change (negb (String.eqb "active" "active")) with false. cbv iota.
    apply keeps_bind_read. intros lock d2 [Hl _] Hlock. rewrite Hl in Hlock. injection Hlock as <-.
    destruct (String.eqb_spec token token') as [->|]; [by destruct Hne|apply keeps_ret].
  - keep; try (other (StateKey Active)); try (other StalledKey);
      try (apply keeps_call; by apply (spares_lock q id _ job_id)).
Qed.

(** With another job's lease a script goes on; with this one it was refused. *)
Lemma owned_other job_id token' : active_record raw → ¬ (job_id = id ∧ token' = token) →
  ∀ A (k : Lua → Script D A) (r : list string → Script D A), (job_id ≠ id → ∀ job, keeps P (k job)) → (∀ l, keeps P (r l)) →
  keeps P (let* owned := owned_job (redis_key q JobsKey) (redis_key q (StateKey Active)) (redis_key q (LockKey job_id))
                           (redis_key q StalledKey) job_id token' in
           match owned with inr l => r l | inl job => k job end).
Proof.
  intros Ha Hne A k r Hk Hr d Hd. unfold bind. pose proof (keeps_owned job_id token' Ha Hne d Hd) as Hd'.
  destruct (owned_job _ _ _ _ _ _ d) as [d' [[job|l]|e]] eqn:E; simpl in *; [|by apply Hr|done].
  destruct (decide (job_id = id)) as [->|Hid]; [|by apply Hk]. exfalso. clear Hd' Hk Hr.
  destruct Hd as [Hl Hj], Ha as (job' & Hdec & Hs). unfold owned_job, bind, read in E. rewrite Hj in E.
  unfold decode, getf, value in E. rewrite Hdec, Hs in E. change (negb (is_text (LString "active") "active")) with false in E.
  cbv beta iota in E. rewrite Hl in E. cbv beta iota in E. destruct (String.eqb_spec token token') as [->|]; [by destruct Hne|]. done.
Qed.
End preservation.

(** ** The calls of the methods *)
Section calls.
Context {X : Ext} {R : RedisExt} {L : LuaLibs} {D : Type} `{!Redis D, !RedisLaws D}.
Variables (q : RedisQueueName) (id token raw : string).
Abbreviation P := (holds q id token raw).

Ltac other k := apply keeps_call, (spares_other q id _ k); [reflexivity | split_and!; [reflexivity | discriminate | discriminate]].
#[local] Hint Resolve holds_sync holds_paused : leases.

Lemma claim_call_tables expires now worker t lease max window :
  let c := claim_next_call expires now worker t lease max window in claim_tables q (KEYS_of q c) (ARGV_of q c).
Proof. cbn zeta. by split. Qed.

Lemma marker_other : marker_or_none q (redis_key q MarkerKey).
Proof. by right. Qed.

Ltac call_tables := cbv [KEYS_of ARGV_of keys_of argv_of at_ last_key last numkeys arguments take drop fmap list_fmap arg_text
  nth Nat.sub unwrap_or delay_active_job_call release_active_job_call renew_lease_call].

Lemma keeps_delay job_id token' scheduled text : active_record raw → ¬ (job_id = id ∧ token' = token) →
  keeps P (eval_call q DELAY_ACTIVE_JOB_SCRIPT (delay_active_job_call job_id token' scheduled text)).
Proof.
  intros Ha Hne. unfold eval_call, DELAY_ACTIVE_JOB_SCRIPT, delay_owned.
  apply (owned_other q id token raw job_id token' Ha Hne); [|intros; apply keeps_ret]. intros Hid job.
  pose proof (holds_marker q id token raw _ (redis_key q (StateKey Delayed)) marker_other) as (_ & Hm & _).
  pose proof (holds_marker q id token raw _ (redis_key q (StateKey Waiting)) marker_other) as (_ & _ & Hw).
  call_tables. keep; [by apply keeps_call, spares_hset|other (StateKey Delayed)|other EventsKey].
Qed.

Lemma keeps_release_script job_id token' now : active_record raw → ¬ (job_id = id ∧ token' = token) →
  keeps P (eval_call q RELEASE_ACTIVE_JOB_SCRIPT (release_active_job_call job_id token' now)).
Proof.
  intros Ha Hne. unfold eval_call, RELEASE_ACTIVE_JOB_SCRIPT, release_owned.
  apply (owned_other q id token raw job_id token' Ha Hne); [|intros; apply keeps_ret]. intros Hid job.
  call_tables. keep; [by apply keeps_push_back, marker_other|other EventsKey].
Qed.

(** The single renewal: its job id is the name of the marker key. *)
Lemma keeps_renew job_id token' expires lease : id ≠ redis_key q MarkerKey → job_id ≠ id →
  keeps P (eval_call q RENEW_LEASE_SCRIPT (renew_lease_call job_id token' expires lease)).
Proof.
  intros Hm Hid. unfold eval_call, RENEW_LEASE_SCRIPT. call_tables.
  keep; [apply keeps_call; by apply (spares_lock q id _ job_id)|other StalledKey|by apply keeps_call, spares_hset|other (StateKey Active)].
Qed.

Lemma keeps_renewals expires lease renewals : (id, token) ∉ ((λ r, (rn_job_id r, rn_lock_token r)) <$> renewals) →
  keeps P (eval_call q RENEW_LEASES_SCRIPT (renew_leases_call expires lease renewals)).
Proof.
  intros Hn. unfold eval_call, RENEW_LEASES_SCRIPT. apply keeps_renew_all; [reflexivity..|].
  assert (chunks_of_two (drop 5 (ARGV_of q (renew_leases_call expires lease renewals)))
          = ((λ r, (rn_job_id r, rn_lock_token r)) <$> renewals)) as ->.
  { unfold ARGV_of, argv_of, renew_leases_call. cbn [numkeys arguments app drop]. rewrite !fmap_cons. cbn [drop]. rewrite drop_0.
    induction renewals as [|r l IH]; [done|]. cbn [flat_map app]. rewrite !fmap_cons. cbn [chunks_of_two arg_text].
    rewrite IH; [done|]. rewrite fmap_cons in Hn. by apply not_elem_of_cons in Hn as [_ Hn]. }
  intros H. apply Hn. by apply (subseteq_take (Z.to_nat _) _) in H.
Qed.
End calls.

(** ** Sequences of calls *)
Section exclusive.
Context {X : Ext} {R : RedisExt} {L : LuaLibs} {D : Type} `{!Redis D, !RedisLaws D}.
Variable q : RedisQueueName.

(** The methods that move leases, with the token a claim draws. *)
Inductive LeaseOp : Type :=
| OpClaimRedis (rate_limit : option JobRateLimit) (worker_id : string) (lease_for : Duration) (now : DateTime) (lock_token : string)
| OpRenewLease (job_id lock_token : string) (lease_for : Duration) (now : DateTime)
| OpRenewLeases (renewals : list JobLeaseRenewal) (lease_for : Duration) (now : DateTime)
| OpDelayActive (job_id lock_token : string) (delay : Duration) (delay_text : string) (now : DateTime)
| OpReleaseActive (job_id lock_token : string) (now : DateTime).

Definition run_lease_op (d : D) (op : LeaseOp) : D :=
  match op with
  | OpClaimRedis rate worker lease now token => (claim_next_with_conn q rate worker lease now token d).1
  | OpRenewLease id token lease now => (renew_lease q id token lease now d).1
  | OpRenewLeases renewals lease now => (renew_leases q renewals lease now d).1
  | OpDelayActive id token delay text now => (delay_active_job q id token delay text now d).1
  | OpReleaseActive id token now => (release_active_job q id token now d).1
  end.

(** The call names the job and, where the script reads it, its token. *)
Definition presents (op : LeaseOp) (id token : string) : Prop :=
  match op with
  | OpClaimRedis _ _ _ _ _ => False
  | OpRenewLease id' _ _ _ => id' = id
  | OpRenewLeases renewals _ _ => (id, token) ∈ ((λ r, (rn_job_id r, rn_lock_token r)) <$> renewals)
  | OpDelayActive id' token' _ _ _ | OpReleaseActive id' token' _ => id' = id ∧ token' = token
  end.

Lemma query_state {A B} (m : Script D A) (k : A → Reply B) d : (query m k d).1 = (m d).1.
Proof. unfold query. by destruct (m d) as [d' [a|e]]. Qed.

Lemma op_keeps_lease op id token raw d : id ≠ redis_key q MarkerKey → active_record raw → ¬ presents op id token →
  holds q id token raw d → holds q id token raw (run_lease_op d op).
Proof.
  intros Hm Ha Hp Hd. destruct op as [rate worker lease now t|job_id t lease now|renewals lease now|job_id t delay text now|job_id t now];
    cbn [run_lease_op presents] in *.
  - unfold claim_next_with_conn. rewrite query_state. apply keeps_claim_script; [apply claim_call_tables|done|done].
  - unfold renew_lease. rewrite query_state. by apply keeps_renew.
  - unfold renew_leases. destruct renewals as [|r l]; [done|]. rewrite query_state. by apply keeps_renewals.
  - unfold delay_active_job. rewrite query_state. by apply keeps_delay.
  - unfold release_active_job. rewrite query_state. by apply keeps_release_script.
Qed.

Lemma ops_keep_lease ops id token raw d : id ≠ redis_key q MarkerKey → active_record raw →
  Forall (λ op, ¬ presents op id token) ops → holds q id token raw d → holds q id token raw (foldl run_lease_op d ops).
Proof.
  intros Hm Ha Hops Hd. revert d Hd. induction Hops as [|op ops Hop _ IH]; intros d Hd; [done|].
  apply IH. by apply op_keeps_lease.
Qed.

(** A lease in Redis is safe: while a job is active under a token, no
    sequence of claims, renewals, delays and releases that do not present that
    token changes its lock or its record, even when scripts stop halfway with
    an error. *)
Theorem redis_leases_exclusive ops id token raw d : id ≠ redis_key q MarkerKey → active_record raw →
  Forall (λ op, ¬ presents op id token) ops →
  get (redis_key q (LockKey id)) d = Ok (Some token) → hget (redis_key q JobsKey) id d = Ok (Some raw) →
  get (redis_key q (LockKey id)) (foldl run_lease_op d ops) = Ok (Some token) ∧
  hget (redis_key q JobsKey) id (foldl run_lease_op d ops) = Ok (Some raw).
Proof. intros Hm Ha Hops Hl Hj. by apply ops_keep_lease. Qed.

(** C35: renewing one lease never succeeds: whatever the job, its token and its
    state, the script looks for a job named like the marker key and the caller
    is told that its job does not exist; nothing is renewed. *)
Theorem single_renewal_fails id token lease now d :
  hget (redis_key q JobsKey) (redis_key q MarkerKey) d = Ok None →
  renew_lease q id token lease now d = (d, fail (JobNotFound id)).
Proof.
  intros H. unfold renew_lease, query, eval_call, RENEW_LEASE_SCRIPT, bind, read.
  cbv [KEYS_of ARGV_of keys_of argv_of at_ numkeys arguments take drop fmap list_fmap arg_text nth Nat.sub renew_lease_call].
  rewrite H. reflexivity.
Qed.
End exclusive.

(** ** What a claim gives *)
Lemma bind_run {D A B} (m : Script D A) (k : A → Script D B) d d' b :
  bind m k d = (d', Ok b) → ∃ d1 a, m d = (d1, Ok a) ∧ k a d1 = (d', Ok b).
Proof. unfold bind. destruct (m d) as [d1 [a|e]]; [by exists d1, a|done]. Qed.

Lemma keeps_run {D A} (P : D → Prop) (m : Script D A) d d' a : keeps P m → m d = (d', Ok a) → P d → P d'.
Proof. intros Hm E Hd. specialize (Hm d Hd). by rewrite E in Hm. Qed.

Lemma do_run {D} `{!Redis D} c d d' u : do_ c d = (d', Ok u) → ∃ r, exec c d = (d', Ok r).
Proof. intros (d1 & r & H & [= <- _])%bind_run. by exists r. Qed.

Lemma value_run {D A} (r : outcome string A) (d d' : D) a : value r d = (d', Ok a) → d' = d ∧ r = Ok a.
Proof. by intros [= <- ->]. Qed.

Lemma assoc_set_same k v l : assoc k (assoc_set k v l) = v.
Proof.
  induction l as [|[k' v'] l IH]; simpl; [by rewrite String.eqb_refl|].
  destruct (String.eqb k k') eqn:E; simpl; [by rewrite String.eqb_refl|]. by rewrite E.
Qed.

Lemma assoc_set_other k k' v l : k' ≠ k → assoc k' (assoc_set k v l) = assoc k' l.
Proof.
  intros Hne. induction l as [|[k2 v2] l IH]; simpl; [by destruct (String.eqb_spec k' k)|].
  destruct (String.eqb_spec k k2) as [->|]; simpl; [by destruct (String.eqb_spec k' k2)|].
  by rewrite IH.
Qed.

Lemma set_index_same t k v t' : set_index t k v = Ok t' → index t' k = Ok v.
Proof. destruct t; try done. intros [= <-]. simpl. by rewrite assoc_set_same. Qed.
Lemma set_index_other t k k' v t' : set_index t k v = Ok t' → k' ≠ k → index t' k' = index t k'.
Proof. destruct t; try done. intros [= <-] Hne. simpl. by rewrite assoc_set_other. Qed.

Lemma set_fields_other {D} l : ∀ t t' k (d d' : D), set_fields l t d = (d', Ok t') → k ∉ l.*1 → d' = d ∧ index t' k = index t k.
Proof.
  induction l as [|[k2 v] l IH]; intros t t' k d d' H Hk; simpl in H; [by injection H as <- <-|].
  apply bind_run in H as (d1 & t1 & [-> H1]%value_run & H2). rewrite fmap_cons in Hk. apply not_elem_of_cons in Hk as [Hk Hl].
  destruct (IH _ _ _ _ _ H2 Hl) as [-> ->]. split; [done|]. by eapply set_index_other.
Qed.

Lemma set_fields_first {D} k v l t t' (d d' : D) :
  set_fields ((k, v) :: l) t d = (d', Ok t') → k ∉ l.*1 → index t' k = Ok v.
Proof.
  intros (d1 & t1 & [-> H1]%value_run & H2)%bind_run Hk. apply (set_fields_other _ _ _ k) in H2 as [_ ->]; [|done].
  by eapply set_index_same.
Qed.

Section claiming.
Context {X : Ext} {R : RedisExt} {L : LuaLibs} {D : Type} `{!Redis D, !RedisLaws D, !LuaLaws L}.
Variable q : RedisQueueName.

(** The lease of [id], and the sets it is listed in. *)
Definition listed_active (id : string) (d : D) : Prop :=
  zscore (redis_key q (StateKey Waiting)) id d = Ok None ∧ ∃ s, zscore (redis_key q (StateKey Active)) id d = Ok (Some s).

Lemma untouched c k p k' : command_key c = redis_key q k → place_key p = redis_key q k' → parent_of k = None →
  parent_of k' = None → k ≠ k' → ¬ touches c p.
Proof. intros Hc Hp H H' Hne Ht%touches_key. rewrite Hc, Hp in Ht. by apply key_inj in Ht. Qed.

Ltac away k k' := apply (untouched _ k _ k'); [reflexivity|reflexivity|reflexivity|reflexivity|discriminate].

Lemma keeps_lock_auxiliary id token c k : command_key c = redis_key q k → auxiliary k →
  keeps (λ d, get (redis_key q (LockKey id)) d = Ok (Some token)) (call c).
Proof.
  intros Hc Hk d Hd. unfold call. rewrite frame_string; [done|]. apply (untouched c k _ (LockKey id)); try done; by destruct k.
Qed.

Lemma keeps_lease_auxiliary id token raw c k : command_key c = redis_key q k → auxiliary k →
  keeps (λ d, holds q id token raw d ∧ listed_active id d) (call c).
Proof.
  intros Hc Hk d [Hd [Hw Ha]]. split; [by apply (holds_auxiliary q id token raw c k)|]. unfold call.
  split; rewrite frame_member; try done; [apply (untouched c k _ (StateKey Waiting))|apply (untouched c k _ (StateKey Active))];
    try done; by destruct k.
Qed.

Lemma taken KEYS ARGV limit id job d d' updated : claim_tables q KEYS ARGV →
  take_job KEYS ARGV limit id job d = (d', Ok updated) →
  holds q id (at_ ARGV 5) updated d' ∧ listed_active id d' ∧ active_record updated.
Proof.
  intros H E. unfold take_job in E. revert E. tables H. rewrite lock_key_is. intros E.
  apply bind_run in E as (d1 & u1 & [r1 E1]%do_run & E).
  apply bind_run in E as (d2 & u2 & E2 & E). apply bind_run in E as (d3 & attempts & E3 & E).
  apply bind_run in E as (d4 & job' & E4 & E). apply bind_run in E as (d5 & up & E5 & E).
  apply bind_run in E as (d6 & u6 & [r6 E6]%do_run & E). apply bind_run in E as (d7 & u7 & [r7 E7]%do_run & E).
  apply bind_run in E as (d8 & u8 & [r8 E8]%do_run & E).
  set (P1 := λ d : D, get (redis_key q (LockKey id)) d = Ok (Some (at_ ARGV 5))).
  assert (P1 d5) as L5.
  { apply (keeps_run P1 _ _ _ _ (keeps_encode P1 job') E5), (keeps_run P1 _ _ _ _ (keeps_set_fields P1 _ _) E4),
      (keeps_run P1 _ _ _ _ (keeps_next_attempt P1 _) E3),
      (keeps_run P1 _ _ _ _ (keeps_count q P1 (keeps_lock_auxiliary id _) KEYS ARGV limit H) E2).
    by apply set_string in E1. }
  assert (get (redis_key q (LockKey id)) d8 = Ok (Some (at_ ARGV 5))) as L8.
  { replace d8 with (exec (HSET (redis_key q JobsKey) [(id, LString up)]) d7).1 by (by rewrite E8).
    rewrite frame_string by away JobsKey (LockKey id).
    replace d7 with (exec (ZADD (redis_key q (StateKey Active)) (LString (at_ ARGV 1)) id) d6).1 by (by rewrite E7).
    rewrite frame_string by away (StateKey Active) (LockKey id).
    replace d6 with (exec (ZREM (redis_key q (StateKey Waiting)) id) d5).1 by (by rewrite E6).
    by rewrite frame_string by away (StateKey Waiting) (LockKey id). }
  assert (zscore (redis_key q (StateKey Waiting)) id d8 = Ok None) as W8.
  { replace d8 with (exec (HSET (redis_key q JobsKey) [(id, LString up)]) d7).1 by (by rewrite E8).
    rewrite frame_member by away JobsKey (StateKey Waiting).
    replace d7 with (exec (ZADD (redis_key q (StateKey Active)) (LString (at_ ARGV 1)) id) d6).1 by (by rewrite E7).
    rewrite frame_member by away (StateKey Active) (StateKey Waiting). by eapply zrem_member. }
  assert (∃ s, zscore (redis_key q (StateKey Active)) id d8 = Ok (Some s)) as A8.
  { replace d8 with (exec (HSET (redis_key q JobsKey) [(id, LString up)]) d7).1 by (by rewrite E8).
    rewrite frame_member by away JobsKey (StateKey Active). by eapply zadd_member. }
  set (P2 := λ d : D, holds q id (at_ ARGV 5) up d ∧ listed_active id d).
  assert (P2 d8) as Hd8 by (split; [split; [done|by eapply hset_field]|done]).
  pose proof (keeps_lease_auxiliary id (at_ ARGV 5) up) as Haux. fold P2 in Haux.
  assert (P2 d' ∧ updated = up) as [[Hh Hl] ->].
  { apply bind_run in E as (d9 & sched & E9 & E). apply bind_run in E as (d10 & u10 & E10 & E).
    apply bind_run in E as (d11 & u11 & E11 & E). apply bind_run in E as (d12 & u12 & E12 & [= <- <-]). split; [|done].
    assert (P2 d9) by (refine (keeps_run P2 _ _ _ _ _ E9 _); [apply keeps_scheduled|done]).
    assert (P2 d10) by (refine (keeps_run P2 _ _ _ _ _ E10 _); [by apply keeps_sync|done]).
    assert (P2 d11) by (refine (keeps_run P2 _ _ _ _ _ E11 _); [apply keeps_do, (Haux _ EventsKey); [reflexivity|exact I]|done]).
    refine (keeps_run P2 _ _ _ _ _ E12 _); [apply keeps_do, (Haux _ MarkerKey); [reflexivity|exact I]|done]. }
  split_and!; [done..|]. apply value_run in E5 as [_ E5]. destruct (cjson_texts _ _ E5) as (t & Ht & Hs). exists t. split; [done|].
  apply Hs. apply set_fields_first in E4; [done|]. cbn. rewrite !not_elem_of_cons. split_and!; try done. apply not_elem_of_nil.
Qed.

Definition leased (token updated : string) (d : D) : Prop :=
  ∃ id, holds q id token updated d ∧ listed_active id d ∧ active_record updated.

Lemma candidate_leased KEYS ARGV limit id d d' updated : claim_tables q KEYS ARGV →
  try_candidate KEYS ARGV limit id d = (d', Ok (Some updated)) → leased (at_ ARGV 5) updated d'.
Proof.
  intros H (d1 & raw & _ & E)%bind_run. destruct raw as [raw|]; [|by apply bind_run in E as (? & ? & _ & [=])].
  apply bind_run in E as (d2 & job & _ & E). apply bind_run in E as (d3 & state & _ & E).
  destruct (is_text state "waiting"); [|by apply bind_run in E as (? & ? & _ & [=])].
  apply bind_run in E as (d4 & up & E & [= <- <-]). exists id. by apply (taken KEYS ARGV limit id job d3).
Qed.

Lemma first_leased KEYS ARGV limit ids d d' updated : claim_tables q KEYS ARGV →
  first_result ids (try_candidate KEYS ARGV limit) d = (d', Ok (Some updated)) → leased (at_ ARGV 5) updated d'.
Proof.
  intros H. revert d. induction ids as [|id ids IH]; intros d; [done|]. simpl.
  intros (d1 & r & E & E')%bind_run. destruct r as [b|]; [|by apply IH in E'].
  injection E' as <- <-. by apply candidate_leased in E.
Qed.

Lemma claim_leased KEYS ARGV d d' updated : claim_tables q KEYS ARGV →
  CLAIM_SCRIPT KEYS ARGV d = (d', Ok (Some updated)) → leased (at_ ARGV 5) updated d'.
Proof.
  intros H (d1 & paused & _ & E)%bind_run. apply bind_run in E as (d2 & due & _ & E).
  apply bind_run in E as (d3 & u3 & _ & E). apply bind_run in E as (d4 & u4 & _ & E).
  apply bind_run in E as (d5 & limit & _ & E). apply bind_run in E as (d6 & limited & _ & E).
  destruct limited; [done|]. destruct paused; [done|]. apply bind_run in E as (d7 & ids & _ & E). by apply first_leased in E.
Qed.

(** C31: a claim that returns a job has given its lease: in the state it leaves,
    the lock of the job holds the token of this claim, its record says active,
    and it is listed among the active jobs and no longer among the waiting
    ones.  A job that was held under another token is never the one returned. *)
Theorem redis_claim_gives_lease rate worker lease now token d d' job :
  claim_next_with_conn q rate worker lease now token d = (d', Ok (Some job)) →
  ∃ id updated, get (redis_key q (LockKey id)) d' = Ok (Some token) ∧
    hget (redis_key q JobsKey) id d' = Ok (Some updated) ∧ active_record updated ∧
    zscore (redis_key q (StateKey Waiting)) id d' = Ok None ∧
    (∃ s, zscore (redis_key q (StateKey Active)) id d' = Ok (Some s)) ∧
    (∃ j, decode_job updated = Ok j ∧ job = j <| job_lock_token := Some token |>) ∧
    (∀ id0 token0 raw0, get (redis_key q (LockKey id0)) d = Ok (Some token0) →
       hget (redis_key q JobsKey) id0 d = Ok (Some raw0) → active_record raw0 → token0 ≠ token → id0 ≠ id).
Proof.
  unfold claim_next_with_conn, query. cbn zeta. set (m := eval_call _ _ _). destruct (m d) as [d1 [raw|e]] eqn:E; [|done].
  destruct raw as [raw|]; [|done]. intros H. assert (d1 = d') as -> by (by injection H).
  assert (∃ j, decode_job raw = Ok j ∧ job = with_token token j) as Hj.
  { destruct (decode_job raw) as [j|e]; [|done]. injection H as <-. by exists j. }
  destruct (claim_leased _ _ _ _ _ (claim_call_tables q _ _ _ _ _ _ _) E) as (id & [Hl Hr] & [Hw Ha] & Hact).
  exists id, raw. split_and!; try done. intros id0 token0 raw0 Hl0 Hr0 Ha0 Hne ->. apply Hne.
  pose proof (keeps_claim_script q id token0 raw0 _ _ (claim_call_tables q (add_duration now lease) now worker token lease
    (match rate with Some l => (max_claims l, Z.max (duration_millis (rate_window l)) 1) | None => (0, 0) end).1
    (match rate with Some l => (max_claims l, Z.max (duration_millis (rate_window l)) 1) | None => (0, 0) end).2)
    Ha0 d (conj Hl0 Hr0)) as [Hk _].
  change (CLAIM_SCRIPT _ _ d) with (m d) in Hk. rewrite E in Hk. cbn [fst] in Hk.
  change (at_ _ 5) with token in Hl. rewrite Hl in Hk. by injection Hk.
Qed.
End claiming.
