(* ===== verification/RedisFinish.v ===== *)
(** * What the scripts that end a job share ([src/job/redis.rs])

    [COMPLETE_SCRIPT] and [FAIL_SCRIPT] contain the same local functions: the
    release of a deduplication id and of a repeat key, the retention of
    finished jobs, the submission of the job parked behind a deduplication
    owner, the metrics and the release of a parent.  They are given once, with
    the lines of the first script. *)
From S2P Require Import Prelude Ordering Text Float64 External JobTypes FloatOrder LuaDates RedisKeys RedisCalls RedisLua RedisLeases.
Local Open Scope Z_scope.

(** The keys and arguments both scripts have, at different positions; the
    prefixes are the arguments to which the scripts append an id. *)
Record FinishArgs := mkFinishArgs {
  fa_jobs : string; fa_active : string; fa_waiting : string; fa_waiting_children : string; fa_delayed : string;
  fa_failed : string; fa_sequence : string; fa_events : string; fa_marker : string;
  fa_failed_metrics : string; fa_failed_data : string;
  fa_dependencies : string; fa_deduplication : string; fa_deduplication_next : string; fa_repeat : string; fa_logs : string;
  fa_now_iso : string; fa_now_millis : string; fa_max_events : string; fa_max_points : string;
}.

Definition complete_args (KEYS ARGV : list string) : FinishArgs := {|
  fa_jobs := at_ KEYS 1; fa_active := at_ KEYS 2; fa_waiting := at_ KEYS 5; fa_waiting_children := at_ KEYS 6;
  fa_delayed := at_ KEYS 9; fa_failed := at_ KEYS 8; fa_sequence := at_ KEYS 7; fa_events := at_ KEYS 10;
  fa_marker := last_key KEYS; fa_failed_metrics := at_ KEYS 14; fa_failed_data := at_ KEYS 15;
  fa_dependencies := at_ ARGV 13; fa_deduplication := at_ ARGV 14; fa_deduplication_next := at_ ARGV 16;
  fa_repeat := at_ ARGV 15; fa_logs := at_ ARGV 17; fa_now_iso := at_ ARGV 3; fa_now_millis := at_ ARGV 5;
  fa_max_events := at_ ARGV 18; fa_max_points := at_ ARGV 19 |}.

Definition fail_args (KEYS ARGV : list string) : FinishArgs := {|
  fa_jobs := at_ KEYS 1; fa_active := at_ KEYS 2; fa_waiting := at_ KEYS 7; fa_waiting_children := at_ KEYS 6;
  fa_delayed := at_ KEYS 3; fa_failed := at_ KEYS 4; fa_sequence := at_ KEYS 8; fa_events := at_ KEYS 9;
  fa_marker := last_key KEYS; fa_failed_metrics := at_ KEYS 11; fa_failed_data := at_ KEYS 12;
  fa_dependencies := at_ ARGV 10; fa_deduplication := at_ ARGV 11; fa_deduplication_next := at_ ARGV 14;
  fa_repeat := at_ ARGV 12; fa_logs := at_ ARGV 15; fa_now_iso := at_ ARGV 3; fa_now_millis := at_ ARGV 8;
  fa_max_events := at_ ARGV 16; fa_max_points := at_ ARGV 17 |}.

Section finish.
Context {L : LuaLibs} {D : Type} `{!Redis D}.

(** ** Values *)
Definition is_true (v : Lua) : bool := match v with LBool true => true | _ => false end.
Definition present (v : Lua) : option Lua := if truthy v && not_null v then Some v else None.
Definition number_of (v : Lua) : f64 := match v with LNumber x => x | _ => f64_zero end.

(** Arithmetic on a text or number that is none stops the script. *)
Definition arith (x : option f64) : Script D f64 :=
  match x with Some x => ret x | None => raise "attempt to perform arithmetic on a nil value" end.

Definition text (v : Lua) : Script D string := value (to_text v).

(** [ipairs(v)], and [v or {}] before it. *)
Definition items_of (v : Lua) : Script D (list Lua) :=
  match v with LTable items _ => ret items | _ => raise "bad argument to 'ipairs' (table expected)" end.

(** [tonumber(v or '0') or 0]. *)
Definition number_or_zero (v : Lua) : f64 := unwrap_or (tonumber (lua_or v (LString "0"))) f64_zero.

Fixpoint collect {A B} (l : list A) (f : A → Script D B) : Script D (list B) :=
  match l with
  | [] => ret []
  | a :: l' => let* b := f a in let* bs := collect l' f in ret (b :: bs)
  end.

(** [job["options"][name]]. *)
Definition option_field (job : Lua) (name : string) : Script D Lua :=
  let* options := options_of job in
  match options with Some o => getf o name | None => ret LNil end.

Definition option_flag (job : Lua) (name : string) : Script D bool :=
  let* v := option_field job name in ret (is_true v).

Definition optional_field (t : Lua) (name : string) : Script D (option Lua) :=
  let* v := getf t name in ret (present v).

Definition duration_millis_of (duration : Lua) : Script D (option f64) :=
  match present duration with
  | None => ret None
  | Some (LNumber x) => ret (Some (f64_floor x))
  | Some d =>
      let* millis := every_millis d in
      ret (if f64_le millis f64_zero then None else Some millis)
  end.

Definition emit (a : FinishArgs) (fields : list string) : Script D unit :=
  do_ (XADD (fa_events a) (fa_max_events a) fields).

(** ** Deduplication *)
Definition deduplication_of (job : Lua) : Script D (option Lua) :=
  let* v := option_field job "deduplication" in ret (present v).

Definition deduplication_id (job : Lua) : Script D (option string) :=
  let* deduplication := deduplication_of job in
  match deduplication with
  | None => ret None
  | Some d =>
      let* id := getf d "id" in
      if negb (truthy id) || negb (not_null id) || is_text id EmptyString then ret None
      else let* id := text id in ret (Some id)
  end.

Definition deduplication_ttl_millis (job : Lua) : Script D (option f64) :=
  let* deduplication := deduplication_of job in
  match deduplication with
  | None => ret None
  | Some d =>
      let* keep := getf d "keep_last_if_active" in
      if is_true keep then ret None
      else let* ttl := getf d "ttl" in duration_millis_of ttl
  end.

Definition is_owner (owner : option string) (job_id : string) : bool :=
  match owner with Some o => String.eqb o job_id | None => false end.

Definition release_deduplication_key_on_finalization (job : Lua) (job_id deduplication_prefix : string) : Script D unit :=
  let* id := deduplication_id job in
  match id with
  | None => ret tt
  | Some id =>
      let key := deduplication_prefix +:+ id in
      let* ttl := read (pttl key) in
      if ttl =? 0 then do_ (DEL key)
      else if ttl =? -1 then
        let* owner := read (get key) in
        when (is_owner owner job_id) (do_ (DEL key))
      else ret tt
  end.

Definition set_deduplication_key (job : Lua) (job_id deduplication_prefix : string) : Script D unit :=
  let* id := deduplication_id job in
  match id with
  | None => ret tt
  | Some id =>
      let* ttl := deduplication_ttl_millis job in
      match ttl with
      | Some ttl => do_ (SET (deduplication_prefix +:+ id) job_id (lua_text ttl))
      | None => do_ (SETPLAIN (deduplication_prefix +:+ id) job_id)
      end
  end.

(** ** Repeated jobs *)
Definition store_repeat_scheduler (job : Lua) (job_id repeat_prefix : string) (scheduled_millis : Lua) : Script D unit :=
  let* key := repeat_key job in
  match key with
  | None => ret tt
  | Some key =>
      write_repeat_scheduler job job_id key repeat_prefix (repeat_scheduler_meta_key repeat_prefix key) scheduled_millis
  end.

Definition set_repeat_key (job : Lua) (job_id repeat_prefix : string) (scheduled_millis : Script D Lua) : Script D unit :=
  let* key := repeat_key job in
  match key with
  | None => ret tt
  | Some key =>
      do_ (SETPLAIN (repeat_prefix +:+ key) job_id) ;;;
      let* scheduled_millis := scheduled_millis in
      store_repeat_scheduler job job_id repeat_prefix scheduled_millis
  end.

Definition release_repeat_key (job : Lua) (job_id repeat_prefix : string) : Script D unit :=
  let* key := repeat_key job in
  match key with
  | None => ret tt
  | Some key =>
      let owner_key := repeat_prefix +:+ key in
      let* owner := read (get owner_key) in
      let owner_matches := is_owner owner job_id in
      when owner_matches (do_ (DEL owner_key)) ;;;
      let scheduler_meta_key := repeat_scheduler_meta_key repeat_prefix key in
      let* scheduler_owner_id := read (hget scheduler_meta_key "jid") in
      when (match scheduler_owner_id with Some o => String.eqb o job_id | None => owner_matches end)
        (do_ (ZREM (repeat_scheduler_key repeat_prefix) key) ;;; do_ (DEL scheduler_meta_key))
  end.

(** ** Retention of finished jobs *)
Definition remove_at_once : Lua := LTable [] [("count", number 0)].

Definition retention_options (job : Lua) (remove_field retention_field : string) (legacy_remove : bool) : Script D Lua :=
  if legacy_remove then ret remove_at_once
  else
    let* options := options_of job in
    match options with
    | None => ret LNil
    | Some o =>
        let* remove := getf o remove_field in
        if is_true remove then ret remove_at_once
        else let* retention := getf o retention_field in
             ret (match present retention with Some r => r | None => LNil end)
    end.

Definition retention_count (retention : Lua) : Script D (option f64) :=
  match present retention with
  | None => ret None
  | Some r =>
      let* count := getf r "count" in
      ret (match count with LNil | LNull => None | c => tonumber c end)
  end.

Definition retention_age_millis (retention : Lua) : Script D (option f64) :=
  match present retention with
  | None => ret None
  | Some r =>
      let* age := getf r "age" in
      let* age := duration_millis_of age in
      ret (opt_filter positive_number age)
  end.

Definition retention_limit (retention : Lua) : Script D f64 :=
  match present retention with
  | None => ret (f64_of_Z 1000)
  | Some r =>
      let* limit := getf r "limit" in
      let limit := unwrap_or (tonumber (lua_or limit (LString "1000"))) (f64_of_Z 1000) in
      ret (if f64_le limit f64_zero then f64_of_Z 1000 else limit)
  end.

Definition remove_dependency_keys (dependency_prefix job_id : string) : Script D unit :=
  do_ (DEL (dependency_prefix +:+ job_id)) ;;;
  do_ (DEL (dependency_prefix +:+ job_id +:+ ":processed")) ;;;
  do_ (DEL (dependency_prefix +:+ job_id +:+ ":failed")) ;;;
  do_ (DEL (dependency_prefix +:+ job_id +:+ ":unsuccessful")).

Definition remove_finished_job (a : FinishArgs) (job_id : string) : Script D unit :=
  let* raw := read (hget (fa_jobs a) job_id) in
  match raw with
  | Some raw => let* removed := decode raw in release_repeat_key removed job_id (fa_repeat a)
  | None => ret tt
  end ;;;
  do_ (HDEL (fa_jobs a) job_id) ;;;
  remove_dependency_keys (fa_dependencies a) job_id ;;;
  do_ (DEL (fa_logs a +:+ job_id)).

Definition remove_finished_jobs_by_max_age (a : FinishArgs) (retention : Lua) (target_set : string) : Script D unit :=
  let* max_age := retention_age_millis retention in
  match max_age with
  | None => ret tt
  | Some max_age =>
      let* max_limit := retention_limit retention in
      let* timestamp := arith (lua_strtod (fa_now_millis a)) in
      let start := LNumber (f64_sub timestamp max_age) in
      let* job_ids := read (zrevrangebyscore target_set start (LNumber max_limit)) in
      for_each job_ids (remove_finished_job a) ;;;
      let found := Z.of_nat (length job_ids) in
      when (0 <? found)
        (if f64_lt (f64_of_Z found) max_limit then do_ (ZREMRANGEBYSCORE target_set start)
         else for_each job_ids (λ id, do_ (ZREM target_set id)))
  end.

Definition remove_finished_jobs_by_max_count (a : FinishArgs) (max_count : option f64) (target_set : string) : Script D unit :=
  match opt_filter (λ n, negb (f64_le n f64_zero)) max_count with
  | None => ret tt
  | Some n =>
      let* job_ids := read (zrevrange target_set (LNumber n)) in
      for_each job_ids (remove_finished_job a) ;;;
      do_ (ZREMRANGEBYRANK target_set (LNumber (f64_neg (f64_add n f64_one))))
  end.

Definition apply_finished_retention (a : FinishArgs) (retention : Lua) (target_set : string) : Script D unit :=
  match present retention with
  | None => ret tt
  | Some retention =>
      remove_finished_jobs_by_max_age a retention target_set ;;;
      let* max_count := retention_count retention in
      remove_finished_jobs_by_max_count a max_count target_set
  end.

(** A finished job is kept under its state, or removed. *)
Definition is_zero (x : option f64) : bool := match x with Some x => SFeqb x f64_zero | None => false end.

Definition settle_finished (a : FinishArgs) (target_set job_id : string) (encoded : Script D string) (retention : Lua) : Script D unit :=
  let* max_count := retention_count retention in
  if is_zero max_count then remove_finished_job a job_id
  else
    let* updated := encoded in
    do_ (HSET (fa_jobs a) [(job_id, LString updated)]) ;;;
    do_ (ZADD target_set (LString (fa_now_millis a)) job_id) ;;;
    apply_finished_retention a retention target_set.

(** ** The job parked behind a deduplication owner *)

(** What [repeat_keep_last_next_count] returns: nil, false or a count. *)
Inductive NextCount : Type := NoSeries | OtherSeries | Occurrence (n : f64).

Definition repeat_keep_last_next_count (owner_job next_job : Lua) : Script D NextCount :=
  let* next_repeat_key := repeat_key next_job in
  let* owner_repeat_key := repeat_key owner_job in
  match next_repeat_key with
  | None => ret (if is_some owner_repeat_key then OtherSeries else NoSeries)
  | Some next_key =>
      if negb (is_owner owner_repeat_key next_key) then ret OtherSeries
      else
        let* repeat_count := getf owner_job "repeat_count" in
        let next_count := f64_add (number_or_zero repeat_count) f64_one in
        let* repeat_options := option_field owner_job "repeat" in
        match present repeat_options with
        | None => ret (Occurrence next_count)
        | Some options =>
            let* limit := getf options "limit" in
            let limit := number_or_zero limit in
            ret (if positive_number limit && f64_le limit next_count then OtherSeries else Occurrence next_count)
        end
  end.

Definition iso (x : f64) : Lua := LString (millis_to_iso (floor_Z x)).

Definition prepare_deduplicated_next_job (a : FinishArgs) (job : Lua) : Script D (Lua * f64) :=
  let* now_value := arith (lua_strtod (fa_now_millis a)) in
  let* delay := option_field job "delay" in
  let* delay := duration_millis_of delay in
  let scheduled_millis := match delay with Some d => f64_add now_value d | None => now_value end in
  let* job := set_fields
    [("created_at", LString (fa_now_iso a)); ("scheduled_at", iso scheduled_millis);
     ("state", LString (if f64_lt now_value scheduled_millis then "delayed" else "waiting"));
     ("attempts_made", number 0); ("stalled_count", number 0); ("processed_at", LNull); ("finished_at", LNull);
     ("worker_id", LNull); ("lock_token", LNull); ("lease_expires_at", LNull); ("deferred_failure", LNull);
     ("failed_reason", LNull); ("return_value", LNull); ("progress", LNull); ("logs", empty_table)] job in
  let* ttl := deduplication_ttl_millis job in
  let* job := set_field "deduplication_expires_at"
                (match ttl with Some t => iso (f64_add now_value t) | None => LNull end) job in
  ret (job, scheduled_millis).

Definition enqueue_prepared_job (a : FinishArgs) (job : Lua) (job_id : string) (scheduled_millis : f64) : Script D unit :=
  let* state := getf job "state" in
  if is_text state "waiting" then
    let* priority := priority_of_job job in
    enqueue_waiting_job (fa_jobs a) (fa_waiting a) (fa_sequence a) job job_id priority (fa_marker a) ;;; ret tt
  else
    let* encoded := encode job in
    do_ (HSET (fa_jobs a) [(job_id, LString encoded)]) ;;;
    if is_text state "delayed" then
      do_ (ZADD (fa_delayed a) (LNumber scheduled_millis) job_id) ;;; refresh_delay_marker (fa_marker a) (fa_delayed a)
    else if is_text state "waiting_children" then do_ (ZADD (fa_waiting_children a) (LNumber scheduled_millis) job_id)
    else ret tt.

(** Whether a job of the list is already stored. *)
Fixpoint any_stored (a : FinishArgs) (children : list Lua) : Script D bool :=
  match children with
  | [] => ret false
  | child :: children' =>
      let* id := getf child "id" in
      let* id := text id in
      let* stored := read (hexists (fa_jobs a) id) in
      if stored : bool then ret true else any_stored a children'
  end.

Definition enqueue_parked_child (a : FinishArgs) (parent_id : Lua) (dependency_key : string) (child : Lua) : Script D unit :=
  let* prepared := prepare_deduplicated_next_job a child in
  let* child := set_fields [("parent_id", parent_id); ("child_ids", empty_table)] prepared.1 in
  let* id := getf child "id" in
  let* id := text id in
  do_ (SADD dependency_key id) ;;;
  set_deduplication_key child id (fa_deduplication a) ;;;
  enqueue_prepared_job a child id prepared.2.

Definition enqueue_parked_flow (a : FinishArgs) (parent : Lua) (children : list Lua) : Script D unit :=
  let* child_ids := collect children (λ child, getf child "id") in
  let* prepared := prepare_deduplicated_next_job a parent in
  let* parent := set_fields [("parent_id", LNull); ("child_ids", LTable child_ids [])] prepared.1 in
  let* parent := match children with
                 | [] => ret parent
                 | _ => set_field "state" (LString "waiting_children") parent
                 end in
  let* parent_id := getf parent "id" in
  let* id := text parent_id in
  set_deduplication_key parent id (fa_deduplication a) ;;;
  enqueue_prepared_job a parent id prepared.2 ;;;
  match children with
  | [] => ret tt
  | _ =>
      let dependency_key := fa_dependencies a +:+ id in
      do_ (DEL dependency_key) ;;;
      for_each children (enqueue_parked_child a parent_id dependency_key)
  end.

Definition enqueue_deduplicated_next_flow (a : FinishArgs) (next_key : string) (next_payload : Lua) : Script D bool :=
  let* parent := getf next_payload "parent" in
  match present parent with
  | None => do_ (DEL next_key) ;;; ret false
  | Some parent =>
      let* children := getf next_payload "children" in
      let* parent_id := getf parent "id" in
      let* parent_id := text parent_id in
      let* stored := read (hexists (fa_jobs a) parent_id) in
      if stored : bool then do_ (DEL next_key) ;;; ret false
      else
        let* children := items_of (lua_or children empty_table) in
        let* stored := any_stored a children in
        if stored : bool then do_ (DEL next_key) ;;; ret false
        else enqueue_parked_flow a parent children ;;; do_ (DEL next_key) ;;; ret true
  end.

(** A parked child joins the children of its parent. *)
Definition join_parent (a : FinishArgs) (next_id : Lua) (next_text : string) (parent_id : Lua) : Script D unit :=
  match present parent_id with
  | None => ret tt
  | Some parent_id =>
      let* parent_id := text parent_id in
      let* parent_raw := read (hget (fa_jobs a) parent_id) in
      match parent_raw with
      | None => ret tt
      | Some raw =>
          let* parent := decode raw in
          let* child_ids := getf parent "child_ids" in
          let* ids := items_of (lua_or child_ids empty_table) in
          when (negb (existsb (lua_eq next_id) ids))
            (let* parent := set_field "child_ids" (LTable (ids ++ [next_id]) []) parent in
             let* encoded := encode parent in
             do_ (HSET (fa_jobs a) [(parent_id, LString encoded)])) ;;;
          do_ (SADD (fa_dependencies a +:+ parent_id) next_text)
      end
  end.

(** [completing]: the completion script reads the schedule of the next
    occurrence back from its record, the failure script passes it on. *)
Definition enqueue_parked_job (a : FinishArgs) (completing : bool) (owner_job next_job next_id : Lua) (next_text : string)
    (count : option f64) : Script D unit :=
  let* prepared := prepare_deduplicated_next_job a next_job in
  let* job := match count with
              | None => ret prepared.1
              | Some n => let* key := getf owner_job "repeat_key" in
                          set_fields [("repeat_key", key); ("repeat_count", LNumber n)] prepared.1
              end in
  set_deduplication_key job next_text (fa_deduplication a) ;;;
  (if is_some count then
     set_repeat_key job next_text (fa_repeat a) (if completing then scheduled_millis_of job else ret (LNumber prepared.2))
   else ret tt) ;;;
  enqueue_prepared_job a job next_text prepared.2 ;;;
  let* parent_id := getf job "parent_id" in
  join_parent a next_id next_text parent_id.

Definition enqueue_deduplicated_next (a : FinishArgs) (completing : bool) (owner_job : Lua) : Script D bool :=
  let* id := deduplication_id owner_job in
  match id with
  | None => ret false
  | Some id =>
      let next_key := fa_deduplication_next a +:+ id in
      let* next_raw := read (get next_key) in
      match next_raw with
      | None => ret false
      | Some raw =>
          let* next_job := decode raw in
          let* kind := getf next_job "kind" in
          if is_text kind "flow" then enqueue_deduplicated_next_flow a next_key next_job
          else
            let* next_id := getf next_job "id" in
            let* next_text := text next_id in
            let* stored := read (hexists (fa_jobs a) next_text) in
            if stored : bool then do_ (DEL next_key) ;;; ret false
            else
              let* count := repeat_keep_last_next_count owner_job next_job in
              match count with
              | OtherSeries => do_ (DEL next_key) ;;; ret false
              | NoSeries => enqueue_parked_job a completing owner_job next_job next_id next_text None ;;; do_ (DEL next_key) ;;; ret true
              | Occurrence n =>
                  enqueue_parked_job a completing owner_job next_job next_id next_text (Some n) ;;; do_ (DEL next_key) ;;; ret true
              end
      end
  end.

(** ** Metrics and events *)

(** [for i = 1, #points, 7000] over slices of [points]. *)
Definition push_points (data_key : string) (points : list Lua) : Script D unit :=
  let slice i := take 7000 (drop (7000 * i) points) in
  for_each (seq 0 ((length points + 6999) / 7000)) (λ i, do_ (LPUSH data_key (slice i))).

Definition minutes (x : f64) : f64 := f64_floor (f64_div x (f64_of_Z 60000)).

Definition store_points (meta_key data_key timestamp : string) (max_data_points n count : f64) : Script D unit :=
  let* prev_count := read (hget meta_key "prevCount") in
  let delta := LNumber (f64_sub count (unwrap_or (lua_strtod (unwrap_or prev_count "0")) f64_zero)) in
  (if f64_lt f64_one n then push_points data_key (delta :: repeat (number 0) (Z.to_nat (floor_Z n - 1)))
   else do_ (LPUSH data_key [delta])) ;;;
  do_ (LTRIM data_key (LNumber (f64_sub max_data_points f64_one))) ;;;
  do_ (HSET meta_key [("prevCount", LNumber count); ("prevTS", LString timestamp)]).

Definition collect_metrics (meta_key data_key max_points timestamp : string) : Script D unit :=
  match opt_filter (λ n, negb (f64_le n f64_zero)) (lua_strtod max_points) with
  | None => ret tt
  | Some max_data_points =>
      let* reply := call (HINCRBY meta_key "count") in
      let count := f64_sub (number_of reply) f64_one in
      let* prev_ts := read (hget meta_key "prevTS") in
      match prev_ts with
      | None => do_ (HSET meta_key [("prevTS", LString timestamp); ("prevCount", number 0)])
      | Some prev_ts =>
          let* now := arith (lua_strtod timestamp) in
          let* before := arith (lua_strtod prev_ts) in
          let n := f64_min (f64_sub (minutes now) (minutes before)) max_data_points in
          when (positive_number n) (store_points meta_key data_key timestamp max_data_points n count)
      end
  end.

Definition emit_parent_waiting_children_transition_event (a : FinishArgs) (event job_id : string) : Script D unit :=
  emit a ["event"; event; "jobId"; job_id; "prev"; "waiting-children"].

Definition emit_drained_event_if_needed (a : FinishArgs) : Script D unit :=
  let* waiting := read (zcard (fa_waiting a)) in
  when (waiting =? 0)
    (let* active := read (zcard (fa_active a)) in
     when (active =? 0) (emit a ["event"; "drained"])).

(** ** The parent of a finished job *)

(** The child failed and no option lets its parent go on. *)
Definition blocks_parent (child : Lua) : Script D bool :=
  let* state := getf child "state" in
  if is_text state "failed" then
    let* ignored := option_flag child "ignore_dependency_on_failure" in
    let* removed := option_flag child "remove_dependency_on_failure" in
    let* continued := option_flag child "continue_parent_on_failure" in
    ret (negb (ignored || removed || continued))
  else ret false.

(** What the children say when no set of pending children is kept. *)
Inductive Children : Type := AllDone | Unfinished | FailedChild (child_id failed_reason : Lua).

Fixpoint scan_children (a : FinishArgs) (job_id updated : string) (child_ids : list Lua) : Script D Children :=
  match child_ids with
  | [] => ret AllDone
  | child_id :: child_ids' =>
      let* child_raw := if is_text child_id job_id then ret (Some updated)
                        else let* id := text child_id in read (hget (fa_jobs a) id) in
      match child_raw with
      | None => scan_children a job_id updated child_ids'
      | Some raw =>
          let* child := decode raw in
          let* blocks := blocks_parent child in
          let* state := getf child "state" in
          if blocks : bool then
            let* reason := getf child "failed_reason" in
            ret (FailedChild child_id (lua_or reason (LString "unknown error")))
          else if is_text state "completed" || is_text state "failed" then scan_children a job_id updated child_ids'
          else ret Unfinished
      end
  end.

Definition scan_parent (a : FinishArgs) (job_id updated : string) (parent : Lua) : Script D Children :=
  let* child_ids := getf parent "child_ids" in
  let* child_ids := items_of (lua_or child_ids empty_table) in
  scan_children a job_id updated child_ids.

(** The fields a parent loses when it stops waiting. *)
Definition lease_reset : list (string * Lua) := [("worker_id", LNull); ("lock_token", LNull); ("lease_expires_at", LNull)].

Definition fail_flow_parent (a : FinishArgs) (parent : Lua) (parent_id : string) (child_id failed_reason : Lua) : Script D unit :=
  do_ (DEL (fa_dependencies a +:+ parent_id)) ;;;
  do_ (ZREM (fa_waiting_children a) parent_id) ;;;
  let* child := text child_id in
  let* reason := text failed_reason in
  let message := "child job " +:+ child +:+ " failed: " +:+ reason in
  let* parent := set_fields ([("state", LString "failed"); ("finished_at", LString (fa_now_iso a))] ++ lease_reset ++
                             [("deferred_failure", LNull); ("failed_reason", LString message)]) parent in
  release_deduplication_key_on_finalization parent parent_id (fa_deduplication a) ;;;
  release_repeat_key parent parent_id (fa_repeat a) ;;;
  let* retention := retention_options parent "remove_on_fail" "failure_retention" false in
  settle_finished a (fa_failed a) parent_id (encode parent) retention ;;;
  collect_metrics (fa_failed_metrics a) (fa_failed_data a) (fa_max_points a) (fa_now_millis a) ;;;
  emit a ["event"; "failed"; "jobId"; parent_id; "failedReason"; message; "prev"; "waiting-children"].

(** [scheduled_at] is the time of the parent's record. *)
Definition resume_flow_parent_at (scheduled_at : Lua → Script D Lua) (a : FinishArgs) (parent : Lua) (parent_id : string)
    (deferred_failure : Lua) : Script D unit :=
  do_ (ZREM (fa_waiting_children a) parent_id) ;;;
  let* parent := set_fields ([("processed_at", LNull); ("finished_at", LNull)] ++ lease_reset ++
                             [("deferred_failure", deferred_failure); ("failed_reason", LNull)]) parent in
  let* scheduled := scheduled_at parent in
  let* now := arith (lua_strtod (fa_now_millis a)) in
  if f64_le (number_of scheduled) now then
    let* parent := set_field "state" (LString "waiting") parent in
    let* priority := priority_of_job parent in
    enqueue_waiting_job (fa_jobs a) (fa_waiting a) (fa_sequence a) parent parent_id priority (fa_marker a) ;;;
    emit_parent_waiting_children_transition_event a "waiting" parent_id
  else
    let* parent := set_field "state" (LString "delayed") parent in
    let* encoded := encode parent in
    do_ (HSET (fa_jobs a) [(parent_id, LString encoded)]) ;;;
    do_ (ZADD (fa_delayed a) scheduled parent_id) ;;;
    refresh_delay_marker (fa_marker a) (fa_delayed a) ;;;
    emit_parent_waiting_children_transition_event a "delayed" parent_id.

Definition resume_flow_parent : FinishArgs → Lua → string → Lua → Script D unit := resume_flow_parent_at scheduled_millis_of.
End finish.
