(* ===== verification/RedisReports.v ===== *)
(** * The scripts that complete and fail a job ([src/job/redis.rs])

    [COMPLETE_SCRIPT] and [FAIL_SCRIPT], in the order of their statements, and
    the methods that send them. *)
From S2P Require Import Prelude Ordering Text Float64 External Retry JobTypes JobStore JobDedup JobCore JobQueries Backend FloatOrder LuaDates RedisKeys RedisReplies RedisCalls RedisLua RedisLeases RedisFinish.
Local Open Scope Z_scope.

Section reports.
Context {L : LuaLibs} {D : Type} `{!Redis D}.

(** The guards of both scripts: the job, or the reply that refuses; nothing is
    written. *)
Definition leased_job (jobs_key lock_key job_id token : string) : Script D (Lua + list string) :=
  let* raw := read (hget jobs_key job_id) in
  match raw with
  | None => ret (inr ["missing"])
  | Some raw =>
      let* job := decode raw in
      let* state := getf job "state" in
      if negb (is_text state "active")
      then let* text := value (to_text (lua_or state (LString EmptyString))) in ret (inr ["state"; text])
      else
        let* lock_token := read (get lock_key) in
        match lock_token with
        | None => ret (inr ["lock_missing"])
        | Some t => ret (if String.eqb t token then inl job else inr ["lock_mismatch"])
        end
  end.

(** ** Completing *)

(** A child that failed for good among those of the job. *)
Definition failed_child (a : FinishArgs) (child_id : Lua) : Script D (option unit) :=
  let* id := text child_id in
  let* child_raw := read (hget (fa_jobs a) id) in
  match child_raw with
  | None => ret None
  | Some raw => let* child := decode raw in
                let* blocks := blocks_parent child in
                ret (if blocks then Some tt else None)
  end.

Definition unresolved_dependencies (a : FinishArgs) (job_id : string) (job : Lua) : Script D (option string) :=
  let* pending := read (scard (fa_dependencies a +:+ job_id)) in
  if 0 <? pending then ret (Some "pending_dependencies")
  else
    let* unsuccessful := read (zcard (fa_dependencies a +:+ job_id +:+ ":unsuccessful")) in
    if 0 <? unsuccessful then ret (Some "failed_dependencies")
    else
      let* child_ids := getf job "child_ids" in
      let* child_ids := items_of (lua_or child_ids empty_table) in
      let* failed := first_result child_ids (failed_child a) in
      ret (if is_some failed then Some "failed_dependencies" else None).

(** The set of pending children of the parent loses the job; whether there was
    such a set. *)
Definition settle_dependency (dependency_key job_id value : string) : Script D bool :=
  let* had_dependency_set := read (exists_key dependency_key) in
  when had_dependency_set
    (let* removed := call (SREM dependency_key job_id) in
     when (SFeqb (number_of removed) f64_one) (do_ (HSET (dependency_key +:+ ":processed") [(job_id, LString value)]))) ;;;
  ret had_dependency_set.

Definition complete_parent (a : FinishArgs) (job_id value updated : string) (job : Lua) : Script D unit :=
  let* parent_id := optional_field job "parent_id" in
  match parent_id with
  | None => ret tt
  | Some parent_id =>
      let* parent_id := text parent_id in
      let* parent_raw := read (hget (fa_jobs a) parent_id) in
      match parent_raw with
      | None => ret tt
      | Some raw =>
          let* parent := decode raw in
          let dependency_key := fa_dependencies a +:+ parent_id in
          let* had_dependency_set := settle_dependency dependency_key job_id value in
          let* state := getf parent "state" in
          when (is_text state "waiting_children")
            (let* children := if had_dependency_set : bool
                              then let* pending := read (scard dependency_key) in ret (if 0 <? pending then Unfinished else AllDone)
                              else scan_parent a job_id updated parent in
             match children with
             | FailedChild child reason => fail_flow_parent a parent parent_id child reason
             | AllDone => do_ (DEL dependency_key) ;;; resume_flow_parent a parent parent_id LNull
             | Unfinished => ret tt
             end)
      end
  end.

(** The next occurrence of a repeated job, as the client prepared it. *)
Definition enqueue_next_occurrence (a : FinishArgs) (ARGV : list string) : Script D unit :=
  let repeat_next_id := at_ ARGV 8 in
  let* inserted := call (HSETNX (fa_jobs a) repeat_next_id (at_ ARGV 9)) in
  when (SFeqb (number_of inserted) f64_one)
    (let* repeat_next := decode (at_ ARGV 9) in
     set_deduplication_key repeat_next repeat_next_id (fa_deduplication a) ;;;
     set_repeat_key repeat_next repeat_next_id (fa_repeat a) (scheduled_millis_of repeat_next) ;;;
     if String.eqb (at_ ARGV 10) "waiting" then
       let* priority := arith (lua_strtod (at_ ARGV 12)) in
       enqueue_waiting_job (fa_jobs a) (fa_waiting a) (fa_sequence a) repeat_next repeat_next_id priority (fa_marker a) ;;; ret tt
     else if String.eqb (at_ ARGV 10) "delayed" then
       do_ (ZADD (fa_delayed a) (LString (at_ ARGV 11)) repeat_next_id) ;;; refresh_delay_marker (fa_marker a) (fa_delayed a)
     else when (String.eqb (at_ ARGV 10) "waiting_children")
            (do_ (ZADD (fa_waiting_children a) (LString (at_ ARGV 11)) repeat_next_id))).

Definition end_lease (lock_key stalled_key active_key job_id : string) : Script D unit :=
  do_ (DEL lock_key) ;;; do_ (SREM stalled_key job_id) ;;; do_ (ZREM active_key job_id).

Definition record_completed (KEYS ARGV : list string) (job : Lua) : Script D (list string) :=
  let a := complete_args KEYS ARGV in
  let job_id := at_ ARGV 1 in
  let* return_value := decode (at_ ARGV 4) in
  let* job := set_fields
    [("state", LString "completed"); ("finished_at", LString (at_ ARGV 3)); ("worker_id", LNull);
     ("lease_expires_at", LNull); ("deferred_failure", LNull); ("return_value", return_value)] job in
  release_deduplication_key_on_finalization job job_id (fa_deduplication a) ;;;
  let* enqueued_deduplicated_next := enqueue_deduplicated_next a true job in
  let* updated := encode job in
  let* retention := retention_options job "remove_on_complete" "completion_retention" (String.eqb (at_ ARGV 6) "1") in
  settle_finished a (at_ KEYS 3) job_id (ret updated) retention ;;;
  collect_metrics (at_ KEYS 12) (at_ KEYS 13) (at_ ARGV 19) (at_ ARGV 5) ;;;
  complete_parent a job_id (at_ ARGV 4) updated job ;;;
  when (negb enqueued_deduplicated_next && negb (String.eqb (at_ ARGV 8) EmptyString)) (enqueue_next_occurrence a ARGV) ;;;
  release_repeat_key job job_id (fa_repeat a) ;;;
  add_base_marker_if_waiting (last_key KEYS) (at_ KEYS 5) ;;;
  emit a ["event"; "completed"; "jobId"; job_id; "returnvalue"; at_ ARGV 4; "prev"; "active"] ;;;
  emit_drained_event_if_needed a ;;;
  ret ["ok"; updated].

Definition COMPLETE_SCRIPT (KEYS ARGV : list string) : Script D (list string) :=
  let* leased := leased_job (at_ KEYS 1) (at_ KEYS 4) (at_ ARGV 1) (at_ ARGV 2) in
  match leased with
  | inr refusal => ret refusal
  | inl job =>
      let* unresolved := unresolved_dependencies (complete_args KEYS ARGV) (at_ ARGV 1) job in
      match unresolved with
      | Some reason => ret [reason]
      | None => end_lease (at_ KEYS 4) (at_ KEYS 11) (at_ KEYS 2) (at_ ARGV 1) ;;; record_completed KEYS ARGV job
      end
  end.

(** ** Failing *)

(** A failed attempt with retries left waits as a delayed job. *)
Definition retry_leased (KEYS ARGV : list string) (job : Lua) : Script D (list string) :=
  let a := fail_args KEYS ARGV in
  let job_id := at_ ARGV 1 in
  let* job := set_fields [("state", LString "delayed"); ("scheduled_at", LString (at_ ARGV 6)); ("finished_at", LNull)] job in
  let* updated := encode job in
  do_ (HSET (fa_jobs a) [(job_id, LString updated)]) ;;;
  do_ (ZADD (fa_delayed a) (LString (at_ ARGV 7)) job_id) ;;;
  refresh_delay_marker (fa_marker a) (fa_delayed a) ;;;
  add_base_marker_if_waiting (fa_marker a) (fa_waiting a) ;;;
  emit a ["event"; "delayed"; "jobId"; job_id; "failedReason"; at_ ARGV 4; "prev"; "active"] ;;;
  ret ["ok"; updated].

(** An option of the job lets its parent go on although it failed. *)
Definition releases_parent (job : Lua) : Script D bool :=
  let* ignored := option_flag job "ignore_dependency_on_failure" in
  let* removed := option_flag job "remove_dependency_on_failure" in
  let* continued := option_flag job "continue_parent_on_failure" in
  let* failing := option_flag job "fail_parent_on_failure" in
  ret (ignored || removed || continued || failing).

Definition release_failed_dependency (a : FinishArgs) (dependency_key job_id error : string) (job : Lua) : Script D unit :=
  let* releases := releases_parent job in
  when releases
    (let* had_dependency_set := read (exists_key dependency_key) in
     when had_dependency_set
       (let* removed := call (SREM dependency_key job_id) in
        when (SFeqb (number_of removed) f64_one)
          (let* failing := option_flag job "fail_parent_on_failure" in
           let* ignored := option_flag job "ignore_dependency_on_failure" in
           let* continued := option_flag job "continue_parent_on_failure" in
           if failing : bool then do_ (ZADD (dependency_key +:+ ":unsuccessful") (LString (fa_now_millis a)) job_id)
           else when (ignored || continued) (do_ (HSET (dependency_key +:+ ":failed") [(job_id, LString error)]))))).

Inductive ParentFate : Type :=
| Fails (child_id failed_reason : Lua)
| Resumes (deferred_failure : Lua) (drop_dependencies : bool)
| StaysWaiting.

Definition remove_from_dependencies (dependency_key job_id : string) : Script D bool :=
  let* had_dependency_set := read (exists_key dependency_key) in
  when had_dependency_set (do_ (SREM dependency_key job_id)) ;;;
  ret had_dependency_set.

Definition parent_fate (a : FinishArgs) (dependency_key job_id error : string) (updated : Script D string) (job parent : Lua) : Script D ParentFate :=
  let* releases := releases_parent job in
  let* failing := option_flag job "fail_parent_on_failure" in
  let* continued := option_flag job "continue_parent_on_failure" in
  let* ignored := option_flag job "ignore_dependency_on_failure" in
  if negb releases then ret (Fails (LString job_id) (LString error))
  else if failing : bool then
    remove_from_dependencies dependency_key job_id ;;;
    do_ (ZADD (dependency_key +:+ ":unsuccessful") (LString (fa_now_millis a)) job_id) ;;;
    ret (Resumes (LString ("child job " +:+ job_id +:+ " failed")) false)
  else if continued : bool then
    remove_from_dependencies dependency_key job_id ;;;
    do_ (HSET (dependency_key +:+ ":failed") [(job_id, LString error)]) ;;;
    ret (Resumes LNull false)
  else
    let* had_dependency_set := remove_from_dependencies dependency_key job_id in
    if had_dependency_set : bool then
      when ignored (do_ (HSET (dependency_key +:+ ":failed") [(job_id, LString error)])) ;;;
      let* pending := read (scard dependency_key) in
      ret (if 0 <? pending then StaysWaiting else Resumes LNull true)
    else
      let* updated := updated in
      let* children := scan_parent a job_id updated parent in
      ret match children with
          | FailedChild child reason => Fails child reason
          | Unfinished => StaysWaiting
          | AllDone => Resumes LNull true
          end.

(** The parent of a job that failed for good; [resume] is how the script lets
    a parent go on. *)
Definition fail_parent_with (resume : FinishArgs → Lua → string → Lua → Script D unit) (a : FinishArgs) (job_id error : string)
    (updated : Script D string) (job : Lua) : Script D unit :=
  let* parent_id := optional_field job "parent_id" in
  match parent_id with
  | None => ret tt
  | Some parent_id =>
      let* parent_id := text parent_id in
      let* parent_raw := read (hget (fa_jobs a) parent_id) in
      match parent_raw with
      | None => ret tt
      | Some raw =>
          let* parent := decode raw in
          let dependency_key := fa_dependencies a +:+ parent_id in
          release_failed_dependency a dependency_key job_id error job ;;;
          let* state := getf parent "state" in
          when (is_text state "waiting_children")
            (let* fate := parent_fate a dependency_key job_id error updated job parent in
             match fate with
             | Fails child reason => fail_flow_parent a parent parent_id child reason
             | Resumes deferred drop_dependencies =>
                 when drop_dependencies (do_ (DEL dependency_key)) ;;;
                 resume a parent parent_id deferred
             | StaysWaiting => ret tt
             end)
      end
  end.

Definition fail_parent_of : FinishArgs → string → string → Script D string → Lua → Script D unit :=
  fail_parent_with resume_flow_parent.

Definition emit_retries_exhausted (a : FinishArgs) (job_id : string) (job : Lua) : Script D unit :=
  let* retry_policy := option_field job "retry_policy" in
  let* max_retries := match present retry_policy with
                      | Some policy => let* n := getf policy "max_retries" in ret (number_or_zero n)
                      | None => ret f64_zero
                      end in
  let* attempts := getf job "attempts_made" in
  let attempts_made := number_or_zero attempts in
  when (f64_lt max_retries attempts_made)
    (emit a ["event"; "retries-exhausted"; "jobId"; job_id; "attemptsMade"; lua_text attempts_made]).

Definition fail_leased (KEYS ARGV : list string) (job : Lua) : Script D (list string) :=
  let a := fail_args KEYS ARGV in
  let job_id := at_ ARGV 1 in
  let error := at_ ARGV 4 in
  let* job := set_fields [("state", LString "failed"); ("finished_at", LString (at_ ARGV 3))] job in
  release_deduplication_key_on_finalization job job_id (fa_deduplication a) ;;;
  release_repeat_key job job_id (fa_repeat a) ;;;
  enqueue_deduplicated_next a false job ;;;
  let* updated := encode job in
  let* retention := retention_options job "remove_on_fail" "failure_retention" (String.eqb (at_ ARGV 9) "1") in
  settle_finished a (fa_failed a) job_id (ret updated) retention ;;;
  collect_metrics (fa_failed_metrics a) (fa_failed_data a) (fa_max_points a) (fa_now_millis a) ;;;
  fail_parent_of a job_id error (ret updated) job ;;;
  add_base_marker_if_waiting (fa_marker a) (fa_waiting a) ;;;
  emit a ["event"; "failed"; "jobId"; job_id; "failedReason"; error; "prev"; "active"] ;;;
  emit_retries_exhausted a job_id job ;;;
  emit_drained_event_if_needed a ;;;
  ret ["ok"; updated].

Definition record_failed (KEYS ARGV : list string) (job : Lua) : Script D (list string) :=
  let* job := set_fields
    [("worker_id", LNull); ("lease_expires_at", LNull); ("deferred_failure", LNull); ("failed_reason", LString (at_ ARGV 4))] job in
  if String.eqb (at_ ARGV 5) "1" then retry_leased KEYS ARGV job else fail_leased KEYS ARGV job.

Definition FAIL_SCRIPT (KEYS ARGV : list string) : Script D (list string) :=
  let* leased := leased_job (at_ KEYS 1) (at_ KEYS 5) (at_ ARGV 1) (at_ ARGV 2) in
  match leased with
  | inr refusal => ret refusal
  | inl job => end_lease (at_ KEYS 5) (at_ KEYS 10) (at_ KEYS 2) (at_ ARGV 1) ;;; record_failed KEYS ARGV job
  end.
End reports.

(** ** The methods *)
Section methods.
Context {X : Ext} {R : RedisExt} {L : LuaLibs} {D : Type} `{!Redis D}.
Variable q : RedisQueueName.

Definition redis_read {A} (r : outcome string A) : Reply A :=
  match r with Ok a => Ok a | Err error => fail (redis_error error) end.

Definition load_job (job_id : string) (d : D) : Reply (option Job) :=
  let? raw := redis_read (hget (redis_key q JobsKey) job_id d) in
  match raw with
  | None => Ok None
  | Some raw =>
      let? job := decode_job raw in
      if state_eqb (job_state job) Active then
        let? token := redis_read (get (redis_key q (LockKey job_id)) d) in
        Ok (Some (job <| job_lock_token := token |>))
      else Ok (Some job)
  end.

Definition require_job (job_id : string) (d : D) : Reply Job :=
  let? job := load_job job_id d in
  match job with Some job => Ok job | None => fail (JobNotFound job_id) end.

(** A read, then the rest on what it returned. *)
Definition after {A B} (r : D → Reply A) (k : A → D → D * Reply B) : D → D * Reply B :=
  λ d, match r d with Ok a => k a d | Err e => (d, Err e) end.

(** [value] is the JSON text of the return value, [uuid] the id of the next
    occurrence. *)
Definition complete_job (job_id lock_token : string) (value : outcome string string) (now : DateTime) (uuid : string)
    : D → D * Reply Job :=
  after (λ d,
      let? active_job := require_job job_id d in
      let? next_repeat := lift (next_repeat_job active_job now uuid) in
      let? value := parsed value (λ error, "failed to encode Redis job completion value: " +:+ error) in
      let? encoded := match next_repeat with Some n => lift (encode_job n) | None => Ok EmptyString end in
      Ok (complete_job_call job_id lock_token now value (opt_remove_on_complete (job_options active_job)) next_repeat encoded))
    (λ c, query (eval_call q COMPLETE_SCRIPT c) (λ result, decode_transition_result result job_id "complete")).

Definition fail_job_with_retry_control (job_id lock_token error : string) (now : DateTime) (allow_retry : bool)
    : D → D * Reply Job :=
  after (require_job job_id) (λ job,
    let retry_at := if allow_retry && JobCore.should_retry job
                    then Some (add_duration now (delay_for_attempt (opt_retry_policy (job_options job)) (job_attempts_made job)))
                    else None in
    query (eval_call q FAIL_SCRIPT (fail_job_call job_id lock_token now error (is_some retry_at) (unwrap_or retry_at now)
                                      (opt_remove_on_fail (job_options job))))
      (λ result, decode_transition_result result job_id "fail")).

Definition fail_job (job_id lock_token error : string) (now : DateTime) : D → D * Reply Job :=
  fail_job_with_retry_control job_id lock_token error now true.

Definition fail_job_discarding_retry (job_id lock_token error : string) (now : DateTime) : D → D * Reply Job :=
  fail_job_with_retry_control job_id lock_token error now false.
End methods.
