(* ===== verification/RedisMoves.v ===== *)
(** * Recovery of stalled jobs, and moves between states ([src/job/redis.rs])

    The scripts that give a job another state without a report of its holder.

    [RECOVER_STALLED_SCRIPT]: the jobs marked as stalled by the run before lose
    their lease when their lock is gone; the active jobs of now are marked for
    the next run.  The script has the local functions of [FAIL_SCRIPT] except
    [iso_to_millis], which it calls all the same. *)
From S2P Require Import Prelude Ordering Text Float64 External JobTypes JobStore JobDedup JobCore JobQueries Backend FloatOrder LuaDates RedisKeys RedisReplies RedisCalls RedisLua RedisLeases RedisFinish RedisReports.
Local Open Scope Z_scope.

Section recovery.
Context {L : LuaLibs} {D : Type} `{!Redis D}.

Definition recover_args (KEYS ARGV : list string) : FinishArgs := {|
  fa_jobs := at_ KEYS 1; fa_active := at_ KEYS 2; fa_waiting := at_ KEYS 3; fa_waiting_children := at_ KEYS 6;
  fa_delayed := at_ KEYS 7; fa_failed := at_ KEYS 4; fa_sequence := at_ KEYS 5; fa_events := at_ KEYS 12;
  fa_marker := at_ KEYS 11; fa_failed_metrics := at_ KEYS 9; fa_failed_data := at_ KEYS 10;
  fa_dependencies := at_ ARGV 6; fa_deduplication := at_ ARGV 7; fa_deduplication_next := at_ ARGV 9;
  fa_repeat := at_ ARGV 8; fa_logs := at_ ARGV 10; fa_now_iso := at_ ARGV 2; fa_now_millis := at_ ARGV 1;
  fa_max_events := at_ ARGV 12; fa_max_points := at_ ARGV 11 |}.

(** A global variable that no script defines stops the script that reads it. *)
Definition nonexistent_global {A} (name : string) : Script D A :=
  raise ("Script attempted to access nonexistent global variable '" +:+ name +:+ "'").

(** The owner of a repeat series, by its owner key or by its scheduler. *)
Definition is_current_repeat_scheduler_job (job : Lua) (job_id repeat_prefix : string) : Script D bool :=
  let* key := repeat_key job in
  match key with
  | None => ret false
  | Some key =>
      let owner_key := repeat_prefix +:+ key in
      let* owner_id := read (get owner_key) in
      if is_owner owner_id job_id then ret true
      else
        let* scheduler_owner_id := read (hget (repeat_scheduler_meta_key repeat_prefix key) "jid") in
        if is_owner scheduler_owner_id job_id then
          when (is_none owner_id) (do_ (SETNX owner_key job_id)) ;;; ret true
        else ret false
  end.

(** In slices of 7000. *)
Definition mark_active_jobs_stalled (active_key stalled_key : string) : Script D unit :=
  let* active_ids := read (zall active_key) in
  for_each active_ids (λ id, do_ (SADD stalled_key id)).

Definition emit_stalled_event (a : FinishArgs) (job_id failed_reason : string) : Script D unit :=
  emit a ["event"; "stalled"; "jobId"; job_id; "failedReason"; failed_reason].
Definition emit_waiting_event (a : FinishArgs) (job_id : string) : Script D unit :=
  emit a ["event"; "waiting"; "jobId"; job_id; "prev"; "active"].
Definition emit_failed_event (a : FinishArgs) (job_id failed_reason : string) : Script D unit :=
  emit a ["event"; "failed"; "jobId"; job_id; "failedReason"; failed_reason; "prev"; "active"].

Definition stalled_reason : string := "job stalled after worker lease expired".

(** The parent of a job that stalled out; there is no [iso_to_millis] here. *)
Definition resume_recovered_parent : FinishArgs → Lua → string → Lua → Script D unit :=
  resume_flow_parent_at (λ _, nonexistent_global "iso_to_millis").

Definition recover_parent : FinishArgs → string → string → Script D string → Lua → Script D unit :=
  fail_parent_with resume_recovered_parent.

(** [(job["stalled_count"] or 0) + 1], and the limit of the options. *)
Definition next_stalled_count (job : Lua) : Script D f64 :=
  let* count := getf job "stalled_count" in
  let* count := arith (tonumber (lua_or count (number 0))) in
  ret (f64_add count f64_one).

Definition max_stalled_of (job : Lua) : Script D f64 :=
  let* options := getf job "options" in
  if truthy options then
    let* limit := getf options "max_stalled_count" in
    match limit with LNil => ret f64_one | limit => arith (tonumber limit) end
  else ret f64_one.

Definition stalled_job (job : Lua) (stalled_count : f64) : Script D Lua :=
  set_fields [("stalled_count", LNumber stalled_count); ("worker_id", LNull); ("lock_token", LNull);
              ("lease_expires_at", LNull); ("deferred_failure", LNull); ("failed_reason", LString stalled_reason)] job.

Definition stall_out (a : FinishArgs) (id : string) (job : Lua) : Script D unit :=
  let* job := set_fields [("state", LString "failed"); ("finished_at", LString (fa_now_iso a))] job in
  do_ (DEL (fa_dependencies a +:+ id)) ;;;
  release_deduplication_key_on_finalization job id (fa_deduplication a) ;;;
  release_repeat_key job id (fa_repeat a) ;;;
  enqueue_deduplicated_next a false job ;;;
  let* retention := retention_options job "remove_on_fail" "failure_retention" false in
  settle_finished a (fa_failed a) id (encode job) retention ;;;
  collect_metrics (fa_failed_metrics a) (fa_failed_data a) (fa_max_points a) (fa_now_millis a) ;;;
  emit_stalled_event a id stalled_reason ;;;
  emit_failed_event a id stalled_reason ;;;
  recover_parent a id stalled_reason (encode job) job.

Definition requeue_stalled (a : FinishArgs) (id : string) (job : Lua) : Script D unit :=
  let* job := set_fields [("state", LString "waiting"); ("processed_at", LNull)] job in
  let* priority := priority_of_job job in
  enqueue_waiting_job (fa_jobs a) (fa_waiting a) (fa_sequence a) job id priority (fa_marker a) ;;;
  emit_stalled_event a id stalled_reason ;;;
  emit_waiting_event a id.

(** A job whose lock is gone. *)
Definition recover_unlocked (a : FinishArgs) (id : string) (job : Lua) : Script D unit :=
  let* stalled_count := next_stalled_count job in
  let* job := stalled_job job stalled_count in
  do_ (ZREM (fa_active a) id) ;;;
  let* max_stalled := max_stalled_of job in
  let* fails := if f64_lt max_stalled stalled_count
                then let* current := is_current_repeat_scheduler_job job id (fa_repeat a) in ret (negb current)
                else ret false in
  if fails : bool then stall_out a id job else requeue_stalled a id job.

(** Whether the job was recovered. *)
Definition recover_stalled_one (a : FinishArgs) (lock_prefix id : string) : Script D bool :=
  let* raw := read (hget (fa_jobs a) id) in
  match raw with
  | None => do_ (ZREM (fa_active a) id) ;;; ret false
  | Some raw =>
      let* job := decode raw in
      let* state := getf job "state" in
      if is_text state "active" then
        let* locked := read (exists_key (lock_prefix +:+ id)) in
        if locked : bool then ret false else recover_unlocked a id job ;;; ret true
      else do_ (ZREM (fa_active a) id) ;;; ret false
  end.

Definition RECOVER_STALLED_SCRIPT (KEYS ARGV : list string) : Script D Z :=
  let a := recover_args KEYS ARGV in
  let candidate_limit := unwrap_or (lua_strtod (at_ ARGV 5)) (f64_of_Z 1000) in
  let* ids := call (SPOP (at_ KEYS 8) (lua_text candidate_limit)) in
  let* ids := items_of (lua_or ids empty_table) in
  let* recovered := count_each ids (λ id, let* id := text id in recover_stalled_one a (at_ ARGV 3) id) in
  mark_active_jobs_stalled (at_ KEYS 2) (at_ KEYS 8) ;;;
  ret recovered.
End recovery.

Section methods.
Context {X : Ext} {R : RedisExt} {L : LuaLibs} {D : Type} `{!Redis D}.
Variable q : RedisQueueName.

Definition recover_stalled_jobs (now : DateTime) : D → D * Reply Z :=
  query (eval_call q RECOVER_STALLED_SCRIPT (recover_stalled_jobs_call now)) Ok.
End methods.

(** * Moving jobs between states

    [PROMOTE_JOB_SCRIPT], [RESCHEDULE_JOB_SCRIPT], [RETRY_JOB_SCRIPT],
    [UPDATE_PRIORITY_SCRIPT] and [PROMOTE_DUE_JOBS_SCRIPT], and the methods that
    send them. *)

Section moves.
Context {L : LuaLibs} {D : Type} `{!Redis D}.

(** The reply [{'state', v or otherwise}]. *)
Definition state_reply (v : Lua) (otherwise : string) : Script D (list string) :=
  let* state := text (lua_or v (LString otherwise)) in ret ["state"; state].

(** [removed == 0]. *)
Definition none_removed (reply : Lua) : bool := match reply with LNumber (S754_zero _) => true | _ => false end.

(** ** Promoting and rescheduling a delayed job *)
Definition promote_delayed (KEYS ARGV : list string) (job : Lua) : Script D (list string) :=
  let* job := set_fields [("state", LString "waiting"); ("scheduled_at", LString (at_ ARGV 2))] job in
  let* priority := priority_of_job job in
  let* updated := enqueue_waiting_job (at_ KEYS 1) (at_ KEYS 2) (at_ KEYS 4) job (at_ ARGV 1) priority (last_key KEYS) in
  sync_repeat_scheduler job (at_ ARGV 1) (at_ ARGV 5) (LString (at_ ARGV 6)) ;;;
  do_ (XADD (at_ KEYS 5) (at_ ARGV 4) ["event"; "waiting"; "jobId"; at_ ARGV 1; "prev"; "delayed"]) ;;;
  ret ["ok"; updated].

Definition PROMOTE_JOB_SCRIPT (KEYS ARGV : list string) : Script D (list string) :=
  let* raw := read (hget (at_ KEYS 1) (at_ ARGV 1)) in
  match raw with
  | None => do_ (ZREM (at_ KEYS 3) (at_ ARGV 1)) ;;; ret ["missing"]
  | Some raw =>
      let* job := decode raw in
      let* state := getf job "state" in
      if negb (is_text state "delayed") then
        do_ (ZREM (at_ KEYS 3) (at_ ARGV 1)) ;;;
        refresh_delay_marker (last_key KEYS) (at_ KEYS 3) ;;;
        state_reply state EmptyString
      else
        let* removed_from_delayed := call (ZREM (at_ KEYS 3) (at_ ARGV 1)) in
        refresh_delay_marker (last_key KEYS) (at_ KEYS 3) ;;;
        if none_removed removed_from_delayed then ret ["state"; "delayed_index_missing"]
        else promote_delayed KEYS ARGV job
  end.

Definition reschedule_delayed (KEYS ARGV : list string) (job : Lua) : Script D (list string) :=
  let* job := set_field "scheduled_at" (LString (at_ ARGV 2)) job in
  let* options := options_of job in
  let* delay := decode (at_ ARGV 4) in
  let* options := set_field "delay" delay (match options with Some o => o | None => empty_table end) in
  let* job := set_field "options" options job in
  let* updated := encode job in
  do_ (ZADD (at_ KEYS 2) (LString (at_ ARGV 3)) (at_ ARGV 1)) ;;;
  refresh_delay_marker (at_ KEYS 3) (at_ KEYS 2) ;;;
  do_ (HSET (at_ KEYS 1) [(at_ ARGV 1, LString updated)]) ;;;
  do_ (XADD (at_ KEYS 4) (at_ ARGV 6) ["event"; "delayed"; "jobId"; at_ ARGV 1; "delay"; at_ ARGV 3]) ;;;
  sync_repeat_scheduler job (at_ ARGV 1) (at_ ARGV 5) (LString (at_ ARGV 3)) ;;;
  ret ["ok"; updated].

Definition RESCHEDULE_JOB_SCRIPT (KEYS ARGV : list string) : Script D (list string) :=
  let* raw := read (hget (at_ KEYS 1) (at_ ARGV 1)) in
  match raw with
  | None => do_ (ZREM (at_ KEYS 2) (at_ ARGV 1)) ;;; ret ["missing"]
  | Some raw =>
      let* job := decode raw in
      let* state := getf job "state" in
      if negb (is_text state "delayed") then
        do_ (ZREM (at_ KEYS 2) (at_ ARGV 1)) ;;; state_reply state "unknown"
      else
        let* removed_from_delayed := call (ZREM (at_ KEYS 2) (at_ ARGV 1)) in
        if none_removed removed_from_delayed then ret ["state"; "delayed_index_missing"]
        else reschedule_delayed KEYS ARGV job
  end.

(** One due job of [PROMOTE_DUE_JOBS_SCRIPT]: whether it was promoted. *)
Definition promote_due_one (KEYS ARGV : list string) (id : string) : Script D bool :=
  let* raw := read (hget (at_ KEYS 1) id) in
  do_ (ZREM (at_ KEYS 2) id) ;;;
  match raw with
  | None => ret false
  | Some raw =>
      let* job := decode raw in
      let* state := getf job "state" in
      if is_text state "delayed" then
        let* job := set_field "state" (LString "waiting") job in
        let* priority := priority_of_job job in
        enqueue_waiting_job (at_ KEYS 1) (at_ KEYS 3) (at_ KEYS 4) job id priority (last_key KEYS) ;;;
        let* scheduled := scheduled_millis_of job in
        sync_repeat_scheduler job id (at_ ARGV 5) scheduled ;;;
        do_ (XADD (at_ KEYS 5) (at_ ARGV 4) ["event"; "waiting"; "jobId"; id; "prev"; "delayed"]) ;;;
        ret true
      else ret false
  end.

Definition PROMOTE_DUE_JOBS_SCRIPT (KEYS ARGV : list string) : Script D Z :=
  let* ids := read (zrangebyscore (at_ KEYS 2) (at_ ARGV 1) (at_ ARGV 3)) in
  let* promoted := count_each ids (promote_due_one KEYS ARGV) in
  refresh_delay_marker (last_key KEYS) (at_ KEYS 2) ;;;
  ret promoted.

(** ** Priorities *)
Definition with_lifo (flag : string) (options : Lua) : Script D Lua :=
  if String.eqb flag "1" then set_field "lifo" (LBool true) options
  else if String.eqb flag "0" then set_field "lifo" (LBool false) options
  else ret options.

Definition UPDATE_PRIORITY_SCRIPT (KEYS ARGV : list string) : Script D (list string) :=
  let* raw := read (hget (at_ KEYS 1) (at_ ARGV 1)) in
  match raw with
  | None => do_ (ZREM (at_ KEYS 2) (at_ ARGV 1)) ;;; ret ["missing"]
  | Some raw =>
      let* job := decode raw in
      let* state := getf job "state" in
      when (negb (is_text state "waiting")) (do_ (ZREM (at_ KEYS 2) (at_ ARGV 1))) ;;;
      let* priority := arith (lua_strtod (at_ ARGV 2)) in
      let* job := set_field "priority" (LNumber priority) job in
      let* options := options_of job in
      let* options := set_field "priority" (LNumber priority) (match options with Some o => o | None => empty_table end) in
      let* options := with_lifo (at_ ARGV 4) options in
      let* job := set_field "options" options job in
      let* updated :=
        if is_text state "waiting"
        then enqueue_waiting_job (at_ KEYS 1) (at_ KEYS 2) (at_ KEYS 3) job (at_ ARGV 1) priority (last_key KEYS)
        else encode job in
      do_ (HSET (at_ KEYS 1) [(at_ ARGV 1, LString updated)]) ;;;
      ret ["ok"; updated]
  end.

(** ** Retrying a finished job *)
Definition is_finished (state : Lua) : bool := is_text state "completed" || is_text state "failed".

(** The job that holds the deduplication id, if it is another one. *)
Definition active_deduplication_owner (jobs_key deduplication_prefix : string) (deduplication_id : option string)
    (job_id : string) : Script D (option string) :=
  match deduplication_id with
  | None => ret None
  | Some deduplication_id =>
      let deduplication_key := deduplication_prefix +:+ deduplication_id in
      let* existing_id := read (get deduplication_key) in
      match existing_id with
      | None => ret None
      | Some existing_id =>
          if String.eqb existing_id job_id then ret None
          else
            let* existing_raw := read (hget jobs_key existing_id) in
            match existing_raw with
            | None => do_ (DEL deduplication_key) ;;; ret None
            | Some raw =>
                let* existing_job := decode raw in
                let* state := getf existing_job "state" in
                if is_finished state then
                  let* pttl := read (pttl deduplication_key) in
                  if 0 <? pttl then ret (Some existing_id) else do_ (DEL deduplication_key) ;;; ret None
                else ret (Some existing_id)
            end
      end
  end.

(** The record is of an unfinished job of the series. *)
Definition unfinished_of_series (raw key : string) : Script D bool :=
  let* job := decode raw in
  let* state := getf job "state" in
  if is_finished state then ret false
  else let* job_key := repeat_key job in ret (is_owner job_key key).

Definition clear_scheduler (repeat_prefix key : string) : Script D unit :=
  do_ (ZREM (repeat_scheduler_key repeat_prefix) key) ;;; do_ (DEL (repeat_scheduler_meta_key repeat_prefix key)).

(** The owner the scheduler of the series names, if it is another job. *)
Definition active_scheduler_owner (jobs_key repeat_prefix key job_id : string) : Script D (option string) :=
  let* scheduler_owner_id := read (hget (repeat_scheduler_meta_key repeat_prefix key) "jid") in
  match scheduler_owner_id with
  | None => ret None
  | Some owner =>
      if String.eqb owner job_id then ret None
      else
        let* owner_raw := read (hget jobs_key owner) in
        match owner_raw with
        | None => clear_scheduler repeat_prefix key ;;; ret None
        | Some raw =>
            let* unfinished := unfinished_of_series raw key in
            if unfinished : bool then do_ (SETNX (repeat_prefix +:+ key) owner) ;;; ret (Some owner)
            else clear_scheduler repeat_prefix key ;;; ret None
        end
  end.

Definition active_repeat_owner (jobs_key repeat_prefix : string) (repeat_key_value : option string) (job_id : string)
    : Script D (option string) :=
  match repeat_key_value with
  | None => ret None
  | Some key =>
      let owner_key := repeat_prefix +:+ key in
      let* existing_id := read (get owner_key) in
      match existing_id with
      | None => active_scheduler_owner jobs_key repeat_prefix key job_id
      | Some existing_id =>
          if String.eqb existing_id job_id then ret None
          else
            let* existing_raw := read (hget jobs_key existing_id) in
            let* unfinished := match existing_raw with Some raw => unfinished_of_series raw key | None => ret false end in
            if unfinished : bool then ret (Some existing_id)
            else do_ (DEL owner_key) ;;; active_scheduler_owner jobs_key repeat_prefix key job_id
      end
  end.

(** The job must be in the set of its state and in no other finished set. *)
Definition misplaced (KEYS : list string) (job_id : string) (completed : bool) : Script D (option (list string)) :=
  let* completed_indexed := read (zscore (at_ KEYS 2) job_id) in
  let* failed_indexed := read (zscore (at_ KEYS 3) job_id) in
  if completed then
    if is_some failed_indexed then do_ (ZREM (at_ KEYS 3) job_id) ;;; ret (Some ["state"; "failed"])
    else ret (if is_none completed_indexed then Some ["state"; "completed_index_missing"] else None)
  else
    if is_some completed_indexed then do_ (ZREM (at_ KEYS 2) job_id) ;;; ret (Some ["state"; "completed"])
    else ret (if is_none failed_indexed then Some ["state"; "failed_index_missing"] else None).

(** Its child is retried: the parent waits again. *)
Definition parent_waits_again (KEYS ARGV : list string) (parent : Lua) (parent_id : string) : Script D unit :=
  let* state := getf parent "state" in
  let parent_previous_state := lua_or state (LString EmptyString) in
  let dependency_key := at_ ARGV 10 +:+ parent_id in
  do_ (SADD dependency_key (at_ ARGV 1)) ;;;
  do_ (HDEL (dependency_key +:+ ":processed") (at_ ARGV 1)) ;;;
  do_ (ZREM (dependency_key +:+ ":unsuccessful") (at_ ARGV 1)) ;;;
  do_ (HDEL (dependency_key +:+ ":failed") (at_ ARGV 1)) ;;;
  do_ (ZREM (at_ KEYS 4) parent_id) ;;;
  do_ (ZREM (at_ KEYS 7) parent_id) ;;;
  do_ (ZREM (at_ KEYS 8) parent_id) ;;;
  when (is_text parent_previous_state "delayed") (refresh_delay_marker (last_key KEYS) (at_ KEYS 8)) ;;;
  let* parent := set_fields ([("state", LString "waiting_children"); ("processed_at", LNull); ("finished_at", LNull)] ++
                             lease_reset ++ [("deferred_failure", LNull); ("failed_reason", LNull)]) parent in
  let* encoded := encode parent in
  do_ (HSET (at_ KEYS 1) [(parent_id, LString encoded)]) ;;;
  do_ (ZADD (at_ KEYS 7) (LString (at_ ARGV 9)) parent_id) ;;;
  when (negb (is_text parent_previous_state "waiting_children"))
    (let* previous := text parent_previous_state in
     do_ (XADD (at_ KEYS 6) (at_ ARGV 8) ["event"; "waiting-children"; "jobId"; parent_id; "prev"; previous])).

Definition retry_parent (KEYS ARGV : list string) (job : Lua) : Script D unit :=
  let* parent_id := optional_field job "parent_id" in
  match parent_id with
  | None => ret tt
  | Some parent_id =>
      let* parent_id := text parent_id in
      let* parent_raw := read (hget (at_ KEYS 1) parent_id) in
      match parent_raw with
      | None => ret tt
      | Some raw =>
          let* parent := decode raw in
          let* child_ids := getf parent "child_ids" in
          let* ids := items_of (lua_or child_ids empty_table) in
          let* state := getf parent "state" in
          when (existsb (λ child_id, is_text child_id (at_ ARGV 1)) ids && negb (is_finished state) && negb (is_text state "active"))
            (parent_waits_again KEYS ARGV parent parent_id)
      end
  end.

Definition retried_fields (ARGV : list string) (deduplicated : bool) : list (string * Lua) :=
  [("state", LString "waiting"); ("scheduled_at", LString (at_ ARGV 2)); ("processed_at", LNull); ("finished_at", LNull)] ++
  lease_reset ++ [("deferred_failure", LNull); ("failed_reason", LNull); ("return_value", LNull)] ++
  (if deduplicated
   then [("deduplication_expires_at", if String.eqb (at_ ARGV 6) EmptyString then LNull else LString (at_ ARGV 6))] else []).

Definition retry_finished (KEYS ARGV : list string) (job : Lua) (completed : bool) (deduplication_id repeat_key : option string)
    : Script D (list string) :=
  let* removed := call (ZREM (at_ KEYS (if completed then 2 else 3)) (at_ ARGV 1)) in
  if none_removed removed
  then ret ["state"; if completed then "completed_index_missing" else "failed_index_missing"]
  else
    let* job := set_fields (retried_fields ARGV (is_some deduplication_id)) job in
    let* priority := priority_of_job job in
    let* updated := enqueue_waiting_job (at_ KEYS 1) (at_ KEYS 4) (at_ KEYS 5) job (at_ ARGV 1) priority (last_key KEYS) in
    do_ (XADD (at_ KEYS 6) (at_ ARGV 8)
           ["event"; "waiting"; "jobId"; at_ ARGV 1; "prev"; if completed then "completed" else "failed"]) ;;;
    retry_parent KEYS ARGV job ;;;
    match deduplication_id with
    | None => ret tt
    | Some id => if String.eqb (at_ ARGV 7) EmptyString then do_ (SETPLAIN (at_ ARGV 4 +:+ id) (at_ ARGV 1))
                 else do_ (SET (at_ ARGV 4 +:+ id) (at_ ARGV 1) (at_ ARGV 7))
    end ;;;
    match repeat_key with
    | None => ret tt
    | Some key =>
        do_ (SETPLAIN (at_ ARGV 5 +:+ key) (at_ ARGV 1)) ;;;
        store_repeat_scheduler job (at_ ARGV 1) (at_ ARGV 5) (LString (at_ ARGV 9))
    end ;;;
    ret ["ok"; updated].

Definition RETRY_JOB_SCRIPT (KEYS ARGV : list string) : Script D (list string) :=
  let* raw := read (hget (at_ KEYS 1) (at_ ARGV 1)) in
  match raw with
  | None => do_ (ZREM (at_ KEYS 2) (at_ ARGV 1)) ;;; do_ (ZREM (at_ KEYS 3) (at_ ARGV 1)) ;;; ret ["missing"]
  | Some raw =>
      let* job := decode raw in
      let* state := getf job "state" in
      let previous_state := lua_or state (LString EmptyString) in
      if negb (is_finished previous_state) then
        do_ (ZREM (at_ KEYS 2) (at_ ARGV 1)) ;;; do_ (ZREM (at_ KEYS 3) (at_ ARGV 1)) ;;; state_reply previous_state EmptyString
      else
        let completed := is_text previous_state "completed" in
        let* misplaced := misplaced KEYS (at_ ARGV 1) completed in
        match misplaced with
        | Some reply => ret reply
        | None =>
            let* retry_deduplication_id := deduplication_id job in
            let* deduplication_owner := active_deduplication_owner (at_ KEYS 1) (at_ ARGV 4) retry_deduplication_id (at_ ARGV 1) in
            match deduplication_owner with
            | Some owner => ret ["deduplicated"; owner]
            | None =>
                let* retry_repeat_key := repeat_key job in
                let* repeat_owner := active_repeat_owner (at_ KEYS 1) (at_ ARGV 5) retry_repeat_key (at_ ARGV 1) in
                match repeat_owner with
                | Some owner => ret ["repeat"; owner]
                | None => retry_finished KEYS ARGV job completed retry_deduplication_id retry_repeat_key
                end
            end
        end
  end.
End moves.

(** ** The methods *)
Section methods.
Context {X : Ext} {R : RedisExt} {L : LuaLibs} {D : Type} `{!Redis D}.
Variable q : RedisQueueName.

(** A request refused before anything is sent. *)
Definition refuse {A} (e : LaneError) : D → D * Reply A := λ d, (d, fail e).

Definition promote_job (job_id : string) (now : DateTime) : D → D * Reply Job :=
  query (eval_call q PROMOTE_JOB_SCRIPT (promote_job_call job_id now)) (λ result, decode_transition_result result job_id "promote").

(** [delay_text] is the JSON text of the delay. *)
Definition reschedule_job (job_id : string) (delay : Duration) (delay_text : string) (now : DateTime) : D → D * Reply Job :=
  if is_zero_duration delay then refuse (ConfigError "job delay must be greater than zero")
  else query (eval_call q RESCHEDULE_JOB_SCRIPT (reschedule_job_call job_id (add_duration now delay) delay_text))
         (λ result, decode_transition_result result job_id "reschedule").

Definition retry_job (job_id : string) (now : DateTime) : D → D * Reply Job :=
  after (load_job q job_id) (λ retry_job,
    let expires_at := job ← retry_job; deduplication_expiration (job_options job) now in
    let ttl := job ← retry_job; job_deduplication_ttl_millis job in
    query (eval_call q RETRY_JOB_SCRIPT
             (retry_job_call job_id now (unwrap_or (to_rfc3339 <$> expires_at) EmptyString) (unwrap_or (show_nat <$> ttl) EmptyString)))
      (λ result, decode_transition_result result job_id "retry")).

Definition update_priority_order (job_id : string) (priority : JobPriority) (lifo : option bool) : D → D * Reply Job :=
  match validate_job_priority priority with
  | Err e => λ d, (d, lift (Err e))
  | Ok _ => query (eval_call q UPDATE_PRIORITY_SCRIPT (update_priority_order_call job_id priority lifo))
              (λ result, decode_priority_update_result result job_id)
  end.

Definition update_priority (job_id : string) (priority : JobPriority) : D → D * Reply Job :=
  update_priority_order job_id priority None.

Definition update_priority_with_lifo (job_id : string) (priority : JobPriority) (lifo : bool) : D → D * Reply Job :=
  update_priority_order job_id priority (Some lifo).

(** One round of [promote_due_jobs], which repeats it while a full batch of
    1000 is promoted; other clients may come between two rounds. *)
Definition promote_due_round (now : DateTime) : D → D * Reply Z :=
  query (eval_call q PROMOTE_DUE_JOBS_SCRIPT (promote_due_jobs_call now)) Ok.
End methods.
