(* ===== verification/RedisRecords.v ===== *)
(** * Records, counts and settings ([src/job/redis.rs])

    The scripts that edit the record of a job, its logs, or answer questions
    about the queue; the settings kept in the meta hash; the methods that use
    them. *)
From S2P Require Import Prelude Ordering Text Float64 External JobTypes JobStore JobDedup JobCore JobQueries Backend FloatOrder LuaDates RedisKeys RedisReplies RedisCalls RedisLua RedisLeases RedisFinish RedisReports RedisMoves.
Local Open Scope Z_scope.

Section records.
Context {L : LuaLibs} {D : Type} `{!Redis D}.

(** ** Editing a record *)

(** The shape of the scripts that read a record, change it and store it. *)
Definition edit_record (jobs_key job_id : string) (edit : Lua → Script D Lua) (events : Script D unit) : Script D (list string) :=
  let* raw := read (hget jobs_key job_id) in
  match raw with
  | None => ret ["missing"]
  | Some raw =>
      let* job := decode raw in
      let* job := edit job in
      let* updated := encode job in
      do_ (HSET jobs_key [(job_id, LString updated)]) ;;;
      events ;;;
      ret ["ok"; updated]
  end.

(** [job[name] = cjson.decode(raw)]. *)
Definition set_decoded (name raw : string) (job : Lua) : Script D Lua := let* v := decode raw in set_field name v job.

Definition UPDATE_DATA_SCRIPT (KEYS ARGV : list string) : Script D (list string) :=
  edit_record (at_ KEYS 1) (at_ ARGV 1) (set_decoded "payload" (at_ ARGV 2)) (ret tt).

Definition UPDATE_PROGRESS_SCRIPT (KEYS ARGV : list string) : Script D (list string) :=
  edit_record (at_ KEYS 1) (at_ ARGV 1) (set_decoded "progress" (at_ ARGV 2))
    (do_ (XADD (at_ KEYS 2) (at_ ARGV 3) ["event"; "progress"; "jobId"; at_ ARGV 1; "data"; at_ ARGV 2])).

Definition SAVE_STACKTRACE_SCRIPT (KEYS ARGV : list string) : Script D (list string) :=
  edit_record (at_ KEYS 1) (at_ ARGV 1)
    (λ job, let* job := set_decoded "stacktrace" (at_ ARGV 2) job in set_field "failed_reason" (LString (at_ ARGV 3)) job)
    (ret tt).

(** ** Logs *)

(** The entries of the list part, or none. *)
Definition logs_of (job : Lua) : Script D (list Lua * list (string * Lua)) :=
  let* logs := getf job "logs" in
  ret match logs with LTable items fields => (items, fields) | _ => ([], []) end.

(** [while #logs > keep do table.remove(logs, 1) end]. *)
Definition keep_last (keep : f64) (logs : list Lua) : list Lua := drop (Z.to_nat (Z.of_nat (length logs) - floor_Z keep)) logs.

Definition add_log_entry (timestamp line : string) (keep : option f64) (job : Lua) : Script D Lua :=
  let* logs := logs_of job in
  let entries := logs.1 ++ [LTable [] [("timestamp", LString timestamp); ("line", LString line)]] in
  let entries := match opt_filter positive_number keep with Some keep => keep_last keep entries | None => entries end in
  set_field "logs" (LTable entries logs.2) job.

(** [LTRIM key -keep -1]. *)
Definition trim_logs (logs_key : string) (keep : f64) : Script D unit := do_ (LKEEP logs_key (LNumber keep)).

Definition ADD_LOG_SCRIPT (KEYS ARGV : list string) : Script D (list string) :=
  let keep := lua_strtod (at_ ARGV 4) in
  edit_record (at_ KEYS 1) (at_ ARGV 1) (add_log_entry (at_ ARGV 2) (at_ ARGV 3) keep)
    (do_ (RPUSH (at_ KEYS 2) (at_ ARGV 5)) ;;;
     match opt_filter positive_number keep with Some keep => trim_logs (at_ KEYS 2) keep | None => ret tt end).

Definition clear_log_entries (keep : f64) (job : Lua) : Script D Lua :=
  let* logs := logs_of job in
  set_field "logs" (if f64_le keep f64_zero then empty_table else LTable (keep_last keep logs.1) logs.2) job.

Definition CLEAR_LOGS_SCRIPT (KEYS ARGV : list string) : Script D (list string) :=
  let keep := unwrap_or (lua_strtod (at_ ARGV 2)) f64_zero in
  let* raw := read (hget (at_ KEYS 1) (at_ ARGV 1)) in
  match raw with
  | None => ret tt
  | Some raw =>
      let* job := decode raw in
      let* job := clear_log_entries keep job in
      let* updated := encode job in
      do_ (HSET (at_ KEYS 1) [(at_ ARGV 1, LString updated)])
  end ;;;
  (if positive_number keep then trim_logs (at_ KEYS 2) keep else do_ (DEL (at_ KEYS 2))) ;;;
  let* retained := read (lrange (at_ KEYS 2) (number 0) (number (-1))) in
  let* count := read (llen (at_ KEYS 2)) in
  ret (lua_text (f64_of_Z count) :: retained).

(** ** Questions about one job *)
Fixpoint first_listed (job_id : string) (sets : list (string * string)) : Script D string :=
  match sets with
  | [] => ret "unknown"
  | (key, state) :: sets' =>
      let* score := read (zscore key job_id) in
      if is_some score then ret state else first_listed job_id sets'
  end.

Definition GET_JOB_STATE_SCRIPT (KEYS ARGV : list string) : Script D string :=
  first_listed (at_ ARGV 1)
    [(at_ KEYS 1, "completed"); (at_ KEYS 2, "failed"); (at_ KEYS 3, "delayed"); (at_ KEYS 4, "active");
     (at_ KEYS 5, "waiting"); (at_ KEYS 6, "waiting_children")].

Definition GET_JOB_FINISHED_RESULT_SCRIPT (KEYS ARGV : list string) : Script D (list string) :=
  let* raw := read (hget (at_ KEYS 3) (at_ ARGV 1)) in
  match raw with
  | None => ret ["missing"]
  | Some raw =>
      let* job := decode raw in
      let* completed := read (zscore (at_ KEYS 1) (at_ ARGV 1)) in
      if is_some completed then
        let* return_value := getf job "return_value" in
        match return_value with
        | LNil | LNull => ret ["completed"]
        | v => let* encoded := encode v in ret ["completed"; encoded]
        end
      else
        let* failed := read (zscore (at_ KEYS 2) (at_ ARGV 1)) in
        if is_some failed then
          let* failed_reason := optional_field job "failed_reason" in
          match failed_reason with
          | Some reason => let* reason := text reason in ret ["failed"; reason]
          | None => ret ["failed"]
          end
        else ret ["not_finished"]
  end.

(** The job that holds a deduplication id; stale keys are removed. *)
Definition REMOVE_DEDUPLICATION_KEY_SCRIPT (KEYS : list string) : Script D Z :=
  let* reply := call (DEL (at_ KEYS 1)) in
  let removed := floor_Z (number_of reply) in
  when (0 <? removed) (do_ (DEL (at_ KEYS 2))) ;;;
  ret removed.

Definition drop_owner (KEYS : list string) : Script D (option string) :=
  do_ (DEL (at_ KEYS 2)) ;;; do_ (DEL (at_ KEYS 3)) ;;; ret None.

Definition GET_DEDUPLICATION_JOB_ID_SCRIPT (KEYS ARGV : list string) : Script D (option string) :=
  let* job_id := read (get (at_ KEYS 2)) in
  match job_id with
  | None => ret None
  | Some job_id =>
      let* raw := read (hget (at_ KEYS 1) job_id) in
      match raw with
      | None => drop_owner KEYS
      | Some raw =>
          let* job := decode raw in
          let* deduplication := deduplication_of job in
          let* owned := match deduplication with
                        | None => ret false
                        | Some d => let* id := getf d "id" in ret (is_text id (at_ ARGV 1))
                        end in
          if negb owned then drop_owner KEYS
          else
            let* state := getf job "state" in
            if is_finished state then
              let* pttl := read (pttl (at_ KEYS 2)) in
              if 0 <? pttl then ret (Some job_id) else drop_owner KEYS
            else ret (Some job_id)
      end
  end.

(** ** Counts *)
Definition counts (keys : list string) : Script D (list Z) := collect keys (λ key, read (zcard key)).

Definition JOB_COUNTS_SCRIPT (KEYS : list string) : Script D (list Z) := counts KEYS.

Definition STATS_SCRIPT (KEYS : list string) : Script D (list Z) :=
  let* paused := read (hget (at_ KEYS 1) "paused") in
  let* paused_value :=
    match paused with
    | Some flag => if String.eqb flag "0" then do_ (HDEL (at_ KEYS 1) "paused") ;;; ret 0 else ret 1
    | None => ret 0
    end in
  let* states := counts [at_ KEYS 2; at_ KEYS 3; at_ KEYS 4; at_ KEYS 5; at_ KEYS 6; at_ KEYS 7] in
  ret (states ++ [paused_value]).

(** Priorities count the scores from [priority * bucket] up to the next
    bucket, less one. *)
Definition COUNTS_PER_PRIORITY_SCRIPT (KEYS ARGV : list string) : Script D (list Z) :=
  let* bucket := arith (lua_strtod (at_ ARGV 1)) in
  collect (tail ARGV) (λ arg,
    let* priority := arith (lua_strtod arg) in
    let min_score := f64_mul priority bucket in
    let max_score := f64_sub (f64_mul (f64_add priority f64_one) bucket) f64_one in
    read (zcount (at_ KEYS 1) (LNumber min_score) (LNumber max_score))).

(** [count], [prevTS] and [prevCount], the points asked for, their number. *)
Definition GET_METRICS_SCRIPT (KEYS ARGV : list string) : Script D (list (option string) * list string * Z) :=
  let* metrics := collect ["count"; "prevTS"; "prevCount"] (λ field, read (hget (at_ KEYS 1) field)) in
  let* first := arith (lua_strtod (at_ ARGV 1)) in
  let* last := arith (lua_strtod (at_ ARGV 2)) in
  let* data := read (lrange (at_ KEYS 2) (LNumber first) (LNumber last)) in
  let* num_points := read (llen (at_ KEYS 2)) in
  ret (metrics, data, num_points).

(** ** Limits *)
Definition rate_limit_ttl (max_jobs : option f64) (rate_limit_key : string) : Script D Z :=
  match max_jobs with
  | None => ret 0
  | Some max_jobs =>
      let* counter := read (get rate_limit_key) in
      let* claims := arith (lua_strtod (unwrap_or counter "0")) in
      if f64_le max_jobs claims then
        let* ttl := read (pttl rate_limit_key) in
        when (ttl =? 0) (do_ (DEL rate_limit_key)) ;;;
        ret (if 0 <? ttl then ttl else 0)
      else ret 0
  end.

(** The limit of the caller, else the shared one, else [otherwise]. *)
Definition limit_ttl (KEYS ARGV : list string) (otherwise : Script D Z) : Script D Z :=
  match opt_filter positive_number (lua_strtod (at_ ARGV 1)) with
  | Some max_jobs => rate_limit_ttl (Some max_jobs) (at_ KEYS 1)
  | None =>
      let* configured_max := read (hget (at_ KEYS 2) "max") in
      match configured_max with
      | Some max => rate_limit_ttl (lua_strtod max) (at_ KEYS 1)
      | None => otherwise
      end
  end.

Definition CLAIM_RATE_LIMIT_TTL_SCRIPT (KEYS ARGV : list string) : Script D Z :=
  limit_ttl KEYS ARGV (read (pttl (at_ KEYS 1))).

Definition ACTIVE_CLAIM_RATE_LIMIT_TTL_SCRIPT (KEYS ARGV : list string) : Script D Z := limit_ttl KEYS ARGV (ret 0).

Definition IS_MAXED_SCRIPT (KEYS : list string) : Script D Z :=
  let* concurrency := read (hget (at_ KEYS 1) "concurrency") in
  match opt_filter (λ n, negb (f64_le n f64_zero)) (lua_strtod (unwrap_or concurrency "0")) with
  | None => ret 0
  | Some concurrency =>
      let* active_count := read (zcard (at_ KEYS 2)) in
      ret (if f64_le concurrency (f64_of_Z active_count) then 1 else 0)
  end.

(** ** Pausing *)
Definition PAUSE_SCRIPT (KEYS ARGV : list string) : Script D unit :=
  do_ (HSET (at_ KEYS 1) [("paused", number 1)]) ;;;
  do_ (DEL (at_ KEYS 3)) ;;;
  do_ (XADD (at_ KEYS 2) (at_ ARGV 2) ["event"; at_ ARGV 1]).

Definition RESUME_SCRIPT (KEYS ARGV : list string) : Script D unit :=
  do_ (HDEL (at_ KEYS 1) "paused") ;;;
  let* waiting := read (zcard (at_ KEYS 3)) in
  when (0 <? waiting) (do_ (ZADD (at_ KEYS 5) (number 0) "0")) ;;;
  let* next_delayed := read (zfirst (at_ KEYS 4)) in
  match next_delayed with
  | Some (_, score) => do_ (ZADD (at_ KEYS 5) (LString score) "1")
  | None => do_ (ZREM (at_ KEYS 5) "1")
  end ;;;
  do_ (XADD (at_ KEYS 2) (at_ ARGV 2) ["event"; at_ ARGV 1]).
End records.

(** ** The methods *)
Section methods.
Context {X : Ext} {R : RedisExt} {L : LuaLibs} {D : Type} `{!Redis D}.
Variable q : RedisQueueName.

(** [payload], [progress] and [stacktrace] are JSON texts. *)
Definition update_data (job_id payload : string) : D → D * Reply Job :=
  query (eval_call q UPDATE_DATA_SCRIPT (update_data_call job_id payload)) (λ r, decode_transition_result r job_id "update data").

Definition update_progress (job_id progress : string) : D → D * Reply Job :=
  query (eval_call q UPDATE_PROGRESS_SCRIPT (update_progress_call job_id progress))
    (λ r, decode_transition_result r job_id "update progress").

Definition save_stacktrace (job_id stacktrace failed_reason : string) : D → D * Reply Job :=
  query (eval_call q SAVE_STACKTRACE_SCRIPT (save_stacktrace_call job_id stacktrace failed_reason))
    (λ r, decode_transition_result r job_id "save stacktrace").

(** [entry] is the JSON text of the entry. *)
Definition add_log (job_id line : string) (keep : Z) (now : DateTime) (entry : string) : D → D * Reply Job :=
  query (eval_call q ADD_LOG_SCRIPT (add_log_call job_id now line keep entry)) (λ r, decode_transition_result r job_id "add log").

Definition clear_job_logs (job_id : string) (keep : Z) : D → D * Reply JobLogPage :=
  query (eval_call q CLEAR_LOGS_SCRIPT (clear_job_logs_call job_id keep)) (λ r, decode_clear_logs_result r job_id).

(** [x.saturating_add(1).saturating_neg()] on [isize]. *)
Definition mirrored (x : Z) : Z := isize_sat (- isize_sat (x + 1)).

Definition get_job_logs (job_id : string) (start end_ : Z) (ascending : bool) (d : D) : Reply JobLogPage :=
  let logs_key := redis_key q (LogsKey job_id) in
  let '(range_start, range_end) := if ascending then (start, end_) else (mirrored end_, mirrored start) in
  let? raw_logs := redis_read (lrange logs_key (LString (show_int range_start)) (LString (show_int range_end)) d) in
  let raw_logs := if ascending then raw_logs else rev raw_logs in
  let? count := redis_read (llen logs_key d) in
  let? logs := decode_log_entries raw_logs in
  Ok {| lg_logs := logs; lg_count := count |}.

Definition get_job_state (job_id : string) : D → D * Reply (option JobState) :=
  query (eval_call q GET_JOB_STATE_SCRIPT (get_job_state_call job_id)) decode_job_state.

Definition get_job_finished_result (job_id : string) : D → D * Reply (option JobFinishedResult) :=
  query (eval_call q GET_JOB_FINISHED_RESULT_SCRIPT (get_job_finished_result_call job_id))
    (λ r, decode_job_finished_result r job_id).

Definition remove_deduplication_key (deduplication_id : string) : D → D * Reply bool :=
  if String.eqb deduplication_id EmptyString then λ d, (d, Ok false)
  else query (eval_call q (λ KEYS _, REMOVE_DEDUPLICATION_KEY_SCRIPT KEYS) (remove_deduplication_key_call deduplication_id))
         (λ removed, Ok (0 <? removed)).

Definition get_deduplication_job_id (deduplication_id : string) : D → D * Reply (option string) :=
  if String.eqb deduplication_id EmptyString then λ d, (d, Ok None)
  else query (eval_call q GET_DEDUPLICATION_JOB_ID_SCRIPT (get_deduplication_job_id_call deduplication_id)) Ok.

Definition stats : D → D * Reply JobQueueStats :=
  query (eval_call q (λ KEYS _, STATS_SCRIPT KEYS) stats_call) decode_stats_result.

Definition get_job_counts (states : list JobState) : D → D * Reply (list (JobState * Z)) :=
  let states := unique_states states in
  query (eval_call q (λ KEYS _, JOB_COUNTS_SCRIPT KEYS) (get_job_counts_call states)) (decode_state_counts states).

Definition get_counts_per_priority (priorities : list JobPriority) : D → D * Reply (list (JobPriority * Z)) :=
  let priorities := unique_priorities priorities in
  query (eval_call q COUNTS_PER_PRIORITY_SCRIPT (get_counts_per_priority_call priorities)) (decode_priority_counts priorities).

(** *** Limits and pausing *)
Definition get_claim_rate_limit_ttl (max_claims : option Z) : D → D * Reply Z :=
  query (eval_call q CLAIM_RATE_LIMIT_TTL_SCRIPT (get_claim_rate_limit_ttl_call max_claims)) Ok.

Definition is_maxed : D → D * Reply bool :=
  query (eval_call q (λ KEYS _, IS_MAXED_SCRIPT KEYS) is_maxed_call) (λ maxed, Ok (negb (maxed =? 0))).

Definition meta : string := redis_key q MetaKey.

Definition set_claim_rate_limit (rate_limit : JobRateLimit) : D → D * Reply unit :=
  match validate_rate_limit rate_limit with
  | Err e => λ d, (d, lift (Err e))
  | Ok _ =>
      query (do_ (HSET meta [("max", LString (show_nat (max_claims rate_limit)))]) ;;;
             do_ (HSET meta [("duration", LString (show_nat (Z.max (RedisKeys.duration_millis (rate_window rate_limit)) 1)))])) Ok
  end.

Definition clear_claim_rate_limit : D → D * Reply unit :=
  query (do_ (HDEL meta "max") ;;; do_ (HDEL meta "duration")) Ok.

Definition rate_limit_claims_for (duration : Duration) : D → D * Reply unit :=
  if is_zero_duration duration then refuse (ConfigError "claim rate-limit duration must be greater than zero")
  else query (do_ (SET (redis_key q ClaimRateLimitKey) (show_nat (2 ^ 64 - 1)) (show_nat (Z.max (RedisKeys.duration_millis duration) 1)))) Ok.

Definition clear_claim_rate_limit_key : D → D * Reply unit := query (do_ (DEL (redis_key q ClaimRateLimitKey))) Ok.

(** The answer is the number of events that Redis removed. *)
Definition trim_events (max_len : Z) : D → D * Reply Lua := query (call (XTRIM (redis_key q EventsKey) (show_nat max_len))) Ok.

Definition set_max_active_jobs (max_active_jobs : Z) : D → D * Reply unit :=
  if max_active_jobs =? 0 then refuse (ConfigError "max active jobs must be greater than zero")
  else query (do_ (HSET meta [("concurrency", LString (show_nat max_active_jobs))])) Ok.

Definition clear_max_active_jobs : D → D * Reply unit := query (do_ (HDEL meta "concurrency")) Ok.

Definition event_retention : string := show_nat DEFAULT_JOB_EVENT_RETENTION.

Definition pause : D → D * Reply unit :=
  query (PAUSE_SCRIPT [meta; redis_key q EventsKey; redis_key q MarkerKey] ["paused"; event_retention]) Ok.

Definition resume : D → D * Reply unit :=
  query (RESUME_SCRIPT [meta; redis_key q EventsKey; redis_key q (StateKey Waiting); redis_key q (StateKey Delayed);
                        redis_key q MarkerKey] ["resumed"; event_retention]) Ok.

Definition is_paused : D → D * Reply bool :=
  query (let* paused := read (hget meta "paused") in
         match paused with
         | Some flag => if String.eqb flag "0" then do_ (HDEL meta "paused") ;;; ret false else ret true
         | None => ret false
         end) Ok.
End methods.
