(* ===== verification/RedisRemovals.v ===== *)
(** * Removing jobs ([src/job/redis.rs])

    [REMOVE_JOB_SCRIPT], [CLEAN_JOBS_SCRIPT] and [DRAIN_JOBS_SCRIPT], with the
    local functions they share: the release of keys a job owns, the retention
    of failed jobs, and what the removal of a child means for its parent;
    [REMOVE_UNPROCESSED_CHILDREN_SCRIPT] and [REMOVE_CHILD_DEPENDENCY_SCRIPT],
    after which a parent has fewer children to wait for; [OBLITERATE_SCRIPT],
    which deletes whatever has a key of the queue. *)
From S2P Require Import Prelude Ordering Text Float64 External JobTypes JobStore JobCore JobQueries Backend FloatOrder LuaDates RedisKeys RedisReplies RedisCalls RedisLua RedisLeases RedisFinish RedisReports RedisMoves.
Local Open Scope Z_scope.

(** The keys and arguments of the three scripts; draining has no set of
    stalled jobs. *)
Record RemovalArgs := mkRemovalArgs {
  ra_jobs : string; ra_waiting : string; ra_delayed : string; ra_active : string; ra_waiting_children : string;
  ra_completed : string; ra_failed : string; ra_sequence : string; ra_marker : string; ra_stalled : option string;
  ra_locks : string; ra_dependencies : string; ra_deduplication : string; ra_deduplication_next : string;
  ra_repeat : string; ra_logs : string; ra_now_iso : string; ra_now_millis : string;
}.

(** The sets of the six states, in the order of the keys. *)
Definition state_indexes (a : RemovalArgs) : list string :=
  [ra_waiting a; ra_delayed a; ra_active a; ra_waiting_children a; ra_completed a; ra_failed a].

Section removals.
Context {L : LuaLibs} {D : Type} `{!Redis D}.

(** ** What a job owns *)
Definition release_deduplication_key (job : Lua) (job_id deduplication_prefix deduplication_next_prefix : string) : Script D unit :=
  let* id := deduplication_id job in
  match id with
  | None => ret tt
  | Some id =>
      let key := deduplication_prefix +:+ id in
      let* owner := read (get key) in
      when (is_owner owner job_id)
        (do_ (DEL key) ;;;
         when (negb (String.eqb deduplication_next_prefix EmptyString)) (do_ (DEL (deduplication_next_prefix +:+ id))))
  end.

Definition release_owned_keys (a : RemovalArgs) (job : Lua) (job_id : string) : Script D unit :=
  release_deduplication_key job job_id (ra_deduplication a) (ra_deduplication_next a) ;;;
  release_repeat_key job job_id (ra_repeat a).

Definition remove_state_indexes (a : RemovalArgs) (job_id : string) : Script D unit :=
  for_each (state_indexes a) (λ key, do_ (ZREM key job_id)).

Definition unmark_stalled (a : RemovalArgs) (job_id : string) : Script D unit :=
  match ra_stalled a with Some key => do_ (SREM key job_id) | None => ret tt end.

(** ** Retention of failed jobs *)
Definition remove_finished_job (a : RemovalArgs) (job_id : string) : Script D unit :=
  let* removed_raw := read (hget (ra_jobs a) job_id) in
  match removed_raw with
  | Some raw => let* removed := decode raw in release_owned_keys a removed job_id
  | None => ret tt
  end ;;;
  remove_state_indexes a job_id ;;;
  unmark_stalled a job_id ;;;
  do_ (HDEL (ra_jobs a) job_id) ;;;
  remove_dependency_keys (ra_dependencies a) job_id ;;;
  do_ (DEL (ra_logs a +:+ job_id)).

(** The age is not checked to be positive here. *)
Definition retention_age (retention : Lua) : Script D (option f64) :=
  match present retention with
  | None => ret None
  | Some r => let* age := getf r "age" in duration_millis_of age
  end.

Definition remove_finished_jobs_by_max_age (a : RemovalArgs) (retention : Lua) : Script D unit :=
  let* max_age := retention_age retention in
  match max_age with
  | None => ret tt
  | Some max_age =>
      let* max_limit := retention_limit retention in
      let* timestamp := arith (lua_strtod (ra_now_millis a)) in
      let start := LNumber (f64_sub timestamp max_age) in
      let* job_ids := read (zrevrangebyscore (ra_failed a) start (LNumber max_limit)) in
      for_each job_ids (remove_finished_job a) ;;;
      let found := Z.of_nat (length job_ids) in
      when (0 <? found)
        (if f64_lt (f64_of_Z found) max_limit then do_ (ZREMRANGEBYSCORE (ra_failed a) start)
         else for_each job_ids (λ id, do_ (ZREM (ra_failed a) id)))
  end.

Definition remove_finished_jobs_by_max_count (a : RemovalArgs) (max_count : option f64) : Script D unit :=
  match opt_filter (λ n, negb (f64_le n f64_zero)) max_count with
  | None => ret tt
  | Some n =>
      let* job_ids := read (zrevrange (ra_failed a) (LNumber n)) in
      for_each job_ids (remove_finished_job a) ;;;
      do_ (ZREMRANGEBYRANK (ra_failed a) (LNumber (f64_neg (f64_add n f64_one))))
  end.

Definition apply_failed_retention (a : RemovalArgs) (retention : Lua) : Script D unit :=
  match present retention with
  | None => ret tt
  | Some retention =>
      remove_finished_jobs_by_max_age a retention ;;;
      let* max_count := retention_count retention in
      remove_finished_jobs_by_max_count a max_count
  end.

(** ** The parent of a removed child *)

(** The reason of a failed child: [REMOVE_JOB_SCRIPT] looks for a missing
    reason only, the others for a null one too. *)
Definition failed_reason_of (null_too : bool) (child : Lua) : Script D Lua :=
  let* reason := getf child "failed_reason" in
  ret (if truthy reason && (negb null_too || not_null reason) then reason else LString "unknown error").

(** The children that are left; [removed_id] is out. *)
Fixpoint scan_remaining (a : RemovalArgs) (null_too : bool) (removed_id : option string) (child_ids : list Lua) : Script D Children :=
  match child_ids with
  | [] => ret AllDone
  | child_id :: child_ids' =>
      let* child_raw := if match removed_id with Some id => is_text child_id id | None => false end then ret None
                        else let* id := text child_id in read (hget (ra_jobs a) id) in
      match child_raw with
      | None => scan_remaining a null_too removed_id child_ids'
      | Some raw =>
          let* child := decode raw in
          let* blocks := blocks_parent child in
          let* state := getf child "state" in
          if blocks : bool then let* reason := failed_reason_of null_too child in ret (FailedChild child_id reason)
          else if is_finished state then scan_remaining a null_too removed_id child_ids'
          else ret Unfinished
      end
  end.

(** What the children that remain mean for the parent. *)
Definition remaining_children (a : RemovalArgs) (null_too : bool) (dependency_key removed_id : string) (parent : Lua)
    : Script D Children :=
  let* had_dependency_set := read (exists_key dependency_key) in
  if had_dependency_set : bool then
    do_ (SREM dependency_key removed_id) ;;;
    let* pending := read (scard dependency_key) in
    ret (if 0 <? pending then Unfinished else AllDone)
  else
    let* child_ids := getf parent "child_ids" in
    let* child_ids := items_of (lua_or child_ids empty_table) in
    scan_remaining a null_too (Some removed_id) child_ids.

(** The parent fails; its message. *)
Definition fail_removed_parent (a : RemovalArgs) (dependency_key : string) (parent : Lua) (parent_id : string)
    (child_id failed_reason : Lua) : Script D string :=
  do_ (DEL dependency_key) ;;;
  do_ (ZREM (ra_waiting_children a) parent_id) ;;;
  let* child := text child_id in
  let* reason := text failed_reason in
  let message := "child job " +:+ child +:+ " failed: " +:+ reason in
  let* parent := set_fields ([("state", LString "failed"); ("finished_at", LString (ra_now_iso a))] ++ lease_reset ++
                             [("deferred_failure", LNull); ("failed_reason", LString message)]) parent in
  release_owned_keys a parent parent_id ;;;
  let* retention := retention_options parent "remove_on_fail" "failure_retention" false in
  let* max_count := retention_count retention in
  (if is_zero max_count then remove_finished_job a parent_id
   else
     let* encoded := encode parent in
     do_ (HSET (ra_jobs a) [(parent_id, LString encoded)]) ;;;
     do_ (ZADD (ra_failed a) (LString (ra_now_millis a)) parent_id) ;;;
     apply_failed_retention a retention) ;;;
  ret message.

(** The parent waits or is delayed; its new state.  [scheduled_at] is how the
    script reads the time of a record. *)
Definition resume_removed_parent (a : RemovalArgs) (dependency_key : string) (scheduled_at : Lua → Script D Lua) (parent : Lua)
    (parent_id : string) : Script D string :=
  do_ (DEL dependency_key) ;;;
  do_ (ZREM (ra_waiting_children a) parent_id) ;;;
  let* parent := set_fields ([("processed_at", LNull); ("finished_at", LNull)] ++ lease_reset ++
                             [("deferred_failure", LNull); ("failed_reason", LNull)]) parent in
  let* scheduled := scheduled_at parent in
  let* now := arith (lua_strtod (ra_now_millis a)) in
  if f64_le (number_of scheduled) now then
    let* parent := set_field "state" (LString "waiting") parent in
    let* priority := priority_of_job parent in
    enqueue_waiting_job (ra_jobs a) (ra_waiting a) (ra_sequence a) parent parent_id priority (ra_marker a) ;;;
    ret "waiting"
  else
    let* parent := set_field "state" (LString "delayed") parent in
    let* encoded := encode parent in
    do_ (HSET (ra_jobs a) [(parent_id, LString encoded)]) ;;;
    do_ (ZADD (ra_delayed a) scheduled parent_id) ;;;
    refresh_delay_marker (ra_marker a) (ra_delayed a) ;;;
    ret "delayed".

(** [announce] is the event of the transition, which only [REMOVE_JOB_SCRIPT]
    has: the state, the id and the reason of the parent. *)
Definition release_parent_after_removed_child (a : RemovalArgs) (null_too : bool) (scheduled_at : Lua → Script D Lua)
    (announce : string → string → option string → Script D unit) (job : Lua) (removed_id : string) : Script D unit :=
  let* parent_id := optional_field job "parent_id" in
  match parent_id with
  | None => ret tt
  | Some parent_id =>
      let* parent_id := text parent_id in
      let* parent_raw := read (hget (ra_jobs a) parent_id) in
      match parent_raw with
      | None => ret tt
      | Some raw =>
          let* parent := decode raw in
          let* state := getf parent "state" in
          when (is_text state "waiting_children")
            (let dependency_key := ra_dependencies a +:+ parent_id in
             let* children := remaining_children a null_too dependency_key removed_id parent in
             match children with
             | FailedChild child reason =>
                 let* message := fail_removed_parent a dependency_key parent parent_id child reason in announce "failed" parent_id (Some message)
             | AllDone => let* state := resume_removed_parent a dependency_key scheduled_at parent parent_id in announce state parent_id None
             | Unfinished => ret tt
             end)
      end
  end.

(** ** Removing one job *)
Definition remove_args (KEYS ARGV : list string) : RemovalArgs := {|
  ra_jobs := at_ KEYS 1; ra_waiting := at_ KEYS 3; ra_delayed := at_ KEYS 4; ra_active := at_ KEYS 5;
  ra_waiting_children := at_ KEYS 6; ra_completed := at_ KEYS 7; ra_failed := at_ KEYS 8; ra_sequence := at_ KEYS 9;
  ra_marker := at_ KEYS 10; ra_stalled := Some (at_ KEYS 12); ra_locks := EmptyString; ra_dependencies := at_ ARGV 5;
  ra_deduplication := at_ ARGV 6; ra_deduplication_next := at_ ARGV 9; ra_repeat := at_ ARGV 7; ra_logs := at_ ARGV 8;
  ra_now_iso := at_ ARGV 2; ra_now_millis := at_ ARGV 3 |}.

Definition event_state_name (state : Lua) : Script D string :=
  if is_text state "waiting_children" then ret "waiting-children" else text (lua_or state (LString EmptyString)).

Definition emit_transition (events_key max_events event job_id : string) (failed_reason : option string) : Script D unit :=
  do_ (XADD events_key max_events
         match failed_reason with
         | Some reason => ["event"; "failed"; "jobId"; job_id; "failedReason"; reason; "prev"; "waiting-children"]
         | None => ["event"; event; "jobId"; job_id; "prev"; "waiting-children"]
         end).

Definition remove_record (a : RemovalArgs) (lock_key job_id : string) (job : Lua) : Script D unit :=
  do_ (DEL lock_key) ;;;
  unmark_stalled a job_id ;;;
  release_owned_keys a job job_id ;;;
  remove_state_indexes a job_id ;;;
  do_ (HDEL (ra_jobs a) job_id) ;;;
  remove_dependency_keys (ra_dependencies a) job_id ;;;
  do_ (DEL (ra_logs a +:+ job_id)).

Definition REMOVE_JOB_SCRIPT (KEYS ARGV : list string) : Script D (list string) :=
  let a := remove_args KEYS ARGV in
  let* raw := read (hget (at_ KEYS 1) (at_ ARGV 1)) in
  match raw with
  | None =>
      do_ (DEL (at_ KEYS 2)) ;;;
      unmark_stalled a (at_ ARGV 1) ;;;
      remove_state_indexes a (at_ ARGV 1) ;;;
      remove_dependency_keys (ra_dependencies a) (at_ ARGV 1) ;;;
      do_ (DEL (ra_logs a +:+ at_ ARGV 1)) ;;;
      ret ["missing"]
  | Some raw =>
      let* job := decode raw in
      let* state := getf job "state" in
      let* locked := if is_text state "active" then read (exists_key (at_ KEYS 2)) else ret false in
      if locked : bool then ret ["active"]
      else
        remove_record a (at_ KEYS 2) (at_ ARGV 1) job ;;;
        release_parent_after_removed_child a false scheduled_millis_of (emit_transition (at_ KEYS 11) (at_ ARGV 10)) job (at_ ARGV 1) ;;;
        let* previous := event_state_name state in
        do_ (XADD (at_ KEYS 11) (at_ ARGV 10) ["event"; "removed"; "jobId"; at_ ARGV 1; "prev"; previous]) ;;;
        ret ["ok"; raw]
  end.

(** ** Removing many jobs *)
Record Candidate := mkCandidate { ca_id : string; ca_raw : string; ca_job : Lua; ca_reference_millis : Z }.

Definition remove_candidate (a : RemovalArgs) (scheduled_at : Lua → Script D Lua) (c : Candidate) : Script D string :=
  do_ (DEL (ra_locks a +:+ ca_id c)) ;;;
  unmark_stalled a (ca_id c) ;;;
  remove_state_indexes a (ca_id c) ;;;
  remove_dependency_keys (ra_dependencies a) (ca_id c) ;;;
  do_ (DEL (ra_logs a +:+ ca_id c)) ;;;
  release_owned_keys a (ca_job c) (ca_id c) ;;;
  do_ (HDEL (ra_jobs a) (ca_id c)) ;;;
  release_parent_after_removed_child a true scheduled_at (λ _ _ _, ret tt) (ca_job c) (ca_id c) ;;;
  ret (ca_raw c).

(** The current owner of a repeat series, by its owner key or its scheduler. *)
Definition owns_series (job : Lua) (job_id repeat_prefix : string) : Script D bool :=
  let* key := repeat_key job in
  match key with
  | None => ret false
  | Some key =>
      let owner_key := repeat_prefix +:+ key in
      let* owner_id := read (get owner_key) in
      if is_owner owner_id job_id then ret true
      else
        let* scheduler_owner_id := read (hget (repeat_scheduler_meta_key repeat_prefix key) "jid") in
        if is_owner scheduler_owner_id job_id then when (is_none owner_id) (do_ (SETNX owner_key job_id)) ;;; ret true
        else ret false
  end.

Definition is_current_repeat_owner (job : Lua) (job_id repeat_prefix : string) : Script D bool :=
  let* state := getf job "state" in
  if is_finished state then ret false else owns_series job job_id repeat_prefix.

Definition is_current_delayed_repeat_owner (repeat_prefix : string) (job : Lua) (job_id : string) : Script D bool :=
  let* state := getf job "state" in
  if negb (is_text state "delayed") then ret false else owns_series job job_id repeat_prefix.

(** The jobs of a set whose record agrees with it; the others leave the set. *)
Fixpoint collect_candidates (a : RemovalArgs) (state_key state : string) (allow : Lua → string → Script D (option Z))
    (ids : list string) : Script D (list Candidate) :=
  match ids with
  | [] => ret []
  | id :: ids' =>
      let* raw := read (hget (ra_jobs a) id) in
      let* candidate :=
        match raw with
        | None => do_ (ZREM state_key id) ;;; ret None
        | Some raw =>
            let* job := decode raw in
            let* job_state := getf job "state" in
            if is_text job_state state then
              let* reference := allow job id in
              ret (reference_millis ← reference; Some (mkCandidate id raw job reference_millis))
            else do_ (ZREM state_key id) ;;; ret None
        end in
      let* rest := collect_candidates a state_key state allow ids' in
      ret (match candidate with Some c => c :: rest | None => rest end)
  end.

(** *** Cleaning *)
Definition clean_args (KEYS ARGV : list string) : RemovalArgs := {|
  ra_jobs := at_ KEYS 1; ra_waiting := at_ KEYS 2; ra_delayed := at_ KEYS 3; ra_active := at_ KEYS 4;
  ra_waiting_children := at_ KEYS 5; ra_completed := at_ KEYS 6; ra_failed := at_ KEYS 7; ra_sequence := at_ KEYS 8;
  ra_marker := at_ KEYS 9; ra_stalled := Some (at_ KEYS 11); ra_locks := at_ ARGV 4; ra_dependencies := at_ ARGV 8;
  ra_deduplication := at_ ARGV 10; ra_deduplication_next := at_ ARGV 13; ra_repeat := at_ ARGV 11; ra_logs := at_ ARGV 12;
  ra_now_iso := at_ ARGV 5; ra_now_millis := at_ ARGV 6 |}.

Definition state_key_of (a : RemovalArgs) (state : string) : option string :=
  if String.eqb state "waiting" then Some (ra_waiting a)
  else if String.eqb state "delayed" then Some (ra_delayed a)
  else if String.eqb state "active" then Some (ra_active a)
  else if String.eqb state "waiting_children" then Some (ra_waiting_children a)
  else if String.eqb state "completed" then Some (ra_completed a)
  else if String.eqb state "failed" then Some (ra_failed a)
  else None.

(** The finish of the job, else its start, else its schedule. *)
Definition reference_of (job : Lua) : Script D (option Lua) :=
  let* finished := optional_field job "finished_at" in
  let* processed := optional_field job "processed_at" in
  let* scheduled := optional_field job "scheduled_at" in
  ret (match finished, processed with
       | Some t, _ => Some t
       | None, Some t => Some t
       | None, None => scheduled
       end).

(** The time of a job that may be cleaned: no lock when it is active, its time
    up, and no current owner of a repeat series. *)
Definition cleanable_reference (a : RemovalArgs) (state : string) (cutoff_millis : f64) (job : Lua) (id : string) : Script D (option Z) :=
  let* locked := if String.eqb state "active" then read (exists_key (ra_locks a +:+ id)) else ret false in
  if locked : bool then ret None
  else
    let* reference := reference_of job in
    match reference with
    | None => ret None
    | Some reference =>
        let* value := text reference in
        let reference_millis := iso_to_millis value in
        if f64_le (f64_of_Z reference_millis) cutoff_millis then
          let* current := is_current_repeat_owner job id (ra_repeat a) in
          ret (if current then None else Some reference_millis)
        else ret None
    end.

Definition candidate_order : Candidate → Candidate → comparison :=
  cmp_then (cmp_on Z.compare ca_reference_millis) (cmp_on String.compare ca_id).

Definition CLEAN_JOBS_SCRIPT (KEYS ARGV : list string) : Script D (list string) :=
  let a := clean_args KEYS ARGV in
  let state := at_ ARGV 1 in
  let* limit := arith (lua_strtod (at_ ARGV 3)) in
  let* cutoff_millis := arith (lua_strtod (at_ ARGV 9)) in
  match state_key_of a state with
  | None => ret ["bad_state"]
  | Some state_key =>
      if f64_le limit f64_zero then ret []
      else
        let* ids := read (zall state_key) in
        let* candidates := collect_candidates a state_key state (cleanable_reference a state cutoff_millis) ids in
        let chosen := take (Z.to_nat (floor_Z limit)) (sort_by candidate_order candidates) in
        let* removed := collect chosen (remove_candidate a scheduled_millis_of) in
        do_ (XADD (at_ KEYS 10) (at_ ARGV 14) ["event"; "cleaned"; "count"; lua_text (f64_of_Z (Z.of_nat (length chosen)))]) ;;;
        ret removed
  end.

(** *** Draining *)
Definition drain_args (KEYS ARGV : list string) : RemovalArgs := {|
  ra_jobs := at_ KEYS 1; ra_waiting := at_ KEYS 2; ra_delayed := at_ KEYS 3; ra_active := at_ KEYS 4;
  ra_waiting_children := at_ KEYS 5; ra_completed := at_ KEYS 6; ra_failed := at_ KEYS 7; ra_sequence := at_ KEYS 8;
  ra_marker := last_key KEYS; ra_stalled := None; ra_locks := at_ ARGV 5; ra_dependencies := at_ ARGV 6;
  ra_deduplication := at_ ARGV 7; ra_deduplication_next := at_ ARGV 10; ra_repeat := at_ ARGV 8; ra_logs := at_ ARGV 9;
  ra_now_iso := at_ ARGV 2; ra_now_millis := at_ ARGV 3 |}.

(** This script's [iso_to_millis] does arithmetic on the parts of the date
    without a look whether they are numbers. *)
Definition iso_readable (value : string) : bool :=
  forallb (λ p, is_some (tonumber_digits (string_sub value p.1 p.2)))
    [(1, 4); (6, 7); (9, 10); (12, 13); (15, 16); (18, 19)]%nat.

Definition scheduled_millis_unchecked (job : Lua) : Script D Lua :=
  let* scheduled_at := getf job "scheduled_at" in
  let* value := text scheduled_at in
  if iso_readable value then ret (number (iso_to_millis value)) else raise "attempt to perform arithmetic on a nil value".

Definition collect_jobs (a : RemovalArgs) (state_key state : string) : Script D (list Candidate) :=
  let* ids := read (zall state_key) in
  collect_candidates a state_key state
    (λ job id, let* current := is_current_delayed_repeat_owner (ra_repeat a) job id in ret (if current : bool then None else Some 0)) ids.

Definition DRAIN_JOBS_SCRIPT (KEYS ARGV : list string) : Script D (list string) :=
  let a := drain_args KEYS ARGV in
  let* waiting := collect_jobs a (at_ KEYS 2) "waiting" in
  let* delayed := if String.eqb (at_ ARGV 1) "1" then collect_jobs a (at_ KEYS 3) "delayed" else ret [] in
  collect (waiting ++ delayed) (remove_candidate a scheduled_millis_unchecked).

(** ** Children that are no longer waited for *)

(** The children of a parent that has no pending ones. *)
Definition ready_children (a : RemovalArgs) (dependency_key : string) (parent : Lua) : Script D Children :=
  let* pending := read (scard dependency_key) in
  if 0 <? pending then ret Unfinished
  else
    let* child_ids := getf parent "child_ids" in
    let* child_ids := items_of (lua_or child_ids empty_table) in
    scan_remaining a true None child_ids.

(** A parent that goes on waiting, or does not wait, gets [otherwise]. *)
Definition release_parent_if_ready (a : RemovalArgs) (dependency_key : string) (otherwise : Script D unit) (parent_id : string) (parent : Lua)
    : Script D unit :=
  let* state := getf parent "state" in
  if negb (is_text state "waiting_children") then otherwise
  else
    let* children := ready_children a dependency_key parent in
    match children with
    | FailedChild child reason => fail_removed_parent a dependency_key parent parent_id child reason ;;; ret tt
    | AllDone => resume_removed_parent a dependency_key scheduled_millis_of parent parent_id ;;; ret tt
    | Unfinished => otherwise
    end.

(** *** All unprocessed children *)
Definition unprocessed_args (KEYS ARGV : list string) : RemovalArgs := {|
  ra_jobs := at_ KEYS 1; ra_waiting := at_ KEYS 2; ra_delayed := at_ KEYS 3; ra_active := at_ KEYS 4;
  ra_waiting_children := at_ KEYS 5; ra_completed := at_ KEYS 6; ra_failed := at_ KEYS 7; ra_sequence := at_ KEYS 8;
  ra_marker := last_key KEYS; ra_stalled := None; ra_locks := at_ ARGV 5; ra_dependencies := at_ ARGV 6;
  ra_deduplication := at_ ARGV 7; ra_deduplication_next := at_ ARGV 10; ra_repeat := at_ ARGV 8; ra_logs := at_ ARGV 9;
  ra_now_iso := at_ ARGV 2; ra_now_millis := at_ ARGV 3 |}.

Definition remove_job_record (a : RemovalArgs) (job_id : string) (job : Lua) : Script D unit :=
  release_owned_keys a job job_id ;;;
  remove_state_indexes a job_id ;;;
  do_ (HDEL (ra_jobs a) job_id) ;;;
  do_ (DEL (ra_locks a +:+ job_id)) ;;;
  remove_dependency_keys (ra_dependencies a) job_id ;;;
  do_ (DEL (ra_logs a +:+ job_id)).

Definition dependency_members (dependency_key : string) : Script D (option (list string)) :=
  let* exists_ := read (exists_key dependency_key) in
  if exists_ : bool then let* members := read (smembers dependency_key) in ret (Some members) else ret None.

(** Nobody works on the child, and it has not finished. *)
Definition removable_child (a : RemovalArgs) (child_id : string) (child : Lua) : Script D bool :=
  let* state := getf child "state" in
  let* locked := read (get (ra_locks a +:+ child_id)) in
  ret (is_none locked && negb (is_text state "active") && negb (is_finished state)).

(** The records that are gone, those of a child's own children before it. *)
Fixpoint remove_unprocessed (depth : nat) (a : RemovalArgs) (announce : string → Lua → Script D unit) (parent : Lua) (dependency_key : string)
    : Script D (list string) :=
  match depth with
  | O => raise "stack overflow"
  | S depth' =>
      let* pending := dependency_members dependency_key in
      let* child_ids := getf parent "child_ids" in
      let* child_ids := items_of (lua_or child_ids empty_table) in
      let* removed := collect child_ids (λ child_id,
        if negb match pending with Some members => existsb (is_text child_id) members | None => true end then ret []
        else
          let* child_id := text child_id in
          let* child_raw := read (hget (ra_jobs a) child_id) in
          match child_raw with
          | None => do_ (SREM dependency_key child_id) ;;; ret []
          | Some raw =>
              let* child := decode raw in
              let* removable := removable_child a child_id child in
              if removable : bool then
                let* below := remove_unprocessed depth' a announce child (ra_dependencies a +:+ child_id) in
                do_ (SREM dependency_key child_id) ;;;
                remove_job_record a child_id child ;;;
                announce child_id child ;;;
                ret (below ++ [raw])
              else ret []
          end) in
      ret (concat removed)
  end.

Definition emit_removed_event (events_key max_events job_id : string) (job : Lua) : Script D unit :=
  let* state := getf job "state" in
  let* previous := event_state_name state in
  do_ (XADD events_key max_events ["event"; "removed"; "jobId"; job_id; "prev"; previous]).

Definition REMOVE_UNPROCESSED_CHILDREN_SCRIPT (KEYS ARGV : list string) : Script D (list string) :=
  let a := unprocessed_args KEYS ARGV in
  let* parent_raw := read (hget (at_ KEYS 1) (at_ ARGV 1)) in
  match parent_raw with
  | None => do_ (DEL (at_ KEYS 9)) ;;; ret ["missing"]
  | Some raw =>
      let* parent := decode raw in
      let* removed := remove_unprocessed lua_stack a (emit_removed_event (at_ KEYS 10) (at_ ARGV 11)) parent (at_ KEYS 9) in
      let* updated_parent_raw := read (hget (at_ KEYS 1) (at_ ARGV 1)) in
      match updated_parent_raw with
      | Some raw => let* parent := decode raw in release_parent_if_ready a (at_ KEYS 9) (ret tt) (at_ ARGV 1) parent
      | None => ret tt
      end ;;;
      ret ("ok" :: removed)
  end.

(** *** One child *)
Definition dependency_args (KEYS ARGV : list string) : RemovalArgs := {|
  ra_jobs := at_ KEYS 1; ra_waiting := at_ KEYS 2; ra_delayed := at_ KEYS 3; ra_active := at_ KEYS 4;
  ra_waiting_children := at_ KEYS 5; ra_completed := at_ KEYS 6; ra_failed := at_ KEYS 7; ra_sequence := at_ KEYS 8;
  ra_marker := last_key KEYS; ra_stalled := None; ra_locks := EmptyString; ra_dependencies := at_ ARGV 5;
  ra_deduplication := at_ ARGV 6; ra_deduplication_next := at_ ARGV 9; ra_repeat := at_ ARGV 7; ra_logs := at_ ARGV 8;
  ra_now_iso := at_ ARGV 2; ra_now_millis := at_ ARGV 3 |}.

(** Whether one of the buckets of the parent lost the child. *)
Definition leave_buckets (dependency_key child_id : string) : Script D bool :=
  let* processed := call (HDEL (dependency_key +:+ ":processed") child_id) in
  let* failed := call (HDEL (dependency_key +:+ ":failed") child_id) in
  let* unsuccessful := call (ZREM (dependency_key +:+ ":unsuccessful") child_id) in
  ret (existsb (λ r, lua_eq r (number 1)) [processed; failed; unsuccessful]).

Definition leave_parent (a : RemovalArgs) (child_id : string) (child : Lua) (parent_id : string) (parent : Lua) : Script D (list string) :=
  let dependency_key := ra_dependencies a +:+ parent_id in
  let* dependency_removed := call (SREM dependency_key child_id) in
  let* child_ids := getf parent "child_ids" in
  let* child_ids := items_of (lua_or child_ids empty_table) in
  let kept := List.filter (λ v, negb (is_text v child_id)) child_ids in
  let* bucket_removed := leave_buckets dependency_key child_id in
  if negb (lua_eq dependency_removed (number 1) || negb (Nat.eqb (length kept) (length child_ids)) || bucket_removed)
  then ret ["no_relationship"]
  else
    let* parent := set_field "child_ids" (LTable kept []) parent in
    let* child := set_field "parent_id" LNull child in
    let* encoded := encode child in
    do_ (HSET (ra_jobs a) [(child_id, LString encoded)]) ;;;
    let store := let* encoded := encode parent in do_ (HSET (ra_jobs a) [(parent_id, LString encoded)]) in
    release_parent_if_ready a dependency_key store parent_id parent ;;;
    ret ["ok"].

Definition REMOVE_CHILD_DEPENDENCY_SCRIPT (KEYS ARGV : list string) : Script D (list string) :=
  let a := dependency_args KEYS ARGV in
  let* child_raw := read (hget (at_ KEYS 1) (at_ ARGV 1)) in
  match child_raw with
  | None => ret ["missing_child"]
  | Some raw =>
      let* child := decode raw in
      let* parent_id := optional_field child "parent_id" in
      match parent_id with
      | None => ret ["no_relationship"]
      | Some parent_id =>
          if is_text parent_id EmptyString then ret ["no_relationship"]
          else
            let* parent_id := text parent_id in
            let* parent_raw := read (hget (at_ KEYS 1) parent_id) in
            match parent_raw with
            | None => ret ["missing_parent"; parent_id]
            | Some raw => let* parent := decode raw in leave_parent a (at_ ARGV 1) child parent_id parent
            end
      end
  end.

(** ** A whole queue *)

(** How much of the keys a page looks at. *)
Definition scan_count_of (text : string) : f64 :=
  let scan_count := unwrap_or (lua_strtod text) (f64_of_Z 1000) in if f64_le scan_count f64_zero then f64_of_Z 1000 else scan_count.

(** One iteration over the keys of the server, which are deleted in chunks;
    whether there were any.  [fuel] bounds the pages. *)
Fixpoint delete_pages (fuel : nat) (pattern : string) (scan_count : f64) (cursor : string) : Script D bool :=
  match fuel with
  | O => raise "out of fuel"
  | S fuel' =>
      let* page := read (scan cursor pattern (LNumber scan_count)) in
      for_each page.2 (λ key, do_ (DEL key)) ;;;
      let found := negb (Nat.eqb (length page.2) 0) in
      if String.eqb page.1 "0" then ret found
      else let* more := delete_pages fuel' pattern scan_count page.1 in ret (found || more)
  end.

(** Iterations until one finds no key; at most [fuel] of them. *)
Fixpoint delete_keys (fuel : nat) (pages : nat) (pattern : string) (scan_count : f64) : Script D unit :=
  match fuel with
  | O => raise "out of fuel"
  | S fuel' =>
      let* found := delete_pages pages pattern scan_count "0" in
      if found : bool then delete_keys fuel' pages pattern scan_count else ret tt
  end.

Definition OBLITERATE_SCRIPT (fuel : nat) (KEYS ARGV : list string) : Script D Z :=
  do_ (HSET (at_ KEYS 1) [("paused", number 1)]) ;;;
  let* active := read (zcard (at_ KEYS 2)) in
  if (0 <? active) && negb (String.eqb (at_ ARGV 2) "1") then ret (-2)
  else
    let* removed_jobs := read (hlen (at_ KEYS 3)) in
    delete_keys fuel fuel (at_ ARGV 1 +:+ "*") (scan_count_of (at_ ARGV 3)) ;;;
    ret removed_jobs.
End removals.

(** ** The methods *)
Section methods.
Context {X : Ext} {R : RedisExt} {L : LuaLibs} {D : Type} `{!Redis D}.
Variable q : RedisQueueName.

Definition remove_job_with_conn (job_id : string) (now : DateTime) : D → D * Reply (option Job) :=
  query (eval_call q REMOVE_JOB_SCRIPT (remove_job_call job_id now)) (λ result, decode_remove_job_result result job_id).

Definition remove_job (job_id : string) (now : DateTime) : D → D * Reply (option Job) := remove_job_with_conn job_id now.

Definition clean_jobs (state : JobState) (grace : Duration) (limit : Z) (now : DateTime) : D → D * Reply (list Job) :=
  if limit =? 0 then λ d, (d, Ok [])
  else query (eval_call q CLEAN_JOBS_SCRIPT (clean_jobs_call state (subtract_duration now grace) limit now)) decode_clean_jobs_result.

Definition drain_jobs (include_delayed : bool) (now : DateTime) : D → D * Reply (list Job) :=
  query (eval_call q DRAIN_JOBS_SCRIPT (drain_jobs_call include_delayed now)) decode_clean_jobs_result.

Definition remove_unprocessed_children (parent_id : string) (now : DateTime) : D → D * Reply (option (list Job)) :=
  query (eval_call q REMOVE_UNPROCESSED_CHILDREN_SCRIPT (remove_unprocessed_children_call parent_id now))
    (λ result, decode_remove_unprocessed_children_result result parent_id).

Definition remove_child_dependency (child_id : string) (now : DateTime) : D → D * Reply bool :=
  query (eval_call q REMOVE_CHILD_DEPENDENCY_SCRIPT (remove_child_dependency_call child_id now))
    (λ result, decode_remove_child_dependency_result result child_id).

Definition obliterate (fuel : nat) (force : bool) : D → D * Reply Z :=
  query (eval_call q (OBLITERATE_SCRIPT fuel) (obliterate_call q force)) (λ removed,
    if removed =? -2 then fail (JobStateConflict "cannot obliterate queue with active jobs")
    else if removed <? 0 then fail (QueueError ("Redis obliterate script returned unexpected code " +:+ show_int removed))
    else Ok removed).
End methods.
