(* ===== verification/RedisQueries.v ===== *)
(** * Listings and dependency queries ([src/job/redis.rs])

    [LIST_JOBS_SCRIPT] and [REMOVE_ORPHANED_JOBS_SCRIPT], which repair the
    indexes they read, and the seven scripts that only read what the children
    of a parent came to. *)
From S2P Require Import Prelude Ordering Text Float64 External JobTypes JobStore JobCore JobQueries Backend FloatOrder LuaDates RedisKeys RedisReplies RedisDependencies RedisReplyRules RedisCalls RedisLua RedisLeases RedisFinish RedisReports RedisMoves RedisRecords RedisRemovals.
Local Open Scope Z_scope.

Section queries.
Context {L : LuaLibs} {D : Type} `{!Redis D}.

(** ** Listing jobs *)
Record Listing := mkListing {
  ls_raw : string; ls_state_rank : Z; ls_priority : f64; ls_scheduled_at : string; ls_created_at : string; ls_id : string;
}.

(** The digits of a second are filled up to nanoseconds, so that texts compare
    as times do. *)
Definition iso_sort_key (value : Lua) : Script D string :=
  match present value with
  | None => ret EmptyString
  | Some value =>
      let* value := text value in
      let digits := if String.eqb (string_sub value 20 20) "." then leading_digits (String.substring 20 (String.length value) value)
                    else EmptyString in
      ret (string_sub value 1 19 +:+ "." +:+ string_sub (digits +:+ "000000000") 1 9)
  end.

Definition state_rank (state : string) : Z :=
  if String.eqb state "waiting" then 0
  else if String.eqb state "delayed" then 1
  else if String.eqb state "active" then 2
  else if String.eqb state "waiting_children" then 3
  else if String.eqb state "completed" then 4
  else if String.eqb state "failed" then 5
  else 6.

Definition state_key_for (KEYS : list string) (state : string) : option string :=
  if String.eqb state "waiting" then Some (at_ KEYS 2)
  else if String.eqb state "delayed" then Some (at_ KEYS 3)
  else if String.eqb state "active" then Some (at_ KEYS 4)
  else if String.eqb state "waiting_children" then Some (at_ KEYS 5)
  else if String.eqb state "completed" then Some (at_ KEYS 6)
  else if String.eqb state "failed" then Some (at_ KEYS 7)
  else None.

(** The ids in the records are texts; others do not compare. *)
Definition listing_of (raw : string) (job : Lua) (state : string) : Script D Listing :=
  let* priority := priority_of_job job in
  let* scheduled_at := getf job "scheduled_at" in
  let* scheduled_at := iso_sort_key scheduled_at in
  let* created_at := getf job "created_at" in
  let* created_at := iso_sort_key created_at in
  let* id := getf job "id" in
  let* id := text (lua_or id (LString EmptyString)) in
  ret (mkListing raw (state_rank state) priority scheduled_at created_at id).

(** Every job once; a job whose record says another state, or that has none,
    leaves the set. *)
Fixpoint collect_state_jobs (jobs_key state state_key : string) (ids : list string) (seen : gset string)
    : Script D (list Listing * gset string) :=
  match ids with
  | [] => ret ([], seen)
  | id :: ids' =>
      let* raw := read (hget jobs_key id) in
      match raw with
      | None => do_ (ZREM state_key id) ;;; collect_state_jobs jobs_key state state_key ids' seen
      | Some raw =>
          let* job := decode raw in
          let* job_state := getf job "state" in
          if negb (is_text job_state state) then
            do_ (ZREM state_key id) ;;; collect_state_jobs jobs_key state state_key ids' seen
          else if bool_decide (id ∈ seen) then collect_state_jobs jobs_key state state_key ids' seen
          else
            let* listing := listing_of raw job state in
            let* rest := collect_state_jobs jobs_key state state_key ids' ({[id]} ∪ seen) in
            ret (listing :: rest.1, rest.2)
      end
  end.

(** The states asked for, each once, with their keys; [None] for a text that is
    no state. *)
Fixpoint requested_states (KEYS : list string) (states seen : list string) : option (list (string * string)) :=
  match states with
  | [] => Some []
  | state :: states' =>
      match state_key_for KEYS state with
      | None => None
      | Some key =>
          if existsb (String.eqb state) seen then requested_states KEYS states' seen
          else rest ← requested_states KEYS states' (state :: seen); Some ((state, key) :: rest)
      end
  end.

Fixpoint collect_all_states (jobs_key : string) (states : list (string * string)) (seen : gset string) : Script D (list Listing) :=
  match states with
  | [] => ret []
  | (state, state_key) :: states' =>
      let* ids := read (zall state_key) in
      let* found := collect_state_jobs jobs_key state state_key ids seen in
      let* rest := collect_all_states jobs_key states' found.2 in
      ret (found.1 ++ rest)
  end.

Definition listing_order : Listing → Listing → comparison :=
  cmp_then (cmp_on Z.compare ls_state_rank) (cmp_then (cmp_on partial_cmp ls_priority)
    (cmp_then (cmp_on String.compare ls_scheduled_at) (cmp_then (cmp_on String.compare ls_created_at) (cmp_on String.compare ls_id)))).

(** [limit] entries from [offset] on. *)
Definition page_of {A} (offset limit : Z) (l : list A) : list A :=
  let n := Z.of_nat (length l) in
  take (Z.to_nat (Z.min limit n)) (drop (Z.to_nat (Z.min offset n)) l).

Definition all_states : list string := ["waiting"; "delayed"; "active"; "waiting_children"; "completed"; "failed"].

(** The number of jobs and the records of the page. *)
Definition LIST_JOBS_SCRIPT (KEYS ARGV : list string) : Script D (list Lua) :=
  let wanted := drop 3 ARGV in
  match requested_states KEYS (if Nat.eqb (length wanted) 0 then all_states else wanted) [] with
  | None => ret [LString "bad_state"]
  | Some states =>
      let* jobs := collect_all_states (at_ KEYS 1) states ∅ in
      let sorted := sort_by listing_order jobs in
      let* limit := arith (lua_strtod (at_ ARGV 2)) in
      let total := number (Z.of_nat (length jobs)) in
      if negb (positive_number limit) then ret [total]
      else
        let* offset := arith (lua_strtod (at_ ARGV 1)) in
        let page := page_of (floor_Z offset) (floor_Z limit) (if String.eqb (at_ ARGV 3) "1" then sorted else rev sorted) in
        ret (total :: (LString ∘ ls_raw <$> page))
  end.

(** ** Orphaned records *)
Record OrphanArgs := mkOrphanArgs { oa_jobs : string; oa_dependencies : string; oa_logs : string; oa_locks : string }.

(** The index has the job. *)
Definition references (job_id : string) (index : string * string) : Script D bool :=
  let '(key, key_type) := index in
  if String.eqb key_type "zset" then let* score := read (zscore key job_id) in ret (is_some score)
  else if String.eqb key_type "set" then read (sismember key job_id)
  else if String.eqb key_type "list" then let* position := read (lpos key job_id) in ret (is_some position)
  else ret false.

Definition is_referenced (indexes : list (string * string)) (job_id : string) : Script D bool :=
  let* found := first_result indexes (λ index, let* b := references job_id index in ret (if b : bool then Some tt else None)) in
  ret (is_some found).

Definition remove_orphan (a : OrphanArgs) (job_id : string) : Script D unit :=
  do_ (HDEL (oa_jobs a) job_id) ;;;
  remove_dependency_keys (oa_dependencies a) job_id ;;;
  do_ (DEL (oa_logs a +:+ job_id)) ;;;
  do_ (DEL (oa_locks a +:+ job_id)).

(** How many were removed; [limit] ends the page where it is positive. *)
Fixpoint remove_orphans (a : OrphanArgs) (indexes : list (string * string)) (limit : f64) (removed : Z) (entries : list (string * string))
    : Script D Z :=
  match entries with
  | [] => ret removed
  | (job_id, _) :: entries' =>
      if positive_number limit && f64_le limit (f64_of_Z removed) then ret removed
      else
        let* referenced := is_referenced indexes job_id in
        if referenced : bool then remove_orphans a indexes limit removed entries'
        else remove_orphan a job_id ;;; remove_orphans a indexes limit (removed + 1) entries'
  end.

Definition REMOVE_ORPHANED_JOBS_SCRIPT (KEYS ARGV : list string) : Script D (string * Z) :=
  let a := mkOrphanArgs (at_ KEYS 1) (at_ ARGV 4) (at_ ARGV 5) (at_ ARGV 6) in
  let limit := unwrap_or (lua_strtod (at_ ARGV 3)) f64_zero in
  let* indexes := collect (drop 1 KEYS) (λ key, let* t := read (key_type key) in ret (key, t)) in
  let* page := read (hscan (at_ KEYS 1) (LString (at_ ARGV 1)) (LNumber (scan_count_of (at_ ARGV 2)))) in
  let* removed := remove_orphans a indexes limit 0 page.2 in
  ret (page.1, removed).

(** ** The children of a parent *)

(** What a stored child came to. *)
Inductive Standing : Type :=
| StCompleted (return_value : Lua)
| StIgnored (failed_reason : Lua)
| StRemoved
| StFailed
| StUnfinished.

Definition standing_of (child : Lua) : Script D Standing :=
  let* state := getf child "state" in
  if is_text state "completed" then let* v := getf child "return_value" in ret (StCompleted v)
  else if is_text state "failed" then
    let* ignored := option_flag child "ignore_dependency_on_failure" in
    let* continued := option_flag child "continue_parent_on_failure" in
    let* removed := option_flag child "remove_dependency_on_failure" in
    if ignored || continued then let* reason := getf child "failed_reason" in ret (StIgnored reason)
    else ret (if removed : bool then StRemoved else StFailed)
  else ret StUnfinished.

Definition standing_at (jobs_key child_id : string) : Script D (option Standing) :=
  let* raw := read (hget jobs_key child_id) in
  match raw with
  | None => ret None
  | Some raw => let* child := decode raw in let* s := standing_of child in ret (Some s)
  end.

Definition child_ids_of (parent : Lua) : Script D (list Lua) :=
  let* child_ids := getf parent "child_ids" in items_of (lua_or child_ids empty_table).

Definition with_parent (KEYS ARGV : list string) (k : Lua → Script D (list string)) : Script D (list string) :=
  let* parent_raw := read (hget (at_ KEYS 1) (at_ ARGV 1)) in
  match parent_raw with
  | None => ret ["missing"]
  | Some raw => let* parent := decode raw in k parent
  end.

Definition encoded_value (return_value : Lua) : Script D string := encode (match return_value with LNil => LNull | v => v end).
Definition reason_text (failed_reason : Lua) : Script D string := text (lua_or failed_reason (LString EmptyString)).

Fixpoint accumulate {A B} (f : B → A → Script D B) (l : list A) (b : B) : Script D B :=
  match l with
  | [] => ret b
  | a :: l' => let* b := f b a in accumulate f l' b
  end.

(** The buckets of a parent. *)
Record Indexes := mkIndexes { ix_pending : list string; ix_indexed : list string }.

Definition among (child_id : Lua) (ids : list string) : bool := existsb (is_text child_id) ids.

(** *** Counts *)
Record Counts := mkCounts { ct_processed : Z; ct_unprocessed : Z; ct_failed : Z; ct_ignored : Z; ct_missing : Z }.

Definition count_child (jobs_key : string) (ix : Indexes) (has_dependency_set : bool) (c : Counts) (child_id : Lua) : Script D Counts :=
  let '(mkCounts p u f g m) := c in
  let* id := text child_id in
  let* child_raw := read (hget jobs_key id) in
  if among child_id (ix_pending ix) then
    ret (if is_some child_raw then mkCounts p (u + 1) f g m else mkCounts p u f g (m + 1))
  else if among child_id (ix_indexed ix) then ret c
  else
    match child_raw with
    | None => ret (mkCounts p u f g (m + 1))
    | Some raw =>
        let* child := decode raw in
        let* standing := standing_of child in
        ret (match standing with
             | StCompleted _ => mkCounts (p + 1) u f g m
             | StIgnored _ => mkCounts p u f (g + 1) m
             | StRemoved => c
             | StFailed => mkCounts p u (f + 1) g m
             | StUnfinished => if has_dependency_set then c else mkCounts p (u + 1) f g m
             end)
    end.

Definition FLOW_DEPENDENCY_COUNTS_SCRIPT (KEYS ARGV : list string) : Script D (list string) :=
  with_parent KEYS ARGV (λ parent,
    let* has_dependency_set := read (exists_key (at_ KEYS 2)) in
    let* pending := read (smembers (at_ KEYS 2)) in
    let* processed := read (hgetall (at_ KEYS 3)) in
    let* ignored := read (hgetall (at_ KEYS 4)) in
    let* unsuccessful := read (zall (at_ KEYS 5)) in
    let* p := read (hlen (at_ KEYS 3)) in
    let* f := read (zcard (at_ KEYS 5)) in
    let* g := read (hlen (at_ KEYS 4)) in
    let ix := mkIndexes pending (processed.*1 ++ ignored.*1 ++ unsuccessful) in
    let* child_ids := child_ids_of parent in
    let* c := accumulate (count_child (at_ KEYS 1) ix has_dependency_set) child_ids (mkCounts p 0 f g 0) in
    ret ("ok" :: (show_nat <$> [ct_processed c; ct_unprocessed c; ct_failed c; ct_ignored c; ct_missing c]))).

(** A count, or the kind that is none. *)
Definition selected_count (KEYS : list string) (kind : string) : Script D (option Z) :=
  if String.eqb kind "processed" then let* n := read (hlen (at_ KEYS 3)) in ret (Some n)
  else if String.eqb kind "unprocessed" then let* n := read (scard (at_ KEYS 2)) in ret (Some n)
  else if String.eqb kind "ignored" then let* n := read (hlen (at_ KEYS 4)) in ret (Some n)
  else if String.eqb kind "failed" then let* n := read (zcard (at_ KEYS 5)) in ret (Some n)
  else ret None.

Fixpoint selected_counts (KEYS kinds : list string) (result : list string) : Script D (list string) :=
  match kinds with
  | [] => ret result
  | kind :: kinds' =>
      let* n := selected_count KEYS kind in
      match n with
      | Some n => selected_counts KEYS kinds' (result ++ [kind; show_nat n])
      | None => ret ["invalid_kind"; kind]
      end
  end.

Definition FLOW_DEPENDENCY_SELECTED_COUNTS_SCRIPT (KEYS ARGV : list string) : Script D (list string) :=
  let* parent_raw := read (hget (at_ KEYS 1) (at_ ARGV 1)) in
  if is_some parent_raw then selected_counts KEYS (drop 1 ARGV) ["ok"] else ret ["missing"].

(** *** Values *)
Record ValueBuckets := mkValueBuckets {
  vb_processed : list (string * string); vb_unprocessed : list string; vb_ignored : list (string * string); vb_failed : list string;
}.

Definition add_value (jobs_key : string) (ix : Indexes) (has_dependency_set : bool) (b : ValueBuckets) (child_id : Lua) : Script D ValueBuckets :=
  let '(mkValueBuckets p u g f) := b in
  if among child_id (ix_pending ix) || among child_id (ix_indexed ix) then ret b
  else
    let* id := text child_id in
    let* standing := standing_at jobs_key id in
    match standing with
    | Some (StCompleted v) => let* v := encoded_value v in ret (mkValueBuckets (p ++ [(id, v)]) u g f)
    | Some (StIgnored r) => let* r := reason_text r in ret (mkValueBuckets p u (g ++ [(id, r)]) f)
    | Some StFailed => ret (mkValueBuckets p u g (f ++ [id]))
    | Some StUnfinished => ret (if has_dependency_set then b else mkValueBuckets p (u ++ [id]) g f)
    | Some StRemoved | None => ret b
    end.

Definition dependency_values (KEYS : list string) (parent : Lua) : Script D ValueBuckets :=
  let* has_dependency_set := read (exists_key (at_ KEYS 2)) in
  let* processed := read (hgetall (at_ KEYS 3)) in
  let* unprocessed := read (smembers (at_ KEYS 2)) in
  let* ignored := read (hgetall (at_ KEYS 4)) in
  let* failed := read (zall (at_ KEYS 5)) in
  let ix := mkIndexes unprocessed (processed.*1 ++ ignored.*1 ++ failed) in
  let* child_ids := child_ids_of parent in
  accumulate (add_value (at_ KEYS 1) ix has_dependency_set) child_ids (mkValueBuckets processed unprocessed ignored failed).

Definition FLOW_DEPENDENCY_VALUES_SCRIPT (KEYS ARGV : list string) : Script D (list string) :=
  with_parent KEYS ARGV (λ parent,
    let* b := dependency_values KEYS parent in
    ret (values_reply (vb_processed b) (vb_unprocessed b) (vb_ignored b) (vb_failed b))).

(** *** Pages *)

(** What a child adds to the first page of a kind, where no bucket has it. *)
Definition fallback_entries (kind : string) (has_dependency_set : bool) (id : string) (standing : Standing) : Script D (list string) :=
  match standing with
  | StCompleted v => if String.eqb kind "processed" then let* v := encoded_value v in ret [id; v] else ret []
  | StIgnored r => if String.eqb kind "ignored" then let* r := reason_text r in ret [id; r] else ret []
  | StFailed => ret (if String.eqb kind "failed" then [id] else [])
  | StUnfinished => ret (if String.eqb kind "unprocessed" && negb has_dependency_set then [id] else [])
  | StRemoved => ret []
  end.

Definition is_indexed (KEYS : list string) (id : string) : Script D bool :=
  let* pending := read (sismember (at_ KEYS 2) id) in
  if pending : bool then ret true
  else
    let* processed := read (hexists (at_ KEYS 3) id) in
    if processed : bool then ret true
    else
      let* ignored := read (hexists (at_ KEYS 4) id) in
      if ignored : bool then ret true
      else let* unsuccessful := read (zscore (at_ KEYS 5) id) in ret (is_some unsuccessful).

Definition append_retained_dependency_fallback (KEYS : list string) (parent : Lua) (entries : list string) (kind : string) (cursor : f64)
    : Script D (list string) :=
  if negb (SFeqb cursor f64_zero) then ret entries
  else
    let* has_dependency_set := read (exists_key (at_ KEYS 2)) in
    let* child_ids := child_ids_of parent in
    let* more := collect child_ids (λ child_id,
      let* id := text child_id in
      let* indexed := is_indexed KEYS id in
      if indexed : bool then ret []
      else
        let* standing := standing_at (at_ KEYS 1) id in
        match standing with Some s => fallback_entries kind has_dependency_set id s | None => ret [] end) in
    ret (entries ++ concat more).

(** The next cursor and the entries of a page; [None] for a text that is no
    kind. *)
Definition scan_page (KEYS : list string) (parent : Lua) (kind : string) (cursor count : f64) : Script D (option (string * list string)) :=
  let complete next entries := let* entries := append_retained_dependency_fallback KEYS parent entries kind cursor in ret (Some (next, entries)) in
  if String.eqb kind "processed" then
    let* scanned := read (hscan (at_ KEYS 3) (LNumber cursor) (LNumber count)) in complete scanned.1 (flatten_pairs scanned.2)
  else if String.eqb kind "unprocessed" then
    let* scanned := read (sscan (at_ KEYS 2) (LNumber cursor) (LNumber count)) in complete scanned.1 scanned.2
  else if String.eqb kind "ignored" then
    let* scanned := read (hscan (at_ KEYS 4) (LNumber cursor) (LNumber count)) in complete scanned.1 (flatten_pairs scanned.2)
  else if String.eqb kind "failed" then
    let* total := read (zcard (at_ KEYS 5)) in
    let start := if f64_lt cursor f64_zero then f64_zero else cursor in
    let* entries := if f64_lt start (f64_of_Z total)
                    then read (zrange_between (at_ KEYS 5) (LNumber start) (LNumber (f64_sub (f64_add start count) f64_one)))
                    else ret [] in
    let reached := f64_add start (f64_of_Z (Z.of_nat (length entries))) in
    complete (lua_text (if f64_lt reached (f64_of_Z total) then reached else f64_zero)) entries
  else ret None.

Definition cursor_of (text : string) : f64 := unwrap_or (lua_strtod text) f64_zero.
Definition page_count_of (text : string) : f64 :=
  let count := unwrap_or (lua_strtod text) (f64_of_Z 20) in if f64_lt count f64_one then f64_one else count.

Definition FLOW_DEPENDENCY_PAGE_SCRIPT (KEYS ARGV : list string) : Script D (list string) :=
  with_parent KEYS ARGV (λ parent,
    let kind := at_ ARGV 2 in
    let* page := scan_page KEYS parent kind (cursor_of (at_ ARGV 3)) (page_count_of (at_ ARGV 4)) in
    ret (match page with
         | Some (next, entries) => "ok" :: kind :: next :: entries
         | None => ["invalid_kind"; kind]
         end)).

Fixpoint scan_pages (KEYS : list string) (parent : Lua) (requests : list (string * (string * string))) (result : list string)
    : Script D (list string) :=
  match requests with
  | [] => ret result
  | (kind, (cursor, count)) :: requests' =>
      let* page := scan_page KEYS parent kind (cursor_of cursor) (page_count_of count) in
      match page with
      | Some (next, entries) =>
          scan_pages KEYS parent requests' (result ++ kind :: next :: lua_text (page_count_of count) :: segment entries)
      | None => ret ["invalid_kind"; kind]
      end
  end.

Fixpoint requests_of (ARGV : list string) : list (string * (string * string)) :=
  match ARGV with
  | kind :: cursor :: count :: ARGV' => (kind, (cursor, count)) :: requests_of ARGV'
  | _ => []
  end.

Definition FLOW_DEPENDENCY_PAGES_SCRIPT (KEYS ARGV : list string) : Script D (list string) :=
  with_parent KEYS ARGV (λ parent,
    let requests := requests_of (drop 1 ARGV) in
    scan_pages KEYS parent requests ["ok"; show_len requests]).

(** *** Results and reasons *)

(** The pairs of a bucket, and those of the children it does not have. *)
Definition bucket_and_rest (KEYS : list string) (parent : Lua) (entry : Standing → Script D (option string)) : Script D (list string) :=
  let* values := read (hgetall (at_ KEYS 2)) in
  let* child_ids := child_ids_of parent in
  let* more := collect child_ids (λ child_id,
    if among child_id values.*1 then ret []
    else
      let* id := text child_id in
      let* standing := standing_at (at_ KEYS 1) id in
      match standing with
      | Some s => let* e := entry s in ret (match e with Some e => [id; e] | None => [] end)
      | None => ret []
      end) in
  ret ("ok" :: flatten_pairs values ++ concat more).

Definition FLOW_CHILDREN_VALUES_SCRIPT (KEYS ARGV : list string) : Script D (list string) :=
  with_parent KEYS ARGV (λ parent, bucket_and_rest KEYS parent (λ s,
    match s with
    | StCompleted LNil => ret None
    | StCompleted v => let* e := encode v in ret (Some e)
    | _ => ret None
    end)).

Definition FLOW_IGNORED_CHILDREN_FAILURES_SCRIPT (KEYS ARGV : list string) : Script D (list string) :=
  with_parent KEYS ARGV (λ parent, bucket_and_rest KEYS parent (λ s,
    match s with
    | StIgnored r => let* r := reason_text r in ret (Some r)
    | _ => ret None
    end)).

(** *** The records *)
Definition FLOW_DEPENDENCIES_SCRIPT (KEYS ARGV : list string) : Script D (list string) :=
  let* parent_raw := read (hget (at_ KEYS 1) (at_ ARGV 1)) in
  match parent_raw with
  | None => ret ["missing"]
  | Some raw =>
      let* parent := decode raw in
      let* child_ids := child_ids_of parent in
      let* children := collect child_ids (λ child_id,
        let* id := text child_id in
        let* child_raw := read (hget (at_ KEYS 1) id) in
        ret [id; unwrap_or child_raw EmptyString]) in
      ret ("ok" :: raw :: concat children)
  end.
End queries.

(** ** The methods *)
Section methods.
Context {X : Ext} {R : RedisExt} {L : LuaLibs} {D : Type} `{!Redis D}.
Variable q : RedisQueueName.

(** [reply_value] is how Redis and the client convert a value of a script. *)
Definition list_jobs (reply_value : Lua → RedisValue) (o : JobListOptions) : D → D * Reply RedisListPage :=
  let offset := Z.of_nat (lo_offset o) in
  let limit := Z.of_nat (lo_limit o) in
  query (eval_call q LIST_JOBS_SCRIPT (list_jobs_call offset limit (lo_ascending o) (selected_states o)))
    (λ result, decode_list_jobs_result (reply_value <$> result) offset limit).

(** One round of [remove_orphaned_jobs]: the next cursor and how many were
    removed. *)
Definition remove_orphaned_round (cursor scan_count remaining : Z) : D → D * Reply (Z * Z) :=
  query (eval_call q REMOVE_ORPHANED_JOBS_SCRIPT (remove_orphaned_jobs_call cursor scan_count remaining))
    (λ '(next, removed), match parse_unsigned next with Ok n => Ok (n, removed) | Err e => fail (redis_error e) end).

Definition get_flow_dependencies (parent_id : string) : D → D * Reply (option JobFlowDependencies) :=
  query (eval_call q FLOW_DEPENDENCIES_SCRIPT (get_flow_dependencies_call parent_id)) (λ r, decode_flow_dependencies_result r parent_id).

Definition get_flow_dependency_counts (parent_id : string) :=
  query (eval_call q FLOW_DEPENDENCY_COUNTS_SCRIPT (get_flow_dependency_counts_call parent_id))
    (λ r, decode_flow_dependency_counts_result r parent_id).

Definition get_flow_dependency_selected_counts (parent_id : string) (kinds : list JobFlowDependencyKind) :=
  query (eval_call q FLOW_DEPENDENCY_SELECTED_COUNTS_SCRIPT (get_flow_dependency_selected_counts_call parent_id kinds))
    (λ r, decode_flow_dependency_selected_counts_result r parent_id).

Definition get_flow_dependency_values (parent_id : string) :=
  query (eval_call q FLOW_DEPENDENCY_VALUES_SCRIPT (get_flow_dependency_values_call parent_id))
    (λ r, decode_flow_dependency_values_result r parent_id).

Definition get_flow_dependency_page (parent_id : string) (kind : JobFlowDependencyKind) (cursor count : Z) :=
  let count := Z.max count 1 in
  query (eval_call q FLOW_DEPENDENCY_PAGE_SCRIPT (get_flow_dependency_page_call parent_id kind cursor count))
    (λ r, decode_flow_dependency_page_result r parent_id kind count).

Definition get_flow_dependency_pages (parent_id : string) (pages : list (JobFlowDependencyKind * (Z * Z))) :=
  query (eval_call q FLOW_DEPENDENCY_PAGES_SCRIPT (get_flow_dependency_pages_call parent_id pages))
    (λ r, decode_flow_dependency_pages_result r parent_id).

Definition get_flow_children_values (parent_id : string) :=
  query (eval_call q FLOW_CHILDREN_VALUES_SCRIPT (get_flow_children_values_call parent_id))
    (λ r, decode_flow_children_values_result r parent_id).

Definition get_flow_ignored_children_failures (parent_id : string) :=
  query (eval_call q FLOW_IGNORED_CHILDREN_FAILURES_SCRIPT (get_flow_ignored_children_failures_call parent_id))
    (λ r, decode_flow_ignored_children_failures_result r parent_id).
End methods.
