(* ===== verification/RedisClient.v ===== *)
(** * Methods of several commands ([src/job/redis.rs])

    What a client sends one after another, while others act in between: repeat
    series, whose stale entries are cleared by whoever reads them, the removal
    of orphaned records in rounds, and the claim that waits for a marker.  A
    method is a [Client] tree of the regions that Redis runs at once; [alone]
    runs it without anybody else, [runs] among others. *)
From S2P Require Import Prelude Ordering Text Float64 External JobTypes JobStore JobDedup JobCore JobQueries Backend FloatOrder LuaDates RedisKeys RedisReplies RedisCalls RedisLua RedisLeases RedisLeaseRules RedisFinish RedisReports RedisMoves RedisRecords RedisRemovals RedisQueries RateLimit.
Local Open Scope Z_scope.

(** ** Clients *)
Section clients.
Context {D : Type}.

Inductive Client (A : Type) : Type :=
| Answer (r : Reply A)
| Send {B : Type} (m : D → D * Reply B) (k : B → Client A).
Arguments Answer {A}.
Arguments Send {A B}.

Fixpoint continue_with {A B} (p : Client A) (k : A → Client B) : Client B :=
  match p with
  | Answer (Ok a) => k a
  | Answer (Err e) => Answer (Err e)
  | Send m k' => Send m (λ b, continue_with (k' b) k)
  end.

Definition give {A} (a : A) : Client A := Answer (Ok a).
Definition send {A} (m : D → D * Reply A) : Client A := Send m give.
Definition send_read {A} (r : D → Reply A) : Client A := send (λ d, (d, r d)).

Fixpoint alone {A} (p : Client A) (d : D) : D * Reply A :=
  match p with
  | Answer r => (d, r)
  | Send m k => match m d with (d', Ok b) => alone (k b) d' | (d', Err e) => (d', Err e) end
  end.

(** Others act before every region, and after the last. *)
Fixpoint runs (others : D → D → Prop) {A} (p : Client A) (d d' : D) (r : Reply A) : Prop :=
  match p with
  | Answer a => others d d' ∧ r = a
  | Send m k =>
      ∃ d1, others d d1 ∧
        match m d1 with
        | (d2, Ok b) => runs others (k b) d2 d' r
        | (d2, Err e) => others d2 d' ∧ r = Err e
        end
  end.

(** Every region keeps [P]. *)
Fixpoint orderly (P : D → Prop) {A} (p : Client A) : Prop :=
  match p with
  | Answer _ => True
  | Send m k => (∀ d, P d → P (m d).1) ∧ ∀ b, orderly P (k b)
  end.

Lemma orderly_runs (P : D → Prop) (others : D → D → Prop) {A} (p : Client A) d d' r :
  (∀ d d', others d d' → P d → P d') → orderly P p → runs others p d d' r → P d → P d'.
Proof.
  intros Ho. revert d. induction p as [a|B m k IH]; intros d; cbn [orderly runs].
  - intros _ [H _] Hd. by eapply Ho.
  - intros [Hm Hk] (d1 & H1 & Hr) Hd. specialize (Hm d1 (Ho _ _ H1 Hd)).
    destruct (m d1) as [d2 [b|e]]; [by eapply IH|]. destruct Hr as [H2 _]. by eapply Ho.
Qed.

Lemma orderly_continue (P : D → Prop) {A B} (p : Client A) (k : A → Client B) :
  orderly P p → (∀ a, orderly P (k a)) → orderly P (continue_with p k).
Proof.
  intros Hp Hk. induction p as [[a|e]|C m k' IH]; cbn [continue_with orderly] in *; [apply Hk|done|].
  destruct Hp as [Hm Hp]. split; [done|]. intros b. by apply IH.
Qed.

Lemma orderly_send (P : D → Prop) {A} (m : D → D * Reply A) : (∀ d, P d → P (m d).1) → orderly P (send m).
Proof. done. Qed.

Lemma orderly_send_read (P : D → Prop) {A} (r : D → Reply A) : orderly P (send_read r).
Proof. done. Qed.

(** A client that nobody disturbs. *)
Lemma alone_runs (others : D → D → Prop) {A} (p : Client A) d : (∀ d, others d d) → runs others p d (alone p d).1 (alone p d).2.
Proof.
  intros Ho. revert d. induction p as [r|B m k IH]; intros d; cbn [alone runs]; [by split|].
  exists d. split; [apply Ho|]. destruct (m d) as [d1 [b|e]]; [apply IH|by split].
Qed.

(** One that is disturbed only before it begins. *)
Lemma alone_later (others : D → D → Prop) {A} (p : Client A) d d1 : (∀ d, others d d) → others d d1 →
  runs others p d (alone p d1).1 (alone p d1).2.
Proof.
  intros Ho H. destruct p as [r|B m k]; cbn [alone runs]; [by split|].
  exists d1. split; [done|]. destruct (m d1) as [d2 [b|e]]; [by apply alone_runs|by split].
Qed.

Lemma alone_continue {A B} (p : Client A) (k : A → Client B) d :
  alone (continue_with p k) d = match alone p d with (d', Ok a) => alone (k a) d' | (d', Err e) => (d', Err e) end.
Proof.
  revert d. induction p as [[a|e]|C m k' IH]; intros d; cbn [continue_with alone]; [done..|].
  destruct (m d) as [d1 [b|e]]; [apply IH|done].
Qed.
End clients.
Arguments Client : clear implicits.
Arguments Answer {D A}.
Arguments Send {D A B}.

Notation "'let>' x ':=' p 'in' k" := (continue_with p (λ x, k))
  (at level 10, x name, p at level 100, k at level 200) : lane_scope.

(** The clocks of a client, and what makes it wait: sleeping, and [BZPOPMIN],
    which pops the least member of a sorted set or times out. *)
Class Clock (D : Type) := {
  instant : D → Z;
  utc : D → DateTime;
  sleep : Duration → D → D;
  bzpopmin : string → f64 → D → D * outcome string (option (string * f64));
}.

(** Waiting changes nothing, popping a member only its sorted set; [BZPOPMIN]
    does not wait where there is a member. *)
Class ClockLaws (D : Type) `{!Redis D, !Clock D} : Prop := {
  sleep_hget w k f d : hget k f (sleep w d) = hget k f d;
  sleep_get w k d : get k (sleep w d) = get k d;
  sleep_zscore w k m d : zscore k m (sleep w d) = zscore k m d;
  pop_hget key t k f d : hget k f (bzpopmin key t d).1 = hget k f d;
  pop_get key t k d : get k (bzpopmin key t d).1 = get k d;
  pop_zscore key t k m d : k ≠ key → zscore k m (bzpopmin key t d).1 = zscore k m d;
  pop_at_once key t m s d : zscore key m d = Ok (Some s) →
    ∃ d' popped, bzpopmin key t d = (d', Ok (Some popped)) ∧ instant d' = instant d;
}.

Section methods.
Context {X : Ext} {R : RedisExt} {L : LuaLibs} {D : Type} `{!Redis D, !Clock D}.
Variable q : RedisQueueName.
Abbreviation Method A := (Client D A).

(** ** Reading one job: its record, then its lock *)
Definition fetch_job (job_id : string) : Method (option Job) :=
  let> raw := send_read (λ d, redis_read (hget (redis_key q JobsKey) job_id d)) in
  match raw with
  | None => give None
  | Some raw =>
      let> job := Answer (decode_job raw) in
      if state_eqb (job_state job) Active then
        let> token := send_read (λ d, redis_read (get (redis_key q (LockKey job_id)) d)) in
        give (Some (job <| job_lock_token := token |>))
      else give (Some job)
  end.

(** ** Repeat series *)
Definition repeat_entry (job : Job) : option JobRepeatEntry :=
  key ← job_repeat_key_of job;
  options ← opt_repeat (job_options job);
  Some {| re_key := key; re_job_id := job_id job; re_name := job_name job; re_state := job_state job;
          re_scheduled_at := job_scheduled_at job; re_repeat_count := job_repeat_count job; re_options := options |}.

Definition is_live_owner (repeat_key : string) (job : Job) : bool :=
  negb (is_terminal (job_state job)) && bool_decide (job_repeat_key_of job = Some repeat_key).

Definition load_valid_repeat_entry (repeat_key owner_id : string) : Method (option JobRepeatEntry) :=
  let> job := fetch_job owner_id in
  give (match job with Some job => if is_live_owner repeat_key job then repeat_entry job else None | None => None end).

Definition CLEAR_REPEAT_OWNER_SCRIPT (KEYS ARGV : list string) : Script D unit :=
  let* owner := read (get (at_ KEYS 1)) in
  if bool_decide (owner = Some (at_ ARGV 1)) then
    do_ (DEL (at_ KEYS 1)) ;;;
    do_ (ZREM (at_ KEYS 2) (at_ ARGV 2)) ;;;
    do_ (DEL (at_ KEYS 3))
  else ret tt.

Definition clear_repeat_owner_if_stale (repeat_key owner_id : string) : D → D * Reply unit :=
  query (CLEAR_REPEAT_OWNER_SCRIPT
    [redis_key q (RepeatOwnerKey repeat_key); redis_key q RepeatSchedulersKey; redis_key q (RepeatSchedulerMetaKey repeat_key)]
    [owner_id; repeat_key]) Ok.

Definition CLEAR_REPEAT_OWNER_KEY_SCRIPT (KEYS ARGV : list string) : Script D unit :=
  let* owner := read (get (at_ KEYS 1)) in
  if bool_decide (owner = Some (at_ ARGV 1)) then do_ (DEL (at_ KEYS 1)) else ret tt.

Definition clear_repeat_owner_key_if_stale (repeat_key owner_id : string) : D → D * Reply unit :=
  query (CLEAR_REPEAT_OWNER_KEY_SCRIPT [redis_key q (RepeatOwnerKey repeat_key)] [owner_id]) Ok.

Definition restore_repeat_owner_if_missing (repeat_key owner_id : string) : D → D * Reply unit :=
  query (do_ (SETNX (redis_key q (RepeatOwnerKey repeat_key)) owner_id)) Ok.

Definition CLEAR_SCHEDULER_SCRIPT (KEYS ARGV : list string) : Script D unit :=
  do_ (ZREM (at_ KEYS 1) (at_ ARGV 1)) ;;; do_ (DEL (at_ KEYS 2)).

Definition clear_repeat_scheduler_metadata (repeat_key : string) : D → D * Reply unit :=
  query (CLEAR_SCHEDULER_SCRIPT [redis_key q RepeatSchedulersKey; redis_key q (RepeatSchedulerMetaKey repeat_key)] [repeat_key]) Ok.

Definition read_owner (repeat_key : string) : Method (option string) :=
  send_read (λ d, redis_read (get (redis_key q (RepeatOwnerKey repeat_key)) d)).
Definition read_scheduler_owner (repeat_key : string) : Method (option string) :=
  send_read (λ d, redis_read (hget (redis_key q (RepeatSchedulerMetaKey repeat_key)) "jid" d)).

(** The entry of the job that the scheduler names. *)
Definition load_scheduled_entry (repeat_key : string) (scheduler_owner_id : option string) : Method (option JobRepeatEntry) :=
  let forget := let> _ := send (clear_repeat_scheduler_metadata repeat_key) in give None in
  match scheduler_owner_id with
  | None => forget
  | Some scheduler_owner_id =>
      let> entry := load_valid_repeat_entry repeat_key scheduler_owner_id in
      match entry with
      | None => forget
      | Some entry => let> _ := send (restore_repeat_owner_if_missing repeat_key scheduler_owner_id) in give (Some entry)
      end
  end.

Definition load_repeat_entry (repeat_key : string) : Method (option JobRepeatEntry) :=
  if String.eqb repeat_key EmptyString then give None
  else
    let> owner_id := read_owner repeat_key in
    let> scheduler_owner_id := read_scheduler_owner repeat_key in
    match owner_id with
    | None => load_scheduled_entry repeat_key scheduler_owner_id
    | Some owner_id =>
        let> entry := load_valid_repeat_entry repeat_key owner_id in
        match entry with
        | Some entry => give (Some entry)
        | None =>
            if bool_decide (scheduler_owner_id = Some owner_id) || is_none scheduler_owner_id then
              let> _ := send (clear_repeat_owner_if_stale repeat_key owner_id) in give None
            else
              let> _ := send (clear_repeat_owner_key_if_stale repeat_key owner_id) in load_scheduled_entry repeat_key scheduler_owner_id
        end
    end.

Definition get_repeat (repeat_key : string) : Method (option JobRepeatEntry) := load_repeat_entry repeat_key.

(** The entries of the keys not seen yet. *)
Fixpoint load_entries (repeat_keys : list string) (seen : gset string) : Method (list JobRepeatEntry * gset string) :=
  match repeat_keys with
  | [] => give ([], seen)
  | repeat_key :: repeat_keys' =>
      if bool_decide (repeat_key ∈ seen) then load_entries repeat_keys' seen
      else
        let> entry := load_repeat_entry repeat_key in
        let> rest := load_entries repeat_keys' ({[repeat_key]} ∪ seen) in
        give (match entry with Some entry => entry :: rest.1 | None => rest.1 end, rest.2)
  end.

Definition strip_prefix (prefix s : string) : option string :=
  if String.prefix prefix s then Some (String.substring (String.length prefix) (String.length s - String.length prefix) s) else None.

Definition repeat_keys_of (owner_keys : list string) : list string :=
  List.filter (λ k, negb (String.eqb k EmptyString)) (omap (strip_prefix (redis_key q (RepeatOwnerKey EmptyString))) owner_keys).

(** [fuel] bounds the pages of the iteration over the keys of owners. *)
Fixpoint scan_entries (fuel : nat) (cursor : string) (seen : gset string) : Method (list JobRepeatEntry) :=
  match fuel with
  | O => Answer (fail (Other "out of fuel"))
  | S fuel' =>
      let> page := send_read (λ d, redis_read (scan cursor (redis_key q (RepeatOwnerKey EmptyString) +:+ "*") (number 100) d)) in
      let> found := load_entries (repeat_keys_of page.2) seen in
      if String.eqb page.1 "0" then give found.1
      else let> rest := scan_entries fuel' page.1 found.2 in give (found.1 ++ rest)
  end.

Definition list_repeats (fuel : nat) : Method (list JobRepeatEntry) :=
  let> scheduler_keys := send_read (λ d, redis_read (zall (redis_key q RepeatSchedulersKey) d)) in
  let> scheduled := load_entries scheduler_keys ∅ in
  let> others := scan_entries fuel "0" scheduled.2 in
  give (sort_by compare_repeat_key (scheduled.1 ++ others)).

Definition count_repeats (fuel : nat) : Method nat :=
  let> repeats := list_repeats fuel in give (length repeats).

Definition list_repeats_page (fuel offset limit : nat) (ascending : bool) : Method (list JobRepeatEntry * nat * nat * nat) :=
  let> repeats := list_repeats fuel in give (page_repeat_entries repeats offset limit ascending).

(** The job the scheduler names goes with the scheduler's entry. *)
Definition remove_scheduled (repeat_key : string) (scheduler_owner_id : option string) : Method (option Job) :=
  let forget removed := let> _ := send (clear_repeat_scheduler_metadata repeat_key) in give removed in
  match scheduler_owner_id with
  | None => forget None
  | Some scheduler_owner_id =>
      let> job := fetch_job scheduler_owner_id in
      match job with
      | None => forget None
      | Some job =>
          if negb (is_live_owner repeat_key job) then forget None
          else
            let> removed := send (λ d, remove_job_with_conn q scheduler_owner_id (utc d) d) in
            forget removed
      end
  end.

Definition remove_repeat (repeat_key : string) : Method (option Job) :=
  if String.eqb repeat_key EmptyString then give None
  else
    let> owner_id := read_owner repeat_key in
    match owner_id with
    | None => let> scheduler_owner_id := read_scheduler_owner repeat_key in remove_scheduled repeat_key scheduler_owner_id
    | Some owner_id =>
        let> removed := send (λ d, remove_job_with_conn q owner_id (utc d) d) in
        let> _ := if is_none removed then send (clear_repeat_owner_if_stale repeat_key owner_id) else give tt in
        give removed
    end.

(** ** Orphaned records *)
Fixpoint remove_orphaned_rounds (fuel : nat) (scan_count limit cursor total_removed : Z) : Method Z :=
  match fuel with
  | O => Answer (fail (Other "out of fuel"))
  | S fuel' =>
      let remaining := if limit =? 0 then 0 else Z.max 0 (limit - total_removed) in
      if (0 <? limit) && (remaining =? 0) then give total_removed
      else
        let> page := send (remove_orphaned_round q cursor scan_count remaining) in
        let '(next_cursor, removed) := page in
        let total_removed := sat_add U64_MAX total_removed removed in
        if (next_cursor =? 0) || ((0 <? limit) && (limit <=? total_removed)) then give total_removed
        else remove_orphaned_rounds fuel' scan_count limit next_cursor total_removed
  end.

Definition remove_orphaned_jobs (fuel : nat) (count limit : Z) : Method Z :=
  remove_orphaned_rounds fuel (if count =? 0 then 1000 else count) limit 0 0.

(** ** A claim that waits *)

(** [x.ceil() as i64]. *)
Definition ceil_i64 (x : f64) : Z := Z.max I64_MIN (Z.min I64_MAX (- floor_Z (f64_neg x))).

(** [deadline.checked_duration_since(now)]. *)
Definition remaining_until (deadline now : Z) : option Duration := if now <=? deadline then Some (deadline - now) else None.

Definition pop_marker (wait_for : Duration) : D → D * Reply (option (string * f64)) :=
  λ d, let '(d', r) := bzpopmin (redis_key q MarkerKey) (as_secs_f64 wait_for) d in (d', redis_read r).

(** The time until which the marker says nothing is due. *)
Definition block_until (known : option Z) (marker : option (string * f64)) : option Z :=
  match marker with
  | Some (member, score) => if String.eqb member "1" then Some (ceil_i64 score) else None
  | None => known
  end.

Definition time_up (block_for : Duration) (deadline now : Z) : bool :=
  is_zero_duration block_for || match remaining_until deadline now with Some remaining => is_zero_duration remaining | None => true end.

Definition active_claim_rate_limit_ttl_with_conn (rate_limit : option JobRateLimit) : D → D * Reply Z :=
  query (eval_call q ACTIVE_CLAIM_RATE_LIMIT_TTL_SCRIPT
    (active_claim_rate_limit_ttl_call match rate_limit with Some l => max_claims l | None => 0 end)) Ok.

(** [tokens] are the values [Uuid::new_v4] draws, one for a claim. *)
Fixpoint claim_rounds (rate_limit : option JobRateLimit) (worker_id : string) (lease_for block_for : Duration) (deadline : Z)
    (tokens : list string) (first_attempt : bool) (block_until_millis : option Z) : Method (option Job) :=
  match tokens with
  | [] => Answer (fail (Other "out of fuel"))
  | token :: tokens' =>
      let again := claim_rounds rate_limit worker_id lease_for block_for deadline tokens' false in
      let attempt :=
        let> job := send (λ d, claim_next_with_conn q rate_limit worker_id lease_for (utc d) token d) in
        match job with
        | Some job => give (Some job)
        | None =>
            let> now := send_read (λ d, Ok (instant d)) in
            match remaining_until deadline now with
            | None => give None
            | Some remaining =>
                if is_zero_duration block_for || is_zero_duration remaining then give None
                else
                  let> rate_limit_ttl := send (active_claim_rate_limit_ttl_with_conn rate_limit) in
                  if 0 <? rate_limit_ttl then
                    let wait_for := Z.min (Z.min (from_millis rate_limit_ttl) remaining) MAX_MARKER_BLOCK_TIMEOUT in
                    if is_zero_duration wait_for then again block_until_millis
                    else let> _ := send (λ d, (sleep wait_for d, Ok tt)) in again block_until_millis
                  else
                    let> now := send_read (λ d, Ok (utc d)) in
                    let wait_for := marker_block_timeout block_until_millis remaining now in
                    if is_zero_duration wait_for then again None
                    else let> marker := send (pop_marker wait_for) in again (block_until block_until_millis marker)
            end
        end in
      if first_attempt then attempt
      else
        let> now := send_read (λ d, Ok (instant d)) in
        if time_up block_for deadline now then give None else attempt
  end.

Definition claim_next_blocking (rate_limit : option JobRateLimit) (worker_id : string) (lease_for block_for : Duration) (tokens : list string)
    : Method (option Job) :=
  let> start := send_read (λ d, Ok (instant d)) in
  claim_rounds rate_limit worker_id lease_for block_for (start + block_for) tokens true None.
End methods.

(** ** What the regions do *)
Section rules.
Context {X : Ext} {R : RedisExt} {L : LuaLibs} {D : Type} `{!Redis D, !RedisLaws D, !Clock D}.
Variable q : RedisQueueName.
Abbreviation marker := (redis_key q MarkerKey).
Abbreviation delayed := (redis_key q (StateKey Delayed)).

(** Read without anybody else, the record and the lock are those of one state. *)
Lemma fetch_alone job_id d : alone (fetch_job q job_id) d = (d, load_job q job_id d).
Proof.
  unfold fetch_job, load_job. cbn. destruct (redis_read (hget _ _ d)) as [[raw|]|e]; cbn; [|done..].
  destruct (decode_job raw) as [job|e]; cbn; [|done]. destruct (state_eqb _ _); cbn; [|done].
  by destruct (redis_read (get _ d)) as [token|e].
Qed.

(** *** A claim that finds nothing leaves the marker of the next delayed job *)
Definition as_before (i : string) (d d' : D) : Prop :=
  zscore marker "1" d' = zscore marker "1" d ∧ zscore delayed i d' = zscore delayed i d.

Lemma before_other i c k d : command_key c = redis_key q k → parent_of k = None → k ≠ MarkerKey → k ≠ StateKey Delayed →
  as_before i d (exec c d).1.
Proof.
  intros Hc Hp Hm Hd. split; apply frame_member; [by apply (untouched q c k _ MarkerKey)|by apply (untouched q c k _ (StateKey Delayed))].
Qed.

Lemma skipped KEYS ARGV limit i id d d' : claim_tables q KEYS ARGV →
  try_candidate KEYS ARGV limit id d = (d', Ok None) → as_before i d d'.
Proof.
  intros H (d1 & raw & [= <- _] & E)%bind_run. assert (∀ d', (do_ (ZREM (at_ KEYS 1) id) ;;; ret None) d = (d', Ok (A := option string) None) →
    as_before i d d') as Hskip.
  { intros d2 (d3 & u & [r E1]%do_run & [= <-])%bind_run.
    replace d3 with (exec (ZREM (at_ KEYS 1) id) d).1 by (by rewrite E1). rewrite (ct_waiting _ _ _ H).
    by apply (before_other i _ (StateKey Waiting)). }
  destruct raw as [raw|]; [|by apply Hskip].
  apply bind_run in E as (d2 & job & [-> _]%value_run & E). apply bind_run in E as (d3 & state & [-> _]%value_run & E).
  destruct (is_text state "waiting"); [by apply bind_run in E as (? & ? & _ & [=])|by apply Hskip].
Qed.

Lemma all_skipped KEYS ARGV limit i ids d d' : claim_tables q KEYS ARGV →
  first_result ids (try_candidate KEYS ARGV limit) d = (d', Ok None) → as_before i d d'.
Proof.
  intros H. revert d. induction ids as [|id ids IH]; intros d; [by intros [= <-]|]. simpl.
  intros (d1 & r & E & E')%bind_run. destruct r as [b|]; [done|]. apply (skipped _ _ _ i) in E as [H1 H2]; [|done].
  apply IH in E' as [H3 H4]. split; congruence.
Qed.

Lemma refreshed i s d d' u : refresh_delay_marker marker delayed d = (d', Ok u) → zscore delayed i d' = Ok (Some s) →
  ∃ s', zscore marker "1" d' = Ok (Some s').
Proof.
  unfold refresh_delay_marker. destruct (String.eqb_spec marker EmptyString) as [E|_].
  { exfalso. revert E. unfold redis_key, key, queue_key_prefix. destruct (rq_namespace q); discriminate. }
  intros (d1 & next & [= <- Hz] & E)%bind_run Hs. destruct next as [[m score]|]; apply do_run in E as [r E].
  - by eapply zadd_member.
  - exfalso. apply (zfirst_some delayed i s d); [|done]. rewrite <- Hs.
    replace d' with (exec (ZREM marker "1") d).1 by (by rewrite E). symmetry. apply frame_member.
    by apply (untouched q _ MarkerKey _ (StateKey Delayed)).
Qed.

Lemma claim_run rate worker lease now token d d' : claim_next_with_conn q rate worker lease now token d = (d', Ok None) →
  ∃ limit window, eval_call q CLAIM_SCRIPT (claim_next_call (add_duration now lease) now worker token lease limit window) d = (d', Ok None).
Proof.
  unfold claim_next_with_conn, query. cbn zeta. destruct (eval_call _ _ _ d) as [d1 [raw|e]] eqn:E; [|done].
  destruct raw as [raw|]; [by destruct (decode_job raw)|]. intros [= <-]. by repeat eexists.
Qed.

Lemma empty_claim KEYS ARGV i s d d' : claim_tables q KEYS ARGV → CLAIM_SCRIPT KEYS ARGV d = (d', Ok None) →
  zscore delayed i d' = Ok (Some s) → ∃ s', zscore marker "1" d' = Ok (Some s').
Proof.
  intros H (d1 & paused & _ & E)%bind_run Hs. apply bind_run in E as (d2 & due & _ & E). apply bind_run in E as (d3 & u3 & _ & E).
  apply bind_run in E as (d4 & u4 & Em & E). rewrite (ct_marker _ _ _ H), (ct_delayed _ _ _ H) in Em.
  apply bind_run in E as (d5 & lim & El & E). apply bind_run in E as (d6 & limited & El' & E).
  apply (keeps_run (as_before i d4) _ _ _ _ (keeps_limit (as_before i d4) KEYS ARGV)) in El; [|done].
  apply (keeps_run (as_before i d4) _ _ _ _ (keeps_limited (as_before i d4) KEYS lim)) in El'; [|done].
  assert (as_before i d6 d') as [Hm Hd].
  { destruct limited; [by injection E as <-|]. destruct paused; [by injection E as <-|].
    apply bind_run in E as (d7 & ids & [= <- _] & E). by apply (all_skipped _ _ _ i) in E. }
  destruct El' as [Hm' Hd']. rewrite Hd, Hd' in Hs. rewrite Hm, Hm'. by eapply refreshed.
Qed.

(** A claim that finds nothing writes the marker of the next delayed job, even
    if a worker has just popped it: while a job is delayed, a worker that waits
    for the marker pops it at once. *)
Theorem empty_claim_leaves_marker rate worker lease now token i s d d' :
  claim_next_with_conn q rate worker lease now token d = (d', Ok None) → zscore delayed i d' = Ok (Some s) →
  ∃ s', zscore marker "1" d' = Ok (Some s').
Proof. intros (limit & window & E)%claim_run. apply (empty_claim _ _ _ _ _ _ (claim_call_tables _ _ _ _ _ _ _ _) E). Qed.

(** A worker that waits while a job is delayed does not wait: a round that
    finds nothing goes on to the next without any time passing, until the job
    is due or the deadline has come. *)
Theorem delayed_job_busy_loop `{!ClockLaws D} rate worker lease block_for deadline token tokens until ttl i s d d1 :
  claim_next_with_conn q rate worker lease (utc d) token d = (d1, Ok None) → zscore delayed i d1 = Ok (Some s) →
  active_claim_rate_limit_ttl_with_conn q rate d1 = (d1, Ok ttl) →
  ttl ≤ 0 → block_for ≠ 0 → instant d1 < deadline →
  ∃ until' d2, instant d2 = instant d1 ∧
    alone (claim_rounds q rate worker lease block_for deadline (token :: tokens) true until) d =
    alone (claim_rounds q rate worker lease block_for deadline tokens false until') d2.
Proof.
  intros Hclaim Hs Httl Hle Hblock Hinstant. destruct (empty_claim_leaves_marker _ _ _ _ _ _ _ _ _ Hclaim Hs) as [s' Hm].
  cbn [claim_rounds]. rewrite alone_continue. cbn [alone send]. rewrite Hclaim. cbn [alone give].
  rewrite alone_continue. cbn [alone send_read send give]. unfold remaining_until. rewrite (proj2 (Z.leb_le _ _)) by lia.
  unfold is_zero_duration at 1 2. rewrite (proj2 (Z.eqb_neq _ 0)) by done. rewrite (proj2 (Z.eqb_neq (deadline - instant d1) 0)) by lia.
  cbn [orb]. rewrite alone_continue. cbn [alone send]. rewrite Httl. cbn [alone give]. rewrite (proj2 (Z.ltb_ge _ _)) by lia.
  rewrite alone_continue. cbn [alone send_read send give]. cbn zeta. destruct (is_zero_duration (marker_block_timeout _ _ _)).
  - by exists None, d1.
  - rewrite alone_continue. cbn [alone send]. unfold pop_marker.
    destruct (pop_at_once marker (as_secs_f64 (marker_block_timeout until (deadline - instant d1) (utc d1))) _ _ _ Hm) as (d2 & popped & -> & Hi).
    cbn [redis_read alone give]. by exists (block_until until (Some popped)), d2.
Qed.

(** Once the time is up, the next round ends with nothing. *)
Lemma time_up_ends rate worker lease block_for deadline token tokens until d : time_up block_for deadline (instant d) = true →
  alone (claim_rounds q rate worker lease block_for deadline (token :: tokens) false until) d = (d, Ok None).
Proof. intros H. cbn [claim_rounds]. rewrite alone_continue. cbn [alone send_read send give]. by rewrite H. Qed.

(** *** Rounds end

    [left] is how much an iteration has still to visit; more fuel than that
    makes no difference. *)
Lemma orphan_rounds_end (left : Z → D → nat) scan_count limit :
  (∀ cursor remaining d d' next removed, remove_orphaned_round q cursor scan_count remaining d = (d', Ok (next, removed)) → next ≠ 0 →
     (left next d' < left cursor d)%nat) →
  ∀ fuel fuel' cursor total d, (left cursor d < fuel)%nat → (left cursor d < fuel')%nat →
    alone (remove_orphaned_rounds q fuel scan_count limit cursor total) d = alone (remove_orphaned_rounds q fuel' scan_count limit cursor total) d.
Proof.
  intros Hleft. induction fuel as [|fuel IH]; intros [|fuel'] cursor total d H H'; try lia. cbn [remove_orphaned_rounds]. cbn zeta.
  destruct (_ && _); [done|]. rewrite !alone_continue. cbn [alone send].
  destruct (remove_orphaned_round _ _ _ _ _) as [d1 [[next removed]|e]] eqn:E; [|done]. cbn [alone give].
  destruct (Z.eqb_spec next 0) as [->|Hne]; [done|]. cbn [orb]. destruct (_ && _); [done|].
  specialize (Hleft _ _ _ _ _ _ E Hne). apply IH; lia.
Qed.

Lemma repeat_pages_end (left : string → D → nat) :
  (∀ cursor d next keys, scan cursor (redis_key q (RepeatOwnerKey EmptyString) +:+ "*") (number 100) d = Ok (next, keys) → next ≠ "0" →
     (left next d < left cursor d)%nat) →
  (∀ keys seen cursor d d' found, alone (load_entries q keys seen) d = (d', Ok found) → (left cursor d' ≤ left cursor d)%nat) →
  ∀ fuel fuel' cursor seen d, (left cursor d < fuel)%nat → (left cursor d < fuel')%nat →
    alone (scan_entries q fuel cursor seen) d = alone (scan_entries q fuel' cursor seen) d.
Proof.
  intros Hscan Hload. induction fuel as [|fuel IH]; intros [|fuel'] cursor seen d H H'; try lia. cbn [scan_entries].
  rewrite !alone_continue. cbn [alone send_read send]. destruct (scan _ _ _ d) as [[next keys]|e] eqn:E; [|done].
  cbn [redis_read alone give fst snd]. rewrite !alone_continue.
  destruct (alone (load_entries _ _ _) d) as [d1 [found|e]] eqn:El; [|done].
  destruct (String.eqb_spec next "0") as [->|Hne]; [done|]. rewrite !alone_continue.
  specialize (Hscan _ _ _ _ E Hne). specialize (Hload _ _ next _ _ _ El). by rewrite (IH fuel') by lia.
Qed.

(** *** Series that nobody disturbs *)
Abbreviation owner_key k := (redis_key q (RepeatOwnerKey k)).
Abbreviation schedulers := (redis_key q RepeatSchedulersKey).
Abbreviation meta_key k := (redis_key q (RepeatSchedulerMetaKey k)).

(** The entry of the job that is stored under an id. *)
Definition entry_of (k i : string) (d : D) : Reply (option JobRepeatEntry) :=
  let? job := load_job q i d in
  Ok (match job with Some job => if is_live_owner k job then repeat_entry job else None | None => None end).

Lemma valid_alone k i d : alone (load_valid_repeat_entry q k i) d = (d, entry_of k i d).
Proof.
  unfold load_valid_repeat_entry, entry_of. rewrite alone_continue, fetch_alone. by destruct (load_job q i d) as [job|e].
Qed.

Lemma entry_of_key k i d e : entry_of k i d = Ok (Some e) → re_key e = k.
Proof.
  unfold entry_of. destruct (load_job q i d) as [[job|]|]; cbn; [|done..]. destruct (is_live_owner k job) eqn:H; [|done].
  unfold is_live_owner in H. apply andb_prop in H as [_ H%bool_decide_eq_true]. unfold repeat_entry. rewrite H. cbn.
  destruct (opt_repeat _); [|done]. by intros [= <-].
Qed.

(** What does not touch the records and the locks. *)
Definition elsewhere (k : RedisKey) : Prop := parent_of k = None ∧ k ≠ JobsKey ∧ ∀ i, k ≠ LockKey i.

Lemma entry_elsewhere c k0 k i d : command_key c = redis_key q k0 → elsewhere k0 → entry_of k i (exec c d).1 = entry_of k i d.
Proof.
  intros Hc (Hp & Hj & Hl). unfold entry_of, load_job.
  rewrite frame_field by (by apply (untouched q c k0 _ JobsKey)).
  by rewrite frame_string by (by apply (untouched q c k0 _ (LockKey i))).
Qed.

Lemma owner_kept c k0 k d : command_key c = redis_key q k0 → parent_of k0 = None → k0 ≠ RepeatOwnerKey k →
  get (owner_key k) (exec c d).1 = get (owner_key k) d.
Proof. intros Hc Hp Hne. apply frame_string. by apply (untouched q c k0 _ (RepeatOwnerKey k)). Qed.

Lemma query_ok {A B} (m : Script D A) (k : A → Reply B) d d' b : query m k d = (d', Ok b) → ∃ a, m d = (d', Ok a) ∧ k a = Ok b.
Proof. unfold query. destruct (m d) as [d1 [a|e]]; [|done]. intros [= <- H]. by exists a. Qed.

Lemma forgotten k d d' u : clear_repeat_scheduler_metadata q k d = (d', Ok u) →
  get (owner_key k) d' = get (owner_key k) d ∧ zscore schedulers k d' = Ok None.
Proof.
  intros (a & (d1 & u1 & [r1 E1]%do_run & [r2 E2]%do_run)%bind_run & _)%query_ok. cbn [at_ nth Nat.sub] in *.
  replace d' with (exec (DEL (meta_key k)) d1).1 by (by rewrite E2). split.
  - rewrite (owner_kept _ (RepeatSchedulerMetaKey k)) by done.
    replace d1 with (exec (ZREM schedulers k) d).1 by (by rewrite E1). by apply (owner_kept _ RepeatSchedulersKey).
  - rewrite frame_member by (by apply (untouched q _ (RepeatSchedulerMetaKey k) _ RepeatSchedulersKey)). by eapply zrem_member.
Qed.

Lemma owner_cleared k i d d' u : get (owner_key k) d = Ok (Some i) → clear_repeat_owner_if_stale q k i d = (d', Ok u) →
  get (owner_key k) d' = Ok None ∧ zscore schedulers k d' = Ok None.
Proof.
  intros Ho (a & (d1 & o & [= <- E] & H)%bind_run & _)%query_ok. cbn [at_ nth Nat.sub] in *. rewrite Ho in E. injection E as <-.
  rewrite bool_decide_eq_true_2 in H by done. apply bind_run in H as (d2 & u2 & [r2 E2]%do_run & (d3 & u3 & [r3 E3]%do_run & [r4 E4]%do_run)%bind_run).
  replace d' with (exec (DEL (meta_key k)) d3).1 by (by rewrite E4). split.
  - rewrite (owner_kept _ (RepeatSchedulerMetaKey k)) by done.
    replace d3 with (exec (ZREM schedulers k) d2).1 by (by rewrite E3). rewrite (owner_kept _ RepeatSchedulersKey) by done. by eapply del_string.
  - rewrite frame_member by (by apply (untouched q _ (RepeatSchedulerMetaKey k) _ RepeatSchedulersKey)). by eapply zrem_member.
Qed.

Lemma owner_key_cleared k i d d' u : get (owner_key k) d = Ok (Some i) → clear_repeat_owner_key_if_stale q k i d = (d', Ok u) →
  get (owner_key k) d' = Ok None ∧ ∀ j, entry_of k j d' = entry_of k j d.
Proof.
  intros Ho (a & (d1 & o & [= <- E] & H)%bind_run & _)%query_ok. cbn [at_ nth Nat.sub] in *. rewrite Ho in E. injection E as <-.
  rewrite bool_decide_eq_true_2 in H by done. apply do_run in H as [r H].
  replace d' with (exec (DEL (owner_key k)) d).1 by (by rewrite H). split; [by rewrite H; eapply del_string|].
  intros j. by apply (entry_elsewhere _ (RepeatOwnerKey k)).
Qed.

Lemma scheduled_alone k d d' o r : get (owner_key k) d = Ok None → alone (load_scheduled_entry q k o) d = (d', Ok r) →
  match r with
  | Some e => ∃ i, o = Some i ∧ entry_of k i d = Ok (Some e) ∧ get (owner_key k) d' = Ok (Some i)
  | None => get (owner_key k) d' = Ok None ∧ zscore schedulers k d' = Ok None
  end.
Proof.
  intros Ho. assert (∀ d', alone (let> _ := send (clear_repeat_scheduler_metadata q k) in give None) d = (d', Ok r) →
    r = None ∧ get (owner_key k) d' = Ok None ∧ zscore schedulers k d' = Ok None) as Hforget.
  { intros d1 H. rewrite alone_continue in H. cbn [alone send] in H. destruct (clear_repeat_scheduler_metadata q k d) as [d2 [u|e]] eqn:E; [|done].
    injection H as <- <-. apply forgotten in E as [-> Hz]. done. }
  unfold load_scheduled_entry. cbn zeta. destruct o as [i|]; [|by intros [-> H]%Hforget].
  rewrite alone_continue, valid_alone. destruct (entry_of k i d) as [[e|]|] eqn:He; [|by intros [-> H]%Hforget|done].
  rewrite alone_continue. cbn [alone send]. destruct (restore_repeat_owner_if_missing q k i d) as [d2 [u|e']] eqn:E; [|done].
  intros [= <- <-]. exists i. split_and!; try done. apply query_ok in E as (a & [r E]%do_run & _). by eapply setnx_absent.
Qed.

(** C38: reading a series repairs it.  An entry that [get_repeat] returns is that of
    an unfinished job of the series, named by the owner key or, where that is
    missing or stale, by the scheduler; the owner key names that job then.
    Where it returns none, the owner key and the scheduler's entry are gone. *)
Theorem reading_repairs k d d' r : k ≠ EmptyString → alone (get_repeat q k) d = (d', Ok r) →
  match r with
  | Some e => ∃ i, (get (owner_key k) d = Ok (Some i) ∨ hget (meta_key k) "jid" d = Ok (Some i)) ∧
      entry_of k i d = Ok (Some e) ∧ re_key e = k ∧ get (owner_key k) d' = Ok (Some i)
  | None => get (owner_key k) d' = Ok None ∧ zscore schedulers k d' = Ok None
  end.
Proof.
  intros Hk. unfold get_repeat, load_repeat_entry. rewrite (proj2 (String.eqb_neq _ _) Hk), alone_continue. cbn [alone send_read send read_owner].
  destruct (get (owner_key k) d) as [o|e] eqn:Ho; [|done]. cbn [redis_read alone give]. rewrite alone_continue. cbn [alone send_read send read_scheduler_owner].
  destruct (hget (meta_key k) "jid" d) as [s|e] eqn:Hs; [|done]. cbn [redis_read alone give].
  destruct o as [o|].
  - rewrite alone_continue, valid_alone. destruct (entry_of k o d) as [[e|]|e] eqn:He; [| |done].
    { intros [= <- <-]. exists o. split_and!; [by left|done|by eapply entry_of_key|done]. }
    destruct (_ || _).
    + rewrite alone_continue. cbn [alone send]. destruct (clear_repeat_owner_if_stale q k o d) as [d1 [u|e]] eqn:E; [|done].
      intros [= <- <-]. by apply owner_cleared in E.
    + rewrite alone_continue. cbn [alone send]. destruct (clear_repeat_owner_key_if_stale q k o d) as [d1 [u|e]] eqn:E; [|done].
      apply owner_key_cleared in E as [Hn Hsame]; [|done]. intros H%scheduled_alone; [|done]. destruct r as [e|]; [|done].
      destruct H as (i & -> & He' & Hi). rewrite Hsame in He'. exists i. split_and!; [by right|done|by eapply entry_of_key|done].
  - intros H%scheduled_alone; [|done]. destruct r as [e|]; [|done]. destruct H as (i & -> & He' & Hi).
    exists i. split_and!; [by right|done|by eapply entry_of_key|done].
Qed.

(** *** Series that somebody submits meanwhile *)

(** A reader that found no series forgets the scheduler of the series that
    another client submits before its last command: the owner and the record
    stay, the scheduler's entry is gone. *)
Theorem reading_forgets_series (others : D → D → Prop) k d d1 d2 d3 r1 r2 : k ≠ EmptyString →
  get (owner_key k) d = Ok None → hget (meta_key k) "jid" d = Ok None →
  (∀ d, others d d) → others d d1 →
  exec (ZREM schedulers k) d1 = (d2, Ok r1) → exec (DEL (meta_key k)) d2 = (d3, Ok r2) →
  runs others (get_repeat q k) d d3 (Ok None) ∧ zscore schedulers k d3 = Ok None ∧
  get (owner_key k) d3 = get (owner_key k) d1 ∧ ∀ i, entry_of k i d3 = entry_of k i d1.
Proof.
  intros Hk Ho Hs Hrefl H1 E2 E3. split_and!.
  - unfold get_repeat, load_repeat_entry. rewrite (proj2 (String.eqb_neq _ _) Hk). cbn [continue_with read_owner read_scheduler_owner send_read send give runs].
    exists d. split; [done|]. rewrite Ho. cbn [redis_read continue_with runs]. exists d. split; [done|]. rewrite Hs. cbn [redis_read continue_with runs load_scheduled_entry].
    exists d1. split; [done|]. unfold clear_repeat_scheduler_metadata, query, CLEAR_SCHEDULER_SCRIPT, do_, call, bind. cbn [at_ nth Nat.sub].
    rewrite E2. cbn. rewrite E3. by split.
  - replace d3 with (exec (DEL (meta_key k)) d2).1 by (by rewrite E3).
    rewrite frame_member by (by apply (untouched q _ (RepeatSchedulerMetaKey k) _ RepeatSchedulersKey)). by eapply zrem_member.
  - replace d3 with (exec (DEL (meta_key k)) d2).1 by (by rewrite E3). rewrite (owner_kept _ (RepeatSchedulerMetaKey k)) by done.
    replace d2 with (exec (ZREM schedulers k) d1).1 by (by rewrite E2). by apply (owner_kept _ RepeatSchedulersKey).
  - intros i. replace d3 with (exec (DEL (meta_key k)) d2).1 by (by rewrite E3). rewrite (entry_elsewhere _ (RepeatSchedulerMetaKey k)) by done.
    replace d2 with (exec (ZREM schedulers k) d1).1 by (by rewrite E2). by apply (entry_elsewhere _ RepeatSchedulersKey).
Qed.
End rules.
