(* ===== verification/RedisAdds.v ===== *)
(** * Adding jobs to Redis ([src/job/redis.rs])

    [ADD_JOB_SCRIPT], [ADD_JOBS_SCRIPT] and [UPSERT_REPEAT_SCRIPT] with their
    local functions, and the methods that send them: what a taken id, a taken
    deduplication id and a taken repeat key do to a new job. *)
From S2P Require Import Prelude Ordering Text Float64 External JobTypes JobStore JobDedup JobCore JobQueries JobAdd Backend FloatOrder LuaDates RedisKeys RedisReplies RedisCalls RedisLua RedisLeases RedisFinish RedisReports RedisMoves RedisRemovals.
Local Open Scope Z_scope.

(** The keys and arguments of the scripts that add, and what the client says of
    one new job.  Only three of them have a prefix of logs. *)
Record AddArgs := mkAddArgs {
  aa_jobs : string; aa_waiting : string; aa_delayed : string; aa_waiting_children : string; aa_active : string;
  aa_sequence : string; aa_events : string; aa_marker : string;
  aa_deduplication : string; aa_deduplication_next : string; aa_repeat : string; aa_logs : string; aa_max_events : string;
}.

Record NewRow := mkRow {
  row_id : string; row_raw : string; row_state : string; row_scheduled : string; row_priority : string;
  row_deduplication : string; row_repeat : string;
}.

Definition row_at (ARGV : list string) (offset : nat) : NewRow := {|
  row_id := at_ ARGV offset; row_raw := at_ ARGV (offset + 1); row_state := at_ ARGV (offset + 2);
  row_scheduled := at_ ARGV (offset + 3); row_priority := at_ ARGV (offset + 4);
  row_deduplication := at_ ARGV (offset + 5); row_repeat := at_ ARGV (offset + 6) |}.

Section adds.
Context {L : LuaLibs} {D : Type} `{!Redis D}.

Definition emit_added (a : AddArgs) (fields : list string) : Script D unit :=
  do_ (XADD (aa_events a) (aa_max_events a) fields).

(** ** The owner of a deduplication id *)

(** A job that finished owns its id while the key has a time to live. *)
Definition finished_owner (deduplication_key existing_id existing_raw : string) : Script D (option (string * string)) :=
  let* existing_job := decode existing_raw in
  let* state := getf existing_job "state" in
  if is_finished state then
    let* ttl := read (pttl deduplication_key) in
    if 0 <? ttl then ret (Some (existing_id, existing_raw)) else do_ (DEL deduplication_key) ;;; ret None
  else ret (Some (existing_id, existing_raw)).

(** The id and the record of the owner; the upsert ignores one job. *)
Definition active_deduplication (jobs_key deduplication_prefix deduplication_id ignored_job_id : string)
    : Script D (option (string * string)) :=
  if String.eqb deduplication_id EmptyString then ret None
  else
    let deduplication_key := deduplication_prefix +:+ deduplication_id in
    let* existing_id := read (get deduplication_key) in
    match existing_id with
    | None => ret None
    | Some existing_id =>
        if negb (String.eqb ignored_job_id EmptyString) && String.eqb existing_id ignored_job_id then ret None
        else
          let* existing_raw := read (hget jobs_key existing_id) in
          match existing_raw with
          | None => do_ (DEL deduplication_key) ;;; ret None
          | Some raw => finished_owner deduplication_key existing_id raw
          end
    end.

Definition active_deduplicated_raw (jobs_key deduplication_prefix deduplication_id : string) : Script D (option string) :=
  let* owner := active_deduplication jobs_key deduplication_prefix deduplication_id EmptyString in ret (snd <$> owner).

Definition active_deduplicated_owner_id (jobs_key deduplication_prefix deduplication_id ignored_job_id : string)
    : Script D (option string) :=
  let* owner := active_deduplication jobs_key deduplication_prefix deduplication_id ignored_job_id in ret (fst <$> owner).

(** [job["options"]["deduplication"]]. *)
Definition deduplication_option (job : Lua) : Script D Lua :=
  let* options := getf job "options" in getf options "deduplication".

Definition set_new_deduplication_key (job : Lua) (job_id deduplication_prefix : string) (keep_existing_ttl : bool) : Script D unit :=
  let* ttl := deduplication_ttl_millis job in
  let* deduplication := deduplication_option job in
  let* id := getf deduplication "id" in
  match ttl with
  | None => let* id := text id in do_ (SETPLAIN (deduplication_prefix +:+ id) job_id)
  | Some ttl =>
      let* extend := getf deduplication "extend" in
      let* id := text id in
      if keep_existing_ttl && negb (is_true extend) then do_ (SETKEEP (deduplication_prefix +:+ id) job_id)
      else do_ (SET (deduplication_prefix +:+ id) job_id (lua_text ttl))
  end.

(** [t[name] and t[name] ~= cjson.null and #t[name] > 0]. *)
Definition has_items (t : Lua) (name : string) : Script D bool :=
  let* v := optional_field t name in
  match v with
  | None => ret false
  | Some (LTable items _) => ret (negb (Nat.eqb (length items) 0))
  | Some (LString s) => ret (negb (String.eqb s EmptyString))
  | Some _ => raise "attempt to get the length of a value"
  end.

Definition has_field (t : Lua) (name : string) : Script D bool :=
  let* v := optional_field t name in ret (is_some v).

(** [c] decides, or the rest does. *)
Definition and_then (c : Script D bool) (rest : Script D bool) : Script D bool :=
  let* b := c in if b : bool then rest else ret false.
Definition unless (c : Script D bool) (rest : Script D bool) : Script D bool :=
  let* b := c in if b : bool then ret false else rest.

Definition deduplication_flag (job : Lua) (name : string) : Script D bool :=
  let* deduplication := deduplication_of job in
  match deduplication with Some d => let* v := getf d name in ret (is_true v) | None => ret false end.

Definition in_state (job : Lua) (s : string) : Script D bool := let* state := getf job "state" in ret (is_text state s).

Definition can_replace_deduplicated_owner (candidate_job existing_job : Lua) : Script D bool :=
  and_then (deduplication_flag candidate_job "replace")
    (and_then (in_state existing_job "delayed")
       (unless (has_field candidate_job "repeat_key")
          (unless (has_field existing_job "parent_id")
             (unless (has_field existing_job "repeat_key")
                (unless (has_items existing_job "child_ids") (ret true)))))).

Definition listed_in (key : string) (job : Lua) : Script D bool :=
  let* id := getf job "id" in
  let* id := text id in
  let* score := read (zscore key id) in
  ret (is_some score).

(** Both have no repeat key, or the same. *)
Definition same_series (candidate_job existing_job : Lua) : Script D bool :=
  let* candidate := getf candidate_job "repeat_key" in
  let* existing := getf existing_job "repeat_key" in
  let has v := match v with LNil => false | v => not_null v end in
  ret (Bool.eqb (has candidate) (has existing) && (negb (has candidate) || lua_eq candidate existing)).

Definition can_store_deduplicated_next (candidate_job existing_job : Lua) (active_key : string) : Script D bool :=
  and_then (deduplication_flag candidate_job "keep_last_if_active")
    (and_then (in_state existing_job "active")
       (and_then (listed_in active_key existing_job)
          (unless (has_field candidate_job "parent_id")
             (and_then (same_series candidate_job existing_job)
                (unless (has_items candidate_job "child_ids") (ret true)))))).

Definition store_deduplicated_next (a : AddArgs) (candidate_raw : string) (candidate_job : Lua) : Script D unit :=
  let* deduplication := deduplication_option candidate_job in
  let* id := getf deduplication "id" in
  let* id := text id in
  do_ (SETPLAIN (aa_deduplication_next a +:+ id) candidate_raw) ;;;
  do_ (PERSIST (aa_deduplication a +:+ id)).

(** [replace_counts]: the scripts that add flows do not look at [replace]. *)
Definition extend_deduplicated_owner (a : AddArgs) (replace_counts : bool) (candidate_job existing_job : Lua) : Script D unit :=
  let* deduplication := deduplication_of candidate_job in
  match deduplication with
  | None => ret tt
  | Some d =>
      let* replace := getf d "replace" in
      let* extend := getf d "extend" in
      let* keep := getf d "keep_last_if_active" in
      if (replace_counts && is_true replace) || negb (is_true extend) || is_true keep then ret tt
      else
        let* ttl := getf d "ttl" in
        let* ttl := duration_millis_of ttl in
        match ttl with
        | None => ret tt
        | Some ttl =>
            let* id := getf d "id" in
            let* id := text id in
            let* existing_id := getf existing_job "id" in
            let* existing_id := text existing_id in
            do_ (SET (aa_deduplication a +:+ id) existing_id (lua_text ttl))
        end
  end.

Definition deduplication_replace (candidate_job : Lua) : Script D bool := deduplication_flag candidate_job "replace".

(** *** Events *)
Definition emit_deduplication_events (a : AddArgs) (event_job_id deduplication_id deduplicated_job_id : Lua) : Script D unit :=
  let* job_id := text event_job_id in
  let* id := text deduplication_id in
  emit_added a ["event"; "debounced"; "jobId"; job_id; "debounceId"; id] ;;;
  let* deduplicated := text deduplicated_job_id in
  emit_added a ["event"; "deduplicated"; "jobId"; job_id; "deduplicationId"; id; "deduplicatedJobId"; deduplicated].

Definition emit_deduplicated_events (a : AddArgs) (owner_job candidate_job : Lua) : Script D unit :=
  let* deduplication := deduplication_option candidate_job in
  let* deduplication_id := getf deduplication "id" in
  let* owner_id := getf owner_job "id" in
  let* candidate_id := getf candidate_job "id" in
  emit_deduplication_events a owner_id deduplication_id candidate_id.

Definition emit_replaced_deduplicated_owner_events (a : AddArgs) (candidate_job existing_job : Lua) : Script D unit :=
  let* deduplication := deduplication_option candidate_job in
  let* deduplication_id := getf deduplication "id" in
  let* existing_id := getf existing_job "id" in
  let* removed_id := text existing_id in
  emit_added a ["event"; "removed"; "jobId"; removed_id; "prev"; "delayed"] ;;;
  let* candidate_id := getf candidate_job "id" in
  emit_deduplication_events a candidate_id deduplication_id existing_id.

(** ** The owner of a repeat key *)

(** The scheduler of a series is dropped where its owner is gone or done. *)
Definition drop_scheduler (repeat_prefix key : string) : Script D unit :=
  do_ (ZREM (repeat_scheduler_key repeat_prefix) key) ;;; do_ (DEL (repeat_scheduler_meta_key repeat_prefix key)).

(** A record belongs to a series that goes on. *)
Definition continues_series (key : string) (job : Lua) : Script D bool :=
  let* state := getf job "state" in
  let* owned := getf job "repeat_key" in
  ret (negb (is_finished state) && is_text owned key).

Definition scheduler_owner (jobs_key repeat_prefix key : string) : Script D (option (string * string)) :=
  let* owner_id := read (hget (repeat_scheduler_meta_key repeat_prefix key) "jid") in
  match owner_id with
  | None => ret None
  | Some owner_id =>
      let* owner_raw := read (hget jobs_key owner_id) in
      match owner_raw with
      | None => drop_scheduler repeat_prefix key ;;; ret None
      | Some raw =>
          let* owner_job := decode raw in
          let* continues := continues_series key owner_job in
          if continues : bool then do_ (SETNX (repeat_prefix +:+ key) owner_id) ;;; ret (Some (owner_id, raw))
          else drop_scheduler repeat_prefix key ;;; ret None
      end
  end.

Definition stored_owner (jobs_key key existing_id : string) : Script D (option (string * string)) :=
  let* existing_raw := read (hget jobs_key existing_id) in
  match existing_raw with
  | None => ret None
  | Some raw =>
      let* existing_job := decode raw in
      let* continues := continues_series key existing_job in
      ret (if continues : bool then Some (existing_id, raw) else None)
  end.

Definition active_repeat (jobs_key repeat_prefix key : string) : Script D (option (string * string)) :=
  if String.eqb key EmptyString then ret None
  else
    let owner_key := repeat_prefix +:+ key in
    let* existing_id := read (get owner_key) in
    match existing_id with
    | None => scheduler_owner jobs_key repeat_prefix key
    | Some existing_id =>
        let* owner := stored_owner jobs_key key existing_id in
        match owner with
        | Some owner => ret (Some owner)
        | None => do_ (DEL owner_key) ;;; scheduler_owner jobs_key repeat_prefix key
        end
    end.

Definition active_repeat_raw (jobs_key repeat_prefix key : string) : Script D (option string) :=
  let* owner := active_repeat jobs_key repeat_prefix key in ret (snd <$> owner).

(** ** Storing a new job *)
Definition announce_added (a : AddArgs) (row : NewRow) (inserted_raw : string) : Script D unit :=
  let* event_job := decode inserted_raw in
  let* name := getf event_job "name" in
  let* name := text (lua_or name (LString EmptyString)) in
  emit_added a ["event"; "added"; "jobId"; row_id row; "name"; name] ;;;
  emit_added a ["event"; if String.eqb (row_state row) "waiting_children" then "waiting-children" else row_state row;
                "jobId"; row_id row].

(** A waiting job is written again with its sequence number; the priority is a
    number the client printed. *)
Definition place_new_job (a : AddArgs) (row : NewRow) : Script D string :=
  if String.eqb (row_state row) "waiting" then
    let* job := decode (row_raw row) in
    let* priority := arith (lua_strtod (row_priority row)) in
    enqueue_waiting_job (aa_jobs a) (aa_waiting a) (aa_sequence a) job (row_id row) priority (aa_marker a)
  else
    (if String.eqb (row_state row) "delayed" then
       do_ (ZADD (aa_delayed a) (LString (row_scheduled row)) (row_id row)) ;;; refresh_delay_marker (aa_marker a) (aa_delayed a)
     else when (String.eqb (row_state row) "waiting_children")
            (do_ (ZADD (aa_waiting_children a) (LString (row_scheduled row)) (row_id row)))) ;;;
    ret (row_raw row).

Definition own_deduplication (a : AddArgs) (row : NewRow) (keep_existing_ttl : bool) : Script D unit :=
  when (negb (String.eqb (row_deduplication row) EmptyString))
    (let* job := decode (row_raw row) in
     set_new_deduplication_key job (row_id row) (aa_deduplication a) keep_existing_ttl).

Definition own_series (a : AddArgs) (row : NewRow) (raw : string) : Script D unit :=
  do_ (SETPLAIN (aa_repeat a +:+ row_repeat row) (row_id row)) ;;;
  let* job := decode raw in
  store_repeat_scheduler job (row_id row) (aa_repeat a) (LString (row_scheduled row)).

Definition insert_row (a : AddArgs) (row : NewRow) (replaced : bool) : Script D string :=
  let* inserted_raw := place_new_job a row in
  own_deduplication a row replaced ;;;
  when (negb (String.eqb (row_repeat row) EmptyString)) (own_series a row inserted_raw) ;;;
  announce_added a row inserted_raw ;;;
  ret inserted_raw.

(** ** Adding a job *)
Inductive Deduplication : Type := NotDuplicated | ReplacedOwner | DuplicateOf (raw : string).

Definition replace_owner (a : AddArgs) (candidate_job existing_job : Lua) (deduplicated : string) : Script D Deduplication :=
  let* existing_id := getf existing_job "id" in
  let* existing_id := text existing_id in
  let* removed := call (ZREM (aa_delayed a) existing_id) in
  if positive_number (number_of removed) then
    do_ (HDEL (aa_jobs a) existing_id) ;;;
    do_ (DEL (aa_logs a +:+ existing_id)) ;;;
    emit_replaced_deduplicated_owner_events a candidate_job existing_job ;;;
    ret ReplacedOwner
  else ret (DuplicateOf deduplicated).

Definition resolve_deduplication (a : AddArgs) (row : NewRow) : Script D Deduplication :=
  let* deduplicated := active_deduplicated_raw (aa_jobs a) (aa_deduplication a) (row_deduplication row) in
  match deduplicated with
  | None => ret NotDuplicated
  | Some deduplicated =>
      let* candidate_job := decode (row_raw row) in
      let* existing_job := decode deduplicated in
      let* can_replace := can_replace_deduplicated_owner candidate_job existing_job in
      if can_replace : bool then replace_owner a candidate_job existing_job deduplicated
      else
        let* can_store := can_store_deduplicated_next candidate_job existing_job (aa_active a) in
        (if can_store : bool then
           store_deduplicated_next a (row_raw row) candidate_job ;;; emit_deduplicated_events a existing_job candidate_job
         else
           extend_deduplicated_owner a true candidate_job existing_job ;;;
           let* replace := deduplication_replace candidate_job in
           when (negb replace) (emit_deduplicated_events a existing_job candidate_job)) ;;;
        ret (DuplicateOf deduplicated)
  end.

(** What became of a row: the status of the reply and the record. *)
Inductive Added : Type :=
| AddedExisting (raw : string) | AddedDeduplicated (raw : string) | AddedRepeat (raw : string)
| AddedMissing | AddedInserted (raw : string).

Definition add_row (a : AddArgs) (row : NewRow) : Script D Added :=
  let* existing := read (hget (aa_jobs a) (row_id row)) in
  match existing with
  | Some raw => ret (AddedExisting raw)
  | None =>
      let* deduplication := resolve_deduplication a row in
      match deduplication with
      | DuplicateOf raw => ret (AddedDeduplicated raw)
      | d =>
          let* repeat_owner := active_repeat_raw (aa_jobs a) (aa_repeat a) (row_repeat row) in
          match repeat_owner with
          | Some raw => ret (AddedRepeat raw)
          | None =>
              let* inserted := call (HSETNX (aa_jobs a) (row_id row) (row_raw row)) in
              if SFeqb (number_of inserted) f64_zero then
                let* current := read (hget (aa_jobs a) (row_id row)) in
                ret (match current with Some raw => AddedExisting raw | None => AddedMissing end)
              else
                let* raw := insert_row a row (match d with ReplacedOwner => true | _ => false end) in
                ret (AddedInserted raw)
          end
      end
  end.

Definition added_reply (r : Added) : list string :=
  match r with
  | AddedExisting raw => ["existing"; raw]
  | AddedDeduplicated raw => ["deduplicated"; raw]
  | AddedRepeat raw => ["repeat"; raw]
  | AddedMissing => ["missing"]
  | AddedInserted raw => ["inserted"; raw]
  end.

Definition add_job_args (KEYS ARGV : list string) : AddArgs := {|
  aa_jobs := at_ KEYS 1; aa_waiting := at_ KEYS 2; aa_delayed := at_ KEYS 3; aa_waiting_children := at_ KEYS 4;
  aa_active := at_ KEYS 6; aa_sequence := at_ KEYS 5; aa_events := at_ KEYS 7; aa_marker := last_key KEYS;
  aa_deduplication := at_ ARGV 8; aa_deduplication_next := at_ ARGV 11; aa_repeat := at_ ARGV 10; aa_logs := at_ ARGV 12;
  aa_max_events := at_ ARGV 13 |}.

Definition add_job_row (ARGV : list string) : NewRow := {|
  row_id := at_ ARGV 1; row_raw := at_ ARGV 2; row_state := at_ ARGV 3; row_scheduled := at_ ARGV 4;
  row_priority := at_ ARGV 5; row_deduplication := at_ ARGV 7; row_repeat := at_ ARGV 9 |}.

Definition ADD_JOB_SCRIPT (KEYS ARGV : list string) : Script D (list string) :=
  let* added := add_row (add_job_args KEYS ARGV) (add_job_row ARGV) in ret (added_reply added).

(** ** Adding several *)
Definition per_job_args : nat := 7.

(** The rows of the arguments, and the arguments behind them. *)
Definition rows_at (ARGV : list string) (first count : nat) : list NewRow :=
  (λ i, row_at ARGV (first + i * per_job_args)) <$> seq 0 count.

Definition add_jobs_args (KEYS ARGV : list string) (count : nat) : AddArgs :=
  let behind i := at_ ARGV (i + count * per_job_args) in {|
  aa_jobs := at_ KEYS 1; aa_waiting := at_ KEYS 2; aa_delayed := at_ KEYS 3; aa_waiting_children := at_ KEYS 4;
  aa_active := at_ KEYS 6; aa_sequence := at_ KEYS 5; aa_events := at_ KEYS 7; aa_marker := last_key KEYS;
  aa_deduplication := behind 3%nat; aa_deduplication_next := behind 5%nat; aa_repeat := behind 4%nat; aa_logs := behind 6%nat;
  aa_max_events := behind 7%nat |}.

(** [inr]: a job was neither stored nor found. *)
Fixpoint add_rows (a : AddArgs) (rows : list NewRow) : Script D (list string + string) :=
  match rows with
  | [] => ret (inl [])
  | row :: rows' =>
      let* added := add_row a row in
      match added with
      | AddedMissing => ret (inr (row_id row))
      | AddedExisting raw | AddedDeduplicated raw | AddedRepeat raw | AddedInserted raw =>
          let* rest := add_rows a rows' in
          ret (match rest with inl added => inl (raw :: added) | inr missing => inr missing end)
      end
  end.

Definition count_of (text : string) : Script D nat :=
  let* count := arith (lua_strtod text) in ret (Z.to_nat (floor_Z count)).

Definition ADD_JOBS_SCRIPT (KEYS ARGV : list string) : Script D (list string) :=
  let* count := count_of (at_ ARGV 1) in
  let* added := add_rows (add_jobs_args KEYS ARGV count) (rows_at ARGV 2 count) in
  ret (match added with inl added => added | inr missing => ["missing"; missing] end).

(** ** Replacing a repeat series *)

(** The owner the upsert replaces, or the reply that refuses it. *)
Definition in_flow (job : Lua) : Script D bool :=
  let* parent := has_field job "parent_id" in
  if parent : bool then ret true else has_items job "child_ids".

Definition refuse_owner (owner_id : string) (job : Lua) : Script D (option (list string)) :=
  let* active := in_state job "active" in
  if active : bool then ret (Some ["active"; owner_id])
  else
    let* flow := in_flow job in
    ret (if flow : bool then Some ["flow"; owner_id] else None).

Definition current_owner (jobs_key owner_key : string) : Script D (option (string * Lua) + list string) :=
  let* owner_id := read (get owner_key) in
  match owner_id with
  | None => ret (inl None)
  | Some owner_id =>
      let* raw := read (hget jobs_key owner_id) in
      match raw with
      | None => do_ (DEL owner_key) ;;; ret (inl None)
      | Some raw =>
          let* job := decode raw in
          let* state := getf job "state" in
          if is_finished state then do_ (DEL owner_key) ;;; ret (inl None)
          else
            let* refusal := refuse_owner owner_id job in
            ret (match refusal with Some reply => inr reply | None => inl (Some (owner_id, job)) end)
      end
  end.

Definition scheduled_owner (jobs_key repeat_prefix key : string) : Script D (option (string * Lua) + list string) :=
  let* owner_id := read (hget (repeat_scheduler_meta_key repeat_prefix key) "jid") in
  match owner_id with
  | None => ret (inl None)
  | Some owner_id =>
      let* raw := read (hget jobs_key owner_id) in
      match raw with
      | None => drop_scheduler repeat_prefix key ;;; ret (inl None)
      | Some raw =>
          let* job := decode raw in
          let* continues := continues_series key job in
          if negb continues then drop_scheduler repeat_prefix key ;;; ret (inl None)
          else
            let* refusal := refuse_owner owner_id job in
            do_ (SETNX (repeat_prefix +:+ key) owner_id) ;;;
            ret (match refusal with Some reply => inr reply | None => inl (Some (owner_id, job)) end)
      end
  end.

Definition find_owner (jobs_key repeat_prefix key : string) : Script D (option (string * Lua) + list string) :=
  let* owner := current_owner jobs_key (repeat_prefix +:+ key) in
  match owner with
  | inl None => scheduled_owner jobs_key repeat_prefix key
  | owner => ret owner
  end.

(** The keys and arguments a removal takes, as the upsert has them. *)
Definition upsert_removal_args (KEYS ARGV : list string) : RemovalArgs := {|
  ra_jobs := at_ KEYS 1; ra_waiting := at_ KEYS 2; ra_delayed := at_ KEYS 3; ra_active := at_ KEYS 6;
  ra_waiting_children := at_ KEYS 4; ra_completed := at_ KEYS 7; ra_failed := at_ KEYS 8; ra_sequence := at_ KEYS 5;
  ra_marker := last_key KEYS; ra_stalled := None; ra_locks := at_ ARGV 14; ra_dependencies := at_ ARGV 12;
  ra_deduplication := at_ ARGV 8; ra_deduplication_next := at_ ARGV 11; ra_repeat := at_ ARGV 10; ra_logs := at_ ARGV 13;
  ra_now_iso := EmptyString; ra_now_millis := EmptyString |}.

Definition remove_non_active_job (a : RemovalArgs) (job : Lua) (job_id : string) : Script D unit :=
  release_owned_keys a job job_id ;;;
  for_each [ra_waiting a; ra_delayed a; ra_waiting_children a; ra_active a; ra_completed a; ra_failed a] (λ key, do_ (ZREM key job_id)) ;;;
  do_ (HDEL (ra_jobs a) job_id) ;;;
  do_ (DEL (ra_dependencies a +:+ job_id)) ;;;
  do_ (DEL (ra_logs a +:+ job_id)) ;;;
  do_ (DEL (ra_locks a +:+ job_id)).

Definition upsert_args (KEYS ARGV : list string) : AddArgs := {|
  aa_jobs := at_ KEYS 1; aa_waiting := at_ KEYS 2; aa_delayed := at_ KEYS 3; aa_waiting_children := at_ KEYS 4;
  aa_active := at_ KEYS 6; aa_sequence := at_ KEYS 5; aa_events := at_ KEYS 9; aa_marker := last_key KEYS;
  aa_deduplication := at_ ARGV 8; aa_deduplication_next := at_ ARGV 11; aa_repeat := at_ ARGV 10; aa_logs := at_ ARGV 13;
  aa_max_events := at_ ARGV 15 |}.

Definition upsert_row (a : AddArgs) (row : NewRow) : Script D (list string) :=
  let* inserted := call (HSETNX (aa_jobs a) (row_id row) (row_raw row)) in
  if SFeqb (number_of inserted) f64_zero then
    let* current := read (hget (aa_jobs a) (row_id row)) in
    ret (match current with Some raw => ["exists"; raw] | None => ["missing"] end)
  else
    let* inserted_raw := place_new_job a row in
    own_deduplication a row false ;;;
    own_series a row inserted_raw ;;;
    announce_added a row inserted_raw ;;;
    ret ["inserted"; inserted_raw].

Definition UPSERT_REPEAT_SCRIPT (KEYS ARGV : list string) : Script D (list string) :=
  let a := upsert_args KEYS ARGV in
  let row := add_job_row ARGV in
  if String.eqb (row_repeat row) EmptyString then ret ["config"; "repeat key must not be empty"]
  else
    let* owner := find_owner (aa_jobs a) (aa_repeat a) (row_repeat row) in
    match owner with
    | inr refusal => ret refusal
    | inl owner =>
        let owner_id := unwrap_or (fst <$> owner) EmptyString in
        let* existing := read (hget (aa_jobs a) (row_id row)) in
        match opt_filter (λ _, negb (is_owner (fst <$> owner) (row_id row))) existing with
        | Some existing => ret ["exists"; existing]
        | None =>
            let* deduplicated := active_deduplicated_owner_id (aa_jobs a) (aa_deduplication a) (row_deduplication row) owner_id in
            match deduplicated with
            | Some deduplicated => ret ["deduplicated"; deduplicated]
            | None =>
                match owner with
                | Some (owner_id, job) => remove_non_active_job (upsert_removal_args KEYS ARGV) job owner_id
                | None => ret tt
                end ;;;
                upsert_row a row
            end
        end
    end.
End adds.

(** ** The methods *)
Section methods.
Context {X : Ext} {R : RedisExt} {L : LuaLibs} {D : Type} `{!Redis D}.
Variable q : RedisQueueName.

Definition add_job (spec : NewSpec) (now : DateTime) : D → D * Reply Job :=
  let job := job_of_spec (rq_queue q) now spec in
  after (λ _,
      let? _ := lift (validate_job_options_at (spec_options spec.1) now) in
      let? encoded := lift (encode_job job) in
      Ok (add_new_job_call job encoded))
    (λ c, query (eval_call q ADD_JOB_SCRIPT c) (λ result, decode_add_job_result result (job_id job))).

Definition add_many_at (specs : list NewSpec) (now : DateTime) : D → D * Reply (list Job) :=
  let created := job_of_spec (rq_queue q) now <$> specs in
  after (λ _,
      let? _ := lift (validate_specs specs now) in
      match created with
      | [] => Ok None
      | _ => let? c := lift (add_many_at_call created) in Ok (Some c)
      end)
    (λ c, match c with
          | None => λ d, (d, Ok [])
          | Some c => query (eval_call q ADD_JOBS_SCRIPT c) (λ result, decode_add_jobs_result result (length created))
          end).

Definition repeat_key_required (job : Job) : Result string :=
  match opt_filter (λ key, negb (String.eqb key EmptyString)) (job_repeat_key_of job) with
  | Some key => Ok key
  | None => Err (ConfigError "repeat key must not be empty")
  end.

Definition upsert_repeat (spec : NewSpec) (now : DateTime) : D → D * Reply Job :=
  let job := job_of_spec (rq_queue q) now spec in
  after (λ _,
      let? _ := lift (validate_job_options_at (spec_options spec.1) now) in
      let? _ := lift (if is_none (opt_repeat (spec_options spec.1))
                      then Err (ConfigError "repeat options are required to upsert a repeat series") else Ok tt) in
      let? repeat_key := lift (repeat_key_required job) in
      let? encoded := lift (encode_job job) in
      Ok (upsert_repeat_call job encoded repeat_key, repeat_key))
    (λ '(c, repeat_key), query (eval_call q UPSERT_REPEAT_SCRIPT c)
                           (λ result, decode_upsert_repeat_result result repeat_key (job_id job))).
End methods.
