(* ===== verification/RedisFlows.v ===== *)
(** * Adding flows to Redis ([src/job/redis.rs])

    [ADD_FLOW_SCRIPT] and [ADD_FLOW_CHILDREN_SCRIPT] with the methods that send
    them.  Both first look at every row, and then store what is new: what the
    first pass finds is a [Staged]. *)
From S2P Require Import Prelude Ordering Text Float64 External JobTypes JobStore JobDedup JobCore JobQueries JobAdd Backend FloatOrder LuaDates RedisKeys RedisReplies RedisCalls RedisLua RedisLeases RedisFinish RedisReports RedisMoves RedisRemovals RedisAdds.
Local Open Scope Z_scope.

(** What the first pass finds.  [st_next] are the skipped children that wait
    behind an active owner, [st_next_of] the one last parked for a
    deduplication id, [st_owners] the owners of the ids of skipped children;
    [st_series] and [st_deduplications] are taken by rows before, [st_ids] are
    the children seen. *)
Record Staged := mkStaged {
  st_deduplications : gmap string string;
  st_series : gmap string string;
  st_skipped : gset string;
  st_duplicated : gset string;
  st_owners : gmap string string;
  st_next : gset string;
  st_next_of : gmap string string;
  st_ids : gset string;
}.
#[export] Instance eta_Staged : Eta Staged := λ s,
  mkStaged (st_deduplications s) (st_series s) (st_skipped s) (st_duplicated s) (st_owners s) (st_next s) (st_next_of s) (st_ids s).

Definition nothing_staged : Staged := mkStaged ∅ ∅ ∅ ∅ ∅ ∅ ∅ ∅.

(** The first pass goes on, or ends the script with a reply. *)
Definition Outcome : Type := Staged + list string.

Section flows.
Context {L : LuaLibs} {D : Type} `{!Redis D}.

(** ** Owners *)
Definition active_deduplication_id (jobs_key deduplication_prefix deduplication_id : string) : Script D (option string) :=
  let* owner := active_deduplication jobs_key deduplication_prefix deduplication_id EmptyString in ret (fst <$> owner).

Definition active_repeat_id (jobs_key repeat_prefix key : string) : Script D (option string) :=
  let* owner := active_repeat jobs_key repeat_prefix key in ret (fst <$> owner).

(** A child that belongs to another parent that is stored. *)
Definition other_parent (a : AddArgs) (parent_id : string) (child : Lua) : Script D (option string) :=
  let* existing_parent_id := optional_field child "parent_id" in
  match existing_parent_id with
  | None => ret None
  | Some v =>
      if is_text v parent_id then ret None
      else
        let* id := text v in
        let* raw := read (hget (aa_jobs a) id) in
        ret (if is_some raw then Some id else None)
  end.

Definition flow_child_deduplication_requires_next (candidate_job existing_job : Lua) : Script D bool :=
  and_then (deduplication_flag candidate_job "keep_last_if_active") (in_state existing_job "active").

(** ** The first pass *)

(** A row that is stored as new takes its deduplication id and its series. *)
Definition stage_new (a : AddArgs) (row : NewRow) (s : Staged) : Script D Outcome :=
  let taken := if String.eqb (row_deduplication row) EmptyString then None else st_deduplications s !! row_deduplication row in
  match taken with
  | Some id => ret (inr ["deduplicated"; id])
  | None =>
      let s := if String.eqb (row_deduplication row) EmptyString then s
               else s <| st_deduplications ::= <[row_deduplication row := row_id row]> |> in
      let* repeat_owner := active_repeat_id (aa_jobs a) (aa_repeat a) (row_repeat row) in
      match repeat_owner with
      | Some owner => ret (inr ["repeat"; owner])
      | None =>
          if String.eqb (row_repeat row) EmptyString then ret (inl s)
          else match st_series s !! row_repeat row with
               | Some id => ret (inr ["repeat"; id])
               | None => ret (inl (s <| st_series ::= <[row_repeat row := row_id row]> |>))
               end
      end
  end.

(** The child waits behind the active owner of its deduplication id. *)
Definition park_child (a : AddArgs) (row : NewRow) (s : Staged) : Script D Staged :=
  do_ (SETPLAIN (aa_deduplication_next a +:+ row_deduplication row) (row_raw row)) ;;;
  do_ (PERSIST (aa_deduplication a +:+ row_deduplication row)) ;;;
  let next := match st_next_of s !! row_deduplication row with Some previous => st_next s ∖ {[previous]} | None => st_next s end in
  ret (s <| st_next_of ::= <[row_deduplication row := row_id row]> |> <| st_next := next ∪ {[row_id row]} |>).

Definition skip_child (owner : string) (row : NewRow) (s : Staged) : Staged :=
  s <| st_skipped ::= (.∪ {[row_id row]}) |> <| st_owners ::= <[row_id row := owner]> |>.

Definition stage_duplicate (a : AddArgs) (row : NewRow) (owner : string) (s : Staged) : Script D Outcome :=
  let* existing_raw := read (hget (aa_jobs a) owner) in
  match existing_raw with
  | None => ret (inr ["deduplicated"; owner])
  | Some existing_raw =>
      let* child_job := decode (row_raw row) in
      let* existing_job := decode existing_raw in
      let* next := flow_child_deduplication_requires_next child_job existing_job in
      if next : bool then
        let* s := park_child a row s in ret (inl (skip_child owner row s))
      else
        extend_deduplicated_owner a false child_job existing_job ;;;
        ret (inl (skip_child owner row s))
  end.

(** A child whose id was looked up already. *)
Definition stage_child (a : AddArgs) (row : NewRow) (s : Staged) : Script D Outcome :=
  if bool_decide (row_id row ∈ st_duplicated s) then ret (inl s)
  else
    let* owner := active_deduplication_id (aa_jobs a) (aa_deduplication a) (row_deduplication row) in
    let* staged := match owner with Some owner => stage_duplicate a row owner s | None => ret (inl s) end in
    match staged with
    | inr reply => ret (inr reply)
    | inl s => if bool_decide (row_id row ∈ st_skipped s) then ret (inl s) else stage_new a row s
    end.

(** The child is stored already: it may join if it has no other parent. *)
Definition stage_existing (a : AddArgs) (parent_id : string) (row : NewRow) (raw : string) (s : Staged) : Script D Outcome :=
  let* existing_child := decode raw in
  let* other := other_parent a parent_id existing_child in
  ret (match other with
       | Some other => inr ["parent_conflict"; row_id row; other]
       | None => inl (s <| st_duplicated ::= (.∪ {[row_id row]}) |>)
       end).

Definition and_stage (m : Script D Outcome) (k : Staged → Script D Outcome) : Script D Outcome :=
  let* r := m in match r with inl s => k s | inr reply => ret (inr reply) end.

Fixpoint stage_all (stage : NewRow → Staged → Script D Outcome) (rows : list NewRow) (s : Staged) : Script D Outcome :=
  match rows with
  | [] => ret (inl s)
  | row :: rows' => and_stage (stage row s) (stage_all stage rows')
  end.

(** ** Storing a row *)
Definition record_processed_child_dependency (dependency_key child_id : string) (child : Lua) : Script D unit :=
  let* return_value := getf child "return_value" in
  let* encoded := encode (match return_value with LNil => LNull | v => v end) in
  do_ (HSET (dependency_key +:+ ":processed") [(child_id, LString encoded)]).

(** A completed child counts as processed, any other is waited for. *)
Definition await_child (dependency_key child_id : string) (child : Lua) : Script D unit :=
  let* completed := in_state child "completed" in
  if completed : bool then record_processed_child_dependency dependency_key child_id child
  else do_ (SADD dependency_key child_id).

(** The owner of a skipped child hears of it. *)
Definition announce_skipped (a : AddArgs) (s : Staged) (row : NewRow) (candidate_job : Script D Lua) : Script D unit :=
  match st_owners s !! row_id row with
  | None => raise "Lua redis lib command arguments must be strings or integers"
  | Some owner =>
      let* owner_raw := read (hget (aa_jobs a) owner) in
      match owner_raw with
      | None => ret tt
      | Some raw =>
          let* owner_job := decode raw in
          let* candidate_job := candidate_job in
          emit_deduplicated_events a owner_job candidate_job
      end
  end.

(** An existing job becomes a child of the flow. *)
Definition adopt_child (a : AddArgs) (parent_id : string) (row : NewRow) (meanwhile : Lua → Script D unit) : Script D unit :=
  let* existing_raw := read (hget (aa_jobs a) (row_id row)) in
  match existing_raw with
  | None => ret tt
  | Some raw =>
      let* existing_child := decode raw in
      let* existing_child := set_field "parent_id" (LString parent_id) existing_child in
      let* encoded := encode existing_child in
      do_ (HSET (aa_jobs a) [(row_id row, LString encoded)]) ;;;
      meanwhile existing_child ;;;
      emit_added a ["event"; "duplicated"; "jobId"; row_id row]
  end.

(** The record is that of the row, also where the job waits: the sequence
    number is in the stored record only. *)
Definition store_row (a : AddArgs) (row : NewRow) (meanwhile : Script D unit) : Script D unit :=
  do_ (HSET (aa_jobs a) [(row_id row, LString (row_raw row))]) ;;;
  meanwhile ;;;
  place_new_job a row ;;;
  own_deduplication a row false ;;;
  when (negb (String.eqb (row_repeat row) EmptyString)) (own_series a row (row_raw row)) ;;;
  announce_added a row (row_raw row).

(** ** A parent and its children *)
Definition flow_args (KEYS ARGV : list string) (count : nat) : AddArgs :=
  let behind i := at_ ARGV (i + count * per_job_args) in {|
  aa_jobs := at_ KEYS 1; aa_waiting := at_ KEYS 2; aa_delayed := at_ KEYS 3; aa_waiting_children := at_ KEYS 4;
  aa_active := at_ KEYS 7; aa_sequence := at_ KEYS 5; aa_events := at_ KEYS 6; aa_marker := last_key KEYS;
  aa_deduplication := behind 4%nat; aa_deduplication_next := behind 6%nat; aa_repeat := behind 5%nat; aa_logs := EmptyString;
  aa_max_events := behind 7%nat |}.

Definition can_store_deduplicated_next_flow (a : AddArgs) (parent_job : Lua) (child_jobs : list Lua) (existing_job : Lua) : Script D bool :=
  and_then (deduplication_flag parent_job "keep_last_if_active")
    (and_then (in_state existing_job "active")
       (and_then (listed_in (aa_active a) existing_job)
          (unless (has_field parent_job "parent_id")
             (unless (has_field parent_job "repeat_key")
                (unless (has_field existing_job "repeat_key")
                   (let* repeating := first_result child_jobs
                                        (λ child, let* b := has_field child "repeat_key" in ret (if b : bool then Some tt else None)) in
                    ret (is_none repeating))))))).

Definition store_deduplicated_next_flow (a : AddArgs) (parent_raw : string) (child_raws : list string) : Script D unit :=
  let* parent := decode parent_raw in
  let* children := collect child_raws decode in
  let* deduplication := deduplication_option parent in
  let* id := getf deduplication "id" in
  let* id := text id in
  let* encoded := encode (LTable [] [("kind", LString "flow"); ("parent", parent); ("children", LTable children [])]) in
  do_ (SETPLAIN (aa_deduplication_next a +:+ id) encoded) ;;;
  do_ (PERSIST (aa_deduplication a +:+ id)).

(** The parent has a deduplication id that is taken: the flow is parked or
    dropped, and the owner returned. *)
Definition duplicate_flow (a : AddArgs) (parent : NewRow) (children : list NewRow) (child_jobs : list Lua) (owner existing_raw : string)
    : Script D (list string) :=
  let* parent_job := decode (row_raw parent) in
  let* existing_job := decode existing_raw in
  let* can_store := can_store_deduplicated_next_flow a parent_job child_jobs existing_job in
  (if can_store : bool then store_deduplicated_next_flow a (row_raw parent) (row_raw <$> children)
   else extend_deduplicated_owner a false parent_job existing_job) ;;;
  emit_deduplicated_events a existing_job parent_job ;;;
  ret ["deduplicated_parent"; owner].

Definition stage_parent (a : AddArgs) (parent : NewRow) (children : list NewRow) (child_jobs : list Lua) (s : Staged) : Script D Outcome :=
  let* owner := active_deduplication_id (aa_jobs a) (aa_deduplication a) (row_deduplication parent) in
  let* existing_raw := match owner with Some owner => read (hget (aa_jobs a) owner) | None => ret None end in
  match owner, existing_raw with
  | Some owner, Some raw => let* reply := duplicate_flow a parent children child_jobs owner raw in ret (inr reply)
  | _, _ => stage_new a parent s
  end.

(** A flow reads the id of a row, and then looks at it. *)
Definition stage_flow_child (a : AddArgs) (parent_id : string) (row : NewRow) (s : Staged) : Script D Outcome :=
  let* existing := read (hget (aa_jobs a) (row_id row)) in
  and_stage (match existing with Some raw => stage_existing a parent_id row raw s | None => ret (inl s) end) (stage_child a row).

(** Whether the parent is stored already, and what the rows found. *)
Definition stage_flow (a : AddArgs) (parent : NewRow) (children : list NewRow) (child_jobs : list Lua) : Script D (bool * Outcome) :=
  let* existing := read (hget (aa_jobs a) (row_id parent)) in
  let duplicated := is_some existing in
  let* r := and_stage (if duplicated then ret (inl nothing_staged) else stage_parent a parent children child_jobs nothing_staged)
              (stage_all (stage_flow_child a (row_id parent)) children) in
  ret (duplicated, r).

(** The parent keeps the children that are stored or parked. *)
Definition retained (s : Staged) (child_id : string) : bool :=
  negb (bool_decide (child_id ∈ st_skipped s)) || bool_decide (child_id ∈ st_next s).

Definition retained_value (s : Staged) (child_id : Lua) : bool :=
  match child_id with LString id => retained s id | _ => true end.

Definition retain_children (s : Staged) (parent : NewRow) : Script D NewRow :=
  let* parent_job := decode (row_raw parent) in
  let* child_ids := optional_field parent_job "child_ids" in
  match child_ids with
  | None => ret parent
  | Some child_ids =>
      let* ids := items_of child_ids in
      let* parent_job := set_field "child_ids" (LTable (List.filter (retained_value s) ids) []) parent_job in
      let* raw := encode parent_job in
      ret (mkRow (row_id parent) raw (row_state parent) (row_scheduled parent) (row_priority parent) (row_deduplication parent)
                 (row_repeat parent))
  end.

Definition store_flow_row (a : AddArgs) (parent_id : string) (s : Staged) (is_parent : bool) (row : NewRow) : Script D unit :=
  if bool_decide (row_id row ∈ st_skipped s) then announce_skipped a s row (decode (row_raw row))
  else if bool_decide (row_id row ∈ st_duplicated s) then adopt_child a parent_id row (λ _, ret tt)
  else
    let* row := if is_parent then retain_children s row else ret row in
    store_row a row (ret tt).

Definition store_parent (a : AddArgs) (duplicated : bool) (s : Staged) (parent : NewRow) : Script D unit :=
  if duplicated then
    let* existing := read (hget (aa_jobs a) (row_id parent)) in
    when (is_some existing) (emit_added a ["event"; "duplicated"; "jobId"; row_id parent])
  else store_flow_row a (row_id parent) s true parent.

(** The ids of the rows that are not in the list yet, in their order. *)
Fixpoint new_children (s : Staged) (ids : list Lua) (children : list NewRow) : list Lua :=
  match children with
  | [] => ids
  | row :: children' =>
      new_children s (if retained s (row_id row) && negb (existsb (λ v, is_text v (row_id row)) ids)
                      then ids ++ [LString (row_id row)] else ids) children'
  end.

(** A parent that was stored before gets the children added. *)
Definition extend_parent (a : AddArgs) (s : Staged) (parent_id : string) (children : list NewRow) : Script D unit :=
  let* raw := read (hget (aa_jobs a) parent_id) in
  match raw with
  | None => ret tt
  | Some raw =>
      let* existing_parent := decode raw in
      let* child_ids := optional_field existing_parent "child_ids" in
      let* ids := items_of (unwrap_or child_ids empty_table) in
      let* existing_parent := set_field "child_ids" (LTable (new_children s ids children) []) existing_parent in
      let* encoded := encode existing_parent in
      do_ (HSET (aa_jobs a) [(parent_id, LString encoded)])
  end.

Definition depend_on (a : AddArgs) (s : Staged) (dependency_key : string) (row : NewRow) : Script D unit :=
  if bool_decide (row_id row ∈ st_skipped s) then ret tt
  else if bool_decide (row_id row ∈ st_duplicated s) then
    let* raw := read (hget (aa_jobs a) (row_id row)) in
    match raw with
    | None => ret tt
    | Some raw => let* child := decode raw in await_child dependency_key (row_id row) child
    end
  else do_ (SADD dependency_key (row_id row)).

Definition parent_reset : list (string * Lua) :=
  [("processed_at", LNull); ("finished_at", LNull); ("worker_id", LNull); ("lock_token", LNull); ("lease_expires_at", LNull);
   ("deferred_failure", LNull); ("failed_reason", LNull)].

(** Only a parent that waits for children and has none left goes on. *)
Definition without_dependencies (a : AddArgs) (parent_id dependency_key : string) (go_on : Lua → Script D unit) : Script D unit :=
  let* pending := read (scard dependency_key) in
  if negb (pending =? 0) then ret tt
  else
    let* raw := read (hget (aa_jobs a) parent_id) in
    match raw with
    | None => ret tt
    | Some raw =>
        let* parent := decode raw in
        let* waits := in_state parent "waiting_children" in
        when waits
          (do_ (DEL dependency_key) ;;;
           do_ (ZREM (aa_waiting_children a) parent_id) ;;;
           let* parent := set_fields parent_reset parent in
           go_on parent)
    end.

Definition release_parent_if_no_pending_dependencies (a : AddArgs) (parent : NewRow) (dependency_key now_millis : string) : Script D unit :=
  without_dependencies a (row_id parent) dependency_key (λ job,
    let* scheduled := arith (lua_strtod (row_scheduled parent)) in
    let* now := arith (lua_strtod now_millis) in
    if f64_lt now scheduled then
      let* job := set_field "state" (LString "delayed") job in
      let* encoded := encode job in
      do_ (HSET (aa_jobs a) [(row_id parent, LString encoded)]) ;;;
      do_ (ZADD (aa_delayed a) (LString (row_scheduled parent)) (row_id parent)) ;;;
      refresh_delay_marker (aa_marker a) (aa_delayed a) ;;;
      emit_added a ["event"; "delayed"; "jobId"; row_id parent; "prev"; "waiting-children"]
    else
      let* job := set_field "state" (LString "waiting") job in
      let* priority := arith (lua_strtod (row_priority parent)) in
      enqueue_waiting_job (aa_jobs a) (aa_waiting a) (aa_sequence a) job (row_id parent) priority (aa_marker a) ;;;
      emit_added a ["event"; "waiting"; "jobId"; row_id parent; "prev"; "waiting-children"]).

Definition settle_flow (a : AddArgs) (dependency_prefix now_millis : string) (duplicated : bool) (s : Staged) (parent : NewRow)
    (children : list NewRow) : Script D unit :=
  when (negb (Nat.eqb (length children) 0) && (String.eqb (row_state parent) "waiting_children" || duplicated))
    (let dependency_key := dependency_prefix +:+ row_id parent in
     when (negb duplicated) (do_ (DEL dependency_key)) ;;;
     for_each children (depend_on a s dependency_key) ;;;
     when (bool_decide (st_next s = ∅)) (release_parent_if_no_pending_dependencies a parent dependency_key now_millis)).

Definition skipped_rows (s : Staged) (children : list NewRow) : list string :=
  List.filter (λ id, bool_decide (id ∈ st_skipped s)) (row_id <$> children).

(** The client counts the parent among the jobs. *)
Definition ADD_FLOW_SCRIPT (KEYS ARGV : list string) : Script D (list string) :=
  let* count := count_of (at_ ARGV 1) in
  let a := flow_args KEYS ARGV count in
  let parent := row_at ARGV 2 in
  let children := rows_at ARGV (2 + per_job_args) (count - 1) in
  let* child_jobs := collect children (λ row, decode (row_raw row)) in
  let* staged := stage_flow a parent children child_jobs in
  let '(duplicated, outcome) := staged in
  match outcome with
  | inr reply => ret reply
  | inl s =>
      store_parent a duplicated s parent ;;;
      for_each children (store_flow_row a (row_id parent) s false) ;;;
      when duplicated (extend_parent a s (row_id parent) children) ;;;
      settle_flow a (at_ ARGV (3 + count * per_job_args)) (at_ ARGV (8 + count * per_job_args)) duplicated s parent children ;;;
      ret ("ok" :: skipped_rows s children)
  end.

(** ** Children of an active parent *)
Definition flow_children_args (KEYS ARGV : list string) (count : nat) : AddArgs :=
  let behind i := at_ ARGV (i + count * per_job_args) in {|
  aa_jobs := at_ KEYS 1; aa_waiting := at_ KEYS 2; aa_delayed := at_ KEYS 3; aa_waiting_children := at_ KEYS 4;
  aa_active := at_ KEYS 5; aa_sequence := at_ KEYS 6; aa_events := at_ KEYS 7; aa_marker := at_ KEYS 9;
  aa_deduplication := behind 6%nat; aa_deduplication_next := behind 8%nat; aa_repeat := behind 7%nat; aa_logs := EmptyString;
  aa_max_events := behind 9%nat |}.

(** The parent the token holds, or the reply that refuses the call. *)
Definition held_parent (jobs_key lock_key parent_id token : string) : Script D (Lua + list string) :=
  let* raw := read (hget jobs_key parent_id) in
  match raw with
  | None => ret (inr ["missing"; parent_id])
  | Some raw =>
      let* parent := decode raw in
      let* state := getf parent "state" in
      if negb (is_text state "active") then
        let* state := text (lua_or state (LString EmptyString)) in ret (inr ["state"; state])
      else
        let* lock_token := read (get lock_key) in
        ret (match lock_token with
             | None => inr ["lock_missing"]
             | Some t => if String.eqb t token then inl parent else inr ["lock_mismatch"]
             end)
  end.

(** A child failed, and no option lets the parent go on. *)
Definition failed_among (jobs_key : string) (child_ids : list Lua) : Script D bool :=
  let* failed := first_result child_ids (λ child_id,
    let* id := text child_id in
    let* raw := read (hget jobs_key id) in
    match raw with
    | None => ret None
    | Some raw =>
        let* child := decode raw in
        let* blocks := blocks_parent child in
        ret (if blocks : bool then Some tt else None)
    end) in
  ret (is_some failed).

Definition stage_added_child (a : AddArgs) (parent_id : string) (child_ids : list Lua) (row : NewRow) (s : Staged) : Script D Outcome :=
  let* existing := read (hget (aa_jobs a) (row_id row)) in
  if String.eqb (row_id row) parent_id || bool_decide (row_id row ∈ st_ids s) then ret (inr ["exists"; row_id row])
  else
    and_stage
      (match existing with
       | Some raw => stage_existing a parent_id row raw s
       | None => ret (if existsb (λ v, is_text v (row_id row)) child_ids then inr ["exists"; row_id row] else inl s)
       end)
      (λ s, stage_child a row (s <| st_ids ::= (.∪ {[row_id row]}) |>)).

Definition add_id (id : string) (ids : list Lua) : list Lua :=
  if existsb (λ v, is_text v id) ids then ids else ids ++ [LString id].

(** The children of the parent once the row is stored. *)
Definition store_added_child (a : AddArgs) (parent_id dependency_key : string) (s : Staged) (row : NewRow) (ids : list Lua)
    : Script D (list Lua) :=
  let* child := decode (row_raw row) in
  if bool_decide (row_id row ∈ st_skipped s) then
    announce_skipped a s row (ret child) ;;;
    (if bool_decide (row_id row ∈ st_next s) then do_ (SADD dependency_key (row_id row)) ;;; ret (add_id (row_id row) ids)
     else ret ids)
  else if bool_decide (row_id row ∈ st_duplicated s) then
    adopt_child a parent_id row (await_child dependency_key (row_id row)) ;;;
    ret (add_id (row_id row) ids)
  else
    store_row a row (do_ (SADD dependency_key (row_id row))) ;;;
    ret (add_id (row_id row) ids).

Fixpoint store_added_children (a : AddArgs) (parent_id dependency_key : string) (s : Staged) (rows : list NewRow) (ids : list Lua)
    : Script D (list Lua) :=
  match rows with
  | [] => ret ids
  | row :: rows' =>
      let* ids := store_added_child a parent_id dependency_key s row ids in
      store_added_children a parent_id dependency_key s rows' ids
  end.

(** A parent whose children are all done goes on at once. *)
Definition release_extended_parent (a : AddArgs) (parent_id dependency_key : string) : Script D unit :=
  without_dependencies a parent_id dependency_key (λ job,
    let* job := set_field "state" (LString "waiting") job in
    let* priority := priority_of_job job in
    enqueue_waiting_job (aa_jobs a) (aa_waiting a) (aa_sequence a) job parent_id priority (aa_marker a) ;;;
    emit_added a ["event"; "waiting"; "jobId"; parent_id; "prev"; "waiting-children"]).

(** The parent gives its lease back and waits. *)
Definition park_parent (a : AddArgs) (KEYS : list string) (dependency_key now_millis : string) (parent_id : string) (parent : Lua) (s : Staged)
    (rows : list NewRow) : Script D unit :=
  do_ (DEL (at_ KEYS 10)) ;;;
  do_ (SREM (at_ KEYS 8) parent_id) ;;;
  do_ (ZREM (aa_active a) parent_id) ;;;
  let* parent := set_fields (("state", LString "waiting_children") :: parent_reset) parent in
  let* child_ids := optional_field parent "child_ids" in
  let* ids := items_of (unwrap_or child_ids empty_table) in
  let* ids := store_added_children a parent_id dependency_key s rows ids in
  let* parent := set_field "child_ids" (LTable ids []) parent in
  let* encoded := encode parent in
  do_ (HSET (aa_jobs a) [(parent_id, LString encoded)]) ;;;
  do_ (ZADD (aa_waiting_children a) (LString now_millis) parent_id) ;;;
  emit_added a ["event"; "waiting-children"; "jobId"; parent_id; "prev"; "active"] ;;;
  release_extended_parent a parent_id dependency_key.

Definition add_flow_children_to (KEYS ARGV : list string) (count : nat) (parent : Lua) : Script D (list string) :=
  let a := flow_children_args KEYS ARGV count in
  let parent_id := at_ ARGV 1 in
  let dependency_key := at_ ARGV (5 + count * per_job_args) +:+ parent_id in
  let rows := rows_at ARGV 4 count in
  let* unsuccessful := read (zcard (dependency_key +:+ ":unsuccessful")) in
  if negb (unsuccessful =? 0) then ret ["failed_dependencies"]
  else
    let* child_ids := getf parent "child_ids" in
    let* child_ids := items_of (lua_or child_ids empty_table) in
    let* failed := failed_among (aa_jobs a) child_ids in
    if failed : bool then ret ["failed_dependencies"]
    else
      let* staged := stage_all (stage_added_child a parent_id child_ids) rows nothing_staged in
      match staged with
      | inr reply => ret reply
      | inl s =>
          park_parent a KEYS dependency_key (at_ ARGV (10 + count * per_job_args)) parent_id parent s rows ;;;
          ret ("ok" :: skipped_rows s rows)
      end.

Definition ADD_FLOW_CHILDREN_SCRIPT (KEYS ARGV : list string) : Script D (list string) :=
  match lua_strtod (at_ ARGV 3) with
  | None => ret ["empty"]
  | Some count =>
      if f64_lt count f64_one then ret ["empty"]
      else
        let* held := held_parent (at_ KEYS 1) (at_ KEYS 10) (at_ ARGV 1) (at_ ARGV 2) in
        match held with
        | inr reply => ret reply
        | inl parent => add_flow_children_to KEYS ARGV (Z.to_nat (floor_Z count)) parent
        end
  end.
End flows.

(** ** The methods *)
Section methods.
Context {X : Ext} {R : RedisExt} {L : LuaLibs} {D : Type} `{!Redis D}.
Variable q : RedisQueueName.

(** A job as it is stored, or as the client made it. *)
Definition reload (d : D) (job : Job) : Reply Job :=
  let? stored := load_job q (job_id job) d in Ok (unwrap_or stored job).

Definition reload_all (d : D) (skipped : gset string) (jobs : list Job) : Reply (list Job) :=
  try_map (reload d) (List.filter (λ j, negb (bool_decide (job_id j ∈ skipped))) jobs).

Definition load_flow_for_parent (parent_id : string) (d : D) : Reply JobFlow :=
  let? parent := require_job q parent_id d in
  let? children := try_map (λ id, load_job q id d) (job_child_ids parent) in
  Ok (mkJobFlow parent (omap id children)).

(** Reads that follow a call, on the state it leaves. *)
Definition then_read {A B} (m : D → D * Reply A) (k : A → D → Reply B) : D → D * Reply B :=
  λ d, match m d with (d', Ok a) => (d', k a d') | (d', Err e) => (d', Err e) end.

Definition add_flow_at (parent : NewSpec) (children : list NewSpec) (now : DateTime) : D → D * Reply JobFlow :=
  let child_jobs := flow_child_job (rq_queue q) now (job_id (job_of_spec (rq_queue q) now parent)) <$> children in
  let parent_job := flow_parent_job (rq_queue q) now parent child_jobs in
  then_read
    (after (λ _,
        let? _ := lift (validate_job_options_at (spec_options parent.1) now) in
        let? _ := lift (validate_specs children now) in
        let? _ := lift (validate_flow_job_ids parent_job child_jobs) in
        lift (add_flow_jobs_call parent_job child_jobs))
      (λ c, query (eval_call q ADD_FLOW_SCRIPT c) decode_add_flow_result))
    (λ result d,
      match existing_parent_id result with
      | Some existing => load_flow_for_parent existing d
      | None =>
          let? parent := reload d parent_job in
          let? children := reload_all d (skipped_child_ids result) child_jobs in
          Ok (mkJobFlow parent children)
      end).

Definition add_flow_children_at (parent_id lock_token : string) (children : list NewSpec) (now : DateTime)
    : D → D * Reply (list Job) :=
  let child_jobs := flow_child_job (rq_queue q) now parent_id <$> children in
  then_read
    (after (λ _,
        let? _ := lift (match children with [] => Err (ConfigError "flow children cannot be empty") | _ => Ok tt end) in
        let? _ := lift (validate_specs children now) in
        let? _ := lift (validate_flow_child_jobs parent_id child_jobs) in
        lift (add_flow_children_jobs_call parent_id lock_token now child_jobs))
      (λ c, query (eval_call q ADD_FLOW_CHILDREN_SCRIPT c) (λ result, decode_add_flow_children_result result parent_id)))
    (λ skipped d, reload_all d skipped child_jobs).
End methods.
