(* ===== verification/RedisGuards.v ===== *)
(** * What the scripts may touch ([src/job/redis.rs])

    The scripts write under many keys, some built from ids found in the data.
    [Guards] says what a property of the state allows them: every key but the
    lock of one job, the records and the sets of the states; those for the jobs
    that are [free].  Why a job is free is in the guards as well: its record
    says a state other than active, it is not stored yet, it is listed under
    such a state or not among the active jobs, or its lock is gone or the
    caller's.  The shared functions of the scripts keep whatever has guards. *)
From S2P Require Import Prelude Ordering Text Float64 External Retry JobTypes JobStore JobDedup JobCore JobQueries Backend FloatOrder LuaDates RedisKeys RedisReplies RedisCalls RedisLua RedisLeases RedisLeaseRules RedisFinish RedisReports.
Local Open Scope Z_scope.

(** ** Keys without a guard *)
Section apart.
Variables (q : RedisQueueName) (id : string).

Definition guarded (k : RedisKey) : Prop :=
  match k with JobsKey | StateKey _ | LockKey _ => True | _ => False end.

(** Neither the lock of the job, nor the records, nor the set of a state. *)
Definition apart (key : string) : Prop := ∀ k, guarded k → (∀ i, k = LockKey i → i = id) → key ≠ redis_key q k.

Lemma apart_key k : ¬ guarded k → apart (redis_key q k).
Proof.
  intros Hk k' Hg _ E. unfold redis_key, RedisKeys.key in E. apply append_cancel in E.
  destruct k' as [| | | | | | | |[]| | | | | | | | | | | |]; try (by destruct Hg);
    destruct k as [| | | | | | | |[]|[]|[]| | | | | | | | | |]; try (by destruct Hk); try discriminate E.
Qed.

(** The prefixes of the keys to which ids are appended. *)
Definition id_prefix (k : RedisKey) : Prop :=
  match k with
  | DependenciesKey EmptyString | DeduplicationKey EmptyString | DeduplicationNextKey EmptyString
  | RepeatOwnerKey EmptyString | LogsKey EmptyString => True
  | _ => False
  end.

Lemma apart_prefix k s : id_prefix k → apart (redis_key q k +:+ s).
Proof.
  intros Hk k' Hg _ E. unfold redis_key, RedisKeys.key in E. rewrite append_assoc in E. apply append_cancel in E.
  destruct k' as [| | | | | | | |[]| | | | | | | | | | | |]; try (by destruct Hg);
    destruct k as [| | | | | | | | | | |i|i|i|i|i|i|i|i|i|i]; try done; destruct i; done.
Qed.

Lemma apart_suffix k s t : id_prefix k → apart ((redis_key q k +:+ s) +:+ t).
Proof. intros Hk. rewrite append_assoc. by apply apart_prefix. Qed.

Lemma apart_lock id' : id' ≠ id → apart (redis_key q (LockKey id')).
Proof.
  intros Hne k Hg Hid E. apply key_inj in E; [|done|by destruct k]. subst k. by apply Hne, (Hid id').
Qed.

Lemma apart_meta key : apart (repeat_scheduler_meta_key (redis_key q (RepeatOwnerKey EmptyString)) key).
Proof. rewrite meta_key_is. apply apart_key. by intros []. Qed.

Lemma apart_schedulers : apart (repeat_scheduler_key (redis_key q (RepeatOwnerKey EmptyString))).
Proof. rewrite scheduler_key_is. apply apart_key. by intros []. Qed.
End apart.

(** Apart from every job is apart from every guarded key. *)
Lemma apart_guarded q key k : (∀ id, apart q id key) → guarded k → key ≠ redis_key q k.
Proof.
  intros Ha Hk. apply (Ha (match k with LockKey id => id | _ => EmptyString end)); [done|]. by intros i ->.
Qed.

Create HintDb apart.
#[export] Hint Resolve apart_meta apart_schedulers : apart.
#[export] Hint Extern 2 (apart _ _ (redis_key _ _)) => (apply apart_key; intros []) : apart.
#[export] Hint Extern 2 (apart _ _ (redis_key _ _ +:+ _)) => (apply apart_prefix; exact I) : apart.
#[export] Hint Extern 2 (apart _ _ ((redis_key _ _ +:+ _) +:+ _)) => (apply apart_suffix; exact I) : apart.

(** ** What a script keeps and what it finds out *)

(** What depends on records, sets and locks only. *)
Definition unaffected {D} `{!Redis D} (q : RedisQueueName) (P : D → Prop) : Prop :=
  ∀ c, (∀ id, apart q id (command_key c)) → keeps P (call c).

Definition yields {D A} (P : D → Prop) (m : Script D A) (Q : A → Prop) : Prop :=
  keeps P m ∧ ∀ d d' a, P d → m d = (d', Ok a) → Q a.

Section yields.
Context {D : Type} (P : D → Prop).

Lemma yields_keeps {A} (m : Script D A) Q : yields P m Q → keeps P m.
Proof. by intros [H _]. Qed.

Lemma yields_ret {A} (a : A) (Q : A → Prop) : Q a → yields P (ret a) Q.
Proof. intros Ha. split; [apply keeps_ret|]. by intros d d' a' _ [= _ <-]. Qed.

Lemma yields_any {A} (m : Script D A) : keeps P m → yields P m (λ _, True).
Proof. by split. Qed.

Lemma yields_weaken {A} (m : Script D A) (Q Q' : A → Prop) : yields P m Q → (∀ a, Q a → Q' a) → yields P m Q'.
Proof. intros [Hk Hq] HQ. split; [done|]. intros d d' a Hd E. eapply HQ, Hq; eauto. Qed.

Lemma keeps_learn {A B} (m : Script D A) (Q : A → Prop) (k : A → Script D B) :
  yields P m Q → (∀ a, Q a → keeps P (k a)) → keeps P (bind m k).
Proof.
  intros [Hm Hq] Hk d Hd. unfold bind. specialize (Hm d Hd). destruct (m d) as [d' [a|e]] eqn:E; simpl in *; [|done].
  by apply Hk; [eapply Hq|].
Qed.

Lemma yields_bind {A B} (m : Script D A) (Q : A → Prop) (k : A → Script D B) (Q' : B → Prop) :
  yields P m Q → (∀ a, Q a → yields P (k a) Q') → yields P (bind m k) Q'.
Proof.
  intros Hm Hk. split; [eapply keeps_learn; [done|]; intros a Ha; apply Hk, Ha|].
  intros d d' b Hd (d1 & a & E & E')%bind_run. destruct Hm as [Hkm Hq].
  refine (proj2 (Hk a _) d1 d' b _ E'); [by eapply Hq|]. specialize (Hkm d Hd). by rewrite E in Hkm.
Qed.

Lemma yields_read {A} (f : D → outcome string A) (Q : A → Prop) :
  (∀ d a, P d → f d = Ok a → Q a) → yields P (read f) Q.
Proof. intros H. split; [apply keeps_read|]. intros d d' a Hd [= <- E]. by eapply H. Qed.

Lemma yields_value {A} (r : outcome string A) : yields P (value r) (λ a, r = Ok a).
Proof. split; [apply keeps_value|]. by intros d d' a _ [= _ ->]. Qed.

(** What is read is known together with the property that is kept. *)
Lemma yields_bind_read {A B} (f : D → outcome string A) (k : A → Script D B) (Q : B → Prop) :
  (∀ a d, P d → f d = Ok a → yields P (k a) Q) → yields P (bind (read f) k) Q.
Proof.
  intros H. split; [apply keeps_bind_read; intros a d Hd E; by apply (H a d)|].
  intros d d' b Hd (d1 & a & [= <- E] & E')%bind_run. by apply (H a d Hd E) in E'.
Qed.

Lemma yields_bind_value {A B} (r : outcome string A) (k : A → Script D B) (Q : B → Prop) :
  (∀ a, r = Ok a → yields P (k a) Q) → yields P (bind (value r) k) Q.
Proof. intros H. eapply yields_bind; [apply yields_value|]. done. Qed.

Lemma yields_collect {A B} (l : list A) (f : A → Script D B) (Q : B → Prop) :
  (∀ a, yields P (f a) Q) → yields P (collect l f) (Forall Q).
Proof.
  intros Hf. induction l as [|a l IH]; simpl; [by apply yields_ret|].
  eapply yields_bind; [apply Hf|]. intros b Hb. eapply yields_bind; [apply IH|]. intros bs Hbs. apply yields_ret. by constructor.
Qed.

Lemma yields_collect_each {A B} (l : list A) (f : A → Script D B) (Q : A → B → Prop) :
  (∀ a, yields P (f a) (Q a)) → yields P (collect l f) (Forall2 Q l).
Proof.
  intros Hf. induction l as [|a l IH]; simpl; [by apply yields_ret|].
  eapply yields_bind; [apply Hf|]. intros b Hb. eapply yields_bind; [apply IH|]. intros bs Hbs. apply yields_ret. by constructor.
Qed.

Lemma keeps_for_each_in {A} (l : list A) body : (∀ a, a ∈ l → keeps P (body a)) → keeps P (for_each l body).
Proof.
  induction l as [|a l IH]; simpl; intros H; [apply keeps_ret|]. apply keeps_bind; [apply H; by left|].
  intros _. apply IH. intros a' Ha. apply H. by right.
Qed.

Lemma keeps_collect_in {A B} (l : list A) (f : A → Script D B) : (∀ a, a ∈ l → keeps P (f a)) → keeps P (collect l f).
Proof.
  induction l as [|a l IH]; simpl; intros H; [apply keeps_ret|]. apply keeps_bind; [apply H; by left|].
  intros b. apply keeps_bind; [apply IH; intros a' Ha; apply H; by right|]. intros bs. apply keeps_ret.
Qed.
End yields.

(** ** Guards *)
(** A state in which nobody works on a job. *)
Definition idle_state (s : JobState) : Prop := match s with Active => False | _ => True end.

(** The record of a job keeps its state from one table to another. *)
Definition same_state (t t' : Lua) : Prop := ∀ s, index t "state" = Ok (LString s) → index t' "state" = Ok (LString s).

Section guards.
Context {L : LuaLibs} {D : Type} `{!Redis D}.
Variables (q : RedisQueueName) (id : string).
Abbreviation jobs := (redis_key q JobsKey).

(** [drawn] are the tokens claims may draw, [ours] the leases callers present. *)
Record Guards (P : D → Prop) (free drawn : string → Prop) (ours : string → string → Prop) : Prop := {
  g_apart c : apart q id (command_key c) → keeps P (call c);
  g_hset x s : free x → keeps P (call (HSET jobs [(x, LString s)]));
  g_hdel x : free x → keeps P (call (HDEL jobs x));
  g_rewrite d x raw t t' s : P d → hget jobs x d = Ok (Some raw) → cjson_decode raw = Ok t → same_state t t' →
    cjson_encode t' = Ok s → keeps P (call (HSET jobs [(x, LString s)]));
  g_hsetnx x v : yields P (call (HSETNX jobs x v)) (λ r, r ≠ number 0 → free x);
  g_zadd s score x : idle_state s → free x → keeps P (call (ZADD (redis_key q (StateKey s)) score x));
  g_active score x : keeps P (call (ZADD (redis_key q (StateKey Active)) score x));
  g_inactive x : free x → keeps P (call (ZREM (redis_key q (StateKey Active)) x));
  g_zrem s x : idle_state s → yields P (call (ZREM (redis_key q (StateKey s)) x)) (λ r, r ≠ number 0 → free x);
  g_takes_out s c : idle_state s → command_key c = redis_key q (StateKey s) → takes_out c → keeps P (call c);
  g_lock_set x t px : free x → drawn t → keeps P (call (SET (redis_key q (LockKey x)) t px));
  g_lock_again d x t px : P d → get (redis_key q (LockKey x)) d = Ok (Some t) →
    keeps P (call (SET (redis_key q (LockKey x)) t px));
  g_lock_del x : free x → keeps P (call (DEL (redis_key q (LockKey x))));
  g_missing d x : P d → hget jobs x d = Ok None → free x;
  g_new d x : P d → hexists jobs x d = Ok false → free x;
  g_state d x raw t v : P d → hget jobs x d = Ok (Some raw) → cjson_decode raw = Ok t → index t "state" = Ok v →
    is_text v "active" = false → free x;
  g_unlocked d x : P d → exists_key (redis_key q (LockKey x)) d = Ok false → free x;
  g_ours d x t : P d → get (redis_key q (LockKey x)) d = Ok (Some t) → ours x t → free x;
  g_listed d s x : P d → idle_state s → zscore (redis_key q (StateKey s)) x d ≠ Ok None → free x;
  g_unlisted d x : P d → zscore (redis_key q (StateKey Active)) x d = Ok None → free x;
  g_untyped d t : P d → key_type (redis_key q (StateKey Active)) d = Ok t → t ≠ "zset" → ∀ x, free x;
}.
End guards.

(** * The shared functions keep what has guards

    One lemma per function of [RedisLeases], [RedisFinish] and [RedisReports]
    that several scripts run. *)

(** The arguments of a call are keys of the queue. *)
Record finish_tables (q : RedisQueueName) (a : FinishArgs) : Prop := {
  ft_jobs : fa_jobs a = redis_key q JobsKey;
  ft_active : fa_active a = redis_key q (StateKey Active);
  ft_waiting : fa_waiting a = redis_key q (StateKey Waiting);
  ft_waiting_children : fa_waiting_children a = redis_key q (StateKey WaitingChildren);
  ft_delayed : fa_delayed a = redis_key q (StateKey Delayed);
  ft_failed : fa_failed a = redis_key q (StateKey Failed);
  ft_sequence : fa_sequence a = redis_key q SequenceKey;
  ft_events : fa_events a = redis_key q EventsKey;
  ft_marker : fa_marker a = redis_key q MarkerKey;
  ft_failed_metrics : fa_failed_metrics a = redis_key q (MetricsKey true);
  ft_failed_data : fa_failed_data a = redis_key q (MetricsDataKey true);
  ft_dependencies : fa_dependencies a = redis_key q (DependenciesKey EmptyString);
  ft_deduplication : fa_deduplication a = redis_key q (DeduplicationKey EmptyString);
  ft_deduplication_next : fa_deduplication_next a = redis_key q (DeduplicationNextKey EmptyString);
  ft_repeat : fa_repeat a = redis_key q (RepeatOwnerKey EmptyString);
  ft_logs : fa_logs a = redis_key q (LogsKey EmptyString);
}.

Ltac finish_keys H := rewrite ?(ft_jobs _ _ H), ?(ft_active _ _ H), ?(ft_waiting _ _ H), ?(ft_waiting_children _ _ H),
  ?(ft_delayed _ _ H), ?(ft_failed _ _ H), ?(ft_sequence _ _ H), ?(ft_events _ _ H), ?(ft_marker _ _ H),
  ?(ft_failed_metrics _ _ H), ?(ft_failed_data _ _ H), ?(ft_dependencies _ _ H), ?(ft_deduplication _ _ H),
  ?(ft_deduplication_next _ _ H), ?(ft_repeat _ _ H), ?(ft_logs _ _ H).

Ltac keeps_step :=
  match goal with
  | |- keeps _ (for_each _ _) => apply keeps_for_each_in; intros ? ?
  | |- keeps _ (first_result _ _) => apply keeps_first_result; intros ?
  | |- keeps _ (count_each _ _) => apply keeps_count_each; intros ?
  | |- keeps _ (let '(_, _) := ?x in _) => destruct x
  | |- _ => keep_step
  end.
Ltac keeps_all := repeat keeps_step.

(** ** Values only *)
Section values.
Context {L : LuaLibs} {D : Type} (P : D → Prop).

Lemma keeps_text v : keeps P (text v).
Proof. apply keeps_value. Qed.
Lemma keeps_items v : keeps P (items_of v).
Proof. destruct v; try apply keeps_raise. apply keeps_ret. Qed.
Lemma keeps_arith x : keeps P (arith x).
Proof. destruct x; [apply keeps_ret|apply keeps_raise]. Qed.
Lemma keeps_collect {A B} (l : list A) (f : A → Script D B) : (∀ x, keeps P (f x)) → keeps P (collect l f).
Proof. intros Hf. apply keeps_collect_in. auto. Qed.
Lemma keeps_option_field job name : keeps P (option_field job name).
Proof. unfold option_field. keeps_all. Qed.
#[local] Hint Resolve keeps_text keeps_items keeps_arith keeps_option_field : leases.
Lemma keeps_flag job name : keeps P (option_flag job name).
Proof. unfold option_flag. keeps_all. Qed.
Lemma keeps_optional t name : keeps P (optional_field t name).
Proof. unfold optional_field. keeps_all. Qed.
Lemma keeps_duration v : keeps P (duration_millis_of v).
Proof. unfold duration_millis_of. keeps_all. Qed.
#[local] Hint Resolve keeps_flag keeps_optional keeps_duration : leases.
Lemma keeps_deduplication_id job : keeps P (deduplication_id job).
Proof. unfold deduplication_id, deduplication_of. keeps_all. Qed.
Lemma keeps_ttl job : keeps P (deduplication_ttl_millis job).
Proof. unfold deduplication_ttl_millis, deduplication_of. keeps_all. Qed.
#[local] Hint Resolve keeps_deduplication_id keeps_ttl : leases.
Lemma keeps_applied_retention job remove retention legacy : keeps P (retention_options job remove retention legacy).
Proof. unfold retention_options. keeps_all. Qed.
Lemma keeps_count_option r : keeps P (retention_count r).
Proof. unfold retention_count. keeps_all. Qed.
Lemma keeps_age r : keeps P (retention_age_millis r).
Proof. unfold retention_age_millis. keeps_all. Qed.
Lemma keeps_retention_limit r : keeps P (retention_limit r).
Proof. unfold retention_limit. keeps_all. Qed.
Lemma keeps_blocks child : keeps P (blocks_parent child).
Proof. unfold blocks_parent. keeps_all. Qed.
Lemma keeps_next_count `{!Redis D} owner next : keeps P (repeat_keep_last_next_count owner next).
Proof. unfold repeat_keep_last_next_count. keeps_all. Qed.
Lemma keeps_prepare a job : keeps P (prepare_deduplicated_next_job a job).
Proof. unfold prepare_deduplicated_next_job. keeps_all. Qed.
Lemma keeps_any_stored `{!Redis D} a children : keeps P (any_stored a children).
Proof. induction children as [|child children IH]; simpl; keeps_all; auto. Qed.
End values.
#[export] Hint Resolve keeps_text keeps_items keeps_arith keeps_option_field keeps_flag keeps_optional keeps_duration
  keeps_deduplication_id keeps_ttl keeps_applied_retention keeps_count_option keeps_age keeps_retention_limit keeps_blocks
  keeps_next_count keeps_prepare keeps_any_stored : leases.

(** ** Nothing under the keys without a guard *)
Section unaffected.
Context {L : LuaLibs} {D : Type} `{!Redis D, !RedisLaws D}.
Variables (q : RedisQueueName) (P : D → Prop).
Hypothesis Hu : unaffected q P.

Lemma unaffected_auxiliary c k : command_key c = redis_key q k → auxiliary k → keeps P (call c).
Proof. intros E Hk. apply Hu. intros id. rewrite E. apply apart_key. destruct k; first [by destruct Hk|by intros []]. Qed.

Lemma unaffected_store_scheduler job job_id scheduled :
  keeps P (store_repeat_scheduler job job_id (redis_key q (RepeatOwnerKey EmptyString)) scheduled).
Proof.
  unfold store_repeat_scheduler, write_repeat_scheduler. keeps_all; try (apply Hu; cbn [command_key]; auto with apart).
  rewrite meta_key_is. apply (keeps_repeat_options q P unaffected_auxiliary).
Qed.
End unaffected.
#[export] Hint Resolve unaffected_store_scheduler : leases.

(** What the texts of a table become when other fields are set. *)
Lemma set_fields_texts {D} l t t' (d d' : D) k s : set_fields l t d = (d', Ok t') → k ∉ l.*1 →
  index t k = Ok (LString s) → index t' k = Ok (LString s).
Proof. intros E Hk <-. by eapply set_fields_other. Qed.

Section shared.
Context {L : LuaLibs} {D : Type} `{!Redis D, !RedisLaws D}.
Variables (q : RedisQueueName) (id : string) (P : D → Prop) (free drawn : string → Prop) (ours : string → string → Prop).
Hypothesis G : Guards q id P free drawn ours.
Abbreviation jobs := (redis_key q JobsKey).

Lemma guards_unaffected : unaffected q P.
Proof. intros c Hc. apply (g_apart _ _ _ _ _ _ G), Hc. Qed.

Lemma guards_auxiliary c k : command_key c = redis_key q k → auxiliary k → keeps P (call c).
Proof. apply unaffected_auxiliary, guards_unaffected. Qed.

Ltac away := solve [apply (g_apart _ _ _ _ _ _ G); cbn [command_key]; auto with apart
  |apply (g_active _ _ _ _ _ _ G)|by apply (g_inactive _ _ _ _ _ _ G)
  |apply (g_zadd _ _ _ _ _ _ G); [exact I|assumption]
  |eapply (g_takes_out _ _ _ _ _ _ G); [|reflexivity|exact I]; exact I].
Ltac record := solve [first [by apply (g_hset _ _ _ _ _ _ G)|by apply (g_hdel _ _ _ _ _ _ G)]].
Ltac harmless := first [away|record].

(** ** Markers, schedulers, waiting jobs *)
Lemma kept_helpers : (∀ job job_id scheduled, keeps P (sync_repeat_scheduler job job_id (redis_key q (RepeatOwnerKey EmptyString)) scheduled)) ∧
  (∀ m, marker_or_none q m → keeps P (add_base_marker m)) ∧
  (∀ m k, marker_or_none q m → keeps P (refresh_delay_marker m k)) ∧
  (∀ m k, marker_or_none q m → keeps P (add_base_marker_if_waiting m k)).
Proof.
  pose proof guards_auxiliary as Ha. split_and!; intros; [by apply (keeps_sync q P Ha)|by apply (keeps_base_marker q P Ha)
    |by apply (keeps_refresh_marker q P Ha)|by apply (keeps_marker_if_waiting q P Ha)].
Qed.

Lemma kept_marker : (∀ k, keeps P (refresh_delay_marker (redis_key q MarkerKey) k)) ∧
  (∀ k, keeps P (add_base_marker_if_waiting (redis_key q MarkerKey) k)).
Proof. pose proof kept_helpers as (_ & _ & Hr & Hw). split; intros; [apply Hr|apply Hw]; by right. Qed.

Lemma kept_enqueue job job_id priority m : free job_id → marker_or_none q m →
  keeps P (enqueue_waiting_job jobs (redis_key q (StateKey Waiting)) (redis_key q SequenceKey) job job_id priority m).
Proof.
  intros Hf Hm. pose proof kept_helpers as (_ & Hb & _). unfold enqueue_waiting_job. keeps_all; try (by apply Hb); harmless.
Qed.

Lemma kept_push_back job job_id priority m : free job_id → marker_or_none q m →
  keeps P (push_back_waiting_job jobs (redis_key q (StateKey Waiting)) job job_id priority m).
Proof.
  intros Hf Hm. pose proof kept_helpers as (_ & Hb & _). unfold push_back_waiting_job. keeps_all; try (by apply Hb); harmless.
Qed.

(** A record that says another state belongs to a job that is free. *)
Lemma free_in_state d x raw t v s : P d → hget jobs x d = Ok (Some raw) → cjson_decode raw = Ok t → index t "state" = Ok v →
  is_text v s = true → String.eqb s "active" = false → free x.
Proof. intros Hd Hr Ht Hv Hs Hne. eapply (g_state _ _ _ _ _ _ G); eauto. apply is_text_eq in Hs as ->. exact Hne. Qed.

(** ** Keys a job owns *)
Section tables.
Variable a : FinishArgs.
Hypothesis tables : finish_tables q a.

Lemma keeps_event fields : keeps P (emit a fields).
Proof. unfold emit. finish_keys tables. keeps_all. away. Qed.

Lemma keeps_release_deduplication job job_id :
  keeps P (release_deduplication_key_on_finalization job job_id (redis_key q (DeduplicationKey EmptyString))).
Proof. unfold release_deduplication_key_on_finalization. keeps_all; away. Qed.

Lemma keeps_set_deduplication job job_id : keeps P (set_deduplication_key job job_id (redis_key q (DeduplicationKey EmptyString))).
Proof. unfold set_deduplication_key. keeps_all; away. Qed.

Lemma keeps_store_scheduler job job_id scheduled :
  keeps P (store_repeat_scheduler job job_id (redis_key q (RepeatOwnerKey EmptyString)) scheduled).
Proof. apply unaffected_store_scheduler, guards_unaffected. Qed.

Lemma keeps_set_repeat job job_id scheduled : keeps P scheduled →
  keeps P (set_repeat_key job job_id (redis_key q (RepeatOwnerKey EmptyString)) scheduled).
Proof. intros Hs. pose proof keeps_store_scheduler. unfold set_repeat_key. keeps_all; try away. Qed.

Lemma keeps_release_repeat job job_id : keeps P (release_repeat_key job job_id (redis_key q (RepeatOwnerKey EmptyString))).
Proof. unfold release_repeat_key. keeps_all; away. Qed.
#[local] Hint Resolve keeps_event keeps_release_deduplication keeps_set_deduplication keeps_release_repeat : leases.

Lemma keeps_dependency_keys job_id : keeps P (remove_dependency_keys (redis_key q (DependenciesKey EmptyString)) job_id).
Proof. unfold remove_dependency_keys. keeps_all; away. Qed.
#[local] Hint Resolve keeps_dependency_keys : leases.

(** ** Retention *)
Lemma keeps_remove_finished job_id : free job_id → keeps P (remove_finished_job a job_id).
Proof. intros Hf. unfold remove_finished_job. finish_keys tables. keeps_all; harmless. Qed.

Lemma listed_free s d l start : idle_state s → P d → zrevrange (redis_key q (StateKey s)) start d = Ok l → ∀ x, x ∈ l → free x.
Proof. intros Hs Hd E x Hx. eapply (g_listed _ _ _ _ _ _ G); eauto. by eapply zrevrange_member. Qed.
Lemma listed_by_score_free s d l max limit : idle_state s → P d →
  zrevrangebyscore (redis_key q (StateKey s)) max limit d = Ok l → ∀ x, x ∈ l → free x.
Proof. intros Hs Hd E x Hx. eapply (g_listed _ _ _ _ _ _ G); eauto. by eapply zrevrangebyscore_member. Qed.

Lemma keeps_take_out s c : idle_state s → command_key c = redis_key q (StateKey s) → takes_out c → keeps P (do_ c).
Proof. intros. by apply keeps_do, (g_takes_out _ _ _ _ _ _ G s). Qed.

Lemma keeps_apply_retention r s : idle_state s → keeps P (apply_finished_retention a r (redis_key q (StateKey s))).
Proof.
  intros Hs. unfold apply_finished_retention, remove_finished_jobs_by_max_age, remove_finished_jobs_by_max_count.
  keeps_all; try (by apply (g_takes_out _ _ _ _ _ _ G s)); apply keeps_remove_finished;
    first [by eapply listed_by_score_free|by eapply listed_free].
Qed.

Lemma keeps_settle s job_id encoded r : idle_state s → free job_id → keeps P encoded →
  keeps P (settle_finished a (redis_key q (StateKey s)) job_id encoded r).
Proof.
  intros Hs Hf He. unfold settle_finished. pose proof (keeps_apply_retention r s Hs). pose proof (keeps_remove_finished job_id Hf).
  rewrite (ft_jobs _ _ tables). keeps_all; first [by apply (g_zadd _ _ _ _ _ _ G)|harmless].
Qed.

(** ** The parked job *)
Lemma keeps_enqueue_prepared job job_id scheduled : free job_id → keeps P (enqueue_prepared_job a job job_id scheduled).
Proof.
  intros Hf. unfold enqueue_prepared_job. pose proof kept_marker as [Hm _]. finish_keys tables.
  keeps_all; try apply Hm; try (apply kept_enqueue; [done|by right]); harmless.
Qed.
#[local] Hint Resolve keeps_enqueue_prepared : leases.

(** No child of the list is stored: each is free. *)
Definition free_id (child : Lua) : Prop := ∀ v x, index child "id" = Ok v → to_text v = Ok x → free x.

Lemma any_stored_free children : yields P (any_stored a children) (λ stored, stored = false → Forall free_id children).
Proof.
  induction children as [|child children IH]; simpl; [apply yields_ret; constructor|].
  eapply yields_bind; [apply yields_value|]. intros v Hv. eapply yields_bind; [apply yields_value|]. intros x Hx.
  eapply yields_bind; [apply yields_read with (Q := λ b, b = false → free x)|].
  { intros d b Hd E ->. rewrite (ft_jobs _ _ tables) in E. by eapply (g_new _ _ _ _ _ _ G). }
  intros [] Hb; [by apply yields_ret|]. eapply yields_weaken; [apply IH|]. intros b H Hfalse. constructor; [|by apply H].
  intros v' x' Hv' Hx'. rewrite Hv' in Hv. injection Hv as ->. rewrite Hx' in Hx. injection Hx as ->. by apply Hb.
Qed.

(** Preparing a job leaves its id. *)
Lemma prepare_same_id job : yields P (prepare_deduplicated_next_job a job) (λ r, index r.1 "id" = index job "id").
Proof.
  split; [auto with leases|]. intros d d' r _ E. unfold prepare_deduplicated_next_job in E.
  apply bind_run in E as (d1 & now & _ & E). apply bind_run in E as (d2 & o & _ & E). apply bind_run in E as (d3 & delay & _ & E).
  cbn zeta in E. apply bind_run in E as (d4 & job1 & E1 & E). apply bind_run in E as (d5 & ttl & _ & E).
  apply bind_run in E as (d6 & job2 & [_ E2]%value_run & [= _ <-]). cbn [fst].
  rewrite (set_index_other _ _ _ _ _ E2) by done.
  apply (set_fields_other _ _ _ "id") in E1 as [_ ->]; [done|]. cbn. rewrite !not_elem_of_cons. split_and!; try done. apply not_elem_of_nil.
Qed.

(** Fields other than the id keep it. *)
Lemma set_fields_same_id l t : "id" ∉ l.*1 → yields P (set_fields l t) (λ t', index t' "id" = index t "id").
Proof. intros Hl. split; [auto with leases|]. intros d d' t' _ E. by eapply set_fields_other. Qed.

Ltac not_the_id := cbn; rewrite ?not_elem_of_cons; split_and!; try done; apply not_elem_of_nil.

Lemma keeps_parked_child parent_id id' child : free_id child →
  keeps P (enqueue_parked_child a parent_id (fa_dependencies a +:+ id') child).
Proof.
  intros Hf. unfold enqueue_parked_child. eapply keeps_learn; [apply prepare_same_id|]. intros [job scheduled] Hid.
  eapply keeps_learn; [apply set_fields_same_id; not_the_id|]. intros child' Hid'.
  eapply keeps_learn; [apply yields_value|]. intros v Hv. eapply keeps_learn; [apply yields_value|]. intros x Hx.
  assert (free x) by (apply (Hf v); [by rewrite <- Hid, <- Hid'|done]).
  keeps_all; try (by apply keeps_enqueue_prepared); finish_keys tables; first [apply keeps_set_deduplication|away].
Qed.

Lemma keeps_parked_flow parent children : free_id parent → Forall free_id children → keeps P (enqueue_parked_flow a parent children).
Proof.
  intros Hp Hc. unfold enqueue_parked_flow. apply keeps_bind; [apply keeps_collect; intros; auto with leases|]. intros ids.
  eapply keeps_learn; [apply prepare_same_id|]. intros [job scheduled] Hid. cbn [fst snd] in *.
  eapply keeps_learn; [apply set_fields_same_id; not_the_id|]. intros parent1 Hid1.
  eapply keeps_learn with (Q := λ t, index t "id" = index parent1 "id").
  { destruct children; [by apply yields_ret|]. split; [auto with leases|]. intros d d' t _ [_ E]%value_run. by eapply set_index_other. }
  intros parent2 Hid2. eapply keeps_learn; [apply yields_value|]. intros v Hv. eapply keeps_learn; [apply yields_value|]. intros x Hx.
  assert (free x) by (apply (Hp v); [congruence|done]).
  rewrite Forall_forall in Hc. keeps_all; try (by apply keeps_enqueue_prepared); try (apply keeps_parked_child; apply Hc; by subst);
    finish_keys tables; first [apply keeps_set_deduplication|away].
Qed.

Lemma keeps_next_flow key payload : apart q id key → keeps P (enqueue_deduplicated_next_flow a key payload).
Proof.
  intros Hk. assert (keeps P (call (DEL key))) by by apply (g_apart _ _ _ _ _ _ G).
  unfold enqueue_deduplicated_next_flow. apply keeps_bind; [auto with leases|]. intros v. destruct (present v) as [parent|]; [|keeps_all].
  apply keeps_bind; [auto with leases|]. intros children.
  eapply keeps_learn; [apply yields_value|]. intros w Hw. eapply keeps_learn; [apply yields_value|]. intros x Hx.
  eapply keeps_learn; [apply yields_read with (Q := λ b, b = false → free x)|].
  { intros d b Hd E ->. rewrite (ft_jobs _ _ tables) in E. by eapply (g_new _ _ _ _ _ _ G). }
  intros [] Hfree; [keeps_all|]. apply keeps_bind; [auto with leases|]. intros l.
  eapply keeps_learn; [apply any_stored_free|]. intros [] Hl; [keeps_all|].
  apply keeps_bind; [apply keeps_parked_flow; [|by apply Hl]|intros; keeps_all].
  intros v' x' Hv' Hx'. rewrite Hv' in Hw. injection Hw as ->. rewrite Hx' in Hx. injection Hx as ->. by apply Hfree.
Qed.
(** A record written back with other fields set keeps its state. *)
Lemma keeps_rewrite d x raw t t' s : P d → hget jobs x d = Ok (Some raw) → cjson_decode raw = Ok t →
  index t' "state" = index t "state" → cjson_encode t' = Ok s → keeps P (call (HSET jobs [(x, LString s)])).
Proof. intros Hd Hr Ht Hs He. eapply (g_rewrite _ _ _ _ _ _ G); eauto. intros v Hv. by rewrite Hs. Qed.

Lemma keeps_join next_id next_text parent_id : keeps P (join_parent a next_id next_text parent_id).
Proof.
  unfold join_parent. destruct (present parent_id) as [p|]; [|apply keeps_ret]. apply keeps_bind; [auto with leases|]. intros x.
  rewrite (ft_jobs _ _ tables). apply keeps_bind_read. intros r d Hd Hr. destruct r as [raw|]; [|apply keeps_ret].
  apply keeps_bind_value. intros parent Ht. apply keeps_bind; [auto with leases|]. intros v.
  apply keeps_bind; [auto with leases|]. intros ids. apply keeps_bind; [|intros; keeps_all; finish_keys tables; away].
  apply keeps_when. intros _. apply keeps_bind_value. intros parent' Hp. apply keeps_bind_value. intros s He.
  apply keeps_do. apply (keeps_rewrite d x raw parent parent' s); [done..| |done]. by apply (set_index_other _ _ _ _ _ Hp).
Qed.
#[local] Hint Resolve keeps_join : leases.

Lemma keeps_parked_job completing owner_job next_job next_id next_text count : free next_text →
  keeps P (enqueue_parked_job a completing owner_job next_job next_id next_text count).
Proof.
  intros Hf. unfold enqueue_parked_job. pose proof keeps_set_repeat as Hs. rewrite (ft_repeat _ _ tables), (ft_deduplication _ _ tables).
  keeps_all; first [apply keeps_set_deduplication|apply Hs; destruct completing; auto with leases; apply keeps_ret|by apply keeps_enqueue_prepared].
Qed.

Lemma keeps_enqueue_next completing owner_job : keeps P (enqueue_deduplicated_next a completing owner_job).
Proof.
  unfold enqueue_deduplicated_next. apply keeps_bind; [auto with leases|]. intros [i|]; [|apply keeps_ret].
  assert (apart q id (fa_deduplication_next a +:+ i)) as Hk by (rewrite (ft_deduplication_next _ _ tables); auto with apart).
  assert (keeps P (call (DEL (fa_deduplication_next a +:+ i)))) as Hdel by by apply (g_apart _ _ _ _ _ _ G).
  apply keeps_bind_read. intros r d _ _. destruct r as [raw|]; [|apply keeps_ret].
  apply keeps_bind; [auto with leases|]. intros next_job. apply keeps_bind; [auto with leases|]. intros kind.
  destruct (is_text kind "flow"); [by apply keeps_next_flow|].
  apply keeps_bind; [auto with leases|]. intros v. apply keeps_bind; [auto with leases|]. intros x.
  rewrite (ft_jobs _ _ tables). apply keeps_bind_read. intros [] d' Hd' Hx; [keeps_all|].
  assert (free x) by by eapply (g_new _ _ _ _ _ _ G).
  apply keeps_bind; [auto with leases|]. intros []; keeps_all; by apply keeps_parked_job.
Qed.
#[local] Hint Resolve keeps_enqueue_next : leases.

(** ** Metrics and events *)
Lemma keeps_metrics meta data max now : apart q id meta → apart q id data → keeps P (collect_metrics meta data max now).
Proof.
  intros Hm Hd. assert (∀ c, command_key c = meta → keeps P (call c)) as Hcm.
  { intros c <-. by apply (g_apart _ _ _ _ _ _ G). }
  assert (∀ c, command_key c = data → keeps P (call c)) as Hcd by (intros c <-; by apply (g_apart _ _ _ _ _ _ G)).
  unfold collect_metrics, store_points, push_points. keeps_all; first [by apply Hcm|by apply Hcd].
Qed.

Lemma keeps_failed_metrics : keeps P (collect_metrics (fa_failed_metrics a) (fa_failed_data a) (fa_max_points a) (fa_now_millis a)).
Proof. finish_keys tables. apply keeps_metrics; auto with apart. Qed.

Lemma keeps_transition event job_id : keeps P (emit_parent_waiting_children_transition_event a event job_id).
Proof. apply keeps_event. Qed.

Lemma keeps_drained : keeps P (emit_drained_event_if_needed a).
Proof. unfold emit_drained_event_if_needed. keeps_all. Qed.

Lemma keeps_scan_children job_id updated child_ids : keeps P (scan_children a job_id updated child_ids).
Proof. induction child_ids as [|c l IH]; simpl; keeps_all; auto. Qed.
Lemma keeps_scan job_id updated parent : keeps P (scan_parent a job_id updated parent).
Proof. pose proof keeps_scan_children. unfold scan_parent. keeps_all. Qed.
#[local] Hint Resolve keeps_failed_metrics keeps_transition keeps_drained keeps_scan : leases.

(** ** The parent *)
Lemma keeps_fail_flow_parent parent parent_id child_id reason : free parent_id →
  keeps P (fail_flow_parent a parent parent_id child_id reason).
Proof.
  intros Hf. unfold fail_flow_parent. pose proof (keeps_settle Failed parent_id) as Hs.
  rewrite (ft_deduplication _ _ tables), (ft_repeat _ _ tables), (ft_failed _ _ tables).
  keeps_all; try (apply Hs; [exact I|done|auto with leases]); finish_keys tables; away.
Qed.

Lemma keeps_resume_parent scheduled_at parent parent_id deferred : free parent_id → (∀ job, keeps P (scheduled_at job)) →
  keeps P (resume_flow_parent_at scheduled_at a parent parent_id deferred).
Proof.
  intros Hf Hs. unfold resume_flow_parent_at. pose proof kept_marker as [Hm _]. pose proof (keeps_transition) as Ht.
  finish_keys tables. keeps_all; try apply Ht; try apply Hm; try apply Hs; try (apply kept_enqueue; [done|by right]); harmless.
Qed.

Lemma keeps_complete_parent job_id v updated job : keeps P (complete_parent a job_id v updated job).
Proof.
  unfold complete_parent, settle_dependency. apply keeps_bind; [auto with leases|]. intros [p|]; [|apply keeps_ret].
  apply keeps_bind; [auto with leases|]. intros x. rewrite (ft_jobs _ _ tables). apply keeps_bind_read. intros [raw|] d Hd Hr; [|apply keeps_ret].
  apply keeps_bind_value. intros parent Hp. apply keeps_bind; [keeps_all; finish_keys tables; away|]. intros had.
  apply keeps_bind_value. intros state Hs. apply keeps_when. intros Hw.
  assert (free x) by by eapply free_in_state.
  keeps_all; first [by apply keeps_fail_flow_parent|apply keeps_resume_parent; [done|auto with leases]|finish_keys tables; away].
Qed.

Lemma keeps_releases job : keeps P (releases_parent job).
Proof. unfold releases_parent. keeps_all. Qed.
#[local] Hint Resolve keeps_releases : leases.

Lemma keeps_fate p job_id error updated job parent : keeps P updated →
  keeps P (parent_fate a (fa_dependencies a +:+ p) job_id error updated job parent).
Proof. intros Hu. unfold parent_fate, remove_from_dependencies. finish_keys tables. keeps_all; away. Qed.

Lemma keeps_parent_failure resume job_id error updated job : keeps P updated →
  (∀ parent parent_id deferred, free parent_id → keeps P (resume a parent parent_id deferred)) →
  keeps P (fail_parent_with resume a job_id error updated job).
Proof.
  intros Hu Hres. unfold fail_parent_with, release_failed_dependency. apply keeps_bind; [auto with leases|]. intros [p|]; [|apply keeps_ret].
  apply keeps_bind; [auto with leases|]. intros x. rewrite (ft_jobs _ _ tables). apply keeps_bind_read. intros [raw|] d Hd Hr; [|apply keeps_ret].
  apply keeps_bind_value. intros parent Hp. apply keeps_bind; [keeps_all; finish_keys tables; away|]. intros had.
  apply keeps_bind_value. intros state Hs. apply keeps_when. intros Hw.
  assert (free x) by by eapply free_in_state.
  apply keeps_bind; [by apply keeps_fate|]. intros []; [by apply keeps_fail_flow_parent| |apply keeps_ret].
  apply keeps_bind; [apply keeps_when; intros _; apply keeps_do; finish_keys tables; away|]. intros _. by apply Hres.
Qed.

(** The script writes the next occurrence only where its id is new. *)
Lemma keeps_next_occurrence ARGV : keeps P (enqueue_next_occurrence a ARGV).
Proof.
  unfold enqueue_next_occurrence. rewrite (ft_jobs _ _ tables). eapply keeps_learn; [apply (g_hsetnx _ _ _ _ _ _ G)|].
  intros r Hr. apply keeps_when. intros Hone. assert (free (at_ ARGV 8)) by (apply Hr; intros ->; by vm_compute in Hone).
  pose proof kept_marker as [Hm _]. pose proof keeps_set_repeat as Hs. finish_keys tables.
  keeps_all; try apply Hm; try (apply Hs; auto with leases); try apply keeps_set_deduplication;
    try (apply kept_enqueue; [done|by right]); harmless.
Qed.

Lemma keeps_exhausted job_id job : keeps P (emit_retries_exhausted a job_id job).
Proof. unfold emit_retries_exhausted. keeps_all. Qed.
End tables.
End shared.
