(* ===== verification/RedisKept.v ===== *)
(** * The scripts keep what has guards ([src/job/redis.rs])

    One lemma per script: whatever its arguments, and wherever it stops, it
    keeps a property that has [Guards].  The reports need the lease they
    present to be one of [ours], the claim a token that may be [drawn]. *)
From S2P Require Import Prelude Ordering Text Float64 External Retry JobTypes JobStore JobDedup JobCore JobQueries Backend FloatOrder LuaDates RedisKeys RedisReplies RedisCalls RedisLua RedisLeases RedisLeaseRules RedisFinish RedisReports RedisMoves RedisRecords RedisRemovals RedisGuards.
Local Open Scope Z_scope.

Ltac call_tables := cbv [KEYS_of ARGV_of keys_of argv_of at_ last_key last numkeys arguments take drop fmap list_fmap arg_text
  nth Nat.sub unwrap_or delay_active_job_call release_active_job_call renew_lease_call promote_job_call reschedule_job_call
  retry_job_call update_priority_order_call promote_due_jobs_call update_data_call update_progress_call save_stacktrace_call
  add_log_call clear_job_logs_call remove_deduplication_key_call get_deduplication_job_id_call stats_call].

Section kept.
Context {X : Ext} {R : RedisExt} {L : LuaLibs} {D : Type} `{!Redis D, !RedisLaws D}.
Variables (q : RedisQueueName) (id : string) (P : D → Prop) (free drawn : string → Prop) (ours : string → string → Prop).
Hypothesis G : Guards q id P free drawn ours.
Abbreviation jobs := (redis_key q JobsKey).

Ltac away := solve [apply (g_apart _ _ _ _ _ _ G); cbn [command_key]; auto with apart
  |apply (g_active _ _ _ _ _ _ G)|by apply (g_inactive _ _ _ _ _ _ G)
  |apply (g_zadd _ _ _ _ _ _ G); [exact I|assumption]
  |eapply (g_takes_out _ _ _ _ _ _ G); [|reflexivity|exact I]; exact I].
Ltac record := solve [first [by apply (g_hset _ _ _ _ _ _ G)|by apply (g_hdel _ _ _ _ _ _ G)]].
Ltac taken := solve [first [by apply (g_takes_out _ _ _ _ _ _ G Completed)|by apply (g_takes_out _ _ _ _ _ _ G Failed)]].
Ltac harmless := first [away|record|taken].

Lemma free_missing d x : P d → hget jobs x d = Ok None → free x.
Proof. apply (g_missing _ _ _ _ _ _ G). Qed.

(** The tables of the calls *)
Lemma complete_tables i token now value remove next encoded :
  let c := complete_job_call i token now value remove next encoded in finish_tables q (complete_args (KEYS_of q c) (ARGV_of q c)).
Proof. cbn zeta. by split. Qed.

Lemma fail_tables i token now error retrying scheduled remove :
  let c := fail_job_call i token now error retrying scheduled remove in finish_tables q (fail_args (KEYS_of q c) (ARGV_of q c)).
Proof. cbn zeta. by split. Qed.

Lemma recover_tables now :
  let c := recover_stalled_jobs_call now in finish_tables q (recover_args (KEYS_of q c) (ARGV_of q c)).
Proof. cbn zeta. by split. Qed.

Lemma kept_sync job job_id scheduled : keeps P (sync_repeat_scheduler job job_id (redis_key q (RepeatOwnerKey EmptyString)) scheduled).
Proof. by eapply kept_helpers. Qed.
Lemma kept_refresh k : keeps P (refresh_delay_marker (redis_key q MarkerKey) k).
Proof. by eapply kept_marker. Qed.
Lemma kept_base_if_waiting k : keeps P (add_base_marker_if_waiting (redis_key q MarkerKey) k).
Proof. by eapply kept_marker. Qed.
Lemma kept_waiting job job_id priority : free job_id →
  keeps P (enqueue_waiting_job jobs (redis_key q (StateKey Waiting)) (redis_key q SequenceKey) job job_id priority (redis_key q MarkerKey)).
Proof. intros Hf. eapply kept_enqueue; eauto. by right. Qed.
#[local] Hint Resolve kept_sync kept_refresh kept_base_if_waiting kept_waiting : leases.

(** ** Claiming *)
Lemma kept_promote KEYS ARGV m due : claim_tables q KEYS ARGV → marker_or_none q m → keeps P (promote_due KEYS ARGV m due).
Proof.
  intros H Hm. unfold promote_due. tables H. apply keeps_bind_read. intros r d Hd Hr.
  apply keeps_bind; [apply keeps_do; away|]. intros _. destruct r as [raw|]; [|apply keeps_ret].
  apply keeps_bind_value. intros job Hj. apply keeps_bind_value. intros state Hs. apply keeps_when. intros Ht.
  assert (free due) by by eapply free_in_state.
  keeps_all; try (by eapply kept_enqueue); away.
Qed.

Lemma kept_candidate KEYS ARGV limit i : claim_tables q KEYS ARGV → drawn (at_ ARGV 5) → keeps P (try_candidate KEYS ARGV limit i).
Proof.
  intros H Ht. unfold try_candidate, take_job. tables H. rewrite lock_key_is. apply keeps_bind_read. intros r d Hd Hr.
  destruct r as [raw|]; [|keeps_all; away].
  apply keeps_bind_value. intros job Hj. apply keeps_bind_value. intros state Hs.
  destruct (is_text state "waiting") eqn:Hw; [|keeps_all; away].
  assert (free i) by by eapply free_in_state.
  pose proof (keeps_count q P (guards_auxiliary q id P free drawn ours G) KEYS ARGV limit H).
  keeps_all; first [by apply (g_lock_set _ _ _ _ _ _ G)|harmless].
Qed.

Lemma kept_claim KEYS ARGV : claim_tables q KEYS ARGV → drawn (at_ ARGV 5) → keeps P (CLAIM_SCRIPT KEYS ARGV).
Proof.
  intros H Ht. unfold CLAIM_SCRIPT. tables H. pose proof (guards_auxiliary q id P free drawn ours G) as Ha.
  apply keeps_bind; [by apply (keeps_paused_or_maxed q P Ha)|]. intros paused.
  keeps_all; try (by apply kept_promote; [done|destruct paused; [left|right]]); by apply kept_candidate.
Qed.

(** ** Renewing *)
Lemma kept_renewed d i raw job s lease : hget jobs i d = Ok (Some raw) → P d → cjson_decode raw = Ok job →
  ∀ job', set_index job "lease_expires_at" lease = Ok job' → cjson_encode job' = Ok s → keeps P (call (HSET jobs [(i, LString s)])).
Proof.
  intros Hr Hd Hj job' Hs He. apply (keeps_rewrite q id P free drawn ours G d i raw job job' s); [done..| |done].
  by apply (set_index_other _ _ _ _ _ Hs).
Qed.

Lemma kept_renew job_id token expires lease : keeps P (eval_call q RENEW_LEASE_SCRIPT (renew_lease_call job_id token expires lease)).
Proof.
  unfold eval_call, RENEW_LEASE_SCRIPT, decode, set_field, encode. call_tables. keeps_all; try away.
  - bools. subst. by eapply (g_lock_again _ _ _ _ _ _ G).
  - eapply kept_renewed; eassumption.
Qed.

Lemma kept_renew_all KEYS ARGV pairs : at_ KEYS 1 = jobs → at_ KEYS 2 = redis_key q (StateKey Active) →
  at_ KEYS 3 = redis_key q StalledKey → at_ ARGV 1 = redis_key q (LockKey EmptyString) → keeps P (renew_all KEYS ARGV pairs).
Proof.
  intros K1 K2 K3 A1. induction pairs as [|[i t] pairs IH]; simpl; [apply keeps_ret|].
  apply keeps_bind; [|intros ok; apply keeps_bind; [done|intros; apply keeps_ret]]. unfold renew_one, decode, set_field, encode. rewrite K1, K2, K3, A1. cbn zeta. rewrite lock_key_is.
  keeps_all; try away; try (eapply kept_renewed; eassumption).
  repeat case_match; simplify_eq; bools; subst. eapply (g_lock_again _ _ _ _ _ _ G); [|eassumption]; eassumption.
Qed.

Lemma kept_renewals expires lease renewals : keeps P (eval_call q RENEW_LEASES_SCRIPT (renew_leases_call expires lease renewals)).
Proof. unfold eval_call, RENEW_LEASES_SCRIPT. by apply kept_renew_all. Qed.

(** ** Giving back *)
Definition granted (job_id : string) (r : Lua + list string) : Prop := match r with inl _ => free job_id | inr _ => True end.

Lemma owned_yields job_id token : ours job_id token → yields P
  (owned_job jobs (redis_key q (StateKey Active)) (redis_key q (LockKey job_id)) (redis_key q StalledKey) job_id token) (granted job_id).
Proof.
  intros Ho. unfold owned_job. assert (free job_id → keeps P (call (DEL (redis_key q (LockKey job_id))))) as Hdel.
  { intros. by apply (g_lock_del _ _ _ _ _ _ G). }
  apply yields_bind_read. intros [raw|] d Hd Hr.
  2: { assert (free job_id) by by eapply free_missing. split; [keeps_all; first [by apply Hdel|away]|].
       intros d1 d2 [] _ E; [|done]. by repeat (apply bind_run in E as (? & ? & _ & E)). }
  apply yields_bind_value. intros job Hj. apply yields_bind_value. intros state Hs.
  destruct (is_text state "active") eqn:Hact; cbn [negb].
  2: { assert (free job_id) by by eapply (g_state _ _ _ _ _ _ G). split; [keeps_all; away|].
       intros d1 d2 [] _ E; [|done]. by repeat (apply bind_run in E as (? & ? & _ & E)). }
  eapply yields_bind; [apply yields_read with (Q := λ r, r = Some token → free job_id)|].
  { intros d1 r Hd1 E ->. by eapply (g_ours _ _ _ _ _ _ G). }
  intros [t|] Ht; [|by apply yields_ret]. destruct (String.eqb_spec t token) as [->|]; [|by apply yields_ret]. simpl.
  assert (free job_id) by by apply Ht.
  eapply yields_bind; [apply yields_any; away|]. intros r' _. destruct (match r' with LNumber (S754_zero _) => true | _ => false end); [by apply yields_ret|].
  eapply yields_bind; [by apply yields_any, keeps_do, Hdel|]. intros _ _.
  eapply yields_bind; [apply yields_any, keeps_do; away|]. intros _ _. by apply yields_ret.
Qed.

Lemma kept_delay_owned job_id token scheduled text job : free job_id →
  let c := delay_active_job_call job_id token scheduled text in keeps P (delay_owned (KEYS_of q c) (ARGV_of q c) job).
Proof. intros Hf. cbn zeta. unfold delay_owned. call_tables. keeps_all; harmless. Qed.

Lemma kept_release_owned job_id token now job : free job_id →
  let c := release_active_job_call job_id token now in keeps P (release_owned (KEYS_of q c) (ARGV_of q c) job).
Proof.
  intros Hf. cbn zeta. unfold release_owned. call_tables. keeps_all; try (eapply kept_push_back; eauto; by right); harmless.
Qed.

Lemma kept_delay job_id token scheduled text : ours job_id token →
  keeps P (eval_call q DELAY_ACTIVE_JOB_SCRIPT (delay_active_job_call job_id token scheduled text)).
Proof.
  intros Ho. unfold eval_call, DELAY_ACTIVE_JOB_SCRIPT. eapply keeps_learn; [by apply owned_yields|].
  intros [job|refusal] Hf; [by apply kept_delay_owned|apply keeps_ret].
Qed.

Lemma kept_release job_id token now : ours job_id token →
  keeps P (eval_call q RELEASE_ACTIVE_JOB_SCRIPT (release_active_job_call job_id token now)).
Proof.
  intros Ho. unfold eval_call, RELEASE_ACTIVE_JOB_SCRIPT. eapply keeps_learn; [by apply owned_yields|].
  intros [job|refusal] Hf; [by apply kept_release_owned|apply keeps_ret].
Qed.

(** ** Completing and failing *)
Lemma leased_yields job_id token : ours job_id token →
  yields P (leased_job jobs (redis_key q (LockKey job_id)) job_id token) (granted job_id).
Proof.
  intros Ho. unfold leased_job. eapply yields_bind; [by apply yields_any, keeps_read|]. intros [raw|] _; [|by apply yields_ret].
  eapply yields_bind; [by apply yields_any, keeps_decode|]. intros job _. eapply yields_bind; [by apply yields_any, keeps_getf|]. intros state _.
  destruct (negb _); [eapply yields_bind; [by apply yields_any, keeps_value|]; intros; by apply yields_ret|].
  eapply yields_bind; [apply yields_read with (Q := λ r, r = Some token → free job_id)|].
  { intros d r Hd E ->. by eapply (g_ours _ _ _ _ _ _ G). }
  intros [t|] Ht; [|by apply yields_ret]. destruct (String.eqb_spec t token) as [->|]; apply yields_ret; [by apply Ht|done].
Qed.

Lemma kept_unresolved a job_id job : keeps P (unresolved_dependencies a job_id job).
Proof. unfold unresolved_dependencies, failed_child. keeps_all. Qed.

Lemma kept_end_lease job_id : free job_id →
  keeps P (end_lease (redis_key q (LockKey job_id)) (redis_key q StalledKey) (redis_key q (StateKey Active)) job_id).
Proof. intros Hf. unfold end_lease. keeps_all; first [by apply (g_lock_del _ _ _ _ _ _ G)|away]. Qed.

Lemma kept_record_completed KEYS ARGV job : finish_tables q (complete_args KEYS ARGV) →
  at_ KEYS 3 = redis_key q (StateKey Completed) → at_ KEYS 12 = redis_key q (MetricsKey false) →
  at_ KEYS 13 = redis_key q (MetricsDataKey false) → free (at_ ARGV 1) → keeps P (record_completed KEYS ARGV job).
Proof.
  intros T H3 H12 H13 Hf. unfold record_completed. cbn zeta. rewrite H3, H12, H13.
  pose proof (ft_marker _ _ T) as Hm. pose proof (ft_waiting _ _ T) as Hw. cbn in Hm, Hw. rewrite Hm, Hw.
  rewrite (ft_deduplication _ _ T), (ft_repeat _ _ T).
  pose proof (keeps_release_deduplication _ _ _ _ _ _ G) as Hd. pose proof (keeps_release_repeat _ _ _ _ _ _ G) as Hr.
  pose proof (keeps_enqueue_next _ _ _ _ _ _ G _ T) as Hn. pose proof (keeps_settle _ _ _ _ _ _ G _ T Completed) as Hs.
  pose proof (keeps_complete_parent _ _ _ _ _ _ G _ T) as Hp. pose proof (keeps_next_occurrence _ _ _ _ _ _ G _ T) as Ho.
  pose proof (keeps_event _ _ _ _ _ _ G _ T) as He. pose proof (keeps_drained _ _ _ _ _ _ G _ T) as Hdr.
  keeps_all; first [apply Hs; [exact I|done|apply keeps_ret]|eapply keeps_metrics; eauto with apart].
Qed.

Lemma kept_record_failed KEYS ARGV job : finish_tables q (fail_args KEYS ARGV) → free (at_ ARGV 1) →
  keeps P (record_failed KEYS ARGV job).
Proof.
  intros T Hf. unfold record_failed, retry_leased, fail_leased. cbn zeta.
  pose proof (keeps_release_deduplication _ _ _ _ _ _ G) as Hd. pose proof (keeps_release_repeat _ _ _ _ _ _ G) as Hr.
  pose proof (keeps_enqueue_next _ _ _ _ _ _ G _ T) as Hn. pose proof (keeps_settle _ _ _ _ _ _ G _ T Failed) as Hs.
  pose proof (keeps_parent_failure _ _ _ _ _ _ G _ T) as Hp. pose proof (keeps_failed_metrics _ _ _ _ _ _ G _ T) as Hm.
  pose proof (keeps_event _ _ _ _ _ _ G _ T) as He. pose proof (keeps_drained _ _ _ _ _ _ G _ T) as Hdr.
  pose proof (keeps_exhausted _ _ _ _ _ _ G _ T) as Hx. finish_keys T. revert Hs Hm. finish_keys T. intros Hs Hm.
  keeps_all; first [apply Hs; [exact I|done|apply keeps_ret]|apply Hp; [apply keeps_ret|intros; eapply keeps_resume_parent; eauto with leases]
    |harmless].
Qed.

Lemma kept_complete job_id token now value remove next encoded : ours job_id token →
  keeps P (eval_call q COMPLETE_SCRIPT (complete_job_call job_id token now value remove next encoded)).
Proof.
  intros Ho. unfold eval_call, COMPLETE_SCRIPT. eapply keeps_learn; [by apply leased_yields|].
  intros [job|refusal] Hf; [|apply keeps_ret]. apply keeps_bind; [apply kept_unresolved|]. intros [reason|]; [apply keeps_ret|].
  apply keeps_bind; [by apply kept_end_lease|]. intros _. apply kept_record_completed; [apply complete_tables|done..].
Qed.

Lemma kept_fail job_id token now error retrying scheduled remove : ours job_id token →
  keeps P (eval_call q FAIL_SCRIPT (fail_job_call job_id token now error retrying scheduled remove)).
Proof.
  intros Ho. unfold eval_call, FAIL_SCRIPT. eapply keeps_learn; [by apply leased_yields|].
  intros [job|refusal] Hf; [|apply keeps_ret].
  apply keeps_bind; [by apply kept_end_lease|]. intros _. apply kept_record_failed; [apply fail_tables|done].
Qed.

(** ** Recovery *)
Section recovery.
Variable a : FinishArgs.
Hypothesis tables : finish_tables q a.

Lemma kept_is_current job job_id : keeps P (is_current_repeat_scheduler_job job job_id (redis_key q (RepeatOwnerKey EmptyString))).
Proof. unfold is_current_repeat_scheduler_job. keeps_all; away. Qed.

Lemma kept_stall_out i job : free i → keeps P (stall_out a i job).
Proof.
  intros Hf. unfold stall_out, recover_parent, emit_stalled_event, emit_failed_event.
  pose proof (keeps_release_deduplication _ _ _ _ _ _ G) as Hd. pose proof (keeps_release_repeat _ _ _ _ _ _ G) as Hr.
  pose proof (keeps_enqueue_next _ _ _ _ _ _ G _ tables) as Hn. pose proof (keeps_settle _ _ _ _ _ _ G _ tables Failed) as Hs.
  pose proof (keeps_parent_failure _ _ _ _ _ _ G _ tables) as Hp. pose proof (keeps_failed_metrics _ _ _ _ _ _ G _ tables) as Hm.
  pose proof (keeps_event _ _ _ _ _ _ G _ tables) as He.
  revert Hs Hm. finish_keys tables. intros Hs Hm. keeps_all;
    first [apply Hs; [exact I|done|auto with leases]
          |apply Hp; [auto with leases|intros; eapply keeps_resume_parent; eauto; intros; apply keeps_raise]|away].
Qed.

Lemma kept_requeue i job : free i → keeps P (requeue_stalled a i job).
Proof.
  intros Hf. unfold requeue_stalled, emit_stalled_event, emit_waiting_event. pose proof (keeps_event _ _ _ _ _ _ G _ tables) as He.
  finish_keys tables. keeps_all.
Qed.

Lemma kept_unlocked i job : free i → keeps P (recover_unlocked a i job).
Proof.
  intros Hf. unfold recover_unlocked, next_stalled_count, stalled_job, max_stalled_of. pose proof kept_is_current.
  pose proof (kept_stall_out i). pose proof (kept_requeue i). finish_keys tables. keeps_all; away.
Qed.

Lemma kept_recover_one i : keeps P (recover_stalled_one a (redis_key q (LockKey EmptyString)) i).
Proof.
  unfold recover_stalled_one. finish_keys tables. rewrite lock_key_is. apply keeps_bind_read. intros [raw|] d Hd Hr.
  - apply keeps_bind_value. intros job Hj. apply keeps_bind_value. intros state Hs.
    destruct (is_text state "active") eqn:Hact; [|assert (free i) by (by eapply (g_state _ _ _ _ _ _ G)); keeps_all; away].
    apply keeps_bind_read. intros [] d1 Hd1 Hx; [apply keeps_ret|].
    apply keeps_bind; [apply kept_unlocked; by eapply (g_unlocked _ _ _ _ _ _ G)|intros; apply keeps_ret].
  - assert (free i) by by eapply free_missing. keeps_all; away.
Qed.
End recovery.

Lemma kept_recover now : keeps P (eval_call q RECOVER_STALLED_SCRIPT (recover_stalled_jobs_call now)).
Proof.
  unfold eval_call, RECOVER_STALLED_SCRIPT, mark_active_jobs_stalled. pose proof (kept_recover_one _ (recover_tables now)).
  cbv zeta. keeps_all; first [apply H|apply (g_apart _ _ _ _ _ _ G); apply apart_key; by intros []].
Qed.

(** ** Moves *)
Lemma kept_promote_delayed job_id now job : free job_id →
  let c := promote_job_call job_id now in keeps P (promote_delayed (KEYS_of q c) (ARGV_of q c) job).
Proof. intros Hf. cbn zeta. unfold promote_delayed. call_tables. keeps_all; away. Qed.

Lemma kept_promote_job job_id now : keeps P (eval_call q PROMOTE_JOB_SCRIPT (promote_job_call job_id now)).
Proof.
  unfold eval_call, PROMOTE_JOB_SCRIPT, state_reply. pose proof (kept_promote_delayed job_id now) as Hp. revert Hp. cbn zeta. call_tables.
  intros Hp. apply keeps_bind_read. intros [raw|] d Hd Hr; [|keeps_all; away].
  apply keeps_bind_value. intros job Hj. apply keeps_bind_value. intros state Hs.
  destruct (is_text state "delayed") eqn:Hw; cbn [negb]; [|keeps_all; away].
  assert (free job_id) by by eapply free_in_state. keeps_all; first [by apply Hp|away].
Qed.

Lemma kept_reschedule job_id scheduled text : keeps P (eval_call q RESCHEDULE_JOB_SCRIPT (reschedule_job_call job_id scheduled text)).
Proof.
  unfold eval_call, RESCHEDULE_JOB_SCRIPT, reschedule_delayed, state_reply. call_tables.
  apply keeps_bind_read. intros [raw|] d Hd Hr; [|keeps_all; away].
  apply keeps_bind_value. intros job Hj. apply keeps_bind_value. intros state Hs.
  destruct (is_text state "delayed") eqn:Hw; cbn [negb]; [|keeps_all; away].
  assert (free job_id) by by eapply free_in_state. keeps_all; harmless.
Qed.

Lemma kept_promote_due now : keeps P (eval_call q PROMOTE_DUE_JOBS_SCRIPT (promote_due_jobs_call now)).
Proof.
  unfold eval_call, PROMOTE_DUE_JOBS_SCRIPT. call_tables. apply keeps_bind_read. intros ids d _ _.
  apply keeps_bind; [|intros; keeps_all]. apply keeps_count_each. intros i. unfold promote_due_one. call_tables.
  apply keeps_bind_read. intros r d1 Hd Hr. apply keeps_bind; [apply keeps_do; away|]. intros _. destruct r as [raw|]; [|apply keeps_ret].
  apply keeps_bind_value. intros job Hj. apply keeps_bind_value. intros state Hs.
  destruct (is_text state "delayed") eqn:Hw; [|apply keeps_ret].
  assert (free i) by by eapply free_in_state. keeps_all; away.
Qed.

Lemma kept_update_priority job_id priority lifo :
  keeps P (eval_call q UPDATE_PRIORITY_SCRIPT (update_priority_order_call job_id priority lifo)).
Proof.
  unfold eval_call, UPDATE_PRIORITY_SCRIPT, with_lifo. call_tables. apply keeps_bind_read. intros [raw|] d Hd Hr; [|keeps_all; away].
  apply keeps_bind_value. intros job Hj. apply keeps_bind_value. intros state Hs.
  apply keeps_bind; [keeps_all; away|]. intros _. apply keeps_bind; [auto with leases|]. intros n.
  apply keeps_bind_value. intros job1 H1. do 3 (apply keeps_bind; [keeps_all|]; intros ?).
  apply keeps_bind_value. intros job2 H2. destruct (is_text state "waiting") eqn:Hw.
  - assert (free job_id) by by eapply free_in_state. keeps_all; harmless.
  - apply keeps_bind_value. intros updated He. apply keeps_bind; [|intros; apply keeps_ret]. apply keeps_do.
    apply (keeps_rewrite q id P free drawn ours G d job_id raw job job2 updated); [done..| |done].
    by rewrite (set_index_other _ _ _ _ _ H2), (set_index_other _ _ _ _ _ H1).
Qed.

Lemma kept_deduplication_owner i job_id :
  keeps P (active_deduplication_owner jobs (redis_key q (DeduplicationKey EmptyString)) i job_id).
Proof. unfold active_deduplication_owner. keeps_all; away. Qed.

Lemma kept_repeat_owner key job_id : keeps P (active_repeat_owner jobs (redis_key q (RepeatOwnerKey EmptyString)) key job_id).
Proof. unfold active_repeat_owner, active_scheduler_owner, clear_scheduler, unfinished_of_series. keeps_all; away. Qed.

Lemma kept_retry_parent job_id now expires ttl job :
  let c := retry_job_call job_id now expires ttl in keeps P (retry_parent (KEYS_of q c) (ARGV_of q c) job).
Proof.
  cbn zeta. unfold retry_parent, parent_waits_again. call_tables. apply keeps_bind; [auto with leases|]. intros [p|]; [|apply keeps_ret].
  apply keeps_bind; [auto with leases|]. intros x. apply keeps_bind_read. intros [raw|] d Hd Hr; [|apply keeps_ret].
  apply keeps_bind_value. intros parent Hp. apply keeps_bind; [auto with leases|]. intros v.
  apply keeps_bind; [auto with leases|]. intros ids. apply keeps_bind_value. intros state Hs. apply keeps_when. intros Hc.
  apply andb_true_iff in Hc as [_ Ha]. apply negb_true_iff in Ha.
  assert (free x) by by eapply (g_state _ _ _ _ _ _ G). keeps_all; harmless.
Qed.

Lemma kept_retry_finished job_id now expires ttl job completed i key : free job_id →
  let c := retry_job_call job_id now expires ttl in keeps P (retry_finished (KEYS_of q c) (ARGV_of q c) job completed i key).
Proof.
  intros Hf. cbn zeta. pose proof (kept_retry_parent job_id now expires ttl) as Hp. revert Hp. cbn zeta. unfold retry_finished.
  pose proof (keeps_store_scheduler _ _ _ _ _ _ G) as Hs. destruct completed; call_tables; intros Hp;
    keeps_all; first [apply Hp|harmless].
Qed.

Lemma kept_retry job_id now expires ttl : keeps P (eval_call q RETRY_JOB_SCRIPT (retry_job_call job_id now expires ttl)).
Proof.
  unfold eval_call, RETRY_JOB_SCRIPT, state_reply, misplaced. pose proof (kept_retry_finished job_id now expires ttl) as Hf.
  revert Hf. cbn zeta. call_tables. intros Hf. pose proof kept_deduplication_owner. pose proof kept_repeat_owner.
  apply keeps_bind_read. intros [raw|] d Hd Hr; [|keeps_all; harmless].
  apply keeps_bind_value. intros job Hj. apply keeps_bind_value. intros state Hs. cbn zeta.
  destruct (is_finished (lua_or state (LString EmptyString))) eqn:Hw; cbn [negb]; [|keeps_all; harmless].
  assert (free job_id).
  { eapply (g_state _ _ _ _ _ _ G); eauto. destruct state; try done. unfold is_finished in Hw. simpl in Hw |- *.
    destruct (String.eqb_spec s "active") as [->|]; done. }
  keeps_all; first [by apply Hf|harmless].
Qed.

(** ** Records, logs and settings *)

(** An edit that leaves the state. *)
Definition leaves_state (edit : Lua → Script D Lua) : Prop :=
  ∀ d d' t t', edit t d = (d', Ok t') → d' = d ∧ index t' "state" = index t "state".

Lemma leaves_set name v : "state" ≠ name → leaves_state (set_field name v).
Proof. intros Hn d d' t t' [-> H]%value_run. split; [done|]. by eapply set_index_other. Qed.

Lemma leaves_decoded name raw : "state" ≠ name → leaves_state (set_decoded name raw).
Proof. intros Hn d d' t t' (d1 & v & [-> _]%value_run & E)%bind_run. by eapply leaves_set. Qed.

Lemma kept_edit job_id edit events : leaves_state edit → (∀ t, keeps P (edit t)) → keeps P events →
  keeps P (edit_record jobs job_id edit events).
Proof.
  intros Hl Hk He. unfold edit_record. apply keeps_bind_read. intros [raw|] d Hd Hr; [|apply keeps_ret].
  apply keeps_bind_value. intros job Hj. eapply keeps_learn with (Q := λ t', index t' "state" = index job "state").
  { split; [done|]. intros d1 d2 t' _ E. by apply Hl in E as [_ ?]. }
  intros job' Hs. apply keeps_bind_value. intros updated Hu.
  apply keeps_bind; [|intros _; apply keeps_bind; [done|intros; apply keeps_ret]].
  apply keeps_do. by apply (keeps_rewrite q id P free drawn ours G d job_id raw job job' updated).
Qed.

Lemma kept_logs_of job : keeps P (logs_of job).
Proof. unfold logs_of. keeps_all. Qed.
#[local] Hint Resolve kept_logs_of : leases.

Lemma kept_update_data job_id payload : keeps P (eval_call q UPDATE_DATA_SCRIPT (update_data_call job_id payload)).
Proof.
  unfold eval_call, UPDATE_DATA_SCRIPT. call_tables. apply kept_edit; [by apply leaves_decoded| |apply keeps_ret].
  intros t. unfold set_decoded. keeps_all.
Qed.

Lemma kept_update_progress job_id progress : keeps P (eval_call q UPDATE_PROGRESS_SCRIPT (update_progress_call job_id progress)).
Proof.
  unfold eval_call, UPDATE_PROGRESS_SCRIPT. call_tables. apply kept_edit; [by apply leaves_decoded| |apply keeps_do; away].
  intros t. unfold set_decoded. keeps_all.
Qed.

Lemma kept_save_stacktrace job_id trace reason :
  keeps P (eval_call q SAVE_STACKTRACE_SCRIPT (save_stacktrace_call job_id trace reason)).
Proof.
  unfold eval_call, SAVE_STACKTRACE_SCRIPT. call_tables. apply kept_edit; [| |apply keeps_ret].
  - intros d d' t t' (d1 & t1 & E1 & E2)%bind_run. apply leaves_decoded in E1 as [-> <-]; [|done]. by eapply leaves_set; [|exact E2].
  - intros t. unfold set_decoded. keeps_all.
Qed.

Lemma kept_add_log job_id now line keep entry : keeps P (eval_call q ADD_LOG_SCRIPT (add_log_call job_id now line keep entry)).
Proof.
  unfold eval_call, ADD_LOG_SCRIPT, trim_logs. call_tables. apply kept_edit.
  - intros d d' t t' (d1 & l & E1 & E2)%bind_run. apply bind_run in E1 as (d2 & v & [-> _]%value_run & [= <- _]). by eapply leaves_set; [|exact E2].
  - intros t. unfold add_log_entry. keeps_all.
  - keeps_all; away.
Qed.

Lemma kept_clear_logs job_id keep : keeps P (eval_call q CLEAR_LOGS_SCRIPT (clear_job_logs_call job_id keep)).
Proof.
  unfold eval_call, CLEAR_LOGS_SCRIPT, trim_logs. call_tables. apply keeps_bind_read. intros r d Hd Hr.
  apply keeps_bind; [|intros; keeps_all; away]. destruct r as [raw|]; [|apply keeps_ret]. apply keeps_bind_value. intros job Hj.
  unfold clear_log_entries. eapply keeps_learn with (Q := λ t', index t' "state" = index job "state").
  { split; [keeps_all|]. intros d1 d2 t' _ (d3 & l & _ & [_ E]%value_run)%bind_run. by eapply set_index_other. }
  intros job' Hs. apply keeps_bind_value. intros updated Hu. apply keeps_do.
  by apply (keeps_rewrite q id P free drawn ours G d job_id raw job job' updated).
Qed.

Lemma kept_remove_deduplication i :
  keeps P (eval_call q (λ KEYS _, REMOVE_DEDUPLICATION_KEY_SCRIPT KEYS) (remove_deduplication_key_call i)).
Proof. unfold eval_call, REMOVE_DEDUPLICATION_KEY_SCRIPT. call_tables. keeps_all; away. Qed.

Lemma kept_deduplication_id i : keeps P (eval_call q GET_DEDUPLICATION_JOB_ID_SCRIPT (get_deduplication_job_id_call i)).
Proof. unfold eval_call, GET_DEDUPLICATION_JOB_ID_SCRIPT, drop_owner, deduplication_of. call_tables. keeps_all; away. Qed.

Lemma kept_pause : keeps P (PAUSE_SCRIPT [redis_key q MetaKey; redis_key q EventsKey; redis_key q MarkerKey] ["paused"; event_retention]).
Proof. unfold PAUSE_SCRIPT. call_tables. keeps_all; away. Qed.

Lemma kept_resume : keeps P (RESUME_SCRIPT [redis_key q MetaKey; redis_key q EventsKey; redis_key q (StateKey Waiting);
  redis_key q (StateKey Delayed); redis_key q MarkerKey] ["resumed"; event_retention]).
Proof. unfold RESUME_SCRIPT. call_tables. keeps_all; away. Qed.
End kept.

(** * Removals keep what has guards

    [REMOVE_JOB_SCRIPT], [CLEAN_JOBS_SCRIPT] and [DRAIN_JOBS_SCRIPT] remove only
    jobs that are free: their record is gone, says another state than active,
    or their lock is gone. *)

(** The arguments of a call are keys of the queue. *)
Record removal_tables (q : RedisQueueName) (a : RemovalArgs) : Prop := {
  rt_jobs : ra_jobs a = redis_key q JobsKey;
  rt_waiting : ra_waiting a = redis_key q (StateKey Waiting);
  rt_delayed : ra_delayed a = redis_key q (StateKey Delayed);
  rt_active : ra_active a = redis_key q (StateKey Active);
  rt_waiting_children : ra_waiting_children a = redis_key q (StateKey WaitingChildren);
  rt_completed : ra_completed a = redis_key q (StateKey Completed);
  rt_failed : ra_failed a = redis_key q (StateKey Failed);
  rt_sequence : ra_sequence a = redis_key q SequenceKey;
  rt_marker : ra_marker a = redis_key q MarkerKey;
  rt_stalled : ra_stalled a = None ∨ ra_stalled a = Some (redis_key q StalledKey);
  rt_dependencies : ra_dependencies a = redis_key q (DependenciesKey EmptyString);
  rt_deduplication : ra_deduplication a = redis_key q (DeduplicationKey EmptyString);
  rt_deduplication_next : ra_deduplication_next a = redis_key q (DeduplicationNextKey EmptyString);
  rt_repeat : ra_repeat a = redis_key q (RepeatOwnerKey EmptyString);
  rt_logs : ra_logs a = redis_key q (LogsKey EmptyString);
}.

Ltac removal_keys H := rewrite ?(rt_jobs _ _ H), ?(rt_waiting _ _ H), ?(rt_delayed _ _ H), ?(rt_active _ _ H),
  ?(rt_waiting_children _ _ H), ?(rt_completed _ _ H), ?(rt_failed _ _ H), ?(rt_sequence _ _ H), ?(rt_marker _ _ H),
  ?(rt_dependencies _ _ H), ?(rt_deduplication _ _ H), ?(rt_deduplication_next _ _ H), ?(rt_repeat _ _ H), ?(rt_logs _ _ H).

Section kept.
Context {X : Ext} {R : RedisExt} {L : LuaLibs} {D : Type} `{!Redis D, !RedisLaws D}.
Variables (q : RedisQueueName) (id : string) (P : D → Prop) (free drawn : string → Prop) (ours : string → string → Prop).
Hypothesis G : Guards q id P free drawn ours.
Abbreviation jobs := (redis_key q JobsKey).

Ltac away := solve [apply (g_apart _ _ _ _ _ _ G); cbn [command_key]; auto with apart
  |apply (g_active _ _ _ _ _ _ G)|by apply (g_inactive _ _ _ _ _ _ G)
  |apply (g_zadd _ _ _ _ _ _ G); [exact I|assumption]
  |eapply (g_takes_out _ _ _ _ _ _ G); [|reflexivity|exact I]; exact I].
Ltac record := solve [first [by apply (g_hset _ _ _ _ _ _ G)|by apply (g_hdel _ _ _ _ _ _ G)]].
Ltac taken := solve [first [by apply (g_takes_out _ _ _ _ _ _ G Completed)|by apply (g_takes_out _ _ _ _ _ _ G Failed)]].
Ltac harmless := first [away|record|taken].

Section tables.
Variable a : RemovalArgs.
Hypothesis tables : removal_tables q a.

Lemma gone_unmark i : keeps P (unmark_stalled a i).
Proof. unfold unmark_stalled. destruct (rt_stalled _ _ tables) as [->| ->]; keeps_all; away. Qed.

Lemma gone_indexes i : free i → keeps P (remove_state_indexes a i).
Proof.
  intros Hf. unfold remove_state_indexes, state_indexes. removal_keys tables. apply keeps_for_each_in. intros key Hk.
  rewrite !elem_of_cons in Hk. apply keeps_do. destruct_or?; subst; try harmless. by apply not_elem_of_nil in Hk.
Qed.

Lemma gone_owned job i : keeps P (release_owned_keys a job i).
Proof.
  unfold release_owned_keys, release_deduplication_key. removal_keys tables. pose proof (keeps_release_repeat _ _ _ _ _ _ G).
  keeps_all; away.
Qed.

Lemma gone_dependencies i : keeps P (remove_dependency_keys (ra_dependencies a) i).
Proof. removal_keys tables. by eapply keeps_dependency_keys. Qed.
#[local] Hint Resolve gone_unmark gone_indexes gone_owned gone_dependencies : leases.

Lemma gone_finished i : free i → keeps P (remove_finished_job a i).
Proof. intros Hf. unfold remove_finished_job. removal_keys tables. rewrite <- (rt_dependencies _ _ tables). keeps_all; harmless. Qed.

Lemma gone_retention r : keeps P (apply_failed_retention a r).
Proof.
  unfold apply_failed_retention, remove_finished_jobs_by_max_age, remove_finished_jobs_by_max_count, retention_age.
  pose proof gone_finished. removal_keys tables. pose proof (listed_free _ _ _ _ _ _ G Failed) as H1.
  pose proof (listed_by_score_free _ _ _ _ _ _ G Failed) as H2.
  keeps_all; try taken; apply gone_finished; first [by eapply H2|by eapply H1].
Qed.
#[local] Hint Resolve gone_retention : leases.

(** ** The parent of a removed child *)
Lemma gone_scan null_too i ids : keeps P (scan_remaining a null_too i ids).
Proof. unfold failed_reason_of. induction ids as [|c l IH]; simpl; unfold failed_reason_of; keeps_all; auto. Qed.
#[local] Hint Resolve gone_scan : leases.

Lemma gone_remaining null_too p i parent : keeps P (remaining_children a null_too (ra_dependencies a +:+ p) i parent).
Proof. unfold remaining_children. removal_keys tables. keeps_all; away. Qed.

Lemma gone_fail_parent key parent p child reason : free p → keeps P (call (DEL key)) →
  keeps P (fail_removed_parent a key parent p child reason).
Proof.
  intros Hf Hk. unfold fail_removed_parent. pose proof gone_finished. removal_keys tables.
  keeps_all; first [done|by apply (g_zadd _ _ _ _ _ _ G Failed)|harmless].
Qed.

Lemma gone_resume_parent key scheduled_at parent p : free p → (∀ job, keeps P (scheduled_at job)) → keeps P (call (DEL key)) →
  keeps P (resume_removed_parent a key scheduled_at parent p).
Proof.
  intros Hf Hs Hk. unfold resume_removed_parent. pose proof (kept_waiting q id P free drawn ours G). pose proof (kept_refresh q id P free drawn ours G).
  removal_keys tables. keeps_all; try apply Hs; first [done|harmless].
Qed.

Lemma gone_release_parent null_too scheduled_at announce job i : (∀ job, keeps P (scheduled_at job)) →
  (∀ s p m, keeps P (announce s p m)) → keeps P (release_parent_after_removed_child a null_too scheduled_at announce job i).
Proof.
  intros Hs Ha. unfold release_parent_after_removed_child. apply keeps_bind; [auto with leases|]. intros [p|]; [|apply keeps_ret].
  apply keeps_bind; [auto with leases|]. intros x. rewrite (rt_jobs _ _ tables). apply keeps_bind_read. intros [raw|] d Hd Hr; [|apply keeps_ret].
  apply keeps_bind_value. intros parent Hp. apply keeps_bind_value. intros state Hst. apply keeps_when. intros Hw.
  assert (free x) by by eapply free_in_state. apply keeps_bind; [apply gone_remaining|].
  assert (keeps P (call (DEL (ra_dependencies a +:+ x)))) by (removal_keys tables; away). intros []; [| |].
  - apply keeps_bind; [by apply gone_resume_parent|]. auto.
  - apply keeps_ret.
  - apply keeps_bind; [by apply gone_fail_parent|]. auto.
Qed.

Lemma gone_ready key parent : keeps P (ready_children a key parent).
Proof. unfold ready_children. removal_keys tables. keeps_all. Qed.

(** Where the parent waits it is free. *)
Lemma gone_release_ready key otherwise d p raw parent t : P d → hget jobs p d = Ok (Some raw) → cjson_decode raw = Ok parent →
  index t "state" = index parent "state" → keeps P otherwise → keeps P (call (DEL key)) →
  keeps P (release_parent_if_ready a key otherwise p t).
Proof.
  intros Hd Hr Hj Ht Ho Hk. unfold release_parent_if_ready. apply keeps_bind_value. intros state Hs. rewrite Ht in Hs.
  destruct (is_text state "waiting_children") eqn:Hw; [|done]. assert (free p) by by eapply free_in_state.
  apply keeps_bind; [apply gone_ready|]. intros []; [|done|].
  - apply keeps_bind; [apply gone_resume_parent; auto with leases|]. intros. apply keeps_ret.
  - apply keeps_bind; [by apply gone_fail_parent|]. intros. apply keeps_ret.
Qed.

(** ** Unprocessed children *)
Lemma gone_job_record i job : ra_locks a = redis_key q (LockKey EmptyString) → free i → keeps P (remove_job_record a i job).
Proof.
  intros Hl Hf. unfold remove_job_record. rewrite Hl, lock_key_is.
  keeps_all; try (by apply (g_lock_del _ _ _ _ _ _ G)); removal_keys tables; harmless.
Qed.

Lemma gone_removable i raw child d : P d → hget jobs i d = Ok (Some raw) → cjson_decode raw = Ok child →
  yields P (removable_child a i child) (λ b, b = true → free i).
Proof.
  intros Hd Hr Hj. unfold removable_child. apply yields_bind_value. intros state Hs. apply yields_bind_read. intros locked d1 _ _.
  apply yields_ret. intros Hb. eapply (g_state _ _ _ _ _ _ G); eauto. destruct (is_text state "active"); [|done].
  by rewrite andb_false_r in Hb.
Qed.

Lemma gone_unprocessed depth announce parent key : ra_locks a = redis_key q (LockKey EmptyString) →
  (∀ i job, keeps P (announce i job)) → (∀ i, keeps P (call (SREM key i))) →
  keeps P (remove_unprocessed depth a announce parent key).
Proof.
  intros Hl Ha. revert parent key. induction depth as [|depth IH]; intros parent key Hk; simpl; [apply keeps_raise|].
  apply keeps_bind; [unfold dependency_members; keeps_all|]. intros pending. apply keeps_bind; [auto with leases|]. intros v.
  apply keeps_bind; [auto with leases|]. intros ids. apply keeps_bind; [|intros; apply keeps_ret]. apply keeps_collect. intros c.
  destruct (negb _); [apply keeps_ret|]. apply keeps_bind; [auto with leases|]. intros x. rewrite (rt_jobs _ _ tables).
  apply keeps_bind_read. intros [raw|] d Hd Hr; [|keeps_all; apply Hk]. apply keeps_bind_value. intros child Hj.
  eapply keeps_learn; [by eapply gone_removable|]. intros [] Hf; [|apply keeps_ret].
  pose proof (gone_job_record x child Hl (Hf eq_refl)).
  keeps_all. apply IH. intros i. removal_keys tables. away.
Qed.

(** ** One job, many jobs *)
Lemma gone_candidate scheduled_at c : ra_locks a = redis_key q (LockKey EmptyString) → free (ca_id c) →
  (∀ job, keeps P (scheduled_at job)) → keeps P (remove_candidate a scheduled_at c).
Proof.
  intros Hl Hf Hs. unfold remove_candidate. rewrite Hl, lock_key_is.
  pose proof (gone_release_parent true scheduled_at (λ _ _ _, ret tt)) as Hp.
  keeps_all; try (by apply (g_lock_del _ _ _ _ _ _ G)); try (apply Hp; [done|intros; apply keeps_ret]); removal_keys tables; harmless.
Qed.

(** Every candidate is free where those admitted from the active set are. *)
Lemma gone_candidates state_key state allow ids :
  (∀ i, (state = "active" → free i) → keeps P (call (ZREM state_key i))) →
  (∀ job i, yields P (allow job i) (λ r, state = "active" → r ≠ None → free i)) →
  yields P (collect_candidates a state_key state allow ids) (Forall (λ c, free (ca_id c))).
Proof.
  intros Hz Hk. induction ids as [|i ids IH]; simpl; [by apply yields_ret|].
  rewrite (rt_jobs _ _ tables). apply yields_bind_read. intros r d Hd Hr.
  eapply yields_bind with (Q := λ c, ∀ c', c = Some c' → free (ca_id c')).
  - destruct r as [raw|].
    2: { eapply yields_bind; [apply yields_any, keeps_do, Hz; intros _; by eapply free_missing|]. intros. by apply yields_ret. }
    apply yields_bind_value. intros job Hj. apply yields_bind_value. intros v Hv.
    destruct (is_text v state) eqn:Ht.
    2: { eapply yields_bind; [apply yields_any, keeps_do, Hz; intros ->; by eapply (g_state _ _ _ _ _ _ G)|]. intros. by apply yields_ret. }
    eapply yields_bind; [apply Hk|]. intros reference Hf. apply yields_ret. intros c'. destruct reference as [n|]; [|done].
    intros [= <-]. simpl. destruct (String.eqb_spec state "active") as [->|Hne]; [by apply Hf|].
    eapply free_in_state; eauto. by apply String.eqb_neq.
  - intros c Hc. eapply yields_bind; [apply IH|]. intros rest Hrest. apply yields_ret. destruct c as [c|]; [|done].
    constructor; [by apply Hc|done].
Qed.

Lemma gone_removed scheduled_at cs : ra_locks a = redis_key q (LockKey EmptyString) → Forall (λ c, free (ca_id c)) cs →
  (∀ job, keeps P (scheduled_at job)) → keeps P (collect cs (remove_candidate a scheduled_at)).
Proof. intros Hl Hc Hs. rewrite Forall_forall in Hc. apply keeps_collect_in. intros c Hin. apply gone_candidate; auto. Qed.

Lemma gone_owns_series job i : keeps P (owns_series job i (redis_key q (RepeatOwnerKey EmptyString))).
Proof. unfold owns_series. keeps_all; away. Qed.
End tables.

(** ** The calls *)
Lemma gone_transition event i m job_id : keeps P (emit_transition (redis_key q EventsKey) event i job_id m).
Proof. unfold emit_transition. keeps_all. away. Qed.

Lemma gone_state_name state : keeps P (event_state_name state).
Proof. unfold event_state_name. keeps_all. Qed.

Lemma remove_tables job_id now :
  let c := remove_job_call job_id now in removal_tables q (remove_args (KEYS_of q c) (ARGV_of q c)).
Proof. cbn zeta. split; try reflexivity. by right. Qed.

Lemma clean_tables state cutoff limit now :
  let c := clean_jobs_call state cutoff limit now in removal_tables q (clean_args (KEYS_of q c) (ARGV_of q c)).
Proof. cbn zeta. split; try reflexivity. by right. Qed.

Lemma drain_tables include_delayed now :
  let c := drain_jobs_call include_delayed now in removal_tables q (drain_args (KEYS_of q c) (ARGV_of q c)).
Proof. cbn zeta. split; try reflexivity. by left. Qed.

Lemma gone_record a job_id job : removal_tables q a → free job_id → keeps P (remove_record a (redis_key q (LockKey job_id)) job_id job).
Proof.
  intros T Hf. unfold remove_record. pose proof (gone_unmark a T). pose proof (gone_indexes a T). pose proof (gone_owned a T).
  pose proof (gone_dependencies a T).
  keeps_all; try (by apply (g_lock_del _ _ _ _ _ _ G)); removal_keys T; harmless.
Qed.

Lemma kept_remove job_id now : keeps P (eval_call q REMOVE_JOB_SCRIPT (remove_job_call job_id now)).
Proof.
  unfold eval_call, REMOVE_JOB_SCRIPT. pose proof (remove_tables job_id now) as T. cbn zeta in T |- *.
  set (a := remove_args _ _) in *. pose proof (gone_unmark a T) as Hu. pose proof (gone_indexes a T) as Hi.
  pose proof (gone_dependencies a T) as Hd. rewrite (rt_logs _ _ T).
  pose proof (gone_record a job_id) as Hr. pose proof (gone_release_parent a T) as Hp. pose proof gone_transition as He.
  pose proof gone_state_name as Hn. call_tables. cbv [remove_job_call keys_of argv_of numkeys arguments take drop fmap list_fmap arg_text].
  apply keeps_bind_read. intros [raw|] d Hd' Hraw.
  - apply keeps_bind_value. intros job Hj. apply keeps_bind_value. intros state Hs.
    eapply keeps_learn with (Q := λ locked, locked = false → free job_id).
    { destruct (is_text state "active") eqn:Hact.
      - apply yields_read. intros d1 b Hd1 E ->. by eapply (g_unlocked _ _ _ _ _ _ G).
      - apply yields_ret. intros _. by eapply (g_state _ _ _ _ _ _ G). }
    intros [] Hf; [apply keeps_ret|]. keeps_all; first [by apply Hr, Hf|apply Hp; auto with leases|away].
  - assert (free job_id) by by eapply free_missing. keeps_all; first [by apply (g_lock_del _ _ _ _ _ _ G)|away].
Qed.

Lemma keeps_reference job : keeps P (reference_of job).
Proof. unfold reference_of. keeps_all. Qed.
#[local] Hint Resolve keeps_reference : leases.

(** A job admitted from the active set has no lock. *)
Lemma cleanable_free a state cutoff job i : removal_tables q a → ra_locks a = redis_key q (LockKey EmptyString) →
  yields P (cleanable_reference a state cutoff job i) (λ r, state = "active" → r ≠ None → free i).
Proof.
  intros T Hl. unfold cleanable_reference, is_current_repeat_owner. pose proof gone_owns_series as Ho.
  rewrite Hl, lock_key_is, (rt_repeat _ _ T).
  eapply yields_bind with (Q := λ locked, locked = false → state = "active" → free i).
  - destruct (String.eqb_spec state "active") as [->|]; [|by apply yields_ret].
    apply yields_read. intros d b Hd E -> _. by eapply (g_unlocked _ _ _ _ _ _ G).
  - intros [] Hf; [by apply yields_ret|].
    assert (∀ m : Script D (option Z), keeps P m → yields P m (λ r, state = "active" → r ≠ None → free i)) as Hany.
    { intros m Hm. split; [done|]. intros; by apply Hf. }
    apply Hany. keeps_all.
Qed.

Lemma removable_key a state key : removal_tables q a → state_key_of a state = Some key →
  ∀ i, (state = "active" → free i) → keeps P (call (ZREM key i)).
Proof.
  intros T. unfold state_key_of. removal_keys T. intros E i Hi. destruct (String.eqb_spec state "active") as [->|];
    [injection E as <-; assert (free i) by auto; away|]. repeat case_match; simplify_eq; harmless.
Qed.

Lemma kept_clean state cutoff limit now : keeps P (eval_call q CLEAN_JOBS_SCRIPT (clean_jobs_call state cutoff limit now)).
Proof.
  unfold eval_call, CLEAN_JOBS_SCRIPT. pose proof (clean_tables state cutoff limit now) as T. cbn zeta in T |- *.
  set (a := clean_args _ _) in *. assert (ra_locks a = redis_key q (LockKey EmptyString)) as Hl by reflexivity.
  do 2 (apply keeps_bind; [auto with leases|]; intros ?).
  destruct (state_key_of a _) as [key|] eqn:Hkey; [|apply keeps_ret]. destruct (f64_le _ _); [apply keeps_ret|].
  apply keeps_bind_read. intros ids d _ _. eapply keeps_learn.
  { apply (gone_candidates a T); [by eapply removable_key|]. intros. by apply cleanable_free. }
  intros cs Hcs. apply keeps_bind; [|intros; apply keeps_bind; [apply keeps_do, (g_apart _ _ _ _ _ _ G), (apart_key q id EventsKey); by intros []|intros; apply keeps_ret]].
  apply (gone_removed a T); [done| |auto with leases]. rewrite Forall_forall in Hcs |- *. intros c Hc. apply Hcs.
  apply (elem_of_sort_by candidate_order). by apply (subseteq_take (Z.to_nat _) _) in Hc.
Qed.

Lemma keeps_unchecked job : keeps P (scheduled_millis_unchecked job).
Proof. unfold scheduled_millis_unchecked. keeps_all. Qed.

Lemma gone_collect a state key : removal_tables q a → state ≠ "active" → (∀ i, keeps P (call (ZREM key i))) →
  yields P (collect_jobs a key state) (Forall (λ c, free (ca_id c))).
Proof.
  intros T Hs Hz. unfold collect_jobs, is_current_delayed_repeat_owner. apply yields_bind_read. intros ids d _ _.
  apply (gone_candidates a T); [done|]. intros job i. split; [|by intros]. pose proof gone_owns_series as Ho.
  rewrite (rt_repeat _ _ T). keeps_all.
Qed.

Lemma kept_drain include_delayed now : keeps P (eval_call q DRAIN_JOBS_SCRIPT (drain_jobs_call include_delayed now)).
Proof.
  unfold eval_call, DRAIN_JOBS_SCRIPT. pose proof (drain_tables include_delayed now) as T. cbn zeta in T |- *.
  set (a := drain_args _ _) in *. assert (ra_locks a = redis_key q (LockKey EmptyString)) as Hl by reflexivity.
  eapply keeps_learn; [apply (gone_collect a _ _ T); [done|]; intros i; by apply (g_takes_out _ _ _ _ _ _ G Waiting)|]. intros waiting Hw.
  eapply keeps_learn with (Q := Forall (λ c, free (ca_id c))).
  { destruct (String.eqb _ _); [apply (gone_collect a _ _ T); [done|]; intros i; by apply (g_takes_out _ _ _ _ _ _ G Delayed)|by apply yields_ret]. }
  intros delayed Hd. apply (gone_removed a T); [done|by apply Forall_app|apply keeps_unchecked].
Qed.

Lemma unprocessed_tables p now :
  let c := remove_unprocessed_children_call p now in removal_tables q (unprocessed_args (KEYS_of q c) (ARGV_of q c)).
Proof. cbn zeta. split; try reflexivity. by left. Qed.

Lemma dependency_tables child_id now :
  let c := remove_child_dependency_call child_id now in removal_tables q (dependency_args (KEYS_of q c) (ARGV_of q c)).
Proof. cbn zeta. split; try reflexivity. by left. Qed.

Lemma kept_remove_unprocessed p now : keeps P (eval_call q REMOVE_UNPROCESSED_CHILDREN_SCRIPT (remove_unprocessed_children_call p now)).
Proof.
  unfold eval_call, REMOVE_UNPROCESSED_CHILDREN_SCRIPT. pose proof (unprocessed_tables p now) as T. cbn zeta in T |- *.
  set (a := unprocessed_args _ _) in *. assert (ra_locks a = redis_key q (LockKey EmptyString)) as Hl by reflexivity.
  change (at_ (KEYS_of q _) 1) with jobs. change (at_ (KEYS_of q _) 9) with (redis_key q (DependenciesKey p)).
  change (at_ (KEYS_of q _) 10) with (redis_key q EventsKey). set (i := at_ _ 1). pose proof gone_state_name.
  apply keeps_bind; [apply keeps_read|]. intros [raw|]; [|keeps_all; away]. apply keeps_bind; [auto with leases|]. intros parent.
  apply keeps_bind; [|intros removed].
  { apply (gone_unprocessed a T); [done| |intros; away]. intros. unfold emit_removed_event. keeps_all. away. }
  apply keeps_bind_read. intros updated d Hd Hr. apply keeps_bind; [|intros; apply keeps_ret]. destruct updated as [raw'|]; [|apply keeps_ret].
  apply keeps_bind_value. intros job Hj. eapply (gone_release_ready a T); eauto with leases. away.
Qed.

Lemma kept_leave_buckets key i : keeps P (leave_buckets (redis_key q (DependenciesKey EmptyString) +:+ key) i).
Proof. unfold leave_buckets. keeps_all; away. Qed.

Lemma kept_remove_dependency child_id now : keeps P (eval_call q REMOVE_CHILD_DEPENDENCY_SCRIPT (remove_child_dependency_call child_id now)).
Proof.
  unfold eval_call, REMOVE_CHILD_DEPENDENCY_SCRIPT. pose proof (dependency_tables child_id now) as T. cbn zeta in T |- *.
  set (a := dependency_args _ _) in *. change (at_ (KEYS_of q _) 1) with jobs. set (i := at_ _ 1).
  apply keeps_bind_read. intros [raw|] d Hd Hr; [|apply keeps_ret]. apply keeps_bind_value. intros child Hj.
  apply keeps_bind; [auto with leases|]. intros [v|]; [|apply keeps_ret]. destruct (is_text v EmptyString); [apply keeps_ret|].
  apply keeps_bind; [auto with leases|]. intros p. apply keeps_bind_read. intros [praw|] d' Hd' Hr'; [|apply keeps_ret].
  apply keeps_bind_value. intros parent Hj'. unfold leave_parent. rewrite (rt_dependencies _ _ T), (rt_jobs _ _ T).
  apply keeps_bind; [away|]. intros removed. apply keeps_bind; [auto with leases|]. intros w. apply keeps_bind; [auto with leases|]. intros ids.
  apply keeps_bind; [apply kept_leave_buckets|]. intros b. destruct (negb _); [apply keeps_ret|].
  apply keeps_bind_value. intros parent' Hp. apply keeps_bind_value. intros child' Hc. apply keeps_bind_value. intros encoded He.
  apply keeps_bind; [|intros _; apply keeps_bind; [|intros; apply keeps_ret]].
  - apply keeps_do. apply (g_rewrite _ _ _ _ _ _ G d i raw child child'); try done. intros s. by rewrite (set_index_other _ _ _ _ _ Hc).
  - eapply (gone_release_ready a T); [exact Hd'|exact Hr'|exact Hj'|by rewrite (set_index_other _ _ _ _ _ Hp)| |away].
    apply keeps_bind_value. intros encoded' He'. apply keeps_do. apply (g_rewrite _ _ _ _ _ _ G d' p praw parent parent'); try done.
    intros s. by rewrite (set_index_other _ _ _ _ _ Hp).
Qed.
End kept.
