(* ===== verification/RedisKeptAdds.v ===== *)
(** * Submissions and listings keep what has guards ([src/job/redis.rs])

    The scripts that add jobs, repeat series and flows write only jobs that are
    free: the id is new, or its record says another state than active, or the
    caller holds the job.  The arguments behind the rows of several jobs are
    where the number of jobs says.  Listings take out of a set what its record
    does not confirm, the removal of orphans a record that no index has. *)
From S2P Require Import Prelude Ordering Text Float64 External Retry JobTypes JobStore JobDedup JobCore JobQueries JobAdd Backend FloatOrder LuaDates RedisKeys RedisReplies RedisCalls RedisLua RedisLeases RedisLeaseRules RedisFinish RedisReports RedisMoves RedisRecords RedisRemovals RedisQueries RedisAdds RedisFlows RedisGuards RedisKept.
Local Open Scope Z_scope.

(** The arguments of a call are keys of the queue. *)
Record add_tables (q : RedisQueueName) (a : AddArgs) : Prop := {
  at_jobs : aa_jobs a = redis_key q JobsKey;
  at_waiting : aa_waiting a = redis_key q (StateKey Waiting);
  at_delayed : aa_delayed a = redis_key q (StateKey Delayed);
  at_waiting_children : aa_waiting_children a = redis_key q (StateKey WaitingChildren);
  at_active : aa_active a = redis_key q (StateKey Active);
  at_sequence : aa_sequence a = redis_key q SequenceKey;
  at_events : aa_events a = redis_key q EventsKey;
  at_marker : aa_marker a = redis_key q MarkerKey;
  at_deduplication : aa_deduplication a = redis_key q (DeduplicationKey EmptyString);
  at_deduplication_next : aa_deduplication_next a = redis_key q (DeduplicationNextKey EmptyString);
  at_repeat : aa_repeat a = redis_key q (RepeatOwnerKey EmptyString);
}.

Ltac add_keys H := rewrite ?(at_jobs _ _ H), ?(at_waiting _ _ H), ?(at_delayed _ _ H), ?(at_waiting_children _ _ H),
  ?(at_active _ _ H), ?(at_sequence _ _ H), ?(at_events _ _ H), ?(at_marker _ _ H), ?(at_deduplication _ _ H),
  ?(at_deduplication_next _ _ H), ?(at_repeat _ _ H).

(** ** Values only *)
Section values.
Context {L : LuaLibs} {D : Type} `{!Redis D} (P : D → Prop).

Lemma keeps_deduplication_option job : keeps P (deduplication_option job).
Proof. unfold deduplication_option. keeps_all. Qed.
Lemma keeps_deduplication_flag job name : keeps P (deduplication_flag job name).
Proof. unfold deduplication_flag, deduplication_of. keeps_all. Qed.
Lemma keeps_in_state job s : keeps P (in_state job s).
Proof. unfold in_state. keeps_all. Qed.
Lemma keeps_has_field job name : keeps P (has_field job name).
Proof. unfold has_field. keeps_all. Qed.
Lemma keeps_has_items job name : keeps P (has_items job name).
Proof. unfold has_items. keeps_all; apply keeps_raise. Qed.
Lemma keeps_and_then c m : keeps P c → keeps P m → keeps P (and_then c m).
Proof. intros Hc Hm. unfold and_then. keeps_all. Qed.
Lemma keeps_unless c m : keeps P c → keeps P m → keeps P (unless c m).
Proof. intros Hc Hm. unfold unless. keeps_all. Qed.
Lemma keeps_listed_in key job : keeps P (listed_in key job).
Proof. unfold listed_in. keeps_all. Qed.
Lemma keeps_same_series c j : keeps P (same_series c j).
Proof. unfold same_series. keeps_all. Qed.
#[local] Hint Resolve keeps_deduplication_option keeps_deduplication_flag keeps_in_state keeps_has_field keeps_has_items
  keeps_and_then keeps_unless keeps_listed_in keeps_same_series : leases.
Lemma keeps_can_replace c j : keeps P (can_replace_deduplicated_owner c j).
Proof. unfold can_replace_deduplicated_owner. repeat first [apply keeps_and_then|apply keeps_unless|apply keeps_ret]; auto with leases. Qed.
Lemma keeps_can_store c j k : keeps P (can_store_deduplicated_next c j k).
Proof. unfold can_store_deduplicated_next. repeat first [apply keeps_and_then|apply keeps_unless|apply keeps_ret]; auto with leases. Qed.
Lemma keeps_continues key job : keeps P (continues_series key job).
Proof. unfold continues_series. keeps_all. Qed.
Lemma keeps_in_flow job : keeps P (in_flow job).
Proof. unfold in_flow. keeps_all. Qed.
Lemma keeps_requires_next c j : keeps P (flow_child_deduplication_requires_next c j).
Proof. unfold flow_child_deduplication_requires_next. auto with leases. Qed.
Lemma keeps_count_of s : keeps P (count_of s).
Proof. unfold count_of. keeps_all. Qed.
End values.
#[export] Hint Resolve keeps_deduplication_option keeps_deduplication_flag keeps_in_state keeps_has_field keeps_has_items
  keeps_and_then keeps_unless keeps_listed_in keeps_same_series keeps_can_replace keeps_can_store keeps_continues keeps_in_flow
  keeps_requires_next keeps_count_of : leases.

(** ** Under keys without a guard *)
Section elsewhere.
Context {L : LuaLibs} {D : Type} `{!Redis D, !RedisLaws D}.
Variables (q : RedisQueueName) (P : D → Prop).
Hypothesis Hu : unaffected q P.
Abbreviation jobs := (redis_key q JobsKey).

Ltac away := solve [apply Hu; cbn [command_key]; auto with apart].

(** *** Owners *)
Lemma kept_finished_owner i existing raw : keeps P (finished_owner (redis_key q (DeduplicationKey EmptyString) +:+ i) existing raw).
Proof. unfold finished_owner. keeps_all; away. Qed.

Lemma kept_active_deduplication i ignored :
  keeps P (active_deduplication jobs (redis_key q (DeduplicationKey EmptyString)) i ignored).
Proof. unfold active_deduplication. pose proof kept_finished_owner. keeps_all; away. Qed.

Lemma kept_set_new_deduplication job i keep : keeps P (set_new_deduplication_key job i (redis_key q (DeduplicationKey EmptyString)) keep).
Proof. unfold set_new_deduplication_key. keeps_all; away. Qed.

Lemma kept_drop_scheduler key : keeps P (drop_scheduler (redis_key q (RepeatOwnerKey EmptyString)) key).
Proof. unfold drop_scheduler. keeps_all; away. Qed.
#[local] Hint Resolve kept_active_deduplication kept_set_new_deduplication kept_drop_scheduler : leases.

Lemma kept_active_repeat key : keeps P (active_repeat jobs (redis_key q (RepeatOwnerKey EmptyString)) key).
Proof. unfold active_repeat, scheduler_owner, stored_owner. keeps_all; away. Qed.
#[local] Hint Resolve kept_active_repeat : leases.

(** *** One row *)
Section tables.
Variable a : AddArgs.
Hypothesis T : add_tables q a.

Lemma kept_emit_added fields : keeps P (emit_added a fields).
Proof. unfold emit_added. add_keys T. keeps_all. away. Qed.
#[local] Hint Resolve kept_emit_added : leases.

Lemma kept_store_next raw job : keeps P (store_deduplicated_next a raw job).
Proof. unfold store_deduplicated_next. add_keys T. keeps_all; away. Qed.

Lemma kept_extend replace candidate existing : keeps P (extend_deduplicated_owner a replace candidate existing).
Proof. unfold extend_deduplicated_owner, deduplication_of. add_keys T. keeps_all; away. Qed.

Lemma kept_emit_deduplication x i y : keeps P (emit_deduplication_events a x i y).
Proof. unfold emit_deduplication_events. keeps_all. Qed.
#[local] Hint Resolve kept_emit_deduplication : leases.

Lemma kept_emit_deduplicated owner candidate : keeps P (emit_deduplicated_events a owner candidate).
Proof. unfold emit_deduplicated_events. keeps_all. Qed.

Lemma kept_emit_replaced candidate existing : keeps P (emit_replaced_deduplicated_owner_events a candidate existing).
Proof. unfold emit_replaced_deduplicated_owner_events. keeps_all. Qed.
#[local] Hint Resolve kept_store_next kept_extend kept_emit_deduplicated kept_emit_replaced : leases.

Lemma kept_announce row raw : keeps P (announce_added a row raw).
Proof. unfold announce_added. keeps_all. Qed.

Lemma kept_own_deduplication row keep : keeps P (own_deduplication a row keep).
Proof. unfold own_deduplication. add_keys T. keeps_all. Qed.

Lemma kept_own_series row raw : keeps P (own_series a row raw).
Proof. unfold own_series. add_keys T. keeps_all; away. Qed.
End tables.
End elsewhere.
#[export] Hint Resolve kept_finished_owner kept_active_deduplication kept_set_new_deduplication kept_drop_scheduler kept_active_repeat : leases.

(** The queue is that of the arguments. *)
#[export] Hint Extern 2 (keeps _ (emit_added ?a _)) => match goal with T : add_tables ?q a |- _ => apply (kept_emit_added q) end : leases.
#[export] Hint Extern 2 (keeps _ (store_deduplicated_next ?a _ _)) => match goal with T : add_tables ?q a |- _ => apply (kept_store_next q) end : leases.
#[export] Hint Extern 2 (keeps _ (extend_deduplicated_owner ?a _ _ _)) => match goal with T : add_tables ?q a |- _ => apply (kept_extend q) end : leases.
#[export] Hint Extern 2 (keeps _ (emit_deduplicated_events ?a _ _)) => match goal with T : add_tables ?q a |- _ => apply (kept_emit_deduplicated q) end : leases.
#[export] Hint Extern 2 (keeps _ (emit_replaced_deduplicated_owner_events ?a _ _)) => match goal with T : add_tables ?q a |- _ => apply (kept_emit_replaced q) end : leases.
#[export] Hint Extern 2 (keeps _ (announce_added ?a _ _)) => match goal with T : add_tables ?q a |- _ => apply (kept_announce q) end : leases.
#[export] Hint Extern 2 (keeps _ (own_deduplication ?a _ _)) => match goal with T : add_tables ?q a |- _ => apply (kept_own_deduplication q) end : leases.
#[export] Hint Extern 2 (keeps _ (own_series ?a _ _)) => match goal with T : add_tables ?q a |- _ => apply (kept_own_series q) end : leases.

Section kept.
Context {X : Ext} {R : RedisExt} {L : LuaLibs} {D : Type} `{!Redis D, !RedisLaws D}.
Variables (q : RedisQueueName) (id : string) (P : D → Prop) (free drawn : string → Prop) (ours : string → string → Prop).
Hypothesis G : Guards q id P free drawn ours.
Abbreviation jobs := (redis_key q JobsKey).

Ltac away := solve [apply (g_apart _ _ _ _ _ _ G); cbn [command_key]; auto with apart
  |apply (g_active _ _ _ _ _ _ G)|by apply (g_inactive _ _ _ _ _ _ G)
  |apply (g_zadd _ _ _ _ _ _ G); [exact I|assumption]
  |eapply (g_takes_out _ _ _ _ _ _ G); [|reflexivity|exact I]; exact I].
Ltac record := solve [first [by apply (g_hset _ _ _ _ _ _ G)|by apply (g_hdel _ _ _ _ _ _ G)]].
Ltac harmless := first [away|record].

Lemma apart_kept : unaffected q P.
Proof. apply (guards_unaffected q id P free drawn ours G). Qed.
#[local] Hint Resolve apart_kept : leases.

(** ** One row *)
Section tables.
Variable a : AddArgs.
Hypothesis T : add_tables q a.

Lemma kept_place row : free (row_id row) → keeps P (place_new_job a row).
Proof.
  intros Hf. unfold place_new_job. pose proof (kept_waiting q id P free drawn ours G).
  pose proof (kept_refresh q id P free drawn ours G). add_keys T. keeps_all; away.
Qed.

#[local] Hint Resolve kept_place : leases.

Lemma kept_insert_row row replaced : free (row_id row) → keeps P (insert_row a row replaced).
Proof. intros Hf. unfold insert_row. keeps_all. Qed.

(** A reply that is not zero. *)
Lemma not_number_zero (r : Lua) : positive_number (number_of r) = true ∨ SFeqb (number_of r) f64_zero = false → r ≠ number 0.
Proof. intros [H|H] ->; by vm_compute in H. Qed.

Lemma kept_replace candidate existing raw : aa_logs a = redis_key q (LogsKey EmptyString) →
  keeps P (replace_owner a candidate existing raw).
Proof.
  intros Hl. unfold replace_owner. rewrite Hl. add_keys T. apply keeps_bind; [auto with leases|]. intros v.
  apply keeps_bind; [auto with leases|]. intros x. eapply keeps_learn; [by apply (g_zrem _ _ _ _ _ _ G Delayed)|].
  intros r Hr. destruct (positive_number _) eqn:Hp; [|apply keeps_ret].
  assert (free x) by (apply Hr, not_number_zero; by left). keeps_all; harmless.
Qed.

Lemma kept_resolve row : aa_logs a = redis_key q (LogsKey EmptyString) → keeps P (resolve_deduplication a row).
Proof.
  intros Hl. unfold resolve_deduplication, active_deduplicated_raw, deduplication_replace.
  pose proof (λ c j r, kept_replace c j r Hl). add_keys T. keeps_all.
Qed.

Lemma kept_add_row row : aa_logs a = redis_key q (LogsKey EmptyString) → keeps P (add_row a row).
Proof.
  intros Hl. unfold add_row, active_repeat_raw. pose proof (kept_resolve row Hl). add_keys T.
  apply keeps_bind; [apply keeps_read|]. intros [raw|]; [apply keeps_ret|].
  assert (∀ replaced, keeps P (bind (call (HSETNX jobs (row_id row) (row_raw row))) (λ inserted,
    if SFeqb (number_of inserted) f64_zero then
      let* current := read (hget jobs (row_id row)) in
      ret (match current with Some raw => AddedExisting raw | None => AddedMissing end)
    else let* raw := insert_row a row replaced in ret (AddedInserted raw)))) as Hi.
  { intros replaced. eapply keeps_learn; [apply (g_hsetnx _ _ _ _ _ _ G)|]. intros r Hr.
    destruct (SFeqb _ _) eqn:Hz; [keeps_all|]. assert (free (row_id row)) by (apply Hr, not_number_zero; by right).
    apply keeps_bind; [by apply kept_insert_row|]. intros. apply keeps_ret. }
  apply keeps_bind; [done|]. intros []; try apply keeps_ret.
  all: apply keeps_bind; [keeps_all|]; intros [owner|]; [apply keeps_ret|apply Hi].
Qed.

Lemma kept_add_rows rows : aa_logs a = redis_key q (LogsKey EmptyString) → keeps P (add_rows a rows).
Proof. intros Hl. induction rows as [|row rows IH]; simpl; pose proof (λ r, kept_add_row r Hl); keeps_all. Qed.
End tables.

(** ** Rows of several jobs *)
Lemma floor_of_Z n : 0 ≤ n < 2 ^ 53 → floor_Z (f64_of_Z n) = n.
Proof.
  intros Hn. destruct n as [|p|p]; [done| |lia].
  destruct (f64_of_Z_exact p) as (m & e & -> & _ & He & Hm); [lia|]. unfold floor_Z. destruct (Z.leb_spec 0 e).
  - assert (e = 0) as -> by lia. simpl in Hm. lia.
  - rewrite Hm. apply Z.div_mul. assert (0 < 2 ^ (- e)) by (apply Z.pow_pos_nonneg; lia). lia.
Qed.

(** A number of jobs that a double can hold is read back. *)
Definition counted (n : nat) : Prop := Z.of_nat n < 2 ^ 53.

Lemma strtod_count `{!LuaLaws L} n : counted n → lua_strtod (show_int (Z.of_nat n)) = Some (f64_of_Z (Z.of_nat n)).
Proof. intros Hn. unfold show_int. destruct (Z.ltb_spec (Z.of_nat n) 0); [lia|]. apply strtod_digits. unfold counted in Hn. lia. Qed.

Lemma keeps_counted `{!LuaLaws L} {A} n (k : nat → Script D A) : counted n → keeps P (k n) →
  keeps P (bind (count_of (show_int (Z.of_nat n))) k).
Proof.
  intros Hn Hk d Hd. unfold count_of. rewrite strtod_count by done. cbn -[f64_of_Z].
  unfold bind, arith, ret. rewrite floor_of_Z, Nat2Z.id by (unfold counted in Hn; lia). by apply Hk.
Qed.

Lemma behind_rows (head rows tail : list string) n i : length rows = (n * per_job_args)%nat → (length head < i)%nat →
  at_ (head ++ rows ++ tail) (i + n * per_job_args) = at_ tail (i - length head).
Proof.
  intros Hr Hi. unfold at_. rewrite app_nth2 by lia. rewrite app_nth2 by lia. f_equal. lia.
Qed.

Lemma rows_length created rows : try_map job_row created = Ok rows →
  length (arg_text q <$> concat rows) = (length created * per_job_args)%nat.
Proof.
  rewrite length_fmap. revert rows. induction created as [|j created IH]; intros rows; simpl; [by intros [= <-]|].
  unfold job_row at 1. destruct (encode_job j) as [e|]; [|done]. simpl. destruct (try_map job_row created) as [rows'|]; [|done].
  intros [= <-]. simpl. by rewrite (IH rows').
Qed.

(** ** The calls *)
Lemma add_job_tables job encoded :
  let c := add_new_job_call job encoded in add_tables q (add_job_args (KEYS_of q c) (ARGV_of q c)).
Proof. cbn zeta. by split. Qed.

Lemma kept_add_job job encoded : keeps P (eval_call q ADD_JOB_SCRIPT (add_new_job_call job encoded)).
Proof.
  unfold eval_call, ADD_JOB_SCRIPT. apply keeps_bind; [|intros; apply keeps_ret]. by apply kept_add_row; [apply add_job_tables|].
Qed.

(** The arguments of a call with rows. *)
Ltac call_rows := unfold eval_call, KEYS_of, ARGV_of, keys_of, argv_of; cbn [numkeys arguments app take drop];
  rewrite ?fmap_cons, ?fmap_app; cbn [fmap list_fmap arg_text app].

Lemma kept_add_jobs `{!LuaLaws L} created c : add_many_at_call created = Ok c → counted (length created) →
  keeps P (eval_call q ADD_JOBS_SCRIPT c).
Proof.
  unfold add_many_at_call. destruct (try_map job_row created) as [rows|] eqn:Hrows; [|done]. intros [= <-] Hn.
  pose proof (rows_length created rows Hrows) as Hlen. call_rows. unfold ADD_JOBS_SCRIPT. apply keeps_counted; [done|].
  apply keeps_bind; [|intros; apply keeps_ret].
  apply kept_add_rows; [split; try reflexivity|]; cbn [add_jobs_args aa_deduplication aa_deduplication_next aa_repeat aa_logs];
    (etransitivity; [eapply (behind_rows [_]); [exact Hlen|cbn; lia]|reflexivity]).
Qed.

(** ** Replacing a series *)
Lemma upsert_tables job encoded key :
  let c := upsert_repeat_call job encoded key in add_tables q (upsert_args (KEYS_of q c) (ARGV_of q c)).
Proof. cbn zeta. by split. Qed.

Lemma upsert_removal_tables job encoded key :
  let c := upsert_repeat_call job encoded key in removal_tables q (upsert_removal_args (KEYS_of q c) (ARGV_of q c)).
Proof. cbn zeta. split; try reflexivity. by left. Qed.

(** An owner that may be replaced is not active. *)
Definition replaceable (r : option (string * Lua) + list string) : Prop :=
  match r with inl (Some (i, _)) => free i | _ => True end.

Lemma refused_or_free i raw job d : P d → hget jobs i d = Ok (Some raw) → cjson_decode raw = Ok job →
  yields P (refuse_owner i job) (λ r, r = None → free i).
Proof.
  intros Hd Hr Hj. unfold refuse_owner, in_state. eapply yields_bind with (Q := λ b, b = false → free i).
  - eapply yields_bind; [apply yields_value|]. intros v Hv. apply yields_ret. intros Ha. by eapply (g_state _ _ _ _ _ _ G d i raw job v).
  - intros [] Hf; [by apply yields_ret|]. split; [keeps_all|]. intros d1 d2 r _ _ _. by apply Hf.
Qed.

Lemma kept_refusal i job : keeps P (refuse_owner i job).
Proof. unfold refuse_owner. keeps_all. Qed.

Lemma current_owner_yields key :
  yields P (current_owner jobs (redis_key q (RepeatOwnerKey EmptyString) +:+ key)) replaceable.
Proof.
  unfold current_owner. apply yields_bind_read. intros [i|] d Hd _; [|by apply yields_ret].
  assert (∀ r, replaceable r → yields P (do_ (DEL (redis_key q (RepeatOwnerKey EmptyString) +:+ key)) ;;; ret r) replaceable) as Hdrop.
  { intros r Hr. eapply yields_bind; [apply yields_any, keeps_do; away|]. intros _ _. by apply yields_ret. }
  apply yields_bind_read. intros [raw|] d1 Hd1 Hr; [|by apply Hdrop].
  apply yields_bind_value. intros job Hj. apply yields_bind_value. intros state _. destruct (is_finished state); [by apply Hdrop|].
  eapply yields_bind; [by eapply refused_or_free|]. intros [reply|] Hf; apply yields_ret; [done|by apply Hf].
Qed.

Lemma scheduled_owner_yields key : yields P (scheduled_owner jobs (redis_key q (RepeatOwnerKey EmptyString)) key) replaceable.
Proof.
  unfold scheduled_owner. apply yields_bind_read. intros [i|] d Hd _; [|by apply yields_ret].
  assert (yields P (drop_scheduler (redis_key q (RepeatOwnerKey EmptyString)) key ;;; ret (inl None)) replaceable) as Hdrop.
  { eapply yields_bind; [apply yields_any; auto with leases|]. intros _ _. by apply yields_ret. }
  apply yields_bind_read. intros [raw|] d1 Hd1 Hr; [|by apply Hdrop].
  apply yields_bind_value. intros job Hj. eapply yields_bind; [apply yields_any; auto with leases|]. intros [] _; [|by apply Hdrop].
  eapply yields_bind; [by eapply refused_or_free|]. intros reply Hf.
  eapply yields_bind; [apply yields_any, keeps_do; away|]. intros _ _. apply yields_ret. destruct reply; [done|by apply Hf].
Qed.

Lemma find_owner_yields key : yields P (find_owner jobs (redis_key q (RepeatOwnerKey EmptyString)) key) replaceable.
Proof.
  unfold find_owner. eapply yields_bind; [apply current_owner_yields|]. intros [[o|]|reply] Ho; [by apply yields_ret| |by apply yields_ret].
  apply scheduled_owner_yields.
Qed.

Lemma kept_remove_idle a job i : removal_tables q a → ra_locks a = redis_key q (LockKey EmptyString) → free i →
  keeps P (remove_non_active_job a job i).
Proof.
  intros T Hl Hf. unfold remove_non_active_job. rewrite Hl, lock_key_is. pose proof (gone_owned q id P free drawn ours G a T job i).
  rewrite (rt_dependencies _ _ T), (rt_logs _ _ T), (rt_jobs _ _ T), (rt_waiting _ _ T), (rt_delayed _ _ T), (rt_active _ _ T),
    (rt_waiting_children _ _ T), (rt_completed _ _ T), (rt_failed _ _ T).
  apply keeps_bind; [done|]. intros _.
  apply keeps_bind; [apply keeps_for_each_in; intros key Hk; apply keeps_do|].
  - rewrite !elem_of_cons in Hk. destruct_or?; subst; try away. by apply not_elem_of_nil in Hk.
  - intros _. keeps_all; first [by apply (g_lock_del _ _ _ _ _ _ G)|harmless].
Qed.

Lemma kept_upsert_row a row : add_tables q a → keeps P (upsert_row a row).
Proof.
  intros T. unfold upsert_row. rewrite (at_jobs _ _ T). eapply keeps_learn; [apply (g_hsetnx _ _ _ _ _ _ G)|]. intros r Hr.
  destruct (SFeqb _ _) eqn:Hz; [keeps_all|]. assert (free (row_id row)) by (apply Hr, not_number_zero; by right).
  pose proof (kept_place a T row). keeps_all.
Qed.

Lemma kept_upsert job encoded key : keeps P (eval_call q UPSERT_REPEAT_SCRIPT (upsert_repeat_call job encoded key)).
Proof.
  unfold eval_call, UPSERT_REPEAT_SCRIPT. pose proof (upsert_tables job encoded key) as T. pose proof (upsert_removal_tables job encoded key) as TR.
  cbn zeta in T, TR |- *. set (a := upsert_args _ _) in *. set (r := upsert_removal_args _ _) in *. set (row := add_job_row _).
  assert (ra_locks r = redis_key q (LockKey EmptyString)) as Hl by reflexivity.
  destruct (String.eqb _ _); [apply keeps_ret|]. rewrite (at_jobs _ _ T), (at_repeat _ _ T), (at_deduplication _ _ T).
  eapply keeps_learn; [apply find_owner_yields|]. intros [owner|reply] Ho; [|apply keeps_ret].
  apply keeps_bind; [apply keeps_read|]. intros existing. destruct (opt_filter _ _); [apply keeps_ret|].
  apply keeps_bind; [unfold active_deduplicated_owner_id; keeps_all|]. intros [deduplicated|]; [apply keeps_ret|].
  apply keeps_bind; [|intros _; by apply kept_upsert_row].
  destruct owner as [[i job']|]; [|apply keeps_ret]. by apply kept_remove_idle.
Qed.

(** ** The first pass of a flow *)
Section staging.
Variable a : AddArgs.
Hypothesis T : add_tables q a.

(** A row is a job that is stored already, or it is free. *)
Definition staged_row (s : Staged) (row : NewRow) : Prop := row_id row ∈ st_duplicated s ∨ free (row_id row).

(** A step goes on with what it was given, and more. *)
Definition extends (s : Staged) (r : Outcome) : Prop :=
  match r with inl s' => st_duplicated s ⊆ st_duplicated s' | inr _ => True end.

Lemma yields_outcome {A} (m : Script D A) (Q : A → Prop) : keeps P m → (∀ d d' r, m d = (d', Ok r) → Q r) → yields P m Q.
Proof. intros Hm H. split; [done|]. intros d d' r _. apply H. Qed.

Lemma and_stage_extends m k s : yields P m (extends s) → (∀ s', yields P (k s') (extends s')) → yields P (and_stage m k) (extends s).
Proof.
  intros Hm Hk. unfold and_stage. eapply yields_bind; [exact Hm|]. intros [s'|reply] H; [|by apply yields_ret].
  eapply yields_weaken; [apply Hk|]. intros [s2|] H2; [|done]. cbn in *. set_solver.
Qed.

Lemma stage_new_extends row s : yields P (stage_new a row s) (extends s).
Proof.
  unfold stage_new, active_repeat_id. add_keys T. destruct (if String.eqb _ _ then None else _); [by apply yields_ret|].
  eapply yields_bind; [apply yields_any; keeps_all|]. intros [owner|] _; [by apply yields_ret|].
  repeat case_match; apply yields_ret; cbn; set_solver.
Qed.

Ltac extended := solve [apply yields_ret; cbn; set_solver].

Lemma stage_duplicate_extends row owner s : yields P (stage_duplicate a row owner s) (extends s).
Proof.
  unfold stage_duplicate, park_child. pose proof (kept_extend q P apart_kept a T) as Hx. revert Hx. add_keys T. intros Hx.
  eapply yields_bind; [apply yields_any, keeps_read|]. intros [raw|] _; [|extended].
  do 3 (eapply yields_bind; [apply yields_any; auto with leases|]; intros ? _). case_match.
  - eapply yields_bind with (Q := λ s', st_duplicated s' = st_duplicated s); [|intros s' Hs; apply yields_ret; cbn; by rewrite Hs].
    do 2 (eapply yields_bind; [apply yields_any, keeps_do; away|]; intros ? _). extended.
  - eapply yields_bind; [apply yields_any, Hx|]. intros _ _. extended.
Qed.

Lemma stage_child_extends row s : yields P (stage_child a row s) (extends s).
Proof.
  unfold stage_child, active_deduplication_id. case_bool_decide; [extended|].
  eapply yields_bind; [apply yields_any; add_keys T; keeps_all|]. intros owner _.
  eapply yields_bind with (Q := extends s).
  { destruct owner; [apply stage_duplicate_extends|extended]. }
  intros [s'|reply] Hs; [|extended]. case_bool_decide; [extended|].
  eapply yields_weaken; [apply stage_new_extends|]. intros [s2|] H2; [|done]. cbn in *. set_solver.
Qed.

Lemma stage_existing_adds p row raw s : yields P (stage_existing a p row raw s)
  (λ r, match r with inl s' => st_duplicated s ⊆ st_duplicated s' ∧ row_id row ∈ st_duplicated s' | inr _ => True end).
Proof.
  unfold stage_existing, other_parent. eapply yields_bind; [apply yields_any; keeps_all|]. intros child _.
  eapply yields_bind; [apply yields_any; keeps_all|]. intros [other|] _; apply yields_ret; [done|]. cbn. set_solver.
Qed.

(** What a stage finds out about its row. *)
Definition stages (row : NewRow) (s : Staged) (r : Outcome) : Prop :=
  match r with inl s' => st_duplicated s ⊆ st_duplicated s' ∧ staged_row s' row | inr _ => True end.

Lemma stages_then row s m k : yields P m (stages row s) → (∀ s', yields P (k s') (extends s')) →
  yields P (and_stage m k) (stages row s).
Proof.
  intros Hm Hk. unfold and_stage. eapply yields_bind; [exact Hm|]. intros [s'|reply] H; [|by apply yields_ret].
  eapply yields_weaken; [apply Hk|]. intros [s2|] H2; [|done]. destruct H as [H1 H]. cbn in H2. split; [set_solver|].
  destruct H as [H|H]; [left; set_solver|by right].
Qed.

(** Where the record of the row is read first. *)
Lemma stage_row p row s (absent : Outcome) : match absent with inl s' => s' = s | inr _ => True end →
  ∀ d existing, P d → hget jobs (row_id row) d = Ok existing →
  yields P (match existing with Some raw => stage_existing a p row raw s | None => ret absent end) (stages row s).
Proof.
  intros Ha d [raw|] Hd Hr.
  - eapply yields_weaken; [apply stage_existing_adds|]. intros [s'|] H; [|done]. destruct H. split; [done|by left].
  - apply yields_ret. destruct absent as [s'|]; [|done]. subst s'. split; [done|]. right. by eapply (g_missing _ _ _ _ _ _ G).
Qed.

Lemma flow_child_stages p row s : yields P (stage_flow_child a p row s) (stages row s).
Proof.
  unfold stage_flow_child. rewrite (at_jobs _ _ T). apply yields_bind_read. intros existing d Hd Hr.
  apply stages_then; [by eapply (stage_row p row s (inl s))|intros; apply stage_child_extends].
Qed.

Lemma added_child_stages p ids row s : yields P (stage_added_child a p ids row s) (stages row s).
Proof.
  unfold stage_added_child. rewrite (at_jobs _ _ T). apply yields_bind_read. intros existing d Hd Hr.
  destruct (_ || _); [by apply yields_ret|]. apply stages_then.
  - eapply (stage_row p row s (if existsb _ ids then inr _ else inl s)); [by destruct (existsb _ _)|done..].
  - intros s'. eapply yields_weaken; [apply stage_child_extends|]. by intros [].
Qed.

Lemma stage_all_stages stage rows s : (∀ row s, yields P (stage row s) (stages row s)) →
  yields P (stage_all stage rows s)
    (λ r, match r with inl s' => st_duplicated s ⊆ st_duplicated s' ∧ Forall (staged_row s') rows | inr _ => True end).
Proof.
  intros Hs. revert s. induction rows as [|row rows IH]; intros s; simpl; [by apply yields_ret|].
  unfold and_stage. eapply yields_bind; [apply Hs|]. intros [s'|reply] H; [|by apply yields_ret].
  eapply yields_weaken; [apply IH|]. intros [s2|] H2; [|done]. destruct H as [H1 H], H2 as [H2 H3].
  split; [set_solver|]. constructor; [|done]. destruct H as [H|H]; [left; set_solver|by right].
Qed.

(** ** Storing the rows *)
Lemma kept_store_row row m : free (row_id row) → keeps P m → keeps P (store_row a row m).
Proof.
  intros Hf Hm. unfold store_row. pose proof (kept_place a T row Hf). rewrite (at_jobs _ _ T). keeps_all. harmless.
Qed.

Lemma kept_adopt p row m : (∀ child, keeps P (m child)) → keeps P (adopt_child a p row m).
Proof.
  intros Hm. unfold adopt_child. rewrite (at_jobs _ _ T). apply keeps_bind_read. intros [raw|] d Hd Hr; [|apply keeps_ret].
  apply keeps_bind_value. intros child Hc. apply keeps_bind_value. intros child' Hs. apply keeps_bind_value. intros s He.
  apply keeps_bind; [|intros _; apply keeps_bind; [done|]; intros _; auto with leases].
  apply keeps_do, (keeps_rewrite q id P free drawn ours G d (row_id row) raw child child' s); [done..| |done].
  by apply (set_index_other _ _ _ _ _ Hs).
Qed.

Lemma kept_announce_skipped s row m : keeps P m → keeps P (announce_skipped a s row m).
Proof. intros Hm. unfold announce_skipped. keeps_all. Qed.

Lemma retain_same_id s row : yields P (retain_children s row) (λ r, row_id r = row_id row).
Proof.
  unfold retain_children. do 2 (eapply yields_bind; [apply yields_any; auto with leases|]; intros ? _). case_match; [|by apply yields_ret].
  do 3 (eapply yields_bind; [apply yields_any; auto with leases|]; intros ? _). by apply yields_ret.
Qed.

Lemma kept_store_flow_row p s is_parent row : staged_row s row → keeps P (store_flow_row a p s is_parent row).
Proof.
  intros Hs. unfold store_flow_row. case_bool_decide; [apply kept_announce_skipped; auto with leases|].
  case_bool_decide; [apply kept_adopt; intros; apply keeps_ret|]. destruct Hs as [Hs|Hf]; [done|].
  eapply keeps_learn with (Q := λ r, row_id r = row_id row).
  { destruct is_parent; [apply retain_same_id|by apply yields_ret]. }
  intros row' Hrow. apply kept_store_row; [by rewrite Hrow|apply keeps_ret].
Qed.

Lemma kept_store_parent duplicated s parent : (duplicated = false → free (row_id parent)) → keeps P (store_parent a duplicated s parent).
Proof.
  intros Hf. unfold store_parent.  destruct duplicated; [keeps_all|].
  apply kept_store_flow_row. right. by apply Hf.
Qed.

(** ** Children and their parent *)
Lemma kept_extend_parent s p children : keeps P (extend_parent a s p children).
Proof.
  unfold extend_parent. rewrite (at_jobs _ _ T). apply keeps_bind_read. intros [raw|] d Hd Hr; [|apply keeps_ret].
  apply keeps_bind_value. intros parent Hp. do 2 (apply keeps_bind; [auto with leases|]; intros ?).
  apply keeps_bind_value. intros parent' Hs. apply keeps_bind_value. intros s' He.
  apply keeps_do, (keeps_rewrite q id P free drawn ours G d p raw parent parent' s'); [done..| |done].
  by apply (set_index_other _ _ _ _ _ Hs).
Qed.

Lemma kept_await p i child : keeps P (await_child (redis_key q (DependenciesKey EmptyString) +:+ p) i child).
Proof. unfold await_child, record_processed_child_dependency. keeps_all; away. Qed.

Lemma kept_depend_on s p row : keeps P (depend_on a s (redis_key q (DependenciesKey EmptyString) +:+ p) row).
Proof. unfold depend_on. pose proof (kept_await p). keeps_all; away. Qed.

Lemma kept_without_dependencies p go_on : (∀ job, free p → keeps P (go_on job)) →
  keeps P (without_dependencies a p (redis_key q (DependenciesKey EmptyString) +:+ p) go_on).
Proof.
  intros Hg. unfold without_dependencies. apply keeps_bind; [apply keeps_read|]. intros pending. destruct (negb _); [apply keeps_ret|].
  rewrite (at_jobs _ _ T). apply keeps_bind_read. intros [raw|] d Hd Hr; [|apply keeps_ret].
  apply keeps_bind_value. intros parent Hp. unfold in_state.
  eapply keeps_learn with (Q := λ b, b = true → free p).
  { eapply yields_bind; [apply yields_value|]. intros v Hv. apply yields_ret. intros Hw. by apply (free_in_state q id P free drawn ours G d p raw parent v "waiting_children"). }
  intros waits Hf. apply keeps_when. intros ->. assert (free p) by by apply Hf. add_keys T. keeps_all; away.
Qed.

Lemma kept_release_flow_parent parent now :
  keeps P (release_parent_if_no_pending_dependencies a parent (redis_key q (DependenciesKey EmptyString) +:+ row_id parent) now).
Proof.
  apply kept_without_dependencies. intros job Hf. pose proof (kept_waiting q id P free drawn ours G) as Hw.
  pose proof (kept_refresh q id P free drawn ours G).  add_keys T. keeps_all; harmless.
Qed.

Lemma kept_settle_flow now duplicated s parent children :
  keeps P (settle_flow a (redis_key q (DependenciesKey EmptyString)) now duplicated s parent children).
Proof.
  unfold settle_flow. pose proof (kept_release_flow_parent parent now). pose proof (λ s, kept_depend_on s (row_id parent)).
  keeps_all. away.
Qed.

(** ** A flow *)
Lemma kept_store_next_flow raw raws : keeps P (store_deduplicated_next_flow a raw raws).
Proof. unfold store_deduplicated_next_flow. add_keys T. keeps_all; try away. apply keeps_collect. auto with leases. Qed.

Lemma kept_can_store_flow parent children existing : keeps P (can_store_deduplicated_next_flow a parent children existing).
Proof.
  unfold can_store_deduplicated_next_flow. repeat first [apply keeps_and_then|apply keeps_unless]; auto with leases. keeps_all.
Qed.

Lemma kept_duplicate_flow parent children jobs' owner raw : keeps P (duplicate_flow a parent children jobs' owner raw).
Proof.
  unfold duplicate_flow. pose proof kept_store_next_flow. pose proof kept_can_store_flow.
  keeps_all.
Qed.

Lemma stage_parent_extends parent children child_jobs s : yields P (stage_parent a parent children child_jobs s) (extends s).
Proof.
  unfold stage_parent, active_deduplication_id. pose proof (stage_new_extends parent s) as Hn. pose proof kept_duplicate_flow as Hd.
  eapply yields_bind; [apply yields_any; add_keys T; keeps_all|]. intros owner _.
  eapply yields_bind; [apply yields_any; destruct owner; [apply keeps_read|apply keeps_ret]|]. intros existing _.
  destruct owner as [owner|]; [|done]. destruct existing as [raw|]; [|done].
  eapply yields_bind; [apply yields_any, Hd|]. intros reply _. by apply yields_ret.
Qed.

Lemma stage_flow_stages parent children child_jobs : yields P (stage_flow a parent children child_jobs)
  (λ r, match r.2 with inl s => (r.1 = false → free (row_id parent)) ∧ Forall (staged_row s) children | inr _ => True end).
Proof.
  unfold stage_flow. rewrite (at_jobs _ _ T). apply yields_bind_read. intros existing d Hd Hr. cbn zeta.
  assert (is_some existing = false → free (row_id parent)) as Hf.
  { destruct existing; [done|]. intros _. by eapply (g_missing _ _ _ _ _ _ G). }
  eapply yields_bind with (Q := λ r, match r with inl s => Forall (staged_row s) children | inr _ => True end).
  - unfold and_stage. eapply yields_bind with (Q := λ _, True).
    { apply yields_any. destruct (is_some existing); [apply keeps_ret|]. eapply yields_keeps, stage_parent_extends. }
    intros [s|reply] _; [|by apply yields_ret]. eapply yields_weaken; [apply stage_all_stages; intros; apply flow_child_stages|].
    intros [s'|]; [|done]. by intros [_ H].
  - intros [s|reply] H; by apply yields_ret.
Qed.
End staging.

Lemma kept_add_flow `{!LuaLaws L} parent children c : add_flow_jobs_call parent children = Ok c → counted (S (length children)) →
  keeps P (eval_call q ADD_FLOW_SCRIPT c).
Proof.
  unfold add_flow_jobs_call. destruct (try_map job_row (parent :: children)) as [rows|] eqn:Hrows; [|done]. intros [= <-] Hn.
  pose proof (rows_length _ _ Hrows) as Hlen. change (length (parent :: children)) with (S (length children)) in Hlen.
  call_rows. unfold ADD_FLOW_SCRIPT. apply keeps_counted; [done|].
  set (ARGV := _ :: _ ++ _). set (KEYS := _ :: _). set (n := S (length children)) in *.
  assert (add_tables q (flow_args KEYS ARGV n)) as T.
  { split; try reflexivity; cbn [flow_args aa_deduplication aa_deduplication_next aa_repeat];
      (etransitivity; [eapply (behind_rows [_]); [exact Hlen|cbn; lia]|reflexivity]). }
  assert (at_ ARGV (3 + n * per_job_args) = redis_key q (DependenciesKey EmptyString)) as Hdep
    by (etransitivity; [eapply (behind_rows [_]); [exact Hlen|cbn; lia]|reflexivity]).
  apply keeps_bind; [apply keeps_collect; auto with leases|]. intros child_jobs.
  eapply keeps_learn; [by apply stage_flow_stages|]. intros [duplicated [s|reply]] H; [|apply keeps_ret]. destruct H as [Hp Hc].
  rewrite Hdep. apply keeps_bind; [by apply kept_store_parent|]. intros _.
  rewrite Forall_forall in Hc.
  apply keeps_bind; [apply keeps_for_each_in; intros row Hrow; apply kept_store_flow_row; auto|]. intros _.
  apply keeps_bind; [apply keeps_when; intros _; by apply kept_extend_parent|]. intros _.
  apply keeps_bind; [by apply kept_settle_flow|]. intros _. apply keeps_ret.
Qed.

(** ** Children of an active parent *)
Section children.
Variable a : AddArgs.
Hypothesis T : add_tables q a.

Lemma kept_added_child p s row ids : staged_row s row →
  keeps P (store_added_child a p (redis_key q (DependenciesKey EmptyString) +:+ p) s row ids).
Proof.
  intros Hs. unfold store_added_child. apply keeps_bind; [auto with leases|]. intros child. case_bool_decide.
  - apply keeps_bind; [apply kept_announce_skipped; [done|apply keeps_ret]|]. intros _. keeps_all. away.
  - case_bool_decide.
    + apply keeps_bind; [apply kept_adopt; [done|intros; apply kept_await]|]. intros _. apply keeps_ret.
    + destruct Hs as [Hs|Hf]; [done|]. apply keeps_bind; [apply kept_store_row; [done..|apply keeps_do; away]|]. intros _. apply keeps_ret.
Qed.

Lemma kept_added_children p s rows ids : Forall (staged_row s) rows →
  keeps P (store_added_children a p (redis_key q (DependenciesKey EmptyString) +:+ p) s rows ids).
Proof.
  intros Hr. revert ids. induction Hr as [|row rows Hrow _ IH]; intros ids; simpl; [apply keeps_ret|].
  apply keeps_bind; [by apply kept_added_child|done].
Qed.

Lemma kept_release_extended p : keeps P (release_extended_parent a p (redis_key q (DependenciesKey EmptyString) +:+ p)).
Proof.
  apply kept_without_dependencies; [done|]. intros job Hf. pose proof (kept_waiting q id P free drawn ours G) as Hw.
   add_keys T. keeps_all.
Qed.

Lemma kept_park_parent KEYS now p parent s rows : at_ KEYS 10 = redis_key q (LockKey p) → at_ KEYS 8 = redis_key q StalledKey →
  free p → Forall (staged_row s) rows →
  keeps P (park_parent a KEYS (redis_key q (DependenciesKey EmptyString) +:+ p) now p parent s rows).
Proof.
  intros K10 K8 Hf Hr. unfold park_parent. rewrite K10, K8. pose proof (λ ids, kept_added_children p s rows ids Hr).
  pose proof (kept_release_extended p).  add_keys T.
  keeps_all; first [by apply (g_lock_del _ _ _ _ _ _ G)|harmless].
Qed.
End children.

Lemma held_parent_yields p token : ours p token →
  yields P (held_parent jobs (redis_key q (LockKey p)) p token) (λ r, match r with inl _ => free p | inr _ => True end).
Proof.
  intros Ho. unfold held_parent. eapply yields_bind; [apply yields_any, keeps_read|]. intros [raw|] _; [|by apply yields_ret].
  do 2 (eapply yields_bind; [apply yields_any; auto with leases|]; intros ? _).
  destruct (negb _); [eapply yields_bind; [apply yields_any; auto with leases|]; intros ? _; by apply yields_ret|].
  eapply yields_bind; [apply yields_read with (Q := λ r, r = Some token → free p)|].
  { intros d r Hd E ->. by eapply (g_ours _ _ _ _ _ _ G). }
  intros [t|] Ht; [|by apply yields_ret]. destruct (String.eqb_spec t token) as [->|]; apply yields_ret; [by apply Ht|done].
Qed.

Lemma keeps_failed_among ids : keeps P (failed_among jobs ids).
Proof. unfold failed_among. keeps_all. Qed.

Lemma kept_add_flow_children `{!LuaLaws L} p token now children c : add_flow_children_jobs_call p token now children = Ok c →
  counted (length children) → ours p token → keeps P (eval_call q ADD_FLOW_CHILDREN_SCRIPT c).
Proof.
  unfold add_flow_children_jobs_call. destruct (try_map job_row children) as [rows|] eqn:Hrows; [|done]. intros [= <-] Hn Ho.
  pose proof (rows_length _ _ Hrows) as Hlen. call_rows. unfold ADD_FLOW_CHILDREN_SCRIPT.
  set (ARGV := _ :: _ :: _ :: _ ++ _). set (KEYS := jobs :: _). set (n := length children) in *.
  change (at_ ARGV 3) with (show_int (Z.of_nat n)). rewrite strtod_count by done. destruct (f64_lt _ _); [apply keeps_ret|].
  rewrite floor_of_Z, Nat2Z.id by (unfold counted in Hn; lia).
  assert (add_tables q (flow_children_args KEYS ARGV n)) as T.
  { split; try reflexivity; cbn [flow_children_args aa_deduplication aa_deduplication_next aa_repeat];
      (etransitivity; [eapply (behind_rows [_; _; _]); [exact Hlen|cbn; lia]|reflexivity]). }
  assert (at_ ARGV (5 + n * per_job_args) = redis_key q (DependenciesKey EmptyString)) as Hdep
    by (etransitivity; [eapply (behind_rows [_; _; _]); [exact Hlen|cbn; lia]|reflexivity]).
  eapply keeps_learn; [by apply held_parent_yields|]. intros [parent|reply] Hf; [|apply keeps_ret].
  unfold add_flow_children_to. rewrite Hdep. apply keeps_bind; [apply keeps_read|]. intros unsuccessful. destruct (negb _); [apply keeps_ret|].
  do 2 (apply keeps_bind; [auto with leases|]; intros ?).
  apply keeps_bind; [by apply keeps_failed_among|]. intros []; [apply keeps_ret|].
  eapply keeps_learn; [apply (stage_all_stages _ T); intros; by apply (added_child_stages _ T)|]. intros [s|reply] H; [|apply keeps_ret]. destruct H as [_ Hr].
  apply keeps_bind; [by apply (kept_park_parent _ T)|]. intros _. apply keeps_ret.
Qed.
End kept.

(** * Listings keep what has guards

    A listing drops from the active set only jobs that are not active any more,
    and only records that the active set does not have are orphans. *)
Section listings.
Context {X : Ext} {R : RedisExt} {L : LuaLibs} {D : Type} `{!Redis D, !RedisLaws D}.
Variables (q : RedisQueueName) (id : string) (P : D → Prop) (free drawn : string → Prop) (ours : string → string → Prop).
Hypothesis G : Guards q id P free drawn ours.
Abbreviation jobs := (redis_key q JobsKey).

Ltac away := solve [apply (g_apart _ _ _ _ _ _ G); cbn [command_key]; auto with apart].

Lemma keeps_listing raw job state : keeps P (listing_of raw job state).
Proof. unfold listing_of, iso_sort_key. keeps_all. Qed.

Lemma kept_collect_state state key ids seen : (∀ i, (state = "active" → free i) → keeps P (call (ZREM key i))) →
  keeps P (collect_state_jobs jobs state key ids seen).
Proof.
  intros Hz. revert seen. induction ids as [|i ids IH]; intros seen; simpl; [apply keeps_ret|].
  pose proof keeps_listing as Hl. apply keeps_bind_read. intros [raw|] d Hd Hr.
  - apply keeps_bind_value. intros job Hj. apply keeps_bind_value. intros v Hv. destruct (is_text v state) eqn:Ht; cbn [negb].
    + case_bool_decide; [apply IH|]. keeps_all.
    + apply keeps_bind; [|intros; apply IH]. apply keeps_do, Hz. intros ->. by eapply (g_state _ _ _ _ _ _ G).
  - apply keeps_bind; [|intros; apply IH]. apply keeps_do, Hz. intros _. by eapply free_missing.
Qed.

(** Where a key goes with a state. *)
Definition keyed (states : list (string * string)) : Prop :=
  ∀ state key i, (state, key) ∈ states → (state = "active" → free i) → keeps P (call (ZREM key i)).

Lemma kept_collect_all states seen : keyed states → keeps P (collect_all_states jobs states seen).
Proof.
  revert seen. induction states as [|[state key] states IH]; intros seen Hk; simpl; [apply keeps_ret|].
  apply keeps_bind; [apply keeps_read|]. intros ids. apply keeps_bind.
  - apply kept_collect_state. intros i. apply Hk. by left.
  - intros found. apply keeps_bind; [|intros; apply keeps_ret]. apply IH. intros s k i Hin. apply Hk. by right.
Qed.

Lemma listed_keys offset limit flag states state key i :
  state_key_for (KEYS_of q (list_jobs_call offset limit flag states)) state = Some key → (state = "active" → free i) →
  keeps P (call (ZREM key i)).
Proof.
  unfold state_key_for. intros E Hi. destruct (String.eqb_spec state "active") as [->|].
  - injection E as <-. by apply (g_inactive _ _ _ _ _ _ G), Hi.
  - repeat case_match; simplify_eq;
      first [by apply (g_takes_out _ _ _ _ _ _ G Waiting)|by apply (g_takes_out _ _ _ _ _ _ G Delayed)
            |by apply (g_takes_out _ _ _ _ _ _ G WaitingChildren)|by apply (g_takes_out _ _ _ _ _ _ G Completed)
            |by apply (g_takes_out _ _ _ _ _ _ G Failed)].
Qed.

Lemma requested_keyed KEYS states seen l : requested_states KEYS states seen = Some l →
  ∀ state key, (state, key) ∈ l → state_key_for KEYS state = Some key.
Proof.
  revert seen l. induction states as [|s states IH]; intros seen l; simpl.
  - intros [= <-] state key Hin. by apply not_elem_of_nil in Hin.
  - destruct (state_key_for KEYS s) as [k|] eqn:E; [|done]. destruct (existsb _ _); [apply IH|].
    destruct (requested_states KEYS states (s :: seen)) as [rest|] eqn:Er; [|done]. intros [= <-] state key Hin.
    apply elem_of_cons in Hin as [[= -> ->]|Hin]; [done|]. by eapply IH.
Qed.

Lemma kept_list_jobs offset limit flag states : keeps P (eval_call q LIST_JOBS_SCRIPT (list_jobs_call offset limit flag states)).
Proof.
  unfold eval_call, LIST_JOBS_SCRIPT. destruct (requested_states _ _ _) as [l|] eqn:E; [|apply keeps_ret].
  apply keeps_bind; [|intros; keeps_all].
  change (at_ (KEYS_of q _) 1) with jobs. apply kept_collect_all. intros state key i Hin. eapply requested_keyed in E; [|done].
  by eapply listed_keys.
Qed.

(** ** Orphans *)
Lemma unreferenced indexes t x : (redis_key q (StateKey Active), t) ∈ indexes → (t ≠ "zset" → ∀ x, free x) →
  yields P (is_referenced indexes x) (λ b, b = false → free x).
Proof.
  intros Hin Ht. unfold is_referenced. eapply yields_bind with (Q := λ r, r = None → free x).
  2: { intros r Hr. apply yields_ret. destruct r; [done|]. intros _. by apply Hr. }
  assert (∀ i, keeps P (references x i)) as Hk by (intros [k kt]; unfold references; keeps_all).
  induction indexes as [|i indexes IH]; [by apply not_elem_of_nil in Hin|]. simpl.
  apply elem_of_cons in Hin as [<-|Hin].
  - eapply yields_bind with (Q := λ r, r = None → free x).
    + unfold references. destruct (String.eqb_spec t "zset") as [->|Hne].
      * apply yields_bind with (Q := λ b, b = false → free x).
        { apply yields_bind_read. intros score d Hd E. apply yields_ret. destruct score; [done|]. intros _.
          by eapply (g_unlisted _ _ _ _ _ _ G). }
        intros b Hb. apply yields_ret. destruct b; [done|]. intros _. by apply Hb.
      * split; [keeps_all|]. intros; by apply Ht.
    + intros [r|] Hr; [by apply yields_ret|]. split; [|intros; by apply Hr].
      apply keeps_first_result. intros j. pose proof (Hk j). keeps_all.
  - eapply yields_bind; [apply yields_any; pose proof (Hk i); keeps_all|]. intros [r|] _; [by apply yields_ret|by apply IH].
Qed.

Lemma kept_remove_orphans a indexes t limit removed entries :
  oa_jobs a = jobs → oa_dependencies a = redis_key q (DependenciesKey EmptyString) → oa_logs a = redis_key q (LogsKey EmptyString) →
  oa_locks a = redis_key q (LockKey EmptyString) →
  (redis_key q (StateKey Active), t) ∈ indexes → (t ≠ "zset" → ∀ x, free x) →
  keeps P (remove_orphans a indexes limit removed entries).
Proof.
  intros Hj Hd Hlg Hlk Hin Ht. revert removed. induction entries as [|[x raw] entries IH]; intros removed; simpl; [apply keeps_ret|].
  destruct (_ && _); [apply keeps_ret|]. eapply keeps_learn; [by eapply unreferenced|]. intros [] Hf; [apply IH|].
  assert (free x) by by apply Hf. apply keeps_bind; [|intros; apply IH]. unfold remove_orphan. rewrite Hj, Hd, Hlg, Hlk, lock_key_is.
  pose proof (keeps_dependency_keys _ _ _ _ _ _ G).
  keeps_all; first [by apply (g_lock_del _ _ _ _ _ _ G)|by apply (g_hdel _ _ _ _ _ _ G)|away].
Qed.

Lemma kept_orphans cursor scan_count remaining :
  keeps P (eval_call q REMOVE_ORPHANED_JOBS_SCRIPT (remove_orphaned_jobs_call cursor scan_count remaining)).
Proof.
  unfold eval_call, REMOVE_ORPHANED_JOBS_SCRIPT. set (active := redis_key q (StateKey Active)).
  eapply keeps_learn.
  - apply yields_collect_each with (Q := λ key p, p.1 = key ∧ (key = active → p.2 ≠ "zset" → ∀ x, free x)). intros key.
    apply yields_bind_read. intros t d Hd E. apply yields_ret. split; [done|]. cbn. intros ->. by eapply (g_untyped _ _ _ _ _ _ G).
  - intros indexes Hi. eapply (Forall2_lookup_l _ _ _ 2%nat active) in Hi as ([k t] & Ht & Hk & Hf); [|reflexivity].
    cbn in Hk, Hf. subst k. apply keeps_bind; [apply keeps_read|]. intros page. apply keeps_bind; [|intros; apply keeps_ret].
    apply kept_remove_orphans with t; try reflexivity; [by eapply list_elem_of_lookup_2|by apply Hf].
Qed.
End listings.
