(* ===== verification/RedisSurvival.v ===== *)
(** * Leases survive the traffic of a queue ([src/job/redis.rs])

    [RedisCall] is what happens at the server: the methods that write, as the
    regions that Redis runs at once (submissions of jobs, series and flows,
    claims, renewals and reports, recovery, moves between states, edits of
    records, removals, listings, which repair the indexes, settings,
    obliteration), and the expiry of keys.  All but obliteration and expiry keep
    what has [Guards]; the state in which a job is held under a token has them.
    The methods that send several commands are those of [RedisClient], among
    whose commands other calls may happen. *)
From S2P Require Import Prelude Ordering Text Float64 External Retry JobTypes JobStore JobDedup JobCore JobQueries JobAdd Backend FloatOrder LuaDates RedisKeys RedisReplies RedisCalls RedisLua RedisLeases RedisLeaseRules RedisFinish RedisReports RedisMoves RedisRecords RedisRemovals RedisQueries RedisClient RedisAdds RedisFlows RedisGuards RedisKept RedisKeptAdds.
Local Open Scope Z_scope.

(** ** The calls *)
Section calls.
Context {X : Ext} {R : RedisExt} {L : LuaLibs} {D : Type} `{!Redis D, !RedisLaws D}.
Variable q : RedisQueueName.

(** The four ways to give a job back. *)
Inductive Report : Type :=
| ReportComplete (value : outcome string string) (uuid : string)
| ReportFail (error : string) (allow_retry : bool)
| ReportDelay (delay : Duration) (delay_text : string)
| ReportRelease.

Definition send_report (r : Report) (job_id lock_token : string) (now : DateTime) : D → D * Reply Job :=
  match r with
  | ReportComplete value uuid => complete_job q job_id lock_token value now uuid
  | ReportFail error allow_retry => fail_job_with_retry_control q job_id lock_token error now allow_retry
  | ReportDelay delay text => delay_active_job q job_id lock_token delay text now
  | ReportRelease => release_active_job q job_id lock_token now
  end.

(** Moves, edits and removals of jobs, and the settings of the queue. *)
Inductive Upkeep : Type :=
| UpRecover (now : DateTime)
| UpPromote (job_id : string) (now : DateTime)
| UpReschedule (job_id : string) (delay : Duration) (delay_text : string) (now : DateTime)
| UpRetry (job_id : string) (now : DateTime)
| UpPromoteDue (now : DateTime)
| UpPriority (job_id : string) (priority : JobPriority) (lifo : option bool)
| UpData (job_id payload : string)
| UpProgress (job_id progress : string)
| UpStacktrace (job_id stacktrace failed_reason : string)
| UpAddLog (job_id line : string) (keep : Z) (now : DateTime) (entry : string)
| UpClearLogs (job_id : string) (keep : Z)
| UpRemoveDeduplication (deduplication_id : string)
| UpGetDeduplication (deduplication_id : string)
| UpRemove (job_id : string) (now : DateTime)
| UpClean (state : JobState) (grace : Duration) (limit : Z) (now : DateTime)
| UpDrain (include_delayed : bool) (now : DateTime)
| UpRemoveUnprocessed (parent_id : string) (now : DateTime)
| UpRemoveDependency (child_id : string) (now : DateTime)
| UpListJobs (reply_value : Lua → RedisValue) (o : JobListOptions)
| UpRemoveOrphans (cursor scan_count remaining : Z)
| UpRateLimit (rate_limit : option JobRateLimit)
| UpRateLimitFor (duration : Duration)
| UpMaxActive (max_active_jobs : option Z)
| UpPause
| UpResume
| UpStats
| UpTrimEvents (max_len : Z)
| UpClearRateLimitKey
| UpRateLimitTtl (max_claims : option Z)
| UpActiveRateLimitTtl (rate_limit : option JobRateLimit)
| UpClearOwner (repeat_key owner_id : string)
| UpClearOwnerKey (repeat_key owner_id : string)
| UpRestoreOwner (repeat_key owner_id : string)
| UpForgetScheduler (repeat_key : string).

Definition run_upkeep (d : D) (u : Upkeep) : D :=
  match u with
  | UpRecover now => (recover_stalled_jobs q now d).1
  | UpPromote i now => (promote_job q i now d).1
  | UpReschedule i delay text now => (reschedule_job q i delay text now d).1
  | UpRetry i now => (retry_job q i now d).1
  | UpPromoteDue now => (promote_due_round q now d).1
  | UpPriority i priority lifo => (update_priority_order q i priority lifo d).1
  | UpData i payload => (update_data q i payload d).1
  | UpProgress i progress => (update_progress q i progress d).1
  | UpStacktrace i stacktrace reason => (save_stacktrace q i stacktrace reason d).1
  | UpAddLog i line keep now entry => (add_log q i line keep now entry d).1
  | UpClearLogs i keep => (clear_job_logs q i keep d).1
  | UpRemoveDeduplication i => (remove_deduplication_key q i d).1
  | UpGetDeduplication i => (get_deduplication_job_id q i d).1
  | UpRemove i now => (remove_job q i now d).1
  | UpClean state grace limit now => (clean_jobs q state grace limit now d).1
  | UpDrain include_delayed now => (drain_jobs q include_delayed now d).1
  | UpRemoveUnprocessed i now => (remove_unprocessed_children q i now d).1
  | UpRemoveDependency i now => (remove_child_dependency q i now d).1
  | UpListJobs reply_value o => (list_jobs q reply_value o d).1
  | UpRemoveOrphans cursor scan_count remaining => (remove_orphaned_round q cursor scan_count remaining d).1
  | UpRateLimit (Some limit) => (set_claim_rate_limit q limit d).1
  | UpRateLimit None => (clear_claim_rate_limit q d).1
  | UpRateLimitFor duration => (rate_limit_claims_for q duration d).1
  | UpMaxActive (Some n) => (set_max_active_jobs q n d).1
  | UpMaxActive None => (clear_max_active_jobs q d).1
  | UpPause => (pause q d).1
  | UpResume => (resume q d).1
  | UpStats => (stats q d).1
  | UpTrimEvents max_len => (trim_events q max_len d).1
  | UpClearRateLimitKey => (clear_claim_rate_limit_key q d).1
  | UpRateLimitTtl max_claims => (get_claim_rate_limit_ttl q max_claims d).1
  | UpActiveRateLimitTtl rate_limit => (active_claim_rate_limit_ttl_with_conn q rate_limit d).1
  | UpClearOwner k i => (clear_repeat_owner_if_stale q k i d).1
  | UpClearOwnerKey k i => (clear_repeat_owner_key_if_stale q k i d).1
  | UpRestoreOwner k i => (restore_repeat_owner_if_missing q k i d).1
  | UpForgetScheduler k => (clear_repeat_scheduler_metadata q k d).1
  end.

(** Jobs, a repeat series, a flow, and more children for an active parent. *)
Inductive Submission : Type :=
| SubmitJob (spec : NewSpec) (now : DateTime)
| SubmitJobs (specs : list NewSpec) (now : DateTime)
| SubmitRepeat (spec : NewSpec) (now : DateTime)
| SubmitFlow (parent : NewSpec) (children : list NewSpec) (now : DateTime)
| SubmitChildren (parent_id lock_token : string) (children : list NewSpec) (now : DateTime).

Definition run_submission (d : D) (s : Submission) : D :=
  match s with
  | SubmitJob spec now => (add_job q spec now d).1
  | SubmitJobs specs now => (add_many_at q specs now d).1
  | SubmitRepeat spec now => (upsert_repeat q spec now d).1
  | SubmitFlow parent children now => (add_flow_at q parent children now d).1
  | SubmitChildren parent_id lock_token children now => (add_flow_children_at q parent_id lock_token children now d).1
  end.

(** The jobs of a submission can be counted in a double. *)
Definition sized_submission (s : Submission) : Prop :=
  match s with
  | SubmitJobs specs _ | SubmitChildren _ _ specs _ => counted (length specs)
  | SubmitFlow _ children _ => counted (S (length children))
  | _ => True
  end.

(** The keys that have an expiry. *)
Inductive ExpiringKey : Type :=
| ExpiringLock (job_id : string)
| ExpiringDeduplication (deduplication_id : string)
| ExpiringRateLimit.

Definition expiring_key (k : ExpiringKey) : RedisKey :=
  match k with
  | ExpiringLock i => LockKey i
  | ExpiringDeduplication i => DeduplicationKey i
  | ExpiringRateLimit => ClaimRateLimitKey
  end.

Inductive RedisCall : Type :=
| CallSubmit (s : Submission)
| CallLease (op : LeaseOp)
| CallReport (r : Report) (job_id lock_token : string) (now : DateTime)
| CallUpkeep (u : Upkeep)
| CallObliterate (fuel : nat) (force : bool)
| KeyExpires (k : ExpiringKey).   (* Redis deletes the key when its time is up *)

Definition run_call (d : D) (c : RedisCall) : D :=
  match c with
  | CallSubmit s => run_submission d s
  | CallLease op => run_lease_op q d op
  | CallReport r job_id lock_token now => (send_report r job_id lock_token now d).1
  | CallUpkeep u => run_upkeep d u
  | CallObliterate fuel force => (obliterate q fuel force d).1
  | KeyExpires k => (exec (DEL (redis_key q (expiring_key k))) d).1
  end.

(** What no guard allows. *)
Definition deletes (c : RedisCall) : Prop := match c with CallObliterate _ _ | KeyExpires _ => True | _ => False end.

Definition sized (c : RedisCall) : Prop := match c with CallSubmit s => sized_submission s | _ => True end.

(** A claim draws this token. *)
Definition draws (token : string) (c : RedisCall) : Prop :=
  match c with CallLease (OpClaimRedis _ _ _ _ t) => t = token | _ => False end.

(** The call gives the job back with this token. *)
Definition reports (job_id token : string) (c : RedisCall) : Prop :=
  match c with
  | CallLease (OpDelayActive i t _ _ _) | CallLease (OpReleaseActive i t _) | CallReport _ i t _
  | CallSubmit (SubmitChildren i t _ _) => i = job_id ∧ t = token
  | _ => False
  end.

(** A call that was prepared is a call of the script. *)
Lemma complete_run (P : D → Prop) job_id token value now uuid d : P d →
  (∀ value remove next encoded,
     keeps P (eval_call q COMPLETE_SCRIPT (complete_job_call job_id token now value remove next encoded))) →
  P (complete_job q job_id token value now uuid d).1.
Proof.
  intros Hd Hk. unfold complete_job, after. destruct (require_job q job_id d) as [job|e]; [|done]. cbn [try_bind].
  destruct (lift (next_repeat_job job now uuid)) as [next|e]; [|done]. cbn [try_bind].
  destruct (parsed value _) as [v|e]; [|done]. cbn [try_bind].
  destruct (match next with Some n => lift (encode_job n) | None => Ok EmptyString end) as [encoded|e]; [|done]. cbn [try_bind].
  rewrite query_state. by apply Hk.
Qed.

Lemma fail_run (P : D → Prop) job_id token error now allow d : P d →
  (∀ retrying scheduled remove,
     keeps P (eval_call q FAIL_SCRIPT (fail_job_call job_id token now error retrying scheduled remove))) →
  P (fail_job_with_retry_control q job_id token error now allow d).1.
Proof.
  intros Hd Hk. unfold fail_job_with_retry_control, after. destruct (require_job q job_id d) as [job|e]; [|done].
  cbn zeta. rewrite query_state. by apply Hk.
Qed.

(** ** What has guards survives every call *)
Section guarded.
Variables (id : string) (P : D → Prop) (free drawn : string → Prop) (ours : string → string → Prop).
Hypothesis G : Guards q id P free drawn ours.

Lemma query_keeps {A B} (m : Script D A) (k : A → Reply B) d : keeps P m → P d → P (query m k d).1.
Proof. intros Hm Hd. rewrite query_state. by apply Hm. Qed.

Lemma report_keeps r job_id token now d : ours job_id token → P d → P (send_report r job_id token now d).1.
Proof.
  intros Ho Hd. destruct r; cbn [send_report].
  - apply complete_run; [done|]. intros. by eapply kept_complete.
  - apply fail_run; [done|]. intros. by eapply kept_fail.
  - apply query_keeps; [by eapply kept_delay|done].
  - apply query_keeps; [by eapply kept_release|done].
Qed.

Lemma lease_op_keeps op d : (∀ t, draws t (CallLease op) → drawn t) → (∀ i t, reports i t (CallLease op) → ours i t) → P d →
  P (run_lease_op q d op).
Proof.
  intros Ht Ho Hd. destruct op as [rate worker lease now t|i t lease now|renewals lease now|i t delay text now|i t now]; cbn [run_lease_op].
  - apply query_keeps; [|done]. eapply kept_claim; [done|apply claim_call_tables|]. by apply Ht.
  - apply query_keeps; [by eapply kept_renew|done].
  - unfold renew_leases. destruct renewals as [|r l]; [done|]. apply query_keeps; [by eapply kept_renewals|done].
  - apply query_keeps; [eapply kept_delay; [done|by apply Ho]|done].
  - apply query_keeps; [eapply kept_release; [done|by apply Ho]|done].
Qed.

(** The keys of the settings. *)
Lemma setting_call c k : command_key c = redis_key q k → ¬ guarded k → keeps P (call c).
Proof. intros E Hk. apply (g_apart _ _ _ _ _ _ G). rewrite E. by apply apart_key. Qed.

Lemma setting_keeps c k : command_key c = redis_key q k → ¬ guarded k → keeps P (do_ c).
Proof. intros E Hk. by eapply keeps_do, setting_call. Qed.

(** The key is that of the limits, or is spelled out in the command. *)
Ltac setting :=
  cbn [at_ nth Nat.sub];
  first
    [by apply (setting_keeps _ MetaKey); [reflexivity|intros []]
    |by apply (setting_call _ MetaKey); [reflexivity|intros []]
    |match goal with
     | |- keeps _ (do_ ?c) => match c with context [redis_key _ ?k] => by apply (setting_keeps _ k); [reflexivity|intros []] end
     | |- keeps _ (call ?c) => match c with context [redis_key _ ?k] => by apply (setting_call _ k); [reflexivity|intros []] end
     end].

Lemma limit_keeps KEYS ARGV otherwise : at_ KEYS 1 = redis_key q ClaimRateLimitKey → keeps P otherwise →
  keeps P (limit_ttl KEYS ARGV otherwise).
Proof.
  intros E Ho. assert (∀ max, keeps P (rate_limit_ttl max (at_ KEYS 1))) as Hr.
  { intros max. unfold rate_limit_ttl. rewrite E. keeps_all. setting. }
  unfold limit_ttl. keeps_all.
Qed.

Lemma upkeep_keeps u d : P d → P (run_upkeep d u).
Proof.
  intros Hd. destruct u; cbn [run_upkeep].
  - apply query_keeps; [by eapply kept_recover|done].
  - apply query_keeps; [by eapply kept_promote_job|done].
  - unfold reschedule_job. destruct (is_zero_duration delay); [done|]. apply query_keeps; [by eapply kept_reschedule|done].
  - unfold retry_job, after. destruct (load_job q job_id d) as [job|e]; [|done]. cbn zeta. apply query_keeps; [by eapply kept_retry|done].
  - apply query_keeps; [by eapply kept_promote_due|done].
  - unfold update_priority_order. destruct (validate_job_priority priority); [|done]. apply query_keeps; [by eapply kept_update_priority|done].
  - apply query_keeps; [by eapply kept_update_data|done].
  - apply query_keeps; [by eapply kept_update_progress|done].
  - apply query_keeps; [by eapply kept_save_stacktrace|done].
  - apply query_keeps; [by eapply kept_add_log|done].
  - apply query_keeps; [by eapply kept_clear_logs|done].
  - unfold remove_deduplication_key. destruct (String.eqb _ _); [done|]. apply query_keeps; [by eapply kept_remove_deduplication|done].
  - unfold get_deduplication_job_id. destruct (String.eqb _ _); [done|]. apply query_keeps; [by eapply kept_deduplication_id|done].
  - apply query_keeps; [by eapply kept_remove|done].
  - unfold clean_jobs. destruct (limit =? 0); [done|]. apply query_keeps; [by eapply kept_clean|done].
  - apply query_keeps; [by eapply kept_drain|done].
  - apply query_keeps; [by eapply kept_remove_unprocessed|done].
  - apply query_keeps; [by eapply kept_remove_dependency|done].
  - apply query_keeps; [by eapply kept_list_jobs|done].
  - apply query_keeps; [by eapply kept_orphans|done].
  - destruct rate_limit as [limit|].
    + unfold set_claim_rate_limit. destruct (validate_rate_limit limit); [|done].
      apply query_keeps; [|done]. apply keeps_bind; [setting|intros; setting].
    + apply query_keeps; [|done]. apply keeps_bind; [setting|intros; setting].
  - unfold rate_limit_claims_for. destruct (is_zero_duration duration); [done|]. apply query_keeps; [setting|done].
  - destruct max_active_jobs as [n|]; [|apply query_keeps; [setting|done]].
    unfold set_max_active_jobs. destruct (n =? 0); [done|]. apply query_keeps; [setting|done].
  - apply query_keeps; [by eapply kept_pause|done].
  - apply query_keeps; [by eapply kept_resume|done].
  - apply query_keeps; [|done]. unfold eval_call, STATS_SCRIPT, counts. keeps_all; [setting|].
    apply keeps_collect. intros k. apply keeps_read.
  - apply query_keeps; [setting|done].
  - apply query_keeps; [setting|done].
  - apply query_keeps; [|done]. apply limit_keeps; [done|apply keeps_read].
  - apply query_keeps; [|done]. apply limit_keeps; [done|apply keeps_ret].
  - apply query_keeps; [|done]. apply keeps_bind_read. intros o d1 _ _. destruct (bool_decide _); [|apply keeps_ret].
    apply keeps_bind; [setting|intros _]. apply keeps_bind; [setting|intros _]. setting.
  - apply query_keeps; [|done]. apply keeps_bind_read. intros o d1 _ _. destruct (bool_decide _); [setting|apply keeps_ret].
  - apply query_keeps; [setting|done].
  - apply query_keeps; [|done]. apply keeps_bind; [setting|intros _; setting].
Qed.

(** A call that was prepared, or refused before it was sent. *)
Lemma after_keeps {A B} (r : D → Reply A) (k : A → D → D * Reply B) d :
  (∀ a, r d = Ok a → P (k a d).1) → P d → P (after r k d).1.
Proof. intros Hk Hd. unfold after. destruct (r d) as [a|e] eqn:E; [by apply Hk|done]. Qed.

Lemma then_read_state {A B} (m : D → D * Reply A) (k : A → D → Reply B) d : (then_read m k d).1 = (m d).1.
Proof. unfold then_read. by destruct (m d) as [d' [a|e]]. Qed.

Lemma try_ok {E A B} (r : outcome E A) (k : A → outcome E B) b : try_bind r k = Ok b → ∃ a, r = Ok a ∧ k a = Ok b.
Proof. destruct r as [a|e]; [|done]. by exists a. Qed.

Lemma lift_ok {A} (r : Result A) a : lift r = Ok a → r = Ok a.
Proof. unfold lift. destruct r; [|done]. by intros [= ->]. Qed.

Lemma submission_keeps `{!LuaLaws L} s d : sized_submission s → (∀ i t, reports i t (CallSubmit s) → ours i t) → P d →
  P (run_submission d s).
Proof.
  intros Hs Ho Hd. destruct s as [spec now|specs now|spec now|parent children now|p t children now]; cbn [run_submission sized_submission] in *.
  - apply after_keeps; [|done]. intros c (? & _ & (encoded & _ & [= <-])%try_ok)%try_ok.
    apply query_keeps; [by eapply kept_add_job|done].
  - apply after_keeps; [|done]. intros c (? & _ & E)%try_ok. destruct (_ <$> specs) as [|j l] eqn:El; [by injection E as <-|].
    apply try_ok in E as (c' & E%lift_ok & [= <-]). apply query_keeps; [|done]. eapply kept_add_jobs; [done..|].
    by rewrite <- El, length_fmap.
  - apply after_keeps; [|done]. intros c (? & _ & (? & _ & (key & _ & (encoded & _ & [= <-])%try_ok)%try_ok)%try_ok)%try_ok.
    apply query_keeps; [by eapply kept_upsert|done].
  - unfold add_flow_at. rewrite then_read_state. apply after_keeps; [|done].
    intros c (? & _ & (? & _ & (? & _ & E%lift_ok)%try_ok)%try_ok)%try_ok. apply query_keeps; [|done].
    eapply kept_add_flow; [done..|]. by rewrite length_fmap.
  - unfold add_flow_children_at. rewrite then_read_state. apply after_keeps; [|done].
    intros c (? & _ & (? & _ & (? & _ & E%lift_ok)%try_ok)%try_ok)%try_ok. apply query_keeps; [|done].
    eapply kept_add_flow_children; [done..| |by apply Ho]. by rewrite length_fmap.
Qed.

(** Deleting calls are for the property to answer. *)
Lemma calls_keep `{!LuaLaws L} calls d :
  Forall (λ c, sized c ∧ (∀ t, draws t c → drawn t) ∧ (∀ i t, reports i t c → ours i t) ∧ (deletes c → ∀ d, P d → P (run_call d c))) calls →
  P d → P (foldl run_call d calls).
Proof.
  intros Hc. revert d. induction Hc as [|c calls (Hs & Ht & Ho & Hdel) _ IH]; intros d Hd; [done|]. apply IH. destruct c; cbn [run_call].
  - by apply submission_keeps.
  - by apply lease_op_keeps.
  - apply report_keeps; [by apply Ho|done].
  - by apply upkeep_keeps.
  - by apply Hdel.
  - by apply Hdel.
Qed.
End guarded.

(** What survives the deletion of any key survives obliteration. *)
Lemma obliterate_keeps (P : D → Prop) fuel force d : (∀ key, keeps P (do_ (DEL key))) →
  (∀ fs, keeps P (do_ (HSET (redis_key q MetaKey) fs))) → P d → P (obliterate q fuel force d).1.
Proof.
  intros Hdel Hset Hd. unfold obliterate. rewrite query_state. revert d Hd.
  change (keeps P (OBLITERATE_SCRIPT fuel (KEYS_of q (obliterate_call q force)) (ARGV_of q (obliterate_call q force)))).
  assert (∀ n pattern count cursor, keeps P (delete_pages n pattern count cursor)) as Hpages.
  { induction n as [|n IH]; intros pattern count cursor; [apply keeps_raise|]. cbn [delete_pages].
    apply keeps_bind_read. intros page d _ _. apply keeps_bind; [by apply keeps_for_each|]. intros _. cbn zeta.
    destruct (String.eqb _ _); [apply keeps_ret|]. apply keeps_bind; [apply IH|]. intros more. apply keeps_ret. }
  assert (∀ n pages pattern count, keeps P (delete_keys n pages pattern count)) as Hkeys.
  { induction n as [|n IH]; intros pages pattern count; [apply keeps_raise|]. cbn [delete_keys].
    apply keeps_bind; [apply Hpages|]. intros []; [apply IH|apply keeps_ret]. }
  unfold OBLITERATE_SCRIPT. apply keeps_bind; [apply Hset|]. intros _. apply keeps_bind_read. intros active d _ _.
  destruct (_ && _); [apply keeps_ret|]. apply keeps_bind; [apply keeps_read|]. intros removed.
  apply keeps_bind; [apply Hkeys|]. intros _. apply keeps_ret.
Qed.
End calls.

(** ** A held job *)
Section held.
Context {X : Ext} {R : RedisExt} {L : LuaLibs} {D : Type} `{!Redis D, !RedisLaws D, !LuaLaws L}.
Variables (q : RedisQueueName) (id token : string).
Abbreviation jobs := (redis_key q JobsKey).

(** The lock holds the token, the record says active, the job is listed as
    active and under no other state. *)
Record secure (d : D) : Prop := {
  sec_lock : get (redis_key q (LockKey id)) d = Ok (Some token);
  sec_record : ∃ raw, hget jobs id d = Ok (Some raw) ∧ active_record raw;
  sec_listed : ∃ score, zscore (redis_key q (StateKey Active)) id d = Ok (Some score);
  sec_aside s : idle_state s → zscore (redis_key q (StateKey s)) id d = Ok None;
}.

(** A command that leaves the four alone. *)
Lemma other_string c k d : secure d → command_key c = redis_key q k → parent_of k = None → k ≠ LockKey id →
  get (redis_key q (LockKey id)) (exec c d).1 = Ok (Some token).
Proof. intros [H _ _ _] Hc Hp Hk. rewrite frame_string; [done|]. by apply (untouched q c k _ (LockKey id)). Qed.

Lemma other_field c d : secure d → ¬ touches c (PField jobs id) →
  ∃ raw, hget jobs id (exec c d).1 = Ok (Some raw) ∧ active_record raw.
Proof. intros [_ H _ _] Hc. by rewrite frame_field. Qed.

Lemma other_active c d : secure d → ¬ touches c (PMember (redis_key q (StateKey Active)) id) →
  ∃ score, zscore (redis_key q (StateKey Active)) id (exec c d).1 = Ok (Some score).
Proof. intros [_ _ H _] Hc. by rewrite frame_member. Qed.

Lemma other_idle c d s : secure d → idle_state s → ¬ touches c (PMember (redis_key q (StateKey s)) id) →
  zscore (redis_key q (StateKey s)) id (exec c d).1 = Ok None.
Proof. intros [_ _ _ H] Hs Hc. rewrite frame_member; auto. Qed.

(** Where the key of a command decides. *)
Ltac by_key k := solve [first [by apply (other_string _ k)|by apply other_field; [|apply (untouched q _ k _ JobsKey)]
  |by apply other_active; [|apply (untouched q _ k _ (StateKey Active))]
  |by intros st Hst; apply other_idle; [..|apply (untouched q _ k _ (StateKey st))]; try done; destruct st]].

Lemma secure_aside c : (∀ d, secure d → get (redis_key q (LockKey id)) (exec c d).1 = Ok (Some token)) →
  ¬ touches c (PField jobs id) → ¬ touches c (PMember (redis_key q (StateKey Active)) id) →
  (∀ s, idle_state s → ¬ touches c (PMember (redis_key q (StateKey s)) id)) → keeps secure (call c).
Proof.
  intros Hl Hf Ha Hm d Hd. unfold call. split; [by apply Hl|by apply other_field|by apply other_active|].
  intros s Hs. apply other_idle; auto.
Qed.

Lemma secure_record c x : command_key c = jobs → (∀ k f, touches c (PField k f) → f = x) → x ≠ id → keeps secure (call c).
Proof.
  intros Hc Hf Hne. apply secure_aside.
  - intros d Hd. by apply (other_string _ JobsKey).
  - by intros ->%Hf.
  - by apply (untouched q c JobsKey _ (StateKey Active)).
  - intros s _. by apply (untouched q c JobsKey _ (StateKey s)).
Qed.

Lemma secure_hset x v : x ≠ id → keeps secure (call (HSET jobs [(x, v)])).
Proof. apply secure_record; [done|]. intros k f [_ Hf]. set_solver. Qed.

Lemma secure_lock c x : command_key c = redis_key q (LockKey x) → x ≠ id → keeps secure (call c).
Proof.
  intros Hc Hne. apply secure_aside.
  - intros d Hd. apply (other_string _ (LockKey x)); try done. by intros [= ->].
  - by apply (untouched q c (LockKey x) _ JobsKey).
  - by apply (untouched q c (LockKey x) _ (StateKey Active)).
  - intros s _. by apply (untouched q c (LockKey x) _ (StateKey s)).
Qed.

(** A member of a state's set. *)
Lemma secure_member c s x : command_key c = redis_key q (StateKey s) → (∀ k m, touches c (PMember k m) → m = x) → x ≠ id →
  keeps secure (call c).
Proof.
  intros Hc Hm Hne. apply secure_aside.
  - intros d Hd. by apply (other_string _ (StateKey s)).
  - by apply (untouched q c (StateKey s) _ JobsKey).
  - by intros ->%Hm.
  - by intros s' _ ->%Hm.
Qed.

Lemma secure_active d raw job v : secure d → hget jobs id d = Ok (Some raw) → cjson_decode raw = Ok job →
  index job "state" = Ok v → is_text v "active" = true.
Proof.
  intros [_ (raw' & H & job' & Hj & Hs) _ _] Hr Hd Hv. rewrite H in Hr. injection Hr as ->. rewrite Hj in Hd. injection Hd as ->.
  rewrite Hs in Hv. by injection Hv as <-.
Qed.

(** *** Commands on the job itself *)
Lemma secure_rewrite s : active_record s → keeps secure (call (HSET jobs [(id, LString s)])).
Proof.
  intros Ha d Hd. unfold call. destruct (exec _ d) as [d' [r|e]] eqn:E; simpl; [|by apply refused in E as ->].
  replace d' with (exec (HSET jobs [(id, LString s)]) d).1 by (by rewrite E). split; try by_key JobsKey.
  exists s. split; [|done]. rewrite E. by eapply hset_field.
Qed.

Lemma secure_hsetnx v : yields secure (call (HSETNX jobs id v)) (λ r, r = number 0).
Proof.
  split.
  - intros d Hd. pose proof (sec_record _ Hd) as (raw & H & Ha). unfold call. split; try by_key JobsKey.
    exists raw. split; [|done]. by apply hsetnx_present.
  - intros d d' r [_ (raw & H & _) _ _] E. destruct (hsetnx_present _ _ _ v _ H) as [_ Hz]. by apply Hz in E.
Qed.

Lemma secure_lock_again px : keeps secure (call (SET (redis_key q (LockKey id)) token px)).
Proof.
  intros d Hd. unfold call. destruct (exec _ d) as [d' [r|e]] eqn:E; simpl; [|by apply refused in E as ->].
  replace d' with (exec (SET (redis_key q (LockKey id)) token px) d).1 by (by rewrite E).
  split; try by_key (LockKey id). rewrite E. by eapply set_string.
Qed.

Lemma secure_activate score x : keeps secure (call (ZADD (redis_key q (StateKey Active)) score x)).
Proof.
  destruct (decide (x = id)) as [->|Hne]; [|by apply (secure_member _ Active x); [|intros k m [_ ->]|]].
  intros d Hd. unfold call. destruct (exec _ d) as [d' [r|e]] eqn:E; simpl; [|by apply refused in E as ->].
  replace d' with (exec (ZADD (redis_key q (StateKey Active)) score id) d).1 by (by rewrite E).
  split; try by_key (StateKey Active). rewrite E. by eapply zadd_member.
Qed.

Lemma secure_takes_out s c : idle_state s → command_key c = redis_key q (StateKey s) → takes_out c → keeps secure (call c).
Proof.
  intros Hs Hc Hout d Hd. split; [by apply (other_string _ (StateKey s))|..].
  - apply other_field; [done|]. by apply (untouched q c (StateKey s) _ JobsKey).
  - apply other_active; [done|]. apply (untouched q c (StateKey s) _ (StateKey Active)); try done. intros [= ->]. done.
  - intros s' Hs'. apply takes_out_member; [done|]. by apply sec_aside.
Qed.

Lemma secure_apart c : apart q id (command_key c) → keeps secure (call c).
Proof.
  intros Hc. apply secure_aside.
  - intros d Hd. rewrite frame_string; [apply Hd|]. intros Ht%touches_key. by apply (Hc (LockKey id)); [|intros ? [= ->]|].
  - intros Ht%touches_key. by apply (Hc JobsKey).
  - intros Ht%touches_key. by apply (Hc (StateKey Active)).
  - intros s Hs Ht%touches_key. by apply (Hc (StateKey s)).
Qed.

Lemma secure_guards : Guards q id secure (λ x, x ≠ id) (λ _, True) (λ x t, ¬ (x = id ∧ t = token)).
Proof.
  split.
  - apply secure_apart.
  - intros x s. apply secure_hset.
  - intros x Hx. apply (secure_record _ x); [done| |done]. by intros k f [_ ->].
  - intros d x raw t t' s Hd Hr Ht Hsame He. destruct (decide (x = id)) as [->|Hne]; [|by apply secure_hset].
    destruct (sec_record _ Hd) as (raw' & H & job & Hj & Hs). rewrite H in Hr. injection Hr as ->. rewrite Hj in Ht. injection Ht as ->.
    destruct (cjson_texts _ _ He) as (u & Hu & Hkeep). apply secure_rewrite. exists u. split; [done|]. by apply Hkeep, Hsame.
  - intros x v. destruct (decide (x = id)) as [->|Hne].
    + eapply yields_weaken; [apply secure_hsetnx|]. by intros r -> Hr.
    + split; [|done]. apply (secure_record _ x); [done| |done]. by intros k f [_ ->].
  - intros s score x Hs Hx. apply (secure_member _ s x); [done| |done]. by intros k m [_ ->].
  - apply secure_activate.
  - intros x Hx. apply (secure_member _ Active x); [done| |done]. by intros k m [_ ->].
  - intros s x Hs. split; [by apply (secure_takes_out s)|]. intros d d' r Hd E Hr ->. apply Hr.
    eapply zrem_absent; [|exact E]. by apply sec_aside.
  - apply secure_takes_out.
  - intros x t px Hx _. by apply (secure_lock _ x).
  - intros d x t px Hd Ht. destruct (decide (x = id)) as [->|Hne]; [|by apply (secure_lock _ x)].
    rewrite (sec_lock _ Hd) in Ht. injection Ht as <-. apply secure_lock_again.
  - intros x Hx. by apply (secure_lock _ x).
  - intros d x [_ (raw & H & _) _ _] Hr ->. by rewrite H in Hr.
  - intros d x [_ (raw & H & _) _ _] Hx ->. apply hexists_field in H. by rewrite H in Hx.
  - intros d x raw t v Hd Hr Ht Hv Hn ->. by rewrite (secure_active _ _ _ _ Hd Hr Ht Hv) in Hn.
  - intros d x Hd Hx ->. apply sec_lock, exists_string in Hd. by rewrite Hd in Hx.
  - intros d x t Hd Ht Ho ->. rewrite (sec_lock _ Hd) in Ht. injection Ht as <-. by apply Ho.
  - intros d s x Hd Hs Hx ->. by apply Hx, sec_aside.
  - intros d x Hd Hx ->. destruct (sec_listed _ Hd) as [score H]. by rewrite H in Hx.
  - intros d t Hd Ht Hne. destruct (sec_listed _ Hd) as [score H]. apply key_type_member in H. rewrite Ht in H. by injection H.
Qed.

(** Obliteration that is not forced finds the job active and is refused. *)
Lemma secure_obliterate fuel d : secure d → secure (obliterate q fuel false d).1.
Proof.
  intros Hd. unfold obliterate. rewrite query_state. unfold eval_call, OBLITERATE_SCRIPT.
  assert (keeps secure (do_ (HSET (at_ (KEYS_of q (obliterate_call q false)) 1) [("paused", number 1)]))) as Hp.
  { eapply (setting_keeps _ _ _ _ _ _ secure_guards _ MetaKey); [reflexivity|intros []]. }
  revert d Hd. apply keeps_bind; [exact Hp|]. intros _. apply keeps_bind_read. intros active d Hd Ha.
  change (at_ (KEYS_of q (obliterate_call q false)) 2) with (redis_key q (StateKey Active)) in Ha.
  destruct (sec_listed d Hd) as [score Hs]. pose proof (zcard_member _ _ _ _ _ Hs Ha).
  rewrite (proj2 (Z.ltb_lt 0 active)) by done. apply keeps_ret.
Qed.

(** What may end the lease: a report with its token, the expiry of its lock
    and a forced obliteration of the queue. *)
Definition ends_lease (c : RedisCall) : Prop :=
  reports id token c ∨
  match c with KeyExpires (ExpiringLock i) => i = id | CallObliterate _ force => force = true | _ => False end.

Lemma secure_deletes c d : deletes c → ¬ ends_lease c → secure d → secure (run_call q d c).
Proof.
  intros Hc Hn Hd. destruct c as [| | | |fuel force|k]; try done; cbn [run_call].
  - destruct force; [by destruct Hn; right|by apply secure_obliterate].
  - destruct k as [i|i|]; cbn [expiring_key].
    + apply (secure_lock (DEL (redis_key q (LockKey i))) i); [done| |done]. intros ->. by apply Hn; right.
    + apply (secure_apart (DEL (redis_key q (DeduplicationKey i)))); [|done]. apply apart_key. by intros [].
    + apply (secure_apart (DEL (redis_key q ClaimRateLimitKey))); [|done]. apply apart_key. by intros [].
Qed.

Lemma secure_calls calls d : Forall (λ c, sized c ∧ ¬ ends_lease c) calls → secure d → secure (foldl (run_call q) d calls).
Proof.
  intros Hc Hd. eapply calls_keep; [apply secure_guards|done| |done]. eapply Forall_impl; [exact Hc|].
  intros c [Hs Hn]. split_and!; [done..| |].
  - intros i t Hr [-> ->]. by apply Hn; left.
  - intros Hdel d0 Hd0. by apply secure_deletes.
Qed.

(** C8: a lease in Redis survives the traffic of its queue.  While a job is
    held, its lock has the token, its record says active, it is listed as active
    and under no other state.  Whatever happens at the server, that stays so,
    even where scripts stop halfway with an error: submissions of jobs, series
    and flows, claims, renewals, completions, failures, delays, releases,
    recoveries, promotions, reschedulings, retries, edits, cleanings, drains,
    removals of jobs, of children, of series and of orphaned records, listings,
    statistics, changes of settings, trimmed events, obliterations that are not
    forced, keys that expire.  The three exceptions are a call that gives the job
    back with its token, the expiry of the job's own lock, and a forced
    obliteration.  The record may be edited meanwhile, and still says active. *)
Theorem redis_leases_survive calls d :
  secure d → Forall (λ c, sized c ∧ ¬ ends_lease c) calls → secure (foldl (run_call q) d calls).
Proof. intros Hd Hc. by apply secure_calls. Qed.

(** ** Methods of several commands

    Other clients act between their commands. *)
Context `{!Clock D, !ClockLaws D}.

Inductive Errand : Type :=
| GetRepeat (repeat_key : string)
| ListRepeats (fuel : nat)
| RemoveRepeat (repeat_key : string)
| RemoveOrphaned (fuel : nat) (count limit : Z)
| ClaimBlocking (rate_limit : option JobRateLimit) (worker_id : string) (lease_for block_for : Duration) (tokens : list string).

Definition runs_errand (others : D → D → Prop) (e : Errand) (d d' : D) : Prop :=
  match e with
  | GetRepeat k => ∃ r, runs others (get_repeat q k) d d' r
  | ListRepeats fuel => ∃ r, runs others (list_repeats q fuel) d d' r
  | RemoveRepeat k => ∃ r, runs others (remove_repeat q k) d d' r
  | RemoveOrphaned fuel count limit => ∃ r, runs others (remove_orphaned_jobs q fuel count limit) d d' r
  | ClaimBlocking rate worker lease block tokens => ∃ r, runs others (claim_next_blocking q rate worker lease block tokens) d d' r
  end.

(** Calls of other clients that do not give the job back. *)
Definition others (d d' : D) : Prop :=
  ∃ calls, Forall (λ c, sized c ∧ ¬ ends_lease c) calls ∧ d' = foldl (run_call q) d calls.

Lemma others_keep d d' : others d d' → secure d → secure d'.
Proof. intros (calls & Hc & ->) Hd. by apply secure_calls. Qed.

Lemma secure_same (f : D → D) : (∀ k i d, hget k i (f d) = hget k i d) → (∀ k d, get k (f d) = get k d) →
  (∀ s i d, zscore (redis_key q (StateKey s)) i (f d) = zscore (redis_key q (StateKey s)) i d) → ∀ d, secure d → secure (f d).
Proof.
  intros Hh Hg Hz d [H1 (raw & H2 & Ha) (score & H3) H4]. split; [by rewrite Hg|exists raw; by rewrite Hh|exists score; by rewrite Hz|].
  intros s Hs. rewrite Hz. by apply H4.
Qed.

(** The regions are calls of their own. *)
Lemma region_keeps u d : secure d → secure (run_upkeep q d u).
Proof. by apply (upkeep_keeps q id secure _ _ _ secure_guards). Qed.

Ltac region := intros; first
  [by apply (region_keeps (UpClearOwner _ _))|by apply (region_keeps (UpClearOwnerKey _ _))
  |by apply (region_keeps (UpRestoreOwner _ _))|by apply (region_keeps (UpForgetScheduler _))
  |by apply (region_keeps (UpRemove _ _))|by apply (region_keeps (UpActiveRateLimitTtl _))].

Ltac in_order := cbn zeta; repeat first [done|progress intros|apply orderly_continue|case_match|apply orderly_send; region].

Lemma fetch_orderly i : orderly secure (fetch_job q i).
Proof. unfold fetch_job. in_order. Qed.

Lemma valid_orderly k i : orderly secure (load_valid_repeat_entry q k i).
Proof. unfold load_valid_repeat_entry. apply orderly_continue; [apply fetch_orderly|done]. Qed.

Lemma scheduled_orderly k o : orderly secure (load_scheduled_entry q k o).
Proof. unfold load_scheduled_entry. destruct o; [apply orderly_continue; [apply valid_orderly|]|]; in_order. Qed.

Lemma entry_orderly k : orderly secure (load_repeat_entry q k).
Proof.
  unfold load_repeat_entry. case_match; [done|]. apply orderly_continue; [done|]. intros o. apply orderly_continue; [done|]. intros s.
  destruct o as [o|]; [|apply scheduled_orderly]. apply orderly_continue; [apply valid_orderly|]. intros [e|]; [done|].
  case_match; in_order. apply scheduled_orderly.
Qed.

Lemma entries_orderly keys : ∀ seen, orderly secure (load_entries q keys seen).
Proof.
  induction keys as [|k keys IH]; intros seen; cbn [load_entries]; [done|]. case_match; [apply IH|].
  apply orderly_continue; [apply entry_orderly|]. intros e. by apply orderly_continue.
Qed.

Lemma pages_orderly fuel : ∀ cursor seen, orderly secure (scan_entries q fuel cursor seen).
Proof.
  induction fuel as [|fuel IH]; intros cursor seen; cbn [scan_entries]; [done|]. apply orderly_continue; [done|]. intros page.
  apply orderly_continue; [apply entries_orderly|]. intros found. case_match; [done|]. by apply orderly_continue.
Qed.

Lemma remove_repeat_orderly k : orderly secure (remove_repeat q k).
Proof.
  unfold remove_repeat. case_match; [done|]. apply orderly_continue; [done|]. intros [o|]; [in_order|].
  apply orderly_continue; [done|]. intros [s|]; unfold remove_scheduled; cbn zeta; [|in_order].
  apply orderly_continue; [apply fetch_orderly|]. in_order.
Qed.

Lemma orphans_orderly fuel scan_count limit : ∀ cursor total, orderly secure (remove_orphaned_rounds q fuel scan_count limit cursor total).
Proof.
  induction fuel as [|fuel IH]; intros cursor total; cbn [remove_orphaned_rounds]; [done|]. cbn zeta. case_match; [done|].
  apply orderly_continue.
  - apply orderly_send. intros d Hd. set (n := if limit =? 0 then 0 else _).
    change (secure (run_upkeep q d (UpRemoveOrphans cursor scan_count n))). by eapply upkeep_keeps; [apply secure_guards|].
  - intros [next removed]. destruct (_ || _); [done|apply IH].
Qed.

Lemma sleep_keeps w d : secure d → secure (sleep w d).
Proof. apply secure_same; intros; [apply sleep_hget|apply sleep_get|apply sleep_zscore]. Qed.

Lemma pop_keeps w d : secure d → secure (pop_marker q w d).1.
Proof.
  intros Hd. replace (pop_marker q w d).1 with (bzpopmin (redis_key q MarkerKey) (RateLimit.as_secs_f64 w) d).1
    by (unfold pop_marker; by destruct (bzpopmin _ _ _)).
  revert d Hd. apply secure_same; intros; [apply pop_hget|apply pop_get|apply pop_zscore]. by intros [=]%(key_inj q).
Qed.

Lemma claiming_keeps rate worker lease now t d : secure d → secure (claim_next_with_conn q rate worker lease now t d).1.
Proof.
  intros Hd. change (secure (run_lease_op q d (OpClaimRedis rate worker lease now t))).
  eapply lease_op_keeps; [apply secure_guards|done| |done]. by intros i t' [].
Qed.

Lemma claim_orderly rate worker lease block deadline tokens :
  ∀ first until, orderly secure (claim_rounds q rate worker lease block deadline tokens first until).
Proof.
  induction tokens as [|t tokens IH]; intros first until; cbn [claim_rounds]; [done|]. cbn zeta.
  set (attempt := continue_with (send _) _). assert (orderly secure attempt) as Ha.
  { subst attempt. apply orderly_continue; [apply orderly_send; intros; by apply claiming_keeps|]. intros [job|]; [done|].
    apply orderly_continue; [done|]. intros now. destruct (remaining_until _ _) as [remaining|]; [|done]. case_match; [done|].
    apply orderly_continue; [apply orderly_send; region|]. intros ttl. case_match.
    - case_match; [apply IH|]. apply orderly_continue; [apply orderly_send; intros; by apply sleep_keeps|]. intros _. apply IH.
    - apply orderly_continue; [done|]. intros now'. cbn zeta. case_match; [apply IH|].
      apply orderly_continue; [apply orderly_send; intros; by apply pop_keeps|]. intros m. apply IH. }
  destruct first; [done|]. apply orderly_continue; [done|]. intros now. by case_match.
Qed.

(** Not even among the commands of other clients that read, list and remove
    repeat series, remove orphaned records in rounds or wait for a job is a
    lease lost. *)
Theorem redis_leases_survive_errands e d d' : runs_errand others e d d' → secure d → secure d'.
Proof.
  assert (∀ A (p : Client D A) r, orderly secure p → runs others p d d' r → secure d → secure d') as H.
  { intros A p r Hp. apply orderly_runs; [apply others_keep|done]. }
  destruct e; cbn [runs_errand]; intros [r Hr]; revert Hr; apply H.
  - apply entry_orderly.
  - unfold list_repeats. apply orderly_continue; [done|]. intros keys. apply orderly_continue; [apply entries_orderly|]. intros found.
    apply orderly_continue; [apply pages_orderly|done].
  - apply remove_repeat_orderly.
  - apply orphans_orderly.
  - unfold claim_next_blocking. apply orderly_continue; [done|]. intros start. apply claim_orderly.
Qed.
End held.
