(* ===== verification/RedisReportRules.v ===== *)
(** * Reports and recovery in Redis ([src/job/redis.rs])

    A completion, a failure, a delay or a release is refused without the token
    that holds the job, the token is accepted once, and a failed attempt with
    retries left comes back at the time its policy gives.  A stalled job waits
    again, and the parent of one that stalled out can be lost. *)
From S2P Require Import Prelude Ordering Text Float64 External Retry JobTypes JobStore JobDedup JobCore JobQueries Backend FloatOrder LuaDates RedisKeys RedisReplies RedisCalls RedisLua RedisLeases RedisLeaseRules RedisFinish RedisReports RedisMoves RedisGuards RedisKept RedisSurvival.
Local Open Scope Z_scope.

(** ** Reports *)
Section reports.
Context {X : Ext} {R : RedisExt} {L : LuaLibs} {D : Type} `{!Redis D, !RedisLaws D}.
Variable q : RedisQueueName.

(** *** A token that does not hold a job *)
Section unheld.
Variables (id token : string).

Definition unheld (d : D) : Prop := get (redis_key q (LockKey id)) d ≠ Ok (Some token).

Lemma unheld_other c k : command_key c = redis_key q k → parent_of k = None → k ≠ LockKey id → keeps unheld (call c).
Proof. intros Hc Hp Hk d Hd. unfold unheld, call. rewrite frame_string; [done|]. by apply (untouched q c k _ (LockKey id)). Qed.

Lemma unheld_del key : keeps unheld (call (DEL key)).
Proof.
  intros d Hd. unfold call. destruct (decide (key = redis_key q (LockKey id))) as [->|Hne].
  - destruct (exec _ d) as [d' [r|e]] eqn:E; simpl; [|by apply refused in E as ->].
    apply del_string in E. unfold unheld. by rewrite E.
  - unfold unheld. by rewrite frame_string.
Qed.

Lemma unheld_set x t px : (x = id → t ≠ token) → keeps unheld (call (SET (redis_key q (LockKey x)) t px)).
Proof.
  intros Ht. destruct (decide (x = id)) as [->|Hne]; [|apply (unheld_other _ (LockKey x)); [done..|congruence]].
  intros d Hd. unfold call. destruct (exec _ d) as [d' [r|e]] eqn:E; simpl; [|by apply refused in E as ->].
  apply set_string in E. unfold unheld. rewrite E. intros [= ->]. by apply Ht.
Qed.

(** Nothing but a claim that draws the token gives it the job. *)
Lemma unheld_guards : Guards q id unheld (λ _, True) (λ t, t ≠ token) (λ _ _, True).
Proof.
  split; intros; try done; try (by apply (unheld_other _ JobsKey)); try (by apply (unheld_other _ (StateKey Active))).
  - intros d Hd. unfold unheld, call. rewrite frame_string; [done|]. intros Ht%touches_key. simpl in Ht.
    by apply (H (LockKey id)); [|intros ? [= ->]|].
  - split; [|done]. by apply (unheld_other _ JobsKey).
  - by apply (unheld_other _ (StateKey s)).
  - split; [|done]. by apply (unheld_other _ (StateKey s)).
  - by apply (unheld_other _ (StateKey s)).
  - by apply unheld_set.
  - apply unheld_set. intros -> ->. done.
  - apply unheld_del.
Qed.

(** Whatever happens, deletions included. *)
Lemma calls_unheld `{!LuaLaws L} calls d : Forall (λ c, sized c ∧ ¬ draws token c) calls → unheld d → unheld (foldl (run_call q) d calls).
Proof.
  intros Hc Hd. eapply calls_keep; [apply unheld_guards|done| |done]. eapply Forall_impl; [exact Hc|].
  intros c [Hs Hn]. split_and!; [done| |done|].
  - intros t Ht ->. done.
  - intros Hdel d0 Hd0. destruct c as [| | | |fuel force|k]; try done; cbn [run_call].
    + apply obliterate_keeps; [intros key; apply keeps_do, unheld_del| |done].
      intros fs. by apply keeps_do, (unheld_other _ MetaKey).
    + by apply unheld_del.
Qed.
End unheld.

(** *** Refusals *)
Definition refuses (result : list string) : Prop := ∀ job_id action job, decode_transition_result result job_id action ≠ Ok job.

Lemma refuses_single s : refuses [s].
Proof. intros job_id action job. unfold decode_transition_result. repeat case_match; done. Qed.
Lemma refuses_state s : refuses ["state"; s].
Proof. by intros job_id action job. Qed.

Lemma read_run {A} (f : D → outcome string A) d d' a : read f d = (d', Ok a) → d' = d ∧ f d = Ok a.
Proof. by intros [= <- H]. Qed.

(** What the guards of the scripts let pass. *)
Lemma leased_run jobs lock job_id token d d' x : leased_job jobs lock job_id token d = (d', Ok x) →
  d' = d ∧ match x with inl _ => get lock d = Ok (Some token) | inr result => refuses result end.
Proof.
  unfold leased_job. intros (d1 & raw & [-> _]%read_run & E)%bind_run.
  destruct raw as [raw|]; [|injection E as <- <-; split; [done|apply refuses_single]].
  apply bind_run in E as (d2 & job & [-> _]%value_run & E). apply bind_run in E as (d3 & state & [-> _]%value_run & E).
  destruct (negb (is_text state "active")).
  { apply bind_run in E as (d4 & s & [-> _]%value_run & E). injection E as <- <-. split; [done|apply refuses_state]. }
  apply bind_run in E as (d4 & t & [-> Hl]%read_run & E). destruct t as [t|]; injection E as <- <-; (split; [done|]).
  - destruct (String.eqb_spec t token) as [->|]; [done|apply refuses_single].
  - apply refuses_single.
Qed.

Lemma owned_run jobs active lock stalled job_id token d d' x :
  owned_job jobs active lock stalled job_id token d = (d', Ok x) →
  match x with inl _ => get lock d = Ok (Some token) | inr result => refuses result end.
Proof.
  unfold owned_job. intros (d1 & raw & [-> _]%read_run & E)%bind_run. destruct raw as [raw|].
  2: { repeat (apply bind_run in E as (? & ? & _ & E)). injection E as _ <-. apply refuses_single. }
  apply bind_run in E as (d2 & job & [-> _]%value_run & E). apply bind_run in E as (d3 & state & [-> _]%value_run & E).
  destruct (negb (is_text state "active")).
  { repeat (apply bind_run in E as (? & ? & _ & E)). injection E as _ <-. apply refuses_state. }
  apply bind_run in E as (d4 & t & [-> Hl]%read_run & E).
  destruct t as [t|]; [|injection E as _ <-; apply refuses_single].
  destruct (String.eqb_spec t token) as [->|]; [|injection E as _ <-; apply refuses_single].
  apply bind_run in E as (d5 & removed & _ & E).
  destruct (match removed with LNumber (S754_zero _) => true | _ => false end); [injection E as _ <-; apply refuses_state|].
  repeat (apply bind_run in E as (? & ? & _ & E)). by injection E as _ <-.
Qed.

(** *** Accepted reports *)
Lemma query_run {A B} (m : Script D A) (k : A → Reply B) d d' b : query m k d = (d', Ok b) → ∃ a, m d = (d', Ok a) ∧ k a = Ok b.
Proof. unfold query. destruct (m d) as [d1 [a|e]]; [|done]. intros [= <- H]. by exists a. Qed.

Lemma complete_accepted job_id token value now uuid d d' job : complete_job q job_id token value now uuid d = (d', Ok job) →
  ∃ value remove next encoded result,
    eval_call q COMPLETE_SCRIPT (complete_job_call job_id token now value remove next encoded) d = (d', Ok result) ∧
    decode_transition_result result job_id "complete" = Ok job.
Proof.
  unfold complete_job, after. destruct (require_job q job_id d) as [active|e]; [|done]. cbn [try_bind].
  destruct (lift (next_repeat_job active now uuid)) as [next|e]; [|done]. cbn [try_bind].
  destruct (parsed value _) as [v|e]; [|done]. cbn [try_bind].
  destruct (match next with Some n => lift (encode_job n) | None => Ok EmptyString end) as [encoded|e]; [|done]. cbn [try_bind].
  intros (result & H1 & H2)%query_run. by repeat eexists.
Qed.

Lemma fail_accepted job_id token error now allow d d' job : fail_job_with_retry_control q job_id token error now allow d = (d', Ok job) →
  ∃ retrying scheduled remove result,
    eval_call q FAIL_SCRIPT (fail_job_call job_id token now error retrying scheduled remove) d = (d', Ok result) ∧
    decode_transition_result result job_id "fail" = Ok job.
Proof.
  unfold fail_job_with_retry_control, after. destruct (require_job q job_id d) as [active|e]; [|done].
  cbn zeta. intros (result & H1 & H2)%query_run. by repeat eexists.
Qed.

Lemma end_lease_run id token d d' u :
  end_lease (redis_key q (LockKey id)) (redis_key q StalledKey) (redis_key q (StateKey Active)) id d = (d', Ok u) → unheld id token d'.
Proof.
  unfold end_lease. intros (d1 & u1 & [r1 E1]%do_run & E)%bind_run.
  refine (keeps_run (unheld id token) _ _ _ _ _ E _).
  - keeps_all; [by apply (unheld_other id token _ StalledKey)|by apply (unheld_other id token _ (StateKey Active))].
  - unfold unheld. apply del_string in E1. by rewrite E1.
Qed.

Lemma owned_released id token d d' job :
  owned_job (redis_key q JobsKey) (redis_key q (StateKey Active)) (redis_key q (LockKey id)) (redis_key q StalledKey) id token d
  = (d', Ok (inl job)) → unheld id token d'.
Proof.
  unfold owned_job. intros (d1 & raw & _ & E)%bind_run.
  destruct raw as [raw|]; [|repeat (apply bind_run in E as (? & ? & _ & E)); done].
  apply bind_run in E as (d2 & ? & _ & E). apply bind_run in E as (d3 & state & _ & E).
  destruct (negb (is_text state "active")); [repeat (apply bind_run in E as (? & ? & _ & E)); done|].
  apply bind_run in E as (d4 & t & _ & E). destruct t as [t|]; [|done]. destruct (negb (String.eqb t token)); [done|].
  apply bind_run in E as (d5 & removed & _ & E).
  destruct (match removed with LNumber (S754_zero _) => true | _ => false end); [done|].
  apply bind_run in E as (d6 & u6 & [r6 E6]%do_run & E).
  refine (keeps_run (unheld id token) _ _ _ _ _ E _).
  - keeps_all. by apply (unheld_other id token _ StalledKey).
  - unfold unheld. apply del_string in E6. by rewrite E6.
Qed.

Lemma report_accepted r id token now d d' job : send_report q r id token now d = (d', Ok job) →
  get (redis_key q (LockKey id)) d = Ok (Some token) ∧ unheld id token d'.
Proof.
  destruct r; cbn [send_report].
  - intros (v & remove & next & encoded & result & E & Hok)%complete_accepted. unfold eval_call, COMPLETE_SCRIPT in E.
    apply bind_run in E as (d1 & [leased|refusal] & [-> Hl]%leased_run & E); [|injection E as <- <-; by apply Hl in Hok].
    split; [exact Hl|]. apply bind_run in E as (d2 & u & _ & E). destruct u; [injection E as <- <-; by apply refuses_single in Hok|].
    apply bind_run in E as (d3 & u3 & E3 & E). apply (end_lease_run id token) in E3.
    refine (keeps_run (unheld id token) _ _ _ _ _ E E3). eapply kept_record_completed; [apply unheld_guards|apply complete_tables|done..].
  - intros (retrying & scheduled & remove & result & E & Hok)%fail_accepted. unfold eval_call, FAIL_SCRIPT in E.
    apply bind_run in E as (d1 & [leased|refusal] & [-> Hl]%leased_run & E); [|injection E as <- <-; by apply Hl in Hok].
    split; [exact Hl|]. apply bind_run in E as (d3 & u3 & E3 & E). apply (end_lease_run id token) in E3.
    refine (keeps_run (unheld id token) _ _ _ _ _ E E3). eapply kept_record_failed; [apply unheld_guards|apply fail_tables|done].
  - intros (result & E & Hok)%query_run. unfold eval_call, DELAY_ACTIVE_JOB_SCRIPT in E.
    apply bind_run in E as (d1 & [owned|refusal] & Ho & E); pose proof (owned_run _ _ _ _ _ _ _ _ _ Ho) as Hl;
      [|injection E as <- <-; by apply Hl in Hok].
    split; [exact Hl|]. apply owned_released in Ho.
    refine (keeps_run (unheld id token) _ _ _ _ _ E Ho). apply (kept_delay_owned q id _ _ _ _ (unheld_guards id token)). done.
  - intros (result & E & Hok)%query_run. unfold eval_call, RELEASE_ACTIVE_JOB_SCRIPT in E.
    apply bind_run in E as (d1 & [owned|refusal] & Ho & E); pose proof (owned_run _ _ _ _ _ _ _ _ _ Ho) as Hl;
      [|injection E as <- <-; by apply Hl in Hok].
    split; [exact Hl|]. apply owned_released in Ho.
    refine (keeps_run (unheld id token) _ _ _ _ _ E Ho). apply (kept_release_owned q id _ _ _ _ (unheld_guards id token)). done.
Qed.

(** C32: in Redis a lease is reported once.  A report that is accepted had
    the lock of its job; after it, whatever calls follow, as long as no claim
    draws the same token again, every further report with that token is
    refused. *)
Theorem redis_report_once `{!LuaLaws L} r r' id token now now' d d' job calls :
  send_report q r id token now d = (d', Ok job) → Forall (λ c, sized c ∧ ¬ draws token c) calls →
  get (redis_key q (LockKey id)) d = Ok (Some token) ∧
  ∃ e, (send_report q r' id token now' (foldl (run_call q) d' calls)).2 = Err e.
Proof.
  intros H Hc. apply report_accepted in H as [Hl Hd]. split; [done|].
  apply (calls_unheld id token calls) in Hd; [|done].
  destruct (send_report q r' id token now' (foldl (run_call q) d' calls)) as [d2 [j|e]] eqn:E; [|by exists e].
  apply report_accepted in E as [Hl' _]. by destruct Hd.
Qed.

(** *** Refused reports *)
Definition refusal (lock : option string) : list string := [match lock with None => "lock_missing" | Some _ => "lock_mismatch" end].

Definition conflict (lock : option string) (id : string) : LaneError :=
  JobLeaseConflict (match lock with
                    | None => "missing lock for job " +:+ id
                    | Some _ => "lock token does not own job " +:+ id
                    end).

Lemma refusal_decodes lock id action : decode_transition_result (refusal lock) id action = fail (conflict lock id).
Proof. by destruct lock. Qed.

Section refused.
Variables (id token raw : string) (lock : option string) (d : D).
Hypothesis record : hget (redis_key q JobsKey) id d = Ok (Some raw).
Hypothesis active : active_record raw.
Hypothesis locked : get (redis_key q (LockKey id)) d = Ok lock.
Hypothesis other : lock ≠ Some token.

Lemma leased_refused : leased_job (redis_key q JobsKey) (redis_key q (LockKey id)) id token d = (d, Ok (inr (refusal lock))).
Proof.
  unfold leased_job, bind, read. rewrite record. destruct active as (job & Hj & Hs).
  unfold decode, getf, value, ret. rewrite Hj, Hs. change (negb (is_text (LString "active") "active")) with false.
  cbv beta iota. rewrite locked. destruct lock as [t|]; [|done]. by destruct (String.eqb_spec t token) as [->|].
Qed.

Lemma owned_refused :
  owned_job (redis_key q JobsKey) (redis_key q (StateKey Active)) (redis_key q (LockKey id)) (redis_key q StalledKey) id token d
  = (d, Ok (inr (refusal lock))).
Proof.
  unfold owned_job, bind, read. rewrite record. destruct active as (job & Hj & Hs).
  unfold decode, getf, value, ret. rewrite Hj, Hs. change (negb (is_text (LString "active") "active")) with false.
  cbv beta iota. rewrite locked. destruct lock as [t|]; [|done]. by destruct (String.eqb_spec t token) as [->|].
Qed.
End refused.

(** In Redis only the holder of a lease can report.  While a job is
    active, a completion, a failure, a delay or a release with another token,
    or without any lock, changes nothing at all and is told so: the lock is
    missing, or it is not the caller's. *)
Theorem redis_lease_holder_only r id token raw lock job now d :
  hget (redis_key q JobsKey) id d = Ok (Some raw) → active_record raw → get (redis_key q (LockKey id)) d = Ok lock →
  lock ≠ Some token → require_job q id d = Ok job → opt_repeat (job_options job) = None →
  (∀ value uuid, r = ReportComplete value uuid → ∃ text, value = Ok text) →
  send_report q r id token now d = (d, fail (conflict lock id)).
Proof.
  intros Hr Ha Hl Hne Hj Hrep Hv. pose proof (leased_refused id token raw lock d Hr Ha Hl Hne) as Href.
  pose proof (owned_refused id token raw lock d Hr Ha Hl Hne) as Hown.
  destruct r as [value uuid|error allow|delay text|]; cbn [send_report].
  - destruct (Hv _ _ eq_refl) as [v ->]. unfold complete_job, after. rewrite Hj. cbn [try_bind].
    unfold next_repeat_job. rewrite Hrep. cbn [lift try_bind parsed].
    unfold query, eval_call, COMPLETE_SCRIPT, bind at 1. change (leased_job _ _ _ _ d) with
      (leased_job (redis_key q JobsKey) (redis_key q (LockKey id)) id token d). rewrite Href. unfold ret. by rewrite refusal_decodes.
  - unfold fail_job_with_retry_control, after. rewrite Hj. cbn zeta. unfold query, eval_call, FAIL_SCRIPT, bind at 1.
    change (leased_job _ _ _ _ d) with (leased_job (redis_key q JobsKey) (redis_key q (LockKey id)) id token d).
    rewrite Href. unfold ret. by rewrite refusal_decodes.
  - unfold delay_active_job, query, eval_call, DELAY_ACTIVE_JOB_SCRIPT, bind at 1.
    change (owned_job _ _ _ _ _ _ d) with (owned_job (redis_key q JobsKey) (redis_key q (StateKey Active)) (redis_key q (LockKey id))
      (redis_key q StalledKey) id token d). rewrite Hown. unfold ret. by rewrite refusal_decodes.
  - unfold release_active_job, query, eval_call, RELEASE_ACTIVE_JOB_SCRIPT, bind at 1.
    change (owned_job _ _ _ _ _ _ d) with (owned_job (redis_key q JobsKey) (redis_key q (StateKey Active)) (redis_key q (LockKey id))
      (redis_key q StalledKey) id token d). rewrite Hown. unfold ret. by rewrite refusal_decodes.
Qed.
End reports.

(** ** A failed attempt *)

Lemma set_fields_at {D} l1 k v l2 t t' (d d' : D) :
  set_fields (l1 ++ (k, v) :: l2) t d = (d', Ok t') → k ∉ l2.*1 → index t' k = Ok v.
Proof.
  revert t d. induction l1 as [|[k1 v1] l1 IH]; intros t d; [apply set_fields_first|].
  simpl. intros (d1 & t1 & _ & E)%bind_run Hk. by eapply IH.
Qed.

Section attempts.
Context {X : Ext} {R : RedisExt} {L : LuaLibs} {D : Type} `{!Redis D, !RedisLaws D, !LuaLaws L}.
Variable q : RedisQueueName.

(** The record has this text in a field. *)
Definition record_says (raw field text : string) : Prop :=
  ∃ job, cjson_decode raw = Ok job ∧ index job field = Ok (LString text).

(** The lease is over; the job waits among the delayed ones. *)
Definition delayed_again (id updated : string) (d : D) : Prop :=
  get (redis_key q (LockKey id)) d = Ok None ∧ zscore (redis_key q (StateKey Active)) id d = Ok None ∧
  hget (redis_key q JobsKey) id d = Ok (Some updated) ∧ ∃ s, zscore (redis_key q (StateKey Delayed)) id d = Ok (Some s).

Lemma delayed_auxiliary id updated c k : command_key c = redis_key q k → auxiliary k → keeps (delayed_again id updated) (call c).
Proof.
  intros Hc Hk d (Hl & Ha & Hj & Hd). unfold call.
  split_and!; [rewrite frame_string|rewrite frame_member|rewrite frame_field|rewrite frame_member]; try done;
    [apply (untouched q c k _ (LockKey id))|apply (untouched q c k _ (StateKey Active))
    |apply (untouched q c k _ JobsKey)|apply (untouched q c k _ (StateKey Delayed))]; try done; by destruct k.
Qed.

Lemma end_lease_clears id d d' u :
  end_lease (redis_key q (LockKey id)) (redis_key q StalledKey) (redis_key q (StateKey Active)) id d = (d', Ok u) →
  get (redis_key q (LockKey id)) d' = Ok None ∧ zscore (redis_key q (StateKey Active)) id d' = Ok None.
Proof.
  unfold end_lease. intros (d1 & u1 & [r1 E1]%do_run & E)%bind_run. apply bind_run in E as (d2 & u2 & [r2 E2]%do_run & [r3 E3]%do_run).
  split; [|by eapply zrem_member].
  replace d' with (exec (ZREM (redis_key q (StateKey Active)) id) d2).1 by (by rewrite E3).
  rewrite frame_string by (by apply (untouched q _ (StateKey Active) _ (LockKey id))).
  replace d2 with (exec (SREM (redis_key q StalledKey) id) d1).1 by (by rewrite E2).
  rewrite frame_string by (by apply (untouched q _ StalledKey _ (LockKey id))). by eapply del_string.
Qed.

Lemma retried id token now error scheduled remove job d d' result :
  let c := fail_job_call id token now error true scheduled remove in
  record_failed (KEYS_of q c) (ARGV_of q c) job d = (d', Ok result) →
  get (redis_key q (LockKey id)) d = Ok None → zscore (redis_key q (StateKey Active)) id d = Ok None →
  ∃ updated, result = ["ok"; updated] ∧ delayed_again id updated d' ∧ record_says updated "state" "delayed" ∧
    record_says updated "scheduled_at" (to_rfc3339 scheduled) ∧ record_says updated "failed_reason" error.
Proof.
  cbn zeta. intros E Hl Ha. unfold record_failed in E. apply bind_run in E as (d0 & job1 & E1 & E).
  change (String.eqb (at_ (ARGV_of q _) 5) "1") with true in E. cbv iota in E. unfold retry_leased in E. cbn zeta in E.
  apply bind_run in E as (d1 & job2 & E2 & E). apply bind_run in E as (d2 & updated & E3 & E).
  apply bind_run in E as (d3 & u3 & [r3 E4]%do_run & E). apply bind_run in E as (d4 & u4 & [r4 E5]%do_run & E).
  assert (d0 = d ∧ d1 = d ∧ d2 = d) as (-> & -> & ->).
  { pose proof E1 as H1. apply (set_fields_other _ _ _ "none") in H1 as [-> _]; [|cbn; set_solver].
    pose proof E2 as H2. apply (set_fields_other _ _ _ "none") in H2 as [-> _]; [|cbn; set_solver].
    apply value_run in E3 as [-> _]. done. }
  assert (delayed_again id updated d4) as H4.
  { unfold delayed_again. change (fa_jobs _) with (redis_key q JobsKey) in E4. change (fa_delayed _) with (redis_key q (StateKey Delayed)) in E5.
    change (at_ (ARGV_of q _) 1) with id in E4, E5.
    split_and!; [| | |by eapply zadd_member];
      (replace d4 with (exec (ZADD (redis_key q (StateKey Delayed)) (LString (at_ (ARGV_of q (fail_job_call id token now error true scheduled remove)) 7)) id) d3).1
         by (by rewrite E5)).
    - rewrite frame_string by (by apply (untouched q _ (StateKey Delayed) _ (LockKey id))).
      replace d3 with (exec (HSET (redis_key q JobsKey) [(id, LString updated)]) d).1 by (by rewrite E4).
      by rewrite frame_string by (by apply (untouched q _ JobsKey _ (LockKey id))).
    - rewrite frame_member by (by apply (untouched q _ (StateKey Delayed) _ (StateKey Active))).
      replace d3 with (exec (HSET (redis_key q JobsKey) [(id, LString updated)]) d).1 by (by rewrite E4).
      by rewrite frame_member by (by apply (untouched q _ JobsKey _ (StateKey Active))).
    - rewrite frame_field by (by apply (untouched q _ (StateKey Delayed) _ JobsKey)). by eapply hset_field. }
  exists updated. pose proof (delayed_auxiliary id updated) as Haux.
  apply bind_run in E as (d5 & u5 & E6 & E). apply bind_run in E as (d6 & u6 & E7 & E). apply bind_run in E as (d7 & u7 & E8 & E).
  injection E as <- <-. split; [done|]. split.
  { refine (keeps_run _ _ _ _ _ _ E8 _); [apply keeps_do, (Haux _ EventsKey); [reflexivity|exact I]|].
    refine (keeps_run _ _ _ _ _ _ E7 _); [apply (keeps_marker_if_waiting q _ Haux); by right|].
    refine (keeps_run _ _ _ _ _ _ E6 H4). apply (keeps_refresh_marker q _ Haux); by right. }
  apply value_run in E3 as [_ E3]. destruct (cjson_texts _ _ E3) as (t & Ht & Hs).
  split_and!; exists t; (split; [done|]); apply Hs.
  - refine (set_fields_at [] _ _ _ _ _ _ _ E2 _). cbn. set_solver.
  - refine (set_fields_at [_] _ _ _ _ _ _ _ E2 _). cbn. set_solver.
  - apply (set_fields_other _ _ _ "failed_reason") in E2 as [_ ->]; [|cbn; set_solver].
    refine (set_fields_at [_; _; _] _ _ _ _ _ _ _ E1 _). cbn. set_solver.
Qed.

(** C33: in Redis a failed attempt with retries left comes back.  When a
    report of failure is accepted and the policy allows another attempt, the
    job is stored as delayed until the time the policy gives, with the error as
    its reason; its lease is over, and it is listed among the delayed jobs and
    no longer among the active ones. *)
Theorem redis_failed_attempt_returns id token error now d d' active job :
  require_job q id d = Ok active → JobCore.should_retry active = true →
  fail_job q id token error now d = (d', Ok job) →
  let retry_at := add_duration now (delay_for_attempt (opt_retry_policy (job_options active)) (job_attempts_made active)) in
  ∃ updated, decode_job updated = Ok job ∧ record_says updated "state" "delayed" ∧
    record_says updated "scheduled_at" (to_rfc3339 retry_at) ∧ record_says updated "failed_reason" error ∧
    get (redis_key q (LockKey id)) d' = Ok None ∧ zscore (redis_key q (StateKey Active)) id d' = Ok None ∧
    hget (redis_key q JobsKey) id d' = Ok (Some updated) ∧ ∃ s, zscore (redis_key q (StateKey Delayed)) id d' = Ok (Some s).
Proof.
  intros Hj Hretry. unfold fail_job, fail_job_with_retry_control, after. rewrite Hj, Hretry. cbn [andb]. cbn zeta. cbn [is_some unwrap_or].
  set (retry_at := add_duration now _). intros (result & E & Hok)%query_run. unfold eval_call, FAIL_SCRIPT in E.
  apply bind_run in E as (d1 & [leased|refusal] & [-> Hl]%leased_run & E); [|injection E as <- <-; by apply Hl in Hok].
  apply bind_run in E as (d2 & u & [Hlock Hact]%end_lease_clears & E).
  destruct (retried _ _ _ _ _ _ _ _ _ _ E Hlock Hact) as (updated & -> & (? & ? & ? & ?) & ? & ? & ?).
  exists updated. split_and!; try done.
Qed.
End attempts.

(** * What recovery does to a stalled job and to its parent

    A stalled job within its limit waits again.  A parent that should go on
    after its child stalled out is lost: the script stops at a function it does
    not define, when the parent has left its set and is in no other. *)

Section recovery.
Context {X : Ext} {R : RedisExt} {L : LuaLibs} {D : Type} `{!Redis D, !RedisLaws D, !LuaLaws L}.
Variable q : RedisQueueName.
Abbreviation jobs := (redis_key q JobsKey).

(** ** A job that was put among those of a state *)
Definition enlisted (s : JobState) (id updated : string) (d : D) : Prop :=
  hget jobs id d = Ok (Some updated) ∧ ∃ score, zscore (redis_key q (StateKey s)) id d = Ok (Some score).

Lemma enlisted_unaffected s id updated : unaffected q (enlisted s id updated).
Proof.
  intros c Hc d (Hj & Hs). unfold call. split; [rewrite frame_field; [done|]|rewrite frame_member; [done|]]; intros Ht%touches_key;
    cbn in Ht; by eapply apart_guarded in Ht.
Qed.

Lemma listed_after s id updated score d d' r : hget jobs id d = Ok (Some updated) →
  exec (ZADD (redis_key q (StateKey s)) score id) d = (d', Ok r) → enlisted s id updated d'.
Proof.
  intros Hj E. split; [|by eapply zadd_member]. replace d' with (exec (ZADD (redis_key q (StateKey s)) score id) d).1 by (by rewrite E).
  rewrite frame_field; [done|]. by apply (untouched q _ (StateKey s) _ JobsKey).
Qed.

(** The record stored has the texts of the job. *)
Definition stores (job : Lua) (updated : string) : Prop :=
  ∀ field s, field ≠ "enqueued_seq" → index job field = Ok (LString s) → record_says updated field s.

Lemma enqueued job id priority d d' updated :
  enqueue_waiting_job jobs (redis_key q (StateKey Waiting)) (redis_key q SequenceKey) job id priority (redis_key q MarkerKey) d
  = (d', Ok updated) → enlisted Waiting id updated d' ∧ stores job updated.
Proof.
  unfold enqueue_waiting_job. intros (d1 & reply & E1 & E)%bind_run.
  apply bind_run in E as (d2 & job1 & [-> E2]%value_run & E). apply bind_run in E as (d3 & score & E3 & E).
  apply bind_run in E as (d4 & up & [-> E4]%value_run & E). apply bind_run in E as (d5 & u5 & [r5 E5]%do_run & E).
  apply bind_run in E as (d6 & u6 & [r6 E6]%do_run & E). apply bind_run in E as (d7 & u7 & E7 & [= <- <-]). split.
  - refine (keeps_run _ _ _ _ _ _ E7 _).
    + apply (keeps_base_marker q _ (unaffected_auxiliary q _ (enlisted_unaffected Waiting id up))). by right.
    + eapply listed_after; [|exact E6]. by eapply hset_field.
  - intros field s Hne Hs. destruct (cjson_texts _ _ E4) as (t & Ht & Hk). exists t. split; [done|]. apply Hk.
    by rewrite (set_index_other _ _ _ _ _ E2).
Qed.

(** A job that is not active stays so when it or another is put among the
    waiting ones. *)
Definition inactive (id : string) (d : D) : Prop := zscore (redis_key q (StateKey Active)) id d = Ok None.

Lemma inactive_enqueued id job x priority : keeps (inactive id)
  (enqueue_waiting_job jobs (redis_key q (StateKey Waiting)) (redis_key q SequenceKey) job x priority (redis_key q MarkerKey)).
Proof.
  assert (∀ c k, command_key c = redis_key q k → parent_of k = None → k ≠ StateKey Active → keeps (inactive id) (call c)) as Hother.
  { intros c k Hc Hp Hk d Hd. unfold inactive, call. rewrite frame_member; [done|]. by apply (untouched q c k _ (StateKey Active)). }
  assert (∀ c k, command_key c = redis_key q k → auxiliary k → keeps (inactive id) (call c)) as Haux.
  { intros c k Hc Hk. apply (Hother c k); try done; by destruct k. }
  unfold enqueue_waiting_job. keeps_all; [by apply (Hother _ SequenceKey)|by apply (Hother _ JobsKey)|by apply (Hother _ (StateKey Waiting))|].
  apply (keeps_base_marker q _ Haux). by right.
Qed.

(** ** A stalled job *)
Abbreviation recovery now := (recover_args (KEYS_of q (recover_stalled_jobs_call now)) (ARGV_of q (recover_stalled_jobs_call now))).

Lemma requeued now id job d d' u : index job "failed_reason" = Ok (LString stalled_reason) →
  requeue_stalled (recovery now) id job d = (d', Ok u) →
  ∃ updated, enlisted Waiting id updated d' ∧ record_says updated "state" "waiting" ∧ record_says updated "failed_reason" stalled_reason.
Proof.
  intros Hf (d1 & job1 & E1 & E)%bind_run. apply bind_run in E as (d2 & priority & E2 & E).
  apply bind_run in E as (d3 & updated & E3 & E). apply bind_run in E as (d4 & u4 & E4 & E).
  pose proof E1 as H1. apply (set_fields_other _ _ _ "failed_reason") in H1 as [-> Hr]; [|cbn; set_solver].
  apply set_fields_first in E1; [|cbn; set_solver].
  destruct (enqueued _ _ _ _ _ _ E3) as [Hw Hs]. exists updated. split_and!; [|by apply Hs|by apply Hs; [|rewrite Hr]].
  pose proof (unaffected_auxiliary q _ (enlisted_unaffected Waiting id updated)) as Haux. unfold emit_stalled_event, emit_waiting_event in *.
  refine (keeps_run _ _ _ _ _ _ E _); [apply keeps_do, (Haux _ EventsKey); [reflexivity|exact I]|].
  refine (keeps_run _ _ _ _ _ _ E4 Hw). apply keeps_do, (Haux _ EventsKey); [reflexivity|exact I].
Qed.

Lemma inactive_requeued now id x job : keeps (inactive id) (requeue_stalled (recovery now) x job).
Proof.
  assert (unaffected q (inactive id)) as Hu.
  { intros c Hc d Hd. unfold inactive, call. rewrite frame_member; [done|]. intros Ht%touches_key. cbn in Ht. by eapply apart_guarded in Ht. }
  pose proof (inactive_enqueued id) as He. unfold requeue_stalled, emit_stalled_event, emit_waiting_event.
  keeps_all; (apply keeps_do, (unaffected_auxiliary q _ Hu _ EventsKey); [reflexivity|exact I]).
Qed.

(** C34: a stalled job waits again.  When recovery reaches a job whose record
    says active, whose lock is gone and whose limit of stalls is not passed, and
    ends well, the job is stored as waiting with the stall as its reason, listed
    among the waiting jobs and no longer among the active ones. *)
Theorem stalled_job_waits_again now id raw job n limit d d' :
  hget jobs id d = Ok (Some raw) → cjson_decode raw = Ok job →
  next_stalled_count job d = (d, Ok n) → max_stalled_of job d = (d, Ok limit) → f64_lt limit n = false →
  recover_stalled_one (recovery now) (redis_key q (LockKey EmptyString)) id d = (d', Ok true) →
  exists_key (redis_key q (LockKey id)) d = Ok false ∧
  ∃ updated, hget jobs id d' = Ok (Some updated) ∧ record_says updated "state" "waiting" ∧
    record_says updated "failed_reason" stalled_reason ∧
    zscore (redis_key q (StateKey Active)) id d' = Ok None ∧ ∃ s, zscore (redis_key q (StateKey Waiting)) id d' = Ok (Some s).
Proof.
  intros Hr Hj Hn Hm Hlt. unfold recover_stalled_one. change (fa_jobs _) with jobs. rewrite lock_key_is.
  intros (d1 & r & [-> E1]%read_run & E)%bind_run. rewrite Hr in E1. injection E1 as <-.
  apply bind_run in E as (d2 & job1 & [-> E2]%value_run & E). rewrite Hj in E2. injection E2 as <-.
  apply bind_run in E as (d3 & state & [-> E3]%value_run & E).
  destruct (is_text state "active"); [|by apply bind_run in E as (? & ? & _ & [=])].
  apply bind_run in E as (d4 & locked & [-> E4]%read_run & E). destruct locked; [done|]. split; [done|].
  apply bind_run in E as (d5 & u5 & E5 & [= <-]). unfold recover_unlocked in E5.
  apply bind_run in E5 as (d6 & n' & E6 & E5). rewrite Hn in E6. injection E6 as <- <-.
  apply bind_run in E5 as (d7 & job2 & E7 & E5). apply bind_run in E5 as (d8 & u8 & [r8 E8]%do_run & E5).
  pose proof E7 as H7. apply (set_fields_other _ _ _ "options") in H7 as [-> Ho]; [|cbn; set_solver].
  assert (∀ d0 : D, max_stalled_of job2 d0 = (d0, Ok limit)) as Hm2.
  { intros d0. revert Hm. unfold max_stalled_of, bind, getf, value. rewrite Ho. destruct (index job "options") as [v|]; [|done].
    destruct (truthy v); [|by intros [= ->]]. destruct (index v "max_stalled_count") as [w|]; [|done].
    unfold arith, ret, raise. destruct w; repeat case_match; by intros [= ->]. }
  apply bind_run in E5 as (d9 & limit' & E9 & E5). rewrite Hm2 in E9. injection E9 as <- <-. rewrite Hlt in E5.
  apply bind_run in E5 as (d10 & fails & [= <- <-] & E5).
  assert (inactive id d5) as Ha.
  { refine (keeps_run _ _ _ _ _ (inactive_requeued now id _ _) E5 _).
    change (fa_active _) with (redis_key q (StateKey Active)) in E8. by eapply zrem_member. }
  destruct (requeued now id job2 d8 d5 u5) as (updated & (Hh & Hw) & Hs & Hf); [|done|].
  - by refine (set_fields_at [_; _; _; _; _] _ _ _ _ _ _ _ E7 _); cbn; set_solver.
  - exists updated. by split_and!.
Qed.

Lemma set_fields_state l t (d : D) : (set_fields l t d).1 = d.
Proof.
  revert t. induction l as [|[k v] l IH]; intros t; [done|]. simpl. unfold bind, set_field, value.
  destruct (set_index t k v); [apply IH|done].
Qed.

(** C36: recovery strands parents.  Where a child stalled out and its parent
    should go on, the script always stops with an error, at the global
    [iso_to_millis] that only the other scripts define: the parent has left the
    set of those that wait for children, its record is as before, and it has
    entered no other set. *)
Theorem recovery_strands_parents now parent parent_id deferred d :
  (∃ v, (exec (ZREM (redis_key q (StateKey WaitingChildren)) parent_id) d).2 = Ok v) →
  let r := resume_recovered_parent (recovery now) parent parent_id deferred d in
  (∃ e, r.2 = Err e) ∧ zscore (redis_key q (StateKey WaitingChildren)) parent_id r.1 = Ok None ∧
  hget jobs parent_id r.1 = hget jobs parent_id d ∧
  ∀ s, s ≠ WaitingChildren → zscore (redis_key q (StateKey s)) parent_id r.1 = zscore (redis_key q (StateKey s)) parent_id d.
Proof.
  intros [v Hv]. cbn zeta. destruct (exec (ZREM (redis_key q (StateKey WaitingChildren)) parent_id) d) as [d1 o] eqn:E. cbn in Hv. subst o.
  set (r := resume_recovered_parent _ _ _ _ _). assert (∃ e, r = (d1, Err e)) as [e ->].
  { unfold r, resume_recovered_parent, resume_flow_parent_at. unfold bind at 1. unfold do_, bind at 1, call.
    change (fa_waiting_children _) with (redis_key q (StateKey WaitingChildren)). rewrite E. unfold ret.
    unfold bind at 1. pose proof (set_fields_state ([("processed_at", LNull); ("finished_at", LNull)] ++ lease_reset ++
      [("deferred_failure", deferred); ("failed_reason", LNull)]) parent d1) as Hs.
    destruct (set_fields _ parent d1) as [d2 [t|e]]; cbn in Hs; subst d2; by eexists. }
  replace d1 with (exec (ZREM (redis_key q (StateKey WaitingChildren)) parent_id) d).1 by (by rewrite E). cbn [fst snd].
  split; [by exists e|]. split_and!.
  - rewrite E. by eapply zrem_member.
  - rewrite frame_field; [done|]. by apply (untouched q _ (StateKey WaitingChildren) _ JobsKey).
  - intros s Hs. rewrite frame_member; [done|]. apply (untouched q _ (StateKey WaitingChildren) _ (StateKey s)); try done. congruence.
Qed.
End recovery.
