(* ===== verification/RedisAddRules.v ===== *)
(** * What submissions and obliteration leave in Redis ([src/job/redis.rs])

    An accepted submission has stored the new job, listed in the set of its
    state, or it answers with a job that was stored before and still is: the
    one with its id, the owner of its deduplication id, or that of its series.
    Obliterating a queue comes to its end and leaves nothing of it. *)
From S2P Require Import Prelude Ordering Text Float64 External Retry JobTypes JobStore JobDedup JobCore JobQueries JobAdd Backend FloatOrder LuaDates RedisKeys RedisReplies RedisCalls RedisLua RedisLeases RedisLeaseRules RedisFinish RedisReports RedisMoves RedisRecords RedisRemovals RedisAdds RedisFlows RedisGuards RedisKept RedisKeptAdds RedisSurvival RedisReportRules.
Local Open Scope Z_scope.

Section adding.
Context {X : Ext} {R : RedisExt} {L : LuaLibs} {D : Type} `{!Redis D, !RedisLaws D, !LuaLaws L}.
Variable q : RedisQueueName.
Abbreviation jobs := (redis_key q JobsKey).

(** ** Records on the way *)
Definition stored_as (i raw : string) (d : D) : Prop := hget jobs i d = Ok (Some raw).

(** Every record was there at the start. *)
Definition nothing_new (d0 d : D) : Prop := ∀ i raw, stored_as i raw d → stored_as i raw d0.

Lemma stored_unaffected i raw : unaffected q (stored_as i raw).
Proof.
  intros c Hc d Hd. unfold stored_as, call. rewrite frame_field; [done|]. intros Ht%touches_key. cbn in Ht. by eapply apart_guarded in Ht.
Qed.

Lemma nothing_new_unaffected d0 : unaffected q (nothing_new d0).
Proof.
  intros c Hc d Hd i raw Hs. apply Hd. revert Hs. unfold stored_as, call. rewrite frame_field; [done|]. intros Ht%touches_key. cbn in Ht.
  by eapply apart_guarded in Ht.
Qed.
#[local] Hint Resolve stored_unaffected nothing_new_unaffected : leases.

(** What was found is stored still, and nothing was stored meanwhile. *)
Definition found (o : option (string * string)) (d : D) : Prop :=
  match o with Some (i, raw) => stored_as i raw d | None => True end.

Lemma keeps_same {A} (P : D → Prop) (m : Script D A) d d' a : keeps P m → P d → m d = (d', Ok a) → P d'.
Proof. intros Hk Hd E. by eapply keeps_run. Qed.

Lemma finished_owner_found i existing raw d d' o : stored_as existing raw d →
  finished_owner (redis_key q (DeduplicationKey EmptyString) +:+ i) existing raw d = (d', Ok o) → found o d'.
Proof.
  intros Hd. unfold finished_owner. intros (d1 & job & [-> _]%value_run & E)%bind_run. apply bind_run in E as (d2 & state & [-> _]%value_run & E).
  destruct (is_finished state); [|by injection E as <- <-]. apply bind_run in E as (d3 & ttl & [-> _]%read_run & E).
  destruct (0 <? ttl); [by injection E as <- <-|]. apply bind_run in E as (d4 & u & _ & E). by injection E as _ <-.
Qed.

Lemma deduplication_found i ignored d d' o :
  active_deduplication jobs (redis_key q (DeduplicationKey EmptyString)) i ignored d = (d', Ok o) → found o d'.
Proof.
  unfold active_deduplication. destruct (String.eqb i EmptyString); [by intros [= <- <-]|].
  intros (d1 & existing & [-> _]%read_run & E)%bind_run. destruct existing as [existing|]; [|by injection E as <- <-].
  destruct (negb _ && _); [by injection E as <- <-|]. apply bind_run in E as (d2 & raw & [-> Hr]%read_run & E).
  destruct raw as [raw|]; [by eapply finished_owner_found|]. apply bind_run in E as (d4 & u & _ & E). by injection E as _ <-.
Qed.

Lemma scheduler_found key d d' o : scheduler_owner jobs (redis_key q (RepeatOwnerKey EmptyString)) key d = (d', Ok o) → found o d'.
Proof.
  unfold scheduler_owner. intros (d1 & owner & [-> _]%read_run & E)%bind_run. destruct owner as [owner|]; [|by injection E as <- <-].
  apply bind_run in E as (d2 & raw & [-> Hr]%read_run & E).
  destruct raw as [raw|]; [|apply bind_run in E as (d4 & u & _ & E); by injection E as _ <-].
  apply bind_run in E as (d3 & job & [-> _]%value_run & E). apply bind_run in E as (d4 & continues & E4 & E).
  apply (keeps_same _ _ _ _ _ (keeps_continues (stored_as owner raw) _ _) Hr) in E4.
  destruct continues; apply bind_run in E as (d5 & u & E5 & E); injection E as <- <-; [|done].
  refine (keeps_same _ _ _ _ _ _ E4 E5). apply keeps_do, stored_unaffected. cbn [command_key]. auto with apart.
Qed.

Lemma repeat_found key d d' o : active_repeat jobs (redis_key q (RepeatOwnerKey EmptyString)) key d = (d', Ok o) → found o d'.
Proof.
  unfold active_repeat. destruct (String.eqb key EmptyString); [by intros [= <- <-]|].
  intros (d1 & existing & [-> _]%read_run & E)%bind_run. destruct existing as [existing|]; [|by eapply scheduler_found].
  apply bind_run in E as (d2 & owner & E2 & E). destruct owner as [owner|].
  - injection E as <- <-. unfold stored_owner in E2. apply bind_run in E2 as (d3 & raw & [-> Hr]%read_run & E).
    destruct raw as [raw|]; [|done]. apply bind_run in E as (d4 & job & [-> _]%value_run & E).
    apply bind_run in E as (d5 & continues & E5 & E). apply (keeps_same _ _ _ _ _ (keeps_continues (stored_as existing raw) _ _) Hr) in E5.
    destruct continues; by injection E as <- <-.
  - apply bind_run in E as (d3 & u & _ & E). by eapply scheduler_found.
Qed.

(** ** Duplicates *)
Section rows.
Variable a : AddArgs.
Hypothesis T : add_tables q a.
Hypothesis logs : aa_logs a = redis_key q (LogsKey EmptyString).

(** The answer to a duplicate is the record of its owner. *)
Definition resolved (d0 : D) (r : Deduplication) (d : D) : Prop :=
  nothing_new d0 d ∧ match r with DuplicateOf raw => ∃ i, stored_as i raw d | _ => True end.

Lemma records_else c k d d' r i : command_key c = redis_key q k → parent_of k = None → k ≠ JobsKey →
  exec c d = (d', Ok r) → hget jobs i d' = hget jobs i d.
Proof.
  intros Hc Hp Hk E. replace d' with (exec c d).1 by (by rewrite E). rewrite frame_field; [done|]. by apply (untouched q c k _ JobsKey).
Qed.

Lemma nothing_new_removed d0 x d d' r : nothing_new d0 d → exec (HDEL jobs x) d = (d', Ok r) → nothing_new d0 d'.
Proof.
  intros Hd E i raw Hs. destruct (decide (i = x)) as [->|Hne].
  - apply hdel_field in E. unfold stored_as in Hs. congruence.
  - apply Hd. revert Hs. unfold stored_as. replace d' with (exec (HDEL jobs x) d).1 by (by rewrite E).
    rewrite frame_field; [done|]. by intros [_ ->].
Qed.

Lemma replaced candidate existing_job raw i d0 d d' r : nothing_new d0 d → stored_as i raw d →
  replace_owner a candidate existing_job raw d = (d', Ok r) → resolved d0 r d'.
Proof.
  intros Hn Hs. unfold replace_owner. intros (d1 & v & [-> _]%value_run & E)%bind_run.
  apply bind_run in E as (d2 & x & [-> _]%value_run & E). apply bind_run in E as (d3 & removed & E3 & E). unfold call in E3.
  rewrite (at_delayed _ _ T) in E3.
  assert (∀ j, hget jobs j d3 = hget jobs j d) as H3 by (intros j; by eapply (records_else (ZREM _ _) (StateKey Delayed))).
  assert (nothing_new d0 d3) as Hn3 by (intros j w; unfold stored_as; rewrite H3; apply Hn).
  destruct (positive_number (number_of removed)).
  - apply bind_run in E as (d4 & u4 & [r4 E4]%do_run & E). rewrite (at_jobs _ _ T) in E4.
    apply (nothing_new_removed _ _ _ _ _ Hn3) in E4. apply bind_run in E as (d5 & u5 & E5 & E). rewrite logs in E5.
    apply bind_run in E as (d6 & u6 & E6 & [= <- <-]). split; [|done].
    assert (nothing_new d0 d5) as Hn5.
    { refine (keeps_same _ _ _ _ _ _ E4 E5). apply keeps_do, nothing_new_unaffected. cbn [command_key]. auto with apart. }
    refine (keeps_same _ _ _ _ _ _ Hn5 E6). auto with leases.
  - injection E as <- <-. split; [done|]. exists i. unfold stored_as. by rewrite H3.
Qed.

Lemma resolve_resolved row d0 d d' r : nothing_new d0 d → resolve_deduplication a row d = (d', Ok r) → resolved d0 r d'.
Proof.
  intros Hn. unfold resolve_deduplication, active_deduplicated_raw. rewrite (at_jobs _ _ T), (at_deduplication _ _ T).
  intros (d1 & owner & E1 & E)%bind_run. apply bind_run in E1 as (d2 & o & E1 & [= <- <-]).
  pose proof E1 as Hf. apply deduplication_found in Hf.
  assert (nothing_new d0 d2) as Hn2.
  { refine (keeps_same _ _ _ _ _ _ Hn E1). auto with leases. }
  destruct o as [[i raw]|]; cbn [fmap option_fmap option_map snd] in E; [|by injection E as <- <-]. cbn [found] in Hf.
  apply bind_run in E as (d3 & candidate & [-> _]%value_run & E). apply bind_run in E as (d4 & existing & [-> _]%value_run & E).
  apply bind_run in E as (d5 & replace & E5 & E).
  pose proof (keeps_same _ _ _ _ _ (keeps_can_replace _ _ _) Hn2 E5) as Hn5.
  pose proof (keeps_same _ _ _ _ _ (keeps_can_replace (stored_as i raw) _ _) Hf E5) as Hf5.
  destruct replace; [by eapply replaced|].
  assert (∀ P : D → Prop, unaffected q P → P d5 → P d' ∧ r = DuplicateOf raw) as Hrest.
  { intros P HP H5. apply bind_run in E as (d6 & store & E6 & E).
    apply (keeps_same _ _ _ _ _ (keeps_can_store P _ _ _) H5) in E6. apply bind_run in E as (d7 & u & E7 & [= <- <-]). split; [|done].
    refine (keeps_same _ _ _ _ _ _ E6 E7). unfold deduplication_replace. keeps_all. }
  destruct (Hrest _ (nothing_new_unaffected d0) Hn5) as [Hn' ->].
  destruct (Hrest _ (stored_unaffected i raw) Hf5) as [Hs _]. split; [done|]. by exists i.
Qed.

(** ** The new job *)

(** The texts of a record are those of another; a waiting job is numbered. *)
Definition same_texts (sent raw : string) : Prop :=
  ∀ field s, field ≠ "enqueued_seq" → record_says sent field s → record_says raw field s.

Lemma stores_same_texts sent raw job : cjson_decode sent = Ok job → stores job raw → same_texts sent raw.
Proof. intros Hj Hs field s Hne (t & Ht & Hi). rewrite Hj in Ht. injection Ht as <-. by apply Hs. Qed.

Lemma same_texts_refl raw : same_texts raw raw.
Proof. by intros field s. Qed.

(** A state in which a job can be submitted. *)
Definition queued_state (s : JobState) : Prop := match s with Waiting | Delayed | WaitingChildren => True | _ => False end.

Lemma placed row s d d' raw : queued_state s → row_state row = job_state_name s → stored_as (row_id row) (row_raw row) d →
  place_new_job a row d = (d', Ok raw) → enlisted q s (row_id row) raw d' ∧ same_texts (row_raw row) raw.
Proof.
  intros Hs Hrow Hd. unfold place_new_job. rewrite Hrow. add_keys T. destruct s; try done; cbn [job_state_name String.eqb Ascii.eqb Bool.eqb].
  - intros (d1 & job & [-> Hj]%value_run & E)%bind_run. apply bind_run in E as (d2 & priority & E2 & E).
    destruct (enqueued _ _ _ _ _ _ _ E) as [He Ht]. split; [done|]. by eapply stores_same_texts.
  - intros (d1 & u1 & E & [= <- <-])%bind_run. apply bind_run in E as (d2 & u2 & [r2 E2]%do_run & E). split; [|apply same_texts_refl].
    refine (keeps_same _ _ _ _ _ (keeps_refresh_marker q _ _ _ _ _) _ E).
    + apply unaffected_auxiliary, enlisted_unaffected.
    + by right.
    + by eapply listed_after.
  - intros (d1 & u1 & E & [= <- <-])%bind_run. apply do_run in E as [r2 E2]. split; [|apply same_texts_refl]. by eapply listed_after.
Qed.

Lemma inserted row s replaced_owner d d' raw : queued_state s → row_state row = job_state_name s → stored_as (row_id row) (row_raw row) d →
  insert_row a row replaced_owner d = (d', Ok raw) → enlisted q s (row_id row) raw d' ∧ same_texts (row_raw row) raw.
Proof.
  intros Hs Hrow Hd. unfold insert_row. intros (d1 & raw1 & E1 & E)%bind_run.
  destruct (placed _ _ _ _ _ Hs Hrow Hd E1) as [He Ht]. pose proof (enlisted_unaffected q s (row_id row) raw1) as Hu.
  apply bind_run in E as (d2 & u2 & E2 & E). apply bind_run in E as (d3 & u3 & E3 & E). apply bind_run in E as (d4 & u4 & E4 & [= <- <-]).
  split; [|done]. refine (keeps_same _ _ _ _ _ _ _ E4); [auto with leases|]. refine (keeps_same _ _ _ _ _ _ _ E3).
  - apply keeps_when. intros _. auto with leases.
  - refine (keeps_same _ _ _ _ _ _ He E2). auto with leases.
Qed.

(** What became of a row. *)
Definition answered (s : JobState) (row : NewRow) (d0 : D) (r : Added) (d : D) : Prop :=
  match r with
  | AddedInserted raw => hget jobs (row_id row) d0 = Ok None ∧ enlisted q s (row_id row) raw d ∧ same_texts (row_raw row) raw
  | AddedExisting raw | AddedDeduplicated raw | AddedRepeat raw => ∃ i, stored_as i raw d0 ∧ stored_as i raw d
  | AddedMissing => True
  end.

Lemma row_answered row s d d' r : queued_state s → row_state row = job_state_name s →
  add_row a row d = (d', Ok r) → answered s row d r d'.
Proof.
  intros Hs Hrow. unfold add_row, active_repeat_raw. rewrite (at_jobs _ _ T), (at_repeat _ _ T).
  intros (d1 & existing & [-> Hex]%read_run & E)%bind_run. destruct existing as [raw|]; [injection E as <- <-; by exists (row_id row)|].
  apply bind_run in E as (d2 & dup & E2 & E). apply (resolve_resolved _ d) in E2 as [Hn Hr]; [|by intros i raw].
  assert (∀ replaced_owner d3,
    (let* repeat_owner := bind (active_repeat jobs (redis_key q (RepeatOwnerKey EmptyString)) (row_repeat row)) (λ owner, ret (snd <$> owner)) in
     match repeat_owner with
     | Some raw => ret (AddedRepeat raw)
     | None =>
         let* inserted := call (HSETNX jobs (row_id row) (row_raw row)) in
         if SFeqb (number_of inserted) f64_zero then
           let* current := read (hget jobs (row_id row)) in
           ret (match current with Some raw => AddedExisting raw | None => AddedMissing end)
         else let* raw := insert_row a row replaced_owner in ret (AddedInserted raw)
     end) d2 = (d3, Ok r) → answered s row d r d3) as Hnew.
  2: { destruct dup as [| |raw]; [by eapply Hnew..|]. injection E as <- <-. destruct Hr as [i Hi]. exists i. split; [by apply Hn|done]. }
  clear E Hr. intros replaced_owner d3 (d4 & o & E4 & E)%bind_run. apply bind_run in E4 as (d5 & owner & E5 & [= <- <-]).
  assert (nothing_new d d5) as Hn5.
  { refine (keeps_same _ _ _ _ _ _ Hn E5). auto with leases. }
  apply repeat_found in E5. destruct owner as [[i raw]|]; cbn [fmap option_fmap option_map snd] in E.
  { injection E as <- <-. exists i. split; [by apply Hn5|done]. }
  apply bind_run in E as (d6 & reply & E6 & E). unfold call in E6. 
  apply hsetnx_result in E6 as [[-> H6]|[-> H6]].
  - apply bind_run in E as (d7 & current & [-> Hc]%read_run & [= <- <-]). destruct current as [raw|]; [|done].
    exists (row_id row). split; [|done]. apply Hn5. unfold stored_as. by rewrite <- H6.
  - apply bind_run in E as (d7 & raw & E7 & [= <- <-]). destruct (inserted _ _ _ _ _ _ Hs Hrow H6 E7) as [He Ht]. by split_and!.
Qed.
End rows.

(** ** The method *)
Lemma submitted_state now spec : queued_state (job_state (job_of_spec (rq_queue q) now spec)).
Proof. unfold job_of_spec, Job_new. cbn. by case_match. Qed.

Lemma decoded_reply status raw id job : decode_add_job_result [status; raw] id = Ok job → decode_job raw = Ok job.
Proof. unfold decode_add_job_result. repeat case_match; try done. Qed.

(** C37: in Redis an accepted submission is stored.  Where [add_job] returns
    a job, its record is in Redis: either it is the new job, whose id was free,
    with the texts that were sent and listed in the set of its state, or it is a
    job that was stored before and still is. *)
Theorem redis_add_job_stores spec now d d' job : add_job q spec now d = (d', Ok job) →
  let new := job_of_spec (rq_queue q) now spec in
  ∃ raw, decode_job raw = Ok job ∧
    ((∃ encoded, encode_job new = Ok encoded ∧ hget jobs (job_id new) d = Ok None ∧
        enlisted q (job_state new) (job_id new) raw d' ∧ same_texts encoded raw) ∨
     ∃ i, stored_as i raw d ∧ stored_as i raw d').
Proof.
  unfold add_job, after. cbn zeta. set (new := job_of_spec _ _ _).
  destruct (lift (validate_job_options_at _ _)) as [u|e]; [|done]. cbn [try_bind].
  destruct (encode_job new) as [encoded|e] eqn:He; [|done]. cbn [lift try_bind].
  intros (reply & E & Hd)%query_run. unfold eval_call, ADD_JOB_SCRIPT in E.
  apply bind_run in E as (d1 & added & E & [= <- <-]).
  apply (row_answered _ (add_job_tables q new encoded) eq_refl _ (job_state new)) in E; [|apply submitted_state|done].
  destruct added as [raw|raw|raw| |raw]; cbn [added_reply answered] in *; try (by apply decoded_reply in Hd; exists raw; split; [|right]).
  - done.
  - apply decoded_reply in Hd. exists raw. split; [done|]. left. exists encoded. destruct E as (H1 & H2 & H3). by split_and!.
Qed.
End adding.

(** ** Obliteration *)

(** No character of the text means something in a pattern. *)
Definition literal (s : string) : bool :=
  forallb (λ c, negb (existsb (String.eqb (String.String c EmptyString)) ["*"; "?"; "["; "\"])) (String.list_ascii_of_string s).

Definition deleted {D} `{!Redis D} (ks : list string) (d : D) : D := foldl (λ d k, (exec (DEL k) d).1) d ks.

(** What a full iteration from [cursor] on returns while nothing changes. *)
Inductive iteration {D} `{!Redis D} (pattern : string) (count : Lua) (d : D) : string → list string → Prop :=
| iteration_last cursor found : scan cursor pattern count d = Ok ("0", found) → iteration pattern count d cursor found
| iteration_page cursor next found rest :
    scan cursor pattern count d = Ok (next, found) → next ≠ "0" → iteration pattern count d next rest →
    iteration pattern count d cursor (found ++ rest).

(** What the documentation of [SCAN] and [DEL] says: a page has keys that
    exist, a full iteration has every key that matches throughout, and it comes
    to its end while no keys are added. *)
Class SweepLaws (D : Type) `{!Redis D} := {
  keys_left : D → nat;
  unvisited : string → D → nat;
  del_succeeds k d : ∃ r, exec (DEL k) d = ((exec (DEL k) d).1, Ok r);
  del_fewer k d : (keys_left (exec (DEL k) d).1 ≤ keys_left d)%nat;
  del_removes k d : exists_key k d = Ok true → (keys_left (exec (DEL k) d).1 < keys_left d)%nat;
  del_unvisited cursor k d : (unvisited cursor (exec (DEL k) d).1 ≤ unvisited cursor d)%nat;
  scan_succeeds cursor pattern count d : ∃ page, scan cursor pattern count d = Ok page;
  scan_existing cursor pattern count d next found k :
    scan cursor pattern count d = Ok (next, found) → k ∈ found → exists_key k d = Ok true;
  scan_ends cursor pattern count d next found :
    scan cursor pattern count d = Ok (next, found) → next ≠ "0" → (unvisited next d < unvisited cursor d)%nat;
  scan_full prefix count d found s :
    literal prefix = true → iteration (prefix +:+ "*") count d "0" found → exists_key (prefix +:+ s) d = Ok true →
    prefix +:+ s ∈ found;
}.

Section obliterating.
Context {X : Ext} {R : RedisExt} {L : LuaLibs} {D : Type} `{!Redis D, !SweepLaws D}.
Variable q : RedisQueueName.

Lemma delete_each ks (d : D) : for_each ks (λ key, do_ (DEL key)) d = (deleted ks d, Ok tt).
Proof.
  revert d. induction ks as [|k ks IH]; intros d; [done|]. cbn [for_each]. unfold do_, call, bind.
  destruct (del_succeeds k d) as [r E]. unfold deleted. cbn [foldl]. destruct (exec (DEL k) d) as [d' o]. injection E as ->. apply IH.
Qed.

Lemma deleted_fewer ks (d : D) : (keys_left (deleted ks d) ≤ keys_left d)%nat.
Proof.
  revert d. induction ks as [|k ks IH]; intros d; [done|]. cbn. etrans; [apply IH|]. apply del_fewer.
Qed.

Lemma deleted_unvisited cursor ks (d : D) : (unvisited cursor (deleted ks d) ≤ unvisited cursor d)%nat.
Proof.
  revert d. induction ks as [|k ks IH]; intros d; [done|]. cbn. etrans; [apply IH|]. apply del_unvisited.
Qed.

Lemma found_fewer k ks (d : D) : exists_key k d = Ok true → (keys_left (deleted (k :: ks) d) < keys_left d)%nat.
Proof. intros H. cbn. eapply Nat.le_lt_trans; [apply deleted_fewer|]. by apply del_removes. Qed.

(** An iteration comes to its end, deletes something if it finds something, and
    otherwise has seen that nothing is there. *)
Record swept (pattern : string) (count : f64) (cursor : string) (d d' : D) (found : bool) : Prop := {
  sw_run fuel : (unvisited cursor d < fuel)%nat → delete_pages fuel pattern count cursor d = (d', Ok found);
  sw_fewer : (keys_left d' ≤ keys_left d)%nat;
  sw_unvisited c : (unvisited c d' ≤ unvisited c d)%nat;
  sw_found : found = true → (keys_left d' < keys_left d)%nat;
  sw_none : found = false → d' = d ∧ iteration pattern (LNumber count) d cursor [];
}.

Lemma sweep pattern count m : ∀ cursor (d : D), (unvisited cursor d < m)%nat → ∃ d' found, swept pattern count cursor d d' found.
Proof.
  induction m as [|m IH]; intros cursor d Hm; [lia|].
  destruct (scan_succeeds cursor pattern (LNumber count) d) as [[next ks] Hscan].
  assert (∀ fuel, delete_pages (S fuel) pattern count cursor d =
    (if String.eqb next "0" then ret (negb (Nat.eqb (length ks) 0))
     else let* more := delete_pages fuel pattern count next in ret (negb (Nat.eqb (length ks) 0) || more)) (deleted ks d)) as Hrun.
  { intros fuel. cbn [delete_pages]. unfold bind at 1, read. rewrite Hscan. cbn [fst snd]. unfold bind at 1. by rewrite delete_each. }
  assert (negb (Nat.eqb (length ks) 0) = true → (keys_left (deleted ks d) < keys_left d)%nat) as Hfound.
  { destruct ks as [|k ks]; [done|]. intros _. apply found_fewer. eapply scan_existing; [exact Hscan|]. by left. }
  pose proof (deleted_fewer ks d) as Hk. pose proof (λ c, deleted_unvisited c ks d) as Hu.
  destruct (String.eqb_spec next "0") as [->|Hnext].
  - exists (deleted ks d), (negb (Nat.eqb (length ks) 0)). split; [|done..|].
    + intros [|fuel] Hfuel; [lia|]. by rewrite Hrun.
    + destruct ks; [|done]. intros _. split; [done|]. by apply iteration_last.
  - destruct (IH next (deleted ks d)) as (d' & more & [Hr Hf Hv Ht Hn]).
    { specialize (Hu next). pose proof (scan_ends _ _ _ _ _ _ Hscan Hnext). lia. }
    exists d', (negb (Nat.eqb (length ks) 0) || more). split.
    + intros [|fuel] Hfuel; [lia|]. rewrite Hrun. unfold bind. rewrite Hr; [done|].
      specialize (Hu next). pose proof (scan_ends _ _ _ _ _ _ Hscan Hnext). lia.
    + lia.
    + intros c. specialize (Hv c). specialize (Hu c). lia.
    + intros [H%Hfound|H%Ht]%orb_true_iff; lia.
    + intros [H Hmore]%orb_false_iff. destruct ks as [|k ks]; [|done]. destruct (Hn Hmore) as [-> Hi].
      split; [done|]. by eapply (iteration_page _ _ _ _ _ []).
Qed.

Lemma sweeps pattern count pages m : ∀ d : D, (keys_left d < m)%nat → (unvisited "0" d < pages)%nat →
  ∃ d', (∀ fuel ps, (keys_left d < fuel)%nat → (pages ≤ ps)%nat → delete_keys fuel ps pattern count d = (d', Ok tt)) ∧
    iteration pattern (LNumber count) d' "0" [].
Proof.
  induction m as [|m IH]; intros d Hm Hpages; [lia|].
  destruct (sweep pattern count pages "0" d Hpages) as (d1 & found & [Hr Hf Hv Ht Hn]).
  assert (∀ fuel ps, (pages ≤ ps)%nat → delete_keys (S fuel) ps pattern count d =
    (if found then delete_keys fuel ps pattern count else ret tt) d1) as Hrun.
  { intros fuel ps Hps. cbn [delete_keys]. unfold bind. rewrite Hr; [done|lia]. }
  destruct found.
  - specialize (Ht eq_refl). destruct (IH d1) as (d' & Hd & Hi); [lia|specialize (Hv "0"); lia|].
    exists d'. split; [|done]. intros [|fuel] ps Hfuel Hps; [lia|]. rewrite Hrun by done. apply Hd; [lia|done].
  - destruct (Hn eq_refl) as [-> Hi]. exists d. split; [|done].
    intros [|fuel] ps Hfuel Hps; [lia|]. by rewrite Hrun.
Qed.

(** Obliterating a queue comes to its end, tells how many jobs there were, and
    leaves none of its keys, unless a job is active and it is not forced; the
    queue's name has no characters that mean something in a pattern. *)
Theorem redis_obliterate_empties force (d d1 : D) r active removed : literal (queue_key_prefix q) = true →
  exec (HSET (redis_key q MetaKey) [("paused", number 1)]) d = (d1, Ok r) →
  zcard (redis_key q (StateKey Active)) d1 = Ok active → hlen (redis_key q JobsKey) d1 = Ok removed → 0 ≤ removed →
  force = true ∨ active ≤ 0 →
  ∃ d' enough, (∀ fuel, (enough ≤ fuel)%nat → obliterate q fuel force d = (d', Ok removed)) ∧
    ∀ k, exists_key (redis_key q k) d' ≠ Ok true.
Proof.
  intros Hq Hpause Hactive Hlen Hpos Hforce.
  set (count := scan_count_of (at_ (ARGV_of q (obliterate_call q force)) 3)).
  destruct (sweeps (queue_key_prefix q +:+ "*") count (S (unvisited "0" d1)) (S (keys_left d1)) d1) as (d' & Hd & Hi); [lia..|].
  exists d', (S (keys_left d1 + unvisited "0" d1)). split.
  - intros fuel Hfuel. unfold obliterate, query, eval_call, OBLITERATE_SCRIPT.
    assert (at_ (KEYS_of q (obliterate_call q force)) 1 = redis_key q MetaKey) as -> by done.
    assert (at_ (KEYS_of q (obliterate_call q force)) 2 = redis_key q (StateKey Active)) as -> by done.
    assert (at_ (KEYS_of q (obliterate_call q force)) 3 = redis_key q JobsKey) as -> by done.
    assert (at_ (ARGV_of q (obliterate_call q force)) 1 = queue_key_prefix q) as -> by done.
    assert (at_ (ARGV_of q (obliterate_call q force)) 2 = flag force) as -> by done.
    fold count. unfold bind at 1, do_, call. unfold bind at 1. rewrite Hpause. unfold ret at 1, bind at 1, read. rewrite Hactive.
    assert ((0 <? active) && negb (String.eqb (flag force) "1") = false) as ->.
    { destruct Hforce as [->|Ha]; [by rewrite andb_false_r|]. by rewrite (proj2 (Z.ltb_ge 0 active) Ha). }
    unfold bind at 1. rewrite Hlen. unfold bind. rewrite Hd by lia. unfold ret.
    rewrite (proj2 (Z.eqb_neq removed (-2))) by lia. by rewrite (proj2 (Z.ltb_ge removed 0)) by lia.
  - intros k Hk. pose proof (scan_full _ _ _ _ (suffix_of k) Hq Hi Hk) as H. by apply elem_of_nil in H.
Qed.

(** Otherwise it is refused, and the queue stays paused. *)
Theorem redis_obliterate_refused fuel (d d1 : D) r active :
  exec (HSET (redis_key q MetaKey) [("paused", number 1)]) d = (d1, Ok r) →
  zcard (redis_key q (StateKey Active)) d1 = Ok active → 0 < active →
  obliterate q fuel false d = (d1, fail (JobStateConflict "cannot obliterate queue with active jobs")).
Proof.
  intros Hpause Hactive Ha. unfold obliterate, query, eval_call, OBLITERATE_SCRIPT.
  assert (at_ (KEYS_of q (obliterate_call q false)) 1 = redis_key q MetaKey) as -> by done.
  assert (at_ (KEYS_of q (obliterate_call q false)) 2 = redis_key q (StateKey Active)) as -> by done.
  unfold bind at 1, do_, call. unfold bind at 1. rewrite Hpause. unfold ret at 1, bind at 1, read. rewrite Hactive.
  by rewrite (proj2 (Z.ltb_lt 0 active) Ha).
Qed.
End obliterating.
