(* ===== verification/RedisDemo.v ===== *)
(** * A concrete Redis and Lua library

    Tables for the strings, hash fields and members of sets, an encoding of
    the texts of a table in place of JSON, and the laws of [RedisLua] for
    both: the lease rules hold of something, and the witnesses run on it. *)
From S2P Require Import Prelude Ordering Text Float64 External Retry JobTypes JobStore JobDedup JobQueries JobAdd Backend FloatOrder LuaDates RedisKeys RedisReplies RedisReplyRules RedisCalls RedisLua RedisLeases RedisLeaseRules RedisFinish RedisReports RedisMoves RedisRecords RedisRemovals RedisQueries RedisClient RedisAdds RedisFlows RedisGuards RedisKept RedisKeptAdds RedisSurvival RedisReportRules RedisAddRules.
Local Open Scope Z_scope.

(** ** Lua's libraries *)
Definition text_fields (fields : list (string * Lua)) : list (string * string) :=
  omap (λ e, match e.2 with LString s => Some (e.1, s) | _ => None end) fields.

Definition pack (l : list (string * string)) : string := show_nat (Zpos (countable.encode l)).
Definition unpack (s : string) : option (list (string * string)) :=
  match parse_magnitude s with Some (Zpos p) => countable.decode p | _ => None end.

Lemma unpack_pack l : unpack (pack l) = Some l.
Proof. unfold unpack, pack. rewrite parse_magnitude_show by lia. apply decode_encode. Qed.

Definition demo_lua : LuaLibs := {|
  lua_stack := 100;
  cjson_decode := λ s, match unpack s with
                       | Some l => Ok (LTable [] (prod_map id LString <$> l))
                       | None => Err "not a table"
                       end;
  cjson_encode := λ t, match t with
                       | LTable _ fields => Ok (pack (text_fields fields))
                       | _ => Ok (pack [])
                       end;
  lua_strtod := λ s, f64_of_Z <$> parse_i64 s;
  lua_text := λ x, show_nat (f64_to_u64 x);
  float_text := λ x, show_nat (f64_to_u64 x);
|}.

Lemma text_field_kept fields k x : assoc k fields = LString x → assoc k (prod_map id LString <$> text_fields fields) = LString x.
Proof.
  induction fields as [|[k' v] fields IH]; [done|]. simpl. destruct (String.eqb k k') eqn:E.
  - intros ->. cbn. by rewrite E.
  - intros H. unfold text_fields in *. destruct v; cbn; auto. rewrite E. auto.
Qed.

#[export] Instance demo_lua_laws : LuaLaws demo_lua.
Proof.
  split; [|intros n Hn; cbn; rewrite parse_i64_show; [done|]; unfold I64_MAX; lia].
  intros t s. cbn. destruct t as [| | | | |items fields]; intros [= <-]; rewrite unpack_pack;
    eexists; (split; [done|]); intros key text; cbn; try done; try (by intros [=]).
  intros [= H]. by rewrite (text_field_kept _ _ _ H).
Qed.

(** ** Redis *)
Record Tables := mkTables {
  t_strings : gmap string string;
  t_hashes : gmap (string * string) string;
  t_zsets : gmap (string * string) string;
}.

Definition show_lua (v : Lua) : string :=
  match v with LString s => s | LNumber x => show_nat (f64_to_u64 x) | _ => EmptyString end.

Definition members (key : string) (d : Tables) : list (string * string) :=
  omap (λ e, if String.eqb e.1.1 key then Some (e.1.2, e.2) else None) (map_to_list (t_zsets d)).

Definition fields (key : string) (d : Tables) : list (string * string) :=
  omap (λ e, if String.eqb e.1.1 key then Some (e.1.2, e.2) else None) (map_to_list (t_hashes d)).

Definition stored_keys (d : Tables) : list string :=
  (map_to_list (t_strings d)).*1 ++ (map_to_list (t_hashes d)).*1.*1 ++ (map_to_list (t_zsets d)).*1.*1.

Definition demo_exec (c : Command) (d : Tables) : Tables * outcome string Lua :=
  let done_ s h z := (mkTables s h z, Ok LNil) in
  let '(mkTables s h z) := d in
  match c with
  | HSET k fs => done_ s (foldl (λ h e, <[ (k, e.1) := show_lua e.2 ]> h) h fs) z
  | HDEL k f => done_ s (delete (k, f) h) z
  | HSETNX k f v =>
      (mkTables s (match h !! (k, f) with Some _ => h | None => <[ (k, f) := v ]> h end) z,
       Ok (LNumber (f64_of_Z (if is_some (h !! (k, f)) then 0 else 1))))
  | HINCRBY k f =>
      let n := unwrap_or (parse_u64 (unwrap_or (h !! (k, f)) "0")) 0 + 1 in
      (mkTables s (<[ (k, f) := show_nat n ]> h) z, Ok (LNumber (f64_of_Z n)))
  | SETPLAIN k v => done_ (<[ k := v ]> s) h z
  | SET k v _ => done_ (<[ k := v ]> s) h z
  | SETNX k v => done_ (match s !! k with Some _ => s | None => <[ k := v ]> s end) h z
  | SETKEEP k v => done_ (<[ k := v ]> s) h z
  | DEL k => done_ (delete k s) (filter (λ e, e.1.1 ≠ k) h) (filter (λ e, e.1.1 ≠ k) z)
  | INCR k =>
      let n := unwrap_or (parse_u64 (unwrap_or (s !! k) "0")) 0 + 1 in
      (mkTables (<[ k := show_nat n ]> s) h z, Ok (LNumber (f64_of_Z n)))
  | ZADD k x m => done_ s h (<[ (k, m) := show_lua x ]> z)
  | ZREM k m => (mkTables s h (delete (k, m) z), Ok (LNumber (f64_of_Z (if is_some (z !! (k, m)) then 1 else 0))))
  | SADD k m => done_ s h (<[ (k, m) := "0" ]> z)
  | SREM k m => (mkTables s h (delete (k, m) z), Ok (LNumber (f64_of_Z (if is_some (z !! (k, m)) then 1 else 0))))
  | SPOP k _ => (mkTables s h (filter (λ e, e.1.1 ≠ k) z), Ok (LTable (LString <$> (members k d).*1) []))
  | PERSIST _ | PEXPIRE _ _ | XADD _ _ _ | XTRIM _ _ | LPUSH _ _ | RPUSH _ _ | LTRIM _ _ | LKEEP _ _ | ZREMRANGEBYSCORE _ _ | ZREMRANGEBYRANK _ _ => done_ s h z
  end.

#[export] Instance demo_redis : Redis Tables := {
  exec := demo_exec;
  hget k f d := Ok (t_hashes d !! (k, f));
  get k d := Ok (t_strings d !! k);
  zscore k m d := Ok (t_zsets d !! (k, m));
  zcard k d := Ok (Z.of_nat (length (members k d)));
  zrange k stop d := Ok (take (Z.to_nat (stop + 1)) (members k d).*1);
  zfirst k d := Ok (head (members k d));
  zall k d := Ok (members k d).*1;
  zcount k _ _ d := Ok (Z.of_nat (length (members k d)));
  zrangebyscore k max limit d :=
    Ok (omap (λ e, match parse_u64 e.2, parse_u64 max with
          | Some a, Some b => if a <=? b then Some e.1 else None
          | _, _ => None end) (members k d));
  zrevrange _ _ _ := Ok [];
  zrevrangebyscore _ _ _ _ := Ok [];
  scard k d := Ok (Z.of_nat (length (members k d)));
  zrange_between _ _ _ _ := Ok [];
  smembers k d := Ok (members k d).*1;
  sismember k m d := Ok (is_some (t_zsets d !! (k, m)));
  lpos _ _ _ := Ok None;
  hlen k d := Ok (Z.of_nat (length (fields k d)));
  hgetall k d := Ok (fields k d);
  hscan k _ _ d := Ok ("0", fields k d);
  sscan k _ _ d := Ok ("0", (members k d).*1);
  key_type k d := Ok (match members k d with [] => if is_some (t_strings d !! k) then "string" else "none" | _ => "zset" end);
  lrange _ _ _ _ := Ok [];
  llen _ _ := Ok 0;
  hexists k f d := Ok (is_some (t_hashes d !! (k, f)));
  exists_key k d := Ok (bool_decide (k ∈ stored_keys d));
  scan _ pattern _ d := Ok ("0", List.filter (String.prefix (String.substring 0 (String.length pattern - 1) pattern)) (stored_keys d));
  pttl k d := Ok (if is_some (t_strings d !! k) then -1 else -2);
}.

Lemma hset_other k f fs h : f ∉ fs.*1 →
  foldl (λ (h : gmap (string * string) string) e, <[ (k, e.1) := show_lua e.2 ]> h) h fs !! (k, f) = h !! (k, f).
Proof.
  revert h. induction fs as [|[f' v] fs IH]; intros h Hf; [done|]. rewrite fmap_cons in Hf. apply not_elem_of_cons in Hf as [Hne Hf].
  cbn [foldl]. rewrite IH by done. apply lookup_insert_ne. cbn in *. congruence.
Qed.

Lemma hset_away k k' f fs h : k ≠ k' →
  foldl (λ (h : gmap (string * string) string) e, <[ (k, e.1) := show_lua e.2 ]> h) h fs !! (k', f) = h !! (k', f).
Proof.
  intros Hk. revert h. induction fs as [|[f' v] fs IH]; intros h; [done|]. cbn [foldl]. rewrite IH.
  apply lookup_insert_ne. congruence.
Qed.

Lemma filter_key (m : gmap (string * string) string) k k' f : k' ≠ k → filter (λ e, e.1.1 ≠ k) m !! (k', f) = m !! (k', f).
Proof.
  intros Hne. destruct (m !! (k', f)) eqn:E.
  - by apply map_lookup_filter_Some.
  - apply map_lookup_filter_None. by left.
Qed.

Lemma has_members k m s d : t_zsets d !! (k, m) = Some s → members k d ≠ [].
Proof.
  intros H E. assert ((m, s) ∈ members k d) as Hin; [|rewrite E in Hin; by apply not_elem_of_nil in Hin].
  unfold members. apply list_elem_of_omap. exists ((k, m), s). split; [by apply elem_of_map_to_list|]. cbn. by rewrite String.eqb_refl.
Qed.

#[export] Instance demo_redis_laws : RedisLaws Tables.
Proof.
  split.
  - intros c k f [s h z] Ht. cbn. f_equal. destruct c; cbn in *; try done.
    + destruct (decide (key = k)) as [->|]; [|by apply hset_away]. apply hset_other. naive_solver.
    + apply lookup_delete_ne. naive_solver.
    + destruct (h !! (key, field)); [done|]. apply lookup_insert_ne. naive_solver.
    + apply lookup_insert_ne. naive_solver.
    + apply filter_key. naive_solver.
  - intros c k [s h z] Ht. cbn. f_equal. destruct c; cbn in *; try done.
    + by rewrite lookup_insert_ne.
    + by rewrite lookup_insert_ne.
    + destruct (s !! key); [done|]. by rewrite lookup_insert_ne.
    + by rewrite lookup_insert_ne.
    + by rewrite lookup_delete_ne.
    + by rewrite lookup_insert_ne.
  - intros c k m [s h z] Ht. cbn. f_equal. destruct c; cbn in *; try done.
    + apply filter_key. naive_solver.
    + apply lookup_insert_ne. naive_solver.
    + apply lookup_delete_ne. naive_solver.
    + apply lookup_insert_ne. naive_solver.
    + apply lookup_delete_ne. naive_solver.
    + apply filter_key. naive_solver.
  - intros k f s [s0 h z] d' r [= <- _]. cbn. by rewrite lookup_insert_eq.
  - intros k v px [s h z] d' r [= <- _]. cbn. by rewrite lookup_insert_eq.
  - intros k [s h z] d' r [= <- _]. cbn. by rewrite lookup_delete_eq.
  - intros k x m [s h z] d' r [= <- _]. cbn. rewrite lookup_insert_eq. by eexists.
  - intros k m [s h z] d' r [= <- _]. cbn. by rewrite lookup_delete_eq.
  - intros k m [s h z] d' r [= H] [= _ <-]. by rewrite H.
  - intros c k m [s h z] Hc [= H]. destruct c; try done; cbn; rewrite ?H; try done; f_equal.
    + apply map_lookup_filter_None. by left.
    + destruct (decide ((key, member) = (k, m))) as [->|]; [apply lookup_delete_eq|by rewrite lookup_delete_ne].
  - intros k f v w [s h z] [= H]. cbn in *. rewrite H. cbn. rewrite H. split; [done|]. by intros d' r [= _ <-].
  - intros k f w [s h z] d' r [= <- <-]. cbn in *. destruct (h !! (k, f)) eqn:E; cbn; [left; by rewrite E|right].
    by rewrite lookup_insert_eq.
  - intros k f [s h z] d' r [= <- _]. cbn. by rewrite lookup_delete_eq.
  - intros k v [s h z] [= H]. cbn in *. f_equal. apply bool_decide_eq_true. unfold stored_keys. apply elem_of_app. left.
    apply list_elem_of_fmap. by exists (k, v); split; [|apply elem_of_map_to_list].
  - intros k f v [s h z] [= H]. cbn in *. by rewrite H.
  - intros k m s n d [= H] [= <-]. apply has_members in H. destruct (members k d); [done|cbn [length]; lia].
  - intros k m s d [= H]. cbn. apply has_members in H. by destruct (members k d).
  - intros k v [s h z] d' r [= H] [= <- _]. cbn in *. rewrite H. cbn. by rewrite lookup_insert_eq.
  - intros k v w [s h z] [= H]. cbn in *. by rewrite H, H.
  - intros k m s d [= H] [= Hf]. apply has_members in H. by destruct (members k d).
  - intros k start m l d [= <-] H. by apply not_elem_of_nil in H.
  - intros k max limit m l d [= <-] H. by apply not_elem_of_nil in H.
  - intros c [s h z] d' e H. by destruct c.
Qed.

(** ** Obliteration *)
Lemma key_of_pairs (k : string) (m : gmap (string * string) string) : k ∈ (map_to_list m).*1.*1 ↔ ∃ f v, m !! (k, f) = Some v.
Proof.
  rewrite <- list_fmap_compose, list_elem_of_fmap. split.
  - intros ([[k' f] v] & -> & H%elem_of_map_to_list). by exists f, v.
  - intros (f & v & H). exists ((k, f), v). by rewrite elem_of_map_to_list.
Qed.

Lemma filter_fewer (P : (string * string) * string → Prop) `{∀ x, Decision (P x)} (m : gmap (string * string) string) : (size (filter P m) ≤ size m)%nat.
Proof. apply map_subseteq_size, map_filter_subseteq. Qed.

Lemma filter_removes (P : (string * string) * string → Prop) `{∀ x, Decision (P x)} (m : gmap (string * string) string) i v :
  m !! i = Some v → ¬ P (i, v) → (size (filter P m) < size m)%nat.
Proof.
  intros Hi Hp. apply (Nat.le_lt_trans _ (size (delete i m))); [|apply map_subset_size, delete_subset; by exists v].
  apply map_subseteq_size, map_subseteq_spec. intros j w [Hj Hw]%map_lookup_filter_Some.
  rewrite lookup_delete_ne; [done|]. intros ->. congruence.
Qed.

Lemma starts_with prefix s :
  String.prefix (String.substring 0 (String.length (prefix +:+ "*") - 1) (prefix +:+ "*")) (prefix +:+ s) = true.
Proof.
  assert (String.length (prefix +:+ "*") - 1 = String.length prefix)%nat as ->.
  { assert (String.length (prefix +:+ "*") = S (String.length prefix)) as ->; [|lia]. induction prefix as [|c prefix IH]; [done|].
    change (S (String.length (prefix +:+ "*")) = S (String.length (String.String c prefix))). by rewrite IH. }
  assert (String.substring 0 (String.length prefix) (prefix +:+ "*") = prefix) as ->.
  { induction prefix as [|c prefix IH]; [done|]. change (String.String c (String.substring 0 (String.length prefix) (prefix +:+ "*")) = String.String c prefix). by rewrite IH. }
  induction prefix as [|c prefix IH]; [by destruct s|].
  change (String.prefix (String.String c prefix) (String.String c (prefix +:+ s)) = true). cbn. by destruct (Ascii.ascii_dec c c).
Qed.

#[export, refine] Instance demo_sweep_laws : SweepLaws Tables :=
  Build_SweepLaws _ _ (λ d, (size (t_strings d) + size (t_hashes d) + size (t_zsets d))%nat) (λ _ _, 0%nat) _ _ _ _ _ _ _ _.
Proof.
  - intros k [s h z]. by eexists.
  - intros k [s h z]. cbn. pose proof (map_subseteq_size _ _ (delete_subseteq s k)).
    pose proof (filter_fewer (λ e, e.1.1 ≠ k) h). pose proof (filter_fewer (λ e, e.1.1 ≠ k) z). lia.
  - intros k [s h z] [= Hk%bool_decide_eq_true]. cbn in *. pose proof (map_subseteq_size _ _ (delete_subseteq s k)).
    pose proof (filter_fewer (λ e, e.1.1 ≠ k) h). pose proof (filter_fewer (λ e, e.1.1 ≠ k) z).
    apply elem_of_app in Hk as [([k' v] & -> & Hv%elem_of_map_to_list)%list_elem_of_fmap|[(f & v & Hv)%key_of_pairs|(f & v & Hv)%key_of_pairs]%elem_of_app].
    + cbn in *. assert (delete k' s ⊂ s) as Hs by (apply delete_subset; by exists v). apply map_subset_size in Hs. lia.
    + assert (size (filter (λ e : (string * string) * string, e.1.1 ≠ k) h) < size h)%nat; [|lia]. eapply filter_removes; [exact Hv|]. by intros [].
    + assert (size (filter (λ e : (string * string) * string, e.1.1 ≠ k) z) < size z)%nat; [|lia]. eapply filter_removes; [exact Hv|]. by intros [].
  - done.
  - by eexists.
  - intros cursor pattern count d next found k [= <- <-] Hk. apply list_elem_of_In, filter_In in Hk as [Hk _].
    cbn. f_equal. apply bool_decide_eq_true. by apply list_elem_of_In.
  - by intros cursor pattern count d next found [= <- <-] H.
  - intros prefix count d found s Hp Hi [= Hk%bool_decide_eq_true]. remember "0" as cursor eqn:Hc.
    destruct Hi as [cursor found Hf|cursor next found rest Hf Hn _]; [|by injection Hf as <- <-].
    injection Hf as <-. apply list_elem_of_In, filter_In. split; [by apply list_elem_of_In|].
    apply starts_with.
Qed.

(** ** Runs *)

(** A record reads as a job with given options. *)
Definition demo_job (o : JobOptions) : @Job json_ext := @Job_new json_ext "mail" "welcome" JNull o 0 "7".

Definition demo_ext_with (o : JobOptions) : @RedisExt json_ext :=
  {| json_from_str := λ _, Ok (JObject [("logs", JArray [])] : @Value json_ext);
     as_object := json_object : @Value json_ext → _;
     VObject := λ m, JObject (map_to_list m) : @Value json_ext;
     VArray := JArray : list (@Value json_ext) → @Value json_ext;
     job_from_value := λ _ : @Value json_ext, Ok (demo_job o);
     log_from_str := λ s, Ok (@Build_JobLogEntry 0 s);
     json_of_job := λ j, Ok (job_id j);
     RedisValue := Json;
     is_nil := λ v, match v with JNull => true | _ => false end;
     as_array := λ v, match v with JArray l => Some l | _ => None end;
     read_string := λ v, match v with JString s => Ok s | _ => Err "not a string" end;
     read_usize := λ v, match v with JNumber n => if n <? 0 then Err "negative" else Ok n | _ => Err "not a number" end;
     read_i64 := λ v, match v with JNumber n => Ok n | _ => Err "not a number" end;
     from_timestamp_millis := λ n, Some (n * nanos_per_milli);
     to_rfc3339 := show_nat |}.

Definition demo_ext_redis : @RedisExt json_ext := demo_ext_with default_options.

Definition mail : RedisQueueName := mkQueueName DEFAULT_NAMESPACE "mail".

Definition job_text (state : string) : string := pack [("state", state); ("scheduled_at", "1970-01-01T00:00:00Z")].

(** Two waiting jobs. *)
Definition two_waiting : Tables :=
  mkTables ∅
    {[ (redis_key mail JobsKey, "7") := job_text "waiting"; (redis_key mail JobsKey, "8") := job_text "waiting" ]}
    {[ (redis_key mail (StateKey Waiting), "7") := "5"; (redis_key mail (StateKey Waiting), "8") := "6" ]}.

Abbreviation claim_ worker token := (@claim_next_with_conn json_ext demo_ext_redis demo_lua Tables _ mail None worker (from_secs 30) 0 token).

(** A job held by a worker, and one that waits. *)
Definition held : Tables :=
  mkTables {[ redis_key mail (LockKey "7") := "t1" ]}
    {[ (redis_key mail JobsKey, "7") := job_text "active"; (redis_key mail JobsKey, "8") := job_text "waiting" ]}
    {[ (redis_key mail (StateKey Active), "7") := "30000"; (redis_key mail (StateKey Waiting), "8") := "6" ]}.

(** Other workers claim, renew, delay and release, with other tokens. *)
Definition rivals : list LeaseOp :=
  [OpClaimRedis None "w2" (from_secs 30) 0 "t2"; OpReleaseActive "7" "t2" 0;
   OpRenewLeases [{| rn_job_id := "7"; rn_lock_token := "t2" |}] (from_secs 30) 0;
   OpDelayActive "7" "t3" (from_secs 1) "1" 0; OpReleaseActive "8" "t2" 0;
   OpClaimRedis None "w3" (from_secs 30) 0 "t3"].

Lemma redis_leases_exclusive_witness :
  let d := foldl (@run_lease_op json_ext demo_ext_redis demo_lua Tables _ mail) held rivals in
  get (redis_key mail (LockKey "7")) d = Ok (Some "t1") ∧
  hget (redis_key mail JobsKey) "7" d = Ok (Some (job_text "active")).
Proof.
  refine (@redis_leases_exclusive json_ext demo_ext_redis demo_lua Tables _ _ mail rivals "7" "t1" (job_text "active") held
    _ _ _ _ _).
  - discriminate.
  - exists (LTable [] (prod_map id LString <$> [("state", "active"); ("scheduled_at", "1970-01-01T00:00:00Z")])).
    split; [|reflexivity]. unfold job_text. cbn [cjson_decode demo_lua]. by rewrite unpack_pack.
  - unfold rivals. repeat (apply Forall_cons; split); try apply Forall_nil; cbn; try (by intros [_ [=]]); try tauto.
    rewrite list_elem_of_singleton. by intros [=].
  - vm_compute. reflexivity.
  - cbn [hget demo_redis held t_hashes]. f_equal.
Defined.

Definition claimed : Tables * Reply (option (@Job json_ext)) := claim_ "w1" "t1" two_waiting.

Lemma redis_claim_gives_lease_witness : ∃ job : @Job json_ext,
  claimed = (claimed.1, Ok (Some job)) ∧
  ∃ id updated, get (redis_key mail (LockKey id)) claimed.1 = Ok (Some "t1") ∧
    hget (redis_key mail JobsKey) id claimed.1 = Ok (Some updated) ∧ @active_record demo_lua updated.
Proof.
  assert (is_ok claimed.2 = true ∧ match claimed.2 with Ok (Some _) => true | _ => false end = true) as [_ H]
    by (split; vm_compute; reflexivity).
  destruct claimed as [d' [[job|]|]] eqn:E; try discriminate H. exists job. split; [reflexivity|].
  destruct (@redis_claim_gives_lease json_ext demo_ext_redis demo_lua Tables _ _ _ mail None "w1" (from_secs 30) 0 "t1" two_waiting d' job E)
    as (id & updated & Hl & Hr & Ha & _). exists id, updated. split; [exact Hl|]. split; [exact Hr|exact Ha].
Defined.

Lemma single_renewal_fails_witness :
  (@renew_lease json_ext demo_ext_redis demo_lua Tables _ mail "7" "t1" (from_secs 30) 0 held).2 = fail (JobNotFound "7").
Proof.
  rewrite (@single_renewal_fails json_ext demo_ext_redis demo_lua Tables _ mail "7" "t1" (from_secs 30) 0 held); [reflexivity|].
  vm_compute. reflexivity.
Defined.

(** ** Reports *)
Abbreviation report_ o r id token := (@send_report json_ext (demo_ext_with o) demo_lua Tables _ mail r id token 0).

Lemma demo_requires o id raw d : state_eqb (job_state (demo_job o)) Active = false → hget (redis_key mail JobsKey) id d = Ok (Some raw) →
  @require_job json_ext (demo_ext_with o) Tables _ mail id d = Ok (demo_job o).
Proof.
  intros Hs H. unfold require_job, load_job. rewrite H. cbn [redis_read try_bind].
  unfold decode_job. cbn [json_from_str job_from_value demo_ext_with parsed try_bind].
  by rewrite Hs.
Qed.

Lemma held_record : hget (redis_key mail JobsKey) "7" held = Ok (Some (job_text "active")).
Proof. cbn [hget demo_redis held t_hashes]. f_equal. Qed.

(** The holder releases the job; others go on, and its token is refused. *)
Definition released : Tables * Reply (@Job json_ext) := report_ default_options ReportRelease "7" "t1" held.

Lemma redis_report_once_witness :
  is_ok released.2 = true ∧
  ∃ e, (report_ default_options (ReportFail "late" false) "7" "t1"
          (foldl (@run_call json_ext demo_ext_redis demo_lua Tables _ mail) released.1 (CallLease <$> rivals))).2 = Err e.
Proof.
  assert (is_ok released.2 = true) as H by (vm_compute; reflexivity). split; [exact H|].
  destruct released as [d' [job|e]] eqn:E; [|discriminate H].
  refine (proj2 (@redis_report_once json_ext demo_ext_redis demo_lua Tables _ _ mail _ ReportRelease (ReportFail "late" false) "7" "t1" 0 0
           held d' job (CallLease <$> rivals) E _)).
  unfold rivals. cbn [fmap list_fmap]. repeat (apply Forall_cons; split; [split; [exact I|cbn [draws]; first [tauto|discriminate]]|]).
  apply Forall_nil; exact I.
Defined.

Lemma redis_lease_holder_only_witness :
  report_ default_options (ReportFail "late" true) "7" "t2" held = (held, fail (JobLeaseConflict "lock token does not own job 7")).
Proof.
  refine (@redis_lease_holder_only json_ext demo_ext_redis demo_lua Tables _ mail (ReportFail "late" true) "7" "t2"
    (job_text "active") (Some "t1") (demo_job default_options) 0 held _ _ _ _ _ _ _).
  - apply held_record.
  - exists (LTable [] (prod_map id LString <$> [("state", "active"); ("scheduled_at", "1970-01-01T00:00:00Z")])).
    split; [|reflexivity]. unfold job_text. cbn [cjson_decode demo_lua]. by rewrite unpack_pack.
  - vm_compute. reflexivity.
  - discriminate.
  - by apply (demo_requires _ _ (job_text "active")).
  - reflexivity.
  - discriminate.
Defined.

(** Options that allow three retries. *)
Definition retrying : JobOptions := default_options <| opt_retry_policy := exponential 3 |>.

Definition failed_once : Tables * Reply (@Job json_ext) :=
  @fail_job json_ext (demo_ext_with retrying) demo_lua Tables _ mail "7" "t1" "timeout" 0 held.

Lemma redis_failed_attempt_returns_witness :
  ∃ updated, @record_says demo_lua updated "state" "delayed" ∧
    get (redis_key mail (LockKey "7")) failed_once.1 = Ok None ∧
    zscore (redis_key mail (StateKey Active)) "7" failed_once.1 = Ok None ∧
    hget (redis_key mail JobsKey) "7" failed_once.1 = Ok (Some updated).
Proof.
  assert (is_ok failed_once.2 = true) as H by (vm_compute; reflexivity).
  destruct failed_once as [d' [job|e]] eqn:E; [|discriminate H].
  destruct (@redis_failed_attempt_returns json_ext (demo_ext_with retrying) demo_lua Tables _ _ _ mail "7" "t1" "timeout" 0
    held d' (demo_job retrying) job) as (updated & _ & Hs & _ & _ & Hl & Ha & Hj & _).
  - by apply (demo_requires _ _ (job_text "active")).
  - reflexivity.
  - exact E.
  - exists updated. split; [exact Hs|]. split; [exact Hl|]. split; [exact Ha|exact Hj].
Defined.

(** ** The traffic of a queue *)

(** Rivals submit the job again and as the child of a flow, report on it with
    other tokens, try to remove, clean, recover and drain it, edit its record,
    remove its children, list the jobs, clear a series and try to obliterate the
    queue; other keys expire. *)
Definition spec_of (id : string) : @NewSpec json_ext :=
  (@Build_JobSpec json_ext "welcome" JNull default_options, id).

Definition traffic : list (@RedisCall json_ext demo_ext_redis) :=
  (CallLease <$> rivals) ++
  [CallSubmit (SubmitJob (spec_of "7") 0); CallSubmit (SubmitJobs [spec_of "7"; spec_of "9"] 0);
   CallSubmit (SubmitFlow (spec_of "10") [spec_of "7"; spec_of "11"] 0); CallSubmit (SubmitChildren "7" "t2" [spec_of "12"] 0)] ++
  [CallReport (ReportFail "late" false) "7" "t2" 0; CallReport ReportRelease "7" "t3" 0;
   CallLease (OpRenewLeases [{| rn_job_id := "7"; rn_lock_token := "t1" |}] (from_secs 30) 0);
   CallUpkeep (UpRecover 0); CallUpkeep (UpRemove "7" 0); CallUpkeep (UpClean Active 0 10 0); CallUpkeep (UpDrain true 0);
   CallUpkeep (UpProgress "7" (pack [("done", "half")])); CallUpkeep (UpPriority "7" 5 None); CallUpkeep UpPause;
   CallUpkeep (UpRemoveUnprocessed "7" 0); CallUpkeep (UpRemoveDependency "7" 0); CallUpkeep (UpRemoveOrphans 0 100 0);
   CallUpkeep (@UpListJobs json_ext demo_ext_redis (λ _, JNull) {| lo_state := None; lo_states := []; lo_offset := 0; lo_limit := 10; lo_ascending := true |});
   CallUpkeep UpStats; CallUpkeep (UpTrimEvents 10); CallUpkeep (UpClearOwner "daily" "7"); CallUpkeep (UpForgetScheduler "daily");
   CallObliterate 10 false; KeyExpires (ExpiringLock "9"); KeyExpires (ExpiringDeduplication "7"); KeyExpires ExpiringRateLimit].

Lemma active_text : @active_record demo_lua (job_text "active").
Proof.
  exists (LTable [] (prod_map id LString <$> [("state", "active"); ("scheduled_at", "1970-01-01T00:00:00Z")])).
  split; [|reflexivity]. unfold job_text. cbn [cjson_decode demo_lua]. by rewrite unpack_pack.
Qed.

Lemma held_secure : @secure demo_lua Tables _ mail "7" "t1" held.
Proof.
  split.
  - vm_compute. reflexivity.
  - exists (job_text "active"). split; [apply held_record|apply active_text].
  - exists "30000". vm_compute. reflexivity.
  - intros s Hs. destruct s; try done; vm_compute; reflexivity.
Qed.

Lemma traffic_allowed : Forall (λ c, sized c ∧ ¬ ends_lease "7" "t1" c) traffic.
Proof.
  unfold traffic, rivals. cbn [fmap list_fmap app].
  repeat (apply Forall_cons; split; [split; [first [exact I|by vm_compute]|unfold ends_lease; cbn [reports];
    first [tauto|by intros [[_ [=]]|[]]|by intros [[]|[=]]]]|]).
  apply Forall_nil; exact I.
Qed.

Definition after_traffic : Tables := foldl (@run_call json_ext demo_ext_redis demo_lua Tables _ mail) held traffic.

Lemma redis_leases_survive_witness :
  is_ok (@obliterate demo_lua Tables _ mail 10 true held).2 = true ∧ get (redis_key mail (LockKey "7")) after_traffic = Ok (Some "t1").
Proof.
  split; [vm_compute; reflexivity|].
  exact (@sec_lock demo_lua Tables _ mail "7" "t1" _
    (@redis_leases_survive json_ext demo_ext_redis demo_lua Tables _ _ _ mail "7" "t1" traffic held held_secure traffic_allowed)).
Defined.

(** *** A method of several commands in this traffic *)
#[export] Instance demo_clock : Clock Tables := {
  instant _ := 0;
  utc _ := 0;
  sleep _ d := d;
  bzpopmin key _ d :=
    match members key d with
    | [] => (d, Ok None)
    | (m, s) :: _ => (mkTables (t_strings d) (t_hashes d) (delete (key, m) (t_zsets d)), Ok (Some (m, f64_of_Z (unwrap_or (parse_u64 s) 0))))
    end;
}.

#[export] Instance demo_clock_laws : ClockLaws Tables.
Proof.
  split; try done; intros key t *; cbn.
  - by destruct (members key d) as [|[m s] l].
  - by destruct (members key d) as [|[m s] l].
  - intros Hne. destruct (members key d) as [|[m' s] l]; [done|]. cbn. f_equal. apply lookup_delete_ne. congruence.
  - intros [= H]. apply has_members in H. destruct (members key d) as [|[m' s'] l]; [done|]. by eexists _, _.
Qed.

(** Another worker waits for a job while all of it happens. *)
Lemma redis_leases_survive_errands_witness :
  let waits := @claim_next_blocking json_ext demo_ext_redis demo_lua Tables _ _ mail None "w2" (from_secs 30) 0 ["t9"] in
  get (redis_key mail (LockKey "7")) (RedisClient.alone waits after_traffic).1 = Ok (Some "t1").
Proof.
  intros waits. refine (@sec_lock demo_lua Tables _ mail "7" "t1" _
    (@redis_leases_survive_errands json_ext demo_ext_redis demo_lua Tables _ _ _ mail "7" "t1" _ _
      (ClaimBlocking None "w2" (from_secs 30) 0 ["t9"]) held _ _ held_secure)).
  exists (RedisClient.alone waits after_traffic).2. apply alone_later.
  - intros d. by exists [].
  - exists traffic. split; [exact traffic_allowed|reflexivity].
Defined.

(** ** A repeat series whose owner is gone *)
Definition stale_series : Tables :=
  mkTables {[ redis_key mail (RepeatOwnerKey "daily") := "99" ]} ∅ {[ (redis_key mail RepeatSchedulersKey, "daily") := "6" ]}.

Definition read_series : Tables * Reply (option JobRepeatEntry) :=
  RedisClient.alone (@get_repeat json_ext demo_ext_redis Tables _ mail "daily") stale_series.

Lemma reading_repairs_witness :
  get (redis_key mail (RepeatOwnerKey "daily")) stale_series = Ok (Some "99") ∧
  get (redis_key mail (RepeatOwnerKey "daily")) read_series.1 = Ok None ∧
  zscore (redis_key mail RepeatSchedulersKey) "daily" read_series.1 = Ok None.
Proof.
  split; [vm_compute; reflexivity|].
  assert (match read_series.2 with Ok None => true | _ => false end = true) as H by (vm_compute; reflexivity).
  destruct read_series as [d' [[e|]|e]] eqn:E; try discriminate H.
  exact (@reading_repairs json_ext demo_ext_redis Tables _ _ mail "daily" stale_series d' None ltac:(discriminate) E).
Defined.

(** ** Submissions *)

(** What the client sends of a job says its state. *)
Definition demo_ext_sending : @RedisExt json_ext :=
  let E := demo_ext_redis in
  {| json_from_str := @json_from_str _ E; as_object := @as_object _ E; VObject := @VObject _ E; VArray := @VArray _ E;
     job_from_value := @job_from_value _ E; log_from_str := @log_from_str _ E;
     json_of_job := λ j, Ok (job_text (job_state_name (job_state j)));
     RedisValue := @RedisValue _ E; is_nil := @is_nil _ E; as_array := @as_array _ E; read_string := @read_string _ E;
     read_usize := @read_usize _ E; read_i64 := @read_i64 _ E; from_timestamp_millis := @from_timestamp_millis _ E;
     to_rfc3339 := @to_rfc3339 _ E |}.

Definition submitted : Tables * Reply (@Job json_ext) :=
  @add_job json_ext demo_ext_sending demo_lua Tables _ mail (spec_of "12") 0 held.

Lemma redis_add_job_stores_witness :
  (is_ok submitted.2 = true ∧ is_some (t_zsets submitted.1 !! (redis_key mail (StateKey Waiting), "12")) = true) ∧
  ∃ id raw, hget (redis_key mail JobsKey) id submitted.1 = Ok (Some raw).
Proof.
  assert (is_ok submitted.2 = true ∧ is_some (t_zsets submitted.1 !! (redis_key mail (StateKey Waiting), "12")) = true) as [H1 H2]
    by (split; vm_compute; reflexivity).
  split; [by split|]. destruct submitted as [d' [job|e]] eqn:E; [|discriminate H1].
  destruct (@redis_add_job_stores json_ext demo_ext_sending demo_lua Tables _ _ _ mail (spec_of "12") 0 held d' job E)
    as (raw & _ & [(encoded & _ & _ & [H _] & _)|(id & _ & H)]); by repeat eexists.
Defined.

(** ** Obliteration *)

(** The queue has an active job; forced, its two records go. *)
Definition obliterated (force : bool) : Tables * Reply Z :=
  @obliterate demo_lua Tables _ mail 10 force held.

Example obliterate_answers :
  match (obliterated false).2 with Err (Raise (JobStateConflict _)) => true | _ => false end = true.
Proof. vm_compute. reflexivity. Qed.

Example obliterate_leaves_nothing :
  ∃ d', (∃ enough, ∀ fuel, (enough ≤ fuel)%nat → @obliterate demo_lua Tables _ mail fuel true held = (d', Ok 2)) ∧
    ∀ k, exists_key (redis_key mail k) d' ≠ Ok true.
Proof.
  destruct (exec (HSET (redis_key mail MetaKey) [("paused", number 1)]) held) as [d1 [r|e]] eqn:E; [|discriminate E].
  destruct (@redis_obliterate_empties demo_lua Tables _ _ mail true held d1 r 1 2) as (d' & enough & Hd & Hk).
  - vm_compute. reflexivity.
  - exact E.
  - injection E as <- _. vm_compute. reflexivity.
  - injection E as <- _. vm_compute. reflexivity.
  - lia.
  - by left.
  - exists d'. split; [by exists enough|exact Hk].
Qed.

(** ** Recovery *)

(** The lock of a job that a worker held is gone. *)
Definition stalled : Tables :=
  mkTables ∅ {[ (redis_key mail JobsKey, "7") := job_text "active" ]}
    {[ (redis_key mail (StateKey Active), "7") := "30000"; (redis_key mail StalledKey, "7") := "0" ]}.

Definition recovery_of (libs : LuaLibs) : FinishArgs :=
  let c := @recover_stalled_jobs_call json_ext demo_ext_redis 0 in recover_args (@KEYS_of libs mail c) (@ARGV_of libs mail c).

Definition recovered : Tables * outcome string bool :=
  @recover_stalled_one demo_lua Tables _ (recovery_of demo_lua) (redis_key mail (LockKey EmptyString)) "7" stalled.

Lemma stalled_job_waits_again_witness :
  is_ok recovered.2 = true ∧
  ∃ updated, hget (redis_key mail JobsKey) "7" recovered.1 = Ok (Some updated) ∧ @record_says demo_lua updated "state" "waiting".
Proof.
  assert (match recovered.2 with Ok b => b | _ => false end = true) as H by (vm_compute; reflexivity).
  destruct recovered as [d' [[]|e]] eqn:E; try discriminate H. split; [reflexivity|].
  destruct (@stalled_job_waits_again json_ext demo_ext_redis demo_lua Tables _ _ _ mail 0 "7" (job_text "active")
    (LTable [] (prod_map id LString <$> [("state", "active"); ("scheduled_at", "1970-01-01T00:00:00Z")])) f64_one f64_one stalled d')
    as (_ & updated & Hj & Hs & _).
  - cbn [hget demo_redis stalled t_hashes]. f_equal.
  - unfold job_text. cbn [cjson_decode demo_lua]. by rewrite unpack_pack.
  - vm_compute. reflexivity.
  - vm_compute. reflexivity.
  - vm_compute. reflexivity.
  - exact E.
  - exists updated. split; [exact Hj|exact Hs].
Defined.

(** A child whose parent may go on without it stalls for the second time. *)
Definition family_lua : LuaLibs := {|
  lua_stack := 100;
  cjson_decode := λ s,
    if String.eqb s "child" then
      Ok (LTable [] [("state", LString "active"); ("stalled_count", LNumber f64_one); ("parent_id", LString "9");
                     ("options", LTable [] [("continue_parent_on_failure", LBool true)])])
    else if String.eqb s "parent" then
      Ok (LTable [] [("state", LString "waiting_children"); ("scheduled_at", LString "1970-01-01T00:00:00Z")])
    else Err "not a table";
  cjson_encode := λ _, Ok "other";
  lua_strtod := λ s, f64_of_Z <$> parse_i64 s;
  lua_text := λ x, show_nat (f64_to_u64 x);
  float_text := λ x, show_nat (f64_to_u64 x);
|}.

Definition family : Tables :=
  mkTables ∅ {[ (redis_key mail JobsKey, "7") := "child"; (redis_key mail JobsKey, "9") := "parent" ]}
    {[ (redis_key mail (StateKey Active), "7") := "30000"; (redis_key mail StalledKey, "7") := "0";
       (redis_key mail (StateKey WaitingChildren), "9") := "0"; (redis_key mail (DependenciesKey "9"), "7") := "0" ]}.

Definition stranded : Tables * Reply Z := @recover_stalled_jobs json_ext demo_ext_redis family_lua Tables _ mail 0 family.

Definition in_set (s : JobState) (id : string) (d : Tables) : bool := is_some (t_zsets d !! (redis_key mail (StateKey s), id)).

Lemma recovery_strands_parents_witness :
  (is_ok stranded.2 = false ∧ t_hashes stranded.1 !! (redis_key mail JobsKey, "9") = Some "parent" ∧
   existsb (λ s, in_set s "9" stranded.1) [Waiting; Delayed; Active; WaitingChildren; Completed; Failed] = false) ∧
  ∃ e, (@resume_recovered_parent family_lua Tables _
    (recovery_of family_lua) (LTable [] [("state", LString "waiting_children")]) "9" LNull family).2 = Err e.
Proof.
  split; [split_and!; vm_compute; reflexivity|].
  refine (proj1 (@recovery_strands_parents json_ext demo_ext_redis family_lua Tables _ _ mail 0
    (LTable [] [("state", LString "waiting_children")]) "9" LNull family _)).
  exists (LNumber (f64_of_Z 1)). vm_compute. reflexivity.
Defined.
